(* ===== verification/_CoqProject ===== *)
-Q . S2P
Prelude.v
Transaction.v
PoolTx.v
PendingQueue.v
ReadyQueue.v
ReadyInv.v
ReadyIter.v
Pool.v
PoolInv.v
PoolOps.v
PoolTheorems.v
Clock.v
Mining.v
MiningTheorems.v
Fees.v
Snapshots.v
Database.v
States.v
StatesTheorems.v
Blocks.v
Chain.v
ChainTheorems.v
Validate.v
Executor.v
ExecutorTheorems.v
MemBackend.v
BackendInv.v
BackendTheorems.v
Radix.v
MultiFork.v
MultiForkTheorems.v
ForkBackend.v
ForkBackendInv.v
ForkBackendSelect.v
ForkTransact.v
ForkBackendOps.v
MultiForkClient.v
ForkBackendTheorems.v
ForkTransactTheorems.v
FuzzInts.v
Paths.v
FsAccess.v
FsTheorems.v
Pranks.v
PranksTheorems.v
Frames.v
ExpectEmit.v
ExpectEmitTheorems.v
ExpectRevert.v
ExpectCall.v
Mocks.v
StateDiffs.v
Mapping.v
Cheats.v
Inspector.v
InspectorStep.v
InspectorRun.v
Linking.v
LinkingTheorems.v
LinkingDeploy.v
FoldedTrace.v
Coverage.v
CoverageTheorems.v
CoverageItems.v
Anchors.v
AnchorsTheorems.v
Analysis.v
AnalysisTheorems.v
InspectorReverts.v
InspectorExpects.v
InspectorTheorems.v
InspectorExample.v
Contracts.v
FuzzTargets.v
FuzzDict.v
TestExecutor.v
Invariant.v
InvariantTheorems.v
Asserts.v
