(* ===== verification/Prelude.v ===== *)
(** * A verification of foundry-zksync

    The program is the Rust workspace under
    [src/foundry-fundamentals/foundry-zksync/crates] (paths below are relative
    to it).  Its largest stateful part is anvil, a development node: clients
    submit transactions over RPC, a pool orders them, a miner picks the ones
    for the next block, an executor runs them on the state, and a backend
    stores the block, the receipts and the old states, and rolls them back on
    request.  This development models that path from submission to storage.

    ** How the parts interact, and where they are modelled

    - A transaction ([anvil/core/src/eth/transaction/mod.rs]): [Transaction].
      The bytes, signature recovery and RLP are third-party and are the class
      [Crypto].
    - The RPC handlers ([anvil/src/eth/api.rs], the part that submits a
      transaction) attach markers: [PoolTx].
    - The pool ([anvil/src/eth/pool/]): [PendingQueue] is the waiting queue,
      [ReadyQueue] the ready queue, [ReadyIter] the iterator over it, [Pool]
      their composition with the listeners.  [ReadyInv] and [PoolInv] hold the
      invariants, [PoolOps] the effect of each operation, [PoolTheorems]
      runs of operations and the results.
    - The miner and the node service ([anvil/src/eth/miner.rs],
      [anvil/src/service.rs]): [Mining], [MiningTheorems].  A
      poll is one step; what the environment does meanwhile is an argument of
      the step.
    - The block clock ([anvil/src/eth/backend/time.rs]): [Clock].
    - Fees ([anvil/src/eth/fees.rs]): [Fees].
    - State snapshots ([evm/core/src/state_snapshot.rs] and
      [anvil/src/eth/backend/mem/in_memory_db.rs]): [Snapshots], with the stack
      they implement.
    - The databases ([anvil/src/eth/backend/db.rs]): [Database].
    - The history of states in memory and on disk
      ([anvil/src/eth/backend/mem/storage.rs], [mem/cache.rs]): [States],
      [StatesTheorems].
    - Blocks, receipts and the block storage ([anvil/core/src/eth/block.rs],
      [mem/storage.rs]): [Blocks], [Chain], [ChainTheorems].
    - Validation and execution ([mem/mod.rs], [anvil/src/eth/backend/executor.rs]):
      [Validate], [Executor], [ExecutorTheorems].  The EVM itself is the class
      [ExecutorEnv].
    - The backend ([mem/mod.rs]: mining, rolling back, snapshots and reverts),
      composed of all of these: [MemBackend], [BackendInv], [BackendTheorems].

    Beside the node, the workspace has tools whose core is independent of it:

    - The file cheatcodes of tests and scripts ([cheatcodes/src/fs.rs],
      [json.rs], [toml.rs], [config.rs]) and the permissions they obey
      ([config/src/fs_permissions.rs]): [FsAccess], [FsTheorems], on the paths
      of [Paths], which also holds [normalize_path] of [common/src/fs.rs].  The
      file system is a class; the state records every call made to it.
    - The backend of tests and scripts ([evm/core/src/backend/]): [ForkBackend]
      is the state with its forks and snapshots, and the operations on them
      with the merge strategy of the EVM; [ForkTransact] the transactions on
      forks, the database traits and the diagnosis of reverts.  An operation is
      a function of the backend and of the environment and the journaled state
      it is called with; it may fail halfway, and a panic is [None].
      [ForkBackendInv] holds the invariant, with a frame rule for a fork that
      nobody names, [ForkBackendSelect] the effect of selecting a fork,
      [ForkBackendOps] the invariant for transactions and runs of operations,
      [ForkBackendTheorems] and [ForkTransactTheorems] the results.
    - The handler of remote forks ([evm/core/src/fork/multi.rs]), a thread that
      is polled: [MultiFork], [MultiForkTheorems].  What the backend relies on
      is the class [ForkHandlerLaws]; [MultiForkClient] discharges it for the
      handler.  [Radix] holds numbers written in a base, as in the ids.
    - Pranks ([cheatcodes/src/evm/prank.rs] and the hooks of
      [cheatcodes/src/inspector.rs] that apply them): [Pranks],
      [PranksTheorems].  The EVM is a tree of calls and creations around which
      the hooks run.
    - The cheatcode inspector ([cheatcodes/src/inspector.rs], [evm.rs],
      [script.rs], [test/] and [evm/], and [evm/evm/src/inspectors/stack.rs],
      which runs it).  [Frames] is what it shares with revm; [ExpectEmit],
      [ExpectRevert], [ExpectCall], [Mocks], [StateDiffs] and [Mapping] are its
      parts, each with the cheatcodes that set it and the piece of a hook that
      uses it; [Cheats] is its state and the dispatch of cheatcodes;
      [Inspector] the hooks around calls, creations and logs, composed of the
      parts in the order of the source; [InspectorStep] those around
      instructions.  [InspectorRun] defines executions: a frame is a list of
      instructions, logs, calls and creations with frames of their own, so that
      a theorem about all of them is one about all contracts; it also holds
      the induction principle ([Hooks]: a relation that every hook has, every
      execution has) and the tactics that show which fields a hook leaves
      alone.  The results are in [ExpectEmitTheorems], [InspectorReverts],
      [InspectorExpects] (calls, events and memory) and [InspectorTheorems],
      which also has what differs from the documentation; [InspectorExample] is
      a concrete instance of the parameters.
    - The assertions among the cheatcodes ([cheatcodes/src/test/assert.rs]):
      [Asserts].
    - The library linker ([linking/src/lib.rs]): [Linking], [LinkingTheorems]
      (what is collected), [LinkingDeploy] (what is deployed and where).
    - Folded stack traces ([evm/traces/src/folded_stack_trace.rs]):
      [FoldedTrace].
    - The integer strategies of the fuzzer ([evm/fuzz/src/strategies/]):
      [FuzzInts].
    - Invariant tests: random sequences of calls after each of which an
      invariant is checked.  [Contracts] finds the artifact that some code
      belongs to ([common/src/contracts.rs]); [FuzzTargets] is what may be
      called ([evm/fuzz/src/invariant/]) and how it is chosen from what the
      test declares; [FuzzDict] the dictionary of values
      ([evm/fuzz/src/strategies/state.rs]); [TestExecutor] the executor of
      calls ([evm/evm/src/executors/mod.rs], [strategy.rs]) and the fuzzing
      inspector that adds calls of its own; [Invariant] the campaign, the
      shrinking of a failing sequence and its replay
      ([evm/evm/src/executors/invariant/]).  What the clones of an executor
      share behind locks is one record, [Shared], passed through every call.
      The results on [Invariant] are in [InvariantTheorems], whose module
      [InvariantExample] is a small contract with an invariant that breaks.
    - Coverage ([evm/coverage/src/]): [Analysis] is the visitor of the Solidity
      AST that finds the items ([AnalysisTheorems] the effect of each visit
      and the results); [Coverage] is the inspector, whose raw
      pointer into a hash map is modelled with a heap, the hit maps, the items
      and the report; [Anchors] the instruction counters
      ([evm/core/src/ic.rs]) and the search for the instructions that stand
      for an item.  The results are in [CoverageTheorems], [CoverageItems]
      and [AnchorsTheorems].

    ** What the theorems show

    - Pool: no run of operations panics or loops, everything that leaves the
      pool is reported, and the iterator yields every ready transaction once,
      after its dependencies and best first.
    - Mining: no interleaving of polls, RPC calls and mode changes makes the
      node panic, blocks are mined one at a time and in order, and a node left
      alone in automatic mode gets everything that is ready out of the pool.
    - Clock, fees, snapshots, databases, state history and block storage: the
      contract of each, as an invariant of every run or as a refinement of an
      abstract object (a stack of snapshots, a map of states, a list of
      blocks).
    - Execution: the block contains the executable transactions in order with
      their receipts, within the gas and blob gas limits.
    - Backend: mining extends a valid chain to a valid chain that the storage
      holds exactly, and reverting to a snapshot restores the chain it was
      taken on.
    - File cheatcodes: every call to the file system is permitted, on a
      normalised path below a path that grants it.
    - Backend of tests: no run of operations panics and every fork id keeps a
      fork of its own; forks do not see each other's accounts; a snapshot
      brings back what it saved; ids of forks are unique however requests and
      answers interleave.
    - Pranks: the pranks of all depths implement one pending prank of the frame
      that set it, whatever the frames below do.
    - Inspector: over every execution, a test passes only if the calls it
      expects are made as often as expected; the next call is seen as
      successful exactly if it reverts as expected, and keeps its status exactly
      if the expected events are emitted in order; instructions that write
      outside the safe memory are stopped, and no others; the recorded logs are
      those of the execution; a reverted test takes its deals back; the most
      specific mock answers; recorded mapping slots are
      listed with the parent they were hashed from.
    - Linker: the libraries collected are the reachable ones; each is deployed
      once, after those it refers to, at the address everything is linked
      with; cycles are reported.
    - Folded stack traces: the lines are the calls of the trace, each with the
      gas it used itself.
    - Assertions: an assertion fails exactly if the relation it is named after
      does not hold, and its failure reverts or marks the test as configured.
    - Fuzzing: only values of the type are generated, each of them can be, and
      shrinking ends at a boundary of the failing values.
    - Invariant tests: the campaign ends without a panic; a run that completes
      kept the invariant after each of its calls; a broken invariant is
      recorded with a sequence of calls that breaks it again; shrinking gives a
      part of the sequence that still fails and needs each of its calls,
      unless it reaches its limit.  These assume that the EVM answers alike
      for executors that differ in reverted calls only ([replayable]), and for
      the same calls ([reproducible]), whatever the clones share.  Only functions that are targeted or may change the state
      are called, the dictionary of a run is truncated after it, overrides of a
      call are replayed as recorded, and code is attributed to the contract it
      equals.
    - Coverage: the analysis of the sources never panics and finds items with
      unique branches and lines; the pointer of the inspector is always valid
      and the counts are the executions; instruction counters name exactly the
      instructions; each item has at most one anchor, and the one the code
      means; the report and its summaries add up, however the hits are
      grouped.
    - Theorems stated as observations record behaviour that differs from a
      comment or from the evident intention of the code.

    ** Conventions

    - A Rust [Result] is a [result]; a panic is [None].  A loop whose
      recursion is not structural takes a bound on its iterations and gives
      [None] when it is exhausted.  Each such bound is computed from the
      argument (the number of transactions in the queue for the pool's
      traversals, the number of stored states for the eviction of states, the
      depth of a run and the assumptions it may reject for an invariant test,
      and so on), and the theorems prove that the result is not [None], so the
      bound is never reached.
    - Unsigned and signed integers are [Z]; wrapping, saturating and checked
      operations are written where the code uses them.
    - A [HashMap] is a [gmap] and its iteration order is a parameter
      ([HashOrder], [MapOrder]), so nothing that is proved depends on it.
    - Code outside the sources (alloy, revm, tokio, the file system) is a
      section variable or the field of a class.  What is assumed of it is a
      named law of that class or a hypothesis of the theorem, and each theorem
      with hypotheses has a witness ([..._witness]) on a concrete instance.
    - System time, random numbers and results of I/O are arguments.
    - A definition that translates only part of a function (a loop, a branch) is
      named after that part and stands before the definition of the function,
      whose entry in the manifest covers both.

    ** What is not modelled

    RPC encoding and transport, logging, the forking client of anvil, the EVM,
    compilation and the command line parsers are I/O or calls into libraries
    that are not part of the sources.  Of the cheatcodes, those that only call
    such a library (parsing, signing, RPC, processes) are a parameter of the
    dispatch; the zkVM strategy of the inspector runs zksync-era, which is not
    part of the sources either.  The inspector stack is modelled without
    isolation, which starts a second EVM, and without the inspectors that only
    observe.  The executor of tests is modelled without its zkSync strategy, and
    the values of the arguments it calls functions with come from proptest and
    are parameters.  The fuzzing of single tests, the test runner and the
    script runner, which set up revm and the compiler around the modelled
    parts, are left out. *)
(** ** Shared vocabulary *)
From Stdlib Require Export ZArith Lia.
From stdpp Require Export prelude gmap sorting fin_maps.

(** * Fallible and aborting code

    A Rust function that returns [Result<A, E>] is modelled by [result A E].
    A Rust function that may panic (an [assert!], an [expect], a checked
    index) or that is a loop run with a bounded number of iterations returns
    an [option]: [None] is "panicked or did not finish", and the theorems of
    the development show that it does not happen. *)

Inductive result (A E : Type) : Type :=
  | Ok (a : A)
  | Err (e : E).
Arguments Ok {A E} a.
Arguments Err {A E} e.

Definition is_ok {A E} (r : result A E) : bool :=
  match r with Ok _ => true | Err _ => false end.

Declare Scope foundry_scope.
Delimit Scope foundry_scope with foundry.

(** [c ?; k]: Rust's [assert!(c); k]. *)
Notation "'assert!' c ';;' k" := (if c then k else None)
  (at level 60, c at level 59, right associativity) : foundry_scope.
Global Open Scope foundry_scope.

(** * Machine integers

    A value of type [u64], [u128], [i128], ... is a [Z] in the range of the
    type; the operations that wrap, saturate or cast write that out. *)

Definition u8_max : Z := 2 ^ 8 - 1.
Definition u64_max : Z := 2 ^ 64 - 1.
Definition u128_max : Z := 2 ^ 128 - 1.
Definition i128_min : Z := - 2 ^ 127.
Definition i128_max : Z := 2 ^ 127 - 1.

Definition is_u64 (x : Z) : Prop := (0 ≤ x ≤ u64_max)%Z.
Definition is_u128 (x : Z) : Prop := (0 ≤ x ≤ u128_max)%Z.
Definition is_i128 (x : Z) : Prop := (i128_min ≤ x ≤ i128_max)%Z.

(** [x as u64] truncates to the low 64 bits. *)
Definition as_u64 (x : Z) : Z := (x mod 2 ^ 64)%Z.
Definition as_i64 (x : Z) : Z := ((x + 2 ^ 63) mod 2 ^ 64 - 2 ^ 63)%Z.

Definition wrapping_add_u64 (x y : Z) : Z := ((x + y) mod 2 ^ 64)%Z.
Definition saturating_add_u64 (x y : Z) : Z := Z.min u64_max (x + y).
Definition saturating_add_u128 (x y : Z) : Z := Z.min u128_max (x + y).
Definition saturating_mul_u128 (x y : Z) : Z := Z.min u128_max (x * y).
(** [saturating_sub] on any unsigned type. *)
Definition saturating_sub (x y : Z) : Z := Z.max 0 (x - y).
Definition saturating_add_i128 (x y : Z) : Z :=
  Z.max i128_min (Z.min i128_max (x + y)).

(** [u64::to_le_bytes]: the [n] least significant bytes, lowest first. *)
Fixpoint to_le_bytes (n : nat) (x : Z) : list Z :=
  match n with
  | O => []
  | S n => (x mod 256)%Z :: to_le_bytes n (x / 256)%Z
  end.

(** * Vectors *)

Section vec.
Context {A : Type}.

(** [Vec::pop]: takes the last element. *)
Fixpoint vec_pop (l : list A) : option (A * list A) :=
  match l with
  | [] => None
  | x :: l' =>
      match vec_pop l' with
      | None => Some (x, [])
      | Some (y, l'') => Some (y, x :: l'')
      end
  end.

(** [Vec::swap_remove]: the last element takes the place of the removed one. *)
Definition swap_remove (i : nat) (l : list A) : list A :=
  match vec_pop l with
  | None => []
  | Some (x, l') => if decide (i = length l') then l' else <[i := x]> l'
  end.

(** [v.iter().position(|x| x == a)] followed by [v.swap_remove(idx)] when
    there is such a position. *)
Definition swap_remove_first `{EqDecision A} (a : A) (l : list A) : list A :=
  match list_find (λ x, x = a) l with
  | Some (i, _) => swap_remove i l
  | None => l
  end.

End vec.

(** * Ordered sets

    [BTreeSet<T>] for an ordering given by a comparison: the elements in
    ascending order.  [insert] keeps the element that is already there when
    an equal one is inserted. *)

Section btree_set.
Context {A : Type} (cmp : A → A → comparison).

Fixpoint bt_insert (x : A) (l : list A) : list A :=
  match l with
  | [] => [x]
  | y :: l' =>
      match cmp x y with
      | Lt => x :: y :: l'
      | Eq => y :: l'
      | Gt => y :: bt_insert x l'
      end
  end.

Fixpoint bt_remove (x : A) (l : list A) : list A :=
  match l with
  | [] => []
  | y :: l' =>
      match cmp x y with
      | Lt => y :: l'
      | Eq => l'
      | Gt => y :: bt_remove x l'
      end
  end.

(** [set.get(&x)]: the stored element equal to [x]. *)
Fixpoint bt_get (x : A) (l : list A) : option A :=
  match l with
  | [] => None
  | y :: l' =>
      match cmp x y with
      | Lt => None
      | Eq => Some y
      | Gt => bt_get x l'
      end
  end.

(** [set.iter().next_back()]: the greatest element. *)
Definition bt_max (l : list A) : option A := last l.

(** [set.take(&x)]: removes and returns the stored element equal to [x]. *)
Definition bt_take (x : A) (l : list A) : option (A * list A) :=
  y ← bt_get x l; Some (y, bt_remove x l).

End btree_set.

(** * Stable sorting

    [slice::sort_by] keeps the order of elements that compare equal. *)

Section stable_sort.
Context {A : Type} (cmp : A → A → comparison).

Fixpoint insert_by (x : A) (l : list A) : list A :=
  match l with
  | [] => [x]
  | y :: l' => match cmp x y with Gt => y :: insert_by x l' | _ => x :: y :: l' end
  end.

Definition sort_by (l : list A) : list A := foldr insert_by [] l.

End stable_sort.

(** * Ordered maps

    [BTreeMap<K, V>]: the entries in the order of the keys. *)

Section btree_map.
Context {K V : Type} (cmp : K → K → comparison).

Fixpoint bm_get (k : K) (m : list (K * V)) : option V :=
  match m with
  | [] => None
  | (k', v) :: m => match cmp k k' with Eq => Some v | _ => bm_get k m end
  end.

Fixpoint bm_insert (k : K) (v : V) (m : list (K * V)) : list (K * V) :=
  match m with
  | [] => [(k, v)]
  | (k', v') :: m' =>
      match cmp k k' with
      | Lt => (k, v) :: m
      | Eq => (k, v) :: m'
      | Gt => (k', v') :: bm_insert k v m'
      end
  end.

(** [m.extend(other)] *)
Definition bm_extend (m other : list (K * V)) : list (K * V) :=
  foldl (λ m kv, bm_insert (fst kv) (snd kv) m) m other.
End btree_map.

(** * Lemmas *)

(** ** Machine integers *)

Lemma as_u64_small x : is_u64 x → as_u64 x = x.
Proof. unfold is_u64, u64_max, as_u64. intros. apply Z.mod_small. lia. Qed.

Lemma as_i64_small x : (- 2 ^ 63 ≤ x < 2 ^ 63)%Z → as_i64 x = x.
Proof. unfold as_i64. intros. rewrite Z.mod_small; lia. Qed.

Lemma as_u64_range x : is_u64 (as_u64 x).
Proof.
  unfold is_u64, u64_max, as_u64.
  pose proof (Z.mod_pos_bound x (2 ^ 64)). lia.
Qed.

Lemma to_le_bytes_length n x : length (to_le_bytes n x) = n.
Proof. revert x. induction n; intros; simpl; auto. Qed.

Lemma to_le_bytes_inj n x y :
  (0 ≤ x < 256 ^ Z.of_nat n)%Z → (0 ≤ y < 256 ^ Z.of_nat n)%Z →
  to_le_bytes n x = to_le_bytes n y → x = y.
Proof.
  revert x y. induction n as [|n IH]; intros x y Hx Hy Heq.
  - simpl in *. lia.
  - simpl in Heq. injection Heq as Hmod Hdiv.
    rewrite Nat2Z.inj_succ, Z.pow_succ_r in Hx, Hy by lia.
    apply IH in Hdiv.
    + rewrite (Z.div_mod x 256), (Z.div_mod y 256) by lia. congruence.
    + split; [apply Z.div_pos; lia | apply Z.div_lt_upper_bound; lia].
    + split; [apply Z.div_pos; lia | apply Z.div_lt_upper_bound; lia].
Qed.

(** ** Vectors *)

Section vec_lemmas.
Context {A : Type}.
Implicit Types l : list A.

Lemma vec_pop_app l x : vec_pop (l ++ [x]) = Some (x, l).
Proof. induction l as [|y l IH]; simpl; [done|]. by rewrite IH. Qed.

Lemma vec_pop_Some l x l' : vec_pop l = Some (x, l') ↔ l = l' ++ [x].
Proof.
  split; [|intros ->; apply vec_pop_app].
  destruct l as [|y l0] using rev_ind; [done|].
  rewrite vec_pop_app. by intros [= -> ->].
Qed.

Lemma vec_pop_None l : vec_pop l = None ↔ l = [].
Proof.
  destruct l as [|y l0] using rev_ind; [done|].
  rewrite vec_pop_app. split; [done|]. by destruct l0.
Qed.

Lemma swap_remove_perm l i x :
  l !! i = Some x → x :: swap_remove i l ≡ₚ l.
Proof.
  unfold swap_remove. intros Hi.
  destruct (vec_pop l) as [[z l']|] eqn:Hpop; cycle 1.
  { apply vec_pop_None in Hpop. by subst. }
  apply vec_pop_Some in Hpop as ->.
  case_decide as Hlen.
  - subst i. rewrite list_lookup_middle in Hi by done. simplify_eq.
    by rewrite Permutation_app_comm.
  - rewrite lookup_app_Some in Hi.
    destruct Hi as [Hi | [Hge Hi]]; cycle 1.
    { apply list_lookup_singleton_Some in Hi as [Hi ->]. lia. }
    pose proof (lookup_lt_Some _ _ _ Hi) as Hlt.
    rewrite insert_take_drop by done.
    rewrite <- (take_drop_middle l' i x Hi) at 3.
    generalize (take i l'), (drop (S i) l'). intros l1 l2.
    rewrite <- Permutation_middle, <- (Permutation_app_comm [z]). simpl.
    rewrite <- Permutation_middle. apply perm_swap.
Qed.

Context `{EqDecision A}.

Lemma swap_remove_first_in a l :
  a ∈ l → a :: swap_remove_first a l ≡ₚ l.
Proof.
  intros Hin. unfold swap_remove_first.
  destruct (list_find (λ x, x = a) l) as [[i x]|] eqn:Hf.
  - apply list_find_Some in Hf as (Hi & -> & _). by apply swap_remove_perm.
  - apply list_find_None in Hf. rewrite Forall_forall in Hf. by apply Hf in Hin.
Qed.

Lemma swap_remove_first_notin a l :
  a ∉ l → swap_remove_first a l = l.
Proof.
  intros Hin. unfold swap_remove_first.
  destruct (list_find (λ x, x = a) l) as [[i x]|] eqn:Hf; [|done].
  apply list_find_Some in Hf as (Hi & -> & _).
  by apply list_elem_of_lookup_2 in Hi.
Qed.

Lemma elem_of_swap_remove_first a b l :
  b ∈ swap_remove_first a l → b ∈ l.
Proof.
  destruct (decide (a ∈ l)) as [Hin|Hout].
  - intros Hb. rewrite <- (swap_remove_first_in a l Hin). by right.
  - by rewrite swap_remove_first_notin.
Qed.

Lemma elem_of_swap_remove_first_ne a b l :
  b ≠ a → b ∈ l → b ∈ swap_remove_first a l.
Proof.
  intros Hne Hb. destruct (decide (a ∈ l)) as [Hin|Hout].
  - rewrite <- (swap_remove_first_in a l Hin) in Hb.
    apply elem_of_cons in Hb as [?|?]; done.
  - by rewrite swap_remove_first_notin.
Qed.

Lemma length_swap_remove_first a l : length (swap_remove_first a l) ≤ length l.
Proof.
  destruct (decide (a ∈ l)) as [Hin|Hout].
  - rewrite <- (swap_remove_first_in a l Hin) at 2. simpl. lia.
  - by rewrite swap_remove_first_notin.
Qed.

End vec_lemmas.

(** ** Ordered sets *)

(** A comparison that is a total preorder whose equivalence is [Eq]. *)
Class OrdCmp {A} (cmp : A → A → comparison) : Prop := {
  cmp_opp x y : cmp y x = CompOpp (cmp x y);
  cmp_lt_trans x y z : cmp x y = Lt → cmp y z = Lt → cmp x z = Lt;
  cmp_eq_l x y z : cmp x y = Eq → cmp x z = cmp y z;
}.

Section btree_set_membership.
Context {A : Type} (cmp : A → A → comparison).
Implicit Types l : list A.

Lemma elem_of_bt_insert x y l : y ∈ bt_insert cmp x l → y = x ∨ y ∈ l.
Proof.
  induction l as [|z l IH]; simpl; [set_solver|].
  destruct (cmp x z); set_solver.
Qed.

Lemma bt_insert_mono x y l : y ∈ l → y ∈ bt_insert cmp x l.
Proof.
  induction l as [|z l IH]; simpl; [set_solver|].
  destruct (cmp x z); set_solver.
Qed.

Lemma bt_insert_or x l : x ∈ bt_insert cmp x l ∨ ∃ y, y ∈ l ∧ cmp x y = Eq.
Proof.
  induction l as [|z l IH]; simpl; [left; by constructor|].
  destruct (cmp x z) eqn:Hc; [right; exists z; by split; [left|]|by left; left|].
  destruct IH as [?|(y & ? & ?)]; [by left; right|right; exists y; by split; [right|]].
Qed.

Lemma bt_insert_new x l : (∀ y, y ∈ l → cmp x y ≠ Eq) → x ∈ bt_insert cmp x l.
Proof.
  induction l as [|z l IH]; simpl; [set_solver|]. intros Hne.
  destruct (cmp x z) eqn:Hc; [|set_solver|].
  - exfalso. apply (Hne z); set_solver.
  - right. apply IH. set_solver.
Qed.

Lemma elem_of_bt_remove x y l : y ∈ bt_remove cmp x l → y ∈ l.
Proof.
  induction l as [|z l IH]; simpl; [done|]. destruct (cmp x z); set_solver.
Qed.

Lemma bt_remove_keep x y l : y ∈ l → cmp x y ≠ Eq → y ∈ bt_remove cmp x l.
Proof.
  induction l as [|z l IH]; simpl; [done|]. intros Hy Hne.
  apply elem_of_cons in Hy as [->|Hy].
  - destruct (cmp x z); [done|left|left].
  - destruct (cmp x z); [done|by right|]. right. auto.
Qed.

Lemma bt_get_Some x y l : bt_get cmp x l = Some y → y ∈ l ∧ cmp x y = Eq.
Proof.
  induction l as [|z l IH]; simpl; [done|].
  destruct (cmp x z) eqn:Hc; intros; simplify_eq; [by split; [left|]|].
  destruct IH; [done|]. split; [by right|done].
Qed.

End btree_set_membership.

Section btree_set_lemmas.
Context {A : Type} (cmp : A → A → comparison) `{!OrdCmp cmp}.
Implicit Types l : list A.

Definition bt_sorted l : Prop := StronglySorted (λ x y, cmp x y = Lt) l.

Lemma cmp_refl x : cmp x x = Eq.
Proof. pose proof (cmp_opp x x). by destruct (cmp x x). Qed.

Lemma cmp_eq_sym x y : cmp x y = Eq → cmp y x = Eq.
Proof. intros H. rewrite cmp_opp, H. done. Qed.

Lemma cmp_gt_lt x y : cmp x y = Gt → cmp y x = Lt.
Proof. intros H. rewrite cmp_opp, H. done. Qed.

Lemma bt_insert_sorted x l : bt_sorted l → bt_sorted (bt_insert cmp x l).
Proof.
  unfold bt_sorted. induction 1 as [|z l Hl IH Hz]; simpl.
  { repeat constructor. }
  destruct (cmp x z) eqn:Hc.
  - by constructor.
  - constructor; [by constructor|]. constructor; [done|].
    eapply Forall_impl; [exact Hz|]. intros w Hw. by eapply cmp_lt_trans.
  - constructor; [done|]. rewrite Forall_forall in Hz |- *.
    intros w [->|Hw]%elem_of_bt_insert; [by apply cmp_gt_lt | auto].
Qed.

Lemma bt_remove_out x y l :
  bt_sorted l → y ∈ bt_remove cmp x l → cmp x y ≠ Eq.
Proof.
  unfold bt_sorted. induction 1 as [|z l Hl IH Hz]; simpl; [by intros ?%elem_of_nil|].
  rewrite Forall_forall in Hz. destruct (cmp x z) eqn:Hc.
  - intros Hy. apply Hz in Hy. by rewrite (cmp_eq_l x z y Hc), Hy.
  - intros [->|Hy]%elem_of_cons; [congruence|].
    apply Hz in Hy. by rewrite (cmp_lt_trans x z y).
  - intros [->|Hy]%elem_of_cons; [congruence|]. auto.
Qed.

Lemma bt_remove_sorted x l : bt_sorted l → bt_sorted (bt_remove cmp x l).
Proof.
  unfold bt_sorted. induction 1 as [|z l Hl IH Hz]; simpl; [constructor|].
  destruct (cmp x z) eqn:Hc; [done|by constructor|].
  constructor; [done|]. rewrite Forall_forall in Hz |- *.
  intros w Hw%elem_of_bt_remove. auto.
Qed.

Lemma bt_get_self x l : bt_sorted l → x ∈ l → bt_get cmp x l = Some x.
Proof.
  unfold bt_sorted. induction 1 as [|z l Hl IH Hz]; simpl; [by intros ?%elem_of_nil|].
  rewrite Forall_forall in Hz. intros [->|Hx]%elem_of_cons; [by rewrite cmp_refl|].
  rewrite cmp_opp, (Hz x Hx). auto.
Qed.

Lemma bt_max_spec x l :
  bt_sorted l → bt_max l = Some x →
  x ∈ l ∧ ∀ y, y ∈ l → y = x ∨ cmp y x = Lt.
Proof.
  unfold bt_sorted, bt_max. induction 1 as [|z l Hl IH Hz]; [done|].
  rewrite Forall_forall in Hz. destruct l as [|w l].
  { intros [= ->]. set_solver. }
  intros Hlast. change (last (z :: w :: l)) with (last (w :: l)) in Hlast.
  destruct (IH Hlast) as [Hin Hmax]. split; [by right|].
  intros y [->|Hy]%elem_of_cons; [right; by apply Hz | auto].
Qed.

Lemma bt_max_None l : bt_max l = None ↔ l = [].
Proof. apply last_None. Qed.

Lemma bt_take_max x l :
  bt_sorted l → bt_max l = Some x →
  bt_take cmp x l = Some (x, bt_remove cmp x l).
Proof.
  intros Hs Hm. destruct (bt_max_spec x l Hs Hm) as [Hin _].
  unfold bt_take. by rewrite bt_get_self.
Qed.

Lemma bt_sorted_nodup l : bt_sorted l → NoDup l.
Proof.
  unfold bt_sorted. induction 1 as [|z l Hl IH Hz]; constructor; [|done].
  rewrite Forall_forall in Hz. intros Hin. apply Hz in Hin. by rewrite cmp_refl in Hin.
Qed.

End btree_set_lemmas.

(** ** Sorting *)

Section sort_lemmas.
Context {A : Type} (cmp : A → A → comparison).
Context (cmp_flip : ∀ x y, cmp x y = Gt → cmp y x ≠ Gt).
Context (cmp_le_trans : ∀ x y z, cmp x y ≠ Gt → cmp y z ≠ Gt → cmp x z ≠ Gt).

Lemma insert_by_perm x l : insert_by cmp x l ≡ₚ x :: l.
Proof.
  induction l as [|y l IH]; simpl; [done|]. destruct (cmp x y); [done|done|].
  rewrite IH. constructor.
Qed.

Lemma sort_by_perm l : sort_by cmp l ≡ₚ l.
Proof. induction l as [|x l IH]; simpl; [done|]. by rewrite insert_by_perm, IH. Qed.

Lemma insert_by_sorted x l :
  StronglySorted (λ x y, cmp x y ≠ Gt) l → StronglySorted (λ x y, cmp x y ≠ Gt) (insert_by cmp x l).
Proof.
  induction 1 as [|y l Hl IH Hy]; simpl; [repeat constructor|].
  assert (cmp x y ≠ Gt → StronglySorted (λ x y, cmp x y ≠ Gt) (x :: y :: l)) as Hle.
  { intros Hc. constructor; [by constructor|]. constructor; [done|].
    eapply Forall_impl; [exact Hy|]. intros z ?. by eapply cmp_le_trans. }
  destruct (cmp x y) eqn:Hc; [by apply Hle|by apply Hle|].
  constructor; [done|]. rewrite Forall_forall in Hy |- *. intros z Hz.
  rewrite insert_by_perm in Hz. apply elem_of_cons in Hz as [->|Hz]; [by apply cmp_flip|auto].
Qed.

Lemma sort_by_sorted l : StronglySorted (λ x y, cmp x y ≠ Gt) (sort_by cmp l).
Proof. induction l as [|x l IH]; simpl; [constructor|]. by apply insert_by_sorted. Qed.

End sort_lemmas.

Lemma filter_sorted {B} (R : relation B) (P : B → Prop) `{!∀ x, Decision (P x)} (l : list B) :
  StronglySorted R l → StronglySorted R (filter P l).
Proof.
  induction 1 as [|x l Hs IH Hall]; [constructor|]. rewrite filter_cons.
  destruct (decide (P x)); [|done]. constructor; [done|].
  apply Forall_forall. intros y [_ Hy]%list_elem_of_filter. rewrite Forall_forall in Hall. auto.
Qed.

Lemma filter_all {B} (P : B → Prop) `{!∀ x, Decision (P x)} (l : list B) :
  (∀ x, x ∈ l → P x) → filter P l = l.
Proof.
  induction l as [|x l IH]; intros Hall; [done|]. rewrite filter_cons, decide_True.
  - f_equal. apply IH. intros y Hy. apply Hall. by right.
  - apply Hall. by left.
Qed.

Create HintDb foundry.
#[export] Hint Resolve bt_insert_sorted bt_remove_sorted bt_insert_mono : foundry.
#[export] Hint Resolve as_u64_range : foundry.
