(* ===== verification/Transaction.v ===== *)
(** The transaction types of anvil's core crate
    (anvil/core/src/eth/transaction/mod.rs and optimism.rs): the typed
    transaction enum with its accessors, the impersonation wrapper and the
    pending transaction the pool stores.

    The alloy types the enum wraps ([TxLegacy], [Signed], ...) are not part of
    the repository; each is represented by a record of the fields the code
    reads, with the hash a [Signed] caches.  Signature recovery and the
    keccak hash of an encoding are parameters ([Crypto]). *)
From S2P Require Import Prelude.

(** A 20-byte address and a 32-byte hash. *)
Abbreviation Address := (list Z).
Abbreviation TxHash := Z.
Abbreviation Bytes := (list Z).
Abbreviation AccessList := (list (Address * list Z)).

Inductive TxKind : Type :=
  | TxKind_Create
  | TxKind_Call (to : Address).

(** [TxKind::to]. *)
Definition TxKind_to (k : TxKind) : option Address :=
  match k with TxKind_Create => None | TxKind_Call a => Some a end.

(** ** Views of the alloy transaction types *)

Module TxLegacy.
Record t := mk { chain_id : option Z; nonce : Z; gas_price : Z; gas_limit : Z;
  to : TxKind; value : Z; input : Bytes; hash : TxHash }.
End TxLegacy.

Module TxEip2930.
Record t := mk { chain_id : Z; nonce : Z; gas_price : Z; gas_limit : Z;
  to : TxKind; value : Z; access_list : AccessList; input : Bytes; hash : TxHash }.
End TxEip2930.

Module TxEip1559.
Record t := mk { chain_id : Z; nonce : Z; gas_limit : Z; max_fee_per_gas : Z;
  max_priority_fee_per_gas : Z; to : TxKind; value : Z;
  access_list : AccessList; input : Bytes; hash : TxHash }.
End TxEip1559.

(** [blob_gas] is the value of alloy's [TxEip4844::blob_gas]. *)
Module TxEip4844.
Record t := mk { chain_id : Z; nonce : Z; gas_limit : Z; max_fee_per_gas : Z;
  max_priority_fee_per_gas : Z; to : Address; value : Z;
  access_list : AccessList; blob_versioned_hashes : list Z;
  max_fee_per_blob_gas : Z; blob_gas : Z; input : Bytes; hash : TxHash }.
End TxEip4844.

Module TxEip7702.
Record t := mk { chain_id : Z; nonce : Z; gas_limit : Z; max_fee_per_gas : Z;
  max_priority_fee_per_gas : Z; to : Address; value : Z;
  access_list : AccessList; authorization_list : list Z; input : Bytes; hash : TxHash }.
End TxEip7702.

(** The op-stack deposit transaction (optimism.rs). *)
Module DepositTransaction.
Record t := mk { nonce : Z; source_hash : Z; from : Address; kind : TxKind;
  mint : Z; value : Z; gas_limit : Z; is_system_tx : bool; input : Bytes }.

Definition chain_id (tx : t) : option Z := None.

Definition recover (tx : t) : option Address := Some (from tx).
End DepositTransaction.

Inductive TypedTransaction : Type :=
  | Legacy (tx : TxLegacy.t)
  | EIP2930 (tx : TxEip2930.t)
  | EIP1559 (tx : TxEip1559.t)
  | EIP4844 (tx : TxEip4844.t)
  | EIP7702 (tx : TxEip7702.t)
  | Deposit (tx : DepositTransaction.t).

(** Signature recovery ([recover_signer], [None] is a signature error), the
    hash of a deposit's encoding and the hash of an impersonated transaction
    (keccak of the encoding followed by the sender). *)
Class Crypto := {
  recover_signer : TypedTransaction → option Address;
  deposit_hash : DepositTransaction.t → TxHash;
  keccak_impersonated : TypedTransaction → Address → TxHash;
}.

Module TransactionEssentials.
Record t := mk { kind : TxKind; input : Bytes; nonce : Z; gas_limit : Z;
  gas_price : option Z; max_fee_per_gas : option Z;
  max_priority_fee_per_gas : option Z; max_fee_per_blob_gas : option Z;
  blob_versioned_hashes : option (list Z); value : Z; chain_id : option Z;
  access_list : AccessList }.
End TransactionEssentials.

(** ** impl TypedTransaction *)
Module Typed.

Definition is_dynamic_fee (tx : TypedTransaction) : bool :=
  match tx with EIP1559 _ | EIP4844 _ | EIP7702 _ => true | _ => false end.

Definition gas_price (tx : TypedTransaction) : Z :=
  match tx with
  | Legacy tx => TxLegacy.gas_price tx
  | EIP2930 tx => TxEip2930.gas_price tx
  | EIP1559 tx => TxEip1559.max_fee_per_gas tx
  | EIP4844 tx => TxEip4844.max_fee_per_gas tx
  | EIP7702 tx => TxEip7702.max_fee_per_gas tx
  | Deposit _ => 0
  end.

Definition gas_limit (tx : TypedTransaction) : Z :=
  match tx with
  | Legacy tx => TxLegacy.gas_limit tx
  | EIP2930 tx => TxEip2930.gas_limit tx
  | EIP1559 tx => TxEip1559.gas_limit tx
  | EIP4844 tx => TxEip4844.gas_limit tx
  | EIP7702 tx => TxEip7702.gas_limit tx
  | Deposit tx => DepositTransaction.gas_limit tx
  end.

Definition value (tx : TypedTransaction) : Z :=
  match tx with
  | Legacy tx => TxLegacy.value tx
  | EIP2930 tx => TxEip2930.value tx
  | EIP1559 tx => TxEip1559.value tx
  | EIP4844 tx => TxEip4844.value tx
  | EIP7702 tx => TxEip7702.value tx
  | Deposit tx => DepositTransaction.value tx
  end.

Definition data (tx : TypedTransaction) : Bytes :=
  match tx with
  | Legacy tx => TxLegacy.input tx
  | EIP2930 tx => TxEip2930.input tx
  | EIP1559 tx => TxEip1559.input tx
  | EIP4844 tx => TxEip4844.input tx
  | EIP7702 tx => TxEip7702.input tx
  | Deposit tx => DepositTransaction.input tx
  end.

(** [TypedTransaction::type]. *)
Definition tx_type (tx : TypedTransaction) : option Z :=
  match tx with
  | Legacy _ => None
  | EIP2930 _ => Some 1%Z
  | EIP1559 _ => Some 2%Z
  | EIP4844 _ => Some 3%Z
  | EIP7702 _ => Some 4%Z
  | Deposit _ => Some 126%Z
  end.

Definition is_legacy (tx : TypedTransaction) : bool :=
  match tx with Legacy _ => true | _ => false end.
Definition is_eip1559 (tx : TypedTransaction) : bool :=
  match tx with EIP1559 _ => true | _ => false end.
Definition is_eip2930 (tx : TypedTransaction) : bool :=
  match tx with EIP2930 _ => true | _ => false end.
Definition is_eip4844 (tx : TypedTransaction) : bool :=
  match tx with EIP4844 _ => true | _ => false end.

Definition blob_gas (tx : TypedTransaction) : option Z :=
  match tx with EIP4844 tx => Some (TxEip4844.blob_gas tx) | _ => None end.

Definition max_fee_per_blob_gas (tx : TypedTransaction) : option Z :=
  match tx with EIP4844 tx => Some (TxEip4844.max_fee_per_blob_gas tx) | _ => None end.

(** The product of the blob gas and its fee is a plain [u128] product: it
    panics ([None]) on overflow when overflow checks are on and wraps
    otherwise. *)
Definition max_cost (overflow_checks : bool) (tx : TypedTransaction) : option Z :=
  let max_cost := saturating_mul_u128 (gas_limit tx) (gas_price tx) in
  if is_eip4844 tx then
    let product :=
      (default 0 (blob_gas tx) * default 0 (max_fee_per_blob_gas tx))%Z in
    if (product <=? u128_max)%Z then Some (saturating_add_u128 max_cost product)
    else if overflow_checks then None
    else Some (saturating_add_u128 max_cost (product mod 2 ^ 128)%Z)
  else Some max_cost.

Definition nonce (tx : TypedTransaction) : Z :=
  match tx with
  | Legacy t => TxLegacy.nonce t
  | EIP2930 t => TxEip2930.nonce t
  | EIP1559 t => TxEip1559.nonce t
  | EIP4844 t => TxEip4844.nonce t
  | EIP7702 t => TxEip7702.nonce t
  | Deposit t => DepositTransaction.nonce t
  end.

Definition chain_id (tx : TypedTransaction) : option Z :=
  match tx with
  | Legacy t => TxLegacy.chain_id t
  | EIP2930 t => Some (TxEip2930.chain_id t)
  | EIP1559 t => Some (TxEip1559.chain_id t)
  | EIP4844 t => Some (TxEip4844.chain_id t)
  | EIP7702 t => Some (TxEip7702.chain_id t)
  | Deposit t => DepositTransaction.chain_id t
  end.

Definition kind (tx : TypedTransaction) : TxKind :=
  match tx with
  | Legacy tx => TxLegacy.to tx
  | EIP2930 tx => TxEip2930.to tx
  | EIP1559 tx => TxEip1559.to tx
  | EIP4844 tx => TxKind_Call (TxEip4844.to tx)
  | EIP7702 tx => TxKind_Call (TxEip7702.to tx)
  | Deposit tx => DepositTransaction.kind tx
  end.

Definition to (tx : TypedTransaction) : option Address := TxKind_to (kind tx).

Definition essentials (tx : TypedTransaction) : TransactionEssentials.t :=
  match tx with
  | Legacy t =>
      TransactionEssentials.mk (TxLegacy.to t) (TxLegacy.input t)
        (TxLegacy.nonce t) (TxLegacy.gas_limit t) (Some (TxLegacy.gas_price t))
        None None None None (TxLegacy.value t) (TxLegacy.chain_id t) []
  | EIP2930 t =>
      TransactionEssentials.mk (TxEip2930.to t) (TxEip2930.input t)
        (TxEip2930.nonce t) (TxEip2930.gas_limit t) (Some (TxEip2930.gas_price t))
        None None None None (TxEip2930.value t) (Some (TxEip2930.chain_id t))
        (TxEip2930.access_list t)
  | EIP1559 t =>
      TransactionEssentials.mk (TxEip1559.to t) (TxEip1559.input t)
        (TxEip1559.nonce t) (TxEip1559.gas_limit t) None
        (Some (TxEip1559.max_fee_per_gas t))
        (Some (TxEip1559.max_priority_fee_per_gas t)) None None
        (TxEip1559.value t) (Some (TxEip1559.chain_id t)) (TxEip1559.access_list t)
  | EIP4844 t =>
      TransactionEssentials.mk (TxKind_Call (TxEip4844.to t)) (TxEip4844.input t)
        (TxEip4844.nonce t) (TxEip4844.gas_limit t)
        (Some (TxEip4844.max_fee_per_blob_gas t))
        (Some (TxEip4844.max_fee_per_gas t))
        (Some (TxEip4844.max_priority_fee_per_gas t))
        (Some (TxEip4844.max_fee_per_blob_gas t))
        (Some (TxEip4844.blob_versioned_hashes t))
        (TxEip4844.value t) (Some (TxEip4844.chain_id t)) (TxEip4844.access_list t)
  | EIP7702 t =>
      TransactionEssentials.mk (TxKind_Call (TxEip7702.to t)) (TxEip7702.input t)
        (TxEip7702.nonce t) (TxEip7702.gas_limit t)
        (Some (TxEip7702.max_fee_per_gas t))
        (Some (TxEip7702.max_fee_per_gas t))
        (Some (TxEip7702.max_priority_fee_per_gas t)) None None
        (TxEip7702.value t) (Some (TxEip7702.chain_id t)) (TxEip7702.access_list t)
  | Deposit t =>
      TransactionEssentials.mk (DepositTransaction.kind t) (DepositTransaction.input t)
        (DepositTransaction.nonce t) (DepositTransaction.gas_limit t) (Some 0%Z)
        None None None None (DepositTransaction.value t)
        (DepositTransaction.chain_id t) []
  end.

Section crypto.
Context `{Crypto}.

Definition hash (tx : TypedTransaction) : TxHash :=
  match tx with
  | Legacy t => TxLegacy.hash t
  | EIP2930 t => TxEip2930.hash t
  | EIP1559 t => TxEip1559.hash t
  | EIP4844 t => TxEip4844.hash t
  | EIP7702 t => TxEip7702.hash t
  | Deposit t => deposit_hash t
  end.

Definition impersonated_hash (tx : TypedTransaction) (sender : Address) : TxHash :=
  keccak_impersonated tx sender.

Definition recover (tx : TypedTransaction) : option Address :=
  match tx with
  | Deposit t => DepositTransaction.recover t
  | _ => recover_signer tx
  end.
End crypto.
End Typed.

Module MaybeImpersonatedTransaction.
Record t := mk { transaction : TypedTransaction; impersonated_sender : option Address }.

Definition new (tx : TypedTransaction) : t := mk tx None.
Definition impersonated (tx : TypedTransaction) (sender : Address) : t :=
  mk tx (Some sender).

Definition is_impersonated (tx : t) : bool :=
  match impersonated_sender tx with Some _ => true | None => false end.

Section crypto.
Context `{Crypto}.

Definition recover (tx : t) : option Address :=
  match impersonated_sender tx with
  | Some sender => Some sender
  | None => Typed.recover (transaction tx)
  end.

Definition hash (tx : t) : TxHash :=
  match impersonated_sender tx with
  | Some sender => Typed.impersonated_hash (transaction tx) sender
  | None => Typed.hash (transaction tx)
  end.
End crypto.
End MaybeImpersonatedTransaction.

Module PendingTransaction.
Record t := mk { transaction : MaybeImpersonatedTransaction.t;
  sender : Address; hash : TxHash }.

Definition nonce (tx : t) : Z :=
  Typed.nonce (MaybeImpersonatedTransaction.transaction (transaction tx)).

Section crypto.
Context `{Crypto}.

(** [None] is [SignatureError]. *)
Definition new (tx : TypedTransaction) : option t :=
  sender ← Typed.recover tx;
  Some (mk (MaybeImpersonatedTransaction.new tx) sender (Typed.hash tx)).

Definition with_impersonated (tx : TypedTransaction) (sender : Address) : t :=
  mk (MaybeImpersonatedTransaction.impersonated tx sender) sender
    (Typed.impersonated_hash tx sender).
End crypto.
End PendingTransaction.
