(* ===== verification/PoolTx.v ===== *)
(** The elements of anvil's transaction pool
    (anvil/src/eth/pool/transactions.rs): markers, priorities, pool
    transactions, and the markers the RPC handlers attach to a transaction
    (anvil/src/eth/api.rs). *)
From S2P Require Import Prelude Transaction.

(** A unique identifying marker: the bytes of (nonce, address). *)
Abbreviation TxMarker := (list Z).

Definition to_marker (nonce : Z) (from : Address) : TxMarker :=
  to_le_bytes 8 nonce ++ from.

(** [required_marker] of api.rs. *)
Definition required_marker (provided_nonce on_chain_nonce : Z) (from : Address) :
    list TxMarker :=
  if (provided_nonce =? on_chain_nonce)%Z then []
  else
    let prev_nonce := saturating_sub provided_nonce 1 in
    if (on_chain_nonce <=? prev_nonce)%Z then [to_marker prev_nonce from] else [].

(** [TransactionPriority(pub u128)]. *)
Abbreviation TransactionPriority := Z.

Inductive TransactionOrder := Fifo | Fees.

Definition TransactionOrder_priority (o : TransactionOrder) (tx : TypedTransaction) :
    TransactionPriority :=
  match o with
  | Fifo => 0
  | Fees => Typed.gas_price tx
  end.

Module PoolTransaction.
Record t := mk { pending_transaction : PendingTransaction.t;
  requires : list TxMarker; provides : list TxMarker;
  priority : TransactionPriority }.

Definition new (tx : PendingTransaction.t) : t := mk tx [] [] 0.

Definition hash (tx : t) : TxHash := PendingTransaction.hash (pending_transaction tx).

Definition typed (tx : t) : TypedTransaction :=
  MaybeImpersonatedTransaction.transaction
    (PendingTransaction.transaction (pending_transaction tx)).

Definition gas_price (tx : t) : Z := Typed.gas_price (typed tx).

Definition sender (tx : t) : Address := PendingTransaction.sender (pending_transaction tx).
End PoolTransaction.

(** The transaction the handlers of [eth_sendTransaction],
    [eth_sendRawTransaction] and [eth_sendUnsignedTransaction] hand to the
    pool ([add_pending_transaction] and the end of [send_raw_transaction]). *)
Definition api_pool_transaction (order : TransactionOrder)
    (pending : PendingTransaction.t) (nonce on_chain_nonce : Z) (from : Address) :
    PoolTransaction.t :=
  PoolTransaction.mk pending
    (required_marker nonce on_chain_nonce from) [to_marker nonce from]
    (TransactionOrder_priority order
      (MaybeImpersonatedTransaction.transaction (PendingTransaction.transaction pending))).

Inductive PoolError : Type :=
  | CyclicTransaction
  | ReplacementUnderpriced (tx : PoolTransaction.t)
  | AlreadyImported (tx : PoolTransaction.t).

Module PendingPoolTransaction.
Record t := mk { transaction : PoolTransaction.t;
  missing_markers : gset TxMarker; added_at : Z }.

(** [now] is [Instant::now()]. *)
Definition new (now : Z) (tx : PoolTransaction.t) (provided : gmap TxMarker TxHash) : t :=
  mk tx
    (list_to_set (filter (λ m, provided !! m = None) (PoolTransaction.requires tx)))
    now.

Definition mark (m : TxMarker) (tx : t) : t :=
  mk (transaction tx) (missing_markers tx ∖ {[m]}) (added_at tx).

Definition is_ready (tx : t) : bool := bool_decide (missing_markers tx = ∅).

Definition hash (tx : t) : TxHash := PoolTransaction.hash (transaction tx).
End PendingPoolTransaction.

(** A reference to a transaction in the pool, ordered by priority and then by
    age (a smaller id is greater). *)
Module PoolTransactionRef.
Record t := mk { transaction : PoolTransaction.t; id : Z }.

Definition cmp (x y : t) : comparison :=
  match (PoolTransaction.priority (transaction x) ?=
         PoolTransaction.priority (transaction y))%Z with
  | Eq => (id y ?= id x)%Z
  | c => c
  end.

Definition hash (r : t) : TxHash := PoolTransaction.hash (transaction r).
End PoolTransactionRef.

(** The iteration order of a [HashSet<TxHash>] is unspecified: a client that
    iterates one is modelled over an arbitrary order. *)
Class HashOrder := {
  set_iter : gset TxHash → list TxHash;
  set_iter_perm s : set_iter s ≡ₚ elements s;
}.

(** One such order. *)
Definition default_order : HashOrder :=
  {| set_iter := elements; set_iter_perm := λ s, reflexivity _ |}.

(** * Lemmas *)

Lemma elem_of_set_iter `{HashOrder} h s : h ∈ set_iter s ↔ h ∈ s.
Proof. by rewrite set_iter_perm, elem_of_elements. Qed.

Lemma NoDup_set_iter `{HashOrder} s : NoDup (set_iter s).
Proof. rewrite set_iter_perm. apply NoDup_elements. Qed.

#[export] Instance ref_ord_cmp : OrdCmp PoolTransactionRef.cmp.
Proof.
  split; intros [x i] [y j]; unfold PoolTransactionRef.cmp; simpl.
  - rewrite (Z.compare_antisym (PoolTransaction.priority x)), (Z.compare_antisym j i).
    by destruct (PoolTransaction.priority x ?= _)%Z, (j ?= i)%Z.
  - intros [z k]. simpl.
    repeat match goal with |- context [(?a ?= ?b)%Z] => destruct (Z.compare_spec a b) end;
      intros; congruence || lia.
  - intros [z k]. simpl.
    destruct (Z.compare_spec (PoolTransaction.priority x) (PoolTransaction.priority y))
      as [Hp|?|?]; [|congruence..].
    destruct (Z.compare_spec j i) as [->|?|?]; [|congruence..]. by rewrite Hp.
Qed.

Lemma ref_cmp_eq x y :
  PoolTransactionRef.cmp x y = Eq → PoolTransactionRef.id x = PoolTransactionRef.id y.
Proof.
  unfold PoolTransactionRef.cmp.
  destruct (_ ?= _)%Z; [|done..]. by intros ?%Z.compare_eq.
Qed.

(** [x] is to be mined before [y]: its priority is higher, or the same and
    it came first. *)
Definition preferred (x y : PoolTransactionRef.t) : Prop :=
  let px := PoolTransaction.priority (PoolTransactionRef.transaction x) in
  let py := PoolTransaction.priority (PoolTransactionRef.transaction y) in
  (py < px)%Z ∨ px = py ∧ (PoolTransactionRef.id x < PoolTransactionRef.id y)%Z.

Lemma cmp_preferred x y : PoolTransactionRef.cmp y x = Lt → preferred x y.
Proof.
  unfold PoolTransactionRef.cmp, preferred. destruct (Z.compare_spec
    (PoolTransaction.priority (PoolTransactionRef.transaction y))
    (PoolTransaction.priority (PoolTransactionRef.transaction x))) as [Heq|Hlt|Hgt]; [|by left|done].
  intros Hid. right. split; [done|]. by apply Z.compare_lt_iff.
Qed.

(** Markers identify the pair (nonce, address). *)
Lemma to_marker_inj n n' a a' :
  is_u64 n → is_u64 n' → to_marker n a = to_marker n' a' → n = n' ∧ a = a'.
Proof.
  unfold is_u64, u64_max, to_marker. intros Hn Hn' Heq.
  apply app_inj_1 in Heq as [Heq ->]; [|by rewrite !to_le_bytes_length].
  split; [|done]. apply to_le_bytes_inj in Heq; [done|..]; simpl; lia.
Qed.
