(* ===== verification/PendingQueue.v ===== *)
(** The waiting queue of the pool ([PendingTransactions] of
    anvil/src/eth/pool/transactions.rs): transactions that wait for markers
    other transactions provide. *)
From S2P Require Import Prelude Transaction PoolTx.

Module PendingTransactions.
Record t := mk {
  required_markers : gmap TxMarker (gset TxHash);
  waiting_markers : gmap (list TxMarker) TxHash;
  waiting_queue : gmap TxHash PendingPoolTransaction.t }.

Definition empty : t := mk ∅ ∅ ∅.

Definition len (st : t) : nat := size (waiting_queue st).

Definition is_empty (st : t) : bool := bool_decide (waiting_queue st = ∅).

Definition clear (st : t) : t := mk ∅ ∅ ∅.

Definition contains (st : t) (h : TxHash) : bool :=
  bool_decide (is_Some (waiting_queue st !! h)).

Definition get (st : t) (h : TxHash) : option PendingPoolTransaction.t :=
  waiting_queue st !! h.

(** [self.required_markers.entry(marker).or_default().insert(hash)]. *)
Definition require_marker (h : TxHash) (m : TxMarker)
    (req : gmap TxMarker (gset TxHash)) : gmap TxMarker (gset TxHash) :=
  <[m := {[h]} ∪ default ∅ (req !! m)]> req.

Definition add_transaction (st : t) (tx : PendingPoolTransaction.t) :
    option (t * result unit PoolError) :=
  let h := PendingPoolTransaction.hash tx in
  let provides := PoolTransaction.provides (PendingPoolTransaction.transaction tx) in
  assert! negb (PendingPoolTransaction.is_ready tx) ;;
  assert! negb (contains st h) ;;
  let underpriced :=
    match waiting_markers st !! provides ≫= (λ old, waiting_queue st !! old) with
    | Some replace =>
        (PoolTransaction.gas_price (PendingPoolTransaction.transaction tx) <?
         PoolTransaction.gas_price (PendingPoolTransaction.transaction replace))%Z
    | None => false
    end in
  if underpriced then
    Some (st, Err (ReplacementUnderpriced (PendingPoolTransaction.transaction tx)))
  else
    Some (mk
      (foldr (require_marker h) (required_markers st)
        (elements (PendingPoolTransaction.missing_markers tx)))
      (<[provides := h]> (waiting_markers st))
      (<[h := tx]> (waiting_queue st)), Ok ()).

(** The body of the inner loop of [mark_and_unlock]: [mark] is checked off
    for each of the [hashes]. *)
Fixpoint unlock_hashes (mark : TxMarker) (hashes : list TxHash) (st : t)
    (unlocked_ready : list PendingPoolTransaction.t) :
    option (t * list PendingPoolTransaction.t) :=
  match hashes with
  | [] => Some (st, unlocked_ready)
  | h :: hashes =>
      tx ← waiting_queue st !! h;
      let tx := PendingPoolTransaction.mark mark tx in
      if PendingPoolTransaction.is_ready tx then
        unlock_hashes mark hashes
          (mk (required_markers st)
            (delete (PoolTransaction.provides (PendingPoolTransaction.transaction tx))
              (waiting_markers st))
            (delete h (waiting_queue st)))
          (unlocked_ready ++ [tx])
      else
        unlock_hashes mark hashes
          (mk (required_markers st) (waiting_markers st) (<[h := tx]> (waiting_queue st)))
          unlocked_ready
  end.

(** [remove] for one hash: the markers of the removed transaction. *)
Definition release_marker (h : TxHash) (m : TxMarker)
    (req : gmap TxMarker (gset TxHash)) : gmap TxMarker (gset TxHash) :=
  match req !! m with
  | None => req
  | Some required =>
      if decide (required ∖ {[h]} = ∅) then delete m req
      else <[m := required ∖ {[h]}]> req
  end.

Definition remove_one (st : t) (h : TxHash) : t * option PoolTransaction.t :=
  match waiting_queue st !! h with
  | None => (st, None)
  | Some waiting_tx =>
      (mk
        (foldr (release_marker h) (required_markers st)
          (elements (PendingPoolTransaction.missing_markers waiting_tx)))
        (delete (PoolTransaction.provides (PendingPoolTransaction.transaction waiting_tx))
          (waiting_markers st))
        (delete h (waiting_queue st)),
       Some (PendingPoolTransaction.transaction waiting_tx))
  end.

Fixpoint remove (st : t) (hashes : list TxHash) : t * list PoolTransaction.t :=
  match hashes with
  | [] => (st, [])
  | h :: hashes =>
      let '(st, removed) := remove_one st h in
      let '(st, rest) := remove st hashes in
      (st, option_list removed ++ rest)
  end.

Section order.
Context `{HashOrder}.

(** [transactions()]: the values of the hash map, in its order. *)
Definition transactions (st : t) : list PoolTransaction.t :=
  omap (λ h, PendingPoolTransaction.transaction <$> waiting_queue st !! h)
    (set_iter (dom (waiting_queue st))).

Fixpoint mark_and_unlock_acc (markers : list TxMarker) (st : t)
    (unlocked_ready : list PendingPoolTransaction.t) :
    option (t * list PendingPoolTransaction.t) :=
  match markers with
  | [] => Some (st, unlocked_ready)
  | mark :: markers =>
      match required_markers st !! mark with
      | Some tx_hashes =>
          '(st, unlocked_ready) ← unlock_hashes mark (set_iter tx_hashes)
            (mk (delete mark (required_markers st)) (waiting_markers st) (waiting_queue st))
            unlocked_ready;
          mark_and_unlock_acc markers st unlocked_ready
      | None => mark_and_unlock_acc markers st unlocked_ready
      end
  end.

Definition mark_and_unlock (st : t) (markers : list TxMarker) :
    option (t * list PendingPoolTransaction.t) :=
  mark_and_unlock_acc markers st [].

End order.
End PendingTransactions.

(** * The invariant of the waiting queue *)

Import PendingTransactions.

Abbreviation ptx_missing := PendingPoolTransaction.missing_markers.
Abbreviation ptx_tx := PendingPoolTransaction.transaction.

(** [h] is registered under marker [m] in [required_markers]. *)
Definition registered (req : gmap TxMarker (gset TxHash)) (m : TxMarker) (h : TxHash) :
    Prop :=
  ∃ s, req !! m = Some s ∧ h ∈ s.

Record pending_wf (st : t) : Prop := {
  pw_hash h tx : waiting_queue st !! h = Some tx → PendingPoolTransaction.hash tx = h;
  pw_waiting h tx : waiting_queue st !! h = Some tx → ptx_missing tx ≠ ∅;
  pw_registered m h :
    registered (required_markers st) m h ↔ ∃ tx, waiting_queue st !! h = Some tx ∧ m ∈ ptx_missing tx;
  pw_nonempty m : required_markers st !! m ≠ Some ∅;
  pw_markers ps h : waiting_markers st !! ps = Some h →
    ∃ tx, waiting_queue st !! h = Some tx ∧ PoolTransaction.provides (ptx_tx tx) = ps;
}.

(** [tx] with the markers [ms] checked off. *)
Definition mark_set (ms : gset TxMarker) (tx : PendingPoolTransaction.t) :
    PendingPoolTransaction.t :=
  PendingPoolTransaction.mk (ptx_tx tx) (ptx_missing tx ∖ ms)
    (PendingPoolTransaction.added_at tx).

(** What is left in the queue of [tx] once [ms] is checked off. *)
Definition remaining (ms : gset TxMarker) (tx : PendingPoolTransaction.t) :
    option PendingPoolTransaction.t :=
  if PendingPoolTransaction.is_ready (mark_set ms tx) then None else Some (mark_set ms tx).

(** What checking off the markers [ms] does to the waiting queue: a
    transaction all of whose missing markers are in [ms] leaves the queue and
    is returned, the others stay with the rest of their missing markers. *)
Record unlock_spec (ms : gset TxMarker) (st st' : t)
    (unlocked : list PendingPoolTransaction.t) : Prop := {
  us_queue h : waiting_queue st' !! h = waiting_queue st !! h ≫= remaining ms;
  us_unlocked tx' : tx' ∈ unlocked ↔
    ∃ h tx, waiting_queue st !! h = Some tx ∧ tx' = mark_set ms tx ∧
      PendingPoolTransaction.is_ready tx' = true;
  us_nodup : NoDup (PendingPoolTransaction.hash <$> unlocked);
}.

Section lemmas.
Implicit Types st : t.

Lemma is_ready_true tx : PendingPoolTransaction.is_ready tx = true ↔ ptx_missing tx = ∅.
Proof. apply bool_decide_eq_true. Qed.

Lemma is_ready_false tx : PendingPoolTransaction.is_ready tx = false ↔ ptx_missing tx ≠ ∅.
Proof. apply bool_decide_eq_false. Qed.

Lemma contains_true st h : contains st h = true ↔ is_Some (waiting_queue st !! h).
Proof. apply bool_decide_eq_true. Qed.

Lemma contains_false st h : contains st h = false ↔ waiting_queue st !! h = None.
Proof.
  unfold contains. rewrite bool_decide_eq_false, eq_None_not_Some. done.
Qed.

Lemma mark_set_hash ms tx :
  PendingPoolTransaction.hash (mark_set ms tx) = PendingPoolTransaction.hash tx.
Proof. done. Qed.

Lemma mark_set_empty tx : mark_set ∅ tx = tx.
Proof. destruct tx as [tx ms a]. unfold mark_set; simpl. f_equal. set_solver. Qed.

Lemma mark_set_union ms ms' tx : mark_set ms' (mark_set ms tx) = mark_set (ms ∪ ms') tx.
Proof. unfold mark_set; simpl. f_equal. set_solver. Qed.

Lemma mark_set_ready ms tx :
  PendingPoolTransaction.is_ready (mark_set ms tx) = true ↔ ptx_missing tx ⊆ ms.
Proof.
  rewrite is_ready_true. simpl. split.
  - apply empty_difference_subseteq_L.
  - apply subseteq_empty_difference_L.
Qed.

Lemma pending_wf_empty : pending_wf empty.
Proof.
  unfold registered. split; simpl; intros *; rewrite ?lookup_empty; try done.
  split; intros (? & ? & ?); simplify_map_eq.
Qed.

Lemma registered_require h m req m' h' :
  registered (require_marker h m req) m' h' ↔ (m' = m ∧ h' = h) ∨ registered req m' h'.
Proof.
  unfold registered, require_marker. destruct (decide (m = m')) as [->|Hne].
  - setoid_rewrite lookup_insert_eq. destruct (req !! m') as [s|]; simpl.
    + naive_solver set_solver.
    + naive_solver set_solver.
  - setoid_rewrite lookup_insert_ne; [|done]. naive_solver.
Qed.

Lemma registered_require_all h ms req m' h' :
  registered (foldr (require_marker h) req ms) m' h' ↔
  (m' ∈ ms ∧ h' = h) ∨ registered req m' h'.
Proof.
  induction ms as [|m ms IH]; simpl; [rewrite elem_of_nil; tauto|].
  rewrite registered_require, IH, elem_of_cons. tauto.
Qed.

Lemma nonempty_require_all h ms req m' :
  req !! m' ≠ Some ∅ → foldr (require_marker h) req ms !! m' ≠ Some ∅.
Proof.
  intros Hne. induction ms as [|m ms IH]; simpl; [done|].
  unfold require_marker. destruct (decide (m = m')) as [->|?].
  - rewrite lookup_insert_eq. intros [=]. set_solver.
  - by rewrite lookup_insert_ne.
Qed.

Lemma registered_release h m req m' h' :
  registered (release_marker h m req) m' h' ↔ registered req m' h' ∧ ¬ (m' = m ∧ h' = h).
Proof.
  unfold registered, release_marker.
  destruct (req !! m) as [s|] eqn:Hm; [|naive_solver].
  case_decide as Hs; destruct (decide (m = m')) as [->|Hne].
  - setoid_rewrite lookup_delete_eq. naive_solver set_solver.
  - setoid_rewrite lookup_delete_ne; [|done]. naive_solver.
  - setoid_rewrite lookup_insert_eq. naive_solver set_solver.
  - setoid_rewrite lookup_insert_ne; [|done]. naive_solver.
Qed.

Lemma registered_release_all h ms req m' h' :
  registered (foldr (release_marker h) req ms) m' h' ↔
  registered req m' h' ∧ ¬ (m' ∈ ms ∧ h' = h).
Proof.
  induction ms as [|m ms IH]; simpl; [rewrite elem_of_nil; tauto|].
  rewrite registered_release, IH, elem_of_cons. tauto.
Qed.

Lemma nonempty_release_all h ms req m' :
  req !! m' ≠ Some ∅ → foldr (release_marker h) req ms !! m' ≠ Some ∅.
Proof.
  intros Hne. induction ms as [|m ms IH]; simpl; [done|].
  unfold release_marker at 1. case_match; [|done]. case_decide.
  - rewrite lookup_delete. by case_decide.
  - rewrite lookup_insert. case_decide; congruence.
Qed.

(** ** add_transaction *)

(** The queue after a successful add. *)
Definition push (st : t) (tx : PendingPoolTransaction.t) : t :=
  mk (foldr (require_marker (PendingPoolTransaction.hash tx)) (required_markers st)
       (elements (ptx_missing tx)))
     (<[PoolTransaction.provides (ptx_tx tx) := PendingPoolTransaction.hash tx]>
       (waiting_markers st))
     (<[PendingPoolTransaction.hash tx := tx]> (waiting_queue st)).

Lemma pending_add_total st tx :
  PendingPoolTransaction.is_ready tx = false →
  contains st (PendingPoolTransaction.hash tx) = false →
  add_transaction st tx = Some (push st tx, Ok ()) ∨
  add_transaction st tx = Some (st, Err (ReplacementUnderpriced (ptx_tx tx))).
Proof.
  intros Hr Hc. unfold add_transaction. rewrite Hr, Hc. simpl.
  case_match; [right|left]; reflexivity.
Qed.

Lemma pending_wf_push st tx :
  pending_wf st → PendingPoolTransaction.is_ready tx = false →
  contains st (PendingPoolTransaction.hash tx) = false →
  pending_wf (push st tx).
Proof.
  intros [Hh Hw Hr Hn Hm] Htx Hc. apply contains_false in Hc.
  apply is_ready_false in Htx.
  split; simpl.
  - intros h tx'. rewrite lookup_insert. case_decide; naive_solver.
  - intros h tx'. rewrite lookup_insert. case_decide; naive_solver.
  - intros m h. rewrite registered_require_all, elem_of_elements, Hr.
    rewrite lookup_insert. case_decide; naive_solver.
  - intros m. by apply nonempty_require_all.
  - intros ps h. rewrite lookup_insert. case_decide as Hps.
    + intros [= <-]. exists tx. by rewrite lookup_insert_eq.
    + intros (tx' & Htx' & ?)%Hm. exists tx'.
      rewrite lookup_insert_ne by congruence. done.
Qed.

(** ** mark_and_unlock *)

(** The queue is keyed by hash, and [waiting_markers] points into it. *)
Definition queue_ok (st : t) : Prop :=
  (∀ h tx, waiting_queue st !! h = Some tx → PendingPoolTransaction.hash tx = h) ∧
  (∀ ps h, waiting_markers st !! ps = Some h →
    ∃ tx, waiting_queue st !! h = Some tx ∧ PoolTransaction.provides (ptx_tx tx) = ps).

Lemma unlock_hashes_step m h hs st acc tx :
  queue_ok st → waiting_queue st !! h = Some tx →
  ∃ st1,
    unlock_hashes m (h :: hs) st acc =
      unlock_hashes m hs st1
        (acc ++ if PendingPoolTransaction.is_ready (mark_set {[m]} tx)
                then [mark_set {[m]} tx] else []) ∧
    required_markers st1 = required_markers st ∧ queue_ok st1 ∧
    (∀ h', waiting_queue st1 !! h' =
      if decide (h' = h) then remaining {[m]} tx else waiting_queue st !! h').
Proof.
  intros [Hh Hm] Htx. simpl. rewrite Htx. simpl. unfold remaining.
  change (PendingPoolTransaction.mark m tx) with (mark_set {[m]} tx).
  destruct (PendingPoolTransaction.is_ready (mark_set {[m]} tx)) eqn:Hready;
    eexists; (split; [rewrite ?app_nil_r; reflexivity|]); (split; [done|]); simpl; split.
  - split; simpl.
    + intros h' tx'. rewrite lookup_delete. case_decide; naive_solver.
    + intros ps h'. rewrite lookup_delete. case_decide as Hps; [done|].
      intros (tx' & ? & ?)%Hm. exists tx'. rewrite lookup_delete_ne by congruence. done.
  - intros h'. rewrite lookup_delete. repeat case_decide; congruence.
  - split; simpl.
    + intros h' tx'. rewrite lookup_insert. case_decide; [|apply Hh].
      intros [= <-]. subst. rewrite mark_set_hash. by apply Hh.
    + intros ps h'. intros (tx' & ? & ?)%Hm. rewrite lookup_insert. case_decide; [|eauto].
      eexists. split; [done|]. simpl. congruence.
  - intros h'. rewrite lookup_insert. repeat case_decide; congruence.
Qed.

Lemma unlock_hashes_spec m hs st acc :
  NoDup hs → (∀ h, h ∈ hs → is_Some (waiting_queue st !! h)) → queue_ok st →
  ∃ st' new,
    unlock_hashes m hs st acc = Some (st', acc ++ new) ∧
    required_markers st' = required_markers st ∧ queue_ok st' ∧
    (∀ h, waiting_queue st' !! h =
      if decide (h ∈ hs) then waiting_queue st !! h ≫= remaining {[m]}
      else waiting_queue st !! h) ∧
    (∀ tx', tx' ∈ new ↔ ∃ h tx, h ∈ hs ∧ waiting_queue st !! h = Some tx ∧
      tx' = mark_set {[m]} tx ∧ PendingPoolTransaction.is_ready tx' = true) ∧
    NoDup (PendingPoolTransaction.hash <$> new).
Proof.
  revert st acc. induction hs as [|h hs IH]; intros st acc Hnd Hin Hok.
  { exists st, []. rewrite app_nil_r. set_solver by constructor. }
  apply NoDup_cons in Hnd as [Hnh Hnd].
  destruct (Hin h) as [tx Htx]; [by left|].
  destruct (unlock_hashes_step m h hs st acc tx Hok Htx) as (st1 & -> & Hreq1 & Hok1 & Hwq1).
  assert (∀ h', h' ∈ hs → waiting_queue st1 !! h' = waiting_queue st !! h') as Hsame.
  { intros h' Hh'. rewrite Hwq1, decide_False by set_solver. done. }
  destruct (IH st1 (acc ++ if PendingPoolTransaction.is_ready (mark_set {[m]} tx)
                then [mark_set {[m]} tx] else [])) as (st' & new & -> & Hreq & Hok' & Hwq & Hnew & Hndn);
    [done| |done|].
  { intros h' Hh'. rewrite Hsame by done. set_solver. }
  eexists st', _. rewrite <- app_assoc. split; [done|].
  split; [congruence|]. split; [done|]. split; [|split].
  - intros h'. rewrite Hwq, Hwq1. destruct (decide (h' = h)) as [->|Hne].
    + rewrite decide_False, decide_True, Htx by set_solver. done.
    + apply decide_ext. set_solver.
  - intros tx'. rewrite elem_of_app, Hnew. split.
    + intros [Hx|(h' & tx'' & ? & Hl & ? & ?)]; cycle 1.
      { rewrite Hsame in Hl by done. exists h', tx''. split; [by right|done]. }
      case_match; [|by apply elem_of_nil in Hx].
      apply list_elem_of_singleton in Hx as ->. exists h, tx. split; [left|done].
    + intros (h' & tx'' & [->|?]%elem_of_cons & Hl & -> & Hr).
      * left. rewrite Htx in Hl. simplify_eq. rewrite Hr. by apply list_elem_of_singleton.
      * right. exists h', tx''. by rewrite Hsame.
  - rewrite fmap_app, NoDup_app. split; [case_match; simpl; auto using NoDup_nil_2, NoDup_singleton|].
    split; [|done]. intros x Hx (tx'' & -> & Hin')%list_elem_of_fmap.
    apply Hnew in Hin' as (h' & tx3 & Hh' & Hl & -> & _). rewrite Hsame in Hl by done.
    rewrite mark_set_hash, (proj1 Hok _ _ Hl) in Hx.
    case_match; [|set_solver]. apply list_elem_of_singleton in Hx.
    rewrite mark_set_hash, (proj1 Hok _ _ Htx) in Hx. congruence.
Qed.

Lemma remaining_Some ms tx tx' :
  remaining ms tx = Some tx' ↔ tx' = mark_set ms tx ∧ ptx_missing tx' ≠ ∅.
Proof.
  unfold remaining. destruct (PendingPoolTransaction.is_ready _) eqn:Hr.
  - apply is_ready_true in Hr. naive_solver.
  - apply is_ready_false in Hr. naive_solver.
Qed.

Lemma mark_set_disjoint ms tx : ptx_missing tx ## ms → mark_set ms tx = tx.
Proof. intros. destruct tx. unfold mark_set. simpl in *. f_equal. set_solver. Qed.

Lemma remaining_disjoint ms tx :
  ptx_missing tx ## ms → ptx_missing tx ≠ ∅ → remaining ms tx = Some tx.
Proof. intros ? ?. apply remaining_Some. by rewrite mark_set_disjoint. Qed.

Lemma mark_set_ready_mono ms ms' tx :
  PendingPoolTransaction.is_ready (mark_set ms tx) = true → mark_set (ms ∪ ms') tx = mark_set ms tx.
Proof. rewrite mark_set_ready. intros. unfold mark_set. f_equal. set_solver. Qed.

Lemma remaining_union ms ms' tx :
  remaining ms tx ≫= remaining ms' = remaining (ms ∪ ms') tx.
Proof.
  unfold remaining at 2. destruct (PendingPoolTransaction.is_ready (mark_set ms tx)) eqn:Hr; cbn.
  - unfold remaining. by rewrite mark_set_ready_mono, Hr.
  - unfold remaining. by rewrite mark_set_union.
Qed.

Lemma unlock_spec_compose ms ms' st st1 st2 new1 new2 :
  pending_wf st → unlock_spec ms st st1 new1 → unlock_spec ms' st1 st2 new2 →
  unlock_spec (ms ∪ ms') st st2 (new1 ++ new2).
Proof.
  intros Hwf [Hq1 Hu1 Hn1] [Hq2 Hu2 Hn2]. split.
  - intros h. rewrite Hq2, Hq1. destruct (waiting_queue st !! h); simpl; [|done].
    apply remaining_union.
  - intros tx'. rewrite elem_of_app, Hu1, Hu2. split.
    + intros [(h & tx & Hl & -> & Hr)|(h & tx & Hl & -> & Hr)].
      { exists h, tx. by rewrite mark_set_ready_mono. }
      rewrite Hq1 in Hl. destruct (waiting_queue st !! h) as [tx0|] eqn:Hl0; [|done].
      apply remaining_Some in Hl as [-> _]. exists h, tx0. by rewrite <- mark_set_union.
    + intros (h & tx & Hl & -> & Hr).
      destruct (PendingPoolTransaction.is_ready (mark_set ms tx)) eqn:Hr1.
      { left. exists h, tx. by rewrite mark_set_ready_mono. }
      right. exists h, (mark_set ms tx). rewrite Hq1, Hl, mark_set_union. simpl.
      unfold remaining. by rewrite Hr1.
  - rewrite fmap_app, NoDup_app. split; [done|]. split; [|done].
    intros x (tx1 & -> & H1)%list_elem_of_fmap (tx2 & Heq & H2)%list_elem_of_fmap.
    apply Hu1 in H1 as (h1 & tx1' & Hl1 & -> & Hr1).
    apply Hu2 in H2 as (h2 & tx2' & Hl2 & -> & Hr2).
    rewrite Hq1 in Hl2. destruct (waiting_queue st !! h2) as [tx0|] eqn:Hl0; [|done].
    apply remaining_Some in Hl2 as [-> Hne].
    rewrite !mark_set_hash, (pw_hash _ Hwf _ _ Hl1), (pw_hash _ Hwf _ _ Hl0) in Heq.
    subst. rewrite Hl1 in Hl0. simplify_eq. by apply is_ready_true in Hr1.
Qed.

Section order.
Context `{HashOrder}.

(** One marker: [required_markers] finds exactly the transactions that miss it. *)
Lemma unlock_marker_spec m s st acc :
  pending_wf st → required_markers st !! m = Some s →
  ∃ st' new,
    unlock_hashes m (set_iter s)
      (mk (delete m (required_markers st)) (waiting_markers st) (waiting_queue st)) acc =
      Some (st', acc ++ new) ∧
    pending_wf st' ∧ unlock_spec {[m]} st st' new.
Proof.
  intros Hwf Hs.
  assert (∀ h, h ∈ set_iter s ↔ ∃ tx, waiting_queue st !! h = Some tx ∧ m ∈ ptx_missing tx)
    as Hiter.
  { intros h. rewrite elem_of_set_iter, <- (pw_registered _ Hwf).
    unfold registered. rewrite Hs. naive_solver. }
  destruct (unlock_hashes_spec m (set_iter s)
    (mk (delete m (required_markers st)) (waiting_markers st) (waiting_queue st)) acc)
    as (st' & new & Heq & Hreq & [Hh Hm] & Hwq & Hnew & Hnd).
  { apply NoDup_set_iter. }
  { intros h (tx & ? & _)%Hiter. by eexists. }
  { split; apply Hwf. }
  simpl in *.
  assert (∀ h, waiting_queue st' !! h = waiting_queue st !! h ≫= remaining {[m]}) as Hq.
  { intros h. rewrite Hwq. case_decide as Hin; [done|].
    destruct (waiting_queue st !! h) as [tx|] eqn:Hl; [|done]. simpl.
    rewrite remaining_disjoint; [done| |by eapply pw_waiting].
    rewrite Hiter in Hin. set_solver. }
  exists st', new. split; [done|]. split; [split; [done| | | |done]|split; [done| |done]].
  - intros h tx. rewrite Hq. intros (tx0 & _ & Hr)%bind_Some.
    by apply remaining_Some in Hr as [-> ?].
  - intros m' h. rewrite Hreq, Hq. unfold registered. rewrite lookup_delete.
    case_decide as Hmm.
    + subst. split; [naive_solver|]. intros (tx & (tx0 & _ & Hr)%bind_Some & Hin).
      apply remaining_Some in Hr as [-> _]. simpl in Hin. set_solver.
    + change (registered (required_markers st) m' h ↔ ∃ tx,
        waiting_queue st !! h ≫= remaining {[m]} = Some tx ∧ m' ∈ ptx_missing tx).
      rewrite (pw_registered _ Hwf). split.
      * intros (tx & -> & Hin). exists (mark_set {[m]} tx). simpl.
        split; [apply remaining_Some; split; [done|]; simpl|]; set_solver.
      * intros (tx & (tx0 & -> & Hr)%bind_Some & Hin). exists tx0. split; [done|].
        apply remaining_Some in Hr as [-> _]. simpl in Hin. set_solver.
  - intros m'. rewrite Hreq, lookup_delete. case_decide; [done|]. apply Hwf.
  - intros tx'. rewrite Hnew. split.
    + intros (h & tx & _ & ? & ? & ?). by exists h, tx.
    + intros (h & tx & Hl & -> & Hr). exists h, tx. split; [|done].
      apply Hiter. exists tx. split; [done|]. apply mark_set_ready in Hr.
      pose proof (pw_waiting _ Hwf _ _ Hl) as Hne.
      apply set_choose_L in Hne as [m' Hm']. set_solver.
Qed.

Lemma unlock_spec_empty ms st :
  pending_wf st → (∀ h tx, waiting_queue st !! h = Some tx → ptx_missing tx ## ms) →
  unlock_spec ms st st [].
Proof.
  intros Hwf Hd. split; [| |constructor].
  - intros h. destruct (waiting_queue st !! h) as [tx|] eqn:Hl; [|done]. simpl.
    symmetry. apply remaining_disjoint; [by eapply Hd|by eapply pw_waiting].
  - intros tx'. split; [by intros ?%elem_of_nil|]. intros (h & tx & Hl & -> & Hr).
    rewrite mark_set_disjoint in Hr by eauto. apply is_ready_true in Hr.
    by apply (pw_waiting _ Hwf) in Hl.
Qed.

Lemma mark_and_unlock_acc_spec markers st acc :
  pending_wf st →
  ∃ st' new,
    mark_and_unlock_acc markers st acc = Some (st', acc ++ new) ∧
    pending_wf st' ∧ unlock_spec (list_to_set markers) st st' new.
Proof.
  revert st acc. induction markers as [|m markers IH]; intros st acc Hwf; simpl.
  { exists st, []. rewrite app_nil_r. split_and!; [done..|].
    apply unlock_spec_empty; set_solver. }
  destruct (required_markers st !! m) as [s|] eqn:Hs.
  - destruct (unlock_marker_spec m s st acc Hwf Hs) as (st1 & new1 & -> & Hwf1 & Hsp1).
    simpl. destruct (IH st1 (acc ++ new1) Hwf1) as (st2 & new2 & -> & Hwf2 & Hsp2).
    exists st2, (new1 ++ new2). rewrite <- app_assoc. split_and!; [done..|].
    by eapply unlock_spec_compose.
  - destruct (IH st acc Hwf) as (st2 & new2 & -> & Hwf2 & Hsp2).
    exists st2, new2. split_and!; [done..|].
    apply (unlock_spec_compose _ _ st st st2 [] new2); [done| |done].
    apply unlock_spec_empty; [done|]. intros h tx Hl.
    assert (¬ registered (required_markers st) m h) as Hn.
    { unfold registered. rewrite Hs. naive_solver. }
    rewrite (pw_registered _ Hwf) in Hn. set_solver.
Qed.

Lemma mark_and_unlock_spec markers st :
  pending_wf st →
  ∃ st' unlocked,
    mark_and_unlock st markers = Some (st', unlocked) ∧
    pending_wf st' ∧ unlock_spec (list_to_set markers) st st' unlocked.
Proof. intros. by apply (mark_and_unlock_acc_spec markers st []). Qed.

End order.

(** ** remove *)

Lemma remove_one_spec st h :
  pending_wf st →
  pending_wf (remove_one st h).1 ∧
  waiting_queue (remove_one st h).1 = delete h (waiting_queue st) ∧
  (remove_one st h).2 = ptx_tx <$> waiting_queue st !! h.
Proof.
  intros Hwf. unfold remove_one. destruct (waiting_queue st !! h) as [tx|] eqn:Hl; simpl.
  2:{ split_and!; [done| |done]. by rewrite delete_id. }
  split_and!; [|done..]. destruct Hwf as [Hh Hw Hr Hn Hm]. split; simpl.
  - intros h' tx'. rewrite lookup_delete. case_decide; naive_solver.
  - intros h' tx'. rewrite lookup_delete. case_decide; naive_solver.
  - intros m h'. rewrite registered_release_all, elem_of_elements, Hr, lookup_delete.
    case_decide; [subst; naive_solver|]. split; [naive_solver|].
    intros Hx. split; [done|]. naive_solver.
  - intros m. by apply nonempty_release_all.
  - intros ps h'. rewrite lookup_delete. case_decide; [done|].
    intros (tx' & Hl' & <-)%Hm. exists tx'. rewrite lookup_delete_ne by congruence. done.
Qed.

Lemma remove_spec st hs :
  pending_wf st →
  pending_wf (remove st hs).1 ∧
  (∀ h, waiting_queue (remove st hs).1 !! h =
    if decide (h ∈ hs) then None else waiting_queue st !! h) ∧
  (∀ tx, tx ∈ (remove st hs).2 ↔
    ∃ h ptx, h ∈ hs ∧ waiting_queue st !! h = Some ptx ∧ tx = ptx_tx ptx).
Proof.
  revert st. induction hs as [|h hs IH]; intros st Hwf; simpl.
  { split_and!; [done..|]. set_solver. }
  destruct (remove_one_spec st h Hwf) as (Hwf1 & Hq1 & Hr1).
  destruct (remove_one st h) as [st1 r1]. simpl in *.
  destruct (IH st1 Hwf1) as (Hwf2 & Hq2 & Hr2).
  destruct (remove st1 hs) as [st2 r2]. simpl in *.
  split_and!; [done| |].
  - intros h'. rewrite Hq2, Hq1, lookup_delete. repeat case_decide; set_solver.
  - intros tx. rewrite elem_of_app, Hr2, Hq1, Hr1. setoid_rewrite lookup_delete.
    split.
    + intros [Hin|(h' & ptx & ? & Hl & ->)].
      * destruct (waiting_queue st !! h) as [ptx|] eqn:Hl; simpl in Hin; [|set_solver].
        apply list_elem_of_singleton in Hin as ->. exists h, ptx. split; [left|done].
      * case_decide; [done|]. exists h', ptx. split; [by right|done].
    + intros (h' & ptx & [->|Hin]%elem_of_cons & Hl & ->).
      * left. rewrite Hl. simpl. by left.
      * destruct (decide (h = h')) as [->|Hne].
        { left. rewrite Hl. simpl. by left. }
        right. exists h', ptx. by rewrite decide_False.
Qed.

End lemmas.

#[export] Hint Resolve pending_wf_empty : foundry.
