(* ===== verification/ReadyQueue.v ===== *)
(** The ready queue of the pool ([ReadyTransactions] of
    anvil/src/eth/pool/transactions.rs): transactions whose requirements are
    met, the markers they provide, and the links from a transaction to the
    transactions it unlocks. *)
From S2P Require Import Prelude Transaction PoolTx.

Module ReadyTransaction.
Record t := mk { transaction : PoolTransactionRef.t; unlocks : list TxHash;
  requires_offset : nat }.

Definition pool_tx (r : t) : PoolTransaction.t :=
  PoolTransactionRef.transaction (transaction r).
Definition provides (r : t) : list TxMarker := PoolTransaction.provides (pool_tx r).
Definition requires (r : t) : list TxMarker := PoolTransaction.requires (pool_tx r).
Definition gas_price (r : t) : Z := PoolTransaction.gas_price (pool_tx r).
Definition set_unlocks (l : list TxHash) (r : t) : t :=
  mk (transaction r) l (requires_offset r).
End ReadyTransaction.

Module ReadyTransactions.
Record t := mk {
  id : Z;
  provided_markers : gmap TxMarker TxHash;
  ready_tx : gmap TxHash ReadyTransaction.t;
  independent_transactions : list PoolTransactionRef.t }.

Definition empty : t := mk 0 ∅ ∅ [].

(** [clear] keeps the id counter. *)
Definition clear (st : t) : t := mk (id st) ∅ ∅ [].

Definition contains (st : t) (h : TxHash) : bool :=
  bool_decide (is_Some (ready_tx st !! h)).

Definition get (st : t) (h : TxHash) : option ReadyTransaction.t := ready_tx st !! h.

Definition next_id (st : t) : t * Z :=
  (mk (wrapping_add_u64 (id st) 1) (provided_markers st) (ready_tx st)
     (independent_transactions st), id st).

(** ** remove_with_markers *)

(** The marks of a removed transaction that are not in the filter. *)
Definition invalidated (marker_filter : option (gset TxMarker)) (provides : list TxMarker) :
    list TxMarker :=
  match marker_filter with
  | None => provides
  | Some s => filter (λ m, m ∉ s) provides
  end.

Definition remove_marks (marks : list TxMarker) (provided : gmap TxMarker TxHash) :
    gmap TxMarker TxHash :=
  foldl (λ p m, delete m p) provided marks.

(** "remove from unlocks": the inner [hash] is the hash of the transaction
    that provides [mark], and that hash is what is looked for in its own
    [unlocks]. *)
Definition remove_from_unlocks (provided : gmap TxMarker TxHash)
    (ready : gmap TxHash ReadyTransaction.t) (mark : TxMarker) :
    gmap TxHash ReadyTransaction.t :=
  match provided !! mark with
  | None => ready
  | Some hash =>
      match ready !! hash with
      | None => ready
      | Some tx =>
          <[hash := ReadyTransaction.set_unlocks
              (swap_remove_first hash (ReadyTransaction.unlocks tx)) tx]> ready
      end
  end.

(** One iteration that removes the ready transaction [tx] with hash [hash]. *)
Definition remove_ready (marker_filter : option (gset TxMarker)) (st : t)
    (hash : TxHash) (tx : ReadyTransaction.t) : t :=
  let provided := remove_marks
    (invalidated marker_filter (ReadyTransaction.provides tx)) (provided_markers st) in
  mk (id st) provided
    (foldl (remove_from_unlocks provided) (delete hash (ready_tx st))
      (ReadyTransaction.requires tx))
    (bt_remove PoolTransactionRef.cmp (ReadyTransaction.transaction tx)
      (independent_transactions st)).

Fixpoint remove_loop (fuel : nat) (marker_filter : option (gset TxMarker)) (st : t)
    (tx_hashes : list TxHash) (removed : list PoolTransaction.t) :
    option (t * list PoolTransaction.t) :=
  match fuel with
  | O => None
  | S fuel =>
      match vec_pop tx_hashes with
      | None => Some (st, removed)
      | Some (hash, tx_hashes) =>
          match ready_tx st !! hash with
          | None => remove_loop fuel marker_filter st tx_hashes removed
          | Some tx =>
              let removed_some_marks :=
                match invalidated marker_filter (ReadyTransaction.provides tx) with
                | [] => false
                | _ => true
                end in
              remove_loop fuel marker_filter (remove_ready marker_filter st hash tx)
                (if removed_some_marks then tx_hashes ++ ReadyTransaction.unlocks tx
                 else tx_hashes)
                (removed ++ [ReadyTransaction.pool_tx tx])
          end
      end
  end.

(** The number of links: a bound on the hashes the loop can still push. *)
Definition links (ready : gmap TxHash ReadyTransaction.t) : nat :=
  map_fold (λ _ tx n, length (ReadyTransaction.unlocks tx) + n) 0 ready.

Definition remove_with_markers (st : t) (tx_hashes : list TxHash)
    (marker_filter : option (gset TxMarker)) : option (t * list PoolTransaction.t) :=
  remove_loop (S (length tx_hashes + links (ready_tx st))) marker_filter st tx_hashes [].

Definition clear_transactions (st : t) (tx_hashes : list TxHash) :
    option (t * list PoolTransaction.t) :=
  remove_with_markers st tx_hashes None.

(** ** add_transaction *)

Section order.
Context `{HashOrder}.

(** The loop of [replaced_transactions] over the transactions to remove. *)
Fixpoint check_replaced (tx : PoolTransaction.t) (to_remove : list ReadyTransaction.t)
    (unlocked_tx : list TxHash) : result (list TxHash) PoolError :=
  match to_remove with
  | [] => Ok unlocked_tx
  | r :: to_remove =>
      if bool_decide (ReadyTransaction.provides r = PoolTransaction.provides tx) &&
         (PoolTransaction.gas_price tx <=? ReadyTransaction.gas_price r)%Z
      then Err (ReplacementUnderpriced tx)
      else check_replaced tx to_remove (unlocked_tx ++ ReadyTransaction.unlocks r)
  end.

Definition replaced_transactions (st : t) (tx : PoolTransaction.t) :
    option (t * result (list PoolTransaction.t * list TxHash) PoolError) :=
  let remove_hashes : gset TxHash :=
    list_to_set (omap (λ m, provided_markers st !! m) (PoolTransaction.provides tx)) in
  if decide (remove_hashes = ∅) then Some (st, Ok ([], []))
  else
    match check_replaced tx (omap (λ h, ready_tx st !! h) (set_iter remove_hashes)) [] with
    | Err e => Some (st, Err e)
    | Ok unlocked_tx =>
        '(st, removed_tx) ← remove_with_markers st (set_iter remove_hashes)
          (Some (list_to_set (PoolTransaction.provides tx)));
        Some (st, Ok (removed_tx, unlocked_tx))
    end.

(** "Add links to transactions that unlock the current one": returns the
    updated queue, whether the transaction is independent and its
    [requires_offset]. *)
Fixpoint add_links (hash : TxHash) (provided : gmap TxMarker TxHash)
    (requires : list TxMarker) (ready : gmap TxHash ReadyTransaction.t)
    (independent : bool) (requires_offset : nat) :
    option (gmap TxHash ReadyTransaction.t * bool * nat) :=
  match requires with
  | [] => Some (ready, independent, requires_offset)
  | mark :: requires =>
      match provided !! mark with
      | Some other =>
          tx ← ready !! other;
          add_links hash provided requires
            (<[other := ReadyTransaction.set_unlocks
                (ReadyTransaction.unlocks tx ++ [hash]) tx]> ready)
            false requires_offset
      | None => add_links hash provided requires ready independent (S requires_offset)
      end
  end.

Definition insert_ready (st : t) (tx : PoolTransaction.t) (unlocks : list TxHash) :
    option t :=
  let '(st, id') := next_id st in
  let hash := PoolTransaction.hash tx in
  '(ready, independent, requires_offset) ←
    add_links hash (provided_markers st) (PoolTransaction.requires tx) (ready_tx st) true 0;
  let provided :=
    foldl (λ p m, <[m := hash]> p) (provided_markers st) (PoolTransaction.provides tx) in
  let transaction := PoolTransactionRef.mk tx id' in
  Some (mk (id st) provided
    (<[hash := ReadyTransaction.mk transaction unlocks requires_offset]> ready)
    (if independent : bool
     then bt_insert PoolTransactionRef.cmp transaction (independent_transactions st)
     else independent_transactions st)).

Definition add_transaction (st : t) (tx : PendingPoolTransaction.t) :
    option (t * result (list PoolTransaction.t) PoolError) :=
  assert! PendingPoolTransaction.is_ready tx ;;
  assert! negb (contains st (PendingPoolTransaction.hash tx)) ;;
  let transaction := PendingPoolTransaction.transaction tx in
  '(st, replaced) ← replaced_transactions st transaction;
  match replaced with
  | Err e => Some (st, Err e)
  | Ok (replaced_tx, unlocks) =>
      st ← insert_ready st transaction unlocks;
      Some (st, Ok replaced_tx)
  end.

End order.

(** ** prune_tags *)

(** The closure [previous_markers] applied to the required markers in turn. *)
Fixpoint prune_previous (hash : TxHash) (provided : gmap TxMarker TxHash)
    (requires : list TxMarker) (ready : gmap TxHash ReadyTransaction.t)
    (remove : list TxMarker) : gmap TxHash ReadyTransaction.t * list TxMarker :=
  match requires with
  | [] => (ready, remove)
  | marker :: requires =>
      match provided !! marker with
      | None => prune_previous hash provided requires ready remove
      | Some prev_hash =>
          match ready !! prev_hash with
          | None => prune_previous hash provided requires ready remove
          | Some tx2 =>
              let unlocks := swap_remove_first hash (ReadyTransaction.unlocks tx2) in
              prune_previous hash provided requires
                (<[prev_hash := ReadyTransaction.set_unlocks unlocks tx2]> ready)
                (match unlocks with
                 | [] => remove ++ ReadyTransaction.provides tx2
                 | _ => remove
                 end)
          end
      end
  end.

(** "add the transactions that just got unlocked to independent set". *)
Fixpoint prune_unlocked (unlocks : list TxHash)
    (ready : gmap TxHash ReadyTransaction.t)
    (independent : list PoolTransactionRef.t) :
    gmap TxHash ReadyTransaction.t * list PoolTransactionRef.t :=
  match unlocks with
  | [] => (ready, independent)
  | hash :: unlocks =>
      match ready !! hash with
      | None => prune_unlocked unlocks ready independent
      | Some tx =>
          let offset := S (ReadyTransaction.requires_offset tx) in
          prune_unlocked unlocks
            (<[hash := ReadyTransaction.mk (ReadyTransaction.transaction tx)
                 (ReadyTransaction.unlocks tx) offset]> ready)
            (if decide (offset = length (ReadyTransaction.requires tx))
             then bt_insert PoolTransactionRef.cmp (ReadyTransaction.transaction tx) independent
             else independent)
      end
  end.

(** "finally, remove the markers that this transaction provides", with the
    assertion on what each removal returns. *)
Fixpoint prune_provides (current_marker : TxMarker) (hash : TxHash)
    (provides : list TxMarker) (provided : gmap TxMarker TxHash) :
    option (gmap TxMarker TxHash) :=
  match provides with
  | [] => Some provided
  | marker :: provides =>
      assert! bool_decide (provided !! marker =
        if decide (current_marker = marker) then None else Some hash) ;;
      prune_provides current_marker hash provides (delete marker provided)
  end.

Fixpoint prune_loop (fuel : nat) (st : t) (remove : list TxMarker)
    (removed_tx : list PoolTransaction.t) : option (t * list PoolTransaction.t) :=
  match fuel with
  | O => None
  | S fuel =>
      match vec_pop remove with
      | None => Some (st, removed_tx)
      | Some (marker, remove) =>
          let provided := delete marker (provided_markers st) in
          match provided_markers st !! marker ≫= (λ h, pair h <$> ready_tx st !! h) with
          | None =>
              prune_loop fuel
                (mk (id st) provided (ready_tx st) (independent_transactions st))
                remove removed_tx
          | Some (h, rtx) =>
              let tx := ReadyTransaction.pool_tx rtx in
              let independent := bt_remove PoolTransactionRef.cmp
                (ReadyTransaction.transaction rtx) (independent_transactions st) in
              let '(ready, remove) := prune_previous (PoolTransaction.hash tx) provided
                (PoolTransaction.requires tx) (delete h (ready_tx st)) remove in
              let '(ready, independent) :=
                prune_unlocked (ReadyTransaction.unlocks rtx) ready independent in
              provided ← prune_provides marker (PoolTransaction.hash tx)
                (PoolTransaction.provides tx) provided;
              prune_loop fuel (mk (id st) provided ready independent) remove
                (removed_tx ++ [tx])
          end
      end
  end.

(** A bound on the markers the loop can push: every removal pushes at most
    the provided markers of one transaction per required marker. *)
Definition prune_bound (ready : gmap TxHash ReadyTransaction.t) : nat :=
  map_fold (λ _ tx n, length (ReadyTransaction.requires tx) + n) 0 ready *
  map_fold (λ _ tx n, length (ReadyTransaction.provides tx) + n) 0 ready.

Definition prune_tags (st : t) (marker : TxMarker) : option (t * list PoolTransaction.t) :=
  prune_loop (S (S (prune_bound (ready_tx st)))) st [marker] [].

End ReadyTransactions.

Import ReadyTransactions.

Abbreviation rtx_tx := ReadyTransaction.pool_tx.
Abbreviation rtx_ref := ReadyTransaction.transaction.
Abbreviation rtx_unlocks := ReadyTransaction.unlocks.
Abbreviation rtx_provides := ReadyTransaction.provides.
Abbreviation rtx_requires := ReadyTransaction.requires.

(** * Termination of the removal loop *)

Section sums.
Context (f : ReadyTransaction.t → nat).
Implicit Types m : gmap TxHash ReadyTransaction.t.

Definition total m : nat := map_fold (λ _ tx n, f tx + n) 0 m.

Lemma total_insert m h tx : m !! h = None → total (<[h := tx]> m) = f tx + total m.
Proof.
  intros. unfold total. rewrite map_fold_insert_L; [done| |done].
  intros. lia.
Qed.

Lemma total_delete m h tx : m !! h = Some tx → total m = f tx + total (delete h m).
Proof.
  intros Hl. rewrite <- (insert_delete_id m h tx Hl) at 1.
  apply total_insert. apply lookup_delete_eq.
Qed.

Lemma total_insert_le m h tx tx' :
  m !! h = Some tx → f tx' ≤ f tx → total (<[h := tx']> m) ≤ total m.
Proof.
  intros Hl Hle. rewrite (total_delete m h tx Hl), <- insert_delete_eq, total_insert;
    [lia|apply lookup_delete_eq].
Qed.
End sums.

Lemma links_remove_from_unlocks provided ready marks :
  links (foldl (remove_from_unlocks provided) ready marks) ≤ links ready.
Proof.
  revert ready. induction marks as [|m marks IH]; intros ready; simpl; [lia|].
  etrans; [apply IH|]. unfold remove_from_unlocks.
  destruct (provided !! m) as [h|]; [|done]. destruct (ready !! h) as [tx|] eqn:Hl; [|done].
  apply (total_insert_le (λ tx, length (rtx_unlocks tx)) ready h tx); [done|].
  apply length_swap_remove_first.
Qed.

Lemma remove_loop_total fuel flt st hs removed :
  length hs + links (ready_tx st) < fuel →
  is_Some (remove_loop fuel flt st hs removed).
Proof.
  revert st hs removed. induction fuel as [|fuel IH]; intros st hs removed Hlt; [lia|].
  simpl. destruct (vec_pop hs) as [[h hs']|] eqn:Hpop; [|by eexists].
  apply vec_pop_Some in Hpop as ->. rewrite length_app in Hlt. simpl in Hlt.
  destruct (ready_tx st !! h) as [tx|] eqn:Hl; [|apply IH; lia].
  apply IH. unfold remove_ready; simpl.
  pose proof (links_remove_from_unlocks
    (remove_marks (invalidated flt (rtx_provides tx)) (provided_markers st))
    (delete h (ready_tx st)) (rtx_requires tx)) as Hle.
  pose proof (total_delete (λ tx, length (rtx_unlocks tx)) _ _ _ Hl) as Hd.
  unfold links in *. unfold total in Hd. simpl in *.
  case_match; rewrite ?length_app; lia.
Qed.

Lemma remove_with_markers_total st hs flt : is_Some (remove_with_markers st hs flt).
Proof. apply remove_loop_total. lia. Qed.
