(* ===== verification/ReadyInv.v ===== *)
(** The invariant of the ready queue for the transactions anvil submits, and
    its preservation by every operation of [ReadyTransactions].

    The RPC handlers attach to a transaction one provided marker, its (nonce,
    sender) pair, and at most one required marker, the preceding nonce of the
    same sender ([account_tx]).  The pair is part of the signed transaction,
    so it is a function of the hash ([acct]). *)
From S2P Require Import Prelude Transaction PoolTx ReadyQueue.
Import ReadyTransactions.

Section account.
(** The nonce and the sender of the transaction with a given hash. *)
Context (acct : TxHash → Z * Address).

Definition marker_of (h : TxHash) : TxMarker := to_marker (acct h).1 (acct h).2.
Definition prev_marker_of (h : TxHash) : TxMarker := to_marker ((acct h).1 - 1) (acct h).2.

Definition account_tx (tx : PoolTransaction.t) : Prop :=
  is_u64 (acct (PoolTransaction.hash tx)).1 ∧
  PoolTransaction.provides tx = [marker_of (PoolTransaction.hash tx)] ∧
  (PoolTransaction.requires tx = [] ∨
   (0 < (acct (PoolTransaction.hash tx)).1)%Z ∧
   PoolTransaction.requires tx = [prev_marker_of (PoolTransaction.hash tx)]).

(** [h] is the transaction of the same sender with the next nonce. *)
Definition follows (g h : TxHash) : Prop :=
  acct h = ((acct g).1 + 1, (acct g).2)%Z.

(** The invariant, with [S] the hashes a removal in progress still has to
    visit.  A transaction that is not independent is linked from a ready
    transaction ([rw_reach]); every link follows the nonces of one sender
    ([rw_links]); every marker has exactly one provider ([rw_provided]). *)
Record ready_wf_upto (S : list TxHash) (st : t) : Prop := {
  rw_hash h r : ready_tx st !! h = Some r → PoolTransaction.hash (rtx_tx r) = h;
  rw_acct h r : ready_tx st !! h = Some r → account_tx (rtx_tx r);
  rw_provided m h : provided_markers st !! m = Some h ↔
    is_Some (ready_tx st !! h) ∧ m = marker_of h;
  rw_sorted : bt_sorted PoolTransactionRef.cmp (independent_transactions st);
  rw_indep ref : ref ∈ independent_transactions st →
    ∃ r, ready_tx st !! (PoolTransactionRef.hash ref) = Some r ∧ rtx_ref r = ref;
  rw_reach h r : ready_tx st !! h = Some r →
    rtx_ref r ∈ independent_transactions st ∨ h ∈ S ∨
    (ReadyTransaction.requires_offset r = 0 ∧ rtx_requires r ≠ [] ∧
     ∃ g rg, ready_tx st !! g = Some rg ∧ h ∈ rtx_unlocks rg);
  rw_links g rg h : ready_tx st !! g = Some rg → h ∈ rtx_unlocks rg → follows g h;
  rw_id h r : ready_tx st !! h = Some r → (PoolTransactionRef.id (rtx_ref r) < id st)%Z;
  rw_id_inj h h' r r' : ready_tx st !! h = Some r → ready_tx st !! h' = Some r' →
    PoolTransactionRef.id (rtx_ref r) = PoolTransactionRef.id (rtx_ref r') → h = h';
  rw_counter : (0 ≤ id st)%Z;
}.

Abbreviation ready_wf := (ready_wf_upto []).

Lemma ready_wf_empty : ready_wf empty.
Proof.
  split; simpl; intros; rewrite ?lookup_empty in *; try done.
  - split; [done|]. by intros [[] _].
  - constructor.
  - by apply elem_of_nil in H.
Qed.

Lemma ready_wf_clear st : ready_wf st → ready_wf (clear st).
Proof.
  intros Hwf. split; simpl; intros; rewrite ?lookup_empty in *; try done.
  - split; [done|]. by intros [[] _].
  - constructor.
  - by apply elem_of_nil in H.
  - by eapply rw_counter.
Qed.

Section lemmas.
Context {S : list TxHash} {st : t} (Hwf : ready_wf_upto S st).

Lemma rw_provides h r : ready_tx st !! h = Some r → rtx_provides r = [marker_of h].
Proof.
  intros Hr. destruct (rw_acct _ _ Hwf _ _ Hr) as (_ & Hp & _).
  by rewrite (rw_hash _ _ Hwf _ _ Hr) in Hp.
Qed.

Lemma rw_nonce h r : ready_tx st !! h = Some r → is_u64 (acct h).1.
Proof.
  intros Hr. destruct (rw_acct _ _ Hwf _ _ Hr) as (Hn & _).
  by rewrite (rw_hash _ _ Hwf _ _ Hr) in Hn.
Qed.

Lemma rw_marker_inj h h' r r' :
  ready_tx st !! h = Some r → ready_tx st !! h' = Some r' →
  marker_of h = marker_of h' → h = h'.
Proof.
  intros Hr Hr' Heq.
  assert (provided_markers st !! marker_of h = Some h) as H1 by (apply Hwf; split; [by eexists|done]).
  assert (provided_markers st !! marker_of h = Some h') as H2 by (apply Hwf; split; [by eexists|done]).
  congruence.
Qed.

Lemma rw_no_self h r : ready_tx st !! h = Some r → h ∉ rtx_unlocks r.
Proof.
  intros Hr Hin. pose proof (rw_links _ _ Hwf _ _ _ Hr Hin) as Hf.
  unfold follows in Hf. destruct (acct h) as [n a]. simpl in Hf. injection Hf. lia.
Qed.

Lemma rw_ref_hash h r : ready_tx st !! h = Some r → PoolTransactionRef.hash (rtx_ref r) = h.
Proof. apply Hwf. Qed.

(** The links are not changed when a transaction is removed. *)
Lemma remove_from_unlocks_id ready provided marks :
  (∀ h r, ready !! h = Some r → h ∉ rtx_unlocks r) →
  foldl (remove_from_unlocks provided) ready marks = ready.
Proof.
  intros Hns. induction marks as [|m marks IH]; simpl; [done|].
  unfold remove_from_unlocks at 2. destruct (provided !! m) as [p|]; [|done].
  destruct (ready !! p) as [rp|] eqn:Hp; [|done].
  rewrite swap_remove_first_notin by eauto.
  rewrite insert_id; [done|]. rewrite Hp. by destruct rp.
Qed.

Lemma bt_remove_other h h' r r' :
  ready_tx st !! h = Some r → ready_tx st !! h' = Some r' → h' ≠ h →
  rtx_ref r' ∈ independent_transactions st →
  rtx_ref r' ∈ bt_remove PoolTransactionRef.cmp (rtx_ref r) (independent_transactions st).
Proof.
  intros Hr Hr' Hne Hin. apply bt_remove_keep; [done|]. intros Heq%ref_cmp_eq.
  apply Hne. symmetry. exact (rw_id_inj _ _ Hwf _ _ _ _ Hr Hr' Heq).
Qed.

Lemma bt_remove_live h r ref :
  ready_tx st !! h = Some r →
  ref ∈ bt_remove PoolTransactionRef.cmp (rtx_ref r) (independent_transactions st) →
  PoolTransactionRef.hash ref ≠ h ∧ ref ∈ independent_transactions st.
Proof.
  intros Hr Hin. split; [|exact (elem_of_bt_remove _ _ _ _ Hin)].
  intros Heq. pose proof (elem_of_bt_remove _ _ _ _ Hin) as Hin'.
  apply (rw_indep _ _ Hwf) in Hin' as (r' & Hr' & Href).
  rewrite Heq, Hr in Hr'. injection Hr' as <-. subst ref.
  apply bt_remove_out in Hin; [|apply _|apply Hwf]. by rewrite cmp_refl in Hin by apply _.
Qed.

End lemmas.

(** ** remove_with_markers without a filter *)

(** The link relation of a queue. *)
Definition link (st : t) (g h : TxHash) : Prop :=
  ∃ rg, ready_tx st !! g = Some rg ∧ h ∈ rtx_unlocks rg.

(** What removing the hashes [hs] does: the transactions reachable from [hs]
    over the links are removed, the others stay as they are. *)
Record removal_spec (hs : list TxHash) (st st' : t) (removed : list PoolTransaction.t) :
    Prop := {
  rs_sub h r : ready_tx st' !! h = Some r → ready_tx st !! h = Some r;
  rs_gone h : h ∈ hs → ready_tx st' !! h = None;
  rs_closed g h : link st g h → ready_tx st' !! g = None → ready_tx st' !! h = None;
  rs_reach h : is_Some (ready_tx st !! h) → ready_tx st' !! h = None →
    ∃ h0, h0 ∈ hs ∧ rtc (link st) h0 h;
  rs_removed tx : tx ∈ removed ↔
    ∃ h r, ready_tx st !! h = Some r ∧ ready_tx st' !! h = None ∧ tx = rtx_tx r;
  rs_nodup : NoDup (PoolTransaction.hash <$> removed);
  rs_id : id st' = id st;
  rs_indep ref : ref ∈ independent_transactions st' → ref ∈ independent_transactions st;
}.

(** No transaction is at once independent and linked from a ready
    transaction. *)
Definition ready_clean (st : t) : Prop :=
  ∀ g h r, link st g h → ready_tx st !! h = Some r →
    rtx_ref r ∉ independent_transactions st.

Lemma remove_ready_eq S st h r :
  ready_wf_upto S st → ready_tx st !! h = Some r →
  remove_ready None st h r =
    mk (id st) (delete (marker_of h) (provided_markers st)) (delete h (ready_tx st))
      (bt_remove PoolTransactionRef.cmp (rtx_ref r) (independent_transactions st)).
Proof.
  intros Hwf Hr. unfold remove_ready. simpl.
  rewrite (rw_provides Hwf _ _ Hr). simpl. f_equal.
  apply remove_from_unlocks_id. intros h' r'. rewrite lookup_delete.
  case_decide; [done|]. apply (rw_no_self Hwf).
Qed.

Lemma remove_ready_wf S st h r :
  ready_wf_upto (S ++ [h]) st → ready_tx st !! h = Some r →
  ready_wf_upto (S ++ rtx_unlocks r) (remove_ready None st h r).
Proof.
  intros Hwf Hr. rewrite (remove_ready_eq _ _ _ _ Hwf Hr).
  assert (∀ h' r', delete h (ready_tx st) !! h' = Some r' ↔
    h' ≠ h ∧ ready_tx st !! h' = Some r') as Hdel.
  { intros. rewrite lookup_delete_Some. naive_solver. }
  split; simpl.
  - intros h' r' [_ Hr']%Hdel. exact (rw_hash _ _ Hwf _ _ Hr').
  - intros h' r' [_ Hr']%Hdel. exact (rw_acct _ _ Hwf _ _ Hr').
  - intros m h'. rewrite lookup_delete_Some, (rw_provided _ _ Hwf). split.
    + intros (Hne & [r' Hr'] & ->). split; [|done]. exists r'. apply Hdel. naive_solver.
    + intros ([r' [Hne Hr']%Hdel] & ->). split; [|split; [by eexists|done]].
      intros Heq. by apply (rw_marker_inj Hwf _ _ _ _ Hr Hr') in Heq.
  - apply bt_remove_sorted, Hwf.
  - intros ref Hin. apply (bt_remove_live Hwf _ _ _ Hr) in Hin as [Hne Hin].
    apply (rw_indep _ _ Hwf) in Hin as (r' & Hr' & Href).
    exists r'. by rewrite Hdel.
  - intros h' r' [Hne Hr']%Hdel.
    destruct (rw_reach _ _ Hwf _ _ Hr') as [Hin|[Hin|(Ho & Hq & g & rg & Hg & Hin)]].
    + left. by apply (bt_remove_other Hwf h h').
    + right. left. set_solver.
    + destruct (decide (g = h)) as [->|Hgh].
      * right. left. assert (rg = r) as -> by congruence. set_solver.
      * right. right. split_and!; [done..|]. exists g, rg. by rewrite Hdel.
  - intros g rg h' [_ Hg]%Hdel. exact (rw_links _ _ Hwf _ _ _ Hg).
  - intros h' r' [_ Hr']%Hdel. exact (rw_id _ _ Hwf _ _ Hr').
  - intros h1 h2 r1 r2 [_ H1]%Hdel [_ H2]%Hdel. exact (rw_id_inj _ _ Hwf _ _ _ _ H1 H2).
  - apply Hwf.
Qed.

Lemma ready_wf_upto_skip S st h :
  ready_wf_upto (S ++ [h]) st → ready_tx st !! h = None → ready_wf_upto S st.
Proof.
  intros Hwf Hn. split; try apply Hwf.
  intros h' r' Hr'. destruct (rw_reach _ _ Hwf _ _ Hr') as [?|[Hin|?]]; [auto| |auto].
  right. left. apply elem_of_app in Hin as [?|Hin]; [done|].
  apply list_elem_of_singleton in Hin as ->. congruence.
Qed.

Lemma removal_spec_nil st : removal_spec [] st st [].
Proof.
  split; try done.
  - by intros h ?%elem_of_nil.
  - intros g h (rg & Hg & _). congruence.
  - intros h [r Hr]. congruence.
  - intros tx. split; [by intros ?%elem_of_nil|]. intros (h & r & Hr & Hn & _). congruence.
  - constructor.
Qed.

Lemma removal_spec_step S st st1 st' h r new :
  ready_wf_upto (S ++ [h]) st → ready_tx st !! h = Some r →
  ready_tx st1 = delete h (ready_tx st) → id st1 = id st →
  (∀ ref, ref ∈ independent_transactions st1 → ref ∈ independent_transactions st) →
  removal_spec (S ++ rtx_unlocks r) st1 st' new →
  removal_spec (S ++ [h]) st st' (rtx_tx r :: new).
Proof.
  intros Hwf Hr H1 Hid1 Hind1 [Hsub Hgone Hcl Hre Hrem Hnd Hid Hind].
  assert (∀ h' r', ready_tx st1 !! h' = Some r' ↔ h' ≠ h ∧ ready_tx st !! h' = Some r')
    as Hdel. { intros. rewrite H1, lookup_delete_Some. naive_solver. }
  assert (ready_tx st' !! h = None) as Hh.
  { apply eq_None_not_Some. intros [r' [? _]%Hsub%Hdel]. done. }
  split; [| | | | | |congruence|by auto].
  - intros h' r' Hr'%Hsub%Hdel. naive_solver.
  - intros h' [Hin|Hin]%elem_of_app; [apply Hgone; set_solver|].
    by apply list_elem_of_singleton in Hin as ->.
  - intros g h' (rg & Hg & Hin) Hgn. destruct (decide (g = h)) as [->|Hne].
    + assert (rg = r) as -> by congruence. apply Hgone. set_solver.
    + apply (Hcl g); [|done]. exists rg. by rewrite Hdel.
  - intros h' [r' Hr'] Hn. destruct (decide (h' = h)) as [->|Hne].
    { exists h. split; [set_solver|done]. }
    destruct (Hre h') as (h0 & Hin & Hpath); [exists r'; by apply Hdel|done|].
    assert (rtc (link st) h0 h').
    { eapply rtc_subrel; [|exact Hpath]. intros x y (rx & [? ?]%Hdel & ?). by exists rx. }
    apply elem_of_app in Hin as [Hin|Hin]; [exists h0; set_solver|].
    exists h. split; [set_solver|]. eapply rtc_l; [|done]. by exists r.
  - intros tx. rewrite elem_of_cons, Hrem. split.
    + intros [->|(h' & r' & [? ?]%Hdel & ? & ->)]; [by exists h, r|by exists h', r'].
    + intros (h' & r' & Hr' & Hn & ->). destruct (decide (h' = h)) as [->|Hne].
      * left. congruence.
      * right. exists h', r'. by rewrite Hdel.
  - rewrite fmap_cons. apply NoDup_cons. split; [|done].
    intros (tx & Heq & Hin)%list_elem_of_fmap.
    apply Hrem in Hin as (h' & r' & [Hne Hr']%Hdel & _ & ->).
    rewrite (rw_hash _ _ Hwf _ _ Hr), (rw_hash _ _ Hwf _ _ Hr') in Heq. done.
Qed.

Lemma remove_loop_spec fuel st hs removed st' removed' :
  ready_wf_upto hs st → remove_loop fuel None st hs removed = Some (st', removed') →
  ready_wf st' ∧ ∃ new, removed' = removed ++ new ∧ removal_spec hs st st' new.
Proof.
  revert st hs removed. induction fuel as [|fuel IH]; intros st hs removed Hwf; simpl; [done|].
  destruct (vec_pop hs) as [[h hs']|] eqn:Hpop; cycle 1.
  { apply vec_pop_None in Hpop as ->. intros [= <- <-]. split; [done|].
    exists []. rewrite app_nil_r. split; [done|]. apply removal_spec_nil. }
  apply vec_pop_Some in Hpop as ->.
  destruct (ready_tx st !! h) as [r|] eqn:Hr.
  - simpl. rewrite (rw_provides Hwf _ _ Hr). intros Hloop.
    apply IH in Hloop as (Hwf' & new & -> & Hsp); [|by apply remove_ready_wf].
    split; [done|]. exists (rtx_tx r :: new). rewrite <- app_assoc. split; [done|].
    rewrite (remove_ready_eq _ _ _ _ Hwf Hr) in Hsp.
    refine (removal_spec_step _ _ _ _ _ _ _ Hwf Hr _ _ _ Hsp); [done..|].
    intros ref. apply elem_of_bt_remove.
  - intros Hloop. apply IH in Hloop as (Hwf' & new & -> & Hsp);
      [|by eapply ready_wf_upto_skip].
    split; [done|]. exists new. split; [done|].
    destruct Hsp as [Hsub Hgone Hcl Hre Hrem Hnd Hid Hind]. split; [done| |done| |done..].
    + intros h' [Hin|Hin]%elem_of_app; [auto|].
      apply list_elem_of_singleton in Hin as ->. apply eq_None_not_Some.
      intros [? ?%Hsub]. congruence.
    + intros h' Hs Hn. destruct (Hre h' Hs Hn) as (h0 & ? & ?). exists h0. set_solver.
Qed.

Lemma ready_wf_upto_weaken S st : ready_wf st → ready_wf_upto S st.
Proof.
  intros Hwf. split; try apply Hwf. intros h r Hr.
  destruct (rw_reach _ _ Hwf _ _ Hr) as [?|[[]%elem_of_nil|?]]; auto.
Qed.

Lemma remove_with_markers_spec st hs :
  ready_wf st →
  ∃ st' removed, remove_with_markers st hs None = Some (st', removed) ∧
    ready_wf st' ∧ removal_spec hs st st' removed.
Proof.
  intros Hwf. destruct (remove_with_markers_total st hs None) as [[st' removed] Heq].
  exists st', removed. split; [done|].
  apply remove_loop_spec in Heq as (? & new & -> & ?); [done|].
  by apply ready_wf_upto_weaken.
Qed.

Lemma removal_clean hs st st' removed :
  removal_spec hs st st' removed → ready_clean st → ready_clean st'.
Proof.
  intros Hsp Hcl g h r (rg & Hg & Hin) Hr Hi.
  apply (Hcl g h r); [|by apply (rs_sub _ _ _ _ Hsp)|by apply (rs_indep _ _ _ _ Hsp)].
  exists rg. split; [by apply (rs_sub _ _ _ _ Hsp)|done].
Qed.

(** ** add_transaction *)

Section order.
Context `{HashOrder}.

Definition push_unlock (h : TxHash) (r : ReadyTransaction.t) : ReadyTransaction.t :=
  ReadyTransaction.set_unlocks (rtx_unlocks r ++ [h]) r.

(** The transaction [tx] would replace, and the one it would wait for. *)
Definition old_of (st : t) (tx : PoolTransaction.t) : option TxHash :=
  provided_markers st !! marker_of (PoolTransaction.hash tx).
Definition parent_of (st : t) (tx : PoolTransaction.t) : option TxHash :=
  head (PoolTransaction.requires tx) ≫= λ m, provided_markers st !! m.
Definition old_ready (st : t) (tx : PoolTransaction.t) : option ReadyTransaction.t :=
  old_of st tx ≫= λ g, ready_tx st !! g.

(** The queue without the replaced transaction; its marker stays. *)
Definition evict (st : t) (tx : PoolTransaction.t) : t :=
  match old_of st tx, old_ready st tx with
  | Some g, Some rg =>
      mk (id st) (provided_markers st) (delete g (ready_tx st))
        (bt_remove PoolTransactionRef.cmp (rtx_ref rg) (independent_transactions st))
  | _, _ => st
  end.

(** The queue after [tx] was accepted. *)
Definition accept (st : t) (tx : PoolTransaction.t) : t :=
  let h := PoolTransaction.hash tx in
  let ref := PoolTransactionRef.mk tx (id st) in
  let unlocks := from_option rtx_unlocks [] (old_ready st tx) in
  let st1 := evict st tx in
  match parent_of st tx with
  | Some p =>
      mk (wrapping_add_u64 (id st) 1) (<[marker_of h := h]> (provided_markers st))
        (<[h := ReadyTransaction.mk ref unlocks 0]> (alter (push_unlock h) p (ready_tx st1)))
        (independent_transactions st1)
  | None =>
      mk (wrapping_add_u64 (id st) 1) (<[marker_of h := h]> (provided_markers st))
        (<[h := ReadyTransaction.mk ref unlocks (length (PoolTransaction.requires tx))]>
          (ready_tx st1))
        (bt_insert PoolTransactionRef.cmp ref (independent_transactions st1))
  end.

Lemma set_iter_singleton g : set_iter {[g]} = [g].
Proof. apply Permutation_singleton_r. by rewrite set_iter_perm, elements_singleton. Qed.

Lemma invalidated_same m : invalidated (Some {[m]}) [m] = [].
Proof. simpl. by rewrite filter_cons_False by set_solver. Qed.

Lemma replaced_transactions_eq st tx :
  ready_wf st → account_tx tx →
  replaced_transactions st tx =
    match old_ready st tx with
    | None => Some (st, Ok ([], []))
    | Some rg =>
        if (PoolTransaction.gas_price tx <=? ReadyTransaction.gas_price rg)%Z
        then Some (st, Err (ReplacementUnderpriced tx))
        else Some (evict st tx, Ok ([rtx_tx rg], rtx_unlocks rg))
    end.
Proof.
  intros Hwf (Hn & Hp & _). unfold replaced_transactions, evict, old_ready, old_of.
  rewrite Hp. simpl.
  destruct (provided_markers st !! marker_of (PoolTransaction.hash tx)) as [g|] eqn:Hg;
    simpl; [|by rewrite decide_True].
  apply (rw_provided _ _ Hwf) in Hg as [[rg Hrg] Hm]. rewrite Hrg. simpl.
  rewrite union_empty_r_L, decide_False, set_iter_singleton by set_solver. simpl.
  rewrite Hrg. simpl. rewrite (rw_provides Hwf _ _ Hrg), Hp, Hm, bool_decide_true by done. simpl.
  destruct (_ <=? _)%Z; [done|].
  unfold remove_with_markers. rewrite union_empty_r_L. cbn -[invalidated remove_ready].
  rewrite Hrg, (rw_provides Hwf _ _ Hrg), invalidated_same.
  unfold remove_ready. rewrite (rw_provides Hwf _ _ Hrg), invalidated_same. simpl.
  rewrite remove_from_unlocks_id; [done|].
  intros h' r'. rewrite lookup_delete. case_decide; [done|]. apply (rw_no_self Hwf).
Qed.

Lemma parent_of_spec st tx p :
  ready_wf st → account_tx tx → parent_of st tx = Some p →
  is_Some (ready_tx st !! p) ∧ old_of st tx ≠ Some p ∧
  follows p (PoolTransaction.hash tx) ∧ PoolTransaction.requires tx ≠ [].
Proof.
  intros Hwf (Hn & _ & Hreq) Hp. unfold parent_of in Hp.
  destruct Hreq as [Hreq|[Hpos Hreq]]; rewrite Hreq in *; simpl in Hp; [done|].
  apply (rw_provided _ _ Hwf) in Hp as [[rp Hrp] Heq].
  pose proof (rw_nonce Hwf _ _ Hrp) as Hn'.
  apply to_marker_inj in Heq as [Hnonce Haddr];
    [|unfold is_u64, u64_max in *; lia|done].
  assert (follows p (PoolTransaction.hash tx)) as Hf.
  { unfold follows. rewrite <- Haddr, <- Hnonce.
    destruct (acct (PoolTransaction.hash tx)). simpl. f_equal. lia. }
  split_and!; [by eexists| |done|done].
  unfold old_of. intros [_ Hm]%(rw_provided _ _ Hwf).
  apply to_marker_inj in Hm as [Hm _]; [lia|done|done].
Qed.

Lemma alter_as_insert {V} (f : V → V) (p : TxHash) (m : gmap TxHash V) v :
  m !! p = Some v → alter f p m = <[p := f v]> m.
Proof.
  intros Hv. apply map_eq. intros i. rewrite lookup_alter, lookup_insert.
  case_decide; [by subst; rewrite Hv|done].
Qed.

Lemma evict_id st tx : id (evict st tx) = id st.
Proof. unfold evict. by repeat case_match. Qed.

Lemma evict_provided st tx : provided_markers (evict st tx) = provided_markers st.
Proof. unfold evict. by repeat case_match. Qed.

Lemma evict_lookup st tx h :
  ready_wf st →
  ready_tx (evict st tx) !! h =
    if decide (old_of st tx = Some h) then None else ready_tx st !! h.
Proof.
  intros Hwf. unfold evict, old_ready. destruct (old_of st tx) as [g|] eqn:Hold; simpl.
  - pose proof Hold as [[rg Hrg] _]%(rw_provided _ _ Hwf). rewrite Hrg. simpl.
    rewrite lookup_delete. repeat case_decide; congruence.
  - done.
Qed.

Lemma insert_ready_eq st tx :
  ready_wf st → account_tx tx →
  insert_ready (evict st tx) tx (from_option rtx_unlocks [] (old_ready st tx)) =
    Some (accept st tx).
Proof.
  intros Hwf Hacc. unfold insert_ready, accept. simpl.
  rewrite evict_id, evict_provided.
  pose proof Hacc as (_ & Hprov & _). rewrite Hprov. simpl.
  destruct (parent_of st tx) as [p|] eqn:Hpar.
  - destruct (parent_of_spec _ _ _ Hwf Hacc Hpar) as ([rp Hrp] & Hold & _ & _).
    unfold parent_of in Hpar. pose proof Hacc as (_ & _ & Hreq).
    destruct Hreq as [Hreq|[_ Hreq]]; rewrite Hreq in *; simpl in *; [done|].
    rewrite Hpar.
    assert (ready_tx (evict st tx) !! p = Some rp) as Hp.
    { by rewrite evict_lookup, decide_False. }
    rewrite Hp. simpl. f_equal. f_equal. f_equal.
    by rewrite (alter_as_insert _ _ _ _ Hp).
  - unfold parent_of in Hpar. pose proof Hacc as (_ & _ & Hreq).
    destruct Hreq as [Hreq|[_ Hreq]]; rewrite Hreq in *; simpl in *; [done|].
    by rewrite Hpar.
Qed.

(** The outcome of [ReadyTransactions::add_transaction]. *)
Lemma ready_add_eq st ptx :
  let tx := PendingPoolTransaction.transaction ptx in
  ready_wf st → account_tx tx →
  PendingPoolTransaction.is_ready ptx = true →
  ready_tx st !! PoolTransaction.hash tx = None →
  add_transaction st ptx =
    match old_ready st tx with
    | None => Some (accept st tx, Ok [])
    | Some rg =>
        if (PoolTransaction.gas_price tx <=? ReadyTransaction.gas_price rg)%Z
        then Some (st, Err (ReplacementUnderpriced tx))
        else Some (accept st tx, Ok [rtx_tx rg])
    end.
Proof.
  intros tx Hwf Hacc Hready Hnew. unfold add_transaction. rewrite Hready.
  replace (contains st (PendingPoolTransaction.hash ptx)) with false; cycle 1.
  { symmetry. apply bool_decide_eq_false, eq_None_not_Some. exact Hnew. }
  simpl. fold tx. rewrite replaced_transactions_eq by done.
  pose proof (insert_ready_eq st tx Hwf Hacc) as Hins.
  destruct (old_ready st tx) as [rg|] eqn:Hold; simpl in *.
  - destruct (_ <=? _)%Z; [done|]. simpl. by rewrite Hins.
  - assert (evict st tx = st) as Hev.
    { unfold evict. rewrite Hold. by destruct (old_of st tx). }
    rewrite Hev in Hins. by rewrite Hins.
Qed.

(** ** The invariant after an accepted transaction *)

Section accept.
Context (st : t) (tx : PoolTransaction.t).
Context (Hwf : ready_wf st) (Hacc : account_tx tx).
Context (Hnew : ready_tx st !! PoolTransaction.hash tx = None).
Abbreviation h := (PoolTransaction.hash tx).

Definition new_ready : ReadyTransaction.t :=
  ReadyTransaction.mk (PoolTransactionRef.mk tx (id st))
    (from_option rtx_unlocks [] (old_ready st tx))
    (if parent_of st tx is Some _ then 0 else length (PoolTransaction.requires tx)).

Lemma accept_lookup x :
  ready_tx (accept st tx) !! x =
    if decide (x = h) then Some new_ready
    else if decide (old_of st tx = Some x) then None
    else if decide (parent_of st tx = Some x) then push_unlock h <$> ready_tx st !! x
    else ready_tx st !! x.
Proof.
  unfold accept, new_ready. destruct (parent_of st tx) as [p|] eqn:Hp; simpl;
    rewrite lookup_insert; (case_decide; [by subst; rewrite decide_True by done|]);
    rewrite (decide_False (P := x = h)) by done.
  - rewrite lookup_alter. case_decide; rewrite evict_lookup by done;
      repeat case_decide; done || congruence.
  - rewrite evict_lookup by done. done.
Qed.

(** A transaction other than the new one is one of the old queue. *)
Lemma accept_origin x r' :
  x ≠ h → ready_tx (accept st tx) !! x = Some r' →
  ∃ r, ready_tx st !! x = Some r ∧ old_of st tx ≠ Some x ∧
    rtx_ref r' = rtx_ref r ∧
    ReadyTransaction.requires_offset r' = ReadyTransaction.requires_offset r ∧
    ∀ y, y ∈ rtx_unlocks r' ↔ y ∈ rtx_unlocks r ∨ (y = h ∧ parent_of st tx = Some x).
Proof.
  intros Hx. rewrite accept_lookup, decide_False by done.
  case_decide; [done|]. case_decide.
  - intros (r & Hr & ->)%fmap_Some. exists r. split_and!; [done..|].
    intros y. simpl. set_solver.
  - intros Hr. exists r'. split_and!; [done..|]. naive_solver.
Qed.

Lemma accept_keeps x r :
  ready_tx st !! x = Some r → old_of st tx ≠ Some x →
  ∃ r', ready_tx (accept st tx) !! x = Some r' ∧ rtx_ref r' = rtx_ref r ∧
    ∀ y, y ∈ rtx_unlocks r → y ∈ rtx_unlocks r'.
Proof.
  intros Hr Hold. rewrite accept_lookup.
  rewrite decide_False, (decide_False (P := old_of st tx = Some x)), Hr by congruence.
  case_decide; eexists; (split; [done|]); split; [done|set_solver|done|done].
Qed.

Lemma accept_provided : provided_markers (accept st tx) = <[marker_of h := h]> (provided_markers st).
Proof. unfold accept. by case_match. Qed.

Lemma accept_id : (id st < u64_max)%Z → id (accept st tx) = (id st + 1)%Z.
Proof.
  intros Hid. pose proof (rw_counter _ _ Hwf).
  unfold accept, u64_max in *. case_match; simpl; unfold wrapping_add_u64; apply Z.mod_small; lia.
Qed.

(** The independent set without the replaced transaction. *)
Lemma evict_indep_sorted :
  bt_sorted PoolTransactionRef.cmp (independent_transactions (evict st tx)).
Proof.
  unfold evict. repeat case_match; simpl; try apply Hwf.
  apply bt_remove_sorted, Hwf.
Qed.

Lemma evict_indep ref :
  ref ∈ independent_transactions (evict st tx) →
  ref ∈ independent_transactions st ∧ old_of st tx ≠ Some (PoolTransactionRef.hash ref).
Proof.
  unfold evict, old_ready. destruct (old_of st tx) as [g|] eqn:Hold; simpl; [|naive_solver].
  pose proof Hold as [[rg Hrg] _]%(rw_provided _ _ Hwf). rewrite Hrg. simpl.
  intros [Hne Hin]%(bt_remove_live Hwf _ _ _ Hrg). naive_solver.
Qed.

Lemma evict_indep_keep x r :
  ready_tx st !! x = Some r → old_of st tx ≠ Some x →
  rtx_ref r ∈ independent_transactions st →
  rtx_ref r ∈ independent_transactions (evict st tx).
Proof.
  intros Hr Hx Hin. unfold evict, old_ready. destruct (old_of st tx) as [g|] eqn:Hold; simpl; [|done].
  pose proof Hold as [[rg Hrg] _]%(rw_provided _ _ Hwf). rewrite Hrg. simpl.
  apply (bt_remove_other Hwf g x); congruence.
Qed.

Lemma accept_indep ref :
  ref ∈ independent_transactions (accept st tx) →
  (ref = PoolTransactionRef.mk tx (id st) ∧ parent_of st tx = None) ∨
  ref ∈ independent_transactions (evict st tx).
Proof.
  unfold accept. destruct (parent_of st tx); simpl; [naive_solver|].
  intros [->|?]%elem_of_bt_insert; auto.
Qed.

Lemma accept_indep_keep ref :
  ref ∈ independent_transactions (evict st tx) →
  ref ∈ independent_transactions (accept st tx).
Proof. unfold accept. case_match; simpl; [done|]. apply bt_insert_mono. Qed.

Lemma accept_indep_new :
  parent_of st tx = None →
  PoolTransactionRef.mk tx (id st) ∈ independent_transactions (accept st tx).
Proof.
  intros Hp. unfold accept. rewrite Hp. simpl. apply bt_insert_new.
  intros y [Hy _]%evict_indep Heq%ref_cmp_eq.
  apply (rw_indep _ _ Hwf) in Hy as (r & Hr & <-).
  apply (rw_id _ _ Hwf) in Hr. simpl in Heq. lia.
Qed.

Lemma new_ready_unlocks y :
  y ∈ rtx_unlocks new_ready ↔
  ∃ g rg, old_of st tx = Some g ∧ ready_tx st !! g = Some rg ∧ y ∈ rtx_unlocks rg.
Proof.
  simpl. unfold old_ready. split.
  - destruct (old_of st tx) as [g|]; simpl; [|by intros ?%elem_of_nil].
    destruct (ready_tx st !! g) as [rg|] eqn:Hg; simpl; [|by intros ?%elem_of_nil].
    intros Hy. by exists g, rg.
  - intros (g & rg & -> & Hg & Hy). simpl. by rewrite Hg.
Qed.

Lemma follows_same_marker g x :
  is_Some (ready_tx st !! g) → old_of st tx = Some g → follows g x → follows h x.
Proof.
  intros [rg Hrg] Hold. apply (rw_provided _ _ Hwf) in Hold as [_ Hm].
  pose proof (rw_nonce Hwf _ _ Hrg). pose proof Hacc as (Hn & _).
  apply to_marker_inj in Hm as [Hm1 Hm2]; [|done|done].
  unfold follows. by rewrite Hm1, Hm2.
Qed.

Lemma accept_reach x r :
  ready_tx (accept st tx) !! x = Some r →
  rtx_ref r ∈ independent_transactions (accept st tx) ∨ x ∈ [] ∨
  (ReadyTransaction.requires_offset r = 0 ∧ rtx_requires r ≠ [] ∧
   ∃ g rg, ready_tx (accept st tx) !! g = Some rg ∧ x ∈ rtx_unlocks rg).
Proof.
  destruct (decide (x = h)) as [->|Hx].
  - rewrite accept_lookup, decide_True by done. intros [= <-].
    destruct (parent_of st tx) as [p|] eqn:Hp; [|left; by apply accept_indep_new].
    destruct (parent_of_spec _ _ _ Hwf Hacc Hp) as ([rp Hrp] & Hold & Hf & Hreq).
    right. right. unfold new_ready. rewrite Hp. split_and!; [done..|].
    exists p, (push_unlock h rp). rewrite accept_lookup.
    rewrite decide_False, (decide_False (P := old_of _ _ = _)), decide_True, Hrp
      by congruence.
    split; [done|]. simpl. set_solver.
  - intros Hr. destruct (accept_origin _ _ Hx Hr) as (r0 & Hr0 & Hold & Href & Hoff & _).
    destruct (rw_reach _ _ Hwf _ _ Hr0) as [Hin|[[]%elem_of_nil|(Ho & Hq & g & rg & Hg & Hin)]].
    + left. rewrite Href. apply accept_indep_keep. by eapply evict_indep_keep.
    + right. right. split; [congruence|]. split.
      { unfold rtx_requires, rtx_tx in *. by rewrite Href. }
      destruct (decide (old_of st tx = Some g)) as [Hg'|Hg'].
      * exists h, new_ready. rewrite accept_lookup, decide_True by done. split; [done|].
        apply new_ready_unlocks. by exists g, rg.
      * destruct (accept_keeps _ _ Hg Hg') as (rg' & Hrg' & _ & Hsub).
        exists g, rg'. split; [done|]. by apply Hsub.
Qed.

Lemma accept_wf : (id st < u64_max)%Z → ready_wf (accept st tx).
Proof.
  intros Hid. pose proof Hacc as (Hn & Hprov & Hreq).
  assert (ready_tx (accept st tx) !! h = Some new_ready) as Hh.
  { by rewrite accept_lookup, decide_True. }
  split.
  - intros x r. destruct (decide (x = h)) as [->|Hx]; [rewrite Hh; by intros [= <-]|].
    intros Hr. destruct (accept_origin _ _ Hx Hr) as (r0 & Hr0 & _ & Href & _).
    unfold rtx_tx. rewrite Href. exact (rw_hash _ _ Hwf _ _ Hr0).
  - intros x r. destruct (decide (x = h)) as [->|Hx]; [rewrite Hh; by intros [= <-]|].
    intros Hr. destruct (accept_origin _ _ Hx Hr) as (r0 & Hr0 & _ & Href & _).
    unfold rtx_tx. rewrite Href. exact (rw_acct _ _ Hwf _ _ Hr0).
  - intros m x. rewrite accept_provided, lookup_insert_Some, (rw_provided _ _ Hwf).
    destruct (decide (x = h)) as [->|Hx].
    { rewrite Hh, Hnew. split; [|naive_solver].
      intros [[-> _]|(_ & [[] ?] & _)]; [|done]. by split; [eexists|]. }
    split.
    + intros [[_ ?]|(Hne & [r Hr] & ->)]; [done|]. split; [|done].
      destruct (accept_keeps x r) as (r' & -> & _); [done| |by eexists].
      intros [_ ?]%(rw_provided _ _ Hwf). congruence.
    + intros ([r Hr] & ->). right.
      destruct (accept_origin _ _ Hx Hr) as (r0 & Hr0 & Hold & _).
      split; [|split; [by eexists|done]]. intros Heq. apply Hold.
      apply (rw_provided _ _ Hwf). split; [by eexists|done].
  - unfold accept. case_match; simpl; [apply evict_indep_sorted|].
    apply bt_insert_sorted; [apply _|apply evict_indep_sorted].
  - intros ref [[-> _]|Hin]%accept_indep; [by exists new_ready|].
    apply evict_indep in Hin as [Hin Hold].
    apply (rw_indep _ _ Hwf) in Hin as (r & Hr & <-).
    destruct (accept_keeps _ _ Hr Hold) as (r' & ? & ? & _). by exists r'.
  - apply accept_reach.
  - intros g rg x Hg Hin. destruct (decide (g = h)) as [->|Hx].
    + rewrite Hh in Hg. injection Hg as <-.
      apply new_ready_unlocks in Hin as (g & rg & Hold & Hg & Hin).
      eapply follows_same_marker; [by eexists|done|]. exact (rw_links _ _ Hwf _ _ _ Hg Hin).
    + destruct (accept_origin _ _ Hx Hg) as (r0 & Hr0 & _ & _ & _ & Hun).
      apply Hun in Hin as [Hin|[-> Hp]]; [exact (rw_links _ _ Hwf _ _ _ Hr0 Hin)|].
      by apply (parent_of_spec st tx g).
  - intros x r Hr. rewrite accept_id by done. destruct (decide (x = h)) as [->|Hx].
    + rewrite Hh in Hr. injection Hr as <-. simpl. lia.
    + destruct (accept_origin _ _ Hx Hr) as (r0 & Hr0 & _ & -> & _).
      apply (rw_id _ _ Hwf) in Hr0. lia.
  - intros x y r r' Hr Hr' Heq.
    destruct (decide (x = h)) as [->|Hx], (decide (y = h)) as [->|Hy]; [done|..].
    + rewrite Hh in Hr. injection Hr as <-.
      destruct (accept_origin _ _ Hy Hr') as (r0 & Hr0 & _ & Href & _).
      rewrite Href in Heq. apply (rw_id _ _ Hwf) in Hr0. simpl in Heq. lia.
    + rewrite Hh in Hr'. injection Hr' as <-.
      destruct (accept_origin _ _ Hx Hr) as (r0 & Hr0 & _ & Href & _).
      rewrite Href in Heq. apply (rw_id _ _ Hwf) in Hr0. simpl in Heq. lia.
    + destruct (accept_origin _ _ Hx Hr) as (r0 & Hr0 & _ & Href & _).
      destruct (accept_origin _ _ Hy Hr') as (r1 & Hr1 & _ & Href' & _).
      rewrite Href, Href' in Heq. exact (rw_id_inj _ _ Hwf _ _ _ _ Hr0 Hr1 Heq).
  - rewrite accept_id by done. pose proof (rw_counter _ _ Hwf). lia.
Qed.

(** The queue stays clean unless the new transaction, submitted without a
    requirement, is the target of a link a removed transaction left behind. *)
Lemma accept_clean :
  ready_clean st → (PoolTransaction.requires tx = [] → ∀ g, ¬ link st g h) →
  ready_clean (accept st tx).
Proof.
  intros Hcl Hfree p x r (rp & Hp & Hin) Hr Hi.
  assert (∃ q, link st q x ∨ (x = h ∧ parent_of st tx = Some q)) as [q Hq].
  { destruct (decide (p = h)) as [->|Hne].
    - rewrite accept_lookup, decide_True in Hp by done. injection Hp as <-.
      apply new_ready_unlocks in Hin as (g & rg & _ & Hg & Hin).
      exists g. left. by exists rg.
    - destruct (accept_origin _ _ Hne Hp) as (r0 & Hr0 & _ & _ & _ & Hun).
      apply Hun in Hin as [Hin|?]; exists p; [left; by exists r0|by right]. }
  apply accept_indep in Hi as [[Href Hpar]|Hi].
  - destruct (decide (x = h)) as [->|Hx]; cycle 1.
    { destruct (accept_origin _ _ Hx Hr) as (r0 & Hr0 & _ & Href' & _).
      apply Hx. rewrite <- (rw_ref_hash Hwf _ _ Hr0), <- Href', Href. done. }
    destruct Hq as [(rq & Hq & Hin')|[_ ?]]; [|congruence].
    destruct Hacc as (Hn & _ & [Hreq|[Hpos Hreq]]); [by apply (Hfree Hreq q); exists rq|].
    assert (provided_markers st !! prev_marker_of h = Some q) as Hm; cycle 1.
    { unfold parent_of in Hpar. rewrite Hreq in Hpar. simpl in Hpar. congruence. }
    apply (rw_provided _ _ Hwf). split; [by eexists|].
    pose proof (rw_links _ _ Hwf _ _ _ Hq Hin') as Hf. unfold follows in Hf.
    unfold prev_marker_of, marker_of. rewrite Hf. simpl. f_equal. lia.
  - apply evict_indep in Hi as [Hi _].
    assert (x ≠ h) as Hx.
    { intros ->. rewrite accept_lookup, decide_True in Hr by done. injection Hr as <-.
      apply (rw_indep _ _ Hwf) in Hi as (r0 & Hr0 & _).
      change (ready_tx st !! h = Some r0) in Hr0. congruence. }
    destruct Hq as [Hq|[? _]]; [|done].
    destruct (accept_origin _ _ Hx Hr) as (r0 & Hr0 & _ & Href & _).
    rewrite Href in Hi. exact (Hcl q x r0 Hq Hr0 Hi).
Qed.

End accept.
End order.

(** ** prune_tags *)

(** The independent set holds references of the queue, and ids are unique. *)
Definition refs_ok (ready : gmap TxHash ReadyTransaction.t)
    (ind : list PoolTransactionRef.t) : Prop :=
  (∀ ref, ref ∈ ind → ∃ x r, ready !! x = Some r ∧ rtx_ref r = ref) ∧
  (∀ x y r r', ready !! x = Some r → ready !! y = Some r' →
    PoolTransactionRef.id (rtx_ref r) = PoolTransactionRef.id (rtx_ref r') → x = y).

Lemma refs_ok_insert ready ind h r :
  refs_ok ready ind → ready !! h = Some r →
  rtx_ref r ∈ bt_insert PoolTransactionRef.cmp (rtx_ref r) ind.
Proof.
  intros [Hlive Hinj] Hr.
  destruct (decide (Exists (λ y, PoolTransactionRef.cmp (rtx_ref r) y = Eq) ind)) as [He|Hne].
  - apply Exists_exists in He as (y & Hy & Heq%ref_cmp_eq).
    pose proof Hy as (x & r' & Hr' & <-)%Hlive.
    assert (h = x) as <- by eauto. rewrite Hr in Hr'. injection Hr' as <-.
    by apply bt_insert_mono.
  - apply bt_insert_new. intros y Hy Heq. apply Hne. apply Exists_exists. eauto.
Qed.

(** [ready'] has the transactions of [ready], up to their offsets. *)
Definition same_upto (l : list TxHash) (ready ready' : gmap TxHash ReadyTransaction.t) : Prop :=
  ∀ x, match ready' !! x with
       | None => ready !! x = None
       | Some r' => ∃ r, ready !! x = Some r ∧ rtx_ref r' = rtx_ref r ∧
           rtx_unlocks r' = rtx_unlocks r ∧ (x ∉ l → r' = r)
       end.

Lemma refs_ok_same l ready ready' ind :
  same_upto l ready ready' → refs_ok ready ind → refs_ok ready' ind.
Proof.
  intros Hs [Hlive Hinj]. split.
  - intros ref (x & r & Hr & <-)%Hlive. specialize (Hs x).
    destruct (ready' !! x) as [r'|] eqn:Hr'; [|congruence].
    destruct Hs as (r0 & Hr0 & Href & _). exists x, r'. split; [done|]. congruence.
  - intros x y r r' Hr Hr' Heq. pose proof (Hs x) as Hx. pose proof (Hs y) as Hy.
    rewrite Hr in Hx. rewrite Hr' in Hy.
    destruct Hx as (r0 & Hr0 & Href0 & _), Hy as (r1 & Hr1 & Href1 & _).
    rewrite Href0, Href1 in Heq. eauto.
Qed.

Lemma refs_ok_bt_insert ready ind h r :
  ready !! h = Some r → refs_ok ready ind →
  refs_ok ready (bt_insert PoolTransactionRef.cmp (rtx_ref r) ind).
Proof.
  intros Hr [Hlive Hinj]. split; [|done].
  intros ref [->|?]%elem_of_bt_insert; [by exists h, r|auto].
Qed.

Lemma prune_unlocked_spec l ready ind ready' ind' :
  refs_ok ready ind → bt_sorted PoolTransactionRef.cmp ind →
  prune_unlocked l ready ind = (ready', ind') →
  refs_ok ready' ind' ∧ bt_sorted PoolTransactionRef.cmp ind' ∧
  same_upto l ready ready' ∧ (∀ ref, ref ∈ ind → ref ∈ ind') ∧
  (∀ x r, x ∈ l → ready !! x = Some r → ReadyTransaction.requires_offset r = 0 →
    length (rtx_requires r) = 1 → rtx_ref r ∈ ind') ∧
  (∀ ref, ref ∈ ind' → ref ∈ ind ∨ ∃ x r, x ∈ l ∧ ready !! x = Some r ∧ ref = rtx_ref r).
Proof.
  revert ready ind. induction l as [|h l IH]; intros ready ind Hok Hs; simpl.
  { intros [= <- <-]. split_and!; [done|done| |done|by intros ? ? ?%elem_of_nil|by left].
    intros x. destruct (ready !! x) as [r|]; [by exists r|done]. }
  destruct (ready !! h) as [r|] eqn:Hr; cycle 1.
  { intros Heq. apply IH in Heq as (? & ? & Hsame & ? & Hin & Hfrom); [|done..].
    split_and!; [done|done| |done| |].
    - intros x. specialize (Hsame x). case_match; [|done].
      destruct Hsame as (r & ? & ? & ? & ?). exists r. split_and!; [done..|set_solver].
    - intros x r [->|?]%elem_of_cons; [congruence|]. by apply Hin.
    - intros ref [?|(x & r & ? & ? & ->)]%Hfrom; [by left|]. right. exists x, r.
      split; [by right|done]. }
  set (r1 := ReadyTransaction.mk _ _ _). set (ready1 := <[h := r1]> ready).
  set (ind1 := if decide _ then _ else _). intros Heq.
  assert (same_upto [h] ready ready1) as Hs1.
  { intros x. unfold ready1. rewrite lookup_insert. case_decide as Hx.
    - subst x. exists r. split_and!; [done..|set_solver].
    - destruct (ready !! x) as [r0|]; [by exists r0|done]. }
  assert (refs_ok ready1 ind1) as Hok1.
  { apply (refs_ok_same _ _ _ _ Hs1). unfold ind1. case_decide; [|done].
    by apply (refs_ok_bt_insert _ _ h). }
  apply IH in Heq as (Hok' & Hs' & Hsame & Hsub & Hin & Hfrom); [|done|]; cycle 1.
  { unfold ind1. case_decide; [apply bt_insert_sorted; [apply _|done]|done]. }
  assert (∀ ref, ref ∈ ind → ref ∈ ind1) as Hsub1.
  { unfold ind1. case_decide; [|done]. intros. by apply bt_insert_mono. }
  split_and!; [done|done| |by auto| |].
  - intros x. specialize (Hsame x). specialize (Hs1 x).
    destruct (ready' !! x) as [r'|]; [|by rewrite Hsame in Hs1].
    destruct Hsame as (r2 & Hr2 & Href2 & Hun2 & Hsm2). rewrite Hr2 in Hs1.
    destruct Hs1 as (r3 & Hr3 & Href3 & Hun3 & Hsm3).
    exists r3. split_and!; [done|congruence|congruence|].
    intros Hx. rewrite Hsm2, Hsm3; set_solver.
  - intros x r' Hx Hr' Ho Hlen. destruct (decide (x = h)) as [->|Hne].
    + assert (r' = r) as -> by congruence. apply Hsub. unfold ind1.
      rewrite Ho, Hlen, decide_True by done. by apply (refs_ok_insert ready _ h).
    + apply (Hin x); [set_solver| |done|done]. unfold ready1. by rewrite lookup_insert_ne.
  - intros ref [Hr'|(x & r0 & Hx & Hr0 & ->)]%Hfrom.
    + unfold ind1 in Hr'. case_decide; [|by left].
      apply elem_of_bt_insert in Hr' as [->|?]; [|by left].
      right. exists h, r. split; [by left|done].
    + specialize (Hs1 x). rewrite Hr0 in Hs1. destruct Hs1 as (r3 & Hr3 & -> & _).
      right. exists x, r3. split; [by right|done].
Qed.


(** One iteration of the pruning loop: the transaction [g] goes. *)
Record prune_step_spec (g : TxHash) (st st' : t) (pushed : list TxMarker) : Prop := {
  pss_id : id st' = id st;
  pss_provided : provided_markers st' = delete (marker_of g) (provided_markers st);
  pss_gone : ready_tx st' !! g = None;
  pss_kept x r : x ≠ g → ready_tx st !! x = Some r →
    ∃ r', ready_tx st' !! x = Some r' ∧ rtx_ref r' = rtx_ref r;
  pss_sub x r' : ready_tx st' !! x = Some r' →
    ∃ r, ready_tx st !! x = Some r ∧ rtx_ref r' = rtx_ref r ∧
      ∀ y, y ∈ rtx_unlocks r' → y ∈ rtx_unlocks r;
  pss_unlocked x rg r' : ready_tx st !! g = Some rg → x ∈ rtx_unlocks rg →
    ready_tx st' !! x = Some r' → rtx_ref r' ∈ independent_transactions st';
  pss_pushed m : m ∈ pushed →
    ∃ p, m = marker_of p ∧ follows p g ∧ is_Some (ready_tx st !! p);
}.

Section prune_step.
Context (st : t) (g : TxHash) (rg : ReadyTransaction.t).
Context (Hwf : ready_wf st) (Hg : ready_tx st !! g = Some rg).

(** The queue after the links of [g] to the previous transaction are gone. *)
Definition unlink : gmap TxHash ReadyTransaction.t * list TxMarker :=
  prune_previous g (delete (marker_of g) (provided_markers st)) (rtx_requires rg)
    (delete g (ready_tx st)) [].

Lemma prune_previous_app hash provided req ready remove :
  prune_previous hash provided req ready remove =
    ((prune_previous hash provided req ready []).1,
     remove ++ (prune_previous hash provided req ready []).2).
Proof.
  revert ready remove. induction req as [|m req IH]; intros ready remove; simpl.
  { by rewrite app_nil_r. }
  destruct (provided !! m) as [p|]; [|apply IH].
  destruct (ready !! p) as [rp|]; [|apply IH].
  rewrite IH. symmetry. rewrite IH. simpl. f_equal.
  destruct (swap_remove_first hash (rtx_unlocks rp)); simpl; by rewrite ?app_assoc.
Qed.

Lemma rg_tx : account_tx (rtx_tx rg) ∧ PoolTransaction.hash (rtx_tx rg) = g.
Proof. split; [exact (rw_acct _ _ Hwf _ _ Hg)|exact (rw_hash _ _ Hwf _ _ Hg)]. Qed.

Lemma unlink_lookup x :
  match unlink.1 !! x with
  | None => x = g ∨ ready_tx st !! x = None
  | Some r' => x ≠ g ∧ ∃ r, ready_tx st !! x = Some r ∧ rtx_ref r' = rtx_ref r ∧
      ReadyTransaction.requires_offset r' = ReadyTransaction.requires_offset r ∧
      (∀ y, y ∈ rtx_unlocks r' → y ∈ rtx_unlocks r) ∧
      (∀ y, y ≠ g → y ∈ rtx_unlocks r → y ∈ rtx_unlocks r')
  end.
Proof.
  assert (∀ x, match delete g (ready_tx st) !! x with
    | None => x = g ∨ ready_tx st !! x = None
    | Some r' => x ≠ g ∧ ready_tx st !! x = Some r' end) as Hdel.
  { intros y. rewrite lookup_delete. case_decide; [by left|].
    destruct (ready_tx st !! y); [by split|by right]. }
  destruct rg_tx as [(_ & _ & Hreq) Hh]. unfold unlink.
  destruct Hreq as [Hreq|[_ Hreq]]; unfold rtx_requires; rewrite Hreq; simpl.
  { specialize (Hdel x). destruct (delete g (ready_tx st) !! x) as [r|]; [|done].
    destruct Hdel. split; [done|]. by exists r. }
  destruct (delete _ _ !! prev_marker_of _) as [p|]; simpl;
    [destruct (delete g (ready_tx st) !! p) as [rp|] eqn:Hp; simpl|].
  - rewrite lookup_insert. case_decide as Hx.
    + subst p. specialize (Hdel x). rewrite Hp in Hdel. destruct Hdel as [Hx Hr].
      split; [done|]. exists rp. split_and!; [done..| |]; intros y; simpl.
      * apply elem_of_swap_remove_first.
      * intros. by apply elem_of_swap_remove_first_ne.
    + specialize (Hdel x). destruct (delete g (ready_tx st) !! x) as [r|]; [|done].
      destruct Hdel. split; [done|]. by exists r.
  - specialize (Hdel x). destruct (delete g (ready_tx st) !! x) as [r|]; [|done].
    destruct Hdel. split; [done|]. by exists r.
  - specialize (Hdel x). destruct (delete g (ready_tx st) !! x) as [r|]; [|done].
    destruct Hdel. split; [done|]. by exists r.
Qed.

Lemma unlink_pushed :
  length unlink.2 ≤ length (rtx_requires rg) ∧
  ∀ m, m ∈ unlink.2 → ∃ p, m = marker_of p ∧ follows p g ∧ is_Some (ready_tx st !! p).
Proof.
  destruct rg_tx as [Hacc Hh]. pose proof Hacc as (_ & _ & Hreq). unfold unlink.
  destruct Hreq as [Hreq|[_ Hreq]]; unfold rtx_requires; rewrite Hreq; simpl.
  { split; [done|]. by intros m ?%elem_of_nil. }
  rewrite Hh in *.
  destruct (delete _ _ !! prev_marker_of g) as [p|] eqn:Hp; simpl;
    [|split; [lia|by intros m ?%elem_of_nil]].
  destruct (delete g (ready_tx st) !! p) as [rp|] eqn:Hrp; simpl;
    [|split; [lia|by intros m ?%elem_of_nil]].
  apply lookup_delete_Some in Hp as [_ Hp]. apply lookup_delete_Some in Hrp as [_ Hrp].
  destruct (swap_remove_first g (rtx_unlocks rp)); simpl;
    [|split; [lia|by intros m ?%elem_of_nil]].
  rewrite (rw_provides Hwf _ _ Hrp). split; [done|].
  intros m ->%list_elem_of_singleton. exists p. split; [done|]. split; [|by eexists].
  rewrite <- Hh. apply (parent_of_spec st (rtx_tx rg) p Hwf Hacc).
  unfold parent_of. by rewrite Hreq.
Qed.

Definition unlocked : gmap TxHash ReadyTransaction.t * list PoolTransactionRef.t :=
  prune_unlocked (rtx_unlocks rg) unlink.1
    (bt_remove PoolTransactionRef.cmp (rtx_ref rg) (independent_transactions st)).

Definition pruned : t :=
  mk (id st) (delete (marker_of g) (provided_markers st)) unlocked.1 unlocked.2.

Lemma prune_loop_step fuel remove acc :
  prune_loop (S fuel) st (remove ++ [marker_of g]) acc =
    prune_loop fuel pruned (remove ++ unlink.2) (acc ++ [rtx_tx rg]).
Proof.
  destruct rg_tx as [(_ & Hprov & _) Hh].
  assert (provided_markers st !! marker_of g = Some g) as Hm.
  { apply Hwf. split; [by eexists|done]. }
  simpl. rewrite vec_pop_app, Hm. simpl. rewrite Hg. simpl.
  rewrite Hh, prune_previous_app. fold (rtx_requires rg). fold unlink.
  unfold pruned, unlocked. destruct (prune_unlocked _ _ _) as [ready' ind']. simpl.
  rewrite Hprov, Hh. simpl. rewrite lookup_delete_eq, decide_True by done. simpl.
  by rewrite delete_delete_eq.
Qed.

Lemma unlink_refs_ok :
  refs_ok unlink.1
    (bt_remove PoolTransactionRef.cmp (rtx_ref rg) (independent_transactions st)).
Proof.
  split.
  - intros ref [Hne Hin]%(bt_remove_live Hwf _ _ _ Hg).
    apply (rw_indep _ _ Hwf) in Hin as (r & Hr & Href).
    pose proof (unlink_lookup (PoolTransactionRef.hash ref)) as Hx.
    destruct (unlink.1 !! _) as [r'|] eqn:Hr'; [|destruct Hx; congruence].
    destruct Hx as (_ & r0 & Hr0 & Href' & _).
    exists (PoolTransactionRef.hash ref), r'. split; [done|]. congruence.
  - intros x y r r' Hr Hr' Heq.
    pose proof (unlink_lookup x) as Hx. pose proof (unlink_lookup y) as Hy.
    rewrite Hr in Hx. rewrite Hr' in Hy.
    destruct Hx as (_ & r0 & Hr0 & Href0 & _), Hy as (_ & r1 & Hr1 & Href1 & _).
    rewrite Href0, Href1 in Heq. exact (rw_id_inj _ _ Hwf _ _ _ _ Hr0 Hr1 Heq).
Qed.

Lemma unlocked_spec :
  refs_ok unlocked.1 unlocked.2 ∧ bt_sorted PoolTransactionRef.cmp unlocked.2 ∧
  same_upto (rtx_unlocks rg) unlink.1 unlocked.1 ∧
  (∀ ref, ref ∈ bt_remove PoolTransactionRef.cmp (rtx_ref rg) (independent_transactions st) →
    ref ∈ unlocked.2) ∧
  (∀ x r, x ∈ rtx_unlocks rg → unlink.1 !! x = Some r →
    ReadyTransaction.requires_offset r = 0 → length (rtx_requires r) = 1 →
    rtx_ref r ∈ unlocked.2) ∧
  (∀ ref, ref ∈ unlocked.2 →
    ref ∈ bt_remove PoolTransactionRef.cmp (rtx_ref rg) (independent_transactions st) ∨
    ∃ x r, x ∈ rtx_unlocks rg ∧ unlink.1 !! x = Some r ∧ ref = rtx_ref r).
Proof.
  apply (prune_unlocked_spec (rtx_unlocks rg) unlink.1
    (bt_remove PoolTransactionRef.cmp (rtx_ref rg) (independent_transactions st))).
  - apply unlink_refs_ok.
  - apply bt_remove_sorted, Hwf.
  - apply surjective_pairing.
Qed.

(** A transaction of the pruned queue and where it comes from. *)
Lemma pruned_origin x r' :
  unlocked.1 !! x = Some r' →
  x ≠ g ∧ ∃ r, ready_tx st !! x = Some r ∧ rtx_ref r' = rtx_ref r ∧
    (∀ y, y ∈ rtx_unlocks r' → y ∈ rtx_unlocks r) ∧
    (x ∉ rtx_unlocks rg →
      ReadyTransaction.requires_offset r' = ReadyTransaction.requires_offset r).
Proof.
  intros Hr'. destruct unlocked_spec as (_ & _ & Hsame & _ & _).
  specialize (Hsame x). rewrite Hr' in Hsame.
  destruct Hsame as (r1 & Hr1 & Href1 & Hun1 & Heq1).
  pose proof (unlink_lookup x) as Hx. rewrite Hr1 in Hx.
  destruct Hx as (Hne & r & Hr & Href & Hoff & Hun & _).
  split; [done|]. exists r. split_and!; [done|congruence| |].
  - intros y. rewrite Hun1. apply Hun.
  - intros Hni. by rewrite Heq1.
Qed.

Lemma pruned_kept x r :
  x ≠ g → ready_tx st !! x = Some r →
  ∃ r', unlocked.1 !! x = Some r' ∧ rtx_ref r' = rtx_ref r ∧
    ∀ y, y ≠ g → y ∈ rtx_unlocks r → y ∈ rtx_unlocks r'.
Proof.
  intros Hne Hr. destruct unlocked_spec as (_ & _ & Hsame & _ & _).
  specialize (Hsame x). pose proof (unlink_lookup x) as Hx.
  destruct (unlink.1 !! x) as [r1|]; [|destruct Hx; congruence].
  destruct Hx as (_ & r0 & Hr0 & Href & _ & _ & Hun).
  assert (r0 = r) as -> by congruence.
  destruct (unlocked.1 !! x) as [r'|]; [|done].
  destruct Hsame as (r2 & [= <-] & Href2 & Hun2 & _).
  exists r'. split_and!; [done|congruence|]. rewrite Hun2. apply Hun.
Qed.

(** A transaction linked from [g] is independent afterwards. *)
Lemma pruned_unlocked x r' :
  x ∈ rtx_unlocks rg → unlocked.1 !! x = Some r' → rtx_ref r' ∈ unlocked.2.
Proof.
  intros Hin Hr'. destruct unlocked_spec as (_ & _ & Hsame & Hsub & Hunl & _).
  specialize (Hsame x). rewrite Hr' in Hsame.
  destruct Hsame as (r1 & Hr1 & Href1 & _ & _).
  pose proof (unlink_lookup x) as Hx. rewrite Hr1 in Hx.
  destruct Hx as (Hne & r & Hr & Href & Hoff & _ & _). rewrite Href1.
  destruct (rw_reach _ _ Hwf _ _ Hr) as [Hind|[[]%elem_of_nil|(Ho & Hq & _)]].
  - apply Hsub. rewrite Href. by apply (bt_remove_other Hwf g x).
  - apply (Hunl x); [done|done|congruence|].
    destruct (rw_acct _ _ Hwf _ _ Hr) as (_ & _ & [Hr0|[_ Hr0]]).
    + unfold rtx_requires, rtx_tx in *. congruence.
    + unfold rtx_requires, rtx_tx in *. by rewrite Href, Hr0.
Qed.

Lemma pruned_wf : ready_wf pruned.
Proof.
  destruct unlocked_spec as ([Hlive Hinj] & Hsort & _ & Hsub & _ & _).
  assert (∀ x r', unlocked.1 !! x = Some r' → PoolTransaction.hash (rtx_tx r') = x) as Hhash.
  { intros x r' Hr'. destruct (pruned_origin _ _ Hr') as (_ & r & Hr & Href & _).
    unfold rtx_tx. rewrite Href. exact (rw_hash _ _ Hwf _ _ Hr). }
  split; simpl; [done| | |done| | | | |done|apply Hwf].
  - intros x r' Hr'. destruct (pruned_origin _ _ Hr') as (_ & r & Hr & Href & _).
    unfold rtx_tx. rewrite Href. exact (rw_acct _ _ Hwf _ _ Hr).
  - intros m x. rewrite lookup_delete_Some, (rw_provided _ _ Hwf). split.
    + intros (Hne & [r Hr] & ->). split; [|done].
      destruct (pruned_kept x r) as (r' & -> & _); [congruence|done|by eexists].
    + intros ([r' Hr'] & ->). destruct (pruned_origin _ _ Hr') as (Hne & r & Hr & _).
      split; [|split; [by eexists|done]].
      intros Heq. by apply (rw_marker_inj Hwf _ _ _ _ Hg Hr) in Heq.
  - intros ref (x & r & Hr & <-)%Hlive. exists r. split; [|done].
    rewrite <- Hr. f_equal. by apply Hhash.
  - intros x r' Hr'. destruct (decide (x ∈ rtx_unlocks rg)) as [Hin|Hin].
    { left. by apply (pruned_unlocked x). }
    destruct (pruned_origin _ _ Hr') as (Hne & r & Hr & Href & _ & Hoff).
    destruct (rw_reach _ _ Hwf _ _ Hr) as [Hind|[[]%elem_of_nil|(Ho & Hq & p & rp & Hp & Hpin)]].
    + left. rewrite Href. apply Hsub. by apply (bt_remove_other Hwf g x).
    + right. right. split; [by rewrite Hoff|]. split.
      { unfold rtx_requires, rtx_tx in *. by rewrite Href. }
      destruct (decide (p = g)) as [->|Hpg]; [congruence|].
      destruct (pruned_kept _ _ Hpg Hp) as (rp' & Hrp' & _ & Hun). exists p, rp'. auto.
  - intros p rp x Hp Hin. destruct (pruned_origin _ _ Hp) as (_ & r & Hr & _ & Hun & _).
    exact (rw_links _ _ Hwf _ _ _ Hr (Hun _ Hin)).
  - intros x r' Hr'. destruct (pruned_origin _ _ Hr') as (_ & r & Hr & -> & _).
    exact (rw_id _ _ Hwf _ _ Hr).
Qed.

Lemma pruned_spec : prune_step_spec g st pruned unlink.2.
Proof.
  split; simpl; [done|done| | | | |apply unlink_pushed].
  - apply eq_None_not_Some. intros [r' Hr']. by destruct (pruned_origin _ _ Hr') as [? _].
  - intros x r Hx Hr. destruct (pruned_kept _ _ Hx Hr) as (r' & ? & ? & _). by exists r'.
  - intros x r' Hr'. destruct (pruned_origin _ _ Hr') as (_ & r & ? & ? & ? & _). by exists r.
  - intros x rg' r' Hrg' Hin Hr'. assert (rg' = rg) as -> by congruence.
    by apply (pruned_unlocked x).
Qed.

Lemma pruned_clean : ready_clean st → ready_clean pruned.
Proof.
  intros Hcl p x r (rp & Hp & Hin) Hr Hi. simpl in *.
  destruct (pruned_origin _ _ Hp) as (Hpg & rp0 & Hrp0 & _ & Hun & _).
  destruct (pruned_origin _ _ Hr) as (_ & r0 & Hr0 & Href & _).
  assert (link st p x) as Hl by (exists rp0; auto).
  destruct unlocked_spec as (_ & _ & _ & _ & _ & Hfrom).
  apply Hfrom in Hi as [Hi%elem_of_bt_remove|(y & ry & Hy & Hry & Heq)].
  { rewrite Href in Hi. exact (Hcl p x r0 Hl Hr0 Hi). }
  pose proof (unlink_lookup y) as Hyl. rewrite Hry in Hyl.
  destruct Hyl as (_ & ry0 & Hry0 & Hrefy & _).
  assert (y = x) as ->.
  { rewrite <- (rw_ref_hash Hwf _ _ Hry0), <- (rw_ref_hash Hwf _ _ Hr0). congruence. }
  apply Hpg, (rw_marker_inj Hwf _ _ _ _ Hrp0 Hg). unfold marker_of.
  pose proof (rw_links _ _ Hwf _ _ _ Hrp0 (Hun _ Hin)) as H1.
  pose proof (rw_links _ _ Hwf _ _ _ Hg Hy) as H2. unfold follows in *.
  rewrite H1 in H2. injection H2 as H2 ->. f_equal. lia.
Qed.

End prune_step.

(** What pruning the markers [ms] does: their providers are removed, and with
    them at most earlier transactions of the same senders. *)
Record prune_spec (ms : list TxMarker) (st st' : t) (removed : list PoolTransaction.t) :
    Prop := {
  ps_id : id st' = id st;
  ps_sub x r' : ready_tx st' !! x = Some r' →
    ∃ r, ready_tx st !! x = Some r ∧ rtx_ref r' = rtx_ref r ∧
      ∀ y, y ∈ rtx_unlocks r' → y ∈ rtx_unlocks r;
  ps_gone m : m ∈ ms → provided_markers st' !! m = None;
  ps_removed tx : tx ∈ removed ↔
    ∃ x r, ready_tx st !! x = Some r ∧ ready_tx st' !! x = None ∧ tx = rtx_tx r;
  ps_nodup : NoDup (PoolTransaction.hash <$> removed);
  ps_ancestor x : is_Some (ready_tx st !! x) → ready_tx st' !! x = None →
    ∃ g, marker_of g ∈ ms ∧ is_Some (ready_tx st !! g) ∧
      (acct x).2 = (acct g).2 ∧ ((acct x).1 ≤ (acct g).1)%Z;
}.

Lemma provided_sub st st' :
  ready_wf st → ready_wf st' →
  (∀ x, is_Some (ready_tx st' !! x) → is_Some (ready_tx st !! x)) →
  ∀ m h, provided_markers st' !! m = Some h → provided_markers st !! m = Some h.
Proof.
  intros Hwf Hwf' Hsub m h [Hs ->]%(rw_provided _ _ Hwf').
  apply (rw_provided _ _ Hwf). auto.
Qed.

Lemma prune_spec_nil st : prune_spec [] st st [].
Proof.
  split; try done.
  - intros x r Hr. by exists r.
  - by intros m ?%elem_of_nil.
  - intros tx. split; [by intros ?%elem_of_nil|]. intros (x & r & ? & ? & _). congruence.
  - constructor.
  - intros x [r Hr]. congruence.
Qed.

Lemma prune_spec_step S st st1 st' g rg pushed new :
  ready_wf st → ready_wf st1 → ready_wf st' → ready_tx st !! g = Some rg →
  prune_step_spec g st st1 pushed → prune_spec (S ++ pushed) st1 st' new →
  prune_spec (S ++ [marker_of g]) st st' (rtx_tx rg :: new).
Proof.
  intros Hwf Hwf1 Hwf' Hg H1 [Hid Hsub Hgone Hrem Hnd Hanc].
  assert (ready_tx st' !! g = None) as Hg'.
  { apply eq_None_not_Some. intros [r (r1 & Hr1 & _)%Hsub]. by rewrite (pss_gone _ _ _ _ H1) in Hr1. }
  split.
  - rewrite Hid. apply H1.
  - intros x r' (r1 & (r & Hr & Href & Hun)%(pss_sub _ _ _ _ H1) & Href1 & Hun1)%Hsub.
    exists r. split_and!; [done|congruence|auto].
  - intros m [Hm|Hm]%elem_of_app; [apply Hgone; set_solver|].
    apply list_elem_of_singleton in Hm as ->. apply eq_None_not_Some. intros [x Hx].
    apply (provided_sub st1 st' Hwf1 Hwf') in Hx.
    + rewrite (pss_provided _ _ _ _ H1), lookup_delete_eq in Hx. done.
    + intros y [r (r1 & ? & _)%Hsub]. by eexists.
  - intros tx. rewrite elem_of_cons, Hrem. split.
    + intros [->|(x & r1 & (r & Hr & Href & _)%(pss_sub _ _ _ _ H1) & Hn & ->)].
      { by exists g, rg. }
      exists x, r. unfold rtx_tx. by rewrite Href.
    + intros (x & r & Hr & Hn & ->). destruct (decide (x = g)) as [->|Hx].
      { left. congruence. }
      destruct (pss_kept _ _ _ _ H1 x r Hx Hr) as (r1 & Hr1 & Href1).
      right. exists x, r1. unfold rtx_tx. by rewrite Href1.
  - rewrite fmap_cons. apply NoDup_cons. split; [|done].
    intros (tx & Heq & Hin)%list_elem_of_fmap.
    apply Hrem in Hin as (x & r1 & Hr1 & _ & ->).
    rewrite (rw_hash _ _ Hwf _ _ Hg), (rw_hash _ _ Hwf1 _ _ Hr1) in Heq. subst x.
    by rewrite (pss_gone _ _ _ _ H1) in Hr1.
  - intros x [r Hr] Hn. destruct (decide (x = g)) as [->|Hx].
    { exists g. split_and!; [set_solver|by eexists|done|lia]. }
    destruct (pss_kept _ _ _ _ H1 x r Hx Hr) as (r1 & Hr1 & _).
    destruct (Hanc x) as (g' & Hin & [rg1 Hg1] & Hsnd & Hle); [by eexists|done|].
    pose proof Hg1 as (rg' & Hrg' & _)%(pss_sub _ _ _ _ H1).
    apply elem_of_app in Hin as [Hin|Hin].
    { exists g'. split_and!; [set_solver|by eexists|done|done]. }
    apply (pss_pushed _ _ _ _ H1) in Hin as (p & Hm & Hf & [rp Hp]).
    apply (rw_marker_inj Hwf _ _ _ _ Hrg' Hp) in Hm as ->.
    exists g. unfold follows in Hf. rewrite Hf. simpl.
    split_and!; [set_solver|by eexists|done|lia].
Qed.

Lemma total_same f (m1 m2 : gmap TxHash ReadyTransaction.t) :
  f <$> m1 = f <$> m2 → total f m1 = total f m2.
Proof.
  intros Heq. unfold total.
  transitivity (map_fold (λ _ a n, a + n) 0 (f <$> m1)).
  - by rewrite map_fold_fmap.
  - by rewrite Heq, map_fold_fmap.
Qed.

Definition req_count (ready : gmap TxHash ReadyTransaction.t) : nat :=
  total (λ r, length (rtx_requires r)) ready.

Lemma req_count_pruned st g rg :
  ready_wf st → ready_tx st !! g = Some rg →
  req_count (ready_tx st) =
    length (rtx_requires rg) + req_count (ready_tx (pruned st g rg)).
Proof.
  intros Hwf Hg. unfold req_count. rewrite (total_delete _ _ _ _ Hg). f_equal.
  apply total_same, map_eq. intros x. rewrite !lookup_fmap, lookup_delete.
  pose proof (pruned_spec st g rg Hwf Hg) as Hsp.
  case_decide as Hx; [by subst; rewrite (pss_gone _ _ _ _ Hsp)|].
  destruct (ready_tx st !! x) as [r|] eqn:Hr.
  - destruct (pss_kept _ _ _ _ Hsp x r) as (r' & -> & Href); [done..|]. simpl.
    unfold rtx_requires, rtx_tx. by rewrite Href.
  - destruct (ready_tx (pruned st g rg) !! x) as [r'|] eqn:Hr'; [|done].
    apply (pss_sub _ _ _ _ Hsp) in Hr' as (r & ? & _). congruence.
Qed.

Lemma prune_loop_spec fuel st remove acc :
  ready_wf st → length remove + req_count (ready_tx st) < fuel →
  ∃ st' new, prune_loop fuel st remove acc = Some (st', acc ++ new) ∧
    ready_wf st' ∧ prune_spec remove st st' new ∧ (ready_clean st → ready_clean st').
Proof.
  revert st remove acc. induction fuel as [|fuel IH]; intros st remove acc Hwf Hlt; [lia|].
  destruct (vec_pop remove) as [[m remove']|] eqn:Hpop; cycle 1.
  { apply vec_pop_None in Hpop as ->. exists st, []. simpl. rewrite app_nil_r.
    split_and!; [done|done|apply prune_spec_nil|done]. }
  apply vec_pop_Some in Hpop as ->. rewrite length_app in Hlt. simpl in Hlt.
  destruct (provided_markers st !! m) as [g|] eqn:Hm.
  - pose proof Hm as [[rg Hg] ->]%(rw_provided _ _ Hwf).
    rewrite (prune_loop_step st g rg Hwf Hg).
    destruct (unlink_pushed st g rg Hwf Hg) as [Hlen _].
    destruct (IH (pruned st g rg) (remove' ++ (unlink st g rg).2) (acc ++ [rtx_tx rg]))
      as (st' & new & -> & Hwf' & Hsp & Hcl); [by apply pruned_wf| |].
    { rewrite (req_count_pruned _ _ _ Hwf Hg) in Hlt. rewrite length_app. lia. }
    exists st', (rtx_tx rg :: new). rewrite <- app_assoc.
    split_and!; [done|done| |by auto using pruned_clean].
    apply (prune_spec_step remove' st (pruned st g rg) st' g rg (unlink st g rg).2);
      by auto using pruned_wf, pruned_spec.
  - simpl. rewrite vec_pop_app, Hm. simpl. rewrite delete_id by done.
    destruct (IH st remove' acc) as (st' & new & Heq & Hwf' & Hsp & Hcl); [done|lia|].
    exists st', new. destruct st as [i p r l]. simpl in *.
    split_and!; [done|done| |done]. destruct Hsp as [Hid Hsub Hgone Hrem Hnd Hanc].
    split; try done; simpl in *.
    + intros m' [?|Hm']%elem_of_app; [auto|]. apply list_elem_of_singleton in Hm' as ->.
      apply eq_None_not_Some. intros [x Hx].
      apply (provided_sub (mk i p r l) st' Hwf Hwf') in Hx; [simpl in Hx; congruence|].
      intros y [r0 (r1 & ? & _)%Hsub]. by eexists.
    + intros x Hx Hn. destruct (Hanc x Hx Hn) as (g & Hin & ?). exists g. set_solver.
Qed.

Lemma prune_tags_spec st m :
  ready_wf st →
  ∃ st' removed, prune_tags st m = Some (st', removed) ∧
    ready_wf st' ∧ prune_spec [m] st st' removed ∧ (ready_clean st → ready_clean st').
Proof.
  intros Hwf. unfold prune_tags. apply (prune_loop_spec _ st [m] []); [done|].
  simpl. change (prune_bound (ready_tx st)) with
    (req_count (ready_tx st) * total (λ r, length (rtx_provides r)) (ready_tx st)).
  destruct (decide (req_count (ready_tx st) = 0)) as [->|Hne]; [simpl; lia|].
  assert (∃ h r, ready_tx st !! h = Some r) as (h & r & Hr).
  { destruct (map_choose (ready_tx st)) as (h & r & Hr); [|by exists h, r].
    intros He. apply Hne. by rewrite He. }
  rewrite (total_delete (λ r, length (rtx_provides r)) _ _ _ Hr), (rw_provides Hwf _ _ Hr).
  simpl. nia.
Qed.

End account.

Abbreviation ready_wf acct := (ready_wf_upto acct []).
