(* ===== verification/ReadyIter.v ===== *)
(** The iterator over the ready transactions ([TransactionsIterator] of
    anvil/src/eth/pool/transactions.rs): best transaction first, a
    transaction after the ones it depends on. *)
From S2P Require Import Prelude Transaction PoolTx ReadyQueue ReadyInv.

Module TransactionsIterator.
(** The field [_invalid] is never read or written. *)
Record t := mk {
  all : gmap TxHash ReadyTransaction.t;
  awaiting : gmap TxHash (nat * PoolTransactionRef.t);
  independent : list PoolTransactionRef.t }.

Definition independent_or_awaiting (it : t) (satisfied : nat)
    (tx_ref : PoolTransactionRef.t) : t :=
  if decide (length (PoolTransaction.requires (PoolTransactionRef.transaction tx_ref))
             ≤ satisfied)
  then mk (all it) (awaiting it)
         (bt_insert PoolTransactionRef.cmp tx_ref (independent it))
  else mk (all it) (<[PoolTransactionRef.hash tx_ref := (satisfied, tx_ref)]> (awaiting it))
         (independent it).

(** "Insert transactions that just got unlocked." *)
Fixpoint insert_unlocked (it : t) (unlocks : list TxHash) : t :=
  match unlocks with
  | [] => it
  | hash :: unlocks =>
      let '(it, res) :=
        match awaiting it !! hash with
        | Some (satisfied, tx_ref) =>
            (mk (all it) (delete hash (awaiting it)) (independent it),
             Some (S satisfied, tx_ref))
        | None =>
            (it, (λ next, (S (ReadyTransaction.requires_offset next),
                           ReadyTransaction.transaction next)) <$> all it !! hash)
        end in
      insert_unlocked
        match res with
        | Some (satisfied, tx_ref) => independent_or_awaiting it satisfied tx_ref
        | None => it
        end unlocks
  end.

(** [Iterator::next].  The loop continues when the best reference is not a
    ready transaction; [None] is "did not finish". *)
Fixpoint next_loop (fuel : nat) (it : t) : option (t * option PoolTransaction.t) :=
  match fuel with
  | O => None
  | S fuel =>
      match bt_max (independent it) with
      | None => Some (it, None)
      | Some best =>
          match bt_take PoolTransactionRef.cmp best (independent it) with
          | None => Some (it, None)
          | Some (best, independent') =>
              let it := mk (all it) (awaiting it) independent' in
              match all it !! PoolTransactionRef.hash best with
              | None => next_loop fuel it
              | Some ready =>
                  Some (insert_unlocked it (ReadyTransaction.unlocks ready),
                        Some (PoolTransactionRef.transaction best))
              end
          end
      end
  end.

Definition next (it : t) : option (t * option PoolTransaction.t) :=
  next_loop (S (length (independent it))) it.

(** [.collect()]: [None] when the iterator yields [fuel] transactions and
    more. *)
Fixpoint collect (fuel : nat) (it : t) : option (list PoolTransaction.t) :=
  match fuel with
  | O => None
  | S fuel =>
      '(it, item) ← next it;
      match item with
      | None => Some []
      | Some tx => cons tx <$> collect fuel it
      end
  end.

(** [.take(n).collect()]. *)
Fixpoint take_collect (n : nat) (it : t) : option (list PoolTransaction.t) :=
  match n with
  | O => Some []
  | S n =>
      '(it, item) ← next it;
      match item with
      | None => Some []
      | Some tx => cons tx <$> take_collect n it
      end
  end.
End TransactionsIterator.

(** [ReadyTransactions::get_transactions]. *)
Definition get_transactions (st : ReadyTransactions.t) : TransactionsIterator.t :=
  TransactionsIterator.mk (ReadyTransactions.ready_tx st) ∅
    (ReadyTransactions.independent_transactions st).

(** The ready transactions in order.  A queue of [n] transactions takes [n]
    rounds and one that finds the iterator empty ([ready_list_spec]); with
    stale links a transaction can be yielded more than once, and [n * n]
    rounds are enough ([ready_list_complete]). *)
Definition ready_list (st : ReadyTransactions.t) : option (list PoolTransaction.t) :=
  let n := size (ReadyTransactions.ready_tx st) in
  TransactionsIterator.collect (S (n * n)) (get_transactions st).

(** * The iteration *)

Import ReadyTransactions.

Section iteration.
Context (acct : TxHash → Z * Address) (st : ReadyTransactions.t).
Context (Hwf : ready_wf acct st).

Abbreviation ready_hash r := (PoolTransaction.hash (rtx_tx r)).

Definition iter_at (ind : list PoolTransactionRef.t) : TransactionsIterator.t :=
  TransactionsIterator.mk (ready_tx st) ∅ ind.

(** Sorted references of ready transactions. *)
Definition live_refs (ind : list PoolTransactionRef.t) : Prop :=
  bt_sorted PoolTransactionRef.cmp ind ∧
  ∀ ref, ref ∈ ind → ∃ h r, ready_tx st !! h = Some r ∧ ref = rtx_ref r.

Lemma rtx_ref_inj h h' r r' :
  ready_tx st !! h = Some r → ready_tx st !! h' = Some r' →
  rtx_ref r = rtx_ref r' → h = h'.
Proof.
  intros Hr Hr' Heq. apply (rw_id_inj _ _ _ Hwf _ _ _ _ Hr Hr'). by rewrite Heq.
Qed.

Lemma live_refs_insert ind h r :
  live_refs ind → ready_tx st !! h = Some r →
  live_refs (bt_insert PoolTransactionRef.cmp (rtx_ref r) ind) ∧
  ∀ ref, ref ∈ bt_insert PoolTransactionRef.cmp (rtx_ref r) ind ↔ ref ∈ ind ∨ ref = rtx_ref r.
Proof.
  intros [Hs Hl] Hr. split.
  - split; [apply bt_insert_sorted; [apply _|done]|].
    intros ref [->|?]%elem_of_bt_insert; [by exists h, r|auto].
  - intros ref. split; [intros [?|?]%elem_of_bt_insert; auto|].
    intros [?| ->]; [by apply bt_insert_mono|].
    destruct (bt_insert_or PoolTransactionRef.cmp (rtx_ref r) ind)
      as [?|(y & Hy & Heq%ref_cmp_eq)]; [done|]. apply bt_insert_mono.
    destruct (Hl _ Hy) as (h' & r' & Hr' & ->).
    assert (h = h') as <- by exact (rw_id_inj _ _ _ Hwf _ _ _ _ Hr Hr' Heq). congruence.
Qed.

Lemma requires_short h r : ready_tx st !! h = Some r → length (rtx_requires r) ≤ 1.
Proof.
  intros Hr. destruct (rw_acct _ _ _ Hwf _ _ Hr) as (_ & _ & [Hq|[_ Hq]]);
    unfold rtx_requires; rewrite Hq; simpl; lia.
Qed.

Lemma insert_unlocked_spec l ind :
  live_refs ind →
  ∃ ind', TransactionsIterator.insert_unlocked (iter_at ind) l = iter_at ind' ∧
    live_refs ind' ∧
    ∀ ref, ref ∈ ind' ↔ ref ∈ ind ∨
      ∃ h r, h ∈ l ∧ ready_tx st !! h = Some r ∧ ref = rtx_ref r.
Proof.
  revert ind. induction l as [|h l IH]; intros ind Hl; simpl.
  { exists ind. split_and!; [done..|]. intros ref. split; [by left|].
    intros [?|(h & r & []%elem_of_nil & _)]; done. }
  rewrite lookup_empty. destruct (ready_tx st !! h) as [r|] eqn:Hr; simpl.
  - unfold TransactionsIterator.independent_or_awaiting.
    rewrite decide_True by (etrans; [exact (requires_short _ _ Hr)|lia]).
    destruct (live_refs_insert ind h r Hl Hr) as [Hl1 Hin1].
    destruct (IH _ Hl1) as (ind' & Heq & Hl' & Hin). exists ind'. split_and!; [done..|].
    intros ref. rewrite Hin, Hin1. split.
    + intros [[?| ->]|(h' & r' & ? & ? & ->)]; [by left|right; exists h, r|right; exists h', r'];
        split; by constructor.
    + intros [?|(h' & r' & [->|?]%elem_of_cons & ? & ->)]; [by left; left| |].
      * left. right. congruence.
      * right. by exists h', r'.
  - destruct (IH _ Hl) as (ind' & Heq & Hl' & Hin). exists ind'. split_and!; [done..|].
    intros ref. rewrite Hin. split.
    + intros [?|(h' & r' & ? & ? & ->)]; [by left|]. right. exists h', r'. by split; [right|].
    + intros [?|(h' & r' & [->|?]%elem_of_cons & ? & ->)]; [by left|congruence|].
      right. by exists h', r'.
Qed.

(** One call of [next]: the best independent transaction is yielded, and the
    ready transactions it unlocks become available. *)
Lemma next_spec ind :
  live_refs ind →
  (ind = [] ∧ TransactionsIterator.next (iter_at ind) = Some (iter_at ind, None)) ∨
  ∃ b r ind', ready_tx st !! b = Some r ∧ rtx_ref r ∈ ind ∧
    TransactionsIterator.next (iter_at ind) = Some (iter_at ind', Some (rtx_tx r)) ∧
    live_refs ind' ∧
    (∀ ref, ref ∈ ind → ref = rtx_ref r ∨ PoolTransactionRef.cmp ref (rtx_ref r) = Lt) ∧
    (∀ ref, ref ∈ ind' ↔ (ref ∈ ind ∧ ref ≠ rtx_ref r) ∨
      ∃ h r', h ∈ rtx_unlocks r ∧ ready_tx st !! h = Some r' ∧ ref = rtx_ref r').
Proof.
  intros [Hs Hl]. unfold TransactionsIterator.next. simpl.
  destruct (bt_max ind) as [best|] eqn:Hmax; [|left; split; [by apply bt_max_None|done]].
  right. destruct (bt_max_spec _ _ _ Hs Hmax) as [Hin Hbest].
  destruct (Hl _ Hin) as (b & r & Hr & ->). exists b, r.
  rewrite bt_take_max by first [apply _|done]. simpl.
  rewrite (rw_ref_hash _ Hwf _ _ Hr), Hr.
  assert (live_refs (bt_remove PoolTransactionRef.cmp (rtx_ref r) ind)) as Hl1.
  { split; [exact (bt_remove_sorted _ _ _ Hs)|]. intros ref ?%elem_of_bt_remove. auto. }
  destruct (insert_unlocked_spec (rtx_unlocks r) _ Hl1) as (ind' & Heq & Hl' & Hin').
  exists ind'. split_and!; [done|done| |done|done|].
  { unfold iter_at in Heq. rewrite Heq. done. }
  intros ref. rewrite Hin'. apply or_iff_compat_r. split.
  - intros Hi. split; [by eapply elem_of_bt_remove|]. intros ->.
    by apply (bt_remove_out _ _ _ _ Hs Hi), cmp_refl, _.
  - intros [Hi Hne]. apply bt_remove_keep; [done|]. intros Hc%ref_cmp_eq.
    destruct (Hl _ Hi) as (h' & r' & Hr' & ->). apply Hne. f_equal.
    assert (b = h') as <- by exact (rw_id_inj _ _ _ Hwf _ _ _ _ Hr Hr' Hc). congruence.
Qed.

(** Every ready transaction was yielded, is available, or waits for one that
    was not yielded. *)
Definition covered (Y : gset TxHash) (ind : list PoolTransactionRef.t) : Prop :=
  ∀ h r, ready_tx st !! h = Some r →
    h ∈ Y ∨ rtx_ref r ∈ ind ∨ ∃ g, link st g h ∧ g ∉ Y.

(** Once nothing is independent everything was yielded: the links of a
    transaction go back to smaller nonces. *)
Lemma covered_end Y h : covered Y [] → is_Some (ready_tx st !! h) → h ∈ Y.
Proof.
  intros Hcov. remember (Z.to_nat (acct h).1) as n eqn:Hn.
  revert h Hn. induction n as [n IH] using lt_wf_ind. intros h -> [r Hr].
  destruct (Hcov _ _ Hr) as [?|[[]%elem_of_nil|(g & (rg & Hg & Hin) & Hgy)]]; [done|].
  pose proof (rw_links _ _ _ Hwf _ _ _ Hg Hin) as Hf. unfold follows in Hf.
  pose proof (rw_nonce _ Hwf _ _ Hg) as [Hpos _]. destruct Hgy.
  apply (IH (Z.to_nat (acct g).1)); [|done|by eexists]. rewrite Hf. simpl. lia.
Qed.

Lemma covered_init : covered ∅ (independent_transactions st).
Proof.
  intros h r Hr. destruct (rw_reach _ _ _ Hwf _ _ Hr)
    as [?|[[]%elem_of_nil|(_ & _ & g & rg & Hg & Hin)]]; [auto|].
  right. right. exists g. split; [by exists rg|set_solver].
Qed.

Lemma live_refs_init : live_refs (independent_transactions st).
Proof. split; [apply Hwf|]. intros ref (r & Hr & <-)%(rw_indep _ _ _ Hwf). eauto. Qed.

(** The iterator after the transactions [Y] were yielded. *)
Record iter_inv (Y : gset TxHash) (ind : list PoolTransactionRef.t) : Prop := {
  ii_live : live_refs ind;
  ii_done h : h ∈ Y → is_Some (ready_tx st !! h);
  ii_fresh h r : ready_tx st !! h = Some r → rtx_ref r ∈ ind → h ∉ Y;
  ii_parents g h r : link st g h → ready_tx st !! h = Some r →
    h ∈ Y ∨ rtx_ref r ∈ ind → g ∈ Y;
  ii_cover : covered Y ind;
}.

(** The sequence of transactions yielded after [Y]: every other ready
    transaction, once; each after every transaction that links it; and each
    the greatest of those available. *)
Record iteration (Y : gset TxHash) (rs : list ReadyTransaction.t) : Prop := {
  it_nodup : NoDup ((λ r, ready_hash r) <$> rs);
  it_all r : r ∈ rs ↔ ∃ h, ready_tx st !! h = Some r ∧ h ∉ Y;
  it_parents rs1 r rs2 g : rs = rs1 ++ r :: rs2 → link st g (ready_hash r) →
    g ∈ Y ∨ ∃ rg, rg ∈ rs1 ∧ ready_hash rg = g;
  it_best rs1 r rs2 r' : rs = rs1 ++ r :: rs2 → r' ∈ rs2 →
    (∀ g, link st g (ready_hash r') → g ∈ Y ∨ ∃ rg, rg ∈ rs1 ∧ ready_hash rg = g) →
    preferred (rtx_ref r) (rtx_ref r');
}.

Lemma iter_inv_init : ready_clean st → iter_inv ∅ (independent_transactions st).
Proof.
  intros Hcl. split; [apply live_refs_init|..|apply covered_init].
  - intros h ?. set_solver.
  - intros h r _ _. set_solver.
  - intros g h r Hl Hr [?|Hin]; [set_solver|]. by destruct (Hcl g h r Hl Hr).
Qed.

Lemma links_inj g g' h : link st g h → link st g' h → g = g'.
Proof.
  intros (rg & Hg & Hin) (rg' & Hg' & Hin').
  apply (rw_marker_inj _ Hwf _ _ _ _ Hg Hg'). unfold marker_of.
  pose proof (rw_links _ _ _ Hwf _ _ _ Hg Hin) as H1.
  pose proof (rw_links _ _ _ Hwf _ _ _ Hg' Hin') as H2. unfold follows in *.
  rewrite H1 in H2. injection H2 as H2 ->. f_equal. lia.
Qed.

Lemma covered_step Y ind b r ind' :
  covered Y ind → ready_tx st !! b = Some r →
  (∀ ref, ref ∈ ind' ↔ (ref ∈ ind ∧ ref ≠ rtx_ref r) ∨
    ∃ h r', h ∈ rtx_unlocks r ∧ ready_tx st !! h = Some r' ∧ ref = rtx_ref r') →
  covered ({[b]} ∪ Y) ind'.
Proof.
  intros Hcov Hr Hin' h r' Hr'. destruct (decide (h = b)) as [->|Hne]; [left; set_solver|].
  destruct (Hcov _ _ Hr') as [?|[Hi|(g & Hlk & Hg)]]; [left; set_solver| |].
  - right. left. apply Hin'. left. split; [done|]. contradict Hne. by eapply rtx_ref_inj.
  - destruct (decide (g = b)) as [->|Hgb].
    + right. left. apply Hin'. right. destruct Hlk as (rg & Hrg & ?).
      exists h, r'. split; [|done]. congruence.
    + right. right. exists g. split; [done|set_solver].
Qed.

Lemma iter_inv_step Y ind b r ind' :
  iter_inv Y ind → ready_tx st !! b = Some r → rtx_ref r ∈ ind → live_refs ind' →
  (∀ ref, ref ∈ ind' ↔ (ref ∈ ind ∧ ref ≠ rtx_ref r) ∨
    ∃ h r', h ∈ rtx_unlocks r ∧ ready_tx st !! h = Some r' ∧ ref = rtx_ref r') →
  iter_inv ({[b]} ∪ Y) ind'.
Proof.
  intros Hinv Hr Hin Hl Hin'.
  assert (∀ h r', ready_tx st !! h = Some r' →
    (rtx_ref r' ∈ ind' ↔ (rtx_ref r' ∈ ind ∧ h ≠ b) ∨ h ∈ rtx_unlocks r)) as Hnext.
  { intros h r' Hr'. rewrite Hin'. apply Morphisms_Prop.or_iff_morphism; [apply and_iff_compat_l|].
    - split; intros Hne; contradict Hne; [congruence|by eapply rtx_ref_inj].
    - split; [|intros; by exists h, r']. intros (h' & r'' & ? & Hr'' & Heq).
      by rewrite (rtx_ref_inj _ _ _ _ Hr' Hr'' Heq). }
  pose proof (ii_fresh _ _ Hinv _ _ Hr Hin) as Hb.
  assert (∀ h r', ready_tx st !! h = Some r' → h ∈ rtx_unlocks r →
    (h ∉ Y) ∧ rtx_ref r' ∉ ind) as Hchild.
  { intros h r' Hr' Hu. split; intros ?; apply Hb, (ii_parents _ _ Hinv b h r');
      auto; by exists r. }
  split; [done| | | |].
  - intros h [->%elem_of_singleton|?]%elem_of_union; [by eexists|]. by apply (ii_done _ _ Hinv).
  - intros h r' Hr' [[Hi Hne]|Hu]%(Hnext _ _ Hr').
    + pose proof (ii_fresh _ _ Hinv _ _ Hr' Hi). set_solver.
    + destruct (Hchild _ _ Hr' Hu) as [? _]. pose proof (rw_no_self _ Hwf _ _ Hr).
      assert (h ≠ b) by congruence. set_solver.
  - intros g h r' Hlk Hr' Hor. apply elem_of_union.
    assert (h ∈ Y ∨ rtx_ref r' ∈ ind ∨ h ∈ rtx_unlocks r) as [?|[?|Hu]].
    { destruct Hor as [[->%elem_of_singleton|?]%elem_of_union|Hi]; [|auto|].
      - right. left. congruence.
      - apply (Hnext _ _ Hr') in Hi as [[? _]|?]; auto. }
    + right. apply (ii_parents _ _ Hinv g h r'); auto.
    + right. apply (ii_parents _ _ Hinv g h r'); auto.
    + left. apply elem_of_singleton. apply (links_inj g b h Hlk). by exists r.
  - by apply (covered_step Y ind b r ind'); [apply Hinv|..].
Qed.

Lemma iteration_nil Y : iter_inv Y [] → iteration Y [].
Proof.
  intros Hinv. split.
  - constructor.
  - intros r. split; [by intros ?%elem_of_nil|]. intros (h & Hr & Hn).
    destruct Hn. apply (covered_end _ _ (ii_cover _ _ Hinv)). by eexists.
  - by intros [] ????.
  - by intros [] ????.
Qed.

Lemma iteration_cons Y ind b r rs :
  iter_inv Y ind → ready_tx st !! b = Some r → rtx_ref r ∈ ind →
  (∀ ref, ref ∈ ind → ref = rtx_ref r ∨ PoolTransactionRef.cmp ref (rtx_ref r) = Lt) →
  iteration ({[b]} ∪ Y) rs → iteration Y (r :: rs).
Proof.
  intros Hinv Hr Hin Hbest [Hnd Hall Hpar Hgr].
  pose proof (ii_fresh _ _ Hinv _ _ Hr Hin) as Hb.
  pose proof (rw_hash _ _ _ Hwf _ _ Hr) as Hh.
  assert (∀ r', r' ∈ rs → ready_hash r' ≠ b ∧ (ready_hash r' ∉ Y) ∧
    ready_tx st !! ready_hash r' = Some r') as Hrest.
  { intros r' (h & Hr' & Hn)%Hall. rewrite (rw_hash _ _ _ Hwf _ _ Hr'). set_solver. }
  split.
  - rewrite fmap_cons. apply NoDup_cons. split; [|done].
    intros (r' & Heq & Hi)%list_elem_of_fmap. apply Hrest in Hi. naive_solver.
  - intros r'. rewrite elem_of_cons, Hall. split.
    + intros [->|(h & ? & ?)]; [by exists b|]. exists h. set_solver.
    + intros (h & Hr' & Hn). destruct (decide (h = b)) as [->|]; [left; congruence|].
      right. exists h. set_solver.
  - intros [|r1 rs1] r' rs2 g [= <- Heq] Hlk.
    + left. rewrite Hh in Hlk. apply (ii_parents _ _ Hinv g b r); auto.
    + destruct (Hpar _ _ _ g Heq Hlk) as [[->%elem_of_singleton|?]%elem_of_union|(rg & ? & ?)].
      * right. exists r. by split; [left|].
      * by left.
      * right. exists rg. by split; [right|].
  - intros [|r1 rs1] r1' rs2 r' [= <- Heq] Hi Hav.
    + subst rs2. destruct (Hrest _ Hi) as (Hne & Hny & Hr').
      assert (rtx_ref r' ∈ ind) as Hind.
      { destruct (ii_cover _ _ Hinv _ _ Hr') as [?|[?|(g & Hlk & Hg)]]; [done|done|].
        destruct (Hav g Hlk) as [?|(? & []%elem_of_nil & _)]; done. }
      destruct (Hbest _ Hind) as [Heq|?]; [|by apply cmp_preferred].
      by destruct Hne; apply (rtx_ref_inj _ _ _ _ Hr' Hr).
    + apply (Hgr _ _ _ _ Heq Hi). intros g Hlk.
      destruct (Hav g Hlk) as [?|(rg & [->|?]%elem_of_cons & <-)].
      * left. set_solver.
      * left. rewrite Hh. set_solver.
      * right. by exists rg.
Qed.

Lemma collect_spec fuel Y ind :
  iter_inv Y ind → size (ready_tx st) < size Y + fuel →
  ∃ rs, TransactionsIterator.collect fuel (iter_at ind) = Some ((λ r, rtx_tx r) <$> rs) ∧
    iteration Y rs.
Proof.
  revert Y ind. induction fuel as [|fuel IH]; intros Y ind Hinv Hlt.
  { assert (Y ⊆ dom (ready_tx st)) as Hsub%subseteq_size.
    { intros h ?%(ii_done _ _ Hinv). by apply elem_of_dom. }
    rewrite size_dom in Hsub. lia. }
  simpl. destruct (next_spec ind (ii_live _ _ Hinv))
    as [[-> ->]|(b & r & ind' & Hr & Hin & -> & Hl & Hbest & Hind')].
  { exists []. simpl. split; [done|by apply iteration_nil]. }
  simpl. pose proof (iter_inv_step _ _ _ _ _ Hinv Hr Hin Hl Hind') as Hinv'.
  destruct (IH _ _ Hinv') as (rs & -> & Hit).
  { rewrite size_union, size_singleton; [lia|].
    pose proof (ii_fresh _ _ Hinv _ _ Hr Hin). set_solver. }
  exists (r :: rs). split; [done|]. by apply (iteration_cons Y ind b).
Qed.

(** The ready transactions in the order in which they are mined. *)
Lemma ready_list_spec :
  ready_clean st → ∃ rs, ready_list st = Some ((λ r, rtx_tx r) <$> rs) ∧ iteration ∅ rs.
Proof.
  intros Hcl. unfold ready_list.
  apply (collect_spec _ ∅ _ (iter_inv_init Hcl)). rewrite size_empty. nia.
Qed.

(** ** Termination without the absence of stale links *)

(** The ready transactions of the sender of [h] from its nonce on. *)
Definition rank (h : TxHash) : nat :=
  size (filter (λ g, (acct g).2 = (acct h).2 ∧ ((acct h).1 ≤ (acct g).1)%Z)
    (dom (ready_tx st))).

Definition weight (ind : list PoolTransactionRef.t) : nat :=
  sum_list_with (λ ref, rank (PoolTransactionRef.hash ref)) ind.

Lemma rank_le h : rank h ≤ size (ready_tx st).
Proof. unfold rank. rewrite <- size_dom. apply subseteq_size. set_solver. Qed.

Lemma rank_pos h : is_Some (ready_tx st !! h) → 0 < rank h.
Proof.
  intros Hs. unfold rank.
  assert ({[h]} ⊆ filter (λ g, (acct g).2 = (acct h).2 ∧ ((acct h).1 ≤ (acct g).1)%Z)
    (dom (ready_tx st))) as Hle%subseteq_size; [|rewrite size_singleton in Hle; lia].
  apply singleton_subseteq_l, elem_of_filter. split; [split; [done|lia]|].
  by apply elem_of_dom.
Qed.

Lemma rank_follows g h : follows acct g h → is_Some (ready_tx st !! g) → rank h < rank g.
Proof.
  intros Hf Hg. unfold rank, follows in *. rewrite Hf. simpl. apply subset_size. split.
  - intros x. rewrite !elem_of_filter. intros [[-> ?] ?]. split; [split; [done|lia]|done].
  - intros Hsub. assert (g ∈ filter (λ x, (acct x).2 = (acct g).2 ∧
      ((acct g).1 + 1 ≤ (acct x).1)%Z) (dom (ready_tx st))) as [[_ ?] _]%elem_of_filter; [|lia].
    apply Hsub, elem_of_filter. split; [split; [done|lia]|]. by apply elem_of_dom.
Qed.

Lemma weight_submseteq ind ind' : ind ⊆+ ind' → weight ind ≤ weight ind'.
Proof. unfold weight. induction 1; simpl; lia. Qed.

Lemma weight_init : weight (independent_transactions st) ≤ size (ready_tx st) * size (ready_tx st).
Proof.
  assert (length (independent_transactions st) ≤ size (ready_tx st)) as Hlen.
  { rewrite <- (length_fmap (λ ref, PoolTransactionRef.hash ref)), <- size_dom.
    rewrite <- (size_list_to_set (C := gset TxHash)).
    - apply subseteq_size. intros h Hin%elem_of_list_to_set.
      apply list_elem_of_fmap in Hin as (ref & -> & (r & Hr & _)%(rw_indep _ _ _ Hwf)).
      apply elem_of_dom. by eexists.
    - apply NoDup_fmap_2_strong; [|by apply (bt_sorted_nodup PoolTransactionRef.cmp), Hwf].
      intros x y (r & Hr & <-)%(rw_indep _ _ _ Hwf) (r' & Hr' & <-)%(rw_indep _ _ _ Hwf) Heq.
      rewrite Heq in Hr. congruence. }
  transitivity (length (independent_transactions st) * size (ready_tx st)); [|nia].
  unfold weight. clear Hlen. induction (independent_transactions st) as [|ref l IH]; simpl; [lia|].
  pose proof (rank_le (PoolTransactionRef.hash ref)). lia.
Qed.

(** At most one ready transaction is linked from a ready transaction. *)
Lemma child_unique g rg h h' r r' :
  ready_tx st !! g = Some rg → h ∈ rtx_unlocks rg → h' ∈ rtx_unlocks rg →
  ready_tx st !! h = Some r → ready_tx st !! h' = Some r' → h = h'.
Proof.
  intros Hg Hin Hin' Hr Hr'. apply (rw_marker_inj _ Hwf _ _ _ _ Hr Hr'). unfold marker_of.
  pose proof (rw_links _ _ _ Hwf _ _ _ Hg Hin) as H1.
  pose proof (rw_links _ _ _ Hwf _ _ _ Hg Hin') as H2. unfold follows in *. congruence.
Qed.

Lemma list_find_child r :
  (∃ c rc, c ∈ rtx_unlocks r ∧ ready_tx st !! c = Some rc) ∨
  ∀ h r', h ∈ rtx_unlocks r → ready_tx st !! h ≠ Some r'.
Proof.
  induction (rtx_unlocks r) as [|c l IH]; [right; by intros h r' ?%elem_of_nil|].
  destruct (ready_tx st !! c) as [rc|] eqn:Hc; [left; exists c, rc; by split; [left|]|].
  destruct IH as [(c' & rc & ? & ?)|Hno]; [left; exists c', rc; by split; [right|]|].
  right. intros h r' [->|?]%elem_of_cons; [congruence|by apply Hno].
Qed.

Lemma weight_step ind b r ind' :
  live_refs ind → live_refs ind' → ready_tx st !! b = Some r → rtx_ref r ∈ ind →
  (∀ ref, ref ∈ ind' ↔ (ref ∈ ind ∧ ref ≠ rtx_ref r) ∨
    ∃ h r', h ∈ rtx_unlocks r ∧ ready_tx st !! h = Some r' ∧ ref = rtx_ref r') →
  weight ind' < weight ind.
Proof.
  intros [Hs _] [Hs' _] Hr Hin Hin'.
  apply elem_of_Permutation in Hin as [k Hk].
  assert (weight ind = rank b + weight k) as ->.
  { transitivity (weight (rtx_ref r :: k)).
    - apply Nat.le_antisymm; apply weight_submseteq; by rewrite Hk.
    - unfold weight. simpl. by rewrite (rw_ref_hash _ Hwf _ _ Hr). }
  assert (∀ ref, ref ∈ ind' → ref ∈ k ∨
    ∃ h r', h ∈ rtx_unlocks r ∧ ready_tx st !! h = Some r' ∧ ref = rtx_ref r') as Hsub.
  { intros ref [[Hi Hne]|?]%Hin'; [left|by right]. rewrite Hk in Hi.
    by apply elem_of_cons in Hi as [?|?]. }
  apply (bt_sorted_nodup PoolTransactionRef.cmp) in Hs'.
  destruct (list_find_child r) as [(c & rc & Hc & Hrc)|Hno].
  - assert (ind' ⊆+ rtx_ref rc :: k) as Hle%weight_submseteq.
    { apply NoDup_submseteq; [done|]. intros ref [?|(h & r' & Hh & Hr' & ->)]%Hsub; [by right|].
      rewrite (child_unique _ _ _ _ _ _ Hr Hh Hc Hr' Hrc) in Hr'. assert (r' = rc) as -> by congruence. by left. }
    unfold weight in Hle at 2. simpl in Hle. rewrite (rw_ref_hash _ Hwf _ _ Hrc) in Hle.
    fold (weight k) in Hle.
    assert (rank c < rank b); [|lia].
    apply rank_follows; [exact (rw_links _ _ _ Hwf _ _ _ Hr Hc)|by eexists].
  - assert (ind' ⊆+ k) as Hle%weight_submseteq.
    { apply NoDup_submseteq; [done|]. intros ref [?|(h & r' & Hh & Hr' & ->)]%Hsub; [done|].
      by destruct (Hno h r'). }
    assert (0 < rank b); [|lia]. apply rank_pos. by eexists.
Qed.

(** The iteration ends and yields every ready transaction, and only those. *)
Lemma collect_complete fuel Y ind :
  live_refs ind → covered Y ind → weight ind < fuel →
  ∃ l, TransactionsIterator.collect fuel (iter_at ind) = Some l ∧
    (∀ tx, tx ∈ l → ∃ h r, ready_tx st !! h = Some r ∧ tx = rtx_tx r) ∧
    (∀ h r, ready_tx st !! h = Some r → h ∈ Y ∨ rtx_tx r ∈ l).
Proof.
  revert Y ind. induction fuel as [|fuel IH]; intros Y ind Hl Hcov Hlt; [lia|].
  simpl. destruct (next_spec ind Hl)
    as [[-> ->]|(b & r & ind' & Hr & Hin & -> & Hl' & _ & Hind')].
  { exists []. simpl. split_and!; [done|by intros ? ?%elem_of_nil|].
    intros h r Hr. left. apply (covered_end _ _ Hcov). by eexists. }
  simpl. pose proof (weight_step _ _ _ _ Hl Hl' Hr Hin Hind').
  destruct (IH ({[b]} ∪ Y) ind') as (l & -> & Hsound & Hcomp); [done| |lia|].
  { by apply (covered_step Y ind b r). }
  exists (rtx_tx r :: l). split_and!; [done|..].
  - intros tx [->|?]%elem_of_cons; [by exists b, r|auto].
  - intros h r' Hr'. destruct (Hcomp h r' Hr') as [[->%elem_of_singleton|?]%elem_of_union|?];
      [right; assert (r' = r) as -> by congruence; by left|by left|right; by right].
Qed.

Lemma ready_list_complete :
  ∃ l, ready_list st = Some l ∧
    ∀ tx, tx ∈ l ↔ ∃ h r, ready_tx st !! h = Some r ∧ tx = rtx_tx r.
Proof.
  destruct (collect_complete (S (size (ready_tx st) * size (ready_tx st))) ∅ _
    live_refs_init covered_init) as (l & Hl & Hsound & Hcomp).
  { pose proof weight_init. lia. }
  exists l. split; [done|]. intros tx. split; [auto|].
  intros (h & r & Hr & ->). destruct (Hcomp h r Hr); set_solver.
Qed.

End iteration.

(** [take(n)] yields the first [n] of the ready transactions. *)
Lemma take_collect_prefix fuel n it l :
  TransactionsIterator.collect fuel it = Some l →
  TransactionsIterator.take_collect n it = Some (take n l).
Proof.
  revert fuel it l. induction n as [|n IH]; intros fuel it l; [done|].
  destruct fuel as [|fuel]; simpl; [done|].
  destruct (TransactionsIterator.next it) as [[it' [tx|]]|]; simpl; [|by intros [= <-]|done].
  intros (l' & Hc & ->)%fmap_Some. by rewrite (IH _ _ _ Hc).
Qed.
