(* ===== verification/Pool.v ===== *)
(** The transaction pool (anvil/src/eth/pool/mod.rs): [PoolInner] composes
    the ready and the waiting queue; [Pool] adds the listeners.

    [None] is a panic (or a loop whose bound is too small); a [result] is
    what the function returns.  Every method of [Pool] holds the pool's lock
    while it runs, so a run of the pool is a sequence of these operations. *)
From S2P Require Import Prelude Transaction PoolTx PendingQueue ReadyQueue ReadyInv ReadyIter.

(** [pool::ReadyTransaction]: the outcome of adding a transaction that is
    ready. *)
Module ReadyOutcome.
Record t := mk { hash : TxHash; promoted : list TxHash; discarded : list TxHash;
  removed : list PoolTransaction.t }.

Definition new (hash : TxHash) : t := mk hash [] [] [].
End ReadyOutcome.

Inductive AddedTransaction :=
  | Ready (tx : ReadyOutcome.t)
  | Pending (hash : TxHash).

Definition AddedTransaction_hash (a : AddedTransaction) : TxHash :=
  match a with
  | Ready tx => ReadyOutcome.hash tx
  | Pending hash => hash
  end.

Module PruneResult.
Record t := mk { promoted : list AddedTransaction; failed : list TxHash;
  pruned : list PoolTransaction.t }.
End PruneResult.

Module MinedBlockOutcome.
Record t := mk { block_number : Z; included : list PoolTransaction.t;
  invalid : list PoolTransaction.t }.
End MinedBlockOutcome.

Module PoolInner.
Record t := mk { ready_transactions : ReadyTransactions.t;
  pending_transactions : PendingTransactions.t }.

Definition empty : t := mk ReadyTransactions.empty PendingTransactions.empty.

Definition clear (st : t) : t :=
  mk (ReadyTransactions.clear (ready_transactions st))
     (PendingTransactions.clear (pending_transactions st)).

Definition contains (st : t) (tx_hash : TxHash) : bool :=
  PendingTransactions.contains (pending_transactions st) tx_hash ||
  ReadyTransactions.contains (ready_transactions st) tx_hash.

Definition get_transaction (st : t) (hash : TxHash) : option PendingTransaction.t :=
  match PendingTransactions.get (pending_transactions st) hash with
  | Some pending =>
      Some (PoolTransaction.pending_transaction (PendingPoolTransaction.transaction pending))
  | None =>
      ready ← ReadyTransactions.get (ready_transactions st) hash;
      Some (PoolTransaction.pending_transaction (ReadyTransaction.pool_tx ready))
  end.

Section order.
Context `{HashOrder}.

Definition transactions_by_sender (st : t) (sender : Address) :
    option (list PoolTransaction.t) :=
  let pending_txs := filter (λ tx, PoolTransaction.sender tx = sender)
    (PendingTransactions.transactions (pending_transactions st)) in
  ready ← ready_list (ready_transactions st);
  Some (pending_txs ++ filter (λ tx, PoolTransaction.sender tx = sender) ready).

(** The [while let] loop of [add_ready_transaction]: [Err] when the new
    transaction itself is rejected. *)
Fixpoint add_ready_loop (fuel : nat) (st : t) (tx_queue : list PendingPoolTransaction.t)
    (is_new_tx : bool) (ready : ReadyOutcome.t) :
    option (t * result ReadyOutcome.t PoolError) :=
  match fuel with
  | O => None
  | S fuel =>
      match tx_queue with
      | [] => Some (st, Ok ready)
      | current_tx :: tx_queue =>
          '(pending, unlocked) ← PendingTransactions.mark_and_unlock (pending_transactions st)
            (PoolTransaction.provides (PendingPoolTransaction.transaction current_tx));
          let tx_queue := tx_queue ++ unlocked in
          let current_hash := PendingPoolTransaction.hash current_tx in
          '(ready_txs, res) ←
            ReadyTransactions.add_transaction (ready_transactions st) current_tx;
          let st := mk ready_txs pending in
          match res with
          | Ok replaced_transactions =>
              add_ready_loop fuel st tx_queue false
                (ReadyOutcome.mk (ReadyOutcome.hash ready)
                  (if is_new_tx then ReadyOutcome.promoted ready
                   else ReadyOutcome.promoted ready ++ [current_hash])
                  (ReadyOutcome.discarded ready)
                  (ReadyOutcome.removed ready ++ replaced_transactions))
          | Err err =>
              if is_new_tx then Some (st, Err err)
              else add_ready_loop fuel st tx_queue false
                (ReadyOutcome.mk (ReadyOutcome.hash ready) (ReadyOutcome.promoted ready)
                  (ReadyOutcome.discarded ready ++ [current_hash])
                  (ReadyOutcome.removed ready))
          end
      end
  end.

(** A round takes one transaction off the queue and every transaction that
    joins the queue leaves the waiting queue. *)
Definition add_ready_transaction (st : t) (tx : PendingPoolTransaction.t) :
    option (t * result AddedTransaction PoolError) :=
  let hash := PendingPoolTransaction.hash tx in
  '(st, res) ← add_ready_loop (2 + PendingTransactions.len (pending_transactions st)) st
    [tx] true (ReadyOutcome.new hash);
  match res with
  | Err err => Some (st, Err err)
  | Ok ready =>
      if existsb (λ tx, PoolTransaction.hash tx =? hash)%Z (ReadyOutcome.removed ready) then
        '(ready_txs, _) ← ReadyTransactions.clear_transactions (ready_transactions st)
          (ReadyOutcome.promoted ready);
        Some (mk ready_txs (pending_transactions st), Err CyclicTransaction)
      else Some (st, Ok (Ready ready))
  end.

Definition add_transaction (now : Z) (st : t) (tx : PoolTransaction.t) :
    option (t * result AddedTransaction PoolError) :=
  if contains st (PoolTransaction.hash tx) then Some (st, Err (AlreadyImported tx))
  else
    let ptx := PendingPoolTransaction.new now tx
      (ReadyTransactions.provided_markers (ready_transactions st)) in
    if PendingPoolTransaction.is_ready ptx then add_ready_transaction st ptx
    else
      '(pending, res) ← PendingTransactions.add_transaction (pending_transactions st) ptx;
      let st := mk (ready_transactions st) pending in
      match res with
      | Err e => Some (st, Err e)
      | Ok _ => Some (st, Ok (Pending (PoolTransaction.hash tx)))
      end.

(** The first loop of [prune_markers]. *)
Fixpoint prune_markers_loop (st : t) (markers : list TxMarker)
    (imports : list PendingPoolTransaction.t) (pruned : list PoolTransaction.t) :
    option (t * list PendingPoolTransaction.t * list PoolTransaction.t) :=
  match markers with
  | [] => Some (st, imports, pruned)
  | marker :: markers =>
      '(pending, unlocked) ←
        PendingTransactions.mark_and_unlock (pending_transactions st) [marker];
      '(ready_txs, gone) ← ReadyTransactions.prune_tags (ready_transactions st) marker;
      prune_markers_loop (mk ready_txs pending) markers (imports ++ unlocked) (pruned ++ gone)
  end.

(** The second loop: the unlocked transactions become ready. *)
Fixpoint import_loop (st : t) (imports : list PendingPoolTransaction.t)
    (promoted : list AddedTransaction) (failed : list TxHash) :
    option (t * list AddedTransaction * list TxHash) :=
  match imports with
  | [] => Some (st, promoted, failed)
  | tx :: imports =>
      let hash := PendingPoolTransaction.hash tx in
      '(st, res) ← add_ready_transaction st tx;
      match res with
      | Ok r => import_loop st imports (promoted ++ [r]) failed
      | Err _ => import_loop st imports promoted (failed ++ [hash])
      end
  end.

Definition prune_markers (st : t) (markers : list TxMarker) : option (t * PruneResult.t) :=
  '(st, imports, pruned) ← prune_markers_loop st markers [] [];
  '(st, promoted, failed) ← import_loop st imports [] [];
  Some (st, PruneResult.mk promoted failed pruned).

(** The body that [remove_invalid] and [remove_transactions_by_address] share. *)
Definition remove_hashes (st : t) (tx_hashes : list TxHash) :
    option (t * list PoolTransaction.t) :=
  '(ready_txs, removed) ←
    ReadyTransactions.remove_with_markers (ready_transactions st) tx_hashes None;
  let '(pending, more) := PendingTransactions.remove (pending_transactions st) tx_hashes in
  Some (mk ready_txs pending, removed ++ more).

Definition remove_invalid (st : t) (tx_hashes : list TxHash) :
    option (t * list PoolTransaction.t) :=
  match tx_hashes with
  | [] => Some (st, [])
  | _ => remove_hashes st tx_hashes
  end.

Definition remove_transactions_by_address (st : t) (sender : Address) :
    option (t * list PoolTransaction.t) :=
  txs ← transactions_by_sender st sender;
  match PoolTransaction.hash <$> txs with
  | [] => Some (st, [])
  | tx_hashes => remove_hashes st tx_hashes
  end.

(** [Pool::drop_transaction]. *)
Definition drop_transaction (st : t) (tx : TxHash) : option (t * option PoolTransaction.t) :=
  '(ready_txs, removed) ←
    ReadyTransactions.remove_with_markers (ready_transactions st) [tx] None;
  Some (mk ready_txs (pending_transactions st),
        head (filter (λ t, PoolTransaction.hash t = tx) removed)).

(** [Pool::on_mined_block]. *)
Definition on_mined_block (st : t) (outcome : MinedBlockOutcome.t) :
    option (t * PruneResult.t) :=
  '(st, _) ← remove_invalid st (PoolTransaction.hash <$> MinedBlockOutcome.invalid outcome);
  prune_markers st (mjoin (PoolTransaction.provides <$> MinedBlockOutcome.included outcome)).

(** [Pool::txpool_status]: (pending, queued).  The counts fit in 64 bits on
    every target, so [try_into().unwrap_or(0)] does not fall back. *)
Definition txpool_status (st : t) : option (nat * nat) :=
  ready ← ready_list (ready_transactions st);
  Some (length ready, PendingTransactions.len (pending_transactions st)).

End order.
End PoolInner.

(** ** Listeners *)

Module Listeners.
Section sender.
(** The sending half of a [futures] channel: [try_send] returns the sender
    after the attempt and how the attempt ended. *)
Inductive SendResult := Sent | Full | Disconnected.
Context {Sender : Type} (try_send : Sender → TxHash → Sender * SendResult).

(** The loop [for n in (0..listener.len()).rev()], with [n] rounds to go. *)
Fixpoint notify_loop (n : nat) (hash : TxHash) (listener : list Sender) :
    option (list Sender) :=
  match n with
  | O => Some listener
  | S n =>
      listener_tx ← listener !! n;
      let listener := swap_remove n listener in
      let '(listener_tx, res) := try_send listener_tx hash in
      notify_loop n hash
        match res with
        | Sent | Full => listener ++ [listener_tx]
        | Disconnected => listener
        end
  end.

Definition notify_listener (hash : TxHash) (listener : list Sender) : option (list Sender) :=
  notify_loop (length listener) hash listener.

(** What the comment says: a retain with a mutable reference. *)
Definition retain (hash : TxHash) (listener : list Sender) : list Sender :=
  omap (λ l, match try_send l hash with
             | (_, Disconnected) => None
             | (l, _) => Some l
             end) listener.

(** [Pool::add_transaction] notifies about the new transaction and then
    about the promoted ones. *)
Fixpoint notify_all (hashes : list TxHash) (listener : list Sender) : option (list Sender) :=
  match hashes with
  | [] => Some listener
  | hash :: hashes => listener ← notify_listener hash listener; notify_all hashes listener
  end.

Definition notify_added (added : AddedTransaction) (listener : list Sender) :
    option (list Sender) :=
  match added with
  | Ready ready => notify_all (ReadyOutcome.hash ready :: ReadyOutcome.promoted ready) listener
  | Pending _ => Some listener
  end.

Lemma swap_remove_mid (l1 : list Sender) x l2 :
  ∃ l2', swap_remove (length l1) (l1 ++ x :: l2) = l1 ++ l2' ∧ l2' ≡ₚ l2.
Proof.
  unfold swap_remove. destruct l2 as [|z l2] using rev_ind.
  - rewrite vec_pop_app, decide_True by done. exists []. by rewrite app_nil_r.
  - rewrite app_comm_cons, app_assoc, vec_pop_app. rewrite decide_False; cycle 1.
    { rewrite length_app. simpl. lia. }
    rewrite insert_app_r_alt, Nat.sub_diag by lia. exists (z :: l2). split; [done|].
    by rewrite Permutation_app_comm.
Qed.

Lemma notify_loop_spec hash l1 l2 :
  ∃ l', notify_loop (length l1) hash (l1 ++ l2) = Some l' ∧ l' ≡ₚ retain hash l1 ++ l2.
Proof.
  revert l2. induction l1 as [|x l1 IH] using rev_ind; intros l2; [by exists l2|].
  rewrite length_app, Nat.add_comm, <- app_assoc. simpl.
  rewrite list_lookup_middle by done. simpl.
  destruct (swap_remove_mid l1 x l2) as (l2' & -> & Hperm).
  unfold retain in *. rewrite omap_app. simpl.
  destruct (try_send x hash) as [x' [| |]]; rewrite <- ?app_assoc.
  - destruct (IH (l2' ++ [x'])) as (l' & -> & Hl'). exists l'. split; [done|].
    rewrite Hl', Hperm. simpl. by rewrite (Permutation_app_comm l2 [x']).
  - destruct (IH (l2' ++ [x'])) as (l' & -> & Hl'). exists l'. split; [done|].
    rewrite Hl', Hperm. simpl. by rewrite (Permutation_app_comm l2 [x']).
  - destruct (IH l2') as (l' & -> & Hl'). exists l'. split; [done|]. by rewrite Hl', Hperm.
Qed.

End sender.
End Listeners.
