(* ===== verification/PoolInv.v ===== *)
(** The invariant of the pool and what each operation of
    anvil/src/eth/pool/mod.rs does to the transactions in it. *)
From S2P Require Import Prelude Transaction PoolTx PendingQueue ReadyQueue ReadyInv ReadyIter Pool.

Abbreviation waiting st := (PendingTransactions.waiting_queue (PoolInner.pending_transactions st)).
Abbreviation readies st := (ReadyTransactions.ready_tx (PoolInner.ready_transactions st)).
Abbreviation provided st :=
  (ReadyTransactions.provided_markers (PoolInner.ready_transactions st)).
Abbreviation ptx_hash := PendingPoolTransaction.hash.
Abbreviation tx_hash := PoolTransaction.hash.

(** [tx] is in the pool. *)
Definition pool_has (st : PoolInner.t) (tx : PoolTransaction.t) : Prop :=
  (∃ h p, waiting st !! h = Some p ∧ ptx_tx p = tx) ∨
  (∃ h r, readies st !! h = Some r ∧ rtx_tx r = tx).

(** [h] is the hash of no transaction in the pool. *)
Definition absent (st : PoolInner.t) (h : TxHash) : Prop :=
  waiting st !! h = None ∧ readies st !! h = None.

Section account.
Context (acct : TxHash → Z * Address).

(** The invariant: both queues are well formed, no transaction is in both,
    and no transaction waits for a marker a ready transaction provides. *)
Record pool_wf (st : PoolInner.t) : Prop := {
  pl_pending : pending_wf (PoolInner.pending_transactions st);
  pl_ready : ready_wf acct (PoolInner.ready_transactions st);
  pl_disjoint h : is_Some (waiting st !! h) → readies st !! h = None;
  pl_acct h p : waiting st !! h = Some p → account_tx acct (ptx_tx p) ∧
    ptx_missing p ⊆ list_to_set (PoolTransaction.requires (ptx_tx p));
  pl_missing h p m : waiting st !! h = Some p → m ∈ ptx_missing p → provided st !! m = None;
}.

(** The ids handed out and the transactions that still need one. *)
Definition used_ids (st : PoolInner.t) : Z :=
  (ReadyTransactions.id (PoolInner.ready_transactions st) + Z.of_nat (size (waiting st)))%Z.

Lemma pool_wf_empty : pool_wf PoolInner.empty.
Proof.
  split; simpl; [apply pending_wf_empty|apply ready_wf_empty|..]; intros *;
    rewrite ?lookup_empty; done.
Qed.

Lemma pool_wf_clear st : pool_wf st → pool_wf (PoolInner.clear st).
Proof.
  intros Hwf. split; simpl; [apply pending_wf_empty|apply ready_wf_clear, Hwf|..]; intros *;
    rewrite ?lookup_empty; done.
Qed.

(** ** The transactions being added *)

(** The transactions of the work list are ready and nowhere in the pool. *)
Record queue_wf (st : PoolInner.t) (q : list PendingPoolTransaction.t) : Prop := {
  qw_pool : pool_wf st;
  qw_ready p : p ∈ q → PendingPoolTransaction.is_ready p = true;
  qw_acct p : p ∈ q → account_tx acct (ptx_tx p);
  qw_absent p : p ∈ q → absent st (ptx_hash p);
  qw_nodup : NoDup (ptx_hash <$> q);
}.

(** [tx] is in the pool or in the work list. *)
Definition held (st : PoolInner.t) (q : list PendingPoolTransaction.t)
    (tx : PoolTransaction.t) : Prop :=
  pool_has st tx ∨ ∃ p, p ∈ q ∧ ptx_tx p = tx.

Lemma unlock_size ms st st' unlocked :
  pending_wf st → unlock_spec ms st st' unlocked →
  size (PendingTransactions.waiting_queue st) =
    size (PendingTransactions.waiting_queue st') + length unlocked.
Proof.
  intros Hwf [Hq Hu Hnd].
  assert (dom (PendingTransactions.waiting_queue st) =
    dom (PendingTransactions.waiting_queue st') ∪ list_to_set (ptx_hash <$> unlocked)
    ∧ dom (PendingTransactions.waiting_queue st') ## list_to_set (C := gset TxHash) (ptx_hash <$> unlocked))
    as [Hdom Hdisj].
  { split.
    - apply set_eq. intros h. rewrite elem_of_union, !elem_of_dom, elem_of_list_to_set, Hq.
      rewrite list_elem_of_fmap. split.
      + intros [tx Htx]. rewrite Htx. simpl. unfold remaining.
        destruct (PendingPoolTransaction.is_ready (mark_set ms tx)) eqn:Hr; [right|by left].
        exists (mark_set ms tx). split; [symmetry; exact (pw_hash _ Hwf _ _ Htx)|].
        apply Hu. by exists h, tx.
      + intros [[tx' Htx']|(tx' & -> & (h' & tx & Htx & -> & _)%Hu)].
        * apply bind_Some in Htx' as (tx & -> & _). by eexists.
        * rewrite mark_set_hash, (pw_hash _ Hwf _ _ Htx). by eexists.
    - apply elem_of_disjoint. intros h [tx' Hl]%elem_of_dom.
      rewrite elem_of_list_to_set, list_elem_of_fmap.
      intros (p & -> & (h' & tx & Htx & -> & Hr)%Hu).
      rewrite mark_set_hash, (pw_hash _ Hwf _ _ Htx), Hq, Htx in Hl. simpl in Hl.
      unfold remaining in Hl. by rewrite Hr in Hl. }
  rewrite <- !size_dom, Hdom, size_union, size_list_to_set, length_fmap by done. lia.
Qed.

Section order.
Context `{HashOrder}.

Lemma not_required st m :
  pool_wf st → is_Some (provided st !! m) →
  PendingTransactions.required_markers (PoolInner.pending_transactions st) !! m = None.
Proof.
  intros Hwf [g Hg].
  destruct (PendingTransactions.required_markers _ !! m) as [s|] eqn:Hs; [|done]. exfalso.
  destruct (set_choose_or_empty s) as [[h Hh]|He].
  - destruct (pw_registered _ (pl_pending _ Hwf) m h) as [Hreg _].
    destruct Hreg as (p & Hp & Hm); [by exists s|].
    rewrite (pl_missing _ Hwf _ _ _ Hp Hm) in Hg. done.
  - apply leibniz_equiv in He. subst s. by apply (pw_nonempty _ (pl_pending _ Hwf) m).
Qed.

(** A transaction that the marker of [h] unlocks is its successor. *)
Lemma unlocked_follows st h p :
  pool_wf st → is_u64 (acct h).1 → waiting st !! ptx_hash p = Some p →
  PendingPoolTransaction.is_ready (mark_set {[marker_of acct h]} p) = true →
  follows acct h (ptx_hash p) ∧ PoolTransaction.requires (ptx_tx p) ≠ [].
Proof.
  intros Hwf Hn Hp Hr%mark_set_ready.
  destruct (pl_acct _ Hwf _ _ Hp) as [(Hn' & _ & Hreq) Hsub].
  pose proof (pw_waiting _ (pl_pending _ Hwf) _ _ Hp) as Hne.
  destruct (set_choose_L _ Hne) as [m Hm].
  destruct Hreq as [Hreq|[Hpos Hreq]]; rewrite Hreq in Hsub |- *; [set_solver|].
  split; [|done]. assert (m = marker_of acct h) as -> by set_solver.
  assert (marker_of acct h = prev_marker_of acct (ptx_hash p)) as Hm' by set_solver.
  unfold PendingPoolTransaction.hash in *.
  apply to_marker_inj in Hm' as [H1 H2]; [|done|unfold is_u64 in *; lia].
  unfold follows. rewrite H1, H2. apply injective_projections; simpl; [lia|done].
Qed.

(** ** The loop of add_ready_transaction *)

(** What the loop does to the pool and the work list [q]: [P] are the hashes
    of the accepted transactions, [D] the discarded transactions, [R] the
    ready transactions that were replaced. *)
Record loop_spec (st : PoolInner.t) (q : list PendingPoolTransaction.t) (st' : PoolInner.t)
    (P : list TxHash) (D R : list PoolTransaction.t) : Prop := {
  ls_wf : pool_wf st';
  ls_held tx : held st q tx ↔ pool_has st' tx ∨ tx ∈ D ∨ tx ∈ R;
  ls_gone tx : tx ∈ D ∨ tx ∈ R → absent st' (tx_hash tx);
  ls_ready h : h ∈ P ∨ is_Some (readies st !! h) →
    is_Some (readies st' !! h) ∨ ∃ tx, tx ∈ R ∧ tx_hash tx = h;
  ls_later tx : tx ∈ R → ∃ p, p ∈ q ∧ tx_hash tx ≠ ptx_hash p ∧
    (acct (tx_hash tx)).2 = (acct (ptx_hash p)).2 ∧
    ((acct (ptx_hash p)).1 ≤ (acct (tx_hash tx)).1)%Z;
  ls_ids : (used_ids st' ≤ used_ids st + Z.of_nat (length q))%Z;
  ls_clean : ready_clean (PoolInner.ready_transactions st) →
    (∀ p, p ∈ q → PoolTransaction.requires (ptx_tx p) ≠ []) →
    ready_clean (PoolInner.ready_transactions st');
  ls_links g h : link (PoolInner.ready_transactions st') g h →
    (∃ g', link (PoolInner.ready_transactions st) g' h) ∨
    ∃ tx, held st q tx ∧ tx_hash tx = h;
}.

Lemma pool_has_not_absent st tx : pool_wf st → pool_has st tx → ¬ absent st (tx_hash tx).
Proof.
  intros Hwf [(h & p & Hp & <-)|(h & r & Hr & <-)] [Hw Hn].
  - rewrite <- (pw_hash _ (pl_pending _ Hwf) _ _ Hp) in Hp.
    unfold PendingPoolTransaction.hash in Hp. congruence.
  - rewrite (rw_hash _ _ _ (pl_ready _ Hwf) _ _ Hr) in Hn. congruence.
Qed.

Lemma absent_intro st h :
  pool_wf st → (∀ tx, pool_has st tx → tx_hash tx ≠ h) → absent st h.
Proof.
  intros Hwf Hno. split; apply eq_None_not_Some.
  - intros [p Hp]. apply (Hno (ptx_tx p)); [left; by exists h, p|].
    exact (pw_hash _ (pl_pending _ Hwf) _ _ Hp).
  - intros [r Hr]. apply (Hno (rtx_tx r)); [right; by exists h, r|].
    exact (rw_hash _ _ _ (pl_ready _ Hwf) _ _ Hr).
Qed.

(** What is neither in the pool nor in the work list does not come back. *)
Lemma loop_absent st q st' P D R h :
  queue_wf st q → loop_spec st q st' P D R →
  absent st h → h ∉ ptx_hash <$> q → absent st' h.
Proof.
  intros Hq Hls Ha Hn. apply absent_intro; [apply Hls|]. intros tx Htx <-.
  destruct (proj2 (ls_held _ _ _ _ _ _ Hls tx)) as [Hh|(p & Hp & <-)]; [by left|..].
  - by apply pool_has_not_absent in Hh; [|apply Hq].
  - apply Hn, list_elem_of_fmap. by exists p.
Qed.

Lemma loop_spec_nil st : pool_wf st → loop_spec st [] st [] [] [].
Proof.
  intros Hwf. split; try done.
  - intros tx. unfold held. set_solver.
  - intros tx [[]%elem_of_nil|[]%elem_of_nil].
  - intros h [[]%elem_of_nil|?]; auto.
  - by intros tx ?%elem_of_nil.
  - simpl. lia.
  - intros g h ?. left. by exists g.
Qed.

(** *** One round of the loop *)

Section step.
Context (st : PoolInner.t) (cur : PendingPoolTransaction.t) (q : list PendingPoolTransaction.t).
Context (Hq : queue_wf st (cur :: q)).
Context (Hid : (ReadyTransactions.id (PoolInner.ready_transactions st) < u64_max)%Z).
Context (pend : PendingTransactions.t) (unlocked : list PendingPoolTransaction.t).
Context (Hpend : pending_wf pend).
Context (Hunl : unlock_spec {[marker_of acct (ptx_hash cur)]}
  (PoolInner.pending_transactions st) pend unlocked).

Abbreviation rdy := (PoolInner.ready_transactions st).
Abbreviation st1 := (PoolInner.mk (accept acct rdy (ptx_tx cur)) pend).

Lemma cur_in : cur ∈ cur :: q.
Proof. by left. Qed.

Lemma cur_ready_wf : ready_wf acct (accept acct rdy (ptx_tx cur)).
Proof.
  apply accept_wf; [apply Hq|apply (qw_acct _ _ Hq), cur_in| |done].
  apply (qw_absent _ _ Hq _ cur_in).
Qed.

(** A transaction that was not ready and is not [cur] is still not ready. *)
Lemma accept_absent x :
  readies st !! x = None → x ≠ ptx_hash cur → readies st1 !! x = None.
Proof.
  intros Hx Hne. simpl. rewrite accept_lookup by apply Hq.
  rewrite decide_False by done. repeat case_decide; rewrite ?Hx; done.
Qed.

Lemma still_waiting x p' :
  waiting st1 !! x = Some p' ↔ ∃ p, waiting st !! x = Some p ∧
    p' = mark_set {[marker_of acct (ptx_hash cur)]} p ∧ ptx_missing p' ≠ ∅.
Proof.
  simpl. rewrite (us_queue _ _ _ _ Hunl), bind_Some. by setoid_rewrite remaining_Some.
Qed.

Lemma was_waiting u :
  u ∈ unlocked ↔ ∃ p, waiting st !! ptx_hash u = Some p ∧
    u = mark_set {[marker_of acct (ptx_hash cur)]} p ∧
    PendingPoolTransaction.is_ready u = true.
Proof.
  rewrite (us_unlocked _ _ _ _ Hunl). split.
  - intros (h & p & Hp & -> & Hr). exists p. split; [|done].
    rewrite mark_set_hash, (pw_hash _ (pl_pending _ (qw_pool _ _ Hq)) _ _ Hp). done.
  - intros (p & Hp & Heq & Hr). by exists (ptx_hash u), p.
Qed.

Lemma step_pool_wf : pool_wf st1.
Proof.
  pose proof (qw_pool _ _ Hq) as Hwf. split; [done|apply cur_ready_wf|..].
  - intros x [p' (p & Hp & _)%still_waiting]. apply accept_absent.
    + apply (pl_disjoint _ Hwf). by eexists.
    + intros ->. destruct (qw_absent _ _ Hq _ cur_in). congruence.
  - intros x p' (p & Hp & -> & _)%still_waiting.
    destruct (pl_acct _ Hwf _ _ Hp). split; [done|]. simpl. set_solver.
  - intros x p' m (p & Hp & -> & _)%still_waiting Hm. simpl in Hm.
    apply elem_of_difference in Hm as [Hm Hne]. simpl.
    rewrite accept_provided, lookup_insert_ne by set_solver.
    by apply (pl_missing _ Hwf x p).
Qed.

Lemma step_unlocked u :
  u ∈ unlocked → follows acct (ptx_hash cur) (ptx_hash u) ∧
    PoolTransaction.requires (ptx_tx u) ≠ [].
Proof.
  intros (p & Hp & -> & Hr)%was_waiting. rewrite mark_set_hash in *.
  apply (unlocked_follows st (ptx_hash cur) p); [apply Hq| |done|done].
  apply (qw_acct _ _ Hq _ cur_in).
Qed.

Lemma step_queue_wf : queue_wf st1 (q ++ unlocked).
Proof.
  pose proof (qw_pool _ _ Hq) as Hwf.
  destruct (qw_absent _ _ Hq _ cur_in) as [Hcw Hcr].
  pose proof (qw_nodup _ _ Hq) as Hnd. rewrite fmap_cons in Hnd.
  apply NoDup_cons in Hnd as [Hnin Hnd].
  split; [apply step_pool_wf|..].
  - intros p [?|Hu]%elem_of_app; [apply (qw_ready _ _ Hq); by right|].
    by apply was_waiting in Hu as (? & _ & _ & ?).
  - intros p [?|Hu]%elem_of_app; [apply (qw_acct _ _ Hq); by right|].
    apply was_waiting in Hu as (p0 & Hp0 & -> & _). by destruct (pl_acct _ Hwf _ _ Hp0).
  - intros p [Hp|Hu]%elem_of_app.
    + destruct (qw_absent _ _ Hq p) as [Hw Hr]; [by right|]. split.
      * apply eq_None_not_Some. intros [p' (p0 & ? & _)%still_waiting]. congruence.
      * apply accept_absent; [done|]. intros Heq. apply Hnin. rewrite <- Heq.
        by apply list_elem_of_fmap_2.
    + apply was_waiting in Hu as (p0 & Hp0 & Heq & Hr). split.
      * apply eq_None_not_Some. intros [p' (p1 & Hp1 & -> & Hne)%still_waiting].
        apply is_ready_true in Hr. congruence.
      * apply accept_absent; [apply (pl_disjoint _ Hwf); by eexists|]. congruence.
  - rewrite fmap_app. apply NoDup_app. split_and!; [done| |apply Hunl].
    intros h (p & -> & Hp)%list_elem_of_fmap (u & Heq & Hu)%list_elem_of_fmap.
    apply was_waiting in Hu as (p0 & Hp0 & _). rewrite <- Heq in Hp0.
    destruct (qw_absent _ _ Hq p) as [Hw _]; [by right|]. congruence.
Qed.

(** What [cur] replaces: the ready transaction with the same sender and
    nonce. *)
Lemma step_replaced rg :
  old_ready acct rdy (ptx_tx cur) = Some rg →
  pool_has st (rtx_tx rg) ∧ readies st !! tx_hash (rtx_tx rg) = Some rg ∧
  absent st1 (tx_hash (rtx_tx rg)) ∧
  acct (tx_hash (rtx_tx rg)) = acct (ptx_hash cur) ∧ tx_hash (rtx_tx rg) ≠ ptx_hash cur.
Proof.
  pose proof (qw_pool _ _ Hq) as Hwf. pose proof (pl_ready _ Hwf) as Hrw.
  intros (g & Hold & Hg)%bind_Some. rewrite (rw_hash _ _ _ Hrw _ _ Hg).
  pose proof Hold as [_ Hm]%(rw_provided _ _ _ Hrw).
  destruct (qw_absent _ _ Hq _ cur_in) as [_ Hcr].
  assert (g ≠ tx_hash (ptx_tx cur)) as Hne.
  { intros ->. unfold PendingPoolTransaction.hash in Hcr. congruence. }
  split_and!; [right; by exists g, rg|done| | |done].
  - split.
    + apply eq_None_not_Some. intros [p' (p & Hp & _)%still_waiting].
      rewrite (pl_disjoint _ Hwf g) in Hg; [done|by eexists].
    + simpl. by rewrite accept_lookup, decide_False, decide_True.
  - pose proof (rw_nonce _ Hrw _ _ Hg). pose proof (qw_acct _ _ Hq _ cur_in) as (Hn & _).
    apply to_marker_inj in Hm as [H1 H2]; [|done..].
    symmetry. by apply injective_projections.
Qed.

(** Nothing gets lost and nothing is made up in a round. *)
Lemma step_held tx :
  held st (cur :: q) tx ↔ held st1 (q ++ unlocked) tx ∨
    rtx_tx <$> old_ready acct rdy (ptx_tx cur) = Some tx.
Proof.
  pose proof (qw_pool _ _ Hq) as Hwf. pose proof (pl_ready _ Hwf) as Hrw.
  destruct (qw_absent _ _ Hq _ cur_in) as [Hcw Hcr].
  pose proof (qw_acct _ _ Hq _ cur_in) as Hca.
  split.
  - intros [[(h & p & Hp & <-)|(h & r & Hr & <-)]|(p & [->|Hp]%elem_of_cons & <-)].
    + left. destruct (PendingPoolTransaction.is_ready
        (mark_set {[marker_of acct (ptx_hash cur)]} p)) eqn:Hrd.
      * right. exists (mark_set {[marker_of acct (ptx_hash cur)]} p). split; [|done].
        apply elem_of_app. right. apply was_waiting. exists p.
        rewrite mark_set_hash, (pw_hash _ (pl_pending _ Hwf) _ _ Hp). done.
      * left. left. exists h, (mark_set {[marker_of acct (ptx_hash cur)]} p). split; [|done].
        apply still_waiting. exists p. apply is_ready_false in Hrd. done.
    + destruct (decide (old_of acct rdy (ptx_tx cur) = Some h)) as [Hold|Hold].
      * right. unfold old_ready. rewrite Hold. simpl. by rewrite Hr.
      * destruct (accept_keeps _ _ _ Hrw Hca Hcr _ _ Hr Hold) as (r' & Hr' & Href & _).
        left. left. right. exists h, r'. split; [done|]. unfold rtx_tx. by rewrite Href.
    + left. left. right. exists (ptx_hash cur), (new_ready acct rdy (ptx_tx cur)). split; [|done].
      simpl. rewrite accept_lookup, decide_True by first [apply Hrw|done]. done.
    + left. right. exists p. split; [|done]. apply elem_of_app. by left.
  - intros [[[(h & p' & (p & Hp & -> & _)%still_waiting & <-)|(h & r & Hr & <-)]|
        (p & [Hp|Hp]%elem_of_app & <-)]|Hold].
    + left. left. by exists h, p.
    + destruct (decide (h = ptx_hash cur)) as [->|Hne].
      * simpl in Hr. rewrite accept_lookup, decide_True in Hr by first [apply Hrw|done].
        injection Hr as <-. right. exists cur. split; [by left|done].
      * destruct (accept_origin _ _ _ Hrw Hca Hcr _ _ Hne Hr) as (r0 & Hr0 & _ & Href & _).
        left. right. exists h, r0. split; [done|]. unfold rtx_tx. by rewrite Href.
    + right. exists p. split; [by right|done].
    + apply was_waiting in Hp as (p0 & Hp0 & -> & _). left. left. by exists (ptx_hash p0), p0.
    + apply fmap_Some in Hold as (rg & Hrg & ->). left. by apply step_replaced in Hrg as [? _].
Qed.

Lemma step_ready h :
  (h = ptx_hash cur ∨ is_Some (readies st !! h)) →
  is_Some (readies st1 !! h) ∨
  ∃ rg, old_ready acct rdy (ptx_tx cur) = Some rg ∧ tx_hash (rtx_tx rg) = h.
Proof.
  pose proof (pl_ready _ (qw_pool _ _ Hq)) as Hrw.
  destruct (qw_absent _ _ Hq _ cur_in) as [_ Hcr].
  intros [->|[r Hr]].
  { left. simpl. rewrite accept_lookup, decide_True by done. by eexists. }
  destruct (decide (old_of acct rdy (ptx_tx cur) = Some h)) as [Hold|Hold].
  - right. exists r. split; [|exact (rw_hash _ _ _ Hrw _ _ Hr)].
    unfold old_ready. by rewrite Hold.
  - left. destruct (accept_keeps _ _ _ Hrw (qw_acct _ _ Hq _ cur_in) Hcr _ _ Hr Hold)
      as (r' & Hr' & _). by exists r'.
Qed.

Lemma step_ids :
  (used_ids st1 + Z.of_nat (length (q ++ unlocked)) =
   used_ids st + Z.of_nat (length (cur :: q)))%Z.
Proof.
  pose proof (qw_pool _ _ Hq) as Hwf.
  unfold used_ids. simpl. rewrite (accept_id acct) by first [apply Hwf|done].
  rewrite (unlock_size _ _ _ _ (pl_pending _ Hwf) Hunl), length_app. lia.
Qed.

Lemma step_clean :
  ready_clean rdy →
  (PoolTransaction.requires (ptx_tx cur) = [] → ∀ g, ¬ link rdy g (ptx_hash cur)) →
  ready_clean (accept acct rdy (ptx_tx cur)).
Proof.
  apply accept_clean; [apply Hq|apply (qw_acct _ _ Hq), cur_in|].
  apply (qw_absent _ _ Hq _ cur_in).
Qed.

Lemma step_links g h :
  link (accept acct rdy (ptx_tx cur)) g h → h = ptx_hash cur ∨ ∃ g', link rdy g' h.
Proof.
  pose proof (pl_ready _ (qw_pool _ _ Hq)) as Hrw.
  destruct (qw_absent _ _ Hq _ cur_in) as [_ Hcr].
  intros (rg & Hg & Hin). destruct (decide (g = ptx_hash cur)) as [->|Hne].
  - rewrite accept_lookup, decide_True in Hg by done. injection Hg as <-.
    apply new_ready_unlocks in Hin as (g & rg & _ & Hg & Hin); [|done..].
    right. exists g. by exists rg.
  - destruct (accept_origin _ _ _ Hrw (qw_acct _ _ Hq _ cur_in) Hcr _ _ Hne Hg)
      as (r0 & Hr0 & _ & _ & _ & Hun).
    apply Hun in Hin as [?|[-> _]]; [right; exists g; by exists r0|by left].
Qed.


(** *** The rest of the loop *)

Section rest.
Context (st' : PoolInner.t) (P : list TxHash) (D R : list PoolTransaction.t).
Context (Hls : loop_spec st1 (q ++ unlocked) st' P D R).

Definition replaced : list PoolTransaction.t :=
  option_list ((λ r, rtx_tx r) <$> old_ready acct rdy (ptx_tx cur)).

Lemma elem_of_replaced tx :
  tx ∈ replaced ↔ ∃ rg, old_ready acct rdy (ptx_tx cur) = Some rg ∧ rtx_tx rg = tx.
Proof.
  unfold replaced. destruct (old_ready _ _ _) as [rg|]; simpl.
  - rewrite list_elem_of_singleton. naive_solver.
  - rewrite elem_of_nil. naive_solver.
Qed.

Lemma rest_replaced_gone tx : tx ∈ replaced → absent st' (tx_hash tx).
Proof.
  intros (rg & (_ & Hr & Ha & _)%step_replaced & <-)%elem_of_replaced.
  apply (loop_absent _ _ _ _ _ _ _ step_queue_wf Hls Ha).
  intros (p & Heq & [Hp|Hp]%elem_of_app)%list_elem_of_fmap.
  - destruct (qw_absent _ _ Hq p) as [_ ?]; [by right|]. congruence.
  - apply was_waiting in Hp as (p0 & Hp0 & _). rewrite <- Heq in Hp0.
    rewrite (pl_disjoint _ (qw_pool _ _ Hq)) in Hr; [done|by eexists].
Qed.

Lemma rest_ready h :
  h ∈ ptx_hash cur :: P ∨ is_Some (readies st !! h) →
  is_Some (readies st' !! h) ∨ ∃ tx, tx ∈ replaced ++ R ∧ tx_hash tx = h.
Proof.
  intros Hor. setoid_rewrite elem_of_app. setoid_rewrite elem_of_replaced.
  assert (h ∈ P ∨ is_Some (readies st1 !! h) ∨
    ∃ rg, old_ready acct rdy (ptx_tx cur) = Some rg ∧ tx_hash (rtx_tx rg) = h)
    as [Hin|[Hin|(rg & ? & ?)]].
  { destruct Hor as [[->|?]%elem_of_cons|?]; [right|by left|right]; apply step_ready; auto. }
  - destruct (ls_ready _ _ _ _ _ _ Hls h) as [?|(tx & ? & ?)]; [by left|by left|].
    right. exists tx. auto.
  - destruct (ls_ready _ _ _ _ _ _ Hls h) as [?|(tx & ? & ?)]; [by right|by left|].
    right. exists tx. auto.
  - right. exists (rtx_tx rg). eauto.
Qed.

Lemma rest_later tx :
  tx ∈ replaced ++ R → ∃ p, p ∈ cur :: q ∧ tx_hash tx ≠ ptx_hash p ∧
    (acct (tx_hash tx)).2 = (acct (ptx_hash p)).2 ∧
    ((acct (ptx_hash p)).1 ≤ (acct (tx_hash tx)).1)%Z.
Proof.
  intros [(rg & (_ & _ & _ & Heq & Hne)%step_replaced & <-)%elem_of_replaced|Hin]%elem_of_app.
  { exists cur. rewrite Heq. split_and!; [by left|done|done|lia]. }
  destruct (ls_later _ _ _ _ _ _ Hls tx Hin) as (p & [Hp|Hp]%elem_of_app & Hne & Hs & Hle).
  { exists p. split; [by right|done]. }
  apply step_unlocked in Hp as [Hf _].
  unfold follows in Hf. rewrite Hf in Hs, Hle. simpl in Hs, Hle.
  exists cur. split_and!; [by left| |done|lia]. intros Heq. rewrite Heq in Hle. lia.
Qed.

Lemma loop_spec_accept : loop_spec st (cur :: q) st' (ptx_hash cur :: P) D (replaced ++ R).
Proof.
  split; [apply Hls| | |apply rest_ready|apply rest_later|..].
  - intros tx. rewrite step_held, (ls_held _ _ _ _ _ _ Hls).
    rewrite elem_of_app, elem_of_replaced, fmap_Some. naive_solver.
  - intros tx [?|[?|?]%elem_of_app];
      [apply (ls_gone _ _ _ _ _ _ Hls)|by apply rest_replaced_gone|
       apply (ls_gone _ _ _ _ _ _ Hls)]; auto.
  - pose proof step_ids. pose proof (ls_ids _ _ _ _ _ _ Hls). lia.
  - intros Hcl Hreq. apply Hls.
    + apply (step_clean Hcl). intros ?. exfalso. by apply (Hreq cur); [left|].
    + intros p [?|[_ ?]%step_unlocked]%elem_of_app; [apply Hreq; by right|done].
  - intros g h Hl. destruct (ls_links _ _ _ _ _ _ Hls g h Hl) as [(g' & Hl')|(tx & Ht & <-)].
    + apply step_links in Hl' as [->|?]; [|by left].
      right. exists (ptx_tx cur). split; [|done]. right. exists cur. by split; [left|].
    + right. exists tx. split; [|done]. apply step_held. by left.
Qed.

End rest.
End step.

Lemma loop_spec_discard st cur q st' P D R :
  queue_wf st (cur :: q) → loop_spec st q st' P D R →
  loop_spec st (cur :: q) st' P (ptx_tx cur :: D) R.
Proof.
  intros Hq Hls.
  assert (∀ tx, held st (cur :: q) tx ↔ tx = ptx_tx cur ∨ held st q tx) as Hheld.
  { intros tx. unfold held. setoid_rewrite elem_of_cons. naive_solver. }
  assert (queue_wf st q) as Hq1.
  { destruct Hq as [? Hr Ha Hb [_ Hnd]%NoDup_cons]. split; [done|..|done];
      intros p Hp; [apply Hr|apply Ha|apply Hb]; by right. }
  destruct Hls as [Hwf Hh Hgone Hrd Hlt Hids Hcl Hlk] eqn:Hls'. split; [done|..].
  - intros tx. rewrite Hheld, Hh, elem_of_cons. tauto.
  - intros tx [[->|?]%elem_of_cons|?]; [|by auto..].
    apply (loop_absent st q st' P D R); [done|by split|..].
    + apply (qw_absent _ _ Hq). by left.
    + pose proof (qw_nodup _ _ Hq) as Hnd. rewrite fmap_cons in Hnd. by apply NoDup_cons in Hnd as [? _].
  - done.
  - intros tx (p & Hp & ?)%Hlt. exists p. split; [by right|done].
  - simpl. lia.
  - intros ? Hreq. apply Hcl; [done|]. intros p Hp. apply Hreq. by right.
  - intros g h [?|(tx & Ht & <-)]%Hlk; [by left|]. right. exists tx. rewrite Hheld. auto.
Qed.

(** [tx] is rejected: a ready transaction with its sender and nonce pays at
    least as much. *)
Definition underpriced (st : PoolInner.t) (tx : PoolTransaction.t) : bool :=
  match old_ready acct (PoolInner.ready_transactions st) tx with
  | Some rg => (PoolTransaction.gas_price tx <=? ReadyTransaction.gas_price rg)%Z
  | None => false
  end.

Lemma round_eq st cur q :
  queue_wf st (cur :: q) →
  ∃ pend unlocked,
    PendingTransactions.mark_and_unlock (PoolInner.pending_transactions st)
      (PoolTransaction.provides (ptx_tx cur)) = Some (pend, unlocked) ∧
    pending_wf pend ∧
    unlock_spec {[marker_of acct (ptx_hash cur)]} (PoolInner.pending_transactions st)
      pend unlocked ∧
    ReadyTransactions.add_transaction (PoolInner.ready_transactions st) cur =
      (if underpriced st (ptx_tx cur) then
         Some (PoolInner.ready_transactions st, Err (ReplacementUnderpriced (ptx_tx cur)))
       else Some (accept acct (PoolInner.ready_transactions st) (ptx_tx cur),
                  Ok (replaced st cur))) ∧
    (underpriced st (ptx_tx cur) = true →
      pend = PoolInner.pending_transactions st ∧ unlocked = []).
Proof.
  intros Hq. pose proof (qw_pool _ _ Hq) as Hwf. pose proof (cur_in cur q) as Hin.
  pose proof (qw_acct _ _ Hq _ Hin) as Hacc. pose proof Hacc as (_ & Hprov & _).
  destruct (mark_and_unlock_spec (PoolTransaction.provides (ptx_tx cur)) _ (pl_pending _ Hwf))
    as (pend & unlocked & Heq & Hpw & Hus).
  exists pend, unlocked. split; [done|]. split; [done|].
  split_and!; [by rewrite Hprov, list_to_set_singleton_L in Hus|..].
  - rewrite (ready_add_eq acct); [|apply Hwf|done|by apply (qw_ready _ _ Hq)|
      apply (qw_absent _ _ Hq _ Hin)].
    unfold underpriced, replaced. by destruct (old_ready _ _ _) as [rg|].
  - unfold underpriced, old_ready. destruct (old_of _ _ _) as [g|] eqn:Hold; [|done].
    intros _. rewrite Hprov in Heq. unfold PendingTransactions.mark_and_unlock in Heq.
    simpl in Heq. rewrite (not_required st) in Heq; [|done|by eexists]. by simplify_eq.
Qed.

Lemma add_ready_round fuel st cur q is_new out :
  queue_wf st (cur :: q) →
  ∃ pend unlocked, pending_wf pend ∧
    unlock_spec {[marker_of acct (ptx_hash cur)]} (PoolInner.pending_transactions st)
      pend unlocked ∧
    PoolInner.add_ready_loop (S fuel) st (cur :: q) is_new out =
      if underpriced st (ptx_tx cur) then
        if is_new : bool then Some (st, Err (ReplacementUnderpriced (ptx_tx cur)))
        else PoolInner.add_ready_loop fuel st q false
          (ReadyOutcome.mk (ReadyOutcome.hash out) (ReadyOutcome.promoted out)
            (ReadyOutcome.discarded out ++ [ptx_hash cur]) (ReadyOutcome.removed out))
      else PoolInner.add_ready_loop fuel
        (PoolInner.mk (accept acct (PoolInner.ready_transactions st) (ptx_tx cur)) pend)
        (q ++ unlocked) false
        (ReadyOutcome.mk (ReadyOutcome.hash out)
          (if is_new then ReadyOutcome.promoted out
           else ReadyOutcome.promoted out ++ [ptx_hash cur])
          (ReadyOutcome.discarded out) (ReadyOutcome.removed out ++ replaced st cur)).
Proof.
  intros Hq. destruct (round_eq _ _ _ Hq) as (pend & unlocked & Heq & Hp & Hu & Hadd & Hsame).
  exists pend, unlocked. split_and!; [done..|]. cbn [PoolInner.add_ready_loop].
  rewrite Heq. cbn [mbind option_bind]. rewrite Hadd.
  destruct (underpriced st (ptx_tx cur)); [|done]. cbn [mbind option_bind].
  destruct Hsame as [-> ->]; [done|]. rewrite app_nil_r. by destruct st.
Qed.

Lemma queue_wf_tail st p q : queue_wf st (p :: q) → queue_wf st q.
Proof.
  intros [? Hr Ha Hb [_ Hnd]%NoDup_cons].
  split; [done|..|done]; intros p' Hp; [apply Hr|apply Ha|apply Hb]; by right.
Qed.

Lemma add_ready_loop_spec fuel st q out :
  queue_wf st q → (used_ids st + Z.of_nat (length q) ≤ u64_max)%Z →
  length q + size (waiting st) < fuel →
  ∃ st' P D R,
    PoolInner.add_ready_loop fuel st q false out = Some (st', Ok (ReadyOutcome.mk
      (ReadyOutcome.hash out) (ReadyOutcome.promoted out ++ P)
      (ReadyOutcome.discarded out ++ (tx_hash <$> D)) (ReadyOutcome.removed out ++ R))) ∧
    loop_spec st q st' P D R.
Proof.
  revert st q out. induction fuel as [|fuel IH]; intros st q out Hq Hids Hlt; [lia|].
  destruct q as [|cur q].
  { exists st, [], [], []. rewrite !app_nil_r. destruct out. split; [done|].
    apply loop_spec_nil, Hq. }
  assert (ReadyTransactions.id (PoolInner.ready_transactions st) < u64_max)%Z as Hid.
  { unfold used_ids in Hids. simpl in Hids. lia. }
  destruct (add_ready_round fuel _ _ _ false out Hq) as (pend & unlocked & Hpend & Hunl & ->).
  simpl in Hlt, Hids. destruct (underpriced st (ptx_tx cur)).
  - edestruct (IH st q) as (st' & P & D & R & -> & Hls); [by eapply queue_wf_tail|lia|lia|].
    exists st', P, (ptx_tx cur :: D), R. simpl. rewrite <- app_assoc. split; [done|].
    by apply loop_spec_discard.
  - pose proof (step_queue_wf _ _ _ Hq Hid _ _ Hpend Hunl) as Hq1.
    pose proof (step_ids _ _ _ Hq Hid _ _ Hunl) as Hids1. simpl in Hids1.
    pose proof (unlock_size _ _ _ _ (pl_pending _ (qw_pool _ _ Hq)) Hunl) as Hsz.
    edestruct (IH (PoolInner.mk (accept acct (PoolInner.ready_transactions st) (ptx_tx cur))
      pend) (q ++ unlocked)) as (st' & P & D & R & -> & Hls); [exact Hq1|lia| |].
    { rewrite length_app. simpl. lia. }
    exists st', (ptx_hash cur :: P), D, (replaced st cur ++ R). simpl.
    rewrite <- !app_assoc. split; [done|]. by eapply loop_spec_accept.
Qed.

(** ** The effect of an operation *)

(** From [st] to [st'] the transactions [added] entered the pool and the
    transactions [gone] left it. *)
Record pool_step (st st' : PoolInner.t) (added gone : list PoolTransaction.t) : Prop := {
  st_wf : pool_wf st';
  st_held tx : pool_has st tx ∨ tx ∈ added ↔ pool_has st' tx ∨ tx ∈ gone;
  st_gone tx : tx ∈ gone → absent st' (tx_hash tx);
  st_ids : (used_ids st' ≤ used_ids st + Z.of_nat (length added))%Z;
  st_links g h : link (PoolInner.ready_transactions st') g h →
    (∃ g', link (PoolInner.ready_transactions st) g' h) ∨
    ∃ tx, (pool_has st tx ∨ tx ∈ added) ∧ tx_hash tx = h;
  st_clean : ready_clean (PoolInner.ready_transactions st) →
    (∀ tx g, tx ∈ added → PoolTransaction.requires tx = [] →
      ¬ link (PoolInner.ready_transactions st) g (tx_hash tx)) →
    ready_clean (PoolInner.ready_transactions st');
  st_ready h : is_Some (readies st !! h) →
    is_Some (readies st' !! h) ∨ ∃ tx, tx ∈ gone ∧ tx_hash tx = h;
}.

Lemma pool_step_id st : pool_wf st → pool_step st st [] [].
Proof.
  intros Hwf. split; [done|done|..].
  - by intros tx ?%elem_of_nil.
  - simpl. lia.
  - intros g h ?. left. by exists g.
  - done.
  - by left.
Qed.

(** A transaction that is rejected leaves the pool as it is. *)
Lemma pool_step_reject st tx : pool_wf st → absent st (tx_hash tx) → pool_step st st [tx] [tx].
Proof.
  intros Hwf Ha. split; [done|done|..].
  - by intros tx' ->%list_elem_of_singleton.
  - simpl. lia.
  - intros g h ?. left. by exists g.
  - done.
  - by left.
Qed.

Lemma pool_step_trans st st1 st2 A1 A2 G1 G2 :
  pool_step st st1 A1 G1 → pool_step st1 st2 A2 G2 →
  (∀ tx, tx ∈ A2 → absent st (tx_hash tx) ∧ (tx_hash tx ∉ tx_hash <$> A1) ∧
    PoolTransaction.requires tx ≠ []) → pool_wf st →
  pool_step st st2 (A1 ++ A2) (G1 ++ G2).
Proof.
  intros H1 H2 HA2 Hwf. split; [apply H2|..].
  - intros tx. rewrite !elem_of_app. pose proof (st_held _ _ _ _ H1 tx).
    pose proof (st_held _ _ _ _ H2 tx). tauto.
  - intros tx [Hg|Hg]%elem_of_app; [|by apply (st_gone _ _ _ _ H2)].
    apply absent_intro; [apply H2|]. intros tx' Hin Heq.
    destruct (proj2 (st_held _ _ _ _ H2 tx')) as [Hin1|Hin2]; [by left|..].
    + apply (pool_has_not_absent _ _ (st_wf _ _ _ _ H1) Hin1). rewrite Heq.
      by apply (st_gone _ _ _ _ H1).
    + apply HA2 in Hin2 as (Ha & Hn & _). rewrite Heq in Ha, Hn.
      destruct (proj2 (st_held _ _ _ _ H1 tx)) as [?|?]; [by right|..].
      * by apply (pool_has_not_absent st tx).
      * apply Hn, list_elem_of_fmap. by exists tx.
  - rewrite length_app. pose proof (st_ids _ _ _ _ H1). pose proof (st_ids _ _ _ _ H2). lia.
  - intros g h Hl. setoid_rewrite elem_of_app.
    destruct (st_links _ _ _ _ H2 g h Hl) as [(g' & Hl')|(tx & [Hin|Hin] & <-)].
    + destruct (st_links _ _ _ _ H1 g' h Hl') as [?|(tx & ? & ?)]; [by left|].
      right. exists tx. tauto.
    + right. exists tx. pose proof (st_held _ _ _ _ H1 tx). tauto.
    + right. exists tx. tauto.
  - intros Hcl Hfree. apply H2; [apply H1; [done|]|].
    + intros tx g ?. apply Hfree, elem_of_app. by left.
    + intros tx g (_ & _ & ?)%HA2. done.
  - intros h [[?|(tx & ? & ?)]%(st_ready _ _ _ _ H2)|(tx & ? & ?)]%(st_ready _ _ _ _ H1);
      [by left|..]; right; exists tx; rewrite elem_of_app; auto.
Qed.

(** ** add_ready_transaction *)

(** What the caller is told about the transactions that left the pool. *)
Definition reported (o : ReadyOutcome.t) (gone : list PoolTransaction.t) : Prop :=
  ∃ D, gone = D ++ ReadyOutcome.removed o ∧ ReadyOutcome.discarded o = tx_hash <$> D.

Lemma loop_pool_step st ptx st' P D R :
  loop_spec st [ptx] st' P D R →
  (ready_clean (PoolInner.ready_transactions st) →
    (PoolTransaction.requires (ptx_tx ptx) = [] →
      ∀ g, ¬ link (PoolInner.ready_transactions st) g (ptx_hash ptx)) →
    ready_clean (PoolInner.ready_transactions st')) →
  pool_step st st' [ptx_tx ptx] (D ++ R).
Proof.
  intros Hls Hclean.
  assert (∀ tx, held st [ptx] tx ↔ pool_has st tx ∨ tx ∈ [ptx_tx ptx]) as Hheld.
  { intros tx. unfold held. setoid_rewrite list_elem_of_singleton. naive_solver. }
  split; [apply Hls|..].
  - intros tx. rewrite <- Hheld, (ls_held _ _ _ _ _ _ Hls), elem_of_app. done.
  - intros tx. rewrite elem_of_app. apply Hls.
  - apply Hls.
  - intros g h Hl. setoid_rewrite <- Hheld. by apply (ls_links _ _ _ _ _ _ Hls g).
  - intros Hcl Hfree. apply Hclean; [done|]. intros Hreq g.
    apply (Hfree (ptx_tx ptx)); [by left|done].
  - intros h Hs. destruct (ls_ready _ _ _ _ _ _ Hls h) as [?|(tx & ? & ?)]; [by right|by left|].
    right. exists tx. rewrite elem_of_app. auto.
Qed.

Lemma add_ready_transaction_spec st ptx :
  queue_wf st [ptx] → (used_ids st < u64_max)%Z →
  if underpriced st (ptx_tx ptx) then
    PoolInner.add_ready_transaction st ptx =
      Some (st, Err (ReplacementUnderpriced (ptx_tx ptx)))
  else
    ∃ st' o gone, PoolInner.add_ready_transaction st ptx = Some (st', Ok (Ready o)) ∧
      ReadyOutcome.hash o = ptx_hash ptx ∧ is_Some (readies st' !! ptx_hash ptx) ∧
      reported o gone ∧ pool_step st st' [ptx_tx ptx] gone ∧
      (∀ h, h ∈ ReadyOutcome.promoted o → is_Some (readies st' !! h) ∨
        ∃ tx, tx ∈ ReadyOutcome.removed o ∧ tx_hash tx = h) ∧
      (∀ tx, tx ∈ ReadyOutcome.removed o →
        (acct (tx_hash tx)).2 = (acct (ptx_hash ptx)).2 ∧
        ((acct (ptx_hash ptx)).1 ≤ (acct (tx_hash tx)).1)%Z) ∧
      (∀ h, is_Some (readies st !! h) → is_Some (readies st' !! h) ∨
        ∃ tx, tx ∈ ReadyOutcome.removed o ∧ tx_hash tx = h).
Proof.
  intros Hq Hids. unfold PoolInner.add_ready_transaction, PendingTransactions.len.
  assert (ReadyTransactions.id (PoolInner.ready_transactions st) < u64_max)%Z as Hid.
  { unfold used_ids in Hids. lia. }
  destruct (add_ready_round (S (size (waiting st))) _ _ _ true
    (ReadyOutcome.new (ptx_hash ptx)) Hq) as (pend & unlocked & Hpend & Hunl & Heq).
  change (2 + size (waiting st)) with (S (S (size (waiting st)))). rewrite Heq.
  destruct (underpriced st (ptx_tx ptx)); [done|].
  pose proof (step_queue_wf _ _ _ Hq Hid _ _ Hpend Hunl) as Hq1.
  pose proof (step_ids _ _ _ Hq Hid _ _ Hunl) as Hids1. simpl in Hids1.
  pose proof (unlock_size _ _ _ _ (pl_pending _ (qw_pool _ _ Hq)) Hunl) as Hsz.
  edestruct (add_ready_loop_spec (S (size (waiting st)))
    (PoolInner.mk (accept acct (PoolInner.ready_transactions st) (ptx_tx ptx)) pend)
    ([] ++ unlocked)) as (st' & P & D & R & -> & Hls); [exact Hq1|simpl; lia|simpl; lia|].
  pose proof (loop_spec_accept _ _ _ Hq Hid _ _ Hpend Hunl _ _ _ _ Hls) as Hfull.
  cbn [mbind option_bind]. simpl.
  assert (existsb (λ tx, (tx_hash tx =? ptx_hash ptx)%Z) (replaced st ptx ++ R) = false) as ->.
  { apply not_true_is_false. rewrite existsb_exists. intros (tx & Hin & He%Z.eqb_eq).
    apply list_elem_of_In, (ls_later _ _ _ _ _ _ Hfull) in Hin as (p & Hp & Hne & _).
    by apply list_elem_of_singleton in Hp as ->. }
  eexists _, _, (D ++ (replaced st ptx ++ R)). split; [done|]. simpl.
  assert (∀ tx, tx ∈ replaced st ptx ++ R → tx_hash tx ≠ ptx_hash ptx ∧
    (acct (tx_hash tx)).2 = (acct (ptx_hash ptx)).2 ∧
    ((acct (ptx_hash ptx)).1 ≤ (acct (tx_hash tx)).1)%Z) as Hlater.
  { intros tx (p & ->%list_elem_of_singleton & ?)%(ls_later _ _ _ _ _ _ Hfull). done. }
  split_and!; [done| |by exists D| | | |].
  - destruct (ls_ready _ _ _ _ _ _ Hfull (ptx_hash ptx)) as [?|(tx & Hin & He)];
      [left; by left|done|]. by apply Hlater in Hin as [? _].
  - apply (loop_pool_step _ _ _ _ _ _ Hfull). intros Hcl Hfree.
    apply Hls; [by apply (step_clean _ _ _ Hq Hcl)|].
    intros p [_ ?]%(step_unlocked _ _ _ Hq _ _ Hunl). done.
  - intros h Hin. apply (ls_ready _ _ _ _ _ _ Hfull). left. by right.
  - intros tx [_ ?]%Hlater. done.
  - intros h Hin. apply (ls_ready _ _ _ _ _ _ Hfull). by right.
Qed.

End order.

End account.
