(* ===== verification/PoolOps.v ===== *)
(** The effect of every operation of the pool on the transactions in it, for
    the operations of anvil/src/eth/pool/mod.rs. *)
From S2P Require Import Prelude Transaction PoolTx PendingQueue ReadyQueue ReadyInv ReadyIter Pool PoolInv.

Section account.
Context (acct : TxHash → Z * Address) `{HashOrder}.
Implicit Types st : PoolInner.t.

Lemma contains_absent st h :
  PoolInner.contains st h = false ↔ absent st h.
Proof.
  unfold PoolInner.contains, absent, PendingTransactions.contains, ReadyTransactions.contains.
  rewrite orb_false_iff, !bool_decide_eq_false, !eq_None_not_Some. done.
Qed.

(** ** add_transaction *)

Section add.
Context (st : PoolInner.t) (now : Z) (tx : PoolTransaction.t).
Context (Hwf : pool_wf acct st) (Hacc : account_tx acct tx).
Context (Hnew : absent st (tx_hash tx)).

Abbreviation ptx := (PendingPoolTransaction.new now tx (provided st)).

Lemma new_missing m :
  m ∈ ptx_missing ptx ↔ m ∈ PoolTransaction.requires tx ∧ provided st !! m = None.
Proof.
  simpl. rewrite elem_of_list_to_set, list_elem_of_filter. tauto.
Qed.

Lemma new_queue_wf : PendingPoolTransaction.is_ready ptx = true → queue_wf acct st [ptx].
Proof.
  intros Hr. split; [done|..]; try (intros p ->%list_elem_of_singleton; done).
  apply NoDup_singleton.
Qed.

Lemma add_pending_step :
  PendingPoolTransaction.is_ready ptx = false →
  let st' := PoolInner.mk (PoolInner.ready_transactions st)
    (push (PoolInner.pending_transactions st) ptx) in
  pool_step acct st st' [tx] [].
Proof.
  intros Hr st'. destruct Hnew as [Hw Hn].
  assert (∀ h p, waiting st' !! h = Some p ↔
    (h = tx_hash tx ∧ p = ptx) ∨ (h ≠ tx_hash tx ∧ waiting st !! h = Some p)) as Hlook.
  { intros h p. simpl. rewrite lookup_insert_Some. change (ptx_hash ptx) with (tx_hash tx).
    naive_solver. }
  assert (pool_wf acct st') as Hwf'.
  { split.
    - apply pending_wf_push; [apply Hwf|done|]. by apply contains_false.
    - apply Hwf.
    - intros h [p [[-> _]|[_ Hp]]%Hlook]; [done|]. apply (pl_disjoint _ _ Hwf). by eexists.
    - intros h p [[-> ->]|[_ Hp]]%Hlook; [|by apply (pl_acct _ _ Hwf h)].
      split; [done|]. intros m [? _]%new_missing. by apply elem_of_list_to_set.
    - intros h p m [[-> ->]|[_ Hp]]%Hlook Hm; [by apply new_missing in Hm as [_ ?]|].
      by apply (pl_missing _ _ Hwf h p). }
  split; [done|..].
  - intros tx'. rewrite list_elem_of_singleton. unfold pool_has. setoid_rewrite Hlook. split.
    + intros [[(h & p & Hp & <-)|?]| ->]; [|by left; right|].
      * left. left. exists h, p. split; [|done]. right. split; [congruence|done].
      * left. left. exists (tx_hash tx), ptx. auto.
    + intros [[(h & p & [[-> ->]|[_ Hp]] & <-)|?]|[]%elem_of_nil]; [by right|..|by left; right].
      left. left. by exists h, p.
  - by intros tx' ?%elem_of_nil.
  - unfold used_ids. simpl. rewrite map_size_insert_None by done. lia.
  - intros g h ?. left. by exists g.
  - done.
  - by left.
Qed.

End add.

(** The outcome of [PoolInner::add_transaction]. *)
Definition add_outcome (st st' : PoolInner.t) (tx : PoolTransaction.t)
    (res : result AddedTransaction PoolError) : Prop :=
  match res with
  | Err (AlreadyImported tx') => tx' = tx ∧ st' = st ∧ ¬ absent st (tx_hash tx)
  | Err (ReplacementUnderpriced tx') => tx' = tx ∧ st' = st ∧ absent st (tx_hash tx)
  | Err CyclicTransaction => False
  | Ok (Pending h) =>
      h = tx_hash tx ∧ is_Some (waiting st' !! h) ∧ absent st h ∧ pool_step acct st st' [tx] []
  | Ok (Ready o) =>
      ReadyOutcome.hash o = tx_hash tx ∧ is_Some (readies st' !! tx_hash tx) ∧
      absent st (tx_hash tx) ∧
      (∃ gone, reported o gone ∧ pool_step acct st st' [tx] gone) ∧
      (∀ h, h ∈ ReadyOutcome.promoted o → is_Some (readies st' !! h) ∨
        ∃ tx', tx' ∈ ReadyOutcome.removed o ∧ tx_hash tx' = h)
  end.

Lemma add_transaction_spec st now tx :
  pool_wf acct st → account_tx acct tx → (used_ids st < u64_max)%Z →
  ∃ st' res, PoolInner.add_transaction now st tx = Some (st', res) ∧
    add_outcome st st' tx res.
Proof.
  intros Hwf Hacc Hids. unfold PoolInner.add_transaction.
  destruct (PoolInner.contains st (tx_hash tx)) eqn:Hc.
  { eexists _, _. split; [done|]. simpl. rewrite <- contains_absent. by rewrite Hc. }
  apply contains_absent in Hc.
  set (ptx := PendingPoolTransaction.new now tx (provided st)).
  destruct (PendingPoolTransaction.is_ready ptx) eqn:Hr.
  - pose proof (add_ready_transaction_spec acct st ptx (new_queue_wf _ now _ Hwf Hacc Hc Hr) Hids)
      as Hadd. destruct (underpriced acct st (ptx_tx ptx)).
    { rewrite Hadd. by eexists _, _. }
    destruct Hadd as (st' & o & gone & -> & Hh & Hrdy & Hrep & Hstep & Hprom & _).
    eexists _, _. split; [done|]. simpl. eauto 10.
  - destruct (pending_add_total (PoolInner.pending_transactions st) ptx Hr) as [Ha|Ha].
    { apply contains_false, Hc. }
    + rewrite Ha. simpl. eexists _, _. split; [done|]. split_and!; [done| |done|].
      * simpl. rewrite lookup_insert_eq. by eexists.
      * by apply add_pending_step.
    + rewrite Ha. simpl. eexists _, _. split; [done|]. simpl. by destruct st.
Qed.

(** ** Removal *)

(** The ready queue shrinks to [rdy'] without new links and the waiting queue
    to [pend']. *)
Lemma pool_step_shrink st rdy' pend' gone :
  pool_wf acct st → ready_wf acct rdy' → pending_wf pend' →
  let st' := PoolInner.mk rdy' pend' in
  (∀ h r', ReadyTransactions.ready_tx rdy' !! h = Some r' →
    readies st !! h = Some r') →
  (∀ h p, waiting st' !! h = Some p → waiting st !! h = Some p) →
  (∀ tx, tx ∈ gone ↔ (∃ h p, waiting st !! h = Some p ∧ waiting st' !! h = None ∧ tx = ptx_tx p) ∨
    (∃ h r, readies st !! h = Some r ∧ readies st' !! h = None ∧ tx = rtx_tx r)) →
  ReadyTransactions.id rdy' = ReadyTransactions.id (PoolInner.ready_transactions st) →
  (ready_clean (PoolInner.ready_transactions st) → ready_clean rdy') →
  pool_step acct st st' [] gone.
Proof.
  intros Hwf Hrw Hpw st' Hrsub Hwsub Hgone Hid Hcl.
  assert (pool_wf acct st') as Hwf'.
  { split; [done|done|..].
    - intros h [p Hp%Hwsub]. apply eq_None_not_Some. intros [r Hr%Hrsub].
      rewrite (pl_disjoint _ _ Hwf h) in Hr; [done|by eexists].
    - intros h p Hp%Hwsub. by apply (pl_acct _ _ Hwf h).
    - intros h p m Hp%Hwsub Hm. apply eq_None_not_Some. intros [g Hg].
      apply (provided_sub acct (PoolInner.ready_transactions st)) in Hg;
        [|apply Hwf|done|intros x [r Hr%Hrsub]; by eexists].
      by rewrite (pl_missing _ _ Hwf _ _ _ Hp Hm) in Hg. }
  split; [done|..].
  - intros tx. rewrite Hgone. split.
    + intros [[(h & p & Hp & <-)|(h & r & Hr & <-)]|[]%elem_of_nil].
      * destruct (waiting st' !! h) as [p'|] eqn:Hp'; [|right; left; by exists h, p].
        left. left. exists h, p'. split; [done|]. apply Hwsub in Hp'. congruence.
      * destruct (readies st' !! h) as [r'|] eqn:Hr'; [|right; right; by exists h, r].
        left. right. exists h, r'. split; [done|]. apply Hrsub in Hr'. congruence.
    + intros [[(h & p & Hp & <-)|(h & r & Hr & <-)]|[(h & p & Hp & _ & ->)|(h & r & Hr & _ & ->)]];
        left; [left; exists h, p|right; exists h, r|left; by exists h, p|right; by exists h, r];
        auto.
  - intros tx [(h & p & Hp & Hn & ->)|(h & r & Hr & Hn & ->)]%Hgone.
    + pose proof (pw_hash _ (pl_pending _ _ Hwf) _ _ Hp) as Heq.
      unfold PendingPoolTransaction.hash in Heq. subst h.
      split; [done|]. apply eq_None_not_Some. intros [r Hr%Hrsub].
      rewrite (pl_disjoint _ _ Hwf (tx_hash (ptx_tx p))) in Hr; [done|by eexists].
    + rewrite (rw_hash _ _ _ (pl_ready _ _ Hwf) _ _ Hr). split; [|done].
      apply eq_None_not_Some. intros [p Hp%Hwsub].
      rewrite (pl_disjoint _ _ Hwf h) in Hr; [done|by eexists].
  - unfold used_ids. simpl. rewrite Hid.
    assert (size (waiting st') ≤ size (waiting st)) as Hsz; [|simpl in Hsz; lia].
    rewrite <- !size_dom. apply subseteq_size. intros h. rewrite !elem_of_dom.
    intros [p Hp%Hwsub]. by eexists.
  - intros g h (rg & Hg%Hrsub & Hin). left. exists g. by exists rg.
  - auto.
  - intros h [r Hr]. destruct (readies st' !! h) eqn:Hn; [left; by eexists|right].
    exists (rtx_tx r). split; [|exact (rw_hash _ _ _ (pl_ready _ _ Hwf) _ _ Hr)].
    apply Hgone. right. by exists h, r.
Qed.

Lemma remove_hashes_spec st hs :
  pool_wf acct st →
  ∃ st' removed, PoolInner.remove_hashes st hs = Some (st', removed) ∧
    pool_step acct st st' [] removed ∧
    (∀ h, h ∈ hs → absent st' h) ∧
    (∀ tx, tx ∈ removed → ∃ h, h ∈ hs ∧ rtc (link (PoolInner.ready_transactions st)) h (tx_hash tx)).
Proof.
  intros Hwf. unfold PoolInner.remove_hashes.
  destruct (remove_with_markers_spec acct (PoolInner.ready_transactions st) hs (pl_ready _ _ Hwf))
    as (rdy & removed & -> & Hrw & Hrs). simpl.
  destruct (remove_spec (PoolInner.pending_transactions st) hs (pl_pending _ _ Hwf))
    as (Hpw & Hq & Hrm).
  destruct (PendingTransactions.remove _ hs) as [pend more]. simpl in *.
  eexists _, _. split; [done|]. split_and!.
  - apply pool_step_shrink; simpl; [done..| | | | |].
    + apply Hrs.
    + intros h p. rewrite Hq. by case_decide.
    + intros tx. rewrite elem_of_app, (rs_removed _ _ _ _ Hrs), Hrm. split.
      * intros [?|(h & p & Hin & Hp & ->)]; [by right|left].
        exists h, p. by rewrite Hq, decide_True.
      * intros [(h & p & Hp & Hn & ->)|?]; [right|by left].
        exists h, p. rewrite Hq in Hn. case_decide; [done|congruence].
    + apply Hrs.
    + by apply (removal_clean hs _ _ removed).
  - intros h Hin. split; simpl; [by rewrite Hq, decide_True|]. by apply (rs_gone _ _ _ _ Hrs).
  - intros tx [(h & r & Hr & Hn & ->)%(rs_removed _ _ _ _ Hrs)|(h & p & Hin & Hp & ->)%Hrm]%elem_of_app.
    + rewrite (rw_hash _ _ _ (pl_ready _ _ Hwf) _ _ Hr). apply (rs_reach _ _ _ _ Hrs); [by eexists|done].
    + exists h. split; [done|].
      pose proof (pw_hash _ (pl_pending _ _ Hwf) _ _ Hp) as Heq.
      unfold PendingPoolTransaction.hash in Heq. by rewrite Heq.
Qed.

(** ** prune_markers *)

(** The pool and the unlocked transactions after the markers [ms] were
    pruned; [gone] left the pool. *)
Record prune_loop_inv (ms : list TxMarker) (st : PoolInner.t)
    (imports : list PendingPoolTransaction.t) (st' : PoolInner.t)
    (imports' : list PendingPoolTransaction.t) (gone : list PoolTransaction.t) : Prop := {
  pi_queue : queue_wf acct st' imports';
  pi_held tx : held st imports tx ↔ held st' imports' tx ∨ tx ∈ gone;
  pi_gone tx : tx ∈ gone → absent st' (tx_hash tx) ∧ tx_hash tx ∉ ptx_hash <$> imports';
  pi_ids : (used_ids st' + Z.of_nat (length imports') =
            used_ids st + Z.of_nat (length imports))%Z;
  pi_requires p : p ∈ imports' → p ∈ imports ∨ PoolTransaction.requires (ptx_tx p) ≠ [];
  pi_ready h r' : readies st' !! h = Some r' →
    ∃ r, readies st !! h = Some r ∧ rtx_ref r' = rtx_ref r ∧
      ∀ y, y ∈ rtx_unlocks r' → y ∈ rtx_unlocks r;
  pi_clean : ready_clean (PoolInner.ready_transactions st) →
    ready_clean (PoolInner.ready_transactions st');
  pi_provided m : m ∈ ms → provided st' !! m = None;
  pi_ancestor h : is_Some (readies st !! h) → readies st' !! h = None →
    ∃ g, marker_of acct g ∈ ms ∧ (acct h).2 = (acct g).2 ∧ ((acct h).1 ≤ (acct g).1)%Z;
  pi_imports p : p ∈ imports' → p ∈ imports ∨
    ∃ m, m ∈ ms ∧ m ∈ PoolTransaction.requires (ptx_tx p);
  pi_waiting h : is_Some (waiting st' !! h) ∨ h ∈ ptx_hash <$> imports' →
    is_Some (waiting st !! h) ∨ h ∈ ptx_hash <$> imports;
}.

Lemma prune_loop_inv_nil st imports :
  queue_wf acct st imports → prune_loop_inv [] st imports st imports [].
Proof.
  intros Hq. split; try done.
  - intros tx. rewrite elem_of_nil. tauto.
  - by intros tx ?%elem_of_nil.
  - by left.
  - intros h r Hr. by exists r.
  - by intros m ?%elem_of_nil.
  - intros h [r Hr]. congruence.
  - by left.
Qed.

Section prune_round.
Context (st : PoolInner.t) (imports : list PendingPoolTransaction.t) (m : TxMarker).
Context (Hq : queue_wf acct st imports).
Context (pend : PendingTransactions.t) (unlocked : list PendingPoolTransaction.t).
Context (Hpend : pending_wf pend).
Context (Hunl : unlock_spec {[m]} (PoolInner.pending_transactions st) pend unlocked).
Context (rdy : ReadyTransactions.t) (gone : list PoolTransaction.t).
Context (Hrdy : ready_wf acct rdy).
Context (Hprune : prune_spec acct [m] (PoolInner.ready_transactions st) rdy gone).

Abbreviation st1 := (PoolInner.mk rdy pend).

Lemma pruned_waiting x p' :
  waiting st1 !! x = Some p' ↔ ∃ p, waiting st !! x = Some p ∧
    p' = mark_set {[m]} p ∧ ptx_missing p' ≠ ∅.
Proof.
  simpl. rewrite (us_queue _ _ _ _ Hunl), bind_Some. by setoid_rewrite remaining_Some.
Qed.

Lemma pruned_unlocks u :
  u ∈ unlocked ↔ ∃ p, waiting st !! ptx_hash u = Some p ∧ u = mark_set {[m]} p ∧
    PendingPoolTransaction.is_ready u = true.
Proof.
  rewrite (us_unlocked _ _ _ _ Hunl). split.
  - intros (h & p & Hp & -> & Hr). exists p. split; [|done].
    rewrite mark_set_hash, (pw_hash _ (pl_pending _ _ (qw_pool _ _ _ Hq)) _ _ Hp). done.
  - intros (p & Hp & Heq & Hr). by exists (ptx_hash u), p.
Qed.

Lemma pruned_absent x : readies st !! x = None → readies st1 !! x = None.
Proof.
  intros Hx. apply eq_None_not_Some. intros [r (r0 & Hr0 & _)%(ps_sub _ _ _ _ _ Hprune)].
  congruence.
Qed.

Lemma prune_round_wf : pool_wf acct st1.
Proof.
  pose proof (qw_pool _ _ _ Hq) as Hwf. split; [done|done|..].
  - intros x [p' (p & Hp & _)%pruned_waiting]. apply pruned_absent.
    apply (pl_disjoint _ _ Hwf). by eexists.
  - intros x p' (p & Hp & -> & _)%pruned_waiting.
    destruct (pl_acct _ _ Hwf _ _ Hp). split; [done|]. simpl. set_solver.
  - intros x p' m' (p & Hp & -> & _)%pruned_waiting [Hm _]%elem_of_difference.
    apply eq_None_not_Some. intros [g Hg].
    apply (provided_sub acct (PoolInner.ready_transactions st)) in Hg; [|apply Hwf|done|].
    + by rewrite (pl_missing _ _ Hwf _ _ _ Hp Hm) in Hg.
    + intros y [r (r0 & ? & _)%(ps_sub _ _ _ _ _ Hprune)]. by eexists.
Qed.

Lemma prune_round_queue : queue_wf acct st1 (imports ++ unlocked).
Proof.
  pose proof (qw_pool _ _ _ Hq) as Hwf. split; [apply prune_round_wf|..].
  - intros p [?|Hu]%elem_of_app; [by apply (qw_ready _ _ _ Hq)|].
    by apply pruned_unlocks in Hu as (? & _ & _ & ?).
  - intros p [?|Hu]%elem_of_app; [by apply (qw_acct _ _ _ Hq)|].
    apply pruned_unlocks in Hu as (p0 & Hp0 & -> & _). by destruct (pl_acct _ _ Hwf _ _ Hp0).
  - intros p [Hp|Hu]%elem_of_app.
    + destruct (qw_absent _ _ _ Hq p Hp) as [Hw Hr]. split; [|by apply pruned_absent].
      apply eq_None_not_Some. intros [p' (p0 & ? & _)%pruned_waiting]. congruence.
    + apply pruned_unlocks in Hu as (p0 & Hp0 & Heq & Hr). split.
      * apply eq_None_not_Some. intros [p' (p1 & Hp1 & -> & Hne)%pruned_waiting].
        apply is_ready_true in Hr. congruence.
      * apply pruned_absent, (pl_disjoint _ _ Hwf). by eexists.
  - rewrite fmap_app. apply NoDup_app. split_and!; [apply Hq| |apply Hunl].
    intros h (p & -> & Hp)%list_elem_of_fmap (u & Heq & Hu)%list_elem_of_fmap.
    apply pruned_unlocks in Hu as (p0 & Hp0 & _). rewrite <- Heq in Hp0.
    destruct (qw_absent _ _ _ Hq p Hp) as [Hw _]. congruence.
Qed.

Lemma prune_round_held tx :
  held st imports tx ↔ held st1 (imports ++ unlocked) tx ∨ tx ∈ gone.
Proof.
  pose proof (qw_pool _ _ _ Hq) as Hwf. rewrite (ps_removed _ _ _ _ _ Hprune). split.
  - intros [[(h & p & Hp & <-)|(h & r & Hr & <-)]|(p & Hp & <-)].
    + left. destruct (PendingPoolTransaction.is_ready (mark_set {[m]} p)) eqn:Hrd.
      * right. exists (mark_set {[m]} p). split; [|done].
        apply elem_of_app. right. apply pruned_unlocks. exists p.
        rewrite mark_set_hash, (pw_hash _ (pl_pending _ _ Hwf) _ _ Hp). done.
      * left. left. exists h, (mark_set {[m]} p). split; [|done].
        apply pruned_waiting. exists p. apply is_ready_false in Hrd. done.
    + destruct (readies st1 !! h) as [r'|] eqn:Hr'; [|right; by exists h, r].
      left. left. right. exists h, r'. split; [done|].
      apply (ps_sub _ _ _ _ _ Hprune) in Hr' as (r0 & Hr0 & Href & _).
      unfold rtx_tx. rewrite Href. congruence.
    + left. right. exists p. split; [|done]. apply elem_of_app. by left.
  - intros [[[(h & p' & (p & Hp & -> & _)%pruned_waiting & <-)|(h & r' & Hr' & <-)]|
        (p & [Hp|Hp]%elem_of_app & <-)]|(h & r & Hr & _ & ->)].
    + left. left. by exists h, p.
    + apply (ps_sub _ _ _ _ _ Hprune) in Hr' as (r & Hr & Href & _).
      left. right. exists h, r. split; [done|]. unfold rtx_tx. by rewrite Href.
    + right. by exists p.
    + apply pruned_unlocks in Hp as (p0 & Hp0 & -> & _). left. left. by exists (ptx_hash p0), p0.
    + left. right. by exists h, r.
Qed.

Lemma prune_round_import p :
  p ∈ unlocked → m ∈ PoolTransaction.requires (ptx_tx p).
Proof.
  pose proof (qw_pool _ _ _ Hq) as Hwf.
  intros (p0 & Hp0 & -> & Hr%mark_set_ready)%pruned_unlocks.
  destruct (pl_acct _ _ Hwf _ _ Hp0) as [_ Hsub].
  destruct (set_choose_L _ (pw_waiting _ (pl_pending _ _ Hwf) _ _ Hp0)) as [m' Hm'].
  simpl. set_solver.
Qed.

Lemma prune_round_gone tx :
  tx ∈ gone → absent st1 (tx_hash tx) ∧ tx_hash tx ∉ ptx_hash <$> (imports ++ unlocked).
Proof.
  pose proof (qw_pool _ _ _ Hq) as Hwf.
  intros (h & r & Hr & Hn & ->)%(ps_removed _ _ _ _ _ Hprune).
  rewrite (rw_hash _ _ _ (pl_ready _ _ Hwf) _ _ Hr). split.
  - split; [|done]. apply eq_None_not_Some. intros [p' (p & Hp & _)%pruned_waiting].
    rewrite (pl_disjoint _ _ Hwf h) in Hr; [done|by eexists].
  - intros (p & -> & [Hp|Hp]%elem_of_app)%list_elem_of_fmap.
    + destruct (qw_absent _ _ _ Hq p Hp). congruence.
    + apply pruned_unlocks in Hp as (p0 & Hp0 & _).
      rewrite (pl_disjoint _ _ Hwf) in Hr; [done|by eexists].
Qed.

Lemma prune_round_spec :
  (ready_clean (PoolInner.ready_transactions st) → ready_clean rdy) →
  prune_loop_inv [m] st imports st1 (imports ++ unlocked) gone.
Proof.
  intros Hcl. pose proof (qw_pool _ _ _ Hq) as Hwf.
  split; [apply prune_round_queue|apply prune_round_held|apply prune_round_gone|..].
  - unfold used_ids. simpl. rewrite (ps_id _ _ _ _ _ Hprune), length_app.
    rewrite (unlock_size _ _ _ _ (pl_pending _ _ Hwf) Hunl). lia.
  - intros p [?|Hp%prune_round_import]%elem_of_app; [by left|right].
    intros Heq. rewrite Heq in Hp. by apply elem_of_nil in Hp.
  - apply Hprune.
  - done.
  - apply Hprune.
  - intros h Hs Hn. destruct (ps_ancestor _ _ _ _ _ Hprune h Hs Hn) as (g & ? & _ & ?).
    by exists g.
  - intros p [?|Hp%prune_round_import]%elem_of_app; [by left|right].
    exists m. by split; [left|].
  - intros h [[p' (p & Hp & _)%pruned_waiting]|Hin]; [left; by eexists|].
    rewrite fmap_app in Hin. apply elem_of_app in Hin as [?|Hin]; [by right|left].
    apply list_elem_of_fmap in Hin as (u & -> & (p & Hp & _)%pruned_unlocks). by eexists.
Qed.

End prune_round.

Lemma prune_loop_inv_cons m ms st imports st1 imports1 st' imports' G1 G2 :
  queue_wf acct st imports →
  prune_loop_inv [m] st imports st1 imports1 G1 →
  prune_loop_inv ms st1 imports1 st' imports' G2 →
  prune_loop_inv (m :: ms) st imports st' imports' (G1 ++ G2).
Proof.
  intros Hq H1 H2. split; [apply H2|..].
  - intros tx. rewrite (pi_held _ _ _ _ _ _ H1), (pi_held _ _ _ _ _ _ H2), elem_of_app. tauto.
  - intros tx [Hg|Hg]%elem_of_app; [|by apply (pi_gone _ _ _ _ _ _ H2)].
    destruct (pi_gone _ _ _ _ _ _ H1 tx Hg) as [Ha Hn].
    assert (∀ tx', held st' imports' tx' → tx_hash tx' ≠ tx_hash tx) as Hno.
    { intros tx' Hh Heq. destruct (proj2 (pi_held _ _ _ _ _ _ H2 tx')) as [Hp|(p & Hp & <-)];
        [by left|..].
      - apply (pool_has_not_absent acct _ _ (qw_pool _ _ _ (pi_queue _ _ _ _ _ _ H1)) Hp).
        by rewrite Heq.
      - apply Hn, list_elem_of_fmap. by exists p. }
    split; [apply (absent_intro acct)|].
    + apply (qw_pool _ _ _ (pi_queue _ _ _ _ _ _ H2)).
    + intros tx' ?. apply Hno. by left.
    + intros (p & Heq & Hp)%list_elem_of_fmap. apply (Hno (ptx_tx p)); [|done].
      right. by exists p.
  - rewrite (pi_ids _ _ _ _ _ _ H2). apply H1.
  - intros p [Hp|?]%(pi_requires _ _ _ _ _ _ H2); [|by right]. by apply H1.
  - intros h r' (r1 & (r & Hr & Href & Hun)%(pi_ready _ _ _ _ _ _ H1) & Href1 & Hun1)
      %(pi_ready _ _ _ _ _ _ H2).
    exists r. split_and!; [done|congruence|auto].
  - intros. by apply H2, H1.
  - intros m' [->|?]%elem_of_cons; [|by apply H2]. apply eq_None_not_Some. intros [g Hg].
    pose proof (qw_pool _ _ _ (pi_queue _ _ _ _ _ _ H1)) as Hwf1.
    pose proof (qw_pool _ _ _ (pi_queue _ _ _ _ _ _ H2)) as Hwf2.
    apply (provided_sub acct (PoolInner.ready_transactions st1)) in Hg; [|apply Hwf1|apply Hwf2|].
    + rewrite (pi_provided _ _ _ _ _ _ H1) in Hg; [done|by left].
    + intros y [r (r0 & ? & _)%(pi_ready _ _ _ _ _ _ H2)]. by eexists.
  - intros h Hs Hn. destruct (readies st1 !! h) as [r1|] eqn:Hr1.
    + destruct (pi_ancestor _ _ _ _ _ _ H2 h) as (g & ? & ?); [by eexists|done|].
      exists g. by split; [right|].
    + destruct (pi_ancestor _ _ _ _ _ _ H1 h Hs Hr1) as (g & Hm%list_elem_of_singleton & ?).
      exists g. split; [rewrite Hm; by left|done].
  - intros p [[?|(m' & Hm & ?)]%(pi_imports _ _ _ _ _ _ H1)|(m' & ? & ?)]
      %(pi_imports _ _ _ _ _ _ H2); [by left|right; exists m'|right; exists m'].
    + apply list_elem_of_singleton in Hm as ->. by split; [left|].
    + by split; [right|].
  - intros h ?%(pi_waiting _ _ _ _ _ _ H2). by apply (pi_waiting _ _ _ _ _ _ H1).
Qed.

Lemma prune_markers_loop_spec ms st imports pruned :
  queue_wf acct st imports →
  ∃ st' imports' gone,
    PoolInner.prune_markers_loop st ms imports pruned = Some (st', imports', pruned ++ gone) ∧
    prune_loop_inv ms st imports st' imports' gone.
Proof.
  revert st imports pruned. induction ms as [|m ms IH]; intros st imports pruned Hq; simpl.
  { exists st, imports, []. rewrite app_nil_r. split; [done|]. by apply prune_loop_inv_nil. }
  pose proof (qw_pool _ _ _ Hq) as Hwf.
  destruct (mark_and_unlock_spec [m] _ (pl_pending _ _ Hwf)) as (pend & unl & -> & Hpw & Hus).
  rewrite list_to_set_singleton_L in Hus. simpl.
  destruct (prune_tags_spec acct _ m (pl_ready _ _ Hwf)) as (rdy & gone & -> & Hrw & Hps & Hcl).
  simpl. pose proof (prune_round_spec _ _ _ Hq _ _ Hpw Hus _ _ Hrw Hps Hcl) as H1.
  edestruct (IH (PoolInner.mk rdy pend) (imports ++ unl)) as (st' & imports' & G & -> & H2);
    [by eapply pi_queue|].
  exists st', imports', (gone ++ G). rewrite app_assoc. split; [done|].
  by eapply prune_loop_inv_cons.
Qed.

(** The result of a prune names every transaction that left the pool. *)
Definition accounted (promoted : list AddedTransaction) (failed : list TxHash)
    (tx : PoolTransaction.t) : Prop :=
  tx_hash tx ∈ failed ∨
  ∃ o, Ready o ∈ promoted ∧
    (tx ∈ ReadyOutcome.removed o ∨ tx_hash tx ∈ ReadyOutcome.discarded o).

Lemma accounted_app prom1 prom2 failed1 failed2 tx :
  accounted (prom1 ++ prom2) (failed1 ++ failed2) tx ↔
  accounted prom1 failed1 tx ∨ accounted prom2 failed2 tx.
Proof.
  unfold accounted. setoid_rewrite elem_of_app. split.
  - intros [[?|?]|(o & [?|?] & ?)]; [by left; left|by right; left|..];
      [left; right|right; right]; by exists o.
  - intros [[?|(o & ? & ?)]|[?|(o & ? & ?)]]; [by left; left| |by left; right|];
      right; exists o; auto.
Qed.

(** One import. *)
Lemma import_spec st p :
  queue_wf acct st [p] → (used_ids st < u64_max)%Z →
  ∃ st' res gone, PoolInner.add_ready_transaction st p = Some (st', res) ∧
    pool_step acct st st' [ptx_tx p] gone ∧
    (∀ tx, tx ∈ gone → match res with
      | Ok a => accounted [a] [] tx
      | Err _ => accounted [] [ptx_hash p] tx end) ∧
    (∀ h, is_Some (readies st !! h) → (acct (ptx_hash p)).2 ≠ (acct h).2 →
      is_Some (readies st' !! h)).
Proof.
  intros Hq Hids. pose proof (add_ready_transaction_spec acct st p Hq Hids) as Hadd.
  destruct (underpriced acct st (ptx_tx p)).
  - rewrite Hadd. exists st. eexists _, [ptx_tx p]. split_and!; [done|..].
    + apply pool_step_reject; [apply Hq|]. apply (qw_absent _ _ _ Hq). by left.
    + intros tx ->%list_elem_of_singleton. left. by left.
    + done.
  - destruct Hadd as (st' & o & gone & -> & _ & _ & (D & -> & HD) & Hstep & _ & Hrem & Hkeep).
    exists st'. eexists _, (D ++ ReadyOutcome.removed o). split_and!; [done|done|..].
    + intros tx Hin. right. exists o. split; [by left|].
      apply elem_of_app in Hin as [?|?]; [right|by left].
      rewrite HD. apply list_elem_of_fmap. by exists tx.
    + intros h Hs Hne. destruct (Hkeep h Hs) as [?|(tx & Hin & <-)]; [done|].
      by apply Hrem in Hin as [? _].
Qed.

Lemma queue_wf_head st p q : queue_wf acct st (p :: q) → queue_wf acct st [p].
Proof.
  intros [? Hr Ha Hb _]. split; [done|..|apply NoDup_singleton];
    intros p' ->%list_elem_of_singleton; [apply Hr|apply Ha|apply Hb]; by left.
Qed.

(** The transactions still to be imported stay outside the pool. *)
Lemma queue_wf_step st st' p q gone :
  queue_wf acct st (p :: q) → pool_step acct st st' [ptx_tx p] gone → queue_wf acct st' q.
Proof.
  intros Hq Hstep. pose proof (queue_wf_tail _ _ _ _ Hq) as [_ Hr Ha Hb Hnd].
  pose proof (qw_nodup _ _ _ Hq) as Hnd'. rewrite fmap_cons in Hnd'.
  apply NoDup_cons in Hnd' as [Hnin _].
  split; [apply Hstep|done|done| |done]. intros p' Hp'.
  apply (absent_intro acct); [apply Hstep|]. intros tx Htx Heq.
  destruct (proj2 (st_held _ _ _ _ _ Hstep tx)) as [Hin|Hin%list_elem_of_singleton];
    [by left|..].
  - apply (pool_has_not_absent acct _ _ (qw_pool _ _ _ Hq) Hin). rewrite Heq. by apply Hb.
  - subst tx. apply Hnin, list_elem_of_fmap. by exists p'.
Qed.

Lemma import_loop_spec st imports prom0 failed0 :
  queue_wf acct st imports →
  (∀ p, p ∈ imports → PoolTransaction.requires (ptx_tx p) ≠ []) →
  (used_ids st + Z.of_nat (length imports) ≤ u64_max)%Z →
  ∃ st' prom failed gone,
    PoolInner.import_loop st imports prom0 failed0 = Some (st', prom0 ++ prom, failed0 ++ failed) ∧
    pool_step acct st st' ((λ p, ptx_tx p) <$> imports) gone ∧
    (∀ tx, tx ∈ gone → accounted prom failed tx) ∧
    (∀ h, is_Some (readies st !! h) →
      (∀ p, p ∈ imports → (acct (ptx_hash p)).2 ≠ (acct h).2) → is_Some (readies st' !! h)).
Proof.
  revert st prom0 failed0. induction imports as [|p imports IH];
    intros st prom0 failed0 Hq Hreq Hids; cbn [PoolInner.import_loop].
  { exists st, [], [], []. rewrite !app_nil_r. split_and!; [done| |by intros ? ?%elem_of_nil|done].
    apply pool_step_id, Hq. }
  simpl in Hids.
  destruct (import_spec st p) as (st1 & res & G1 & -> & Hstep & Hacc & Hkeep);
    [by eapply queue_wf_head|lia|]. cbn [mbind option_bind].
  pose proof (queue_wf_step _ _ _ _ _ Hq Hstep) as Hq1.
  pose proof (st_ids _ _ _ _ _ Hstep) as Hids1. simpl in Hids1.
  set (prom1 := match res with Ok a => [a] | Err _ => [] end).
  set (failed1 := match res with Ok _ => [] | Err _ => [ptx_hash p] end).
  destruct (IH st1 (prom0 ++ prom1) (failed0 ++ failed1))
    as (st' & prom & failed & G2 & Heq & Hstep2 & Hacc2 & Hkeep2);
    [done|intros p' ?; apply Hreq; by right|lia|].
  exists st', (prom1 ++ prom), (failed1 ++ failed), (G1 ++ G2). split_and!.
  - rewrite !app_assoc. rewrite <- Heq. unfold prom1, failed1.
    by destruct res; rewrite app_nil_r.
  - rewrite fmap_cons. change (?x :: ?l) with ([x] ++ l).
    apply (pool_step_trans acct _ st1); [done|done| |apply Hq].
    pose proof (qw_nodup _ _ _ Hq) as Hnd. rewrite fmap_cons in Hnd.
    apply NoDup_cons in Hnd as [Hnin _].
    intros tx (p' & -> & Hp')%list_elem_of_fmap. split_and!.
    + apply (qw_absent _ _ _ Hq). by right.
    + intros Hin%list_elem_of_singleton. apply Hnin, list_elem_of_fmap.
      exists p'. by split.
    + apply Hreq. by right.
  - intros tx [Hin|Hin]%elem_of_app; apply accounted_app; [left|right; by apply Hacc2].
    apply Hacc in Hin. unfold prom1, failed1. by destruct res.
  - intros h Hs Hne. apply Hkeep2.
    + apply Hkeep; [done|]. apply Hne. by left.
    + intros p' ?. apply Hne. by right.
Qed.

(** A ready transaction that is not ready after the pruning was pruned. *)
Lemma pruned_gone ms st st1 imports G1 h r :
  pool_wf acct st → prune_loop_inv ms st [] st1 imports G1 →
  readies st !! h = Some r → readies st1 !! h = None → rtx_tx r ∈ G1.
Proof.
  intros Hwf H1 Hr Hr1. pose proof (qw_pool _ _ _ (pi_queue _ _ _ _ _ _ H1)) as Hwf1.
  pose proof (rw_hash _ _ _ (pl_ready _ _ Hwf) _ _ Hr) as Hh.
  assert (¬ (is_Some (waiting st1 !! h) ∨ h ∈ ptx_hash <$> imports)) as Hno.
  { intros [Hs|[]%elem_of_nil]%(pi_waiting _ _ _ _ _ _ H1).
    rewrite (pl_disjoint _ _ Hwf h Hs) in Hr. done. }
  destruct (proj1 (pi_held _ _ _ _ _ _ H1 (rtx_tx r))) as [[Hp|(p & Hp & Heq)]|?];
    [left; right; by exists h, r|..|done]; exfalso.
  - apply (pool_has_not_absent acct st1 (rtx_tx r)); [done..|]. rewrite Hh.
    split; [|done]. apply eq_None_not_Some. auto.
  - apply Hno. right. apply list_elem_of_fmap. exists p. split; [|done].
    unfold PendingPoolTransaction.hash. by rewrite Heq.
Qed.

(** A pruned marker has no provider. *)
Lemma pruned_marker ms st st1 imports G1 h :
  prune_loop_inv ms st [] st1 imports G1 → marker_of acct h ∈ ms → readies st1 !! h = None.
Proof.
  intros H1 Hm. apply eq_None_not_Some. intros Hs.
  assert (provided st1 !! marker_of acct h = Some h) as Hp.
  { by apply (rw_provided _ _ _ (pl_ready _ _ (qw_pool _ _ _ (pi_queue _ _ _ _ _ _ H1)))). }
  by rewrite (pi_provided _ _ _ _ _ _ H1 _ Hm) in Hp.
Qed.

Lemma prune_import_step ms st st1 st' imports G1 G2 :
  pool_wf acct st → prune_loop_inv ms st [] st1 imports G1 →
  pool_step acct st1 st' ((λ p, ptx_tx p) <$> imports) G2 →
  pool_step acct st st' [] (G1 ++ G2).
Proof.
  intros Hwf H1 H2.
  assert (∀ tx, held st1 imports tx ↔ pool_has st1 tx ∨ tx ∈ (λ p, ptx_tx p) <$> imports)
    as Hheld.
  { intros tx. unfold held. rewrite list_elem_of_fmap. naive_solver. }
  assert (∀ tx, pool_has st tx ↔ held st1 imports tx ∨ tx ∈ G1) as Hst.
  { intros tx. rewrite <- (pi_held _ _ _ _ _ _ H1). unfold held.
    setoid_rewrite elem_of_nil. naive_solver. }
  split; [apply H2|..].
  - intros tx. rewrite Hst, Hheld, (st_held _ _ _ _ _ H2), elem_of_nil, elem_of_app. tauto.
  - intros tx [Hg|Hg]%elem_of_app; [|by apply (st_gone _ _ _ _ _ H2)].
    destruct (pi_gone _ _ _ _ _ _ H1 tx Hg) as [Ha Hn].
    apply (absent_intro acct); [apply H2|]. intros tx' Hh Heq.
    destruct (proj2 (st_held _ _ _ _ _ H2 tx')) as [Hp|(p & -> & Hp)%list_elem_of_fmap];
      [by left|..].
    + apply (pool_has_not_absent acct _ _ (qw_pool _ _ _ (pi_queue _ _ _ _ _ _ H1)) Hp).
      by rewrite Heq.
    + apply Hn, list_elem_of_fmap. by exists p.
  - pose proof (st_ids _ _ _ _ _ H2). pose proof (pi_ids _ _ _ _ _ _ H1).
    rewrite length_fmap in *. simpl in *. lia.
  - intros g h Hl.
    destruct (st_links _ _ _ _ _ H2 g h Hl) as [(g' & r' & Hg' & Hin)|(tx & Htx%Hheld & <-)].
    + apply (pi_ready _ _ _ _ _ _ H1) in Hg' as (r & Hr & _ & Hun).
      left. exists g', r. auto.
    + right. exists tx. split; [|done]. left. apply Hst. by left.
  - intros Hcl _. apply H2; [by apply (pi_clean _ _ _ _ _ _ H1)|].
    intros tx g (p & -> & Hp)%list_elem_of_fmap Hreq.
    apply (pi_requires _ _ _ _ _ _ H1) in Hp as [[]%elem_of_nil|?]. done.
  - intros h [r Hr]. setoid_rewrite elem_of_app. destruct (readies st1 !! h) as [r1|] eqn:Hr1.
    + destruct (st_ready _ _ _ _ _ H2 h) as [?|(tx & ? & ?)]; [by eexists|by left|].
      right. exists tx. auto.
    + right. exists (rtx_tx r). split; [left; by eapply pruned_gone|].
      exact (rw_hash _ _ _ (pl_ready _ _ Hwf) _ _ Hr).
Qed.

Lemma prune_markers_spec st ms :
  pool_wf acct st → (used_ids st ≤ u64_max)%Z →
  ∃ st' res gone, PoolInner.prune_markers st ms = Some (st', res) ∧
    pool_step acct st st' [] gone ∧
    (∀ tx, tx ∈ gone → tx ∈ PruneResult.pruned res ∨
      accounted (PruneResult.promoted res) (PruneResult.failed res) tx) ∧
    (∀ tx, tx ∈ PruneResult.pruned res → tx ∈ gone) ∧
    (∀ h, is_Some (readies st !! h) → marker_of acct h ∈ ms → absent st' h) ∧
    (∀ h, is_Some (readies st !! h) → (∀ n, to_marker n (acct h).2 ∉ ms) →
      is_Some (readies st' !! h)).
Proof.
  intros Hwf Hids. unfold PoolInner.prune_markers.
  assert (queue_wf acct st []) as Hq.
  { split; [done|..|constructor]; by intros p ?%elem_of_nil. }
  destruct (prune_markers_loop_spec ms st [] [] Hq) as (st1 & imports & G1 & -> & H1).
  pose proof (pi_ids _ _ _ _ _ _ H1) as Hids1. simpl in Hids1. cbn [mbind option_bind].
  destruct (import_loop_spec st1 imports [] [])
    as (st' & prom & failed & G2 & -> & H2 & Hacc & Hkeep); [apply H1| |lia|].
  { intros p [[]%elem_of_nil|?]%(pi_requires _ _ _ _ _ _ H1). done. }
  pose proof (prune_import_step _ _ _ _ _ _ _ Hwf H1 H2) as Hstep.
  eexists _, _, (G1 ++ G2). split; [done|]. simpl. split_and!; [done|..].
  - intros tx [?|?]%elem_of_app; [by left|right; by apply Hacc].
  - intros tx ?. apply elem_of_app. by left.
  - intros h [r Hr] Hm.
    assert (rtx_tx r ∈ G1) as Hg; [by eapply pruned_gone, pruned_marker|].
    rewrite <- (rw_hash _ _ _ (pl_ready _ _ Hwf) _ _ Hr).
    apply Hstep. apply elem_of_app. by left.
  - intros h Hs Hno. apply Hkeep.
    + destruct (readies st1 !! h) as [r|] eqn:Hn; [by eexists|].
      destruct (pi_ancestor _ _ _ _ _ _ H1 h Hs Hn) as (g & Hm & Heq & _).
      exfalso. apply (Hno (acct g).1). by rewrite Heq.
    + intros p Hp Heq. pose proof (qw_acct _ _ _ (pi_queue _ _ _ _ _ _ H1) p Hp) as (_ & _ & Hreq).
      apply (pi_imports _ _ _ _ _ _ H1) in Hp as [[]%elem_of_nil|(m & Hm & Hin)].
      destruct Hreq as [Hreq|[_ Hreq]]; rewrite Hreq in Hin; [by apply elem_of_nil in Hin|].
      apply list_elem_of_singleton in Hin as ->. apply (Hno ((acct (ptx_hash p)).1 - 1)%Z).
      by rewrite <- Heq.
Qed.

(** ** The other operations *)

Lemma remove_invalid_spec st hs :
  pool_wf acct st →
  ∃ st' removed, PoolInner.remove_invalid st hs = Some (st', removed) ∧
    pool_step acct st st' [] removed ∧
    (∀ h, h ∈ hs → absent st' h) ∧
    (∀ tx, tx ∈ removed → ∃ h, h ∈ hs ∧ rtc (link (PoolInner.ready_transactions st)) h (tx_hash tx)).
Proof.
  intros Hwf. destruct hs as [|h hs]; [|by apply remove_hashes_spec].
  exists st, []. split_and!; [done|by apply pool_step_id|..]; by intros ? ?%elem_of_nil.
Qed.

Lemma drop_transaction_spec st h :
  pool_wf acct st →
  ∃ st' gone, PoolInner.drop_transaction st h =
      Some (st', (λ r, rtx_tx r) <$> readies st !! h) ∧
    pool_step acct st st' [] gone ∧ readies st' !! h = None ∧
    (∀ tx, tx ∈ gone → rtc (link (PoolInner.ready_transactions st)) h (tx_hash tx)).
Proof.
  intros Hwf. unfold PoolInner.drop_transaction.
  destruct (remove_with_markers_spec acct (PoolInner.ready_transactions st) [h] (pl_ready _ _ Hwf))
    as (rdy & removed & -> & Hrw & Hrs). cbn [mbind option_bind].
  pose proof (rs_gone _ _ _ _ Hrs h (list_elem_of_here _ _)) as Hgone.
  eexists _, removed. split_and!.
  - do 2 f_equal. destruct (head (filter _ removed)) as [tx|] eqn:Hf.
    + assert (tx ∈ filter (λ t, tx_hash t = h) removed) as [Heq Hin]%list_elem_of_filter.
      { destruct (filter _ removed); [done|]. injection Hf as ->. by left. }
      apply (rs_removed _ _ _ _ Hrs) in Hin as (h' & r & Hr & _ & ->).
      rewrite (rw_hash _ _ _ (pl_ready _ _ Hwf) _ _ Hr) in Heq. subst h'. by rewrite Hr.
    + destruct (readies st !! h) as [r|] eqn:Hr; [|done]. exfalso.
      assert (rtx_tx r ∈ filter (λ t, tx_hash t = h) removed) as Hin.
      { apply list_elem_of_filter. split; [by apply (rw_hash _ _ _ (pl_ready _ _ Hwf) _ _ Hr)|].
        apply (rs_removed _ _ _ _ Hrs). by exists h, r. }
      destruct (filter _ removed); [by apply elem_of_nil in Hin|done].
  - apply pool_step_shrink; simpl; [done|done|apply Hwf|apply Hrs|done| |apply Hrs|].
    + intros tx. rewrite (rs_removed _ _ _ _ Hrs). split; [by right|].
      intros [(? & ? & ? & ? & _)|?]; [congruence|done].
    + by apply (removal_clean [h] _ _ removed).
  - done.
  - intros tx (h' & r & Hr & Hn & ->)%(rs_removed _ _ _ _ Hrs).
    rewrite (rw_hash _ _ _ (pl_ready _ _ Hwf) _ _ Hr).
    destruct (rs_reach _ _ _ _ Hrs h') as (h0 & ->%list_elem_of_singleton & ?);
      [by eexists|done|done].
Qed.

Lemma transactions_by_sender_spec st sender :
  pool_wf acct st →
  ∃ txs, PoolInner.transactions_by_sender st sender = Some txs ∧
    ∀ tx, tx ∈ txs ↔ pool_has st tx ∧ PoolTransaction.sender tx = sender.
Proof.
  intros Hwf. unfold PoolInner.transactions_by_sender.
  destruct (ready_list_complete acct _ (pl_ready _ _ Hwf)) as (l & -> & Hl).
  cbn [mbind option_bind]. eexists. split; [done|]. intros tx.
  rewrite elem_of_app, !list_elem_of_filter, Hl. unfold PendingTransactions.transactions, pool_has.
  rewrite list_elem_of_omap. setoid_rewrite elem_of_set_iter. setoid_rewrite elem_of_dom.
  setoid_rewrite fmap_Some. split.
  - intros [[Hs (h & _ & p & Hp & ->)]|[Hs (h & r & Hr & ->)]]; (split; [|done]);
      [left; by exists h, p|right; by exists h, r].
  - intros [[(h & p & Hp & <-)|(h & r & Hr & <-)] Hs]; [left|right]; (split; [done|]);
      [|by exists h, r].
    exists h. split; [by eexists|by exists p].
Qed.

Lemma remove_by_address_spec st sender :
  pool_wf acct st →
  ∃ st' removed, PoolInner.remove_transactions_by_address st sender = Some (st', removed) ∧
    pool_step acct st st' [] removed ∧
    (∀ tx, pool_has st' tx → PoolTransaction.sender tx ≠ sender) ∧
    (∀ tx, tx ∈ removed → ∃ tx0, pool_has st tx0 ∧ PoolTransaction.sender tx0 = sender ∧
      rtc (link (PoolInner.ready_transactions st)) (tx_hash tx0) (tx_hash tx)).
Proof.
  intros Hwf. unfold PoolInner.remove_transactions_by_address.
  destruct (transactions_by_sender_spec st sender Hwf) as (txs & -> & Htxs).
  cbn [mbind option_bind].
  destruct (remove_hashes_spec st (tx_hash <$> txs) Hwf) as (st' & removed & Heq & Hstep & Habs & Hre).
  assert (∃ st' removed, match tx_hash <$> txs with
    | [] => Some (st, []) | hs => PoolInner.remove_hashes st hs end = Some (st', removed) ∧
    pool_step acct st st' [] removed ∧ (∀ h, h ∈ tx_hash <$> txs → absent st' h) ∧
    (∀ tx, tx ∈ removed → ∃ h, h ∈ tx_hash <$> txs ∧
      rtc (link (PoolInner.ready_transactions st)) h (tx_hash tx)))
    as (st2 & removed2 & -> & Hstep2 & Habs2 & Hre2).
  { destruct (tx_hash <$> txs) eqn:Hnil; [|by exists st', removed].
    exists st, []. split_and!; [done|by apply pool_step_id|..]; by intros ? ?%elem_of_nil. }
  exists st2, removed2. split_and!; [done|done|..].
  - intros tx Hin Hs.
    apply (pool_has_not_absent acct st2 tx (st_wf _ _ _ _ _ Hstep2) Hin).
    apply Habs2, list_elem_of_fmap. exists tx. split; [done|]. apply Htxs.
    split; [|done]. destruct (proj2 (st_held _ _ _ _ _ Hstep2 tx)) as [?|[]%elem_of_nil];
      [by left|done].
  - intros tx (h & (tx0 & -> & [Hp Hs]%Htxs)%list_elem_of_fmap & ?)%Hre2. by exists tx0.
Qed.

End account.
