(* ===== verification/PoolTheorems.v ===== *)
(** The theorems about the transaction pool: safety of every run, the
    outcome of each operation, the order in which transactions are mined, and
    two behaviours that differ from what the comments of the code say.
    The runs of operations they are about come first. *)
From S2P Require Import Prelude Transaction PoolTx PendingQueue ReadyQueue ReadyInv ReadyIter Pool PoolInv PoolOps.

(** ** Runs of operations *)

(** The operations the RPC handlers, the miner and the block producer call. *)
Inductive pool_op :=
  | OpAdd (now : Z) (tx : PoolTransaction.t)
  | OpMined (outcome : MinedBlockOutcome.t)
  | OpPrune (markers : list TxMarker)
  | OpRemoveInvalid (tx_hashes : list TxHash)
  | OpRemoveByAddress (sender : Address)
  | OpDrop (tx_hash : TxHash)
  | OpClear.

Definition pool_exec `{HashOrder} (op : pool_op) (st : PoolInner.t) : option PoolInner.t :=
  match op with
  | OpAdd now tx => fst <$> PoolInner.add_transaction now st tx
  | OpMined outcome => fst <$> PoolInner.on_mined_block st outcome
  | OpPrune markers => fst <$> PoolInner.prune_markers st markers
  | OpRemoveInvalid hs => fst <$> PoolInner.remove_invalid st hs
  | OpRemoveByAddress sender => fst <$> PoolInner.remove_transactions_by_address st sender
  | OpDrop h => fst <$> PoolInner.drop_transaction st h
  | OpClear => Some (PoolInner.clear st)
  end.

Fixpoint pool_run `{HashOrder} (ops : list pool_op) (st : PoolInner.t) : option PoolInner.t :=
  match ops with
  | [] => Some st
  | op :: ops => st ← pool_exec op st; pool_run ops st
  end.

(** The transactions an operation, or a run, submits. *)
Definition op_submits (op : pool_op) : list PoolTransaction.t :=
  match op with OpAdd _ tx => [tx] | _ => [] end.
Definition submitted (ops : list pool_op) : list PoolTransaction.t := ops ≫= op_submits.

Section account.
Context (acct : TxHash → Z * Address) `{HashOrder}.

(** ** on_mined_block *)

Lemma on_mined_block_spec st outcome :
  pool_wf acct st → (used_ids st ≤ u64_max)%Z →
  ∃ st' res gone, PoolInner.on_mined_block st outcome = Some (st', res) ∧
    pool_step acct st st' [] gone ∧
    (∀ tx, tx ∈ gone →
      tx ∈ PruneResult.pruned res ∨
      accounted (PruneResult.promoted res) (PruneResult.failed res) tx ∨
      ∃ bad, bad ∈ MinedBlockOutcome.invalid outcome ∧
        rtc (link (PoolInner.ready_transactions st)) (tx_hash bad) (tx_hash tx)) ∧
    (∀ tx, tx ∈ MinedBlockOutcome.invalid outcome → absent st' (tx_hash tx)) ∧
    (∀ tx, tx ∈ MinedBlockOutcome.included outcome → account_tx acct tx →
      is_Some (readies st !! tx_hash tx) → absent st' (tx_hash tx)) ∧
    (∀ h, is_Some (readies st !! h) →
      (∀ bad, bad ∈ MinedBlockOutcome.invalid outcome →
        ¬ rtc (link (PoolInner.ready_transactions st)) (tx_hash bad) h) →
      (∀ tx n, tx ∈ MinedBlockOutcome.included outcome →
        to_marker n (acct h).2 ∉ PoolTransaction.provides tx) →
      is_Some (readies st' !! h)).
Proof.
  intros Hwf Hids. unfold PoolInner.on_mined_block.
  destruct (remove_invalid_spec acct st (tx_hash <$> MinedBlockOutcome.invalid outcome) Hwf)
    as (st1 & G1 & -> & H1 & Habs & Hreach). cbn [mbind option_bind].
  pose proof (st_wf _ _ _ _ _ H1) as Hwf1.
  pose proof (st_ids _ _ _ _ _ H1) as Hids1. simpl in Hids1.
  set (ms := mjoin _).
  assert (∀ m, m ∈ ms ↔ ∃ tx, tx ∈ MinedBlockOutcome.included outcome ∧
    m ∈ PoolTransaction.provides tx) as Hms.
  { intros m. unfold ms. rewrite list_elem_of_join. setoid_rewrite list_elem_of_fmap. naive_solver. }
  destruct (prune_markers_spec acct st1 ms Hwf1) as
    (st' & res & G2 & -> & H2 & Hacc & _ & Hgone & Hkeep); [lia|].
  assert (pool_step acct st st' [] (G1 ++ G2)) as Hstep.
  { apply (pool_step_trans acct st st1 st' [] []); [done..| |done]. by intros tx ?%elem_of_nil. }
  assert (∀ h, absent st1 h → absent st' h) as Hmono.
  { intros h Ha. apply (absent_intro acct); [apply H2|]. intros tx Htx <-.
    destruct (proj2 (st_held _ _ _ _ _ H2 tx)) as [Hp|[]%elem_of_nil]; [by left|].
    by apply (pool_has_not_absent acct st1 tx). }
  eexists st', res, (G1 ++ G2). split_and!; [done|done|..].
  - intros tx [Hin|Hin]%elem_of_app; [right; right|apply Hacc in Hin as [?|?]; auto].
    destruct (Hreach tx Hin) as (h & (bad & -> & Hb)%list_elem_of_fmap & ?). by exists bad.
  - intros tx Hin. assert (absent st1 (tx_hash tx)); [|auto].
    apply Habs, list_elem_of_fmap. by exists tx.
  - intros tx Hin (_ & Hprov & _) Hs.
    destruct (st_ready _ _ _ _ _ H1 (tx_hash tx) Hs) as [Hs1|(tx' & Hin' & Heq)].
    + apply Hgone; [done|]. apply Hms. exists tx. rewrite Hprov. by split; [|left].
    + apply (st_gone _ _ _ _ _ H1) in Hin'. rewrite Heq in Hin'. auto.
  - intros h Hs Hbad Hno. apply Hkeep.
    + destruct (st_ready _ _ _ _ _ H1 h Hs) as [?|(tx & Hin & <-)]; [done|]. exfalso.
      apply Hreach in Hin as (h' & (bad & -> & Hb)%list_elem_of_fmap & ?). by apply (Hbad bad).
    + intros n (tx & Hin & Hm)%Hms. by apply (Hno tx n).
Qed.

(** ** The invariant of a run *)

(** The pool after a run that submitted [subs]. *)
Record run_inv (subs : list PoolTransaction.t) (st : PoolInner.t) : Prop := {
  ri_wf : pool_wf acct st;
  ri_ids : (used_ids st ≤ Z.of_nat (length subs))%Z;
  ri_has tx : pool_has st tx → tx ∈ subs;
  ri_links g h : link (PoolInner.ready_transactions st) g h → h ∈ tx_hash <$> subs;
  ri_clean : NoDup (tx_hash <$> subs) → ready_clean (PoolInner.ready_transactions st);
}.

Lemma run_inv_empty : run_inv [] PoolInner.empty.
Proof.
  split; simpl.
  - apply pool_wf_empty.
  - done.
  - intros tx [(h & p & Hp & _)|(h & r & Hr & _)]; simpl in *; by rewrite lookup_empty in *.
  - intros g h (rg & Hg & _). simpl in Hg. by rewrite lookup_empty in Hg.
  - intros _ g h r (rg & Hg & _). simpl in Hg. by rewrite lookup_empty in Hg.
Qed.

Lemma run_inv_step subs st st' added gone :
  run_inv subs st → pool_step acct st st' added gone → length added ≤ 1 →
  run_inv (subs ++ added) st'.
Proof.
  intros Hri Hst Hlen. split.
  - apply Hst.
  - pose proof (st_ids _ _ _ _ _ Hst). pose proof (ri_ids _ _ Hri). rewrite length_app. lia.
  - intros tx Htx. apply elem_of_app.
    destruct (proj2 (st_held _ _ _ _ _ Hst tx)) as [?|?]; [by left|left; by apply Hri|by right].
  - intros g h Hl. rewrite fmap_app, elem_of_app.
    destruct (st_links _ _ _ _ _ Hst g h Hl) as [(g' & Hl')|(tx & [Htx|Htx] & <-)].
    + left. by apply (ri_links _ _ Hri g').
    + left. apply list_elem_of_fmap. exists tx. split; [done|]. by apply (ri_has _ _ Hri).
    + right. apply list_elem_of_fmap. by exists tx.
  - rewrite fmap_app. intros (Hnd & Hdisj & _)%NoDup_app. apply Hst; [by apply Hri|].
    intros tx g Hin _ Hl%(ri_links _ _ Hri). apply (Hdisj _ Hl).
    apply list_elem_of_fmap. by exists tx.
Qed.

(** A transaction that was refused leaves the invariant as it is. *)
Lemma run_inv_refused subs st tx : run_inv subs st → run_inv (subs ++ [tx]) st.
Proof.
  intros Hri. split.
  - apply Hri.
  - rewrite length_app. pose proof (ri_ids _ _ Hri). lia.
  - intros tx' Htx. apply elem_of_app. left. by apply Hri.
  - intros g h Hl. rewrite fmap_app, elem_of_app. left. by apply (ri_links _ _ Hri g).
  - rewrite fmap_app. intros (Hnd & _ & _)%NoDup_app. by apply Hri.
Qed.

Lemma run_inv_clear subs st : run_inv subs st → run_inv subs (PoolInner.clear st).
Proof.
  intros Hri. split; simpl.
  - apply pool_wf_clear, Hri.
  - pose proof (ri_ids _ _ Hri) as Hle. unfold used_ids in *. simpl.
    rewrite map_size_empty. lia.
  - intros tx [(h & p & Hp & _)|(h & r & Hr & _)]; simpl in *; by rewrite lookup_empty in *.
  - intros g h (rg & Hg & _). simpl in Hg. by rewrite lookup_empty in Hg.
  - intros _ g h r (rg & Hg & _). simpl in Hg. by rewrite lookup_empty in Hg.
Qed.

Lemma pool_exec_inv op subs st :
  run_inv subs st → Forall (account_tx acct) (op_submits op) →
  (Z.of_nat (length (subs ++ op_submits op)) ≤ u64_max)%Z →
  ∃ st', pool_exec op st = Some st' ∧ run_inv (subs ++ op_submits op) st'.
Proof.
  intros Hri Hacc Hlen. rewrite length_app in Hlen.
  pose proof (ri_wf _ _ Hri) as Hwf. pose proof (ri_ids _ _ Hri) as Hids.
  destruct op as [now tx|outcome|ms|hs|sender|h|]; simpl in *.
  - apply Forall_inv in Hacc.
    destruct (add_transaction_spec acct st now tx Hwf Hacc) as (st' & res & -> & Hres); [lia|].
    exists st'. split; [done|]. destruct res as [[o|h]|[|tx'|tx']]; simpl in Hres.
    + destruct Hres as (_ & _ & _ & (gone & _ & Hst) & _). by eapply run_inv_step.
    + destruct Hres as (_ & _ & _ & Hst). by eapply run_inv_step.
    + done.
    + destruct Hres as (_ & -> & _). by apply run_inv_refused.
    + destruct Hres as (_ & -> & _). by apply run_inv_refused.
  - destruct (on_mined_block_spec st outcome Hwf) as (st' & res & gone & -> & Hst & _); [lia|].
    exists st'. split; [done|]. eapply run_inv_step; [done|done|simpl; lia].
  - destruct (prune_markers_spec acct st ms Hwf) as (st' & res & gone & -> & Hst & _); [lia|].
    exists st'. split; [done|]. eapply run_inv_step; [done|done|simpl; lia].
  - destruct (remove_invalid_spec acct st hs Hwf) as (st' & removed & -> & Hst & _).
    exists st'. split; [done|]. eapply run_inv_step; [done|done|simpl; lia].
  - destruct (remove_by_address_spec acct st sender Hwf) as (st' & removed & -> & Hst & _).
    exists st'. split; [done|]. eapply run_inv_step; [done|done|simpl; lia].
  - destruct (drop_transaction_spec acct st h Hwf) as (st' & gone & -> & Hst & _).
    exists st'. split; [done|]. eapply run_inv_step; [done|done|simpl; lia].
  - eexists. split; [done|]. rewrite app_nil_r. by apply run_inv_clear.
Qed.

Lemma pool_run_inv ops subs st :
  run_inv subs st → Forall (account_tx acct) (submitted ops) →
  (Z.of_nat (length (subs ++ submitted ops)) ≤ u64_max)%Z →
  ∃ st', pool_run ops st = Some st' ∧ run_inv (subs ++ submitted ops) st'.
Proof.
  revert subs st. induction ops as [|op ops IH]; intros subs st Hri Hacc Hlen; simpl.
  { exists st. split; [done|]. by rewrite app_nil_r. }
  change (submitted (op :: ops)) with (op_submits op ++ submitted ops) in *.
  apply Forall_app in Hacc as [Hacc1 Hacc2].
  rewrite !length_app in Hlen.
  destruct (pool_exec_inv op subs st) as (st1 & -> & Hri1); [done..|rewrite length_app; lia|].
  simpl. rewrite app_assoc. apply IH; [done|done|]. rewrite !length_app. lia.
Qed.

End account.

(** ** The results *)

(** * Sample transactions *)

(** In the samples a hash encodes the sender, the nonce and a serial digit. *)
Definition sample_acct (h : TxHash) : Z * Address := ((h mod 1000) / 10, [h / 1000])%Z.

Definition sample_tx (h price : Z) (requires : list TxMarker) : PoolTransaction.t :=
  PoolTransaction.mk
    (PendingTransaction.mk
      (MaybeImpersonatedTransaction.new
        (Legacy (TxLegacy.mk None (sample_acct h).1 price 21000 TxKind_Create 0 [] h)))
      (sample_acct h).2 h)
    requires [marker_of sample_acct h] price.

Definition sample_first (h price : Z) : PoolTransaction.t := sample_tx h price [].
Definition sample_next (h price : Z) : PoolTransaction.t :=
  sample_tx h price [prev_marker_of sample_acct h].

#[local] Instance sample_order : HashOrder := default_order.

Lemma sample_first_account h price :
  is_u64 (sample_acct h).1 → account_tx sample_acct (sample_first h price).
Proof. intros. split_and!; [done..|by left]. Qed.

Lemma sample_next_account h price :
  is_u64 (sample_acct h).1 → (0 < (sample_acct h).1)%Z →
  account_tx sample_acct (sample_next h price).
Proof. intros. split_and!; [done..|by right]. Qed.

(** Two senders; the second nonce of the first one arrives early. *)
Definition sample_run : list pool_op :=
  [OpAdd 0 (sample_next 1010 7); OpAdd 1 (sample_first 1000 5);
   OpAdd 2 (sample_first 2000 9); OpAdd 3 (sample_first 1001 6);
   OpMined (MinedBlockOutcome.mk 1 [sample_first 2000 9] []); OpDrop 1010].

Lemma sample_run_account : Forall (account_tx sample_acct) (submitted sample_run).
Proof.
  repeat apply Forall_cons_2; try apply Forall_nil_2;
    first [apply sample_next_account|apply sample_first_account];
    vm_compute; done || by split.
Qed.

(** A pool with two ready transactions of one sender, one of another, and
    one that waits. *)
Definition sample_fill : list pool_op :=
  [OpAdd 0 (sample_next 1010 7); OpAdd 1 (sample_first 1000 5);
   OpAdd 2 (sample_first 2000 9); OpAdd 3 (sample_next 1030 4)].
Definition sample_pool : PoolInner.t :=
  default PoolInner.empty (pool_run sample_fill PoolInner.empty).

Lemma sample_pool_inv : run_inv sample_acct (submitted sample_fill) sample_pool.
Proof.
  destruct (pool_run_inv sample_acct sample_fill [] PoolInner.empty) as (st & Hrun & Hri).
  - apply run_inv_empty.
  - repeat apply Forall_cons_2; try apply Forall_nil_2;
      first [apply sample_next_account|apply sample_first_account];
      vm_compute; done || by split.
  - by vm_compute.
  - unfold sample_pool. by rewrite Hrun.
Qed.

Lemma sample_pool_wf : pool_wf sample_acct sample_pool.
Proof. exact (ri_wf _ _ _ sample_pool_inv). Qed.

(** * Safety *)

(** C1: whatever the sequence of pool operations, no operation panics or
    loops, as long as the submitted transactions carry the markers the RPC
    handlers attach and fewer than 2^64 of them are submitted.  After the run
    both queues satisfy the invariant, and the iterator over the ready
    transactions ends and yields exactly the transactions of the ready
    queue. *)
Theorem pool_run_safe (acct : TxHash → Z * Address) `{HashOrder} (ops : list pool_op) :
  Forall (account_tx acct) (submitted ops) →
  (Z.of_nat (length (submitted ops)) ≤ u64_max)%Z →
  ∃ st l, pool_run ops PoolInner.empty = Some st ∧ pool_wf acct st ∧
    ready_list (PoolInner.ready_transactions st) = Some l ∧
    ∀ tx, tx ∈ l ↔ ∃ h r, readies st !! h = Some r ∧ tx = rtx_tx r.
Proof.
  intros Hacc Hlen.
  destruct (pool_run_inv acct ops [] PoolInner.empty) as (st & Hrun & Hri);
    [apply run_inv_empty|done|done|].
  destruct (ready_list_complete acct _ (pl_ready _ _ (ri_wf _ _ _ Hri))) as (l & Hl & Hin).
  exists st, l. split_and!; [done|apply Hri|done|done].
Qed.

Lemma pool_run_safe_witness :
  ∃ st l, pool_run sample_run PoolInner.empty = Some st ∧ pool_wf sample_acct st ∧
    ready_list (PoolInner.ready_transactions st) = Some l ∧
    ∀ tx, tx ∈ l ↔ ∃ h r, readies st !! h = Some r ∧ tx = rtx_tx r.
Proof.
  apply (pool_run_safe sample_acct sample_run); [exact sample_run_account|by vm_compute].
Defined.

(** * Outcomes *)

(** C37: [Pool::add_transaction] on every branch.  A hash that is in the pool
    is refused as already imported; a transaction that does not outbid the one
    with its sender and nonce is refused as underpriced; both leave the pool
    unchanged.  A transaction whose requirement is missing waits.  Otherwise it
    is ready, and afterwards the pool holds what it held before and the new
    transaction, except for those the result reports as discarded or removed
    (which are gone); a promoted transaction is ready unless the result reports
    it as removed.  The cyclic-transaction error never occurs. *)
Theorem pool_add_outcome (acct : TxHash → Z * Address) `{HashOrder} st now tx :
  pool_wf acct st → account_tx acct tx → (used_ids st < u64_max)%Z →
  ∃ st' res, PoolInner.add_transaction now st tx = Some (st', res) ∧
    add_outcome acct st st' tx res.
Proof. apply add_transaction_spec. Qed.

Lemma pool_add_outcome_witness :
  ∃ st' res, PoolInner.add_transaction 5 sample_pool (sample_next 1020 3) = Some (st', res) ∧
    add_outcome sample_acct sample_pool st' (sample_next 1020 3) res.
Proof.
  apply (pool_add_outcome sample_acct sample_pool 5 (sample_next 1020 3)).
  - exact sample_pool_wf.
  - apply sample_next_account; vm_compute; done || by split.
  - by vm_compute.
Defined.

(** C38: in a run in which no hash is submitted twice the miner gets every
    ready transaction exactly once, each one after the transactions it
    depends on, and at every point the best of those available (highest
    priority, then oldest). *)
Theorem pool_ready_order (acct : TxHash → Z * Address) `{HashOrder} (ops : list pool_op) :
  Forall (account_tx acct) (submitted ops) →
  NoDup (tx_hash <$> submitted ops) →
  (Z.of_nat (length (submitted ops)) ≤ u64_max)%Z →
  ∃ st rs, pool_run ops PoolInner.empty = Some st ∧
    ready_list (PoolInner.ready_transactions st) = Some ((λ r, rtx_tx r) <$> rs) ∧
    iteration (PoolInner.ready_transactions st) ∅ rs.
Proof.
  intros Hacc Hnd Hlen.
  destruct (pool_run_inv acct ops [] PoolInner.empty) as (st & Hrun & Hri);
    [apply run_inv_empty|done|done|].
  destruct (ready_list_spec acct _ (pl_ready _ _ (ri_wf _ _ _ Hri)) (ri_clean _ _ _ Hri Hnd))
    as (rs & Hl & Hit).
  by exists st, rs.
Qed.

Lemma pool_ready_order_witness :
  ∃ st rs, pool_run sample_run PoolInner.empty = Some st ∧
    ready_list (PoolInner.ready_transactions st) = Some ((λ r, rtx_tx r) <$> rs) ∧
    iteration (PoolInner.ready_transactions st) ∅ rs.
Proof.
  apply (pool_ready_order sample_acct sample_run); [exact sample_run_account| |by vm_compute].
  apply (bool_decide_unpack _). by vm_compute.
Defined.

(** [Pool::on_mined_block].  The invalid transactions and the mined ones
    are out of the pool.  Everything else that left it is reported: pruned,
    failed, replaced or discarded by a promoted transaction, or dependent on
    an invalid transaction.  Nothing enters the pool.  A ready transaction of
    a sender of which nothing was mined, and which does not depend on an
    invalid transaction, stays ready. *)
Theorem pool_mined_block (acct : TxHash → Z * Address) `{HashOrder} st outcome :
  pool_wf acct st → (used_ids st ≤ u64_max)%Z →
  ∃ st' res gone, PoolInner.on_mined_block st outcome = Some (st', res) ∧
    pool_step acct st st' [] gone ∧
    (∀ tx, tx ∈ gone →
      tx ∈ PruneResult.pruned res ∨
      accounted (PruneResult.promoted res) (PruneResult.failed res) tx ∨
      ∃ bad, bad ∈ MinedBlockOutcome.invalid outcome ∧
        rtc (link (PoolInner.ready_transactions st)) (tx_hash bad) (tx_hash tx)) ∧
    (∀ tx, tx ∈ MinedBlockOutcome.invalid outcome → absent st' (tx_hash tx)) ∧
    (∀ tx, tx ∈ MinedBlockOutcome.included outcome → account_tx acct tx →
      is_Some (readies st !! tx_hash tx) → absent st' (tx_hash tx)) ∧
    (∀ h, is_Some (readies st !! h) →
      (∀ bad, bad ∈ MinedBlockOutcome.invalid outcome →
        ¬ rtc (link (PoolInner.ready_transactions st)) (tx_hash bad) h) →
      (∀ tx n, tx ∈ MinedBlockOutcome.included outcome →
        to_marker n (acct h).2 ∉ PoolTransaction.provides tx) →
      is_Some (readies st' !! h)).
Proof. apply on_mined_block_spec. Qed.

Lemma pool_mined_block_witness :
  ∃ st' res gone,
    PoolInner.on_mined_block sample_pool
      (MinedBlockOutcome.mk 1 [sample_first 1000 5] [sample_first 2000 9]) = Some (st', res) ∧
    pool_step sample_acct sample_pool st' [] gone ∧ absent st' 1000 ∧ absent st' 2000.
Proof.
  destruct (pool_mined_block sample_acct sample_pool
    (MinedBlockOutcome.mk 1 [sample_first 1000 5] [sample_first 2000 9]))
    as (st' & res & gone & Heq & Hstep & _ & Hinv & Hinc & _).
  - exact sample_pool_wf.
  - by vm_compute.
  - exists st', res, gone. split_and!; [exact Heq|exact Hstep| |].
    + apply (Hinc (sample_first 1000 5)); [by left| |vm_compute; by eexists].
      apply sample_first_account. vm_compute. by split.
    + apply (Hinv (sample_first 2000 9)). by left.
Defined.

(** [Pool::remove_transactions_by_address] leaves no transaction of the
    sender in the pool, and removes only transactions of the sender and ready
    transactions that depend on one. *)
Theorem pool_remove_by_address (acct : TxHash → Z * Address) `{HashOrder} st sender :
  pool_wf acct st →
  ∃ st' removed,
    PoolInner.remove_transactions_by_address st sender = Some (st', removed) ∧
    pool_step acct st st' [] removed ∧
    (∀ tx, pool_has st' tx → PoolTransaction.sender tx ≠ sender) ∧
    (∀ tx, tx ∈ removed → ∃ tx0, pool_has st tx0 ∧ PoolTransaction.sender tx0 = sender ∧
      rtc (link (PoolInner.ready_transactions st)) (tx_hash tx0) (tx_hash tx)).
Proof. apply remove_by_address_spec. Qed.

Lemma pool_remove_by_address_witness :
  ∃ st' removed,
    PoolInner.remove_transactions_by_address sample_pool [1%Z] = Some (st', removed) ∧
    pool_step sample_acct sample_pool st' [] removed ∧
    ∀ tx, pool_has st' tx → PoolTransaction.sender tx ≠ [1%Z].
Proof.
  destruct (pool_remove_by_address sample_acct sample_pool [1%Z])
    as (st' & removed & Heq & Hstep & Hno & _); [exact sample_pool_wf|].
  exists st', removed. split_and!; [exact Heq|exact Hstep|exact Hno].
Defined.

(** [Pool::drop_transaction] returns the ready transaction with the hash,
    if there is one, and takes it and the ready transactions that depend on it
    out of the pool, and nothing else. *)
Theorem pool_drop (acct : TxHash → Z * Address) `{HashOrder} st h :
  pool_wf acct st →
  ∃ st' gone,
    PoolInner.drop_transaction st h = Some (st', (λ r, rtx_tx r) <$> readies st !! h) ∧
    pool_step acct st st' [] gone ∧ readies st' !! h = None ∧
    (∀ tx, tx ∈ gone → rtc (link (PoolInner.ready_transactions st)) h (tx_hash tx)).
Proof. apply drop_transaction_spec. Qed.

Lemma pool_drop_witness :
  ∃ st' gone,
    PoolInner.drop_transaction sample_pool 1000 = Some (st', Some (sample_first 1000 5)) ∧
    pool_step sample_acct sample_pool st' [] gone ∧ readies st' !! 1000%Z = None.
Proof.
  destruct (pool_drop sample_acct sample_pool 1000) as (st' & gone & Heq & Hstep & Hn & _);
    [exact sample_pool_wf|].
  exists st', gone. split_and!; [|exact Hstep|exact Hn]. rewrite Heq. by vm_compute.
Defined.

(** The transactions the RPC handlers build carry the markers the pool
    relies on: they provide (nonce, sender) and require at most the preceding
    nonce of the same sender, and they do so exactly when the nonce is ahead of
    the account's. *)
Theorem api_transaction_markers (acct : TxHash → Z * Address) order pending nonce on_chain from :
  is_u64 nonce → is_u64 on_chain → acct (PendingTransaction.hash pending) = (nonce, from) →
  let tx := api_pool_transaction order pending nonce on_chain from in
  account_tx acct tx ∧ (PoolTransaction.requires tx ≠ [] ↔ (on_chain < nonce)%Z).
Proof.
  intros Hn Hc Hacct tx. unfold tx, account_tx, api_pool_transaction, required_marker, is_u64,
    saturating_sub, marker_of, prev_marker_of, PoolTransaction.hash in *. simpl in *.
  rewrite Hacct. simpl.
  destruct (Z.eqb_spec nonce on_chain) as [->|Hne];
    [|destruct (Z.leb_spec on_chain (Z.max 0 (nonce - 1)))].
  - split_and!; [lia..|done|by left|]. split; [done|lia].
  - split_and!; [lia..|done| |].
    + right. split; [lia|]. do 2 f_equal. lia.
    + split; [lia|done].
  - split_and!; [lia..|done|by left|]. split; [done|lia].
Qed.

Lemma api_transaction_markers_witness :
  let tx := api_pool_transaction Fees
    (PoolTransaction.pending_transaction (sample_first 1030 4)) 3 1 [1%Z] in
  account_tx sample_acct tx ∧ (PoolTransaction.requires tx ≠ [] ↔ (1 < 3)%Z).
Proof.
  apply (api_transaction_markers sample_acct Fees
    (PoolTransaction.pending_transaction (sample_first 1030 4)) 3 1 [1%Z]);
    vm_compute; done || by split.
Defined.

(** [Pool::notify_listener] is the retain its comment promises: every
    listener gets the hash once, and those whose receiver is gone are
    dropped; the order of the listeners may change. *)
Theorem notify_listener_retain {Sender} (try_send : Sender → TxHash → Sender * Listeners.SendResult)
    (hash : TxHash) (listener : list Sender) :
  ∃ listener', Listeners.notify_listener try_send hash listener = Some listener' ∧
    listener' ≡ₚ Listeners.retain try_send hash listener.
Proof.
  destruct (Listeners.notify_loop_spec try_send hash listener []) as (l' & Heq & Hl').
  rewrite app_nil_r in Heq, Hl'. by exists l'.
Qed.

(** * Two surprises *)

(** Removing a ready transaction leaves the link of its predecessor to it
    in place (the loop that should remove it looks for the predecessor's own
    hash).  When the dropped transaction comes back without a requirement, it
    is independent and linked at once, and the miner gets it twice. *)
Theorem stale_link_duplicates :
  ∃ st, pool_run [OpAdd 0 (sample_first 1000 5); OpAdd 1 (sample_next 1010 7);
                  OpDrop 1010; OpAdd 2 (sample_first 1010 7)] PoolInner.empty = Some st ∧
    ReadyTransactions.contains (PoolInner.ready_transactions st) 1010 = true ∧
    ready_list (PoolInner.ready_transactions st) =
      Some [sample_first 1010 7; sample_first 1000 5; sample_first 1010 7].
Proof. eexists. split; [vm_compute; reflexivity|]. split; vm_compute; reflexivity. Qed.

(** A waiting transaction that replaces another one (same sender and
    nonce, at least the same price) is added next to it: the replaced
    transaction stays in the waiting queue. *)
Theorem pending_replacement_keeps_both st ptx old p :
  PendingPoolTransaction.is_ready ptx = false →
  PendingTransactions.contains st (ptx_hash ptx) = false →
  PendingTransactions.waiting_markers st !! PoolTransaction.provides (ptx_tx ptx) = Some old →
  PendingTransactions.waiting_queue st !! old = Some p →
  (PoolTransaction.gas_price (ptx_tx p) ≤ PoolTransaction.gas_price (ptx_tx ptx))%Z →
  ∃ st', PendingTransactions.add_transaction st ptx = Some (st', Ok tt) ∧
    PendingTransactions.waiting_queue st' !! old = Some p ∧
    PendingTransactions.waiting_queue st' !! ptx_hash ptx = Some ptx ∧
    PendingTransactions.len st' = S (PendingTransactions.len st).
Proof.
  intros Hr Hc Hm Hp Hge. unfold PendingTransactions.add_transaction.
  rewrite Hr, Hc, Hm. simpl. rewrite Hp. apply contains_false in Hc.
  destruct (Z.ltb_spec (PoolTransaction.gas_price (ptx_tx ptx))
    (PoolTransaction.gas_price (ptx_tx p))); [lia|].
  eexists. split; [done|]. unfold PendingTransactions.len. simpl.
  rewrite lookup_insert_ne, lookup_insert_eq, map_size_insert_None by congruence. done.
Qed.

Lemma pending_replacement_keeps_both_witness :
  ∃ st', PendingTransactions.add_transaction (PoolInner.pending_transactions sample_pool)
      (PendingPoolTransaction.new 9 (sample_next 1031 8) ∅) = Some (st', Ok tt) ∧
    PendingTransactions.len st' = 2.
Proof.
  destruct (pending_replacement_keeps_both (PoolInner.pending_transactions sample_pool)
    (PendingPoolTransaction.new 9 (sample_next 1031 8) ∅) 1030
    (PendingPoolTransaction.new 3 (sample_next 1030 4) ∅)) as (st' & Heq & _ & _ & Hlen);
    [by vm_compute..|].
  exists st'. split; [exact Heq|]. rewrite Hlen. by vm_compute.
Defined.
