(* ===== verification/Clock.v ===== *)
(** The block clock (anvil/src/eth/backend/time.rs).

    [now] stands for [duration_since_unix_epoch().as_secs()].  The addition
    [last_timestamp + 1] overflows in 64 bits when the last block has the
    greatest timestamp: a build with overflow checks panics ([None]), one
    without wraps. *)
From S2P Require Import Prelude.

Module TimeManager.
Record t := mk {
  offset : Z;
  last_timestamp : Z;
  next_exact_timestamp : option Z;
  interval : option Z }.

Definition reset (now : Z) (st : t) (start_timestamp : Z) : t :=
  mk (start_timestamp - now) start_timestamp None (interval st).

Definition new (now : Z) (start_timestamp : Z) : t :=
  reset now (mk 0 0 None None) start_timestamp.

Definition add_offset (st : t) (o : Z) : t * Z :=
  let next := saturating_add_i128 (offset st) o in
  (mk next (last_timestamp st) (next_exact_timestamp st) (interval st), next).

Definition increase_time (st : t) (seconds : Z) : t * Z := add_offset st seconds.

(** [Err] is [BlockchainError::TimestampError]. *)
Definition set_next_block_timestamp (st : t) (timestamp : Z) : t * result unit unit :=
  if (timestamp <? last_timestamp st)%Z then (st, Err tt)
  else (mk (offset st) (last_timestamp st) (Some timestamp) (interval st), Ok tt).

Definition set_block_timestamp_interval (st : t) (i : Z) : t :=
  mk (offset st) (last_timestamp st) (next_exact_timestamp st) (Some i).

Definition remove_block_timestamp_interval (st : t) : t * bool :=
  (mk (offset st) (last_timestamp st) (next_exact_timestamp st) None,
   bool_decide (is_Some (interval st))).

(** [last_timestamp + 1]. *)
Definition succ_u64 (overflow_checks : bool) (x : Z) : option Z :=
  if (x =? u64_max)%Z then if overflow_checks then None else Some 0%Z else Some (x + 1)%Z.

Definition compute_next_timestamp (overflow_checks : bool) (now : Z) (st : t) :
    option (Z * option Z) :=
  let '(next, update_offset) :=
    match next_exact_timestamp st with
    | Some next => (next, true)
    | None =>
        match interval st with
        | Some i => (saturating_add_u64 (last_timestamp st) i, false)
        | None => (as_u64 (saturating_add_i128 now (offset st)), false)
        end
    end in
  next ← (if (next <? last_timestamp st)%Z then succ_u64 overflow_checks (last_timestamp st)
          else Some next);
  Some (next, if update_offset : bool then Some (next - now)%Z else None).

Definition next_timestamp (overflow_checks : bool) (now : Z) (st : t) : option (t * Z) :=
  '(next, next_offset) ← compute_next_timestamp overflow_checks now st;
  Some (mk (default (offset st) next_offset) next None (interval st), next).

Definition current_call_timestamp (overflow_checks : bool) (now : Z) (st : t) : option Z :=
  fst <$> compute_next_timestamp overflow_checks now st.
End TimeManager.

Import TimeManager.

(** The fields are in the range of their types. *)
Record time_wf (st : t) : Prop := {
  tw_offset : is_i128 (offset st);
  tw_last : is_u64 (last_timestamp st);
  tw_exact x : next_exact_timestamp st = Some x →
    is_u64 x ∧ (last_timestamp st ≤ x)%Z;
  tw_interval i : interval st = Some i → is_u64 i;
}.

(** The operations that change the clock, [reset] apart. *)
Inductive time_op :=
  | TIncrease (seconds : Z)
  | TSetNext (timestamp : Z)
  | TSetInterval (i : Z)
  | TRemoveInterval
  | TNext (now : Z).

(** The argument is in the range of its type; the clock reads a time of day. *)
Definition time_op_ok (op : time_op) : Prop :=
  match op with
  | TIncrease s => is_u64 s
  | TSetNext x => is_u64 x
  | TSetInterval i => is_u64 i
  | TRemoveInterval => True
  | TNext now => is_u64 now
  end.

(** The clock after an operation, and the timestamp it gave a block. *)
Definition time_exec (oc : bool) (op : time_op) (st : t) : option (t * option Z) :=
  match op with
  | TIncrease s => Some ((increase_time st s).1, None)
  | TSetNext x => Some ((set_next_block_timestamp st x).1, None)
  | TSetInterval i => Some (set_block_timestamp_interval st i, None)
  | TRemoveInterval => Some ((remove_block_timestamp_interval st).1, None)
  | TNext now => '(st, x) ← next_timestamp oc now st; Some (st, Some x)
  end.

Fixpoint time_run (oc : bool) (ops : list time_op) (st : t) : option (t * list Z) :=
  match ops with
  | [] => Some (st, [])
  | op :: ops =>
      '(st, block) ← time_exec oc op st;
      '(st, blocks) ← time_run oc ops st;
      Some (st, option_list block ++ blocks)
  end.

Lemma saturating_add_i128_range x y : is_i128 (saturating_add_i128 x y).
Proof. unfold is_i128, saturating_add_i128, i128_min, i128_max. lia. Qed.

Lemma time_wf_new now start : is_u64 now → is_u64 start → time_wf (new now start).
Proof.
  unfold new, reset, is_u64, u64_max. intros Hn Hs.
  split; simpl; [unfold is_i128, i128_min, i128_max|done|done|done]. lia.
Qed.

(** What the next timestamp is. *)
Lemma compute_next_spec oc now st :
  time_wf st → is_u64 now → (last_timestamp st < u64_max)%Z →
  ∃ x o, compute_next_timestamp oc now st = Some (x, o) ∧ is_u64 x ∧
    (last_timestamp st ≤ x)%Z ∧
    (∀ e, next_exact_timestamp st = Some e → x = e ∧ o = Some (e - now)%Z) ∧
    (next_exact_timestamp st = None → o = None) ∧
    (∀ i, next_exact_timestamp st = None → interval st = Some i →
      x = saturating_add_u64 (last_timestamp st) i) ∧
    (next_exact_timestamp st = None → interval st = None →
      (last_timestamp st ≤ now + offset st ≤ u64_max)%Z → x = (now + offset st)%Z).
Proof.
  intros [Ho Hl He Hi] Hn Hlt. unfold compute_next_timestamp, succ_u64.
  assert (∀ z, is_u64 (as_u64 z)) as Hr by apply as_u64_range.
  unfold is_u64, u64_max, is_i128, i128_min, i128_max in *.
  assert ((last_timestamp st =? 2 ^ 64 - 1)%Z = false) as -> by lia.
  destruct (next_exact_timestamp st) as [e|].
  { destruct (He e) as [Her Hle]; [done|].
    assert ((e <? last_timestamp st)%Z = false) as -> by lia.
    eexists _, _. split; [reflexivity|]. simpl. split_and!; naive_solver lia. }
  destruct (interval st) as [i|].
  { pose proof (Hi i eq_refl). unfold saturating_add_u64, u64_max.
    assert ((Z.min (2 ^ 64 - 1) (last_timestamp st + i) <? last_timestamp st)%Z = false) as -> by lia.
    eexists _, _. split; [reflexivity|]. simpl. split_and!; naive_solver lia. }
  specialize (Hr (saturating_add_i128 now (offset st))).
  destruct (Z.ltb_spec (as_u64 (saturating_add_i128 now (offset st))) (last_timestamp st));
    eexists _, _; (split; [reflexivity|]); simpl; split_and!; try done; try lia;
    intros _ _ Hb; unfold as_u64, saturating_add_i128, i128_min, i128_max, u64_max in *;
    rewrite Z.mod_small in * by lia; lia.
Qed.

Lemma time_exec_spec oc op st :
  time_wf st → time_op_ok op → (last_timestamp st < u64_max)%Z →
  ∃ st' block, time_exec oc op st = Some (st', block) ∧ time_wf st' ∧
    last_timestamp st' = default (last_timestamp st) block ∧
    (last_timestamp st ≤ last_timestamp st')%Z.
Proof.
  intros Hwf Hok Hlt. pose proof Hwf as [Ho Hl He Hi]. destruct op as [s|x|i| |now]; simpl in *.
  - eexists _, _. split; [done|]. split_and!; [|done|simpl; lia].
    split; simpl; [apply saturating_add_i128_range|done..].
  - unfold set_next_block_timestamp. destruct (Z.ltb_spec x (last_timestamp st)); simpl.
    + eexists _, _. split; [done|]. split_and!; [done|done|lia].
    + eexists _, _. split; [done|]. split_and!; [|done|simpl; lia].
      split; simpl; [done|done| |done]. by intros ? [= <-].
  - eexists _, _. split; [done|]. split_and!; [|done|simpl; lia].
    split; simpl; [done..|]. by intros ? [= <-].
  - eexists _, _. split; [done|]. split_and!; [|done|simpl; lia]. split; done.
  - destruct (compute_next_spec oc now st) as (x & o & Hc & Hx & Hle & Hex & Hno & _); [done..|].
    unfold next_timestamp. rewrite Hc. simpl. eexists _, _. split; [done|].
    split_and!; [|done|done]. split; simpl; [|done|done|done].
    destruct (next_exact_timestamp st) as [e|]; [|by rewrite Hno by done].
    destruct (Hex e) as [-> ->]; [done|]. simpl.
    unfold is_i128, i128_min, i128_max, is_u64, u64_max in *. lia.
Qed.

(** Block timestamps never go back.  Whatever the sequence of clock
    operations and whatever the system clock reads, the timestamps given to
    blocks are in non-decreasing order, starting from the last block's, and no
    operation panics, until a block carries the greatest 64-bit timestamp. *)
Theorem time_monotone oc ops st :
  time_wf st → Forall time_op_ok ops →
  (∃ ops1 ops2 st1 blocks, ops = ops1 ++ ops2 ∧ time_run oc ops1 st = Some (st1, blocks) ∧
    last_timestamp st1 = u64_max ∧ StronglySorted Z.le (last_timestamp st :: blocks)) ∨
  ∃ st' blocks, time_run oc ops st = Some (st', blocks) ∧ time_wf st' ∧
    StronglySorted Z.le (last_timestamp st :: blocks).
Proof.
  intros Hwf Hops. revert st Hwf.
  induction Hops as [|op ops Hok Hops IH]; intros st Hwf.
  { right. exists st, []. split_and!; [done|done|]. repeat constructor. }
  destruct (decide (last_timestamp st = u64_max)) as [Hmax|Hmax].
  { left. exists [], (op :: ops), st, []. split_and!; [done..|]. repeat constructor. }
  assert (last_timestamp st < u64_max)%Z as Hlt by (destruct (tw_last _ Hwf); lia).
  destruct (time_exec_spec oc op st Hwf Hok Hlt) as (st1 & block & Hex & Hwf1 & Hlast & Hle).
  assert (∀ blocks, StronglySorted Z.le (last_timestamp st1 :: blocks) →
    StronglySorted Z.le (last_timestamp st :: option_list block ++ blocks)) as Hsort.
  { intros blocks Hs. apply StronglySorted_inv in Hs as [Hs Hall].
    assert (Forall (Z.le (last_timestamp st)) blocks) as Hall'.
    { eapply Forall_impl; [exact Hall|]. intros z ?. simpl in *. lia. }
    destruct block as [x|]; simpl in *; rewrite ?Hlast in *; by repeat constructor. }
  destruct (IH st1 Hwf1) as [(ops1 & ops2 & st2 & bs & -> & Hrun & Hm & Hs)|
    (st' & bs & Hrun & Hwf' & Hs)].
  - left. exists (op :: ops1), ops2, st2, (option_list block ++ bs). simpl.
    rewrite Hex. simpl. rewrite Hrun. auto.
  - right. exists st', (option_list block ++ bs). simpl. rewrite Hex. simpl. rewrite Hrun. auto.
Qed.

Lemma time_monotone_witness :
  let st := new 100 50 in
  let ops := [TIncrease 10; TNext 101; TSetNext 70; TNext 101; TSetInterval 5; TNext 200;
              TRemoveInterval; TNext 102] in
  (∃ ops1 ops2 st1 blocks, ops = ops1 ++ ops2 ∧ time_run true ops1 st = Some (st1, blocks) ∧
    last_timestamp st1 = u64_max ∧ StronglySorted Z.le (last_timestamp st :: blocks)) ∨
  ∃ st' blocks, time_run true ops st = Some (st', blocks) ∧ time_wf st' ∧
    StronglySorted Z.le (last_timestamp st :: blocks).
Proof.
  intros st ops. apply (time_monotone true ops st).
  - apply time_wf_new; vm_compute; by split.
  - repeat apply Forall_cons_2; try apply Forall_nil_2; vm_compute; by split.
Defined.

(** The timestamp of the next block on every branch.  An exact timestamp
    set before is used as it is and becomes the new origin of the clock: a
    later block gets it plus the seconds that passed.  With an interval the
    next block is one interval after the last one.  Otherwise it is the system
    time plus the offset.  In each case the exact timestamp is consumed, the
    interval kept, and a call sees the same timestamp. *)
Theorem next_timestamp_outcome oc now st :
  time_wf st → is_u64 now → (last_timestamp st < u64_max)%Z →
  ∃ st' x, next_timestamp oc now st = Some (st', x) ∧
    current_call_timestamp oc now st = Some x ∧
    last_timestamp st' = x ∧ next_exact_timestamp st' = None ∧ interval st' = interval st ∧
    (∀ e, next_exact_timestamp st = Some e → x = e ∧
      (∀ now', interval st = None → (now ≤ now')%Z → (e + (now' - now) < u64_max)%Z →
        is_u64 now' → (e < u64_max)%Z →
        current_call_timestamp oc now' st' = Some (e + (now' - now))%Z)) ∧
    (∀ i, next_exact_timestamp st = None → interval st = Some i →
      x = saturating_add_u64 (last_timestamp st) i ∧ offset st' = offset st) ∧
    (next_exact_timestamp st = None → interval st = None →
      (last_timestamp st ≤ now + offset st ≤ u64_max)%Z →
      x = (now + offset st)%Z ∧ offset st' = offset st).
Proof.
  intros Hwf Hn Hlt.
  destruct (compute_next_spec oc now st Hwf Hn Hlt)
    as (x & o & Hc & Hx & Hle & Hex & Hno & Hint & Hclk).
  unfold next_timestamp, current_call_timestamp. rewrite Hc. simpl.
  eexists _, x. split; [done|]. simpl. split_and!; [done..|idtac| |].
  - intros e He. destruct (Hex e He) as [-> ->]. split; [done|].
    intros now' Hi Hge Hb Hn' Hemax. simpl.
    set (st' := mk (e - now) e None (interval st)).
    assert (time_wf st') as Hwf'.
    { destruct (tw_exact _ Hwf e He) as [Her _].
      split; simpl; [|done|done|by rewrite Hi].
      unfold is_i128, i128_min, i128_max, is_u64, u64_max in *. lia. }
    destruct (compute_next_spec oc now' st' Hwf' Hn' Hemax)
      as (x' & o' & Hc' & _ & _ & _ & _ & _ & Hclk').
    rewrite Hc'. simpl. f_equal. rewrite Hclk'; simpl; [lia|done|done|lia].
  - intros i He Hi. rewrite (Hno He). simpl. auto.
  - intros He Hi Hb. rewrite (Hno He). simpl. auto.
Qed.

Lemma next_timestamp_outcome_witness :
  ∃ st', next_timestamp true 101 (mk 0 50 (Some 70%Z) None) = Some (st', 70%Z) ∧
    current_call_timestamp true 111 st' = Some 80%Z.
Proof.
  destruct (next_timestamp_outcome true 101 (mk 0 50 (Some 70%Z) None))
    as (st' & x & Hnext & _ & _ & _ & _ & Hex & _).
  - split; simpl; [by vm_compute|by vm_compute| |done].
    intros ? [= <-]. vm_compute. repeat split; discriminate.
  - vm_compute. by split.
  - by vm_compute.
  - destruct (Hex 70%Z eq_refl) as [-> Hlater]. exists st'. split; [exact Hnext|].
    apply (Hlater 111%Z); vm_compute; done || by split.
Defined.

(** A timestamp equal to the last block's is accepted, and the next
    block then carries the same timestamp as its parent. *)
Theorem next_block_timestamp_may_repeat oc now st :
  time_wf st → is_u64 now → (last_timestamp st < u64_max)%Z →
  ∃ st1 st2, set_next_block_timestamp st (last_timestamp st) = (st1, Ok tt) ∧
    next_timestamp oc now st1 = Some (st2, last_timestamp st).
Proof.
  intros Hwf Hn Hlt. unfold set_next_block_timestamp. rewrite Z.ltb_irrefl.
  set (st1 := mk _ _ _ _). assert (time_wf st1) as Hwf1.
  { split; simpl; [apply Hwf|apply Hwf| |apply Hwf]. intros ? [= <-]. split; [apply Hwf|lia]. }
  destruct (compute_next_spec oc now st1 Hwf1 Hn Hlt) as (x & o & Hc & _ & _ & Hex & _).
  destruct (Hex _ eq_refl) as [-> ->].
  eexists _, _. split; [done|]. unfold next_timestamp. by rewrite Hc.
Qed.

Lemma next_block_timestamp_may_repeat_witness :
  ∃ st1 st2, set_next_block_timestamp (new 100 50) 50 = (st1, Ok tt) ∧
    next_timestamp true 100 st1 = Some (st2, 50%Z).
Proof.
  apply (next_block_timestamp_may_repeat true 100 (new 100 50)).
  - apply time_wf_new; vm_compute; by split.
  - vm_compute. by split.
  - by vm_compute.
Defined.
