(* ===== verification/Mining.v ===== *)
(** The miner (anvil/src/eth/miner.rs), which picks transactions from the
    pool, and the block producer and node service (anvil/src/service.rs) that
    mine one block at a time.

    A poll is a function of the state and of what the environment offers at
    that moment: the hashes waiting in the notification channel, whether the
    interval ticks, whether the mining task has finished. *)
From S2P Require Import Prelude Transaction PoolTx PendingQueue ReadyQueue ReadyInv ReadyIter Pool PoolInv PoolOps PoolTheorems.

Inductive Poll (A : Type) :=
  | PollReady (x : A)
  | PollPending.
Arguments PollReady {A} _.
Arguments PollPending {A}.

(** ** The mining modes *)

Module ReadyTransactionMiner.
(** [rx] holds the notifications that were sent and not yet received. *)
Record t := mk { max_transactions : nat; has_pending_txs : option bool; rx : list TxHash }.

(** The first loop of [poll]: drain the notification stream. *)
Definition drain (m : t) : t :=
  match rx m with
  | [] => m
  | _ => mk (max_transactions m) (Some true) []
  end.

Definition poll (m : t) (pool : PoolInner.t) :
    option (t * Poll (list PoolTransaction.t)) :=
  let m := drain m in
  if decide (has_pending_txs m = Some false) then Some (m, PollPending)
  else
    transactions ← TransactionsIterator.take_collect (max_transactions m)
      (get_transactions (PoolInner.ready_transactions pool));
    let m := mk (max_transactions m)
      (Some (bool_decide (max_transactions m ≤ length transactions))) (rx m) in
    match transactions with
    | [] => Some (m, PollPending)
    | _ => Some (m, PollReady transactions)
    end.
End ReadyTransactionMiner.

Module FixedBlockTimeMiner.
(** The period of the interval, in nanoseconds. *)
Record t := mk { period : Z }.

Definition new (duration : Z) : t := mk duration.
Definition default : t := new (6 * 10 ^ 9).

(** [tick]: [interval.poll_tick(cx).is_ready()]. *)
Definition poll (tick : bool) (pool : PoolInner.t) :
    option (Poll (list PoolTransaction.t)) :=
  if tick then
    transactions ← ready_list (PoolInner.ready_transactions pool);
    Some (PollReady transactions)
  else Some PollPending.
End FixedBlockTimeMiner.

Module MiningMode.
Inductive t :=
  | MNone
  | Auto (m : ReadyTransactionMiner.t)
  | FixedBlockTime (m : FixedBlockTimeMiner.t)
  | Mixed (auto : ReadyTransactionMiner.t) (fixed : FixedBlockTimeMiner.t).

Definition instant (max_transactions : nat) (listener : list TxHash) : t :=
  Auto (ReadyTransactionMiner.mk max_transactions None listener).

Definition interval (duration : Z) : t := FixedBlockTime (FixedBlockTimeMiner.new duration).

Definition mixed (max_transactions : nat) (listener : list TxHash) (duration : Z) : t :=
  Mixed (ReadyTransactionMiner.mk max_transactions None listener)
    (FixedBlockTimeMiner.new duration).

(** The loop that combines both sets: "filter unique transactions". *)
Fixpoint combine (auto_txs fixed_txs : list PoolTransaction.t) : list PoolTransaction.t :=
  match fixed_txs with
  | [] => auto_txs
  | tx :: fixed_txs =>
      combine
        (if existsb (λ auto_tx, PoolTransaction.hash auto_tx =? PoolTransaction.hash tx)%Z auto_txs
         then auto_txs else auto_txs ++ [tx]) fixed_txs
  end.

Definition poll (tick : bool) (mode : t) (pool : PoolInner.t) :
    option (t * Poll (list PoolTransaction.t)) :=
  match mode with
  | MNone => Some (mode, PollPending)
  | Auto miner =>
      '(miner, res) ← ReadyTransactionMiner.poll miner pool;
      Some (Auto miner, res)
  | FixedBlockTime _ =>
      res ← FixedBlockTimeMiner.poll tick pool;
      Some (mode, res)
  | Mixed auto fixed =>
      '(auto, auto_txs) ← ReadyTransactionMiner.poll auto pool;
      fixed_txs ← FixedBlockTimeMiner.poll tick pool;
      Some (Mixed auto fixed,
        match auto_txs, fixed_txs with
        | PollReady auto_txs, PollReady fixed_txs => PollReady (combine auto_txs fixed_txs)
        | PollReady auto_txs, PollPending => PollReady auto_txs
        | PollPending, fixed_txs => fixed_txs
        end)
  end.

Definition is_auto (mode : t) : bool := match mode with Auto _ => true | _ => false end.
End MiningMode.

Module Miner.
Record t := mk { mode : MiningMode.t; force_transactions : option (list PoolTransaction.t) }.

Definition new (mode : MiningMode.t) : t := mk mode None.

Definition with_forced_transactions (m : t) (txs : option (list PoolTransaction.t)) : t :=
  mk (mode m) txs.

Definition is_auto_mine (m : t) : bool := MiningMode.is_auto (mode m).

(** In whole seconds. *)
Definition get_interval (m : t) : option Z :=
  match mode m with
  | MiningMode.FixedBlockTime mm => Some (FixedBlockTimeMiner.period mm / 10 ^ 9)%Z
  | _ => None
  end.

Definition set_mining_mode (m : t) (md : MiningMode.t) : t := mk md (force_transactions m).

Definition poll (tick : bool) (m : t) (pool : PoolInner.t) :
    option (t * Poll (list PoolTransaction.t)) :=
  '(md, next) ← MiningMode.poll tick (mode m) pool;
  match next with
  | PollPending => Some (mk md (force_transactions m), PollPending)
  | PollReady next =>
      match force_transactions m with
      | Some transactions => Some (mk md None, PollReady (transactions ++ next))
      | None => Some (mk md None, PollReady next)
      end
  end.
End Miner.

(** ** The block producer *)

Module BlockProducer.
Section backend.
(** [mine_block] of the backend, run by the mining task. *)
Context {Backend : Type}.
Context (mine_block : Backend → list PoolTransaction.t → MinedBlockOutcome.t * Backend).

(** A task in flight is represented by the backend and the transactions it
    was started with. *)
Record t := mk { idle_backend : option Backend;
  block_mining : option (Backend * list PoolTransaction.t);
  queued : list (list PoolTransaction.t) }.

Definition new (backend : Backend) : t := mk (Some backend) None [].

Definition push_back (p : t) (transactions : list PoolTransaction.t) : t :=
  mk (idle_backend p) (block_mining p) (queued p ++ [transactions]).

(** Starts the next task if the backend is idle. *)
Definition start (p : t) : t :=
  match queued p, idle_backend p with
  | transactions :: rest, Some backend => mk None (Some (backend, transactions)) rest
  | _, _ => p
  end.

(** [finished]: whether the task in flight is done when it is polled. *)
Definition poll_next (finished : bool) (p : t) : t * Poll MinedBlockOutcome.t :=
  let p := start p in
  match block_mining p with
  | Some (backend, transactions) =>
      if finished then
        let '(outcome, backend) := mine_block backend transactions in
        (mk (Some backend) None (queued p), PollReady outcome)
      else (p, PollPending)
  | None => (p, PollPending)
  end.
End backend.
End BlockProducer.

(** ** The node service *)

Module NodeService.
Section backend.
Context {Backend : Type}.
Context (mine_block : Backend → list PoolTransaction.t → MinedBlockOutcome.t * Backend).
Context `{HashOrder}.

Record t := mk { pool : PoolInner.t; block_producer : BlockProducer.t (Backend := Backend);
  miner : Miner.t }.

(** One round of the inner loop of [poll]: a mined block prunes the pool. *)
Definition poll_producer (finished : bool) (s : t) : option (t * bool) :=
  let '(producer, res) := BlockProducer.poll_next mine_block finished (block_producer s) in
  match res with
  | PollReady outcome =>
      '(pool, _) ← PoolInner.on_mined_block (pool s) outcome;
      Some (mk pool producer (miner s), true)
  | PollPending => Some (mk (pool s) producer (miner s), false)
  end.

(** The miner's turn: its transactions are queued. *)
Definition poll_miner (tick : bool) (s : t) : option (t * bool) :=
  '(miner, res) ← Miner.poll tick (miner s) (pool s);
  match res with
  | PollReady transactions =>
      Some (mk (pool s) (BlockProducer.push_back (block_producer s) transactions) miner, true)
  | PollPending => Some (mk (pool s) (block_producer s) miner, false)
  end.

(** The loop of [poll]: the producer is polled until it is pending, then the
    miner; the loop ends ([true]) when the miner is pending as well.  Each
    round consumes what the environment answers: whether the mining task is
    finished and whether the interval ticks. *)
Fixpoint poll (answers : list (bool * bool)) (s : t) : option (t * bool) :=
  match answers with
  | [] => Some (s, false)
  | (finished, tick) :: answers =>
      '(s, mined) ← poll_producer finished s;
      if mined : bool then poll answers s
      else
        '(s, progress) ← poll_miner tick s;
        if progress : bool then poll answers s else Some (s, true)
  end.

(** A pool operation of an RPC handler.  The hashes of transactions that
    become ready are sent to the miner's channel, which holds 2049
    notifications (the buffer of 2048 and one slot per sender). *)
Definition deliver (hashes : list TxHash) (rx : list TxHash) : list TxHash :=
  foldl (λ rx h, if decide (length rx < 2049) then rx ++ [h] else rx) rx hashes.

Definition notify_mode (hashes : list TxHash) (mode : MiningMode.t) : MiningMode.t :=
  let notify m := ReadyTransactionMiner.mk (ReadyTransactionMiner.max_transactions m)
    (ReadyTransactionMiner.has_pending_txs m)
    (deliver hashes (ReadyTransactionMiner.rx m)) in
  match mode with
  | MiningMode.Auto m => MiningMode.Auto (notify m)
  | MiningMode.Mixed m f => MiningMode.Mixed (notify m) f
  | _ => mode
  end.

Definition rpc (op : pool_op) (s : t) : option t :=
  match op with
  | OpAdd now tx =>
      '(pool, res) ← PoolInner.add_transaction now (pool s) tx;
      let hashes :=
        match res with
        | Ok (Ready o) => ReadyOutcome.hash o :: ReadyOutcome.promoted o
        | _ => []
        end in
      Some (mk pool (block_producer s)
        (Miner.set_mining_mode (miner s) (notify_mode hashes (Miner.mode (miner s)))))
  | _ => pool ← pool_exec op (pool s); Some (mk pool (block_producer s) (miner s))
  end.

(** A run of the node interleaves RPC calls, polls of the block producer and
    polls of the miner in any order. *)
Inductive event :=
  | EvRpc (op : pool_op)
  | EvProducer (finished : bool)
  | EvMiner (tick : bool)
  | EvSetMode (mode : MiningMode.t).

Definition exec (e : event) (s : t) : option t :=
  match e with
  | EvRpc op => rpc op s
  | EvProducer finished => fst <$> poll_producer finished s
  | EvMiner tick => fst <$> poll_miner tick s
  | EvSetMode mode => Some (mk (pool s) (block_producer s) (Miner.set_mining_mode (miner s) mode))
  end.

Fixpoint run (es : list event) (s : t) : option t :=
  match es with
  | [] => Some s
  | e :: es => s ← exec e s; run es s
  end.

Definition ev_submits (e : event) : list PoolTransaction.t :=
  match e with EvRpc op => op_submits op | _ => [] end.
End backend.
End NodeService.

(** * Lemmas *)

Section account.
Context (acct : TxHash → Z * Address).

Lemma ready_miner_poll_spec m pool :
  pool_wf acct pool →
  ∃ l m' res, ready_list (PoolInner.ready_transactions pool) = Some l ∧
    ReadyTransactionMiner.poll m pool = Some (m', res) ∧
    ReadyTransactionMiner.max_transactions m' = ReadyTransactionMiner.max_transactions m ∧
    ReadyTransactionMiner.rx m' = [] ∧
    ((ReadyTransactionMiner.has_pending_txs m = Some false ∧ ReadyTransactionMiner.rx m = [] ∧
      m' = m ∧ res = PollPending) ∨
     (ReadyTransactionMiner.has_pending_txs m' =
        Some (bool_decide (ReadyTransactionMiner.max_transactions m ≤ length l)) ∧
      res = match take (ReadyTransactionMiner.max_transactions m) l with
            | [] => PollPending
            | txs => PollReady txs
            end)).
Proof.
  intros Hwf. destruct (ready_list_complete acct _ (pl_ready _ _ Hwf)) as (l & Hl & _).
  exists l. unfold ReadyTransactionMiner.poll. destruct m as [mx hp rx].
  assert (∃ hp', ReadyTransactionMiner.drain (ReadyTransactionMiner.mk mx hp rx) =
    ReadyTransactionMiner.mk mx hp' [] ∧ (hp' = Some false → hp = Some false ∧ rx = []))
    as (hp' & -> & Hhp).
  { destruct rx as [|h rx]; eexists; (split; [done|]); [|done]. auto. }
  case_decide as Hp; simpl in Hp.
  { destruct (Hhp Hp) as [-> ->]. subst hp'. eexists _, _. split_and!; [done..|].
    left. by split_and!. }
  simpl. rewrite (take_collect_prefix _ _ _ _ Hl). cbn [mbind option_bind].
  replace (bool_decide (mx ≤ length (take mx l))) with (bool_decide (mx ≤ length l));
    [|apply bool_decide_ext; rewrite length_take; lia].
  destruct (take mx l) eqn:Ht; eexists _, _; (split_and!; [done..|]); right;
    by split.
Qed.

Lemma mode_poll_total tick mode pool :
  pool_wf acct pool → ∃ mode' res, MiningMode.poll tick mode pool = Some (mode', res).
Proof.
  intros Hwf. destruct (ready_list_complete acct _ (pl_ready _ _ Hwf)) as (l & Hl & _).
  assert (∃ res, FixedBlockTimeMiner.poll tick pool = Some res) as [fres Hf].
  { unfold FixedBlockTimeMiner.poll. rewrite Hl. destruct tick; by eexists. }
  destruct mode as [|m|f|m f]; simpl.
  - by eexists _, _.
  - destruct (ready_miner_poll_spec m pool Hwf) as (_ & m' & res & _ & -> & _). by eexists _, _.
  - rewrite Hf. by eexists _, _.
  - destruct (ready_miner_poll_spec m pool Hwf) as (_ & m' & res & _ & -> & _). simpl.
    rewrite Hf. by eexists _, _.
Qed.

Lemma miner_poll_total tick m pool :
  pool_wf acct pool → ∃ m' res, Miner.poll tick m pool = Some (m', res).
Proof.
  intros Hwf. unfold Miner.poll.
  destruct (mode_poll_total tick (Miner.mode m) pool Hwf) as (mode' & res & ->). simpl.
  destruct res; [destruct (Miner.force_transactions m)|]; by eexists _, _.
Qed.

End account.

Section combine.
Abbreviation hashes l := (tx_hash <$> l).

Lemma known_hash (tx : PoolTransaction.t) (l : list PoolTransaction.t) :
  existsb (λ a, (tx_hash a =? tx_hash tx)%Z) l = true ↔ tx_hash tx ∈ hashes l.
Proof.
  rewrite existsb_exists, list_elem_of_fmap. split.
  - intros (a & Hin%list_elem_of_In & Heq%Z.eqb_eq). by exists a.
  - intros (a & Heq & Hin%list_elem_of_In). exists a. split; [done|]. by apply Z.eqb_eq.
Qed.

Lemma combine_spec auto_txs fixed_txs :
  ∃ extra, MiningMode.combine auto_txs fixed_txs = auto_txs ++ extra ∧ extra ⊆+ fixed_txs ∧
    (NoDup (hashes auto_txs) → NoDup (hashes (auto_txs ++ extra))) ∧
    (∀ tx, tx ∈ fixed_txs → tx_hash tx ∈ hashes (auto_txs ++ extra)).
Proof.
  revert auto_txs. induction fixed_txs as [|tx fixed_txs IH]; intros auto_txs; simpl.
  { exists []. rewrite app_nil_r. split_and!; [done..|]. by intros tx ?%elem_of_nil. }
  destruct (existsb _ auto_txs) eqn:Hk.
  - destruct (IH auto_txs) as (extra & -> & Hsub & Hnd & Hall). exists extra.
    split_and!; [done|by apply submseteq_cons|done|].
    intros tx' [->|?]%elem_of_cons; [|by apply Hall].
    apply known_hash in Hk. rewrite fmap_app. apply elem_of_app. by left.
  - destruct (IH (auto_txs ++ [tx])) as (extra & -> & Hsub & Hnd & Hall).
    exists (tx :: extra). rewrite <- app_assoc in *. simpl in *.
    split_and!; [done|by apply submseteq_skip| |].
    + intros Hnd0. apply Hnd. rewrite fmap_app. apply NoDup_app.
      split_and!; [done| |apply NoDup_singleton].
      intros h Hin ->%list_elem_of_singleton. apply known_hash in Hin. congruence.
    + intros tx' [->|?]%elem_of_cons; [|by apply Hall].
      rewrite fmap_app. apply elem_of_app. right. by left.
Qed.

End combine.

Section producer.
Context {Backend : Type}.
Context (mine_block : Backend → list PoolTransaction.t → MinedBlockOutcome.t * Backend).

(** Mining the sets one after the other. *)
Fixpoint mine_all (b : Backend) (sets : list (list PoolTransaction.t)) :
    list MinedBlockOutcome.t * Backend :=
  match sets with
  | [] => ([], b)
  | txs :: sets =>
      let '(outcome, b) := mine_block b txs in
      let '(outcomes, b) := mine_all b sets in (outcome :: outcomes, b)
  end.

Lemma mine_all_app b sets txs :
  mine_all b (sets ++ [txs]) =
    let '(outcomes, b') := mine_all b sets in
    let '(outcome, b'') := mine_block b' txs in (outcomes ++ [outcome], b'').
Proof.
  revert b. induction sets as [|s sets IH]; intros b; simpl.
  { by destruct (mine_block b txs). }
  destruct (mine_block b s) as [o b1]. rewrite IH. destruct (mine_all b1 sets) as [os b2].
  by destruct (mine_block b2 txs).
Qed.

(** The producer has used the backend [b] to mine [done] and nothing else,
    and the sets still to be mined are [rest], in order. *)
Definition producing (b : Backend) (done rest : list (list PoolTransaction.t))
    (p : BlockProducer.t (Backend := Backend)) : Prop :=
  (BlockProducer.idle_backend p = Some (mine_all b done).2 ∧
   BlockProducer.block_mining p = None ∧ BlockProducer.queued p = rest) ∨
  (∃ txs, BlockProducer.idle_backend p = None ∧
   BlockProducer.block_mining p = Some ((mine_all b done).2, txs) ∧
   rest = txs :: BlockProducer.queued p).

(** What the environment does to the producer. *)
Inductive producer_event :=
  | PPush (txs : list PoolTransaction.t)
  | PPoll (finished : bool).

Fixpoint producer_run (es : list producer_event) (p : BlockProducer.t (Backend := Backend)) :
    BlockProducer.t (Backend := Backend) * list MinedBlockOutcome.t :=
  match es with
  | [] => (p, [])
  | PPush txs :: es => producer_run es (BlockProducer.push_back p txs)
  | PPoll finished :: es =>
      let '(p, res) := BlockProducer.poll_next mine_block finished p in
      let '(p, outcomes) := producer_run es p in
      (p, match res with PollReady o => o :: outcomes | PollPending => outcomes end)
  end.

Definition pushed (es : list producer_event) : list (list PoolTransaction.t) :=
  omap (λ e, match e with PPush txs => Some txs | PPoll _ => None end) es.

Lemma start_spec b done rest p :
  producing b done rest p →
  producing b done rest (BlockProducer.start p) ∧
  (rest ≠ [] → BlockProducer.block_mining (BlockProducer.start p) ≠ None).
Proof.
  intros Hp. unfold BlockProducer.start. destruct p as [idle mining queued]. simpl in *.
  destruct Hp as [(Hi & Hm & Hq)|(txs & Hi & Hm & Hq)]; simpl in *; subst.
  - destruct rest as [|txs rest]; (split; [|done]).
    + left. done.
    + right. by exists txs.
  - destruct queued; (split; [|done]); right; by exists txs.
Qed.

Lemma poll_next_spec b done rest p finished :
  producing b done rest p →
  let '(p', res) := BlockProducer.poll_next mine_block finished p in
  match res with
  | PollReady outcome => finished = true ∧ ∃ txs rest', rest = txs :: rest' ∧
      producing b (done ++ [txs]) rest' p' ∧
      (mine_all b (done ++ [txs])).1 = (mine_all b done).1 ++ [outcome]
  | PollPending => producing b done rest p' ∧ (rest = [] ∨ finished = false)
  end.
Proof.
  intros Hp. destruct (start_spec _ _ _ _ Hp) as [Hs Hbusy]. unfold BlockProducer.poll_next.
  destruct Hs as [(Hi & Hm & Hq)|(txs & Hi & Hm & Hq)]; rewrite Hm.
  - split; [by left|]. destruct rest as [|s rest]; [by left|]. exfalso. by apply Hbusy.
  - destruct finished; [|split; [right; by exists txs|by right]].
    destruct (mine_block _ txs) as [outcome b'] eqn:Hmine. split; [done|].
    exists txs, (BlockProducer.queued (BlockProducer.start p)). split; [done|].
    rewrite mine_all_app. destruct (mine_all b done) as [os bd] eqn:Hd. simpl in *.
    rewrite Hmine. simpl. split; [|done]. left. simpl.
    rewrite mine_all_app, Hd. simpl. by rewrite Hmine.
Qed.

Lemma producer_run_spec es b done rest p :
  producing b done rest p →
  ∃ done' rest', done ++ rest ++ pushed es = done' ++ rest' ∧
    producing b done' rest' (producer_run es p).1 ∧
    (mine_all b done').1 = (mine_all b done).1 ++ (producer_run es p).2.
Proof.
  revert done rest p. induction es as [|[txs|finished] es IH]; intros done rest p Hp; simpl.
  - exists done, rest. rewrite !app_nil_r. done.
  - destruct (IH done (rest ++ [txs]) (BlockProducer.push_back p txs))
      as (done' & rest' & Heq & Hp' & Ho).
    { destruct Hp as [(Hi & Hm & Hq)|(txs' & Hi & Hm & Hq)]; [left|right; exists txs'];
        simpl; subst; done. }
    exists done', rest'. split; [|done]. rewrite <- Heq, <- app_assoc. done.
  - pose proof (poll_next_spec b done rest p finished Hp) as Hpoll.
    destruct (BlockProducer.poll_next mine_block finished p) as [p1 [outcome|]].
    + destruct Hpoll as (_ & txs & rest1 & -> & Hp1 & Ho1).
      destruct (IH _ _ _ Hp1) as (done' & rest' & Heq & Hp' & Ho).
      destruct (producer_run es p1) as [p2 os]. simpl in *.
      exists done', rest'. split; [|split; [done|]].
      * rewrite <- Heq, <- app_assoc. done.
      * rewrite Ho, Ho1, <- app_assoc. done.
    + destruct Hpoll as [Hp1 _]. destruct (IH _ _ _ Hp1) as (done' & rest' & Heq & Hp' & Ho).
      destruct (producer_run es p1) as [p2 os]. simpl in *. by exists done', rest'.
Qed.

End producer.
