(* ===== verification/MiningTheorems.v ===== *)
(** The theorems about mining: which transactions a poll of the miner
    returns, that blocks are mined one at a time and in order, and that the
    node service runs without a panic under any interleaving.
    The last part shows the progress of a node left alone in automatic mode. *)
From S2P Require Import Prelude Transaction PoolTx PendingQueue ReadyQueue ReadyInv ReadyIter Pool PoolInv PoolOps PoolTheorems Mining.

Section node.
Context (acct : TxHash → Z * Address) `{HashOrder}.
Context {Backend : Type}.
Context (mine_block : Backend → list PoolTransaction.t → MinedBlockOutcome.t * Backend).

(** The backend is either idle or in the mining task. *)
Definition one_backend (p : BlockProducer.t (Backend := Backend)) : Prop :=
  (is_Some (BlockProducer.idle_backend p) ∧ BlockProducer.block_mining p = None) ∨
  (BlockProducer.idle_backend p = None ∧ is_Some (BlockProducer.block_mining p)).

Lemma poll_next_one_backend finished p :
  one_backend p → one_backend (BlockProducer.poll_next mine_block finished p).1.
Proof.
  unfold one_backend, BlockProducer.poll_next, BlockProducer.start.
  destruct p as [[b|] [[b' txs]|] q]; simpl; intros [[Hi Hm]|[Hi Hm]]; try done;
    try (by destruct Hi); try (by destruct Hm).
  - destruct q as [|txs q]; simpl; [by left|]. destruct finished; simpl; [|by right].
    destruct (mine_block b txs). by left.
  - destruct q as [|txs' q]; simpl; (destruct finished; simpl; [|by right]);
      destruct (mine_block b' txs); by left.
Qed.

Record node_inv (subs : list PoolTransaction.t) (s : NodeService.t (Backend := Backend)) :
    Prop := {
  ni_pool : run_inv acct subs (NodeService.pool s);
  ni_backend : one_backend (NodeService.block_producer s);
}.

Lemma node_exec_inv e subs s :
  node_inv subs s → Forall (account_tx acct) (NodeService.ev_submits e) →
  (Z.of_nat (length (subs ++ NodeService.ev_submits e)) ≤ u64_max)%Z →
  ∃ s', NodeService.exec mine_block e s = Some s' ∧ node_inv (subs ++ NodeService.ev_submits e) s'.
Proof.
  intros [Hri Hb] Hacc Hlen. destruct e as [op|finished|tick|mode]; simpl in *.
  - destruct (pool_exec_inv acct op subs (NodeService.pool s) Hri Hacc Hlen) as (pool' & Hex & Hri').
    destruct op as [now tx| | | | | |]; simpl in *;
      [|first [rewrite Hex|injection Hex as <-]; simpl; eexists; split; [done|by split]..].
    apply fmap_Some in Hex as ([pool1 res] & -> & Heq). simpl in Heq. subst pool1. simpl.
    eexists. split; [done|by split].
  - unfold NodeService.poll_producer.
    pose proof (poll_next_one_backend finished _ Hb) as Hb'.
    destruct (BlockProducer.poll_next _ _ _) as [p' [outcome|]]; simpl in *.
    + destruct (pool_exec_inv acct (OpMined outcome) subs (NodeService.pool s) Hri)
        as (pool' & Hex & Hri'); [constructor|done|].
      simpl in Hex. apply fmap_Some in Hex as ([pool1 res] & -> & ->). simpl.
      eexists. split; [done|by split].
    + eexists. split; [done|]. split; simpl; [by rewrite app_nil_r|done].
  - unfold NodeService.poll_miner.
    destruct (miner_poll_total acct tick (NodeService.miner s) (NodeService.pool s))
      as (m' & res & ->); [apply Hri|]. simpl.
    destruct res as [txs|]; simpl; (eexists; split; [done|]); split; simpl;
      rewrite ?app_nil_r; try done.
  - eexists. split; [done|]. split; simpl; [by rewrite app_nil_r|done].
Qed.

Lemma node_run_inv es subs s :
  node_inv subs s → Forall (account_tx acct) (es ≫= NodeService.ev_submits) →
  (Z.of_nat (length (subs ++ (es ≫= NodeService.ev_submits))) ≤ u64_max)%Z →
  ∃ s', NodeService.run mine_block es s = Some s' ∧
    node_inv (subs ++ (es ≫= NodeService.ev_submits)) s'.
Proof.
  revert subs s. induction es as [|e es IH]; intros subs s Hinv Hacc Hlen.
  { exists s. split; [done|]. by rewrite app_nil_r. }
  rewrite bind_cons in Hacc, Hlen |- *. apply Forall_app in Hacc as [Hacc1 Hacc2].
  rewrite !length_app in Hlen. cbn [NodeService.run].
  destruct (node_exec_inv e subs s) as (s1 & -> & Hinv1); [done..|rewrite length_app; lia|].
  rewrite app_assoc. apply IH; [done|done|]. rewrite !length_app. lia.
Qed.

End node.


#[local] Existing Instance sample_order.

(** A backend that includes everything and counts blocks. *)
Definition sample_backend (n : Z) (txs : list PoolTransaction.t) : MinedBlockOutcome.t * Z :=
  (MinedBlockOutcome.mk (n + 1) txs [], n + 1)%Z.

Definition sample_events : list NodeService.event :=
  [NodeService.EvRpc (OpAdd 0 (sample_first 1000 5)); NodeService.EvMiner false;
   NodeService.EvProducer false; NodeService.EvRpc (OpAdd 1 (sample_next 1010 7));
   NodeService.EvMiner false; NodeService.EvProducer true; NodeService.EvProducer true].


(** The block producer mines the queued sets in the order in which they
    were queued, each exactly once, one at a time: the outcomes it has
    delivered are those of mining a prefix of the queued sets in sequence, and
    the rest is in the task and in the queue. *)
Theorem producer_fifo {Backend : Type}
    (mine_block : Backend → list PoolTransaction.t → MinedBlockOutcome.t * Backend)
    (b : Backend) (es : list producer_event) :
  ∃ done rest, pushed es = done ++ rest ∧
    (producer_run mine_block es (BlockProducer.new b)).2 = (mine_all mine_block b done).1 ∧
    producing mine_block b done rest (producer_run mine_block es (BlockProducer.new b)).1.
Proof.
  destruct (producer_run_spec mine_block es b [] [] (BlockProducer.new b))
    as (done & rest & Heq & Hp & Ho); [by left|].
  by exists done, rest.
Qed.

(** A poll of the automatic miner.  It returns the best
    [max_transactions] ready transactions; it stays pending when there are
    none, or when nothing arrived since a poll that drained the pool.  It
    remembers that there is more exactly when it could not take all. *)
Theorem auto_miner_poll (acct : TxHash → Z * Address) m pool :
  pool_wf acct pool →
  ∃ l m' res, ready_list (PoolInner.ready_transactions pool) = Some l ∧
    ReadyTransactionMiner.poll m pool = Some (m', res) ∧
    ReadyTransactionMiner.max_transactions m' = ReadyTransactionMiner.max_transactions m ∧
    ReadyTransactionMiner.rx m' = [] ∧
    ((ReadyTransactionMiner.has_pending_txs m = Some false ∧ ReadyTransactionMiner.rx m = [] ∧
      m' = m ∧ res = PollPending) ∨
     (ReadyTransactionMiner.has_pending_txs m' =
        Some (bool_decide (ReadyTransactionMiner.max_transactions m ≤ length l)) ∧
      res = match take (ReadyTransactionMiner.max_transactions m) l with
            | [] => PollPending
            | txs => PollReady txs
            end)).
Proof. apply ready_miner_poll_spec. Qed.

Lemma auto_miner_poll_witness :
  ∃ m', ReadyTransactionMiner.poll (ReadyTransactionMiner.mk 2 None []) sample_pool =
    Some (m', PollReady [sample_first 2000 9; sample_first 1000 5]) ∧
    ReadyTransactionMiner.has_pending_txs m' = Some true.
Proof.
  destruct (auto_miner_poll sample_acct (ReadyTransactionMiner.mk 2 None []) sample_pool)
    as (l & m' & res & Hl & Heq & _ & _ & [(Hno & _)|(Hp & Hres)]);
    [exact sample_pool_wf|done|].
  revert Hl. vm_compute (ready_list _). intros [= <-].
  exists m'. rewrite Heq, Hres, Hp. split; by vm_compute.
Defined.

(** The mixed mode combines the automatic and the interval miner: it
    keeps the automatic set first, adds only transactions of the interval set,
    and yields every hash of both sets exactly once. *)
Theorem mixed_mode_union (auto_txs fixed_txs : list PoolTransaction.t) :
  NoDup (tx_hash <$> auto_txs) →
  ∃ extra, MiningMode.combine auto_txs fixed_txs = auto_txs ++ extra ∧ extra ⊆+ fixed_txs ∧
    NoDup (tx_hash <$> MiningMode.combine auto_txs fixed_txs) ∧
    (∀ tx, tx ∈ fixed_txs → tx_hash tx ∈ tx_hash <$> MiningMode.combine auto_txs fixed_txs).
Proof.
  intros Hnd. destruct (combine_spec auto_txs fixed_txs) as (extra & -> & Hsub & Hn & Hall).
  exists extra. auto.
Qed.

Lemma mixed_mode_union_witness :
  let a := [sample_first 1000 5; sample_next 1010 7] in
  let f := [sample_next 1010 7; sample_first 2000 9] in
  ∃ extra, MiningMode.combine a f = a ++ extra ∧ extra ⊆+ f ∧
    NoDup (tx_hash <$> MiningMode.combine a f) ∧
    (∀ tx, tx ∈ f → tx_hash tx ∈ tx_hash <$> MiningMode.combine a f).
Proof.
  intros a f. apply (mixed_mode_union a f). apply (bool_decide_unpack _). by vm_compute.
Defined.

(** While a block is being mined its transactions are still in the pool.
    With at least [max_transactions] of them ready the automatic miner returns
    the same transactions at every poll, so the service, which polls it until
    it is pending, queues the same set again in every round until the block is
    mined: here twice behind the one in the mining task. *)
Theorem full_pool_requeues :
  (∀ (acct : TxHash → Z * Address) m pool l,
    pool_wf acct pool → ready_list (PoolInner.ready_transactions pool) = Some l →
    0 < ReadyTransactionMiner.max_transactions m ≤ length l →
    ReadyTransactionMiner.has_pending_txs m ≠ Some false →
    ∃ m', ReadyTransactionMiner.poll m pool =
        Some (m', PollReady (take (ReadyTransactionMiner.max_transactions m) l)) ∧
      ReadyTransactionMiner.poll m' pool =
        Some (m', PollReady (take (ReadyTransactionMiner.max_transactions m) l))) ∧
  ∃ s, NodeService.poll sample_backend (replicate 3 (false, false))
      (NodeService.mk sample_pool (BlockProducer.new 0%Z)
        (Miner.new (MiningMode.instant 2 []))) = Some (s, false) ∧
    BlockProducer.block_mining (NodeService.block_producer s) =
      Some (0%Z, [sample_first 2000 9; sample_first 1000 5]) ∧
    BlockProducer.queued (NodeService.block_producer s) =
      replicate 2 [sample_first 2000 9; sample_first 1000 5].
Proof.
  split; [|eexists; split; [vm_compute; reflexivity|split; vm_compute; reflexivity]].
  intros acct m pool l Hwf Hl Hlen Hhp.
  assert (∀ m0, ReadyTransactionMiner.max_transactions m0 =
      ReadyTransactionMiner.max_transactions m →
    ReadyTransactionMiner.has_pending_txs m0 ≠ Some false →
    ReadyTransactionMiner.poll m0 pool = Some (ReadyTransactionMiner.mk
      (ReadyTransactionMiner.max_transactions m) (Some true) [],
      PollReady (take (ReadyTransactionMiner.max_transactions m) l))) as Hpoll.
  { intros m0 Hmx Hhp0.
    destruct (ready_miner_poll_spec acct m0 pool Hwf)
      as (l' & m' & res & Hl' & -> & Hm & Hrx & [(? & _)|(Hp & ->)]); [done|].
    assert (l' = l) as -> by congruence. rewrite Hmx in *.
    destruct m' as [mx' hp' rx']. simpl in *. subst.
    rewrite bool_decide_eq_true_2 by lia.
    destruct (take _ l) eqn:Ht; [|done].
    apply (f_equal length) in Ht. rewrite length_take in Ht. simpl in Ht. lia. }
  eexists. split; by apply Hpoll.
Qed.

(** ** Progress *)

Section live.
Context (acct : TxHash → Z * Address) `{HashOrder}.
Context {Backend : Type}.
Context (mine_block : Backend → list PoolTransaction.t → MinedBlockOutcome.t * Backend).
Implicit Types (s : NodeService.t (Backend := Backend)) (st : PoolInner.t).

(** The backend includes or rejects every transaction it is given. *)
Definition decisive : Prop := ∀ b txs tx, tx ∈ txs →
  tx ∈ MinedBlockOutcome.included (mine_block b txs).1 ∨ tx ∈ MinedBlockOutcome.invalid (mine_block b txs).1.

(** One turn of the miner and one of the producer whose task completes. *)
Definition rounds (k : nat) : list NodeService.event :=
  concat (replicate k [NodeService.EvMiner false; NodeService.EvProducer true]).

(** The hashes of the transactions in the pool. *)
Definition held st : gset TxHash := dom (waiting st) ∪ dom (readies st).

(** Nothing is queued or being mined, and the mode is automatic. *)
Record quiet s (m : ReadyTransactionMiner.t) : Prop := {
  quiet_wf : pool_wf acct (NodeService.pool s);
  quiet_ids : (used_ids (NodeService.pool s) ≤ u64_max)%Z;
  quiet_producer : ∃ b, NodeService.block_producer s = BlockProducer.mk (Some b) None [];
  quiet_miner : NodeService.miner s = Miner.mk (MiningMode.Auto m) None;
  quiet_max : 0 < ReadyTransactionMiner.max_transactions m }.

(** The miner will look at the pool when it is polled. *)
Definition awake (m : ReadyTransactionMiner.t) : Prop :=
  ReadyTransactionMiner.has_pending_txs m ≠ Some false ∨ ReadyTransactionMiner.rx m ≠ [].

Definition all_absent st (hs : list TxHash) : Prop := ∀ h, h ∈ hs → absent st h.
Definition ready_or_absent st (hs : list TxHash) : Prop :=
  ∀ h, h ∈ hs → is_Some (readies st !! h) ∨ absent st h.

Lemma held_spec st h :
  pool_wf acct st → h ∈ held st ↔ ∃ tx, pool_has st tx ∧ tx_hash tx = h.
Proof.
  intros Hwf. unfold held. rewrite elem_of_union, !elem_of_dom. split.
  - intros [[p Hp]|[r Hr]].
    + exists (ptx_tx p). split; [left; by exists h, p|]. by apply (pw_hash _ (pl_pending _ _ Hwf)).
    + exists (rtx_tx r). split; [right; by exists h, r|]. by apply (rw_hash _ _ _ (pl_ready _ _ Hwf)).
  - intros (tx & [(h' & p & Hp & <-)|(h' & r & Hr & <-)] & <-); [left|right].
    + assert (tx_hash (ptx_tx p) = h') as -> by (by apply (pw_hash _ (pl_pending _ _ Hwf))). by exists p.
    + rewrite (rw_hash _ _ _ (pl_ready _ _ Hwf) _ _ Hr). by exists r.
Qed.

Lemma not_held st h : h ∉ held st ↔ absent st h.
Proof. unfold held, absent. rewrite not_elem_of_union, !not_elem_of_dom. done. Qed.

Lemma held_step st st' gone :
  pool_wf acct st → pool_step acct st st' [] gone → held st' ⊆ held st.
Proof.
  intros Hwf Hst h. rewrite !held_spec by (done || apply Hst).
  intros (tx & Htx & <-). exists tx. split; [|done].
  destruct (proj2 (st_held _ _ _ _ _ Hst tx) (or_introl Htx)) as [|Hn]; [done|]. by apply elem_of_nil in Hn.
Qed.

Lemma absent_step st st' gone h :
  pool_wf acct st → pool_step acct st st' [] gone → absent st h → absent st' h.
Proof. rewrite <- !not_held. intros Hwf Hst Hn Hh. apply Hn. by eapply held_step. Qed.

Lemma ready_or_absent_step st st' gone hs :
  pool_wf acct st → pool_step acct st st' [] gone → ready_or_absent st hs → ready_or_absent st' hs.
Proof.
  intros Hwf Hst Hr h Hh. destruct (Hr h Hh) as [Hs|Ha]; [|right; by eapply absent_step].
  destruct (st_ready _ _ _ _ _ Hst h Hs) as [|(tx & Htx & <-)]; [by left|right]. by eapply st_gone.
Qed.

(** A block of ready transactions takes them out of the pool. *)
Lemma mined_block_round pool b miner txs :
  decisive → pool_wf acct pool → (used_ids pool ≤ u64_max)%Z →
  (∀ tx, tx ∈ txs → ∃ h r, readies pool !! h = Some r ∧ tx = rtx_tx r) →
  ∃ pool' b' gone, NodeService.poll_producer mine_block true
      (NodeService.mk pool (BlockProducer.mk (Some b) None [txs]) miner) =
      Some (NodeService.mk pool' (BlockProducer.mk (Some b') None []) miner, true) ∧
    pool_step acct pool pool' [] gone ∧ ∀ tx, tx ∈ txs → absent pool' (tx_hash tx).
Proof.
  intros Hdec Hwf Hids Hready. unfold NodeService.poll_producer. cbn.
  destruct (mine_block b txs) as [outcome b'] eqn:Hmine. cbn.
  destruct (on_mined_block_spec acct pool outcome Hwf Hids) as (pool' & res & gone & -> & Hst & _ & Hinv & Hinc & _).
  cbn. exists pool', b', gone. split_and!; [done..|]. intros tx Htx.
  destruct (Hready tx Htx) as (h & r & Hr & ->). pose proof (rw_hash _ _ _ (pl_ready _ _ Hwf) _ _ Hr) as Hh.
  destruct (Hdec b txs (rtx_tx r) Htx) as [Hi|Hi]; rewrite Hmine in Hi.
  - apply Hinc; [done|by apply (rw_acct _ _ _ (pl_ready _ _ Hwf) _ _ Hr)|]. rewrite Hh. by exists r.
  - by apply Hinv.
Qed.

(** What one round does. *)
Lemma round_spec s m hs :
  decisive → quiet s m → ready_or_absent (NodeService.pool s) hs →
  (awake m ∨ all_absent (NodeService.pool s) hs) →
  ∃ s' m', NodeService.run mine_block [NodeService.EvMiner false; NodeService.EvProducer true] s = Some s' ∧
    quiet s' m' ∧ ready_or_absent (NodeService.pool s') hs ∧
    (awake m' ∨ all_absent (NodeService.pool s') hs) ∧
    (size (held (NodeService.pool s')) < size (held (NodeService.pool s)) ∨
     all_absent (NodeService.pool s') hs) ∧
    (all_absent (NodeService.pool s) hs → all_absent (NodeService.pool s') hs).
Proof.
  intros Hdec [Hwf Hids [b Hb] Hm Hmax] Hroa Hawake.
  destruct s as [pool producer miner]. cbn in *. subst producer miner.
  destruct (ready_miner_poll_spec acct m pool Hwf) as (l & m' & res & Hl & Hpoll & Hmx & Hrx & Hres).
  destruct (ready_list_complete acct _ (pl_ready _ _ Hwf)) as (l' & Hl' & Hin). rewrite Hl in Hl'.
  injection Hl' as <-. unfold NodeService.poll_miner, Miner.poll. cbn. rewrite Hpoll. cbn.
  assert (l = [] → all_absent pool hs) as Hempty.
  { intros -> h Hh. destruct (Hroa h Hh) as [[r Hr]|]; [|done]. exfalso.
    apply (not_elem_of_nil (rtx_tx r)), Hin. by exists h, r. }
  assert (res = PollPending → all_absent pool hs) as Hpending.
  { intros ->. destruct Hres as [(Hp & Hx & _)|[_ Hres]].
    - destruct Hawake as [[Hn|Hn]|]; done.
    - apply Hempty. destruct l as [|tx l]; [done|].
      destruct (ReadyTransactionMiner.max_transactions m); [lia|done]. }
  destruct res as [txs|]; cbn.
  2:{ eexists _, m'. split; [done|]. specialize (Hpending eq_refl).
      split_and!; [split; cbn; eauto; lia|done|by right|by right|done]. }
  destruct Hres as [(_ & _ & _ & ?)|[Hhp Hres]]; [done|].
  assert (txs = take (ReadyTransactionMiner.max_transactions m) l ∧ txs ≠ []) as [-> Hne]
    by (destruct (take _ l); [done|]; by injection Hres as ->).
  assert (∀ tx, tx ∈ take (ReadyTransactionMiner.max_transactions m) l →
    ∃ h r, readies pool !! h = Some r ∧ tx = rtx_tx r) as Hready.
  { intros tx Htx. apply Hin. by eapply subseteq_take. }
  destruct (mined_block_round pool b (Miner.mk (MiningMode.Auto m') None)
    (take (ReadyTransactionMiner.max_transactions m) l) Hdec Hwf Hids Hready) as (pool' & b' & gone & E & Hst & Habs).
  unfold BlockProducer.push_back. cbn. rewrite E. cbn. eexists _, m'. split; [done|]. cbn.
  assert (ready_or_absent pool' hs) as Hroa' by (by eapply ready_or_absent_step).
  split_and!; [|done|..].
  - split; cbn; [apply Hst| |by exists b'|done|lia]. pose proof (st_ids _ _ _ _ _ Hst). cbn in *. lia.
  - destruct (decide (ReadyTransactionMiner.max_transactions m ≤ length l)) as [Hle|Hgt].
    + left. left. rewrite Hhp, bool_decide_eq_true_2 by done. done.
    + right. intros h Hh. destruct (Hroa h Hh) as [[r Hr]|]; [|by eapply absent_step].
      rewrite <- (rw_hash _ _ _ (pl_ready _ _ Hwf) _ _ Hr). apply Habs.
      rewrite take_ge by lia. apply Hin. by exists h, r.
  - left. destruct (take _ l) as [|tx txs]; [done|]. apply subset_size.
    assert (absent pool' (tx_hash tx)) as Ha by (apply Habs; by left).
    assert (tx_hash tx ∈ held pool) as Hh.
    { apply held_spec; [done|]. exists tx. split; [|done]. right.
      destruct (Hready tx) as (h & r & Hr & ->); [by left|]. by exists h, r. }
    split; [by eapply held_step|]. intros Hsub. apply Hsub in Hh. by apply not_held in Ha.
  - intros Ha h Hh. eapply absent_step; [done..|]. by apply Ha.
Qed.

Lemma node_run_app es es' s :
  NodeService.run mine_block (es ++ es') s = (s' ← NodeService.run mine_block es s; NodeService.run mine_block es' s').
Proof.
  revert s. induction es as [|e es IH]; intros s; [done|]. cbn. destruct (NodeService.exec _ e s); cbn; [apply IH|done].
Qed.

Lemma rounds_spec k s m hs :
  decisive → quiet s m → ready_or_absent (NodeService.pool s) hs →
  (awake m ∨ all_absent (NodeService.pool s) hs) →
  ∃ s' m', NodeService.run mine_block (rounds k) s = Some s' ∧ quiet s' m' ∧
    ready_or_absent (NodeService.pool s') hs ∧
    (all_absent (NodeService.pool s) hs → all_absent (NodeService.pool s') hs) ∧
    (size (held (NodeService.pool s')) + k ≤ size (held (NodeService.pool s)) ∨
     all_absent (NodeService.pool s') hs).
Proof.
  intros Hdec. revert s m. induction k as [|k IH]; intros s m Hq Hroa Haw.
  { exists s, m. split_and!; [done..|left; lia]. }
  destruct (round_spec s m hs Hdec Hq Hroa Haw) as (s1 & m1 & E1 & Hq1 & Hroa1 & Haw1 & Hlt1 & Hab1).
  destruct (IH s1 m1 Hq1 Hroa1 Haw1) as (s2 & m2 & E2 & Hq2 & Hroa2 & Hab2 & Hlt2).
  exists s2, m2. split_and!; [|done|done|auto|].
  - unfold rounds. cbn [replicate concat]. rewrite node_run_app, E1. exact E2.
  - destruct Hlt2 as [Hlt2|]; [|by right]. destruct Hlt1 as [Hlt1|Hab]; [left; lia|right; auto].
Qed.
End live.


#[local] Existing Instance sample_order.

