(* ===== verification/Fees.v ===== *)
(** Fees (anvil/src/eth/fees.rs): the fee manager, the cache behind
    [eth_feeHistory] and the fee fields of a transaction request.

    The EIP-1559 and EIP-4844 fee formulas come from alloy and are
    parameters.  A ratio ([f64]) is kept as the fraction whose division the
    code writes (numerator and denominator); the one floating point value the rewards depend on,
    [(p * gas_used / 100f64) as u64] for [p = k * 0.5], is written as the
    integer division [k * gas_used / 200], which is its value for every gas
    amount below 2^44. *)
From S2P Require Import Prelude Transaction.

(** ** FeeManager *)

Module FeeManager.
Section formulas.
(** [SpecId] as its [u8], with the two hard forks the code compares with. *)
Context (LONDON CANCUN : Z).
(** [BaseFeeParams::ethereum().elasticity_multiplier]. *)
Context (elasticity_multiplier : Z).
Context (calc_next_block_base_fee : Z → Z → Z → Z).
Context (calc_blob_gasprice : Z → Z) (calc_excess_blob_gas : Z → Z → Z).

Record t := mk { spec_id : Z; base_fee_ : Z; is_min_priority_fee_enforced : bool;
  excess_blob_gas_ : Z; blob_gasprice_ : Z; gas_price_ : Z; elasticity : Z * Z }.

Definition default_elasticity : Z * Z := (1, elasticity_multiplier)%Z.

Definition new (spec_id base_fee : Z) (is_min_priority_fee_enforced : bool) (gas_price : Z)
    (blob_excess_gas_and_price : Z * Z) : t :=
  mk spec_id base_fee is_min_priority_fee_enforced blob_excess_gas_and_price.1
    blob_excess_gas_and_price.2 gas_price default_elasticity.

Definition is_eip1559 (st : t) : bool := (LONDON <=? spec_id st)%Z.
Definition is_eip4844 (st : t) : bool := (CANCUN <=? spec_id st)%Z.

Definition base_fee (st : t) : Z := if is_eip1559 st then base_fee_ st else 0%Z.

Definition base_fee_per_blob_gas (st : t) : Z :=
  if is_eip4844 st then blob_gasprice_ st else 0%Z.

Definition blob_gas_price (st : t) : Z :=
  if is_eip4844 st then base_fee_per_blob_gas st else 0%Z.

Definition raw_gas_price (st : t) : Z := gas_price_ st.

Definition excess_blob_gas_and_price (st : t) : option (Z * Z) :=
  if is_eip4844 st then Some (excess_blob_gas_ st, blob_gasprice_ st) else None.

Definition set_gas_price (st : t) (price : Z) : t :=
  mk (spec_id st) (base_fee_ st) (is_min_priority_fee_enforced st)
    (excess_blob_gas_ st) (blob_gasprice_ st) price (elasticity st).

Definition set_base_fee (st : t) (fee : Z) : t :=
  mk (spec_id st) fee (is_min_priority_fee_enforced st)
    (excess_blob_gas_ st) (blob_gasprice_ st) (gas_price_ st) (elasticity st).

Definition set_blob_excess_gas_and_price (st : t) (v : Z * Z) : t :=
  mk (spec_id st) (base_fee_ st) (is_min_priority_fee_enforced st) v.1 v.2 (gas_price_ st)
    (elasticity st).

Definition calculate_next_block_base_fee (gas_used gas_limit base_fee : Z) : Z :=
  calc_next_block_base_fee (as_u64 gas_used) (as_u64 gas_limit) base_fee.

Definition get_next_block_base_fee_per_gas (st : t) (gas_used gas_limit last_fee_per_gas : Z) : Z :=
  if (base_fee st =? 0)%Z then 0%Z
  else calculate_next_block_base_fee gas_used gas_limit last_fee_per_gas.

Definition get_next_block_blob_base_fee_per_gas (st : t) (excess_blob_gas : Z) : Z :=
  calc_blob_gasprice (as_u64 excess_blob_gas).

Definition get_next_block_blob_excess_gas (st : t) (blob_gas_used blob_excess_gas : Z) : Z :=
  calc_excess_blob_gas (as_u64 blob_gas_used) (as_u64 blob_excess_gas).
End formulas.
End FeeManager.

(** ** The fee history cache *)

Module FeeHistory.
Record item := mk_item { item_base_fee : Z; gas_used_ratio : Z * Z;
  base_fee_per_blob_gas : option Z; blob_gas_used_ratio : Z * Z;
  item_excess_blob_gas : option Z; item_blob_gas_used : option Z; item_rewards : list Z }.

(** The fields of a [Header] the cache reads. *)
Record header := mk_header { number : Z; gas_used : Z; gas_limit : Z;
  base_fee_per_gas : option Z; excess_blob_gas : option Z; blob_gas_used : option Z }.

(** The effective reward of a transaction of the block, if there is one. *)
Definition effective_reward (base_fee : Z) (tx : option TypedTransaction) : Z :=
  match tx with
  | Some (Legacy t) => saturating_sub (TxLegacy.gas_price t) base_fee
  | Some (EIP2930 t) => saturating_sub (TxEip2930.gas_price t) base_fee
  | Some (EIP1559 t) =>
      Z.min (TxEip1559.max_priority_fee_per_gas t)
        (saturating_sub (TxEip1559.max_fee_per_gas t) base_fee)
  | Some (EIP4844 t) =>
      Z.min (TxEip4844.max_priority_fee_per_gas t)
        (saturating_sub (TxEip4844.max_fee_per_gas t) base_fee)
  | Some (EIP7702 t) =>
      Z.min (TxEip7702.max_priority_fee_per_gas t)
        (saturating_sub (TxEip7702.max_fee_per_gas t) base_fee)
  | Some (Deposit _) => 0%Z
  | None => 0%Z
  end.

(** The gas of each receipt ([cumulative_gas_used]) with the reward. *)
Definition tx_info (base_fee : Z) (receipts : list Z) (txs : list TypedTransaction) :
    list (Z * Z) :=
  imap (λ i gas_used, (gas_used, effective_reward base_fee (txs !! i))) receipts.

Definition by_reward (x y : Z * Z) : comparison := (x.2 ?= y.2)%Z.

(** The reward at which the gas of the transactions, in order, reaches
    [target_gas]. *)
Fixpoint reward_at (target_gas sum_gas : Z) (txs : list (Z * Z)) : option Z :=
  match txs with
  | [] => None
  | (gas_used, effective_reward) :: txs =>
      let sum_gas := (sum_gas + gas_used)%Z in
      if (target_gas <=? sum_gas)%Z then Some effective_reward
      else reward_at target_gas sum_gas txs
  end.

(** The percentile points: [k * 0.5] for [k] in [0..=200]. *)
Definition percentiles : list nat := seq 0 201.

(** [(p * gas_used / 100) as u64] in [f64]; the product is exact and the
    quotient is rounded by less than its distance to the next integer for every
    [gas_used] below [2 ^ 44]. *)
Definition target_gas (k : nat) (gas_used : Z) : Z := (Z.of_nat k * gas_used / 200)%Z.

Definition rewards (gas_used : Z) (txs : list (Z * Z)) : list Z :=
  omap (λ k, reward_at (target_gas k gas_used) 0 txs) percentiles.

(** A block as the storage returns it. *)
Record block := mk_block { block_header : header; transactions : list TypedTransaction }.

Section create.
(** [alloy_eips::eip4844::MAX_DATA_GAS_PER_BLOCK] and
    [Header::blob_fee(BlobParams::cancun())]. *)
Context (MAX_DATA_GAS_PER_BLOCK : Z) (blob_fee : header → option Z).

(** [create_cache_entry]: [stored] is the block and its receipts' cumulative
    gas, when the storage has both. *)
Definition create_cache_entry (h : header) (stored : option (block * list Z)) :
    item * option Z :=
  let base_fee := default 0%Z (base_fee_per_gas h) in
  let with_rewards gas_used_ratio blob_gas_used_ratio rewards :=
    mk_item base_fee gas_used_ratio (blob_fee h) blob_gas_used_ratio (excess_blob_gas h)
      (blob_gas_used h) rewards in
  match stored with
  | Some (b, receipts) =>
      let h' := block_header b in
      let txs := sort_by by_reward (tx_info base_fee receipts (transactions b)) in
      (with_rewards (gas_used h', gas_limit h')
         (match blob_gas_used h' with
          | Some g => (g, MAX_DATA_GAS_PER_BLOCK)
          | None => (0, 1)%Z
          end)
         (rewards (gas_used h') txs),
       Some (number h'))
  | None =>
      (with_rewards (0, 1)%Z (0, 1)%Z (replicate (length percentiles) 0%Z), None)
  end.
End create.

Definition MAX_FEE_HISTORY_CACHE_SIZE : Z := 2048.

(** The loop of [insert_cache_entry]; [None] is the underflow of
    [pop_next - num]. *)
Fixpoint remove_old (num : nat) (num_remove : nat) (pop_next : Z) (cache : gmap Z item) :
    option (gmap Z item) :=
  match num_remove with
  | O => Some cache
  | S num_remove =>
      assert! (Z.of_nat num <=? pop_next)%Z ;;
      remove_old (S num) num_remove pop_next (delete (pop_next - Z.of_nat num)%Z cache)
  end.

Definition insert_cache_entry (limit : Z) (cache : gmap Z item) (i : item)
    (block_number : option Z) : option (gmap Z item) :=
  match block_number with
  | None => Some cache
  | Some block_number =>
      let cache := <[block_number := i]> cache in
      let pop_next := saturating_sub block_number limit in
      let num_remove := Z.to_nat (saturating_sub (Z.of_nat (size cache)) limit) in
      remove_old 0 num_remove pop_next cache
  end.

Section service.
Context (MAX_DATA_GAS_PER_BLOCK : Z) (blob_fee : header → option Z).
(** What the storage has under a hash when it is asked. *)
Context (stored : Z → option (block * list Z)).

Definition insert_cache_entry_for_block (limit : Z) (cache : gmap Z item) (hash : Z) (h : header) :
    option (gmap Z item) :=
  let '(result, block_number) :=
    create_cache_entry MAX_DATA_GAS_PER_BLOCK blob_fee h (stored hash) in
  insert_cache_entry limit cache result block_number.

(** The loop of [poll]: the notifications that have arrived, in order. *)
Fixpoint poll (limit : Z) (cache : gmap Z item) (new_blocks : list (Z * header)) :
    option (gmap Z item) :=
  match new_blocks with
  | [] => Some cache
  | (hash, h) :: new_blocks =>
      cache' ← insert_cache_entry_for_block limit cache hash h;
      poll limit cache' new_blocks
  end.
End service.
End FeeHistory.

(** ** FeeDetails *)

Module FeeDetails.
Record t := mk { gas_price : option Z; max_fee_per_gas : option Z;
  max_priority_fee_per_gas : option Z; max_fee_per_blob_gas : option Z }.

Definition zero : t := mk (Some 0%Z) (Some 0%Z) (Some 0%Z) None.

Definition or_zero_fees (f : t) : t :=
  let no_fees := bool_decide (gas_price f = None) && bool_decide (max_fee_per_gas f = None) in
  mk (if no_fees then Some 0%Z else gas_price f)
     (if no_fees then Some 0%Z else max_fee_per_gas f)
     (max_priority_fee_per_gas f)
     (if no_fees then None else max_fee_per_blob_gas f).

Definition split (f : t) : option Z * option Z * option Z * option Z :=
  (gas_price f, max_fee_per_gas f, max_priority_fee_per_gas f, max_fee_per_blob_gas f).

(** [Err] is [BlockchainError::InvalidFeeInput]. *)
Definition priority_ok (max_fee max_priority : option Z) : bool :=
  match max_priority with
  | Some max_priority => negb (default 0%Z max_fee <? max_priority)%Z
  | None => true
  end.

Definition new (request_gas_price request_max_fee request_priority max_fee_per_blob_gas : option Z) :
    result t unit :=
  match request_max_fee, request_priority, max_fee_per_blob_gas with
  | None, None, None => Ok (mk request_gas_price request_gas_price request_gas_price None)
  | max_fee, max_priority, None =>
      if priority_ok max_fee max_priority then Ok (mk max_fee max_fee max_priority None)
      else Err tt
  | max_fee, max_priority, max_fee_per_blob_gas =>
      if priority_ok max_fee max_priority
      then Ok (mk max_fee max_fee max_priority max_fee_per_blob_gas)
      else Err tt
  end.
End FeeDetails.

(** * Theorems *)

Import FeeHistory.

(** ** The cache keeps the most recent blocks *)

(** The cache holds the blocks [lo, lo + n). *)
Record window (lo : Z) (n : nat) (cache : gmap Z item) : Prop := {
  wd_size : size cache = n;
  wd_keys k : is_Some (cache !! k) ↔ (lo ≤ k < lo + Z.of_nat n)%Z;
}.

Lemma window_insert limit lo n cache i :
  window lo n cache → (0 ≤ lo)%Z → (0 < limit)%Z → (Z.of_nat n ≤ limit)%Z →
  let b := (lo + Z.of_nat n)%Z in
  if (Z.of_nat n <? limit)%Z then
    insert_cache_entry limit cache i (Some b) = Some (<[b := i]> cache) ∧
    window lo (S n) (<[b := i]> cache)
  else
    insert_cache_entry limit cache i (Some b) = Some (delete lo (<[b := i]> cache)) ∧
    window (lo + 1) n (delete lo (<[b := i]> cache)).
Proof.
  intros [Hsz Hk] Hlo Hlim Hn b.
  assert (cache !! b = None) as Hb.
  { apply eq_None_not_Some. rewrite Hk. unfold b. lia. }
  assert (size (<[b := i]> cache) = S n) as Hsz'.
  { by rewrite map_size_insert_None, Hsz. }
  unfold insert_cache_entry, saturating_sub. rewrite Hsz'.
  destruct (Z.ltb_spec (Z.of_nat n) limit) as [Hlt|Hge].
  - replace (Z.to_nat (Z.max 0 (Z.of_nat (S n) - limit))) with 0 by lia. split; [done|].
    split; [done|]. intros k. rewrite lookup_insert. case_decide as Hkb.
    + split; [unfold b in *; lia|by eexists].
    + rewrite Hk. unfold b in *. lia.
  - assert (Z.of_nat n = limit) as Heq by lia.
    replace (Z.to_nat (Z.max 0 (Z.of_nat (S n) - limit))) with 1 by lia.
    replace (Z.max 0 (b - limit)) with lo by (unfold b; lia). simpl.
    rewrite (proj2 (Z.leb_le (Z.of_nat 0) lo)) by lia. change (Z.of_nat 0) with 0%Z.
    rewrite Z.sub_0_r. split; [done|].
    assert (is_Some (<[b := i]> cache !! lo)) as Hx.
    { rewrite lookup_insert_ne by (unfold b; lia). apply Hk. lia. }
    split; [by rewrite map_size_delete_Some, Hsz' by done|].
    intros k. rewrite lookup_delete, lookup_insert.
    repeat case_decide; [split; [by intros []|lia]| |].
    + split; [unfold b in *; lia|by eexists].
    + rewrite Hk. unfold b in *. lia.
Qed.

(** The entries of consecutive blocks, inserted one after the other. *)
Fixpoint insert_blocks (limit : Z) (b : Z) (items : list item) (cache : gmap Z item) :
    option (gmap Z item) :=
  match items with
  | [] => Some cache
  | i :: items => cache ← insert_cache_entry limit cache i (Some b);
      insert_blocks limit (b + 1) items cache
  end.

Lemma insert_blocks_spec limit items lo n cache :
  window lo n cache → (0 ≤ lo)%Z → (0 < limit)%Z → (Z.of_nat n ≤ limit)%Z →
  let b := (lo + Z.of_nat n)%Z in
  ∃ cache' lo' n', insert_blocks limit b items cache = Some cache' ∧ window lo' n' cache' ∧
    (lo ≤ lo')%Z ∧ (Z.of_nat n' ≤ limit)%Z ∧
    (lo' + Z.of_nat n' = b + Z.of_nat (length items))%Z ∧
    n' = Z.to_nat (Z.min limit (Z.of_nat (n + length items))) ∧
    (∀ k, (lo' ≤ k < b)%Z → cache' !! k = cache !! k) ∧
    (∀ j i, items !! j = Some i → (lo' ≤ b + Z.of_nat j)%Z →
      cache' !! (b + Z.of_nat j)%Z = Some i).
Proof.
  revert lo n cache. induction items as [|i items IH]; intros lo n cache Hw Hlo Hlim Hn b.
  { exists cache, lo, n. simpl. split_and!; try done; lia. }
  pose proof (window_insert limit lo n cache i Hw Hlo Hlim Hn) as Hins. fold b in Hins.
  assert (∃ lo1 n1 cache1, insert_cache_entry limit cache i (Some b) = Some cache1 ∧
    window lo1 n1 cache1 ∧ (lo ≤ lo1)%Z ∧ (Z.of_nat n1 ≤ limit)%Z ∧
    (lo1 + Z.of_nat n1 = b + 1)%Z ∧ n1 = Z.to_nat (Z.min limit (Z.of_nat (n + 1))) ∧
    (∀ k, (lo1 ≤ k)%Z → cache1 !! k = <[b := i]> cache !! k))
    as (lo1 & n1 & cache1 & Heq & Hw1 & Hle & Hn1 & Hb1 & Hn1' & Hlk).
  { destruct (Z.ltb_spec (Z.of_nat n) limit); destruct Hins as [Heq Hw'].
    - eexists lo, (S n), _. split_and!; [done|done|..]; try (unfold b; lia). done.
    - eexists (lo + 1)%Z, n, _. split_and!; [done|done|..]; try (unfold b; lia).
      intros k Hk. by rewrite lookup_delete_ne by lia. }
  cbn [insert_blocks]. rewrite Heq. cbn [mbind option_bind].
  destruct (IH lo1 n1 cache1 Hw1) as (cache' & lo' & n' & Hrun & Hw' & Hle' & Hn' & Hb' & Hnn & Hold & Hnew);
    [lia|done|done|]. rewrite Hb1 in *.
  exists cache', lo', n'. split_and!; [done|done|lia|done|simpl; lia|simpl; lia|..].
  - intros k Hk. rewrite Hold, Hlk, lookup_insert_ne by lia. done.
  - intros [|j] i' Hi Hj; simpl in *.
    + injection Hi as <-. replace (b + Z.of_nat 0)%Z with b in * by lia.
      rewrite Hold, Hlk, lookup_insert_eq by lia. done.
    + replace (b + Z.of_nat (S j))%Z with (b + 1 + Z.of_nat j)%Z in * by lia. by apply Hnew.
Qed.

Lemma insert_blocks_window (limit start : Z) (items : list item) :
  (0 < limit)%Z → (0 ≤ start)%Z →
  ∃ cache, insert_blocks limit start items ∅ = Some cache ∧
    size cache = Z.to_nat (Z.min limit (Z.of_nat (length items))) ∧
    (∀ j i, items !! j = Some i → (Z.of_nat (length items) - limit ≤ Z.of_nat j)%Z →
      cache !! (start + Z.of_nat j)%Z = Some i).
Proof.
  intros Hlim Hs.
  destruct (insert_blocks_spec limit items start 0 ∅) as
    (cache & lo & n & Hrun & Hw & _ & Hn & Hb & -> & _ & Hnew); [|done|done|lia|].
  { split; [apply map_size_empty|]. intros k. rewrite lookup_empty. split; [by intros []|lia]. }
  replace (start + Z.of_nat 0)%Z with start in * by lia.
  exists cache. split; [done|]. split; [apply Hw|]. intros j i Hi Hj. apply Hnew; [done|].
  simpl in *. lia.
Qed.

(** The entry [poll] makes for a notification. *)
Definition entry mdg bfee (stored : Z → option (block * list Z)) (n : Z * header) : item :=
  (create_cache_entry mdg bfee n.2 (stored n.1)).1.

Lemma poll_insert_blocks mdg bfee stored limit notes start cache :
  (∀ j n, notes !! j = Some n → ∃ b rs, stored n.1 = Some (b, rs) ∧
    number (block_header b) = (start + Z.of_nat j)%Z) →
  poll mdg bfee stored limit cache notes =
    insert_blocks limit start (entry mdg bfee stored <$> notes) cache.
Proof.
  revert start cache. induction notes as [|[hash h] notes IH]; intros start cache Hst; [done|].
  destruct (Hst 0 (hash, h)) as (b & rs & Hb & Hn); [done|]. simpl in Hb.
  assert (create_cache_entry mdg bfee h (stored hash) =
    (entry mdg bfee stored (hash, h), Some start)) as Hentry.
  { unfold entry. cbn [fst snd]. rewrite Hb. unfold create_cache_entry. rewrite Hn.
    by replace (start + Z.of_nat 0)%Z with start by lia. }
  rewrite fmap_cons. cbn [poll insert_blocks]. unfold insert_cache_entry_for_block.
  rewrite Hentry.
  destruct (insert_cache_entry _ _ _ _); [|done]. cbn [mbind option_bind].
  apply IH. intros j n Hj. destruct (Hst (S j) n Hj) as (b' & rs' & ? & ?).
  exists b', rs'. split; [done|]. lia.
Qed.

(** The fee history service.  Polled with the notifications of
    consecutive blocks the storage has, from an empty cache, it never
    underflows and leaves exactly the entries of the last [limit] of them (all,
    if there are fewer), each under its block number. *)
Theorem fee_history_window mdg bfee stored (limit start : Z) (notes : list (Z * header)) :
  (0 < limit)%Z → (0 ≤ start)%Z →
  (∀ j n, notes !! j = Some n → ∃ b rs, stored n.1 = Some (b, rs) ∧
    number (block_header b) = (start + Z.of_nat j)%Z) →
  ∃ cache, poll mdg bfee stored limit ∅ notes = Some cache ∧
    size cache = Z.to_nat (Z.min limit (Z.of_nat (length notes))) ∧
    (∀ j n, notes !! j = Some n → (Z.of_nat (length notes) - limit ≤ Z.of_nat j)%Z →
      cache !! (start + Z.of_nat j)%Z = Some (entry mdg bfee stored n)).
Proof.
  intros Hlim Hs Hst. rewrite (poll_insert_blocks mdg bfee stored limit notes start ∅ Hst).
  destruct (insert_blocks_window limit start (entry mdg bfee stored <$> notes) Hlim Hs)
    as (cache & Hrun & Hsz & Hl). rewrite length_fmap in *.
  exists cache. split_and!; [done|done|]. intros j n Hj. apply Hl.
  by rewrite list_lookup_fmap, Hj.
Qed.

Definition sample_header (n gas : Z) : header := mk_header n gas 30000000 (Some 0%Z) None None.
Definition sample_stored (h : Z) : option (block * list Z) :=
  Some (mk_block (sample_header h 0) [], []).

Lemma fee_history_window_witness :
  ∃ cache, poll 1 (λ _, None) sample_stored 2 ∅
      ((λ n, (n, sample_header n 0)) <$> [7; 8; 9]%Z) = Some cache ∧ size cache = 2 ∧
    cache !! 9%Z = Some (entry 1 (λ _, None) sample_stored (9%Z, sample_header 9 0)).
Proof.
  destruct (fee_history_window 1 (λ _, None) sample_stored 2 7
    ((λ n, (n, sample_header n 0)) <$> [7; 8; 9]%Z)) as (cache & Hrun & Hsz & Hl);
    [done|done| |].
  { intros j n Hj. exists (mk_block (sample_header n.1 0) []), []. split; [done|].
    repeat (destruct j as [|j]; [by injection Hj as <-|]). done. }
  exists cache. split_and!; [exact Hrun|exact Hsz|]. by apply (Hl 2).
Defined.

(** ** The reward percentiles *)

Definition gas_sum (txs : list (Z * Z)) : Z := foldr Z.add 0%Z (txs.*1).

Lemma gas_sum_cons x l : gas_sum (x :: l) = (x.1 + gas_sum l)%Z.
Proof. done. Qed.

Lemma reward_at_total target sum txs :
  (0 < length txs) → (target ≤ sum + gas_sum txs)%Z → is_Some (reward_at target sum txs).
Proof.
  revert sum. induction txs as [|[g r] txs IH]; intros sum Hlen Hle; simpl in *; [lia|].
  destruct (Z.leb_spec target (sum + g)); [by eexists|].
  rewrite gas_sum_cons in Hle. simpl in Hle.
  apply IH; [|lia]. destruct txs; [|simpl; lia]. change (gas_sum []) with 0%Z in Hle. lia.
Qed.

Lemma reward_at_in target sum txs r : reward_at target sum txs = Some r → r ∈ txs.*2.
Proof.
  revert sum. induction txs as [|[g r'] txs IH]; intros sum; simpl; [done|].
  destruct (Z.leb_spec target (sum + g)).
  - intros [= ->]. by left.
  - intros ?%IH. by right.
Qed.

Lemma reward_at_mono t t' sum txs r r' :
  StronglySorted (λ x y, by_reward x y ≠ Gt) txs → (t ≤ t')%Z →
  reward_at t sum txs = Some r → reward_at t' sum txs = Some r' → (r ≤ r')%Z.
Proof.
  intros Hs Hle. revert sum. induction Hs as [|[g r0] txs Hs IH Hall]; intros sum; simpl; [done|].
  destruct (Z.leb_spec t (sum + g)), (Z.leb_spec t' (sum + g)); try lia.
  - intros [= ->] [= ->]. done.
  - intros [= ->] Hin%reward_at_in. apply list_elem_of_fmap in Hin as ([g' r''] & -> & Hin).
    rewrite Forall_forall in Hall. apply Hall in Hin. unfold by_reward in Hin.
    simpl in *. by apply Z.compare_le_iff.
  - apply IH.
Qed.

Lemma by_reward_sorted l : StronglySorted (λ x y, by_reward x y ≠ Gt) (sort_by by_reward l).
Proof.
  apply sort_by_sorted; unfold by_reward.
  - intros x y. rewrite Z.compare_gt_iff. intros H. apply Z.compare_le_iff. lia.
  - intros x y z. rewrite !Z.compare_le_iff. lia.
Qed.

Lemma omap_length_total {A B} (f : A → option B) l :
  (∀ x, x ∈ l → is_Some (f x)) → length (omap f l) = length l.
Proof.
  induction l as [|x l IH]; intros Hall; simpl; [done|].
  destruct (Hall x) as [y Hy]; [by left|]. rewrite Hy. simpl.
  f_equal. apply IH. intros ? ?. apply Hall. by right.
Qed.

Lemma omap_sorted {A B} (R : relation A) (S : relation B) (f : A → option B) l :
  (∀ x y a b, R x y → f x = Some a → f y = Some b → S a b) →
  StronglySorted R l → StronglySorted S (omap f l).
Proof.
  intros Hf. induction 1 as [|x l Hs IH Hall]; simpl; [constructor|].
  destruct (f x) as [a|] eqn:Ha; [|done]. constructor; [done|].
  apply Forall_forall. intros b (y & Hy & Hb)%list_elem_of_omap.
  rewrite Forall_forall in Hall. eauto.
Qed.

Lemma seq_sorted b n : StronglySorted le (seq b n).
Proof.
  revert b. induction n as [|n IH]; intros b; simpl; constructor; [done|].
  apply Forall_forall. intros k Hk%elem_of_seq. lia.
Qed.

Lemma tx_info_gas bf receipts txs : (tx_info bf receipts txs).*1 = receipts.
Proof.
  apply list_eq. intros i. unfold tx_info. rewrite list_lookup_fmap, list_lookup_imap.
  by destruct (receipts !! i).
Qed.

Lemma gas_sum_perm l k : l ≡ₚ k → gas_sum l = gas_sum k.
Proof. induction 1; rewrite ?gas_sum_cons in *; lia. Qed.

Lemma target_gas_bound k g : k ≤ 200 → (0 ≤ g)%Z → (target_gas k g ≤ g)%Z.
Proof. intros. apply Z.div_le_upper_bound; [lia|]. nia. Qed.

Lemma target_gas_mono k k' g : k ≤ k' → (0 ≤ g)%Z → (target_gas k g ≤ target_gas k' g)%Z.
Proof. intros. apply Z.div_le_mono; [lia|]. nia. Qed.

(** The rewards of a cached block.  When the gas the receipts account
    for reaches the block's, there are 201 of them (0% to 100% in steps of one
    half), in ascending order, and each is the effective reward of a
    transaction of the block. *)
Theorem fee_history_rewards mdg bfee (h : header) (b : block) (receipts : list Z) :
  receipts ≠ [] → (0 ≤ gas_used (block_header b))%Z →
  (gas_used (block_header b) ≤ foldr Z.add 0 receipts)%Z →
  let rs := item_rewards (create_cache_entry mdg bfee h (Some (b, receipts))).1 in
  length rs = 201 ∧ StronglySorted Z.le rs ∧
  (∀ r, r ∈ rs → ∃ i, i < length receipts ∧
    r = effective_reward (default 0%Z (base_fee_per_gas h)) (transactions b !! i)).
Proof.
  intros Hne Hg Hsum. unfold create_cache_entry. cbn [fst item_rewards].
  set (bf := default 0%Z (base_fee_per_gas h)).
  set (info := tx_info bf receipts (transactions b)).
  assert (sort_by by_reward info ≡ₚ info) as Hperm by apply sort_by_perm.
  unfold rewards. split; [|split].
  - rewrite omap_length_total; [done|]. intros k Hk%elem_of_seq. apply reward_at_total.
    + rewrite Hperm, <- (length_fmap fst). unfold info. rewrite tx_info_gas.
      destruct receipts; simpl; [done|lia].
    + rewrite (gas_sum_perm _ _ Hperm). unfold gas_sum, info. rewrite tx_info_gas.
      pose proof (target_gas_bound k (gas_used (block_header b))). lia.
  - apply (omap_sorted le); [|apply seq_sorted]. intros k k' r r' Hk.
    apply reward_at_mono; [apply by_reward_sorted|by apply target_gas_mono].
  - intros r (k & _ & Hk%reward_at_in)%list_elem_of_omap. rewrite Hperm in Hk.
    apply list_elem_of_fmap in Hk as (p & -> & (i & g & Heq & Hi)%elem_of_lookup_imap_1).
    exists i. rewrite Heq. split; [by eapply lookup_lt_Some|done].
Qed.

Definition sample_legacy (price h : Z) : TypedTransaction :=
  Legacy (TxLegacy.mk None 0 price 21000 TxKind_Create 0 [] h).

(** A block of two transfers of 21000 gas each, of rewards 2 and 1. *)
Definition sample_block : block :=
  mk_block (sample_header 1 42000) [sample_legacy 2 1; sample_legacy 1 2].

Definition sample_rewards (receipts : list Z) : list Z :=
  item_rewards (create_cache_entry 1 (λ _, None) (sample_header 1 42000)
    (Some (sample_block, receipts))).1.

Lemma fee_history_rewards_witness : length (sample_rewards [21000; 42000]%Z) = 201.
Proof. apply fee_history_rewards; [done|vm_compute; congruence..]. Defined.

(** The percentiles add up the receipts' cumulative gas.  Of two
    transfers of 21000 gas each with rewards 2 and 1, the second (cumulative
    gas 42000) seems to use the whole block: the 100th percentile is 1, and
    not the highest reward 2 which the gas of each one gives. *)
Theorem fee_history_counts_cumulative_gas :
  sample_rewards [21000; 42000]%Z !! 200 = Some 1%Z ∧
  sample_rewards [21000; 21000]%Z !! 200 = Some 2%Z.
Proof. by vm_compute. Qed.

(** ** Fee details of a request *)

(** [FeeDetails::new] on every request.  It fails exactly when a
    priority fee is above the fee cap (0 when the cap is absent) - a check a
    legacy request never fails; a legacy request copies its gas price to both
    1559 fields, any other one its fee cap to the gas price; the blob fee is
    kept; and whatever it accepts has a priority fee of at most the fee cap. *)
Theorem fee_details_new gp mf pf bf :
  match FeeDetails.new gp mf pf bf with
  | Err _ => ∃ p, pf = Some p ∧ (default 0 mf < p)%Z
  | Ok d =>
      FeeDetails.max_fee_per_blob_gas d = bf ∧
      FeeDetails.gas_price d = FeeDetails.max_fee_per_gas d ∧
      (mf = None ∧ pf = None ∧ bf = None →
        FeeDetails.gas_price d = gp ∧ FeeDetails.max_priority_fee_per_gas d = gp) ∧
      (¬ (mf = None ∧ pf = None ∧ bf = None) →
        FeeDetails.gas_price d = mf ∧ FeeDetails.max_priority_fee_per_gas d = pf) ∧
      (∀ p, FeeDetails.max_priority_fee_per_gas d = Some p →
        (p ≤ default 0 (FeeDetails.max_fee_per_gas d))%Z)
  end.
Proof.
  assert (if FeeDetails.priority_ok mf pf then ∀ p, pf = Some p → (p ≤ default 0 mf)%Z
    else ∃ p, pf = Some p ∧ (default 0 mf < p)%Z) as Hok.
  { unfold FeeDetails.priority_ok. destruct pf as [p|]; [|done].
    destruct (Z.ltb_spec (default 0%Z mf) p); simpl; [eauto|]. by intros ? [= <-]. }
  unfold FeeDetails.new. destruct (FeeDetails.priority_ok mf pf);
    destruct mf, pf, bf; simpl in *; naive_solver.
Qed.
