(* ===== verification/Snapshots.v ===== *)
(** State snapshots (evm/core/src/state_snapshot.rs, and their use by
    [MemDb] in anvil/src/eth/backend/mem/in_memory_db.rs), with the stack of
    snapshots they implement. *)
From S2P Require Import Prelude.

Definition U256_MAX : Z := 2 ^ 256 - 1.

Module StateSnapshots.
Section snapshots.
Context {T : Type}.

Record t := mk { id : Z; state_snapshots : gmap Z T }.

Definition default : t := mk 0 ∅.

Definition next_id (s : t) : t * Z :=
  (mk (Z.min U256_MAX (id s + 1)) (state_snapshots s), id s).

Definition get (s : t) (i : Z) : option T := state_snapshots s !! i.

(** The loop of [remove]; [fuel] is the number of iterations left. *)
Fixpoint remove_after (fuel : nat) (to_revert last : Z) (m : gmap Z T) : gmap Z T :=
  match fuel with
  | O => m
  | S fuel =>
      if (to_revert <? last)%Z
      then remove_after fuel ((to_revert + 1) mod 2 ^ 256) last (delete to_revert m)
      else m
  end.

Definition remove (s : t) (i : Z) : t * option T :=
  let snapshot_state := state_snapshots s !! i in
  let to_revert := ((i + 1) mod 2 ^ 256)%Z in
  (mk (id s) (remove_after (Z.to_nat (id s - to_revert)) to_revert (id s)
     (delete i (state_snapshots s))),
   snapshot_state).

Definition clear (s : t) : t := mk (id s) ∅.

Definition remove_at (s : t) (i : Z) : t * option T :=
  (mk (id s) (delete i (state_snapshots s)), state_snapshots s !! i).

Definition insert (s : t) (x : T) : t * Z :=
  let '(s, i) := next_id s in
  (mk (id s) (<[i := x]> (state_snapshots s)), i).

Definition insert_at (s : t) (x : T) (i : Z) : t * Z :=
  (mk (id s) (<[i := x]> (state_snapshots s)), i).
End snapshots.
Arguments t : clear implicits.
End StateSnapshots.

(** [RevertStateSnapshotAction] *)
Inductive RevertStateSnapshotAction := RevertRemove | RevertKeep.

Definition is_keep (a : RevertStateSnapshotAction) : bool :=
  match a with RevertKeep => true | RevertRemove => false end.

(** ** MemDb *)

Module MemDb.
Section db.
(** The cached database a [MemDb] wraps. *)
Context {CacheDB : Type}.

Record t := mk { inner : CacheDB; state_snapshots : StateSnapshots.t CacheDB }.

Definition new (db : CacheDB) : t := mk db StateSnapshots.default.

Definition snapshot_state (st : t) : t * Z :=
  let '(snaps, id) := StateSnapshots.insert (state_snapshots st) (inner st) in
  (mk (inner st) snaps, id).

Definition revert_state (st : t) (id : Z) (action : RevertStateSnapshotAction) : t * bool :=
  let '(snaps, found) := StateSnapshots.remove (state_snapshots st) id in
  match found with
  | Some state_snapshot =>
      let snaps :=
        if is_keep action then (StateSnapshots.insert_at snaps state_snapshot id).1 else snaps in
      (mk state_snapshot snaps, true)
  | None => (mk (inner st) snaps, false)
  end.
End db.
Arguments t : clear implicits.
End MemDb.

(** * What the snapshots promise

    A stack, newest first: taking a snapshot pushes the current state under
    the next id; reverting to an id pops everything taken after it, and
    restores the state of that id if it is still there. *)

Section spec.
Context {A : Type}.

Record stack := mk_stack { current : A; next : Z; saved : list (Z * A) }.

Definition stack_snapshot (s : stack) : stack * Z :=
  (mk_stack (current s) (next s + 1) ((next s, current s) :: saved s), next s).

Definition stack_revert (s : stack) (i : Z) (a : RevertStateSnapshotAction) : stack * bool :=
  match filter (λ e, (e.1 ≤ i)%Z) (saved s) with
  | (j, x) :: older =>
      if decide (j = i)
      then (mk_stack x (next s) (if is_keep a then (j, x) :: older else older), true)
      else (mk_stack (current s) (next s) ((j, x) :: older), false)
  | [] => (mk_stack (current s) (next s) [], false)
  end.

Inductive snap_op := Modify (f : A → A) | Snapshot | Revert (i : Z) (a : RevertStateSnapshotAction).

(** The answer of an operation: the id of a new snapshot, whether a revert
    found its snapshot. *)
Inductive answer := Done | Id (i : Z) | Found (b : bool).

Definition stack_exec (op : snap_op) (s : stack) : stack * answer :=
  match op with
  | Modify f => (mk_stack (f (current s)) (next s) (saved s), Done)
  | Snapshot => let '(s, i) := stack_snapshot s in (s, Id i)
  | Revert i a => let '(s, b) := stack_revert s i a in (s, Found b)
  end.

Definition snap_exec (op : snap_op) (s : MemDb.t A) : MemDb.t A * answer :=
  match op with
  | Modify f => (MemDb.mk (f (MemDb.inner s)) (MemDb.state_snapshots s), Done)
  | Snapshot => let '(s, i) := MemDb.snapshot_state s in (s, Id i)
  | Revert i a => let '(s, b) := MemDb.revert_state s i a in (s, Found b)
  end.

Fixpoint stack_run (ops : list snap_op) (s : stack) : stack * list answer :=
  match ops with
  | [] => (s, [])
  | op :: ops =>
      let '(s, a) := stack_exec op s in
      let '(s, l) := stack_run ops s in (s, a :: l)
  end.

Fixpoint snap_run (ops : list snap_op) (s : MemDb.t A) : MemDb.t A * list answer :=
  match ops with
  | [] => (s, [])
  | op :: ops =>
      let '(s, a) := snap_exec op s in
      let '(s, l) := snap_run ops s in (s, a :: l)
  end.

(** The ids a caller passes are [U256] below the last one. *)
Definition snap_op_ok (op : snap_op) : Prop :=
  match op with Revert i _ => (0 ≤ i < U256_MAX)%Z | _ => True end.
End spec.
Arguments stack : clear implicits.
Arguments snap_op : clear implicits.

(** * The refinement *)

Section refinement.
Context {A : Type}.
Implicit Types (s : MemDb.t A) (k : stack A).

(** [k] is the stack [s] implements. *)
Record implements s k : Prop := {
  imp_current : MemDb.inner s = current k;
  imp_next : StateSnapshots.id (MemDb.state_snapshots s) = next k;
  imp_nonneg : (0 ≤ next k)%Z;
  imp_sorted : StronglySorted (λ e e', (e'.1 < e.1)%Z) (saved k);
  imp_ids : Forall (λ e, (0 ≤ e.1 < next k)%Z) (saved k);
  imp_saved : StateSnapshots.state_snapshots (MemDb.state_snapshots s) = list_to_map (saved k)
}.

Lemma remove_after_lookup fuel to_revert last (m : gmap Z A) j :
  (0 ≤ to_revert)%Z → (last ≤ U256_MAX)%Z → Z.to_nat (last - to_revert) ≤ fuel →
  StateSnapshots.remove_after fuel to_revert last m !! j =
    if decide (to_revert ≤ j < last)%Z then None else m !! j.
Proof.
  unfold U256_MAX. revert to_revert m. induction fuel as [|fuel IH]; intros r m Hr Hlast Hf; simpl.
  { rewrite decide_False by lia. done. }
  destruct (Z.ltb_spec r last); [|by rewrite decide_False by lia].
  rewrite Z.mod_small by lia. rewrite IH by lia.
  destruct (decide (r = j)) as [->|Hne].
  - rewrite lookup_delete_eq, (decide_False (P := (j + 1 ≤ j < last)%Z)) by lia.
    by rewrite decide_True by lia.
  - rewrite lookup_delete_ne by done.
    destruct (decide (r + 1 ≤ j < last)%Z), (decide (r ≤ j < last)%Z); first [done|lia].
Qed.

Lemma remove_lookup (s : StateSnapshots.t A) i j :
  (0 ≤ i < U256_MAX)%Z → (StateSnapshots.id s ≤ U256_MAX)%Z →
  (∀ j, is_Some (StateSnapshots.state_snapshots s !! j) → (j < StateSnapshots.id s)%Z) →
  StateSnapshots.state_snapshots (StateSnapshots.remove s i).1 !! j =
    if decide (j < i)%Z then StateSnapshots.state_snapshots s !! j else None.
Proof.
  intros Hi Hid Hdom. unfold StateSnapshots.remove. simpl.
  assert ((i + 1) mod 2 ^ 256 = i + 1)%Z as -> by (apply Z.mod_small; unfold U256_MAX in *; lia).
  rewrite remove_after_lookup by lia. destruct (decide (i = j)) as [->|Hne].
  { rewrite lookup_delete_eq, (decide_False (P := (j < j)%Z)) by lia. by destruct (decide _). }
  rewrite lookup_delete_ne by done.
  destruct (decide (i + 1 ≤ j < StateSnapshots.id s)%Z), (decide (j < i)%Z); try done; [lia|].
  apply eq_None_not_Some. intros Hj%Hdom. lia.
Qed.
Lemma filter_list_to_map (i : Z) (l : list (Z * A)) j :
  (list_to_map (filter (λ e, (e.1 < i)%Z) l) : gmap Z A) !! j =
    if decide (j < i)%Z then (list_to_map l : gmap Z A) !! j else None.
Proof.
  induction l as [|[k x] l IH]; [by destruct (decide _)|].
  rewrite filter_cons. simpl. destruct (decide (k = j)) as [->|Hne].
  - destruct (decide (j < i)%Z); simpl; [by rewrite !lookup_insert_eq|exact IH].
  - rewrite (lookup_insert_ne (list_to_map l)) by done.
    destruct (decide (k < i)%Z); simpl; [by rewrite lookup_insert_ne|exact IH].
Qed.

(** In a stack the entries up to an id are the entry of that id, if there is
    one, and those below it. *)
Lemma filter_le_split (l : list (Z * A)) i :
  StronglySorted (λ e e', (e'.1 < e.1)%Z) l →
  match (list_to_map l : gmap Z A) !! i with
  | Some x => filter (λ e, (e.1 ≤ i)%Z) l = (i, x) :: filter (λ e, (e.1 < i)%Z) l
  | None => filter (λ e, (e.1 ≤ i)%Z) l = filter (λ e, (e.1 < i)%Z) l
  end.
Proof.
  induction 1 as [|[k y] l Hs IH Hall]; [done|]. rewrite !filter_cons. simpl in *.
  destruct (Z.lt_trichotomy k i) as [Hlt|[->|Hgt]].
  - rewrite lookup_insert_ne by lia. rewrite !decide_True by lia.
    assert (∀ e, e ∈ l → (e.1 < i)%Z) as Hl.
    { intros e He. rewrite Forall_forall in Hall. apply Hall in He. simpl in He. lia. }
    destruct ((list_to_map l : gmap Z A) !! i) as [x|] eqn:Hx; [|by f_equal].
    apply elem_of_list_to_map_2, Hl in Hx. simpl in Hx. lia.
  - rewrite lookup_insert_eq, decide_True, decide_False by lia. f_equal.
    rewrite Forall_forall in Hall.
    rewrite !filter_all; [done|intros e He; apply Hall in He; simpl in He; lia..].
  - rewrite lookup_insert_ne by lia. rewrite !decide_False by lia. exact IH.
Qed.

Lemma snapshot_implements s k :
  implements s k → (next k < U256_MAX)%Z →
  implements (MemDb.snapshot_state s).1 (stack_snapshot k).1 ∧
  (MemDb.snapshot_state s).2 = (stack_snapshot k).2.
Proof.
  intros [Hc Hn H0 Hs Hi Hm] Hlt. split; [|exact Hn]. split; simpl.
  - done.
  - rewrite Hn. lia.
  - lia.
  - constructor; [done|]. eapply Forall_impl; [exact Hi|]. simpl. lia.
  - constructor; [simpl; lia|]. eapply Forall_impl; [exact Hi|]. simpl. lia.
  - by rewrite Hm, Hc, Hn.
Qed.

Lemma revert_implements s k i a :
  implements s k → (next k ≤ U256_MAX)%Z → (0 ≤ i < U256_MAX)%Z →
  implements (MemDb.revert_state s i a).1 (stack_revert k i a).1 ∧
  (MemDb.revert_state s i a).2 = (stack_revert k i a).2 ∧
  next (stack_revert k i a).1 = next k.
Proof.
  intros [Hc Hn H0 Hs Hi Hm] Hle Hid.
  assert (StateSnapshots.state_snapshots (StateSnapshots.remove (MemDb.state_snapshots s) i).1 =
    list_to_map (filter (λ e, (e.1 < i)%Z) (saved k))) as Hrem.
  { apply map_eq. intros j. rewrite filter_list_to_map, remove_lookup, Hm; [done|done|lia|].
    intros j' [x Hx]. rewrite Hm in Hx. apply elem_of_list_to_map_2 in Hx.
    rewrite Forall_forall in Hi. apply Hi in Hx. simpl in Hx. lia. }
  assert (StronglySorted (λ e e', (e'.1 < e.1)%Z) (filter (λ e, (e.1 < i)%Z) (saved k)) ∧
    Forall (λ e, (0 ≤ e.1 < next k ∧ e.1 < i)%Z) (filter (λ e, (e.1 < i)%Z) (saved k)))
    as [Hs' Hf'].
  { split; [by apply filter_sorted|]. apply Forall_forall.
    intros e [Hlt He]%list_elem_of_filter. rewrite Forall_forall in Hi. auto. }
  pose proof (filter_le_split (saved k) i Hs) as Hsplit.
  unfold MemDb.revert_state, stack_revert.
  rewrite (surjective_pairing (StateSnapshots.remove (MemDb.state_snapshots s) i)).
  replace (StateSnapshots.remove (MemDb.state_snapshots s) i).2
    with ((list_to_map (saved k) : gmap Z A) !! i) by (by rewrite <- Hm).
  assert (Forall (λ e, (0 ≤ e.1 < next k)%Z) (filter (λ e, (e.1 < i)%Z) (saved k))) as Hf.
  { eapply Forall_impl; [exact Hf'|]. simpl. lia. }
  destruct ((list_to_map (saved k) : gmap Z A) !! i) as [x|] eqn:Hx; rewrite Hsplit.
  - rewrite decide_True by done. split; [|done].
    assert (0 ≤ i < next k)%Z as Hin.
    { apply elem_of_list_to_map_2 in Hx. rewrite Forall_forall in Hi. by apply (Hi (i, x)). }
    destruct a; split; simpl; try done; rewrite ?Hrem; try done.
    + constructor; [done|]. eapply Forall_impl; [exact Hf'|]. simpl. lia.
    + by constructor.
    + simpl in Hrem. by rewrite Hrem.
  - destruct (filter _ _) as [|[j y] older] eqn:Hold.
    + split; [|done]. by split.
    + rewrite decide_False.
      * split; [|done]. by split.
      * apply Forall_cons in Hf' as [Hj _]. simpl in Hj. lia.
Qed.

Definition is_snapshot (op : snap_op A) : bool := match op with Snapshot => true | _ => false end.

Lemma snap_run_implements ops s k :
  implements s k → Forall snap_op_ok ops →
  (next k + Z.of_nat (length (filter is_snapshot ops)) ≤ U256_MAX)%Z →
  implements (snap_run ops s).1 (stack_run ops k).1 ∧
  (snap_run ops s).2 = (stack_run ops k).2.
Proof.
  intros Himp Hok. revert s k Himp. induction Hok as [|op ops Hop Hok IH]; intros s k Himp Hn;
    [done|]. rewrite filter_cons in Hn.
  assert (implements (snap_exec op s).1 (stack_exec op k).1 ∧
    (snap_exec op s).2 = (stack_exec op k).2 ∧
    (next (stack_exec op k).1 + Z.of_nat (length (filter is_snapshot ops)) ≤ U256_MAX)%Z)
    as (Himp' & Hans & Hn').
  { destruct op as [f| |i a]; simpl in *.
    - destruct Himp. split; [|done]. split; simpl; try done. by f_equal.
    - pose proof (snapshot_implements s k Himp) as Hst. simpl in *.
      destruct Hst as [Hst Hid]; [lia|]. split; [exact Hst|]. split; [by f_equal|]. lia.
    - destruct (revert_implements s k i a Himp) as (Hst & Hb & Hnx); [lia|done|].
      destruct (MemDb.revert_state s i a), (stack_revert k i a). simpl in *. subst.
      split; [done|]. split; [done|]. lia. }
  cbn [snap_run stack_run].
  destruct (snap_exec op s) as [s' x], (stack_exec op k) as [k' x']. simpl in *. subst x'.
  destruct (IH s' k' Himp' Hn') as [Hi Ha].
  destruct (snap_run ops s'), (stack_run ops k'). simpl in *. by subst.
Qed.
End refinement.

Lemma new_implements {A} (x : A) : implements (MemDb.new x) (mk_stack x 0 []).
Proof. split; simpl; try done. constructor. Qed.

(** * Theorems *)

(** C36: the snapshots of a [MemDb] are a stack.  Whatever sequence of
    changes, snapshots and reverts (with either action) a caller performs, the
    database gives the answers of the stack (the ids, and whether a revert found
    its snapshot) and ends in its state, with its snapshots: a revert restores
    exactly the state its snapshot saw and discards the snapshots taken after
    it. *)
Theorem snapshots_are_a_stack {A} (x : A) (ops : list (snap_op A)) :
  Forall snap_op_ok ops → (Z.of_nat (length (filter is_snapshot ops)) ≤ U256_MAX)%Z →
  let '(s, answers) := snap_run ops (MemDb.new x) in
  let '(k, answers') := stack_run ops (mk_stack x 0 []) in
  answers = answers' ∧ MemDb.inner s = current k ∧
  StateSnapshots.state_snapshots (MemDb.state_snapshots s) = list_to_map (saved k).
Proof.
  intros Hok Hn.
  destruct (snap_run_implements ops _ _ (new_implements x) Hok) as [Himp Ha]; [simpl; lia|].
  destruct (snap_run ops _), (stack_run ops _). simpl in *. by destruct Himp.
Qed.

Definition sample_snaps : list (snap_op Z) :=
  [Snapshot; Modify (Z.add 1); Snapshot; Modify (Z.add 1); Revert 0 RevertKeep; Snapshot;
   Modify (Z.add 5); Revert 0 RevertRemove].

Lemma snapshots_are_a_stack_witness :
  (snap_run sample_snaps (MemDb.new 7%Z)).2 =
    [Id 0; Done; Id 1; Done; Found true; Id 2; Done; Found true] ∧
  MemDb.inner (snap_run sample_snaps (MemDb.new 7%Z)).1 = 7%Z.
Proof.
  pose proof (snapshots_are_a_stack 7%Z sample_snaps) as H.
  destruct (snap_run sample_snaps (MemDb.new 7%Z)) as [s a] eqn:Hrun.
  destruct (stack_run sample_snaps (mk_stack 7%Z 0 [])) as [k a'] eqn:Hk.
  destruct H as (Ha & Hs & _); [repeat constructor; done|vm_compute; congruence|].
  cbn [fst snd]. rewrite Ha, Hs. injection Hk as <- <-. done.
Defined.

(** A revert that fails still discards snapshots.  Reverting to an id
    under which nothing is saved answers [false] and leaves the state, but
    removes every snapshot with a greater id, and the revert to the greatest
    id (whose successor wraps to 0) removes all of them. *)
Theorem failed_revert_discards {A} (s : MemDb.t A) (k : stack A) i a :
  implements s k → (next k ≤ U256_MAX)%Z → (0 ≤ i ≤ U256_MAX)%Z →
  StateSnapshots.get (MemDb.state_snapshots s) i = None →
  let '(s', found) := MemDb.revert_state s i a in
  found = false ∧ MemDb.inner s' = MemDb.inner s ∧
  ∀ j, StateSnapshots.get (MemDb.state_snapshots s') j =
    if decide (j < i ∧ i ≠ U256_MAX)%Z then StateSnapshots.get (MemDb.state_snapshots s) j
    else None.
Proof.
  intros Himp Hle Hi Hnone. unfold StateSnapshots.get in *.
  assert (∀ j, is_Some (StateSnapshots.state_snapshots (MemDb.state_snapshots s) !! j) →
    (0 ≤ j < StateSnapshots.id (MemDb.state_snapshots s))%Z) as Hdom.
  { intros j [x Hx]. rewrite (imp_saved _ _ Himp) in Hx. apply elem_of_list_to_map_2 in Hx.
    pose proof (imp_ids _ _ Himp) as Hf. rewrite Forall_forall in Hf. apply Hf in Hx.
    rewrite (imp_next _ _ Himp). done. }
  assert (MemDb.revert_state s i a =
    (MemDb.mk (MemDb.inner s) (StateSnapshots.remove (MemDb.state_snapshots s) i).1, false)) as ->.
  { unfold MemDb.revert_state, StateSnapshots.remove. by rewrite Hnone. }
  split; [done|]. split; [done|]. intros j. cbn [MemDb.state_snapshots].
  destruct (decide (i = U256_MAX)) as [->|Hne].
  - rewrite decide_False by tauto. unfold StateSnapshots.remove. cbn [fst].
    change ((U256_MAX + 1) mod 2 ^ 256)%Z with 0%Z. cbn [StateSnapshots.state_snapshots].
    rewrite delete_id by done.
    rewrite remove_after_lookup by (rewrite ?(imp_next _ _ Himp); lia).
    destruct (decide _) as [|Hout]; [done|]. apply eq_None_not_Some. intros Hj%Hdom. lia.
  - rewrite remove_lookup; [|lia|rewrite (imp_next _ _ Himp); lia|intros j' Hj'%Hdom; lia].
    destruct (decide (j < i)%Z), (decide (j < i ∧ i ≠ U256_MAX)%Z); first [done|tauto].
Qed.

Definition sample_failed : MemDb.t Z :=
  (snap_run [Snapshot; Revert 0 RevertRemove; Snapshot] (MemDb.new 7%Z)).1.

Lemma failed_revert_discards_witness :
  StateSnapshots.get (MemDb.state_snapshots sample_failed) 1 = Some 7%Z ∧
  (MemDb.revert_state sample_failed 0 RevertRemove).2 = false ∧
  StateSnapshots.get (MemDb.state_snapshots (MemDb.revert_state sample_failed 0 RevertRemove).1) 1
    = None.
Proof.
  split; [done|].
  pose proof (failed_revert_discards sample_failed (mk_stack 7%Z 2 [(1, 7)%Z]) 0 RevertRemove) as H.
  destruct (MemDb.revert_state sample_failed 0 RevertRemove) as [s' found].
  destruct H as (-> & _ & Hj); [|done|done|done|split; [done|exact (Hj 1%Z)]].
  split; try done; repeat constructor; done.
Defined.
