(* ===== verification/Database.v ===== *)
(** The databases behind a block's state (anvil/src/eth/backend/db.rs): the
    [MaybeFullDatabase] trait with its implementation for revm's [CacheDB], and
    the operations of the [Db] trait on accounts.

    The revm types are records with the fields the code touches; revm's own
    methods are parameters. *)
From S2P Require Import Prelude Transaction.

(** The iteration order of a [HashMap], which no code may depend on. *)
Class MapOrder := {
  map_iter : ∀ {V}, gmap Z V → list (Z * V);
  map_iter_perm : ∀ {V} (m : gmap Z V), map_iter m ≡ₚ map_to_list m
}.

Definition default_map_order : MapOrder :=
  {| map_iter V m := map_to_list m; map_iter_perm V m := Permutation_refl _ |}.

(** * Data *)

Section types.
Context {Bytecode : Type}.

Record AccountInfo := mk_info { balance : Z; acc_nonce : Z; code_hash : Z; code : option Bytecode }.

(** [AccountState] of revm; [Loaded] is its default ([None] in Rust). *)
Inductive AccountState := NotExisting | Touched | StorageCleared | Loaded.

Record DbAccount := mk_acc { info : AccountInfo; account_state : AccountState; storage : gmap Z Z }.

(** [StateSnapshot] (evm/core/src/backend/snapshot.rs). *)
Record StateSnapshot := mk_snap { snap_accounts : gmap Z AccountInfo;
  snap_storage : gmap Z (gmap Z Z); snap_block_hashes : gmap Z Z }.
End types.
Arguments AccountInfo : clear implicits.
Arguments DbAccount : clear implicits.
Arguments StateSnapshot : clear implicits.

Definition set_info_code {B} (i : AccountInfo B) (c : option B) : AccountInfo B :=
  mk_info (balance i) (acc_nonce i) (code_hash i) c.

(** ** The trait *)

(** [MaybeFullDatabase]: the part the state history uses. *)
Class MaybeFullDatabase (D Snap : Type) := {
  clear_into_state_snapshot : D → D * Snap;
  read_as_state_snapshot : D → Snap;
  init_from_state_snapshot : D → Snap → D
}.

(** What it promises: initialising the cleared database, or one that has the
    same data, from the snapshot gives the same data back. *)
Class FullDatabaseLaws (D Snap : Type) `{MaybeFullDatabase D Snap} `{Equiv D} := {
  db_equiv : Equivalence (≡@{D});
  db_restore d : let '(d', s) := clear_into_state_snapshot d in
    init_from_state_snapshot d' s ≡ d;
  db_restore_again d x : x ≡ d →
    init_from_state_snapshot x (clear_into_state_snapshot d).2 ≡ d
}.

(** ** CacheDB *)

Module CacheDB.
Section cache.
Context {Bytecode Ext : Type} `{MapOrder}.

Record t := mk { accounts : gmap Z (DbAccount Bytecode); contracts : gmap Z Bytecode;
  block_hashes : gmap Z Z; db : Ext }.

(** The loop of [clear_into_state_snapshot]: every account's code is taken
    out of [contracts]. *)
Fixpoint clear_loop (l : list (Z * DbAccount Bytecode)) (contracts : gmap Z Bytecode)
    (accounts : gmap Z (AccountInfo Bytecode)) (account_storage : gmap Z (gmap Z Z)) :
    gmap Z Bytecode * gmap Z (AccountInfo Bytecode) * gmap Z (gmap Z Z) :=
  match l with
  | [] => (contracts, accounts, account_storage)
  | (addr, acc) :: l =>
      let i := set_info_code (info acc) (contracts !! code_hash (info acc)) in
      clear_loop l (delete (code_hash (info acc)) contracts) (<[addr := i]> accounts)
        (<[addr := storage acc]> account_storage)
  end.

Definition clear_into_state_snapshot (d : t) : t * StateSnapshot Bytecode :=
  let '(cs, accs, stor) := clear_loop (map_iter (accounts d)) (contracts d) ∅ ∅ in
  (mk ∅ cs ∅ (db d), mk_snap accs stor (block_hashes d)).

Fixpoint read_loop (l : list (Z * DbAccount Bytecode)) (contracts : gmap Z Bytecode)
    (accounts : gmap Z (AccountInfo Bytecode)) (account_storage : gmap Z (gmap Z Z)) :
    gmap Z (AccountInfo Bytecode) * gmap Z (gmap Z Z) :=
  match l with
  | [] => (accounts, account_storage)
  | (addr, acc) :: l =>
      let i := set_info_code (info acc) (contracts !! code_hash (info acc)) in
      read_loop l contracts (<[addr := i]> accounts) (<[addr := storage acc]> account_storage)
  end.

Definition read_as_state_snapshot (d : t) : StateSnapshot Bytecode :=
  let '(accs, stor) := read_loop (map_iter (accounts d)) (contracts d) ∅ ∅ in
  mk_snap accs stor (block_hashes d).

Definition clear (d : t) : t := (clear_into_state_snapshot d).1.

(** The loop of [init_from_state_snapshot]: the code goes to [contracts], and
    the account gets the storage of its address. *)
Fixpoint init_loop (l : list (Z * AccountInfo Bytecode)) (storage : gmap Z (gmap Z Z))
    (contracts : gmap Z Bytecode) (accounts : gmap Z (DbAccount Bytecode)) :
    gmap Z Bytecode * gmap Z (DbAccount Bytecode) :=
  match l with
  | [] => (contracts, accounts)
  | (addr, acc) :: l =>
      let contracts :=
        match code acc with Some c => <[code_hash acc := c]> contracts | None => contracts end in
      init_loop l (delete addr storage) contracts
        (<[addr := mk_acc (set_info_code acc None) Loaded (default ∅ (storage !! addr))]> accounts)
  end.

Definition init_from_state_snapshot (d : t) (s : StateSnapshot Bytecode) : t :=
  let '(cs, accs) :=
    init_loop (map_iter (snap_accounts s)) (snap_storage s) (contracts d) (accounts d) in
  mk accs cs (snap_block_hashes s) (db d).
End cache.
Arguments t : clear implicits.
End CacheDB.

#[export] Instance CacheDB_full {B Ext} `{MapOrder} :
    MaybeFullDatabase (CacheDB.t B Ext) (StateSnapshot B) := {
  clear_into_state_snapshot := CacheDB.clear_into_state_snapshot;
  read_as_state_snapshot := CacheDB.read_as_state_snapshot;
  init_from_state_snapshot := CacheDB.init_from_state_snapshot
}.

(** * Restoring a snapshot *)

(** What a snapshot keeps of an account. *)
Definition forget {B} (acc : DbAccount B) : DbAccount B :=
  mk_acc (set_info_code (info acc) None) Loaded (storage acc).

(** Two databases with the same data: equal up to the cached code (which is
    in [contracts]) and the load state of the accounts. *)
#[export] Instance CacheDB_equiv {B Ext} : Equiv (CacheDB.t B Ext) := λ d d',
  forget <$> CacheDB.accounts d = forget <$> CacheDB.accounts d' ∧
  CacheDB.contracts d = CacheDB.contracts d' ∧
  CacheDB.block_hashes d = CacheDB.block_hashes d' ∧ CacheDB.db d = CacheDB.db d'.

#[export] Instance CacheDB_equivalence {B Ext} : Equivalence (≡@{CacheDB.t B Ext}).
Proof.
  split; unfold equiv, CacheDB_equiv.
  - done.
  - intros ? ? (?&?&?&?). eauto.
  - intros ? ? ? (->&->&->&->) (?&?&?&?). eauto.
Qed.

Lemma elem_of_map_iter `{MapOrder} {V} (m : gmap Z V) k v :
  (k, v) ∈ map_iter m ↔ m !! k = Some v.
Proof. by rewrite map_iter_perm, elem_of_map_to_list. Qed.

Lemma NoDup_map_iter `{MapOrder} {V} (m : gmap Z V) : NoDup (map_iter m).*1.
Proof. rewrite map_iter_perm. apply NoDup_fst_map_to_list. Qed.

Lemma elem_of_keys {V} (l : list (Z * V)) k : k ∈ l.*1 ↔ ∃ v, (k, v) ∈ l.
Proof.
  rewrite list_elem_of_fmap. split.
  - intros ([k' v] & -> & Hin). eauto.
  - intros [v Hin]. exists (k, v). done.
Qed.

Section clear.
Context {B : Type}.
Implicit Types (l : list (Z * DbAccount B)) (K : gmap Z B) (A : gmap Z (AccountInfo B)).

Lemma clear_loop_accounts l K A St : NoDup l.*1 →
  let '(_, A', St') := CacheDB.clear_loop l K A St in
  (∀ a acc, (a, acc) ∈ l → (∃ c, A' !! a = Some (set_info_code (info acc) c)) ∧
    St' !! a = Some (storage acc)) ∧
  (∀ a, a ∉ l.*1 → A' !! a = A !! a ∧ St' !! a = St !! a).
Proof.
  revert K A St. induction l as [|[x acc] l IH]; intros K A St Hnd.
  { split; [|done]. by intros ? ? ?%not_elem_of_nil. }
  apply NoDup_cons in Hnd as [Hx Hnd]. cbn [CacheDB.clear_loop].
  specialize (IH (delete (code_hash (info acc)) K)
    (<[x := set_info_code (info acc) (K !! code_hash (info acc))]> A)
    (<[x := storage acc]> St) Hnd).
  destruct (CacheDB.clear_loop _ _ _ _) as [[K' A'] St']. destruct IH as [Hin Hout].
  split.
  - intros a acc' [[= -> ->]|Ha]%elem_of_cons; [|by apply Hin].
    destruct (Hout x Hx) as [-> ->]. rewrite !lookup_insert_eq. eauto.
  - intros a Ha. rewrite fmap_cons, not_elem_of_cons in Ha. destruct Ha as [Hne Ha].
    destruct (Hout a Ha) as [-> ->]. by rewrite !lookup_insert_ne.
Qed.

(** The code of [K0] is in [K] or with an account of [A]. *)
Definition held_code K0 K A : Prop := ∀ h c, K0 !! h = Some c ↔
  K !! h = Some c ∨ ∃ a i, A !! a = Some i ∧ code_hash i = h ∧ code i = Some c.

Lemma held_code_take K0 K A x i : A !! x = None → held_code K0 K A →
  held_code K0 (delete (code_hash i) K) (<[x := set_info_code i (K !! code_hash i)]> A).
Proof.
  intros Hx Hk h c. rewrite (Hk h c). split.
  - intros [Hc|(a & j & Ha & Hj)].
    + destruct (decide (h = code_hash i)) as [->|Hne].
      * right. exists x. eexists. rewrite lookup_insert_eq. split; [done|]. done.
      * left. by rewrite lookup_delete_ne.
    + right. exists a, j. rewrite lookup_insert_ne by congruence. done.
  - intros [[_ Hc]%lookup_delete_Some|(a & j & Ha & Hj & Hc)]; [by left|].
    apply lookup_insert_Some in Ha as [[-> <-]|[Hne Ha]].
    + left. simpl in *. by subst.
    + right. eauto.
Qed.

Lemma clear_loop_code K0 l K A St : NoDup l.*1 → (∀ a, a ∈ l.*1 → A !! a = None) →
  held_code K0 K A →
  let '(K', A', _) := CacheDB.clear_loop l K A St in held_code K0 K' A'.
Proof.
  revert K A St. induction l as [|[x acc] l IH]; intros K A St Hnd Hfresh Hk; [done|].
  apply NoDup_cons in Hnd as [Hx Hnd]. cbn [CacheDB.clear_loop]. apply IH; [done| |].
  - intros a Ha. rewrite lookup_insert_ne by set_solver. apply Hfresh. by right.
  - apply held_code_take; [|done]. apply Hfresh. by left.
Qed.

Lemma init_loop_accounts (l : list (Z * AccountInfo B)) St K D : NoDup l.*1 →
  let '(_, D') := CacheDB.init_loop l St K D in
  (∀ a i, (a, i) ∈ l →
    D' !! a = Some (mk_acc (set_info_code i None) Loaded (default ∅ (St !! a)))) ∧
  (∀ a, a ∉ l.*1 → D' !! a = D !! a).
Proof.
  revert St K D. induction l as [|[x i] l IH]; intros St K D Hnd.
  { split; [|done]. by intros ? ? ?%not_elem_of_nil. }
  apply NoDup_cons in Hnd as [Hx Hnd]. cbn [CacheDB.init_loop].
  match goal with |- context [CacheDB.init_loop l ?St' ?K' ?D'] =>
    specialize (IH St' K' D' Hnd); destruct (CacheDB.init_loop l St' K' D') as [K1 D1] end.
  destruct IH as [Hin Hout]. split.
  - intros a j [[= -> ->]|Ha]%elem_of_cons; [by rewrite Hout, lookup_insert_eq|].
    rewrite (Hin a j Ha), lookup_delete_ne; [done|]. intros ->. apply Hx, elem_of_keys. eauto.
  - intros a Ha. rewrite fmap_cons, not_elem_of_cons in Ha. destruct Ha as [Hne Ha].
    rewrite Hout by done. by rewrite lookup_insert_ne.
Qed.

Lemma init_loop_code K0 (l : list (Z * AccountInfo B)) St K D :
  K ⊆ K0 → (∀ a i c, (a, i) ∈ l → code i = Some c → K0 !! code_hash i = Some c) →
  let '(K', _) := CacheDB.init_loop l St K D in
  K ⊆ K' ∧ K' ⊆ K0 ∧ (∀ a i c, (a, i) ∈ l → code i = Some c → K' !! code_hash i = Some c).
Proof.
  revert St K D. induction l as [|[x i] l IH]; intros St K D Hsub Hcons.
  { split; [done|]. split; [done|]. by intros ? ? ? ?%not_elem_of_nil. }
  cbn [CacheDB.init_loop].
  set (K1 := match code i with Some c => <[code_hash i := c]> K | None => K end).
  assert (K ⊆ K1 ∧ K1 ⊆ K0 ∧ ∀ c, code i = Some c → K1 !! code_hash i = Some c)
    as (HK1 & HK1' & Hi).
  { unfold K1. destruct (code i) as [c|] eqn:Hc; [|done].
    pose proof (Hcons x i c (list_elem_of_here _ _) Hc) as Hc0.
    rewrite !map_subseteq_spec in *. split_and!.
    - intros h c' Hh. destruct (decide (h = code_hash i)) as [->|]; [|by rewrite lookup_insert_ne].
      rewrite lookup_insert_eq. apply Hsub in Hh. congruence.
    - intros h c' [[<- <-]|[_ Hh]]%lookup_insert_Some; auto.
    - intros ? [= <-]. apply lookup_insert_eq. }
  match goal with |- context [CacheDB.init_loop l ?St' K1 ?D'] =>
    specialize (IH St' K1 D' HK1'); destruct (CacheDB.init_loop l St' K1 D') as [K2 D2] end.
  destruct IH as (H1 & H2 & H3); [intros a j c Ha; apply (Hcons a j c); by right|].
  split_and!; [by etransitivity|done|].
  intros a j c [[= -> ->]|Ha]%elem_of_cons; [|by eapply H3].
  intros Hc. eapply lookup_weaken; [by apply Hi|done].
Qed.
End clear.

Section restore.
Context {B Ext : Type} `{MapOrder}.
Implicit Types d x : CacheDB.t B Ext.

Lemma init_clear d x :
  CacheDB.contracts (CacheDB.clear_into_state_snapshot d).1 ⊆ CacheDB.contracts x →
  CacheDB.contracts x ⊆ CacheDB.contracts d →
  let d' := CacheDB.init_from_state_snapshot x (CacheDB.clear_into_state_snapshot d).2 in
  (∀ a, CacheDB.accounts d' !! a =
    match CacheDB.accounts d !! a with
    | Some acc => Some (forget acc)
    | None => CacheDB.accounts x !! a
    end) ∧
  CacheDB.contracts d' = CacheDB.contracts d ∧
  CacheDB.block_hashes d' = CacheDB.block_hashes d ∧ CacheDB.db d' = CacheDB.db x.
Proof.
  unfold CacheDB.clear_into_state_snapshot, CacheDB.init_from_state_snapshot.
  pose proof (NoDup_map_iter (CacheDB.accounts d)) as Hnd.
  pose proof (clear_loop_accounts _ (CacheDB.contracts d) ∅ ∅ Hnd) as Hacc.
  assert (held_code (CacheDB.contracts d) (CacheDB.contracts d) (∅ : gmap Z (AccountInfo B)))
    as Hk. { intros h c. split; [by left|]. intros [?|(a & i & Ha & _)]; [done|]. by simplify_map_eq. }
  pose proof (clear_loop_code _ _ (CacheDB.contracts d) ∅ ∅ Hnd (λ a _, lookup_empty a) Hk) as Hcode.
  destruct (CacheDB.clear_loop _ _ _ _) as [[K A] St]. cbn [fst snd]. cbn. clear Hk.
  destruct Hacc as [Hin Hout]. intros Hsub Hsub'.
  pose proof (init_loop_accounts (map_iter A) St (CacheDB.contracts x) (CacheDB.accounts x)
    (NoDup_map_iter A)) as Hacc'.
  pose proof (init_loop_code (CacheDB.contracts d) (map_iter A) St (CacheDB.contracts x)
    (CacheDB.accounts x) Hsub') as Hcode'.
  destruct (CacheDB.init_loop _ _ _ _) as [K' D']. destruct Hacc' as [Hin' Hout']. cbn.
  destruct Hcode' as (HK & HK' & Hall).
  { intros a i c Ha%elem_of_map_iter Hc. apply Hcode. right. eauto. }
  split_and!; [| |done|done].
  - intros a. destruct (CacheDB.accounts d !! a) as [acc|] eqn:Ha.
    + destruct (Hin a acc) as [[c Hc] Hs]; [by apply elem_of_map_iter|].
      apply elem_of_map_iter in Hc. rewrite (Hin' _ _ Hc), Hs. done.
    + apply Hout'. intros [i Hi]%elem_of_keys. apply elem_of_map_iter in Hi.
      destruct (Hout a) as [Ha' _]; [|rewrite Ha' in Hi; by simplify_map_eq].
      intros [acc Hacc]%elem_of_keys. apply elem_of_map_iter in Hacc. congruence.
  - apply (anti_symm (⊆)); [done|]. apply map_subseteq_spec. intros h c Hc.
    apply Hcode in Hc as [Hc|(a & i & Ha & <- & Hc)].
    + eapply lookup_weaken; [|exact HK]. eapply lookup_weaken; [exact Hc|exact Hsub].
    + apply (Hall a i c); [by apply elem_of_map_iter|done].
Qed.

Lemma clear_contracts d :
  CacheDB.contracts (CacheDB.clear_into_state_snapshot d).1 ⊆ CacheDB.contracts d.
Proof.
  unfold CacheDB.clear_into_state_snapshot. generalize (∅ : gmap Z (AccountInfo B)).
  generalize (∅ : gmap Z (gmap Z Z)). generalize (CacheDB.contracts d).
  induction (map_iter (CacheDB.accounts d)) as [|[a acc] l IH]; intros K St A; [done|].
  cbn [CacheDB.clear_loop]. etransitivity; [apply IH|]. apply delete_subseteq.
Qed.

Lemma init_clear_equiv d x :
  CacheDB.contracts (CacheDB.clear_into_state_snapshot d).1 ⊆ CacheDB.contracts x →
  CacheDB.contracts x ⊆ CacheDB.contracts d → CacheDB.db x = CacheDB.db d →
  (∀ a, CacheDB.accounts d !! a = None → CacheDB.accounts x !! a = None) →
  CacheDB.init_from_state_snapshot x (CacheDB.clear_into_state_snapshot d).2 ≡ d.
Proof.
  intros Hsub Hsub' Hdb Hnone. destruct (init_clear d x Hsub Hsub') as (Hacc & Hc & Hb & Hd).
  split_and!; [|done|done|congruence]. apply map_eq. intros a. rewrite !lookup_fmap, Hacc.
  destruct (CacheDB.accounts d !! a) as [acc|] eqn:Ha; [done|]. by rewrite Hnone.
Qed.

#[export] Instance CacheDB_laws : FullDatabaseLaws (CacheDB.t B Ext) (StateSnapshot B).
Proof.
  split; [apply _| |].
  - intros d. simpl. pose proof (clear_contracts d) as Hc.
    pose proof (init_clear_equiv d (CacheDB.clear_into_state_snapshot d).1) as Hi.
    unfold CacheDB.clear_into_state_snapshot in *.
    destruct (CacheDB.clear_loop _ _ _ _) as [[K A] St]. by apply Hi.
  - intros d x (Hacc & Hc & Hb & Hd). simpl. apply init_clear_equiv; [|by rewrite Hc|done|].
    + rewrite Hc. apply clear_contracts.
    + intros a Ha. apply (f_equal (lookup a)) in Hacc. rewrite !lookup_fmap, Ha in Hacc.
      by destruct (CacheDB.accounts x !! a).
Qed.
End restore.

(** A database that was cleared into a snapshot and initialised from it
    again has every account with its balance, nonce, code hash and storage,
    every contract's code (also when accounts share one, of which only the
    first in the iteration order keeps it in the snapshot) and every block
    hash; what it loses is the load state of the accounts. *)
Theorem clear_init_roundtrip {B Ext} `{MapOrder} (d : CacheDB.t B Ext) :
  let '(d', s) := CacheDB.clear_into_state_snapshot d in
  CacheDB.accounts d' = ∅ ∧
  CacheDB.init_from_state_snapshot d' s =
    CacheDB.mk (forget <$> CacheDB.accounts d) (CacheDB.contracts d) (CacheDB.block_hashes d)
      (CacheDB.db d).
Proof.
  pose proof (init_clear d (CacheDB.clear_into_state_snapshot d).1) as Hi.
  pose proof (clear_contracts d) as Hc.
  unfold CacheDB.clear_into_state_snapshot in *.
  destruct (CacheDB.clear_loop _ _ _ _) as [[K A] St]. cbn in *.
  split; [done|]. destruct (Hi (reflexivity _) Hc) as (Ha & Hk & Hb & Hd).
  destruct (CacheDB.init_from_state_snapshot _ _) as [acc ct bh ex]. cbn in *. subst.
  f_equal. apply map_eq. intros a. rewrite Ha, lookup_fmap.
  by destruct (CacheDB.accounts d !! a).
Qed.

(** * Accounts through the Db trait *)

(** The methods of [Database], [DatabaseRef] and [Db] the provided methods of
    [Db] are written with. *)
Class Db (D B E : Type) := {
  basic : D → Z → D * result (option (AccountInfo B)) E;
  basic_ref : D → Z → result (option (AccountInfo B)) E;
  storage_ref : D → Z → Z → result Z E;
  insert_account : D → Z → AccountInfo B → D;
  set_storage_at : D → Z → Z → Z → D * result unit E
}.

(** [SerializableAccountRecord] *)
Record SerializableAccountRecord := mk_rec { rec_nonce : Z; rec_balance : Z; rec_code : list Z;
  rec_storage : list (Z * Z) }.

Module DbOps.
Section ops.
Context {D B E : Type} `{Db D B E}.
(** revm and alloy: the hash of the empty code, of a code, and the bytecode
    of raw bytes. *)
Context (KECCAK_EMPTY : Z) (keccak256 : list Z → Z) (new_raw : list Z → B).

Definition default_info : AccountInfo B := mk_info 0 0 KECCAK_EMPTY None.

Definition set_nonce (d : D) (address nonce : Z) : D * result unit E :=
  match basic d address with
  | (d, Err e) => (d, Err e)
  | (d, Ok i) =>
      let i := default default_info i in
      (insert_account d address (mk_info (balance i) nonce (code_hash i) (code i)), Ok tt)
  end.

Definition set_balance (d : D) (address b : Z) : D * result unit E :=
  match basic d address with
  | (d, Err e) => (d, Err e)
  | (d, Ok i) =>
      let i := default default_info i in
      (insert_account d address (mk_info b (acc_nonce i) (code_hash i) (code i)), Ok tt)
  end.

Definition set_code (d : D) (address : Z) (c : list Z) : D * result unit E :=
  match basic d address with
  | (d, Err e) => (d, Err e)
  | (d, Ok i) =>
      let i := default default_info i in
      let h := match c with [] => KECCAK_EMPTY | _ => keccak256 c end in
      (insert_account d address (mk_info (balance i) (acc_nonce i) h (Some (new_raw c))), Ok tt)
  end.

Fixpoint load_storage (d : D) (addr : Z) (l : list (Z * Z)) : D * result unit E :=
  match l with
  | [] => (d, Ok tt)
  | (k, v) :: l =>
      match set_storage_at d addr k v with
      | (d, Err e) => (d, Err e)
      | (d, Ok _) => load_storage d addr l
      end
  end.

Definition old_account_nonce (d : D) (addr : Z) : Z :=
  match basic_ref d addr with Ok (Some acc) => acc_nonce acc | _ => 0%Z end.

(** The accounts are those of a [BTreeMap], in ascending order. *)
Fixpoint load_state (d : D) (accounts : list (Z * SerializableAccountRecord)) :
    D * result bool E :=
  match accounts with
  | [] => (d, Ok true)
  | (addr, account) :: accounts =>
      let nonce := Z.max (old_account_nonce d addr) (rec_nonce account) in
      let c := match rec_code account with [] => None | c => Some (new_raw c) end in
      let d := insert_account d addr (mk_info (rec_balance account) nonce KECCAK_EMPTY c) in
      match load_storage d addr (rec_storage account) with
      | (d, Err e) => (d, Err e)
      | (d, Ok _) => load_state d accounts
      end
  end.
End ops.
End DbOps.
Import DbOps.

(** What revm documents of these methods, for the balance and the nonce of an
    account (its code hash is revm's to compute). *)
Class DbLaws (D B E : Type) `{Db D B E} := {
  view_insert (d : D) a i b : a ≠ b → basic_ref (insert_account d a i) b = basic_ref d b;
  view_inserted (d : D) a i : ∃ j, basic_ref (insert_account d a i) a = Ok (Some j) ∧
    balance j = balance i ∧ acc_nonce j = acc_nonce i;
  slot_inserted (d : D) a i b k : storage_ref (insert_account d a i) b k = storage_ref d b k;
  view_stored (d : D) a k v b : basic_ref (set_storage_at d a k v).1 b = basic_ref d b;
  slot_stored (d : D) a k v b k' : (set_storage_at d a k v).2 = Ok tt →
    storage_ref (set_storage_at d a k v).1 b k' =
      if decide (b = a ∧ k' = k) then Ok v else storage_ref d b k'
}.

Section load.
Context {D B E : Type} `{DbLaws D B E} (KECCAK_EMPTY : Z) (new_raw : list Z → B).

Lemma load_storage_view (d : D) a l b : basic_ref (load_storage d a l).1 b = basic_ref d b.
Proof.
  revert d. induction l as [|[k v] l IH]; intros d; [done|]. cbn [load_storage].
  pose proof (view_stored d a k v b) as Hv.
  destruct (set_storage_at d a k v) as [d' [?|?]]; simpl in *; [by rewrite IH|done].
Qed.

Lemma load_storage_slot (d : D) a l b k : NoDup l.*1 → (load_storage d a l).2 = Ok tt →
  storage_ref (load_storage d a l).1 b k =
    match (list_to_map l : gmap Z Z) !! k with
    | Some v => if decide (b = a) then Ok v else storage_ref d b k
    | None => storage_ref d b k
    end.
Proof.
  revert d. induction l as [|[k0 v0] l IH]; intros d; [done|]. rewrite fmap_cons, NoDup_cons.
  intros [Hk0 Hnd]. cbn [load_storage].
  pose proof (slot_stored d a k0 v0 b k) as Hs.
  destruct (set_storage_at d a k0 v0) as [d' [[]|?]]; [|done]. intros Hok.
  rewrite IH by done. simpl. specialize (Hs eq_refl). simpl in Hs. rewrite Hs.
  destruct (decide (k0 = k)) as [->|Hne].
  - rewrite lookup_insert_eq, not_elem_of_list_to_map_1 by done.
    destruct (decide (b = a)), (decide (b = a ∧ k = k)); tauto.
  - rewrite lookup_insert_ne, (decide_False (P := b = a ∧ k = k0)) by naive_solver. done.
Qed.
(** The account [a] of [d'] after loading [r] into [d]. *)
Definition loaded_account (d d' : D) (a : Z) (r : option SerializableAccountRecord) : Prop :=
  match r with
  | Some r =>
      (∃ i, basic_ref d' a = Ok (Some i) ∧ balance i = rec_balance r ∧
        acc_nonce i = Z.max (old_account_nonce d a) (rec_nonce r)) ∧
      (∀ k, storage_ref d' a k =
        match (list_to_map (rec_storage r) : gmap Z Z) !! k with
        | Some v => Ok v
        | None => storage_ref d a k
        end)
  | None => basic_ref d' a = basic_ref d a ∧ ∀ k, storage_ref d' a k = storage_ref d a k
  end.

Lemma load_account (d : D) a i r b : NoDup (rec_storage r).*1 →
  balance i = rec_balance r → acc_nonce i = Z.max (old_account_nonce d a) (rec_nonce r) →
  (load_storage (insert_account d a i) a (rec_storage r)).2 = Ok tt →
  loaded_account d (load_storage (insert_account d a i) a (rec_storage r)).1 b
    (if decide (a = b) then Some r else None).
Proof.
  intros Hnd Hb Hn Hok. destruct (decide (a = b)) as [<-|Hne]; simpl.
  - split.
    + destruct (view_inserted d a i) as (j & Hj & ? & ?). exists j.
      rewrite load_storage_view. split; [done|]. split; congruence.
    + intros k. rewrite load_storage_slot, slot_inserted by done.
      destruct (_ !! k); [|done]. by rewrite decide_True.
  - split; [by rewrite load_storage_view, view_insert|]. intros k.
    rewrite load_storage_slot, slot_inserted by done.
    destruct (_ !! k); [|done]. by rewrite decide_False by congruence.
Qed.

(** [load_state].  Whenever it succeeds, every account of the dump has
    the dump's balance, the greater of the dump's nonce and the one it had (0
    if it could not be read), the dump's value in every slot the dump has and
    its old value in the others, and the accounts that are not in the dump
    are as they were. *)
Theorem load_state_accounts (d d' : D) accounts b :
  NoDup accounts.*1 → Forall (λ e, NoDup (rec_storage e.2).*1) accounts →
  load_state KECCAK_EMPTY new_raw d accounts = (d', Ok true) →
  loaded_account d d' b ((list_to_map accounts : gmap Z _) !! b).
Proof.
  intros Hnd Hf. revert d. induction accounts as [|[a r] l IH]; intros d.
  { cbn [load_state]. intros [= ->]. done. }
  apply NoDup_cons in Hnd as [Ha Hnd]. apply Forall_cons in Hf as [Hr Hf]. simpl in Hr.
  cbn [load_state]. set (i := mk_info _ _ _ _).
  pose proof (load_account d a i r b Hr eq_refl eq_refl) as Hacc.
  destruct (load_storage _ _ _) as [d1 [[]|]]; [|done]. simpl in Hacc.
  specialize (Hacc eq_refl). intros Hl. specialize (IH Hnd Hf d1 Hl). simpl.
  destruct (decide (a = b)) as [<-|Hne].
  - rewrite lookup_insert_eq. rewrite not_elem_of_list_to_map_1 in IH by done.
    destruct IH as [Hv Hs], Hacc as [(j & Hj & Hj') Hk]. split.
    + exists j. by rewrite Hv.
    + intros k. by rewrite Hs, Hk.
  - rewrite lookup_insert_ne by done. destruct Hacc as [Hv Hs].
    destruct ((list_to_map l : gmap Z _) !! b) as [r'|]; simpl in *.
    + destruct IH as [(j & Hj & Hb & Hn) Hk]. split.
      * exists j. unfold old_account_nonce in *. by rewrite Hv in Hn.
      * intros k. rewrite Hk, Hs. done.
    + destruct IH as [-> Hk]. split; [done|]. intros k. by rewrite Hk.
Qed.
End load.

(** A database of two maps. *)
Definition map_db : Type := gmap Z (AccountInfo unit) * gmap (Z * Z) Z.

#[local] Instance map_db_db : Db map_db unit unit := {
  basic d a := (d, Ok (d.1 !! a));
  basic_ref d a := Ok (d.1 !! a);
  storage_ref d a k := Ok (default 0%Z (d.2 !! (a, k)));
  insert_account d a i := (<[a := i]> d.1, d.2);
  set_storage_at d a k v := ((d.1, <[(a, k) := v]> d.2), Ok tt)
}.

#[local] Instance map_db_laws : DbLaws map_db unit unit.
Proof.
  split; simpl; try done.
  - intros d a i b Hne. by rewrite lookup_insert_ne.
  - intros d a i. exists i. by rewrite lookup_insert_eq.
  - intros d a k v b k' _. destruct (decide (b = a ∧ k' = k)) as [[-> ->]|Hne].
    + by rewrite lookup_insert_eq.
    + rewrite lookup_insert_ne; [done|]. intros [= -> ->]. by apply Hne.
Qed.

Definition sample_db : map_db := (<[1%Z := mk_info 5 9 0 None]> ∅, ∅).
Definition sample_dump : list (Z * SerializableAccountRecord) :=
  [(1%Z, mk_rec 3 7 [] [(0, 4)%Z]); (2%Z, mk_rec 1 2 [] [])].

Lemma load_state_accounts_witness :
  (load_state 0 (λ _, tt) sample_db sample_dump).2 = Ok true ∧
  ∃ i, basic_ref (load_state 0 (λ _, tt) sample_db sample_dump).1 1 = Ok (Some i) ∧
    balance i = 7%Z ∧ acc_nonce i = 9%Z.
Proof.
  split; [done|].
  destruct (load_state_accounts 0 (λ _, tt) sample_db
    (load_state 0 (λ _, tt) sample_db sample_dump).1 sample_dump 1%Z) as [Hi _]; [..|done|].
  - by apply (bool_decide_unpack _).
  - repeat constructor; set_solver.
  - exact Hi.
Defined.
