(* ===== verification/States.v ===== *)
(** The history of block states: [InMemoryBlockStates]
    (anvil/src/eth/backend/mem/storage.rs) and the disk cache behind it
    (anvil/src/eth/backend/mem/cache.rs), with the configuration that selects
    its limits (anvil/src/config.rs, anvil/src/eth/backend/mem/mod.rs).

    The states are any database with the [MaybeFullDatabase] operations.  The
    file system is a parameter: whether a temporary directory can be made.  A
    write happens in a spawned task, so a file appears when its task has run,
    in any order, or never if writing fails. *)
From S2P Require Import Prelude Transaction Database.

(** ** The disk cache *)

Module DiskStateCache.
Section cache.
Context {Snap TempDir PathBuf : Type}.
(** [build_tmp_dir], after [create_dir_all] on a given path. *)
Context (build_tmp_dir : option PathBuf → option TempDir).

(** [files]: the files in the directory, by the hash in their name.
    [spawned]: the writes whose task has not run. *)
Record t := mk { temp_path : option PathBuf; temp_dir : option TempDir;
  spawned : list (Z * Snap); files : gmap Z Snap }.

Definition new (anvil_tmp_dir : option PathBuf) : t := mk anvil_tmp_dir None [] ∅.

Definition with_path (c : t) (p : PathBuf) : t := mk (Some p) None [] ∅.

(** [with_cache_file]: the cache once its directory was looked for, and
    whether there is one. *)
Definition with_cache_file (c : t) : t * bool :=
  match temp_dir c with
  | Some _ => (c, true)
  | None =>
      match build_tmp_dir (temp_path c) with
      | Some d => (mk (temp_path c) (Some d) (spawned c) (files c), true)
      | None => (c, false)
      end
  end.

Definition write (c : t) (hash : Z) (state : Snap) : t :=
  let '(c, ok) := with_cache_file c in
  if ok then mk (temp_path c) (temp_dir c) (spawned c ++ [(hash, state)]) (files c) else c.

(** The [i]-th spawned task runs: it writes its file or fails. *)
Definition run_task (c : t) (i : nat) (ok : bool) : t :=
  match spawned c !! i with
  | Some (hash, state) =>
      mk (temp_path c) (temp_dir c) (delete i (spawned c))
        (if ok then <[hash := state]> (files c) else files c)
  | None => c
  end.

Definition read (c : t) (hash : Z) : t * option Snap :=
  let '(c, ok) := with_cache_file c in
  (c, if ok then files c !! hash else None).

Definition remove (c : t) (hash : Z) : t :=
  let '(c, ok) := with_cache_file c in
  if ok then mk (temp_path c) (temp_dir c) (spawned c) (delete hash (files c)) else c.
End cache.
Arguments t : clear implicits.
End DiskStateCache.

Definition DEFAULT_HISTORY_LIMIT : nat := 500.
Definition MIN_HISTORY_LIMIT : nat := 10.
Definition MAX_ON_DISK_HISTORY_LIMIT : nat := 3600.

(** ** The states *)

Module InMemoryBlockStates.
Section states.
Context {StateDb Snap TempDir PathBuf : Type} `{MaybeFullDatabase StateDb Snap} `{MapOrder}.
Context (build_tmp_dir : option PathBuf → option TempDir).
Context (anvil_tmp_dir : option PathBuf).
(** [StateDb::new(MemDb::default())] *)
Context (empty_db : StateDb).

Record t := mk {
  states : gmap Z StateDb;
  on_disk_states : gmap Z StateDb;
  in_memory_limit : nat;
  min_in_memory_limit : nat;
  max_on_disk_limit : nat;
  oldest_on_disk : list Z;
  present : list Z;
  disk_cache : DiskStateCache.t Snap TempDir PathBuf
}.

Definition new (in_memory_limit on_disk_limit : nat) : t :=
  mk ∅ ∅ in_memory_limit (Nat.min in_memory_limit MIN_HISTORY_LIMIT) on_disk_limit [] []
    (DiskStateCache.new anvil_tmp_dir).

Definition default : t := new DEFAULT_HISTORY_LIMIT MAX_ON_DISK_HISTORY_LIMIT.

Definition memory_only (m : t) : t :=
  mk (states m) (on_disk_states m) (in_memory_limit m) (min_in_memory_limit m) 0
    (oldest_on_disk m) (present m) (disk_cache m).

Definition disk_path (m : t) (path : PathBuf) : t :=
  mk (states m) (on_disk_states m) (in_memory_limit m) (min_in_memory_limit m)
    (max_on_disk_limit m) (oldest_on_disk m) (present m)
    (DiskStateCache.with_path (disk_cache m) path).

Definition is_memory_only (m : t) : bool := max_on_disk_limit m =? 0.

Definition set_limit (m : t) (limit : nat) : t :=
  mk (states m) (on_disk_states m) limit (min_in_memory_limit m) (max_on_disk_limit m)
    (oldest_on_disk m) (present m) (disk_cache m).

(** One turn of the first loop of [enforce_limits]: the oldest state leaves
    the memory. *)
Definition evict (m : t) : t :=
  match present m with
  | [] => m
  | hash :: present =>
      match states m !! hash with
      | None =>
          mk (states m) (on_disk_states m) (in_memory_limit m) (min_in_memory_limit m)
            (max_on_disk_limit m) (oldest_on_disk m) present (disk_cache m)
      | Some state =>
          if is_memory_only m
          then mk (delete hash (states m)) (on_disk_states m) (in_memory_limit m)
                 (min_in_memory_limit m) (max_on_disk_limit m) (oldest_on_disk m) present
                 (disk_cache m)
          else
            let '(state, state_snapshot) := clear_into_state_snapshot state in
            mk (delete hash (states m)) (<[hash := state]> (on_disk_states m))
              (in_memory_limit m) (min_in_memory_limit m) (max_on_disk_limit m)
              (oldest_on_disk m ++ [hash]) present
              (DiskStateCache.write build_tmp_dir (disk_cache m) hash state_snapshot)
      end
  end.

(** The loops of [enforce_limits], [None] when the turns run out. *)
Fixpoint evict_loop (fuel : nat) (m : t) : option t :=
  if in_memory_limit m <=? length (present m) then
    match fuel with
    | O => None
    | S fuel => evict_loop fuel (evict m)
    end
  else Some m.

Definition purge (m : t) : t :=
  match oldest_on_disk m with
  | [] => m
  | hash :: oldest =>
      mk (states m) (delete hash (on_disk_states m)) (in_memory_limit m)
        (min_in_memory_limit m) (max_on_disk_limit m) oldest (present m)
        (DiskStateCache.remove build_tmp_dir (disk_cache m) hash)
  end.

Fixpoint purge_loop (fuel : nat) (m : t) : option t :=
  if negb (is_memory_only m) && (max_on_disk_limit m <=? length (oldest_on_disk m)) then
    match fuel with
    | O => None
    | S fuel => purge_loop fuel (purge m)
    end
  else Some m.

Definition enforce_limits (m : t) : option t :=
  m ← evict_loop (length (present m)) m;
  purge_loop (length (oldest_on_disk m)) m.

Definition update_interval_mine_block_time (m : t) (block_time_secs : Z) : option t :=
  if (block_time_secs <=? 2)%Z then enforce_limits (set_limit m (DEFAULT_HISTORY_LIMIT * 3))
  else Some m.

Definition insert (m : t) (hash : Z) (state : StateDb) : option t :=
  let m :=
    if negb (is_memory_only m) && (in_memory_limit m <=? length (present m))
    then set_limit m (Nat.max (in_memory_limit m - 1) (min_in_memory_limit m))
    else m in
  m ← enforce_limits m;
  Some (mk (<[hash := state]> (states m)) (on_disk_states m) (in_memory_limit m)
    (min_in_memory_limit m) (max_on_disk_limit m) (oldest_on_disk m) (present m ++ [hash])
    (disk_cache m)).

Definition set_disk (m : t) (on_disk : gmap Z StateDb)
    (c : DiskStateCache.t Snap TempDir PathBuf) : t :=
  mk (states m) on_disk (in_memory_limit m) (min_in_memory_limit m) (max_on_disk_limit m)
    (oldest_on_disk m) (present m) c.

Definition get (m : t) (hash : Z) : t * option StateDb :=
  match states m !! hash with
  | Some state => (m, Some state)
  | None =>
      match on_disk_states m !! hash with
      | Some state =>
          let '(c, cached) := DiskStateCache.read build_tmp_dir (disk_cache m) hash in
          match cached with
          | Some cached =>
              let state := init_from_state_snapshot state cached in
              (set_disk m (<[hash := state]> (on_disk_states m)) c, Some state)
          | None => (set_disk m (on_disk_states m) c, None)
          end
      | None => (m, None)
      end
  end.

Definition set_cache_limit (m : t) (limit : nat) : t := set_limit m limit.

Definition clear (m : t) : t :=
  mk ∅ ∅ (in_memory_limit m) (min_in_memory_limit m) (max_on_disk_limit m) [] []
    (foldl (DiskStateCache.remove build_tmp_dir) (disk_cache m) (oldest_on_disk m)).

Fixpoint read_states (c : DiskStateCache.t Snap TempDir PathBuf) (hashes : list Z) :
    DiskStateCache.t Snap TempDir PathBuf * list (Z * Snap) :=
  match hashes with
  | [] => (c, [])
  | hash :: hashes =>
      let '(c, s) := DiskStateCache.read build_tmp_dir c hash in
      let '(c, l) := read_states c hashes in
      (c, match s with Some s => (hash, s) :: l | None => l end)
  end.

Definition serialized_states (m : t) : t * list (Z * Snap) :=
  let in_memory := (λ e, (e.1, read_as_state_snapshot e.2)) <$> map_iter (states m) in
  let '(c, on_disk) := read_states (disk_cache m) (map_iter (on_disk_states m)).*1 in
  (set_disk m (on_disk_states m) c, in_memory ++ on_disk).

Fixpoint load_states (m : t) (l : list (Z * Snap)) : option t :=
  match l with
  | [] => Some m
  | (hash, state_snapshot) :: l =>
      m ← insert m hash (init_from_state_snapshot empty_db state_snapshot);
      load_states m l
  end.

(** A spawned write completes. *)
Definition run_task (m : t) (i : nat) (ok : bool) : t :=
  set_disk m (on_disk_states m) (DiskStateCache.run_task (disk_cache m) i ok).
End states.
Arguments t : clear implicits.
End InMemoryBlockStates.

(** ** Configuration *)

Module PruneStateHistoryConfig.
Record t := mk { enabled : bool; max_memory_history : option nat }.

Definition is_state_history_supported (c : t) : bool :=
  negb (enabled c) || bool_decide (is_Some (max_memory_history c)).

Definition is_config_enabled (c : t) : bool := enabled c.

Definition from_args (val : option (option nat)) : t :=
  match val with Some m => mk true m | None => mk false None end.
End PruneStateHistoryConfig.

(** The states a backend starts with. *)
Definition initial_states {StateDb Snap TempDir PathBuf : Type} (anvil_tmp_dir : option PathBuf)
    (c : PruneStateHistoryConfig.t) (max_persisted_states : option nat)
    (cache_path : option PathBuf) : InMemoryBlockStates.t StateDb Snap TempDir PathBuf :=
  let states :=
    if PruneStateHistoryConfig.is_config_enabled c then
      InMemoryBlockStates.memory_only
        (match PruneStateHistoryConfig.max_memory_history c with
         | Some limit => InMemoryBlockStates.new anvil_tmp_dir limit 0
         | None => InMemoryBlockStates.default anvil_tmp_dir
         end)
    else
      match max_persisted_states with
      | Some limit => InMemoryBlockStates.new anvil_tmp_dir DEFAULT_HISTORY_LIMIT limit
      | None => InMemoryBlockStates.default anvil_tmp_dir
      end in
  match cache_path with
  | Some p => InMemoryBlockStates.disk_path states p
  | None => states
  end.
