(* ===== verification/StatesTheorems.v ===== *)
(** Theorems on the history of block states.
    The invariant and its preservation come first. *)
From S2P Require Import Prelude Transaction Database States.
Import InMemoryBlockStates.

Section states.
Context {StateDb Snap TempDir PathBuf : Type} `{MaybeFullDatabase StateDb Snap} `{MapOrder}.
Context (build_tmp_dir : option PathBuf → option TempDir) (empty_db : StateDb).
Implicit Types m : InMemoryBlockStates.t StateDb Snap TempDir PathBuf.

(** ** Running it *)

Inductive states_op :=
  | OpInsert (hash : Z) (state : StateDb)
  | OpGet (hash : Z)
  | OpInterval (block_time_secs : Z)
  | OpTask (i : nat) (ok : bool)
  | OpClear
  | OpSerialize
  | OpLoad (l : list (Z * Snap)).

Definition states_exec (op : states_op) m :
    option (InMemoryBlockStates.t StateDb Snap TempDir PathBuf) :=
  match op with
  | OpInsert hash state => insert build_tmp_dir m hash state
  | OpGet hash => Some (get build_tmp_dir m hash).1
  | OpInterval secs => update_interval_mine_block_time build_tmp_dir m secs
  | OpTask i ok => Some (run_task m i ok)
  | OpClear => Some (clear build_tmp_dir m)
  | OpSerialize => Some (serialized_states build_tmp_dir m).1
  | OpLoad l => load_states build_tmp_dir empty_db m l
  end.

Fixpoint states_run (ops : list states_op) m :
    option (InMemoryBlockStates.t StateDb Snap TempDir PathBuf) :=
  match ops with
  | [] => Some m
  | op :: ops => m ← states_exec op m; states_run ops m
  end.

(** ** The loops *)

Definition same_limits m m' : Prop :=
  in_memory_limit m' = in_memory_limit m ∧ min_in_memory_limit m' = min_in_memory_limit m ∧
  max_on_disk_limit m' = max_on_disk_limit m.

Lemma same_limits_trans m1 m2 m3 : same_limits m1 m2 → same_limits m2 m3 → same_limits m1 m3.
Proof. unfold same_limits. intuition congruence. Qed.

Lemma evict_present m : present (evict build_tmp_dir m) = tail (present m) ∧
  same_limits m (evict build_tmp_dir m).
Proof.
  unfold evict, same_limits. destruct (present m) as [|h l] eqn:Hp; [done|].
  destruct (states m !! h); [|done]. destruct (is_memory_only m); [done|].
  by destruct (clear_into_state_snapshot _).
Qed.

Lemma purge_oldest m : oldest_on_disk (purge build_tmp_dir m) = tail (oldest_on_disk m) ∧
  present (purge build_tmp_dir m) = present m ∧ same_limits m (purge build_tmp_dir m).
Proof. unfold purge, same_limits. by destruct (oldest_on_disk m) as [|h l] eqn:Ho. Qed.

(** The first loop ends and preserves what a turn preserves. *)
Lemma evict_loop_inv (P : InMemoryBlockStates.t StateDb Snap TempDir PathBuf → Prop) fuel m :
  (∀ m, P m → P (evict build_tmp_dir m)) → P m →
  0 < in_memory_limit m → length (present m) ≤ fuel →
  ∃ m', evict_loop build_tmp_dir fuel m = Some m' ∧ P m' ∧ same_limits m m' ∧
    length (present m') = Nat.min (length (present m)) (in_memory_limit m - 1).
Proof.
  intros Hstep. revert m. induction fuel as [|fuel IH]; intros m HP Hpos Hlen; cbn [evict_loop].
  { destruct (Nat.leb_spec (in_memory_limit m) (length (present m))); [lia|].
    exists m. split_and!; [done..|]. lia. }
  destruct (Nat.leb_spec (in_memory_limit m) (length (present m))) as [Hle|Hlt].
  - destruct (evict_present m) as [Hp Hl].
    assert (length (present (evict build_tmp_dir m)) = length (present m) - 1) as Hlen'.
    { rewrite Hp. destruct (present m); simpl; lia. }
    destruct Hl as (Hl1 & Hl2 & Hl3).
    destruct (IH (evict build_tmp_dir m)) as (m' & Hrun & HP' & Hs & Hn); [auto|lia|lia|].
    exists m'. split_and!; [done|done| |lia].
    eapply same_limits_trans; [|exact Hs]. done.
  - exists m. split_and!; [done..|]. lia.
Qed.

Lemma purge_loop_inv (P : InMemoryBlockStates.t StateDb Snap TempDir PathBuf → Prop) fuel m :
  (∀ m, P m → max_on_disk_limit m ≤ length (oldest_on_disk m) → P (purge build_tmp_dir m)) →
  P m → length (oldest_on_disk m) ≤ fuel →
  ∃ m', purge_loop build_tmp_dir fuel m = Some m' ∧ P m' ∧ same_limits m m' ∧
    present m' = present m ∧
    (is_memory_only m = false → length (oldest_on_disk m') < max_on_disk_limit m).
Proof.
  intros Hstep. revert m. induction fuel as [|fuel IH]; intros m HP Hlen; cbn [purge_loop];
    unfold is_memory_only in *.
  { destruct (Nat.eqb_spec (max_on_disk_limit m) 0); simpl; [by exists m|].
    destruct (Nat.leb_spec (max_on_disk_limit m) (length (oldest_on_disk m))); [lia|].
    by exists m. }
  destruct (Nat.eqb_spec (max_on_disk_limit m) 0); simpl; [by exists m|].
  destruct (Nat.leb_spec (max_on_disk_limit m) (length (oldest_on_disk m))) as [Hle|Hlt];
    [|by exists m].
  destruct (purge_oldest m) as (Ho & Hp & Hl).
  assert (length (oldest_on_disk (purge build_tmp_dir m)) = length (oldest_on_disk m) - 1) as Hlen'.
  { rewrite Ho. destruct (oldest_on_disk m); simpl; lia. }
  destruct Hl as (Hl1 & Hl2 & Hl3).
  destruct (IH (purge build_tmp_dir m)) as (m' & Hrun & HP' & Hs & Hpr & Hn); [auto|lia|].
  exists m'. split_and!; [done|done| |congruence|].
  - eapply same_limits_trans; [|exact Hs]. done.
  - intros _. rewrite Hl3 in Hn. apply Hn. by apply Nat.eqb_neq.
Qed.

(** [enforce_limits] ends, preserves what its turns preserve and brings both
    queues below their limits. *)
Lemma enforce_limits_inv (P : InMemoryBlockStates.t StateDb Snap TempDir PathBuf → Prop) m :
  (∀ m, P m → P (evict build_tmp_dir m)) →
  (∀ m, P m → max_on_disk_limit m ≤ length (oldest_on_disk m) → P (purge build_tmp_dir m)) →
  P m → 0 < in_memory_limit m →
  ∃ m', enforce_limits build_tmp_dir m = Some m' ∧ P m' ∧ same_limits m m' ∧
    length (present m') = Nat.min (length (present m)) (in_memory_limit m - 1) ∧
    (is_memory_only m = false → length (oldest_on_disk m') < max_on_disk_limit m).
Proof.
  intros He Hp HP Hpos. unfold enforce_limits.
  destruct (evict_loop_inv P (length (present m)) m He HP Hpos) as (m1 & -> & HP1 & Hs1 & Hl1);
    [done|]. cbn [mbind option_bind].
  destruct (purge_loop_inv P (length (oldest_on_disk m1)) m1 Hp HP1)
    as (m2 & -> & HP2 & Hs2 & Hpr & Hl2); [done|].
  exists m2. split_and!; [done|done|by eapply same_limits_trans|congruence|].
  destruct Hs1 as (_ & _ & Hmax). unfold is_memory_only in *. rewrite Hmax in Hl2. done.
Qed.

(** ** The bounds *)

Record bounded (top lo dk : nat) m : Prop := {
  bd_lo : min_in_memory_limit m = lo;
  bd_dk : max_on_disk_limit m = dk;
  bd_states : ∀ h, is_Some (states m !! h) → h ∈ present m;
  bd_disk : ∀ h, is_Some (on_disk_states m !! h) → h ∈ oldest_on_disk m;
  bd_pos : 0 < min_in_memory_limit m ≤ MIN_HISTORY_LIMIT;
  bd_min : min_in_memory_limit m ≤ in_memory_limit m;
  bd_top : in_memory_limit m ≤ top;
  bd_present : length (present m) ≤ in_memory_limit m;
  bd_oldest : length (oldest_on_disk m) ≤ max_on_disk_limit m - 1
}.

(** The part of it a turn of the loops preserves. *)
Definition listed m : Prop :=
  (∀ h, is_Some (states m !! h) → h ∈ present m) ∧
  (∀ h, is_Some (on_disk_states m !! h) → h ∈ oldest_on_disk m) ∧
  (is_memory_only m = true → oldest_on_disk m = []).

Lemma evict_listed m : listed m → listed (evict build_tmp_dir m).
Proof.
  intros (Hs & Hd & Hm). unfold evict.
  destruct (present m) as [|h l] eqn:Hp; [by unfold listed; rewrite Hp|].
  assert (∀ x, is_Some (delete h (states m) !! x) → x ∈ l) as Hdel.
  { intros x [y [Hne Hy]%lookup_delete_Some]. 
    apply mk_is_Some, Hs, elem_of_cons in Hy as [->|?]; done. }
  destruct (states m !! h) as [state|] eqn:Hst.
  - destruct (is_memory_only m) eqn:Hmo; [split_and!; [done|done|intros _; by apply Hm]|].
    destruct (clear_into_state_snapshot state). split; [done|]. split; simpl.
    + intros x [y Hy]. apply elem_of_app. apply lookup_insert_Some in Hy as [[-> _]|[_ Hy]].
      * right. by left.
      * left. eauto.
    + unfold is_memory_only in *. simpl. congruence.
  - split; [|done]. simpl. intros x Hx. pose proof (Hs x Hx) as Hin.
    apply elem_of_cons in Hin as [->|?]; [|done]. rewrite Hst in Hx. by destruct Hx.
Qed.

Lemma purge_listed m : listed m → listed (purge build_tmp_dir m).
Proof.
  intros (Hs & Hd & Hm). unfold purge.
  destruct (oldest_on_disk m) as [|h l] eqn:Hp; [by unfold listed; rewrite Hp|].
  split; [done|]. split; simpl.
  - intros x [y [Hne Hy]%lookup_delete_Some]. 
    apply mk_is_Some, Hd, elem_of_cons in Hy as [->|?]; done.
  - intros Hmo. unfold is_memory_only in *. simpl in *. by apply Hm in Hmo.
Qed.

Lemma bounded_listed top lo dk m : bounded top lo dk m → listed m.
Proof.
  intros []. split_and!; [done..|]. unfold is_memory_only. intros Hmo%Nat.eqb_eq.
  destruct (oldest_on_disk m); [done|]. simpl in *. lia.
Qed.

Lemma enforce_bounded m : listed m → 0 < in_memory_limit m →
  ∃ m', enforce_limits build_tmp_dir m = Some m' ∧ listed m' ∧ same_limits m m' ∧
    length (present m') = Nat.min (length (present m)) (in_memory_limit m - 1) ∧
    length (oldest_on_disk m') ≤ max_on_disk_limit m - 1.
Proof.
  intros Hl Hpos.
  destruct (enforce_limits_inv listed m) as (m' & Hrun & Hl' & Hs & Hp & Ho);
    [apply evict_listed|intros; by apply purge_listed|done|done|].
  exists m'. split_and!; [done..|]. destruct Hs as (_ & _ & Hmax), Hl' as (_ & _ & Hmo).
  unfold is_memory_only in *. rewrite Hmax in Hmo.
  destruct (Nat.eqb_spec (max_on_disk_limit m) 0).
  - rewrite Hmo by done. simpl. lia.
  - specialize (Ho eq_refl). lia.
Qed.

Lemma insert_bounded top lo dk m h s : bounded top lo dk m →
  ∃ m', insert build_tmp_dir m h s = Some m' ∧ bounded top lo dk m'.
Proof.
  intros Hb. pose proof (bounded_listed _ _ _ _ Hb) as Hl. destruct Hb. unfold insert.
  set (m0 := if negb (is_memory_only m) && (in_memory_limit m <=? length (present m))
    then set_limit m (Nat.max (in_memory_limit m - 1) (min_in_memory_limit m)) else m).
  assert (listed m0 ∧ 0 < in_memory_limit m0 ∧ min_in_memory_limit m0 ≤ in_memory_limit m0 ≤ top ∧
    max_on_disk_limit m0 = max_on_disk_limit m ∧
    min_in_memory_limit m0 = min_in_memory_limit m) as (Hl0 & Hpos & Hmin & Hmax & Hmin0).
  { unfold m0. destruct (negb (is_memory_only m) && _) eqn:Hc; [|split_and!; try done; lia].
    destruct (is_memory_only m) eqn:Hmo; [done|]. simpl in *. apply Nat.leb_le in Hc.
    split; [done|]. cbn. lia. }
  destruct (enforce_bounded m0 Hl0 Hpos) as (m' & -> & (Hs & Hd & _) & (H1 & H2 & H3) & Hp & Ho).
  cbn [mbind option_bind]. eexists. split; [done|]. split; simpl; rewrite ?H1, ?H2, ?H3; try lia.
  - intros x [y [[-> _]|[_ Hy]]%lookup_insert_Some]; apply elem_of_app; [right; by left|].
    left. eauto.
  - done.
  - rewrite length_app. simpl. lia.
Qed.

Lemma get_bounded top lo dk m h : bounded top lo dk m → bounded top lo dk (get build_tmp_dir m h).1.
Proof.
  intros Hb. unfold get. destruct (states m !! h); [done|].
  destruct (on_disk_states m !! h) as [s|] eqn:Hs; [|done].
  destruct (DiskStateCache.read _ _ _) as [c [sn|]]; destruct Hb; split; try done.
  simpl. intros x [y [[-> _]|[_ Hy]]%lookup_insert_Some]; eauto.
Qed.

Lemma interval_bounded top lo dk m secs : DEFAULT_HISTORY_LIMIT * 3 ≤ top → bounded top lo dk m →
  ∃ m', update_interval_mine_block_time build_tmp_dir m secs = Some m' ∧ bounded top lo dk m'.
Proof.
  intros Htop Hb. unfold update_interval_mine_block_time.
  destruct (secs <=? 2)%Z; [|by exists m].
  pose proof (bounded_listed _ _ _ _ Hb) as Hl.
  destruct (enforce_bounded (set_limit m (DEFAULT_HISTORY_LIMIT * 3)))
    as (m' & -> & (Hs & Hd & _) & (H1 & H2 & H3) & Hp & Ho);
    [exact Hl|unfold DEFAULT_HISTORY_LIMIT; simpl; lia|].
  exists m'. split; [done|]. destruct Hb. cbn in H1, H2, H3, Hp, Ho.
  unfold DEFAULT_HISTORY_LIMIT, MIN_HISTORY_LIMIT in *.
  split; rewrite ?H1, ?H2, ?H3; try done; lia.
Qed.

Lemma load_bounded top lo dk m l : bounded top lo dk m →
  ∃ m', load_states build_tmp_dir empty_db m l = Some m' ∧ bounded top lo dk m'.
Proof.
  revert m. induction l as [|[h s] l IH]; intros m Hb; cbn [load_states]; [by exists m|].
  destruct (insert_bounded top lo dk m h (init_from_state_snapshot empty_db s) Hb) as (m' & -> & Hb').
  by apply IH.
Qed.

Lemma exec_bounded top lo dk m op : DEFAULT_HISTORY_LIMIT * 3 ≤ top → bounded top lo dk m →
  ∃ m', states_exec op m = Some m' ∧ bounded top lo dk m'.
Proof.
  intros Htop Hb. destruct op as [h s|h|secs|i ok| | |l]; cbn [states_exec].
  - by apply insert_bounded.
  - eexists. split; [done|]. by apply get_bounded.
  - by apply interval_bounded.
  - eexists. split; [done|]. by destruct Hb.
  - eexists. split; [done|]. destruct Hb. split; simpl; try done; try lia.
    + intros h. rewrite lookup_empty. by intros [].
    + intros h. rewrite lookup_empty. by intros [].
  - eexists. split; [done|]. unfold serialized_states.
    destruct (read_states _ _ _) as [c x]. by destruct Hb.
  - by apply load_bounded.
Qed.

Lemma run_bounded top lo dk m ops : DEFAULT_HISTORY_LIMIT * 3 ≤ top → bounded top lo dk m →
  ∃ m', states_run ops m = Some m' ∧ bounded top lo dk m'.
Proof.
  intros Htop. revert m. induction ops as [|op ops IH]; intros m Hb; cbn [states_run];
    [by exists m|]. destruct (exec_bounded top lo dk m op Htop Hb) as (m' & -> & Hb'). by apply IH.
Qed.

Lemma new_bounded anvil_tmp_dir limit disk : 0 < limit →
  bounded (Nat.max limit (DEFAULT_HISTORY_LIMIT * 3)) (Nat.min limit MIN_HISTORY_LIMIT) disk
    (new anvil_tmp_dir limit disk).
Proof.
  intros Hl. split; simpl; unfold MIN_HISTORY_LIMIT; try lia.
  - intros h. rewrite lookup_empty. by intros [].
  - intros h. rewrite lookup_empty. by intros [].
Qed.

Lemma size_listed {V} (x : gmap Z V) (l : list Z) :
  (∀ h, is_Some (x !! h) → h ∈ l) → size x ≤ length l.
Proof.
  intros Hl. rewrite <- size_dom. unfold size, set_size. simpl.
  apply submseteq_length, NoDup_submseteq; [apply NoDup_elements|].
  intros h Hh%elem_of_elements%elem_of_dom. auto.
Qed.
End states.
Arguments states_op : clear implicits.

(** ** Tracking the inserted states *)

Section track.
Context {StateDb Snap TempDir PathBuf : Type} `{FullDatabaseLaws StateDb Snap} `{MapOrder}.
Context (build_tmp_dir : option PathBuf → option TempDir) (empty_db : StateDb).
Implicit Types m : InMemoryBlockStates.t StateDb Snap TempDir PathBuf.
Implicit Types log old disk mem : list (Z * StateDb).

#[local] Existing Instance db_equiv.

Definition files_of m : gmap Z Snap := DiskStateCache.files (disk_cache m).
Definition spawned_of m : list (Z * Snap) := DiskStateCache.spawned (disk_cache m).
Definition snap_of (d : StateDb) : Snap := (clear_into_state_snapshot d).2.

(** Every state that was inserted ([log]) is gone, on disk or in memory, in
    this order.  [n] of them were inserted since the last [clear]; [good] says
    that no write to the disk failed. *)
Record parts (good : bool) (n : nat) log old disk mem m : Prop := {
  pt_log : log = old ++ disk ++ mem;
  pt_nodup : NoDup log.*1;
  pt_present : present m = mem.*1;
  pt_states : states m = list_to_map mem;
  pt_oldest : oldest_on_disk m = disk.*1;
  pt_disk : ∀ h, match (list_to_map disk : gmap Z StateDb) !! h with
    | Some d => ∃ x, on_disk_states m !! h = Some x ∧ (x = (clear_into_state_snapshot d).1 ∨ x ≡ d)
    | None => on_disk_states m !! h = None
    end;
  pt_files : ∀ h s, files_of m !! h = Some s ∨ (h, s) ∈ spawned_of m →
    ∃ d, (h, d) ∈ log ∧ s = snap_of d;
  pt_written : good = true → ∀ h d, (h, d) ∈ disk →
    files_of m !! h = Some (snap_of d) ∨ (h, snap_of d) ∈ spawned_of m;
  pt_memory : is_memory_only m = true → disk = [];
  pt_old : n ≤ length disk + length mem ∨ max_on_disk_limit m ≤ S (length disk)
}.

Lemma parts_keys good n log old disk mem m h :
  parts good n log old disk mem m → h ∈ mem.*1 → h ∉ disk.*1.
Proof.
  intros Hp Hm Hd. pose proof (pt_nodup _ _ _ _ _ _ _ Hp) as Hnd.
  rewrite (pt_log _ _ _ _ _ _ _ Hp), !fmap_app in Hnd.
  apply NoDup_app in Hnd as (_ & _ & Hnd). apply NoDup_app in Hnd as (_ & Hnd & _). by apply (Hnd h).
Qed.

Lemma with_cache_file_files (c : DiskStateCache.t Snap TempDir PathBuf) :
  DiskStateCache.files (DiskStateCache.with_cache_file build_tmp_dir c).1 = DiskStateCache.files c ∧
  DiskStateCache.spawned (DiskStateCache.with_cache_file build_tmp_dir c).1 =
    DiskStateCache.spawned c ∧
  ((∀ p, is_Some (build_tmp_dir p)) →
    (DiskStateCache.with_cache_file build_tmp_dir c).2 = true).
Proof.
  unfold DiskStateCache.with_cache_file. destruct (DiskStateCache.temp_dir c); [done|].
  destruct (build_tmp_dir _) eqn:Hb; [done|]. split_and!; [done|done|].
  intros Hall. destruct (Hall (DiskStateCache.temp_path c)) as [? ?]. congruence.
Qed.

Lemma write_files (c : DiskStateCache.t Snap TempDir PathBuf) h s :
  let c' := DiskStateCache.write build_tmp_dir c h s in
  DiskStateCache.files c' = DiskStateCache.files c ∧
  (∀ e, e ∈ DiskStateCache.spawned c' → e ∈ DiskStateCache.spawned c ∨ e = (h, s)) ∧
  (∀ e, e ∈ DiskStateCache.spawned c → e ∈ DiskStateCache.spawned c') ∧
  ((∀ p, is_Some (build_tmp_dir p)) → (h, s) ∈ DiskStateCache.spawned c').
Proof.
  unfold DiskStateCache.write. destruct (with_cache_file_files c) as (Hf & Hs & Hok).
  destruct (DiskStateCache.with_cache_file _ _) as [c' [|]]; simpl in *; rewrite <- Hf, <- Hs.
  - split_and!; [done|..]; intros; set_solver.
  - split_and!; [done|by left|done|]. intros Hall%Hok. done.
Qed.

Lemma remove_files (c : DiskStateCache.t Snap TempDir PathBuf) h :
  let c' := DiskStateCache.remove build_tmp_dir c h in
  DiskStateCache.spawned c' = DiskStateCache.spawned c ∧
  DiskStateCache.files c' ⊆ DiskStateCache.files c ∧
  (∀ x, x ≠ h → DiskStateCache.files c' !! x = DiskStateCache.files c !! x).
Proof.
  unfold DiskStateCache.remove. destruct (with_cache_file_files c) as (Hf & Hs & Hok).
  destruct (DiskStateCache.with_cache_file _ _) as [c' [|]]; simpl in *; rewrite <- Hf, <- Hs.
  - split_and!; [done|apply delete_subseteq|]. intros x Hx. by rewrite lookup_delete_ne.
  - done.
Qed.

Lemma read_files (c : DiskStateCache.t Snap TempDir PathBuf) h :
  let '(c', r) := DiskStateCache.read build_tmp_dir c h in
  DiskStateCache.spawned c' = DiskStateCache.spawned c ∧
  DiskStateCache.files c' = DiskStateCache.files c ∧
  (∀ s, r = Some s → DiskStateCache.files c !! h = Some s) ∧
  ((∀ p, is_Some (build_tmp_dir p)) → r = DiskStateCache.files c !! h).
Proof.
  unfold DiskStateCache.read. destruct (with_cache_file_files c) as (Hf & Hs & Hok).
  destruct (DiskStateCache.with_cache_file _ _) as [c' [|]]; simpl in *; rewrite <- Hf, <- Hs.
  - done.
  - split_and!; [done..|]. by intros Hall%Hok.
Qed.

Lemma evict_parts good n log old disk mem m :
  (good = true → ∀ p, is_Some (build_tmp_dir p)) →
  parts good n log old disk mem m →
  ∃ old' disk' mem', parts good n log old' disk' mem' (evict build_tmp_dir m).
Proof.
  intros Hgood Hp. pose proof (λ h, parts_keys _ _ _ _ _ _ _ h Hp) as Hkeys.
  destruct Hp as [Hlog Hnd Hpr Hst Hold Hdisk Hfiles Hwr Hmo Ho]. unfold evict.
  destruct mem as [|[h d] mem].
  { rewrite Hpr. exists old, disk, []. by split. }
  rewrite Hpr, Hst, fmap_cons. cbn [fst list_to_map foldr]. rewrite lookup_insert_eq.
  assert (h ∉ mem.*1) as Hh.
  { rewrite Hlog, !fmap_app in Hnd. apply NoDup_app in Hnd as (_ & _ & Hnd).
    apply NoDup_app in Hnd as (_ & _ & Hnd). by apply NoDup_cons in Hnd as [? _]. }
  assert (delete h (<[h := d]> (list_to_map mem : gmap Z StateDb)) = list_to_map mem) as Hdel.
  { apply delete_insert_id. by apply not_elem_of_list_to_map_1. }
  destruct (is_memory_only m) eqn:Hm.
  - exists (old ++ [(h, d)]), [], mem. specialize (Hmo eq_refl) as ->.
    split; simpl; try done.
    + by rewrite <- app_assoc.
    + apply Nat.eqb_eq in Hm. right. simpl. lia.
  - exists old, (disk ++ [(h, d)]), mem.
    assert (h ∉ disk.*1) as Hhd by (apply Hkeys; left).
    destruct (write_files (disk_cache m) h (snap_of d)) as (Hf & Hs & Hs' & Hok).
    unfold snap_of, files_of, spawned_of in *.
    destruct (clear_into_state_snapshot d) as [d' sn] eqn:Hc. simpl in *. rewrite Hc.
    split; simpl; try done.
    + by rewrite <- app_assoc.
    + by rewrite Hold, fmap_app.
    + intros x. rewrite list_to_map_snoc by done.
      destruct (decide (x = h)) as [->|Hne].
      * rewrite !lookup_insert_eq. exists d'. rewrite Hc. auto.
      * rewrite !lookup_insert_ne by done. apply Hdisk.
    + unfold files_of, spawned_of. simpl. rewrite Hf. intros x s [Hx|[Hx|[= -> ->]]%Hs]; eauto.
      exists d. unfold snap_of. rewrite Hc. split; [|done]. subst log. set_solver.
    + unfold files_of, spawned_of. simpl. rewrite Hf. intros Hg x d0 [Hx|Hx]%elem_of_app.
      * destruct (Hwr Hg x d0 Hx); eauto.
      * apply list_elem_of_singleton in Hx as [= -> ->]. right. unfold snap_of. rewrite Hc. auto.
    + unfold is_memory_only in *. simpl. congruence.
    + rewrite length_app. simpl in *. lia.
Qed.

Lemma purge_parts good n log old disk mem m :
  parts good n log old disk mem m → max_on_disk_limit m ≤ length (oldest_on_disk m) →
  ∃ old' disk' mem', parts good n log old' disk' mem' (purge build_tmp_dir m).
Proof.
  intros [Hlog Hnd Hpr Hst Hold Hdisk Hfiles Hwr Hmo Ho] Hle. unfold purge.
  destruct disk as [|[h d] disk].
  { rewrite Hold. exists old, [], mem. by split. }
  rewrite Hold, fmap_cons. cbn [fst]. rewrite Hold, length_fmap in Hle.
  exists (old ++ [(h, d)]), disk, mem.
  assert (h ∉ disk.*1) as Hh.
  { rewrite Hlog, !fmap_app in Hnd. apply NoDup_app in Hnd as (_ & _ & Hnd).
    apply NoDup_app in Hnd as (Hnd & _ & _). by apply NoDup_cons in Hnd as [? _]. }
  destruct (remove_files (disk_cache m) h) as (Hs & Hf & Hf').
  split; simpl; try done.
  - by rewrite <- app_assoc.
  - intros x. specialize (Hdisk x). cbn [list_to_map foldr] in Hdisk.
    destruct (decide (x = h)) as [->|Hne].
    + by rewrite not_elem_of_list_to_map_1, lookup_delete_eq.
    + rewrite lookup_insert_ne in Hdisk by done. by rewrite lookup_delete_ne.
  - unfold files_of, spawned_of in *. simpl. rewrite Hs. intros x s [Hx|Hx]; [|eauto].
    apply (Hfiles x). left. by eapply lookup_weaken.
  - unfold files_of, spawned_of in *. simpl. rewrite Hs. intros Hg x d0 Hx.
    rewrite Hf'; [apply Hwr; [done|by right]|]. intros ->. apply Hh, elem_of_keys. eauto.
  - unfold is_memory_only in *. simpl. intros Hm%Hmo. done.
  - right. simpl in Hle. lia.
Qed.

Definition tracked (good : bool) (n : nat) log m : Prop :=
  ∃ old disk mem, parts good n log old disk mem m.

Lemma tracked_limit good n log m limit : tracked good n log m → tracked good n log (set_limit m limit).
Proof. intros (old & disk & mem & []). exists old, disk, mem. by split. Qed.

Lemma enforce_tracked good n log m :
  (good = true → ∀ p, is_Some (build_tmp_dir p)) → tracked good n log m → 0 < in_memory_limit m →
  ∃ m', enforce_limits build_tmp_dir m = Some m' ∧ tracked good n log m' ∧ same_limits m m' ∧
    length (present m') = Nat.min (length (present m)) (in_memory_limit m - 1).
Proof.
  intros Hgood Ht Hpos.
  destruct (enforce_limits_inv build_tmp_dir (tracked good n log) m)
    as (m' & ? & ? & ? & ? & _); [..|done|done|by exists m'].
  - intros x (old & disk & mem & Hp). by eapply evict_parts.
  - intros x (old & disk & mem & Hp) Hle. by eapply purge_parts.
Qed.

Lemma push_tracked good n log m h s : h ∉ log.*1 → tracked good n log m →
  tracked good (S n) (log ++ [(h, s)])
    (mk (<[h := s]> (states m)) (on_disk_states m) (in_memory_limit m)
      (min_in_memory_limit m) (max_on_disk_limit m) (oldest_on_disk m) (present m ++ [h])
      (disk_cache m)).
Proof.
  intros Hh (old & disk & mem & [Hlog Hnd Hpr Hst Hold Hdisk Hfiles Hwr Hmo Ho]).
  exists old, disk, (mem ++ [(h, s)]). split; simpl; try done.
  - rewrite Hlog. by rewrite <- !app_assoc.
  - rewrite fmap_app. apply NoDup_app. split_and!; [done| |apply NoDup_singleton].
    intros x Hx ->%list_elem_of_singleton. done.
  - by rewrite Hpr, fmap_app.
  - rewrite list_to_map_snoc, Hst; [done|]. intros Hm. apply Hh. rewrite Hlog, !fmap_app.
    set_solver.
  - intros x sn Hx. destruct (Hfiles x sn Hx) as (d & Hd & ->). exists d. set_solver.
  - rewrite length_app. simpl. lia.
Qed.

(** The memory has the last states, at least as many as the smallest limit. *)
Definition fresh_enough (n : nat) m : Prop := Nat.min n (min_in_memory_limit m) ≤ length (present m).

Lemma insert_tracked top lo dk good n log m h s :
  (good = true → ∀ p, is_Some (build_tmp_dir p)) → bounded top lo dk m →
  tracked good n log m → fresh_enough n m → h ∉ log.*1 →
  ∃ m', insert build_tmp_dir m h s = Some m' ∧ tracked good (S n) (log ++ [(h, s)]) m' ∧
    fresh_enough (S n) m'.
Proof.
  intros Hgood Hb Ht Hn Hh. unfold insert.
  set (m0 := if negb (is_memory_only m) && (in_memory_limit m <=? length (present m))
    then set_limit m (Nat.max (in_memory_limit m - 1) (min_in_memory_limit m)) else m).
  assert (tracked good n log m0 ∧ min_in_memory_limit m0 ≤ in_memory_limit m0 ∧
    min_in_memory_limit m0 = min_in_memory_limit m ∧ present m0 = present m)
    as (Ht0 & Hlim & Hmin & Hpr).
  { destruct Hb. unfold m0. destruct (_ && _); [|done]. split; [by apply tracked_limit|]. cbn. split_and!; [lia|done|done]. }
  destruct (enforce_tracked good n log m0) as (m' & -> & Ht' & (Hl1 & Hl2 & Hl3) & Hlen);
    [done|done|destruct Hb; lia|]. cbn [mbind option_bind].
  eexists. split; [done|]. split; [by apply push_tracked|].
  unfold fresh_enough in *. cbn [present min_in_memory_limit]. rewrite length_app, Hlen, Hl2, Hpr, Hmin.
  change (length [h]) with 1. lia.
Qed.

Lemma load_tracked top lo dk good n log m l :
  (good = true → ∀ p, is_Some (build_tmp_dir p)) → bounded top lo dk m →
  tracked good n log m → fresh_enough n m → NoDup (log.*1 ++ l.*1) →
  ∃ m', load_states build_tmp_dir empty_db m l = Some m' ∧
    tracked good (n + length l)
      (log ++ ((λ e, (e.1, init_from_state_snapshot empty_db e.2)) <$> l)) m' ∧
    fresh_enough (n + length l) m'.
Proof.
  intros Hgood. revert n log m. induction l as [|[h sn] l IH]; intros n log m Hb Ht Hn Hnd.
  { exists m. rewrite app_nil_r, Nat.add_0_r. done. }
  cbn [load_states]. set (d := init_from_state_snapshot empty_db sn).
  destruct (insert_tracked top lo dk good n log m h d Hgood Hb Ht Hn) as (m' & Hm' & Ht' & Hn').
  { rewrite fmap_cons in Hnd. apply NoDup_app in Hnd as (_ & Hnd & _). intros Hh.
    apply (Hnd h Hh). left. }
  destruct (insert_bounded build_tmp_dir top lo dk m h d Hb) as (m1 & Hm1 & Hb').
  rewrite Hm' in Hm1. injection Hm1 as <-. rewrite Hm'. cbn [mbind option_bind].
  destruct (IH (S n) (log ++ [(h, d)]) m' Hb' Ht' Hn') as (m2 & Hm2 & Ht2 & Hn2).
  { rewrite fmap_app. simpl. by rewrite <- app_assoc. }
  exists m2. split; [done|]. rewrite fmap_cons. rewrite <- app_assoc in Ht2. simpl in *.
  replace (n + S (length l)) with (S n + length l) by lia. done.
Qed.

(** ** Reading a state *)

Section get.
Context good n log old disk mem m (Hp : parts good n log old disk mem m).

Lemma log_unique h d d' : (h, d) ∈ log → (h, d') ∈ log → d = d'.
Proof.
  intros Hd Hd'. pose proof (pt_nodup _ _ _ _ _ _ _ Hp) as Hnd.
  apply (elem_of_list_to_map_1 (M := gmap Z)) in Hd; [|done].
  apply (elem_of_list_to_map_1 (M := gmap Z)) in Hd'; [|done]. congruence.
Qed.

Lemma parts_nodup : NoDup mem.*1 ∧ NoDup disk.*1.
Proof.
  pose proof (pt_nodup _ _ _ _ _ _ _ Hp) as Hnd.
  rewrite (pt_log _ _ _ _ _ _ _ Hp), !fmap_app in Hnd.
  apply NoDup_app in Hnd as (_ & _ & (? & _ & ?)%NoDup_app). done.
Qed.

Lemma get_memory h d : (h, d) ∈ mem → get build_tmp_dir m h = (m, Some d).
Proof.
  intros Hd. unfold get. rewrite (pt_states _ _ _ _ _ _ _ Hp).
  by rewrite (elem_of_list_to_map_1 _ h d) by (apply parts_nodup || done).
Qed.

Lemma get_gone h : h ∉ (disk ++ mem).*1 → get build_tmp_dir m h = (m, None).
Proof.
  rewrite fmap_app, not_elem_of_app. intros [Hd Hm]. unfold get.
  rewrite (pt_states _ _ _ _ _ _ _ Hp), not_elem_of_list_to_map_1 by done.
  pose proof (pt_disk _ _ _ _ _ _ _ Hp h) as Hdh.
  rewrite not_elem_of_list_to_map_1 in Hdh by done. by rewrite Hdh.
Qed.

Lemma get_disk h d : (h, d) ∈ disk →
  ∃ m' r, get build_tmp_dir m h = (m', r) ∧ parts good n log old disk mem m' ∧
    present m' = present m ∧ min_in_memory_limit m' = min_in_memory_limit m ∧
    (∀ x, r = Some x → x ≡ d) ∧
    ((∀ p, is_Some (build_tmp_dir p)) → files_of m !! h = Some (snap_of d) → is_Some r).
Proof.
  intros Hd. pose proof parts_nodup as [_ Hnd].
  pose proof (parts_keys _ _ _ _ _ _ _ h Hp) as Hkeys.
  destruct Hp as [Hlog _ Hpr Hst Hold Hdisk Hfiles Hwr Hmo Ho].
  assert (h ∈ disk.*1) as Hk by (apply elem_of_keys; eauto).
  assert ((list_to_map disk : gmap Z StateDb) !! h = Some d) as Hl
    by (by apply elem_of_list_to_map_1).
  unfold get. rewrite Hst, not_elem_of_list_to_map_1 by tauto.
  pose proof (Hdisk h) as Hdh. rewrite Hl in Hdh. destruct Hdh as (x & -> & Hxd).
  pose proof (read_files (disk_cache m) h) as Hread.
  destruct (DiskStateCache.read _ _ _) as [c r]. destruct Hread as (Hs & Hf & Hr & Hr').
  destruct r as [sn|]; eexists _, _; (split; [done|]).
  - assert (sn = snap_of d) as ->.
    { destruct (Hfiles h sn) as (d' & Hd' & ->); [left; by apply Hr|].
      rewrite (log_unique h d' d); [done|done|]. rewrite Hlog. set_solver. }
    assert (init_from_state_snapshot x (snap_of d) ≡ d) as Hinit.
    { destruct Hxd as [->|Hxd]; [|by apply db_restore_again].
      pose proof (db_restore d) as Hres. unfold snap_of. by destruct (clear_into_state_snapshot d). }
    split_and!; [|done|done|by intros ? [= <-]|by eexists].
    split; unfold files_of, spawned_of; simpl; rewrite ?Hf, ?Hs; try done.
    + by eapply pt_nodup.
    + intros h'. destruct (decide (h' = h)) as [->|Hne]; [rewrite Hl, lookup_insert_eq; eauto|].
      rewrite lookup_insert_ne by done. apply Hdisk.
  - split_and!; [|done|done|done|].
    + split; unfold files_of, spawned_of; simpl; rewrite ?Hf, ?Hs; try done. by eapply pt_nodup.
    + intros Hall Hfile. unfold files_of in Hfile. by rewrite <- Hr' in Hfile.
Qed.
End get.

(** ** Running it *)

Definition inserted_by (op : states_op StateDb Snap) : list (Z * StateDb) :=
  match op with
  | OpInsert h s => [(h, s)]
  | OpLoad l => (λ e, (e.1, init_from_state_snapshot empty_db e.2)) <$> l
  | _ => []
  end.

(** The number of states inserted since the last [clear]. *)
Definition count (op : states_op StateDb Snap) (n : nat) : nat :=
  match op with OpClear => 0 | _ => n + length (inserted_by op) end.

(** Under [good] every write succeeds. *)
Definition disk_ok (good : bool) (op : states_op StateDb Snap) : Prop :=
  match op with OpTask _ ok => good = true → ok = true | _ => True end.

Lemma task_tracked good n log m i ok : (good = true → ok = true) →
  tracked good n log m → tracked good n log (run_task m i ok).
Proof.
  intros Hok (old & disk & mem & Hp). exists old, disk, mem.
  pose proof (λ h, log_unique _ _ _ _ _ _ _ Hp h) as Huniq.
  destruct Hp as [Hlog Hnd Hpr Hst Hold Hdisk Hfiles Hwr Hmo Ho].
  unfold run_task, files_of, spawned_of in *.
  assert (DiskStateCache.run_task (disk_cache m) i ok = disk_cache m ∨
    ∃ h s, (∀ e, e ∈ DiskStateCache.spawned (disk_cache m) ↔
        e = (h, s) ∨ e ∈ DiskStateCache.spawned (DiskStateCache.run_task (disk_cache m) i ok)) ∧
      DiskStateCache.files (DiskStateCache.run_task (disk_cache m) i ok) =
        (if ok then <[h := s]> (DiskStateCache.files (disk_cache m))
         else DiskStateCache.files (disk_cache m))) as [->|(h & s & Hsp & Hf)].
  { unfold DiskStateCache.run_task. destruct (_ !! i) as [[h s]|] eqn:Hi; [|by left].
    right. exists h, s. split; [|done]. intros e. cbn [DiskStateCache.spawned].
    etransitivity; [by apply elem_of_Permutation_proper, delete_Permutation|]. apply elem_of_cons. }
  { by destruct m; split. }
  split; unfold files_of, spawned_of; simpl; try done.
  - rewrite Hf. intros x sn Hx. apply Hfiles.
    destruct Hx as [Hx|Hx]; [|right; apply Hsp; by right]. destruct ok; [|by left].
    apply lookup_insert_Some in Hx as [[<- <-]|[_ Hx]]; [right; apply Hsp; by left|by left].
  - rewrite Hf. intros Hg x d Hx. assert (ok = true) as -> by auto.
    destruct (decide (x = h)) as [->|Hne].
    + left. rewrite lookup_insert_eq. f_equal.
      destruct (Hfiles h s) as (d' & Hd' & ->); [right; apply Hsp; by left|].
      rewrite (Huniq h d' d); [done|done|]. rewrite Hlog. set_solver.
    + rewrite lookup_insert_ne by done. destruct (Hwr Hg x d Hx) as [?|[[= -> _]|?]%Hsp];
        [by left|done|by right].
Qed.

Lemma clear_tracked good n log m : tracked good n log m → tracked good 0 log (clear build_tmp_dir m).
Proof.
  intros (old & disk & mem & [Hlog Hnd Hpr Hst Hold Hdisk Hfiles Hwr Hmo Ho]).
  exists log, [], []. unfold clear.
  assert (∀ l (c : DiskStateCache.t Snap TempDir PathBuf),
    DiskStateCache.spawned (foldl (DiskStateCache.remove build_tmp_dir) c l) =
      DiskStateCache.spawned c ∧
    DiskStateCache.files (foldl (DiskStateCache.remove build_tmp_dir) c l) ⊆
      DiskStateCache.files c) as Hfold.
  { induction l as [|h l IH]; intros c; [done|]. cbn [foldl].
    destruct (remove_files c h) as (Hs & Hf & _).
    destruct (IH (DiskStateCache.remove build_tmp_dir c h)) as [Hs' Hf']. rewrite Hs'.
    split; [done|]. by etransitivity. }
  destruct (Hfold (oldest_on_disk m) (disk_cache m)) as [Hs Hf].
  split; unfold files_of, spawned_of in *; simpl; rewrite ?app_nil_r; try done.
  - intros h s. rewrite Hs. intros [Hx|Hx]; apply Hfiles; [left|by right].
    by eapply lookup_weaken.
  - intros _ h d Hx. by apply not_elem_of_nil in Hx.
  - left. lia.
Qed.

Lemma serialize_tracked good n log m : tracked good n log m →
  tracked good n log (serialized_states build_tmp_dir m).1 ∧
  present (serialized_states build_tmp_dir m).1 = present m ∧
  min_in_memory_limit (serialized_states build_tmp_dir m).1 = min_in_memory_limit m.
Proof.
  intros (old & disk & mem & [Hlog Hnd Hpr Hst Hold Hdisk Hfiles Hwr Hmo Ho]).
  unfold serialized_states.
  assert (∀ l (c : DiskStateCache.t Snap TempDir PathBuf),
    DiskStateCache.spawned (read_states build_tmp_dir c l).1 = DiskStateCache.spawned c ∧
    DiskStateCache.files (read_states build_tmp_dir c l).1 = DiskStateCache.files c) as Hread.
  { induction l as [|h l IH]; intros c; [done|]. cbn [read_states].
    pose proof (read_files c h) as Hr. destruct (DiskStateCache.read _ _ _) as [c' r].
    destruct Hr as (Hs & Hf & _). destruct (IH c') as [Hs' Hf'].
    destruct (read_states _ _ _). simpl in *. split; congruence. }
  destruct (Hread (map_iter (on_disk_states m)).*1 (disk_cache m)) as [Hs Hf].
  destruct (read_states _ _ _) as [c l]. simpl in *. split; [|done].
  exists old, disk, mem. split; unfold files_of, spawned_of in *; simpl; rewrite ?Hs, ?Hf; done.
Qed.

Lemma get_tracked good n log m h : tracked good n log m →
  tracked good n log (get build_tmp_dir m h).1 ∧
  present (get build_tmp_dir m h).1 = present m ∧
  min_in_memory_limit (get build_tmp_dir m h).1 = min_in_memory_limit m.
Proof.
  intros (old & disk & mem & Hp). destruct (decide (h ∈ mem.*1)) as [[d Hd]%elem_of_keys|Hm].
  { rewrite (get_memory _ _ _ _ _ _ _ Hp h d Hd). split; [|done]. by exists old, disk, mem. }
  destruct (decide (h ∈ disk.*1)) as [[d Hd]%elem_of_keys|Hd].
  - destruct (get_disk _ _ _ _ _ _ _ Hp h d Hd) as (m' & r & -> & Hp' & ? & ? & _).
    split; [|done]. by exists old, disk, mem.
  - rewrite (get_gone _ _ _ _ _ _ _ Hp h); [|rewrite fmap_app; set_solver].
    split; [|done]. by exists old, disk, mem.
Qed.

Lemma exec_tracked top lo dk good n log m op :
  (good = true → ∀ p, is_Some (build_tmp_dir p)) → disk_ok good op → bounded top lo dk m →
  tracked good n log m → fresh_enough n m → NoDup (log.*1 ++ (inserted_by op).*1) →
  ∃ m', states_exec build_tmp_dir empty_db op m = Some m' ∧
    tracked good (count op n) (log ++ inserted_by op) m' ∧ fresh_enough (count op n) m'.
Proof.
  intros Hgood Hok Hb Ht Hn Hnd. unfold fresh_enough in *.
  destruct op as [h s|h|secs|i ok| | |l]; cbn [states_exec inserted_by count length] in *;
    rewrite ?app_nil_r, ?Nat.add_0_r.
  - rewrite Nat.add_1_r. eapply insert_tracked; try done. intros Hh.
    apply NoDup_app in Hnd as (_ & Hnd & _). apply (Hnd h Hh). left.
  - destruct (get_tracked good n log m h Ht) as (Ht' & Hp & Hl).
    eexists. split; [done|]. rewrite Hp, Hl. done.
  - unfold update_interval_mine_block_time. destruct (secs <=? 2)%Z; [|by exists m].
    destruct (enforce_tracked good n log (set_limit m (DEFAULT_HISTORY_LIMIT * 3)))
      as (m' & -> & Ht' & (Hl1 & Hl2 & Hl3) & Hlen);
      [done|by apply tracked_limit|unfold DEFAULT_HISTORY_LIMIT; simpl; lia|].
    exists m'. split; [done|]. split; [done|]. destruct Hb.
    unfold DEFAULT_HISTORY_LIMIT, MIN_HISTORY_LIMIT in *. cbn in Hl2, Hlen. lia.
  - eexists. split; [done|]. split; [by apply task_tracked|done].
  - eexists. split; [done|]. split; [by eapply clear_tracked|done].
  - destruct (serialize_tracked good n log m Ht) as (Ht' & Hp & Hl).
    eexists. split; [done|]. rewrite Hp, Hl. done.
  - rewrite length_fmap. eapply load_tracked; try done.
    rewrite <- list_fmap_compose in Hnd. exact Hnd.
Qed.

Fixpoint inserted (ops : list (states_op StateDb Snap)) : list (Z * StateDb) :=
  match ops with [] => [] | op :: ops => inserted_by op ++ inserted ops end.

Fixpoint counted (ops : list (states_op StateDb Snap)) (n : nat) : nat :=
  match ops with [] => n | op :: ops => counted ops (count op n) end.

Lemma run_tracked top lo dk good n log m ops : DEFAULT_HISTORY_LIMIT * 3 ≤ top →
  (good = true → ∀ p, is_Some (build_tmp_dir p)) → Forall (disk_ok good) ops → bounded top lo dk m →
  tracked good n log m → fresh_enough n m → NoDup (log.*1 ++ (inserted ops).*1) →
  ∃ m', states_run build_tmp_dir empty_db ops m = Some m' ∧
    tracked good (counted ops n) (log ++ inserted ops) m' ∧ fresh_enough (counted ops n) m'.
Proof.
  intros Htop Hgood Hok. revert n log m.
  induction Hok as [|op ops Hop Hok IH]; intros n log m Hb Ht Hn Hnd.
  { exists m. cbn [inserted]. by rewrite app_nil_r. }
  cbn [inserted counted states_run] in *. rewrite fmap_app in Hnd.
  destruct (exec_bounded build_tmp_dir empty_db top lo dk m op Htop Hb) as (m1 & Hm1 & Hb1).
  destruct (exec_tracked top lo dk good n log m op) as (m2 & Hm2 & Ht2 & Hn2); try done.
  { rewrite app_assoc in Hnd. by apply NoDup_app in Hnd as (? & _ & _). }
  rewrite Hm2 in Hm1. injection Hm1 as <-. rewrite Hm2. cbn [mbind option_bind].
  destruct (IH (count op n) (log ++ inserted_by op) m2) as (m3 & Hm3 & Ht3 & Hn3); try done.
  { rewrite fmap_app, <- app_assoc. done. }
  exists m3. rewrite <- app_assoc in Ht3. done.
Qed.

Lemma new_tracked good anvil_tmp_dir limit on_disk :
  tracked good 0 [] (new anvil_tmp_dir limit on_disk).
Proof.
  exists [], [], []. split; simpl; try done.
  - constructor.
  - unfold files_of, spawned_of. simpl. intros h s [Hx|Hx]; [by rewrite lookup_empty in Hx|].
    by apply not_elem_of_nil in Hx.
  - intros _ h d Hx. by apply not_elem_of_nil in Hx.
  - left. lia.
Qed.
End track.

(** ** The results *)

#[local] Existing Instance db_equiv.

(** The last [k] elements. *)
Definition last_n {A} (k : nat) (l : list A) : list A := drop (length l - k) l.

Lemma last_n_app {A} k (l l' : list A) x : k ≤ length l' → x ∈ last_n k (l ++ l') → x ∈ l'.
Proof.
  intros Hk. unfold last_n. rewrite length_app, drop_app_ge by lia. intros Hx.
  rewrite <- (take_drop (length l + length l' - k - length l) l'). apply elem_of_app. by right.
Qed.

(** The limits hold.  A history with a positive memory limit never
    loops, whatever is inserted, read, loaded, cleared or changed by interval
    mining: it has at most as many states in memory as its current limit, which
    never exceeds the configured one or 1500, and fewer on disk than the
    configured number. *)
Theorem block_states_bounded {StateDb Snap TempDir PathBuf} `{MaybeFullDatabase StateDb Snap}
    `{MapOrder} (build_tmp_dir : option PathBuf → option TempDir) (empty_db : StateDb)
    anvil_tmp_dir (limit on_disk : nat) ops :
  0 < limit →
  ∃ m, states_run build_tmp_dir empty_db ops (new anvil_tmp_dir limit on_disk) = Some m ∧
    size (states m) ≤ in_memory_limit m ∧
    in_memory_limit m ≤ Nat.max limit (DEFAULT_HISTORY_LIMIT * 3) ∧
    size (on_disk_states m) ≤ on_disk - 1.
Proof.
  intros Hl. destruct (run_bounded build_tmp_dir empty_db _ _ _ _ ops (Nat.le_max_r _ _)
    (new_bounded anvil_tmp_dir limit on_disk Hl)) as (m & Hrun & []).
  exists m. split_and!; [done| |done|].
  - etransitivity; [by apply size_listed|done].
  - etransitivity; [by apply size_listed|lia].
Qed.

#[local] Instance sample_map_order : MapOrder := default_map_order.

(** States are numbers and snapshots copies. *)
#[local] Instance number_db : MaybeFullDatabase Z Z := {
  clear_into_state_snapshot d := (0%Z, d);
  read_as_state_snapshot d := d;
  init_from_state_snapshot _ s := s
}.
#[local] Instance number_equiv : Equiv Z := (=).
#[local] Instance number_laws : FullDatabaseLaws Z Z.
Proof. split; [apply _|done|]. intros d x ->. done. Qed.

Definition sample_ops : list (states_op Z Z) :=
  [OpInsert 1 101; OpInsert 2 102; OpInsert 3 103; OpInsert 4 104; OpTask 0 true; OpTask 0 true]%Z.

Lemma block_states_bounded_witness :
  ∃ m, states_run (λ _ : option unit, Some tt) 0%Z sample_ops (new None 2 3) = Some m ∧
    size (on_disk_states m) ≤ 2.
Proof.
  destruct (block_states_bounded (λ _ : option unit, Some tt) 0%Z None 2 3 sample_ops)
    as (m & Hrun & _ & _ & Hd); [lia|]. exists m. split; [exact Hrun|exact Hd].
Defined.

(** C18: the history gives back what was inserted.  After any sequence of
    operations that inserts each hash once, a read of a hash answers the state
    that was inserted under it (up to what a trip to the disk keeps) or none,
    and none for any other hash; it answers the very state for the last
    [min(limit, 10)] inserted since the history was cleared; and when all the
    writes to the disk have succeeded it answers for the [on_disk - 1] states
    before them too. *)
Theorem block_states_get {StateDb Snap TempDir PathBuf} `{FullDatabaseLaws StateDb Snap}
    `{MapOrder} (build_tmp_dir : option PathBuf → option TempDir) (empty_db : StateDb)
    anvil_tmp_dir (limit on_disk : nat) (good : bool) ops :
  0 < limit → NoDup (inserted empty_db ops).*1 →
  (good = true → ∀ p, is_Some (build_tmp_dir p)) → Forall (disk_ok good) ops →
  ∃ m, states_run build_tmp_dir empty_db ops (new anvil_tmp_dir limit on_disk) = Some m ∧
    (∀ h d, (h, d) ∈ inserted empty_db ops →
      match (get build_tmp_dir m h).2 with Some x => x ≡ d | None => True end) ∧
    (∀ h, h ∉ (inserted empty_db ops).*1 → (get build_tmp_dir m h).2 = None) ∧
    (∀ h d, (h, d) ∈ last_n (Nat.min (counted empty_db ops 0) (Nat.min limit MIN_HISTORY_LIMIT))
        (inserted empty_db ops) →
      (get build_tmp_dir m h).2 = Some d) ∧
    (good = true → spawned_of m = [] →
      ∀ h d, (h, d) ∈ last_n (Nat.min (counted empty_db ops 0)
          (Nat.min limit MIN_HISTORY_LIMIT + (on_disk - 1))) (inserted empty_db ops) →
      is_Some (get build_tmp_dir m h).2).
Proof.
  intros Hl Hnd Hgood Hok.
  pose proof (new_bounded (StateDb := StateDb) (Snap := Snap) (TempDir := TempDir)
    anvil_tmp_dir limit on_disk Hl) as Hb.
  destruct (run_bounded build_tmp_dir empty_db _ _ _ _ ops (Nat.le_max_r _ _) Hb)
    as (m & Hrun & Hbm).
  destruct (run_tracked build_tmp_dir empty_db _ _ _ good 0 [] _ ops (Nat.le_max_r _ _) Hgood Hok Hb)
    as (m' & Hrun' & (old & disk & mem & Hp) & Hn);
    [apply new_tracked|unfold fresh_enough; simpl; lia|done|].
  rewrite Hrun in Hrun'. injection Hrun' as <-. exists m. split; [done|].
  rewrite app_nil_l in Hp. pose proof (pt_log _ _ _ _ _ _ _ Hp) as Hlog.
  pose proof (pt_old _ _ _ _ _ _ _ Hp) as Hold. unfold fresh_enough in Hn.
  rewrite (pt_present _ _ _ _ _ _ _ Hp), length_fmap, (bd_lo _ _ _ _ Hbm) in Hn.
  rewrite (bd_dk _ _ _ _ Hbm) in Hold.
  split_and!.
  - intros h d Hd. pose proof Hd as Hin. rewrite Hlog, !elem_of_app in Hin.
    destruct Hin as [Ho|[Hdk|Hm]].
    + rewrite (get_gone _ _ _ _ _ _ _ _ Hp); [done|]. rewrite Hlog, fmap_app in Hnd.
      apply NoDup_app in Hnd as (_ & Hnd & _). apply Hnd, elem_of_keys. eauto.
    + destruct (get_disk build_tmp_dir _ _ _ _ _ _ _ Hp h d Hdk) as (m' & r & -> & _ & _ & _ & Hr & _).
      destruct r as [x|]; [by apply Hr|done].
    + rewrite (get_memory _ _ _ _ _ _ _ _ Hp h d Hm). cbn [snd]. apply db_equiv.
  - intros h Hh. rewrite (get_gone _ _ _ _ _ _ _ _ Hp); [done|]. rewrite Hlog, fmap_app in Hh.
    set_solver.
  - intros h d Hd. rewrite Hlog, app_assoc in Hd. apply last_n_app in Hd; [|done].
    by rewrite (get_memory _ _ _ _ _ _ _ _ Hp h d Hd).
  - intros Hg Hsp h d Hd. rewrite Hlog in Hd. apply last_n_app in Hd; [|rewrite length_app; lia].
    apply elem_of_app in Hd as [Hd|Hd].
    + destruct (get_disk build_tmp_dir _ _ _ _ _ _ _ Hp h d Hd) as (m' & r & -> & _ & _ & _ & _ & Hr).
      apply Hr; [auto|]. destruct (pt_written _ _ _ _ _ _ _ Hp Hg h d Hd) as [?|Hx]; [done|].
      rewrite Hsp in Hx. by apply not_elem_of_nil in Hx.
    + rewrite (get_memory _ _ _ _ _ _ _ _ Hp h d Hd). eauto.
Qed.

Lemma block_states_get_witness :
  ∃ m, states_run (λ _ : option unit, Some tt) 0%Z sample_ops (new None 2 3) = Some m ∧
    (get (λ _, Some tt) m 4).2 = Some 104%Z ∧ is_Some (get (λ _, Some tt) m 2).2 ∧
    (get (λ _, Some tt) m 9).2 = None.
Proof.
  destruct (block_states_get (λ _ : option unit, Some tt) 0%Z None 2 3 true sample_ops)
    as (m & Hrun & Hsome & Hnone & Hmem & Hdisk).
  - lia.
  - by apply (bool_decide_unpack _).
  - intros _ p. by eexists.
  - repeat constructor.
  - exists m. split_and!; [exact Hrun| | |].
    + apply Hmem. by apply (bool_decide_unpack _).
    + apply (Hdisk eq_refl) with (d := 102%Z).
      * vm_compute in Hrun. by injection Hrun as <-.
      * by apply (bool_decide_unpack _).
    + apply Hnone. by apply (bool_decide_unpack _).
Defined.

(** A memory limit of 0, which [--prune-history 0] configures, makes the
    first insertion loop forever: no number of turns ends the loop that evicts
    the states, since the history is already empty when it starts. *)
Theorem zero_limit_loops {StateDb Snap TempDir PathBuf} `{MaybeFullDatabase StateDb Snap}
    (build_tmp_dir : option PathBuf → option TempDir) anvil_tmp_dir max_persisted cache_path fuel :
  let c := PruneStateHistoryConfig.from_args (Some (Some 0)) in
  let m : InMemoryBlockStates.t StateDb Snap TempDir PathBuf :=
    initial_states anvil_tmp_dir c max_persisted cache_path in
  PruneStateHistoryConfig.is_state_history_supported c = true ∧
  evict_loop build_tmp_dir fuel m = None ∧ ∀ h s, insert build_tmp_dir m h s = None.
Proof.
  assert (∀ m : InMemoryBlockStates.t StateDb Snap TempDir PathBuf,
    in_memory_limit m = 0 → present m = [] → evict_loop build_tmp_dir fuel m = None) as Hloop.
  { induction fuel as [|fuel IH]; intros m Hl Hp; cbn [evict_loop]; rewrite Hl, Hp; [done|].
    simpl. unfold evict. rewrite Hp. by apply IH. }
  split; [done|]. split; [apply Hloop; by destruct cache_path|].
  intros h s. by destruct cache_path.
Qed.

(** The insertions in order. *)
Definition insert_all {StateDb Snap TempDir PathBuf} `{MaybeFullDatabase StateDb Snap}
    (build_tmp_dir : option PathBuf → option TempDir) (l : list (Z * StateDb))
    (m : InMemoryBlockStates.t StateDb Snap TempDir PathBuf) :
    option (InMemoryBlockStates.t StateDb Snap TempDir PathBuf) :=
  foldl (λ m e, m ← m; insert build_tmp_dir m e.1 e.2) (Some m) l.

Lemma insert_below {StateDb Snap TempDir PathBuf} `{MaybeFullDatabase StateDb Snap}
    (build_tmp_dir : option PathBuf → option TempDir)
    (m : InMemoryBlockStates.t StateDb Snap TempDir PathBuf) h s :
  max_on_disk_limit m = 0 → length (present m) < in_memory_limit m →
  insert build_tmp_dir m h s =
    Some (mk (<[h := s]> (states m)) (on_disk_states m) (in_memory_limit m)
      (min_in_memory_limit m) (max_on_disk_limit m) (oldest_on_disk m) (present m ++ [h])
      (disk_cache m)).
Proof.
  intros Hd Hl. unfold insert, is_memory_only. rewrite Hd. cbn [Nat.eqb negb andb].
  unfold enforce_limits.
  assert (∀ fuel, evict_loop build_tmp_dir fuel m = Some m) as Hev.
  { intros [|fuel]; cbn [evict_loop]; destruct (Nat.leb_spec (in_memory_limit m) (length (present m)));
      first [done|lia]. }
  assert (∀ fuel, purge_loop build_tmp_dir fuel m = Some m) as Hpu.
  { intros [|fuel]; cbn [purge_loop]; unfold is_memory_only; by rewrite Hd. }
  rewrite Hev. cbn [mbind option_bind]. rewrite Hpu. cbn [mbind option_bind]. by rewrite Hd.
Qed.

Lemma insert_all_below {StateDb Snap TempDir PathBuf} `{MaybeFullDatabase StateDb Snap}
    (build_tmp_dir : option PathBuf → option TempDir) l
    (m : InMemoryBlockStates.t StateDb Snap TempDir PathBuf) :
  max_on_disk_limit m = 0 → length (present m) + length l ≤ in_memory_limit m →
  ∃ m', insert_all build_tmp_dir l m = Some m' ∧ present m' = present m ++ l.*1 ∧
    ∀ h, is_Some (states m !! h) ∨ h ∈ l.*1 → is_Some (states m' !! h).
Proof.
  revert m. induction l as [|[h s] l IH]; intros m Hd Hl.
  { exists m. rewrite app_nil_r. split_and!; [done|done|].
    intros h [?|?%not_elem_of_nil]; done. }
  unfold insert_all. cbn [foldl mbind option_bind fst snd].
  rewrite insert_below; [|done|simpl in Hl; lia].
  match goal with |- context [foldl _ (Some ?m1) l] => destruct (IH m1) as (m' & Hm' & Hp & Hst) end;
    [done|cbn [present in_memory_limit]; rewrite length_app; simpl in *; lia|].
  exists m'. split; [exact Hm'|]. cbn [present states] in *. rewrite Hp, <- app_assoc.
  split; [done|]. intros x Hx. apply Hst. destruct (decide (x = h)) as [->|Hne].
  - left. rewrite lookup_insert_eq. eauto.
  - rewrite lookup_insert_ne by done. destruct Hx as [?|Hx]; [by left|].
    right. rewrite fmap_cons, elem_of_cons in Hx. by destruct Hx.
Qed.

(** Interval mining overrides the limit of [--prune-history].  Whatever
    number of states was asked for, a block time of at most two seconds sets
    the limit to 1500, and the history, which does not use the disk, then keeps
    the states of the next 1500 blocks. *)
Theorem interval_overrides_prune {StateDb Snap TempDir PathBuf} `{MaybeFullDatabase StateDb Snap}
    (build_tmp_dir : option PathBuf → option TempDir) anvil_tmp_dir max_persisted cache_path
    (limit : nat) (secs : Z) (l : list (Z * StateDb)) :
  (secs ≤ 2)%Z → length l ≤ 1500 →
  ∃ m m', update_interval_mine_block_time build_tmp_dir
      (initial_states anvil_tmp_dir (PruneStateHistoryConfig.from_args (Some (Some limit)))
        max_persisted cache_path) secs = Some m ∧
    insert_all build_tmp_dir l m = Some m' ∧ ∀ h, h ∈ l.*1 → is_Some (states m' !! h).
Proof.
  intros Hs%Z.leb_le Hl. unfold update_interval_mine_block_time. rewrite Hs.
  set (m0 := initial_states _ _ _ _).
  assert (enforce_limits build_tmp_dir (set_limit m0 1500) = Some (set_limit m0 1500)) as Hm.
  { unfold m0. by destruct cache_path. }
  destruct (insert_all_below build_tmp_dir l (set_limit m0 1500)) as (m' & Hm' & _ & Hst).
  - unfold m0. by destruct cache_path.
  - unfold m0. by destruct cache_path.
  - exists (set_limit m0 1500), m'. split_and!; [exact Hm|exact Hm'|]. auto.
Qed.

Lemma interval_overrides_prune_witness :
  ∃ m m', update_interval_mine_block_time (λ _ : option unit, Some tt)
      (initial_states None (PruneStateHistoryConfig.from_args (Some (Some 1))) None None) 1 = Some m ∧
    insert_all (λ _ : option unit, Some tt) [(1, 101); (2, 102); (3, 103)]%Z m = Some m' ∧
    is_Some (states m' !! 1%Z).
Proof.
  destruct (interval_overrides_prune (λ _ : option unit, Some tt) None None None 1 1
    [(1, 101); (2, 102); (3, 103)]%Z) as (m & m' & Hm & Hm' & Hst); [done|simpl; lia|].
  exists m, m'. split_and!; [exact Hm|exact Hm'|]. apply Hst. left.
Defined.
