(* ===== verification/Blocks.v ===== *)
(** Blocks, receipts and mined transactions (anvil/core/src/eth/block.rs, the
    receipt types of anvil/core/src/eth/transaction/mod.rs, and the block
    storage of anvil/src/eth/backend/mem/storage.rs). *)
From S2P Require Import Prelude Transaction.

(** ** Data *)

Record Log := mk_log { log_address : Address; topics : list Z; log_data : Bytes }.

(** [ReceiptWithBloom<Receipt>] *)
Record ReceiptWithBloom := mk_receipt { status : bool; cumulative_gas_used_ : Z; logs : list Log;
  logs_bloom : Z }.

Record DepositReceipt := mk_deposit_receipt { inner : ReceiptWithBloom;
  deposit_nonce : option Z; deposit_receipt_version : option Z }.

Inductive TypedReceipt :=
  | ReceiptLegacy (r : ReceiptWithBloom)
  | ReceiptEIP2930 (r : ReceiptWithBloom)
  | ReceiptEIP1559 (r : ReceiptWithBloom)
  | ReceiptEIP4844 (r : ReceiptWithBloom)
  | ReceiptEIP7702 (r : ReceiptWithBloom)
  | ReceiptDeposit (r : DepositReceipt).

Definition as_receipt_with_bloom (r : TypedReceipt) : ReceiptWithBloom :=
  match r with
  | ReceiptLegacy r | ReceiptEIP1559 r | ReceiptEIP2930 r | ReceiptEIP4844 r
  | ReceiptEIP7702 r => r
  | ReceiptDeposit r => inner r
  end.

Definition cumulative_gas_used (r : TypedReceipt) : Z :=
  cumulative_gas_used_ (as_receipt_with_bloom r).

(** The kind of a call frame. *)
Inductive CallKind := CallKind_Call | CallKind_Create | CallKind_Create2 | CallKind_Other.

(** The fields of a [CallTraceNode] the code reads. *)
Record CallTraceNode := mk_node { node_kind : CallKind; is_selfdestruct : bool;
  node_caller : Address; node_address : Address; node_value : Z;
  selfdestruct_refund_target : option Address; selfdestruct_transferred_value : option Z }.

(** [exit] is the [InstructionResult] as its [u8]. *)
Record TransactionInfo := mk_tx_info { transaction_hash : TxHash; transaction_index : Z;
  tx_from : Address; tx_to : option Address; contract_address : option Address;
  traces : list CallTraceNode; exit : Z; out : option Bytes; info_nonce : Z; info_gas_used : Z }.

Module PartialHeader.
Record t := mk { parent_hash : Z; beneficiary : Address; state_root : Z; receipts_root : Z;
  logs_bloom : Z; difficulty : Z; number : Z; gas_limit : Z; gas_used : Z; timestamp : Z;
  extra_data : Bytes; mix_hash : Z; blob_gas_used : option Z; excess_blob_gas : option Z;
  parent_beacon_block_root : option Z; nonce : Z; base_fee : option Z;
  withdrawals_root : option Z; requests_hash : option Z }.

(** The zero address. *)
Definition zero_address : Address := replicate 20 0%Z.

Definition default : t :=
  mk 0 zero_address 0 0 0 0 0 0 0 0 [] 0 None None None 0 None None None.
End PartialHeader.

Module Header.
Record t := mk { parent_hash : Z; beneficiary : Address; ommers_hash : Z; state_root : Z;
  transactions_root : Z; receipts_root : Z; logs_bloom : Z; difficulty : Z; number : Z;
  gas_limit : Z; gas_used : Z; timestamp : Z; extra_data : Bytes; mix_hash : Z;
  withdrawals_root : option Z; blob_gas_used : option Z; excess_blob_gas : option Z;
  parent_beacon_block_root : option Z; nonce : Z; base_fee_per_gas : option Z;
  requests_hash : option Z }.
End Header.

(** [From<Header> for PartialHeader] *)
Definition partial_header (h : Header.t) : PartialHeader.t :=
  PartialHeader.mk (Header.parent_hash h) (Header.beneficiary h) (Header.state_root h)
    (Header.receipts_root h) (Header.logs_bloom h) (Header.difficulty h) (Header.number h)
    (Header.gas_limit h) (Header.gas_used h) (Header.timestamp h) (Header.extra_data h)
    (Header.mix_hash h) (Header.blob_gas_used h) (Header.excess_blob_gas h)
    (Header.parent_beacon_block_root h) (Header.nonce h) (Header.base_fee_per_gas h)
    (Header.withdrawals_root h) (Header.requests_hash h).

(** The hashes of alloy: the root of a list of transactions and of receipts,
    the hash of a header, and constants. *)
Class BlockCrypto := {
  transactions_root_of : list MaybeImpersonatedTransaction.t → Z;
  receipts_root_of : list TypedReceipt → Z;
  hash_slow : Header.t → Z;
  EMPTY_OMMER_ROOT_HASH : Z;
  EMPTY_WITHDRAWALS : Z;
  EMPTY_REQUESTS_HASH : Z
}.

Module Block.
Record t := mk { header : Header.t; transactions : list MaybeImpersonatedTransaction.t;
  ommers : list Header.t }.

Definition new `{BlockCrypto} (p : PartialHeader.t)
    (transactions : list MaybeImpersonatedTransaction.t) : t :=
  mk (Header.mk (PartialHeader.parent_hash p) (PartialHeader.beneficiary p)
      EMPTY_OMMER_ROOT_HASH (PartialHeader.state_root p) (transactions_root_of transactions)
      (PartialHeader.receipts_root p) (PartialHeader.logs_bloom p) (PartialHeader.difficulty p)
      (PartialHeader.number p) (PartialHeader.gas_limit p) (PartialHeader.gas_used p)
      (PartialHeader.timestamp p) (PartialHeader.extra_data p) (PartialHeader.mix_hash p)
      (PartialHeader.withdrawals_root p) (PartialHeader.blob_gas_used p)
      (PartialHeader.excess_blob_gas p) (PartialHeader.parent_beacon_block_root p)
      (PartialHeader.nonce p) (PartialHeader.base_fee p) (PartialHeader.requests_hash p))
    transactions [].
End Block.

Record BlockInfo := mk_block_info { block : Block.t; info_transactions : list TransactionInfo;
  receipts : list TypedReceipt }.

(** ** MinedTransaction *)

Module MinedTransaction.
Record t := mk { info : TransactionInfo; receipt : TypedReceipt; block_hash : Z;
  block_number : Z }.

Inductive OperationType := OpSelfDestruct | OpTransfer | OpCreate | OpCreate2.

Record InternalOperation := mk_op { type : OperationType; from : Address; to : Address; value : Z }.

Definition operation_type (n : CallTraceNode) : option OperationType :=
  if is_selfdestruct n then Some OpSelfDestruct
  else
    match node_kind n with
    | CallKind_Call => if (node_value n =? 0)%Z then None else Some OpTransfer
    | CallKind_Create => Some OpCreate
    | CallKind_Create2 => Some OpCreate2
    | CallKind_Other => None
    end.

Definition internal_operation (n : CallTraceNode) : option InternalOperation :=
  type ← operation_type n;
  Some
    (if is_selfdestruct n
     then mk_op type (node_address n)
            (default PartialHeader.zero_address (selfdestruct_refund_target n))
            (default 0%Z (selfdestruct_transferred_value n))
     else mk_op type (node_caller n) (node_address n) (node_value n)).

Definition ots_internal_operations (t : t) : list InternalOperation :=
  omap internal_operation (traces (info t)).
End MinedTransaction.
