(* ===== verification/Chain.v ===== *)
(** The block storage (anvil/src/eth/backend/mem/storage.rs):
    [BlockchainStorage], [Blockchain], and the part of mining that writes to it
    (anvil/src/eth/backend/mem/mod.rs). *)
From S2P Require Import Prelude Transaction Blocks.

(** The fields of revm's [BlockEnv]; the price of
    [blob_excess_gas_and_price] is its second component. *)
Module BlockEnv.
Record t := mk { number : Z; coinbase : Address; timestamp : Z; gas_limit : Z; basefee : Z;
  difficulty : Z; prevrandao : option Z; blob_excess_gas_and_price : option (Z * Z) }.

Definition get_blob_excess_gas (e : t) : option Z := fst <$> blob_excess_gas_and_price e.
End BlockEnv.

(** [U256::to::<u64>()] and [U256::to::<u128>()] panic when the value does
    not fit. *)
Definition to_u64 (x : Z) : option Z := if (x <=? u64_max)%Z then Some x else None.
Definition to_u128 (x : Z) : option Z := if (x <=? u128_max)%Z then Some x else None.

(** [BlockNumberOrTag] and [BlockId]. *)
Inductive BlockNumberOrTag := Latest | Finalized | Safe | Earliest | Pending | Number (n : Z).
Inductive BlockId := IdHash (h : Z) | IdNumber (n : BlockNumberOrTag).

(** [SerializableBlock] with the two shapes a dumped transaction may have. *)
Inductive SerializableTransactionType :=
  | SerTyped (tx : TypedTransaction)
  | SerMaybeImpersonated (tx : MaybeImpersonatedTransaction.t).

Record SerializableBlock := mk_ser_block { ser_header : Header.t;
  ser_transactions : list SerializableTransactionType; ser_ommers : list Header.t }.

Definition to_serializable_transaction (tx : MaybeImpersonatedTransaction.t) :
    SerializableTransactionType := SerMaybeImpersonated tx.

Definition of_serializable_transaction (tx : SerializableTransactionType) :
    MaybeImpersonatedTransaction.t :=
  match tx with
  | SerTyped tx => MaybeImpersonatedTransaction.new tx
  | SerMaybeImpersonated tx => tx
  end.

Definition to_serializable_block (b : Block.t) : SerializableBlock :=
  mk_ser_block (Block.header b) (to_serializable_transaction <$> Block.transactions b)
    (Block.ommers b).

Definition of_serializable_block (b : SerializableBlock) : Block.t :=
  Block.mk (ser_header b) (of_serializable_transaction <$> ser_transactions b) (ser_ommers b).

(** ** BlockchainStorage *)

Module BlockchainStorage.
Section storage.
Context `{BlockCrypto} `{Crypto}.
(** The hard forks, as the [SpecId] compares them. *)
Context (SHANGHAI CANCUN PRAGUE : Z).

Record t := mk {
  blocks : gmap Z Block.t;
  hashes : gmap Z Z;
  best_hash : Z;
  best_number : Z;
  genesis_hash : Z;
  transactions : gmap Z MinedTransaction.t;
  total_difficulty : Z
}.

Definition set_blocks (s : t) (b : gmap Z Block.t) (h : gmap Z Z)
    (txs : gmap Z MinedTransaction.t) : t :=
  mk b h (best_hash s) (best_number s) (genesis_hash s) txs (total_difficulty s).

Definition set_best (s : t) (number hash : Z) : t :=
  mk (blocks s) (hashes s) hash number (genesis_hash s) (transactions s) (total_difficulty s).

Definition then_some {A} (b : bool) (a : A) : option A := if b then Some a else None.

Definition new (env : BlockEnv.t) (spec_id : Z) (base_fee : option Z) (timestamp : Z) : option t :=
  gas_limit ← to_u64 (BlockEnv.gas_limit env);
  let p := PartialHeader.mk 0 (BlockEnv.coinbase env) 0 0 0 (BlockEnv.difficulty env) 0
    gas_limit 0 timestamp [] 0
    ((λ _, 0%Z) <$> BlockEnv.blob_excess_gas_and_price env) (BlockEnv.get_blob_excess_gas env)
    (then_some (CANCUN <=? spec_id)%Z 0%Z) 0 base_fee
    (then_some (SHANGHAI <=? spec_id)%Z EMPTY_WITHDRAWALS)
    (then_some (PRAGUE <=? spec_id)%Z EMPTY_REQUESTS_HASH) in
  let block := Block.new p [] in
  let genesis := hash_slow (Block.header block) in
  Some (mk {[genesis := block]} {[0%Z := genesis]} genesis 0 genesis ∅ 0).

Definition forked (block_number block_hash total_difficulty : Z) : t :=
  mk ∅ {[block_number := block_hash]} block_hash block_number 0 ∅ total_difficulty.

Definition empty : t := mk ∅ ∅ 0 0 0 ∅ 0.

Definition remove_block_transactions (s : t) (block_hash : Z) : t :=
  match blocks s !! block_hash with
  | Some block =>
      set_blocks s
        (<[block_hash := Block.mk (Block.header block) [] (Block.ommers block)]> (blocks s))
        (hashes s)
        (foldl (λ txs tx, delete (MaybeImpersonatedTransaction.hash tx) txs) (transactions s)
          (Block.transactions block))
  | None => s
  end.

Definition remove_block_transactions_by_number (s : t) (num : Z) : t :=
  match hashes s !! num with
  | Some hash => remove_block_transactions s hash
  | None => s
  end.

Definition unwind_step (s : t) (i : Z) : t :=
  match hashes s !! i with
  | Some hash =>
      let s := set_blocks s (blocks s) (delete i (hashes s)) (transactions s) in
      match blocks s !! hash with
      | Some block =>
          let s := set_blocks s (delete hash (blocks s)) (hashes s) (transactions s) in
          remove_block_transactions_by_number s (Header.number (Block.header block))
      | None => s
      end
  | None => s
  end.

(** [a..=b] *)
Definition range (a b : Z) : list Z := seqZ a (b - a + 1).

Definition unwind_to (s : t) (block_number block_hash : Z) : t :=
  set_best (foldl unwind_step s (range (block_number + 1) (best_number s)))
    block_number block_hash.

Definition hash (s : t) (number : BlockNumberOrTag) : option Z :=
  let slots_in_an_epoch := 32%Z in
  match number with
  | Latest => Some (best_hash s)
  | Earliest => Some (genesis_hash s)
  | Pending => None
  | Number num => hashes s !! num
  | Safe =>
      if (slots_in_an_epoch <? best_number s)%Z
      then hashes s !! (best_number s - slots_in_an_epoch)%Z
      else Some (genesis_hash s)
  | Finalized =>
      if (slots_in_an_epoch * 2 <? best_number s)%Z
      then hashes s !! (best_number s - slots_in_an_epoch * 2)%Z
      else Some (genesis_hash s)
  end.

(** The values of a map, in some order. *)
Definition serialized_blocks (order : gmap Z Block.t → list (Z * Block.t)) (s : t) :
    list SerializableBlock :=
  to_serializable_block <$> (order (blocks s)).*2.

Definition load_block (s : t) (b : SerializableBlock) : t :=
  let block := of_serializable_block b in
  let block_hash := hash_slow (Block.header block) in
  let block_number := Header.number (Block.header block) in
  set_blocks s (<[block_hash := block]> (blocks s)) (<[block_number := block_hash]> (hashes s))
    (transactions s).

Definition load_blocks (s : t) (l : list SerializableBlock) : t := foldl load_block s l.

Definition load_transaction (s : t) (tx : MinedTransaction.t) : t :=
  set_blocks s (blocks s) (hashes s)
    (<[transaction_hash (MinedTransaction.info tx) := tx]> (transactions s)).

Definition load_transactions (s : t) (l : list MinedTransaction.t) : t := foldl load_transaction s l.

(** ** Mining

    What [do_mine_block] writes for an executed block. *)

Definition insert_mined (block_hash block_number : Z) (s : t) (e : TransactionInfo * TypedReceipt) : t :=
  let mined_tx := MinedTransaction.mk e.1 e.2 block_hash block_number in
  set_blocks s (blocks s) (hashes s)
    (<[transaction_hash e.1 := mined_tx]> (transactions s)).

Definition store_block (is_eip3675 : bool) (transaction_block_keeper : option nat)
    (info : BlockInfo) (s : t) : t :=
  let block_number := saturating_add_u64 (best_number s) 1 in
  let b := block info in
  let block_hash := hash_slow (Block.header b) in
  let s := set_best s block_number block_hash in
  let difficulty :=
    if is_eip3675 then total_difficulty s
    else Z.min (2 ^ 256 - 1) (total_difficulty s + Header.difficulty (Block.header b)) in
  let s := mk (<[block_hash := b]> (blocks s)) (<[block_number := block_hash]> (hashes s))
    (best_hash s) (best_number s) (genesis_hash s) (transactions s) difficulty in
  let s := foldl (insert_mined block_hash block_number) s
    (zip (info_transactions info) (receipts info)) in
  match transaction_block_keeper with
  | Some keeper =>
      if keeper <? size (blocks s)
      then remove_block_transactions_by_number s (saturating_sub block_number (Z.of_nat keeper))
      else s
  | None => s
  end.
End storage.
End BlockchainStorage.

(** ** Blockchain *)

Module Blockchain.
Definition hash (s : BlockchainStorage.t) (id : BlockId) : option Z :=
  match id with
  | IdHash h => Some h
  | IdNumber num => BlockchainStorage.hash s num
  end.

Definition get_block_by_hash (s : BlockchainStorage.t) (hash : Z) : option Block.t :=
  BlockchainStorage.blocks s !! hash.

Definition get_transaction_by_hash (s : BlockchainStorage.t) (hash : Z) : option MinedTransaction.t :=
  BlockchainStorage.transactions s !! hash.

Definition blocks_count (s : BlockchainStorage.t) : nat := size (BlockchainStorage.blocks s).
End Blockchain.
