(* ===== verification/ChainTheorems.v ===== *)
(** Theorems on the block storage.
    The invariant and what each operation does to it come first. *)
From S2P Require Import Prelude Transaction Blocks Chain.
Import BlockchainStorage.

(** ** The invariant *)

Section chain.
Context `{BlockCrypto} `{Crypto}.
Implicit Types (s : BlockchainStorage.t) (bs : list BlockInfo) (i : BlockInfo).

Definition bhash i : Z := hash_slow (Block.header (block i)).
Definition tx_hashes (b : Block.t) : list Z := MaybeImpersonatedTransaction.hash <$> Block.transactions b.

(** The receipts and infos of an executed block are those of its
    transactions. *)
Definition info_ok i : Prop :=
  transaction_hash <$> info_transactions i = tx_hashes (block i) ∧
  length (receipts i) = length (info_transactions i).

(** what is stored for the transactions of the [k]-th block. *)
Definition entries (k : nat) i : list (Z * MinedTransaction.t) :=
  (λ e, (transaction_hash e.1, MinedTransaction.mk e.1 e.2 (bhash i) (Z.of_nat (S k)))) <$>
    zip (info_transactions i) (receipts i).

(** The blocks whose transactions are kept: all but the first [cut]. *)
Definition cut (keeper : option nat) (n : nat) : nat :=
  match keeper with Some keeper => n - keeper | None => 0 end.

Definition kept_entries (c : nat) bs : list (Z * MinedTransaction.t) :=
  concat (drop c (imap entries bs)).

Definition cleared (b : Block.t) : Block.t := Block.mk (Block.header b) [] (Block.ommers b).

Definition chain_hashes (g : Z) bs : list Z := g :: (bhash <$> bs).

(** The storage of the chain of [bs] on the genesis block [gb], where the
    transactions of the first [c] blocks were removed. *)
Record chain_inv (c : nat) (g : Z) (gb : Block.t) bs s : Prop := {
  ci_number : best_number s = Z.of_nat (length bs);
  ci_hash : last (chain_hashes g bs) = Some (best_hash s);
  ci_genesis : genesis_hash s = g;
  ci_hashes : ∀ n, hashes s !! n =
    if decide (0 ≤ n)%Z then chain_hashes g bs !! Z.to_nat n else None;
  ci_size : size (blocks s) = S (length bs);
  ci_gb : blocks s !! g = Some gb;
  ci_blocks : ∀ k i, bs !! k = Some i → blocks s !! bhash i =
    Some (if decide (k < c) then cleared (block i) else block i);
  ci_dom : ∀ h, is_Some (blocks s !! h) → h ∈ chain_hashes g bs;
  ci_txs : transactions s = list_to_map (kept_entries c bs);
  ci_cut : c ≤ length bs
}.

Lemma delete_all_lookup {A} (l : list MaybeImpersonatedTransaction.t) (m : gmap Z A) h :
  foldl (λ txs tx, delete (MaybeImpersonatedTransaction.hash tx) txs) m l !! h =
    if decide (h ∈ MaybeImpersonatedTransaction.hash <$> l) then None else m !! h.
Proof.
  revert m. induction l as [|tx l IH]; intros m; [done|]. cbn [foldl]. rewrite IH.
  rewrite fmap_cons. destruct (decide (h = MaybeImpersonatedTransaction.hash tx)) as [->|Hne].
  - rewrite lookup_delete_eq. rewrite (decide_True (P := _ ∈ _ :: _)) by left. by destruct (decide _).
  - rewrite lookup_delete_ne by done. destruct (decide (h ∈ MaybeImpersonatedTransaction.hash <$> l)).
    + by rewrite decide_True by (by right).
    + rewrite decide_False; [done|]. by rewrite not_elem_of_cons.
Qed.

Lemma entries_keys k i : info_ok i → (entries k i).*1 = tx_hashes (block i).
Proof.
  intros [Heq Hlen]. unfold entries. rewrite <- list_fmap_compose. rewrite <- Heq.
  rewrite (list_fmap_ext _ (transaction_hash ∘ fst)) by done.
  rewrite list_fmap_compose, fst_zip by lia. done.
Qed.

Lemma insert_mined_all k i s :
  foldl (insert_mined (bhash i) (Z.of_nat (S k))) s (zip (info_transactions i) (receipts i)) =
  set_blocks s (blocks s) (hashes s)
    (foldl (λ m e, <[e.1 := e.2]> m) (transactions s) (entries k i)).
Proof.
  unfold entries. generalize (zip (info_transactions i) (receipts i)) as l. intros l. revert s.
  induction l as [|[x r] l IH]; intros s; [by destruct s|]. cbn [foldl fmap list_fmap].
  rewrite IH. done.
Qed.

Lemma foldl_insert_app {A} (l l' : list (Z * A)) : NoDup (l ++ l').*1 →
  foldl (λ m e, <[e.1 := e.2]> m) (list_to_map l : gmap Z A) l' = list_to_map (l ++ l').
Proof.
  revert l. induction l' as [|[k x] l' IH]; intros l Hnd; [by rewrite app_nil_r|]. cbn [foldl].
  rewrite fmap_app, fmap_cons in Hnd.
  assert (k ∉ l.*1) as Hk. { apply NoDup_app in Hnd as (_ & Hnd & _). intros Hin.
    apply (Hnd k Hin). left. }
  rewrite <- list_to_map_snoc by done. rewrite IH; rewrite <- app_assoc; [done|].
  by rewrite fmap_app.
Qed.

Definition all_txs bs : list Z := concat ((tx_hashes ∘ block) <$> bs).

Lemma keys_concat {A} (l : list (list (Z * A))) : (concat l).*1 = concat ((λ x, x.*1) <$> l).
Proof. induction l as [|x l IH]; [done|]. cbn [concat fmap list_fmap]. by rewrite fmap_app, IH. Qed.

Lemma kept_keys c bs : Forall info_ok bs →
  (kept_entries c bs).*1 = concat (drop c ((tx_hashes ∘ block) <$> bs)).
Proof.
  intros Hok. unfold kept_entries. rewrite keys_concat, fmap_drop. do 2 f_equal.
  apply list_eq. intros k. rewrite !list_lookup_fmap, list_lookup_imap.
  destruct (bs !! k) as [i|] eqn:Hk; [|done]. cbn [fmap option_fmap option_map]. f_equal.
  apply entries_keys. rewrite Forall_lookup in Hok. eauto.
Qed.

Lemma concat_drop {A} c (l : list (list A)) : NoDup (concat l) → NoDup (concat (drop c l)).
Proof.
  intros Hnd. rewrite <- (take_drop c l), concat_app in Hnd. by apply NoDup_app in Hnd as (_ & _ & ?).
Qed.

Lemma kept_nodup c bs : Forall info_ok bs → NoDup (all_txs bs) → NoDup (kept_entries c bs).*1.
Proof. intros Hok Hnd. rewrite kept_keys by done. by apply concat_drop. Qed.

Lemma kept_snoc c bs i : c ≤ length bs →
  kept_entries c (bs ++ [i]) = kept_entries c bs ++ entries (length bs) i.
Proof.
  intros Hc. unfold kept_entries. rewrite imap_app, drop_app_le by (rewrite length_imap; lia).
  rewrite concat_app. change (imap _ [i]) with [entries (length bs + 0) i]. cbn [concat].
  by rewrite app_nil_r, Nat.add_0_r.
Qed.

Lemma last_snoc_hash g bs i : last (chain_hashes g (bs ++ [i])) = Some (bhash i).
Proof. unfold chain_hashes. rewrite fmap_app, app_comm_cons. apply last_snoc. Qed.

(** A block is added. *)
Lemma add_inv c g gb bs s i e : chain_inv c g gb bs s → Forall info_ok (bs ++ [i]) →
  NoDup (chain_hashes g (bs ++ [i])) → NoDup (all_txs (bs ++ [i])) →
  (Z.of_nat (length bs) < u64_max)%Z →
  chain_inv c g gb (bs ++ [i]) (store_block e None i s).
Proof.
  intros [Hn Hh Hg Hhs Hsz Hgb Hbl Hdom Htx Hc] Hok Hnd Hndt Hlt. unfold store_block.
  assert (saturating_add_u64 (best_number s) 1 = Z.of_nat (S (length bs))) as ->.
  { unfold saturating_add_u64. rewrite Hn. lia. }
  fold (bhash i). rewrite insert_mined_all. unfold chain_hashes in Hnd.
  rewrite fmap_app, app_comm_cons in Hnd. apply NoDup_app in Hnd as (_ & Hnew & _).
  assert (bhash i ∉ chain_hashes g bs) as Hfresh.
  { intros Hin. apply (Hnew _ Hin). left. }
  split; cbn.
  - rewrite length_app. simpl. lia.
  - apply last_snoc_hash.
  - done.
  - intros n. unfold chain_hashes. rewrite fmap_app, app_comm_cons. fold (chain_hashes g bs).
    destruct (decide (n = Z.of_nat (S (length bs)))) as [->|Hne].
    + rewrite lookup_insert_eq, decide_True by lia. rewrite Nat2Z.id, lookup_app_r;
        unfold chain_hashes; rewrite length_cons, length_fmap; [|lia].
      by rewrite Nat.sub_diag.
    + rewrite lookup_insert_ne, Hhs by done. destruct (decide (0 ≤ n)%Z); [|done].
      destruct (decide (Z.to_nat n < S (length bs))) as [Hl|Hl].
      * rewrite lookup_app_l; [done|]. unfold chain_hashes. rewrite length_cons, length_fmap. lia.
      * rewrite !lookup_ge_None_2; [done|..]; unfold chain_hashes;
          rewrite ?length_app, length_cons, length_fmap; simpl; lia.
  - rewrite map_size_insert_None, length_app; [simpl; lia|].
    apply eq_None_not_Some. intros Hs%Hdom. done.
  - rewrite lookup_insert_ne; [done|]. intros Heq. apply Hfresh. rewrite Heq. left.
  - intros k j Hk. apply lookup_snoc_Some in Hk as [[Hlt' Hk]|[-> ->]].
    + rewrite lookup_insert_ne; [by apply Hbl|]. intros Heq. apply Hfresh.
      right. apply list_elem_of_fmap. exists j. split; [done|]. by eapply list_elem_of_lookup_2.
    + rewrite lookup_insert_eq, decide_False by lia. done.
  - intros h [b [[<- _]|[_ Hb]]%lookup_insert_Some]; unfold chain_hashes;
      rewrite fmap_app, app_comm_cons; apply elem_of_app; [right; left|left; eauto].
  - rewrite kept_snoc, Htx by done. apply foldl_insert_app. rewrite <- kept_snoc by done.
    by apply kept_nodup.
  - rewrite length_app. lia.
Qed.

(** The transactions of one more block are removed. *)
Lemma clear_inv c g gb bs s : chain_inv c g gb bs s → Forall info_ok bs →
  NoDup (chain_hashes g bs) → NoDup (all_txs bs) → c < length bs →
  chain_inv (S c) g gb bs (remove_block_transactions_by_number s (Z.of_nat (S c))).
Proof.
  intros [Hn Hh Hg Hhs Hsz Hgb Hbl Hdom Htx Hc] Hok Hnd Hndt Hlt.
  destruct (lookup_lt_is_Some_2 bs c Hlt) as [i Hi].
  assert (hashes s !! Z.of_nat (S c) = Some (bhash i)) as Hhc.
  { rewrite Hhs, decide_True, Nat2Z.id by lia. unfold chain_hashes.
    by rewrite lookup_cons_ne_0, list_lookup_fmap, Nat.pred_succ, Hi by lia. }
  unfold remove_block_transactions_by_number, remove_block_transactions.
  rewrite Hhc, (Hbl c i Hi), decide_False by lia. fold (cleared (block i)).
  assert (∀ k j, bs !! k = Some j → bhash j = bhash i → k = c) as Huniq.
  { intros k j Hk Heq. apply NoDup_cons in Hnd as [_ Hnd].
    apply (NoDup_lookup _ k c (bhash i) Hnd); rewrite list_lookup_fmap; [by rewrite Hk, <- Heq|].
    by rewrite Hi. }
  split; cbn; try done.
  - rewrite map_size_insert_Some; [done|]. rewrite (Hbl c i Hi). eauto.
  - rewrite lookup_insert_ne; [done|]. intros Heq. apply NoDup_cons in Hnd as [Hnd _].
    apply Hnd. rewrite <- Heq. apply list_elem_of_fmap. exists i. split; [done|].
    by eapply list_elem_of_lookup_2.
  - intros k j Hk. destruct (decide (bhash i = bhash j)) as [Heq|Hne].
    + rewrite Heq, lookup_insert_eq. assert (k = c) as -> by eauto.
      rewrite decide_True by lia. congruence.
    + rewrite lookup_insert_ne, (Hbl k j Hk) by done. assert (k ≠ c) by congruence.
      f_equal. destruct (decide (k < c)), (decide (k < S c)); first [done|lia].
  - intros h [b [[<- _]|[_ Hb]]%lookup_insert_Some]; apply Hdom; [|by eexists].
    rewrite (Hbl c i Hi). eauto.
  - rewrite Htx. pose proof (kept_nodup c bs Hok Hndt) as Hnk. revert Hnk.
    unfold kept_entries. rewrite (drop_S (imap entries bs) (entries c i) c)
      by (by rewrite list_lookup_imap, Hi).
    cbn [concat]. rewrite fmap_app, entries_keys by (rewrite Forall_lookup in Hok; eauto).
    intros (_ & Hdis & _)%NoDup_app. apply map_eq. intros h. rewrite delete_all_lookup.
    rewrite list_to_map_app. destruct (decide (h ∈ tx_hashes (block i))) as [Hin|Hnin].
    + rewrite decide_True by done. symmetry. apply not_elem_of_list_to_map_1, Hdis. done.
    + rewrite decide_False by done. rewrite lookup_union_r; [done|].
      apply not_elem_of_list_to_map_1. by rewrite entries_keys by (rewrite Forall_lookup in Hok; eauto).
Qed.

(** Removing the transactions of the genesis block, which has none. *)
Lemma clear_genesis c g gb bs s : chain_inv c g gb bs s → Block.transactions gb = [] →
  remove_block_transactions_by_number s 0 = s.
Proof.
  intros [Hn Hh Hg Hhs Hsz Hgb Hbl Hdom Htx Hc] Hgt.
  unfold remove_block_transactions_by_number, remove_block_transactions.
  rewrite Hhs, decide_True by lia. change (chain_hashes g bs !! Z.to_nat 0) with (Some g).
  cbn iota. rewrite Hgb, Hgt. cbn [foldl].
  assert (Block.mk (Block.header gb) [] (Block.ommers gb) = gb) as -> by (destruct gb; simpl in *; by subst).
  destruct s. unfold set_blocks. cbn in *. f_equal. by apply insert_id.
Qed.

(** Removing the transactions of a block that has lost them already. *)
Lemma clear_again c g gb bs s k : chain_inv c g gb bs s → k < c →
  remove_block_transactions_by_number s (Z.of_nat (S k)) = s.
Proof.
  intros [Hn Hh Hg Hhs Hsz Hgb Hbl Hdom Htx Hc] Hk.
  destruct (lookup_lt_is_Some_2 bs k) as [i Hi]; [lia|].
  unfold remove_block_transactions_by_number, remove_block_transactions.
  assert (hashes s !! Z.of_nat (S k) = Some (bhash i)) as ->.
  { rewrite Hhs, decide_True, Nat2Z.id by lia. unfold chain_hashes.
    by rewrite lookup_cons_ne_0, list_lookup_fmap, Nat.pred_succ, Hi by lia. }
  rewrite (Hbl k i Hi), decide_True by lia. cbn [foldl cleared Block.transactions].
  destruct s. unfold set_blocks. cbn in *. f_equal. apply insert_id.
  by rewrite (Hbl k i Hi), decide_True by lia.
Qed.

(** A block is mined; the transactions of more blocks than the keeper asks
    for may be gone before. *)
Lemma store_inv_ge keeper c g gb bs s i e :
  chain_inv c g gb bs s → cut keeper (length bs) ≤ c → Block.transactions gb = [] →
  Forall info_ok (bs ++ [i]) → NoDup (chain_hashes g (bs ++ [i])) → NoDup (all_txs (bs ++ [i])) →
  (Z.of_nat (length bs) < u64_max)%Z →
  chain_inv (Nat.max c (cut keeper (length (bs ++ [i])))) g gb (bs ++ [i]) (store_block e keeper i s).
Proof.
  intros Hinv Hcut Hgt Hok Hnd Hndt Hlt. pose proof (add_inv _ _ _ _ _ _ e Hinv Hok Hnd Hndt Hlt) as Ha.
  pose proof (ci_cut _ _ _ _ _ Hinv) as Hcl.
  destruct keeper as [keeper|]; [|cbn [cut]; by rewrite Nat.max_0_r].
  assert (store_block e (Some keeper) i s =
    (if keeper <? size (blocks (store_block e None i s))
     then remove_block_transactions_by_number (store_block e None i s)
       (saturating_sub (saturating_add_u64 (best_number s) 1) (Z.of_nat keeper))
     else store_block e None i s)) as -> by done.
  rewrite (ci_size _ _ _ _ _ Ha). rewrite length_app in *. cbn [cut length] in *.
  assert (saturating_sub (saturating_add_u64 (best_number s) 1) (Z.of_nat keeper) =
    Z.of_nat (S (length bs) - keeper)) as ->.
  { rewrite (ci_number _ _ _ _ _ Hinv). unfold saturating_sub, saturating_add_u64. lia. }
  destruct (Nat.ltb_spec keeper (S (length bs + 1))) as [Hk|Hk].
  - destruct (decide (keeper ≤ length bs)) as [Hle|Hgt'].
    + replace (S (length bs) - keeper) with (S (length bs - keeper)) by lia.
      destruct (decide (length bs - keeper = c)) as [Heq|Hne].
      * replace (Nat.max c (length bs + 1 - keeper)) with (S c) by lia. rewrite Heq.
        apply clear_inv; [done..|]. rewrite length_app. cbn. lia.
      * rewrite (clear_again _ _ _ _ _ _ Ha) by lia.
        replace (Nat.max c (length bs + 1 - keeper)) with c by lia. done.
    + replace (S (length bs) - keeper) with 0 by lia. change (Z.of_nat 0) with 0%Z.
      rewrite (clear_genesis _ _ _ _ _ Ha Hgt).
      replace (Nat.max c (length bs + 1 - keeper)) with c by lia. done.
  - replace (Nat.max c (length bs + 1 - keeper)) with c by lia. done.
Qed.

Lemma store_inv keeper g gb bs s i e :
  chain_inv (cut keeper (length bs)) g gb bs s → Block.transactions gb = [] →
  Forall info_ok (bs ++ [i]) → NoDup (chain_hashes g (bs ++ [i])) → NoDup (all_txs (bs ++ [i])) →
  (Z.of_nat (length bs) < u64_max)%Z →
  chain_inv (cut keeper (length (bs ++ [i]))) g gb (bs ++ [i]) (store_block e keeper i s).
Proof.
  intros Hinv Hgt Hok Hnd Hndt Hlt.
  assert (cut keeper (length (bs ++ [i])) =
    Nat.max (cut keeper (length bs)) (cut keeper (length (bs ++ [i])))) as ->.
  { rewrite length_app. destruct keeper; cbn; lia. }
  by apply store_inv_ge.
Qed.

Definition store_all (e : bool) (keeper : option nat) bs s : BlockchainStorage.t :=
  foldl (λ s i, store_block e keeper i s) s bs.

Lemma store_all_inv keeper g gb bs' bs s e :
  chain_inv (cut keeper (length bs)) g gb bs s → Block.transactions gb = [] →
  Forall info_ok (bs ++ bs') → NoDup (chain_hashes g (bs ++ bs')) → NoDup (all_txs (bs ++ bs')) →
  (Z.of_nat (length (bs ++ bs')) ≤ u64_max)%Z →
  chain_inv (cut keeper (length (bs ++ bs'))) g gb (bs ++ bs') (store_all e keeper bs' s).
Proof.
  revert bs s. induction bs' as [|i bs' IH]; intros bs s Hinv Hgt Hok Hnd Hndt Hlt.
  { by rewrite app_nil_r. }
  cbn [store_all foldl]. rewrite cons_middle, app_assoc in *. rewrite !length_app in Hlt. simpl in Hlt.
  apply IH; try done; [|rewrite !length_app; simpl; lia].
  apply store_inv; try done; [..|lia].
  - by apply Forall_app in Hok as [? _].
  - unfold chain_hashes in *. rewrite fmap_app, app_comm_cons in Hnd. by apply NoDup_app in Hnd as (? & _ & _).
  - unfold all_txs in *. rewrite fmap_app, concat_app in Hndt. by apply NoDup_app in Hndt as (? & _ & _).
Qed.
End chain.

(** ** The results *)

Section storage.
Context `{BlockCrypto} `{Crypto}.
Implicit Types s : BlockchainStorage.t.

Lemma new_inv keeper SHANGHAI CANCUN PRAGUE env spec_id base_fee timestamp s :
  new SHANGHAI CANCUN PRAGUE env spec_id base_fee timestamp = Some s →
  ∃ gb, chain_inv (cut keeper 0) (genesis_hash s) gb [] s ∧ Block.transactions gb = [].
Proof.
  unfold new. intros (gl & _ & [= <-])%bind_Some. cbn [genesis_hash]. eexists.
  split; [|shelve]. split; cbn [best_number best_hash genesis_hash hashes blocks transactions].
  - done.
  - done.
  - done.
  - intros n. unfold chain_hashes. destruct (decide (n = 0%Z)) as [->|Hne].
    + rewrite lookup_singleton_eq. done.
    + rewrite lookup_singleton_ne by done. destruct (decide (0 ≤ n)%Z); [|done].
      symmetry. apply lookup_ge_None_2. simpl. lia.
  - apply map_size_singleton.
  - apply lookup_singleton_eq.
  - done.
  - intros h [b Hb]. apply lookup_singleton_Some in Hb as [<- _]. left.
  - unfold kept_entries. rewrite imap_nil. by rewrite drop_nil.
  - destruct keeper; simpl; lia.
  Unshelve. done.
Qed.

Lemma elem_of_concat {A} (x : A) (l : list (list A)) : x ∈ concat l ↔ ∃ k y, l !! k = Some y ∧ x ∈ y.
Proof.
  rewrite list_elem_of_In, in_concat. split.
  - intros (y & Hy%list_elem_of_In & Hx%list_elem_of_In).
    apply list_elem_of_lookup in Hy as [k Hk]. eauto.
  - intros (k & y & Hk & Hx). exists y. rewrite <- !list_elem_of_In. split; [|done].
    by eapply list_elem_of_lookup_2.
Qed.

(** Mining.  After any sequence of blocks was mined on a new storage,
    the best block is the last one, every block is found under its number and
    under its hash, the safe and finalized tags are the blocks 32 and 64 before
    (or the genesis block), and a transaction is found exactly if it is in one
    of the last [keeper] blocks (in any block without one), with its receipt and
    the block it is in. *)
Theorem mined_chain SHANGHAI CANCUN PRAGUE env spec_id base_fee timestamp s0 keeper
    (e : bool) (bs : list BlockInfo) :
  new SHANGHAI CANCUN PRAGUE env spec_id base_fee timestamp = Some s0 →
  Forall info_ok bs → NoDup (chain_hashes (genesis_hash s0) bs) → NoDup (all_txs bs) →
  (Z.of_nat (length bs) ≤ u64_max)%Z →
  let s := store_all e keeper bs s0 in
  let n := length bs in
  let hs := chain_hashes (genesis_hash s0) bs in
  best_number s = Z.of_nat n ∧
  hash s Latest = last hs ∧
  (∀ k, hash s (Number (Z.of_nat k)) = hs !! k) ∧
  hash s Safe = hs !! (if decide (32 < n) then n - 32 else 0) ∧
  hash s Finalized = hs !! (if decide (64 < n) then n - 64 else 0) ∧
  (∀ k i, bs !! k = Some i → ∃ b, Blockchain.get_block_by_hash s (bhash i) = Some b ∧
    Block.header b = Block.header (block i) ∧ (cut keeper n ≤ k → b = block i)) ∧
  (∀ h t, Blockchain.get_transaction_by_hash s h = Some t ↔
    ∃ k i, bs !! k = Some i ∧ cut keeper n ≤ k ∧ (h, t) ∈ entries k i).
Proof.
  intros Hnew Hok Hnd Hndt Hlt s n hs.
  destruct (new_inv keeper _ _ _ _ _ _ _ _ Hnew) as (gb & Hinv & Hgb).
  pose proof (store_all_inv keeper _ _ bs [] s0 e Hinv Hgb Hok Hnd Hndt Hlt) as Hs.
  rewrite app_nil_l in Hs. fold s n in Hs. clearbody s.
  destruct Hs as [Hn Hh Hg Hhs _ _ Hbl _ Htx Hc].
  fold hs in Hh, Hhs.
  assert (∀ k, hashes s !! Z.of_nat k = hs !! k) as Hnum.
  { intros k. by rewrite Hhs, decide_True, Nat2Z.id by lia. }
  split_and!; [done|done|exact Hnum| | | |].
  - unfold hash. rewrite Hn, Hg. fold n. destruct (Z.ltb_spec 32 (Z.of_nat n)); [|by rewrite decide_False by lia].
    rewrite decide_True by lia. rewrite <- Hnum. f_equal. lia.
  - unfold hash. rewrite Hn, Hg. fold n. destruct (Z.ltb_spec (32 * 2) (Z.of_nat n)); [|by rewrite decide_False by lia].
    rewrite decide_True by lia. rewrite <- Hnum. f_equal. lia.
  - intros k i Hi. unfold Blockchain.get_block_by_hash. rewrite (Hbl k i Hi). eexists.
    split; [done|]. destruct (decide (k < cut keeper n)); [|done]. split; [done|]. lia.
  - intros h t. unfold Blockchain.get_transaction_by_hash. rewrite Htx.
    rewrite <- elem_of_list_to_map by (by apply kept_nodup).
    unfold kept_entries. rewrite elem_of_concat. split.
    + intros (k & l & Hk & Hin). rewrite lookup_drop, list_lookup_imap in Hk.
      destruct (bs !! (cut keeper n + k)) as [i|] eqn:Hi; [|done]. injection Hk as <-.
      exists (cut keeper n + k), i. split_and!; [done|lia|done].
    + intros (k & i & Hk & Hle & Hin). exists (k - cut keeper n), (entries k i).
      rewrite lookup_drop, list_lookup_imap. replace (cut keeper n + (k - cut keeper n)) with k by lia.
      by rewrite Hk.
Qed.

(** ** Unwinding *)

(** Every stored block is listed under the number in its header. *)
Definition numbered s : Prop := ∀ n h b,
  hashes s !! n = Some h → blocks s !! h = Some b → Header.number (Block.header b) = n.

Lemma unwind_step_spec s n : numbered s →
  numbered (unwind_step s n) ∧ transactions (unwind_step s n) = transactions s ∧
  hashes (unwind_step s n) = delete n (hashes s) ∧ blocks (unwind_step s n) ⊆ blocks s ∧
  (∀ h, hashes s !! n = Some h → blocks (unwind_step s n) !! h = None).
Proof.
  intros Hnum. unfold unwind_step. destruct (hashes s !! n) as [h|] eqn:Hh; cycle 1.
  { split_and!; [done|done|by rewrite delete_id|done|done]. }
  cbn. destruct (blocks s !! h) as [b|] eqn:Hb.
  - unfold remove_block_transactions_by_number. cbn.
    rewrite (Hnum n h b Hh Hb), lookup_delete_eq. cbn. split_and!; [|done|done| |].
    + intros n' h' b'. cbn. intros [_ ?]%lookup_delete_Some [_ ?]%lookup_delete_Some. by apply (Hnum n' h').
    + apply delete_subseteq.
    + intros ? [= <-]. apply lookup_delete_eq.
  - cbn. split_and!; [|done|done|done|].
    + intros n' h' b'. cbn. intros [_ ?]%lookup_delete_Some ?. by apply (Hnum n' h').
    + by intros ? [= <-].
Qed.

Lemma unwind_loop_spec l s : numbered s →
  let s' := foldl unwind_step s l in
  transactions s' = transactions s ∧ blocks s' ⊆ blocks s ∧ hashes s' ⊆ hashes s ∧
  (∀ n, n ∈ l → hashes s' !! n = None ∧ ∀ h, hashes s !! n = Some h → blocks s' !! h = None) ∧
  (∀ n, n ∉ l → hashes s' !! n = hashes s !! n).
Proof.
  revert s. induction l as [|m l IH]; intros s Hnum.
  { split_and!; [done..| |done]. by intros n Hn%not_elem_of_nil. }
  cbn [foldl]. destruct (unwind_step_spec s m Hnum) as (Hnum' & Ht & Hh & Hb & Hb').
  destruct (IH (unwind_step s m) Hnum') as (Ht2 & Hb2 & Hh2 & Hin & Hout).
  split_and!.
  - congruence.
  - by etransitivity.
  - etransitivity; [exact Hh2|]. rewrite Hh. apply delete_subseteq.
  - intros n Hn. split.
    + destruct (decide (n ∈ l)) as [Hl|Hl]; [by apply Hin|]. rewrite Hout by done.
      apply elem_of_cons in Hn as [->|?]; [|done]. by rewrite Hh, lookup_delete_eq.
    + intros h Hs. destruct (decide (n = m)) as [->|Hne].
      * eapply lookup_weaken_None; [|exact Hb2]. auto.
      * apply elem_of_cons in Hn as [->|Hn]; [done|]. apply (Hin n Hn).
        by rewrite Hh, lookup_delete_ne by done.
  - intros n [Hne Hn]%not_elem_of_cons. rewrite Hout, Hh, lookup_delete_ne by done. done.
Qed.

(** Unwinding forgets the blocks but not their transactions.
    [unwind_to] removes every block above the given one and makes that the best
    block, but leaves all the transactions of the removed blocks in the storage:
    it looks a block's number up in [hashes] to remove its transactions after it
    has removed the number. *)
Theorem unwind_keeps_transactions s (n h : Z) :
  numbered s →
  let s' := unwind_to s n h in
  best_number s' = n ∧ best_hash s' = h ∧ transactions s' = transactions s ∧
  (∀ m, (n < m ≤ best_number s)%Z → hash s' (Number m) = None ∧
    ∀ x, hashes s !! m = Some x → Blockchain.get_block_by_hash s' x = None) ∧
  (∀ m, (m ≤ n)%Z → hash s' (Number m) = hash s (Number m)).
Proof.
  intros Hnum. unfold unwind_to.
  destruct (unwind_loop_spec (range (n + 1) (best_number s)) s Hnum) as (Ht & _ & _ & Hin & Hout).
  split_and!; [done|done|done| |].
  - intros m Hm. apply Hin. apply elem_of_seqZ. lia.
  - intros m Hm. apply Hout. unfold range. rewrite elem_of_seqZ. lia.
Qed.

(** ** Dumping and loading *)

Lemma block_roundtrip b : of_serializable_block (to_serializable_block b) = b.
Proof.
  unfold of_serializable_block, to_serializable_block. cbn. rewrite <- list_fmap_compose.
  rewrite (list_fmap_ext _ id) by done. rewrite list_fmap_id. by destruct b.
Qed.

(** The storage has exactly the blocks of [l]. *)
Definition holds_blocks (l : list Block.t) s : Prop :=
  (∀ h b, blocks s !! h = Some b ↔ b ∈ l ∧ hash_slow (Block.header b) = h) ∧
  (∀ n h, hashes s !! n = Some h ↔
    ∃ b, b ∈ l ∧ Header.number (Block.header b) = n ∧ hash_slow (Block.header b) = h).

(** No two blocks share a hash or a number. *)
Definition distinct (l : list Block.t) : Prop := ∀ b b', b ∈ l → b' ∈ l →
  hash_slow (Block.header b) = hash_slow (Block.header b') ∨
  Header.number (Block.header b) = Header.number (Block.header b') → b = b'.

Lemma load_block_holds l b s : holds_blocks l s → distinct (l ++ [b]) →
  holds_blocks (l ++ [b]) (load_block s (to_serializable_block b)).
Proof.
  intros [Hb Hh] Hd. unfold load_block. rewrite block_roundtrip. split; cbn.
  - intros h b'. rewrite lookup_insert_Some, Hb, elem_of_app, list_elem_of_singleton. split.
    + naive_solver.
    + intros [[Hin| ->] <-]; [|by left].
      destruct (decide (hash_slow (Block.header b) = hash_slow (Block.header b'))) as [Heq|Hne];
        [|by right]. left. split; [done|]. apply Hd; [set_solver..|by left].
  - intros n h. rewrite lookup_insert_Some, Hh. setoid_rewrite elem_of_app.
    setoid_rewrite list_elem_of_singleton. split.
    + naive_solver.
    + intros (b' & [Hin| ->] & <- & <-); [|by left].
      destruct (decide (Header.number (Block.header b) = Header.number (Block.header b')))
        as [Heq|Hne]; [|right; split; eauto].
      left. split; [done|]. f_equal. f_equal. apply Hd; [set_solver..|by right].
Qed.

(** A dump of the blocks, loaded into an empty storage, gives the same
    blocks under the same hashes and numbers, whatever order the dump has. *)
Theorem blocks_roundtrip s l order :
  holds_blocks l s → distinct l → Permutation (order (blocks s)) (map_to_list (blocks s)) →
  let s' := load_blocks empty (serialized_blocks order s) in
  blocks s' = blocks s ∧ hashes s' = hashes s.
Proof.
  intros Hl Hd Hperm.
  assert (∀ b, b ∈ (order (blocks s)).*2 ↔ b ∈ l) as Hin.
  { intros b. rewrite Hperm, list_elem_of_fmap. split.
    - intros ([h b'] & -> & Hb%elem_of_map_to_list). by apply (proj1 Hl) in Hb as [? _].
    - intros Hb. exists (hash_slow (Block.header b), b). split; [done|].
      apply elem_of_map_to_list, (proj1 Hl). done. }
  assert (∀ k, (∀ b, b ∈ k → b ∈ l) →
    holds_blocks k (load_blocks empty (to_serializable_block <$> k))) as Hload.
  { intros k. induction k as [|b k IH] using rev_ind; intros Hk.
    - split; cbn; intros; rewrite lookup_empty; set_solver.
    - unfold load_blocks. rewrite fmap_app, foldl_app. cbn [fmap list_fmap foldl].
      apply load_block_holds; [apply IH; set_solver|].
      intros b1 b2 H1 H2. apply Hd; auto. }
  specialize (Hload (order (blocks s)).*2 (λ b, proj1 (Hin b))) as [Hb Hh].
  unfold serialized_blocks. destruct Hl as [Hlb Hlh]. split.
  - apply map_eq. intros h. apply option_eq. intros b. rewrite Hb, Hlb, Hin. done.
  - apply map_eq. intros n. apply option_eq. intros h. rewrite Hh, Hlh. naive_solver.
Qed.
End storage.

(** ** Witnesses *)

(** The hash of a header is its number plus 1000. *)
#[local] Instance sample_block_crypto : BlockCrypto := {
  transactions_root_of _ := 0%Z; receipts_root_of _ := 0%Z;
  hash_slow h := (Header.number h + 1000)%Z;
  EMPTY_OMMER_ROOT_HASH := 0%Z; EMPTY_WITHDRAWALS := 0%Z; EMPTY_REQUESTS_HASH := 0%Z
}.
#[local] Instance sample_crypto : Crypto := {
  recover_signer _ := None; deposit_hash _ := 0%Z; keccak_impersonated _ _ := 0%Z
}.

Definition sample_env : BlockEnv.t := BlockEnv.mk 0 [] 0 30000000 0 0 None None.

(** Block [n] has one transaction, of hash [n]. *)
Definition sample_mined (n : Z) : BlockInfo :=
  mk_block_info
    (Block.new (PartialHeader.mk (n + 999) [] 0 0 0 0 n 30000000 21000 n [] 0 None None None 0 None
       None None)
      [MaybeImpersonatedTransaction.new (Legacy (TxLegacy.mk None 0 1 21000 TxKind_Create 0 [] n))])
    [mk_tx_info n 0 [] None None [] 0 None 0 21000]
    [ReceiptLegacy (mk_receipt true 21000 [] 0)].

Definition sample_genesis : BlockchainStorage.t := default empty (new 9 10 11 sample_env 0 None 0).

Definition sample_chain (keeper : option nat) : BlockchainStorage.t :=
  store_all true keeper (sample_mined <$> [1; 2; 3]%Z) sample_genesis.

Lemma mined_chain_witness :
  hash (sample_chain (Some 2)) Latest = Some 1003%Z ∧
  Blockchain.get_transaction_by_hash (sample_chain (Some 2)) 1 = None ∧
  is_Some (Blockchain.get_transaction_by_hash (sample_chain (Some 2)) 2).
Proof.
  destruct (mined_chain 9 10 11 sample_env 0 None 0 sample_genesis (Some 2) true
    (sample_mined <$> [1; 2; 3]%Z)) as (_ & Hl & _ & _ & _ & _ & Ht).
  - done.
  - repeat constructor.
  - by apply (bool_decide_unpack _).
  - by apply (bool_decide_unpack _).
  - vm_compute. congruence.
  - split_and!; [exact Hl|vm_compute; done|].
    eexists. apply Ht. exists 1, (sample_mined 2). split_and!; [done|done|]. left.
Defined.

Lemma sample_numbered : numbered (sample_chain None).
Proof.
  assert (map_Forall (λ n h, map_Forall (λ h' b, h' = h → Header.number (Block.header b) = n)
    (blocks (sample_chain None))) (hashes (sample_chain None))) as Hall
    by (by apply (bool_decide_unpack _)).
  intros n h b Hn Hb. by apply (Hall n h Hn h b Hb).
Qed.

Lemma unwind_keeps_transactions_witness :
  Blockchain.get_block_by_hash (unwind_to (sample_chain None) 1 1001) 1003 = None ∧
  is_Some (Blockchain.get_transaction_by_hash (unwind_to (sample_chain None) 1 1001) 3).
Proof.
  destruct (unwind_keeps_transactions (sample_chain None) 1 1001 sample_numbered)
    as (_ & _ & Ht & Hb & _).
  split.
  - apply (Hb 3%Z); [vm_compute; split; congruence|done].
  - unfold Blockchain.get_transaction_by_hash. rewrite Ht. by eexists.
Defined.

Definition sample_dump_storage : BlockchainStorage.t :=
  load_block empty (to_serializable_block (block (sample_mined 1))).

Lemma blocks_roundtrip_witness :
  blocks (load_blocks empty (serialized_blocks map_to_list sample_dump_storage)) =
    blocks sample_dump_storage.
Proof.
  apply (blocks_roundtrip sample_dump_storage [block (sample_mined 1)] map_to_list); [| |done].
  - apply (load_block_holds []).
    + split; cbn; intros; rewrite lookup_empty; set_solver.
    + intros b b' ->%list_elem_of_singleton ->%list_elem_of_singleton. done.
  - intros b b' ->%list_elem_of_singleton ->%list_elem_of_singleton. done.
Defined.
