(* ===== verification/Validate.v ===== *)
(** Transaction validation (anvil/src/eth/backend/mem/mod.rs,
    [TransactionValidator for Backend]; anvil/src/eth/error.rs).

    A panic ([U256::to] of a value that does not fit, an overflow with checks
    on) is [None]. *)
From S2P Require Import Prelude Transaction Database Blocks Chain.

(** ** Errors *)

Inductive InvalidTransactionError :=
  | NonceTooLow | NonceTooHigh | NonceMaxValue | InsufficientFundsForTransfer
  | MaxInitCodeSizeExceeded | InsufficientFunds | GasUintOverflow | GasTooLow
  | GasTooHigh | TipAboveFeeCap | FeeCapTooLow | BasicOutOfGas (gas : Z)
  | Revert (data : option Bytes) | SenderNoEOA | InvalidChainId | IncompatibleEIP155
  | AccessListNotSupported | BlobFeeCapTooLow | BlobVersionedHashesNotSupported
  | MaxFeePerBlobGasNotSupported | NoBlobHashes | TooManyBlobs (have : nat)
  | BlobTransactionValidationError | BlobCreateTransaction | BlobVersionNotSupported
  | EmptyBlobs | AuthorizationListNotSupported | Revm.

(** revm's [InvalidTransaction]. *)
Inductive RevmInvalidTransaction :=
  | RInvalidChainId | RPriorityFeeGreaterThanMaxFee | RGasPriceLessThanBasefee
  | RCallerGasLimitMoreThanBlock | RCallGasCostMoreThanGasLimit | RGasFloorMoreThanGasLimit
  | RRejectCallerWithCode | RLackOfFundForMaxFee | ROverflowPaymentInTransaction
  | RNonceOverflowInTransaction | RCreateInitCodeSizeLimit | RNonceTooHigh | RNonceTooLow
  | RAccessListNotSupported | RBlobGasPriceGreaterThanMax | RBlobVersionedHashesNotSupported
  | RMaxFeePerBlobGasNotSupported | RBlobCreateTransaction | RBlobVersionNotSupported
  | REmptyBlobs | RTooManyBlobs (have : nat) | RAuthorizationListNotSupported
  | RAuthorizationListInvalidFields | ROptimismError | REofCrateShouldHaveToAddress
  | REmptyAuthorizationList.

Definition invalid_from_revm (err : RevmInvalidTransaction) : InvalidTransactionError :=
  match err with
  | RInvalidChainId => InvalidChainId
  | RPriorityFeeGreaterThanMaxFee => TipAboveFeeCap
  | RGasPriceLessThanBasefee => FeeCapTooLow
  | RCallerGasLimitMoreThanBlock | RCallGasCostMoreThanGasLimit
  | RGasFloorMoreThanGasLimit => GasTooHigh
  | RRejectCallerWithCode => SenderNoEOA
  | RLackOfFundForMaxFee => InsufficientFunds
  | ROverflowPaymentInTransaction => GasUintOverflow
  | RNonceOverflowInTransaction => NonceMaxValue
  | RCreateInitCodeSizeLimit => MaxInitCodeSizeExceeded
  | RNonceTooHigh => NonceTooHigh
  | RNonceTooLow => NonceTooLow
  | RAccessListNotSupported => AccessListNotSupported
  | RBlobGasPriceGreaterThanMax => BlobFeeCapTooLow
  | RBlobVersionedHashesNotSupported => BlobVersionedHashesNotSupported
  | RMaxFeePerBlobGasNotSupported => MaxFeePerBlobGasNotSupported
  | RBlobCreateTransaction => BlobCreateTransaction
  | RBlobVersionNotSupported => BlobVersionNotSupported
  | REmptyBlobs => EmptyBlobs
  | RTooManyBlobs have => TooManyBlobs have
  | RAuthorizationListNotSupported => AuthorizationListNotSupported
  | RAuthorizationListInvalidFields | ROptimismError | REofCrateShouldHaveToAddress
  | REmptyAuthorizationList => Revm
  end.

(** ** The environment of a transaction *)

(** The fields of [CfgEnvWithHandlerCfg] the code reads. *)
Record CfgEnv := mk_cfg { cfg_chain_id : Z; disable_block_gas_limit : bool;
  disable_base_fee : bool; spec_id : Z; is_optimism : bool }.

Definition MIN_TRANSACTION_GAS : Z := 21000.

Section validate.
Context {B : Type}.
(** Hard forks of revm's [SpecId], and the blob limit and check of alloy. *)
Context (SPURIOUS_DRAGON LONDON CANCUN : Z) (MAX_BLOBS_PER_BLOCK : nat).
Context (validate_blobs : TxEip4844.t → bool) (overflow_checks : bool).

Definition err (e : InvalidTransactionError) : option (result unit InvalidTransactionError) :=
  Some (Err e).

(** The chain id check. *)
Definition check_chain_id (chain_id : Z) (cfg : CfgEnv) (tx : TypedTransaction) :
    result unit InvalidTransactionError :=
  match Typed.chain_id tx with
  | Some tx_chain_id =>
      if (chain_id =? tx_chain_id)%Z then Ok tt
      else
        match tx with
        | Legacy legacy =>
            if (SPURIOUS_DRAGON <=? spec_id cfg)%Z &&
               bool_decide (TxLegacy.chain_id legacy = None)
            then Err IncompatibleEIP155 else Ok tt
        | _ => Err InvalidChainId
        end
  | None => Ok tt
  end.

Definition is_deposit (tx : TypedTransaction) : bool :=
  match tx with Deposit _ => true | _ => false end.

(** The fee checks after London; [None]: the base fee does not fit. *)
Definition check_fees (cfg : CfgEnv) (block : BlockEnv.t) (tx : TypedTransaction) :
    option (result unit InvalidTransactionError) :=
  if (LONDON <=? spec_id cfg)%Z then
    basefee ← to_u128 (BlockEnv.basefee block);
    if (Typed.gas_price tx <? basefee)%Z && negb (is_deposit tx) then err FeeCapTooLow
    else
      let e := Typed.essentials tx in
      match TransactionEssentials.max_priority_fee_per_gas e,
            TransactionEssentials.max_fee_per_gas e with
      | Some max_priority, Some max_fee =>
          if (max_fee <? max_priority)%Z then err TipAboveFeeCap else Some (Ok tt)
      | _, _ => Some (Ok tt)
      end
  else Some (Ok tt).

Definition check_blobs (cfg : CfgEnv) (block : BlockEnv.t) (tx : TypedTransaction) :
    result unit InvalidTransactionError :=
  match tx with
  | EIP4844 t =>
      if (CANCUN <=? spec_id cfg)%Z then
        let too_low :=
          match TransactionEssentials.max_fee_per_blob_gas (Typed.essentials tx),
                BlockEnv.blob_excess_gas_and_price block with
          | Some max_fee, Some (_, blob_gasprice) => (max_fee <? blob_gasprice)%Z
          | _, _ => false
          end in
        let blob_count := length (TxEip4844.blob_versioned_hashes t) in
        if too_low then Err BlobFeeCapTooLow
        else if blob_count =? 0 then Err NoBlobHashes
        else if MAX_BLOBS_PER_BLOCK <? blob_count then Err (TooManyBlobs blob_count)
        else if negb (validate_blobs t) then Err BlobTransactionValidationError
        else Ok tt
      else Ok tt
  | _ => Ok tt
  end.

(** The funds check; [balance + mint] wraps. *)
Definition check_funds (account : AccountInfo B) (tx : TypedTransaction) :
    option (result unit InvalidTransactionError) :=
  max_cost ← Typed.max_cost overflow_checks tx;
  match tx with
  | Deposit deposit_tx =>
      if ((balance account + DepositTransaction.mint deposit_tx) mod 2 ^ 256 <?
          Typed.value tx)%Z
      then err InsufficientFunds else Some (Ok tt)
  | _ =>
      value ← to_u128 (Typed.value tx);
      if (u128_max <? max_cost + value)%Z then err InsufficientFunds
      else if (balance account <? max_cost + value)%Z then err InsufficientFunds
      else Some (Ok tt)
  end.

(** [a?; b] *)
Definition then_check (a b : option (result unit InvalidTransactionError)) :
    option (result unit InvalidTransactionError) :=
  match a with
  | Some (Ok _) => b
  | Some (Err e) => Some (Err e)
  | None => None
  end.

Definition validate_pool_transaction_for (chain_id : Z) (pending : PendingTransaction.t)
    (account : AccountInfo B) (cfg : CfgEnv) (block : BlockEnv.t) :
    option (result unit InvalidTransactionError) :=
  let tx := MaybeImpersonatedTransaction.transaction (PendingTransaction.transaction pending) in
  then_check (Some (check_chain_id chain_id cfg tx))
  (if (Typed.gas_limit tx <? MIN_TRANSACTION_GAS)%Z then err GasTooLow
   else
     then_check
       (if disable_block_gas_limit cfg then Some (Ok tt)
        else
          block_gas_limit ← to_u64 (BlockEnv.gas_limit block);
          if (block_gas_limit <? Typed.gas_limit tx)%Z then err GasTooHigh else Some (Ok tt))
     (if (Typed.nonce tx <? acc_nonce account)%Z && negb (is_deposit tx) then err NonceTooLow
      else
        then_check (check_fees cfg block tx)
        (then_check (Some (check_blobs cfg block tx))
        (check_funds account tx)))).

Definition validate_for (chain_id : Z) (pending : PendingTransaction.t)
    (account : AccountInfo B) (cfg : CfgEnv) (block : BlockEnv.t) :
    option (result unit InvalidTransactionError) :=
  then_check (validate_pool_transaction_for chain_id pending account cfg block)
  (if (acc_nonce account <? PendingTransaction.nonce pending)%Z then err NonceTooHigh
   else Some (Ok tt)).
End validate.

(** * Theorems *)

Section spec.
Context {B : Type}.
Context (SPURIOUS_DRAGON LONDON CANCUN : Z) (MAX_BLOBS_PER_BLOCK : nat).
Context (validate_blobs : TxEip4844.t → bool) (overflow_checks : bool).
Implicit Types (cfg : CfgEnv) (block : BlockEnv.t) (account : AccountInfo B).

(** What makes a transaction executable, independently of the order of the
    checks. *)
Record acceptable (chain_id : Z) (tx : TypedTransaction) account cfg block : Prop := {
  av_chain : Typed.is_legacy tx = false → ∀ c, Typed.chain_id tx = Some c → chain_id = c;
  av_gas_min : (21000 ≤ Typed.gas_limit tx)%Z;
  av_gas_max : disable_block_gas_limit cfg = false →
    (BlockEnv.gas_limit block ≤ u64_max ∧ Typed.gas_limit tx ≤ BlockEnv.gas_limit block)%Z;
  av_nonce : is_deposit tx = false → (acc_nonce account ≤ Typed.nonce tx)%Z;
  av_basefee : (LONDON ≤ spec_id cfg)%Z → (BlockEnv.basefee block ≤ u128_max)%Z ∧
    (is_deposit tx = false → BlockEnv.basefee block ≤ Typed.gas_price tx)%Z;
  av_tip : (LONDON ≤ spec_id cfg)%Z → ∀ tip cap,
    TransactionEssentials.max_priority_fee_per_gas (Typed.essentials tx) = Some tip →
    TransactionEssentials.max_fee_per_gas (Typed.essentials tx) = Some cap → (tip ≤ cap)%Z;
  av_blobs : (CANCUN ≤ spec_id cfg)%Z → ∀ t, tx = EIP4844 t →
    (∀ excess price, BlockEnv.blob_excess_gas_and_price block = Some (excess, price) →
      (price ≤ TxEip4844.max_fee_per_blob_gas t)%Z) ∧
    0 < length (TxEip4844.blob_versioned_hashes t) ≤ MAX_BLOBS_PER_BLOCK ∧
    validate_blobs t = true;
  av_funds : ∃ max_cost, Typed.max_cost overflow_checks tx = Some max_cost ∧
    match tx with
    | Deposit t =>
        (Typed.value tx ≤ (balance account + DepositTransaction.mint t) mod 2 ^ 256)%Z
    | _ => (Typed.value tx ≤ u128_max ∧ max_cost + Typed.value tx ≤ u128_max ∧
        max_cost + Typed.value tx ≤ balance account)%Z
    end
}.

Lemma then_check_ok a b : then_check a b = Some (Ok tt) ↔ a = Some (Ok tt) ∧ b = Some (Ok tt).
Proof. destruct a as [[[]|]|]; simpl; naive_solver. Qed.

Lemma check_chain_id_ok chain_id cfg tx :
  check_chain_id SPURIOUS_DRAGON chain_id cfg tx = Ok tt ↔
  (Typed.is_legacy tx = false → ∀ c, Typed.chain_id tx = Some c → chain_id = c).
Proof.
  unfold check_chain_id. destruct (Typed.chain_id tx) as [c|] eqn:Hc; [|naive_solver].
  destruct (Z.eqb_spec chain_id c) as [->|Hne]; [naive_solver|].
  destruct tx as [t| | | | | ]; simpl in *; try naive_solver.
  subst. rewrite bool_decide_false by congruence. rewrite andb_false_r. naive_solver.
Qed.

Lemma check_fees_ok cfg block tx : check_fees LONDON cfg block tx = Some (Ok tt) ↔
  ((LONDON ≤ spec_id cfg)%Z → (BlockEnv.basefee block ≤ u128_max)%Z ∧
    (is_deposit tx = false → BlockEnv.basefee block ≤ Typed.gas_price tx)%Z) ∧
  ((LONDON ≤ spec_id cfg)%Z → ∀ tip cap,
    TransactionEssentials.max_priority_fee_per_gas (Typed.essentials tx) = Some tip →
    TransactionEssentials.max_fee_per_gas (Typed.essentials tx) = Some cap → (tip ≤ cap)%Z).
Proof.
  unfold check_fees. destruct (Z.leb_spec LONDON (spec_id cfg)) as [Hl|Hl];
    [|split; [|done]; intros _; split; intros; lia].
  unfold to_u128. destruct (Z.leb_spec (BlockEnv.basefee block) u128_max); cbn [mbind option_bind];
    [|split; [done|]; intros [[? _] _]; lia].
  destruct (Z.ltb_spec (Typed.gas_price tx) (BlockEnv.basefee block)), (is_deposit tx);
    cbn [andb negb]; try (split; [done|]; intros [[_ Hb] _]; specialize (Hb eq_refl); lia);
    destruct (TransactionEssentials.max_priority_fee_per_gas _) as [tip|],
      (TransactionEssentials.max_fee_per_gas _) as [cap|]; try destruct (Z.ltb_spec cap tip);
    split; intros Hx; repeat split; intros; simplify_eq; try done; try lia;
    destruct Hx as [_ Hx]; specialize (Hx Hl _ _ eq_refl eq_refl); lia.
Qed.

Lemma check_blobs_ok cfg block tx :
  check_blobs CANCUN MAX_BLOBS_PER_BLOCK validate_blobs cfg block tx = Ok tt ↔
  ((CANCUN ≤ spec_id cfg)%Z → ∀ t, tx = EIP4844 t →
    (∀ excess price, BlockEnv.blob_excess_gas_and_price block = Some (excess, price) →
      (price ≤ TxEip4844.max_fee_per_blob_gas t)%Z) ∧
    0 < length (TxEip4844.blob_versioned_hashes t) ≤ MAX_BLOBS_PER_BLOCK ∧
    validate_blobs t = true).
Proof.
  unfold check_blobs. destruct tx as [| | |t| |]; try (split; [by intros _ _ ?|done]).
  destruct (Z.leb_spec CANCUN (spec_id cfg)) as [Hc|Hc]; [|split; [|done]; intros; lia].
  simpl. set (low := match BlockEnv.blob_excess_gas_and_price block with Some _ => _ | None => _ end).
  assert (low = false ↔ ∀ excess price,
    BlockEnv.blob_excess_gas_and_price block = Some (excess, price) →
    (price ≤ TxEip4844.max_fee_per_blob_gas t)%Z) as Hlow.
  { unfold low. destruct (BlockEnv.blob_excess_gas_and_price block) as [[x p]|]; [|naive_solver].
    rewrite Z.ltb_ge. naive_solver. }
  destruct low.
  { split; [done|]. intros Hx. destruct (Hx Hc t eq_refl) as [Hp _]. by apply Hlow in Hp. }
  destruct (Nat.eqb_spec (length (TxEip4844.blob_versioned_hashes t)) 0).
  { split; [done|]. intros Hx. destruct (Hx Hc t eq_refl) as (_ & ? & _). lia. }
  destruct (Nat.ltb_spec MAX_BLOBS_PER_BLOCK (length (TxEip4844.blob_versioned_hashes t))).
  { split; [done|]. intros Hx. destruct (Hx Hc t eq_refl) as (_ & ? & _). lia. }
  destruct (validate_blobs t) eqn:Hv; simpl.
  - split; [|done]. intros _ _ ? [= <-]. split_and!; [by apply Hlow|lia|lia|done].
  - split; [done|]. intros Hx. destruct (Hx Hc t eq_refl) as (_ & _ & ?). congruence.
Qed.

Lemma check_funds_ok account tx : check_funds overflow_checks account tx = Some (Ok tt) ↔
  ∃ max_cost, Typed.max_cost overflow_checks tx = Some max_cost ∧
    match tx with
    | Deposit t =>
        (Typed.value tx ≤ (balance account + DepositTransaction.mint t) mod 2 ^ 256)%Z
    | _ => (Typed.value tx ≤ u128_max ∧ max_cost + Typed.value tx ≤ u128_max ∧
        max_cost + Typed.value tx ≤ balance account)%Z
    end.
Proof.
  unfold check_funds. destruct (Typed.max_cost overflow_checks tx) as [cost|] eqn:Hc;
    cbn [mbind option_bind]; [|naive_solver].
  transitivity (match tx with
    | Deposit t =>
        (Typed.value tx ≤ (balance account + DepositTransaction.mint t) mod 2 ^ 256)%Z
    | _ => (Typed.value tx ≤ u128_max ∧ cost + Typed.value tx ≤ u128_max ∧
        cost + Typed.value tx ≤ balance account)%Z
    end); [|naive_solver]. clear Hc. unfold to_u128.
  assert (∀ v, (value ← (if (v <=? u128_max)%Z then Some v else None);
    if (u128_max <? cost + value)%Z then err InsufficientFunds
    else if (balance account <? cost + value)%Z then err InsufficientFunds
    else Some (Ok tt)) = Some (Ok tt) ↔
    (v ≤ u128_max ∧ cost + v ≤ u128_max ∧ cost + v ≤ balance account)%Z) as Hv.
  { intros v. destruct (Z.leb_spec v u128_max); cbn [mbind option_bind]; [|split; [done|lia]].
    destruct (Z.ltb_spec u128_max (cost + v)); [split; [done|lia]|].
    destruct (Z.ltb_spec (balance account) (cost + v)); [split; [done|lia]|]. split; [lia|done]. }
  destruct tx as [t|t|t|t|t|t]; try apply Hv.
  destruct (Z.ltb_spec ((balance account + DepositTransaction.mint t) mod 2 ^ 256)
    (Typed.value (Deposit t))); [split; [done|lia]|]. split; [lia|done].
Qed.

(** Validation.  [validate_for] accepts a transaction exactly when it is
    executable on the account: the chain id is this chain's (unless it is a
    legacy transaction), the gas is enough and within the block's limit, the nonce
    is the account's, the fees reach the base fee and the tip does not exceed the
    cap, the blobs are paid for, present and valid, and the balance covers the
    maximal cost and the value. *)
Theorem validate_for_accepts chain_id pending account cfg block :
  let tx := MaybeImpersonatedTransaction.transaction (PendingTransaction.transaction pending) in
  validate_for SPURIOUS_DRAGON LONDON CANCUN MAX_BLOBS_PER_BLOCK validate_blobs overflow_checks
    chain_id pending account cfg block = Some (Ok tt) ↔
  acceptable chain_id tx account cfg block ∧ (Typed.nonce tx ≤ acc_nonce account)%Z.
Proof.
  cbn zeta. unfold validate_for, validate_pool_transaction_for, PendingTransaction.nonce.
  set (tx := MaybeImpersonatedTransaction.transaction _). rewrite !then_check_ok.
  assert (∀ (b : bool) e x, (if b then err e else x) = Some (Ok tt) ↔
    b = false ∧ x = Some (Ok tt)) as Hif by (intros []; naive_solver).
  rewrite !Hif, !then_check_ok, !Hif, !then_check_ok, check_fees_ok, check_funds_ok.
  rewrite !(inj_iff Some), check_chain_id_ok, check_blobs_ok.
  rewrite !Z.ltb_ge, andb_false_iff, Z.ltb_ge, negb_false_iff.
  assert ((if disable_block_gas_limit cfg then Some (Ok tt)
    else block_gas_limit ← to_u64 (BlockEnv.gas_limit block);
      if (block_gas_limit <? Typed.gas_limit tx)%Z then err GasTooHigh else Some (Ok tt))
      = Some (Ok tt) ↔ (disable_block_gas_limit cfg = false →
    (BlockEnv.gas_limit block ≤ u64_max ∧ Typed.gas_limit tx ≤ BlockEnv.gas_limit block)%Z)) as ->.
  { destruct (disable_block_gas_limit cfg); [naive_solver|]. unfold to_u64.
    destruct (Z.leb_spec (BlockEnv.gas_limit block) u64_max); cbn [mbind option_bind];
      [|split; [done|]; intros Hx; specialize (Hx eq_refl); lia].
    rewrite Hif, Z.ltb_ge. naive_solver. }
  split.
  - intros ((? & ? & ? & Hn & (? & ?) & ? & ?) & ?). split; [|tauto]. split; try done.
    intros Hd. destruct Hn; [done|congruence].
  - intros [[] ?]. destruct (is_deposit tx); naive_solver.
Qed.

(** The chain id of a legacy transaction is never checked: whatever
    chain it was signed for, validation gives the same answer on every chain. *)
Theorem legacy_chain_id_ignored chain_id chain_id' (t : TxLegacy.t) sender imp h account cfg block :
  let pending := PendingTransaction.mk (MaybeImpersonatedTransaction.mk (Legacy t) imp) sender h in
  validate_pool_transaction_for SPURIOUS_DRAGON LONDON CANCUN MAX_BLOBS_PER_BLOCK validate_blobs
    overflow_checks chain_id pending account cfg block =
  validate_pool_transaction_for SPURIOUS_DRAGON LONDON CANCUN MAX_BLOBS_PER_BLOCK validate_blobs
    overflow_checks chain_id' pending account cfg block.
Proof.
  cbn zeta. unfold validate_pool_transaction_for. simpl MaybeImpersonatedTransaction.transaction.
  assert (∀ c, check_chain_id SPURIOUS_DRAGON c cfg (Legacy t) = Ok tt) as Hc
    by (intros c; by apply check_chain_id_ok).
  by rewrite !Hc.
Qed.
End spec.
