(* ===== verification/Executor.v ===== *)
(** Executing the transactions of a block
    (anvil/src/eth/backend/executor.rs and [to_revm_tx_env] of
    anvil/core/src/eth/transaction/mod.rs).

    The EVM, the database and the validator are parameters: [transact_commit]
    stands for the EVM the code builds (with its inspector, precompiles and
    handlers) and runs; a panic is [None]. *)
From S2P Require Import Prelude Transaction PoolTx Database Blocks Chain Validate.

(** ** revm's transaction environment *)

Record OptimismFields := mk_optimism { source_hash : option Z; mint : option Z;
  is_system_transaction : option bool; enveloped_tx : option Bytes }.

Module TxEnv.
Record t := mk { caller : Address; transact_to : TxKind; data : Bytes; chain_id : option Z;
  nonce : option Z; value : Z; gas_price : Z; gas_priority_fee : option Z; gas_limit : Z;
  access_list : AccessList; max_fee_per_blob_gas : option Z; blob_hashes : list Z;
  authorization_list : option (list Z); optimism : OptimismFields }.
End TxEnv.

Definition no_optimism : OptimismFields := mk_optimism None None None None.

Definition to_revm_tx_env (pending : PendingTransaction.t) : option TxEnv.t :=
  let caller := PendingTransaction.sender pending in
  match MaybeImpersonatedTransaction.transaction (PendingTransaction.transaction pending) with
  | Legacy t =>
      Some (TxEnv.mk caller (TxLegacy.to t) (TxLegacy.input t) (TxLegacy.chain_id t)
        (Some (TxLegacy.nonce t)) (TxLegacy.value t) (TxLegacy.gas_price t) None
        (TxLegacy.gas_limit t) [] None [] None no_optimism)
  | EIP2930 t =>
      Some (TxEnv.mk caller (TxEip2930.to t) (TxEip2930.input t) (Some (TxEip2930.chain_id t))
        (Some (TxEip2930.nonce t)) (TxEip2930.value t) (TxEip2930.gas_price t) None
        (TxEip2930.gas_limit t) (TxEip2930.access_list t) None [] None no_optimism)
  | EIP1559 t =>
      Some (TxEnv.mk caller (TxEip1559.to t) (TxEip1559.input t) (Some (TxEip1559.chain_id t))
        (Some (TxEip1559.nonce t)) (TxEip1559.value t) (TxEip1559.max_fee_per_gas t)
        (Some (TxEip1559.max_priority_fee_per_gas t)) (TxEip1559.gas_limit t)
        (TxEip1559.access_list t) None [] None no_optimism)
  | EIP4844 t =>
      Some (TxEnv.mk caller (TxKind_Call (TxEip4844.to t)) (TxEip4844.input t)
        (Some (TxEip4844.chain_id t)) (Some (TxEip4844.nonce t)) (TxEip4844.value t)
        (TxEip4844.max_fee_per_gas t) (Some (TxEip4844.max_priority_fee_per_gas t))
        (TxEip4844.gas_limit t) (TxEip4844.access_list t)
        (Some (TxEip4844.max_fee_per_blob_gas t)) (TxEip4844.blob_versioned_hashes t) None
        no_optimism)
  | EIP7702 t =>
      Some (TxEnv.mk caller (TxKind_Call (TxEip7702.to t)) (TxEip7702.input t)
        (Some (TxEip7702.chain_id t)) (Some (TxEip7702.nonce t)) (TxEip7702.value t)
        (TxEip7702.max_fee_per_gas t) (Some (TxEip7702.max_priority_fee_per_gas t))
        (TxEip7702.gas_limit t) (TxEip7702.access_list t) None []
        (Some (TxEip7702.authorization_list t)) no_optimism)
  | Deposit t =>
      mint ← to_u128 (DepositTransaction.mint t);
      Some (TxEnv.mk caller (DepositTransaction.kind t) (DepositTransaction.input t)
        (DepositTransaction.chain_id t) (Some (DepositTransaction.nonce t))
        (DepositTransaction.value t) 0 None (DepositTransaction.gas_limit t) [] None [] None
        (mk_optimism (Some (DepositTransaction.source_hash t)) (Some mint)
          (Some (DepositTransaction.is_system_tx t)) None))
  end.

(** ** What the EVM answers *)

Inductive Output := OutputCall (data : Bytes) | OutputCreate (data : Bytes) (addr : option Address).

Definition into_data (o : Output) : Bytes :=
  match o with OutputCall d | OutputCreate d _ => d end.

(** [ExecutionResult]; a reason is its [InstructionResult] as [u8]. *)
Inductive ExecutionResult :=
  | ExecSuccess (reason gas_used : Z) (logs : list Log) (output : Output)
  | ExecRevert (gas_used : Z) (output : Bytes)
  | ExecHalt (reason gas_used : Z).

Inductive EVMError (E : Type) :=
  | EvmDatabase (e : E)
  | EvmTransaction (e : RevmInvalidTransaction)
  | EvmOther.
Arguments EvmDatabase {E}. Arguments EvmTransaction {E}. Arguments EvmOther {E}.

(** ** Outcomes *)

Module ExecutedTransaction.
Record t := mk { transaction : PoolTransaction.t; exit_reason : Z; out : option Output;
  gas_used : Z; logs : list Log; traces : list CallTraceNode; nonce : Z }.

(** The receipt, and the cumulative gas after the transaction.
    [SELF_DESTRUCT] is the [InstructionResult], [bloom_of] the bloom of
    [ReceiptWithBloom::from]. *)
Definition create_receipt (SELF_DESTRUCT : Z) (bloom_of : list Log → Z) (tx : t)
    (cumulative_gas_used : Z) : TypedReceipt * Z :=
  let cumulative_gas_used := saturating_add_u64 cumulative_gas_used (gas_used tx) in
  let r := mk_receipt (exit_reason tx <=? SELF_DESTRUCT)%Z cumulative_gas_used (logs tx)
    (bloom_of (logs tx)) in
  (match PoolTransaction.typed (transaction tx) with
   | Legacy _ => ReceiptLegacy r
   | EIP2930 _ => ReceiptEIP2930 r
   | EIP1559 _ => ReceiptEIP1559 r
   | EIP4844 _ => ReceiptEIP4844 r
   | EIP7702 _ => ReceiptEIP7702 r
   | Deposit t => ReceiptDeposit (mk_deposit_receipt r (Some (DepositTransaction.nonce t)) (Some 1%Z))
   end, cumulative_gas_used).
End ExecutedTransaction.

Inductive TransactionExecutionOutcome (E : Type) :=
  | Executed (tx : ExecutedTransaction.t)
  | Invalid (tx : PoolTransaction.t) (e : InvalidTransactionError)
  | Exhausted (tx : PoolTransaction.t)
  | BlobGasExhausted (tx : PoolTransaction.t)
  | DatabaseError (tx : PoolTransaction.t) (e : E).
Arguments Executed {E}. Arguments Invalid {E}. Arguments Exhausted {E}.
Arguments BlobGasExhausted {E}. Arguments DatabaseError {E}.

Record ExecutedTransactions := mk_executed { executed_block : BlockInfo;
  included : list PoolTransaction.t; invalid : list PoolTransaction.t }.

(** ** The executor *)

(** What the executor is run with. *)
Class ExecutorEnv (DB B E : Type) := {
  db_basic : DB → Address → DB * result (option (AccountInfo B)) E;
  maybe_state_root : DB → option Z;
  transact_commit : DB → CfgEnv → BlockEnv.t → TxEnv.t →
    DB * result (ExecutionResult * list CallTraceNode) (EVMError E);
  validate_tx : PendingTransaction.t → AccountInfo B → CfgEnv → BlockEnv.t →
    option (result unit InvalidTransactionError);
  (** [alloy_rlp::encode] of the transaction *)
  encode_tx : TypedTransaction → Bytes;
  KECCAK_EMPTY_HASH : Z;
  (** [InstructionResult::Revert] and [InstructionResult::SelfDestruct] *)
  REVERT : Z;
  SELF_DESTRUCT : Z;
  MAX_DATA_GAS_PER_BLOCK : Z;
  (** [BloomInput::Raw] accrued into a bloom, and the bloom of a receipt *)
  accrue : Z → Bytes → Z;
  accrue_topic : Z → Z → Z;
  receipt_bloom : list Log → Z
}.

Section executor.
Context {DB B E : Type} `{ExecutorEnv DB B E}.
Context (LONDON SHANGHAI CANCUN PRAGUE : Z).

Definition env_for (cfg : CfgEnv) (pending : PendingTransaction.t) : option TxEnv.t :=
  tx_env ← to_revm_tx_env pending;
  Some
    (if is_optimism cfg then
       let o := TxEnv.optimism tx_env in
       TxEnv.mk (TxEnv.caller tx_env) (TxEnv.transact_to tx_env) (TxEnv.data tx_env)
         (TxEnv.chain_id tx_env) (TxEnv.nonce tx_env) (TxEnv.value tx_env)
         (TxEnv.gas_price tx_env) (TxEnv.gas_priority_fee tx_env) (TxEnv.gas_limit tx_env)
         (TxEnv.access_list tx_env) (TxEnv.max_fee_per_blob_gas tx_env)
         (TxEnv.blob_hashes tx_env) (TxEnv.authorization_list tx_env)
         (mk_optimism (source_hash o) (mint o) (is_system_transaction o)
           (Some (encode_tx (MaybeImpersonatedTransaction.transaction
             (PendingTransaction.transaction pending)))))
     else tx_env).

(** The mutable part of the executor. *)
Record exec_state := mk_exec { ex_db : DB; ex_gas_used : Z; ex_blob_gas_used : Z }.

(** [next] on a transaction of [pending]. *)
Definition next (cfg : CfgEnv) (block : BlockEnv.t) (st : exec_state) (tx : PoolTransaction.t) :
    option (exec_state * TransactionExecutionOutcome E) :=
  let pending := PoolTransaction.pending_transaction tx in
  let '(db, acc) := db_basic (ex_db st) (PendingTransaction.sender pending) in
  let st := mk_exec db (ex_gas_used st) (ex_blob_gas_used st) in
  match acc with
  | Err e => Some (st, DatabaseError tx e)
  | Ok acc =>
      let account := default (mk_info 0 0 KECCAK_EMPTY_HASH None) acc in
      tx_env ← env_for cfg pending;
      block_gas_limit ←
        (if disable_block_gas_limit cfg then Some 0%Z else to_u64 (BlockEnv.gas_limit block));
      let max_gas := saturating_add_u64 (ex_gas_used st) (TxEnv.gas_limit tx_env) in
      let blob_gas := Typed.blob_gas (PoolTransaction.typed tx) in
      let max_blob_gas := saturating_add_u64 (ex_blob_gas_used st) (default 0%Z blob_gas) in
      if negb (disable_block_gas_limit cfg) && (block_gas_limit <? max_gas)%Z
      then Some (st, Exhausted tx)
      else if (MAX_DATA_GAS_PER_BLOCK <? max_blob_gas)%Z then Some (st, BlobGasExhausted tx)
      else
        match validate_tx pending account cfg block with
        | None => None
        | Some (Err e) => Some (st, Invalid tx e)
        | Some (Ok _) =>
            let '(db, res) := transact_commit db cfg block tx_env in
            let st := mk_exec db (ex_gas_used st) (ex_blob_gas_used st) in
            match res with
            | Err (EvmDatabase e) => Some (st, DatabaseError tx e)
            | Err (EvmTransaction e) => Some (st, Invalid tx (invalid_from_revm e))
            | Err EvmOther => None
            | Ok (exec_result, traces) =>
                let '(exit_reason, gas_used, out, logs) :=
                  match exec_result with
                  | ExecSuccess reason gas_used logs output => (reason, gas_used, Some output, logs)
                  | ExecRevert gas_used output => (REVERT, gas_used, Some (OutputCall output), [])
                  | ExecHalt reason gas_used => (reason, gas_used, None, [])
                  end in
                let st := mk_exec db (saturating_add_u64 (ex_gas_used st) gas_used)
                  (match blob_gas with
                   | Some g => saturating_add_u64 (ex_blob_gas_used st) g
                   | None => ex_blob_gas_used st
                   end) in
                Some (st, Executed (ExecutedTransaction.mk tx exit_reason out gas_used logs traces
                  (acc_nonce account)))
            end
        end
  end.

Definition build_logs_bloom (logs : list Log) (bloom : Z) : Z :=
  foldl (λ bloom log, foldl accrue_topic (accrue bloom (log_address log)) (topics log)) bloom logs.

(** The accumulators of [execute]. *)
Record accum := mk_accum { ac_transactions : list MaybeImpersonatedTransaction.t;
  ac_infos : list TransactionInfo; ac_receipts : list TypedReceipt; ac_bloom : Z;
  ac_gas : Z; ac_blob_gas : option Z; ac_invalid : list PoolTransaction.t;
  ac_included : list PoolTransaction.t }.

(** The body of the loop for an executed transaction. *)
Definition add_executed (is_cancun : bool) (a : accum) (tx : ExecutedTransaction.t) : accum :=
  let t := ExecutedTransaction.transaction tx in
  let pending := PoolTransaction.pending_transaction t in
  let blob_gas :=
    if is_cancun
    then Some (saturating_add_u64 (default 0%Z (ac_blob_gas a))
           (default 0%Z (Typed.blob_gas (PoolTransaction.typed t))))
    else ac_blob_gas a in
  let '(receipt, gas) := ExecutedTransaction.create_receipt SELF_DESTRUCT receipt_bloom tx (ac_gas a) in
  let bloom := build_logs_bloom (ExecutedTransaction.logs tx) (ac_bloom a) in
  let contract_address :=
    match ExecutedTransaction.out tx with Some (OutputCreate _ a) => a | _ => None end in
  let info := mk_tx_info (PoolTransaction.hash t) (Z.of_nat (length (ac_infos a)))
    (PendingTransaction.sender pending)
    (Typed.to (PoolTransaction.typed t)) contract_address (ExecutedTransaction.traces tx)
    (ExecutedTransaction.exit_reason tx) (into_data <$> ExecutedTransaction.out tx)
    (ExecutedTransaction.nonce tx) (ExecutedTransaction.gas_used tx) in
  mk_accum (ac_transactions a ++ [PendingTransaction.transaction pending]) (ac_infos a ++ [info])
    (ac_receipts a ++ [receipt]) bloom gas blob_gas (ac_invalid a) (ac_included a ++ [t]).

Definition add_outcome (is_cancun : bool) (a : accum) (o : TransactionExecutionOutcome E) : accum :=
  match o with
  | Executed tx => add_executed is_cancun a tx
  | Invalid tx _ =>
      mk_accum (ac_transactions a) (ac_infos a) (ac_receipts a) (ac_bloom a) (ac_gas a)
        (ac_blob_gas a) (ac_invalid a ++ [tx]) (ac_included a)
  | Exhausted _ | BlobGasExhausted _ | DatabaseError _ _ => a
  end.

Fixpoint execute_loop (is_cancun : bool) (cfg : CfgEnv) (block : BlockEnv.t)
    (pending : list PoolTransaction.t) (st : exec_state) (a : accum) :
    option (exec_state * accum) :=
  match pending with
  | [] => Some (st, a)
  | tx :: pending =>
      '(st, o) ← next cfg block st tx;
      execute_loop is_cancun cfg block pending st (add_outcome is_cancun a o)
  end.

Definition execute `{BlockCrypto} (cfg : CfgEnv) (block : BlockEnv.t) (parent_hash : Z)
    (pending : list PoolTransaction.t) (db : DB) : option (DB * ExecutedTransactions) :=
  gas_limit ← to_u64 (BlockEnv.gas_limit block);
  block_number ← to_u64 (BlockEnv.number block);
  timestamp ← to_u64 (BlockEnv.timestamp block);
  base_fee ←
    (if (LONDON <=? spec_id cfg)%Z then Some <$> to_u64 (BlockEnv.basefee block) else Some None);
  let is_shanghai := (SHANGHAI <=? spec_id cfg)%Z in
  let is_cancun := (CANCUN <=? spec_id cfg)%Z in
  let is_prague := (PRAGUE <=? spec_id cfg)%Z in
  let excess_blob_gas := if is_cancun then BlockEnv.get_blob_excess_gas block else None in
  '(st, a) ← execute_loop is_cancun cfg block pending (mk_exec db 0 0)
    (mk_accum [] [] [] 0 0 (if is_cancun then Some 0%Z else None) [] []);
  let header := PartialHeader.mk parent_hash (BlockEnv.coinbase block)
    (default 0%Z (maybe_state_root (ex_db st))) (receipts_root_of (ac_receipts a)) (ac_bloom a)
    (BlockEnv.difficulty block) block_number gas_limit (ac_gas a) timestamp [] 0 (ac_blob_gas a)
    excess_blob_gas (BlockchainStorage.then_some is_cancun 0%Z) 0 base_fee
    (BlockchainStorage.then_some is_shanghai EMPTY_WITHDRAWALS)
    (BlockchainStorage.then_some is_prague EMPTY_REQUESTS_HASH) in
  let b := Block.new header (ac_transactions a) in
  Some (ex_db st,
    mk_executed (mk_block_info b (ac_infos a) (ac_receipts a)) (ac_included a) (ac_invalid a)).
End executor.
Arguments exec_state : clear implicits.
