(* ===== verification/ExecutorTheorems.v ===== *)
(** What executing a list of transactions guarantees of the block. *)
From S2P Require Import Prelude Transaction PoolTx Database Blocks Chain ChainTheorems Validate Executor.

Section executor.
Context {DB B E : Type} `{ExecutorEnv DB B E}.
Context (LONDON SHANGHAI CANCUN PRAGUE : Z) (cfg : CfgEnv) (block : BlockEnv.t).
Implicit Types (st : exec_state DB) (a : accum).

Definition result_gas (r : ExecutionResult) : Z :=
  match r with ExecSuccess _ g _ _ | ExecRevert g _ | ExecHalt _ g => g end.

(** What revm documents: a transaction uses at most its gas limit.  The code
    relies on the remaining errors not to happen. *)
Definition evm_ok : Prop := ∀ db tx_env,
  match (transact_commit db cfg block tx_env).2 with
  | Ok (r, _) => (0 ≤ result_gas r ≤ TxEnv.gas_limit tx_env)%Z
  | Err EvmOther => False
  | Err _ => True
  end.

(** Neither the validator nor the conversion to a transaction environment
    panics on the transaction. *)
Definition runnable (tx : PoolTransaction.t) : Prop :=
  is_Some (to_revm_tx_env (PoolTransaction.pending_transaction tx)) ∧
  ∀ acc, is_Some (validate_tx (PoolTransaction.pending_transaction tx) acc cfg block).

Definition pending_tx (t : PoolTransaction.t) : MaybeImpersonatedTransaction.t :=
  PendingTransaction.transaction (PoolTransaction.pending_transaction t).

(** The cumulative gas of the receipts, from the gas of each. *)
Fixpoint running (g : Z) (l : list Z) : list Z :=
  match l with
  | [] => []
  | x :: l => saturating_add_u64 g x :: running (saturating_add_u64 g x) l
  end.

Lemma running_snoc g l x :
  running g (l ++ [x]) = running g l ++ [saturating_add_u64 (foldl saturating_add_u64 g l) x].
Proof. revert g. induction l as [|y l IH]; intros g; [done|]. simpl. by rewrite IH. Qed.

(** The state of the loop once it has handled [done]. *)
Record loop_inv (is_cancun : bool) (done : list PoolTransaction.t) st a : Prop := {
  li_included : sublist (ac_included a) done;
  li_invalid : sublist (ac_invalid a) done;
  li_split : ac_included a ++ ac_invalid a ⊆+ done;
  li_txs : ac_transactions a = pending_tx <$> ac_included a;
  li_hashes : transaction_hash <$> ac_infos a = PoolTransaction.hash <$> ac_included a;
  li_index : ∀ i x, ac_infos a !! i = Some x → transaction_index x = Z.of_nat i;
  li_receipts : cumulative_gas_used <$> ac_receipts a = running 0 (info_gas_used <$> ac_infos a);
  li_gas : ac_gas a = ex_gas_used st;
  li_gas' : ac_gas a = foldl saturating_add_u64 0%Z (info_gas_used <$> ac_infos a);
  li_bound : disable_block_gas_limit cfg = false → (BlockEnv.gas_limit block ≤ u64_max)%Z →
    (ex_gas_used st ≤ Z.max 0 (BlockEnv.gas_limit block))%Z;
  li_blob : ac_blob_gas a = if is_cancun then Some (ex_blob_gas_used st) else None;
  li_blob_bound : (ex_blob_gas_used st ≤ Z.max 0 MAX_DATA_GAS_PER_BLOCK)%Z;
  li_length : length (ac_receipts a) = length (ac_infos a)
}.

Lemma sublist_snoc_r {A} (k l : list A) x : sublist k l → sublist k (l ++ [x]).
Proof. intros Hs. rewrite <- (app_nil_r k). apply sublist_app; [done|constructor; constructor]. Qed.

Lemma sublist_snoc {A} (k l : list A) x : sublist k l → sublist (k ++ [x]) (l ++ [x]).
Proof. intros Hs. by apply sublist_app. Qed.

Lemma env_for_gas p e : env_for cfg p = Some e →
  ∃ e', to_revm_tx_env p = Some e' ∧ TxEnv.gas_limit e = TxEnv.gas_limit e'.
Proof.
  unfold env_for. intros (e' & He & [= <-])%bind_Some. exists e'. split; [done|].
  by destruct (is_optimism cfg).
Qed.

(** One transaction. *)
Definition step_ok st tx st' (o : TransactionExecutionOutcome E) : Prop :=
  match o with
  | Executed x =>
      ExecutedTransaction.transaction x = tx ∧
      ex_gas_used st' = saturating_add_u64 (ex_gas_used st) (ExecutedTransaction.gas_used x) ∧
      ex_blob_gas_used st' = saturating_add_u64 (ex_blob_gas_used st)
        (default 0%Z (Typed.blob_gas (PoolTransaction.typed tx))) ∧
      (disable_block_gas_limit cfg = false → (BlockEnv.gas_limit block ≤ u64_max)%Z →
        (ex_gas_used st' ≤ BlockEnv.gas_limit block)%Z) ∧
      (ex_blob_gas_used st' ≤ MAX_DATA_GAS_PER_BLOCK)%Z
  | Invalid x _ => x = tx ∧ ex_gas_used st' = ex_gas_used st ∧ ex_blob_gas_used st' = ex_blob_gas_used st
  | _ => ex_gas_used st' = ex_gas_used st ∧ ex_blob_gas_used st' = ex_blob_gas_used st
  end.

Lemma executor_next_spec st tx : evm_ok → runnable tx →
  (BlockEnv.gas_limit block ≤ u64_max)%Z → (ex_blob_gas_used st ≤ u64_max)%Z →
  ∃ st' o, next cfg block st tx = Some (st', o) ∧ step_ok st tx st' o.
Proof.
  intros Hevm [[e He] Hval] Hlim Hblob. unfold next.
  destruct (db_basic _ _) as [db [acc|er]]; [|eexists _, _; done].
  assert (∃ e', env_for cfg (PoolTransaction.pending_transaction tx) = Some e') as [e' He'].
  { unfold env_for. rewrite He. cbn [mbind option_bind]. eauto. }
  rewrite He'. cbn [mbind option_bind]. clear e He.
  assert ((if disable_block_gas_limit cfg then Some 0%Z else to_u64 (BlockEnv.gas_limit block)) =
    Some (if disable_block_gas_limit cfg then 0%Z else BlockEnv.gas_limit block)) as ->.
  { unfold to_u64. destruct (disable_block_gas_limit cfg); [done|].
    by apply Z.leb_le in Hlim as ->. }
  cbn [mbind option_bind ex_gas_used ex_blob_gas_used].
  destruct (negb (disable_block_gas_limit cfg) && _) eqn:Hgas; [eexists _, _; done|].
  destruct (Z.ltb_spec MAX_DATA_GAS_PER_BLOCK (saturating_add_u64 (ex_blob_gas_used st)
    (default 0%Z (Typed.blob_gas (PoolTransaction.typed tx))))) as [Hb|Hb]; [eexists _, _; done|].
  set (account := default _ _).
  destruct (Hval account) as [[[]|er] ->];
    [|eexists _, _; done].
  pose proof (Hevm db e') as Hres.
  destruct (transact_commit db cfg block e') as [db' [[r traces]|[er|er|]]];
    [|eexists _, _; done|eexists _, _; done|done].
  simpl in Hres. cbn [ex_gas_used ex_blob_gas_used].
  assert (∀ gas, (0 ≤ gas ≤ TxEnv.gas_limit e')%Z → disable_block_gas_limit cfg = false →
    (saturating_add_u64 (ex_gas_used st) gas ≤ BlockEnv.gas_limit block)%Z) as Hbound.
  { intros gas Hg Hd. rewrite Hd in Hgas. apply Z.ltb_ge in Hgas.
    unfold saturating_add_u64 in *. lia. }
  assert (match Typed.blob_gas (PoolTransaction.typed tx) with
    | Some g => saturating_add_u64 (ex_blob_gas_used st) g
    | None => ex_blob_gas_used st end = saturating_add_u64 (ex_blob_gas_used st)
      (default 0%Z (Typed.blob_gas (PoolTransaction.typed tx)))) as ->.
  { destruct (Typed.blob_gas _); [done|]. simpl. unfold saturating_add_u64. lia. }
  destruct r; eexists _, _; (split; [done|]); simpl in *; split_and!; auto.
Qed.

Lemma add_outcome_inv is_cancun done st a tx st' o :
  loop_inv is_cancun done st a → step_ok st tx st' o →
  loop_inv is_cancun (done ++ [tx]) st' (add_outcome is_cancun a o).
Proof.
  intros [Hi Hv Hs Ht Hh Hx Hr Hg Hg' Hb Hbl Hbb Hl] Ho.
  assert (∀ k : list PoolTransaction.t, k ⊆+ done → k ⊆+ done ++ [tx]) as Hskip.
  { intros k Hk. etransitivity; [exact Hk|]. apply submseteq_inserts_r. reflexivity. }
  destruct o as [x|x e|x|x|x e]; cbn [step_ok add_outcome] in *.
  - destruct Ho as (<- & Hgas & Hblob & Hb1 & Hb2). unfold add_executed.
    destruct (ExecutedTransaction.create_receipt _ _ _ _) as [r g] eqn:Hrec.
    assert (g = saturating_add_u64 (ac_gas a) (ExecutedTransaction.gas_used x) ∧
      cumulative_gas_used r = g) as [-> Hcum].
    { unfold ExecutedTransaction.create_receipt in Hrec. injection Hrec as <- <-.
      split; [done|]. by destruct (PoolTransaction.typed _). }
    split; cbn; rewrite ?fmap_app, ?length_app; cbn [fmap list_fmap length].
    + by apply sublist_snoc.
    + by apply sublist_snoc_r.
    + rewrite <- app_assoc. cbn. rewrite <- Permutation_middle.
      rewrite (Permutation_app_comm done). by apply submseteq_skip.
    + by rewrite Ht.
    + by rewrite Hh.
    + intros i y Hy. apply lookup_snoc_Some in Hy as [[_ Hy]|[-> <-]]; [eauto|done].
    + rewrite running_snoc, Hr, Hcum, <- Hg'. done.
    + congruence.
    + rewrite foldl_app, <- Hg'. done.
    + intros Hd Hlim. specialize (Hb1 Hd Hlim). lia.
    + rewrite Hbl. destruct is_cancun; [|done]. by rewrite Hblob.
    + lia.
    + lia.
  - destruct Ho as (-> & Hgas & Hblob).
    split; cbn; rewrite ?Hgas, ?Hblob; try done; [by apply sublist_snoc_r|by apply sublist_snoc|].
    rewrite app_assoc. rewrite (Permutation_app_comm _ [tx]), (Permutation_app_comm done).
    by apply submseteq_skip.
  - destruct Ho as [Hgas Hblob]. split; rewrite ?Hgas, ?Hblob; auto using sublist_snoc_r.
  - destruct Ho as [Hgas Hblob]. split; rewrite ?Hgas, ?Hblob; auto using sublist_snoc_r.
  - destruct Ho as [Hgas Hblob]. split; rewrite ?Hgas, ?Hblob; auto using sublist_snoc_r.
Qed.

Lemma execute_loop_inv is_cancun done l st a :
  evm_ok → (MAX_DATA_GAS_PER_BLOCK ≤ u64_max)%Z →
  (BlockEnv.gas_limit block ≤ u64_max)%Z → Forall runnable l →
  loop_inv is_cancun done st a →
  ∃ st' a', execute_loop is_cancun cfg block l st a = Some (st', a') ∧
    loop_inv is_cancun (done ++ l) st' a'.
Proof.
  intros Hevm Hmax Hlim Hl. revert done st a.
  induction Hl as [|tx l Htx Hl IH]; intros done st a Hinv; cbn [execute_loop].
  { exists st, a. by rewrite app_nil_r. }
  destruct (executor_next_spec st tx Hevm Htx Hlim) as (st1 & o & -> & Ho).
  { pose proof (li_blob_bound _ _ _ _ Hinv). unfold u64_max in *. lia. }
  cbn [mbind option_bind].
  destruct (IH (done ++ [tx]) st1 (add_outcome is_cancun a o)) as (st2 & a2 & -> & Hinv2).
  { by eapply add_outcome_inv. }
  exists st2, a2. split; [done|]. by rewrite <- app_assoc in Hinv2.
Qed.
End executor.

Lemma start_inv {DB B E} `{ExecutorEnv DB B E} cfg block is_cancun (db : DB) :
  loop_inv cfg block is_cancun [] (mk_exec db 0 0)
    (mk_accum [] [] [] 0 0 (if is_cancun then Some 0%Z else None) [] []).
Proof.
  split; simpl; try done; try lia; constructor.
Qed.

(** The environment of a block fits the header. *)
Definition env_fits (b : BlockEnv.t) : Prop :=
  (BlockEnv.gas_limit b ≤ u64_max ∧ BlockEnv.number b ≤ u64_max ∧
   BlockEnv.timestamp b ≤ u64_max ∧ BlockEnv.basefee b ≤ u64_max)%Z.

Lemma to_u64_fits x : (x ≤ u64_max)%Z → to_u64 x = Some x.
Proof. intros Hx%Z.leb_le. unfold to_u64. by rewrite Hx. Qed.

(** The pool's transactions know the hash of what they wrap. *)
Definition hashed `{Crypto} (tx : PoolTransaction.t) : Prop :=
  PoolTransaction.hash tx = MaybeImpersonatedTransaction.hash (pending_tx tx).

(** What is guaranteed of the outcome [r] of executing [pending]. *)
Record valid_execution {DB B E} `{ExecutorEnv DB B E} `{Crypto} (cfg : CfgEnv) (block : BlockEnv.t)
    (parent : Z) (pending : list PoolTransaction.t) (r : ExecutedTransactions) : Prop := {
  ve_included : sublist (included r) pending;
  ve_invalid : sublist (invalid r) pending;
  ve_split : included r ++ invalid r ⊆+ pending;
  ve_info : info_ok (executed_block r);
  ve_txs : Block.transactions (Blocks.block (executed_block r)) = pending_tx <$> included r;
  ve_index : ∀ i x, info_transactions (executed_block r) !! i = Some x →
    transaction_index x = Z.of_nat i;
  ve_receipts : cumulative_gas_used <$> receipts (executed_block r) =
    running 0 (info_gas_used <$> info_transactions (executed_block r));
  ve_gas : Header.gas_used (Block.header (Blocks.block (executed_block r))) =
    foldl saturating_add_u64 0%Z (info_gas_used <$> info_transactions (executed_block r));
  ve_parent : Header.parent_hash (Block.header (Blocks.block (executed_block r))) = parent;
  ve_number : Header.number (Block.header (Blocks.block (executed_block r))) = BlockEnv.number block;
  ve_timestamp :
    Header.timestamp (Block.header (Blocks.block (executed_block r))) = BlockEnv.timestamp block;
  ve_limit :
    Header.gas_limit (Block.header (Blocks.block (executed_block r))) = BlockEnv.gas_limit block;
  ve_bound : disable_block_gas_limit cfg = false →
    (Header.gas_used (Block.header (Blocks.block (executed_block r))) ≤ BlockEnv.gas_limit block)%Z;
  ve_blob : ∀ g, Header.blob_gas_used (Block.header (Blocks.block (executed_block r))) = Some g →
    (g ≤ MAX_DATA_GAS_PER_BLOCK)%Z
}.

Lemma execute_spec {DB B E} `{ExecutorEnv DB B E} `{BlockCrypto} `{Crypto}
    LONDON SHANGHAI CANCUN PRAGUE (cfg : CfgEnv) (block : BlockEnv.t) (parent : Z)
    (pending : list PoolTransaction.t) (db : DB) :
  evm_ok cfg block → env_fits block → (0 ≤ BlockEnv.gas_limit block)%Z →
  (0 ≤ MAX_DATA_GAS_PER_BLOCK ≤ u64_max)%Z →
  Forall (runnable cfg block) pending → Forall hashed pending →
  ∃ db' r, execute LONDON SHANGHAI CANCUN PRAGUE cfg block parent pending db = Some (db', r) ∧
    valid_execution cfg block parent pending r.
Proof.
  intros Hevm (Hgl & Hnum & Hts & Hbf) Hgl0 Hmax Hrun Hhash. unfold execute.
  rewrite !to_u64_fits by done. cbn [mbind option_bind fmap option_fmap option_map].
  assert (∃ bf, (if (LONDON <=? spec_id cfg)%Z then Some (Some (BlockEnv.basefee block)) else Some None)
    = Some bf) as [bf ->] by (destruct (LONDON <=? spec_id cfg)%Z; eauto).
  cbn [mbind option_bind].
  destruct (execute_loop_inv cfg block (CANCUN <=? spec_id cfg)%Z [] pending (mk_exec db 0 0)
    (mk_accum [] [] [] 0 0 (if (CANCUN <=? spec_id cfg)%Z then Some 0%Z else None) [] []))
    as (st & a & -> & Hinv); [done|lia|done|done|apply start_inv|].
  destruct Hinv as [Hi Hv Hs Ht Hh Hx Hr Hg Hg' Hb Hbl Hbb Hl]. cbn [mbind option_bind].
  eexists _, _. split; [done|]. rewrite app_nil_l in *.
  assert (Forall hashed (ac_included a)) as Hhi.
  { rewrite Forall_forall in *. intros tx Htx. apply Hhash.
    eapply elem_of_submseteq; [exact Htx|]. by apply sublist_submseteq. }
  split; cbn; try done.
  - split; cbn; [|done]. unfold tx_hashes. cbn. rewrite Hh, Ht, <- list_fmap_compose.
    apply list_fmap_ext. intros i tx Htx. rewrite Forall_lookup in Hhi. by apply (Hhi i).
  - intros Hd. rewrite Hg. specialize (Hb Hd Hgl). lia.
  - intros g. rewrite Hbl. destruct (CANCUN <=? spec_id cfg)%Z; [|done]. intros [= <-]. lia.
Qed.


(** ** Witness *)

#[local] Instance sample_block_crypto : BlockCrypto := {
  transactions_root_of _ := 0%Z; receipts_root_of _ := 0%Z;
  hash_slow h := (Header.number h + 1000)%Z;
  EMPTY_OMMER_ROOT_HASH := 0%Z; EMPTY_WITHDRAWALS := 0%Z; EMPTY_REQUESTS_HASH := 0%Z
}.
#[local] Instance sample_crypto : Crypto := {
  recover_signer _ := None; deposit_hash _ := 0%Z; keccak_impersonated _ _ := 0%Z
}.

(** An EVM whose transactions all use 21000 gas, if they have it, on a
    database that knows nobody. *)
#[local] Instance sample_executor : ExecutorEnv unit unit unit := {
  db_basic db _ := (db, Ok None);
  maybe_state_root _ := None;
  transact_commit db _ _ e :=
    (db, if (21000 <=? TxEnv.gas_limit e)%Z
         then Ok (ExecSuccess 1 21000 [] (OutputCall []), [])
         else Err (EvmTransaction RCallGasCostMoreThanGasLimit));
  validate_tx _ _ _ _ := Some (Ok tt);
  encode_tx _ := [];
  KECCAK_EMPTY_HASH := 0%Z; REVERT := 16%Z; SELF_DESTRUCT := 3%Z;
  MAX_DATA_GAS_PER_BLOCK := 786432%Z;
  accrue b _ := b; accrue_topic b _ := b; receipt_bloom _ := 0%Z
}.

Definition sample_pool_tx (gas h : Z) : PoolTransaction.t :=
  PoolTransaction.new (PendingTransaction.mk (MaybeImpersonatedTransaction.new
    (Legacy (TxLegacy.mk None 0 1 gas TxKind_Create 0 [] h))) [] h).

Definition sample_cfg : CfgEnv := mk_cfg 1 false false 20 false.
Definition sample_block_env : BlockEnv.t := BlockEnv.mk 1 [] 12 60000 0 0 None None.

(** Two transfers, one without enough gas and one beyond the block's limit. *)
Definition sample_pending : list PoolTransaction.t :=
  [sample_pool_tx 21000 1; sample_pool_tx 100 2; sample_pool_tx 50000 3; sample_pool_tx 30000 4].

