(* ===== verification/MemBackend.v ===== *)
(** The in-memory backend (anvil/src/eth/backend/mem/mod.rs): mining a block,
    rolling back, and state snapshots, composed of the database, the state
    history, the block storage, the executor, the clock and the fees.

    The backend is not forked off another client.  The database is a parameter
    with the methods the code calls; the alloy fee formulas, the random
    [prevrandao] and the system time are arguments. *)
From S2P Require Import Prelude Transaction PoolTx PendingQueue ReadyQueue Pool Clock Fees Snapshots Database States Blocks Chain Validate Executor.

(** What the backend calls on its database besides executing. *)
Class BackendDb (DB B E StateDb : Type) := {
  current_state : DB → StateDb;
  insert_block_hash : DB → Z → Z → DB;
  snapshot_state : DB → DB * Z;
  revert_state : DB → Z → RevertStateSnapshotAction → DB * bool;
  clear_db : DB → DB;
  put_storage : DB → Z → Z → Z → DB * result unit E;
  put_account : DB → Z → AccountInfo B → DB;
  (** The accounts of a state, if it can list them. *)
  maybe_as_full_db : StateDb → option (list (Z * DbAccount B))
}.

(** The hard forks, and the fee formulas of alloy. *)
Class ChainSpec := {
  LONDON : Z; MERGE : Z; SHANGHAI : Z; CANCUN : Z; PRAGUE : Z;
  calc_next_block_base_fee : Z → Z → Z → Z;
  calc_blob_gasprice : Z → Z;
  calc_excess_blob_gas : Z → Z → Z;
  is_arbitrum : Z → bool;
  (** [BlockEnv::default().blob_excess_gas_and_price] *)
  default_blob_excess_gas_and_price : option (Z * Z);
  (** The year of [DateTime::from_timestamp], [None] when it is out of range. *)
  from_timestamp_year : Z → option Z;
  (** Whether the [node_info!] messages are formatted. *)
  node_info_enabled : bool;
  overflow_checks : bool
}.

Inductive BlockchainError := DataUnavailable | BlockNotFound | DbError.

Module Backend.
Section backend.
Context {DB B E StateDb Snap TempDir PathBuf : Type}.
Context `{ExecutorEnv DB B E} `{BackendDb DB B E StateDb} `{MaybeFullDatabase StateDb Snap}.
Context `{BlockCrypto} `{Crypto} `{ChainSpec}.
Context (build_tmp_dir : option PathBuf → option TempDir).

Record t := mk {
  cfg : CfgEnv;
  block_env : BlockEnv.t;
  storage : BlockchainStorage.t;
  states : InMemoryBlockStates.t StateDb Snap TempDir PathBuf;
  db : DB;
  time : TimeManager.t;
  fees : FeeManager.t;
  active_state_snapshots : gmap Z (Z * Z);
  prune_state_history_config : PruneStateHistoryConfig.t;
  transaction_block_keeper : option nat
}.

Definition is_eip3675 (b : t) : bool := (MERGE <=? spec_id (cfg b))%Z.
Definition base_fee (b : t) : Z := FeeManager.base_fee LONDON (fees b).
Definition excess_blob_gas_and_price (b : t) : option (Z * Z) :=
  FeeManager.excess_blob_gas_and_price CANCUN (fees b).

(** The environment of the next block. *)
Definition mining_env (prevrandao timestamp : Z) (b : t) : CfgEnv * BlockEnv.t :=
  let e := block_env b in
  let c := cfg b in
  let c :=
    if (BlockEnv.basefee e =? 0)%Z
    then mk_cfg (cfg_chain_id c) (disable_block_gas_limit c) true (spec_id c) (is_optimism c)
    else c in
  let block_number := saturating_add_u64 (BlockchainStorage.best_number (storage b)) 1 in
  let number :=
    if is_arbitrum (cfg_chain_id c) then block_number
    else Z.min U256_MAX (BlockEnv.number e + 1) in
  (c, BlockEnv.mk number (BlockEnv.coinbase e) timestamp (BlockEnv.gas_limit e) (base_fee b)
    (BlockEnv.difficulty e) (Some prevrandao) (excess_blob_gas_and_price b)).

(** [set_base_fee] and [set_blob_excess_gas_and_price] for the next block. *)
Definition update_fees (h : Header.t) (f : FeeManager.t) : FeeManager.t :=
  let next_base_fee := FeeManager.get_next_block_base_fee_per_gas LONDON calc_next_block_base_fee f
    (Header.gas_used h) (Header.gas_limit h) (default 0%Z (Header.base_fee_per_gas h)) in
  let next_excess := FeeManager.get_next_block_blob_excess_gas calc_excess_blob_gas f
    (default 0%Z (Header.excess_blob_gas h)) (default 0%Z (Header.blob_gas_used h)) in
  FeeManager.set_blob_excess_gas_and_price (FeeManager.set_base_fee f next_base_fee)
    (next_excess, calc_blob_gasprice next_excess).

(** [utc_from_secs] and the message with the block's time: [to_rfc2822] panics
    for a year before 0. *)
Definition print_block_time (timestamp : Z) : option unit :=
  year ← from_timestamp_year (as_i64 timestamp);
  if node_info_enabled && (year <=? 9999)%Z && (year <? 0)%Z then None else Some tt.

(** [do_mine_block]: the backend, the outcome and the notification (the new
    block's header and hash). *)
Definition do_mine_block (now prevrandao : Z) (pool_transactions : list PoolTransaction.t) (b : t) :
    option (t * MinedBlockOutcome.t * (Header.t * Z)) :=
  let block_number := saturating_add_u64 (BlockchainStorage.best_number (storage b)) 1 in
  let best_hash := BlockchainStorage.best_hash (storage b) in
  states' ←
    (if PruneStateHistoryConfig.is_state_history_supported (prune_state_history_config b)
     then InMemoryBlockStates.insert build_tmp_dir (states b) best_hash (current_state (db b))
     else Some (states b));
  '(time', timestamp) ← TimeManager.next_timestamp overflow_checks now (time b);
  let '(c, e) := mining_env prevrandao timestamp b in
  '(db', executed) ← execute LONDON SHANGHAI CANCUN PRAGUE c e best_hash pool_transactions (db b);
  let info := executed_block executed in
  let h := Block.header (Blocks.block info) in
  let block_hash := hash_slow h in
  let db' := insert_block_hash db' (Header.number h) block_hash in
  let storage' :=
    BlockchainStorage.store_block (is_eip3675 b) (transaction_block_keeper b) info (storage b) in
  let e' := BlockEnv.mk (BlockEnv.number e) (BlockEnv.coinbase e) (BlockEnv.timestamp e)
    (BlockEnv.gas_limit e) (BlockEnv.basefee e) 0 (BlockEnv.prevrandao e)
    (BlockEnv.blob_excess_gas_and_price e) in
  _ ← print_block_time (Header.timestamp h);
  Some (mk c e' storage' states' db' time' (update_fees h (fees b)) (active_state_snapshots b)
      (prune_state_history_config b) (transaction_block_keeper b),
    MinedBlockOutcome.mk block_number (included executed) (invalid executed), (h, block_hash)).

(** ** Rollback and reorg *)

(** The loops that write a state into the database. *)
Fixpoint put_slots (d : DB) (address : Z) (l : list (Z * Z)) : DB * result unit E :=
  match l with
  | [] => (d, Ok tt)
  | (key, value) :: l =>
      match put_storage d address key value with
      | (d, Err e) => (d, Err e)
      | (d, Ok _) => put_slots d address l
      end
  end.

Fixpoint put_accounts (order : gmap Z Z → list (Z * Z)) (d : DB) (l : list (Z * DbAccount B)) :
    DB * result unit E :=
  match l with
  | [] => (d, Ok tt)
  | (address, acc) :: l =>
      match put_slots d address (order (Database.storage acc)) with
      | (d, Err e) => (d, Err e)
      | (d, Ok _) => put_accounts order (put_account d address (info acc)) l
      end
  end.

Definition with_states (b : t) (s : InMemoryBlockStates.t StateDb Snap TempDir PathBuf) : t :=
  mk (cfg b) (block_env b) (storage b) s (db b) (time b) (fees b) (active_state_snapshots b)
    (prune_state_history_config b) (transaction_block_keeper b).

Definition with_db (b : t) (d : DB) : t :=
  mk (cfg b) (block_env b) (storage b) (states b) d (time b) (fees b) (active_state_snapshots b)
    (prune_state_history_config b) (transaction_block_keeper b).

Definition rollback (order : gmap Z Z → list (Z * Z)) (now : Z) (common_block : Block.t) (b : t) :
    option (t * result unit BlockchainError) :=
  let h := Block.header common_block in
  let '(states', state_db) := InMemoryBlockStates.get build_tmp_dir (states b) (hash_slow h) in
  let b := with_states b states' in
  match state_db ≫= maybe_as_full_db with
  | None => Some (b, Err DataUnavailable)
  | Some common_state =>
      let '(d, r) := put_accounts order (clear_db (db b)) common_state in
      let b := with_db b d in
      match r with
      | Err _ => Some (b, Err DbError)
      | Ok _ =>
          let storage' := BlockchainStorage.unwind_to (storage b) (Header.number h) (hash_slow h) in
          let e := block_env b in
          let e' := BlockEnv.mk (Header.number h) (BlockEnv.coinbase e) (Header.timestamp h)
            (Header.gas_limit h) (BlockEnv.basefee e) (Header.difficulty h)
            (Some (Header.mix_hash h)) (BlockEnv.blob_excess_gas_and_price e) in
          timestamp ← to_u64 (BlockEnv.timestamp e');
          Some (mk (cfg b) e' storage' (states b) (db b) (TimeManager.reset now (time b) timestamp)
            (fees b) (active_state_snapshots b) (prune_state_history_config b)
            (transaction_block_keeper b), Ok tt)
      end
  end.

(** The new chain of [reorg]: one block for each of [depth], with the
    transactions given for it; [nows] and [rands] are the times and random
    values of the blocks. *)
Fixpoint mine_reorg (tx_pairs : gmap nat (list PoolTransaction.t)) (i : nat)
    (steps : list (Z * Z)) (b : t) : option t :=
  match steps with
  | [] => Some b
  | (now, rand) :: steps =>
      '(b, _, _) ← do_mine_block now rand (default [] (tx_pairs !! i)) b;
      mine_reorg tx_pairs (S i) steps b
  end.

Definition reorg (order : gmap Z Z → list (Z * Z)) (now : Z) (steps : list (Z * Z))
    (tx_pairs : gmap nat (list PoolTransaction.t)) (common_block : Block.t) (b : t) :
    option (t * result unit BlockchainError) :=
  '(b, r) ← rollback order now common_block b;
  match r with
  | Err e => Some (b, Err e)
  | Ok _ => b ← mine_reorg tx_pairs 0 steps b; Some (b, Ok tt)
  end.

(** ** State snapshots *)

Definition create_state_snapshot (b : t) : t * Z :=
  let num := BlockchainStorage.best_number (storage b) in
  let hash := BlockchainStorage.best_hash (storage b) in
  let '(d, id) := snapshot_state (db b) in
  (mk (cfg b) (block_env b) (storage b) (states b) d (time b) (fees b)
     (<[id := (num, hash)]> (active_state_snapshots b)) (prune_state_history_config b)
     (transaction_block_keeper b), id).

(** A turn of the loop over the blocks newer than the snapshot. *)
Definition revert_block (s : BlockchainStorage.t) (n : Z) : BlockchainStorage.t :=
  match BlockchainStorage.hashes s !! n with
  | Some hash =>
      let s := BlockchainStorage.set_blocks s (BlockchainStorage.blocks s)
        (delete n (BlockchainStorage.hashes s)) (BlockchainStorage.transactions s) in
      match BlockchainStorage.blocks s !! hash with
      | Some block =>
          BlockchainStorage.set_blocks s (delete hash (BlockchainStorage.blocks s))
            (BlockchainStorage.hashes s)
            (foldl (λ txs tx, delete (MaybeImpersonatedTransaction.hash tx) txs)
              (BlockchainStorage.transactions s) (Block.transactions block))
      | None => s
      end
  | None => s
  end.

Definition revert_storage (s : BlockchainStorage.t) (num hash : Z) : BlockchainStorage.t :=
  BlockchainStorage.set_best
    (foldl revert_block s
      (reverse (BlockchainStorage.range (num + 1) (BlockchainStorage.best_number s))))
    num hash.

Definition revert_state_snapshot (now : Z) (id : Z) (b : t) : t * result bool BlockchainError :=
  let block := active_state_snapshots b !! id in
  let b := mk (cfg b) (block_env b) (storage b) (states b) (db b) (time b) (fees b)
    (delete id (active_state_snapshots b)) (prune_state_history_config b)
    (transaction_block_keeper b) in
  let finish b :=
    let '(d, found) := revert_state (db b) id RevertRemove in (with_db b d, Ok found) in
  match block with
  | None => finish b
  | Some (num, hash) =>
      let storage' := revert_storage (storage b) num hash in
      let b := mk (cfg b) (block_env b) storage' (states b) (db b) (time b) (fees b)
        (active_state_snapshots b) (prune_state_history_config b) (transaction_block_keeper b) in
      match Blockchain.get_block_by_hash storage' hash with
      | None => (b, Err BlockNotFound)
      | Some block =>
          let h := Block.header block in
          let e := BlockEnv.mk num (BlockEnv.coinbase (block_env b)) (Header.timestamp h)
            (Header.gas_limit h) (BlockEnv.basefee (block_env b)) (Header.difficulty h)
            (Some (Header.mix_hash h)) default_blob_excess_gas_and_price in
          finish (mk (cfg b) e storage' (states b) (db b)
            (TimeManager.reset now (time b) (Header.timestamp h)) (fees b)
            (active_state_snapshots b) (prune_state_history_config b)
            (transaction_block_keeper b))
      end
  end.
End backend.
Arguments t : clear implicits.
End Backend.
