(* ===== verification/BackendInv.v ===== *)
(** The invariant of the backend: it holds a valid chain. *)
From S2P Require Import Prelude Transaction PoolTx PendingQueue ReadyQueue Pool Clock Fees Snapshots Database States StatesTheorems Blocks Chain ChainTheorems Validate Executor ExecutorTheorems MemBackend.

(** ** Valid chains *)

Section chain.
Context `{BlockCrypto} `{Crypto}.
Implicit Types (i : BlockInfo) (bs : list BlockInfo) (gb : Block.t).

Definition head i : Header.t := Block.header (block i).
Definition headers gb bs : list Header.t := Block.header gb :: (head <$> bs).
Definition block_times gb bs : list Z := Header.timestamp <$> headers gb bs.

(** The blocks [bs] mined on the genesis block [gb]. *)
Record valid_chain gb bs : Prop := {
  vc_genesis : Header.number (Block.header gb) = 0%Z;
  vc_empty : Block.transactions gb = [];
  vc_parent k i : bs !! k = Some i →
    chain_hashes (hash_slow (Block.header gb)) bs !! k = Some (Header.parent_hash (head i));
  vc_number k i : bs !! k = Some i → Header.number (head i) = Z.of_nat (S k);
  vc_times : StronglySorted Z.le (block_times gb bs);
  vc_range : Forall (λ h, is_u64 (Header.timestamp h) ∧ is_u64 (Header.gas_limit h)) (headers gb bs);
  vc_gas : Forall (λ i, (Header.gas_used (head i) ≤ Header.gas_limit (head i))%Z) bs;
  vc_info : Forall info_ok bs;
  vc_txs : NoDup (all_txs bs)
}.

(** Blocks of different numbers have different hashes. *)
Lemma valid_hashes gb bs :
  (∀ x y, hash_slow x = hash_slow y → Header.number x = Header.number y) → valid_chain gb bs →
  NoDup (chain_hashes (hash_slow (Block.header gb)) bs).
Proof.
  intros Hinj Hv.
  assert (∀ k h, chain_hashes (hash_slow (Block.header gb)) bs !! k = Some h →
    ∃ x, h = hash_slow x ∧ Header.number x = Z.of_nat k) as Hnum.
  { intros [|k] h; unfold chain_hashes.
    - intros [= <-]. exists (Block.header gb). split; [done|]. apply Hv.
    - rewrite lookup_cons, list_lookup_fmap.
      intros (i & Hi & ->)%fmap_Some_1.
      exists (head i). split; [done|]. by apply (vc_number _ _ Hv). }
  apply NoDup_alt. intros k k' h Hk Hk'.
  destruct (Hnum k h Hk) as (x & -> & Hx). destruct (Hnum k' _ Hk') as (x' & Heq & Hx').
  apply Hinj in Heq. lia.
Qed.

Lemma sorted_snoc (l : list Z) x :
  StronglySorted Z.le l → Forall (λ y, (y ≤ x)%Z) l → StronglySorted Z.le (l ++ [x]).
Proof.
  induction l as [|y l IH]; intros Hs Hf; [repeat constructor|].
  apply StronglySorted_inv in Hs as [Hs Hy]. apply Forall_cons in Hf as [Hx Hf].
  cbn. constructor; [auto|]. apply Forall_app. split; [done|]. by repeat constructor.
Qed.

Lemma headers_snoc gb bs i : headers gb (bs ++ [i]) = headers gb bs ++ [head i].
Proof. unfold headers. by rewrite fmap_app. Qed.

Lemma times_snoc gb bs i : block_times gb (bs ++ [i]) = block_times gb bs ++ [Header.timestamp (head i)].
Proof. unfold block_times. by rewrite headers_snoc, fmap_app. Qed.

Lemma all_txs_snoc bs i : all_txs (bs ++ [i]) = all_txs bs ++ tx_hashes (block i).
Proof. unfold all_txs. rewrite fmap_app, concat_app. cbn. by rewrite app_nil_r. Qed.

Lemma valid_snoc gb bs i : valid_chain gb bs →
  last (chain_hashes (hash_slow (Block.header gb)) bs) = Some (Header.parent_hash (head i)) →
  Header.number (head i) = Z.of_nat (S (length bs)) →
  Forall (λ t, (t ≤ Header.timestamp (head i))%Z) (block_times gb bs) →
  is_u64 (Header.timestamp (head i)) → is_u64 (Header.gas_limit (head i)) →
  (Header.gas_used (head i) ≤ Header.gas_limit (head i))%Z → info_ok i →
  NoDup (tx_hashes (block i)) → (∀ h, h ∈ tx_hashes (block i) → h ∉ all_txs bs) →
  valid_chain gb (bs ++ [i]).
Proof.
  intros Hv Hp Hn Ht Hu Hl Hg Hi Hnd Hnew. split.
  - apply Hv.
  - apply Hv.
  - intros k j Hk. unfold chain_hashes. rewrite fmap_app, app_comm_cons.
    fold (chain_hashes (hash_slow (Block.header gb)) bs).
    apply lookup_snoc_Some in Hk as [[Hlt Hk]|[-> <-]].
    + rewrite lookup_app_l by (unfold chain_hashes; rewrite length_cons, length_fmap; lia).
      by apply (vc_parent _ _ Hv).
    + rewrite lookup_app_l by (unfold chain_hashes; rewrite length_cons, length_fmap; lia).
      rewrite <- Hp, last_lookup. unfold chain_hashes. by rewrite length_cons, length_fmap.
  - intros k j Hk. apply lookup_snoc_Some in Hk as [[Hlt Hk]|[-> <-]]; [|done].
    by apply (vc_number _ _ Hv).
  - rewrite times_snoc. apply sorted_snoc; [apply Hv|done].
  - rewrite headers_snoc. apply Forall_app. split; [apply Hv|]. by apply Forall_singleton.
  - apply Forall_app. split; [apply Hv|]. by apply Forall_singleton.
  - apply Forall_app. split; [apply Hv|]. by apply Forall_singleton.
  - rewrite all_txs_snoc. apply NoDup_app. split_and!; [apply Hv| |done]. intros h Hh Hin.
    by apply (Hnew h).
Qed.
End chain.

(** ** Reverting to an earlier block *)

Section revert.
Context `{BlockCrypto} `{Crypto}.
Import BlockchainStorage.
Implicit Types (s : BlockchainStorage.t) (bs : list BlockInfo).

Lemma revert_block_best s n h k :
  Backend.revert_block (set_best s n h) k = set_best (Backend.revert_block s k) n h.
Proof.
  unfold Backend.revert_block. cbn. destruct (hashes s !! k) as [x|]; [|done].
  by destruct (blocks s !! x).
Qed.

Lemma revert_blocks_best l s n h :
  foldl Backend.revert_block (set_best s n h) l = set_best (foldl Backend.revert_block s l) n h.
Proof. revert s. induction l as [|k l IH]; intros s; [done|]. cbn. by rewrite revert_block_best, IH. Qed.

(** The transactions of the last block leave the storage with it. *)
Lemma revert_txs c g gb bs i s : chain_inv c g gb (bs ++ [i]) s → Forall info_ok (bs ++ [i]) →
  NoDup (all_txs (bs ++ [i])) →
  foldl (λ txs tx, delete (MaybeImpersonatedTransaction.hash tx) txs) (transactions s)
    (Block.transactions (if decide (length bs < c) then cleared (block i) else block i)) =
  list_to_map (kept_entries (Nat.min c (length bs)) bs).
Proof.
  intros Hinv Hok Hnd. rewrite (ci_txs _ _ _ _ _ Hinv).
  destruct (decide (length bs < c)) as [Hlt|Hge].
  - cbn [cleared Block.transactions foldl]. unfold kept_entries.
    rewrite !drop_ge; rewrite ?length_imap, ?length_app; cbn; first [done|lia].
  - rewrite Nat.min_l, kept_snoc, list_to_map_app by lia. apply map_eq. intros h.
    pose proof (kept_nodup c _ Hok Hnd) as Hk. rewrite kept_snoc, fmap_app in Hk by lia.
    apply Forall_app in Hok as [_ Hi]. rewrite Forall_singleton in Hi. rewrite (entries_keys (length bs) i Hi) in Hk.
    rewrite delete_all_lookup. change (_ <$> Block.transactions (block i)) with (tx_hashes (block i)).
    apply NoDup_app in Hk as (_ & Hdis & _).
    destruct (decide (h ∈ tx_hashes (block i))) as [Hin|Hnin].
    + symmetry. apply not_elem_of_list_to_map_1. intros Hh. by apply (Hdis h).
    + rewrite lookup_union_l; [done|]. apply not_elem_of_list_to_map_1. by rewrite entries_keys.
Qed.

Lemma revert_last c g gb bs i s h : chain_inv c g gb (bs ++ [i]) s → Forall info_ok (bs ++ [i]) →
  NoDup (chain_hashes g (bs ++ [i])) → NoDup (all_txs (bs ++ [i])) →
  last (chain_hashes g bs) = Some h →
  chain_inv (Nat.min c (length bs)) g gb bs
    (set_best (Backend.revert_block s (Z.of_nat (S (length bs)))) (Z.of_nat (length bs)) h).
Proof.
  intros Hinv Hok Hnd Hndt Hlast. pose proof (revert_txs _ _ _ _ _ _ Hinv Hok Hndt) as Htxs.
  destruct Hinv as [Hn Hh Hg Hhs Hsz Hgb Hbl Hdom Htx Hc].
  assert (chain_hashes g (bs ++ [i]) = chain_hashes g bs ++ [bhash i]) as Hch
    by (unfold chain_hashes; by rewrite fmap_app).
  assert (length (chain_hashes g bs) = S (length bs)) as Hlen
    by (unfold chain_hashes; by rewrite length_cons, length_fmap).
  assert ((bs ++ [i]) !! length bs = Some i) as Hi by (by apply list_lookup_middle).
  rewrite Hch in *. apply NoDup_app in Hnd as (_ & Hdis & _).
  assert (bhash i ∉ chain_hashes g bs) as Hnew by (intros Hin; apply (Hdis _ Hin); left).
  unfold Backend.revert_block.
  rewrite Hhs, decide_True, Nat2Z.id, lookup_app_r, Hlen, Nat.sub_diag by lia. cbn [lookup list_lookup].
  cbn [set_blocks blocks hashes transactions]. rewrite (Hbl _ _ Hi), Htxs.
  split; cbn; try done.
  - intros n. destruct (decide (n = Z.of_nat (S (length bs)))) as [->|Hne].
    + rewrite lookup_delete_eq, decide_True, Nat2Z.id by lia. symmetry. apply lookup_ge_None_2. lia.
    + rewrite lookup_delete_ne, Hhs by done. destruct (decide (0 ≤ n)%Z); [|done].
      destruct (decide (Z.to_nat n < S (length bs))); [by rewrite lookup_app_l by lia|].
      rewrite !lookup_ge_None_2; rewrite ?length_app; cbn [length]; first [done|lia].
  - rewrite map_size_delete_Some, Hsz, length_app by (rewrite (Hbl _ _ Hi); eauto). cbn. lia.
  - rewrite lookup_delete_ne; [done|]. intros Heq. apply Hnew. rewrite Heq. left.
  - intros k j Hk. pose proof (lookup_lt_Some _ _ _ Hk) as Hlt. rewrite lookup_delete_ne.
    + rewrite (Hbl k j) by (by rewrite lookup_app_l).
      destruct (decide (k < c)), (decide (k < Nat.min c (length bs))); first [done|lia].
    + intros Heq. apply Hnew. rewrite Heq. right. apply list_elem_of_fmap.
      exists j. split; [done|]. by eapply list_elem_of_lookup_2.
  - intros x [y [Hne Hx]%lookup_delete_Some].
    destruct (elem_of_app (chain_hashes g bs) [bhash i] x) as [He _].
    destruct He as [?| ->%list_elem_of_singleton]; [apply Hdom; eauto|done|done].
  - lia.
Qed.

Lemma range_snoc (a : Z) (n : nat) : (a ≤ Z.of_nat (S n))%Z →
  range a (Z.of_nat (S n)) = range a (Z.of_nat n) ++ [Z.of_nat (S n)].
Proof.
  intros Ha. unfold range. replace (Z.of_nat (S n) - a + 1)%Z with ((Z.of_nat n - a + 1) + 1)%Z by lia.
  rewrite seqZ_app by lia. f_equal. rewrite seqZ_cons by lia. cbn. f_equal. lia.
Qed.

Lemma chain_hashes_take g bs n h : chain_hashes g bs !! n = Some h →
  last (chain_hashes g (take n bs)) = Some h.
Proof.
  intros Hh. pose proof (lookup_lt_Some _ _ _ Hh) as Hn. unfold chain_hashes in *.
  rewrite length_cons, length_fmap in Hn. rewrite last_lookup, length_cons, length_fmap, length_take.
  rewrite Nat.min_l, fmap_take by lia. cbn [pred]. destruct n as [|n]; [done|].
  rewrite lookup_cons in Hh |- *. by rewrite lookup_take_lt by lia.
Qed.

Lemma all_txs_app bs bs' : all_txs (bs ++ bs') = all_txs bs ++ all_txs bs'.
Proof. unfold all_txs. by rewrite fmap_app, concat_app. Qed.

Lemma revert_storage_inv c g gb bs s n h : chain_inv c g gb bs s → Forall info_ok bs →
  NoDup (chain_hashes g bs) → NoDup (all_txs bs) → chain_hashes g bs !! n = Some h →
  chain_inv (Nat.min c n) g gb (take n bs) (Backend.revert_storage s (Z.of_nat n) h).
Proof.
  intros Hinv. unfold Backend.revert_storage. rewrite (ci_number _ _ _ _ _ Hinv). revert c s Hinv.
  induction bs as [|i bs IH] using rev_ind; intros c s Hinv Hok Hnd Hndt Hh.
  all: pose proof (lookup_lt_Some _ _ _ Hh) as Hn; unfold chain_hashes in Hn;
    rewrite length_cons, length_fmap in Hn.
  { destruct n; [|cbn in Hn; lia]. pose proof (ci_cut _ _ _ _ _ Hinv) as Hc.
    cbn in Hc. replace (Nat.min c 0) with c by lia. injection Hh as <-.
    destruct Hinv. split; try done; by rewrite ?take_nil. }
  destruct (decide (n = S (length bs))) as [->|Hne].
  { rewrite length_app, Nat.add_1_r. replace (range _ _) with (@nil Z)
      by (unfold range; by rewrite seqZ_nil by lia).
    pose proof (ci_cut _ _ _ _ _ Hinv) as Hc. rewrite length_app in Hc. cbn in Hc.
    rewrite take_ge, Nat.min_l by (rewrite ?length_app; cbn; lia).
    pose proof (chain_hashes_take _ _ _ _ Hh) as Hl. rewrite take_ge in Hl by (rewrite length_app; cbn; lia).
    destruct Hinv. split; cbn; try done. rewrite length_app. cbn. lia. }
  rewrite length_app, Nat.add_1_r in *. rewrite range_snoc, reverse_snoc by lia. cbn [foldl].
  assert (∃ h', last (chain_hashes g bs) = Some h') as [h' Hh'].
  { destruct (last _) eqn:Hl; [eauto|]. by apply last_None in Hl. }
  pose proof (revert_last _ _ _ _ _ _ _ Hinv Hok Hnd Hndt Hh') as Hrev.
  unfold chain_hashes in Hnd, Hh. rewrite fmap_app, app_comm_cons in Hnd, Hh.
  fold (chain_hashes g bs) in Hnd, Hh. rewrite all_txs_app in Hndt.
  rewrite lookup_app_l in Hh by (unfold chain_hashes; rewrite length_cons, length_fmap; lia).
  apply NoDup_app in Hnd as (Hnd & _ & _). apply NoDup_app in Hndt as (Hndt & _ & _).
  apply Forall_app in Hok as [Hok _]. specialize (IH _ _ Hrev Hok Hnd Hndt Hh).
  rewrite revert_blocks_best, <- Nat.min_assoc, (Nat.min_r (length bs)) in IH by lia.
  rewrite take_app_le by lia. exact IH.
Qed.

Lemma valid_take gb bs n : valid_chain gb bs → valid_chain gb (take n bs).
Proof.
  intros [Hg He Hp Hn Ht Hr Hgas Hi Htx]. rewrite <- (take_drop n bs) in Ht, Hr, Htx.
  split; try done.
  - intros k i Hk. assert (k < length (take n bs)) as Hlt by (by eapply lookup_lt_Some).
    apply lookup_take_Some in Hk as [Hk _]. rewrite <- (Hp k i Hk).
    rewrite <- (take_drop n bs) at 2. unfold chain_hashes. rewrite fmap_app, app_comm_cons.
    rewrite lookup_app_l; [done|]. rewrite length_cons, length_fmap. lia.
  - intros k i Hk. apply lookup_take_Some in Hk as [Hk _]. eauto.
  - unfold block_times, headers in *. rewrite fmap_app, app_comm_cons, fmap_app in Ht.
    by apply StronglySorted_app_1_l in Ht.
  - unfold headers in *. rewrite fmap_app, app_comm_cons in Hr. by apply Forall_app in Hr as [? _].
  - by apply Forall_take.
  - by apply Forall_take.
  - rewrite all_txs_app in Htx. by apply NoDup_app in Htx as (? & _ & _).
Qed.

(** The [n]-th block, found by its hash. *)
Lemma block_at c g gb bs s n h : chain_inv c g gb bs s → chain_hashes g bs !! n = Some h →
  ∃ b, blocks s !! h = Some b ∧ headers gb bs !! n = Some (Block.header b).
Proof.
  intros Hinv. unfold chain_hashes, headers. destruct n as [|k].
  - intros [= <-]. exists gb. split; [apply Hinv|done].
  - rewrite !lookup_cons, !list_lookup_fmap. intros (i & Hi & ->)%fmap_Some_1. rewrite Hi.
    rewrite (ci_blocks _ _ _ _ _ Hinv k i Hi). eexists. split; [done|].
    by destruct (decide (k < c)).
Qed.

Lemma chain_hashes_at g bs n h : chain_hashes g bs !! n = Some h →
  chain_hashes g (take n bs) !! n = Some h.
Proof.
  intros Hh. pose proof (chain_hashes_take _ _ _ _ Hh) as Hl. rewrite last_lookup in Hl.
  pose proof (lookup_lt_Some _ _ _ Hh) as Hn. unfold chain_hashes in *.
  rewrite length_cons, length_fmap in Hn. rewrite length_cons, length_fmap, length_take in Hl.
  cbn [pred] in Hl. by rewrite Nat.min_l in Hl by lia.
Qed.

(** The hash of a block is not among those of the blocks before it. *)
Lemma chain_hashes_later g bs n n' h : NoDup (chain_hashes g bs) → n < n' →
  chain_hashes g bs !! n' = Some h → h ∉ chain_hashes g (take n bs).
Proof.
  intros Hnd Hlt Hh [k Hk]%list_elem_of_lookup_1.
  assert (chain_hashes g bs = chain_hashes g (take n bs) ++ (bhash <$> drop n bs)) as Heq.
  { unfold chain_hashes. by rewrite <- app_comm_cons, <- fmap_app, take_drop. }
  pose proof (lookup_lt_Some _ _ _ Hk) as Hkn.
  assert (length (chain_hashes g (take n bs)) ≤ S n) as Hlen.
  { unfold chain_hashes. rewrite length_cons, length_fmap, length_take. lia. }
  assert (k = n'); [|lia]. apply (NoDup_lookup _ k n' h Hnd); [|exact Hh].
  by rewrite Heq, lookup_app_l.
Qed.

Lemma headers_at gb bs n : n ≤ length bs → headers gb (take n bs) !! n = headers gb bs !! n.
Proof.
  intros Hn. unfold headers. destruct n as [|n]; [done|].
  rewrite !lookup_cons, !list_lookup_fmap, lookup_take_lt by lia. done.
Qed.

Lemma headers_hash gb bs n hd : headers gb bs !! n = Some hd →
  chain_hashes (hash_slow (Block.header gb)) bs !! n = Some (hash_slow hd).
Proof.
  unfold headers, chain_hashes. destruct n as [|n]; [by intros [= <-]|].
  rewrite !lookup_cons, !list_lookup_fmap. by intros (i & -> & ->)%fmap_Some_1.
Qed.

Lemma headers_number gb bs n hd : valid_chain gb bs → headers gb bs !! n = Some hd →
  Header.number hd = Z.of_nat n.
Proof.
  intros Hv. unfold headers. destruct n as [|n]; [intros [= <-]; apply Hv|].
  rewrite lookup_cons, list_lookup_fmap. intros (i & Hi & ->)%fmap_Some_1. by apply (vc_number _ _ Hv).
Qed.

Lemma sorted_last (l : list Z) x : StronglySorted Z.le l → last l = Some x →
  Forall (λ y, (y ≤ x)%Z) l.
Proof.
  induction l as [|y l IH]; [done|]. intros [Hs Hy]%StronglySorted_inv Hl.
  destruct l as [|z l]; [injection Hl as <-; apply Forall_singleton; done|].
  rewrite last_cons_cons in Hl. constructor; [|by apply IH].
  apply (Forall_forall (Z.le y) (z :: l)); [done|]. by apply last_Some_elem_of.
Qed.

(** No block up to the [n]-th is later than it. *)
Lemma times_take gb bs n hd : valid_chain gb bs → headers gb bs !! n = Some hd →
  Forall (λ t, (t ≤ Header.timestamp hd)%Z) (block_times gb (take n bs)).
Proof.
  intros Hv Hh. apply sorted_last; [apply (vc_times _ _ (valid_take _ _ n Hv))|].
  unfold block_times, headers in *. pose proof (lookup_lt_Some _ _ _ Hh) as Hn.
  rewrite length_cons, length_fmap in Hn. rewrite fmap_last, last_lookup, length_cons, length_fmap.
  rewrite length_take, Nat.min_l, fmap_take by lia. cbn [pred]. destruct n as [|n].
  - by injection Hh as <-.
  - rewrite lookup_cons in Hh |- *. by rewrite lookup_take_lt, Hh by lia.
Qed.
End revert.

Lemma reset_wf now st x : time_wf st → is_u64 now → is_u64 x → time_wf (TimeManager.reset now st x).
Proof.
  intros Hwf Hn Hx. split; cbn; [|done|done|apply Hwf].
  unfold is_i128, i128_min, i128_max, is_u64, u64_max in *. lia.
Qed.

(** ** Unwinding to an earlier block *)

Section unwind.
Context `{BlockCrypto} `{Crypto}.
Import BlockchainStorage.
Implicit Types (s : BlockchainStorage.t) (bs : list BlockInfo).

(** A loop that removes the blocks with the numbers [l]. *)
Lemma remove_blocks (f : BlockchainStorage.t → Z → BlockchainStorage.t)
    (P : BlockchainStorage.t → Prop) l s :
  (∀ s m, P s → P (f s m) ∧ hashes (f s m) = delete m (hashes s) ∧
    ∀ x, blocks (f s m) !! x = if decide (hashes s !! m = Some x) then None else blocks s !! x) →
  P s → NoDup l →
  let s' := foldl f s l in
  P s' ∧ (∀ k, hashes s' !! k = if decide (k ∈ l) then None else hashes s !! k) ∧
  (∀ x, blocks s' !! x =
    if decide (Exists (λ m, hashes s !! m = Some x) l) then None else blocks s !! x).
Proof.
  intros Hf. revert s. induction l as [|m l IH]; intros s HP Hnd; [done|].
  apply NoDup_cons in Hnd as [Hm Hnd]. destruct (Hf s m HP) as (HP1 & Hh1 & Hb1).
  destruct (IH _ HP1 Hnd) as (HP2 & Hh2 & Hb2). cbn [foldl]. split_and!; [done|..].
  - intros k. rewrite Hh2, Hh1. destruct (decide (k ∈ l)) as [Hk|Hk].
    { by rewrite decide_True by (by right). }
    destruct (decide (k = m)) as [->|Hne].
    + rewrite lookup_delete_eq. by rewrite decide_True by left.
    + rewrite lookup_delete_ne by done. rewrite decide_False; [done|]. by apply not_elem_of_cons.
  - intros x. rewrite Hb2, Hb1, Hh1.
    assert (Exists (λ m', delete m (hashes s) !! m' = Some x) l ↔
      Exists (λ m', hashes s !! m' = Some x) l) as Hiff.
    { rewrite !Exists_exists. split; intros (k & Hk & Hx); exists k; (split; [done|]).
      - by apply lookup_delete_Some in Hx as [_ ?].
      - rewrite lookup_delete_ne; [done|]. by intros ->. }
    destruct (decide (Exists (λ m', delete m (hashes s) !! m' = Some x) l)) as [He|He].
    { rewrite decide_True; [done|]. right. by apply Hiff. }
    destruct (decide (hashes s !! m = Some x)) as [Hx|Hx].
    + rewrite decide_True; [done|]. by left.
    + rewrite decide_False; [done|]. intros Hc. apply Exists_cons in Hc as [?|?]; [done|]. by apply He, Hiff.
Qed.

(** What unwinding leaves alone: the transactions, the best block and the
    genesis block. *)
Definition unwinds s0 s : Prop :=
  transactions s = transactions s0 ∧ genesis_hash s = genesis_hash s0 ∧
  ∀ n h b, hashes s !! n = Some h → blocks s !! h = Some b → Header.number (Block.header b) = n.

Lemma unwind_step_removes s0 s m : unwinds s0 s →
  unwinds s0 (unwind_step s m) ∧ hashes (unwind_step s m) = delete m (hashes s) ∧
  ∀ x, blocks (unwind_step s m) !! x = if decide (hashes s !! m = Some x) then None else blocks s !! x.
Proof.
  intros (Ht & Hg & Hnum). unfold unwind_step. destruct (hashes s !! m) as [h|] eqn:Hh; cycle 1.
  { split_and!; [done|by rewrite delete_id|done]. }
  cbn. destruct (blocks s !! h) as [b|] eqn:Hb.
  - unfold remove_block_transactions_by_number. cbn.
    rewrite (Hnum m h b Hh Hb), lookup_delete_eq. split; [|split; [done|]].
    + split_and!; [done|done|]. cbn. intros n x y [_ Hn]%lookup_delete_Some [_ Hx]%lookup_delete_Some.
      by apply (Hnum n x).
    + intros x. cbn. destruct (decide (Some h = Some x)) as [[= ->]|Hne]; [apply lookup_delete_eq|].
      apply lookup_delete_ne. congruence.
  - split; [|split; [done|]].
    + split_and!; [done|done|]. cbn. intros n x y [_ Hn]%lookup_delete_Some Hx. by apply (Hnum n x).
    + intros x. cbn. destruct (decide (Some h = Some x)) as [[= ->]|Hne]; done.
Qed.

Lemma revert_block_removes s m :
  hashes (Backend.revert_block s m) = delete m (hashes s) ∧
  ∀ x, blocks (Backend.revert_block s m) !! x =
    if decide (hashes s !! m = Some x) then None else blocks s !! x.
Proof.
  unfold Backend.revert_block. destruct (hashes s !! m) as [h|] eqn:Hh; cycle 1.
  { split; [by rewrite delete_id|done]. }
  cbn. destruct (blocks s !! h) as [b|] eqn:Hb; (split; [done|]); intros x; cbn;
    destruct (decide (Some h = Some x)) as [[= ->]|Hne]; try done.
  - apply lookup_delete_eq.
  - apply lookup_delete_ne. congruence.
Qed.

(** But for the transactions, unwinding to a block is the same as reverting
    to it. *)
Lemma unwind_revert s n h :
  (∀ m x b, hashes s !! m = Some x → blocks s !! x = Some b → Header.number (Block.header b) = m) →
  let u := unwind_to s n h in let r := Backend.revert_storage s n h in
  transactions u = transactions s ∧ hashes u = hashes r ∧ blocks u = blocks r ∧
  genesis_hash u = genesis_hash s ∧ best_number u = n ∧ best_hash u = h.
Proof.
  intros Hnum u r. set (l := range (n + 1) (best_number s)).
  assert (NoDup l) as Hnd by apply NoDup_seqZ.
  destruct (remove_blocks unwind_step (unwinds s) l s) as ((Ht & Hg & _) & Hh & Hb);
    [apply unwind_step_removes|done|done|].
  destruct (remove_blocks Backend.revert_block (λ _, True) (reverse l) s) as (_ & Hh' & Hb');
    [intros s' m _; split; [done|apply revert_block_removes]|done|by rewrite reverse_Permutation|].
  split_and!; [exact Ht| | |exact Hg|done|done].
  - apply map_eq. intros k. unfold u, r, unwind_to, Backend.revert_storage. cbn.
    fold l. rewrite Hh, Hh'. apply decide_ext. by rewrite elem_of_reverse.
  - apply map_eq. intros x. unfold u, r, unwind_to, Backend.revert_storage. cbn.
    fold l. rewrite Hb, Hb'. apply decide_ext. rewrite !Exists_exists. by setoid_rewrite elem_of_reverse.
Qed.

Lemma chain_numbered c gb bs s : chain_inv c (hash_slow (Block.header gb)) gb bs s →
  valid_chain gb bs → ∀ m x b, hashes s !! m = Some x → blocks s !! x = Some b →
  Header.number (Block.header b) = m.
Proof.
  intros Hs Hv m x b Hm Hb. rewrite (ci_hashes _ _ _ _ _ Hs) in Hm.
  destruct (decide (0 ≤ m)%Z) as [Hge|]; [|done].
  destruct (block_at _ _ _ _ _ _ _ Hs Hm) as (b' & Hb' & Hhd). simplify_eq.
  rewrite <- (Z2Nat.id m) by done. by eapply headers_number.
Qed.

Definition set_txs s txs : BlockchainStorage.t := set_blocks s (blocks s) (hashes s) txs.

(** But for the transactions, the unwound storage is that of the chain up to
    the block. *)
Lemma unwind_inv c gb bs s n h : let g := hash_slow (Block.header gb) in
  (∀ x y, hash_slow x = hash_slow y → Header.number x = Header.number y) →
  chain_inv c g gb bs s → valid_chain gb bs → chain_hashes g bs !! n = Some h →
  chain_inv (Nat.min c n) g gb (take n bs)
    (set_txs (unwind_to s (Z.of_nat n) h) (list_to_map (kept_entries (Nat.min c n) (take n bs)))).
Proof.
  intros g Hinj Hs Hv Hh.
  pose proof (revert_storage_inv _ _ _ _ _ n h Hs (vc_info _ _ Hv)
    (valid_hashes _ _ Hinj Hv) (vc_txs _ _ Hv) Hh) as Hr.
  destruct (unwind_revert s (Z.of_nat n) h) as (_ & Hhs & Hbl & Hg & Hn & Hb);
    [by eapply chain_numbered|].
  destruct Hr. split; cbn [set_txs set_blocks best_number best_hash genesis_hash hashes blocks transactions];
    rewrite ?Hhs, ?Hbl, ?Hg, ?Hn, ?Hb; try done. apply Hs.
Qed.
End unwind.

(** ** Mining *)

(** The last second of the year 9999. *)
Definition LAST_SECOND : Z := 253402300799.

(** What the parameters promise: the EVM keeps to gas limits, the base fee of
    alloy is a [u64], chrono has a date for every second up to the year 9999,
    and headers of different numbers have different hashes. *)
Class BackendLaws {DB B E} `{ExecutorEnv DB B E} `{BlockCrypto} `{ChainSpec} : Prop := {
  bl_evm c e : evm_ok c e;
  bl_blob : (0 ≤ MAX_DATA_GAS_PER_BLOCK ≤ u64_max)%Z;
  bl_fee x y z : is_u64 (calc_next_block_base_fee x y z);
  bl_year s : (0 ≤ s ≤ LAST_SECOND)%Z → ∃ y, from_timestamp_year s = Some y ∧ (0 ≤ y)%Z;
  bl_hash x y : hash_slow x = hash_slow y → Header.number x = Header.number y
}.

Section mining.
Context {DB B E StateDb Snap TempDir PathBuf : Type}.
Context `{ExecutorEnv DB B E} `{!BackendDb DB B E StateDb} `{MaybeFullDatabase StateDb Snap}.
Context `{BlockCrypto} `{Crypto} `{ChainSpec}.
Context (build_tmp_dir : option PathBuf → option TempDir).
Implicit Types b : Backend.t DB StateDb Snap TempDir PathBuf.

(** The backend holds the chain [bs] on [gb]. *)
Record backend_inv (gb : Block.t) (bs : list BlockInfo) b : Prop := {
  bi_chain : valid_chain gb bs;
  bi_store : ∃ c, cut (Backend.transaction_block_keeper b) (length bs) ≤ c ∧
    chain_inv c (hash_slow (Block.header gb)) gb bs (Backend.storage b);
  bi_number : BlockEnv.number (Backend.block_env b) = Z.of_nat (length bs);
  bi_gas_limit : is_u64 (BlockEnv.gas_limit (Backend.block_env b));
  bi_cfg : disable_block_gas_limit (Backend.cfg b) = false;
  bi_time : time_wf (Backend.time b);
  bi_last : (TimeManager.last_timestamp (Backend.time b) ≤ LAST_SECOND)%Z;
  bi_past : Forall (λ t, (t ≤ TimeManager.last_timestamp (Backend.time b))%Z) (block_times gb bs);
  bi_fee : is_u64 (FeeManager.base_fee_ (Backend.fees b));
  bi_states : ∃ top lo dk, bounded top lo dk (Backend.states b)
}.

(** What is asked of the next block: a time of day that does not bring the
    clock past the year 9999, and transactions that are new, hashed correctly
    and do not make the validator panic. *)
Record minable (bs : list BlockInfo) (now rand : Z) (txs : list PoolTransaction.t) b : Prop := {
  mb_now : is_u64 now;
  mb_time x : TimeManager.current_call_timestamp overflow_checks now (Backend.time b) = Some x →
    (x ≤ LAST_SECOND)%Z;
  mb_run ts : Forall (runnable (Backend.mining_env rand ts b).1 (Backend.mining_env rand ts b).2) txs;
  mb_hashed : Forall hashed txs;
  mb_nodup : NoDup (PoolTransaction.hash <$> txs);
  mb_new h : h ∈ PoolTransaction.hash <$> txs → h ∉ all_txs bs;
  mb_number : (Z.of_nat (length bs) < u64_max)%Z
}.

Lemma next_timestamp_spec now st : time_wf st → is_u64 now →
  (TimeManager.last_timestamp st < u64_max)%Z →
  ∃ st' x, TimeManager.next_timestamp overflow_checks now st = Some (st', x) ∧
    TimeManager.current_call_timestamp overflow_checks now st = Some x ∧
    time_wf st' ∧ TimeManager.last_timestamp st' = x ∧ is_u64 x ∧
    (TimeManager.last_timestamp st ≤ x)%Z.
Proof.
  intros Hwf Hn Hlt.
  destruct (time_exec_spec overflow_checks (TNext now) st) as (st' & blk & Hx & Hwf' & Hl & Hle);
    [done..|].
  destruct (compute_next_spec overflow_checks now st Hwf Hn Hlt) as (x & o & Hc & Hu & Hge & _).
  cbn [time_exec] in Hx. unfold TimeManager.next_timestamp, TimeManager.current_call_timestamp in *.
  rewrite Hc in *. cbn in *. simplify_eq. eexists _, x. split_and!; done.
Qed.

Lemma mining_env_fits gb bs b rand ts : backend_inv gb bs b → is_u64 ts →
  (Z.of_nat (length bs) < u64_max)%Z →
  let e := (Backend.mining_env rand ts b).2 in
  env_fits e ∧ BlockEnv.number e = Z.of_nat (S (length bs)) ∧ BlockEnv.timestamp e = ts ∧
  BlockEnv.gas_limit e = BlockEnv.gas_limit (Backend.block_env b) ∧
  disable_block_gas_limit (Backend.mining_env rand ts b).1 = false.
Proof.
  intros Hb [_ Hts] Hlen e.
  assert (BlockEnv.number e = Z.of_nat (S (length bs))) as Hnum.
  { unfold e, Backend.mining_env. cbn.
    destruct (bi_store _ _ _ Hb) as (k & _ & Hs).
    rewrite (bi_number _ _ _ Hb), (ci_number _ _ _ _ _ Hs).
    unfold saturating_add_u64. destruct (is_arbitrum _); [lia|]. unfold U256_MAX, u64_max in *. lia. }
  split_and!; [|done|done|done|].
  - split_and!; [apply (bi_gas_limit _ _ _ Hb)|rewrite Hnum; lia|done|].
    unfold e, Backend.mining_env, Backend.base_fee, FeeManager.base_fee. cbn.
    destruct (FeeManager.is_eip1559 _ _); [apply (bi_fee _ _ _ Hb)|done].
  - unfold Backend.mining_env. cbn. destruct (_ =? 0)%Z; apply (bi_cfg _ _ _ Hb).
Qed.

Lemma print_spec `{!BackendLaws} ts : (0 ≤ ts ≤ LAST_SECOND)%Z →
  Backend.print_block_time ts = Some tt.
Proof.
  intros Hts. unfold Backend.print_block_time. rewrite as_i64_small by (unfold LAST_SECOND in *; lia).
  destruct (bl_year ts Hts) as (y & -> & Hy). cbn.
  assert ((y <? 0)%Z = false) as -> by lia. by rewrite andb_false_r.
Qed.

Lemma update_fees_u64 `{!BackendLaws} h f : is_u64 (FeeManager.base_fee_ (Backend.update_fees h f)).
Proof.
  unfold Backend.update_fees, FeeManager.get_next_block_base_fee_per_gas. cbn.
  destruct (_ =? 0)%Z; [by vm_compute|]. apply bl_fee.
Qed.

Lemma executed_hashes c e p txs r : valid_execution c e p txs r → Forall hashed txs →
  tx_hashes (block (executed_block r)) = PoolTransaction.hash <$> included r.
Proof.
  intros Hv Hh. unfold tx_hashes. rewrite (ve_txs _ _ _ _ _ Hv), <- list_fmap_compose.
  apply list_fmap_ext. intros k tx Htx. symmetry. rewrite Forall_forall in Hh. apply Hh.
  eapply elem_of_sublist; [by eapply list_elem_of_lookup_2|apply Hv].
Qed.

(** The executed block extends the chain. *)
Lemma executed_extends gb bs b now rand txs ts c e r : backend_inv gb bs b →
  minable bs now rand txs b → is_u64 ts →
  (TimeManager.last_timestamp (Backend.time b) ≤ ts)%Z →
  Backend.mining_env rand ts b = (c, e) →
  valid_execution c e (BlockchainStorage.best_hash (Backend.storage b)) txs r →
  valid_chain gb (bs ++ [executed_block r]).
Proof.
  intros Hb Hm Hts Hle Henv Hr.
  pose proof (mining_env_fits _ _ _ rand ts Hb Hts (mb_number _ _ _ _ _ Hm)) as He.
  rewrite Henv in He. cbn in He. destruct He as (_ & Hnum & Htime & Hlim & Hdis).
  pose proof (executed_hashes _ _ _ _ _ Hr (mb_hashed _ _ _ _ _ Hm)) as Hhs.
  assert (sublist (PoolTransaction.hash <$> included r) (PoolTransaction.hash <$> txs)) as Hsub
    by apply fmap_sublist, Hr.
  apply valid_snoc; unfold head.
  - apply Hb.
  - rewrite (ve_parent _ _ _ _ _ Hr). destruct (bi_store _ _ _ Hb) as (k & _ & Hs). apply Hs.
  - by rewrite (ve_number _ _ _ _ _ Hr).
  - rewrite (ve_timestamp _ _ _ _ _ Hr), Htime. eapply Forall_impl; [apply (bi_past _ _ _ Hb)|].
    intros t Ht. cbn in *. lia.
  - by rewrite (ve_timestamp _ _ _ _ _ Hr), Htime.
  - rewrite (ve_limit _ _ _ _ _ Hr), Hlim. apply Hb.
  - rewrite (ve_limit _ _ _ _ _ Hr). apply (ve_bound _ _ _ _ _ Hr Hdis).
  - apply Hr.
  - rewrite Hhs. eapply sublist_NoDup; [apply Hm|exact Hsub].
  - intros h. rewrite Hhs. intros Hh. apply (mb_new _ _ _ _ _ Hm). by eapply elem_of_sublist.
Qed.

Lemma states_step b : (∃ top lo dk, bounded top lo dk (Backend.states b)) →
  ∃ m, (if PruneStateHistoryConfig.is_state_history_supported (Backend.prune_state_history_config b)
        then InMemoryBlockStates.insert build_tmp_dir (Backend.states b)
          (BlockchainStorage.best_hash (Backend.storage b)) (current_state (Backend.db b))
        else Some (Backend.states b)) = Some m ∧
    (∃ top lo dk, bounded top lo dk m) ∧
    (PruneStateHistoryConfig.is_state_history_supported (Backend.prune_state_history_config b) = true →
      InMemoryBlockStates.get build_tmp_dir m (BlockchainStorage.best_hash (Backend.storage b)) =
        (m, Some (current_state (Backend.db b)))).
Proof.
  intros (top & lo & dk & Hbd).
  destruct (PruneStateHistoryConfig.is_state_history_supported _); [|naive_solver].
  destruct (insert_bounded build_tmp_dir _ _ _ _ (BlockchainStorage.best_hash (Backend.storage b))
    (current_state (Backend.db b)) Hbd) as (m & Hm & Hbm).
  exists m. split_and!; [done|by eauto|]. intros _.
  unfold InMemoryBlockStates.insert in Hm. apply bind_Some in Hm as (m0 & _ & [= <-]).
  unfold InMemoryBlockStates.get. cbn. by rewrite lookup_insert_eq.
Qed.

(** A new backend holds the chain of the genesis block only. *)
Lemma genesis_inv b env timestamp fee :
  BlockchainStorage.new SHANGHAI CANCUN PRAGUE env (spec_id (Backend.cfg b)) fee timestamp =
    Some (Backend.storage b) →
  is_u64 (BlockEnv.gas_limit env) → BlockEnv.gas_limit (Backend.block_env b) = BlockEnv.gas_limit env →
  BlockEnv.number (Backend.block_env b) = 0%Z → disable_block_gas_limit (Backend.cfg b) = false →
  time_wf (Backend.time b) → TimeManager.last_timestamp (Backend.time b) = timestamp →
  (timestamp ≤ LAST_SECOND)%Z → is_u64 (FeeManager.base_fee_ (Backend.fees b)) →
  (∃ top lo dk, bounded top lo dk (Backend.states b)) →
  ∃ gb, backend_inv gb [] b.
Proof.
  intros Hnew Hgl Hgl' Hn Hcfg Hwf Hl Hts Hfee Hst.
  destruct (new_inv (Backend.transaction_block_keeper b) _ _ _ _ _ _ _ _ Hnew) as (gb & Hs & Hgt).
  unfold BlockchainStorage.new in Hnew. apply bind_Some in Hnew as (gl & Hto & Hnew).
  unfold to_u64 in Hto. case_match; [|done]. injection Hto as <-.
  pose proof (ci_gb _ _ _ _ _ Hs) as Hgb. injection Hnew as Hs0.
  rewrite <- Hs0 in Hgb. cbn [BlockchainStorage.blocks BlockchainStorage.genesis_hash] in Hgb.
  apply lookup_singleton_Some in Hgb as [Hg Hgb].
  assert (BlockchainStorage.genesis_hash (Backend.storage b) = hash_slow (Block.header gb)) as Hgen
    by (rewrite <- Hgb, <- Hs0; done).
  rewrite Hgen in Hs. exists gb. split; try done.
  - split; try done; try (by apply NoDup_nil_2); rewrite <- ?Hgb; try done.
    + repeat constructor.
    + constructor; [|constructor]. cbn. rewrite <- Hl. split; [apply Hwf|done].
  - by exists (cut (Backend.transaction_block_keeper b) 0).
  - by rewrite Hgl'.
  - by rewrite Hl.
  - rewrite Hl, <- Hgb. constructor; [cbn; lia|constructor].
Qed.
End mining.
