(* ===== verification/BackendTheorems.v ===== *)
(** Mining, rolling back and reverting on the whole backend. *)
From S2P Require Import Prelude Transaction PoolTx PendingQueue ReadyQueue Pool Clock Fees Snapshots Database States StatesTheorems Blocks Chain ChainTheorems Validate Executor ExecutorTheorems MemBackend BackendInv.

Section backend.
Context {DB B E StateDb Snap TempDir PathBuf : Type}.
Context `{ExecutorEnv DB B E} `{!BackendDb DB B E StateDb} `{MaybeFullDatabase StateDb Snap}.
Context `{BlockCrypto} `{Crypto} `{ChainSpec}.
Context (build_tmp_dir : option PathBuf → option TempDir).
Implicit Types b : Backend.t DB StateDb Snap TempDir PathBuf.

Lemma mine_block_inv `{!BackendLaws} gb bs now rand txs b :
  backend_inv gb bs b → minable bs now rand txs b →
  ∃ b' i o, Backend.do_mine_block build_tmp_dir now rand txs b =
      Some (b', o, (head i, bhash i)) ∧
    backend_inv gb (bs ++ [i]) b' ∧
    MinedBlockOutcome.block_number o = Header.number (head i) ∧
    tx_hashes (block i) = PoolTransaction.hash <$> MinedBlockOutcome.included o ∧
    MinedBlockOutcome.included o ++ MinedBlockOutcome.invalid o ⊆+ txs ∧
    TimeManager.current_call_timestamp overflow_checks now (Backend.time b) =
      Some (Header.timestamp (head i)) ∧
    (PruneStateHistoryConfig.is_state_history_supported (Backend.prune_state_history_config b) = true →
      InMemoryBlockStates.get build_tmp_dir (Backend.states b')
        (BlockchainStorage.best_hash (Backend.storage b)) =
        (Backend.states b', Some (current_state (Backend.db b)))).
Proof.
  intros Hb Hm. unfold Backend.do_mine_block.
  destruct (states_step build_tmp_dir b (bi_states _ _ _ Hb)) as (m & -> & Hbm & Hget).
  assert (TimeManager.last_timestamp (Backend.time b) < u64_max)%Z as Hlast.
  { pose proof (bi_last _ _ _ Hb). unfold LAST_SECOND, u64_max in *. lia. }
  destruct (next_timestamp_spec now _ (bi_time _ _ _ Hb) (mb_now _ _ _ _ _ Hm) Hlast)
    as (tm & ts & -> & Hcall & Hwf & Hts & Hu & Hge).
  pose proof (mb_time _ _ _ _ _ Hm ts Hcall) as Hmax. cbn [mbind option_bind].
  pose proof (mining_env_fits _ _ _ rand ts Hb Hu (mb_number _ _ _ _ _ Hm)) as He.
  pose proof (mb_run _ _ _ _ _ Hm ts) as Hrun.
  destruct (Backend.mining_env rand ts b) as [c e] eqn:Henv. cbn in He, Hrun.
  destruct He as (Hfit & Hnum & Htime & Hlim & Hdis).
  pose proof (bi_gas_limit _ _ _ Hb) as Hgl. rewrite <- Hlim in Hgl.
  destruct (execute_spec LONDON SHANGHAI CANCUN PRAGUE c e
    (BlockchainStorage.best_hash (Backend.storage b)) txs (Backend.db b)) as (d & r & -> & Hr);
    [apply bl_evm|done|apply Hgl|apply bl_blob|done|apply Hm|].
  assert (valid_chain gb (bs ++ [executed_block r])) as Hv
    by (by apply (executed_extends gb bs b now rand txs ts c e)).
  assert (Header.timestamp (head (executed_block r)) = ts) as Hhts
    by (unfold head; by rewrite (ve_timestamp _ _ _ _ _ Hr)).
  assert (Forall (λ t, (t ≤ ts)%Z) (block_times gb (bs ++ [executed_block r]))) as Hpast.
  { rewrite times_snoc. apply Forall_app. split; [|apply Forall_singleton; lia].
    eapply Forall_impl; [apply (bi_past _ _ _ Hb)|]. intros t Ht. cbn in *. lia. }
  cbn [mbind option_bind].
  rewrite print_spec by (unfold head in Hhts; rewrite Hhts; destruct Hu; done).
  cbn [mbind option_bind]. eexists _, (executed_block r), _. split; [done|]. split.
  { split; cbn; try done.
    - destruct (bi_store _ _ _ Hb) as (k & Hk & Hs). eexists. split; [apply Nat.le_max_r|].
      apply store_inv_ge; [done|done|apply Hv|apply Hv| |apply Hv|apply Hm].
      apply valid_hashes; [apply bl_hash|done].
    - rewrite length_app, Hnum. cbn. lia.
    - by rewrite Hts.
    - rewrite Hts. exact Hpast.
    - apply update_fees_u64. }
  cbn. split_and!.
  - destruct (bi_store _ _ _ Hb) as (k & _ & Hs). rewrite (ci_number _ _ _ _ _ Hs). unfold head, saturating_add_u64.
    rewrite (ve_number _ _ _ _ _ Hr), Hnum. pose proof (mb_number _ _ _ _ _ Hm). lia.
  - apply (executed_hashes _ _ _ _ _ Hr), Hm.
  - apply Hr.
  - by rewrite Hcall, Hhts.
  - done.
Qed.


(** Reverting to a snapshot taken at the [n]-th block of the chain. *)
Lemma revert_inv `{!BackendLaws} gb bs now id n h b :
  backend_inv gb bs b → is_u64 now →
  Backend.active_state_snapshots b !! id = Some (Z.of_nat n, h) →
  chain_hashes (hash_slow (Block.header gb)) bs !! n = Some h →
  ∃ b', Backend.revert_state_snapshot now id b =
      (b', Ok (revert_state (Backend.db b) id RevertRemove).2) ∧
    Backend.db b' = (revert_state (Backend.db b) id RevertRemove).1 ∧
    backend_inv gb (take n bs) b' ∧
    Backend.active_state_snapshots b' = delete id (Backend.active_state_snapshots b).
Proof.
  intros Hb Hnow Hid Hh. unfold Backend.revert_state_snapshot. rewrite Hid. cbn [Backend.storage].
  pose proof (bi_chain _ _ _ Hb) as Hv. destruct (bi_store _ _ _ Hb) as (c & Hc & Hs).
  pose proof (lookup_lt_Some _ _ _ Hh) as Hn. unfold chain_hashes in Hn.
  rewrite length_cons, length_fmap in Hn.
  pose proof (revert_storage_inv _ _ _ _ _ n h Hs (vc_info _ _ Hv)
    (valid_hashes _ _ bl_hash Hv) (vc_txs _ _ Hv) Hh) as Hs'.
  destruct (block_at _ _ _ _ _ n h Hs' (chain_hashes_at _ _ _ _ Hh)) as (blk & Hblk & Hhd).
  unfold Blockchain.get_block_by_hash. rewrite Hblk.
  rewrite headers_at in Hhd by lia.
  pose proof (vc_range _ _ Hv) as Hr. rewrite Forall_lookup in Hr. destruct (Hr n _ Hhd) as [Hts Hgl].
  pose proof (times_take _ _ _ _ Hv Hhd) as Hpast.
  assert (Header.timestamp (Block.header blk) ≤ LAST_SECOND)%Z as Hlast.
  { etransitivity; [|apply (bi_last _ _ _ Hb)]. pose proof (bi_past _ _ _ Hb) as Hp.
    rewrite Forall_lookup in Hp. apply (Hp n). unfold block_times. by rewrite list_lookup_fmap, Hhd. }
  destruct (revert_state (Backend.db b) id RevertRemove) as [d found] eqn:Hdb. cbn. rewrite Hdb.
  eexists. split_and!; [done|done| |done]. split; cbn; try done.
  - by apply valid_take.
  - exists (Nat.min c n). split; [|done]. rewrite length_take, Nat.min_l by lia.
    destruct (Backend.transaction_block_keeper b); cbn in *; lia.
  - rewrite length_take. lia.
  - apply (bi_cfg _ _ _ Hb).
  - apply reset_wf; [apply (bi_time _ _ _ Hb)|done|done].
  - apply (bi_fee _ _ _ Hb).
  - apply (bi_states _ _ _ Hb).
Qed.

Lemma create_inv gb bs b : backend_inv gb bs b → backend_inv gb bs (Backend.create_state_snapshot b).1.
Proof.
  unfold Backend.create_state_snapshot. intros [].
  destruct (snapshot_state (Backend.db b)) as [d id]. by split.
Qed.

(** Snapshots.  A snapshot of a backend that holds a valid chain leaves
    the chain as it is.  Whatever is mined after it, reverting to it succeeds
    as far as the database has the snapshot, and brings back exactly the chain
    of the snapshot: the newer blocks and their transactions are gone, the
    next block has the number after the snapshot's block, and the clock starts
    again at its timestamp.  A snapshot can be used once. *)
Theorem snapshot_revert_restores `{!BackendLaws} gb bs b b1 id :
  backend_inv gb bs b → Backend.create_state_snapshot b = (b1, id) →
  backend_inv gb bs b1 ∧
  ∀ bs' b2 now, backend_inv gb (bs ++ bs') b2 → is_u64 now →
    Backend.active_state_snapshots b2 !! id = Backend.active_state_snapshots b1 !! id →
    ∃ b3, Backend.revert_state_snapshot now id b2 =
        (b3, Ok (revert_state (Backend.db b2) id RevertRemove).2) ∧
      Backend.db b3 = (revert_state (Backend.db b2) id RevertRemove).1 ∧
      backend_inv gb bs b3 ∧
      Backend.active_state_snapshots b3 !! id = None.
Proof.
  intros Hb Hc. pose proof (create_inv _ _ _ Hb) as Hb1. rewrite Hc in Hb1. split; [exact Hb1|].
  unfold Backend.create_state_snapshot in Hc.
  destruct (snapshot_state (Backend.db b)) as [d id'] eqn:Hd. simplify_eq.
  intros bs' b2 now Hb2 Hnow Hact.
  cbn in Hact. rewrite lookup_insert_eq in Hact. destruct (bi_store _ _ _ Hb) as (c & _ & Hs).
  rewrite (ci_number _ _ _ _ _ Hs) in Hact.
  destruct (revert_inv gb (bs ++ bs') now id (length bs)
    (BlockchainStorage.best_hash (Backend.storage b)) b2)
    as (b3 & Hr & Hdb & Hb3 & Hact3); [done|done|done| |].
  { pose proof (ci_hash _ _ _ _ _ Hs) as Hl. rewrite last_lookup in Hl. unfold chain_hashes in *.
    rewrite length_cons, length_fmap in Hl. rewrite fmap_app, app_comm_cons, lookup_app_l; [done|].
    rewrite length_cons, length_fmap. lia. }
  rewrite take_app_length in Hb3. exists b3. split_and!; [done..|].
  by rewrite Hact3, lookup_delete_eq.
Qed.

(** A snapshot that is newer than a reverted one stays active although
    its block is gone.  Reverting to it afterwards is an error that leaves the
    backend without a head: the best number and hash are those of the block
    that no longer exists. *)
Theorem stale_snapshot_loses_head `{!BackendLaws} gb bs b now now' id id' n n' h h' :
  backend_inv gb bs b → is_u64 now → n < n' →
  Backend.active_state_snapshots b !! id = Some (Z.of_nat n, h) →
  Backend.active_state_snapshots b !! id' = Some (Z.of_nat n', h') →
  chain_hashes (hash_slow (Block.header gb)) bs !! n = Some h →
  chain_hashes (hash_slow (Block.header gb)) bs !! n' = Some h' →
  let b1 := (Backend.revert_state_snapshot now id b).1 in
  ∃ b2, Backend.revert_state_snapshot now' id' b1 = (b2, Err BlockNotFound) ∧
    BlockchainStorage.best_number (Backend.storage b2) = Z.of_nat n' ∧
    BlockchainStorage.best_hash (Backend.storage b2) = h' ∧
    BlockchainStorage.blocks (Backend.storage b2) !! h' = None.
Proof.
  intros Hb Hnow Hlt Hid Hid' Hh Hh'.
  destruct (revert_inv gb bs now id n h b) as (b1 & -> & _ & Hb1 & Hact); [done..|].
  assert (Backend.active_state_snapshots b1 !! id' = Some (Z.of_nat n', h')) as Hid1.
  { rewrite Hact, lookup_delete_ne; [done|]. intros ->. rewrite Hid in Hid'. simplify_eq. lia. }
  destruct (bi_store _ _ _ Hb1) as (c & _ & Hs).
  assert (h' ∉ chain_hashes (hash_slow (Block.header gb)) (take n bs)) as Hgone
    by (by eapply chain_hashes_later; [apply valid_hashes; [apply bl_hash|apply Hb]|..]).
  assert (BlockchainStorage.blocks (Backend.storage b1) !! h' = None) as Hnone.
  { apply eq_None_not_Some. intros Hsome%(ci_dom _ _ _ _ _ Hs). done. }
  assert (Backend.revert_storage (Backend.storage b1) (Z.of_nat n') h' =
    BlockchainStorage.set_best (Backend.storage b1) (Z.of_nat n') h') as Hrev.
  { unfold Backend.revert_storage. rewrite (ci_number _ _ _ _ _ Hs).
    unfold BlockchainStorage.range. rewrite seqZ_nil; [done|]. rewrite length_take. lia. }
  cbn [fst]. unfold Backend.revert_state_snapshot. rewrite Hid1. cbn [Backend.storage]. rewrite Hrev.
  unfold Blockchain.get_block_by_hash. cbn. rewrite Hnone. eexists. by split_and!.
Qed.

Definition with_storage b (s : BlockchainStorage.t) : Backend.t DB StateDb Snap TempDir PathBuf :=
  Backend.mk (Backend.cfg b) (Backend.block_env b) s (Backend.states b) (Backend.db b)
    (Backend.time b) (Backend.fees b) (Backend.active_state_snapshots b)
    (Backend.prune_state_history_config b) (Backend.transaction_block_keeper b).

(** Rolling back to a block of the chain.  If the state of the block is
    not available nothing but the state history is touched.  Otherwise the
    database is cleared and holds what writing that state gives; and if it could be
    written, the chain, the block environment and the clock are those of the
    chain up to that block, except that the transactions of the blocks that
    were dropped can still be looked up. *)
Theorem rollback_outcome `{!BackendLaws} gb bs order now n common b :
  backend_inv gb bs b → is_u64 now → headers gb bs !! n = Some (Block.header common) →
  let '(st, state) := InMemoryBlockStates.get build_tmp_dir (Backend.states b)
    (hash_slow (Block.header common)) in
  match state ≫= maybe_as_full_db with
  | None => Backend.rollback build_tmp_dir order now common b =
      Some (Backend.with_states b st, Err DataUnavailable)
  | Some accounts =>
      match Backend.put_accounts order (clear_db (Backend.db b)) accounts with
      | (d, Err _) => Backend.rollback build_tmp_dir order now common b =
          Some (Backend.with_db (Backend.with_states b st) d, Err DbError)
      | (d, Ok _) => ∃ b' txs, Backend.rollback build_tmp_dir order now common b = Some (b', Ok tt) ∧
          Backend.db b' = d ∧
          BlockchainStorage.transactions (Backend.storage b') =
            BlockchainStorage.transactions (Backend.storage b) ∧
          backend_inv gb (take n bs) (with_storage b' (set_txs (Backend.storage b') txs))
      end
  end.
Proof.
  intros Hb Hnow Hhd. unfold Backend.rollback.
  pose proof (bi_states _ _ _ Hb) as (top & lo & dk & Hst).
  pose proof (get_bounded build_tmp_dir top lo dk _ (hash_slow (Block.header common)) Hst) as Hst'.
  destruct (InMemoryBlockStates.get build_tmp_dir (Backend.states b) _) as [st state].
  destruct (state ≫= maybe_as_full_db) as [accounts|]; [|done]. cbn [Backend.db Backend.with_states].
  destruct (Backend.put_accounts order (clear_db (Backend.db b)) accounts) as [d [[]|er]]; [|done].
  pose proof (bi_chain _ _ _ Hb) as Hv. destruct (bi_store _ _ _ Hb) as (c & Hc & Hs).
  pose proof (lookup_lt_Some _ _ _ Hhd) as Hn. unfold headers in Hn.
  rewrite length_cons, length_fmap in Hn.
  assert (chain_hashes (hash_slow (Block.header gb)) bs !! n =
    Some (hash_slow (Block.header common))) as Hh by (by apply headers_hash).
  pose proof (unwind_inv _ _ _ _ n _ bl_hash Hs Hv Hh) as Hs'.
  pose proof (vc_range _ _ Hv) as Hr. rewrite Forall_lookup in Hr. destruct (Hr n _ Hhd) as [Hts Hgl].
  assert (Header.timestamp (Block.header common) ≤ LAST_SECOND)%Z as Hlast.
  { etransitivity; [|apply (bi_last _ _ _ Hb)]. pose proof (bi_past _ _ _ Hb) as Hp.
    rewrite Forall_lookup in Hp. apply (Hp n). unfold block_times. by rewrite list_lookup_fmap, Hhd. }
  pose proof (times_take _ _ _ _ Hv Hhd) as Hpast. pose proof (headers_number _ _ _ _ Hv Hhd) as Hnum.
  cbn [Backend.block_env Backend.with_db Backend.storage Backend.with_states].
  cbn [BlockEnv.timestamp]. rewrite to_u64_fits by apply Hts. cbn [mbind option_bind].
  eexists _, _. split; [done|]. split; [done|]. rewrite Hnum. split.
  { cbn [Backend.storage]. apply unwind_revert. by eapply chain_numbered. }
  split; cbn; try done.
  - by apply valid_take.
  - exists (Nat.min c n). split; [|exact Hs']. rewrite length_take, Nat.min_l by lia.
    destruct (Backend.transaction_block_keeper b); cbn in *; lia.
  - rewrite length_take. lia.
  - apply (bi_cfg _ _ _ Hb).
  - apply reset_wf; [apply (bi_time _ _ _ Hb)|done|done].
  - apply (bi_fee _ _ _ Hb).
  - by eauto.
Qed.

(** ** Timestamps without a date *)

Lemma execute_timestamp c e p txs d d' r :
  execute LONDON SHANGHAI CANCUN PRAGUE c e p txs d = Some (d', r) →
  Header.timestamp (head (executed_block r)) = BlockEnv.timestamp e.
Proof.
  unfold execute. intros (gl & _ & Hx)%bind_Some.
  apply bind_Some in Hx as (nr & _ & Hx). apply bind_Some in Hx as (ts & Hts & Hx).
  apply bind_Some in Hx as (fee & _ & Hx). apply bind_Some in Hx as ([st a] & _ & Hx).
  injection Hx as _ <-. cbn. unfold to_u64 in Hts. by case_match; simplify_eq.
Qed.

Definition with_time b (tm : TimeManager.t) : Backend.t DB StateDb Snap TempDir PathBuf :=
  Backend.mk (Backend.cfg b) (Backend.block_env b) (Backend.storage b) (Backend.states b)
    (Backend.db b) tm (Backend.fees b) (Backend.active_state_snapshots b)
    (Backend.prune_state_history_config b) (Backend.transaction_block_keeper b).

(** A timestamp for the next block is accepted even if chrono has no date for
    it; mining that block then panics. *)
Lemma dateless_timestamp_panics now rand txs x b :
  time_wf (Backend.time b) → (TimeManager.last_timestamp (Backend.time b) ≤ x)%Z →
  from_timestamp_year (as_i64 x) = None →
  let '(tm, r) := TimeManager.set_next_block_timestamp (Backend.time b) x in
  r = Ok tt ∧ Backend.do_mine_block build_tmp_dir now rand txs (with_time b tm) = None.
Proof.
  intros Hwf Hle Hyear. unfold TimeManager.set_next_block_timestamp.
  rewrite (proj2 (Z.ltb_ge _ _) Hle). split; [done|]. unfold Backend.do_mine_block.
  destruct (if PruneStateHistoryConfig.is_state_history_supported _ then _ else _) as [m|]; [|done].
  cbn [mbind option_bind]. unfold TimeManager.next_timestamp, TimeManager.compute_next_timestamp.
  cbn. rewrite (proj2 (Z.ltb_ge _ _) Hle). cbn.
  destruct (execute _ _ _ _ _ _ _ _ _) as [[d r]|] eqn:Hx; [|done]. cbn.
  apply execute_timestamp in Hx. cbn in Hx. unfold Backend.print_block_time, head in *.
  by rewrite Hx, Hyear.
Qed.
End backend.

(** ** Witnesses *)

#[local] Instance sample_block_crypto : BlockCrypto := {
  transactions_root_of _ := 0%Z; receipts_root_of _ := 0%Z;
  hash_slow h := (Header.number h + 1000)%Z;
  EMPTY_OMMER_ROOT_HASH := 0%Z; EMPTY_WITHDRAWALS := 0%Z; EMPTY_REQUESTS_HASH := 0%Z
}.
#[local] Instance sample_crypto : Crypto := {
  recover_signer _ := None; deposit_hash _ := 0%Z; keccak_impersonated _ _ := 0%Z
}.

(** A database that counts its snapshots. *)
#[local] Instance sample_executor : ExecutorEnv Z unit unit := {
  db_basic db _ := (db, Ok None);
  maybe_state_root _ := None;
  transact_commit db _ _ e :=
    (db, if (21000 <=? TxEnv.gas_limit e)%Z
         then Ok (ExecSuccess 1 21000 [] (OutputCall []), [])
         else Err (EvmTransaction RCallGasCostMoreThanGasLimit));
  validate_tx _ _ _ _ := Some (Ok tt);
  encode_tx _ := [];
  KECCAK_EMPTY_HASH := 0%Z; REVERT := 16%Z; SELF_DESTRUCT := 3%Z;
  MAX_DATA_GAS_PER_BLOCK := 786432%Z;
  accrue b _ := b; accrue_topic b _ := b; receipt_bloom _ := 0%Z
}.
#[local] Instance sample_db : BackendDb Z unit unit Z := {
  current_state d := d; insert_block_hash d _ _ := d;
  snapshot_state d := (d + 1, d)%Z;
  revert_state d id _ := if (id <? d)%Z then (id, true) else (d, false);
  clear_db _ := 0%Z; put_storage d _ _ _ := (d, Ok tt); put_account d _ _ := d;
  maybe_as_full_db _ := Some []
}.
#[local] Instance sample_full : MaybeFullDatabase Z Z := {
  clear_into_state_snapshot d := (0%Z, d); read_as_state_snapshot d := d;
  init_from_state_snapshot _ s := s
}.
#[local] Instance sample_spec : ChainSpec := {
  LONDON := 12%Z; MERGE := 15%Z; SHANGHAI := 16%Z; CANCUN := 17%Z; PRAGUE := 18%Z;
  calc_next_block_base_fee _ _ _ := 7%Z; calc_blob_gasprice _ := 1%Z; calc_excess_blob_gas _ _ := 0%Z;
  is_arbitrum _ := false;
  default_blob_excess_gas_and_price := Some (0, 1)%Z;
  from_timestamp_year s :=
    if (-8334601228800 <=? s)%Z && (s <=? 8210266876799)%Z then Some (1970 + s / 31556952)%Z else None;
  node_info_enabled := true; overflow_checks := true
}.
#[local] Instance sample_laws : BackendLaws.
Proof.
  split; cbn.
  - intros c e d x. cbn. destruct (Z.leb_spec 21000 (TxEnv.gas_limit x)); cbn; [lia|done].
  - done.
  - intros _ _ _. by vm_compute.
  - intros x Hx. unfold LAST_SECOND in Hx.
    assert ((-8334601228800 <=? x)%Z && (x <=? 8210266876799)%Z = true) as -> by lia.
    eexists. split; [done|]. pose proof (Z.div_pos x 31556952). lia.
  - intros x y Heq. lia.
Qed.

Definition sample_cfg : CfgEnv := mk_cfg 1 false false 20 false.
Definition sample_block_env : BlockEnv.t := BlockEnv.mk 0 [] 12 60000 7 0 None None.
Definition sample_tmp (p : option unit) : option unit := p.

Definition sample_backend : Backend.t Z Z Z unit unit :=
  Backend.mk sample_cfg sample_block_env
    (default BlockchainStorage.empty
      (BlockchainStorage.new SHANGHAI CANCUN PRAGUE sample_block_env 20 (Some 7%Z) 50))
    (InMemoryBlockStates.new None 500 0) 0%Z (TimeManager.new 100 50)
    (FeeManager.new 2 20 7 false 1 (0, 1)%Z) ∅ (PruneStateHistoryConfig.mk false None) (Some 1).

Lemma sample_inv : ∃ gb, backend_inv gb [] sample_backend.
Proof.
  apply (genesis_inv sample_backend sample_block_env 50 (Some 7%Z)); try done.
  do 3 eexists. apply new_bounded. lia.
Qed.

Definition sample_tx (gas h : Z) : PoolTransaction.t :=
  PoolTransaction.new (PendingTransaction.mk (MaybeImpersonatedTransaction.new
    (Legacy (TxLegacy.mk None 0 1 gas TxKind_Create 0 [] h))) [] h).

Definition sample_txs : list PoolTransaction.t := [sample_tx 21000 1; sample_tx 100 2].

Lemma sample_minable : minable [] 101 3 sample_txs sample_backend.
Proof.
  split; try done.
  - by intros x [= <-].
  - intros ts. repeat constructor; try (by eexists); intros acc; by eexists.
  - repeat constructor.
  - by apply (bool_decide_unpack _).
  - intros h _. apply not_elem_of_nil.
Qed.


(** A snapshot of the new backend, and a block mined after it. *)
Definition sample_snapshot : Backend.t Z Z Z unit unit :=
  (Backend.create_state_snapshot sample_backend).1.

Definition sample_mined : Backend.t Z Z Z unit unit :=
  match Backend.do_mine_block sample_tmp 101 3 sample_txs sample_snapshot with
  | Some (b, _, _) => b
  | None => sample_backend
  end.

Lemma sample_mined_inv : ∃ gb i, backend_inv gb [] sample_snapshot ∧ backend_inv gb [i] sample_mined.
Proof.
  destruct sample_inv as [gb Hb]. apply create_inv in Hb.
  destruct (mine_block_inv sample_tmp gb [] 101 3 sample_txs sample_snapshot Hb)
    as (b' & i & o & Hrun & Hb' & _).
  - destruct sample_minable. by split.
  - exists gb, i. split; [exact Hb|]. unfold sample_mined. by rewrite Hrun.
Qed.

Lemma snapshot_revert_restores_witness :
  ∃ b, Backend.revert_state_snapshot 102 0 sample_mined = (b, Ok true) ∧
    BlockchainStorage.best_number (Backend.storage sample_mined) = 1%Z ∧
    BlockchainStorage.best_number (Backend.storage b) = 0%Z.
Proof.
  destruct sample_inv as [gb Hb].
  assert (Backend.create_state_snapshot sample_backend = (sample_snapshot, 0%Z)) as Hc by (by vm_compute).
  destruct (snapshot_revert_restores gb [] sample_backend sample_snapshot 0 Hb Hc) as [Hb1 Hrev].
  destruct (mine_block_inv sample_tmp gb [] 101 3 sample_txs sample_snapshot Hb1)
    as (b' & i & o & Hrun & Hb' & _).
  { destruct sample_minable. by split. }
  assert (sample_mined = b') as <- by (unfold sample_mined; by rewrite Hrun).
  destruct (Hrev [i] sample_mined 102%Z) as (b3 & Hr & _ & Hb3 & _); [exact Hb'|by vm_compute|done|].
  exists b3. split_and!; [exact Hr|done|].
  destruct (bi_store _ _ _ Hb3) as (c & _ & Hs). apply (ci_number _ _ _ _ _ Hs).
Defined.

(** A second snapshot after the block. *)
Definition sample_second : Backend.t Z Z Z unit unit :=
  (Backend.create_state_snapshot sample_mined).1.

Lemma stale_snapshot_loses_head_witness :
  ∃ b2, Backend.revert_state_snapshot 103 1 (Backend.revert_state_snapshot 102 0 sample_second).1 =
      (b2, Err BlockNotFound) ∧
    BlockchainStorage.best_number (Backend.storage b2) = 1%Z ∧
    BlockchainStorage.blocks (Backend.storage b2) !! 1001%Z = None.
Proof.
  destruct sample_mined_inv as (gb & i & _ & Hb). apply create_inv in Hb.
  assert (hash_slow (Block.header gb) = 1000%Z) as Hg.
  { cbn. by rewrite (vc_genesis _ _ (bi_chain _ _ _ Hb)). }
  assert (bhash i = 1001%Z) as Hi.
  { pose proof (vc_number _ _ (bi_chain _ _ _ Hb) 0 i eq_refl) as Hn. unfold head in Hn.
    unfold bhash. cbn. by rewrite Hn. }
  destruct (stale_snapshot_loses_head gb [i] sample_second 102 103 0 1 0 1 1000 1001)
    as (b2 & Hr & Hn & _ & Hnone); [exact Hb|by vm_compute|lia|done|done|..].
  - unfold chain_hashes. by rewrite Hg.
  - unfold chain_hashes. change (Some (bhash i) = Some 1001%Z). by rewrite Hi.
  - exists b2. split_and!; [exact Hr|exact Hn|exact Hnone].
Defined.

Lemma rollback_outcome_witness :
  ∃ gb b', Backend.rollback sample_tmp map_to_list 102 gb sample_mined = Some (b', Ok tt) ∧
    BlockchainStorage.best_number (Backend.storage b') = 0%Z ∧
    is_Some (BlockchainStorage.transactions (Backend.storage b') !! 1%Z).
Proof.
  destruct sample_mined_inv as (gb & i & _ & Hb).
  pose proof (rollback_outcome sample_tmp gb [i] map_to_list 102 0 gb sample_mined Hb) as Hr.
  assert (hash_slow (Block.header gb) = 1000%Z) as Hg.
  { cbn. by rewrite (vc_genesis _ _ (bi_chain _ _ _ Hb)). }
  rewrite Hg in Hr. destruct Hr as (b' & txs & Hrun & _ & Htx & Hb'); [by vm_compute|done|].
  exists gb, b'. split_and!; [exact Hrun| |].
  - destruct (bi_store _ _ _ Hb') as (c & _ & Hs). apply (ci_number _ _ _ _ _ Hs).
  - rewrite Htx. by eexists.
Defined.
