(* ===== verification/Radix.v ===== *)
(** Numbers as text: the digits that Rust's [format!] writes in a radix and
    [from_str_radix] reads. *)
From Stdlib Require Export Ascii.
From stdpp Require Export strings.
From S2P Require Import Prelude.

(** Rust strings of ASCII characters, as lists. *)
Abbreviation Str := (list ascii).
Definition str : string → Str := String.list_ascii_of_string.

(** ** Digits *)

(** Lower-case digits, up to radix 36. *)
Definition digit_char (d : Z) : ascii :=
  ascii_of_N (Z.to_N (if (d <? 10)%Z then 48 + d else 87 + d)).

Definition char_digit (c : ascii) : option Z :=
  let n := Z.of_N (N_of_ascii c) in
  if (48 <=? n)%Z && (n <=? 57)%Z then Some (n - 48)%Z
  else if (97 <=? n)%Z && (n <=? 122)%Z then Some (n - 87)%Z
  else if (65 <=? n)%Z && (n <=? 90)%Z then Some (n - 55)%Z
  else None.

(** The digits of [n] in front of [acc]; [fuel] bounds their number. *)
Fixpoint radix_loop (fuel : nat) (b n : Z) (acc : Str) : Str :=
  match fuel with
  | O => acc
  | S fuel => let acc := digit_char (n mod b) :: acc in
              if (n <? b)%Z then acc else radix_loop fuel b (n / b)%Z acc
  end.

(** [format!] of an unsigned integer in radix [b], without a prefix. *)
Definition to_radix (b n : Z) : Str := radix_loop (Z.to_nat (Z.log2 n) + 1) b n [].

(** The value of a string of digits. *)
Fixpoint radix_value (b acc : Z) (s : Str) : option Z :=
  match s with
  | [] => Some acc
  | c :: s => d ← char_digit c; if (d <? b)%Z then radix_value b (acc * b + d)%Z s else None
  end.

Definition is_digit (c : ascii) : Prop := is_Some (char_digit c).

(** ** Lemmas *)

Lemma char_digit_char d : (0 ≤ d < 36)%Z → char_digit (digit_char d) = Some d.
Proof.
  intros Hd. unfold char_digit, digit_char.
  assert (N_of_ascii (ascii_of_N (Z.to_N (if (d <? 10)%Z then 48 + d else 87 + d))) =
    Z.to_N (if (d <? 10)%Z then 48 + d else 87 + d)) as ->.
  { apply N_ascii_embedding. destruct (Z.ltb_spec d 10); lia. }
  rewrite Z2N.id by (destruct (Z.ltb_spec d 10); lia).
  destruct (Z.ltb_spec d 10).
  - rewrite !(proj2 (Z.leb_le _ _)) by lia. cbn. f_equal. lia.
  - rewrite (proj2 (Z.leb_gt (87 + d) 57)) by lia. rewrite andb_false_r.
    rewrite !(proj2 (Z.leb_le _ _)) by lia. cbn. f_equal. lia.
Qed.

Lemma radix_value_app b acc s t :
  radix_value b acc (s ++ t) = acc' ← radix_value b acc s; radix_value b acc' t.
Proof.
  revert acc. induction s as [|c s IH]; intros acc; cbn; [done|].
  destruct (char_digit c) as [d|]; cbn; [|done]. by destruct (d <? b)%Z.
Qed.

Lemma radix_loop_app fuel b n acc : radix_loop fuel b n acc = radix_loop fuel b n [] ++ acc.
Proof.
  revert n acc. induction fuel as [|fuel IH]; intros n acc; cbn; [done|].
  destruct (n <? b)%Z; [done|]. rewrite IH, (IH _ [_]), <- app_assoc. done.
Qed.

Section radix.
Context (b : Z) (Hb : (2 ≤ b ≤ 36)%Z).

Lemma radix_loop_value fuel n :
  (0 ≤ n < 2 ^ Z.of_nat fuel)%Z → radix_value b 0 (radix_loop fuel b n []) = Some n.
Proof using Hb.
  revert n. induction fuel as [|fuel IH]; intros n Hn; cbn [radix_loop].
  { cbn in *. f_equal. lia. }
  pose proof (Z.mod_pos_bound n b ltac:(lia)) as Hm.
  destruct (Z.ltb_spec n b).
  - cbn. rewrite char_digit_char by lia. cbn. rewrite (proj2 (Z.ltb_lt _ _)) by lia.
    f_equal. rewrite Z.mod_small; lia.
  - rewrite radix_loop_app, radix_value_app, IH.
    + cbn. rewrite char_digit_char by lia. cbn. rewrite (proj2 (Z.ltb_lt _ _)) by lia.
      f_equal. pose proof (Z.div_mod n b). lia.
    + split; [apply Z.div_pos; lia|]. apply Z.div_lt_upper_bound; [lia|].
      rewrite Nat2Z.inj_succ, Z.pow_succ_r in Hn by lia. nia.
Qed.

Lemma to_radix_value n : (0 ≤ n)%Z → radix_value b 0 (to_radix b n) = Some n.
Proof using Hb.
  intros Hn. apply radix_loop_value. split; [done|].
  rewrite Nat2Z.inj_add, Z2Nat.id by apply Z.log2_nonneg.
  destruct (decide (n = 0%Z)) as [->|]; [done|]. apply Z.log2_spec. lia.
Qed.

Lemma to_radix_inj n m : (0 ≤ n)%Z → (0 ≤ m)%Z → to_radix b n = to_radix b m → n = m.
Proof using Hb.
  intros Hn Hm E. pose proof (to_radix_value n Hn) as H1. rewrite E, to_radix_value in H1 by done. congruence.
Qed.

Lemma radix_loop_digits fuel n acc : Forall is_digit acc → Forall is_digit (radix_loop fuel b n acc).
Proof using Hb.
  revert n acc. induction fuel as [|fuel IH]; intros n acc Ha; cbn; [done|].
  assert (Forall is_digit (digit_char (n mod b) :: acc)) as Ha'.
  { constructor; [|done]. eexists. apply char_digit_char. pose proof (Z.mod_pos_bound n b). lia. }
  destruct (n <? b)%Z; [done|]. by apply IH.
Qed.

Lemma to_radix_digits n : Forall is_digit (to_radix b n).
Proof using Hb. apply radix_loop_digits. constructor. Qed.

(** A digit string is not empty, and begins with zero only for zero. *)
Lemma radix_loop_head fuel n :
  (0 ≤ n < 2 ^ Z.of_nat fuel)%Z → fuel ≠ O →
  ∃ d s, radix_loop fuel b n [] = digit_char d :: s ∧ (0 ≤ d < b)%Z ∧ (d = 0 → n = 0 ∧ s = [])%Z.
Proof using Hb.
  revert n. induction fuel as [|fuel IH]; intros n Hn Hf; [done|]. cbn [radix_loop].
  destruct (Z.ltb_spec n b).
  - exists n, []. rewrite Z.mod_small by lia. split_and!; [done|lia|lia|done].
  - rewrite radix_loop_app. destruct (IH (n / b)%Z) as (d & s & -> & Hd & Hz).
    + split; [apply Z.div_pos; lia|]. apply Z.div_lt_upper_bound; [lia|].
      rewrite Nat2Z.inj_succ, Z.pow_succ_r in Hn by lia. nia.
    + intros ->. cbn in Hn. lia.
    + eexists d, _. split_and!; [done|lia|lia|]. intros Hd0. destruct (Hz Hd0) as [Hq _].
      pose proof (Z.div_str_pos n b). lia.
Qed.

Lemma to_radix_head n : (0 ≤ n)%Z →
  ∃ d s, to_radix b n = digit_char d :: s ∧ (0 ≤ d < b)%Z ∧ (d = 0 → n = 0 ∧ s = [])%Z.
Proof using Hb.
  intros Hn. apply radix_loop_head; [|lia]. split; [done|].
  rewrite Nat2Z.inj_add, Z2Nat.id by apply Z.log2_nonneg.
  destruct (decide (n = 0%Z)) as [->|]; [done|]. apply Z.log2_spec. lia.
Qed.
End radix.

(** Cutting a text at the last or first occurrence of a character. *)
Lemma cut_last {A} (c : A) s t s' t' :
  c ∉ t → c ∉ t' → s ++ c :: t = s' ++ c :: t' → s = s' ∧ t = t'.
Proof.
  intros Ht Ht' E. revert s' E. induction s as [|x s IH]; intros [|y s'] E; cbn in E; simplify_eq; [done| | |].
  - destruct Ht. apply elem_of_app. right. by left.
  - destruct Ht'. apply elem_of_app. right. by left.
  - destruct (IH s') as [-> ->]; done.
Qed.

Lemma cut_first {A} (c : A) s t s' t' :
  c ∉ s → c ∉ s' → s ++ c :: t = s' ++ c :: t' → s = s' ∧ t = t'.
Proof.
  intros Hs Hs' E. revert s' Hs' E. induction s as [|x s IH]; intros [|y s'] Hs' E; cbn in E; simplify_eq; [done| | |].
  - destruct Hs'. by left.
  - destruct Hs. by left.
  - rewrite not_elem_of_cons in Hs, Hs'. destruct (IH ltac:(naive_solver) s') as [-> ->]; naive_solver.
Qed.
