(* ===== verification/MultiFork.v ===== *)
(** Forks of remote chains (evm/core/src/fork/mod.rs and multi.rs): the handler
    that creates them on request, and the ids it gives them.

    The handler runs in its own thread.  A poll takes the requests that arrived
    and what each future in progress has become; it returns the answers sent.
    The remote node is an input: a future that completes gives the environment
    and the number of the block it found. *)
From S2P Require Import Prelude Radix.

(** revm's and alloy's types, and what is left of a record beside the fields
    the code touches; an address or hash is a number, [None] as a target a
    creation. *)
Class ForkTypes := {
  SharedBackend : Type;
  CfgEnv : Type;
  OptsRest : Type;
  BlobExcessGasAndPrice : Type;
  AccessListItem : Type;
  AuthorizationList : Type
}.

Section types.
Context `{ForkTypes}.

(** [BlockEnv] beside the number and the timestamp. *)
Record BlockRest := mk_block_rest {
  coinbase : Z; block_gas_limit : Z; basefee : Z; difficulty : Z; prevrandao : option Z;
  blob_excess_gas_and_price : option BlobExcessGasAndPrice }.

(** [TxEnv] beside the caller and the chain id. *)
Record TxRest := mk_tx_rest {
  transact_to : option Z; tx_gas_limit : Z; tx_gas_price : Z; gas_priority_fee : option Z;
  tx_value : Z; tx_data : list Z; tx_nonce : option Z; tx_access_list : list AccessListItem;
  blob_hashes : list Z; tx_max_fee_per_blob_gas : option Z; tx_authorization_list : option AuthorizationList }.

Record Env := mk_env {
  block_number : Z; block_timestamp : Z; block_rest : BlockRest; cfg : CfgEnv;
  tx_caller : Z; tx_chain_id : option Z; tx_rest : TxRest }.

Record CreateFork := mk_create {
  enable_caching : bool; url : Str; env : Env; fork_block_number : option Z; opts_rest : OptsRest }.
End types.

Module ForkId.
Definition t : Type := Str.

(** [write!(id, "{n:#x}")] *)
Definition new (url : Str) (num : option Z) : t :=
  url ++ str "@" ++ match num with Some n => str "0x" ++ to_radix 16 n | None => str "latest" end.
End ForkId.

(** The receiver of an answer. *)
Abbreviation Sender := nat.

Section multi.
Context `{ForkTypes}.

(** The connection to a node at a block (foundry-fork-db). *)
Context (shared_backend : CreateFork → Z → SharedBackend).

(** [num_senders] is an [Arc]: the address of a counter that all clones
    share. *)
Record CreatedFork := mk_created { opts : CreateFork; backend : SharedBackend; num_senders : nat }.

Record ForkTask := mk_task {
  fut : CreateFork; in_progress : ForkId.t; task_sender : Sender; additional : list Sender }.

Inductive Request :=
  | ReqCreateFork (fork : CreateFork) (sender : Sender)
  | ReqGetFork (id : ForkId.t) (sender : Sender)
  | ReqRollFork (id : ForkId.t) (block : Z) (sender : Sender)
  | ReqGetEnv (id : ForkId.t) (sender : Sender)
  | ReqUpdateBlock (id : ForkId.t) (number timestamp : Z)
  | ReqShutDown (sender : Sender)
  | ReqGetForkUrl (id : ForkId.t) (sender : Sender).

Inductive Answer :=
  | AnsCreate (r : result (ForkId.t * SharedBackend * Env) Str)
  | AnsFork (r : option SharedBackend)
  | AnsEnv (r : option Env)
  | AnsShutDown
  | AnsUrl (r : option Str).

(** The handler; the heap holds the counters. *)
Record MultiForkHandler := mk_handler {
  handlers : list ForkId.t; pending_tasks : list ForkTask; forks : gmap ForkId.t CreatedFork;
  counters : gmap nat Z; next_counter : nat }.

Definition handler_new : MultiForkHandler := mk_handler [] [] ∅ ∅ 0.

Definition set_tasks (l : list ForkTask) (h : MultiForkHandler) : MultiForkHandler :=
  mk_handler (handlers h) l (forks h) (counters h) (next_counter h).

Definition set_forks (m : gmap ForkId.t CreatedFork) (h : MultiForkHandler) : MultiForkHandler :=
  mk_handler (handlers h) (pending_tasks h) m (counters h) (next_counter h).

Definition set_handlers (l : list ForkId.t) (h : MultiForkHandler) : MultiForkHandler :=
  mk_handler l (pending_tasks h) (forks h) (counters h) (next_counter h).

(** [CreatedFork::new]: a counter of its own that starts at one. *)
Definition created_fork_new (opts : CreateFork) (backend : SharedBackend) (h : MultiForkHandler) :
    CreatedFork * MultiForkHandler :=
  (mk_created opts backend (next_counter h),
   mk_handler (handlers h) (pending_tasks h) (forks h)
     (<[next_counter h := 1%Z]> (counters h)) (S (next_counter h))).

(** [format!("{}-{}", fork_id, num_senders.fetch_add(1))]; the addition wraps. *)
Definition inc_senders (fork : CreatedFork) (fork_id : ForkId.t) (h : MultiForkHandler) :
    ForkId.t * MultiForkHandler :=
  let n := default 0%Z (counters h !! num_senders fork) in
  (fork_id ++ str "-" ++ to_radix 10 n,
   mk_handler (handlers h) (pending_tasks h) (forks h)
     (<[num_senders fork := ((n + 1) mod 2 ^ 64)%Z]> (counters h)) (next_counter h)).

(** [find_in_progress_task] and the push of the sender. *)
Fixpoint push_in_progress (id : ForkId.t) (sender : Sender) (l : list ForkTask) :
    option (list ForkTask) :=
  match l with
  | [] => None
  | task :: l =>
      if decide (in_progress task = id)
      then Some (mk_task (fut task) (in_progress task) (task_sender task) (additional task ++ [sender]) :: l)
      else l ← push_in_progress id sender l; Some (task :: l)
  end.

Definition create_fork (fork : CreateFork) (sender : Sender) (h : MultiForkHandler) : MultiForkHandler :=
  let fork_id := ForkId.new (url fork) (fork_block_number fork) in
  match push_in_progress fork_id sender (pending_tasks h) with
  | Some l => set_tasks l h
  | None => set_tasks (pending_tasks h ++ [mk_task fork fork_id sender []]) h
  end.

Definition send_fork (sender : Sender) (id : ForkId.t) (fork : CreatedFork) : Sender * Answer :=
  (sender, AnsCreate (Ok (id, backend fork, env (opts fork)))).

(** The loop over the additional senders. *)
Fixpoint notify_additional (fork_id : ForkId.t) (fork : CreatedFork) (l : list Sender)
    (h : MultiForkHandler) : MultiForkHandler * list (Sender * Answer) :=
  match l with
  | [] => (h, [])
  | sender :: l =>
      let '(next_fork_id, h) := inc_senders fork fork_id h in
      let h := set_forks (<[next_fork_id := fork]> (forks h)) h in
      let '(h, out) := notify_additional fork_id fork l h in
      (h, send_fork sender next_fork_id fork :: out)
  end.

Definition insert_new_fork (fork_id : ForkId.t) (fork : CreatedFork) (sender : Sender)
    (additional_senders : list Sender) (h : MultiForkHandler) :
    MultiForkHandler * list (Sender * Answer) :=
  let h := set_forks (<[fork_id := fork]> (forks h)) h in
  let '(h, out) := notify_additional fork_id fork additional_senders h in
  (h, send_fork sender fork_id fork :: out).

Definition set_env_block (e : Env) (number timestamp : Z) : Env :=
  mk_env number timestamp (block_rest e) (cfg e) (tx_caller e) (tx_chain_id e) (tx_rest e).

Definition set_env (o : CreateFork) (e : Env) : CreateFork :=
  mk_create (enable_caching o) (url o) e (fork_block_number o) (opts_rest o).

Definition update_block (fork_id : ForkId.t) (number timestamp : Z) (h : MultiForkHandler) :
    MultiForkHandler :=
  match forks h !! fork_id with
  | Some fork =>
      let o := set_env (opts fork) (set_env_block (env (opts fork)) number timestamp) in
      set_forks (<[fork_id := mk_created o (backend fork) (num_senders fork)]> (forks h)) h
  | None => h
  end.

Definition on_request (req : Request) (h : MultiForkHandler) :
    MultiForkHandler * list (Sender * Answer) :=
  match req with
  | ReqCreateFork fork sender => (create_fork fork sender h, [])
  | ReqGetFork id sender => (h, [(sender, AnsFork (backend <$> forks h !! id))])
  | ReqRollFork id block sender =>
      match forks h !! id with
      | Some fork =>
          let o := opts fork in
          (create_fork (mk_create (enable_caching o) (url o) (env o) (Some block) (opts_rest o)) sender h, [])
      | None => (h, [(sender, AnsCreate (Err (str "No matching fork exits for " ++ id)))])
      end
  | ReqGetEnv id sender => (h, [(sender, AnsEnv (env ∘ opts <$> forks h !! id))])
  | ReqUpdateBlock id number timestamp => (update_block id number timestamp h, [])
  | ReqShutDown sender =>
      (mk_handler [] (pending_tasks h) ∅ (counters h) (next_counter h), [(sender, AnsShutDown)])
  | ReqGetForkUrl id sender => (h, [(sender, AnsUrl (url ∘ opts <$> forks h !! id))])
  end.

(** The future [create_fork]: it asks the node for the environment and the
    block, [answer], and connects to that block. *)
Definition created (fork : CreateFork) (answer : Env * Z) (h : MultiForkHandler) :
    ForkId.t * CreatedFork * MultiForkHandler :=
  let '(e, number) := answer in
  let fork := set_env fork e in
  let '(fork, h) := created_fork_new fork (shared_backend fork number) h in
  (ForkId.new (url (opts fork)) (Some number), fork, h).

(** One task of the loop, when its future is ready. *)
Definition complete_task (task : ForkTask) (resp : result (Env * Z) Str) (h : MultiForkHandler) :
    MultiForkHandler * list (Sender * Answer) :=
  match resp with
  | Ok answer =>
      let '(fork_id, new_fork, h) := created (fut task) answer h in
      match forks h !! fork_id with
      | Some fork =>
          let '(id, h) := inc_senders fork fork_id h in
          insert_new_fork id fork (task_sender task) (additional task) h
      | None =>
          let h := set_handlers (handlers h ++ [fork_id]) h in
          insert_new_fork fork_id new_fork (task_sender task) (additional task) h
      end
  | Err e => (h, (λ s, (s, AnsCreate (Err e))) <$> task_sender task :: additional task)
  end.

(** The loop over the tasks, from the last; [ready n] is what the poll of the
    [n]-th future gives. *)
Fixpoint advance_tasks (n : nat) (ready : nat → option (result (Env * Z) Str)) (h : MultiForkHandler) :
    MultiForkHandler * list (Sender * Answer) :=
  match n with
  | O => (h, [])
  | S n =>
      match pending_tasks h !! n with
      | None => (h, [])
      | Some task =>
          let h := set_tasks (swap_remove n (pending_tasks h)) h in
          let '(h, out) :=
            match ready n with
            | Some resp => complete_task task resp h
            | None => (set_tasks (pending_tasks h ++ [task]) h, [])
            end in
          let '(h, out') := advance_tasks n ready h in
          (h, out ++ out')
      end
  end.

(** The loop over the handlers, from the last; [done n]: its future ended. *)
Fixpoint advance_handlers (n : nat) (done : nat → bool) (l : list ForkId.t) : list ForkId.t :=
  match n with
  | O => l
  | S n =>
      match l !! n with
      | None => l
      | Some id => let l := swap_remove n l in advance_handlers n done (if done n then l else l ++ [id])
      end
  end.

Fixpoint receive (reqs : list Request) (h : MultiForkHandler) :
    MultiForkHandler * list (Sender * Answer) :=
  match reqs with
  | [] => (h, [])
  | req :: reqs =>
      let '(h, out) := on_request req h in
      let '(h, out') := receive reqs h in (h, out ++ out')
  end.

(** What a poll meets: the requests that arrived, whether the channel is
    closed, and the state of the futures. *)
Record PollInput := mk_input {
  incoming : list Request; closed : bool;
  ready : nat → option (result (Env * Z) Str); finished : nat → bool }.

(** [true] is [Poll::Ready]. *)
Definition poll (i : PollInput) (h : MultiForkHandler) :
    MultiForkHandler * list (Sender * Answer) * bool :=
  let '(h, out) := receive (incoming i) h in
  let '(h, out') := advance_tasks (length (pending_tasks h)) (ready i) h in
  let h := set_handlers (advance_handlers (length (handlers h)) (finished i) (handlers h)) h in
  (h, out ++ out', bool_decide (handlers h = []) && closed i).

Fixpoint run_polls (l : list PollInput) (h : MultiForkHandler) :
    MultiForkHandler * list (Sender * Answer) :=
  match l with
  | [] => (h, [])
  | i :: l => let '(h, out, _) := poll i h in let '(h, out') := run_polls l h in (h, out ++ out')
  end.
End multi.
