(* ===== verification/MultiForkTheorems.v ===== *)
(** The fork handler: every request to create or roll a fork is answered once,
    with an id nobody else has. *)
From S2P Require Import Prelude Radix MultiFork.

(** ** Ids *)

Definition suffixed (base : Str) (ks : list Z) : Str :=
  base ++ concat ((λ k, str "-" ++ to_radix 10 k) <$> ks).

Lemma suffixed_snoc base ks k : suffixed base (ks ++ [k]) = suffixed base ks ++ str "-" ++ to_radix 10 k.
Proof. unfold suffixed. by rewrite fmap_app, concat_app, <- app_assoc; cbn; rewrite app_nil_r. Qed.

Lemma not_digit_notin c s : char_digit c = None → Forall is_digit s → c ∉ s.
Proof. intros Hc Hs Hin. rewrite Forall_forall in Hs. destruct (Hs c Hin). congruence. Qed.

Lemma dec_no_dash k : ("-"%char : ascii) ∉ to_radix 10 k.
Proof. apply not_digit_notin; [done|]. apply to_radix_digits. lia. Qed.

Lemma suffix_inj h h' ks ks' :
  "-"%char ∉ h → "-"%char ∉ h' → Forall (λ k, 0 ≤ k)%Z ks → Forall (λ k, 0 ≤ k)%Z ks' →
  suffixed h ks = suffixed h' ks' → h = h' ∧ ks = ks'.
Proof.
  unfold suffixed. revert h h' ks'.
  induction ks as [|k ks IH]; intros h h' [|k' ks'] Hh Hh' Hk Hk' E; cbn in E; rewrite ?app_nil_r in E.
  - done.
  - subst h. destruct Hh. apply elem_of_app. right. by left.
  - subst h'. destruct Hh'. apply elem_of_app. right. by left.
  - apply cut_first in E as [-> E]; [|done..]. inversion_clear Hk. inversion_clear Hk'.
    apply IH in E as [E ->]; [|apply dec_no_dash..|done|done].
    apply to_radix_inj in E as ->; [done|lia..].
Qed.

Lemma fork_id_inj u n u' n' ks ks' :
  Forall (λ k, 0 ≤ k)%Z ks → Forall (λ k, 0 ≤ k)%Z ks' →
  suffixed (ForkId.new u (Some n)) ks = suffixed (ForkId.new u' (Some n')) ks' →
  ForkId.new u (Some n) = ForkId.new u' (Some n') ∧ ks = ks'.
Proof.
  intros Hk Hk' E. unfold ForkId.new in *.
  assert (∀ m l, "@"%char ∉ suffixed (str "0x" ++ to_radix 16 m) l) as Hat.
  { intros m l. unfold suffixed. rewrite !not_elem_of_app. split_and!.
    - cbn. rewrite !not_elem_of_cons. split_and!; [done..|apply not_elem_of_nil].
    - apply not_digit_notin; [done|]. apply to_radix_digits. lia.
    - intros (x & Hl & Hx)%list_elem_of_In%in_concat.
      apply list_elem_of_In, list_elem_of_fmap in Hl as (k & -> & _). apply list_elem_of_In in Hx.
      apply elem_of_cons in Hx as [?|Hx]; [done|]. revert Hx. apply not_digit_notin; [done|]. apply to_radix_digits. lia. }
  assert (∀ m, "-"%char ∉ str "0x" ++ to_radix 16 m) as Hdash.
  { intros m. cbn. rewrite !not_elem_of_cons. split_and!; [done..|].
    apply not_digit_notin; [done|]. apply to_radix_digits. lia. }
  assert (∀ v m l, suffixed (v ++ str "@" ++ str "0x" ++ to_radix 16 m) l =
    v ++ "@"%char :: suffixed (str "0x" ++ to_radix 16 m) l) as Hs
    by (intros; unfold suffixed; by rewrite <- !app_assoc).
  rewrite !Hs in E. apply cut_last in E as [-> E]; [|apply Hat..].
  apply suffix_inj in E as [E ->]; [by rewrite E|apply Hdash|apply Hdash|done|done].
Qed.

(** ** The forks of the handler *)

Section handler.
Context `{ForkTypes} (shared_backend : CreateFork → Z → SharedBackend).
Implicit Types (h : MultiForkHandler) (f : CreatedFork) (id : ForkId.t).

(** Every id is the id of a block with the numbers of a counter behind it, and
    all ids of that block use its counter, which is ahead of them; the fork
    is connected to that block. *)
Record known h id f : Prop := {
  known_id : ∃ u n ks g v, id = suffixed (ForkId.new u (Some n)) ks ∧
    forks h !! ForkId.new u (Some n) = Some g ∧ num_senders g = num_senders f ∧
    counters h !! num_senders f = Some v ∧ Forall (λ k, 0 < k < v)%Z ks ∧ (0 < v)%Z ∧
    url (opts f) = u ∧ ∃ o, url o = u ∧ backend f = shared_backend o n;
  known_counter : num_senders f < next_counter h }.

(** The handler and the ids it has given out. *)
Record handler_inv h (issued : list ForkId.t) : Prop := {
  hi_nodup : NoDup issued;
  hi_dom : ∀ id, id ∈ issued ↔ is_Some (forks h !! id);
  hi_known : ∀ id f, forks h !! id = Some f → known h id f;
  hi_count : ∀ c v, counters h !! c = Some v → (v ≤ 1 + Z.of_nat (length issued))%Z }.

(** Recording an id that is new. *)
Lemma record_inv h h' issued id f :
  handler_inv h issued → id ∉ issued →
  forks h' = <[id := f]> (forks h) → next_counter h ≤ next_counter h' →
  (∀ c v, counters h !! c = Some v → c < next_counter h → ∃ v', counters h' !! c = Some v' ∧ (v ≤ v')%Z) →
  (∀ c v, counters h' !! c = Some v → (v ≤ 2 + Z.of_nat (length issued))%Z) →
  known h' id f → handler_inv h' (issued ++ [id]).
Proof.
  intros Hi Hnew Hf Hn Hc Hb Hk. split.
  - apply NoDup_app. split_and!; [apply Hi| |apply NoDup_singleton].
    intros x Hx ->%list_elem_of_singleton. done.
  - intros x. rewrite Hf, elem_of_app, list_elem_of_singleton, lookup_insert_is_Some, (hi_dom _ _ Hi).
    destruct (decide (id = x)); naive_solver.
  - intros x g. rewrite Hf. intros [[<- <-]|[Hne Hg]]%lookup_insert_Some; [done|].
    destruct (hi_known _ _ Hi _ _ Hg) as [(u & n & ks & g' & v & Hx & Hg' & Hs & Hv & Hks & Hpos & Hu) Hlt].
    destruct (Hc _ _ Hv Hlt) as (v' & Hv' & Hle). split; [|lia].
    exists u, n, ks, g', v'. rewrite Hf. split; [done|]. split_and!; [|done|done| |lia|apply Hu..].
    + rewrite lookup_insert_ne; [done|]. intros E. apply Hnew. rewrite E. apply (hi_dom _ _ Hi). eauto.
    + eapply Forall_impl; [exact Hks|cbn; lia].
  - intros c v Hv. rewrite length_app. cbn. pose proof (Hb _ _ Hv). lia.
Qed.

(** The next id of a fork is new, and recording it keeps the invariant. *)
Lemma inc_senders_inv h issued id f :
  handler_inv h issued → forks h !! id = Some f → (Z.of_nat (length issued) + 2 < 2 ^ 64)%Z →
  let '(id', h') := inc_senders f id h in
  (id' ∉ issued) ∧ handler_inv (set_forks (<[id' := f]> (forks h')) h') (issued ++ [id']) ∧ forks h' = forks h.
Proof.
  intros Hi Hf Hlen. destruct (hi_known _ _ Hi _ _ Hf) as [(u & n & ks & g & v & Hid & Hg & Hc & Hv & Hks & Hpos & Hu) Hlt].
  unfold inc_senders. rewrite Hv. cbn. rewrite Z.mod_small by (pose proof (hi_count _ _ Hi _ _ Hv); lia).
  set (id' := (id ++ _)%list).
  assert (id' = suffixed (ForkId.new u (Some n)) (ks ++ [v])) as Hid' by (rewrite suffixed_snoc, <- Hid; done).
  assert (id' ∉ issued) as Hnew.
  { intros Hin. apply (hi_dom _ _ Hi) in Hin as [f' Hf'].
    destruct (hi_known _ _ Hi _ _ Hf') as [(u' & n' & ks' & g' & v' & E & Hg' & Hc' & Hv' & Hks' & _) _].
    rewrite Hid' in E. apply fork_id_inj in E as [E <-].
    - rewrite E, Hg' in Hg. simplify_eq. rewrite <- Hc', Hc, Hv in Hv'. simplify_eq.
      apply Forall_app in Hks' as [_ Hl]. inversion_clear Hl. lia.
    - apply Forall_app. split; [eapply Forall_impl; [exact Hks|cbn; lia]|by repeat constructor; lia].
    - eapply Forall_impl; [exact Hks'|cbn; lia]. }
  split_and!; [done| |done]. pose proof (hi_count _ _ Hi _ _ Hv) as Hvn.
  apply (record_inv h _ issued id' f Hi Hnew); [done|done|..]; cbn.
  - intros c w Hw _. destruct (decide (c = num_senders f)) as [->|].
    + rewrite lookup_insert_eq. exists (v + 1)%Z. simplify_eq. split; [done|lia].
    + rewrite lookup_insert_ne by done. eauto with lia.
  - intros c w [[<- <-]|[_ Hw]]%lookup_insert_Some; [lia|]. pose proof (hi_count _ _ Hi _ _ Hw). lia.
  - split; [|done]. exists u, n, (ks ++ [v]), g, (v + 1)%Z. cbn. rewrite lookup_insert_eq. split_and!; [done| |done|done| |lia|apply Hu..].
    + rewrite lookup_insert_ne; [done|]. intros E. apply Hnew. rewrite E. apply (hi_dom _ _ Hi). eauto.
    + apply Forall_app. split; [eapply Forall_impl; [exact Hks|cbn; lia]|repeat constructor; lia].
Qed.

(** ** Answers *)

(** The ids given out by some answers, and the fork an answer stands for. *)
Definition answer_id (a : Sender * Answer) : option ForkId.t :=
  match a.2 with AnsCreate (Ok (id, _, _)) => Some id | _ => None end.

Definition answer_ok h (a : Sender * Answer) : Prop :=
  match a.2 with
  | AnsCreate (Ok (id, b, _)) => ∃ f, forks h !! id = Some f ∧ backend f = b
  | _ => True
  end.

(** Forks stay as they were created; only their environment changes. *)
Definition extends h h' : Prop := ∀ id f, forks h !! id = Some f →
  ∃ f', forks h' !! id = Some f' ∧ backend f' = backend f ∧ num_senders f' = num_senders f.

#[local] Instance extends_preorder : PreOrder extends.
Proof.
  split; [intros h id f; eauto|]. intros h1 h2 h3 H12 H23 id f Hf.
  destruct (H12 _ _ Hf) as (f2 & Hf2 & Hb & Hn). destruct (H23 _ _ Hf2) as (f3 & Hf3 & Hb' & Hn').
  exists f3. split_and!; [done|congruence..].
Qed.

Lemma extends_insert h id f : forks h !! id = None → extends h (set_forks (<[id := f]> (forks h)) h).
Proof.
  intros Hn id' g Hg. exists g. cbn. rewrite lookup_insert_ne; [done|congruence].
Qed.

Lemma answer_ok_extends h h' a : extends h h' → answer_ok h a → answer_ok h' a.
Proof.
  intros He. unfold answer_ok. repeat case_match; try done.
  intros (f & Hf & <-). destruct (He _ _ Hf) as (f' & Hf' & <- & _). eauto.
Qed.

(** A step that gives out new ids only. *)
Definition gives h h' (out : list (Sender * Answer)) : Prop := ∀ issued,
  handler_inv h issued → (Z.of_nat (length issued + length (omap answer_id out)) + 1 < 2 ^ 64)%Z →
  handler_inv h' (issued ++ omap answer_id out) ∧ Forall (answer_ok h') out ∧ extends h h'.

Lemma gives_trans h1 h2 h3 out out' : gives h1 h2 out → gives h2 h3 out' → gives h1 h3 (out ++ out').
Proof.
  intros H1 H2 issued Hi Hlen. rewrite omap_app, length_app in Hlen.
  destruct (H1 issued Hi) as (Hi2 & Hok & He); [lia|].
  destruct (H2 _ Hi2) as (Hi3 & Hok' & He'); [rewrite length_app; lia|].
  rewrite omap_app, app_assoc. split_and!; [done| |by etrans].
  apply Forall_app. split; [|done]. eapply Forall_impl; [exact Hok|]. intros a. by apply answer_ok_extends.
Qed.

Lemma gives_nil h : gives h h [].
Proof. intros issued Hi _. rewrite app_nil_r. split_and!; [done|constructor|reflexivity]. Qed.

(** A step that answers something else and leaves the forks alone. *)
Lemma gives_same h h' out :
  omap answer_id out = [] → forks h' = forks h → counters h' = counters h → next_counter h' = next_counter h →
  gives h h' out.
Proof.
  intros Ho Hf Hc Hn issued [H1 H2 H3 H4] _. rewrite Ho, app_nil_r. split_and!.
  - split; rewrite ?Hf, ?Hc; [done..| |done]. intros id f Hid. destruct (H3 id f Hid) as [K1 K2].
    split; rewrite ?Hf, ?Hc, ?Hn; done.
  - clear -Ho. induction out as [|a out IH]; [constructor|]. cbn in Ho. destruct (answer_id a) eqn:E; [done|].
    constructor; [|by apply IH]. revert E. unfold answer_id, answer_ok. by repeat case_match.
  - intros id f Hid. rewrite Hf. eauto.
Qed.

Lemma gives_inc h id f sender :
  forks h !! id = Some f →
  let '(id', h') := inc_senders f id h in
  gives h (set_forks (<[id' := f]> (forks h')) h') [send_fork sender id' f].
Proof.
  intros Hf. destruct (inc_senders f id h) as [id' h'] eqn:E. intros issued Hi Hlen. cbn in Hlen.
  pose proof (inc_senders_inv h issued id f Hi Hf ltac:(lia)) as Hinc. rewrite E in Hinc.
  destruct Hinc as (Hnew & Hi' & Hfs). cbn. split_and!; [done| |].
  - repeat constructor. exists f. cbn. by rewrite lookup_insert_eq.
  - rewrite Hfs. intros id2 g Hg. exists g. cbn. rewrite lookup_insert_ne; [done|].
    intros ->. apply Hnew, (hi_dom _ _ Hi). eauto.
Qed.

Lemma gives_notify id f l h :
  forks h !! id = Some f →
  let '(h', out) := notify_additional id f l h in gives h h' out.
Proof.
  revert h. induction l as [|sender l IH]; intros h Hf; cbn [notify_additional]; [apply gives_nil|].
  pose proof (gives_inc h id f sender Hf) as Hinc.
  assert (forks (inc_senders f id h).2 = forks h) as Hfs by done.
  destruct (inc_senders f id h) as [id' h1]. cbn in Hfs.
  set (h2 := set_forks _ h1) in *.
  assert (forks h2 !! id = Some f) as Hf2.
  { unfold h2. cbn. rewrite Hfs. destruct (decide (id' = id)) as [->|]; [by rewrite lookup_insert_eq|by rewrite lookup_insert_ne]. }
  pose proof (IH h2 Hf2) as Hrest. destruct (notify_additional id f l h2) as [h' out].
  exact (gives_trans _ _ _ [_] _ Hinc Hrest).
Qed.

(** A fork is recorded under a new id, for the sender and the others. *)
Lemma gives_insert h h1 id f sender l :
  gives h (set_forks (<[id := f]> (forks h1)) h1) [send_fork sender id f] →
  let '(h', out) := insert_new_fork id f sender l h1 in gives h h' out.
Proof.
  intros Hg. unfold insert_new_fork. set (h2 := set_forks _ h1) in *.
  pose proof (gives_notify id f l h2 (lookup_insert_eq _ _ _)) as Hn.
  destruct (notify_additional id f l h2) as [h' out]. exact (gives_trans _ _ _ [_] _ Hg Hn).
Qed.

(** A fresh counter. *)
Lemma gives_alloc h o b : gives h (created_fork_new o b h).2 [].
Proof.
  intros issued [H1 H2 H3 H4] _. rewrite app_nil_r. cbn. split_and!; [|constructor|intros id f; eauto].
  split; cbn; [done..| |].
  - intros id f Hf. destruct (H3 id f Hf) as [(u & n & ks & g & v & Hid & Hg & Hs & Hv & Hks) Hlt].
    split; cbn; [|lia]. exists u, n, ks, g, v. by rewrite lookup_insert_ne by lia.
  - intros c v [[<- <-]|[_ Hv]]%lookup_insert_Some; [lia|eauto].
Qed.

Lemma gives_complete task resp h :
  let '(h', out) := complete_task shared_backend task resp h in gives h h' out.
Proof.
  unfold complete_task. destruct resp as [[e number]|e].
  2: { apply gives_same; [|done..]. generalize (task_sender task :: additional task). intros l.
       induction l; [done|]. done. }
  set (o := set_env (fut task) e). set (fid := ForkId.new (url o) (Some number)).
  set (nf := mk_created o (shared_backend o number) (next_counter h)).
  pose proof (gives_alloc h o (shared_backend o number)) as Ha.
  set (h1 := (created_fork_new o (shared_backend o number) h).2) in *.
  change (created shared_backend (fut task) (e, number) h) with (fid, nf, h1).
  cbv iota beta. change (forks h1) with (forks h).
  destruct (forks h !! fid) as [f|] eqn:E.
  - pose proof (gives_inc h1 fid f (task_sender task) E) as Hinc.
    destruct (inc_senders f fid h1) as [id' h2]. apply gives_insert.
    exact (gives_trans _ _ _ [] _ Ha Hinc).
  - apply gives_insert. intros issued Hi Hlen. destruct (Ha issued Hi) as (Hi1 & _ & _); [cbn in *; lia|].
    rewrite app_nil_r in Hi1. cbn.
    assert (fid ∉ issued) as Hnew by (rewrite (hi_dom _ _ Hi), E; by intros []).
    split_and!.
    + apply (record_inv h1 _ issued fid nf Hi1 Hnew); [done|done|eauto with lia| |].
      * intros c v Hv. pose proof (hi_count _ _ Hi1 c v Hv). lia.
      * split; [|cbn; lia]. exists (url o), number, [], nf, 1%Z. cbn. rewrite (lookup_insert_eq (counters h)).
        unfold suffixed. cbn. rewrite app_nil_r. split_and!; [done| |done|done|constructor|lia|done|by exists o].
        unfold nf. by rewrite lookup_insert_eq.
    + repeat constructor. exists nf. cbn. by rewrite lookup_insert_eq.
    + intros id g Hg. exists g. cbn -[fid]. rewrite lookup_insert_ne; [done|].
      intros E2. change (fid = id) in E2. by rewrite <- E2, E in Hg.
Qed.

Lemma gives_update_block id number timestamp h : gives h (update_block id number timestamp h) [].
Proof.
  unfold update_block. destruct (forks h !! id) as [f|] eqn:E; [|apply gives_nil].
  set (f' := mk_created _ _ _). intros issued [H1 H2 H3 H4] _. rewrite app_nil_r.
  assert (∀ id2 g, <[id := f']> (forks h) !! id2 = Some g → ∃ g0, forks h !! id2 = Some g0 ∧
    num_senders g = num_senders g0 ∧ backend g = backend g0 ∧ url (opts g) = url (opts g0)) as Hback.
  { intros id2 g [[<- <-]|[_ Hg]]%lookup_insert_Some; eauto. }
  assert (extends h (set_forks (<[id := f']> (forks h)) h)) as Hext.
  { intros id2 g Hg. cbn. destruct (decide (id = id2)) as [<-|];
      [rewrite lookup_insert_eq; simplify_eq; eauto|rewrite lookup_insert_ne by done; eauto]. }
  split_and!; [|constructor|done]. split; cbn; [done| | |done].
  - intros id2. rewrite lookup_insert_is_Some, H2. destruct (decide (id = id2)) as [<-|]; naive_solver.
  - intros id2 g Hg. destruct (Hback _ _ Hg) as (g0 & Hg0 & Hs & Hb & Hu).
    destruct (H3 _ _ Hg0) as [(u & n & ks & g1 & v & Hid & Hg1 & Hs1 & Hv & Hks & Hpos & Hu0 & o & Ho) Hlt].
    destruct (Hext _ _ Hg1) as (g2 & Hg2 & _ & Hn2).
    split; cbn; [|congruence]. exists u, n, ks, g2, v. rewrite Hs.
    split_and!; [done|done|congruence|done|done|done|congruence|]. exists o. rewrite Hb. done.
Qed.

Definition is_shutdown (req : Request) : bool := match req with ReqShutDown _ => true | _ => false end.

Lemma gives_create o sender h : gives h (create_fork o sender h) [].
Proof. unfold create_fork. case_match; by apply gives_same. Qed.

Lemma gives_request req h :
  is_shutdown req = false → let '(h', out) := on_request req h in gives h h' out.
Proof.
  intros Hs. destruct req as [o s|id s|id b s|id s|id n t|s|id s]; cbn [on_request].
  - by apply gives_create.
  - by apply gives_same.
  - destruct (forks h !! id); [apply gives_create|by apply gives_same].
  - by apply gives_same.
  - apply gives_update_block.
  - done.
  - by apply gives_same.
Qed.

Lemma gives_receive reqs h :
  forallb (negb ∘ is_shutdown) reqs = true → let '(h', out) := receive reqs h in gives h h' out.
Proof.
  revert h. induction reqs as [|req reqs IH]; intros h Hs; cbn; [apply gives_nil|].
  cbn in Hs. apply andb_true_iff in Hs as [Hr Hs].
  pose proof (gives_request req h ltac:(by apply negb_true_iff)) as H1. destruct (on_request req h) as [h1 out].
  pose proof (IH h1 Hs) as H2. destruct (receive reqs h1) as [h2 out']. by eapply gives_trans.
Qed.

Lemma gives_advance n rdy h :
  let '(h', out) := advance_tasks shared_backend n rdy h in gives h h' out.
Proof.
  revert h. induction n as [|n IH]; intros h; cbn [advance_tasks]; [apply gives_nil|].
  destruct (pending_tasks h !! n) as [task|]; [|apply gives_nil].
  set (h0 := set_tasks _ h). assert (gives h h0 []) as H0 by (by apply gives_same).
  assert (∃ h1 out, match rdy n with
    | Some resp => complete_task shared_backend task resp h0
    | None => (set_tasks (pending_tasks h0 ++ [task]) h0, []) end = (h1, out) ∧ gives h0 h1 out)
    as (h1 & out & -> & H1).
  { destruct (rdy n) as [resp|]; [|by do 2 eexists; split; [done|apply gives_same]].
    pose proof (gives_complete task resp h0). destruct (complete_task _ _ _ _). eauto. }
  pose proof (IH h1) as H2. destruct (advance_tasks shared_backend n rdy h1) as [h2 out'].
  apply (gives_trans _ _ _ [] _ H0). by eapply gives_trans.
Qed.

Lemma gives_poll i h :
  forallb (negb ∘ is_shutdown) (incoming i) = true →
  let '(h', out, _) := poll shared_backend i h in gives h h' out.
Proof.
  intros Hs. unfold poll. pose proof (gives_receive (incoming i) h Hs) as H1.
  destruct (receive (incoming i) h) as [h1 out].
  pose proof (gives_advance (length (pending_tasks h1)) (ready i) h1) as H2.
  destruct (advance_tasks _ _ _ h1) as [h2 out']. eapply gives_trans; [done|].
  rewrite <- (app_nil_r out'). eapply gives_trans; [done|]. by apply gives_same.
Qed.

Lemma gives_run l h :
  forallb (λ i, forallb (negb ∘ is_shutdown) (incoming i)) l = true →
  let '(h', out) := run_polls shared_backend l h in gives h h' out.
Proof.
  revert h. induction l as [|i l IH]; intros h Hs; cbn; [apply gives_nil|].
  cbn in Hs. apply andb_true_iff in Hs as [Hi Hs]. pose proof (gives_poll i h Hi) as H1.
  destruct (poll shared_backend i h) as [[h1 out] b]. pose proof (IH h1 Hs) as H2.
  destruct (run_polls shared_backend l h1). by eapply gives_trans.
Qed.

(** ** Senders *)

Definition request_sender (req : Request) : option Sender :=
  match req with ReqCreateFork _ s | ReqRollFork _ _ s => Some s | _ => None end.

Definition answer_sender (a : Sender * Answer) : option Sender :=
  match a.2 with AnsCreate _ => Some a.1 | _ => None end.

Definition task_senders (t : ForkTask) : list Sender := task_sender t :: additional t.

Definition waiting_senders h : list Sender := pending_tasks h ≫= task_senders.

(** A step that moves senders from those who wait to those who are answered. *)
Definition moves (asked : list Sender) h h' (out : list (Sender * Answer)) : Prop :=
  waiting_senders h ++ asked ≡ₚ waiting_senders h' ++ omap answer_sender out.

Lemma moves_trans asked asked' h1 h2 h3 out out' :
  moves asked h1 h2 out → moves asked' h2 h3 out' → moves (asked ++ asked') h1 h3 (out ++ out').
Proof. unfold moves. intros H1 H2. rewrite omap_app, app_assoc, H1, (Permutation_app_comm (omap _ out) (omap _ out')), app_assoc, <- H2. solve_Permutation. Qed.


Lemma moves_same h h' out :
  pending_tasks h' = pending_tasks h → omap answer_sender out = [] → moves [] h h' out.
Proof. unfold moves, waiting_senders. intros -> ->. done. Qed.

Lemma push_in_progress_senders id s l l' :
  push_in_progress id s l = Some l' → l' ≫= task_senders ≡ₚ (l ≫= task_senders) ++ [s].
Proof.
  revert l'. induction l as [|t l IH]; intros l'; cbn [push_in_progress]; [done|].
  case_decide; [intros [= <-]|intros (l1 & Hl & [= <-])%bind_Some].
  - cbn. unfold task_senders at 1. cbn. solve_Permutation.
  - cbn. rewrite (IH _ Hl). solve_Permutation.
Qed.

Lemma moves_create o s h : moves [s] h (create_fork o s h) [].
Proof.
  unfold create_fork, moves, waiting_senders. rewrite app_nil_r. case_match eqn:E; cbn [pending_tasks set_tasks].
  - by rewrite (push_in_progress_senders _ _ _ _ E).
  - by rewrite bind_app.
Qed.

Lemma moves_request req h :
  let '(h', out) := on_request req h in moves (option_list (request_sender req)) h h' out.
Proof.
  destruct req as [o s|id s|id b s|id s|id n t|s|id s]; cbn [on_request request_sender option_list];
    [apply moves_create|by apply moves_same| |by apply moves_same| |by apply moves_same|by apply moves_same].
  - destruct (forks h !! id); [apply moves_create|]. unfold moves. done.
  - apply moves_same; [|done]. unfold update_block. by case_match.
Qed.

Lemma moves_receive reqs h :
  let '(h', out) := receive reqs h in moves (omap request_sender reqs) h h' out.
Proof.
  revert h. induction reqs as [|req reqs IH]; intros h; cbn [receive]; [by apply moves_same|].
  pose proof (moves_request req h) as H1. destruct (on_request req h) as [h1 out].
  pose proof (IH h1) as H2. destruct (receive reqs h1) as [h2 out'].
  cbn [omap list_omap]. pose proof (moves_trans _ _ _ _ _ _ _ H1 H2) as H3. cbn. by destruct (request_sender req).
Qed.

Lemma notify_senders id f l h :
  let '(h', out) := notify_additional id f l h in
  pending_tasks h' = pending_tasks h ∧ omap answer_sender out = l.
Proof.
  revert h. induction l as [|s l IH]; intros h; cbn [notify_additional]; [done|].
  destruct (inc_senders f id h) as [id' h1] eqn:E. unfold inc_senders in E. simplify_eq.
  match goal with |- context [notify_additional id f l ?h2] =>
    specialize (IH h2); destruct (notify_additional id f l h2) as [h' out] end.
  destruct IH as [Hp Ho]. cbn. by rewrite Hp, Ho.
Qed.

Lemma insert_senders id f s l h :
  let '(h', out) := insert_new_fork id f s l h in
  pending_tasks h' = pending_tasks h ∧ omap answer_sender out = s :: l.
Proof.
  unfold insert_new_fork. match goal with |- context [notify_additional id f l ?h2] =>
    pose proof (notify_senders id f l h2) as H1; destruct (notify_additional id f l h2) as [h' out] end.
  destruct H1 as [Hp Ho]. cbn. by rewrite Hp, Ho.
Qed.

Lemma complete_senders task resp h :
  let '(h', out) := complete_task shared_backend task resp h in
  pending_tasks h' = pending_tasks h ∧ omap answer_sender out = task_senders task.
Proof.
  unfold complete_task, task_senders. destruct resp as [[e number]|e].
  - destruct (created shared_backend (fut task) (e, number) h) as [[fid nf] h1] eqn:E.
    assert (pending_tasks h1 = pending_tasks h) as Hp by (unfold created in E; cbn in E; by simplify_eq).
    destruct (forks h1 !! fid) as [f|].
    + destruct (inc_senders f fid h1) as [id' h2] eqn:E2. unfold inc_senders in E2. simplify_eq.
      rewrite <- Hp. match goal with |- context [insert_new_fork ?a ?b ?c ?d ?h2] =>
        exact (insert_senders a b c d h2) end.
    + rewrite <- Hp. match goal with |- context [insert_new_fork ?a ?b ?c ?d ?h2] =>
        exact (insert_senders a b c d h2) end.
  - split; [done|]. generalize (task_sender task :: additional task). intros l.
    induction l as [|x l IH]; [done|]. cbn. f_equal. exact IH.
Qed.

Lemma moves_advance n rdy h :
  let '(h', out) := advance_tasks shared_backend n rdy h in moves [] h h' out.
Proof.
  revert h. induction n as [|n IH]; intros h; cbn [advance_tasks]; [by apply moves_same|].
  destruct (pending_tasks h !! n) as [task|] eqn:Et; [|by apply moves_same].
  set (h0 := set_tasks _ h).
  assert (∃ h1 out, match rdy n with
    | Some resp => complete_task shared_backend task resp h0
    | None => (set_tasks (pending_tasks h0 ++ [task]) h0, []) end = (h1, out) ∧ moves [] h h1 out)
    as (h1 & out & -> & H1).
  { assert (pending_tasks h ≫= task_senders ≡ₚ
      task_senders task ++ (swap_remove n (pending_tasks h) ≫= task_senders)) as Hp
      by exact (bind_Permutation task_senders _ _ (symmetry (swap_remove_perm _ _ _ Et))).
    unfold moves, waiting_senders. rewrite app_nil_r. destruct (rdy n) as [resp|].
    - pose proof (complete_senders task resp h0) as Hc. destruct (complete_task _ _ _ _) as [h1 out].
      destruct Hc as [Hc1 Hc2]. exists h1, out. split; [done|]. rewrite Hc1, Hc2. cbn [pending_tasks h0 set_tasks].
      rewrite Hp. solve_Permutation.
    - do 2 eexists. split; [done|]. cbn [pending_tasks h0 set_tasks]. rewrite Hp, bind_app. cbn [mbind list_bind].
      rewrite !app_nil_r. solve_Permutation. }
  pose proof (IH h1) as H2. destruct (advance_tasks shared_backend n rdy h1) as [h2 out'].
  exact (moves_trans [] [] _ _ _ _ _ H1 H2).
Qed.

Lemma moves_run l h :
  let '(h', out) := run_polls shared_backend l h in
  moves (l ≫= λ i, omap request_sender (incoming i)) h h' out.
Proof.
  revert h. induction l as [|i l IH]; intros h; cbn [run_polls]; [by apply moves_same|]. unfold poll.
  pose proof (moves_receive (incoming i) h) as H1. destruct (receive (incoming i) h) as [h1 out].
  pose proof (moves_advance (length (pending_tasks h1)) (ready i) h1) as H2.
  destruct (advance_tasks _ _ _ h1) as [h2 out'].
  match goal with |- context [run_polls _ l ?h3] => pose proof (IH h3) as H3; destruct (run_polls shared_backend l h3) end.
  cbn. pose proof (moves_trans _ _ _ _ _ _ _ H1 H2) as H12. rewrite app_nil_r in H12.
  exact (moves_trans _ _ _ _ _ _ _ H12 H3).
Qed.
End handler.

Lemma fewer_ids `{ForkTypes} out : length (omap answer_id out) ≤ length (omap answer_sender out).
Proof.
  induction out as [|[s [[[[id b] e]|e]|r|r| |r]] out IH]; cbn in *; lia.
Qed.

Lemma handler_new_inv `{ForkTypes} sb : handler_inv sb handler_new [].
Proof.
  split; cbn; [constructor|intros id; rewrite lookup_empty; split; [by intros ?%not_elem_of_nil|by intros []]|..];
    intros *; by rewrite lookup_empty.
Qed.

(** C16: however requests arrive and futures complete, every request to create or
    roll a fork is answered exactly once or still waits for its future; no two
    answers carry the same id; and the fork of an id stays connected to the
    block the id names. *)
Theorem fork_ids_unique `{ForkTypes} (shared_backend : CreateFork → Z → SharedBackend)
    (l : list PollInput) :
  forallb (λ i, forallb (negb ∘ is_shutdown) (incoming i)) l = true →
  (Z.of_nat (length (l ≫= λ i, omap request_sender (incoming i))) + 1 < 2 ^ 64)%Z →
  let '(h, out) := run_polls shared_backend l handler_new in
  NoDup (omap answer_id out) ∧
  (l ≫= λ i, omap request_sender (incoming i)) ≡ₚ waiting_senders h ++ omap answer_sender out ∧
  ∀ s id b e, (s, AnsCreate (Ok (id, b, e))) ∈ out →
    ∃ f o n ks, forks h !! id = Some f ∧ backend f = b ∧ b = shared_backend o n ∧
      id = suffixed (ForkId.new (url o) (Some n)) ks.
Proof.
  intros Hs Hlen. pose proof (gives_run shared_backend l handler_new Hs) as Hg.
  pose proof (moves_run shared_backend l handler_new) as Hm.
  destruct (run_polls shared_backend l handler_new) as [h out]. unfold moves in Hm. cbn in Hm.
  pose proof (fewer_ids out). pose proof (Permutation_length Hm) as Hl. rewrite length_app in Hl.
  destruct (Hg [] (handler_new_inv _)) as (Hi & Hok & _); [cbn; lia|]. cbn in Hi.
  split_and!; [apply Hi|done|]. intros s id b e Hin. rewrite Forall_forall in Hok.
  destruct (Hok _ Hin) as (f & Hf & Hb). cbn in Hf.
  destruct (hi_known _ _ _ Hi _ _ Hf) as [(u & n & ks & g & v & Hid & _ & _ & _ & _ & _ & _ & o & Ho & Hsb) _].
  exists f, o, n, ks. rewrite Ho. split_and!; [done|done|congruence|done].
Qed.

(** ** Example: two forks of one block, and a roll to it from another. *)

Definition example_types : ForkTypes :=
  {| SharedBackend := Str * Z; CfgEnv := unit; OptsRest := unit; BlobExcessGasAndPrice := unit;
     AccessListItem := unit; AuthorizationList := unit |}.

#[local] Existing Instance example_types.

Definition example_backend (o : CreateFork) (n : Z) : SharedBackend := (url o, n).
Definition example_env (n : Z) : Env := 
  mk_env n 0 (mk_block_rest 0 0 0 0 None None) tt 0 None (mk_tx_rest None 0 0 None 0 [] None [] [] None None).
Definition example_fork (n : Z) : CreateFork := mk_create false (str "http://a") (example_env 0) (Some n) tt.
Definition example_polls : list PollInput :=
  [mk_input [ReqCreateFork (example_fork 16) 0; ReqCreateFork (example_fork 16) 1;
             ReqCreateFork (example_fork 5) 2] false
     (λ n, Some (Ok (example_env 0, if decide (n = 0) then 16%Z else 5%Z))) (λ _, false);
   mk_input [ReqRollFork (str "http://a@0x5") 16 3] false (λ _, Some (Ok (example_env 0, 16%Z))) (λ _, false)].

Lemma fork_ids_unique_witness :
  let out := (run_polls example_backend example_polls handler_new).2 in
  omap answer_id out = [str "http://a@0x5"; str "http://a@0x10"; str "http://a@0x10-1"; str "http://a@0x10-2"] ∧
  NoDup (omap answer_id out).
Proof.
  pose proof (fork_ids_unique example_backend example_polls eq_refl ltac:(vm_compute; reflexivity)) as Hw.
  destruct (run_polls example_backend example_polls handler_new) as [h out] eqn:E.
  destruct Hw as [Hw _]. cbn. split; [|exact Hw].
  assert (out = (run_polls example_backend example_polls handler_new).2) as -> by (by rewrite E).
  by vm_compute.
Defined.
