(* ===== verification/ForkBackend.v ===== *)
(** The execution backend of tests and scripts (evm/core/src/backend/): an
    in-memory database and any number of forks, of which one may be active,
    with the data that moves between them when another fork is selected
    (backend/mod.rs, the EVM strategy of backend/strategy.rs), and the
    snapshots of it all (backend/snapshot.rs).

    revm's journaled state and cached database are records with the fields the
    code touches; revm's methods are the class [Revm].  The handler of the forks
    is the class [ForkHandler]. *)
From S2P Require Import Prelude Radix Database Snapshots MultiFork.

(** ** Data of revm *)

Class EvmTypes := {
  Bytecode : Type; Log : Type; JournalEntry : Type; JsRest : Type; MemExt : Type; SpecId : Type
}.

Section revm_types.
Context `{EvmTypes}.

Record EvmStorageSlot := mk_slot { original_value : Z; present_value : Z; is_cold : bool }.

(** An account of the journal, with its [Created] and [Touched] flags. *)
Record Account := mk_account {
  acc_info : AccountInfo Bytecode; acc_storage : gmap Z EvmStorageSlot;
  is_created : bool; is_touched : bool; acc_flags : Z }.

Record JournaledState := mk_js {
  js_state : gmap Z Account; js_logs : list Log; js_depth : Z;
  js_journal : list (list JournalEntry); js_rest : JsRest }.
End revm_types.

Section js_updates.
Context `{EvmTypes}.
Implicit Types js : JournaledState.

Definition set_state (m : gmap Z Account) js : JournaledState :=
  mk_js m (js_logs js) (js_depth js) (js_journal js) (js_rest js).
Definition set_logs (l : list Log) js : JournaledState :=
  mk_js (js_state js) l (js_depth js) (js_journal js) (js_rest js).
Definition set_depth (d : Z) js : JournaledState :=
  mk_js (js_state js) (js_logs js) d (js_journal js) (js_rest js).
Definition set_journal (l : list (list JournalEntry)) js : JournaledState :=
  mk_js (js_state js) (js_logs js) (js_depth js) l (js_rest js).
Definition set_acc_info (i : AccountInfo Bytecode) (a : Account) : Account :=
  mk_account i (acc_storage a) (is_created a) (is_touched a) (acc_flags a).
Definition set_acc_storage (m : gmap Z EvmStorageSlot) (a : Account) : Account :=
  mk_account (acc_info a) m (is_created a) (is_touched a) (acc_flags a).
End js_updates.

(** Methods of revm. *)
Class Revm `{EvmTypes} `{ForkTypes} := {
  DbErr : Type;
  (** [CacheDB::new] *)
  cache_new : SharedBackend → CacheDB.t Bytecode SharedBackend;
  (** [Database] for [CacheDB], which caches what it reads *)
  db_basic : ∀ {Ext}, CacheDB.t Bytecode Ext → Z →
    CacheDB.t Bytecode Ext * result (option (AccountInfo Bytecode)) DbErr;
  db_storage : ∀ {Ext}, CacheDB.t Bytecode Ext → Z → Z → CacheDB.t Bytecode Ext * result Z DbErr;
  db_block_hash : ∀ {Ext}, CacheDB.t Bytecode Ext → Z → CacheDB.t Bytecode Ext * result Z DbErr;
  db_code_by_hash : ∀ {Ext}, CacheDB.t Bytecode Ext → Z → CacheDB.t Bytecode Ext * result Bytecode DbErr;
  (** [DatabaseRef::basic_ref] *)
  db_basic_ref : ∀ {Ext}, CacheDB.t Bytecode Ext → Z → result (option (AccountInfo Bytecode)) DbErr;
  (** [DatabaseCommit::commit] *)
  db_commit : ∀ {Ext}, CacheDB.t Bytecode Ext → gmap Z Account → CacheDB.t Bytecode Ext;
  insert_account_info : ∀ {Ext}, CacheDB.t Bytecode Ext → Z → AccountInfo Bytecode →
    CacheDB.t Bytecode Ext;
  insert_account_storage : ∀ {Ext}, CacheDB.t Bytecode Ext → Z → Z → Z →
    CacheDB.t Bytecode Ext * result unit DbErr;
  replace_account_storage : ∀ {Ext}, CacheDB.t Bytecode Ext → Z → gmap Z Z →
    CacheDB.t Bytecode Ext * result unit DbErr;
  info_default : AccountInfo Bytecode;
  account_from : AccountInfo Bytecode → Account;
  (** [JournaledState::load_account] and [touch] *)
  load_account : ∀ {Ext}, JournaledState → Z → CacheDB.t Bytecode Ext →
    JournaledState * CacheDB.t Bytecode Ext * result Account DbErr;
  touch : JournaledState → Z → JournaledState;
  journaled_state_new : SpecId → JournaledState;
  precompiles : SpecId → gset Z
}.

(** ** The handler of the forks *)

(** What [MultiFork] offers: requests that are answered before it returns. *)
Class ForkHandler `{ForkTypes} (H : Type) := {
  h_create_fork : CreateFork → H → H * result (ForkId.t * SharedBackend * Env) Str;
  h_roll_fork : ForkId.t → Z → H → H * result (ForkId.t * SharedBackend * Env) Str;
  h_get_env : ForkId.t → H → H * result (option Env) Str;
  h_update_block : ForkId.t → Z → Z → H → H * result unit Str;
  h_get_fork_url : ForkId.t → H → H * result (option Str) Str
}.

Inductive ForkType := Evm | Zk.

(** The order in which a [HashSet] is iterated. *)
Definition set_iter `{MapOrder} (s : gset Z) : list Z := (map_iter (gset_to_gmap tt s)).*1.

Section backend.
Context {ET : EvmTypes} {FT : ForkTypes} {RV : Revm} {Hd : Type} {FH : ForkHandler Hd} {MO : MapOrder}.

Abbreviation ForkDB := (CacheDB.t Bytecode SharedBackend).
Abbreviation MemDB := (CacheDB.t Bytecode MemExt).

(** ** State *)

Record Fork := mk_fork { fork_db : ForkDB; fork_js : JournaledState }.

Inductive BackendDatabaseSnapshot :=
  | InMemory (db : MemDB)
  | Forked (id : Z) (fork_id : ForkId.t) (idx : nat) (fork : Fork).

Record BackendStateSnapshot := mk_bsnap {
  bs_db : BackendDatabaseSnapshot; bs_js : JournaledState; bs_env : Env }.

Record BackendInner := mk_inner {
  launched_with_fork : option (ForkId.t * Z * nat);
  issued_local_fork_ids : gmap Z ForkId.t;
  created_forks : gmap ForkId.t nat;
  inner_forks : list (option Fork);
  state_snapshots : StateSnapshots.t BackendStateSnapshot;
  has_state_snapshot_failure : bool;
  test_contract_address : option Z;
  caller : option Z;
  next_fork_id : Z;
  persistent_accounts : gset Z;
  spec_id : SpecId;
  cheatcode_access_accounts : gset Z }.

Record Backend := mk_backend {
  handler : Hd; mem_db : MemDB; fork_init_js : JournaledState;
  active_fork_ids : option (Z * nat); inner : BackendInner; fork_url_type : gmap Str ForkType }.

(** What an operation works on: the backend, and the environment and journaled
    state of the EVM it is called from. *)
Record World := mk_world { backend_of : Backend; env_of : Env; js_of : JournaledState }.

Inductive BackendErr :=
  | NoMatchingFork (id : Z)
  | NoMatchingForkId (id : ForkId.t)
  | ForkDoesNotExist (id : Z)
  | NoForkActive
  | HandlerErr (e : Str)
  | MissingAccount (a : Z)
  | DatabaseErr (e : DbErr)
  | Eyre (e : Str).

Section updates.
Implicit Types (i : BackendInner) (b : Backend) (w : World).

Definition set_issued m i : BackendInner :=
  mk_inner (launched_with_fork i) m (created_forks i) (inner_forks i) (state_snapshots i)
    (has_state_snapshot_failure i) (test_contract_address i) (caller i) (next_fork_id i)
    (persistent_accounts i) (spec_id i) (cheatcode_access_accounts i).
Definition set_created m i : BackendInner :=
  mk_inner (launched_with_fork i) (issued_local_fork_ids i) m (inner_forks i) (state_snapshots i)
    (has_state_snapshot_failure i) (test_contract_address i) (caller i) (next_fork_id i)
    (persistent_accounts i) (spec_id i) (cheatcode_access_accounts i).
Definition set_inner_forks l i : BackendInner :=
  mk_inner (launched_with_fork i) (issued_local_fork_ids i) (created_forks i) l (state_snapshots i)
    (has_state_snapshot_failure i) (test_contract_address i) (caller i) (next_fork_id i)
    (persistent_accounts i) (spec_id i) (cheatcode_access_accounts i).
Definition set_snapshots x i : BackendInner :=
  mk_inner (launched_with_fork i) (issued_local_fork_ids i) (created_forks i) (inner_forks i) x
    (has_state_snapshot_failure i) (test_contract_address i) (caller i) (next_fork_id i)
    (persistent_accounts i) (spec_id i) (cheatcode_access_accounts i).
Definition set_failure x i : BackendInner :=
  mk_inner (launched_with_fork i) (issued_local_fork_ids i) (created_forks i) (inner_forks i)
    (state_snapshots i) x (test_contract_address i) (caller i) (next_fork_id i)
    (persistent_accounts i) (spec_id i) (cheatcode_access_accounts i).
Definition set_test_address x i : BackendInner :=
  mk_inner (launched_with_fork i) (issued_local_fork_ids i) (created_forks i) (inner_forks i)
    (state_snapshots i) (has_state_snapshot_failure i) x (caller i) (next_fork_id i)
    (persistent_accounts i) (spec_id i) (cheatcode_access_accounts i).
Definition set_inner_caller x i : BackendInner :=
  mk_inner (launched_with_fork i) (issued_local_fork_ids i) (created_forks i) (inner_forks i)
    (state_snapshots i) (has_state_snapshot_failure i) (test_contract_address i) x (next_fork_id i)
    (persistent_accounts i) (spec_id i) (cheatcode_access_accounts i).
Definition set_next_fork_id x i : BackendInner :=
  mk_inner (launched_with_fork i) (issued_local_fork_ids i) (created_forks i) (inner_forks i)
    (state_snapshots i) (has_state_snapshot_failure i) (test_contract_address i) (caller i) x
    (persistent_accounts i) (spec_id i) (cheatcode_access_accounts i).
Definition set_persistent x i : BackendInner :=
  mk_inner (launched_with_fork i) (issued_local_fork_ids i) (created_forks i) (inner_forks i)
    (state_snapshots i) (has_state_snapshot_failure i) (test_contract_address i) (caller i)
    (next_fork_id i) x (spec_id i) (cheatcode_access_accounts i).
Definition set_access x i : BackendInner :=
  mk_inner (launched_with_fork i) (issued_local_fork_ids i) (created_forks i) (inner_forks i)
    (state_snapshots i) (has_state_snapshot_failure i) (test_contract_address i) (caller i)
    (next_fork_id i) (persistent_accounts i) (spec_id i) x.

Definition set_launched x i : BackendInner :=
  mk_inner x (issued_local_fork_ids i) (created_forks i) (inner_forks i) (state_snapshots i)
    (has_state_snapshot_failure i) (test_contract_address i) (caller i) (next_fork_id i)
    (persistent_accounts i) (spec_id i) (cheatcode_access_accounts i).

Definition set_handler h b : Backend :=
  mk_backend h (mem_db b) (fork_init_js b) (active_fork_ids b) (inner b) (fork_url_type b).
Definition set_mem_db d b : Backend :=
  mk_backend (handler b) d (fork_init_js b) (active_fork_ids b) (inner b) (fork_url_type b).
Definition set_init_js js b : Backend :=
  mk_backend (handler b) (mem_db b) js (active_fork_ids b) (inner b) (fork_url_type b).
Definition set_active a b : Backend :=
  mk_backend (handler b) (mem_db b) (fork_init_js b) a (inner b) (fork_url_type b).
Definition set_inner i b : Backend :=
  mk_backend (handler b) (mem_db b) (fork_init_js b) (active_fork_ids b) i (fork_url_type b).
Definition set_url_type m b : Backend :=
  mk_backend (handler b) (mem_db b) (fork_init_js b) (active_fork_ids b) (inner b) m.

Definition set_backend b w : World := mk_world b (env_of w) (js_of w).
Definition set_world_env e w : World := mk_world (backend_of w) e (js_of w).
Definition set_world_js js w : World := mk_world (backend_of w) (env_of w) js.
End updates.

(** ** Effects

    An operation changes the world and returns a [Result]; the changes made
    before an error stay.  [None] is a panic. *)

Definition M (A : Type) : Type := World → option (World * result A BackendErr).

Definition mret {A} (a : A) : M A := λ w, Some (w, Ok a).
Definition merr {A} (e : BackendErr) : M A := λ w, Some (w, Err e).
Definition mpanic {A} : M A := λ _, None.
Definition mbind_ {A B} (m : M A) (k : A → M B) : M B := λ w,
  match m w with
  | Some (w, Ok a) => k a w
  | Some (w, Err e) => Some (w, Err e)
  | None => None
  end.
Definition gets {A} (f : World → A) : M A := λ w, Some (w, Ok (f w)).
Definition modify (f : World → World) : M unit := λ w, Some (f w, Ok tt).
(** [Option::ok_or] and [Option::expect] *)
Definition ok_or {A} (o : option A) (e : BackendErr) : M A :=
  match o with Some a => mret a | None => merr e end.
Definition expect {A} (o : option A) : M A :=
  match o with Some a => mret a | None => mpanic end.
(** A request to the handler. *)
Definition request {A} (f : Hd → Hd * result A Str) : M A := λ w,
  let '(h, r) := f (handler (backend_of w)) in
  Some (set_backend (set_handler h (backend_of w)) w,
        match r with Ok a => Ok a | Err e => Err (HandlerErr e) end).
End backend.

Notation "'let!' x := m 'in' k" := (mbind_ m (λ x, k))
  (at level 10, x name, m at level 100, k at level 200) : foundry_scope.
Notation "m ;;! k" := (mbind_ m (λ _, k)) (at level 199, right associativity) : foundry_scope.

Section operations.
Context {ET : EvmTypes} {FT : ForkTypes} {RV : Revm} {Hd : Type} {FH : ForkHandler Hd} {MO : MapOrder}.

Abbreviation ForkDB := (CacheDB.t Bytecode SharedBackend).

(** The probe of a node for the type of its chain. *)
Context (probe : Str → ForkType).

(** ** Merging accounts (strategy.rs) *)

(** The entries of the first map win: [fork.extend(active)]. *)
Definition merge_journaled_state_data (addr : Z) (active_js fork_js : JournaledState) : JournaledState :=
  match js_state active_js !! addr with
  | None => fork_js
  | Some acc =>
      let acc := match js_state fork_js !! addr with
                 | Some fork_account => set_acc_storage (acc_storage acc ∪ acc_storage fork_account) acc
                 | None => acc
                 end in
      set_state (<[addr := acc]> (js_state fork_js)) fork_js
  end.

Definition merge_db_account_data {Ext} (addr : Z) (active : CacheDB.t Bytecode Ext) (fork_db : ForkDB) : ForkDB :=
  match CacheDB.accounts active !! addr with
  | None => fork_db
  | Some acc =>
      let contracts :=
        match CacheDB.contracts active !! code_hash (info acc) with
        | Some code => <[code_hash (info acc) := code]> (CacheDB.contracts fork_db)
        | None => CacheDB.contracts fork_db
        end in
      let acc := match CacheDB.accounts fork_db !! addr with
                 | Some fork_account =>
                     mk_acc (info acc) (account_state acc) (storage acc ∪ storage fork_account)
                 | None => acc
                 end in
      CacheDB.mk (<[addr := acc]> (CacheDB.accounts fork_db)) contracts
        (CacheDB.block_hashes fork_db) (CacheDB.db fork_db)
  end.

Definition merge_accounts {Ext} (accounts : list Z) (active : CacheDB.t Bytecode Ext)
    (active_js : JournaledState) (target_fork : Fork) : Fork :=
  foldl (λ f addr, mk_fork (merge_db_account_data addr active (fork_db f))
                     (merge_journaled_state_data addr active_js (fork_js f))) target_fork accounts.

(** Empty journal entries up to the length of the active journal. *)
Definition pad_journal (active_js js : JournaledState) : JournaledState :=
  set_journal (js_journal js ++
    replicate (length (js_journal active_js) - length (js_journal js)) []) js.

Definition merge_account_data {Ext} (accounts : list Z) (active : CacheDB.t Bytecode Ext)
    (active_js : JournaledState) (target_fork : Fork) : JournaledState * Fork :=
  let f := merge_accounts accounts active active_js target_fork in
  let f := mk_fork (fork_db f) (pad_journal active_js (fork_js f)) in
  (fork_js f, f).

(** [update_fork_db] of the EVM strategy. *)
Definition update_fork_db (active_fork : option Fork) (w : World (Hd := Hd)) (target_fork : Fork) :
    JournaledState * Fork :=
  let accounts := set_iter (persistent_accounts (inner (backend_of w))) in
  match active_fork with
  | Some f => merge_account_data accounts (fork_db f) (js_of w) target_fork
  | None => merge_account_data accounts (mem_db (backend_of w)) (js_of w) target_fork
  end.

(** ** Lookups *)

Definition ensure_fork_id (id : Z) : M (Hd := Hd) ForkId.t :=
  let! i := gets (λ w, inner (backend_of w)) in
  ok_or (issued_local_fork_ids i !! id) (NoMatchingFork id).

Definition ensure_fork_index (id : ForkId.t) : M (Hd := Hd) nat :=
  let! i := gets (λ w, inner (backend_of w)) in
  ok_or (created_forks i !! id) (NoMatchingForkId id).

Definition ensure_fork_index_by_local_id (id : Z) : M (Hd := Hd) nat :=
  let! fork_id := ensure_fork_id id in ensure_fork_index fork_id.

(** [forks[idx].as_ref().unwrap()] *)
Definition fork_at (b : Backend (Hd := Hd)) (idx : nat) : option Fork := mjoin (inner_forks (inner b) !! idx).

Definition get_fork (idx : nat) : M (Hd := Hd) Fork :=
  let! b := gets backend_of in expect (fork_at b idx).

Definition modify_backend (f : Backend → Backend) : M (Hd := Hd) unit :=
  modify (λ w, set_backend (f (backend_of w)) w).

Definition modify_inner (f : BackendInner → BackendInner) : M (Hd := Hd) unit :=
  modify_backend (λ b, set_inner (f (inner b)) b).

(** [self.forks[idx] = x], which panics out of range. *)
Definition put_fork (idx : nat) (x : option Fork) : M (Hd := Hd) unit :=
  let! i := gets (λ w, inner (backend_of w)) in
  if decide (idx < length (inner_forks i))
  then modify_inner (λ i, set_inner_forks (<[idx := x]> (inner_forks i)) i)
  else mpanic.

Definition set_fork (idx : nat) (f : Fork) : M (Hd := Hd) unit := put_fork idx (Some f).

Definition take_fork (idx : nat) : M (Hd := Hd) Fork :=
  let! f := get_fork idx in put_fork idx None ;;! mret f.

Definition active_fork_id (b : Backend (Hd := Hd)) : option Z := fst <$> active_fork_ids b.

Definition is_active_fork (b : Backend (Hd := Hd)) (id : Z) : bool :=
  match active_fork_ids b with Some (i, _) => (i =? id)%Z | None => false end.

Definition ensure_fork (id : option Z) : M (Hd := Hd) Z :=
  let! b := gets backend_of in
  match id with
  | Some id => if decide (is_Some (issued_local_fork_ids (inner b) !! id)) then mret id
               else merr (ForkDoesNotExist id)
  | None => ok_or (active_fork_id b) NoForkActive
  end.

(** [CachedForkType::get] *)
Definition cached_fork_type (url : Str) : M (Hd := Hd) ForkType :=
  let! b := gets backend_of in
  match fork_url_type b !! url with
  | Some t => mret t
  | None => modify_backend (λ b, set_url_type (<[url := probe url]> (fork_url_type b)) b) ;;!
            mret (probe url)
  end.

Definition fork_type_of (fork_id : ForkId.t) (otherwise : ForkType) : M (Hd := Hd) ForkType :=
  let! u := request (h_get_fork_url fork_id) in
  match u with Some url => cached_fork_type url | None => mret otherwise end.

(** ** Forks *)

Definition next_id : M (Hd := Hd) Z :=
  let! i := gets (λ w, inner (backend_of w)) in
  modify_inner (λ i, set_next_fork_id ((next_fork_id i + 1) mod 2 ^ 256)%Z i) ;;!
  mret (next_fork_id i).

Definition insert_new_fork (fork_id : ForkId.t) (db : ForkDB) (js : JournaledState) :
    M (Hd := Hd) (Z * nat) :=
  let! i := gets (λ w, inner (backend_of w)) in
  let idx := length (inner_forks i) in
  modify_inner (λ i, set_created (<[fork_id := idx]> (created_forks i)) i) ;;!
  let! id := next_id in
  modify_inner (λ i, set_issued (<[id := fork_id]> (issued_local_fork_ids i)) i) ;;!
  modify_inner (λ i, set_inner_forks (inner_forks i ++ [Some (mk_fork db js)]) i) ;;!
  mret (id, idx).

Definition create_fork (create : CreateFork) : M (Hd := Hd) Z :=
  let! r := request (h_create_fork create) in
  let! b := gets backend_of in
  let! ids := insert_new_fork r.1.1 (cache_new r.1.2) (fork_init_js b) in
  mret ids.1.

Definition update_current_env_with_fork_env (current fork : Env) : Env :=
  mk_env (block_number fork) (block_timestamp fork) (block_rest fork) (cfg fork)
    (tx_caller current) (tx_chain_id fork) (tx_rest current).

(** The accounts of the initial state that each fork has to look up. *)
Definition loaded_accounts (b : Backend (Hd := Hd)) : list Z :=
  filter (λ a, (a ∉ precompiles (spec_id (inner b))) ∧ (a ∉ persistent_accounts (inner b)))
    (map_iter (js_state (fork_init_js b))).*1.

(** The inner loop of [prepare_init_journal_state]. *)
Fixpoint replace_accounts (idx : nat) (l : list Z) (js : JournaledState) : M (Hd := Hd) JournaledState :=
  match l with
  | [] => mret js
  | a :: l =>
      let! acc := expect (js_state js !! a) in
      if is_created acc then replace_accounts idx l js
      else
        let! f := get_fork idx in
        let '(db, r) := db_basic (fork_db f) a in
        set_fork idx (mk_fork db (fork_js f)) ;;!
        match r with
        | Err e => merr (DatabaseErr e)
        | Ok None => merr (MissingAccount a)
        | Ok (Some fork_account) =>
            replace_accounts idx l (set_state (<[a := set_acc_info fork_account acc]> (js_state js)) js)
        end
  end.

(** The loop over the forks, from index [idx]; [n] are left. *)
Fixpoint prepare_forks (n idx : nat) (init : JournaledState) (loaded : list Z) : M (Hd := Hd) unit :=
  match n with
  | O => mret tt
  | S n =>
      let! b := gets backend_of in
      match fork_at b idx with
      | None => prepare_forks n (S idx) init loaded
      | Some _ =>
          let! js := replace_accounts idx loaded init in
          let! f := get_fork idx in
          set_fork idx (mk_fork (fork_db f) js) ;;!
          prepare_forks n (S idx) init loaded
      end
  end.

Definition prepare_init_journal_state : M (Hd := Hd) unit :=
  let! b := gets backend_of in
  prepare_forks (length (inner_forks (inner b))) 0 (fork_init_js b) (loaded_accounts b).

(** [state.entry(caller).or_insert_with(..)] *)
Definition ensure_caller (caller : Z) (current_js : JournaledState) (f : Fork) (js : JournaledState) :
    Fork * JournaledState :=
  match js_state js !! caller with
  | Some _ => (f, js)
  | None =>
      let i := match js_state current_js !! caller with Some acc => acc_info acc | None => info_default end in
      let db := if decide (is_Some (CacheDB.accounts (fork_db f) !! caller)) then fork_db f
                else insert_account_info (fork_db f) caller i in
      (mk_fork db (fork_js f), set_state (<[caller := account_from i]> (js_state js)) js)
  end.

(** The active fork keeps the journaled state so far; a target that was never
    selected gets the caller with its account on that fork. *)
Definition leave_fork (active_idx idx : nat) : M (Hd := Hd) unit :=
  let! active := get_fork active_idx in
  let! js := gets js_of in
  let! e := gets env_of in
  set_fork active_idx (mk_fork (fork_db active) js) ;;!
  let! target := get_fork idx in
  if (js_depth (fork_js target) =? 0)%Z then
    match js_state js !! tx_caller e with
    | None => mret tt
    | Some acc =>
        let '(db, r) := db_basic (fork_db target) (tx_caller e) in
        set_fork idx (mk_fork db (fork_js target)) ;;!
        match r with
        | Err x => merr (DatabaseErr x)
        | Ok None => merr (MissingAccount (tx_caller e))
        | Ok (Some fork_account) =>
            set_fork idx (mk_fork db (set_state
              (<[tx_caller e := set_acc_info fork_account acc]> (js_state (fork_js target))) (fork_js target)))
        end
    end
  else mret tt.

(** The first fork: the journaled state so far is that of all forks. *)
Definition first_fork : M (Hd := Hd) unit :=
  let! js := gets js_of in
  modify_backend (set_init_js js) ;;!
  prepare_init_journal_state ;;!
  modify_backend (λ b, set_init_js (set_depth 0 (fork_init_js b)) b).

(** The target fork takes over: depth, caller and persistent accounts. *)
Definition enter_fork (idx : nat) : M (Hd := Hd) unit :=
  let! fork := take_fork idx in
  let! w := gets id in
  let fork := mk_fork (fork_db fork) (set_depth (js_depth (js_of w)) (fork_js fork)) in
  let '(fork, js) := ensure_caller (tx_caller (env_of w)) (js_of w) fork (fork_js fork) in
  let fork := mk_fork (fork_db fork) js in
  let! active_fork :=
    match active_fork_ids (backend_of w) with
    | Some (_, active_idx) => let! f := get_fork active_idx in mret (Some f)
    | None => mret None
    end in
  let '(js, fork) := update_fork_db active_fork w fork in
  modify (set_world_js js) ;;!
  set_fork idx fork.

Definition select_fork (id : Z) : M (Hd := Hd) unit :=
  let! b := gets backend_of in
  if is_active_fork b id then mret tt
  else
    match active_fork_id b with
    | Some active_id =>
        let! fork_id := ensure_fork_id active_id in
        let! e := gets env_of in
        request (h_update_block fork_id (block_number e) (block_timestamp e))
    | None => mret tt
    end ;;!
    let! fork_id := ensure_fork_id id in
    let! idx := ensure_fork_index fork_id in
    match active_fork_id b with
    | Some active_id => let! fork_id := ensure_fork_id active_id in fork_type_of fork_id Evm
    | None => mret Zk
    end ;;!
    fork_type_of fork_id Evm ;;!
    let! fork_env := request (h_get_env fork_id) in
    let! fork_env := ok_or fork_env (ForkDoesNotExist id) in
    match active_fork_ids b with
    | Some (_, active_idx) => leave_fork active_idx idx
    | None => first_fork
    end ;;!
    enter_fork idx ;;!
    modify_backend (set_active (Some (id, idx))) ;;!
    modify (λ w, set_world_env (update_current_env_with_fork_env (env_of w) fork_env) w).

Definition create_select_fork (create : CreateFork) : M (Hd := Hd) Z :=
  let! id := create_fork create in select_fork id ;;! mret id.

(** [BackendInner::roll_fork] *)
Definition inner_roll_fork (id : Z) (new_fork_id : ForkId.t) (backend : SharedBackend) : M (Hd := Hd) nat :=
  let! fork_id := ensure_fork_id id in
  let! idx := ensure_fork_index fork_id in
  let! i := gets (λ w, inner (backend_of w)) in
  let! slot := expect (inner_forks i !! idx) in
  match slot with
  | Some active =>
      set_fork idx (mk_fork (foldl (λ db addr, merge_db_account_data addr (fork_db active) db)
                               (cache_new backend) (set_iter (persistent_accounts i))) (fork_js active))
  | None => mret tt
  end ;;!
  modify_inner (λ i, set_issued (<[id := new_fork_id]> (issued_local_fork_ids i)) i) ;;!
  modify_inner (λ i, set_created (<[new_fork_id := idx]> (created_forks i)) i) ;;!
  mret idx.

(** Accounts of the journaled state that stay or are loaded at the new block. *)
Definition reload_account (js : JournaledState) (f : Fork) (x : Z * Account) : Fork :=
  let '(addr, acc) := x in
  if is_created acc then
    if is_touched acc then mk_fork (fork_db f) (merge_journaled_state_data addr js (fork_js f)) else f
  else let '(js', db, _) := load_account (fork_js f) addr (fork_db f) in mk_fork db js'.

(** The active fork starts again from the initial state. *)
Definition reset_active (active_idx : nat) (fork_env : Env) : M (Hd := Hd) unit :=
  modify (λ w, set_world_env (update_current_env_with_fork_env (env_of w) fork_env) w) ;;!
  let! w := gets id in
  let b := backend_of w in
  let persistent := persistent_accounts (inner b) ∪ list_to_set (option_list (caller (inner b))) in
  let! active := get_fork active_idx in
  let js := set_depth (js_depth (js_of w)) (fork_init_js b) in
  let js := foldl (λ js addr, merge_journaled_state_data addr (js_of w) js) js (set_iter persistent) in
  let active := foldl (reload_account (js_of w)) (mk_fork (fork_db active) js) (map_iter (js_state (js_of w))) in
  set_fork active_idx active ;;!
  modify (set_world_js (fork_js active)).

Definition roll_fork (id : option Z) (block : Z) : M (Hd := Hd) unit :=
  let! id := ensure_fork id in
  let! fork_id := ensure_fork_id id in
  let! r := request (h_roll_fork fork_id block) in
  inner_roll_fork id r.1.1 r.1.2 ;;!
  let! b := gets backend_of in
  match active_fork_ids b with
  | Some (active_id, active_idx) =>
      if (active_id =? id)%Z then reset_active active_idx r.2 else mret tt
  | None => mret tt
  end.

(** ** Snapshots *)

Definition create_db_snapshot : M (Hd := Hd) BackendDatabaseSnapshot :=
  let! b := gets backend_of in
  match active_fork_ids b with
  | Some (id, idx) =>
      let! fork := get_fork idx in
      let! fork_id := expect (issued_local_fork_ids (inner b) !! id) in
      mret (Forked id fork_id idx fork)
  | None => mret (InMemory (mem_db b))
  end.

Definition snapshot_state : M (Hd := Hd) Z :=
  let! db := create_db_snapshot in
  let! w := gets id in
  let '(s, i) := StateSnapshots.insert (state_snapshots (inner (backend_of w)))
                   (mk_bsnap db (js_of w) (env_of w)) in
  modify_inner (set_snapshots s) ;;! mret i.

(** The slot of the cheatcode account that marks a failed test. *)
Context (CHEATCODE_ADDRESS GLOBAL_FAIL_SLOT : Z).

Definition failed (js : JournaledState) : bool :=
  match js_state js !! CHEATCODE_ADDRESS with
  | Some acc => match acc_storage acc !! GLOBAL_FAIL_SLOT with
                | Some slot => negb (present_value slot =? 0)%Z
                | None => false
                end
  | None => false
  end.

(** [BackendInner::revert_state_snapshot] *)
Definition revert_state_snapshot (id : Z) (fork_id : ForkId.t) (idx : nat) (fork : Fork) :
    M (Hd := Hd) unit :=
  modify_inner (λ i, set_created (<[fork_id := idx]> (created_forks i)) i) ;;!
  modify_inner (λ i, set_issued (<[id := fork_id]> (issued_local_fork_ids i)) i) ;;!
  set_fork idx fork.

(** The end of [revert_state]: the database and the environment of the snapshot
    are put back; the journaled state keeps the logs since. *)
Definition restore_snapshot (current : World (Hd := Hd)) (snapshot : BackendStateSnapshot) :
    M (Hd := Hd) bool :=
  let js := set_logs (js_logs (js_of current)) (bs_js snapshot) in
  let! js :=
    match bs_db snapshot with
    | InMemory db => modify_backend (set_mem_db db) ;;! mret js
    | Forked id fork_id idx fork =>
        let '(fork, js) := ensure_caller (tx_caller (env_of current)) (js_of current) fork js in
        revert_state_snapshot id fork_id idx fork ;;!
        modify_backend (set_active (Some (id, idx))) ;;! mret js
    end in
  modify (λ w, set_world_env (update_current_env_with_fork_env (env_of w) (bs_env snapshot)) w) ;;!
  modify (set_world_js js) ;;!
  mret true.

(** [true] if there was a snapshot, whose journaled state is then the current
    one (the cheatcode puts the state that is returned in place). *)
Definition revert_state (id : Z) (action : RevertStateSnapshotAction) : M (Hd := Hd) bool :=
  let! w := gets (λ w, w) in
  let '(s, found) := StateSnapshots.remove_at (state_snapshots (inner (backend_of w))) id in
  modify_inner (set_snapshots s) ;;!
  match found with
  | None => mret false
  | Some snapshot =>
      (if is_keep action then modify_inner (set_snapshots (StateSnapshots.insert_at s snapshot id).1)
       else mret tt) ;;!
      (if failed (js_of w) then modify_inner (set_failure true) else mret tt) ;;!
      restore_snapshot w snapshot
  end.

Definition delete_state_snapshot (id : Z) : M (Hd := Hd) bool :=
  let! i := gets (λ w, inner (backend_of w)) in
  let '(s, found) := StateSnapshots.remove_at (state_snapshots i) id in
  modify_inner (set_snapshots s) ;;! mret (bool_decide (is_Some found)).

Definition delete_state_snapshots : M (Hd := Hd) unit :=
  modify_inner (λ i, set_snapshots (StateSnapshots.clear (state_snapshots i)) i).

(** ** Accounts *)

Definition add_persistent_account (a : Z) : M (Hd := Hd) bool :=
  let! i := gets (λ w, inner (backend_of w)) in
  modify_inner (λ i, set_persistent ({[a]} ∪ persistent_accounts i) i) ;;!
  mret (bool_decide (a ∉ persistent_accounts i)).

Definition remove_persistent_account (a : Z) : M (Hd := Hd) bool :=
  let! i := gets (λ w, inner (backend_of w)) in
  modify_inner (λ i, set_persistent (persistent_accounts i ∖ {[a]}) i) ;;!
  mret (bool_decide (a ∈ persistent_accounts i)).

Definition allow_cheatcode_access (a : Z) : M (Hd := Hd) bool :=
  let! i := gets (λ w, inner (backend_of w)) in
  modify_inner (λ i, set_access ({[a]} ∪ cheatcode_access_accounts i) i) ;;!
  mret (bool_decide (a ∉ cheatcode_access_accounts i)).

Definition set_test_contract (a : Z) : M (Hd := Hd) unit :=
  add_persistent_account a ;;!
  allow_cheatcode_access a ;;!
  modify_inner (set_test_address (Some a)).

Definition set_caller (a : Z) : M (Hd := Hd) unit :=
  modify_inner (set_inner_caller (Some a)) ;;!
  allow_cheatcode_access a ;;! mret tt.

(** The active database: that of the active fork, or the one in memory. *)
Definition on_db {A} (on_fork : ForkDB → ForkDB * A) (on_mem : CacheDB.t Bytecode MemExt → CacheDB.t Bytecode MemExt * A) :
    M (Hd := Hd) A :=
  let! b := gets backend_of in
  match active_fork_ids b with
  | Some (_, idx) =>
      let! f := get_fork idx in
      let '(db, r) := on_fork (fork_db f) in
      set_fork idx (mk_fork db (fork_js f)) ;;! mret r
  | None => let '(db, r) := on_mem (mem_db b) in modify_backend (set_mem_db db) ;;! mret r
  end.

(** [Backend::insert_account_info] *)
Definition backend_insert_account_info (a : Z) (i : AccountInfo Bytecode) : M (Hd := Hd) unit :=
  on_db (λ db, (insert_account_info db a i, tt)) (λ db, (insert_account_info db a i, tt)).

Definition merged_logs (b : Backend (Hd := Hd)) (logs : list Log) : list Log :=
  match active_fork_ids b with
  | Some (_, active) =>
      concat (imap (λ idx f, match f with
                             | None => []
                             | Some f => if decide (idx = active) then logs else js_logs (fork_js f)
                             end) (inner_forks (inner b)))
  | None => logs
  end.

(** ** Construction *)

Context (CREATE2_DEPLOYER CALLER TEST_CONTRACT_ADDRESS : Z) (SPEC_LATEST : SpecId)
  (mem_new : CacheDB.t Bytecode MemExt).

Definition inner_default : BackendInner :=
  mk_inner None ∅ ∅ [] StateSnapshots.default false None None 0 ∅ SPEC_LATEST
    {[CHEATCODE_ADDRESS; TEST_CONTRACT_ADDRESS; CALLER]}.

Definition backend_new (h : Hd) (create : option CreateFork) (e : Env) (js : JournaledState) :
    option (World (Hd := Hd)) :=
  let i := set_persistent {[CHEATCODE_ADDRESS; CREATE2_DEPLOYER; CALLER]} inner_default in
  let b := mk_backend h mem_new (journaled_state_new (spec_id i)) None i ∅ in
  let w := mk_world b e js in
  match create with
  | None => Some w
  | Some create =>
      match h_create_fork create h with
      | (h, Ok (fork_id, sb, _)) =>
          let w := set_backend (set_handler h b) w in
          match insert_new_fork fork_id (cache_new sb) (journaled_state_new (spec_id i)) w with
          | Some (w, Ok (id, idx)) =>
              let b := backend_of w in
              let b := set_inner (set_launched (Some (fork_id, id, idx)) (inner b)) b in
              Some (set_backend (set_active (Some (id, idx)) b) w)
          | _ => None
          end
      | (_, Err _) => None
      end
  end.
End operations.
