(* ===== verification/ForkBackendInv.v ===== *)
(** The invariant of the backend: every local fork id has a fork of its own, and
    no operation panics. *)
From S2P Require Import Prelude Radix Database Snapshots MultiFork ForkBackend.

(** ** What is assumed of the handler

    The ids it gives to new or rolled forks are new, as long as it has not given
    out too many: [h_ok n], at most [n] of them. *)
Definition MAX_FORKS : Z := 2 ^ 63.

Class ForkHandlerLaws `{ForkTypes} (Hd : Type) {FH : ForkHandler Hd} := {
  h_ok : Z → Hd → Prop;
  h_known : Hd → ForkId.t → Prop;
  h_ok_mono n m h : (n ≤ m)%Z → h_ok n h → h_ok m h;
  h_create_new n o h : h_ok n h → (n < MAX_FORKS)%Z →
    let '(h', r) := h_create_fork o h in
    h_ok (n + 1) h' ∧ (∀ id, h_known h id → h_known h' id) ∧
    match r with Ok (id, _, _) => ¬ h_known h id ∧ h_known h' id | Err _ => True end;
  h_roll_new n i block h : h_ok n h → (n < MAX_FORKS)%Z →
    let '(h', r) := h_roll_fork i block h in
    h_ok (n + 1) h' ∧ (∀ id, h_known h id → h_known h' id) ∧
    match r with Ok (id, _, _) => ¬ h_known h id ∧ h_known h' id | Err _ => True end;
  h_env_ok n i h : h_ok n h → h_ok n (h_get_env i h).1 ∧ ∀ id, h_known h id → h_known (h_get_env i h).1 id;
  h_block_ok n i number timestamp h : h_ok n h →
    h_ok n (h_update_block i number timestamp h).1 ∧
    ∀ id, h_known h id → h_known (h_update_block i number timestamp h).1 id;
  h_url_ok n i h : h_ok n h → h_ok n (h_get_fork_url i h).1 ∧ ∀ id, h_known h id → h_known (h_get_fork_url i h).1 id
}.

Section inv.
Context {ET : EvmTypes} {FT : ForkTypes} {RV : Revm} {Hd : Type} {FH : ForkHandler Hd} {MO : MapOrder}.
Context {HL : ForkHandlerLaws Hd}.
Implicit Types (w : World (Hd := Hd)) (b : Backend (Hd := Hd)) (i : BackendInner).

(** ** Reasoning about operations *)

(** From every state in [P] the operation returns, in a state and with a result
    in [Q]. *)
Definition triple {A} (P : World (Hd := Hd) → Prop) (m : M A)
    (Q : result A BackendErr → World (Hd := Hd) → Prop) : Prop :=
  ∀ w, P w → ∃ w' r, m w = Some (w', r) ∧ Q r w'.

(** On success [Q], and [R] in every case of an error. *)
Definition post {A} (Q : A → World (Hd := Hd) → Prop) (R : World (Hd := Hd) → Prop)
    (r : result A BackendErr) w : Prop :=
  match r with Ok a => Q a w | Err _ => R w end.

Lemma triple_seq {A B} P (m : M A) (k : A → M B) Q R Q' :
  triple P m (post Q R) → (∀ a, triple (Q a) (k a) (post Q' R)) → triple P (mbind_ m k) (post Q' R).
Proof.
  intros Hm Hk w Hw. unfold mbind_. destruct (Hm w Hw) as (w1 & [a|e] & -> & Hq).
  - apply Hk, Hq.
  - do 2 eexists. split; [done|exact Hq].
Qed.

Lemma triple_return {A} P (a : A) Q R : (∀ w, P w → Q a w) → triple P (mret a) (post Q R).
Proof. intros HP w Hw. do 2 eexists. split; [done|by apply HP]. Qed.

Lemma triple_err {A} P (e : BackendErr) (Q : A → _) R : (∀ w, P w → R w) → triple P (merr e) (post Q R).
Proof. intros HP w Hw. do 2 eexists. split; [done|by apply HP]. Qed.

Lemma triple_gets {A} P (f : World → A) Q R : (∀ w, P w → Q (f w) w) → triple P (gets f) (post Q R).
Proof. intros HP w Hw. do 2 eexists. split; [done|by apply HP]. Qed.

Lemma triple_modify P f Q R : (∀ w, P w → Q tt (f w)) → triple P (modify f) (post Q R).
Proof. intros HP w Hw. do 2 eexists. split; [done|by apply HP]. Qed.

Lemma triple_conseq {A} (P P' : World → Prop) (m : M A) Q Q' :
  triple P' m Q' → (∀ w, P w → P' w) → (∀ r w, Q' r w → Q r w) → triple P m Q.
Proof. intros Hm HP HQ w Hw. destruct (Hm w (HP w Hw)) as (w' & r & E & Hr). eauto 6. Qed.

(** ** The invariant *)

Definition slot_of (id : Z) : nat := Z.to_nat id.

(** A snapshot refers to a fork that is still there. *)
Definition snapshot_wf h i (x : BackendStateSnapshot) : Prop :=
  match bs_db x with
  | InMemory _ => True
  | Forked id fid idx f => is_Some (issued_local_fork_ids i !! id) ∧ idx = slot_of id ∧
      created_forks i !! fid = Some idx ∧ h_known h fid
  end.

Record inner_wf (h : Hd) i : Prop := {
  (** the local ids are the indices of the forks *)
  wf_issued : ∀ id, is_Some (issued_local_fork_ids i !! id) ↔ (0 ≤ id < Z.of_nat (length (inner_forks i)))%Z;
  wf_slot : ∀ id fid, issued_local_fork_ids i !! id = Some fid → created_forks i !! fid = Some (slot_of id);
  wf_next : next_fork_id i = Z.of_nat (length (inner_forks i));
  wf_known : ∀ fid idx, created_forks i !! fid = Some idx → h_known h fid;
  wf_some : Forall is_Some (inner_forks i);
  wf_snapshots : ∀ k x, StateSnapshots.state_snapshots (state_snapshots i) !! k = Some x → snapshot_wf h i x }.

Definition active_wf b : Prop := ∀ id idx, active_fork_ids b = Some (id, idx) →
  is_Some (issued_local_fork_ids (inner b) !! id) ∧ idx = slot_of id.

(** At most [n] forks, and [n] ids. *)
Record world_wf (n : Z) w : Prop := {
  ww_inner : inner_wf (handler (backend_of w)) (inner (backend_of w));
  ww_active : active_wf (backend_of w);
  ww_count : (Z.of_nat (length (inner_forks (inner (backend_of w)))) ≤ n)%Z ∧ h_ok n (handler (backend_of w)) }.

(** A fork to keep an eye on, if any: it is there, and not the active one. *)
Definition frame : Type := option (nat * Fork).

Definition holds (fr : frame) w : Prop :=
  match fr with
  | Some (k, f) => inner_forks (inner (backend_of w)) !! k = Some (Some f)
  | None => True
  end.

Definition free (fr : frame) (idx : nat) : Prop := match fr with Some (k, _) => idx ≠ k | None => True end.

Definition away (fr : frame) w : Prop :=
  match fr with
  | Some (k, _) => ∃ id idx, active_fork_ids (backend_of w) = Some (id, idx) ∧ idx ≠ k
  | None => True
  end.

Record framed (fr : frame) (n : Z) w : Prop := {
  fr_world : world_wf n w; fr_holds : holds fr w; fr_away : away fr w }.

(** An operation that keeps the invariant and the fork, and does not panic. *)
Definition safe {A} (fr : frame) (n m : Z) (op : M A) : Prop :=
  triple (framed fr n) op (post (λ _, framed fr m) (framed fr m)).

(** ** Operations that leave the tables alone *)

(** The tables of the backend, and the active fork. *)
Definition tables w : gmap Z ForkId.t * gmap ForkId.t nat * nat * option (Z * nat) :=
  (issued_local_fork_ids (inner (backend_of w)), created_forks (inner (backend_of w)),
   length (inner_forks (inner (backend_of w))), active_fork_ids (backend_of w)).

Section quiet.
Context (fr : frame).

Definition at_tables (n : Z) t w : Prop := world_wf n w ∧ tables w = t ∧ holds fr w.

(** Keeps the invariant and the tables. *)
Definition quiet {A} (n : Z) t (op : M A) : Prop :=
  triple (at_tables n t) op (post (λ _, at_tables n t) (at_tables n t)).

Lemma quiet_bind {A B} n t (m : M A) (k : A → M B) :
  quiet n t m → (∀ a, quiet n t (k a)) → quiet n t (mbind_ m k).
Proof. apply triple_seq. Qed.

Lemma quiet_ret {A} n t (a : A) : quiet n t (mret a).
Proof. by apply triple_return. Qed.

Lemma quiet_err {A} n t e : quiet (A := A) n t (merr e).
Proof. by apply triple_err. Qed.

Lemma quiet_gets {A} n t (f : World → A) : quiet n t (gets f).
Proof. by apply triple_gets. Qed.

(** The value that is read is known in what follows. *)
Lemma quiet_gets_bind {A B} n t (f : World → A) (k : A → M B) :
  (∀ a, triple (λ w, at_tables n t w ∧ a = f w) (k a) (post (λ _, at_tables n t) (at_tables n t))) →
  quiet n t (mbind_ (gets f) k).
Proof. intros Hk. eapply triple_seq; [|exact Hk]. by apply triple_gets. Qed.

Lemma quiet_ok_or {A} n t (o : option A) e : quiet n t (ok_or o e).
Proof. destruct o; [apply quiet_ret|apply quiet_err]. Qed.

Lemma inner_wf_handler (h h' : Hd) i : (∀ id, h_known h id → h_known h' id) → inner_wf h i → inner_wf h' i.
Proof.
  intros Hk [H1 H2 H3 H4 H5 H6]. split; [done..|eauto|done|].
  intros k x Hx. specialize (H6 k x Hx). unfold snapshot_wf in *. case_match; naive_solver.
Qed.

Lemma at_tables_handler n m t w h' :
  (n ≤ m)%Z → h_ok m h' → (∀ id, h_known (handler (backend_of w)) id → h_known h' id) → at_tables n t w →
  at_tables m t (set_backend (set_handler h' (backend_of w)) w).
Proof.
  intros Hnm Hok Hk [[Hi Ha [Hc _]] Ht]. split; [|done]. split; [by eapply inner_wf_handler|done|]. split; [cbn; lia|done].
Qed.

Lemma quiet_request {A} n t (f : Hd → Hd * result A Str) :
  (∀ h, h_ok n h → h_ok n (f h).1 ∧ ∀ id, h_known h id → h_known (f h).1 id) → quiet n t (request f).
Proof.
  intros Hf w Hw. unfold request. destruct (Hf (handler (backend_of w))) as [Hok Hh]; [apply Hw|].
  destruct (f (handler (backend_of w))) as [h' r].
  do 2 eexists. split; [done|]. pose proof (at_tables_handler n n t w h' ltac:(lia) Hok Hh Hw). by destruct r.
Qed.

(** A change of the backend that the invariant does not see. *)
Lemma quiet_modify n t (f : World → World) :
  (∀ w, inner (backend_of (f w)) = inner (backend_of w) ∧ handler (backend_of (f w)) = handler (backend_of w) ∧
    active_fork_ids (backend_of (f w)) = active_fork_ids (backend_of w)) →
  quiet n t (modify f).
Proof.
  intros Hf. apply triple_modify. intros w ([Hi Ha Hc] & Ht & Hh). destruct (Hf w) as (Ei & Eh & Ea).
  split; [split; [by rewrite Ei, Eh|unfold active_wf; by rewrite Ei, Ea|by rewrite Ei, Eh]|].
  unfold tables, holds in *. by rewrite Ei, Ea.
Qed.

Lemma quiet_modify_inner n t f :
  (∀ i, issued_local_fork_ids (f i) = issued_local_fork_ids i ∧ created_forks (f i) = created_forks i ∧
    inner_forks (f i) = inner_forks i ∧ next_fork_id (f i) = next_fork_id i ∧
    state_snapshots (f i) = state_snapshots i) →
  quiet n t (modify_inner f).
Proof.
  intros Hf. apply triple_modify. intros w ([Hi Ha Hc] & Ht & Hh).
  destruct (Hf (inner (backend_of w))) as (E1 & E2 & E3 & E4 & E5).
  destruct Hi as [H1 H2 H3 H4 H5 H6].
  split; [split; cbn|unfold tables, holds in *; cbn; by rewrite E1, E2, E3].
  - split; rewrite ?E1, ?E2, ?E3, ?E4, ?E5; [done..|].
    intros k x Hx. specialize (H6 k x Hx). unfold snapshot_wf in *. by rewrite E1, E2.
  - unfold active_wf. cbn. by rewrite E1.
  - by rewrite E3.
Qed.

Lemma quiet_cached_fork_type probe n t u : quiet n t (cached_fork_type probe u).
Proof.
  apply quiet_bind; [apply quiet_gets|]. intros b. destruct (fork_url_type b !! u); [apply quiet_ret|].
  apply quiet_bind; [by apply quiet_modify|]. intros _. apply quiet_ret.
Qed.

Lemma quiet_fork_type_of probe n t fid ty : quiet n t (fork_type_of probe fid ty).
Proof.
  apply quiet_bind; [apply quiet_request; intros ?; apply h_url_ok|]. intros [u|]; [apply quiet_cached_fork_type|apply quiet_ret].
Qed.

(** *** Forks by index *)

Lemma fork_there n t w idx : at_tables n t w → idx < t.1.2 → ∃ f, inner_forks (inner (backend_of w)) !! idx = Some (Some f).
Proof.
  intros ([[_ _ _ _ H5 _] _ _] & Ht & _) Hidx. rewrite <- Ht in Hidx. cbn in Hidx.
  apply lookup_lt_is_Some_2 in Hidx as [o Ho]. pose proof (proj1 (Forall_lookup _ _) H5 _ _ Ho) as [f ->]. eauto.
Qed.

Lemma quiet_get_fork n t idx : idx < t.1.2 → quiet n t (get_fork idx).
Proof.
  intros Hidx w Hw. destruct (fork_there n t w idx Hw Hidx) as [f Hf].
  exists w, (Ok f). split; [|done]. unfold get_fork, mbind_, gets, fork_at. by rewrite Hf.
Qed.

Lemma at_tables_forks n t w l :
  at_tables n t w → length l = t.1.2 → Forall is_Some l →
  match fr with Some (k, _) => l !! k = inner_forks (inner (backend_of w)) !! k | None => True end →
  at_tables n t (set_backend (set_inner (set_inner_forks l (inner (backend_of w))) (backend_of w)) w).
Proof.
  intros ([[H1 H2 H3 H4 H5 H6] Ha Hc] & Ht & Hh) Hl Hs Hk.
  assert (length l = length (inner_forks (inner (backend_of w)))) as Hlen by (rewrite Hl, <- Ht; done).
  split; [split; cbn; [split; cbn; rewrite ?Hlen|..]|]; [done..|by rewrite Hlen|].
  rewrite <- Ht. unfold tables. cbn. rewrite Hlen. split; [done|].
  unfold holds in *. destruct fr as [[k f]|]; [|done]. cbn. congruence.
Qed.

Lemma frame_insert (l : list (option Fork)) idx x :
  free fr idx → match fr with Some (k, _) => <[idx := x]> l !! k = l !! k | None => True end.
Proof. unfold free. destruct fr as [[k f]|]; [|done]. intros Hne. by apply list_lookup_insert_ne. Qed.

Lemma quiet_set_fork n t idx f : idx < t.1.2 → free fr idx → quiet n t (set_fork idx f).
Proof.
  intros Hidx Hfree w Hw. unfold set_fork, put_fork, mbind_, gets.
  rewrite decide_True by (destruct Hw as (_ & <- & _); done).
  do 2 eexists. split; [done|].
  apply at_tables_forks; [done|rewrite length_insert; by destruct Hw as (_ & <- & _)| |by apply frame_insert].
  apply Forall_insert; [apply Hw|by eexists].
Qed.

(** Steps through an operation that is made of quiet ones. *)
Ltac quiet_steps :=
  repeat match goal with
  | |- quiet _ _ (mbind_ _ _) => apply quiet_bind; [|intros ?]
  | |- quiet _ _ (mret _) => apply quiet_ret
  | |- quiet _ _ (merr _) => apply quiet_err
  | |- quiet _ _ (gets _) => apply quiet_gets
  | |- quiet _ _ (ok_or _ _) => apply quiet_ok_or
  | |- quiet _ _ (get_fork _) => apply quiet_get_fork; [done || (cbn in *; lia)]
  | |- quiet _ _ (set_fork _ _) => apply quiet_set_fork; [done || (cbn in *; lia)|done]
  | |- quiet _ _ (modify_backend _) => apply quiet_modify; done
  | |- quiet _ _ (modify _) => apply quiet_modify; done
  | |- quiet _ _ (modify_inner _) => apply quiet_modify_inner; done
  | |- quiet _ _ (fork_type_of _ _ _) => apply quiet_fork_type_of
  | |- quiet _ _ (request (h_get_env _)) => apply quiet_request; intros ?; apply h_env_ok
  | |- quiet _ _ (request (h_update_block _ _ _)) =>
      apply quiet_request; intros ?; apply h_block_ok
  | |- quiet _ _ (if ?c then _ else _) => destruct c eqn:?
  | |- quiet _ _ (match ?x with _ => _ end) => destruct x eqn:?
  end.

Lemma quiet_ensure_fork_id n t id : quiet n t (ensure_fork_id id).
Proof. unfold ensure_fork_id. quiet_steps. Qed.

Lemma quiet_ensure_fork_index n t id : quiet n t (ensure_fork_index id).
Proof. unfold ensure_fork_index. quiet_steps. Qed.

(** The id that is found, and its index. *)
Lemma ensure_fork_id_spec n t id :
  triple (at_tables n t) (ensure_fork_id id)
    (post (λ fid w, at_tables n t w ∧ t.1.1.1 !! id = Some fid) (at_tables n t)).
Proof.
  intros w Hw. unfold ensure_fork_id, mbind_, gets, ok_or.
  destruct (issued_local_fork_ids (inner (backend_of w)) !! id) eqn:E; do 2 eexists; (split; [done|]); cbn; [|done].
  pose proof Hw as (_ & Ht & _). split; [exact Hw|]. by rewrite <- Ht.
Qed.

Lemma ensure_fork_index_spec n t id fid :
  t.1.1.1 !! id = Some fid →
  triple (at_tables n t) (ensure_fork_index fid)
    (post (λ idx w, at_tables n t w ∧ idx = slot_of id ∧ idx < t.1.2) (at_tables n t)).
Proof.
  intros Hid w Hw. pose proof Hw as ([[H1 H2 H3 H4 H5 H6] Ha Hc] & Ht & _). rewrite <- Ht in Hid. cbn in Hid.
  unfold ensure_fork_index, mbind_, gets, ok_or. rewrite (H2 _ _ Hid). do 2 eexists. split; [done|]. cbn.
  split_and!; [done|done|]. rewrite <- Ht. cbn. pose proof (proj1 (H1 id) ltac:(eauto)). unfold slot_of. lia.
Qed.

(** *** Selecting *)

Lemma quiet_replace_accounts n t idx l js :
  idx < t.1.2 → free fr idx → (∀ a, a ∈ l → is_Some (js_state js !! a)) → quiet n t (replace_accounts idx l js).
Proof.
  intros Hidx Hfree. revert js. induction l as [|a l IH]; intros js Hl; cbn [replace_accounts]; [quiet_steps|].
  destruct (Hl a ltac:(by left)) as [acc Hacc]. rewrite Hacc. cbn [expect]. apply quiet_bind; [quiet_steps|].
  intros acc'. destruct (is_created acc'); [apply IH; intros; apply Hl; by right|].
  quiet_steps; try done. apply IH. intros x Hx. cbn. apply lookup_insert_is_Some'. right. apply Hl. by right.
Qed.

Lemma loaded_accounts_there b a : a ∈ loaded_accounts b → is_Some (js_state (fork_init_js b) !! a).
Proof.
  unfold loaded_accounts. intros [_ (x & -> & Hx)%list_elem_of_fmap]%list_elem_of_filter.
  rewrite map_iter_perm in Hx. destruct x as [k acc]. apply elem_of_map_to_list in Hx. eauto.
Qed.

Lemma quiet_prepare_forks n t k idx init l :
  idx + k ≤ t.1.2 → (∀ j, free fr j) → (∀ a, a ∈ l → is_Some (js_state init !! a)) →
  quiet n t (prepare_forks k idx init l).
Proof.
  intros Hidx Hfree Hl. revert idx Hidx.
  induction k as [|k IH]; intros idx Hidx; cbn [prepare_forks]; [quiet_steps|].
  quiet_steps; [apply quiet_replace_accounts; [lia|done..]|apply IH; lia..].
Qed.

Lemma quiet_first_fork n t : (∀ j, free fr j) → quiet n t first_fork.
Proof.
  intros Hfree. unfold first_fork. quiet_steps. unfold prepare_init_journal_state. apply quiet_gets_bind.
  intros b w [Hw ->]. apply (quiet_prepare_forks n t); [destruct Hw as (_ & <- & _); done|done|apply loaded_accounts_there|done].
Qed.

Lemma quiet_leave_fork n t active_idx idx :
  active_idx < t.1.2 → idx < t.1.2 → free fr active_idx → free fr idx → quiet n t (leave_fork active_idx idx).
Proof. intros Ha Hi Hfa Hfi. unfold leave_fork. quiet_steps; try done. Qed.

(** The journaled state and the fork after entering fork [f]. *)
Definition entered (active : option Fork) w (f : Fork) : JournaledState * Fork :=
  let f := mk_fork (fork_db f) (set_depth (js_depth (js_of w)) (fork_js f)) in
  let '(f, js) := ensure_caller (tx_caller (env_of w)) (js_of w) f (fork_js f) in
  update_fork_db active w (mk_fork (fork_db f) js).

Definition set_world_forks (l : list (option Fork)) w : World :=
  set_backend (set_inner (set_inner_forks l (inner (backend_of w))) (backend_of w)) w.

(** The fork is taken out and put back; the others stay. *)
Lemma enter_fork_eq w idx f active :
  inner_forks (inner (backend_of w)) !! idx = Some (Some f) →
  match active_fork_ids (backend_of w) with
  | Some (_, a) => a ≠ idx ∧ inner_forks (inner (backend_of w)) !! a = Some active ∧ is_Some active
  | None => active = None
  end →
  enter_fork idx w =
    let '(js, f') := entered active w f in
    Some (set_world_js js (set_world_forks (<[idx := Some f']> (inner_forks (inner (backend_of w)))) w), Ok tt).
Proof.
  intros Hf Ha. pose proof (lookup_lt_Some _ _ _ Hf) as Hlt.
  unfold enter_fork, take_fork, get_fork, set_fork, put_fork, modify_inner, modify_backend, mbind_, gets, modify,
    fork_at, entered, expect, mret. cbn.
  rewrite Hf. cbn. rewrite decide_True by done. cbn.
  destruct (ensure_caller _ _ _ _) as [f1 js1].
  destruct (active_fork_ids (backend_of w)) as [[id a]|].
  - destruct Ha as (Hne & Ha & [fa ->]). cbn. rewrite list_lookup_insert_ne, Ha by done. cbn.
    rewrite length_insert, decide_True by done. unfold set_world_forks, set_backend. cbn. by rewrite list_insert_insert_eq.
  - subst active. cbn. rewrite length_insert, decide_True by done.
    unfold set_world_forks, set_backend. cbn. by rewrite list_insert_insert_eq.
Qed.

Lemma quiet_enter_fork n t idx :
  idx < t.1.2 → free fr idx → (∀ id a, t.2 = Some (id, a) → a < t.1.2 ∧ a ≠ idx) → quiet n t (enter_fork idx).
Proof.
  intros Hidx Hfree Hact w Hw. destruct (fork_there n t w idx Hw Hidx) as [f Hf].
  assert (∃ active, match active_fork_ids (backend_of w) with
    | Some (_, a) => a ≠ idx ∧ inner_forks (inner (backend_of w)) !! a = Some active ∧ is_Some active
    | None => active = None end) as [active Ha].
  { destruct (active_fork_ids (backend_of w)) as [[id a]|] eqn:E; [|by exists None].
    destruct (Hact id a) as [Hlt Hne]; [by destruct Hw as (_ & <- & _)|].
    destruct (fork_there n t w a Hw Hlt) as [fa Hfa]. exists (Some fa). eauto. }
  rewrite (enter_fork_eq w idx f active Hf Ha). destruct (entered active w f) as [js f'].
  do 2 eexists. split; [done|]. cbn [post].
  assert (at_tables n t (set_world_forks (<[idx := Some f']> (inner_forks (inner (backend_of w)))) w)) as Hat.
  { apply at_tables_forks; [done|rewrite length_insert; by destruct Hw as (_ & <- & _)| |by apply frame_insert].
    apply Forall_insert; [apply Hw|by eexists]. }
  destruct Hat as [[H1 H2 H3] H4]. split; [by split|done].
Qed.

Definition away_t (t : gmap Z ForkId.t * gmap ForkId.t nat * nat * option (Z * nat)) : Prop :=
  match fr with Some (k, _) => ∃ id idx, t.2 = Some (id, idx) ∧ idx ≠ k | None => True end.

Lemma framed_at n t w : at_tables n t w → away_t t → framed fr n w.
Proof.
  intros (Hw & Ht & Hh) Ha. split; [done|done|]. subst t. unfold away, away_t in *. by destruct fr as [[k f]|].
Qed.

Lemma at_framed n w : framed fr n w → at_tables n (tables w) w ∧ away_t (tables w).
Proof. intros [Hw Hh Ha]. split; [done|]. unfold away, away_t in *. by destruct fr as [[k f]|]. Qed.

Lemma quiet_framed {A} n t (op : M A) :
  away_t t → quiet n t op → triple (at_tables n t) op (post (λ _, at_tables n t) (framed fr n)).
Proof.
  intros Ha Hq. eapply triple_conseq; [exact Hq|done|]. intros [a|e] w; cbn; [done|]. intros. by eapply framed_at.
Qed.

Lemma triple_pure {A} P (m : M A) (φ : Prop) Q : (φ → triple P m Q) → triple (λ w, P w ∧ φ) m Q.
Proof. intros Hm w [Hw Hφ]. by apply Hm. Qed.

(** An index from a local id that is not the active one. *)
Lemma active_apart n t w id active_id a :
  at_tables n t w → t.2 = Some (active_id, a) → active_id ≠ id → is_Some (t.1.1.1 !! id) →
  a < t.1.2 ∧ a ≠ slot_of id.
Proof.
  intros ([[H1 _ _ _ _ _] Ha _] & Ht & _) Eact Hne Hid. subst t. cbn in *. destruct (Ha _ _ Eact) as [Hi ->].
  apply H1 in Hi, Hid. unfold slot_of. lia.
Qed.

(** A lookup of an id in the tables, in a run that keeps the frame. *)
Lemma ensure_fork_id_framed n t id :
  away_t t →
  triple (at_tables n t) (ensure_fork_id id)
    (post (λ fid w, at_tables n t w ∧ t.1.1.1 !! id = Some fid) (framed fr n)).
Proof.
  intros Ha. eapply triple_conseq; [apply ensure_fork_id_spec|done|].
  intros [x|e] w1; [exact (λ x, x)|intros; by eapply framed_at].
Qed.

Lemma ensure_fork_index_framed n t id fid :
  away_t t → t.1.1.1 !! id = Some fid →
  triple (at_tables n t) (ensure_fork_index fid)
    (post (λ idx w, at_tables n t w ∧ idx = slot_of id ∧ idx < t.1.2) (framed fr n)).
Proof.
  intros Ha Hid. eapply triple_conseq; [by apply ensure_fork_index_spec|done|].
  intros [x|e] w1; [exact (λ x, x)|intros; by eapply framed_at].
Qed.

(** Selecting a fork changes no table but the active fork. *)
Lemma safe_select_fork probe n id : free fr (slot_of id) → safe fr n n (select_fork probe id).
Proof.
  intros Hfree w Hw. pose proof (at_framed n w Hw) as [Hat Haw]. unfold select_fork. cbn [mbind_ gets].
  destruct (is_active_fork (backend_of w) id) eqn:Eact; [by do 2 eexists|].
  set (b := backend_of w). assert ((tables w).2 = active_fork_ids b) as Ht2 by done. remember (tables w) as t eqn:Et.
  assert (∀ aid a, active_fork_ids b = Some (aid, a) → aid ≠ id) as Hne.
  { intros aid a E. unfold is_active_fork in Eact. fold b in Eact. rewrite E in Eact. by apply Z.eqb_neq in Eact. }
  match goal with |- ∃ w' r, ?op w = _ ∧ _ =>
    enough (triple (at_tables n t) op (post (λ _, framed fr n) (framed fr n))) as Htr by exact (Htr w Hat) end.
  eapply triple_seq; [apply quiet_framed; [done|]; quiet_steps; apply quiet_ensure_fork_id|intros r; cbn beta; clear r].
  eapply triple_seq; [by apply ensure_fork_id_framed|]. intros fid. apply triple_pure. intros Hid.
  eapply triple_seq; [by apply ensure_fork_index_framed|]. intros idx. apply triple_pure. intros [-> Hlt].
  eapply triple_seq; [apply quiet_framed; [done|]; quiet_steps; apply quiet_ensure_fork_id|intros r; cbn beta; clear r].
  eapply triple_seq; [apply quiet_framed; [done|]; quiet_steps|intros r; cbn beta; clear r].
  eapply triple_seq; [apply quiet_framed; [done|]; quiet_steps|intros fe; cbn beta].
  eapply triple_seq; [apply quiet_framed; [done|]; quiet_steps|intros fork_env; cbn beta].
  assert (∀ aid a, t.2 = Some (aid, a) → a < t.1.2 ∧ a ≠ slot_of id) as Hap.
  { intros aid a E. eapply active_apart; [exact Hat|exact E|rewrite Ht2 in E; by eapply Hne|eauto]. }
  eapply triple_seq; [apply quiet_framed; [done|]|intros r; cbn beta; clear r].
  { unfold away_t in Haw. destruct (active_fork_ids b) as [[aid a]|] eqn:E.
    - apply quiet_leave_fork; [by destruct (Hap aid a)|done| |done].
      unfold free. destruct fr as [[k f]|]; [|done]. destruct Haw as (? & ? & E' & ?). congruence.
    - apply quiet_first_fork. intros j. unfold free. destruct fr as [[k f]|]; [|done].
      destruct Haw as (? & ? & E' & ?). congruence. }
  eapply triple_seq; [apply quiet_framed; [done|]; by apply quiet_enter_fork|intros r; cbn beta; clear r].
  apply (triple_seq _ _ _ (λ _, framed fr n)); [apply triple_modify|intros ?; cbn beta; apply triple_modify].
  2: { intros w1 [[] ? ?]. split; [by split|done..]. }
  intros w1 ([H1 H2 H3] & H4 & H5). split; [split; [done| |done]|done|].
  - intros ? ? [= <- <-]. split; [|done]. cbn.
    assert (issued_local_fork_ids (inner (backend_of w1)) = t.1.1.1) as -> by (by rewrite <- H4). eauto.
  - unfold away, free in *. destruct fr as [[k f]|]; [|done]. cbn. eauto.
Qed.

(** *** Creating *)

Definition with_new_fork (fid : ForkId.t) (f : Fork) i : BackendInner :=
  set_inner_forks (inner_forks i ++ [Some f])
    (set_issued (<[next_fork_id i := fid]> (issued_local_fork_ids i))
      (set_next_fork_id ((next_fork_id i + 1) mod 2 ^ 256)%Z
        (set_created (<[fid := length (inner_forks i)]> (created_forks i)) i))).

Lemma insert_new_fork_eq fid db js w :
  insert_new_fork fid db js w =
  Some (set_backend (set_inner (with_new_fork fid (mk_fork db js) (inner (backend_of w))) (backend_of w)) w,
        Ok (next_fork_id (inner (backend_of w)), length (inner_forks (inner (backend_of w))))).
Proof. done. Qed.

Lemma inner_wf_new h i fid f :
  inner_wf h i → created_forks i !! fid = None → h_known h fid →
  (Z.of_nat (length (inner_forks i)) + 1 < 2 ^ 256)%Z → inner_wf h (with_new_fork fid f i).
Proof.
  intros [H1 H2 H3 H4 H5 H6] Hnew Hk Hlen. split; cbn.
  - intros id. rewrite lookup_insert_is_Some, H1, H3, length_app. cbn. destruct (decide (next_fork_id i = id)); lia.
  - intros id fid' [[<- <-]|[Hne Hid]]%lookup_insert_Some.
    + rewrite lookup_insert_eq. unfold slot_of. rewrite H3. f_equal. lia.
    + rewrite lookup_insert_ne; [eauto|]. intros ->. rewrite (H2 _ _ Hid) in Hnew. done.
  - rewrite length_app, H3. cbn. rewrite Z.mod_small; lia.
  - intros fid' idx [[<- _]|[_ Hf]]%lookup_insert_Some; eauto.
  - apply Forall_app. split; [done|]. repeat constructor. by eexists.
  - intros k x Hx. specialize (H6 k x Hx). unfold snapshot_wf in *. destruct (bs_db x) as [|id fid' idx f']; [done|].
    cbn. destruct H6 as (Hi & -> & Hc & Hk'). split_and!; [|done| |done].
    + apply lookup_insert_is_Some'. by right.
    + rewrite lookup_insert_ne; [done|]. intros ->. congruence.
Qed.

Lemma framed_forks n m w w' l :
  framed fr n w → world_wf m w' → inner_forks (inner (backend_of w')) = inner_forks (inner (backend_of w)) ++ l →
  active_fork_ids (backend_of w') = active_fork_ids (backend_of w) → framed fr m w'.
Proof.
  intros [Hw Hh Ha] Hw' Hf Hact. split; [done| |]; unfold holds, away in *; destruct fr as [[k f]|]; [|done| |done].
  - rewrite Hf. by apply lookup_app_l_Some.
  - by rewrite Hact.
Qed.

Lemma create_fork_spec n create :
  (n < MAX_FORKS)%Z →
  triple (framed fr n) (create_fork create)
    (post (λ id w, framed fr (n + 1) w ∧ free fr (slot_of id)) (framed fr (n + 1))).
Proof.
  intros Hn w Hfr. pose proof (fr_world _ _ _ Hfr) as [Hi Ha [Hc Hok]]. unfold create_fork, mbind_, request.
  pose proof (h_create_new n create (handler (backend_of w)) Hok Hn) as Hnew. unfold MAX_FORKS in Hn.
  destruct (h_create_fork create (handler (backend_of w))) as [h' [[[fid sb] e]|e]]; destruct Hnew as (Hok' & Hmono & Hnew).
  2: { do 2 eexists. split; [done|]. apply (framed_forks n _ w _ []); [done| |by rewrite app_nil_r|done].
       split; [by eapply inner_wf_handler|done|split; [cbn; lia|done]]. }
  destruct Hnew as [Hfresh Hknown]. cbn [gets]. rewrite insert_new_fork_eq. do 2 eexists. split; [done|].
  cbn [post fst snd]. assert (created_forks (inner (backend_of w)) !! fid = None) as Hnone.
  { apply eq_None_not_Some. intros [idx Hidx]. by apply (wf_known _ _ Hi) in Hidx. }
  split.
  2: { pose proof (fr_holds _ _ _ Hfr) as Hh. unfold free, holds in *. destruct fr as [[k f]|]; [|done].
       apply lookup_lt_Some in Hh. cbn. rewrite (wf_next _ _ Hi). unfold slot_of. lia. }
  eapply framed_forks; [exact Hfr| |done|done]. split; cbn.
  - apply inner_wf_new; [by eapply inner_wf_handler|done|done|cbn; lia].
  - intros id idx E. destruct (Ha _ _ E) as [Hid ->]. split; [|done]. cbn. apply lookup_insert_is_Some'. by right.
  - rewrite length_app. split; [cbn; lia|done].
Qed.

Lemma safe_create_fork n create : (n < MAX_FORKS)%Z → safe fr n (n + 1) (create_fork create).
Proof.
  intros Hn. eapply triple_conseq; [by apply create_fork_spec|done|]. intros [id|e] w; cbn; [|done]. by intros [? _].
Qed.

Lemma safe_create_select_fork probe n create :
  (n < MAX_FORKS)%Z → safe fr n (n + 1) (create_select_fork probe create).
Proof.
  intros Hn. unfold create_select_fork. eapply triple_seq; [by apply create_fork_spec|].
  intros id. apply triple_pure. intros Hfree.
  eapply triple_seq; [by apply safe_select_fork|]. intros r. by apply triple_return.
Qed.

Lemma world_wf_weaken n m w : (n ≤ m)%Z → world_wf n w → world_wf m w.
Proof. intros Hle [H1 H2 [H3 H4]]. split; [done..|]. split; [lia|by eapply h_ok_mono]. Qed.


(** *** Rolling *)

Lemma quiet_reset_active n t idx e : idx < t.1.2 → free fr idx → quiet n t (reset_active idx e).
Proof. intros Hidx Hfree. unfold reset_active. quiet_steps. Qed.

Lemma snapshot_wf_roll h i id fid idx x :
  created_forks i !! fid = None → is_Some (issued_local_fork_ids i !! id) → snapshot_wf h i x →
  snapshot_wf h (set_created (<[fid := idx]> (created_forks i)) (set_issued (<[id := fid]> (issued_local_fork_ids i)) i)) x.
Proof.
  intros Hnew Hid. unfold snapshot_wf. destruct (bs_db x) as [|id' fid' idx' f']; [done|]. cbn.
  intros (Hi & -> & Hc & Hk). split_and!; [|done| |done].
  - apply lookup_insert_is_Some'. by right.
  - rewrite lookup_insert_ne; [done|]. intros ->. congruence.
Qed.

(** A local id moves to a new fork id and keeps its index. *)
Lemma inner_wf_roll h i id fid :
  inner_wf h i → is_Some (issued_local_fork_ids i !! id) → created_forks i !! fid = None → h_known h fid →
  inner_wf h (set_created (<[fid := slot_of id]> (created_forks i))
    (set_issued (<[id := fid]> (issued_local_fork_ids i)) i)).
Proof.
  intros [H1 H2 H3 H4 H5 H6] Hid Hnew Hk. split; cbn; [| |done| |done|].
  - intros id'. rewrite lookup_insert_is_Some, <- H1. destruct (decide (id = id')) as [<-|]; naive_solver.
  - intros id' fid' [[<- <-]|[Hne Hid']]%lookup_insert_Some; [by rewrite lookup_insert_eq|].
    rewrite lookup_insert_ne; [eauto|]. intros ->. rewrite (H2 _ _ Hid') in Hnew. done.
  - intros fid' idx [[<- _]|[_ Hf]]%lookup_insert_Some; eauto.
  - intros k x Hx. apply snapshot_wf_roll; [done|done|]. by apply (H6 k x).
Qed.

Lemma triple_request {A} P (f : Hd → Hd * result A Str) Q R :
  (∀ w, P w → let '(h, r) := f (handler (backend_of w)) in
    let w' := set_backend (set_handler h (backend_of w)) w in
    match r with Ok a => Q a w' | Err _ => R w' end) →
  triple P (request f) (post Q R).
Proof.
  intros Hf w Hw. specialize (Hf w Hw). unfold request. destruct (f (handler (backend_of w))) as [h [a|e]];
    do 2 eexists; (split; [done|exact Hf]).
Qed.

(** The new fork id is recorded, the fork gets the new database. *)
Lemma safe_inner_roll n t id fid sb :
  away_t t → free fr (slot_of id) → is_Some (t.1.1.1 !! id) → t.1.1.2 !! fid = None →
  triple (λ w, at_tables n t w ∧ h_known (handler (backend_of w)) fid) (inner_roll_fork id fid sb)
    (post (λ _, at_tables n (<[id := fid]> t.1.1.1, <[fid := slot_of id]> t.1.1.2, t.1.2, t.2)) (framed fr n)).
Proof.
  intros Haw Hfree [fid0 Hid] Hnew w [Hw Hk]. pose proof Hw as ([[H1 H2 H3 H4 H5 H6] Ha Hc] & Ht & _).
  assert (issued_local_fork_ids (inner (backend_of w)) !! id = Some fid0) as Hid' by (by rewrite <- Ht in Hid).
  pose proof (H2 _ _ Hid') as Hslot. pose proof (proj1 (H1 id) ltac:(eauto)) as Hlt.
  destruct (fork_there n t w (slot_of id) Hw) as [f Hf]; [rewrite <- Ht; cbn; unfold slot_of; lia|].
  unfold inner_roll_fork, ensure_fork_id, ensure_fork_index, set_fork, put_fork, modify_inner, modify_backend, mbind_, gets, modify,
    expect, ok_or, mret. rewrite Hid'. rewrite Hslot. rewrite Hf. cbn.
  rewrite decide_True by (unfold slot_of; lia). do 2 eexists. split; [done|]. cbn.
  set (l := <[slot_of id := Some _]> (inner_forks (inner (backend_of w)))).
  assert (at_tables n t (set_world_forks l w)) as Hat.
  { apply at_tables_forks; [done|unfold l; rewrite length_insert; by rewrite <- Ht| |by apply frame_insert].
    apply Forall_insert; [done|by eexists]. }
  destruct Hat as ([Hi' Ha' Hc'] & Ht' & Hh').
  split_and!; [split; cbn; [|..|done]| |exact Hh'].
  - apply (inner_wf_roll _ _ id fid Hi'); [cbn; eauto| |done]. by rewrite <- Ht in Hnew.
  - intros aid a E. destruct (Ha _ _ E) as [Hi ->]. split; [|done]. cbn. apply lookup_insert_is_Some'. by right.
  - rewrite <- Ht. unfold tables. cbn. unfold l. by rewrite length_insert.
Qed.

Lemma ensure_fork_spec n t id :
  away_t t → match id with Some id => free fr (slot_of id) | None => True end →
  triple (at_tables n t) (ensure_fork id)
    (post (λ lid w, at_tables n t w ∧ free fr (slot_of lid)) (framed fr n)).
Proof.
  intros Haw Hfree w Hw. unfold ensure_fork, mbind_, gets, ok_or, mret, merr. cbn.
  destruct id as [id|].
  - case_decide; do 2 eexists; (split; [done|]); cbn; [done|by eapply framed_at].
  - pose proof Hw as (Hwf & Ht & _). destruct (active_fork_id (backend_of w)) as [lid|] eqn:E;
      do 2 eexists; (split; [done|]); cbn; [|by eapply framed_at]. split; [done|].
    unfold active_fork_id in E. apply fmap_Some in E as ([lid' idx] & E & ->). cbn.
    destruct (ww_active _ _ Hwf _ _ E) as [_ ->]. unfold away_t, free in *. destruct fr as [[k f]|]; [|done].
    destruct Haw as (x & y & E' & Hne). rewrite <- Ht in E'. cbn in E'. congruence.
Qed.

Lemma safe_roll_fork n id block :
  match id with Some id => free fr (slot_of id) | None => True end →
  (n < MAX_FORKS)%Z → safe fr n (n + 1) (roll_fork id block).
Proof.
  intros Hfree Hn w Hw. pose proof (at_framed n w Hw) as [Hat Haw]. remember (tables w) as t eqn:Et.
  enough (triple (at_tables n t) (roll_fork id block) (post (λ _, framed fr (n + 1)) (framed fr (n + 1)))) as Htr by exact (Htr w Hat).
  unfold roll_fork.
  assert (∀ w, framed fr n w → framed fr (n + 1) w) as Hup.
  { intros w1 [? ? ?]. split; [eapply world_wf_weaken; [|done]; lia|done..]. }
  eapply triple_seq; [eapply triple_conseq; [by apply ensure_fork_spec|done|intros [] w1; [exact (λ x, x)|apply Hup]]|]. intros lid. apply triple_pure. intros Hlid.
  eapply triple_seq; [eapply triple_conseq; [by apply ensure_fork_id_framed|done|intros [] w1; [exact (λ x, x)|apply Hup]]|]. intros fid0. apply triple_pure. intros Hid.
  eapply (triple_seq _ _ _ (λ r w, (at_tables (n + 1) t w ∧ h_known (handler (backend_of w)) r.1.1) ∧ t.1.1.2 !! r.1.1 = None)).
  { apply triple_request. intros w1 Hw1. pose proof (h_roll_new n fid0 block (handler (backend_of w1)) ltac:(apply Hw1) Hn) as Hnew.
    destruct (h_roll_fork fid0 block (handler (backend_of w1))) as [h' [[[fid sb] e]|e]]; destruct Hnew as (Hok & Hmono & Hnew); cbn.
    - destruct Hnew as [Hfresh Hkn]. pose proof (at_tables_handler n (n + 1) t w1 h' ltac:(lia) Hok Hmono Hw1). split_and!; [done|done|].
      apply eq_None_not_Some. intros [idx Hidx]. apply Hfresh. destruct Hw1 as ([Hi _ _] & Ht1 & _).
      rewrite <- Ht1 in Hidx. exact (wf_known _ _ Hi _ _ Hidx).
    - eapply framed_at; [by apply (at_tables_handler n (n + 1) t w1 h' ltac:(lia) Hok Hmono Hw1)|done]. }
  intros [[fid sb] e]. apply triple_pure. intros Hnone. cbn [fst snd] in *.
  eapply triple_seq; [apply safe_inner_roll; [done|done|eauto|done]|]. intros idx. cbn beta.
  set (t' := (_, _, t.1.2, t.2)).
  eapply triple_seq; [apply (triple_gets _ _ (λ b w, at_tables (n + 1) t' w ∧ active_fork_ids b = t.2))|].
  { intros w1 Hw1. split; [done|]. destruct Hw1 as (_ & Ht1 & _). by apply (f_equal snd) in Ht1. }
  intros b. apply triple_pure. intros ->.
  assert (away_t t') as Haw' by exact Haw.
  enough (quiet (n + 1) t' (match t.2 with Some (aid, a) => if (aid =? lid)%Z then reset_active a e else mret tt | None => mret tt end)) as Hq.
  { eapply triple_conseq; [exact Hq|done|]. intros [r|r] w1 Hw1; by eapply framed_at. }
  destruct (t.2) as [[aid a]|] eqn:Eact; [|quiet_steps]. destruct (Z.eqb_spec aid lid) as [->|]; [|quiet_steps].
  rewrite Et in Eact. destruct (ww_active _ _ (fr_world _ _ _ Hw) _ _ Eact) as [Hi ->].
  apply quiet_reset_active; [|done].
  apply (wf_issued _ _ (ww_inner _ _ (fr_world _ _ _ Hw))) in Hi. cbn. rewrite Et. cbn. unfold slot_of. lia.
Qed.
End quiet.

(** *** Snapshots *)

(** New snapshots that are well-formed. *)
Lemma world_wf_snapshots n w x :
  world_wf n w →
  (∀ k y, StateSnapshots.state_snapshots x !! k = Some y →
    StateSnapshots.state_snapshots (state_snapshots (inner (backend_of w))) !! k = Some y ∨
    snapshot_wf (handler (backend_of w)) (inner (backend_of w)) y) →
  world_wf n (set_backend (set_inner (set_snapshots x (inner (backend_of w))) (backend_of w)) w).
Proof.
  intros [[H1 H2 H3 H4 H5 H6] Ha Hc] Hx. split; [split; [done..|]|done|done].
  cbn. intros k y Hy. destruct (Hx k y Hy) as [Hold|Hwf]; [by apply (H6 k y)|done].
Qed.

Lemma create_db_snapshot_spec n w :
  world_wf n w → ∃ db, create_db_snapshot w = Some (w, Ok db) ∧
    (∀ js e, snapshot_wf (handler (backend_of w)) (inner (backend_of w)) (mk_bsnap db js e)) ∧
    match active_fork_ids (backend_of w) with
    | Some (id, idx) => ∃ fid f, db = Forked id fid idx f ∧ inner_forks (inner (backend_of w)) !! idx = Some (Some f) ∧
        issued_local_fork_ids (inner (backend_of w)) !! id = Some fid
    | None => db = InMemory (mem_db (backend_of w))
    end.
Proof.
  intros Hw. unfold create_db_snapshot, mbind_, gets, get_fork, expect, fork_at, mret. cbn.
  destruct (active_fork_ids (backend_of w)) as [[id idx]|] eqn:E; [|eexists; by split_and!].
  destruct (ww_active _ _ Hw _ _ E) as [[fid Hid] ->].
  destruct (fork_there None n (tables w) w (slot_of id)) as [f Hf]; [done| |].
  { apply (wf_issued _ _ (ww_inner _ _ Hw)) in Hid as Hlt || pose proof (proj1 (wf_issued _ _ (ww_inner _ _ Hw) id) ltac:(eauto)) as Hlt.
    cbn. unfold slot_of. lia. }
  rewrite Hf. cbn. rewrite Hid. eexists. split_and!; [done| |eauto].
  intros js e. cbn. pose proof (wf_slot _ _ (ww_inner _ _ Hw) _ _ Hid) as Hc.
  split_and!; [eauto|done|done|by eapply (wf_known _ _ (ww_inner _ _ Hw))].
Qed.

(** A change of the snapshots only. *)
Lemma framed_snapshots fr n w x :
  framed fr n w →
  (∀ k y, StateSnapshots.state_snapshots x !! k = Some y →
    StateSnapshots.state_snapshots (state_snapshots (inner (backend_of w))) !! k = Some y ∨
    snapshot_wf (handler (backend_of w)) (inner (backend_of w)) y) →
  framed fr n (set_backend (set_inner (set_snapshots x (inner (backend_of w))) (backend_of w)) w).
Proof.
  intros [Hw Hh Ha] Hx. split; [by apply world_wf_snapshots| |]; unfold holds, away in *; by destruct fr as [[k f]|].
Qed.

Lemma safe_snapshot_state fr n : safe fr n n snapshot_state.
Proof.
  intros w Hw. destruct (create_db_snapshot_spec n w (fr_world _ _ _ Hw)) as (db & E & Hdb & _).
  unfold snapshot_state, mbind_. rewrite E. do 2 eexists. split; [done|]. cbn [post].
  apply framed_snapshots; [done|]. cbn. intros k y [[_ <-]|[_ Hy]]%lookup_insert_Some; eauto.
Qed.

Lemma safe_delete_state_snapshot fr n id : safe fr n n (delete_state_snapshot id).
Proof.
  intros w Hw. do 2 eexists. split; [done|]. cbn [post]. apply framed_snapshots; [done|].
  cbn. intros k y [_ Hy]%lookup_delete_Some. eauto.
Qed.

Lemma safe_delete_state_snapshots fr n : safe fr n n delete_state_snapshots.
Proof. intros w Hw. do 2 eexists. split; [done|]. cbn [post]. by apply framed_snapshots. Qed.

(** A snapshot puts its fork back where it was. *)
Lemma world_wf_revert n w id fid idx f :
  world_wf n w → is_Some (issued_local_fork_ids (inner (backend_of w)) !! id) → idx = slot_of id →
  created_forks (inner (backend_of w)) !! fid = Some idx →
  ∃ w', revert_state_snapshot id fid idx f w = Some (w', Ok tt) ∧ world_wf n (set_backend (set_active (Some (id, idx)) (backend_of w')) w') ∧
    w' = set_world_forks (<[idx := Some f]> (inner_forks (inner (backend_of w))))
      (set_backend (set_inner (set_issued (<[id := fid]> (issued_local_fork_ids (inner (backend_of w)))) (inner (backend_of w))) (backend_of w)) w).
Proof.
  intros Hw Hid -> Hc. pose proof Hw as [[H1 H2 H3 H4 H5 H6] Ha Hcount]. pose proof (proj1 (H1 id) Hid) as Hlt.
  assert (<[fid := slot_of id]> (created_forks (inner (backend_of w))) = created_forks (inner (backend_of w))) as Hcr
    by (by apply insert_id).
  unfold revert_state_snapshot, set_fork, put_fork, modify_inner, modify_backend, mbind_, gets, modify. cbn.
  rewrite decide_True by (unfold slot_of; lia). cbn. rewrite Hcr. eexists. split_and!; [done| |done].
  split; cbn; [split; cbn; rewrite ?length_insert; [| |done|done| |]| |by rewrite length_insert].
  - intros id'. rewrite lookup_insert_is_Some, <- H1. destruct (decide (id = id')) as [<-|]; naive_solver.
  - intros id' fid' [[<- <-]|[_ Hid']]%lookup_insert_Some; eauto.
  - apply Forall_insert; [done|by eexists].
  - intros k x Hx. specialize (H6 k x Hx). unfold snapshot_wf in *. destruct (bs_db x) as [|id' ? ? ?]; [done|].
    cbn. destruct H6 as (Hi & ? & ? & ?). split_and!; [|done..]. apply lookup_insert_is_Some'. by right.
  - intros ? ? [= <- <-]. split; [|done]. cbn. rewrite lookup_insert_eq. eauto.
Qed.

(** What is restored from a snapshot, from a state with the same tables. *)
Lemma restore_snapshot_spec n w0 w x :
  world_wf n w → snapshot_wf (handler (backend_of w)) (inner (backend_of w)) x →
  ∃ w', restore_snapshot w0 x w = Some (w', Ok true) ∧ world_wf n w' ∧
    env_of w' = update_current_env_with_fork_env (env_of w) (bs_env x) ∧
    let js := set_logs (js_logs (js_of w0)) (bs_js x) in
    match bs_db x with
    | InMemory db => mem_db (backend_of w') = db ∧ inner (backend_of w') = inner (backend_of w) ∧
        active_fork_ids (backend_of w') = active_fork_ids (backend_of w) ∧ js_of w' = js
    | Forked id fid idx f =>
        let '(f', js') := ensure_caller (tx_caller (env_of w0)) (js_of w0) f js in
        active_fork_ids (backend_of w') = Some (id, idx) ∧ js_of w' = js' ∧
        inner_forks (inner (backend_of w')) = <[idx := Some f']> (inner_forks (inner (backend_of w))) ∧
        issued_local_fork_ids (inner (backend_of w')) = <[id := fid]> (issued_local_fork_ids (inner (backend_of w)))
    end.
Proof.
  intros Hw Hx. unfold restore_snapshot, snapshot_wf in *. destruct (bs_db x) as [db|id fid idx f].
  - eexists. split; [done|]. destruct Hw as [[H1 H2 H3 H4 H5 H6] Ha Hc]. by split_and!.
  - destruct Hx as (Hid & Hidx & Hc & Hk).
    destruct (ensure_caller _ _ _ _) as [f' js'].
    destruct (world_wf_revert n w id fid idx f' Hw Hid Hidx Hc) as (w' & E & Hw' & Hw'eq).
    unfold mbind_ at 1 2 3 4 5. rewrite E. eexists. split; [done|]. cbn.
    split_and!; [|by rewrite Hw'eq|done|done|by rewrite Hw'eq|by rewrite Hw'eq].
    destruct Hw' as [H1 H2 H3]. by split.
Qed.

(** The state in which the snapshot is restored: only the list of snapshots and
    the failure flag have changed. *)
Lemma revert_state_eq CHEATCODE SLOT n id action w :
  world_wf n w →
  ∃ w1, world_wf n w1 ∧ js_of w1 = js_of w ∧ env_of w1 = env_of w ∧
    handler (backend_of w1) = handler (backend_of w) ∧ tables w1 = tables w ∧
    inner_forks (inner (backend_of w1)) = inner_forks (inner (backend_of w)) ∧
    state_snapshots (inner (backend_of w1)) =
      (if is_keep action then state_snapshots (inner (backend_of w))
       else (StateSnapshots.remove_at (state_snapshots (inner (backend_of w))) id).1) ∧
    revert_state CHEATCODE SLOT id action w =
      match StateSnapshots.get (state_snapshots (inner (backend_of w))) id with
      | Some x => restore_snapshot w x w1
      | None => Some (w1, Ok false)
      end.
Proof.
  intros Hw. unfold revert_state, mbind_ at 1, gets, StateSnapshots.remove_at, StateSnapshots.get. cbn [fst].
  set (i := inner (backend_of w)). set (m := StateSnapshots.state_snapshots (state_snapshots i)).
  set (s := StateSnapshots.mk _ (delete id m)).
  set (w0 := set_backend (set_inner (set_snapshots s i) (backend_of w)) w).
  assert (world_wf n w0) as Hw0.
  { apply world_wf_snapshots; [done|]. cbn. intros k y [_ Hy]%lookup_delete_Some. eauto. }
  destruct (m !! id) as [x|] eqn:Ex; cycle 1.
  { exists w0. split_and!; try done. cbn. destruct (is_keep action); [|done].
    unfold s. rewrite delete_id by done. by destruct (state_snapshots i). }
  set (w1 := set_backend (set_inner (set_snapshots (if is_keep action then state_snapshots i else s) i) (backend_of w)) w).
  set (w2 := if failed CHEATCODE SLOT (js_of w) then
      set_backend (set_inner (set_failure true (inner (backend_of w1))) (backend_of w1)) w1 else w1).
  exists w2.
  assert (world_wf n w1) as Hw1.
  { unfold w1. destruct (is_keep action); [|done]. apply world_wf_snapshots; [done|eauto]. }
  assert (world_wf n w2) as Hw2.
  { unfold w2. destruct (failed _ _ _); [|done]. destruct Hw1 as [[H1 H2 H3 H4 H5 H6] Ha Hc]. by split; [split|..]. }
  split; [done|]. split_and!; try (unfold w2; by destruct (failed _ _ _)).
  assert (<[id := x]> (delete id m) = m) as Hm by (by apply insert_delete_id).
  unfold w2, w1. cbn. destruct (is_keep action); cbn; unfold mbind_, modify_inner, modify_backend, modify, mret; cbn;
    rewrite ?Hm; destruct (failed _ _ _); cbn; try done; by destruct (state_snapshots i).
Qed.

Lemma framed_none n w : framed None n w ↔ world_wf n w.
Proof. split; [by intros []|by split]. Qed.

Lemma safe_revert_state CHEATCODE SLOT n id action : safe None n n (revert_state CHEATCODE SLOT id action).
Proof.
  intros w Hw%framed_none.
  destruct (revert_state_eq CHEATCODE SLOT n id action w Hw) as (w1 & Hw1 & _ & _ & Hh & Ht & _ & _ & ->).
  destruct (StateSnapshots.get _ id) as [x|] eqn:Ex; [|by do 2 eexists].
  destruct (restore_snapshot_spec n w w1 x Hw1) as (w' & -> & Hw' & _); [|by do 2 eexists].
  pose proof (wf_snapshots _ _ (ww_inner _ _ Hw) _ _ Ex) as Hx. unfold snapshot_wf in *.
  destruct (bs_db x); [done|]. rewrite Hh. unfold tables in Ht. injection Ht as E1 E2 E3 E4. by rewrite E1, E2.
Qed.

(** *** Combining *)

Lemma safe_up {A} fr n (op : M (Hd := Hd) A) : safe fr n n op → safe fr n (n + 1) op.
Proof.
  assert (∀ w, framed fr n w → framed fr (n + 1) w) as Hup.
  { intros w [? ? ?]. split; [eapply world_wf_weaken; [|done]; lia|done..]. }
  intros Hs. eapply triple_conseq; [exact Hs|done|]. intros [] w; apply Hup.
Qed.

(** An operation that leaves the tables alone, in whatever fork it works. *)
Lemma safe_quiet {A} fr n (op : M (Hd := Hd) A) :
  (∀ t, away_t fr t → (∀ id idx, t.2 = Some (id, idx) → idx < t.1.2) → quiet fr n t op) → safe fr n n op.
Proof.
  intros Hq w Hw. pose proof (at_framed fr n w Hw) as [Hat Haw].
  destruct (Hq (tables w) Haw) with w as (w' & r & E & Hr); [|done|].
  - intros id idx E. pose proof (fr_world _ _ _ Hw) as Hwf. destruct (ww_active _ _ Hwf _ _ E) as [Hi ->].
    apply (wf_issued _ _ (ww_inner _ _ Hwf)) in Hi. cbn. unfold slot_of. lia.
  - do 2 eexists. split; [done|]. destruct r; by eapply framed_at.
Qed.

(** Work on the active database. *)
Lemma quiet_on_db {A} fr n t (fork : _ → _ * A) mem :
  away_t fr t → (∀ id idx, t.2 = Some (id, idx) → idx < t.1.2) → quiet fr n t (on_db fork mem).
Proof.
  intros Haw Hidx. apply quiet_gets_bind. intros b w [Hw ->].
  assert (active_fork_ids (backend_of w) = t.2) as Ea by (by destruct Hw as (_ & <- & _)).
  destruct (active_fork_ids (backend_of w)) as [[id idx]|].
  - apply (quiet_bind fr n t); [apply quiet_get_fork; eauto|intros f|done]. destruct (fork (fork_db f)) as [db r].
    apply quiet_bind; [apply quiet_set_fork; [eauto|]|intros _; apply quiet_ret].
    unfold away_t, free in *. destruct fr as [[k g]|]; [|done]. destruct Haw as (? & ? & E & ?). congruence.
  - destruct (mem _) as [db r]. apply (quiet_bind fr n t); [by apply quiet_modify|intros _; apply quiet_ret|done].
Qed.

End inv.
