(* ===== verification/ForkBackendSelect.v ===== *)
(** The backend: what an operation leaves alone, and which accounts a fork has
    after it is selected. *)
From S2P Require Import Prelude Radix Database Snapshots MultiFork ForkBackend ForkBackendInv.

(** ** What an operation leaves alone *)

Section stable.
Context {ET : EvmTypes} {FT : ForkTypes} {RV : Revm} {Hd : Type} {FH : ForkHandler Hd} {MO : MapOrder}.
Implicit Types w : World (Hd := Hd).

Definition stable {S A} (f : World (Hd := Hd) → S) (m : M A) : Prop :=
  ∀ w w' r, m w = Some (w', r) → f w' = f w.

Lemma stable_bind {S A B} (f : World → S) (m : M A) (k : A → M B) :
  stable f m → (∀ a, stable f (k a)) → stable f (mbind_ m k).
Proof.
  intros Hm Hk w w' r. unfold mbind_. destruct (m w) as [[w1 [a|e]]|] eqn:E; [|intros [= <- <-]; by eapply Hm|done].
  intros E'. rewrite (Hk _ _ _ _ E'). by eapply Hm.
Qed.

Lemma stable_ret {S A} (f : World → S) (a : A) : stable f (mret a).
Proof. by intros w w' r [= <- <-]. Qed.

Lemma stable_ok_or {S A} (f : World → S) (o : option A) e : stable f (ok_or o e).
Proof. by destruct o; intros w w' r [= <- <-]. Qed.

Lemma stable_expect {S A} (f : World → S) (o : option A) : stable f (expect o).
Proof. destruct o; [by intros w w' r [= <- <-]|done]. Qed.

Lemma stable_gets {S A} (f : World → S) (g : World → A) : stable f (gets g).
Proof. by intros w w' r [= <- <-]. Qed.

Lemma stable_err {S A} (f : World → S) e : stable (A := A) f (merr e).
Proof. by intros w w' r [= <- <-]. Qed.

Lemma stable_modify {S} (f : World → S) g : (∀ w, f (g w) = f w) → stable f (modify g).
Proof. intros Hg w w' r [= <- <-]. apply Hg. Qed.

Lemma stable_request {S A} (f : World → S) (g : Hd → Hd * result A Str) :
  (∀ w h, f (set_backend (set_handler h (backend_of w)) w) = f w) → stable f (request g).
Proof. intros Hf w w' r. unfold request. destruct (g _). intros [= <- _]. apply Hf. Qed.

Lemma bind_inv {A B} (m : M A) (k : A → M B) w w' b :
  mbind_ m k w = Some (w', Ok b) → ∃ w1 a, m w = Some (w1, Ok a) ∧ k a w1 = Some (w', Ok b).
Proof. unfold mbind_. destruct (m w) as [[w1 [a|e]]|]; [|done..]. eauto. Qed.
End stable.

Ltac stable_head m := lazymatch m with ?g _ => stable_head g | _ => m end.

Ltac stable_steps :=
  repeat match goal with
  | |- stable _ (mbind_ _ _) => apply stable_bind; [|intros ?]
  | |- stable _ (mret _) => apply stable_ret
  | |- stable _ (merr _) => apply stable_err
  | |- stable _ (gets _) => apply stable_gets
  | |- stable _ (ok_or _ _) => apply stable_ok_or
  | |- stable _ (expect _) => apply stable_expect
  | |- stable _ mpanic => by intros ? ? ?
  | |- stable _ (modify _) => apply stable_modify; done
  | |- stable _ (request _) => apply stable_request; done
  | |- stable _ (if ?c then _ else _) => destruct c eqn:?
  | |- stable _ (match ?x with _ => _ end) => destruct x eqn:?
  | H : _ |- stable _ _ => by apply H
  | |- stable _ ?m => let h := stable_head m in unfold h
  end.

(** From a run of an operation, that it leaves [f] alone. *)
Tactic Notation "unchanged" constr(f) hyp(E) "as" ident(C) :=
  let m := lazymatch type of E with ?m _ = _ => m end in
  let H := fresh in
  assert (stable f m) as H by stable_steps; pose proof (H _ _ _ E) as C; clear H.

Section keep.
Context {ET : EvmTypes} {FT : ForkTypes} {RV : Revm} {Hd : Type} {FH : ForkHandler Hd} {MO : MapOrder}.
Implicit Types w : World (Hd := Hd).

(** *** Snapshots *)

Definition snapshots_of w : StateSnapshots.t BackendStateSnapshot := state_snapshots (inner (backend_of w)).

Lemma replace_accounts_snapshots idx l js : stable snapshots_of (replace_accounts idx l js).
Proof. revert js. induction l as [|a l IH]; intros js; cbn [replace_accounts]; stable_steps. Qed.

Lemma prepare_forks_snapshots n idx js l : stable snapshots_of (prepare_forks n idx js l).
Proof.
  pose proof replace_accounts_snapshots. revert idx. induction n as [|n IH]; intros idx; cbn [prepare_forks]; stable_steps.
Qed.

Lemma select_fork_snapshots probe id : stable snapshots_of (select_fork probe id).
Proof. pose proof prepare_forks_snapshots. unfold select_fork. stable_steps. Qed.

Lemma create_fork_snapshots create : stable snapshots_of (create_fork create).
Proof. unfold create_fork. stable_steps. Qed.

Lemma roll_fork_snapshots id block : stable snapshots_of (roll_fork id block).
Proof. unfold roll_fork. stable_steps. Qed.
End keep.

(** ** Which accounts a fork has after it is selected *)

(** revm's databases: reading or writing an account leaves the others alone. *)
Class RevmLaws `{Revm} := {
  basic_other Ext (db : CacheDB.t Bytecode Ext) a b :
    a ≠ b → CacheDB.accounts (db_basic db a).1 !! b = CacheDB.accounts db !! b;
  insert_other Ext (db : CacheDB.t Bytecode Ext) a i b :
    a ≠ b → CacheDB.accounts (insert_account_info db a i) !! b = CacheDB.accounts db !! b
}.

Section select.
Context {ET : EvmTypes} {FT : ForkTypes} {RV : Revm} {RL : RevmLaws} {Hd : Type} {FH : ForkHandler Hd} {MO : MapOrder}.
Context {HL : ForkHandlerLaws Hd}.
Implicit Types (w : World (Hd := Hd)) (js : JournaledState) (f : Fork).

(** An account of the active fork over that of the target. *)
Definition merged (x y : option Account) : option Account :=
  match x with
  | None => y
  | Some acc => Some (match y with
                      | Some fork_account => set_acc_storage (acc_storage acc ∪ acc_storage fork_account) acc
                      | None => acc
                      end)
  end.

Lemma merged_idem x y : merged x (merged x y) = merged x y.
Proof.
  destruct x as [acc|]; [|done]. cbn. f_equal. destruct y as [fa|]; destruct acc; unfold set_acc_storage; cbn; f_equal.
  - by rewrite map_union_assoc, map_union_idemp.
  - apply map_union_idemp.
Qed.

Lemma merge_js_lookup addr active_js js a :
  js_state (merge_journaled_state_data addr active_js js) !! a =
  if decide (addr = a) then merged (js_state active_js !! a) (js_state js !! a) else js_state js !! a.
Proof.
  unfold merge_journaled_state_data, merged. case_decide as E; [subst a|].
  - destruct (js_state active_js !! addr); [|done]. cbn. by rewrite lookup_insert_eq.
  - destruct (js_state active_js !! addr); [|done]. cbn. by rewrite lookup_insert_ne.
Qed.

Lemma merge_db_other {Ext} addr (active : CacheDB.t Bytecode Ext) db a :
  addr ≠ a → CacheDB.accounts (merge_db_account_data addr active db) !! a = CacheDB.accounts db !! a.
Proof.
  intros Hne. unfold merge_db_account_data. destruct (CacheDB.accounts active !! addr); [|done].
  cbn. by rewrite lookup_insert_ne.
Qed.

Lemma merge_accounts_js {Ext} l (active : CacheDB.t Bytecode Ext) active_js f a :
  js_state (fork_js (merge_accounts l active active_js f)) !! a =
  if decide (a ∈ l) then merged (js_state active_js !! a) (js_state (fork_js f) !! a) else js_state (fork_js f) !! a.
Proof.
  unfold merge_accounts. revert f. induction l as [|b l IH]; intros f; cbn [foldl].
  { by rewrite decide_False by apply not_elem_of_nil. }
  rewrite IH. cbn [fork_js]. rewrite merge_js_lookup. destruct (decide (a ∈ l)) as [Hl|Hl].
  - rewrite (decide_True (P := a ∈ b :: l)) by (by right). case_decide; [apply merged_idem|done].
  - case_decide as E; [subst b; rewrite decide_True by (by left); done|].
    rewrite decide_False; [done|]. rewrite elem_of_cons. naive_solver.
Qed.

Lemma merge_accounts_db {Ext} l (active : CacheDB.t Bytecode Ext) active_js f a :
  a ∉ l → CacheDB.accounts (fork_db (merge_accounts l active active_js f)) !! a = CacheDB.accounts (fork_db f) !! a.
Proof.
  unfold merge_accounts. revert f. induction l as [|b l IH]; intros f Ha; cbn [foldl]; [done|].
  apply not_elem_of_cons in Ha as [Hne Ha]. rewrite IH by done. cbn. by apply merge_db_other.
Qed.

Lemma set_iter_elem (s : gset Z) a : a ∈ set_iter s ↔ a ∈ s.
Proof.
  unfold set_iter. rewrite list_elem_of_fmap. split.
  - intros ([k []] & -> & Hin). rewrite map_iter_perm in Hin.
    apply elem_of_map_to_list, lookup_gset_to_gmap_Some in Hin. apply Hin.
  - intros Ha. exists (a, tt). split; [done|]. rewrite map_iter_perm. by apply elem_of_map_to_list, lookup_gset_to_gmap_Some.
Qed.

(** The caller is added when it is missing; nobody else is touched. *)
Lemma ensure_caller_other caller current f js a :
  caller ≠ a →
  let '(f', js') := ensure_caller caller current f js in
  js_state js' !! a = js_state js !! a ∧ CacheDB.accounts (fork_db f') !! a = CacheDB.accounts (fork_db f) !! a.
Proof.
  intros Hne. unfold ensure_caller. destruct (js_state js !! caller); [done|]. cbn.
  rewrite lookup_insert_ne by done. split; [done|]. case_decide; [done|]. by rewrite insert_other.
Qed.

Lemma ensure_caller_logs caller current f js : js_logs (ensure_caller caller current f js).2 = js_logs js.
Proof. unfold ensure_caller. by destruct (js_state js !! caller). Qed.

Definition persistent_of w : gset Z := persistent_accounts (inner (backend_of w)).

(** The two databases an active fork can merge from. *)
Lemma update_fork_db_spec active w f :
  let '(js, f') := update_fork_db active w f in
  js = fork_js f' ∧
  (∀ a, js_state js !! a = if decide (a ∈ persistent_of w)
     then merged (js_state (js_of w) !! a) (js_state (fork_js f) !! a) else js_state (fork_js f) !! a) ∧
  (∀ a, a ∉ persistent_of w → CacheDB.accounts (fork_db f') !! a = CacheDB.accounts (fork_db f) !! a).
Proof.
  assert (∀ Ext (db : CacheDB.t Bytecode Ext),
    let '(js, f') := merge_account_data (set_iter (persistent_of w)) db (js_of w) f in
    js = fork_js f' ∧
    (∀ a, js_state js !! a = if decide (a ∈ persistent_of w)
       then merged (js_state (js_of w) !! a) (js_state (fork_js f) !! a) else js_state (fork_js f) !! a) ∧
    (∀ a, a ∉ persistent_of w → CacheDB.accounts (fork_db f') !! a = CacheDB.accounts (fork_db f) !! a)) as Hm.
  { intros Ext db. unfold merge_account_data. cbn. split_and!; [done| |].
    - intros a. rewrite merge_accounts_js. apply decide_ext, set_iter_elem.
    - intros a Ha. apply merge_accounts_db. by rewrite set_iter_elem. }
  destruct active; apply Hm.
Qed.

Lemma entered_spec active w f :
  let '(js, f') := entered active w f in
  js = fork_js f' ∧
  (∀ a, a ∈ persistent_of w ∨ a ≠ tx_caller (env_of w) →
     ∃ y, js_state js !! a = (if decide (a ∈ persistent_of w) then merged (js_state (js_of w) !! a) y else y) ∧
       (a ≠ tx_caller (env_of w) → y = js_state (fork_js f) !! a)) ∧
  (∀ a, a ∉ persistent_of w → a ≠ tx_caller (env_of w) →
     CacheDB.accounts (fork_db f') !! a = CacheDB.accounts (fork_db f) !! a).
Proof.
  unfold entered. set (f0 := mk_fork _ _).
  pose proof (ensure_caller_other (tx_caller (env_of w)) (js_of w) f0 (fork_js f0)) as Hc.
  destruct (ensure_caller _ _ _ _) as [f1 js1]. set (f2 := mk_fork _ js1).
  pose proof (update_fork_db_spec active w f2) as Hu. destruct (update_fork_db active w f2) as [js f'].
  destruct Hu as (-> & Hjs & Hdb). split_and!; [done| |].
  - intros a _. exists (js_state js1 !! a). split; [by rewrite Hjs|]. intros Hne. by destruct (Hc a) as [-> _].
  - intros a Hp Hne. rewrite Hdb by done. cbn. by destruct (Hc a) as [_ ->].
Qed.

(** *** From one fork to another *)

(** All but the handler and the cached types of nodes. *)
Definition core w := (inner (backend_of w), active_fork_ids (backend_of w), mem_db (backend_of w), js_of w, env_of w).

Definition forks_of w : list (option Fork) := inner_forks (inner (backend_of w)).

(** The same accounts but for that of the caller. *)
Definition alike (caller : Z) f f' : Prop := ∀ a, a ≠ caller →
  js_state (fork_js f') !! a = js_state (fork_js f) !! a ∧
  CacheDB.accounts (fork_db f') !! a = CacheDB.accounts (fork_db f) !! a.

Lemma leave_fork_spec w w' aidx idx fa f :
  forks_of w !! aidx = Some (Some fa) → forks_of w !! idx = Some (Some f) → aidx ≠ idx →
  leave_fork aidx idx w = Some (w', Ok tt) →
  ∃ f', w' = set_world_forks (<[idx := Some f']> (<[aidx := Some (mk_fork (fork_db fa) (js_of w))]> (forks_of w))) w ∧
    alike (tx_caller (env_of w)) f f'.
Proof.
  unfold forks_of. intros Ha Hf Hne. pose proof (lookup_lt_Some _ _ _ Ha) as La. pose proof (lookup_lt_Some _ _ _ Hf) as Lf.
  unfold leave_fork, get_fork, set_fork, put_fork, modify_inner, modify_backend, mbind_, gets, modify, fork_at, expect, mret, merr.
  cbn. rewrite Ha. cbn. rewrite decide_True by done. cbn.
  rewrite list_lookup_insert_ne, Hf by done. cbn.
  assert (∀ w l, l !! idx = Some (Some f) → set_world_forks l w = set_world_forks (<[idx := Some f]> l) w) as Hid
    by (intros; by rewrite list_insert_id).
  assert (<[aidx := Some (mk_fork (fork_db fa) (js_of w))]> (inner_forks (inner (backend_of w))) !! idx = Some (Some f)) as Hf'
    by (by rewrite list_lookup_insert_ne).
  assert (alike (tx_caller (env_of w)) f f) as Hrefl by (by intros ? ?).
  destruct (js_depth (fork_js f) =? 0)%Z; [|intros [= <-]; exists f; split; [by apply Hid|done]].
  destruct (js_state (js_of w) !! tx_caller (env_of w)) as [acc|]; [|intros [= <-]; exists f; split; [by apply Hid|done]].
  pose proof (basic_other _ (fork_db f) (tx_caller (env_of w))) as Hb.
  destruct (db_basic (fork_db f) (tx_caller (env_of w))) as [db r]. cbn in Hb |- *.
  rewrite !length_insert, decide_True by done. cbn.
  destruct r as [[fork_account|]|e]; cbn; [|done..].
  rewrite !length_insert, decide_True by done. cbn. intros [= <-]. eexists. split.
  - unfold set_world_forks, set_backend. cbn. by rewrite list_insert_insert_eq.
  - intros a Hne'. cbn. rewrite lookup_insert_ne by done. split; [done|]. by apply Hb.
Qed.

(** The fork that was active keeps the journaled state; the new one has its own
    accounts, the caller, and what the persistent accounts have become. *)
Record selected id w w' aidx fa f : Prop := {
  sel_active : active_fork_ids (backend_of w') = Some (id, slot_of id);
  sel_left : forks_of w' !! aidx = Some (Some (mk_fork (fork_db fa) (js_of w)));
  sel_entered : ∃ f', forks_of w' !! slot_of id = Some (Some f') ∧ js_of w' = fork_js f' ∧
    ∀ a, (a ∉ persistent_of w → a ≠ tx_caller (env_of w) →
        js_state (js_of w') !! a = js_state (fork_js f) !! a ∧
        CacheDB.accounts (fork_db f') !! a = CacheDB.accounts (fork_db f) !! a) ∧
      (a ∈ persistent_of w → ∃ y, js_state (js_of w') !! a = merged (js_state (js_of w) !! a) y) }.

Lemma select_fork_spec probe n id w w' aid aidx :
  world_wf n w → active_fork_ids (backend_of w) = Some (aid, aidx) → aid ≠ id →
  select_fork probe id w = Some (w', Ok tt) →
  ∃ fa f, forks_of w !! aidx = Some (Some fa) ∧ forks_of w !! slot_of id = Some (Some f) ∧ aidx ≠ slot_of id ∧
    selected id w w' aidx fa f.
Proof.
  intros Hw Hact Hne E. destruct (ww_active _ _ Hw _ _ Hact) as [Hai Haidx].
  destruct (fork_there None n (tables w) w aidx) as [fa Hfa]; [done| |].
  { apply (wf_issued _ _ (ww_inner _ _ Hw)) in Hai. cbn. rewrite Haidx. unfold slot_of. lia. }
  unfold select_fork in E. apply bind_inv in E as (w0 & b & [= <- <-] & E).
  unfold is_active_fork, active_fork_id in E. rewrite Hact in E. cbn [fmap option_fmap option_map fst] in E.
  rewrite (proj2 (Z.eqb_neq aid id) Hne) in E.
  apply bind_inv in E as (w1 & r1 & E1 & E). unchanged core E1 as C1.
  apply bind_inv in E as (w2 & fid & E2 & E).
  assert (w2 = w1 ∧ issued_local_fork_ids (inner (backend_of w)) !! id = Some fid) as [-> Hid].
  { pose proof C1 as C1'. unfold core in C1'. injection C1' as Ci _ _ _ _. rewrite <- Ci. revert E2. unfold ensure_fork_id, mbind_, gets, ok_or. case_match; [|done]. by intros [= <- <-]. }
  apply bind_inv in E as (w2 & idx & E2' & E).
  assert (w2 = w1 ∧ idx = slot_of id) as [-> ->].
  { revert E2'. unfold ensure_fork_index, mbind_, gets, ok_or.
    unfold core in C1. injection C1 as Ci _ _ _ _. rewrite Ci.
    rewrite (wf_slot _ _ (ww_inner _ _ Hw) _ _ Hid). by intros [= <- <-]. }
  apply bind_inv in E as (w3 & r3 & E3 & E). unchanged core E3 as C3.
  apply bind_inv in E as (w4 & r4 & E4 & E). unchanged core E4 as C4.
  apply bind_inv in E as (w5 & r5 & E5 & E). unchanged core E5 as C5.
  apply bind_inv in E as (w6 & r6 & E6 & E). unchanged core E6 as C6.
  assert (core w6 = core w) as C by congruence. clear E1 E2 E2' E3 E4 E5 E6 C1 C3 C4 C5 C6.
  unfold core in C. injection C as Ci Ca Cm Cj Ce.
  assert (forks_of w6 = forks_of w) as Cf by (unfold forks_of; by rewrite Ci).
  apply bind_inv in E as (w7 & r7 & E7 & E). destruct r7.
  apply (wf_issued _ _ (ww_inner _ _ Hw)) in Hai.
  pose proof (proj1 (wf_issued _ _ (ww_inner _ _ Hw) id) ltac:(eauto)) as Hlt.
  assert (aidx ≠ slot_of id) as Hap by (rewrite Haidx; unfold slot_of; lia).
  destruct (fork_there None n (tables w) w (slot_of id)) as [f Hf]; [done|cbn; unfold slot_of; lia|].
  exists fa, f. split_and!; [done..|].
  apply (leave_fork_spec w6 w7 aidx (slot_of id) fa f) in E7 as (f1 & -> & Hlike); [|by rewrite Cf|by rewrite Cf|done].
  rewrite Cf, Cj in E. set (l := <[slot_of id := Some f1]> _) in E.
  apply bind_inv in E as (w8 & r8 & E8 & E).
  assert (l !! slot_of id = Some (Some f1)) as Hl1.
  { unfold l. apply list_lookup_insert_eq. rewrite length_insert. by eapply lookup_lt_Some. }
  assert (l !! aidx = Some (Some (mk_fork (fork_db fa) (js_of w)))) as Hl2.
  { unfold l. rewrite list_lookup_insert_ne by done. apply list_lookup_insert_eq. by eapply lookup_lt_Some. }
  rewrite (enter_fork_eq _ _ f1 (Some (mk_fork (fork_db fa) (js_of w)))) in E8; [|done|cbn; rewrite Ca, Hact; eauto].
  set (w7 := set_world_forks l w6) in *.
  pose proof (entered_spec (Some (mk_fork (fork_db fa) (js_of w))) w7 f1) as He.
  destruct (entered _ w7 f1) as [js f2]. injection E8 as <- _. injection E as <-.
  destruct He as (-> & Hjs & Hdb).
  assert (persistent_of w7 = persistent_of w) as Cp by (unfold persistent_of; cbn; by rewrite Ci).
  change (js_of w7) with (js_of w6) in Hjs. change (env_of w7) with (env_of w6) in Hjs, Hdb. rewrite Cp, ?Cj, ?Ce in *.
  split; [done| |].
  - cbn. rewrite list_lookup_insert_ne by done. done.
  - exists f2. split_and!; [cbn; apply list_lookup_insert_eq; by eapply lookup_lt_Some|done|].
    intros a. split.
    + intros Hp Hc. destruct (Hjs a) as (y & Hy & Hy'); [by right|]. rewrite decide_False in Hy by done.
      destruct (Hlike a Hc) as [Hl Hl']. cbn. rewrite Hy, Hy' by done. split; [done|]. by rewrite Hdb.
    + intros Hp. destruct (Hjs a) as (y & Hy & _); [by left|]. rewrite decide_True in Hy by done. by exists y.
Qed.
End select.
