(* ===== verification/ForkTransact.v ===== *)
(** Transactions on forks (the rest of evm/core/src/backend/mod.rs): replaying and
    executing mined transactions, rolling a fork to a transaction, the database
    traits of the backend, genesis accounts, and the diagnosis of a revert; with
    the environment of a transaction (evm/core/src/utils.rs).

    The remote node and the EVM itself are parameters. *)
From S2P Require Import Prelude Radix Database Snapshots MultiFork ForkBackend.

(** ** Transactions and blocks *)

Section types.
Context `{ForkTypes}.

(** [TransactionRequest] of alloy; the inner [option] of [req_to] is a
    [TxKind]. *)
Record TransactionRequest := mk_request {
  req_nonce : option Z; req_from : option Z; req_to : option (option Z); req_value : option Z;
  req_gas_price : option Z; req_gas : option Z; req_max_fee_per_gas : option Z;
  req_max_priority_fee_per_gas : option Z; req_max_fee_per_blob_gas : option Z;
  req_input : option (list Z); req_chain_id : option Z; req_blob_versioned_hashes : option (list Z);
  req_access_list : option (list AccessListItem); req_authorization_list : option AuthorizationList }.

(** A transaction of a block: [tx_request] is the request it converts to, for an
    Ethereum envelope. *)
Record Tx := mk_tx {
  tx_hash : Z; tx_from : Z; tx_type : option Z; tx_sig : Z * Z * bool; tx_ty : Z;
  tx_block_number : option Z; tx_request : option TransactionRequest }.

Record Header := mk_header {
  h_number : Z; h_timestamp : Z; h_beneficiary : Z; h_difficulty : Z; h_mix_hash : option Z;
  h_base_fee_per_gas : option Z; h_gas_limit : Z; h_excess_blob_gas : option Z }.

Record Block := mk_block { header : Header; txns : list Tx }.
End types.

(** The remote node at a block, the EVM, and the zksync RPC. *)
Class Remote `{Revm} := {
  get_transaction : SharedBackend → Z → result Tx DbErr;
  (** [None] is the latest block *)
  get_full_block : SharedBackend → option Z → result Block DbErr;
  blob_price : Z → BlobExcessGasAndPrice;
  (** [evm.transact()] on a new backend that has only this fork *)
  evm_transact : ForkId.t → Fork → JournaledState → SpecId → Env → Z → result (gmap Z Account) Str;
  (** the provider for a url, and its answer to [zks_getBytecodeByHash] *)
  zk_provider : Str → result (Z → result Bytecode DbErr) DbErr
}.

(** ** The environment of a transaction *)

Definition ARBITRUM_SENDER : Z := 0xa4b05.
Definition OPTIMISM_SYSTEM_ADDRESS : Z := 0xdeaddeaddeaddeaddeaddeaddeaddeaddead0001.
Definition SYSTEM_TRANSACTION_TYPE : Z := 126.

Definition is_known_system_sender (sender : Z) : bool :=
  bool_decide (sender ∈ [ARBITRUM_SENDER; OPTIMISM_SYSTEM_ADDRESS]).

Definition is_impersonated_sig (sig : Z * Z * bool) (ty : Z) : bool :=
  negb (ty =? SYSTEM_TRANSACTION_TYPE)%Z && bool_decide (sig = (1%Z, 1%Z, false)).

Section env.
Context `{ForkTypes}.

Definition is_impersonated_tx (tx : Tx) : bool :=
  match tx_request tx with Some _ => is_impersonated_sig (tx_sig tx) (tx_ty tx) | None => false end.

Definition configure_tx_req_env (e : Env) (tx : TransactionRequest) (impersonated_from : option Z) :
    result Env Str :=
  match req_from tx, req_gas tx with
  | None, _ => Err (str "missing `from` field")
  | _, None => Err (str "missing `gas` field")
  | Some from, Some gas =>
      Ok (mk_env (block_number e) (block_timestamp e) (block_rest e) (cfg e)
        (default from impersonated_from) (req_chain_id tx)
        (mk_tx_rest (default None (req_to tx)) gas
           (default 0 (match req_gas_price tx with Some p => Some p | None => req_max_fee_per_gas tx end))
           (req_max_priority_fee_per_gas tx) (default 0 (req_value tx)) (default [] (req_input tx))
           (req_nonce tx) (default [] (req_access_list tx)) (default [] (req_blob_versioned_hashes tx))
           (req_max_fee_per_blob_gas tx)
           (match req_authorization_list tx with
            | Some l => Some l
            | None => tx_authorization_list (tx_rest e)
            end)))%Z
  end.

(** [None]: the conversion "cannot fail". *)
Definition configure_tx_env (e : Env) (tx : Tx) : option Env :=
  let impersonated_from := if is_impersonated_tx tx then Some (tx_from tx) else None in
  match tx_request tx with
  | Some r => match configure_tx_req_env e r impersonated_from with Ok e => Some e | Err _ => None end
  | None => Some e
  end.

Definition update_env_block (blob : Z → BlobExcessGasAndPrice) (e : Env) (b : Block) : Env :=
  let h := header b in
  mk_env (h_number h) (h_timestamp h)
    (mk_block_rest (h_beneficiary h) (h_gas_limit h) (default 0%Z (h_base_fee_per_gas h)) (h_difficulty h)
       (Some (default 0%Z (h_mix_hash h)))
       (match h_excess_blob_gas h with
        | Some g => Some (blob g)
        | None => blob_excess_gas_and_price (block_rest e)
        end))
    (cfg e) (tx_caller e) (tx_chain_id e) (tx_rest e).
End env.

(** ** State after a transaction *)

Section update.
Context `{Revm} {MO : MapOrder} {Ext : Type}.
Abbreviation DB := (CacheDB.t Bytecode Ext).

Definition set_present (v : Z) (s : EvmStorageSlot) : EvmStorageSlot := mk_slot (original_value s) v (is_cold s).

(** The inner loop of [update_state]. *)
Fixpoint update_slots (db : DB) (addr : Z) (l : list (Z * EvmStorageSlot)) (m : gmap Z EvmStorageSlot) :
    DB * gmap Z EvmStorageSlot * result unit DbErr :=
  match l with
  | [] => (db, m, Ok tt)
  | (key, val) :: l =>
      let '(db, r) := db_storage db addr key in
      match r with
      | Err e => (db, m, Err e)
      | Ok v => update_slots db addr l (<[key := set_present v val]> m)
      end
  end.

Definition update_account (db : DB) (addr : Z) (acc : Account) : DB * Account * result unit DbErr :=
  let '(db, r) := db_basic db addr in
  match r with
  | Err e => (db, acc, Err e)
  | Ok i =>
      let acc := set_acc_info (default info_default i) acc in
      let '(db, m, r) := update_slots db addr (map_iter (acc_storage acc)) (acc_storage acc) in
      (db, set_acc_storage m acc, r)
  end.

Fixpoint update_accounts (db : DB) (persistent : gset Z) (l : list (Z * Account)) (st : gmap Z Account) :
    DB * gmap Z Account * result unit DbErr :=
  match l with
  | [] => (db, st, Ok tt)
  | (addr, acc) :: l =>
      if decide (addr ∈ persistent) then update_accounts db persistent l st
      else
        let '(db, acc, r) := update_account db addr acc in
        let st := <[addr := acc]> st in
        match r with
        | Err e => (db, st, Err e)
        | Ok _ => update_accounts db persistent l st
        end
  end.

Definition update_state (st : gmap Z Account) (db : DB) (persistent : gset Z) :
    DB * gmap Z Account * result unit DbErr :=
  update_accounts db persistent (map_iter st) st.
End update.

Section apply.
Context `{Remote} {MO : MapOrder}.

(** Both journaled states are updated, the first as far as it goes. *)
Definition apply_state_changeset (state : gmap Z Account) (js : JournaledState) (f : Fork)
    (persistent : gset Z) : JournaledState * Fork * result unit DbErr :=
  let db := db_commit (fork_db f) state in
  let '(db, st, r) := update_state (js_state js) db persistent in
  let js := set_state st js in
  match r with
  | Err e => (js, mk_fork db (fork_js f), Err e)
  | Ok _ =>
      let '(db, st, r) := update_state (js_state (fork_js f)) db persistent in
      (js, mk_fork db (set_state st (fork_js f)), r)
  end.

(** [None] is a panic. *)
Definition commit_transaction (spec : SpecId) (tx : Tx) (e : Env) (js : JournaledState) (f : Fork)
    (fork_id : ForkId.t) (persistent : gset Z) : option (JournaledState * Fork * result unit BackendErr) :=
  match configure_tx_env e tx with
  | None => None
  | Some e =>
      Some match evm_transact fork_id f js spec e (js_depth js + 1) with
      | Err x => (js, f, Err (Eyre x))
      | Ok state =>
          match apply_state_changeset state js f persistent with
          | (js, f, Ok _) => (js, f, Ok tt)
          | (js, f, Err x) => (js, f, Err (DatabaseErr x))
          end
      end
  end.
End apply.

(** ** Operations of the backend *)

Section operations.
Context {ET : EvmTypes} {FT : ForkTypes} {RV : Revm} {RM : Remote} {Hd : Type} {FH : ForkHandler Hd} {MO : MapOrder}.
Context (probe : Str → ForkType).
Implicit Types w : World (Hd := Hd).

(** [?] on the result of a database. *)
Definition db_ok {A} (r : result A DbErr) : M (Hd := Hd) A :=
  match r with Ok a => mret a | Err e => merr (DatabaseErr e) end.

(** [.ok()] on the result of an operation. *)
Definition attempt {A} (m : M (Hd := Hd) A) : M (Hd := Hd) (option A) := λ w,
  match m w with
  | Some (w, Ok a) => Some (w, Ok (Some a))
  | Some (w, Err _) => Some (w, Ok None)
  | None => None
  end.

Definition get_fork_by_id (id : Z) : M (Hd := Hd) Fork :=
  let! idx := ensure_fork_index_by_local_id id in get_fork idx.

Definition get_block_number_and_block_for_transaction (id transaction : Z) : M (Hd := Hd) (Z * Block) :=
  let! f := get_fork_by_id id in
  let! tx := db_ok (get_transaction (CacheDB.db (fork_db f)) transaction) in
  match tx_block_number tx with
  | Some tx_block =>
      let! b := db_ok (get_full_block (CacheDB.db (fork_db f)) (Some tx_block)) in
      mret (((tx_block - 1) mod 2 ^ 64)%Z, b)
  | None =>
      let! b := db_ok (get_full_block (CacheDB.db (fork_db f)) None) in
      mret (h_number (header b), b)
  end.

(** [commit_transaction] on the fork at [idx], with the journaled state of the
    caller, whatever fork that belongs to. *)
Definition commit_on (idx : nat) (tx : Tx) (e : Env) (fork_id : ForkId.t) : M (Hd := Hd) unit :=
  let! w := gets (λ w, w) in
  let! f := get_fork idx in
  let i := inner (backend_of w) in
  let! x := expect (commit_transaction (spec_id i) tx e (js_of w) f fork_id (persistent_accounts i)) in
  let '(js, f, r) := x in
  set_fork idx f ;;!
  modify (set_world_js js) ;;!
  match r with Ok _ => mret tt | Err e => merr e end.

(** The loop of [replay_until]; [Some] is the transaction that was looked for. *)
Fixpoint replay (idx : nat) (fork_id : ForkId.t) (e : Env) (hash : Z) (l : list Tx) : M (Hd := Hd) (option Tx) :=
  match l with
  | [] => mret None
  | tx :: l =>
      if is_known_system_sender (tx_from tx) || bool_decide (tx_type tx = Some SYSTEM_TRANSACTION_TYPE)
      then replay idx fork_id e hash l
      else if (tx_hash tx =? hash)%Z then mret (Some tx)
      else commit_on idx tx e fork_id ;;! replay idx fork_id e hash l
  end.

(** [U256::to::<u64>], which panics when the number does not fit. *)
Definition to_u64 (n : Z) : option Z := if (n <? 2 ^ 64)%Z then Some n else None.

Definition replay_until (id : Z) (e : Env) (hash : Z) : M (Hd := Hd) (option Tx) :=
  let! fork_id := ensure_fork_id id in
  let! idx := ensure_fork_index_by_local_id id in
  let! f := get_fork idx in
  let! number := expect (to_u64 (block_number e)) in
  let! b := db_ok (get_full_block (CacheDB.db (fork_db f)) (Some number)) in
  replay idx fork_id e hash (txns b).

Definition roll_fork_to_transaction (id : option Z) (transaction : Z) : M (Hd := Hd) unit :=
  let! id := ensure_fork id in
  let! x := get_block_number_and_block_for_transaction id transaction in
  let '(fork_block, b) := x in
  roll_fork (Some id) fork_block ;;!
  modify (λ w, set_world_env (update_env_block blob_price (env_of w) b) w) ;;!
  let! e := gets env_of in
  replay_until id e transaction ;;! mret tt.

(** An operation that is given an environment and a journaled state of its own. *)
Definition with_scratch {A} (e : Env) (js : JournaledState) (m : M (Hd := Hd) A) : M (Hd := Hd) A := λ w,
  match m (mk_world (backend_of w) e js) with
  | Some (w', r) => Some (mk_world (backend_of w') (env_of w) (js_of w), r)
  | None => None
  end.

Definition create_fork_at_transaction (create : CreateFork) (transaction : Z) : M (Hd := Hd) Z :=
  let! id := create_fork create in
  let! fork_id := ensure_fork_id id in
  let! e := request (h_get_env fork_id) in
  let! e := ok_or e (ForkDoesNotExist id) in
  let! b := gets backend_of in
  with_scratch e (journaled_state_new (spec_id (inner b))) (roll_fork_to_transaction (Some id) transaction) ;;!
  mret id.

Definition create_select_fork_at_transaction (create : CreateFork) (transaction : Z) : M (Hd := Hd) Z :=
  let! id := create_fork_at_transaction create transaction in
  select_fork probe id ;;! mret id.

Definition transact (maybe_id : option Z) (transaction : Z) : M (Hd := Hd) unit :=
  let! id := ensure_fork maybe_id in
  let! fork_id := ensure_fork_id id in
  let! f := get_fork_by_id id in
  let! tx := db_ok (get_transaction (CacheDB.db (fork_db f)) transaction) in
  let! x := get_block_number_and_block_for_transaction id transaction in
  let! e := gets env_of in
  let! idx := ensure_fork_index_by_local_id id in
  commit_on idx tx (update_env_block blob_price e x.2) fork_id.

(** [evm.transact()] on a clone of the backend. *)
Context (evm_on : Backend (Hd := Hd) → Env → Z → result (gmap Z Account) Str).

Definition commit (changes : gmap Z Account) : M (Hd := Hd) unit :=
  on_db (λ db, (db_commit db changes, tt)) (λ db, (db_commit db changes, tt)).

Definition transact_from_tx (tx : TransactionRequest) : M (Hd := Hd) unit :=
  let! js := gets js_of in
  commit (js_state js) ;;!
  let! w := gets (λ w, w) in
  match configure_tx_req_env (env_of w) tx None with
  | Err x => merr (Eyre x)
  | Ok e =>
      match evm_on (backend_of w) e (js_depth js + 1) with
      | Err x => merr (Eyre x)
      | Ok state =>
          commit state ;;!
          let! x := on_db (λ db, let '(db, st, r) := update_state (js_state js) db ∅ in (db, (st, r)))
                          (λ db, let '(db, st, r) := update_state (js_state js) db ∅ in (db, (st, r))) in
          modify (set_world_js (set_state x.1 js)) ;;!
          db_ok x.2
      end
  end.

(** ** The traits of a database *)

Definition get_fork_info (id : Z) : M (Hd := Hd) (ForkType * Env) :=
  let! fork_id := ensure_fork_id id in
  let! e := request (h_get_env fork_id) in
  let! e := ok_or e (ForkDoesNotExist id) in
  let! t := fork_type_of probe fork_id Zk in
  mret (t, e).

Definition active_fork_url : M (Hd := Hd) (option Str) :=
  let! b := gets backend_of in
  match active_fork_id b ≫= λ id, issued_local_fork_ids (inner b) !! id with
  | None => mret None
  | Some fork => let! u := attempt (request (h_get_fork_url fork)) in mret (mjoin u)
  end.

Definition basic (a : Z) : M (Hd := Hd) (option (AccountInfo Bytecode)) :=
  let! r := on_db (λ db, db_basic db a) (λ db, db_basic db a) in db_ok r.

Definition backend_storage (a index : Z) : M (Hd := Hd) Z :=
  let! r := on_db (λ db, db_storage db a index) (λ db, db_storage db a index) in db_ok r.

Definition block_hash (number : Z) : M (Hd := Hd) Z :=
  let! r := on_db (λ db, db_block_hash db number) (λ db, db_block_hash db number) in db_ok r.

(** On a zksync fork the node is asked first. *)
Definition code_by_hash (hash : Z) : M (Hd := Hd) Bytecode :=
  let! b := gets backend_of in
  let! maybe_zk_fork :=
    match active_fork_id b with
    | None => mret None
    | Some id =>
        let! i := attempt (get_fork_info id) in
        match i with Some (Zk, _) => active_fork_url | _ => mret None end
    end in
  let! answer :=
    match maybe_zk_fork with
    | None => mret None
    | Some url =>
        let! ask := db_ok (zk_provider url) in
        match ask hash with Ok code => mret (Some code) | Err _ => mret None end
    end in
  match answer with
  | Some code => mret code
  | None => let! r := on_db (λ db, db_code_by_hash db hash) (λ db, db_code_by_hash db hash) in db_ok r
  end.

Definition backend_insert_account_storage (a slot value : Z) : M (Hd := Hd) unit :=
  let! r := on_db (λ db, insert_account_storage db a slot value) (λ db, insert_account_storage db a slot value) in
  db_ok r.

Definition backend_replace_account_storage (a : Z) (m : gmap Z Z) : M (Hd := Hd) unit :=
  let! r := on_db (λ db, replace_account_storage db a m) (λ db, replace_account_storage db a m) in db_ok r.

Definition insert_block_hash {Ext} (number hash : Z) (db : CacheDB.t Bytecode Ext) : CacheDB.t Bytecode Ext :=
  CacheDB.mk (CacheDB.accounts db) (CacheDB.contracts db) (<[number := hash]> (CacheDB.block_hashes db)) (CacheDB.db db).

Definition set_blockhash (number hash : Z) : M (Hd := Hd) unit :=
  on_db (λ db, (insert_block_hash number hash db, tt)) (λ db, (insert_block_hash number hash db, tt)).

Definition revoke_cheatcode_access (a : Z) : M (Hd := Hd) bool :=
  let! i := gets (λ w, inner (backend_of w)) in
  modify_inner (λ i, set_access (cheatcode_access_accounts i ∖ {[a]}) i) ;;!
  mret (bool_decide (a ∈ cheatcode_access_accounts i)).

Definition has_cheatcode_access (b : Backend (Hd := Hd)) (a : Z) : bool :=
  bool_decide (a ∈ cheatcode_access_accounts (inner b)).

(** ** Genesis accounts *)

Context (keccak : list Z → Z) (new_raw : list Z → Bytecode).

Record GenesisAccount := mk_genesis {
  gen_nonce : option Z; gen_balance : Z; gen_code : option (list Z); gen_storage : option (list (Z * Z)) }.

(** [EvmStorageSlot::new_changed] of each slot over what was there. *)
Definition genesis_storage (old : gmap Z EvmStorageSlot) (l : list (Z * Z)) : gmap Z EvmStorageSlot :=
  foldl (λ m x, <[x.1 := mk_slot (from_option present_value 0%Z (old !! x.1)) x.2 false]> m) ∅ l.

Definition genesis_account (source : GenesisAccount) (acc : Account) : Account :=
  let i := acc_info acc in
  let '(h, c) := match gen_code source with
                 | Some code => (keccak code, Some (new_raw code))
                 | None => (code_hash i, code i)
                 end in
  let st := match gen_storage source with Some l => genesis_storage (acc_storage acc) l | None => acc_storage acc end in
  set_acc_storage st (set_acc_info (mk_info (gen_balance source) (default 0%Z (gen_nonce source)) h c) acc).

Definition clone_account (source : GenesisAccount) (target : Z) : M (Hd := Hd) unit :=
  let! js := gets js_of in
  let! x := on_db (λ db, let '(js, db, r) := load_account js target db in (db, (js, r)))
                  (λ db, let '(js, db, r) := load_account js target db in (db, (js, r))) in
  modify (set_world_js x.1) ;;!
  let! acc := db_ok x.2 in
  modify (λ w, set_world_js (touch (set_state (<[target := genesis_account source acc]> (js_state (js_of w))) (js_of w)) target) w).

Fixpoint load_allocs (allocs : list (Z * GenesisAccount)) : M (Hd := Hd) unit :=
  match allocs with
  | [] => mret tt
  | (addr, acc) :: allocs => clone_account acc addr ;;! load_allocs allocs
  end.

(** ** Diagnosis of a revert *)

Context (KECCAK_EMPTY : Z).

Definition is_contract_in_state (js : JournaledState) (a : Z) : bool :=
  match js_state js !! a with Some acc => negb (code_hash (acc_info acc) =? KECCAK_EMPTY)%Z | None => false end.

Definition is_contract (f : Fork) (a : Z) : bool :=
  match db_basic_ref (fork_db f) a with
  | Ok (Some i) => negb (code_hash i =? KECCAK_EMPTY)%Z || is_contract_in_state (fork_js f) a
  | _ => is_contract_in_state (fork_js f) a
  end.

Inductive RevertDiagnostic :=
  | ContractExistsOnOtherForks (contract active : Z) (available_on : list Z)
  | ContractDoesNotExist (contract active : Z) (persistent : bool).

(** [forks_iter], where a fork that is missing panics. *)
Definition forks_iter (b : Backend (Hd := Hd)) : option (list (Z * Fork)) :=
  mapM (λ x, idx ← created_forks (inner b) !! x.2; f ← fork_at b idx; Some (x.1, f))
    (map_iter (issued_local_fork_ids (inner b))).

Definition diagnose_revert (callee : Z) : M (Hd := Hd) (option RevertDiagnostic) :=
  let! w := gets (λ w, w) in
  let b := backend_of w in
  match active_fork_ids b with
  | None => mret None
  | Some (active_id, idx) =>
      let! active_fork := get_fork idx in
      if decide (length (inner_forks (inner b)) = 1) then mret None
      else if negb (is_contract active_fork callee) && negb (is_contract_in_state (js_of w) callee) then
        let! forks := expect (forks_iter b) in
        let available_on := fst <$> filter (λ x, x.1 ≠ active_id ∧ is_contract x.2 callee = true) forks in
        mret (Some (if decide (available_on = []) then
                      ContractDoesNotExist callee active_id (bool_decide (callee ∈ persistent_accounts (inner b)))
                    else ContractExistsOnOtherForks callee active_id available_on))
      else mret None
  end.
End operations.
