(* ===== verification/MultiForkClient.v ===== *)
(** The client of the fork handler ([MultiFork] in evm/core/src/fork/multi.rs): it
    sends a request and waits for the answer.  What it relies on elsewhere, new
    ids for new and rolled forks, is the class [ForkHandlerLaws] of the backend,
    of which it is an instance. *)
From S2P Require Import Prelude Radix MultiFork MultiForkTheorems ForkBackend ForkBackendInv.

Section client.
Context {FT : ForkTypes} (shared_backend : CreateFork → Z → SharedBackend).

(** What the node says in the course of the [n]-th request. *)
Context (answers : nat → result (Env * Z) Str).

(** The handler at the other end, and the number of requests so far. *)
Record Client := mk_client { served : MultiForkHandler; requests : nat }.
Implicit Types c : Client.

Definition client_new : Client := mk_client handler_new 0.

(** [try_send]; the handler's poll in which the request is taken and its future,
    if any, completes.  The channel stays open. *)
Definition ask (req : Request) c : Client * list (Sender * Answer) :=
  let '(h, out, _) := poll shared_backend
    (mk_input [req] false (λ _, Some (answers (requests c))) (λ _, false)) (served c) in
  (mk_client h (S (requests c)), out).

(** [rx.recv()]: an error when the sender is dropped without an answer. *)
Definition recv {A} (f : Answer → option A) (out : list (Sender * Answer)) : result A Str :=
  match out with
  | [(_, a)] => match f a with Some r => Ok r | None => Err (str "receiving on a closed channel") end
  | _ => Err (str "receiving on a closed channel")
  end.

Definition recv_fork (out : list (Sender * Answer)) : result (ForkId.t * SharedBackend * Env) Str :=
  match recv (λ a, match a with AnsCreate r => Some r | _ => None end) out with
  | Ok r => r
  | Err e => Err e
  end.

#[export] Instance client_handler : ForkHandler Client := {|
  h_create_fork fork c := let '(c, out) := ask (ReqCreateFork fork 0) c in (c, recv_fork out);
  h_roll_fork fork block c := let '(c, out) := ask (ReqRollFork fork block 0) c in (c, recv_fork out);
  h_get_env fork c :=
    let '(c, out) := ask (ReqGetEnv fork 0) c in
    (c, recv (λ a, match a with AnsEnv r => Some r | _ => None end) out);
  h_update_block fork number timestamp c :=
    let '(c, _) := ask (ReqUpdateBlock fork number timestamp) c in (c, Ok tt);
  h_get_fork_url id c :=
    let '(c, out) := ask (ReqGetForkUrl id 0) c in
    (c, recv (λ a, match a with AnsUrl r => Some r | _ => None end) out) |}.

(** ** The laws *)

(** Between requests nothing is pending. *)
Definition client_ok (n : Z) c : Prop :=
  pending_tasks (served c) = [] ∧
  ∃ issued, handler_inv shared_backend (served c) issued ∧ (Z.of_nat (length issued) ≤ Z.min n MAX_FORKS)%Z.

Definition client_known c (id : ForkId.t) : Prop := is_Some (forks (served c) !! id).

Lemma client_ok_mono n m c : (n ≤ m)%Z → client_ok n c → client_ok m c.
Proof. intros Hnm (Hp & issued & Hi & Hlen). split; [done|]. exists issued. split; [done|lia]. Qed.

Lemma client_new_ok n : (0 ≤ n)%Z → client_ok n client_new.
Proof. intros Hn. split; [done|]. exists []. split; [apply handler_new_inv|unfold MAX_FORKS; cbn; lia]. Qed.

Lemma advance_all n a h :
  length (pending_tasks h) = n → pending_tasks (advance_tasks shared_backend n (λ _, Some a) h).1 = [].
Proof.
  revert h. induction n as [|n IH]; intros h Hn; cbn [advance_tasks]; [by apply nil_length_inv|].
  destruct (lookup_lt_is_Some_2 (pending_tasks h) n) as [task Ht]; [lia|]. rewrite Ht.
  match goal with |- context [complete_task _ _ _ ?h] => set (h0 := h) end.
  pose proof (complete_senders shared_backend task a h0) as Hc. destruct (complete_task _ _ _ h0) as [h1 out].
  destruct Hc as [Hc _]. specialize (IH h1). destruct (advance_tasks _ n _ h1) as [h2 out']. apply IH.
  rewrite Hc. cbn. pose proof (Permutation_length (swap_remove_perm _ _ _ Ht)) as Hl. cbn in Hl. lia.
Qed.

(** A request is served, gives out at most one id, which is new. *)
Lemma ask_spec n req c :
  client_ok n c → is_shutdown req = false → (request_sender req ≠ None → n < MAX_FORKS)%Z →
  let '(c', out) := ask req c in
  client_ok (n + match request_sender req with Some _ => 1 | None => 0 end) c' ∧
  (∀ id, client_known c id → client_known c' id) ∧
  (∀ id, id ∈ omap answer_id out → ¬ client_known c id ∧ client_known c' id).
Proof.
  intros (Hp & issued & Hi & Hlen) Hs Hn. unfold MAX_FORKS in Hn, Hlen. unfold ask. set (i := mk_input _ _ _ _).
  pose proof (gives_poll shared_backend i (served c) ltac:(cbn; by rewrite Hs)) as Hg.
  pose proof (moves_run shared_backend [i] (served c)) as Hm. cbn [run_polls] in Hm.
  assert (pending_tasks (poll shared_backend i (served c)).1.1 = []) as Hp'.
  { unfold poll. destruct (receive (incoming i) (served c)) as [h1 out1]. cbn.
    pose proof (advance_all _ (answers (requests c)) h1 eq_refl) as Ha. by destruct (advance_tasks _ _ _ h1). }
  destruct (poll shared_backend i (served c)) as [[h out] done_]. cbn in Hp'. unfold moves, waiting_senders in Hm.
  rewrite Hp, Hp', app_nil_r in Hm. apply Permutation_length in Hm. pose proof (fewer_ids out) as Hf.
  assert (length (omap answer_id out) ≤ match request_sender req with Some _ => 1 | None => 0 end) as Hle.
  { cbn in Hm. destruct (request_sender req); cbn in *; lia. }
  destruct (Hg issued Hi) as (Hi' & Hok & He); [destruct (request_sender req); [specialize (Hn ltac:(done))|]; lia|].
  split_and!.
  - split; [done|]. eexists. split; [exact Hi'|]. rewrite length_app. unfold MAX_FORKS.
    destruct (request_sender req); [specialize (Hn ltac:(done))|]; lia.
  - intros id [f Hf']. destruct (He _ _ Hf') as (f' & ? & _). by exists f'.
  - intros id Hid. split.
    + intros Hk%(hi_dom _ _ _ Hi). pose proof (hi_nodup _ _ _ Hi') as (_ & Hnd & _)%NoDup_app. by apply (Hnd id).
    + apply (hi_dom _ _ _ Hi'). apply elem_of_app. by right.
Qed.

Lemma recv_fork_id out id b e : recv_fork out = Ok (id, b, e) → id ∈ omap answer_id out.
Proof.
  unfold recv_fork, recv. repeat case_match; intros; simplify_eq. cbn. by left.
Qed.

Lemma ask_fork n req c :
  client_ok n c → request_sender req ≠ None → (n < MAX_FORKS)%Z →
  let '(c', out) := ask req c in
  client_ok (n + 1) c' ∧ (∀ id, client_known c id → client_known c' id) ∧
  match recv_fork out with Ok (id, _, _) => ¬ client_known c id ∧ client_known c' id | Err _ => True end.
Proof.
  intros Hok Hr Hn. pose proof (ask_spec n req c Hok) as Hs. destruct (ask req c) as [c' out].
  destruct (request_sender req) eqn:E; [|done]. destruct Hs as (H1 & H2 & H3); [by destruct req|done|].
  split_and!; [done|done|]. destruct (recv_fork out) as [[[id b] e]|] eqn:Er; [|done]. by eapply H3, recv_fork_id.
Qed.

Lemma ask_quiet n req c :
  client_ok n c → is_shutdown req = false → request_sender req = None →
  client_ok n (ask req c).1 ∧ ∀ id, client_known c id → client_known (ask req c).1 id.
Proof.
  intros Hok Hs Hr. pose proof (ask_spec n req c Hok Hs) as H. rewrite Hr in H.
  destruct (ask req c) as [c' out]. destruct H as (H1 & H2 & _); [done|]. by rewrite Z.add_0_r in H1.
Qed.

#[export] Program Instance client_laws : ForkHandlerLaws Client := {|
  h_ok := client_ok; h_known := client_known; h_ok_mono := client_ok_mono |}.
Next Obligation.
  intros n o c Hok Hn. cbn. pose proof (ask_fork n (ReqCreateFork o 0) c Hok ltac:(done) Hn). by destruct (ask _ c).
Qed.
Next Obligation.
  intros n i block c Hok Hn. cbn. pose proof (ask_fork n (ReqRollFork i block 0) c Hok ltac:(done) Hn). by destruct (ask _ c).
Qed.
Next Obligation.
  intros n i c Hok. cbn. pose proof (ask_quiet n (ReqGetEnv i 0) c Hok eq_refl eq_refl). by destruct (ask _ c).
Qed.
Next Obligation.
  intros n i number timestamp c Hok. cbn.
  pose proof (ask_quiet n (ReqUpdateBlock i number timestamp) c Hok eq_refl eq_refl). by destruct (ask _ c).
Qed.
Next Obligation.
  intros n i c Hok. cbn. pose proof (ask_quiet n (ReqGetForkUrl i 0) c Hok eq_refl eq_refl). by destruct (ask _ c).
Qed.
End client.
