(* ===== verification/ForkBackendTheorems.v ===== *)
(** The backend as its clients see it: sequences of operations never panic, forks
    do not see each other's accounts, and a snapshot brings back what it saved. *)
From S2P Require Import Prelude Radix Database Snapshots MultiFork MultiForkTheorems ForkBackend ForkBackendInv ForkBackendSelect ForkTransact ForkBackendOps MultiForkClient.

(** ** Theorems *)

Section theorems.
Context {ET : EvmTypes} {FT : ForkTypes} {RV : Revm} {RM : Remote} {Hd : Type} {FH : ForkHandler Hd} {MO : MapOrder}.
Context {HL : ForkHandlerLaws Hd} {RML : RemoteLaws}.
Context (p : Params (Hd := Hd)) (CREATE2_DEPLOYER CALLER TEST_CONTRACT_ADDRESS : Z)
  (SPEC_LATEST : SpecId) (mem_new : CacheDB.t Bytecode MemExt).
Implicit Types w : World (Hd := Hd).

Abbreviation new_backend :=
  (backend_new (CHEATCODE_ADDRESS p) CREATE2_DEPLOYER CALLER TEST_CONTRACT_ADDRESS SPEC_LATEST mem_new).
Abbreviation run_ops := (run p).

Lemma inner_default_wf (h : Hd) s : inner_wf h (set_persistent s (inner_default (CHEATCODE_ADDRESS p) CALLER TEST_CONTRACT_ADDRESS SPEC_LATEST)).
Proof.
  split; cbn; [|by intros ? ? ?%lookup_empty_Some|done|by intros ? ? ?%lookup_empty_Some|constructor|
    by intros ? ? ?%lookup_empty_Some].
  intros id. rewrite lookup_empty. split; [by intros []|lia].
Qed.

Lemma new_backend_wf h create e js w :
  h_ok 0 h → new_backend h create e js = Some w → world_wf 1 w.
Proof.
  intros Hok. unfold backend_new. set (i := set_persistent _ _). set (jn := journaled_state_new _).
  assert (inner_wf h i) as Hi by apply inner_default_wf.
  destruct create as [create|].
  2: { intros [= <-]. split; [exact Hi|done|]. split; [cbn; lia|by apply (h_ok_mono 0)]. }
  set (w0 := mk_world (mk_backend h mem_new jn None i ∅) e js).
  assert (world_wf 0 w0) as Hw0 by (split; [exact Hi|done|by split]).
  pose proof (h_create_new 0 create h Hok eq_refl) as Hnew.
  destruct (h_create_fork create h) as [h' [[[fid sb] e']|]]; [|done]. destruct Hnew as (Hok' & Hmono & _ & Hk).
  rewrite insert_new_fork_eq. intros [= <-].
  assert (inner_wf h' (with_new_fork fid (mk_fork (cache_new sb) jn) i)) as Hi'
    by (apply inner_wf_new; [by eapply inner_wf_handler|done|done|cbn; lia]).
  destruct Hi' as [H1 H2 H3 H4 H5 H6]. split; cbn; [split; [exact H1|exact H2|exact H3|exact H4|exact H5|exact H6]| |].
  - intros id idx [= <- <-]. cbn. split; [|done]. rewrite lookup_insert_eq. eauto.
  - split; [lia|exact Hok'].
Qed.

Lemma run_wf h create e js w0 ops w :
  h_ok 0 h → new_backend h create e js = Some w0 → (2 * Z.of_nat (length ops) < MAX_FORKS)%Z →
  run_ops ops w0 = Some w → world_wf (1 + 2 * Z.of_nat (length ops)) w.
Proof.
  intros Hok Hnew Hlen Hrun. apply (new_backend_wf _ _ _ _ _ Hok) in Hnew.
  destruct (safe_run p None 1 ops w0) as (w' & Hrun' & Hw);
    [lia|by apply Forall_true|by apply framed_none|].
  rewrite Hrun in Hrun'. injection Hrun' as <-. apply Hw.
Qed.

(** Every local id stands for a fork of its own, among them the active one and
    those of the snapshots. *)
Definition consistent w : Prop :=
  let i := inner (backend_of w) in
  (∀ id, is_Some (issued_local_fork_ids i !! id) ↔ (0 ≤ id < next_fork_id i)%Z) ∧
  (∀ id id' fid, issued_local_fork_ids i !! id = Some fid → issued_local_fork_ids i !! id' = Some fid → id = id') ∧
  (∀ id fid, issued_local_fork_ids i !! id = Some fid →
     ∃ idx f, created_forks i !! fid = Some idx ∧ inner_forks i !! idx = Some (Some f)) ∧
  (∀ id idx, active_fork_ids (backend_of w) = Some (id, idx) →
     ∃ fid, issued_local_fork_ids i !! id = Some fid ∧ created_forks i !! fid = Some idx) ∧
  (∀ k x, StateSnapshots.get (state_snapshots i) k = Some x →
     match bs_db x with
     | InMemory _ => True
     | Forked id fid idx _ => is_Some (issued_local_fork_ids i !! id) ∧ created_forks i !! fid = Some idx ∧
         is_Some (inner_forks i !! idx)
     end).

Lemma wf_consistent n w : world_wf n w → consistent w.
Proof.
  intros Hw. pose proof Hw as [[H1 H2 H3 H4 H5 H6] Ha Hc]. unfold consistent.
  assert (∀ id, is_Some (issued_local_fork_ids (inner (backend_of w)) !! id) →
    ∃ f, inner_forks (inner (backend_of w)) !! slot_of id = Some (Some f)) as Hf.
  { intros id Hid. apply H1 in Hid. destruct (fork_there None n (tables w) w (slot_of id)); [done|cbn; unfold slot_of; lia|eauto]. }
  split_and!.
  - intros id. by rewrite H1, H3.
  - intros id id' fid E E'. pose proof (H2 _ _ E) as S. rewrite (H2 _ _ E') in S. injection S as S.
    pose proof (proj1 (H1 id) ltac:(eauto)). pose proof (proj1 (H1 id') ltac:(eauto)). unfold slot_of in S. lia.
  - intros id fid E. destruct (Hf id ltac:(eauto)) as [f Hf']. eauto.
  - intros id idx E. destruct (Ha _ _ E) as [[fid Hid] ->]. eauto.
  - intros k x Hx. specialize (H6 k x Hx). unfold snapshot_wf in H6. destruct (bs_db x); [done|].
    destruct H6 as (Hid & -> & Hc' & _). destruct (Hf _ Hid) as [f Hf']. eauto.
Qed.

(** C3: no sequence of operations on a new backend (creating, selecting and rolling
    forks, snapshots, account bookkeeping, execution in between, whatever fails on
    the way) panics, and after it every local fork id has a fork of its own, the
    active fork and the forks of the snapshots included. *)
Theorem backend_never_panics h create e js w0 ops :
  h_ok 0 h → new_backend h create e js = Some w0 → (2 * Z.of_nat (length ops) < MAX_FORKS)%Z →
  ∃ w, run_ops ops w0 = Some w ∧ consistent w.
Proof.
  intros Hok Hnew Hlen. apply (new_backend_wf _ _ _ _ _ Hok) in Hnew.
  destruct (safe_run p None 1 ops w0) as (w & Hrun & Hw);
    [lia|by apply Forall_true|by apply framed_none|].
  exists w. split; [done|]. eapply wf_consistent. apply Hw.
Qed.

(** C4: a fork that is left and selected again has the accounts it had, in the
    journaled state and in its database, whatever happened to other forks in
    between; only the caller and the persistent accounts can differ, and the
    latter come with the account and the storage they have elsewhere. *)
Theorem forks_isolated {RL : RevmLaws} h create e js w0 before w a ia fa b w1 ops w2 w3 :
  h_ok 0 h → new_backend h create e js = Some w0 →
  run_ops before w0 = Some w → active_fork_ids (backend_of w) = Some (a, ia) → fork_at (backend_of w) ia = Some fa →
  select_fork (probe p) b w = Some (w1, Ok tt) → other_id a b = true →
  forallb (spares a) ops = true → run_ops ops w1 = Some w2 → select_fork (probe p) a w2 = Some (w3, Ok tt) →
  (2 * (Z.of_nat (length before) + Z.of_nat (length ops)) < MAX_FORKS)%Z →
  active_fork_ids (backend_of w3) = Some (a, ia) ∧
  ∃ f3, fork_at (backend_of w3) ia = Some f3 ∧
  ∀ addr,
    (addr ∉ persistent_accounts (inner (backend_of w2)) → addr ≠ tx_caller (env_of w2) →
       js_state (js_of w3) !! addr = js_state (js_of w) !! addr ∧
       CacheDB.accounts (fork_db f3) !! addr = CacheDB.accounts (fork_db fa) !! addr) ∧
    (∀ acc, addr ∈ persistent_accounts (inner (backend_of w2)) → js_state (js_of w2) !! addr = Some acc →
       ∃ acc', js_state (js_of w3) !! addr = Some acc' ∧ acc_info acc' = acc_info acc ∧
         acc_storage acc ⊆ acc_storage acc').
Proof.
  intros Hok Hnew Hbefore Hact Hfa Hsel Hb Hops Hrun Hsel2 Hlen.
  pose proof (run_wf _ _ _ _ _ before w Hok Hnew ltac:(lia) Hbefore) as Hw. set (n := (1 + 2 * Z.of_nat (length before))%Z) in *.
  destruct (ww_active _ _ Hw _ _ Hact) as [Hia ->].
  assert (0 ≤ a)%Z as Ha by (apply (wf_issued _ _ (ww_inner _ _ Hw)) in Hia; lia).
  pose proof Hb as [Hb0%Z.leb_le Hne%negb_true_iff%Z.eqb_neq]%andb_true_iff.
  destruct (select_fork_spec (probe p) n b w w1 a (slot_of a)) as (fa' & fb & Hfa' & Hfb & Hap & Hs1); [done|done|done|done|].
  assert (fa' = fa) as ->. { unfold fork_at in Hfa. unfold forks_of in Hfa'. rewrite Hfa' in Hfa. by injection Hfa. }
  set (left := mk_fork (fork_db fa) (js_of w)).
  assert (framed (Some (slot_of a, left)) n w1) as Hw1.
  { destruct (safe_select_fork None (probe p) n b ltac:(done) w ltac:(by apply framed_none)) as (w1' & r & E & Hr).
    rewrite Hsel in E. injection E as <- <-. split; [apply Hr|apply (sel_left _ _ _ _ _ _ Hs1)|].
    exists b, (slot_of b). split; [apply (sel_active _ _ _ _ _ _ Hs1)|done]. }
  destruct (safe_run p (Some (slot_of a, left)) n ops w1) as (w2' & Hrun' & Hw2);
    [lia| |done|].
  { apply Forall_forall. intros op Hop. exists a. split_and!; [done|done|].
    rewrite forallb_forall in Hops. apply Hops. by apply list_elem_of_In. }
  rewrite Hrun in Hrun'. injection Hrun' as <-. destruct Hw2 as [Hw2 Hh2 (c & ic & Hact2 & Hic)].
  assert (c ≠ a) as Hca by (intros ->; destruct (ww_active _ _ Hw2 _ _ Hact2); done).
  destruct (select_fork_spec (probe p) _ a w2 w3 c ic Hw2 Hact2 Hca Hsel2) as (fc & f & Hfc & Hf & _ & Hs2).
  unfold holds in Hh2. unfold forks_of in Hf. rewrite Hh2 in Hf. injection Hf as <-.
  destruct (sel_entered _ _ _ _ _ _ Hs2) as (f3 & Hf3 & Hjs3 & Hacc).
  split; [apply (sel_active _ _ _ _ _ _ Hs2)|]. exists f3. split; [unfold fork_at; unfold forks_of in Hf3; by rewrite Hf3|].
  intros addr. destruct (Hacc addr) as [Hown Hper]. split; [exact Hown|].
  intros acc Hp Hin. destruct (Hper Hp) as [y Hy]. rewrite Hin in Hy. cbn in Hy. eexists. split; [exact Hy|].
  destruct y; [|done]. cbn. split; [done|]. apply map_union_subseteq_l.
Qed.

(** *** Snapshots *)

Definition kept (sid : Z) (x : BackendStateSnapshot) w : Prop :=
  StateSnapshots.get (snapshots_of w) sid = Some x ∧ (sid < StateSnapshots.id (snapshots_of w))%Z.

Lemma stable_kept {A} sid x (m : M (Hd := Hd) A) w w' r :
  stable snapshots_of m → m w = Some (w', r) → kept sid x w → kept sid x w'.
Proof. unfold kept. intros Hs E. by rewrite (Hs _ _ _ E). Qed.

Lemma replay_snapshots idx fid e h l : stable snapshots_of (replay (Hd := Hd) idx fid e h l).
Proof. induction l as [|tx l IH]; cbn [replay]; stable_steps. Qed.

Lemma stable_scratch {A} e js (m : M (Hd := Hd) A) : stable snapshots_of m → stable snapshots_of (with_scratch e js m).
Proof.
  intros Hm w w' r. unfold with_scratch. destruct (m _) as [[w1 r1]|] eqn:E; [|done]. intros [= <- <-]. exact (Hm _ _ _ E).
Qed.

Lemma stable_attempt {S A} (f : World → S) (m : M (Hd := Hd) A) : stable f m → stable f (attempt m).
Proof.
  intros Hm w w' r. unfold attempt. destruct (m w) as [[w1 []]|] eqn:E; [intros [= <- <-]|intros [= <- <-]|done]; exact (Hm _ _ _ E).
Qed.

Lemma roll_to_snapshots id h : stable snapshots_of (roll_fork_to_transaction (Hd := Hd) id h).
Proof. pose proof roll_fork_snapshots. pose proof replay_snapshots. stable_steps. Qed.

Lemma create_at_snapshots create h : stable snapshots_of (create_fork_at_transaction (Hd := Hd) create h).
Proof.
  pose proof create_fork_snapshots. unfold create_fork_at_transaction. pose proof roll_to_snapshots.
  assert (∀ e js id, stable snapshots_of (with_scratch (Hd := Hd) e js (roll_fork_to_transaction (Some id) h)))
    by (intros; by apply stable_scratch). stable_steps.
Qed.

Lemma fork_info_snapshots id : stable snapshots_of (get_fork_info (Hd := Hd) (probe p) id).
Proof. stable_steps. Qed.

Lemma code_snapshots h : stable snapshots_of (code_by_hash (Hd := Hd) (probe p) h).
Proof.
  assert (∀ id, stable snapshots_of (attempt (get_fork_info (Hd := Hd) (probe p) id)))
    by (intros; apply stable_attempt, fork_info_snapshots).
  assert (∀ id, stable snapshots_of (attempt (request (Hd := Hd) (h_get_fork_url id))))
    by (intros; by apply stable_attempt, stable_request).
  stable_steps.
Qed.

Lemma allocs_snapshots allocs : stable snapshots_of (load_allocs (Hd := Hd) (keccak p) (new_raw p) allocs).
Proof. induction allocs as [|[a acc] l IH]; cbn [load_allocs]; stable_steps. Qed.

(** The new state of an operation whose result is ignored. *)
Lemma ignore_inv {A} (m : M (Hd := Hd) A) w w' r : ignore m w = Some (w', r) → ∃ r', m w = Some (w', r').
Proof. unfold ignore, mbind_. destruct (m w) as [[w1 []]|]; [intros [= <- _]|intros [= <- _]|done]; eauto. Qed.

Lemma snapshot_state_inv n w w' r :
  world_wf n w → snapshot_state w = Some (w', r) →
  ∃ db, create_db_snapshot w = Some (w, Ok db) ∧ r = Ok (StateSnapshots.id (snapshots_of w)) ∧
    w' = set_backend (set_inner (set_snapshots
      (StateSnapshots.insert (snapshots_of w) (mk_bsnap db (js_of w) (env_of w))).1 (inner (backend_of w))) (backend_of w)) w.
Proof.
  intros Hw. destruct (create_db_snapshot_spec n w Hw) as (db & E & _). unfold snapshot_state, mbind_ at 1. rewrite E.
  intros [= <- <-]. by exists db.
Qed.

Lemma kept_insert sid x w y :
  (sid < U256_MAX)%Z → kept sid x w →
  kept sid x (set_backend (set_inner (set_snapshots (StateSnapshots.insert (snapshots_of w) y).1
    (inner (backend_of w))) (backend_of w)) w).
Proof.
  intros Hmax [Hx Hlt]. unfold kept, StateSnapshots.get, snapshots_of in *. cbn in *.
  rewrite lookup_insert_ne by lia. split; [done|]. lia.
Qed.

Lemma exec_keeps n sid x op w w' r :
  (sid < U256_MAX)%Z → world_wf n w → keeps sid op = true → kept sid x w →
  exec p op w = Some (w', r) → kept sid x w'.
Proof.
  intros Hmax Hw Hop Hk. pose proof select_fork_snapshots. pose proof create_fork_snapshots. pose proof roll_fork_snapshots.
  pose proof roll_to_snapshots. pose proof create_at_snapshots. pose proof replay_snapshots. pose proof code_snapshots.
  pose proof allocs_snapshots.
  destruct op as [create|id|create|id block| |id action|id| |a|a|a|a|a|a i|fork mem js e|create h|create h|id h|id h|tx|id|a|a k|k|h
    |m|a k v|a m|k h|a|l|a]; cbn [exec];
    try (intros E; by refine (stable_kept _ _ _ _ _ _ _ E Hk); stable_steps).
  - intros [r' E]%ignore_inv. destruct (snapshot_state_inv n w w' r' Hw E) as (db & _ & _ & ->). by apply kept_insert.
  - intros [r' E]%ignore_inv. revert E.
    destruct (revert_state_eq (CHEATCODE_ADDRESS p) (GLOBAL_FAIL_SLOT p) n id action w Hw) as (w1 & _ & _ & _ & _ & _ & _ & Hs & ->).
    assert (kept sid x w1) as Hk1.
    { unfold kept, snapshots_of in *. rewrite Hs. destruct action; cbn [is_keep]; [|done]. cbn in *.
      apply negb_true_iff, Z.eqb_neq in Hop. unfold StateSnapshots.get in *. cbn. by rewrite lookup_delete_ne. }
    destruct (StateSnapshots.get _ id) as [y|]; [|by intros [= <- _]]. intros E.
    refine (stable_kept _ _ _ _ _ _ _ E Hk1). stable_steps.
  - intros [r' E]%ignore_inv. injection E as <- _. unfold kept, StateSnapshots.get, snapshots_of in *. cbn in *.
    apply negb_true_iff, Z.eqb_neq in Hop. by rewrite lookup_delete_ne.
Qed.

Lemma run_keeps n sid x ops w w' :
  (sid < U256_MAX)%Z → world_wf n w → (n + 2 * Z.of_nat (length ops) ≤ MAX_FORKS)%Z → forallb (keeps sid) ops = true →
  kept sid x w → run_ops ops w = Some w' → kept sid x w'.
Proof.
  intros Hmax. revert n w. induction ops as [|op ops IH]; intros n w Hw Hn Hops Hk; cbn [run length forallb] in *.
  { by intros [= <-]. }
  apply andb_true_iff in Hops as [Hop Hops].
  destruct (safe_exec p None n op ltac:(lia) I w ltac:(by apply framed_none)) as (w1 & r & E & Hr).
  rewrite E. apply (IH (n + 2)%Z); [by destruct r; apply Hr|lia|done|by eapply exec_keeps].
Qed.

(** A snapshot that is there is restored. *)
Lemma revert_kept n sid x action w :
  world_wf n w → StateSnapshots.get (snapshots_of w) sid = Some x →
  ∃ w', revert_state (CHEATCODE_ADDRESS p) (GLOBAL_FAIL_SLOT p) sid action w = Some (w', Ok true) ∧
    env_of w' = update_current_env_with_fork_env (env_of w) (bs_env x) ∧
    let js := set_logs (js_logs (js_of w)) (bs_js x) in
    match bs_db x with
    | InMemory db => mem_db (backend_of w') = db ∧ js_of w' = js ∧
        active_fork_ids (backend_of w') = active_fork_ids (backend_of w)
    | Forked id fid idx f =>
        let '(f', js') := ensure_caller (tx_caller (env_of w)) (js_of w) f js in
        active_fork_ids (backend_of w') = Some (id, idx) ∧ js_of w' = js' ∧
        forks_of w' = <[idx := Some f']> (forks_of w) ∧ idx < length (forks_of w) ∧
        issued_local_fork_ids (inner (backend_of w')) !! id = Some fid
    end.
Proof.
  intros Hw Hx. destruct (revert_state_eq (CHEATCODE_ADDRESS p) (GLOBAL_FAIL_SLOT p) n sid action w Hw) as
    (w1 & Hw1 & Hjs & Henv & Hh & Ht & Hf & _ & ->).
  unfold snapshots_of in Hx. rewrite Hx. pose proof (wf_snapshots _ _ (ww_inner _ _ Hw) _ _ Hx) as Hxw.
  assert (snapshot_wf (handler (backend_of w1)) (inner (backend_of w1)) x) as Hxw1.
  { unfold snapshot_wf in *. destruct (bs_db x); [done|]. rewrite Hh. unfold tables in Ht. injection Ht as E1 E2 _ _. by rewrite E1, E2. }
  destruct (restore_snapshot_spec n w w1 x Hw1 Hxw1) as (w' & -> & _ & Henv' & Hrest). exists w'. split; [done|].
  split; [by rewrite Henv', Henv|]. cbn in *. unfold snapshot_wf in Hxw. destruct (bs_db x) as [db|id fid idx f].
  - destruct Hrest as (? & _ & Ha & ?). split_and!; [done|done|]. rewrite Ha. unfold tables in Ht. by injection Ht.
  - destruct (ensure_caller _ _ _ _) as [f' js']. destruct Hrest as (Ha & Hj & Hfs & Hi). destruct Hxw as (Hid & -> & _ & _).
    apply (wf_issued _ _ (ww_inner _ _ Hw)) in Hid. unfold forks_of. rewrite Hfs, Hf, Hi, lookup_insert_eq.
    split_and!; try done. unfold slot_of. lia.
Qed.

(** C17: reverting to a snapshot brings back the journaled state (the logs since
    apart), the environment and the database it was taken from, whatever was
    done in between; the snapshot of a fork makes that fork the active one
    again, with its fork id, and leaves the other forks alone. *)
Theorem snapshot_restores {RL : RevmLaws} h create e js w0 before w w1 sid ops w2 action :
  h_ok 0 h → new_backend h create e js = Some w0 →
  run_ops before w0 = Some w → snapshot_state w = Some (w1, Ok sid) → (sid < U256_MAX)%Z →
  forallb (keeps sid) ops = true → run_ops ops w1 = Some w2 →
  (2 * (Z.of_nat (length before) + Z.of_nat (length ops)) < MAX_FORKS)%Z →
  ∃ w3, revert_state (CHEATCODE_ADDRESS p) (GLOBAL_FAIL_SLOT p) sid action w2 = Some (w3, Ok true) ∧
    env_of w3 = update_current_env_with_fork_env (env_of w2) (env_of w) ∧
    js_logs (js_of w3) = js_logs (js_of w2) ∧
    (∀ addr, addr ≠ tx_caller (env_of w2) → js_state (js_of w3) !! addr = js_state (js_of w) !! addr) ∧
    match active_fork_ids (backend_of w) with
    | Some (id, idx) =>
        active_fork_ids (backend_of w3) = Some (id, idx) ∧
        issued_local_fork_ids (inner (backend_of w3)) !! id = issued_local_fork_ids (inner (backend_of w)) !! id ∧
        (∃ f f', fork_at (backend_of w) idx = Some f ∧ fork_at (backend_of w3) idx = Some f' ∧
           ∀ addr, addr ≠ tx_caller (env_of w2) →
             CacheDB.accounts (fork_db f') !! addr = CacheDB.accounts (fork_db f) !! addr) ∧
        ∀ idx', idx' ≠ idx → fork_at (backend_of w3) idx' = fork_at (backend_of w2) idx'
    | None => mem_db (backend_of w3) = mem_db (backend_of w) ∧ js_of w3 = set_logs (js_logs (js_of w2)) (js_of w) ∧
        active_fork_ids (backend_of w3) = active_fork_ids (backend_of w2)
    end.
Proof.
  intros Hok Hnew Hbefore Hsnap Hmax Hops Hrun Hlen.
  pose proof (run_wf _ _ _ _ _ before w Hok Hnew ltac:(lia) Hbefore) as Hw. set (n := (1 + 2 * Z.of_nat (length before))%Z) in *.
  destruct (create_db_snapshot_spec n w Hw) as (db & Edb & _ & Hdb).
  destruct (snapshot_state_inv n w w1 _ Hw Hsnap) as (db' & Edb' & [= ->] & Hw1eq). rewrite Edb in Edb'. injection Edb' as <-.
  set (sid := StateSnapshots.id (snapshots_of w)) in *. set (x := mk_bsnap db (js_of w) (env_of w)) in *.
  assert (world_wf n w1) as Hw1.
  { destruct (safe_snapshot_state None n w ltac:(by apply framed_none)) as (w1' & r & E & Hr).
    rewrite Hsnap in E. injection E as <- <-. apply Hr. }
  assert (kept sid x w1) as Hk1.
  { rewrite Hw1eq. unfold kept, StateSnapshots.get, snapshots_of. cbn. rewrite lookup_insert_eq. split; [done|].
    unfold sid, snapshots_of in *. lia. }
  pose proof (run_keeps n sid x ops w1 w2 Hmax Hw1 ltac:(lia) Hops Hk1 Hrun) as [Hx _].
  destruct (safe_run p None n ops w1) as (w2' & Hrun' & Hw2);
    [lia|by apply Forall_true|by apply framed_none|].
  rewrite Hrun in Hrun'. injection Hrun' as <-. apply fr_world in Hw2.
  destruct (revert_kept _ sid x action w2 Hw2 Hx) as (w3 & -> & Henv3 & Hrest). exists w3. split; [done|]. split; [done|].
  clear Hx Hk1 Edb Hw1eq. subst x. cbn in Hrest. destruct (active_fork_ids (backend_of w)) as [[id idx]|].
  2: { subst db. destruct Hrest as (? & Hj & ?). rewrite Hj. by split_and!. }
  destruct Hdb as (fid & f & -> & Hf0 & Hfid). cbn in Hrest. rewrite Hfid. unfold fork_at. rewrite Hf0.
  set (jl := set_logs (js_logs (js_of w2)) (js_of w)) in *.
  pose proof (ensure_caller_other (tx_caller (env_of w2)) (js_of w2) f jl) as Hc.
  pose proof (ensure_caller_logs (tx_caller (env_of w2)) (js_of w2) f jl) as Hl.
  destruct (ensure_caller _ _ f jl) as [f' js']. destruct Hrest as (Ha & -> & Hf3 & Hidx & Hi3). unfold forks_of in *. rewrite Hf3.
  split_and!; [done| |done|done| |].
  - intros addr Hne. by destruct (Hc addr) as [-> _].
  - exists f, f'. rewrite list_lookup_insert_eq by done. split_and!; [done..|]. intros addr Hne. by destruct (Hc addr) as [_ ->].
  - intros idx' Hne. by rewrite list_lookup_insert_ne.
Qed.

(** *** Where the documentation says otherwise *)

(** Snapshots that were taken after the one that is reverted stay. *)
Lemma later_snapshots_survive n sid k x action w w' r :
  world_wf n w → k ≠ sid → StateSnapshots.get (snapshots_of w) k = Some x →
  revert_state (CHEATCODE_ADDRESS p) (GLOBAL_FAIL_SLOT p) sid action w = Some (w', r) →
  StateSnapshots.get (snapshots_of w') k = Some x.
Proof.
  intros Hw Hk Hx.
  destruct (revert_state_eq (CHEATCODE_ADDRESS p) (GLOBAL_FAIL_SLOT p) n sid action w Hw) as (w1 & _ & _ & _ & _ & _ & _ & Hs & ->).
  assert (StateSnapshots.get (snapshots_of w1) k = Some x) as Hx1.
  { unfold snapshots_of in *. rewrite Hs. destruct action; [|done]. unfold StateSnapshots.get. cbn. by rewrite lookup_delete_ne. }
  destruct (StateSnapshots.get _ sid) as [y|]; [|by intros [= <- _]]. intros E. unchanged (snapshots_of (Hd := Hd)) E as C. by rewrite C.
Qed.

(** A fork that is rolled while another one is active keeps the accounts it
    loaded at its old block. *)
Lemma rolled_fork_keeps_state id block w w' fid idx f :
  issued_local_fork_ids (inner (backend_of w)) !! id = Some fid → created_forks (inner (backend_of w)) !! fid = Some idx →
  forks_of w !! idx = Some (Some f) → is_active_fork (backend_of w) id = false →
  roll_fork (Some id) block w = Some (w', Ok tt) →
  ∃ f', forks_of w' !! idx = Some (Some f') ∧ fork_js f' = fork_js f.
Proof.
  intros Hid Hc Hf Hact. unfold roll_fork, ensure_fork, mbind_, gets, mret. rewrite decide_True by eauto.
  unfold ensure_fork_id, mbind_, gets, ok_or. rewrite Hid. cbn. unfold request.
  destruct (h_roll_fork fid block _) as [h' [[[fid' sb] e]|e]]; [|done]. cbn [fst snd].
  unfold inner_roll_fork, ensure_fork_id, ensure_fork_index, set_fork, put_fork, mbind_, gets, ok_or, expect, mret. cbn.
  rewrite Hid. cbn. rewrite Hc. cbn. unfold forks_of in *. rewrite Hf. cbn. pose proof (lookup_lt_Some _ _ _ Hf).
  rewrite decide_True by done. cbn. unfold is_active_fork in Hact.
  destruct (active_fork_ids (backend_of w)) as [[aid aidx]|]; [rewrite Hact|]; intros [= <-]; cbn;
    rewrite list_lookup_insert_eq by done; eauto.
Qed.

(** The previous test contract stays persistent. *)
Lemma test_contract_stays_persistent a b w :
  ∃ w', (set_test_contract a ;;! set_test_contract b) w = Some (w', Ok tt) ∧ a ∈ persistent_of w' ∧ b ∈ persistent_of w'.
Proof. eexists. split; [reflexivity|]. unfold persistent_of. cbn. set_solver. Qed.

(** Access that is already there is answered with [false]. *)
Lemma access_granted_again a w :
  a ∈ cheatcode_access_accounts (inner (backend_of w)) → ∃ w', allow_cheatcode_access a w = Some (w', Ok false).
Proof. intros Ha. eexists. unfold allow_cheatcode_access, mbind_, gets. cbn. rewrite bool_decide_eq_false_2 by naive_solver. done. Qed.

(** A hash is recorded for every number, also of the current and later blocks. *)
Lemma blockhash_any_number number hash w :
  active_fork_ids (backend_of w) = None →
  ∃ w', set_blockhash number hash w = Some (w', Ok tt) ∧ CacheDB.block_hashes (mem_db (backend_of w')) !! number = Some hash.
Proof.
  intros Ha. unfold set_blockhash, on_db, mbind_, gets. rewrite Ha. eexists. split; [reflexivity|]. cbn. by rewrite lookup_insert_eq.
Qed.
End theorems.

(** ** Example: two forks behind the client of the handler *)

#[local] Existing Instance example_types.
#[local] Existing Instance default_map_order.

#[local] Instance example_evm : EvmTypes :=
  {| Bytecode := unit; Log := nat; JournalEntry := unit; JsRest := unit; MemExt := unit; SpecId := unit |}.

Definition example_info : AccountInfo Bytecode := mk_info 0 0 0 None.

#[local] Instance example_revm : Revm := {|
  DbErr := unit;
  cache_new sb := CacheDB.mk ∅ ∅ ∅ sb;
  db_basic Ext db a := (db, Ok (Some (from_option info example_info (CacheDB.accounts db !! a))));
  db_storage Ext db a k := (db, Ok (from_option (λ acc, default 0%Z (storage acc !! k)) 0%Z (CacheDB.accounts db !! a)));
  db_block_hash Ext db n := (db, Ok (default 0%Z (CacheDB.block_hashes db !! n)));
  db_code_by_hash Ext db h := (db, Ok tt);
  db_basic_ref Ext db a := Ok (Some (from_option info example_info (CacheDB.accounts db !! a)));
  db_commit Ext db m :=
    CacheDB.mk (((λ acc, mk_acc (acc_info acc) Touched (present_value <$> acc_storage acc)) <$> m) ∪ CacheDB.accounts db)
      (CacheDB.contracts db) (CacheDB.block_hashes db) (CacheDB.db db);
  insert_account_info Ext db a i :=
    CacheDB.mk (<[a := mk_acc i Loaded ∅]> (CacheDB.accounts db)) (CacheDB.contracts db) (CacheDB.block_hashes db) (CacheDB.db db);
  insert_account_storage Ext db a k v := (db, Ok tt);
  replace_account_storage Ext db a m := (db, Ok tt);
  info_default := example_info;
  account_from i := mk_account i ∅ false false 0;
  load_account Ext js a db := (js, db, Ok (mk_account example_info ∅ false false 0));
  touch js a := js;
  journaled_state_new _ := mk_js ∅ [] 0 [] tt;
  precompiles _ := ∅ |}.

#[local] Instance example_revm_laws : RevmLaws.
Proof. split; [done|]. intros Ext db a i b Hne. cbn. by rewrite lookup_insert_ne. Qed.

Definition example_answers (n : nat) : result (Env * Z) Str := Ok (example_env 0, (5 + Z.of_nat n)%Z).

#[local] Instance example_client : ForkHandler Client := client_handler example_backend example_answers.
#[local] Instance example_client_laws : ForkHandlerLaws Client := client_laws example_backend example_answers.

Definition example_spec : SpecId := tt.
Definition example_mem : CacheDB.t Bytecode MemExt := CacheDB.mk ∅ ∅ ∅ tt.
Definition example_js : JournaledState := mk_js ∅ [] 0 [] tt.
Definition example_none : Fork := mk_fork (cache_new (example_backend (example_fork 0) 0)) example_js.
(** The node knows one transaction, 77, which pays account 7. *)
Definition example_tx : Tx :=
  mk_tx 77 1 (Some 2%Z) (0%Z, 0%Z, true) 2 (Some 6%Z) (Some (mk_request None (Some 1%Z) None None None (Some 21000%Z) None None None None None None None None)).

Definition example_block : Block := mk_block (mk_header 6 60 0 0 None None 0 None) [example_tx].

#[local] Instance example_remote : Remote := {|
  get_transaction sb h := if (h =? 77)%Z then Ok example_tx else Err tt;
  get_full_block sb n := Ok example_block;
  blob_price _ := tt;
  evm_transact _ _ _ _ _ _ := Ok {[7%Z := mk_account (mk_info 55 0 0 None) ∅ false true 0]};
  zk_provider _ := Err tt |}.

#[local] Instance example_remote_laws : RemoteLaws.
Proof.
  split; [|intros sb n b [= <-]; split; [repeat constructor; by eexists|done]].
  intros sb h tx. cbn. destruct (h =? 77)%Z; [|done]. intros [= <-]. split; by eexists.
Qed.

Definition example_params : Params (Hd := Client) :=
  mk_params (λ _, Evm) 100 0 0 (λ _ _ _, Ok ∅) (λ _, 0%Z) (λ _, tt).

Definition example_new : option World :=
  backend_new (Hd := Client) 100 101 102 103 example_spec example_mem client_new None (example_env 0) example_js.

Definition world_or (o : option (World (Hd := Client))) : World :=
  match o with Some w => w | None => mk_world (mk_backend client_new example_mem example_js None
    (inner_default 100 102 103 example_spec) ∅) (example_env 0) example_js end.

Definition world_of {A} (o : option (World (Hd := Client) * result A BackendErr)) : World := world_or (fst <$> o).

(** The balance of an account in the journaled state. *)
Definition pay (a v : Z) : BackendOp :=
  OpExecute id id (λ js, set_state (<[a := mk_account (mk_info v 0 0 None) ∅ false true 0]> (js_state js)) js) id.

Abbreviation example_run := (run example_params).

Definition example_start : World := world_or example_new.
Definition example_before : list BackendOp := [OpCreate (example_fork 5); OpCreate (example_fork 6); OpSelect 0; pay 7 10; pay 100 3].
Definition example_at_a : World := world_or (example_run example_before example_start).
Definition example_at_b : World := world_of (select_fork (probe example_params) 1 example_at_a).
Definition example_ops : list BackendOp := [pay 7 99; pay 100 4; OpRoll None 9; OpSnapshot; OpTransact (Some 1%Z) 77; OpCreateSelectAt (example_fork 5) 77].
Definition example_back : World := world_or (example_run example_ops example_at_b).

Lemma backend_never_panics_witness :
  ∃ w, example_run (example_before ++ OpRevert 3 RevertKeep :: OpSelect 9 :: example_ops) example_start = Some w ∧ consistent w.
Proof.
  apply (backend_never_panics example_params 101 102 103 example_spec example_mem client_new None (example_env 0) example_js).
  - by apply client_new_ok.
  - vm_compute. reflexivity.
  - vm_compute. reflexivity.
Defined.

Lemma forks_isolated_witness :
  let w3 := world_of (select_fork (probe example_params) 0 example_back) in
  js_state (js_of w3) !! 7%Z = js_state (js_of example_at_a) !! 7%Z ∧
  (balance ∘ acc_info <$> js_state (js_of example_at_a) !! 7%Z) = Some 10%Z.
Proof.
  intros w3.
  destruct (forks_isolated example_params 101 102 103 example_spec example_mem client_new None (example_env 0)
    example_js example_start example_before example_at_a 0 0
    (default example_none (fork_at (backend_of example_at_a) 0))
    1 example_at_b example_ops example_back w3) as (_ & f3 & _ & Hacc).
  - by apply client_new_ok.
  - vm_compute. reflexivity.
  - vm_compute. reflexivity.
  - vm_compute. reflexivity.
  - vm_compute. reflexivity.
  - vm_compute. reflexivity.
  - reflexivity.
  - reflexivity.
  - vm_compute. reflexivity.
  - vm_compute. reflexivity.
  - vm_compute. reflexivity.
  - destruct (Hacc 7%Z) as [[Hjs _] _]; [|vm_compute; congruence|split; [exact Hjs|vm_compute; reflexivity]].
    assert (persistent_accounts (inner (backend_of example_back)) = {[100; 101; 102]}%Z) as -> by (vm_compute; reflexivity).
    clear; set_solver.
Defined.

Definition example_snapshot : World := world_of (snapshot_state example_at_a).
Definition example_later : World := world_or (example_run (OpSelect 1 :: example_ops) example_snapshot).

Lemma snapshot_restores_witness :
  active_fork_ids (backend_of example_later) = Some (2%Z, 2) ∧
  ∃ w3, revert_state 100 0 0 RevertRemove example_later = Some (w3, Ok true) ∧
    active_fork_ids (backend_of w3) = Some (0%Z, 0) ∧ js_state (js_of w3) !! 7%Z = js_state (js_of example_at_a) !! 7%Z.
Proof.
  split; [vm_compute; reflexivity|].
  destruct (snapshot_restores example_params 101 102 103 example_spec example_mem client_new None (example_env 0)
    example_js example_start example_before example_at_a example_snapshot 0 (OpSelect 1 :: example_ops)
    example_later RevertRemove) as (w3 & Hrev & _ & _ & Hjs & Hact).
  - by apply client_new_ok.
  - vm_compute. reflexivity.
  - vm_compute. reflexivity.
  - vm_compute. reflexivity.
  - reflexivity.
  - reflexivity.
  - vm_compute. reflexivity.
  - vm_compute. reflexivity.
  - assert (active_fork_ids (backend_of example_at_a) = Some (0%Z, 0)) as E by (vm_compute; reflexivity).
    rewrite E in Hact. destruct Hact as [Hact _]. exists w3. split; [exact Hrev|]. split; [exact Hact|].
    apply (Hjs 7%Z). vm_compute. congruence.
Defined.
