(* ===== verification/ForkTransactTheorems.v ===== *)
(** What executing a mined transaction does to the journaled state and the
    environment, and what a revert is diagnosed with. *)
From S2P Require Import Prelude Radix Database Snapshots MultiFork MultiForkTheorems ForkBackend ForkBackendInv ForkBackendSelect ForkTransact ForkBackendOps ForkBackendTheorems MultiForkClient.

(** revm's databases: reading does not change what is read. *)
Class RevmReads `{Revm} := {
  basic_value Ext (db : CacheDB.t Bytecode Ext) a db' i : db_basic db a = (db', Ok i) → db_basic_ref db a = Ok i;
  basic_pure Ext (db : CacheDB.t Bytecode Ext) a b : db_basic_ref (db_basic db a).1 b = db_basic_ref db b;
  storage_pure Ext (db : CacheDB.t Bytecode Ext) a k b : db_basic_ref (db_storage db a k).1 b = db_basic_ref db b
}.

Section update.
Context {ET : EvmTypes} {FT : ForkTypes} {RV : Revm} {RR : RevmReads} {MO : MapOrder} {Ext : Type}.
Implicit Types db : CacheDB.t Bytecode Ext.

Lemma update_slots_pure db a l m b : db_basic_ref (update_slots db a l m).1.1 b = db_basic_ref db b.
Proof.
  revert db m. induction l as [|[k v] l IH]; intros db m; cbn [update_slots]; [done|].
  pose proof (storage_pure _ db a k b) as Hs. destruct (db_storage db a k) as [db1 [x|e]]; cbn in *; [|done].
  by rewrite IH.
Qed.

Lemma update_account_spec db a acc db' acc' r :
  update_account db a acc = (db', acc', r) →
  (∀ b, db_basic_ref db' b = db_basic_ref db b) ∧
  (r = Ok tt → ∃ i, db_basic_ref db a = Ok i ∧ acc_info acc' = default info_default i).
Proof.
  unfold update_account. pose proof (basic_pure _ db a) as Hp. pose proof (basic_value _ db a) as Hv.
  destruct (db_basic db a) as [db1 [i|e]] eqn:E; [|intros [= <- <- <-]; by split].
  pose proof (update_slots_pure db1 a (map_iter (acc_storage (set_acc_info (default info_default i) acc)))
    (acc_storage (set_acc_info (default info_default i) acc))) as Hs.
  destruct (update_slots _ _ _ _) as [[db2 m] r2]. intros [= <- <- <-]. cbn in *. split.
  - intros b. by rewrite Hs, Hp.
  - intros _. exists i. split; [by eapply Hv|done].
Qed.

(** Accounts that are not persistent take what the database has. *)
Lemma update_accounts_spec persistent l db st db' st' :
  NoDup l.*1 → update_accounts db persistent l st = (db', st', Ok tt) →
  (∀ b, db_basic_ref db' b = db_basic_ref db b) ∧
  (∀ a, a ∉ l.*1 ∨ a ∈ persistent → st' !! a = st !! a) ∧
  (∀ a, a ∈ l.*1 → a ∉ persistent →
     ∃ acc i, st' !! a = Some acc ∧ db_basic_ref db a = Ok i ∧ acc_info acc = default info_default i).
Proof.
  revert db st. induction l as [|[a acc] l IH]; intros db st Hnd; cbn [update_accounts fmap list_fmap fst] in *.
  { intros [= <- <-]. split_and!; [done|done|]. by intros a ?%not_elem_of_nil. }
  inversion_clear Hnd as [|? ? Ha Hl]. case_decide as Hp.
  { intros E. destruct (IH _ _ Hl E) as (H1 & H2 & H3). split_and!; [done| |].
    - intros b [Hb|Hb]; apply H2; [left|by right]. rewrite not_elem_of_cons in Hb. naive_solver.
    - intros b [->|Hb]%elem_of_cons Hnp; [done|by apply H3]. }
  destruct (update_account db a acc) as [[db1 acc1] r1] eqn:E1. destruct (update_account_spec _ _ _ _ _ _ E1) as [Hp1 Hi1].
  destruct r1 as [[]|e]; [|done]. intros E. destruct (IH _ _ Hl E) as (H1 & H2 & H3). split_and!.
  - intros b. by rewrite H1, Hp1.
  - intros b Hb. rewrite H2; [|by rewrite not_elem_of_cons in Hb; naive_solver].
    apply lookup_insert_ne. rewrite not_elem_of_cons in Hb. naive_solver.
  - intros b [->|Hb]%elem_of_cons Hnp.
    + destruct (Hi1 eq_refl) as (i & Hr & Hi). exists acc1, i. split_and!; [|done|done].
      rewrite H2 by (by left). by rewrite lookup_insert_eq.
    + destruct (H3 b Hb Hnp) as (acc' & i & ? & ? & ?). exists acc', i. split_and!; [done| |done]. by rewrite <- Hp1.
Qed.

Lemma update_state_spec persistent st db db' st' :
  update_state st db persistent = (db', st', Ok tt) →
  (∀ b, db_basic_ref db' b = db_basic_ref db b) ∧ (∀ a, a ∈ persistent → st' !! a = st !! a) ∧
  (∀ a, is_Some (st !! a) → a ∉ persistent →
     ∃ acc i, st' !! a = Some acc ∧ db_basic_ref db a = Ok i ∧ acc_info acc = default info_default i).
Proof.
  intros E. apply update_accounts_spec in E as (H1 & H2 & H3).
  - split_and!; [done|eauto|]. intros a [acc Ha]. apply H3. rewrite map_iter_perm.
    apply list_elem_of_fmap. exists (a, acc). split; [done|]. by apply elem_of_map_to_list.
  - rewrite map_iter_perm. apply NoDup_fst_map_to_list.
Qed.
End update.

Section theorems.
Context {ET : EvmTypes} {FT : ForkTypes} {RV : Revm} {RM : Remote} {Hd : Type} {FH : ForkHandler Hd} {MO : MapOrder}.
Implicit Types w : World (Hd := Hd).

Lemma apply_changeset_spec {RR : RevmReads} state js f persistent js' f' :
  apply_state_changeset state js f persistent = (js', f', Ok tt) →
  (∀ a, a ∈ persistent → js_state js' !! a = js_state js !! a ∧ js_state (fork_js f') !! a = js_state (fork_js f) !! a) ∧
  (∀ a, is_Some (js_state js !! a) → a ∉ persistent → ∃ acc i, js_state js' !! a = Some acc ∧
     db_basic_ref (fork_db f') a = Ok i ∧ acc_info acc = default info_default i).
Proof.
  unfold apply_state_changeset.
  destruct (update_state (js_state js) (db_commit (fork_db f) state) persistent) as [[db st] [[]|e]] eqn:E; [|done].
  destruct (update_state (js_state (fork_js f)) db persistent) as [[db2 st2] r] eqn:E2. intros [= <- <- ->].
  apply update_state_spec in E as (P1 & K1 & U1). apply update_state_spec in E2 as (P2 & K2 & _). cbn. split.
  - intros a Ha. split; [by apply K1|by apply K2].
  - intros a Ha Hp. destruct (U1 a Ha Hp) as (acc & i & ? & ? & ?). exists acc, i. by rewrite P2, P1.
Qed.

(** Executing a transaction on the fork at [idx]. *)
Lemma commit_on_spec {RR : RevmReads} idx tx e fid w w' :
  commit_on idx tx e fid w = Some (w', Ok tt) →
  ∃ f f', forks_of w !! idx = Some (Some f) ∧ forks_of w' = <[idx := Some f']> (forks_of w) ∧
    active_fork_ids (backend_of w') = active_fork_ids (backend_of w) ∧ env_of w' = env_of w ∧
    (∀ a, a ∈ persistent_of w → js_state (js_of w') !! a = js_state (js_of w) !! a) ∧
    (∀ a, is_Some (js_state (js_of w) !! a) → a ∉ persistent_of w → ∃ acc i, js_state (js_of w') !! a = Some acc ∧
       db_basic_ref (fork_db f') a = Ok i ∧ acc_info acc = default info_default i).
Proof.
  unfold commit_on. intros (w0 & x & [= <- <-] & E)%bind_inv. apply bind_inv in E as (w1 & f & Ef & E).
  unfold get_fork, mbind_, gets, expect, fork_at in Ef. destruct (inner_forks (inner (backend_of w)) !! idx) as [[g|]|] eqn:Eidx;
    [|done..]. cbn in Ef. injection Ef as <- <-.
  apply bind_inv in E as (w2 & [[js f'] r] & Ec & E). unfold expect in Ec.
  destruct (commit_transaction _ _ _ _ _ _ _) as [y|] eqn:Ect; [|done]. injection Ec as <- ->.
  apply bind_inv in E as (w3 & [] & Es & E). unfold set_fork, put_fork, mbind_, gets in Es.
  case_decide; [|done]. injection Es as <-. apply bind_inv in E as (w4 & [] & [= <-] & E).
  destruct r as [[]|]; [|done]. injection E as <-. exists g, f'. cbn. split_and!; [done..| |].
  all: unfold commit_transaction in Ect; destruct (configure_tx_env e tx) as [e'|]; [|done];
    destruct (evm_transact _ _ _ _ _ _) as [state|]; [|done];
    destruct (apply_state_changeset _ _ _ _) as [[js1 f1] [[]|]] eqn:Ea; [|done]; injection Ect as <- <-;
    apply apply_changeset_spec in Ea as [Hkeep Hset].
  - intros a Ha. by apply Hkeep.
  - exact Hset.
Qed.

Lemma index_inv id w w' idx :
  ensure_fork_index_by_local_id id w = Some (w', Ok idx) →
  ∃ fid, issued_local_fork_ids (inner (backend_of w)) !! id = Some fid ∧ created_forks (inner (backend_of w)) !! fid = Some idx.
Proof.
  unfold ensure_fork_index_by_local_id, ensure_fork_id, ensure_fork_index, mbind_, gets, ok_or.
  destruct (_ !! id) as [fid|]; [|done]. cbn. destruct (_ !! fid) as [i|] eqn:E; [|done]. intros [= _ <-]. eauto.
Qed.

Definition whole w : World := w.
Definition active_of w : option (Z * nat) := active_fork_ids (backend_of w).

(** C21: executing a mined transaction on a fork commits it there and leaves every
    other fork and the environment alone; the persistent accounts of the current
    journaled state stay, and all its other accounts take the balance, nonce and
    code they have on the named fork, whether that fork is active or not. *)
Theorem transact_synchronises {RR : RevmReads} id h w w' :
  transact (Some id) h w = Some (w', Ok tt) →
  ∃ fid idx f', issued_local_fork_ids (inner (backend_of w)) !! id = Some fid ∧
    created_forks (inner (backend_of w)) !! fid = Some idx ∧ fork_at (backend_of w') idx = Some f' ∧
    (∀ j, j ≠ idx → fork_at (backend_of w') j = fork_at (backend_of w) j) ∧
    active_fork_ids (backend_of w') = active_fork_ids (backend_of w) ∧ env_of w' = env_of w ∧
    (∀ a, a ∈ persistent_of w → js_state (js_of w') !! a = js_state (js_of w) !! a) ∧
    (∀ a, is_Some (js_state (js_of w) !! a) → a ∉ persistent_of w → ∃ acc i, js_state (js_of w') !! a = Some acc ∧
       db_basic_ref (fork_db f') a = Ok i ∧ acc_info acc = default info_default i).
Proof.
  unfold transact. intros (w1 & r1 & E1 & E)%bind_inv. unchanged whole E1 as C1. unfold whole in C1. subst w1.
  assert (r1 = id) as ->.
  { revert E1. unfold ensure_fork, mbind_, gets. cbn. case_decide; [|done]. by intros [= <-]. }
  apply bind_inv in E as (w1 & fid & E1' & E). unchanged whole E1' as C1. unfold whole in C1. subst w1.
  apply bind_inv in E as (w1 & f & E2 & E). unchanged whole E2 as C1. unfold whole in C1. subst w1.
  apply bind_inv in E as (w1 & tx & E3 & E). unchanged whole E3 as C1. unfold whole in C1. subst w1.
  apply bind_inv in E as (w1 & x & E4 & E). unchanged whole E4 as C1. unfold whole in C1. subst w1.
  apply bind_inv in E as (w1 & e & [= <- <-] & E).
  apply bind_inv in E as (w1 & idx & E5 & E). unchanged whole E5 as C1. unfold whole in C1. subst w1.
  apply index_inv in E5 as (fid' & Hfid & Hidx).
  apply commit_on_spec in E as (g & f' & Hg & Hforks & Hact & Henv & Hper & Hacc).
  exists fid', idx, f'. unfold fork_at, forks_of in *. rewrite Hforks. split_and!; try done.
  - by rewrite list_lookup_insert_eq by (by eapply lookup_lt_Some).
  - intros j Hj. by rewrite list_lookup_insert_ne.
Qed.

Lemma commit_on_env idx tx e fid : stable (Hd := Hd) env_of (commit_on idx tx e fid).
Proof. stable_steps. Qed.

Lemma replay_env idx fid e h l : stable (Hd := Hd) env_of (replay idx fid e h l).
Proof. pose proof commit_on_env. induction l as [|tx l IH]; cbn [replay]; stable_steps. Qed.

Lemma replay_active idx fid e h l : stable (Hd := Hd) active_of (replay idx fid e h l).
Proof. induction l as [|tx l IH]; cbn [replay]; stable_steps. Qed.

(** Rolling a fork to a transaction keeps the active fork; the number and the
    timestamp of the current block become those of the transaction's block on
    the named fork, whether that fork is active or not. *)
Theorem roll_to_transaction_env id h w w' :
  roll_fork_to_transaction (Some id) h w = Some (w', Ok tt) →
  active_fork_ids (backend_of w') = active_fork_ids (backend_of w) ∧
  ∃ k b, get_block_number_and_block_for_transaction id h w = Some (w, Ok (k, b)) ∧
    block_number (env_of w') = h_number (header b) ∧ block_timestamp (env_of w') = h_timestamp (header b).
Proof.
  intros E. pose proof replay_active. pose proof E as Ea. unchanged active_of Ea as Ca.
  split; [exact Ca|]. clear Ca Ea.
  apply bind_inv in E as (w1 & r1 & E1 & E). unchanged whole E1 as C1. unfold whole in C1. subst w1.
  assert (r1 = id) as ->.
  { revert E1. unfold ensure_fork, mbind_, gets. cbn. case_decide; [|done]. by intros [= <-]. }
  apply bind_inv in E as (w1 & [k b] & E2 & E). unchanged whole E2 as C1. unfold whole in C1. subst w1.
  exists k, b. split; [exact E2|].
  apply bind_inv in E as (w1 & r3 & E3 & E). apply bind_inv in E as (w2 & r4 & [= <- _] & E).
  apply bind_inv in E as (w3 & e & [= <- <-] & E). apply bind_inv in E as (w4 & r5 & E5 & [= <-]).
  pose proof replay_env. unchanged (env_of (Hd := Hd)) E5 as Ce. by rewrite Ce.
Qed.

(** The fork of a local id. *)
Definition fork_of_id (b : Backend (Hd := Hd)) (id : Z) : option Fork :=
  fid ← issued_local_fork_ids (inner b) !! id; idx ← created_forks (inner b) !! fid; fork_at b idx.

Lemma forks_iter_spec b l :
  forks_iter b = Some l →
  NoDup l.*1 ∧ ∀ id f, (id, f) ∈ l ↔ fork_of_id b id = Some f.
Proof.
  unfold forks_iter, fork_of_id. set (m := issued_local_fork_ids (inner b)).
  intros Hl%mapM_Some. assert (l.*1 = (map_iter m).*1) as Hfst.
  { revert Hl. generalize (map_iter m). induction 1 as [|[id fid] [id' f] l1 l2 Hx _ IH]; [done|]. cbn in *.
    destruct (created_forks (inner b) !! fid) as [idx|]; [|done]. cbn in Hx. destruct (fork_at b idx); [|done].
    cbn in Hx. simplify_eq. by f_equal. }
  split; [rewrite Hfst, map_iter_perm; apply NoDup_fst_map_to_list|]. intros id f.
  assert ((id, f) ∈ l ↔ ∃ fid, (id, fid) ∈ map_iter m ∧
    (idx ← created_forks (inner b) !! fid; fork_at b idx) = Some f) as ->.
  { clear Hfst. revert Hl. generalize (map_iter m). induction 1 as [|[i fid] [i' g] l1 l2 Hx _ IH].
    { split; [by intros ?%not_elem_of_nil|by intros (? & ?%not_elem_of_nil & _)]. }
    cbn in Hx. destruct (created_forks (inner b) !! fid) as [idx|] eqn:E1; [|done]. cbn in Hx.
    destruct (fork_at b idx) eqn:E2; [|done]. cbn in Hx. simplify_eq. rewrite elem_of_cons, IH. split.
    - intros [[= -> ->]|(fid' & Hin & Hf)]; [exists fid|exists fid'; split; [by right|done]]. split; [by left|].
      by rewrite E1.
    - intros (fid' & [[= -> ->]|Hin]%elem_of_cons & Hf); [left|right; eauto]. rewrite E1 in Hf. cbn in Hf. congruence. }
  split.
  - intros (fid & Hin & Hf). rewrite map_iter_perm in Hin. apply elem_of_map_to_list in Hin. by rewrite Hin.
  - destruct (m !! id) as [fid|] eqn:E; [|done]. intros Hf. exists fid. split; [|done].
    rewrite map_iter_perm. by apply elem_of_map_to_list.
Qed.

(** After any sequence of operations a failed call is diagnosed without a
    panic: only with several forks, one of them active, and when the callee has
    no code there or in the journaled state; the forks that are named are exactly
    the other forks where it has code, and without such a fork the contract is
    reported as missing. *)
Theorem diagnose_revert_exact {HL : ForkHandlerLaws Hd} {RML : RemoteLaws} (p : Params (Hd := Hd))
    deployer sender test spec mem h create e js w0 ops w callee :
  h_ok 0 h → backend_new (CHEATCODE_ADDRESS p) deployer sender test spec mem h create e js = Some w0 →
  (2 * Z.of_nat (length ops) < MAX_FORKS)%Z → run p ops w0 = Some w →
  ∃ r, diagnose_revert (KECCAK_EMPTY p) callee w = Some (w, Ok r) ∧
    let has f := is_contract (KECCAK_EMPTY p) f callee = true in
    let others l := ∀ id, id ∈ l ↔ active_fork_id (backend_of w) ≠ Some id ∧ ∃ f, fork_of_id (backend_of w) id = Some f ∧ has f in
    let missing active := length (inner_forks (inner (backend_of w))) ≠ 1 ∧
      is_contract_in_state (KECCAK_EMPTY p) (js_of w) callee = false ∧
      ∃ idx f, active_fork_ids (backend_of w) = Some (active, idx) ∧ fork_at (backend_of w) idx = Some f ∧ ¬ has f in
    match r with
    | None => active_fork_ids (backend_of w) = None ∨ length (inner_forks (inner (backend_of w))) = 1 ∨
        is_contract_in_state (KECCAK_EMPTY p) (js_of w) callee = true ∨
        ∃ id idx f, active_fork_ids (backend_of w) = Some (id, idx) ∧ fork_at (backend_of w) idx = Some f ∧ has f
    | Some (ContractExistsOnOtherForks c active l) =>
        c = callee ∧ missing active ∧ l ≠ [] ∧ NoDup l ∧ others l
    | Some (ContractDoesNotExist c active persistent) =>
        c = callee ∧ missing active ∧ others [] ∧
        persistent = bool_decide (callee ∈ persistent_accounts (inner (backend_of w)))
    end.
Proof.
  intros Hok Hnew Hlen Hrun. pose proof (run_wf p _ _ _ _ _ _ _ _ _ _ ops w Hok Hnew Hlen Hrun) as Hw. clear Hrun Hnew Hok.
  unfold diagnose_revert, mbind_ at 1, gets. unfold active_fork_id.
  destruct (active_fork_ids (backend_of w)) as [[aid idx]|] eqn:Ea; [|eexists; split; [done|by left]].
  destruct (ww_active _ _ Hw _ _ Ea) as [Hi ->]. apply (wf_issued _ _ (ww_inner _ _ Hw)) in Hi.
  destruct (fork_there None (1 + 2 * Z.of_nat (length ops)) (tables w) w (slot_of aid)) as [f Hf]; [done|cbn; unfold slot_of; lia|].
  assert (fork_at (backend_of w) (slot_of aid) = Some f) as Hfa by (unfold fork_at; by rewrite Hf).
  unfold mbind_ at 1, get_fork, mbind_ at 1, gets. rewrite Hfa. cbn [expect mret].
  case_decide as Hone; [eexists; split; [done|by right; left]|].
  destruct (is_contract (KECCAK_EMPTY p) f callee) eqn:Hc; cbn [negb andb].
  { eexists. split; [done|]. do 3 right. by exists aid, (slot_of aid), f. }
  destruct (is_contract_in_state (KECCAK_EMPTY p) (js_of w) callee) eqn:Hs; cbn [negb].
  { eexists. split; [done|]. by do 2 right; left. }
  destruct (forks_iter_total _ w Hw) as [l Hl]. rewrite Hl. unfold expect, mret, mbind_.
  destruct (forks_iter_spec _ _ Hl) as [Hnd Hin].
  cbv zeta iota beta. match goal with |- context [decide (?x = [])] => set (lo := x) end.
  assert (∀ id, id ∈ lo ↔ Some aid ≠ Some id ∧ ∃ f, fork_of_id (backend_of w) id = Some f ∧
    is_contract (KECCAK_EMPTY p) f callee = true) as Hlo.
  { intros id. unfold lo. rewrite list_elem_of_fmap. split.
    - intros ([i g] & -> & [[Hne Hg] Hig]%list_elem_of_filter). cbn in *. split; [congruence|]. exists g. by rewrite <- Hin.
    - intros (Hne & g & Hg & Hgc). exists (id, g). split; [done|]. apply list_elem_of_filter. cbn. rewrite Hin. split; [|done].
      split; [congruence|done]. }
  assert (NoDup lo) as Hnd'.
  { unfold lo. apply (sublist_NoDup _ (l.*1)); [done|apply fmap_sublist, sublist_filter]. }
  assert (∃ idx g, Some (aid, slot_of aid) = Some (aid, idx) ∧ fork_at (backend_of w) idx = Some g ∧
    is_contract (KECCAK_EMPTY p) g callee ≠ true) as Hmiss by (exists (slot_of aid), f; by rewrite Hc).
  eexists. split; [done|]. destruct (decide (lo = [])) as [E|E]; [|done]. rewrite E in Hlo. done.
Qed.
End theorems.

(** ** Example: fork 0 is active, the transaction is on fork 1 *)

#[local] Existing Instance example_types.
#[local] Existing Instance default_map_order.
#[local] Existing Instance example_evm.
#[local] Existing Instance example_revm.
#[local] Existing Instance example_remote.
#[local] Existing Instance example_client.

#[local] Existing Instance example_client_laws.
#[local] Existing Instance example_remote_laws.

#[local] Instance example_reads : RevmReads.
Proof. split; [|done|done]. intros Ext db a db' i. cbn. by intros [= _ <-]. Qed.

Definition example_transacted : World := world_of (transact (Some 1%Z) 77 example_at_a).

(** Account 7 has 10 on fork 0, which is active; after the transaction on fork 1
    it has 55 there. *)
Lemma transact_synchronises_witness :
  active_fork_ids (backend_of example_at_a) = Some (0%Z, 0) ∧
  (balance ∘ acc_info <$> js_state (js_of example_at_a) !! 7%Z) = Some 10%Z ∧
  (balance ∘ acc_info <$> js_state (js_of example_transacted) !! 7%Z) = Some 55%Z ∧
  env_of example_transacted = env_of example_at_a.
Proof.
  destruct (transact_synchronises 1 77 example_at_a example_transacted) as (fid & idx & f & Hid & Hidx & Hf & _ & _ & He & _ & _).
  - vm_compute. reflexivity.
  - split; [vm_compute; reflexivity|]. split; [vm_compute; reflexivity|]. split; [vm_compute; reflexivity|exact He].
Defined.

Definition found (o : option (World (Hd := Client) * result (Z * Block) BackendErr)) : option Block :=
  match o with Some (_, Ok (_, b)) => Some b | _ => None end.

Lemma roll_to_transaction_env_witness :
  active_fork_ids (backend_of example_at_a) = Some (0%Z, 0) ∧ block_number (env_of example_at_a) = 0%Z ∧
  block_number (env_of (world_of (roll_fork_to_transaction (Some 1%Z) 77 example_at_a))) = 6%Z.
Proof.
  destruct (roll_to_transaction_env 1 77 example_at_a (world_of (roll_fork_to_transaction (Some 1%Z) 77 example_at_a)))
    as (Ha & k & b & Hb & Hn & _).
  - vm_compute. reflexivity.
  - split; [vm_compute; reflexivity|]. split; [vm_compute; reflexivity|]. rewrite Hn.
    clear -Hb. apply (f_equal found) in Hb. vm_compute in Hb. injection Hb as <-. reflexivity.
Defined.

(** Account 9 has code on fork 1 only. *)
Definition example_deployed : list BackendOp :=
  [OpCreate (example_fork 5); OpCreate (example_fork 6); OpSelect 1; OpInsert 9 (mk_info 0 0 33 None); OpSelect 0].
Definition example_alone : World := world_or (run example_params example_deployed example_start).

Lemma diagnose_revert_exact_witness :
  ∃ r, diagnose_revert (KECCAK_EMPTY example_params) 9 example_alone = Some (example_alone, Ok r) ∧
    diagnose_revert (KECCAK_EMPTY example_params) 9 example_alone =
      Some (example_alone, Ok (Some (ContractExistsOnOtherForks 9 0 [1%Z]))).
Proof.
  destruct (diagnose_revert_exact example_params 101 102 103 example_spec example_mem client_new None (example_env 0)
    example_js example_start example_deployed example_alone 9) as (r & Hr & _).
  - by apply client_new_ok.
  - vm_compute. reflexivity.
  - vm_compute. reflexivity.
  - vm_compute. reflexivity.
  - exists r. split; [exact Hr|vm_compute; reflexivity].
Defined.
