(* ===== verification/FuzzInts.v ===== *)
(** The fuzzer's integers (evm/fuzz/src/strategies/uint.rs and int.rs): the
    value trees that shrink a failing input, and the strategies that generate
    inputs.

    [U256] wraps around.  [I256] panics on overflow when overflow checks are
    on ([None]) and wraps otherwise.  The random numbers a strategy draws are a
    record, one field per call of the generator. *)
From S2P Require Import Prelude.
Local Open Scope Z_scope.

Definition u256_max : Z := 2 ^ 256 - 1.
Definition i256_min : Z := - 2 ^ 255.
Definition i256_max : Z := 2 ^ 255 - 1.
Definition wrap_u256 (x : Z) : Z := x mod 2 ^ 256.
Definition wrap_i256 (x : Z) : Z := (x + 2 ^ 255) mod 2 ^ 256 - 2 ^ 255.

Definition in_i256 (x : Z) : bool := (i256_min <=? x) && (x <=? i256_max).

(** The result of an operator of [I256] whose exact value is [x]. *)
Definition i256_op (overflow_checks : bool) (x : Z) : option Z :=
  if in_i256 x then Some x else if overflow_checks then None else Some (wrap_i256 x).

(** ** Value trees *)

Module UintValueTree.
Record t := mk { lo : Z; curr : Z; hi : Z; fixed : bool }.

Definition new (start : Z) (fixed : bool) : t := mk 0 start start fixed.

Definition reposition (v : t) : t * bool :=
  let interval := wrap_u256 (hi v - lo v) in
  let new_mid := wrap_u256 (lo v + interval / 2) in
  if new_mid =? curr v then (v, false)
  else (mk (lo v) new_mid (hi v) (fixed v), true).

Definition simplify (v : t) : t * bool :=
  if fixed v || (hi v <=? lo v) then (v, false)
  else reposition (mk (lo v) (curr v) (curr v) (fixed v)).

Definition complicate (v : t) : t * bool :=
  if fixed v || (hi v <=? lo v) then (v, false)
  else reposition (mk (wrap_u256 (curr v + 1)) (curr v) (hi v) (fixed v)).
End UintValueTree.

Module IntValueTree.
Record t := mk { lo : Z; curr : Z; hi : Z; fixed : bool }.

Definition new (start : Z) (fixed : bool) : t := mk 0 start start fixed.

Definition reposition (overflow_checks : bool) (v : t) : option (t * bool) :=
  interval ← i256_op overflow_checks (hi v - lo v);
  new_mid ← i256_op overflow_checks (lo v + Z.quot interval 2);
  Some (if new_mid =? curr v then (v, false)
        else (mk (lo v) new_mid (hi v) (fixed v), true)).

Definition magnitude_greater (lhs rhs : Z) : bool :=
  if lhs =? 0 then false else xorb (rhs <? lhs) (lhs <? 0).

Definition simplify (overflow_checks : bool) (v : t) : option (t * bool) :=
  if fixed v || negb (magnitude_greater (hi v) (lo v)) then Some (v, false)
  else reposition overflow_checks (mk (lo v) (curr v) (curr v) (fixed v)).

Definition complicate (overflow_checks : bool) (v : t) : option (t * bool) :=
  if fixed v || negb (magnitude_greater (hi v) (lo v)) then Some (v, false)
  else
    lo' ← (if negb (curr v =? i256_min) && negb (curr v =? i256_max)
           then i256_op overflow_checks (curr v + (if hi v <? 0 then -1 else 1))
           else Some (curr v));
    reposition overflow_checks (mk lo' (curr v) (hi v) (fixed v)).
End IntValueTree.

(** ** Strategies *)

(** The draws of the random number generator. *)
Record Draws := mk_draws {
  gen_bias : Z;       (** [0..total_weight] *)
  gen_is_min : bool;  (** [gen_bool(0.5)] of the unsigned edges *)
  gen_offset : Z;     (** [0..4] *)
  gen_kind : Z;       (** [0..4] *)
  gen_index : nat;    (** [0..fixtures.len()] *)
  gen_bits : Z;       (** [0..=bits] *)
  gen_higher : Z;     (** [0..=u128::MAX] *)
  gen_lower : Z;      (** [0..=u128::MAX] *)
  gen_positive : bool (** [gen_bool(0.5)] of the signed values *) }.

(** Both strategies cut two 128-bit numbers to [x] bits. *)
Definition cut_randoms (x higher lower : Z) : Z * Z :=
  if x <? 128 then (0, Z.land lower (Z.shiftl 1 x - 1))
  else if (128 <=? x) && (x <? 256) then (Z.land higher (Z.shiftl 1 (x - 128) - 1), lower)
  else (higher, lower).

Definition mask64 : Z := Z.shiftl 1 65 - 1.

Definition from_limbs (inner : list Z) : Z :=
  foldr (λ limb acc, limb + 2 ^ 64 * acc) 0 inner.

Definition from_randoms (higher lower : Z) : Z :=
  from_limbs [as_u64 (Z.land lower mask64); as_u64 (Z.shiftr lower 64);
              as_u64 (Z.land higher mask64); as_u64 (Z.shiftr higher 64)].

Module UintStrategy.
Section strategy.
Context {DynSolValue : Type} (as_uint : DynSolValue → option (Z * Z)).

Record t := mk { bits : Z; fixtures : list DynSolValue; edge_weight : Z; fixtures_weight : Z;
  random_weight : Z }.

Definition new (bits : Z) (fixtures : option (list DynSolValue)) : t :=
  mk bits (default [] fixtures) 10 40 50.

Definition type_max (s : t) : Z :=
  if bits s <? 256 then wrap_u256 (Z.shiftl 1 (bits s) - 1) else u256_max.

Definition generate_edge_tree (s : t) (d : Draws) : UintValueTree.t :=
  let offset := gen_offset d in
  let start := if gen_is_min d then offset else saturating_sub (type_max s) offset in
  UintValueTree.new start false.

Definition generate_random_tree (s : t) (d : Draws) : UintValueTree.t :=
  let '(higher, lower) := cut_randoms (gen_bits d) (gen_higher d) (gen_lower d) in
  UintValueTree.new (from_randoms higher lower) false.

Definition generate_fixtures_tree (s : t) (d : Draws) : option UintValueTree.t :=
  if bool_decide (fixtures s = []) then Some (generate_random_tree s d)
  else
    fixture ← fixtures s !! gen_index d;
    Some match as_uint fixture with
         | Some (v, n) => if n =? bits s then UintValueTree.new v false
                          else generate_random_tree s d
         | None => generate_random_tree s d
         end.

Definition new_tree (s : t) (d : Draws) : option UintValueTree.t :=
  let x := gen_bias d in
  if x <? edge_weight s then Some (generate_edge_tree s d)
  else if x <? edge_weight s + fixtures_weight s then generate_fixtures_tree s d
  else Some (generate_random_tree s d).
End strategy.
End UintStrategy.

Module IntStrategy.
Section strategy.
Context {DynSolValue : Type} (as_int : DynSolValue → option (Z * Z)).
Context (overflow_checks : bool).

Record t := mk { bits : Z; fixtures : list DynSolValue; edge_weight : Z; fixtures_weight : Z;
  random_weight : Z }.

Definition new (bits : Z) (fixtures : option (list DynSolValue)) : t :=
  mk bits (default [] fixtures) 10 40 50.

(** [I256::overflowing_from_sign_and_abs(sign, abs).0]: the two's complement
    of the sign and the magnitude. *)
Definition from_sign_and_abs (positive : bool) (abs : Z) : Z :=
  wrap_i256 (if positive then abs else - abs).

Definition generate_edge_tree (s : t) (d : Draws) : option IntValueTree.t :=
  let offset := gen_offset d in
  let umax := wrap_u256 (wrap_u256 (Z.shiftl 1 (bits s - 1)) - 1) in
  start ← match gen_kind d with
          | 0 => i256_op overflow_checks (from_sign_and_abs false (wrap_u256 (umax + 1)) + offset)
          | 1 => i256_op overflow_checks (- offset) ≫= λ o, i256_op overflow_checks (o - 1)
          | 2 => Some offset
          | 3 => i256_op overflow_checks (from_sign_and_abs true umax - offset)
          | _ => None
          end;
  Some (IntValueTree.new start false).

Definition generate_random_tree (s : t) (d : Draws) : IntValueTree.t :=
  if gen_bits d =? 0 then IntValueTree.new 0 false
  else
    let '(higher, lower) := cut_randoms (gen_bits d - 1) (gen_higher d) (gen_lower d) in
    IntValueTree.new (from_sign_and_abs (gen_positive d) (from_randoms higher lower)) false.

Definition generate_fixtures_tree (s : t) (d : Draws) : option IntValueTree.t :=
  if bool_decide (fixtures s = []) then Some (generate_random_tree s d)
  else
    fixture ← fixtures s !! gen_index d;
    Some match as_int fixture with
         | Some (v, n) => if n =? bits s then IntValueTree.new v false
                          else generate_random_tree s d
         | None => generate_random_tree s d
         end.

Definition new_tree (s : t) (d : Draws) : option IntValueTree.t :=
  let x := gen_bias d in
  if x <? edge_weight s then generate_edge_tree s d
  else if x <? edge_weight s + fixtures_weight s then generate_fixtures_tree s d
  else Some (generate_random_tree s d).
End strategy.
End IntStrategy.

(** ** The shrinking protocol

    A value tree is used the way proptest documents it: while the current
    value fails it is simplified, while it passes it is complicated, until the
    tree refuses. *)

Section drive.
Context {T : Type} (step : T → option (T * bool)).

Fixpoint drive (fuel : nat) (v : T) : option T :=
  match fuel with
  | O => None
  | S n => '(v', moved) ← step v; if moved : bool then drive n v' else Some v'
  end.
End drive.

Definition uint_step (fails : Z → bool) (v : UintValueTree.t) : option (UintValueTree.t * bool) :=
  Some (if fails (UintValueTree.curr v) then UintValueTree.simplify v
        else UintValueTree.complicate v).

Definition int_step (chk : bool) (fails : Z → bool) (v : IntValueTree.t) :
    option (IntValueTree.t * bool) :=
  if fails (IntValueTree.curr v) then IntValueTree.simplify chk v
  else IntValueTree.complicate chk v.

Lemma wrap_u256_small x : 0 ≤ x ≤ u256_max → wrap_u256 x = x.
Proof. unfold u256_max, wrap_u256. intros. apply Z.mod_small. lia. Qed.

Lemma wrap_i256_small x : i256_min ≤ x ≤ i256_max → wrap_i256 x = x.
Proof. unfold i256_min, i256_max, wrap_i256. intros. rewrite Z.mod_small; lia. Qed.

Lemma i256_op_small chk x : i256_min ≤ x ≤ i256_max → i256_op chk x = Some x.
Proof.
  intros [H1 H2]. unfold i256_op, in_i256.
  by rewrite (proj2 (Z.leb_le _ _) H1), (proj2 (Z.leb_le _ _) H2).
Qed.

(** ** Shrinking an unsigned integer *)

Lemma reposition_mid (v : UintValueTree.t) :
  0 ≤ UintValueTree.lo v ≤ UintValueTree.hi v → UintValueTree.hi v ≤ u256_max →
  UintValueTree.reposition v =
    let m := UintValueTree.lo v + (UintValueTree.hi v - UintValueTree.lo v) / 2 in
    if m =? UintValueTree.curr v then (v, false)
    else (UintValueTree.mk (UintValueTree.lo v) m (UintValueTree.hi v) (UintValueTree.fixed v), true).
Proof.
  destruct v as [l c h f]. cbn. intros Hl Hh. unfold UintValueTree.reposition. cbn.
  assert (0 ≤ (h - l) / 2 ≤ h - l) by (Z.to_euclidean_division_equations; lia).
  rewrite !wrap_u256_small; [done|lia|rewrite ?wrap_u256_small; lia].
Qed.

Section uint.
Import UintValueTree.
Variables (start : Z) (fails : Z → bool).
Hypothesis start_range : 0 ≤ start ≤ u256_max.

(** While shrinking, the upper end fails, the value before the lower end
    passes, and the current value is the middle of both. *)
Record searching (v : t) : Prop := {
  se_range : 0 ≤ lo v ≤ hi v ∧ hi v ≤ start;
  se_mid : curr v = lo v + (hi v - lo v) / 2;
  se_hi : fails (hi v) = true;
  se_lo : lo v = 0 ∨ fails (lo v - 1) = false;
  se_free : fixed v = false }.

Definition found (v : t) : Prop :=
  0 ≤ curr v ≤ start ∧ fails (curr v) = true ∧ (curr v = 0 ∨ fails (curr v - 1) = false).

(** One step halves the interval or ends the search. *)
Lemma search_step v :
  searching v →
  ∃ v' moved, uint_step fails v = Some (v', moved) ∧
    if moved : bool then searching v' ∧ 2 * (hi v' - lo v') ≤ hi v - lo v ∧ lo v < hi v
    else found v'.
Proof.
  intros [Hr Hm Hh Hl Hf]. unfold uint_step, simplify, complicate. rewrite Hf. cbn [orb].
  assert (lo v = hi v → curr v = hi v) as Hend.
  { intros E. rewrite Hm, E, Z.sub_diag. apply Z.add_0_r. }
  destruct (Z.leb_spec (hi v) (lo v)) as [Hle|Hlt].
  { assert (lo v = hi v) as E by lia. pose proof (Hend E) as Hc. rewrite Hc, Hh.
    exists v, false. split; [done|]. unfold found. rewrite Hc. split_and!; [lia..|done|].
    rewrite <- E. done. }
  assert (lo v ≤ curr v < hi v) by (Z.to_euclidean_division_equations; lia).
  destruct (fails (curr v)) eqn:Hc.
  - rewrite reposition_mid by (cbn; lia). cbn.
    destruct (Z.eqb_spec (lo v + (curr v - lo v) / 2) (curr v)) as [E|E].
    + eexists _, _. split; [done|]. cbn. split_and!; cbn; [lia..|done|].
      assert (curr v = lo v) as -> by (Z.to_euclidean_division_equations; lia). done.
    + eexists _, _. split; [done|]. cbn.
      split_and!; [split; cbn; try done; lia| |lia]. Z.to_euclidean_division_equations; lia.
  - unfold u256_max in *. rewrite wrap_u256_small by (unfold u256_max; lia).
    rewrite reposition_mid by (unfold u256_max; cbn; lia). cbn.
    destruct (Z.eqb_spec (curr v + 1 + (hi v - (curr v + 1)) / 2) (curr v)) as [E|E].
    { exfalso. Z.to_euclidean_division_equations; lia. }
    eexists _, _. split; [done|]. cbn.
    split_and!; [split; cbn; try done; [lia|]| |lia].
    + right. by rewrite Z.add_simpl_r.
    + Z.to_euclidean_division_equations; lia.
Qed.

Lemma search_ends k v :
  searching v → hi v - lo v < 2 ^ Z.of_nat k →
  ∃ v', drive (uint_step fails) (S k) v = Some v' ∧ found v'.
Proof.
  revert v. induction k as [|k IH]; intros v Hv Hk.
  - destruct (search_step v Hv) as (v' & [] & E & Hs).
    { destruct Hs as (_ & _ & ?). cbn in Hk. lia. }
    exists v'. split; [|done]. cbn [drive]. by rewrite E.
  - destruct (search_step v Hv) as (v' & [] & E & Hs).
    + destruct Hs as (Hs & Hlen & _).
      destruct (IH v' Hs) as (v'' & Hd & Hfound).
      { rewrite Nat2Z.inj_succ, Z.pow_succ_r in Hk by lia. lia. }
      exists v''. split; [|done]. cbn [drive]. rewrite E. cbn. done.
    + exists v'. cbn [drive]. rewrite E. done.
Qed.

Lemma first_step :
  fails start = true →
  ∃ v moved, uint_step fails (new start false) = Some (v, moved) ∧
    if moved : bool then searching v else found v.
Proof.
  intros Hs. unfold uint_step, simplify. cbn. rewrite Hs.
  destruct (Z.leb_spec start 0) as [H0|H0].
  { eexists _, _. split; [done|]. cbn. split_and!; cbn; [lia..|done|lia]. }
  rewrite reposition_mid by (cbn; lia). cbn.
  destruct (Z.eqb_spec (0 + (start - 0) / 2) start) as [E|E].
  { exfalso. Z.to_euclidean_division_equations; lia. }
  eexists _, _. split; [done|]. cbn. split; cbn; try done; [lia|by left].
Qed.

Lemma uint_drive :
  fails start = true → ∃ v, drive (uint_step fails) 258 (new start false) = Some v ∧ found v.
Proof.
  intros Hs. destruct (first_step Hs) as (v & [] & E & Hv).
  - destruct (search_ends 256 v Hv) as (v' & Hd & Hf).
    { pose proof (se_range v Hv). unfold u256_max in *. lia. }
    exists v'. split; [|done]. change (drive (uint_step fails) 258 (new start false)) with
      ('(v', moved) ← uint_step fails (new start false);
       if moved : bool then drive (uint_step fails) 257 v' else Some v').
    rewrite E. done.
  - exists v. split; [|done]. cbn [drive]. rewrite E. done.
Qed.
End uint.

(** A value below which something fails has a failing predecessor chain: for an
    upward closed predicate the boundary found is the least failing value. *)
Lemma boundary_least (fails : Z → bool) c :
  (∀ x y, 0 ≤ x ≤ y → fails x = true → fails y = true) →
  c = 0 ∨ fails (c - 1) = false → ∀ x, 0 ≤ x < c → fails x = false.
Proof.
  intros Hup Hc x Hx. destruct Hc as [->|Hc]; [lia|].
  destruct (fails x) eqn:E; [|done]. rewrite (Hup x (c - 1)) in Hc by (done || lia). done.
Qed.

(** ** Shrinking a signed integer

    The tree of a signed integer works on magnitudes: it is the unsigned tree
    with the sign of the start put back. *)

Section int.
Variables (sign start : Z) (chk : bool) (fails : Z → bool).
Hypothesis sign_unit : sign = 1 ∨ sign = -1.
Hypothesis start_fits : 0 ≤ start ∧ i256_min ≤ sign * start ≤ i256_max.
Hypothesis start_zero : start = 0 → sign = 1.

(** The failures on the magnitudes. *)
Definition abs_fails (x : Z) : bool := fails (sign * x).

Definition signed (v : UintValueTree.t) : IntValueTree.t :=
  IntValueTree.mk (sign * UintValueTree.lo v) (sign * UintValueTree.curr v)
    (sign * UintValueTree.hi v) (UintValueTree.fixed v).

Lemma start_u256 : 0 ≤ start ≤ u256_max.
Proof. unfold i256_min, i256_max, u256_max in *. destruct sign_unit as [-> | ->]; lia. Qed.

Lemma signed_fits x : 0 ≤ x ≤ start → i256_min ≤ sign * x ≤ i256_max.
Proof. unfold i256_min, i256_max in *. destruct sign_unit as [-> | ->]; lia. Qed.

Lemma signed_mul_eqb x y : (sign * x =? sign * y) = (x =? y).
Proof. destruct sign_unit as [-> | ->]; destruct (Z.eqb_spec x y); lia. Qed.

Lemma signed_reposition v :
  0 ≤ UintValueTree.lo v ≤ UintValueTree.hi v → UintValueTree.hi v ≤ start →
  IntValueTree.reposition chk (signed v) =
    Some (let '(v', moved) := UintValueTree.reposition v in (signed v', moved)).
Proof.
  intros Hl Hh. rewrite reposition_mid by (pose proof start_u256; lia).
  destruct v as [l c h f]. unfold IntValueTree.reposition. cbn in *.
  rewrite i256_op_small.
  2:{ rewrite <- Z.mul_sub_distr_l. apply signed_fits. lia. }
  cbn. assert (sign * l + Z.quot (sign * h - sign * l) 2 = sign * (l + (h - l) / 2)) as ->.
  { rewrite <- Z.mul_sub_distr_l.
    destruct sign_unit as [-> | ->]; Z.to_euclidean_division_equations; lia. }
  rewrite i256_op_small by (apply signed_fits; Z.to_euclidean_division_equations; lia). cbn.
  rewrite signed_mul_eqb. by destruct (_ =? _).
Qed.

Lemma signed_greater x y : x ≠ y → 0 ≤ x → 0 ≤ y →
  IntValueTree.magnitude_greater (sign * x) (sign * y) = negb (x <=? y).
Proof.
  intros Hne Hx Hy. unfold IntValueTree.magnitude_greater.
  destruct sign_unit as [-> | ->];
    repeat match goal with |- context [?a =? ?b] => destruct (Z.eqb_spec a b)
      | |- context [?a <? ?b] => destruct (Z.ltb_spec a b)
      | |- context [?a <=? ?b] => destruct (Z.leb_spec a b) end; cbn; try done; lia.
Qed.

(** On a collapsed interval the simplification gives up, whatever
    [magnitude_greater] says of equal values. *)
Lemma signed_collapsed v :
  UintValueTree.fixed v = false → UintValueTree.lo v = UintValueTree.hi v →
  UintValueTree.curr v = UintValueTree.hi v → 0 ≤ UintValueTree.hi v ≤ start →
  IntValueTree.simplify chk (signed v) = Some (signed v, false).
Proof.
  destruct v as [l c h f]. cbn. intros -> -> -> Hh. unfold IntValueTree.simplify. cbn.
  destruct (negb _); [done|].
  change (IntValueTree.mk (sign * h) (sign * h) (sign * h) false)
    with (signed (UintValueTree.mk h h h false)).
  rewrite signed_reposition by (cbn; lia).
  rewrite reposition_mid by (pose proof start_u256; cbn; lia).
  cbn. rewrite Z.sub_diag. rewrite (proj2 (Z.eqb_eq (h + 0 / 2) h)); [done|].
  apply Z.add_0_r.
Qed.

Lemma signed_search_step v :
  searching start abs_fails v →
  int_step chk fails (signed v) =
    '(v', moved) ← uint_step abs_fails v; Some (signed v', moved).
Proof.
  intros [Hr Hm Hh Hl Hf].
  assert (start ≤ 2 ^ 255) as Hmax.
  { unfold i256_min, i256_max in *. destruct sign_unit as [-> | ->]; lia. }
  unfold int_step, uint_step. cbn. change (fails (sign * _)) with (abs_fails (UintValueTree.curr v)).
  destruct (decide (UintValueTree.lo v = UintValueTree.hi v)) as [E|Hne].
  - assert (UintValueTree.curr v = UintValueTree.hi v) as Hc.
    { rewrite Hm, E, Z.sub_diag. apply Z.add_0_r. }
    rewrite Hc, Hh, signed_collapsed by (done || lia).
    unfold UintValueTree.simplify. rewrite Hf, (proj2 (Z.leb_le _ _)) by lia. done.
  - assert (UintValueTree.lo v ≤ UintValueTree.curr v < UintValueTree.hi v)
      by (Z.to_euclidean_division_equations; lia).
    unfold IntValueTree.simplify, IntValueTree.complicate, UintValueTree.simplify,
      UintValueTree.complicate. cbn.
    rewrite Hf, signed_greater, negb_involutive, (proj2 (Z.leb_gt _ _)) by lia. cbn.
    destruct (abs_fails (UintValueTree.curr v)).
    + change (IntValueTree.mk (sign * UintValueTree.lo v) (sign * UintValueTree.curr v)
        (sign * UintValueTree.curr v) false) with
        (signed (UintValueTree.mk (UintValueTree.lo v) (UintValueTree.curr v)
           (UintValueTree.curr v) false)).
      rewrite signed_reposition by (cbn; lia). by destruct (UintValueTree.reposition _).
    + rewrite (proj2 (Z.eqb_neq _ i256_min)), (proj2 (Z.eqb_neq _ i256_max));
        [|unfold i256_min, i256_max in *; destruct sign_unit as [-> | ->]; lia..].
      cbn. rewrite wrap_u256_small by (unfold u256_max; lia).
      assert (sign * UintValueTree.curr v + (if sign * UintValueTree.hi v <? 0 then -1 else 1)
        = sign * (UintValueTree.curr v + 1)) as ->.
      { destruct (Z.ltb_spec (sign * UintValueTree.hi v) 0), sign_unit as [-> | ->]; lia. }
      rewrite i256_op_small by (apply signed_fits; lia). cbn.
      change (IntValueTree.mk (sign * (UintValueTree.curr v + 1)) (sign * UintValueTree.curr v)
        (sign * UintValueTree.hi v) false) with
        (signed (UintValueTree.mk (UintValueTree.curr v + 1) (UintValueTree.curr v)
           (UintValueTree.hi v) false)).
      rewrite signed_reposition by (cbn; lia). by destruct (UintValueTree.reposition _).
Qed.

Lemma signed_first_step :
  abs_fails start = true →
  int_step chk fails (signed (UintValueTree.new start false)) =
    '(v', moved) ← uint_step abs_fails (UintValueTree.new start false); Some (signed v', moved).
Proof.
  intros Hs. unfold int_step, uint_step. cbn. change (fails (sign * start)) with (abs_fails start).
  rewrite Hs. unfold IntValueTree.simplify, UintValueTree.simplify. cbn.
  destruct (decide (start = 0)) as [E|Hne].
  { rewrite E, (start_zero E). by cbn. }
  rewrite signed_greater, negb_involutive, (proj2 (Z.leb_gt _ _)) by lia.
  change (IntValueTree.mk (sign * 0) (sign * start) (sign * start) false) with
    (signed (UintValueTree.mk 0 start start false)).
  rewrite signed_reposition by (cbn; lia). by destruct (UintValueTree.reposition _).
Qed.

Lemma signed_drive n v :
  searching start abs_fails v →
  drive (int_step chk fails) n (signed v) = signed <$> drive (uint_step abs_fails) n v.
Proof.
  revert v. induction n as [|n IH]; intros v Hv; [done|].
  cbn [drive]. rewrite signed_search_step by done.
  destruct (search_step start abs_fails start_u256 v Hv) as (v' & moved & E & Hv'). rewrite E. cbn.
  destruct moved; [by apply IH, Hv'|done].
Qed.

Lemma int_drive :
  abs_fails start = true →
  ∃ v, drive (int_step chk fails) 258 (signed (UintValueTree.new start false)) = Some (signed v) ∧
    found start abs_fails v.
Proof.
  intros Hs. destruct (uint_drive start abs_fails start_u256 Hs) as (v & Hd & Hf). exists v. split; [|done].
  revert Hd. generalize 257%nat. intros n Hd. cbn [drive] in Hd |- *.
  rewrite signed_first_step by done.
  destruct (first_step start abs_fails start_u256 Hs) as (v1 & moved & E & Hv1).
  rewrite E in Hd |- *. cbn in Hd |- *.
  destruct moved; [by rewrite signed_drive, Hd|by injection Hd as ->].
Qed.
End int.

(** ** The values a strategy generates *)

Record draws_ok (bits : Z) (nfixtures : nat) (d : Draws) : Prop := {
  do_bias : 0 ≤ gen_bias d < 100;
  do_offset : 0 ≤ gen_offset d < 4;
  do_kind : 0 ≤ gen_kind d < 4;
  do_index : nfixtures = O ∨ (gen_index d < nfixtures)%nat;
  do_bits : 0 ≤ gen_bits d ≤ bits;
  do_higher : is_u128 (gen_higher d);
  do_lower : is_u128 (gen_lower d) }.

Lemma land_low x n : 0 ≤ n → Z.land x (Z.shiftl 1 n - 1) = x mod 2 ^ n.
Proof. intros Hn. rewrite <- Z.land_ones by done. by rewrite Z.ones_equiv, Z.shiftl_1_l. Qed.

Lemma from_randoms_eq higher lower :
  is_u128 higher → is_u128 lower → from_randoms higher lower = lower + 2 ^ 128 * higher.
Proof.
  assert (∀ x, is_u128 x → as_u64 (Z.land x mask64) + 2 ^ 64 * as_u64 (Z.shiftr x 64) = x) as Hx.
  { unfold is_u128, u128_max, as_u64, mask64. intros x Hx. rewrite land_low by lia.
    rewrite Z.shiftr_div_pow2 by lia.
    rewrite (Z.mod_small (x / 2 ^ 64)) by (Z.to_euclidean_division_equations; lia).
    change (2 ^ 65) with (2 ^ 64 * 2). rewrite Z.rem_mul_r by lia.
    rewrite Z.add_comm, Z.mul_comm. rewrite (Z.mul_comm (2 ^ 64) (_ mod 2)), Z_mod_plus_full.
    rewrite Zmod_mod. pose proof (Z.div_mod x (2 ^ 64)). lia. }
  intros Hh Hl. unfold from_randoms. cbn [from_limbs foldr].
  rewrite <- (Hx _ Hh) at 3. rewrite <- (Hx _ Hl) at 3. lia.
Qed.

Lemma cut_randoms_range x higher lower :
  0 ≤ x ≤ 256 → is_u128 higher → is_u128 lower →
  let '(h, l) := cut_randoms x higher lower in 0 ≤ from_randoms h l < 2 ^ x.
Proof.
  unfold cut_randoms, is_u128, u128_max. intros Hx Hh Hl.
  destruct (Z.ltb_spec x 128) as [H1|H1].
  - rewrite land_low by lia. pose proof (Z.mod_pos_bound lower (2 ^ x) ltac:(lia)).
    assert (2 ^ x ≤ 2 ^ 128) by (apply Z.pow_le_mono_r; lia).
    rewrite from_randoms_eq by (unfold is_u128, u128_max; lia). lia.
  - rewrite (proj2 (Z.leb_le 128 x) H1). cbn [andb]. destruct (Z.ltb_spec x 256) as [H2|H2].
    + rewrite land_low by lia. pose proof (Z.mod_pos_bound higher (2 ^ (x - 128)) ltac:(lia)).
      assert (2 ^ (x - 128) ≤ 2 ^ 128) by (apply Z.pow_le_mono_r; lia).
      rewrite from_randoms_eq by (unfold is_u128, u128_max; lia).
      assert (2 ^ x = 2 ^ (x - 128) * 2 ^ 128) as -> by (rewrite <- Z.pow_add_r by lia; f_equal; lia).
      lia.
    + assert (x = 256) as -> by lia. rewrite from_randoms_eq by (unfold is_u128, u128_max; lia).
      lia.
Qed.

(** Every number of at most [x] bits is the cut of some randoms. *)
Lemma cut_randoms_onto x v :
  0 ≤ x ≤ 256 → 0 ≤ v < 2 ^ x →
  let '(h, l) := cut_randoms x (v / 2 ^ 128) (v mod 2 ^ 128) in from_randoms h l = v.
Proof.
  unfold cut_randoms. intros Hx Hv.
  pose proof (Z.div_mod v (2 ^ 128) ltac:(lia)) as Hd.
  pose proof (Z.mod_pos_bound v (2 ^ 128) ltac:(lia)) as Hm.
  assert (0 ≤ v / 2 ^ 128) by (apply Z.div_pos; lia).
  destruct (Z.ltb_spec x 128) as [H1|H1].
  - assert (2 ^ x ≤ 2 ^ 128) by (apply Z.pow_le_mono_r; lia).
    rewrite land_low, (Z.mod_small v), (Z.mod_small v) by lia.
    rewrite from_randoms_eq by (unfold is_u128, u128_max; lia). lia.
  - assert (v / 2 ^ 128 < 2 ^ (x - 128)).
    { apply Z.div_lt_upper_bound; [lia|]. rewrite <- Z.pow_add_r by lia.
      replace (128 + (x - 128)) with x by lia; lia. }
    assert (2 ^ (x - 128) ≤ 2 ^ 128) by (apply Z.pow_le_mono_r; lia).
    rewrite (proj2 (Z.leb_le 128 x) H1). cbn [andb]. destruct (Z.ltb_spec x 256) as [Hx2|Hx2].
    + rewrite land_low, (Z.mod_small (v / 2 ^ 128)) by lia.
      rewrite from_randoms_eq by (unfold is_u128, u128_max; lia). lia.
    + rewrite from_randoms_eq by (unfold is_u128, u128_max; lia). lia.
Qed.

Section uint_strategy.
Import UintStrategy.
Context {DynSolValue : Type} (as_uint : DynSolValue → option (Z * Z)).
Variables (bits : Z) (fixtures : option (list DynSolValue)).
Hypothesis bits_range : 8 ≤ bits ≤ 256.
Hypothesis fixtures_range : ∀ f v n, f ∈ default [] fixtures → as_uint f = Some (v, n) →
  0 ≤ v < 2 ^ n.
Let s := new bits fixtures.

Lemma uint_type_max : type_max s = 2 ^ bits - 1.
Proof.
  unfold type_max, s, u256_max. cbn. destruct (Z.ltb_spec bits 256).
  - rewrite Z.shiftl_1_l, wrap_u256_small; [done|].
    assert (2 ^ bits ≤ 2 ^ 256) by (apply Z.pow_le_mono_r; lia). unfold u256_max. lia.
  - by replace bits with 256 by lia.
Qed.

Definition uint_generated (v : UintValueTree.t) : Prop :=
  ∃ x, v = UintValueTree.new x false ∧ 0 ≤ x < 2 ^ bits.

Lemma uint_random_range d n : draws_ok bits n d → uint_generated (generate_random_tree s d).
Proof.
  intros [_ _ _ _ Hb Hh Hl]. unfold generate_random_tree.
  pose proof (cut_randoms_range (gen_bits d) _ _ ltac:(lia) Hh Hl) as Hr.
  destruct (cut_randoms _ _ _) as [h l]. eexists. split; [done|].
  assert (2 ^ gen_bits d ≤ 2 ^ bits) by (apply Z.pow_le_mono_r; lia). lia.
Qed.

Lemma uint_tree_range d :
  draws_ok bits (length (default [] fixtures)) d →
  ∃ v, new_tree as_uint s d = Some v ∧ uint_generated v.
Proof.
  intros Hd. pose proof (uint_random_range d _ Hd) as Hrand. pose proof (do_offset _ _ _ Hd).
  assert (2 ^ 8 ≤ 2 ^ bits) by (apply Z.pow_le_mono_r; lia).
  unfold new_tree. destruct (_ <? _); [|destruct (_ <? _)]; [..|by eauto].
  - eexists. split; [done|]. unfold generate_edge_tree. rewrite uint_type_max.
    eexists. split; [done|]. unfold saturating_sub. destruct (gen_is_min d); lia.
  - unfold generate_fixtures_tree. case_bool_decide as He; [by eauto|].
    destruct (do_index _ _ _ Hd) as [Hn|Hn].
    { apply nil_length_inv in Hn. by rewrite <- Hn in He. }
    destruct (lookup_lt_is_Some_2 _ _ Hn) as [f Hf]. cbn. rewrite Hf. cbn.
    eexists. split; [done|]. destruct (as_uint f) as [[v n]|] eqn:Ef; [|done].
    destruct (Z.eqb_spec n bits) as [->|]; [|done].
    eexists. split; [done|]. eapply fixtures_range; [|done]. by eapply list_elem_of_lookup_2.
Qed.

Lemma uint_tree_onto v : 0 ≤ v < 2 ^ bits →
  ∃ d, draws_ok bits (length (default [] fixtures)) d ∧
    new_tree as_uint s d = Some (UintValueTree.new v false).
Proof.
  intros Hv. assert (2 ^ bits ≤ 2 ^ 256) by (apply Z.pow_le_mono_r; lia).
  exists (mk_draws 99 true 0 0 0 bits (v / 2 ^ 128) (v mod 2 ^ 128) true). split.
  - split; cbn; [lia..| |lia| |].
    + destruct (length (default [] fixtures)); [by left|right; lia].
    + unfold is_u128, u128_max. Z.to_euclidean_division_equations; lia.
    + unfold is_u128, u128_max. Z.to_euclidean_division_equations; lia.
  - unfold new_tree, generate_random_tree. cbn -[cut_randoms from_randoms].
    pose proof (cut_randoms_onto bits v ltac:(lia) Hv) as E.
    destruct (cut_randoms _ _ _). by rewrite E.
Qed.
End uint_strategy.

Section int_strategy.
Import IntStrategy.
Context {DynSolValue : Type} (as_int : DynSolValue → option (Z * Z)).
Variables (chk : bool) (bits : Z) (fixtures : option (list DynSolValue)).
Hypothesis bits_range : 8 ≤ bits ≤ 256.
Hypothesis fixtures_range : ∀ f v n, f ∈ default [] fixtures → as_int f = Some (v, n) →
  - 2 ^ (n - 1) ≤ v < 2 ^ (n - 1).
Let s := new bits fixtures.

Definition int_generated (v : IntValueTree.t) : Prop :=
  ∃ x, v = IntValueTree.new x false ∧ - 2 ^ (bits - 1) ≤ x < 2 ^ (bits - 1).

Lemma int_half_range : 2 ^ 7 ≤ 2 ^ (bits - 1) ≤ 2 ^ 255.
Proof. split; apply Z.pow_le_mono_r; lia. Qed.

Lemma from_sign_and_abs_eq (positive : bool) abs :
  0 ≤ abs < 2 ^ 255 → from_sign_and_abs positive abs = if positive then abs else - abs.
Proof.
  intros Ha. unfold from_sign_and_abs. apply wrap_i256_small.
  unfold i256_min, i256_max. destruct positive; lia.
Qed.

Lemma int_random_range d n : draws_ok bits n d → int_generated (generate_random_tree s d).
Proof.
  intros [_ _ _ _ Hb Hh Hl]. unfold generate_random_tree. pose proof int_half_range.
  destruct (Z.eqb_spec (gen_bits d) 0) as [|H0].
  { eexists. split; [done|]. lia. }
  pose proof (cut_randoms_range (gen_bits d - 1) _ _ ltac:(lia) Hh Hl) as Hr.
  destruct (cut_randoms _ _ _) as [h l]. eexists. split; [done|].
  assert (2 ^ (gen_bits d - 1) ≤ 2 ^ (bits - 1)) by (apply Z.pow_le_mono_r; lia).
  rewrite from_sign_and_abs_eq by lia. destruct (gen_positive d); lia.
Qed.

Lemma int_edge_tree d :
  0 ≤ gen_offset d < 4 →
  generate_edge_tree chk s d =
    match gen_kind d with
    | 0 => Some (IntValueTree.new (- 2 ^ (bits - 1) + gen_offset d) false)
    | 1 => Some (IntValueTree.new (- gen_offset d - 1) false)
    | 2 => Some (IntValueTree.new (gen_offset d) false)
    | 3 => Some (IntValueTree.new (2 ^ (bits - 1) - 1 - gen_offset d) false)
    | _ => None
    end.
Proof.
  intros Ho. pose proof int_half_range as Hp. unfold generate_edge_tree, s, new. cbn [IntStrategy.bits].
  rewrite Z.shiftl_1_l, (wrap_u256_small (2 ^ (bits - 1))) by (unfold u256_max; lia).
  rewrite (wrap_u256_small (2 ^ (bits - 1) - 1)) by (unfold u256_max; lia).
  rewrite (wrap_u256_small (_ - 1 + 1)) by (unfold u256_max; lia).
  rewrite Z.sub_simpl_r, (from_sign_and_abs_eq true) by lia.
  unfold from_sign_and_abs. rewrite (wrap_i256_small (- 2 ^ _)) by (unfold i256_min, i256_max; lia).
  rewrite !(i256_op_small chk) by (unfold i256_min, i256_max; lia). cbn.
  rewrite !(i256_op_small chk) by (unfold i256_min, i256_max; lia).
  repeat case_match; done.
Qed.

Lemma int_tree_range d :
  draws_ok bits (length (default [] fixtures)) d →
  ∃ v, new_tree as_int chk s d = Some v ∧ int_generated v.
Proof.
  intros Hd. pose proof (int_random_range d _ Hd) as Hrand. pose proof int_half_range.
  pose proof (do_offset _ _ _ Hd). pose proof (do_kind _ _ _ Hd).
  unfold new_tree. destruct (_ <? _); [|destruct (_ <? _)]; [..|by eauto].
  - rewrite int_edge_tree by done.
    assert (gen_kind d = 0 ∨ gen_kind d = 1 ∨ gen_kind d = 2 ∨ gen_kind d = 3) as Hk by lia.
    destruct Hk as [-> |[-> |[-> | ->]]];
      (eexists; split; [done|]; eexists; split; [done|]; lia).
  - unfold generate_fixtures_tree. case_bool_decide as He; [by eauto|].
    destruct (do_index _ _ _ Hd) as [Hn|Hn].
    { apply nil_length_inv in Hn. by rewrite <- Hn in He. }
    destruct (lookup_lt_is_Some_2 _ _ Hn) as [f Hf]. cbn. rewrite Hf. cbn.
    eexists. split; [done|]. destruct (as_int f) as [[v n]|] eqn:Ef; [|done].
    destruct (Z.eqb_spec n bits) as [->|]; [|done].
    eexists. split; [done|]. eapply fixtures_range; [|done]. by eapply list_elem_of_lookup_2.
Qed.

Lemma int_tree_onto v : - 2 ^ (bits - 1) ≤ v < 2 ^ (bits - 1) →
  ∃ d, draws_ok bits (length (default [] fixtures)) d ∧
    new_tree as_int chk s d = Some (IntValueTree.new v false).
Proof.
  intros Hv. pose proof int_half_range.
  assert (∀ bias h l positive, 0 ≤ bias < 100 → is_u128 h → is_u128 l →
    draws_ok bits (length (default [] fixtures)) (mk_draws bias true 0 0 0 bits h l positive)) as Hok.
  { intros. split; cbn; try done; try lia. }
  destruct (decide (v = - 2 ^ (bits - 1))) as [->|Hne].
  - exists (mk_draws 0 true 0 0 0 bits 0 0 true). split; [by apply Hok|].
    unfold new_tree. cbn [gen_bias]. change (0 <? edge_weight s) with true. cbn iota.
    rewrite int_edge_tree by done. cbn. by rewrite Z.add_0_r.
  - exists (mk_draws 99 true 0 0 0 bits (Z.abs v / 2 ^ 128) (Z.abs v mod 2 ^ 128) (0 <=? v)).
    split.
    + apply Hok; [lia|..]; unfold is_u128, u128_max; Z.to_euclidean_division_equations; lia.
    + unfold new_tree, generate_random_tree. cbn -[cut_randoms from_randoms].
      rewrite (proj2 (Z.eqb_neq bits 0)) by lia.
      pose proof (cut_randoms_onto (bits - 1) (Z.abs v) ltac:(lia) ltac:(lia)) as E.
      destruct (cut_randoms _ _ _). rewrite E, from_sign_and_abs_eq by lia.
      do 2 f_equal. destruct (Z.leb_spec 0 v); lia.
Qed.
End int_strategy.

(** ** The theorems *)

(** C20: Shrinking a failing integer ends within 258 steps of the documented
    protocol, without a panic, at a value that fails, is between 0 and the
    start, and is 0 or has a passing neighbour towards 0.  When the failures
    are closed under growing magnitude it is the failing value of least
    magnitude.  This holds for unsigned and for signed integers. *)
Theorem shrinking_finds_boundary (chk : bool) (fails : Z → bool) (start : Z) :
  fails start = true →
  (0 ≤ start ≤ u256_max →
   ∃ v, drive (uint_step fails) 258 (UintValueTree.new start false) = Some v ∧
     let c := UintValueTree.curr v in
     0 ≤ c ≤ start ∧ fails c = true ∧ (c = 0 ∨ fails (c - 1) = false) ∧
     ((∀ x y, 0 ≤ x ≤ y → fails x = true → fails y = true) →
      ∀ x, 0 ≤ x < c → fails x = false)) ∧
  (i256_min ≤ start ≤ i256_max →
   ∃ v, drive (int_step chk fails) 258 (IntValueTree.new start false) = Some v ∧
     let c := IntValueTree.curr v in
     (0 ≤ c ≤ start ∨ start ≤ c ≤ 0) ∧ fails c = true ∧
     (c = 0 ∨ fails (c - Z.sgn c) = false) ∧
     ((∀ x y, 0 ≤ Z.sgn start * x ≤ Z.sgn start * y → fails x = true → fails y = true) →
      ∀ x, 0 ≤ Z.sgn start * x < Z.abs c → fails x = false)).
Proof.
  intros Hs. split.
  - intros Hr. destruct (uint_drive start fails Hr Hs) as (v & Hd & Hv1 & Hv2 & Hv3).
    exists v. split; [done|]. cbn zeta. split_and!; [lia..|done|done|].
    intros Hup. by apply boundary_least.
  - intros Hr. set (sign := if start <? 0 then -1 else 1).
    assert ((sign = 1 ∨ sign = -1) ∧ sign * Z.abs start = start ∧ (Z.abs start = 0 → sign = 1)
      ∧ (start ≠ 0 → sign = Z.sgn start)) as (Hsign & Habs & H0 & Hsgn).
    { unfold sign. destruct (Z.ltb_spec start 0); lia. }
    destruct (int_drive sign (Z.abs start) chk fails Hsign ltac:(lia) H0) as (v & Hd & Hv).
    { unfold abs_fails. by rewrite Habs. }
    exists (signed sign v). split.
    { rewrite <- Hd. unfold signed. cbn. by rewrite Habs, Z.mul_0_r. }
    destruct Hv as (Hv1 & Hv2 & Hv3). unfold abs_fails in *. cbn.
    set (c := UintValueTree.curr v) in *. split_and!.
    + destruct Hsign as [-> | ->]; lia.
    + done.
    + destruct (decide (c = 0)) as [->|Hc]; [lia|]. right.
      destruct Hv3 as [|Hv3]; [done|]. rewrite <- Hv3. f_equal.
      destruct Hsign as [-> | ->]; lia.
    + intros Hup x Hx. destruct (decide (start = 0)) as [->|Hne].
      { replace c with 0 in Hx by lia. lia. }
      rewrite <- Hsgn in * by done.
      rewrite <- (boundary_least (λ y, fails (sign * y)) c) with (x := sign * x);
        [|intros a b Hab; apply Hup|done|]; destruct Hsign as [E | E]; rewrite E in *; try lia;
        f_equal; lia.
Qed.

Lemma shrinking_finds_boundary_witness :
  (λ x, 1000 <? x * x) (-2000) = true ∧
  ∃ v, drive (int_step true (λ x, 1000 <? x * x)) 258 (IntValueTree.new (-2000) false) = Some v ∧
    IntValueTree.curr v = -32.
Proof.
  split; [done|].
  destruct (shrinking_finds_boundary true (λ x, 1000 <? x * x) (-2000) eq_refl) as [_ H].
  destruct H as (v & Hd & _); [by split|]. exists v. split; [done|].
  vm_compute in Hd. by injection Hd as <-.
Defined.

(** C39: For every bit size a Solidity integer has, the strategies never panic
    and generate only values of the type, whatever the generator draws, if the
    fixtures are values of their types; and every value of the type, the
    extreme ones included, is generated by some draw. *)
Theorem strategies_cover_type {DynSolValue : Type} (as_uint as_int : DynSolValue → option (Z * Z))
    (chk : bool) (bits : Z) (fixtures : option (list DynSolValue)) :
  8 ≤ bits ≤ 256 →
  (∀ f v n, f ∈ default [] fixtures → as_uint f = Some (v, n) → 0 ≤ v < 2 ^ n) →
  (∀ f v n, f ∈ default [] fixtures → as_int f = Some (v, n) →
     - 2 ^ (n - 1) ≤ v < 2 ^ (n - 1)) →
  let ok := draws_ok bits (length (default [] fixtures)) in
  let ustrat := UintStrategy.new bits fixtures in
  let istrat := IntStrategy.new bits fixtures in
  (∀ d, ok d → ∃ x, UintStrategy.new_tree as_uint ustrat d = Some (UintValueTree.new x false) ∧
     0 ≤ x < 2 ^ bits) ∧
  (∀ x, 0 ≤ x < 2 ^ bits →
     ∃ d, ok d ∧ UintStrategy.new_tree as_uint ustrat d = Some (UintValueTree.new x false)) ∧
  (∀ d, ok d → ∃ x, IntStrategy.new_tree as_int chk istrat d = Some (IntValueTree.new x false) ∧
     - 2 ^ (bits - 1) ≤ x < 2 ^ (bits - 1)) ∧
  (∀ x, - 2 ^ (bits - 1) ≤ x < 2 ^ (bits - 1) →
     ∃ d, ok d ∧ IntStrategy.new_tree as_int chk istrat d = Some (IntValueTree.new x false)).
Proof.
  intros Hb Hfu Hfi. split_and!.
  - intros d Hd. destruct (uint_tree_range as_uint bits fixtures Hb Hfu d Hd) as (v & E & x & -> & Hx).
    by exists x.
  - intros x Hx. by apply uint_tree_onto.
  - intros d Hd.
    destruct (int_tree_range as_int chk bits fixtures Hb Hfi d Hd) as (v & E & x & -> & Hx).
    by exists x.
  - intros x Hx. by apply int_tree_onto.
Qed.

(** Fixtures of the sample: a value with its size. *)
Lemma strategies_cover_type_witness :
  ∃ d, draws_ok 8 1 d ∧
    IntStrategy.new_tree (λ f : Z * Z, Some f) true (IntStrategy.new 8 (Some [(5, 8)])) d =
      Some (IntValueTree.new (-128) false).
Proof.
  pose proof (strategies_cover_type (λ f : Z * Z, Some f) (λ f, Some f) true 8 (Some [(5, 8)]))
    as (_ & _ & _ & H).
  - lia.
  - intros f v n Hf [= ->]. apply list_elem_of_singleton in Hf as [= -> ->]. done.
  - intros f v n Hf [= ->]. apply list_elem_of_singleton in Hf as [= -> ->]. done.
  - apply H. done.
Defined.
