(* ===== verification/Paths.v ===== *)
(** Paths (the standard library's [std::path] on Unix) and their
    normalization ([normalize_path] of common/src/fs.rs).

    A path is the list of its components, which is what its comparison, its
    order and [starts_with] look at. *)
From Stdlib Require Strings.Ascii.
From stdpp Require Export strings.
Export Strings.Ascii (ascii(..)).
Export (notations) Strings.Ascii.
From S2P Require Import Prelude.

Inductive Component :=
  | RootDir
  | CurDir
  | ParentDir
  | Normal (s : string).

#[export] Instance component_eq_dec : EqDecision Component.
Proof. solve_decision. Defined.

#[export] Instance component_countable : Countable Component.
Proof.
  refine (inj_countable'
    (λ c, match c with RootDir => inl 0%nat | CurDir => inl 1%nat | ParentDir => inl 2%nat
          | Normal s => inr s end)
    (λ x, match x with inl 0%nat => RootDir | inl 1%nat => CurDir | inl _ => ParentDir
          | inr s => Normal s end) _).
  by intros [].
Defined.

Abbreviation Path := (list Component).

(** ** Strings *)

(** [s.split(c)]; there is always a first piece. *)
Fixpoint split_on (c : ascii) (s : string) : string * list string :=
  match s with
  | EmptyString => (EmptyString, [])
  | String a s' =>
      let '(w, ws) := split_on c s' in
      if Ascii.eqb a c then (EmptyString, w :: ws) else (String a w, ws)
  end.

Definition split (c : ascii) (s : string) : list string :=
  let '(w, ws) := split_on c s in w :: ws.

(** [s.split(c).next().unwrap()] *)
Definition split_first (c : ascii) (s : string) : string := fst (split_on c s).

(** ** Components *)

Definition to_component (s : string) : Component :=
  if String.eqb s ".." then ParentDir else Normal s.

Definition is_piece (s : string) : bool :=
  negb (String.eqb s EmptyString) && negb (String.eqb s ".").

(** [Path::new(s)]: repeated separators and inner [.] disappear. *)
Definition path_new (s : string) : Path :=
  let '(w, ws) := split_on "/"%char s in
  let rest := to_component <$> filter (λ p, is_piece p) ws in
  if String.eqb w EmptyString then
    (match ws with [] => [] | _ => RootDir :: rest end)
  else if String.eqb w "." then CurDir :: rest
  else to_component w :: rest.

Definition component_rank (c : Component) : nat :=
  match c with RootDir => 0 | CurDir => 1 | ParentDir => 2 | Normal _ => 3 end.

Definition component_cmp (a b : Component) : comparison :=
  match a, b with
  | Normal x, Normal y => String.compare x y
  | _, _ => Nat.compare (component_rank a) (component_rank b)
  end.

Fixpoint path_cmp (p q : Path) : comparison :=
  match p, q with
  | [], [] => Eq
  | [], _ => Lt
  | _, [] => Gt
  | a :: p, b :: q => match component_cmp a b with Eq => path_cmp p q | c => c end
  end.

Definition path_ltb (p q : Path) : bool :=
  match path_cmp p q with Lt => true | _ => false end.

Fixpoint strip_prefix (p base : Path) {struct base} : option Path :=
  match base, p with
  | [], _ => Some p
  | b :: base, a :: p => if decide (a = b) then strip_prefix p base else None
  | _ :: _, [] => None
  end.

Definition starts_with (p base : Path) : bool :=
  match strip_prefix p base with Some _ => true | None => false end.

(** [id.source.ends_with(path)] *)
Definition ends_with (p suffix : Path) : bool := starts_with (reverse p) (reverse suffix).

Definition is_absolute (p : Path) : bool :=
  match p with RootDir :: _ => true | _ => false end.

(** [base.join(p)] *)
Definition join (base p : Path) : Path :=
  match p, base with
  | RootDir :: _, _ => p
  | _, [] => p
  | CurDir :: p', _ => base ++ p'
  | _, _ => base ++ p
  end.

(** [ret.pop()] *)
Definition pop (p : Path) : Path :=
  match last p with
  | Some RootDir | None => p
  | Some _ => take (pred (length p)) p
  end.

(** Unix paths have no prefix component. *)
Definition normalize_step (ret : Path) (c : Component) : Path :=
  match c with
  | RootDir => [RootDir]
  | CurDir => ret
  | ParentDir => pop ret
  | Normal s => ret ++ [Normal s]
  end.

Definition normalize_path (p : Path) : Path := foldl normalize_step [] p.

(** ** Lemmas *)

Lemma strip_prefix_Some p base r : strip_prefix p base = Some r ↔ p = base ++ r.
Proof.
  revert p. induction base as [|b base IH]; intros p; cbn.
  { split; [by intros [= ->]|by intros ->]. }
  destruct p as [|a p]; [by split|]. destruct (decide (a = b)) as [->|Hne].
  - rewrite IH. split; [by intros ->|by intros [= ->]].
  - split; [done|by intros [= -> _]].
Qed.

Lemma starts_with_spec p base : starts_with p base = true ↔ base `prefix_of` p.
Proof.
  unfold starts_with. destruct (strip_prefix p base) as [r|] eqn:E.
  - apply strip_prefix_Some in E. split; [intros _; by exists r|done].
  - split; [done|]. intros [r Hr]. apply strip_prefix_Some in Hr. by rewrite Hr in E.
Qed.

Lemma component_cmp_refl a : component_cmp a a = Eq.
Proof.
  destruct a as [| | |s]; cbn; try done. pose proof (String.compare_antisym s s) as H.
  by destruct (String.compare s s).
Qed.

Lemma component_cmp_eq a b : component_cmp a b = Eq → a = b.
Proof.
  destruct a, b; cbn; try done. intros H. f_equal. by apply String.compare_eq_iff.
Qed.

Lemma path_cmp_eq p q : path_cmp p q = Eq ↔ p = q.
Proof.
  split.
  - revert q. induction p as [|a p IH]; intros [|b q]; cbn; try done.
    destruct (component_cmp a b) eqn:E; try done. apply component_cmp_eq in E as ->.
    intros ?%IH. by subst.
  - intros ->. induction q as [|a q IH]; [done|]. cbn. by rewrite component_cmp_refl.
Qed.

(** Of two ancestors of a path the greater one is the deeper one. *)
Lemma path_cmp_prefixes p q r :
  p `prefix_of` r → q `prefix_of` r → path_cmp p q = Nat.compare (length p) (length q).
Proof.
  revert q r. induction p as [|a p IH]; intros [|b q] r Hp Hq; try done.
  destruct Hp as [p' ->]. apply prefix_cons_inv_1 in Hq as Ha. apply prefix_cons_inv_2 in Hq.
  subst b. cbn. rewrite component_cmp_refl. apply (IH q (p ++ p')); [by exists p'|done].
Qed.

Lemma prefixes_length_eq {A} (p q r : list A) :
  p `prefix_of` r → q `prefix_of` r → length p = length q → p = q.
Proof. intros [p' ->] [q' Hq] Hl. by apply app_inj_1 in Hq as [-> _]. Qed.

(** ** Normal paths *)

(** An absolute path without [.] and [..]. *)
Definition normal_path (p : Path) : Prop := ∃ ss, p = RootDir :: (Normal <$> ss).

Lemma pop_normal p : normal_path p → normal_path (pop p).
Proof.
  intros [ss ->]. destruct ss as [|s ss' _] using rev_ind; [by exists []|].
  assert (RootDir :: (Normal <$> ss' ++ [s]) = (RootDir :: (Normal <$> ss')) ++ [Normal s]) as ->
    by (by rewrite fmap_app).
  unfold pop. rewrite last_snoc, length_app, Nat.add_1_r, Nat.pred_succ, take_app_length.
  by exists ss'.
Qed.

Lemma normalize_step_normal ret c : normal_path ret → normal_path (normalize_step ret c).
Proof.
  intros Hr. destruct c; cbn; [by exists []|done|by apply pop_normal|].
  destruct Hr as [ss ->]. exists (ss ++ [s]). by rewrite fmap_app.
Qed.

Lemma normalize_path_normal p : is_absolute p = true → normal_path (normalize_path p).
Proof.
  destruct p as [|[] p]; try done. intros _. unfold normalize_path. cbn.
  assert (normal_path [RootDir]) as H by (by exists []). revert H. generalize [RootDir].
  induction p as [|c p IH]; intros ret H; cbn; [done|]. by apply IH, normalize_step_normal.
Qed.

(** A normal path is its own normalization. *)
Lemma normalize_path_id p : normal_path p → normalize_path p = p.
Proof.
  intros [ss ->]. unfold normalize_path. cbn.
  assert (∀ ret, foldl normalize_step ret (Normal <$> ss) = ret ++ (Normal <$> ss)) as ->; [|done].
  induction ss as [|s ss IH]; intros ret; cbn; [by rewrite app_nil_r|].
  rewrite IH, <- app_assoc. done.
Qed.

Lemma join_absolute base p : is_absolute base = true → is_absolute (join base p) = true.
Proof. destruct base as [|[] base]; try done. by destruct p as [|[] p]. Qed.
