(* ===== verification/FsAccess.v ===== *)
(** File system access of the cheatcodes: the permissions
    (config/src/fs_permissions.rs), the checks on a path
    (cheatcodes/src/config.rs), and the file system cheatcodes
    (cheatcodes/src/fs.rs, and the writers of json.rs and toml.rs).

    The file system is a parameter that answers calls; a run records the calls
    it makes.  A cheatcode returns the value it encodes. *)
From S2P Require Import Prelude Transaction Paths.

(** ** Permissions *)

Inductive FsAccessKind := KRead | KWrite.

Inductive FsAccessPermission := PNone | PReadWrite | PRead | PWrite.

#[export] Instance permission_eq_dec : EqDecision FsAccessPermission.
Proof. solve_decision. Defined.

Definition is_granted (p : FsAccessPermission) (kind : FsAccessKind) : bool :=
  match p, kind with
  | PReadWrite, _ => true
  | PNone, _ => false
  | PRead, KRead => true
  | PWrite, KWrite => true
  | _, _ => false
  end.

Definition permission_from_str (s : string) : result FsAccessPermission string :=
  if String.eqb s "true" || String.eqb s "read-write" || String.eqb s "readwrite" then Ok PReadWrite
  else if String.eqb s "false" || String.eqb s "none" then Ok PNone
  else if String.eqb s "read" then Ok PRead
  else if String.eqb s "write" then Ok PWrite
  else Err (String.append "Unknown variant " s).

Definition permission_display (p : FsAccessPermission) : string :=
  match p with
  | PReadWrite => "read-write" | PNone => "none" | PRead => "read" | PWrite => "write"
  end.

(** The serialized form: a boolean or a string. *)
Inductive Status := SBool (b : bool) | SString (s : string).

Definition permission_serialize (p : FsAccessPermission) : Status :=
  match p with
  | PReadWrite => SBool true | PNone => SBool false
  | PRead => SString "read" | PWrite => SString "write"
  end.

Definition permission_deserialize (s : Status) : result FsAccessPermission string :=
  match s with
  | SBool enabled => Ok (if enabled then PReadWrite else PNone)
  | SString val => permission_from_str val
  end.

Module PathPermission.
Record t := mk { access : FsAccessPermission; path : Path }.
End PathPermission.

Module FsPermissions.
Record t := mk { permissions : list PathPermission.t }.

Definition add (ps : t) (p : PathPermission.t) : t := mk (permissions ps ++ [p]).

Section canonicalize.
(** [dunce::canonicalize] on the current file system. *)
Context (canonicalize : Path → option Path).

Definition resolved (p : PathPermission.t) : Path :=
  default (PathPermission.path p) (canonicalize (PathPermission.path p)).

Definition find_step (path : Path) (active : option PathPermission.t) (perm : PathPermission.t) :
    option PathPermission.t :=
  if starts_with path (resolved perm) then
    match active with
    | Some active_perm =>
        if path_ltb (PathPermission.path perm) (PathPermission.path active_perm) then active
        else Some perm
    | None => Some perm
    end
  else active.

Definition find_permission (ps : t) (path : Path) : option FsAccessPermission :=
  PathPermission.access <$> foldl (find_step path) None (permissions ps).

Definition is_path_allowed (ps : t) (path : Path) (kind : FsAccessKind) : bool :=
  default false ((λ perm, is_granted perm kind) <$> find_permission ps path).
End canonicalize.

Definition join_all (ps : t) (root : Path) : t :=
  mk ((λ perm, PathPermission.mk (PathPermission.access perm)
                 (join root (PathPermission.path perm))) <$> permissions ps).

Definition remove (ps : t) (path : Path) : t :=
  mk (filter (λ perm, PathPermission.path perm ≠ path) (permissions ps)).
End FsPermissions.

(** ** Calls of the file system *)

Record Metadata := mk_metadata { md_is_dir : bool; md_is_symlink : bool; md_len : Z;
  md_readonly : bool; md_modified : option Z; md_accessed : option Z; md_created : option Z }.

(** An entry of [WalkDir], or an error with the path it names. *)
Inductive WalkEntry :=
  | WalkOk (path : string) (depth : Z) (is_dir is_symlink : bool)
  | WalkErr (message : string) (path : option string) (depth : Z).

Record Output := mk_output { out_stdout : Bytes; out_stderr : Bytes; out_code : option Z }.

(** [Reader] is an open file. *)
Inductive FsCall (Reader : Type) : Type → Type :=
  | Exists (p : Path) : FsCall Reader bool
  | GetMetadata (p : Path) : FsCall Reader Metadata
  | IsDir (p : Path) : FsCall Reader bool
  | IsFile (p : Path) : FsCall Reader bool
  | Copy (from to : Path) : FsCall Reader Z
  | CreateDir (p : Path) : FsCall Reader ()
  | CreateDirAll (p : Path) : FsCall Reader ()
  | ReadToString (p : Path) : FsCall Reader string
  | ReadBytes (p : Path) : FsCall Reader Bytes
  | Open (p : Path) : FsCall Reader Reader
  | ReadLine (p : Path) (r : Reader) : FsCall Reader string
  | ReadLink (p : Path) : FsCall Reader string
  | RemoveDir (p : Path) : FsCall Reader ()
  | RemoveDirAll (p : Path) : FsCall Reader ()
  | RemoveFile (p : Path) : FsCall Reader ()
  | Write (p : Path) (contents : Bytes) : FsCall Reader ()
  | AppendLine (p : Path) (line : string) : FsCall Reader ()
  | Walk (p : Path) (max_depth : Z) (follow_links : bool) : FsCall Reader (list WalkEntry)
  | Command (dir : Path) (program : string) (args : list string) : FsCall Reader Output.
Arguments Exists {_}. Arguments GetMetadata {_}. Arguments IsDir {_}. Arguments IsFile {_}.
Arguments Copy {_}. Arguments CreateDir {_}. Arguments CreateDirAll {_}.
Arguments ReadToString {_}. Arguments ReadBytes {_}. Arguments Open {_}. Arguments ReadLine {_}.
Arguments ReadLink {_}. Arguments RemoveDir {_}. Arguments RemoveDirAll {_}.
Arguments RemoveFile {_}. Arguments Write {_}. Arguments AppendLine {_}. Arguments Walk {_}.
Arguments Command {_}.

Inductive SomeCall (Reader : Type) :=
  | Called (A : Type) (c : FsCall Reader A).
Arguments Called {_ _}.

Record Version := mk_version { v_major : Z; v_minor : Z; v_patch : Z; v_pre : string;
  v_build : string }.

#[export] Instance version_eq_dec : EqDecision Version.
Proof. solve_decision. Defined.

(** The file system and the libraries the cheatcodes call. *)
Class FileSystem (Fs Reader IoError : Type) := {
  canonicalize : Fs → Path → option Path;
  fs_call : ∀ {A}, FsCall Reader A → Fs → Fs * result A IoError;
  to_lowercase : string → string;
  as_bytes : string → Bytes;
  from_utf8 : Bytes → option string;
  str_trim : string → string;
  hex_decode : string → option Bytes;
  parse_version : string → option Version;
  parse_contract_object : string → option (option Bytes * option Bytes);
  json_pretty : string → option string;
  json_replace : string → string → string → option string;
  toml_format : string → option string;
  toml_replace : string → string → string → option string }.

(** ** The cheatcodes' state and effects *)

(** The fields of an artifact id and of its contract that are read. *)
Record Artifact := mk_artifact { art_name : string; art_source : Path; art_version : Version;
  art_profile : string; art_bytecode : option Bytes; art_deployed_bytecode : option Bytes }.

Module CheatsConfig.
Record t := mk { ffi : bool; artifacts_dir : Path; fs_permissions : FsPermissions.t; root : Path;
  available_artifacts : option (list Artifact); running_artifact : option Artifact }.
End CheatsConfig.

Inductive FsError (IoError : Type) :=
  | NotAllowed (path : Path) (kind : FsAccessKind)
  | FoundryToml
  | Io (e : IoError)
  | VersionError
  | NoMatchingArtifact
  | MultipleArtifacts
  | NoBytecode
  | InvalidArtifactPath
  | FormatError
  | FfiDisabled
  | EmptyCommand
  | Utf8Error.
Arguments NotAllowed {_}. Arguments FoundryToml {_}. Arguments Io {_}. Arguments VersionError {_}.
Arguments NoMatchingArtifact {_}. Arguments MultipleArtifacts {_}. Arguments NoBytecode {_}.
Arguments InvalidArtifactPath {_}. Arguments FormatError {_}. Arguments FfiDisabled {_}.
Arguments EmptyCommand {_}. Arguments Utf8Error {_}.

Module Cheats.
Record t (Fs Reader : Type) := mk { config : CheatsConfig.t;
  opened_read_files : gmap Path Reader; fs_commit : bool; fs : Fs;
  calls : list (SomeCall Reader) }.
Arguments mk {_ _}. Arguments config {_ _}. Arguments opened_read_files {_ _}.
Arguments fs_commit {_ _}. Arguments fs {_ _}. Arguments calls {_ _}.
End Cheats.

(** A cheatcode changes the state and gives a value or an error. *)
Definition Cheat (Fs Reader IoError A : Type) : Type :=
  Cheats.t Fs Reader → Cheats.t Fs Reader * result A (FsError IoError).

#[export] Instance cheat_ret {Fs Reader IoError} : MRet (Cheat Fs Reader IoError) :=
  λ A a st, (st, Ok a).
#[export] Instance cheat_bind {Fs Reader IoError} : MBind (Cheat Fs Reader IoError) :=
  λ A B k c st,
    match c st with
    | (st', Ok a) => k a st'
    | (st', Err e) => (st', Err e)
    end.

Section cheats.
Context {Fs Reader IoError : Type} `{FileSystem Fs Reader IoError}.
Abbreviation Cheat' := (Cheat Fs Reader IoError).
Abbreviation State := (Cheats.t Fs Reader).

Definition fail {A} (e : FsError IoError) : Cheat' A := λ st, (st, Err e).
Definition ensure (c : bool) (e : FsError IoError) : Cheat' () :=
  if c then mret () else fail e.
Definition ok_or {A} (o : option A) (e : FsError IoError) : Cheat' A :=
  match o with Some a => mret a | None => fail e end.
Definition get : Cheat' State := λ st, (st, Ok st).

(** A call of the file system, which is recorded. *)
Definition call {A} (c : FsCall Reader A) : Cheat' A := λ st,
  let '(fs', r) := fs_call c (Cheats.fs st) in
  (Cheats.mk (Cheats.config st) (Cheats.opened_read_files st) (Cheats.fs_commit st) fs'
     (Cheats.calls st ++ [Called c]),
   match r with Ok a => Ok a | Err e => Err (Io e) end).

(** [path.exists()] and the like answer [false] on an error. *)
Definition query (c : FsCall Reader bool) : Cheat' bool := λ st,
  match call c st with
  | (st', Ok b) => (st', Ok b)
  | (st', Err _) => (st', Ok false)
  end.

Definition set_opened (files : gmap Path Reader) : Cheat' () := λ st,
  (Cheats.mk (Cheats.config st) files (Cheats.fs_commit st) (Cheats.fs st) (Cheats.calls st), Ok ()).

(** ** Checks on a path (cheatcodes/src/config.rs) *)

Definition normalized_path (st : State) (path : Path) : Path :=
  let path := join (CheatsConfig.root (Cheats.config st)) path in
  default (normalize_path path) (canonicalize (Cheats.fs st) path).

Definition is_normalized_path_allowed (st : State) (path : Path) (kind : FsAccessKind) : bool :=
  FsPermissions.is_path_allowed (canonicalize (Cheats.fs st))
    (CheatsConfig.fs_permissions (Cheats.config st)) path kind.

Definition is_path_allowed (st : State) (path : Path) (kind : FsAccessKind) : bool :=
  is_normalized_path_allowed st (normalized_path st path) kind.

Definition ensure_path_allowed (path : Path) (kind : FsAccessKind) : Cheat' Path :=
  st ← get;
  let normalized := normalized_path st path in
  ensure (is_normalized_path_allowed st normalized kind)
    (NotAllowed (default path (strip_prefix normalized (CheatsConfig.root (Cheats.config st)))) kind);;
  mret normalized.

(** [Path::new(&p.to_string_lossy().to_lowercase())]: the separators are not
    affected. *)
Definition lowercase_path (p : Path) : Path :=
  (λ c, match c with Normal s => Normal (to_lowercase s) | _ => c end) <$> p.

Definition is_foundry_toml (st : State) (path : Path) : bool :=
  let foundry_toml := join (CheatsConfig.root (Cheats.config st)) (path_new "foundry.toml") in
  starts_with (lowercase_path foundry_toml) (lowercase_path path).

Definition ensure_not_foundry_toml (path : Path) : Cheat' () :=
  st ← get; ensure (negb (is_foundry_toml st path)) FoundryToml.

(** ** Values *)

Record FsMetadata := mk_fs_metadata { isDir : bool; isSymlink : bool; length_ : Z;
  readOnly : bool; modified : Z; accessed : Z; created : Z }.

Record DirEntry := mk_dir_entry { errorMessage : string; de_path : string; depth : Z;
  de_isDir : bool; de_isSymlink : bool }.

Record FfiResult := mk_ffi_result { exitCode : Z; stdout : Bytes; stderr : Bytes }.

Inductive FsVal :=
  | VUnit
  | VBool (b : bool)
  | VNum (n : Z)
  | VString (s : string)
  | VBytes (b : Bytes)
  | VMetadata (m : FsMetadata)
  | VEntries (es : list DirEntry)
  | VFfi (r : FfiResult).

(** Seconds of a time given in nanoseconds since the epoch; an error or a time
    before the epoch is 0. *)
Definition file_secs (t : option Z) : Z := Z.max 0 (default 0%Z t) / 1000000000.

Definition to_fs_metadata (m : Metadata) : FsMetadata :=
  mk_fs_metadata (md_is_dir m) (md_is_symlink m) (md_len m) (md_readonly m)
    (file_secs (md_modified m)) (file_secs (md_accessed m)) (file_secs (md_created m)).

Definition to_dir_entry (e : WalkEntry) : DirEntry :=
  match e with
  | WalkOk path depth is_dir is_symlink => mk_dir_entry "" path depth is_dir is_symlink
  | WalkErr message path depth => mk_dir_entry message (default EmptyString path) depth false false
  end.

(** [line.ends_with(c)] then [line.pop()]. *)
Fixpoint pop_char (c : ascii) (line : string) : option string :=
  match line with
  | EmptyString => None
  | String a EmptyString => if Ascii.eqb a c then Some EmptyString else None
  | String a line' => String a <$> pop_char c line'
  end.

Definition newline : ascii := "010"%char.
Definition carriage_return : ascii := "013"%char.

Definition trim_newline (line : string) : string :=
  match pop_char newline line with
  | Some line' => default line' (pop_char carriage_return line')
  | None => line
  end.

(** ** The handlers (cheatcodes/src/fs.rs) *)

Definition exists_apply (path : string) : Cheat' FsVal :=
  path ← ensure_path_allowed (path_new path) KRead;
  b ← query (Exists path);
  mret (VBool b).

Definition fsMetadata_apply (path : string) : Cheat' FsVal :=
  path ← ensure_path_allowed (path_new path) KRead;
  metadata ← call (GetMetadata path);
  mret (VMetadata (to_fs_metadata metadata)).

Definition isDir_apply (path : string) : Cheat' FsVal :=
  path ← ensure_path_allowed (path_new path) KRead;
  b ← query (IsDir path);
  mret (VBool b).

Definition isFile_apply (path : string) : Cheat' FsVal :=
  path ← ensure_path_allowed (path_new path) KRead;
  b ← query (IsFile path);
  mret (VBool b).

Definition closeFile_apply (path : string) : Cheat' FsVal :=
  path ← ensure_path_allowed (path_new path) KRead;
  st ← get;
  set_opened (delete path (Cheats.opened_read_files st));;
  mret VUnit.

Definition copyFile_apply (from to : string) : Cheat' FsVal :=
  from ← ensure_path_allowed (path_new from) KRead;
  to ← ensure_path_allowed (path_new to) KWrite;
  ensure_not_foundry_toml to;;
  n ← call (Copy from to);
  mret (VNum n).

Definition createDir_apply (path : string) (recursive : bool) : Cheat' FsVal :=
  path ← ensure_path_allowed (path_new path) KWrite;
  (if recursive then call (CreateDirAll path) else call (CreateDir path));;
  mret VUnit.

Definition read_dir (path : string) (max_depth : Z) (follow_links : bool) : Cheat' FsVal :=
  root ← ensure_path_allowed (path_new path) KRead;
  entries ← call (Walk root max_depth follow_links);
  mret (VEntries (to_dir_entry <$> entries)).

Definition readFile_apply (path : string) : Cheat' FsVal :=
  path ← ensure_path_allowed (path_new path) KRead;
  s ← call (ReadToString path);
  mret (VString s).

Definition readFileBinary_apply (path : string) : Cheat' FsVal :=
  path ← ensure_path_allowed (path_new path) KRead;
  b ← call (ReadBytes path);
  mret (VBytes b).

Definition open_reader (path : Path) : Cheat' Reader :=
  st ← get;
  match Cheats.opened_read_files st !! path with
  | Some reader => mret reader
  | None =>
      reader ← call (Open path);
      st ← get;
      set_opened (<[path := reader]> (Cheats.opened_read_files st));;
      mret reader
  end.

Definition readLine_apply (path : string) : Cheat' FsVal :=
  path ← ensure_path_allowed (path_new path) KRead;
  reader ← open_reader path;
  line ← call (ReadLine path reader);
  mret (VString (trim_newline line)).

Definition readLink_apply (linkPath : string) : Cheat' FsVal :=
  path ← ensure_path_allowed (path_new linkPath) KRead;
  target ← call (ReadLink path);
  mret (VString target).

Definition removeDir_apply (path : string) (recursive : bool) : Cheat' FsVal :=
  path ← ensure_path_allowed (path_new path) KWrite;
  (if recursive then call (RemoveDirAll path) else call (RemoveDir path));;
  mret VUnit.

Definition removeFile_apply (path : string) : Cheat' FsVal :=
  path ← ensure_path_allowed (path_new path) KWrite;
  ensure_not_foundry_toml path;;
  st ← get;
  set_opened (delete path (Cheats.opened_read_files st));;
  (if Cheats.fs_commit st then call (RemoveFile path) else mret ());;
  mret VUnit.

Definition write_file (path : string) (contents : Bytes) : Cheat' FsVal :=
  path ← ensure_path_allowed (path_new path) KWrite;
  ensure_not_foundry_toml path;;
  st ← get;
  (if Cheats.fs_commit st then call (Write path contents) else mret ());;
  mret VUnit.

Definition writeLine_apply (path line : string) : Cheat' FsVal :=
  path ← ensure_path_allowed (path_new path) KWrite;
  ensure_not_foundry_toml path;;
  st ← get;
  (if Cheats.fs_commit st then call (AppendLine path line) else mret ());;
  mret VUnit.

Definition ffi (input : list string) : Cheat' FfiResult :=
  st ← get;
  ensure (CheatsConfig.ffi (Cheats.config st)) FfiDisabled;;
  ensure (match input with program :: _ => negb (String.eqb program EmptyString) | [] => false end)
    EmptyCommand;;
  output ← call (Command (CheatsConfig.root (Cheats.config st)) (default EmptyString (head input))
                   (drop 1 input));
  trimmed ← ok_or (str_trim <$> from_utf8 (out_stdout output)) Utf8Error;
  mret (mk_ffi_result (default 69%Z (out_code output))
          (default (as_bytes trimmed) (hex_decode trimmed)) (out_stderr output)).

Definition ffi_apply (input : list string) : Cheat' FsVal :=
  output ← ffi input; mret (VBytes (stdout output)).

Definition tryFfi_apply (input : list string) : Cheat' FsVal :=
  res ← ffi input; mret (VFfi res).

(** *** Artifacts *)

Fixpoint drop_str (prefix s : string) : option string :=
  match prefix, s with
  | EmptyString, _ => Some s
  | String a prefix, String b s => if Ascii.eqb a b then drop_str prefix s else None
  | _, EmptyString => None
  end.

(** [s.replace(from, "")] with an iteration bound. *)
Fixpoint remove_str (fuel : nat) (from s : string) : string :=
  match fuel, s with
  | S n, String a s' =>
      match drop_str from s with
      | Some rest => remove_str n from rest
      | None => String a (remove_str n from s')
      end
  | _, _ => s
  end.

Fixpoint contains_char (c : ascii) (s : string) : bool :=
  match s with EmptyString => false | String a s => Ascii.eqb a c || contains_char c s end.

Fixpoint ends_with_str (suffix s : string) : bool :=
  String.eqb s suffix ||
  match s with EmptyString => false | String _ s => ends_with_str suffix s end.

Record ArtifactQuery := mk_query { q_file : option string; q_contract : option string;
  q_version : option string }.

(** The formats of an artifact path that is not a json file. *)
Definition parse_query (path : string) : ArtifactQuery :=
  let '(path_or_name, parts) := split_on ":"%char path in
  if contains_char "."%char path_or_name then
    match parts with
    | name_or_version :: parts =>
        if contains_char "."%char name_or_version
        then mk_query (Some path_or_name) None (Some name_or_version)
        else mk_query (Some path_or_name) (Some name_or_version) (head parts)
    | [] => mk_query (Some path_or_name) None None
    end
  else mk_query None (Some path_or_name) (head parts).

Definition artifact_matches (q : ArtifactQuery) (version : option Version) (a : Artifact) : bool :=
  match q_file q with Some path => ends_with (art_source a) (path_new path) | None => true end &&
  match q_contract q with
  | Some name => String.eqb (split_first "."%char (art_name a)) name
  | None => true
  end &&
  match version with
  | Some v => (v_minor (art_version a) =? v_minor v)%Z && (v_major (art_version a) =? v_major v)%Z &&
              (v_patch (art_version a) =? v_patch v)%Z
  | None => true
  end.

Definition select_artifact (running : option Artifact) (filtered : list Artifact) :
    result Artifact (FsError IoError) :=
  match filtered with
  | [] => Err NoMatchingArtifact
  | [artifact] => Ok artifact
  | _ =>
      match running with
      | None => Err MultipleArtifacts
      | Some running =>
          let by_version := filter (λ a, art_version a = art_version running) filtered in
          match by_version with
          | [artifact] => Ok artifact
          | _ =>
              match filter (λ a, art_profile a = art_profile running) by_version with
              | [artifact] => Ok artifact
              | _ => Err MultipleArtifacts
              end
          end
      end
  end.

Definition path_in_artifacts (q : ArtifactQuery) : option string :=
  match q_file q, q_contract q with
  | Some file, Some name => Some (file +:+ "/" +:+ name +:+ ".json")
  | None, Some name => Some (name +:+ ".sol/" +:+ name +:+ ".json")
  | Some file, None =>
      Some (file +:+ "/" +:+ remove_str (String.length file) ".sol" file +:+ ".json")
  | None, None => None
  end.

Definition read_artifact (path : Path) (deployed : bool) : Cheat' Bytes :=
  path ← ensure_path_allowed path KRead;
  data ← call (ReadToString path);
  artifact ← ok_or (parse_contract_object data) FormatError;
  ok_or (if deployed then snd artifact else fst artifact) NoBytecode.

Definition get_artifact_code (path : string) (deployed : bool) : Cheat' Bytes :=
  if ends_with_str ".json" path then read_artifact (path_new path) deployed
  else
    let q := parse_query path in
    version ← match q_version q with
              | Some v => version ← ok_or (parse_version v) VersionError; mret (Some version)
              | None => mret None
              end;
    st ← get;
    match CheatsConfig.available_artifacts (Cheats.config st) with
    | Some artifacts =>
        let filtered := filter (λ a, artifact_matches q version a) artifacts in
        match select_artifact (CheatsConfig.running_artifact (Cheats.config st)) filtered with
        | Ok artifact =>
            ok_or (if deployed then art_deployed_bytecode artifact else art_bytecode artifact)
              NoBytecode
        | Err e => fail e
        end
    | None =>
        p ← ok_or (path_in_artifacts q) InvalidArtifactPath;
        read_artifact (join (CheatsConfig.artifacts_dir (Cheats.config st)) (path_new p)) deployed
    end.

(** *** JSON and TOML files (cheatcodes/src/json.rs and toml.rs) *)

Definition writeJson_0_apply (json path : string) : Cheat' FsVal :=
  s ← ok_or (json_pretty json) FormatError;
  write_file path (as_bytes s).

Definition writeJson_1_apply (json path valueKey : string) : Cheat' FsVal :=
  data_path ← ensure_path_allowed (path_new path) KRead;
  data ← call (ReadToString data_path);
  s ← ok_or (json_replace json data valueKey) FormatError;
  write_file path (as_bytes s).

Definition writeToml_0_apply (json path : string) : Cheat' FsVal :=
  s ← ok_or (toml_format json) FormatError;
  write_file path (as_bytes s).

Definition writeToml_1_apply (json path valueKey : string) : Cheat' FsVal :=
  data_path ← ensure_path_allowed (path_new path) KRead;
  data ← call (ReadToString data_path);
  s ← ok_or (toml_replace json data valueKey) FormatError;
  write_file path (as_bytes s).

(** ** All of them *)

Inductive FsCheatcode :=
  | existsCall (path : string) | fsMetadataCall (path : string) | isDirCall (path : string)
  | isFileCall (path : string) | closeFileCall (path : string) | copyFileCall (from to : string)
  | createDirCall (path : string) (recursive : bool)
  | readDir_0Call (path : string) | readDir_1Call (path : string) (maxDepth : Z)
  | readDir_2Call (path : string) (maxDepth : Z) (followLinks : bool)
  | readFileCall (path : string) | readFileBinaryCall (path : string) | readLineCall (path : string)
  | readLinkCall (path : string) | removeDirCall (path : string) (recursive : bool)
  | removeFileCall (path : string) | writeFileCall (path data : string)
  | writeFileBinaryCall (path : string) (data : Bytes) | writeLineCall (path data : string)
  | getCodeCall (path : string) | getDeployedCodeCall (path : string)
  | ffiCall (input : list string) | tryFfiCall (input : list string)
  | writeJson_0Call (json path : string) | writeJson_1Call (json path valueKey : string)
  | writeToml_0Call (json path : string) | writeToml_1Call (json path valueKey : string).

Definition apply (c : FsCheatcode) : Cheat' FsVal :=
  match c with
  | existsCall path => exists_apply path
  | fsMetadataCall path => fsMetadata_apply path
  | isDirCall path => isDir_apply path
  | isFileCall path => isFile_apply path
  | closeFileCall path => closeFile_apply path
  | copyFileCall from to => copyFile_apply from to
  | createDirCall path recursive => createDir_apply path recursive
  | readDir_0Call path => read_dir path 1 false
  | readDir_1Call path maxDepth => read_dir path maxDepth false
  | readDir_2Call path maxDepth followLinks => read_dir path maxDepth followLinks
  | readFileCall path => readFile_apply path
  | readFileBinaryCall path => readFileBinary_apply path
  | readLineCall path => readLine_apply path
  | readLinkCall path => readLink_apply path
  | removeDirCall path recursive => removeDir_apply path recursive
  | removeFileCall path => removeFile_apply path
  | writeFileCall path data => write_file path (as_bytes data)
  | writeFileBinaryCall path data => write_file path data
  | writeLineCall path data => writeLine_apply path data
  | getCodeCall path => code ← get_artifact_code path false; mret (VBytes code)
  | getDeployedCodeCall path => code ← get_artifact_code path true; mret (VBytes code)
  | ffiCall input => ffi_apply input
  | tryFfiCall input => tryFfi_apply input
  | writeJson_0Call json path => writeJson_0_apply json path
  | writeJson_1Call json path valueKey => writeJson_1_apply json path valueKey
  | writeToml_0Call json path => writeToml_0_apply json path
  | writeToml_1Call json path valueKey => writeToml_1_apply json path valueKey
  end.
End cheats.
