(* ===== verification/FsTheorems.v ===== *)
(** What the file system cheatcodes may touch. *)
From S2P Require Import Prelude Transaction Paths FsAccess.

Create HintDb fs.

(** ** The permission that decides *)

Section longest.
Context (canonicalize : Path → option Path) (path : Path).
Implicit Types (p q : PathPermission.t) (ps : list PathPermission.t).

(** [a] decides for the permissions seen so far: it matches, no earlier one is
    deeper, every later one is less deep. *)
Definition decides ps (a : option PathPermission.t) : Prop :=
  match a with
  | None => ∀ q, q ∈ ps → ¬ PathPermission.path q `prefix_of` path
  | Some p =>
      ∃ l1 l2, ps = l1 ++ p :: l2 ∧ PathPermission.path p `prefix_of` path ∧
        (∀ q, q ∈ l1 → PathPermission.path q `prefix_of` path →
           length (PathPermission.path q) ≤ length (PathPermission.path p)) ∧
        (∀ q, q ∈ l2 → PathPermission.path q `prefix_of` path →
           length (PathPermission.path q) < length (PathPermission.path p))
  end.

Lemma find_step_decides ps a p :
  FsPermissions.resolved canonicalize p = PathPermission.path p →
  decides ps a → decides (ps ++ [p]) (FsPermissions.find_step canonicalize path a p).
Proof.
  intros Hr Ha. unfold FsPermissions.find_step. rewrite Hr.
  destruct (starts_with path (PathPermission.path p)) eqn:Hs.
  - apply starts_with_spec in Hs. destruct a as [b|]; cbn in Ha.
    + destruct Ha as (l1 & l2 & -> & Hb & H1 & H2). unfold path_ltb.
      rewrite (path_cmp_prefixes _ _ path) by done.
      destruct (Nat.compare_spec (length (PathPermission.path p)) (length (PathPermission.path b)))
        as [Hc|Hc|Hc].
      2:{ exists l1, (l2 ++ [p]). split_and!; [by rewrite <- app_assoc|done|done|].
          intros q [Hq|Hq%list_elem_of_singleton]%elem_of_app Hp; [by apply H2|by subst]. }
      all: exists (l1 ++ b :: l2), []; split_and!; [done|done| |by intros q ?%elem_of_nil].
      all: intros q [Hq|[-> |Hq]%elem_of_cons]%elem_of_app Hp;
        [specialize (H1 q Hq Hp)|lia|specialize (H2 q Hq Hp)]; lia.
    + exists ps, []. split_and!; [done|done| |by intros q ?%elem_of_nil].
      intros q Hq Hp. by destruct (Ha q Hq).
  - assert (¬ PathPermission.path p `prefix_of` path) as Hn.
    { intros Hp. apply starts_with_spec in Hp. by rewrite Hp in Hs. }
    destruct a as [b|]; cbn in Ha |- *.
    + destruct Ha as (l1 & l2 & -> & Hb & H1 & H2). exists l1, (l2 ++ [p]).
      split_and!; [by rewrite <- app_assoc|done|done|].
      intros q [Hq|Hq%list_elem_of_singleton]%elem_of_app Hp; [by apply H2|by subst].
    + intros q [Hq|Hq%list_elem_of_singleton]%elem_of_app; [by apply Ha|by subst].
Qed.

Lemma find_decides ps :
  (∀ p, p ∈ ps → FsPermissions.resolved canonicalize p = PathPermission.path p) →
  decides ps (foldl (FsPermissions.find_step canonicalize path) None ps).
Proof.
  induction ps as [|p ps IH] using rev_ind; intros Hps; [by intros q ?%elem_of_nil|].
  rewrite foldl_app. cbn. apply find_step_decides; [apply Hps; set_solver|].
  apply IH. intros q Hq. apply Hps. set_solver.
Qed.
End longest.

(** The permission found is one of the list, and its resolved path is an
    ancestor of the path, however the paths are written. *)
Lemma find_permission_sound canonicalize ps path a :
  FsPermissions.find_permission canonicalize ps path = Some a →
  ∃ p, p ∈ FsPermissions.permissions ps ∧ PathPermission.access p = a ∧
    FsPermissions.resolved canonicalize p `prefix_of` path.
Proof.
  unfold FsPermissions.find_permission. destruct ps as [ps]. cbn.
  intros (p & Hp & ->)%fmap_Some_1.
  assert (p ∈ ps ∧ FsPermissions.resolved canonicalize p `prefix_of` path) as []; [|by eauto].
  revert p Hp. induction ps as [|q ps IH] using rev_ind; intros p; [done|].
  rewrite foldl_app. cbn. unfold FsPermissions.find_step at 1.
  destruct (starts_with path _) eqn:Hs.
  - apply starts_with_spec in Hs.
    destruct (foldl _ None ps) as [b|]; [destruct (path_ltb _ _)|]; intros [= ->];
      [|set_solver..]. destruct (IH p); [done|]. set_solver.
  - intros Hp. destruct (IH p Hp). set_solver.
Qed.

(** ** Which calls a cheatcode may make *)

Section safety.
Context {Fs Reader IoError : Type} `{FileSystem Fs Reader IoError}.
Implicit Types (st : Cheats.t Fs Reader).

(** What the operating system documents: a canonical path is absolute and has
    no [.] or [..], and reading a file does not change what paths resolve to. *)
Class FileSystemLaws : Prop := {
  canonicalize_normal : ∀ fs p q, canonicalize fs p = Some q → normal_path q;
  read_keeps_paths : ∀ fs p q,
    canonicalize (fst (fs_call (ReadToString p) fs)) q = canonicalize fs q }.
Context `{!FileSystemLaws}.

(** Some permission of the configuration grants the access and its resolved
    path is an ancestor of [p], which has no [.] or [..]. *)
Definition permitted st (kind : FsAccessKind) (p : Path) : Prop :=
  normal_path p ∧
  ∃ perm, perm ∈ FsPermissions.permissions (CheatsConfig.fs_permissions (Cheats.config st)) ∧
    is_granted (PathPermission.access perm) kind = true ∧
    FsPermissions.resolved (canonicalize (Cheats.fs st)) perm `prefix_of` p.

Definition foundry_toml st : Path :=
  CheatsConfig.root (Cheats.config st) ++ [Normal "foundry.toml"].

(** Not the configuration file and not a directory above it. *)
Definition keeps_foundry_toml st (p : Path) : Prop := ¬ p `prefix_of` foundry_toml st.

Definition call_allowed st (c : SomeCall Reader) : Prop :=
  let 'Called c := c in
  match c with
  | Exists p | GetMetadata p | IsDir p | IsFile p | ReadToString p | ReadBytes p | Open p
  | ReadLine p _ | ReadLink p | Walk p _ _ => permitted st KRead p
  | Copy from to => permitted st KRead from ∧ permitted st KWrite to ∧ keeps_foundry_toml st to
  | CreateDir p | CreateDirAll p | RemoveDir p | RemoveDirAll p => permitted st KWrite p
  | RemoveFile p | Write p _ | AppendLine p _ =>
      permitted st KWrite p ∧ keeps_foundry_toml st p ∧ Cheats.fs_commit st = true
  | Command dir program _ =>
      CheatsConfig.ffi (Cheats.config st) = true ∧ dir = CheatsConfig.root (Cheats.config st) ∧
      program ≠ EmptyString
  end.

Variable st0 : Cheats.t Fs Reader.
Hypothesis root_absolute : is_absolute (CheatsConfig.root (Cheats.config st0)) = true.

(** [st] is reached from [st0] by allowed calls; the file system may have
    changed. *)
Record reached st : Prop := {
  re_config : Cheats.config st = Cheats.config st0;
  re_commit : Cheats.fs_commit st = Cheats.fs_commit st0;
  re_calls : ∃ new, Cheats.calls st = Cheats.calls st0 ++ new ∧ Forall (call_allowed st0) new }.

(** Only reads so far: paths resolve as in [st0]. *)
Definition synced st : Prop :=
  reached st ∧ ∀ q, canonicalize (Cheats.fs st) q = canonicalize (Cheats.fs st0) q.

(** From [P] the computation ends in [Q] or fails, by allowed calls only. *)
Definition triple {A} (P : Cheats.t Fs Reader → Prop) (c : Cheat Fs Reader IoError A)
    (Q : A → Cheats.t Fs Reader → Prop) : Prop :=
  ∀ st, P st → match c st with (st', Ok a) => Q a st' | (st', Err _) => reached st' end.

Lemma triple_bind {A B} P (c : Cheat Fs Reader IoError A) (k : A → Cheat Fs Reader IoError B) Q R :
  triple P c Q → (∀ a, triple (Q a) (k a) R) → triple P (c ≫= k) R.
Proof.
  intros Hc Hk st Hst. specialize (Hc st Hst). unfold mbind, cheat_bind.
  destruct (c st) as [st' [a|e]]; [by apply Hk|done].
Qed.

Lemma triple_ret {A} (P : Cheats.t Fs Reader → Prop) (a : A) Q :
  (∀ st, P st → Q a st) → triple P (mret a) Q.
Proof. intros H1 st Hst. by apply H1. Qed.

Lemma triple_weaken {A} (P P' : Cheats.t Fs Reader → Prop) (c : Cheat Fs Reader IoError A) Q :
  triple P c Q → (∀ st, P' st → P st) → triple P' c Q.
Proof. intros Hc Hp st Hst. by apply Hc, Hp. Qed.

Lemma synced_reached st : synced st → reached st.
Proof. by intros []. Qed.

Lemma triple_get P : triple P get (λ s st, P st ∧ s = st).
Proof. by intros st Hst. Qed.

Lemma triple_ensure (P : Cheats.t Fs Reader → Prop) (b : bool) e :
  (∀ st, P st → reached st) → triple P (ensure b e) (λ _ st, P st ∧ b = true).
Proof. intros HP st Hst. destruct b; cbn; [done|by apply HP]. Qed.

Lemma triple_fail {A} (P : Cheats.t Fs Reader → Prop) e (Q : A → Cheats.t Fs Reader → Prop) :
  (∀ st, P st → reached st) → triple P (fail e) Q.
Proof. intros HP st Hst. by apply HP. Qed.

Lemma triple_ok_or {A} (P : Cheats.t Fs Reader → Prop) (o : option A) e :
  (∀ st, P st → reached st) → triple P (ok_or o e) (λ _, P).
Proof. intros HP st Hst. destruct o; cbn; [done|by apply HP]. Qed.

Lemma call_reached {A} (c : FsCall Reader A) st :
  reached st → call_allowed st0 (Called c) → reached (fst (call c st)).
Proof.
  intros [Hc Hm (new & Hn & Hf)] Ha. unfold call. destruct (fs_call c _) as [fs' r]. cbn.
  split; cbn; [done..|]. exists (new ++ [Called c]). rewrite Hn, <- app_assoc. split; [done|].
  apply Forall_app. split; [done|]. by apply Forall_singleton.
Qed.

Lemma triple_call {A} (P : Cheats.t Fs Reader → Prop) (c : FsCall Reader A) :
  (∀ st, P st → reached st ∧ call_allowed st0 (Called c)) →
  triple P (call c) (λ _, reached).
Proof.
  intros HP st Hst. destruct (HP st Hst) as [Hr Ha]. pose proof (call_reached c st Hr Ha).
  by destruct (call c st) as [st' [a|e]].
Qed.

Lemma triple_query (P : Cheats.t Fs Reader → Prop) (c : FsCall Reader bool) :
  (∀ st, P st → reached st ∧ call_allowed st0 (Called c)) →
  triple P (query c) (λ _, reached).
Proof.
  intros HP st Hst. destruct (HP st Hst) as [Hr Ha]. pose proof (call_reached c st Hr Ha).
  unfold query. by destruct (call c st) as [st' [a|e]].
Qed.

Lemma triple_read (P : Cheats.t Fs Reader → Prop) p :
  (∀ st, P st → synced st ∧ permitted st0 KRead p) →
  triple P (call (ReadToString p)) (λ _, synced).
Proof.
  intros HP st Hst. destruct (HP st Hst) as [[Hr Hs] Ha].
  pose proof (call_reached (ReadToString p) st Hr Ha) as Hc.
  pose proof (read_keeps_paths (Cheats.fs st) p) as Hk. unfold call in *.
  destruct (fs_call _ _) as [fs' [a|e]]; cbn in *; [|done].
  split; [done|]. intros q. cbn. by rewrite Hk, Hs.
Qed.

Lemma triple_set_opened (P : Cheats.t Fs Reader → Prop) files :
  (∀ st, P st → reached st) → triple P (set_opened files) (λ _, reached).
Proof. intros HP st Hst. destruct (HP st Hst). by split. Qed.

Lemma permitted_intro st p kind :
  synced st →
  is_normalized_path_allowed st (normalized_path st p) kind = true →
  permitted st0 kind (normalized_path st p).
Proof.
  intros [[Hc _ _] Hs] Ha. split.
  - unfold normalized_path. rewrite Hc.
    destruct (canonicalize _ _) as [q|] eqn:E; [by eapply canonicalize_normal|].
    by apply normalize_path_normal, join_absolute.
  - unfold is_normalized_path_allowed, FsPermissions.is_path_allowed in Ha. rewrite Hc in Ha.
    destruct (FsPermissions.find_permission _ _ _) as [a|] eqn:E; cbn in Ha; [|done].
    apply find_permission_sound in E as (perm & Hin & <- & Hp). exists perm. split_and!; [done..|].
    unfold FsPermissions.resolved in *. by rewrite <- Hs.
Qed.

Lemma triple_ensure_path_allowed p kind :
  triple synced (ensure_path_allowed p kind) (λ p' st, synced st ∧ permitted st0 kind p').
Proof.
  intros st Hst. unfold ensure_path_allowed, mbind, cheat_bind, get, ensure. cbv beta iota.
  destruct (is_normalized_path_allowed st (normalized_path st p) kind) eqn:E; cbn; [|by apply synced_reached].
  split; [done|]. by apply permitted_intro.
Qed.

Lemma foundry_toml_join :
  join (CheatsConfig.root (Cheats.config st0)) (path_new "foundry.toml") = foundry_toml st0.
Proof.
  unfold foundry_toml. destruct (CheatsConfig.root _) as [|[] root]; done.
Qed.

Lemma not_foundry_toml st p :
  reached st → is_foundry_toml st p = false → keeps_foundry_toml st0 p.
Proof.
  intros [Hc _ _] Hf [r Hr]. unfold is_foundry_toml in Hf.
  rewrite Hc, foundry_toml_join, Hr in Hf. apply not_true_iff_false in Hf. apply Hf.
  apply starts_with_spec. unfold lowercase_path. rewrite fmap_app. by eexists.
Qed.

Lemma triple_ensure_not_foundry_toml (P : Cheats.t Fs Reader → Prop) p :
  (∀ st, P st → reached st) →
  triple P (ensure_not_foundry_toml p) (λ _ st, P st ∧ keeps_foundry_toml st0 p).
Proof.
  intros HP st Hst. unfold ensure_not_foundry_toml, mbind, cheat_bind, get, ensure.
  destruct (is_foundry_toml st p) eqn:E; cbn; [by apply HP|].
  split; [done|]. eapply not_foundry_toml; [by apply HP|done].
Qed.

(** A check of a second path keeps what is known of the first. *)
Lemma triple_frame {A} P (F : Prop) (c : Cheat Fs Reader IoError A) Q :
  triple P c Q → triple (λ st, P st ∧ F) c (λ a st, Q a st ∧ F).
Proof.
  intros Hc st [Hst HF]. specialize (Hc st Hst). by destruct (c st) as [st' [a|e]].
Qed.

Opaque triple.

(** Side conditions: what is known of the current state implies the rest. *)
Ltac cheat_side :=
  solve [intros; destruct_and?; subst; cbn; split_and?;
         first [assumption | reflexivity | apply synced_reached; assumption
               | erewrite re_commit; eassumption ]
        | intros; destruct_and?; subst; cbn; split_and?;
          eauto using synced_reached, re_commit].

Ltac cheat_step :=
  first
    [ apply triple_ensure_path_allowed
    | eapply triple_weaken; [apply triple_ensure_path_allowed|cheat_side]
    | apply triple_ensure_not_foundry_toml; cheat_side
    | apply triple_get
    | apply triple_ok_or; cheat_side
    | apply triple_ensure; cheat_side
    | apply triple_query; cheat_side
    | apply triple_set_opened; cheat_side
    | apply triple_call; cheat_side
    | apply triple_ret; cheat_side
    | apply triple_fail; cheat_side ].

Ltac cheat_run := repeat (eapply triple_bind; [cheat_step|intros ?; cbv beta]); try cheat_step.

Abbreviation safe c := (triple synced c (λ _, reached)).

Lemma exists_safe path : safe (exists_apply path).
Proof. unfold exists_apply. cheat_run. Qed.

Lemma fsMetadata_safe path : safe (fsMetadata_apply path).
Proof. unfold fsMetadata_apply. cheat_run. Qed.

Lemma isDir_safe path : safe (isDir_apply path).
Proof. unfold isDir_apply. cheat_run. Qed.

Lemma isFile_safe path : safe (isFile_apply path).
Proof. unfold isFile_apply. cheat_run. Qed.

Lemma closeFile_safe path : safe (closeFile_apply path).
Proof. unfold closeFile_apply. cheat_run. Qed.

Lemma copyFile_safe from to : safe (copyFile_apply from to).
Proof.
  unfold copyFile_apply.
  eapply triple_bind; [cheat_step|intros from']. cbv beta.
  eapply triple_bind; [apply triple_frame; cheat_step|intros to'; cbv beta]. cheat_run.
Qed.

Lemma createDir_safe path recursive : safe (createDir_apply path recursive).
Proof. unfold createDir_apply. destruct recursive; cheat_run. Qed.

Lemma removeDir_safe path recursive : safe (removeDir_apply path recursive).
Proof. unfold removeDir_apply. destruct recursive; cheat_run. Qed.

Lemma read_dir_safe path max_depth follow_links : safe (read_dir path max_depth follow_links).
Proof. unfold read_dir. cheat_run. Qed.

Lemma readFile_safe path : safe (readFile_apply path).
Proof. unfold readFile_apply. cheat_run. Qed.

Lemma readFileBinary_safe path : safe (readFileBinary_apply path).
Proof. unfold readFileBinary_apply. cheat_run. Qed.

Lemma readLink_safe path : safe (readLink_apply path).
Proof. unfold readLink_apply. cheat_run. Qed.

Lemma open_reader_safe path :
  triple (λ st, synced st ∧ permitted st0 KRead path) (open_reader path)
    (λ _ st, reached st ∧ permitted st0 KRead path).
Proof.
  apply (triple_weaken (λ st, reached st ∧ permitted st0 KRead path)).
  2:{ intros st [? ?]. split; [by apply synced_reached|done]. }
  unfold open_reader. eapply triple_bind; [apply triple_get|intros st; cbv beta].
  destruct (_ !! path); [cheat_run|].
  eapply triple_bind.
  { apply (triple_weaken (λ st, (reached st ∧ permitted st0 KRead path) ∧ permitted st0 KRead path));
      [|cheat_side]. apply triple_frame, triple_call. cheat_side. }
  intros reader. cbv beta. eapply triple_bind; [apply triple_get|intros st'; cbv beta].
  eapply triple_bind.
  { apply (triple_weaken (λ st, reached st ∧ permitted st0 KRead path)); [|cheat_side].
    apply triple_frame, triple_set_opened. done. }
  intros ?. cbv beta. cheat_step.
Qed.

Lemma readLine_safe path : safe (readLine_apply path).
Proof.
  unfold readLine_apply. eapply triple_bind; [cheat_step|intros p; cbv beta].
  eapply triple_bind; [apply open_reader_safe|intros r; cbv beta]. cheat_run.
Qed.

(** A file is written or removed only when changes are committed. *)
Lemma triple_commit (b : bool) (P : Cheats.t Fs Reader → Prop) (c : FsCall Reader ()) :
  (∀ st, P st → reached st ∧ (b = true → call_allowed st0 (Called c))) →
  triple P (if b then call c else mret ()) (λ _, reached).
Proof.
  intros HP. destruct b; [apply triple_call|apply triple_ret]; intros st Hst; destruct (HP st Hst);
    [split; auto|done].
Qed.

Ltac commit_side :=
  intros; destruct_and?; subst; split; [by (assumption || apply synced_reached)|];
  intros; cbn; split_and?; try assumption; erewrite <- re_commit;
  [eassumption|by (assumption || apply synced_reached)].

Lemma write_file_safe path contents : safe (write_file path contents).
Proof.
  unfold write_file. do 3 (eapply triple_bind; [cheat_step|intros ?; cbv beta]).
  eapply triple_bind; [apply triple_commit; commit_side|intros ?; cbv beta]. cheat_step.
Qed.

Lemma writeLine_safe path line : safe (writeLine_apply path line).
Proof.
  unfold writeLine_apply. do 3 (eapply triple_bind; [cheat_step|intros ?; cbv beta]).
  eapply triple_bind; [apply triple_commit; commit_side|intros ?; cbv beta]. cheat_step.
Qed.

Lemma removeFile_safe path : safe (removeFile_apply path).
Proof.
  unfold removeFile_apply. do 3 (eapply triple_bind; [cheat_step|intros ?; cbv beta]).
  rename a1 into st1. eapply triple_bind.
  { apply (triple_weaken (λ st, reached st ∧
      (permitted st0 KWrite a ∧ keeps_foundry_toml st0 a ∧
       Cheats.fs_commit st1 = Cheats.fs_commit st0)));
      [apply triple_frame, triple_set_opened; done|].
    intros st [[[Hs Hp] Hk] ->]. split_and!; [by apply synced_reached|done..|].
    by apply re_commit, synced_reached. }
  intros ?. cbv beta.
  eapply triple_bind; [apply triple_commit|intros ?; cbv beta; cheat_step].
  intros st (Hr & Hp & Hk & Hc). split; [done|]. intros Hb. cbn. rewrite <- Hc. done.
Qed.

Lemma ffi_safe input : triple synced (ffi input) (λ _, reached).
Proof.
  unfold ffi. eapply triple_bind; [cheat_step|intros st; cbv beta].
  eapply triple_bind; [cheat_step|intros ?; cbv beta].
  eapply triple_bind; [cheat_step|intros ?; cbv beta].
  eapply triple_bind; [apply triple_call|intros ?; cbv beta; cheat_run].
  intros st' [[[Hs ->] Hf] Hi]. destruct Hs as [[Hc Hm Hn] Hs]. split; [by split|].
  cbn. rewrite <- Hc. split_and!; [done..|]. destruct input as [|p input]; [done|].
  intros E. cbn in E. by rewrite E in Hi.
Qed.

Lemma read_artifact_safe path deployed : triple synced (read_artifact path deployed) (λ _, reached).
Proof. unfold read_artifact. cheat_run. Qed.

Lemma get_artifact_code_safe path deployed :
  triple synced (get_artifact_code path deployed) (λ _, reached).
Proof.
  unfold get_artifact_code. destruct (ends_with_str _ _); [apply read_artifact_safe|].
  eapply (triple_bind _ _ _ (λ _, synced)).
  { destruct (q_version _); [|cheat_step].
    eapply triple_bind; [cheat_step|intros ?; cbv beta]. cheat_step. }
  intros version. cbv beta. eapply triple_bind; [cheat_step|intros st; cbv beta].
  destruct (CheatsConfig.available_artifacts _) as [artifacts|].
  - destruct (select_artifact _ _); [|cheat_step]. 
    eapply triple_weaken with (P := reached); [apply triple_ok_or; done|cheat_side].
  - eapply triple_bind; [cheat_step|intros p; cbv beta].
    eapply triple_weaken; [apply read_artifact_safe|cheat_side].
Qed.

Lemma replace_safe (path : string) (f : string → option string) :
  safe (data_path ← ensure_path_allowed (path_new path) KRead;
        data ← call (ReadToString data_path);
        s ← ok_or (f data) FormatError;
        write_file path (as_bytes s)).
Proof.
  eapply triple_bind; [cheat_step|intros p; cbv beta].
  eapply triple_bind; [apply triple_read; cheat_side|intros data; cbv beta].
  eapply triple_bind; [cheat_step|intros s; cbv beta]. apply write_file_safe.
Qed.

Lemma format_safe (path : string) (o : option string) :
  safe (s ← ok_or o FormatError; write_file path (as_bytes s)).
Proof. eapply triple_bind; [cheat_step|intros s; cbv beta]. apply write_file_safe. Qed.

#[local] Hint Resolve exists_safe fsMetadata_safe isDir_safe isFile_safe closeFile_safe copyFile_safe
  createDir_safe removeDir_safe read_dir_safe readFile_safe readFileBinary_safe readLine_safe
  readLink_safe removeFile_safe write_file_safe writeLine_safe : fs.

Lemma apply_safe c : safe (apply c).
Proof.
  destruct c; cbn; auto with fs.
  1,2: eapply triple_bind; [apply get_artifact_code_safe|intros ?; cbv beta; cheat_step].
  1,2: eapply triple_bind; [apply ffi_safe|intros ?; cbv beta; cheat_step].
  - apply format_safe.
  - apply (replace_safe _ (λ data, json_replace json data valueKey)).
  - apply format_safe.
  - apply (replace_safe _ (λ data, toml_replace json data valueKey)).
Qed.
End safety.

(** ** The theorems *)


(** When the paths of the permissions are resolved, the permission of a
    path is the one with the longest matching path, the last one of several
    with the same path; a path that no permission matches has none. *)
Theorem find_permission_longest (canonicalize : Path → option Path) (ps : FsPermissions.t)
    (path : Path) :
  (∀ p, p ∈ FsPermissions.permissions ps →
     FsPermissions.resolved canonicalize p = PathPermission.path p) →
  match FsPermissions.find_permission canonicalize ps path with
  | None => ∀ q, q ∈ FsPermissions.permissions ps → ¬ PathPermission.path q `prefix_of` path
  | Some a =>
      ∃ p l1 l2, FsPermissions.permissions ps = l1 ++ p :: l2 ∧ PathPermission.access p = a ∧
        PathPermission.path p `prefix_of` path ∧
        (∀ q, q ∈ l1 → PathPermission.path q `prefix_of` path →
           length (PathPermission.path q) ≤ length (PathPermission.path p)) ∧
        (∀ q, q ∈ l2 → PathPermission.path q `prefix_of` path →
           length (PathPermission.path q) < length (PathPermission.path p))
  end.
Proof.
  intros Hps. pose proof (find_decides canonicalize path (FsPermissions.permissions ps) Hps) as Hd.
  unfold FsPermissions.find_permission. destruct (foldl _ None _) as [p|]; cbn in Hd |- *; [|done].
  destruct Hd as (l1 & l2 & E & Hp & H1 & H2). by exists p, l1, l2.
Qed.

(** *** A sample file system: paths are resolved textually, calls succeed. *)

Definition sample_answer {A} (c : FsCall unit A) : A :=
  match c with
  | Exists _ | IsDir _ | IsFile _ => true
  | GetMetadata _ => mk_metadata false false 0 false None None None
  | Copy _ _ => 0%Z
  | ReadToString _ | ReadLink _ => EmptyString
  | ReadBytes _ => []
  | Open _ => tt
  | ReadLine _ _ => "line"
  | CreateDir _ | CreateDirAll _ | RemoveDir _ | RemoveDirAll _ | RemoveFile _ | Write _ _
  | AppendLine _ _ => tt
  | Walk _ _ _ => []
  | Command _ _ _ => mk_output [] [] (Some 0%Z)
  end.

Definition sample_canonicalize (p : Path) : option Path :=
  if is_absolute p then Some (normalize_path p) else None.

#[export] Instance sample_fs : FileSystem unit unit unit := {|
  canonicalize _ := sample_canonicalize;
  fs_call A c fs := (fs, Ok (sample_answer c));
  to_lowercase s := s;
  as_bytes _ := [];
  from_utf8 _ := Some EmptyString;
  str_trim s := s;
  hex_decode _ := None;
  parse_version _ := None;
  parse_contract_object _ := None;
  json_pretty s := Some s;
  json_replace s _ _ := Some s;
  toml_format s := Some s;
  toml_replace s _ _ := Some s |}.

Lemma sample_fs_laws : FileSystemLaws (H := sample_fs).
Proof.
  split; [|done]. intros fs p q. cbn. unfold sample_canonicalize.
  destruct (is_absolute p) eqn:E; [|done]. intros [= <-]. by apply normalize_path_normal.
Qed.

Definition sample_cheats (ps : list PathPermission.t) (commit : bool) : Cheats.t unit unit :=
  Cheats.mk (CheatsConfig.mk false (path_new "/work/out")
    (FsPermissions.join_all (FsPermissions.mk ps) (path_new "/work")) (path_new "/work") None None)
    ∅ commit tt [].


Lemma find_permission_longest_witness :
  FsPermissions.find_permission sample_canonicalize
    (FsPermissions.mk [PathPermission.mk PReadWrite (path_new "/work/out/contracts");
                       PathPermission.mk PRead (path_new "/work/out")])
    (path_new "/work/out/contracts/A.sol") = Some PReadWrite ∧
  path_new "/work/out/contracts" `prefix_of` path_new "/work/out/contracts/A.sol".
Proof.
  pose proof (find_permission_longest sample_canonicalize
    (FsPermissions.mk [PathPermission.mk PReadWrite (path_new "/work/out/contracts");
                       PathPermission.mk PRead (path_new "/work/out")])
    (path_new "/work/out/contracts/A.sol")) as H.
  split; [by vm_compute|].
  destruct H as (p & l1 & l2 & E & Ha & Hp & _).
  { intros p Hp. repeat (apply elem_of_cons in Hp as [-> |Hp]; [by vm_compute|]).
    by apply elem_of_nil in Hp. }
  assert (p = PathPermission.mk PReadWrite (path_new "/work/out/contracts")) as ->; [|done].
  cbn in E. destruct l1 as [|x [|y [|z l1]]]; cbn in E; simplify_eq; done.
Defined.

(** ** Observations *)

(** The comparison is on the paths as they are written: a permission of a
    shared directory given relative to the root decides over the one of a
    directory inside it, in either order. *)
Lemma unresolved_permission_decides ps :
  ps ≡ₚ [PathPermission.mk PReadWrite (path_new "/work/../shared");
         PathPermission.mk PNone (path_new "/shared/secret")] →
  FsPermissions.find_permission sample_canonicalize (FsPermissions.mk ps)
    (path_new "/shared/secret/key") = Some PReadWrite.
Proof.
  intros Hp. symmetry in Hp. apply Permutation_length_2_inv in Hp as [-> | ->]; by vm_compute.
Qed.

(** Removing a directory does not look at the commit flag, nor whether
    [foundry.toml] is inside. *)
Lemma remove_dir_uncommitted :
  Cheats.calls (fst (apply (removeDirCall "/work" true)
    (sample_cheats [PathPermission.mk PReadWrite (path_new "/work")] false))) =
  [Called (RemoveDirAll (path_new "/work"))].
Proof. by vm_compute. Qed.

(** Permissions survive serialization and printing. *)
Lemma permission_roundtrip p :
  permission_deserialize (permission_serialize p) = Ok p ∧
  permission_from_str (permission_display p) = Ok p.
Proof. by destruct p. Qed.
