(* ===== verification/Pranks.v ===== *)
(** Impersonation by pranks: the cheatcodes (cheatcodes/src/evm/prank.rs) and
    the parts of the inspector's call and create hooks that apply pranks and
    clean them up (cheatcodes/src/inspector.rs).

    The EVM is a tree of actions: what a frame does is a list of calls and
    creations with the frames they run.  A run takes the hooks' steps around
    each of them and records what every callee sees.  Neither the pranks nor
    the transaction environment is journaled, so a frame that reverts is one
    that stops early.  Broadcasts are only a flag that makes [prank] fail. *)
From stdpp Require Import strings.
From S2P Require Import Prelude.

(** An address is its number. *)
Abbreviation Address := Z.

(** ** Data *)

Module Prank.
Record t := mk {
  prank_caller : Address; prank_origin : Address; new_caller : Address;
  new_origin : option Address; depth : Z; single_call : bool; delegate_call : bool; used : bool }.

Definition new (prank_caller prank_origin new_caller : Address) (new_origin : option Address)
    (depth : Z) (single_call delegate_call : bool) : t :=
  mk prank_caller prank_origin new_caller new_origin depth single_call delegate_call false.

Definition first_time_applied (p : t) : option t :=
  if used p then None
  else Some (mk (prank_caller p) (prank_origin p) (new_caller p) (new_origin p) (depth p)
               (single_call p) (delegate_call p) true).
End Prank.

Inductive CallScheme :=
  | SchemeCall | SchemeCallCode | SchemeDelegateCall | SchemeStaticCall
  | SchemeExtCall | SchemeExtStaticCall | SchemeExtDelegateCall.

Definition is_delegate (s : CallScheme) : bool :=
  match s with SchemeDelegateCall | SchemeExtDelegateCall => true | _ => false end.

(** [CallValue] of revm: whether the value is transferred or only shown. *)
Inductive CallValue := Transfer (v : Z) | Apparent (v : Z).

(** The inputs of a call, as far as pranks read or change them. *)
Module CallInputs.
Record t := mk { caller : Address; target_address : Address; value : CallValue; scheme : CallScheme }.
End CallInputs.

(** The state: the pranks by depth, whether a broadcast is active, and
    [tx.origin] of the environment. *)
Module PrankState.
Record t := mk { pranks : gmap Z Prank.t; broadcast : bool; tx_caller : Address }.

Definition set_pranks (m : gmap Z Prank.t) (s : t) : t := mk m (broadcast s) (tx_caller s).
Definition set_origin (o : Address) (s : t) : t := mk (pranks s) (broadcast s) o.

(** [BTreeMap::range(..=depth).last()]. *)
Definition key_cmp (x y : Z * Prank.t) : comparison := Z.compare (fst x) (fst y).

Definition get_prank (s : t) (depth : Z) : option Prank.t :=
  snd <$> last (filter (λ kp, (fst kp ≤ depth)%Z) (sort_by key_cmp (map_to_list (pranks s)))).
End PrankState.
Import PrankState.

(** ** The cheatcodes *)

Inductive PrankCheat :=
  | Prank_0 (msgSender : Address) | StartPrank_0 (msgSender : Address)
  | Prank_1 (msgSender txOrigin : Address) | StartPrank_1 (msgSender txOrigin : Address)
  | Prank_2 (msgSender : Address) (delegateCall : bool)
  | StartPrank_2 (msgSender : Address) (delegateCall : bool)
  | Prank_3 (msgSender txOrigin : Address) (delegateCall : bool)
  | StartPrank_3 (msgSender txOrigin : Address) (delegateCall : bool)
  | StopPrank.

Inductive PrankErr := CodeErr (e : string) | FromEoa | NotApplied | SingleOverOngoing | Broadcasting.

Section hooks.
(** What the journal answers: the code and the balance of an account. *)
Context (code : Address → result (list Z) string) (balance : Address → Z).

Definition check_code (new_caller : Address) (delegate_call : bool) : result unit PrankErr :=
  if delegate_call then
    match code new_caller with
    | Err e => Err (CodeErr e)
    | Ok [] => Err FromEoa
    | Ok _ => Ok tt
    end
  else Ok tt.

Definition prank (depth : Z) (caller : Address) (new_caller : Address) (new_origin : option Address)
    (single_call delegate_call : bool) (s : PrankState.t) : PrankState.t * result unit PrankErr :=
  match check_code new_caller delegate_call with
  | Err e => (s, Err e)
  | Ok _ =>
      let guard :=
        match get_prank s depth with
        | Some p => if negb (Prank.used p) then Some NotApplied
                    else if negb (Bool.eqb single_call (Prank.single_call p)) then Some SingleOverOngoing
                    else None
        | None => None
        end in
      match guard with
      | Some e => (s, Err e)
      | None =>
          let p := Prank.new caller (tx_caller s) new_caller new_origin depth single_call delegate_call in
          if broadcast s then (s, Err Broadcasting)
          else (set_pranks (<[Prank.depth p := p]> (pranks s)) s, Ok tt)
      end
  end.

Definition stop_prank (depth : Z) (s : PrankState.t) : PrankState.t * result unit PrankErr :=
  (set_pranks (delete depth (pranks s)) s, Ok tt).

Definition apply_prank_cheat (depth : Z) (caller : Address) (c : PrankCheat) (s : PrankState.t) :
    PrankState.t * result unit PrankErr :=
  match c with
  | Prank_0 m => prank depth caller m None true false s
  | StartPrank_0 m => prank depth caller m None false false s
  | Prank_1 m o => prank depth caller m (Some o) true false s
  | StartPrank_1 m o => prank depth caller m (Some o) false false s
  | Prank_2 m b => prank depth caller m None true b s
  | StartPrank_2 m b => prank depth caller m None false b s
  | Prank_3 m o b => prank depth caller m (Some o) true b s
  | StartPrank_3 m o b => prank depth caller m (Some o) false b s
  | StopPrank => stop_prank depth s
  end.

(** ** The hooks *)

Definition set_new_origin (o : option Address) (s : PrankState.t) : PrankState.t :=
  match o with Some o => set_origin o s | None => s end.

(** The prank of a delegate call. *)
Definition call_prank_delegate (p : Prank.t) (call : CallInputs.t) (s : PrankState.t) :
    CallInputs.t * PrankState.t :=
  if is_delegate (CallInputs.scheme call) && Prank.delegate_call p then
    (CallInputs.mk (Prank.new_caller p) (Prank.new_caller p) (Apparent (balance (Prank.new_caller p)))
       (CallInputs.scheme call), set_new_origin (Prank.new_origin p) s)
  else (call, s).

(** The [call] hook, where it applies a prank. *)
Definition call_prank (curr_depth : Z) (call : CallInputs.t) (s : PrankState.t) :
    CallInputs.t * PrankState.t :=
  match get_prank s curr_depth with
  | None => (call, s)
  | Some p =>
      let '(call, s) := call_prank_delegate p call s in
      if (Prank.depth p <=? curr_depth)%Z && bool_decide (CallInputs.caller call = Prank.prank_caller p) then
        let at_depth := (curr_depth =? Prank.depth p)%Z in
        let call := if at_depth then CallInputs.mk (Prank.new_caller p) (CallInputs.target_address call)
                                       (CallInputs.value call) (CallInputs.scheme call) else call in
        let s := set_new_origin (Prank.new_origin p) s in
        let prank_applied := at_depth || bool_decide (is_Some (Prank.new_origin p)) in
        (call, match prank_applied, Prank.first_time_applied p with
               | true, Some applied => set_pranks (<[curr_depth := applied]> (pranks s)) s
               | _, _ => s
               end)
      else (call, s)
  end.

(** The [call_end] hook of a call that is not to a cheatcode address. *)
Definition call_end_prank (curr_depth : Z) (s : PrankState.t) : PrankState.t :=
  match get_prank s curr_depth with
  | Some p =>
      if (curr_depth =? Prank.depth p)%Z then
        let s := set_origin (Prank.prank_origin p) s in
        if Prank.single_call p then set_pranks (delete curr_depth (pranks s)) s else s
      else s
  | None => s
  end.

(** [create_common], where it applies a prank; the caller of the creation. *)
Definition create_prank (curr_depth : Z) (caller : Address) (s : PrankState.t) :
    Address * PrankState.t :=
  match get_prank s curr_depth with
  | Some p =>
      if (Prank.depth p <=? curr_depth)%Z && bool_decide (caller = Prank.prank_caller p) then
        (if (curr_depth =? Prank.depth p)%Z then Prank.new_caller p else caller,
         set_new_origin (Prank.new_origin p) s)
      else (caller, s)
  | None => (caller, s)
  end.

(** [create_end_common], where it cleans up a prank. *)
Definition create_end_prank (curr_depth : Z) (s : PrankState.t) : PrankState.t :=
  match get_prank s curr_depth with
  | Some p =>
      if (curr_depth =? Prank.depth p)%Z then
        let s := set_origin (Prank.prank_origin p) s in
        if Prank.single_call p then set_pranks ∅ s else s
      else s
  | None => s
  end.

(** ** Runs *)

(** What a frame does: a prank cheatcode, a call to the console or to a
    cheatcode that leaves this state alone, a call a mock answers, a call or a
    creation with the frame it runs. *)
Inductive action :=
  | ACheat (caller : Address) (c : PrankCheat)
  | AOther
  | AMocked
  | ACall (call : CallInputs.t) (body : list action)
  | ACreate (caller : Address) (body : list action).

(** What is observed at a depth: the outcome of a cheatcode, and what a callee
    or a constructor sees of its call and of [tx.origin]. *)
Inductive seen :=
  | SeenCheat (r : result unit PrankErr)
  | SeenCall (call : CallInputs.t) (origin : Address)
  | SeenCreate (caller origin : Address).

Definition run_list {A S E} (step : A → S → S * list E) : list A → S → S * list E :=
  fix go l s :=
    match l with
    | [] => (s, [])
    | a :: l => let '(s, e1) := step a s in let '(s, e2) := go l s in (s, e1 ++ e2)
    end.

Fixpoint run_action (d : Z) (a : action) (s : PrankState.t) {struct a} :
    PrankState.t * list (Z * seen) :=
  match a with
  | ACheat caller c => let '(s, r) := apply_prank_cheat d caller c s in (s, [(d, SeenCheat r)])
  | AOther => (s, [])
  | AMocked => (call_end_prank d s, [])
  | ACall call body =>
      let '(call, s) := call_prank d call s in
      let o := tx_caller s in
      let '(s, es) := run_list (run_action (d + 1)) body s in
      (call_end_prank d s, (d, SeenCall call o) :: es)
  | ACreate caller body =>
      let '(caller, s) := create_prank d caller s in
      let o := tx_caller s in
      let '(s, es) := run_list (run_action (d + 1)) body s in
      (create_end_prank d s, (d, SeenCreate caller o) :: es)
  end.

(** A frame at depth [d]. *)
Definition run_frame (d : Z) : list action → PrankState.t → PrankState.t * list (Z * seen) :=
  run_list (run_action d).
End hooks.
