(* ===== verification/PranksTheorems.v ===== *)
(** What the frame that pranks observes: the pranks by depth, the copies and the
    clean-up of the hooks implement one pending prank per frame. *)
From stdpp Require Import strings.
From S2P Require Import Prelude Pranks.
Import PrankState.

(** ** Looking up a prank *)

Lemma sorted_pranks s :
  StronglySorted (λ x y, key_cmp x y ≠ Gt) (sort_by key_cmp (map_to_list (pranks s))).
Proof. apply sort_by_sorted; unfold key_cmp; intros *; rewrite ?Z.compare_gt_iff, ?Z.compare_ngt_iff; lia. Qed.

Lemma elem_sorted_pranks s k p :
  (k, p) ∈ sort_by key_cmp (map_to_list (pranks s)) ↔ pranks s !! k = Some p.
Proof. by rewrite sort_by_perm, elem_of_map_to_list. Qed.

Lemma get_prank_Some s d p :
  get_prank s d = Some p → ∃ k, (k ≤ d)%Z ∧ pranks s !! k = Some p ∧
    ∀ k', (k < k' ≤ d)%Z → pranks s !! k' = None.
Proof.
  unfold get_prank. intros ([k p'] & Hl & ->)%fmap_Some. cbn.
  apply last_Some in Hl as [l' Hl].
  assert ((k, p') ∈ filter (λ kp, (kp.1 ≤ d)%Z) (sort_by key_cmp (map_to_list (pranks s)))) as Hin
    by (rewrite Hl; set_solver).
  apply list_elem_of_filter in Hin as [Hk Hin%elem_sorted_pranks]. cbn in Hk.
  exists k. split_and!; [done|done|]. intros k' Hk'. apply eq_None_not_Some. intros [q Hq].
  apply elem_sorted_pranks in Hq.
  assert ((k', q) ∈ l' ++ [(k, p')]) as Hin' by (rewrite <- Hl; apply list_elem_of_filter; cbn; split; [lia|done]).
  apply elem_of_app in Hin' as [Hin'|?%list_elem_of_singleton]; [|naive_solver lia].
  assert (StronglySorted (λ x y, key_cmp x y ≠ Gt) (l' ++ [(k, p')])) as Hs
    by (rewrite <- Hl; apply filter_sorted, sorted_pranks).
  pose proof (StronglySorted_app_1_elem_of _ l' [(k, p')] (k', q) (k, p') Hs Hin' ltac:(by left)) as Hc.
  unfold key_cmp in Hc. cbn in Hc. rewrite Z.compare_ngt_iff in Hc. lia.
Qed.

Lemma get_prank_None s d : get_prank s d = None ↔ ∀ k, (k ≤ d)%Z → pranks s !! k = None.
Proof.
  split.
  - unfold get_prank. intros Hn%fmap_None%last_None k Hk. apply eq_None_not_Some. intros [q Hq].
    apply elem_sorted_pranks in Hq. apply (not_elem_of_nil (k, q)). rewrite <- Hn.
    by apply list_elem_of_filter.
  - intros Hn. apply eq_None_not_Some. intros [p (k & Hk & Hp & _)%get_prank_Some].
    by rewrite Hn in Hp.
Qed.

Lemma get_prank_at s d p : pranks s !! d = Some p → get_prank s d = Some p.
Proof.
  intros Hp. destruct (get_prank s d) as [q|] eqn:E.
  - apply get_prank_Some in E as (k & Hk & Hq & Hlt). destruct (decide (k = d)) as [->|]; [congruence|].
    rewrite Hlt in Hp; [done|lia].
  - rewrite get_prank_None in E. rewrite E in Hp; [done|lia].
Qed.

(** With nothing below, the prank of a depth is the one recorded there. *)
Lemma get_prank_here s d :
  (∀ k, (k < d)%Z → pranks s !! k = None) → get_prank s d = pranks s !! d.
Proof.
  intros Hlow. destruct (pranks s !! d) eqn:E; [by apply get_prank_at|].
  apply get_prank_None. intros k Hk. destruct (decide (k = d)) as [->|]; [done|]. apply Hlow. lia.
Qed.

(** ** Nested frames leave the pranks of lower depths alone *)

Definition cheat_args (c : PrankCheat) : option (Address * option Address * bool * bool) :=
  match c with
  | Prank_0 m => Some (m, None, true, false)
  | StartPrank_0 m => Some (m, None, false, false)
  | Prank_1 m o => Some (m, Some o, true, false)
  | StartPrank_1 m o => Some (m, Some o, false, false)
  | Prank_2 m b => Some (m, None, true, b)
  | StartPrank_2 m b => Some (m, None, false, b)
  | Prank_3 m o b => Some (m, Some o, true, b)
  | StartPrank_3 m o b => Some (m, Some o, false, b)
  | StopPrank => None
  end.

Definition is_single (c : PrankCheat) : bool :=
  match cheat_args c with Some (_, _, single, _) => single | None => false end.

(** Frames that do not create contracts, or (with [creates]) may create
    contracts and do not prank a single call. *)
Fixpoint tame (creates : bool) (a : action) : bool :=
  match a with
  | ACheat _ c => negb (creates && is_single c)
  | AOther | AMocked => true
  | ACall _ body => forallb (tame creates) body
  | ACreate _ body => creates && forallb (tame creates) body
  end.

(** ** What a frame is promised

    A frame has at most one pending prank; [base] is [tx.origin] when it was
    set. *)
Module FramePrank.
Record t := mk {
  who : Address; as_ : Address; origin : option Address; base : Address;
  single : bool; delegate : bool; applied : bool }.

Definition mark (b : bool) (f : t) : t :=
  mk (who f) (as_ f) (origin f) (base f) (single f) (delegate f) (applied f || b).

(** The prank is over after one call or creation if it is of a single call. *)
Definition next (f : t) : option t := if single f then None else Some f.

Definition recorded (d : Z) (f : t) : Prank.t :=
  Prank.mk (who f) (base f) (as_ f) (origin f) d (single f) (delegate f) (applied f).
End FramePrank.
Import FramePrank(who, as_, origin, base, single, delegate, applied, mark, next, recorded).

(** [tx.origin] and the pending prank of a frame. *)
Definition frame_state : Type := Address * option FramePrank.t.

Section spec.
Context (code : Address → result (list Z) string) (balance : Address → Z).

Definition spec_prank (st : frame_state) (caller m : Address) (no : option Address) (sg dl : bool) :
    frame_state * result unit PrankErr :=
  let set := ((st.1, Some (FramePrank.mk caller m no st.1 sg dl false)), Ok tt) in
  match check_code code m dl, st.2 with
  | Err e, _ => (st, Err e)
  | Ok _, Some f => if negb (applied f) then (st, Err NotApplied)
                    else if negb (Bool.eqb sg (single f)) then (st, Err SingleOverOngoing)
                    else set
  | Ok _, None => set
  end.

Definition spec_cheat (st : frame_state) (caller : Address) (c : PrankCheat) :
    frame_state * result unit PrankErr :=
  match cheat_args c with
  | Some (m, no, sg, dl) => spec_prank st caller m no sg dl
  | None => ((st.1, None), Ok tt)
  end.

(** A delegate prank replaces who delegates. *)
Definition delegated (f : FramePrank.t) (call : CallInputs.t) : bool :=
  is_delegate (CallInputs.scheme call) && delegate f.

Definition shown (f : FramePrank.t) (call : CallInputs.t) : CallInputs.t :=
  if delegated f call then CallInputs.mk (as_ f) (as_ f) (Apparent (balance (as_ f))) (CallInputs.scheme call)
  else call.

(** The calls of the frame's contract come from the pranked address. *)
Definition affects (f : FramePrank.t) (call : CallInputs.t) : bool :=
  bool_decide (CallInputs.caller (shown f call) = who f).

Definition spec_call (f : FramePrank.t) (call : CallInputs.t) : CallInputs.t * Address :=
  (if affects f call then
     CallInputs.mk (as_ f) (CallInputs.target_address (shown f call))
       (CallInputs.value (shown f call)) (CallInputs.scheme call)
   else shown f call,
   if affects f call || delegated f call then default (base f) (origin f) else base f).

Definition spec_create (f : FramePrank.t) (caller : Address) : Address * Address :=
  if decide (caller = who f) then (as_ f, default (base f) (origin f)) else (caller, base f).

(** One action of the frame, with what its callee sees; [o'] is the origin a
    nested frame leaves behind, which only matters without a pending prank. *)
Definition spec_step (o' : Address) (st : frame_state) (a : action) : frame_state * list seen :=
  match a, st with
  | ACheat caller c, _ => let '(st, r) := spec_cheat st caller c in (st, [SeenCheat r])
  | AOther, _ => (st, [])
  | AMocked, (o, pend) => ((o, f ← pend; next f), [])
  | ACall call _, (o, Some f) =>
      ((o, next (mark (affects f call) f)), [SeenCall (spec_call f call).1 (spec_call f call).2])
  | ACall call _, (o, None) => ((o', None), [SeenCall call o])
  | ACreate caller _, (o, Some f) =>
      ((o, next f), [SeenCreate (spec_create f caller).1 (spec_create f caller).2])
  | ACreate caller _, (o, None) => ((o', None), [SeenCreate caller o])
  end.

Inductive spec_run : frame_state → list action → list seen → frame_state → Prop :=
  | spec_nil st : spec_run st [] [] st
  | spec_cons st o' a l es st' :
      spec_run (spec_step o' st a).1 l es st' →
      spec_run st (a :: l) ((spec_step o' st a).2 ++ es) st'.
End spec.

(** The frames an action runs. *)
Definition body_of (a : action) : list action :=
  match a with ACall _ body | ACreate _ body => body | _ => [] end.

(** What is observed of the frame at depth [d] itself. *)
Definition own (d : Z) (es : list (Z * seen)) : list seen := snd <$> filter (λ e, e.1 = d) es.
#[local] Arguments own : simpl never.
#[local] Arguments spec_call : simpl never.
#[local] Arguments spec_create : simpl never.

Section frames.
Context (code : Address → result (list Z) string) (balance : Address → Z).
Implicit Types (s : PrankState.t) (d : Z) (a : action) (p : Prank.t).

Lemma apply_cheat_args d caller c s :
  apply_prank_cheat code d caller c s =
  match cheat_args c with
  | Some (m, o, single, delegate) => prank code d caller m o single delegate s
  | None => stop_prank d s
  end.
Proof. by destruct c. Qed.

(** The frame of a call runs one level deeper. *)
Lemma run_call d call body s :
  run_action code balance d (ACall call body) s =
  let '(call, s) := call_prank balance d call s in
  let '(s', es) := run_frame code balance (d + 1) body s in
  (call_end_prank d s', (d, SeenCall call (tx_caller s)) :: es).
Proof. done. Qed.

Lemma run_create d caller body s :
  run_action code balance d (ACreate caller body) s =
  let '(caller, s) := create_prank d caller s in
  let '(s', es) := run_frame code balance (d + 1) body s in
  (create_end_prank d s', (d, SeenCreate caller (tx_caller s)) :: es).
Proof. done. Qed.

Lemma action_ind' (P : action → Prop) :
  (∀ caller c, P (ACheat caller c)) → P AOther → P AMocked →
  (∀ call body, Forall P body → P (ACall call body)) →
  (∀ caller body, Forall P body → P (ACreate caller body)) → ∀ a, P a.
Proof.
  intros Hc Ho Hm Hcall Hcreate. fix IH 1. intros [caller c| | |call body|caller body].
  - apply Hc. - done. - done.
  - apply Hcall. induction body; constructor; [apply IH|done].
  - apply Hcreate. induction body; constructor; [apply IH|done].
Qed.

(** A prank is never recorded above its own depth, and (with [creates]) one
    recorded above [d] is not of a single call unless it is a copy of one
    from [d] or below. *)
Record prank_inv (creates : bool) d s : Prop := {
  inv_depth : ∀ k p, pranks s !! k = Some p → (Prank.depth p ≤ k)%Z;
  inv_single : creates = true → ∀ k p, (d < k)%Z → pranks s !! k = Some p →
    Prank.single_call p = false ∨ (Prank.depth p ≤ d)%Z }.

(** A step that keeps the invariant and everything at [d] and below. *)
Definition keeps (creates : bool) d s s' : Prop :=
  prank_inv creates d s → prank_inv creates d s' ∧ broadcast s' = broadcast s ∧
    ∀ k, (k ≤ d)%Z → pranks s' !! k = pranks s !! k.

#[local] Instance keeps_preorder creates d : PreOrder (keeps creates d).
Proof.
  split; [intros s Hs; done|]. intros s1 s2 s3 H12 H23 H1.
  destruct (H12 H1) as (H2 & Hb & Hk). destruct (H23 H2) as (H3 & Hb' & Hk').
  split_and!; [done|congruence|]. intros k Hle. by rewrite Hk', Hk.
Qed.

Lemma keeps_from creates d s s' : (prank_inv creates d s → keeps creates d s s') → keeps creates d s s'.
Proof. intros H Hs. by apply H. Qed.

Lemma keeps_origin creates d s o : keeps creates d s (set_origin o s).
Proof. intros [H1 H2]. by split_and!. Qed.

Lemma keeps_new_origin creates d s o : keeps creates d s (set_new_origin o s).
Proof. destruct o; [apply keeps_origin|reflexivity]. Qed.

Lemma keeps_delete creates d d' s : (d < d')%Z → keeps creates d s (set_pranks (delete d' (pranks s)) s).
Proof.
  intros Hd [H1 H2]. split_and!; [split; cbn|done|intros k Hk; cbn; by rewrite lookup_delete_ne by lia].
  - intros k p [_ Hp]%lookup_delete_Some. auto.
  - intros Hc k p Hk [_ Hp]%lookup_delete_Some. eauto.
Qed.

Lemma keeps_insert creates d d' p s :
  (d < d')%Z → (Prank.depth p ≤ d')%Z →
  (creates = true → Prank.single_call p = false ∨ (Prank.depth p ≤ d)%Z) →
  keeps creates d s (set_pranks (<[d' := p]> (pranks s)) s).
Proof.
  intros Hd Hp Hs [H1 H2]. split_and!; [split; cbn|done|intros k Hk; cbn; by rewrite lookup_insert_ne by lia].
  - intros k q [[<- <-]|[_ Hq]]%lookup_insert_Some; auto.
  - intros Hc k q Hk [[<- <-]|[_ Hq]]%lookup_insert_Some; eauto.
Qed.

Lemma keeps_cheat creates d d' caller c s :
  (d < d')%Z → negb (creates && is_single c) = true → keeps creates d s (apply_prank_cheat code d' caller c s).1.
Proof.
  intros Hd Hc. rewrite apply_cheat_args. unfold is_single in Hc.
  destruct (cheat_args c) as [[[[m o] single] delegate]|]; [|by apply keeps_delete].
  unfold prank. destruct (check_code _ _ _); [|reflexivity].
  destruct (match get_prank s d' with Some _ => _ | None => _ end); [reflexivity|].
  destruct (broadcast s); [reflexivity|]. apply keeps_insert; cbn; [done|lia|].
  intros ->. left. by destruct single.
Qed.

(** What a prank found at [d'] is like, seen from a lower depth. *)
Lemma found_prank creates d d' s p :
  prank_inv creates d s → get_prank s d' = Some p →
  (Prank.depth p ≤ d')%Z ∧ (creates = true → Prank.single_call p = false ∨ (Prank.depth p ≤ d)%Z).
Proof.
  intros [H1 H2] (k & Hk & Hp & _)%get_prank_Some. pose proof (H1 _ _ Hp). split; [lia|].
  intros Hc. destruct (decide (d < k)%Z); [eauto|right; lia].
Qed.

Lemma keeps_call creates d d' call s : (d < d')%Z → keeps creates d s (call_prank balance d' call s).2.
Proof.
  intros Hd. apply keeps_from. intros Hinv. unfold call_prank.
  destruct (get_prank s d') as [p|] eqn:E; [|reflexivity].
  destruct (found_prank _ _ _ _ _ Hinv E) as [Hp Hs]. clear Hinv.
  assert (keeps creates d s (call_prank_delegate balance p call s).2) as Hdel
    by (unfold call_prank_delegate; case_match; [apply keeps_new_origin|reflexivity]).
  destruct (call_prank_delegate balance p call s) as [call' s1]. cbn in Hdel.
  transitivity s1; [done|]. case_match; [|reflexivity]. cbn.
  transitivity (set_new_origin (Prank.new_origin p) s1); [apply keeps_new_origin|].
  unfold Prank.first_time_applied.
  destruct (_ || _), (Prank.used p); [reflexivity| |reflexivity..]. by apply keeps_insert.
Qed.

Lemma keeps_call_end creates d d' s : (d < d')%Z → keeps creates d s (call_end_prank d' s).
Proof.
  intros Hd. unfold call_end_prank. repeat case_match; [|apply keeps_origin|reflexivity..].
  etrans; [apply keeps_origin|]. by apply (keeps_delete _ _ _ (set_origin _ s)).
Qed.

Lemma keeps_create creates d d' caller s : keeps creates d s (create_prank d' caller s).2.
Proof. unfold create_prank. repeat case_match; cbn; first [apply keeps_new_origin|reflexivity]. Qed.

Lemma keeps_create_end d d' s : (d < d')%Z → keeps true d s (create_end_prank d' s).
Proof.
  intros Hd. apply keeps_from. intros Hinv. unfold create_end_prank.
  destruct (get_prank s d') as [p|] eqn:E; [|reflexivity].
  destruct (found_prank _ _ _ _ _ Hinv E) as [_ Hs].
  destruct (Z.eqb_spec d' (Prank.depth p)) as [->|]; [|reflexivity].
  destruct (Hs eq_refl) as [->|]; [by apply keeps_origin|lia].
Qed.

Lemma run_list_ind {A S E} (step : A → S → S * list E) (R : relation S) (Q : E → Prop) `{!PreOrder R} l :
  Forall (λ x, ∀ y, R y (step x y).1 ∧ Forall Q (step x y).2) l →
  ∀ y, R y (run_list step l y).1 ∧ Forall Q (run_list step l y).2.
Proof.
  induction 1 as [|x l Hx _ IH]; intros y; cbn; [split; [reflexivity|constructor]|].
  destruct (Hx y) as [H1 Q1]. destruct (step x y) as [y1 e1]. destruct (IH y1) as [H2 Q2].
  destruct (run_list step l y1) as [y2 e2]. cbn in *. split; [by etrans|by apply Forall_app].
Qed.

Lemma tame_body creates d d' body s :
  Forall (λ a, ∀ d' s, (d < d')%Z → tame creates a = true →
    keeps creates d s (run_action code balance d' a s).1 ∧
    Forall (λ e, (d' ≤ e.1)%Z) (run_action code balance d' a s).2) body →
  (d < d')%Z → forallb (tame creates) body = true →
  keeps creates d s (run_frame code balance (d' + 1) body s).1 ∧
  Forall (λ e, (d' ≤ e.1)%Z) (run_frame code balance (d' + 1) body s).2.
Proof.
  intros IH Hd Ht%Is_true_true%forallb_True. revert s. apply run_list_ind; [apply _|].
  eapply Forall_impl; [by apply Forall_and; split; [exact IH|exact Ht]|]. cbn.
  intros a [Ha Hta%Is_true_true] s. destruct (Ha (d' + 1)%Z s) as [H1 H2]; [lia|done|].
  split; [done|]. eapply Forall_impl; [exact H2|]. cbn. intros; lia.
Qed.

(** Whatever a tame frame does keeps the pranks of the frames around it, and
    is observed at its own depth or deeper. *)
Lemma tame_action creates a d d' s :
  (d < d')%Z → tame creates a = true →
  keeps creates d s (run_action code balance d' a s).1 ∧
  Forall (λ e, (d' ≤ e.1)%Z) (run_action code balance d' a s).2.
Proof.
  revert d' s. induction a as [caller c| | |call body IH|caller body IH] using action_ind'; intros d' s Hd Ht.
  - cbn in Ht |- *. pose proof (keeps_cheat _ d d' caller c s Hd Ht) as Hk.
    destruct (apply_prank_cheat code d' caller c s); cbn. split; [done|]. repeat constructor; cbn; lia.
  - split; [reflexivity|constructor].
  - split; [by apply keeps_call_end|constructor].
  - rewrite run_call. pose proof (keeps_call creates d d' call s Hd) as Hk.
    destruct (call_prank balance d' call s) as [call' s1].
    destruct (tame_body creates d d' body s1 IH Hd Ht) as [Hb Hf].
    destruct (run_frame code balance (d' + 1) body s1) as [s2 es]. cbn in *.
    split; [by etrans; [|etrans; [|by apply keeps_call_end]]|constructor; [cbn; lia|done]].
  - cbn in Ht. apply andb_true_iff in Ht as [-> Ht]. rewrite run_create.
    pose proof (keeps_create true d d' caller s) as Hk.
    destruct (create_prank d' caller s) as [caller' s1].
    destruct (tame_body true d d' body s1 IH Hd Ht) as [Hb Hf].
    destruct (run_frame code balance (d' + 1) body s1) as [s2 es]. cbn in *.
    split; [by etrans; [|etrans; [|by apply keeps_create_end]]|constructor; [cbn; lia|done]].
Qed.

(** ** The frame that pranks *)

Record frame_rel (creates : bool) d (st : frame_state) s : Prop := {
  fr_here : pranks s !! d = recorded d <$> st.2;
  fr_below : ∀ k, (k < d)%Z → pranks s !! k = None;
  fr_origin : tx_caller s = st.1;
  fr_base : ∀ f, st.2 = Some f → base f = st.1;
  fr_broadcast : broadcast s = false;
  fr_inv : prank_inv creates d s }.

Lemma fr_get creates d st s : frame_rel creates d st s → get_prank s d = recorded d <$> st.2.
Proof. intros Hr. rewrite get_prank_here by apply Hr. apply Hr. Qed.

(** The relation after a step: what it needs at [d], if the rest is kept. *)
Lemma fr_insert creates d st s f o :
  frame_rel creates d st s → base f = o →
  frame_rel creates d (o, Some f) (PrankState.mk (<[d := recorded d f]> (pranks s)) (broadcast s) o).
Proof.
  intros Hr Hb. split; cbn; [by rewrite lookup_insert_eq| |done|naive_solver|apply Hr|].
  - intros k Hk. rewrite lookup_insert_ne by lia. by apply Hr.
  - destruct (fr_inv _ _ _ _ Hr) as [H1 H2]. split; cbn.
    + intros k p [[<- <-]|[_ Hp]]%lookup_insert_Some; [cbn; lia|eauto].
    + intros Hc k p Hk [[<- <-]|[_ Hp]]%lookup_insert_Some; [lia|eauto].
Qed.

Lemma fr_clear creates d st s m o :
  frame_rel creates d st s → m = delete d (pranks s) ∨ m = ∅ →
  frame_rel creates d (o, None) (PrankState.mk m (broadcast s) o).
Proof.
  intros Hr Hm. assert (∀ k p, m !! k = Some p → k ≠ d ∧ pranks s !! k = Some p) as Hsub.
  { intros k p Hp. destruct Hm as [-> | ->]; [|done]. apply lookup_delete_Some in Hp as [? ?]. by split. }
  assert (∀ k, (k ≤ d)%Z → m !! k = None) as Hnone.
  { intros k Hk. apply eq_None_not_Some. intros [p [Hne Hp]%Hsub]. rewrite (fr_below _ _ _ _ Hr) in Hp; [done|lia]. }
  destruct (fr_inv _ _ _ _ Hr) as [H1 H2].
  split; cbn; [apply Hnone; lia|intros; apply Hnone; lia|done|done|apply Hr|].
  split; cbn; [intros k p [_ Hp]%Hsub; eauto|intros Hc k p Hk [_ Hp]%Hsub; eauto].
Qed.

(** A nested frame changes nothing but [tx.origin]. *)
Lemma fr_keeps creates d st s s' :
  frame_rel creates d st (set_origin st.1 s) → keeps creates d s s' →
  frame_rel creates d st (set_origin st.1 s').
Proof.
  intros [H1 H2 H3 H4 H5 H6] Hk. cbn in *. assert (prank_inv creates d s) as Hs by (destruct H6; by split).
  destruct (Hk Hs) as ([] & Hb & Hle).
  split; cbn; [rewrite Hle by lia; done|intros k Hlt; rewrite Hle by lia; auto|done|done|congruence|by split].
Qed.

(** Between the hooks the pending prank stays recorded. *)
Lemma fr_found creates d st s :
  frame_rel creates d st (set_origin st.1 s) → get_prank s d = recorded d <$> st.2.
Proof. intros Hr. exact (fr_get _ _ _ _ Hr). Qed.

Lemma set_origin_same s : set_origin (tx_caller s) s = s.
Proof. by destruct s. Qed.

Lemma fr_start creates d st s : frame_rel creates d st s → frame_rel creates d st (set_origin st.1 s).
Proof. intros Hr. rewrite <- (fr_origin _ _ _ _ Hr), set_origin_same. exact Hr. Qed.

Lemma mark_same b f : (b = true → applied f = true) → mark b f = f.
Proof. destruct f as [? ? ? ? ? ? [|]], b; cbn; try done. intros H. by specialize (H eq_refl). Qed.

Lemma recorded_marked d f :
  recorded d (mark true f) =
  Prank.mk (who f) (base f) (as_ f) (origin f) d (single f) (delegate f) true.
Proof. unfold recorded, mark. cbn. by rewrite orb_true_r. Qed.

(** The prank is applied to the calls of the frame and marked. *)
Lemma fr_call creates d o f s call :
  frame_rel creates d (o, Some f) s →
  let '(call', s1) := call_prank balance d call s in
  (call', tx_caller s1) = spec_call balance f call ∧
  frame_rel creates d (o, Some (mark (affects balance f call) f)) (set_origin o s1).
Proof.
  intros Hr. pose proof (fr_base _ _ _ _ Hr f eq_refl) as Hb. pose proof (fr_origin _ _ _ _ Hr) as Ho. cbn in Hb, Ho.
  unfold call_prank. rewrite (fr_get _ _ _ _ Hr). cbn.
  unfold call_prank_delegate, spec_call, affects, shown, delegated. cbn. rewrite Z.leb_refl, Z.eqb_refl. cbn.
  pose proof (fr_insert creates d _ s (mark true f) o Hr Hb) as Hins.
  rewrite recorded_marked in Hins.
  unfold Prank.first_time_applied.
  destruct (is_delegate (CallInputs.scheme call) && delegate f); cbn;
    (case_bool_decide; cbn; [destruct (applied f) eqn:Ea; cbn|]);
    destruct (origin f) as [no|]; cbn; split;
    first [by rewrite ?Hb, ?Ho, <- ?Ho | rewrite mark_same by done; apply fr_start in Hr; exact Hr | exact Hins].
Qed.

Lemma fr_cheat creates d st s caller c :
  frame_rel creates d st s →
  let '(s1, r) := apply_prank_cheat code d caller c s in
  (spec_cheat code st caller c).2 = r ∧ frame_rel creates d (spec_cheat code st caller c).1 s1.
Proof.
  intros Hr. rewrite apply_cheat_args. unfold spec_cheat, spec_prank, prank.
  destruct st as [o pend]. pose proof (fr_origin _ _ _ _ Hr) as Ho. cbn in Ho. subst o.
  destruct (cheat_args c) as [[[[m no] sg] dl]|]; [|split; [done|by apply (fr_clear _ _ _ _ _ _ Hr); left]].
  rewrite (fr_get _ _ _ _ Hr), (fr_broadcast _ _ _ _ Hr).
  pose proof (fr_insert _ _ _ _ (FramePrank.mk caller m no (tx_caller s) sg dl false) _ Hr eq_refl) as Hset.
  destruct (check_code code m dl) as [[]|e]; [|done]. destruct pend as [f|]; cbn; [|done].
  destruct (applied f); [|done]. by destruct (Bool.eqb sg (single f)).
Qed.

Lemma fr_call_end creates d st s :
  frame_rel creates d st (set_origin st.1 s) →
  frame_rel creates d
    (match st.2 with Some f => (st.1, next f) | None => (tx_caller s, None) end) (call_end_prank d s).
Proof.
  intros Hr. unfold call_end_prank. rewrite (fr_found _ _ _ _ Hr). destruct st as [o [f|]]; cbn in *.
  - rewrite Z.eqb_refl, (fr_base _ _ _ _ Hr f eq_refl). cbn. unfold next. destruct (single f); [|done].
    by apply (fr_clear _ _ _ _ _ _ Hr); left.
  - destruct Hr as [H1 H2 H3 H4 H5 []]. by split.
Qed.

Lemma fr_create_end creates d st s :
  frame_rel creates d st (set_origin st.1 s) →
  frame_rel creates d
    (match st.2 with Some f => (st.1, next f) | None => (tx_caller s, None) end) (create_end_prank d s).
Proof.
  intros Hr. unfold create_end_prank. rewrite (fr_found _ _ _ _ Hr). destruct st as [o [f|]]; cbn in *.
  - rewrite Z.eqb_refl, (fr_base _ _ _ _ Hr f eq_refl). cbn. unfold next. destruct (single f); [|done].
    by apply (fr_clear _ _ _ _ _ _ Hr); right.
  - destruct Hr as [H1 H2 H3 H4 H5 []]. by split.
Qed.


Lemma fr_create creates d o f s caller :
  frame_rel creates d (o, Some f) s →
  let '(caller', s1) := create_prank d caller s in
  (caller', tx_caller s1) = spec_create f caller ∧ frame_rel creates d (o, Some f) (set_origin o s1).
Proof.
  intros Hr. pose proof (fr_base _ _ _ _ Hr f eq_refl) as Hb. pose proof (fr_origin _ _ _ _ Hr) as Ho. cbn in Hb, Ho.
  unfold create_prank, spec_create. rewrite (fr_get _ _ _ _ Hr). cbn. rewrite Z.leb_refl, Z.eqb_refl. cbn.
  apply fr_start in Hr. destruct (decide (caller = who f)) as [->|];
    [rewrite bool_decide_true by done; destruct (origin f)|rewrite bool_decide_false by done];
    cbn; (split; [by rewrite ?Hb, ?Ho|exact Hr]).
Qed.

Lemma own_nested d es : Forall (λ e, (d + 1 ≤ e.1)%Z) es → own d es = [].
Proof.
  unfold own. induction 1 as [|e es He _ IH]; [done|]. rewrite filter_cons_False by lia. exact IH.
Qed.

Lemma own_cons d x es : Forall (λ e, (d + 1 ≤ e.1)%Z) es → own d ((d, x) :: es) = [x].
Proof. intros Hf. unfold own. rewrite filter_cons_True by done. cbn. f_equal. by apply own_nested. Qed.

Lemma tame_frame creates d body s :
  forallb (tame creates) body = true →
  keeps creates d s (run_frame code balance (d + 1) body s).1 ∧
  Forall (λ e, (d + 1 ≤ e.1)%Z) (run_frame code balance (d + 1) body s).2.
Proof.
  intros Ht%Is_true_true%forallb_True. revert s. apply run_list_ind; [apply _|].
  eapply Forall_impl; [exact Ht|]. cbn. intros a Ha%Is_true_true s. apply tame_action; [lia|done].
Qed.

(** One action of the frame. *)
Lemma frame_step creates d st s a :
  frame_rel creates d st s → forallb (tame creates) (body_of a) = true →
  ∃ o', own d (run_action code balance d a s).2 = (spec_step code balance o' st a).2 ∧
    frame_rel creates d (spec_step code balance o' st a).1 (run_action code balance d a s).1.
Proof.
  intros Hr Ht. destruct a as [caller c| | |call body|caller body].
  - exists 0%Z. cbn. pose proof (fr_cheat _ _ _ _ caller c Hr) as Hc.
    destruct (apply_prank_cheat code d caller c s) as [s1 r], (spec_cheat code st caller c) as [st1 r1].
    destruct Hc as [Hs Hc]. cbn in *. subst r1. split; [|done]. by apply own_cons.
  - exists 0%Z. by destruct st.
  - exists 0%Z. pose proof (fr_call_end _ _ _ _ (fr_start _ _ _ _ Hr)) as He.
    pose proof (fr_origin _ _ _ _ Hr) as Ho. destruct st as [o [f|]]; cbn in *; [done|]. by subst o.
  - rewrite run_call. cbn in Ht. destruct st as [o [f|]].
    + exists 0%Z. pose proof (fr_call _ _ _ _ _ call Hr) as Hc.
      destruct (call_prank balance d call s) as [call' s1]. destruct Hc as [Hs Hc].
      destruct (tame_frame creates d body s1 Ht) as [Hk Hf].
      destruct (run_frame code balance (d + 1) body s1) as [s2 es]. cbn in *.
      split; [rewrite own_cons by done; by rewrite <- Hs|].
      exact (fr_call_end _ _ _ _ (fr_keeps _ _ _ _ _ Hc Hk)).
    + unfold call_prank. rewrite (fr_get _ _ _ _ Hr). cbn.
      destruct (tame_frame creates d body s Ht) as [Hk Hf].
      destruct (run_frame code balance (d + 1) body s) as [s2 es]. cbn in *. exists (tx_caller s2).
      split; [rewrite own_cons by done; by rewrite (fr_origin _ _ _ _ Hr)|].
      exact (fr_call_end _ _ _ _ (fr_keeps _ _ _ _ _ (fr_start _ _ _ _ Hr) Hk)).
  - rewrite run_create. cbn in Ht. destruct st as [o [f|]].
    + exists 0%Z. pose proof (fr_create _ _ _ _ _ caller Hr) as Hc.
      destruct (create_prank d caller s) as [caller' s1]. destruct Hc as [Hs Hc].
      destruct (tame_frame creates d body s1 Ht) as [Hk Hf].
      destruct (run_frame code balance (d + 1) body s1) as [s2 es]. cbn in *.
      split; [rewrite own_cons by done; by rewrite <- Hs|].
      exact (fr_create_end _ _ _ _ (fr_keeps _ _ _ _ _ Hc Hk)).
    + unfold create_prank. rewrite (fr_get _ _ _ _ Hr). cbn.
      destruct (tame_frame creates d body s Ht) as [Hk Hf].
      destruct (run_frame code balance (d + 1) body s) as [s2 es]. cbn in *. exists (tx_caller s2).
      split; [rewrite own_cons by done; by rewrite (fr_origin _ _ _ _ Hr)|].
      exact (fr_create_end _ _ _ _ (fr_keeps _ _ _ _ _ (fr_start _ _ _ _ Hr) Hk)).
Qed.

Lemma frame_run creates d l st s :
  frame_rel creates d st s → forallb (λ a, forallb (tame creates) (body_of a)) l = true →
  ∃ st', spec_run code balance st l (own d (run_frame code balance d l s).2) st' ∧
    frame_rel creates d st' (run_frame code balance d l s).1.
Proof.
  revert st s. induction l as [|a l IH]; intros st s Hr Ht; [exists st; split; [constructor|done]|].
  cbn in Ht. apply andb_true_iff in Ht as [Ha Ht].
  destruct (frame_step _ _ _ _ _ Hr Ha) as (o' & Hown & Hr1). cbn.
  destruct (run_action code balance d a s) as [s1 e1]. destruct (IH _ _ Hr1 Ht) as (st' & Hrun & Hr').
  cbn in *. change (run_list (run_action code balance d) l s1) with (run_frame code balance d l s1).
  destruct (run_frame code balance d l s1) as [s2 e2]. exists st'. split; [|done].
  cbn. unfold own in *. rewrite filter_app, fmap_app, Hown. by constructor.
Qed.

(** ** Runs that set no origin *)

Fixpoint no_origin (a : action) : bool :=
  match a with
  | ACheat _ c => match cheat_args c with Some (_, Some _, _, _) => false | _ => true end
  | AOther | AMocked => true
  | ACall _ body | ACreate _ body => forallb no_origin body
  end.

Record plain (o : Address) s : Prop := {
  pl_origin : tx_caller s = o;
  pl_pranks : ∀ k p, pranks s !! k = Some p → Prank.new_origin p = None ∧ Prank.prank_origin p = o }.

Lemma plain_found o s d p : plain o s → get_prank s d = Some p → Prank.new_origin p = None ∧ Prank.prank_origin p = o.
Proof. intros Hp (k & _ & Hk & _)%get_prank_Some. by eapply pl_pranks. Qed.

Lemma plain_insert o s k p :
  plain o s → Prank.new_origin p = None ∧ Prank.prank_origin p = o →
  plain o (set_pranks (<[k := p]> (pranks s)) s).
Proof. intros [H1 H2] Hp. split; [done|]. cbn. intros k' q [[_ <-]|[_ Hq]]%lookup_insert_Some; eauto. Qed.

Lemma plain_subset o s m : plain o s → m ⊆ pranks s → plain o (set_pranks m s).
Proof. intros [H1 H2] Hm. split; [done|]. cbn. intros k p Hp. eapply H2, lookup_weaken; eauto. Qed.

Lemma plain_cheat o d caller c s :
  plain o s → no_origin (ACheat caller c) = true → plain o (apply_prank_cheat code d caller c s).1.
Proof.
  intros Hp Hc. rewrite apply_cheat_args. cbn in Hc.
  destruct (cheat_args c) as [[[[m [no|]] sg] dl]|]; [done| |by apply plain_subset, delete_subseteq].
  unfold prank. repeat case_match; simplify_eq/=; try done;
    (apply plain_insert; [done|split; [done|apply Hp]]).
Qed.

Lemma plain_call o d call s : plain o s → plain o (call_prank balance d call s).2.
Proof.
  intros Hp. unfold call_prank. destruct (get_prank s d) as [p|] eqn:E; [|done].
  destruct (plain_found _ _ _ _ Hp E) as [Hno Hpo]. unfold call_prank_delegate, Prank.first_time_applied.
  rewrite Hno. cbn. repeat (case_match; simplify_eq/=); try done; apply plain_insert; done.
Qed.

Lemma plain_create o d caller s : plain o s → plain o (create_prank d caller s).2.
Proof.
  intros Hp. unfold create_prank. destruct (get_prank s d) as [p|] eqn:E; [|done].
  destruct (plain_found _ _ _ _ Hp E) as [-> _]. by case_match.
Qed.

Lemma plain_ends o d s : plain o s → plain o (call_end_prank d s) ∧ plain o (create_end_prank d s).
Proof.
  intros Hp. unfold call_end_prank, create_end_prank. destruct (get_prank s d) as [p|] eqn:E; [|done].
  destruct (plain_found _ _ _ _ Hp E) as [_ ->]. rewrite <- (pl_origin _ _ Hp), set_origin_same.
  rewrite (pl_origin _ _ Hp). case_match; [|done]. case_match; [|done].
  split; (apply plain_subset; [done|]); [apply delete_subseteq|apply map_empty_subseteq].
Qed.

Lemma plain_list o d l s :
  Forall (λ a, ∀ d s, no_origin a = true → plain o s → plain o (run_action code balance d a s).1) l →
  forallb no_origin l = true → plain o s → plain o (run_frame code balance d l s).1.
Proof.
  intros Ha Hn%Is_true_true%forallb_True.
  refine (proj1 (run_list_ind (run_action code balance d) (λ s s', plain o s → plain o s') (λ _, True) l _ s)).
  - split; [by intros ?|]. intros s1 s2 s3 H1 H2 H. auto.
  - eapply Forall_impl; [by apply Forall_and; split; [exact Ha|exact Hn]|]. cbn.
    intros a [H Hna%Is_true_true] s'. split; [by apply H|by apply Forall_true].
Qed.

Lemma plain_action o a d s : no_origin a = true → plain o s → plain o (run_action code balance d a s).1.
Proof.
  revert d s. induction a as [caller c| | |call body IH|caller body IH] using action_ind'; intros d s Hn Hp.
  - cbn. pose proof (plain_cheat o d caller c s Hp Hn). by destruct (apply_prank_cheat _ _ _ _ _).
  - done.
  - by apply plain_ends.
  - rewrite run_call. pose proof (plain_call o d call s Hp) as Hc. destruct (call_prank balance d call s) as [call' s1].
    pose proof (plain_list o (d + 1) body s1 IH Hn Hc). destruct (run_frame code balance (d + 1) body s1). by apply plain_ends.
  - rewrite run_create. pose proof (plain_create o d caller s Hp) as Hc. destruct (create_prank d caller s) as [caller' s1].
    pose proof (plain_list o (d + 1) body s1 IH Hn Hc). destruct (run_frame code balance (d + 1) body s1). by apply plain_ends.
Qed.

Lemma plain_frame o d l s : forallb no_origin l = true → plain o s → plain o (run_frame code balance d l s).1.
Proof.
  intros Hn. intros Hp. apply plain_list; [|done..]. apply Forall_forall. intros a _ d' s'. apply plain_action.
Qed.
End frames.


(** ** Examples *)

Module PrankExample.
Definition tester : Address := 1%Z.
Definition sender : Address := 2%Z.
Definition player : Address := 3%Z.
Definition origin : Address := 4%Z.
Definition target : Address := 5%Z.
Definition code (a : Address) : result (list Z) string := if decide (a = player) then Ok [0%Z] else Ok [].
Definition start : PrankState.t := PrankState.mk ∅ false sender.
Definition call (from : Address) (scheme : CallScheme) : CallInputs.t := CallInputs.mk from target (Transfer 0) scheme.
Definition run (l : list action) : PrankState.t * list (Z * seen) := run_frame code (λ _, 7%Z) 1 l start.

(** A prank of one call, whose callee pranks and calls itself; a second call. *)
Definition nested : list action :=
  [ACheat tester (Prank_1 player origin);
   ACall (call tester SchemeCall) [ACheat target (Prank_0 sender); ACall (call target SchemeCall) []];
   ACall (call tester SchemeCall) []].
End PrankExample.


(** The clean-up of a creation forgets the pranks of every depth: if the callee
    creates a contract under a prank of its own, the pranked origin stays. *)
Lemma create_clears_outer :
  let '(s, es) := PrankExample.run
    [ACheat PrankExample.tester (Prank_1 PrankExample.player PrankExample.origin);
     ACall (PrankExample.call PrankExample.tester SchemeCall)
       [ACheat PrankExample.target (Prank_0 PrankExample.player); ACreate PrankExample.target []];
     ACall (PrankExample.call PrankExample.tester SchemeCall) []] in
  tx_caller s = PrankExample.origin ∧
  last (own 1 es) = Some (SeenCall (PrankExample.call PrankExample.tester SchemeCall) PrankExample.origin).
Proof. by vm_compute. Qed.

(** A prank with an origin that is first applied in a library is copied to the
    library's depth, and the copy outlives [stopPrank]: a later library call
    sees the pranked origin, which stays. *)
Lemma copy_outlives_stop :
  let library := ACall (PrankExample.call PrankExample.sender SchemeDelegateCall)
                   [ACall (PrankExample.call PrankExample.tester SchemeCall) []] in
  let '(s, es) := PrankExample.run
    [ACheat PrankExample.tester (StartPrank_1 PrankExample.player PrankExample.origin); library;
     ACheat PrankExample.tester StopPrank; library] in
  tx_caller s = PrankExample.origin ∧
  last (own 2 es) = Some (SeenCall (PrankExample.call PrankExample.tester SchemeCall) PrankExample.origin).
Proof. by vm_compute. Qed.

(** A prank that is applied to a creation or to a delegate call counts as not
    applied. *)
Lemma applied_not_marked :
  let again := ACheat PrankExample.tester (StartPrank_0 PrankExample.sender) in
  own 1 (PrankExample.run [ACheat PrankExample.tester (StartPrank_0 PrankExample.player);
      ACreate PrankExample.tester []; again]).2 =
    [SeenCheat (Ok tt); SeenCreate PrankExample.player PrankExample.sender; SeenCheat (Err NotApplied)] ∧
  own 1 (PrankExample.run [ACheat PrankExample.tester (StartPrank_2 PrankExample.player true);
      ACall (PrankExample.call PrankExample.sender SchemeDelegateCall) []; again]).2 =
    [SeenCheat (Ok tt);
     SeenCall (CallInputs.mk PrankExample.player PrankExample.player (Apparent 7) SchemeDelegateCall) PrankExample.sender;
     SeenCheat (Err NotApplied)].
Proof. by vm_compute. Qed.

(** A delegate prank also redirects the delegate calls other contracts make
    deeper, here one of the callee. *)
Lemma delegate_prank_any_depth :
  own 2 (PrankExample.run [ACheat PrankExample.tester (Prank_2 PrankExample.player true);
      ACall (PrankExample.call PrankExample.tester SchemeCall)
        [ACall (PrankExample.call PrankExample.target SchemeDelegateCall) []]]).2 =
    [SeenCall (CallInputs.mk PrankExample.player PrankExample.player (Apparent 7) SchemeDelegateCall) PrankExample.sender].
Proof. by vm_compute. Qed.
