(* ===== verification/Frames.v ===== *)
(** What the cheatcode inspector shares with revm and alloy: the inputs and the
    outcome of a frame, gas, logs, and the errors of cheatcodes
    (cheatcodes/src/error.rs, cheatcodes/src/inspector/utils.rs). *)
From stdpp Require Import strings gmap.
From S2P Require Import Prelude Radix Pranks.

(** Bytes are numbers below 256. *)
Abbreviation Bytes := (list Z).

(** The order in which a [HashMap] is iterated. *)
Class IterOrder := {
  iter : ∀ {K V} `{Countable K}, gmap K V → list (K * V);
  iter_perm : ∀ {K V} `{Countable K} (m : gmap K V), iter m ≡ₚ map_to_list m
}.

Definition default_iter_order : IterOrder :=
  {| iter K V _ _ m := map_to_list m; iter_perm K V _ _ m := Permutation_refl _ |}.

Lemma elem_of_iter `{IterOrder} {K V} `{Countable K} (m : gmap K V) k v : (k, v) ∈ iter m ↔ m !! k = Some v.
Proof. rewrite <-elem_of_map_to_list. by apply elem_of_Permutation_proper, iter_perm. Qed.

(** ** Results of a frame *)

(** [InstructionResult] of revm; [Halt] stands for the error codes. *)
Inductive InstructionResult :=
  | Continue | Stop | Return | SelfDestruct | ReturnContract
  | Revert | CallTooDeep | OutOfFunds | CreateInitCodeStartingEF00 | InvalidEOFInitCode
  | InvalidExtDelegateCallTarget
  | CallOrCreate
  | Halt (code : Z).

#[export] Instance InstructionResult_eq : EqDecision InstructionResult.
Proof. solve_decision. Defined.

(** The patterns [return_ok!] and [return_revert!]. *)
Definition return_ok (r : InstructionResult) : bool :=
  match r with Continue | Stop | Return | SelfDestruct | ReturnContract => true | _ => false end.

Definition return_revert (r : InstructionResult) : bool :=
  match r with
  | Revert | CallTooDeep | OutOfFunds | CreateInitCodeStartingEF00 | InvalidEOFInitCode
  | InvalidExtDelegateCallTarget => true
  | _ => false
  end.

Module Gas.
Record t := mk { limit : Z; remaining : Z; refunded : Z }.
Definition new (limit : Z) : t := mk limit limit 0.
Definition spent (g : t) : Z := (limit g - remaining g)%Z.
End Gas.

Module InterpreterResult.
Record t := mk { result : InstructionResult; output : Bytes; gas : Gas.t }.
Definition is_ok (r : t) : bool := return_ok (result r).
Definition is_revert (r : t) : bool := return_revert (result r).
Definition set_output (o : Bytes) (r : t) : t := mk (result r) o (gas r).
End InterpreterResult.

Module CallOutcome.
Record t := mk { result : InterpreterResult.t; memory_offset : Z * Z }.
(** The status and the output of an outcome replaced. *)
Definition answer (s : InstructionResult) (o : Bytes) (c : t) : t :=
  mk (InterpreterResult.mk s o (InterpreterResult.gas (result c))) (memory_offset c).
Definition status (c : t) : InstructionResult := InterpreterResult.result (result c).
Definition output (c : t) : Bytes := InterpreterResult.output (result c).
End CallOutcome.

Module CreateOutcome.
Record t := mk { result : InterpreterResult.t; address : option Z }.
Definition answer (s : InstructionResult) (o : Bytes) (a : option Z) (c : t) : t :=
  mk (InterpreterResult.mk s o (InterpreterResult.gas (result c))) a.
Definition status (c : t) : InstructionResult := InterpreterResult.result (result c).
Definition output (c : t) : Bytes := InterpreterResult.output (result c).
End CreateOutcome.

(** ** Inputs of a frame *)

Module Call.
Record t := mk {
  input : Bytes; return_memory_offset : Z * Z; gas_limit : Z; bytecode_address : Z;
  target_address : Z; caller : Z; value : CallValue; scheme : CallScheme; is_static : bool }.

Definition transfer_value (c : t) : option Z :=
  match value c with Transfer v => Some v | Apparent _ => None end.
Definition call_value (c : t) : Z := match value c with Transfer v | Apparent v => v end.

Definition set_caller (a : Z) (c : t) : t :=
  mk (input c) (return_memory_offset c) (gas_limit c) (bytecode_address c) (target_address c) a
    (value c) (scheme c) (is_static c).
Definition set_bytecode_address (a : Z) (c : t) : t :=
  mk (input c) (return_memory_offset c) (gas_limit c) a (target_address c) (caller c)
    (value c) (scheme c) (is_static c).

(** The fields a prank reads or changes, and their update. *)
Definition to_prank (c : t) : CallInputs.t :=
  CallInputs.mk (caller c) (target_address c) (value c) (scheme c).
Definition of_prank (p : CallInputs.t) (c : t) : t :=
  mk (input c) (return_memory_offset c) (gas_limit c) (bytecode_address c)
    (CallInputs.target_address p) (CallInputs.caller p) (CallInputs.value p)
    (CallInputs.scheme p) (is_static c).
End Call.

(** [CreateScheme] of revm. *)
Inductive RevmCreateScheme := RevmCreate | RevmCreate2 (salt : Z).

(** [CreateInputs], or [EOFCreateInputs] with the address its kind carries. *)
Inductive CreateKind :=
  | Legacy (scheme : RevmCreateScheme)
  | Eof (created_address : option Z).

Module CreateInput.
Record t := mk { caller : Z; gas_limit : Z; value : Z; init_code : Bytes; kind : CreateKind }.
Definition scheme (c : t) : option RevmCreateScheme :=
  match kind c with Legacy s => Some s | Eof _ => None end.
Definition set_caller (a : Z) (c : t) : t := mk a (gas_limit c) (value c) (init_code c) (kind c).
End CreateInput.

(** ** Logs *)

(** [LogData]: at most four topics, and the data. *)
Abbreviation RawLog := (list Z * Bytes)%type.
Definition topics (l : RawLog) : list Z := l.1.
Definition log_data (l : RawLog) : Bytes := l.2.

Module Log.
Record t := mk { address : Z; data : RawLog }.
End Log.

(** ** Errors of cheatcodes *)

Inductive Error := ErrStr (s : Str) | ErrBytes (b : Bytes).

(** Functions of alloy: ABI encoding and decoding, and text. *)
Class Alloy := {
  (** [Vm::CheatcodeError { message }.abi_encode()] *)
  abi_cheatcode_error : Str → Bytes;
  CHEATCODE_ERROR_SELECTOR : Bytes;
  REVERT_SELECTOR : Bytes;
  (** [str::abi_encode] and [String::abi_decode(_, true)] *)
  abi_string : Str → Bytes;
  abi_decode_string : Bytes → option Str;
  (** [Vec::<u8>::abi_decode(_, false)] *)
  abi_decode_bytes : Bytes → option Bytes;
  (** [Display] of an address, with its checksum *)
  address_str : Z → Str
}.

Definition abi_encode `{Alloy} (e : Error) : Bytes :=
  match e with ErrStr s => abi_cheatcode_error s | ErrBytes b => b end.

(** [hex::encode_prefixed] *)
Definition hex_byte (b : Z) : Str := [digit_char (b / 16); digit_char (b mod 16)].
Definition encode_prefixed (b : Bytes) : Str := str "0x" ++ (b ≫= hex_byte).

(** [itertools::join] *)
Fixpoint join (sep : Str) (l : list Str) : Str :=
  match l with [] => [] | [s] => s | s :: l => s ++ sep ++ join sep l end.

(** [s.get(..n)] *)
Definition get_prefix (n : nat) (l : Bytes) : option Bytes :=
  if decide (n ≤ length l) then Some (take n l) else None.

Lemma get_prefix_Some n l p : get_prefix n l = Some p ↔ length p = n ∧ p `prefix_of` l.
Proof.
  unfold get_prefix. split.
  - intros ?. case_decide; simplify_eq. split; [rewrite length_take; lia|].
    exists (drop n l). by rewrite take_drop.
  - intros [<- [k ->]]. rewrite decide_True by (rewrite length_app; lia). by rewrite take_app_length.
Qed.
