(* ===== verification/ExpectEmit.v ===== *)
(** Expected events (cheatcodes/src/test/expect.rs) and the check of them at the
    end of a call (cheatcodes/src/inspector.rs).

    The tracker is a queue.  A declared expectation waits for the next log,
    which becomes its template; once every expectation has one, each further
    log is compared with the front of the queue, and an expectation that is
    found moves to the back. *)
From stdpp Require Import strings gmap.
From S2P Require Import Prelude Radix Frames.

(** [checks : [bool; 5]]: the four topics and the data. *)
Record Checks := mk_checks {
  check_topic0 : bool; check_topic1 : bool; check_topic2 : bool; check_topic3 : bool;
  check_data : bool }.

(** [checks[i]]; a log has at most four topics. *)
Definition check_at (c : Checks) (i : nat) : bool :=
  match i with
  | 0 => check_topic0 c | 1 => check_topic1 c | 2 => check_topic2 c | 3 => check_topic3 c
  | 4 => check_data c | _ => false
  end.

Definition all_checks : Checks := mk_checks true true true true true.

Definition checks_topics_and_data (checks : Checks) (expected log : RawLog) : bool :=
  if negb (length (topics log) =? length (topics expected)) then false
  else if negb (forallb (λ x, bool_decide (topics expected !! x.1 = Some x.2))
                  (filter (λ x, check_at checks x.1 = true) (imap pair (topics log)))) then false
  else if check_data checks && bool_decide (log_data expected ≠ log_data log) then false
  else true.

Module ExpectedEmit.
Record t := mk {
  depth : Z; log : option RawLog; checks : Checks; address : option Z; anonymous : bool;
  found : bool; count : Z }.
Definition set_log (l : RawLog) (e : t) : t :=
  mk (depth e) (Some l) (checks e) (address e) (anonymous e) (found e) (count e).
Definition set_found (b : bool) (e : t) : t :=
  mk (depth e) (log e) (checks e) (address e) (anonymous e) b (count e).
End ExpectedEmit.

(** ** Counts per emitter *)

Module LogCountMap.
Record t := mk { checks : Checks; expected_log : RawLog; map : gmap RawLog Z }.

(** The template is there when the map is made. *)
Definition new (checks : Checks) (expected_log : RawLog) : t := mk checks expected_log ∅.

Definition satisfies_checks (m : t) (log : RawLog) : bool :=
  checks_topics_and_data (checks m) (expected_log m) log.

Definition insert (log : RawLog) (m : t) : t * bool :=
  match map m !! log with
  | Some c => (mk (checks m) (expected_log m) (<[log := (c + 1)%Z]> (map m)), true)
  | None =>
      if satisfies_checks m log
      then (mk (checks m) (expected_log m) (<[log := 1%Z]> (map m)), true)
      else (m, false)
  end.

Definition count_unchecked (m : t) : Z := map_fold (λ _ c acc, (c + acc)%Z) 0%Z (map m).

Definition count (m : t) (log : RawLog) : Z :=
  if satisfies_checks m log then count_unchecked m else 0%Z.
End LogCountMap.

Abbreviation CountMap := (gmap Z LogCountMap.t).
Abbreviation ExpectedEmitTracker := (list (ExpectedEmit.t * CountMap)).

(** ** The cheatcodes *)

(** [Iterator::position] *)
Fixpoint position {A} (p : A → bool) (l : list A) : option nat :=
  match l with
  | [] => None
  | x :: l => if p x then Some 0 else S <$> position p l
  end.

(** [VecDeque::insert] *)
Definition insert_at {A} (i : nat) (x : A) (l : list A) : list A := take i l ++ x :: drop i l.

Definition is_found (x : ExpectedEmit.t * CountMap) : bool := ExpectedEmit.found x.1.

Definition expect_emit (depth : Z) (checks : Checks) (address : option Z) (anonymous : bool)
    (count : Z) (q : ExpectedEmitTracker) : ExpectedEmitTracker :=
  let expected_emit := ExpectedEmit.mk depth None checks address anonymous false count in
  match position is_found q with
  | Some i => insert_at i (expected_emit, ∅) q
  | None => q ++ [(expected_emit, ∅)]
  end.

Inductive EmitCheat :=
  | ExpectEmit_0 (checkTopic1 checkTopic2 checkTopic3 checkData : bool)
  | ExpectEmit_1 (checkTopic1 checkTopic2 checkTopic3 checkData : bool) (emitter : Z)
  | ExpectEmit_2
  | ExpectEmit_3 (emitter : Z)
  | ExpectEmit_4 (checkTopic1 checkTopic2 checkTopic3 checkData : bool) (count : Z)
  | ExpectEmit_5 (checkTopic1 checkTopic2 checkTopic3 checkData : bool) (emitter count : Z)
  | ExpectEmit_6 (count : Z)
  | ExpectEmit_7 (emitter count : Z)
  | ExpectEmitAnonymous_0 (checkTopic0 checkTopic1 checkTopic2 checkTopic3 checkData : bool)
  | ExpectEmitAnonymous_1 (checkTopic0 checkTopic1 checkTopic2 checkTopic3 checkData : bool) (emitter : Z)
  | ExpectEmitAnonymous_2
  | ExpectEmitAnonymous_3 (emitter : Z).

Definition apply_emit_cheat (depth : Z) (c : EmitCheat) : ExpectedEmitTracker → ExpectedEmitTracker :=
  match c with
  | ExpectEmit_0 t1 t2 t3 d => expect_emit depth (mk_checks true t1 t2 t3 d) None false 1
  | ExpectEmit_1 t1 t2 t3 d a => expect_emit depth (mk_checks true t1 t2 t3 d) (Some a) false 1
  | ExpectEmit_2 => expect_emit depth all_checks None false 1
  | ExpectEmit_3 a => expect_emit depth all_checks (Some a) false 1
  | ExpectEmit_4 t1 t2 t3 d n => expect_emit depth (mk_checks true t1 t2 t3 d) None false n
  | ExpectEmit_5 t1 t2 t3 d a n => expect_emit depth (mk_checks true t1 t2 t3 d) (Some a) false n
  | ExpectEmit_6 n => expect_emit depth all_checks None false n
  | ExpectEmit_7 a n => expect_emit depth all_checks (Some a) false n
  | ExpectEmitAnonymous_0 t0 t1 t2 t3 d => expect_emit depth (mk_checks t0 t1 t2 t3 d) None true 1
  | ExpectEmitAnonymous_1 t0 t1 t2 t3 d a => expect_emit depth (mk_checks t0 t1 t2 t3 d) (Some a) true 1
  | ExpectEmitAnonymous_2 => expect_emit depth all_checks None true 1
  | ExpectEmitAnonymous_3 a => expect_emit depth all_checks (Some a) true 1
  end.

Section emits.
Context `{IterOrder} `{Alloy}.

(** ** The [log] hook *)

(** The count map after a log. *)
Definition count_log (e : ExpectedEmit.t) (expected : RawLog) (log : Log.t) (m : CountMap) : CountMap :=
  match m !! Log.address log with
  | Some c => <[Log.address log := (LogCountMap.insert (Log.data log) c).1]> m
  | None =>
      let c := LogCountMap.new (ExpectedEmit.checks e) expected in
      if LogCountMap.satisfies_checks c (Log.data log)
      then <[Log.address log := (LogCountMap.insert (Log.data log) c).1]> m
      else m
  end.

(** The closure that decides [found]. *)
Definition log_found (e : ExpectedEmit.t) (expected : RawLog) (log : Log.t) (m : CountMap) : bool :=
  if negb (checks_topics_and_data (ExpectedEmit.checks e) expected (Log.data log)) then false
  else if bool_decide (is_Some (ExpectedEmit.address e) ∧ ExpectedEmit.address e ≠ Some (Log.address log))
  then false
  else match ExpectedEmit.address e with
       | Some emitter =>
           match m !! emitter with
           | Some c => (ExpectedEmit.count e <=? LogCountMap.count c (Log.data log))%Z
           | None => false
           end
       | None =>
           match List.find (λ c, LogCountMap.satisfies_checks c (Log.data log)) (iter m).*2 with
           | Some c => (ExpectedEmit.count e <=? LogCountMap.count c (Log.data log))%Z
           | None => false
           end
       end.

(** [handle_expect_emit]: the queue, and whether the frame is made to revert.
    The queue is not empty when an element is taken out of it. *)
Definition handle_expect_emit (log : Log.t) (q : ExpectedEmitTracker) :
    option (ExpectedEmitTracker * bool) :=
  if forallb is_found q then Some (q, false)
  else
    let should_fill_logs := existsb (λ x, bool_decide (ExpectedEmit.log x.1 = None)) q in
    let index_to_fill_or_check :=
      if should_fill_logs then default (length q) (position is_found q) - 1 else 0 in
    x ← q !! index_to_fill_or_check;
    let '(e, count_map) := x in
    let q := delete index_to_fill_or_check q in
    match ExpectedEmit.log e with
    | None =>
        if ExpectedEmit.anonymous e || bool_decide (topics (Log.data log) ≠ []) then
          Some (insert_at index_to_fill_or_check (ExpectedEmit.set_log (Log.data log) e, count_map) q, false)
        else Some (q, true)
    | Some expected =>
        let count_map := count_log e expected log count_map in
        let found := log_found e expected log count_map in
        let e := ExpectedEmit.set_found found e in
        Some (if found then q ++ [(e, count_map)] else (e, count_map) :: q, false)
    end.

(** ** The end of a call *)

(** How often the event of an expectation was seen. *)
Definition emit_count (x : ExpectedEmit.t * CountMap) : Z :=
  let '(expected, count_map) := x in
  match ExpectedEmit.address expected with
  | Some emitter =>
      match count_map !! emitter with
      | Some c => match ExpectedEmit.log expected with
                  | Some l => LogCountMap.count c l
                  | None => LogCountMap.count_unchecked c
                  end
      | None => 0%Z
      end
  | None =>
      match ExpectedEmit.log expected with
      | Some l => foldr (λ c acc, (LogCountMap.count c l + acc)%Z) 0%Z (iter count_map).*2
      | None => foldr (λ c acc, (LogCountMap.count_unchecked c + acc)%Z) 0%Z (iter count_map).*2
      end
  end.

Definition REVERTED_INSTEAD : Str :=
  str "expected an emit, but the call reverted instead. ensure you're testing the happy path when using `expectEmit`".

(** The checks of [call_end]: the outcome when it is replaced, and the queue. *)
Definition call_end_emits (depth : Z) (is_static : bool) (outcome : CallOutcome.t)
    (q : ExpectedEmitTracker) : ExpectedEmitTracker * option CallOutcome.t :=
  if existsb (λ x, ExpectedEmit.depth x.1 =? depth)%Z q && negb is_static then
    let expected_counts := filter (λ x, emit_count x ≠ ExpectedEmit.count x.1) q in
    if existsb (λ x, negb (is_found x)) q then
      (q, Some (CallOutcome.answer Revert (abi_string (str "log != expected log")) outcome))
    else
      match expected_counts with
      | x :: _ =>
          let msg := if InterpreterResult.is_ok (CallOutcome.result outcome)
                     then str "log emitted " ++ to_radix 10 (emit_count x) ++ str " times, expected " ++
                            to_radix 10 (ExpectedEmit.count x.1)
                     else REVERTED_INSTEAD in
          (q, Some (CallOutcome.answer Revert (abi_encode (ErrStr msg)) outcome))
      | [] => ([], None)
      end
  else (q, None).

(** What is left over at the end of the root call. *)
Definition root_end_emits (outcome : CallOutcome.t) (q : ExpectedEmitTracker) :
    ExpectedEmitTracker * option CallOutcome.t :=
  let q := filter (λ x, (0 < ExpectedEmit.count x.1)%Z ∧ ExpectedEmit.found x.1 = false) q in
  match q with
  | [] => (q, None)
  | _ =>
      let msg := if InterpreterResult.is_ok (CallOutcome.result outcome)
                 then str "expected an emit, but no logs were emitted afterwards. you might have mismatched events or not enough events were emitted"
                 else REVERTED_INSTEAD in
      (q, Some (CallOutcome.answer Revert (abi_encode (ErrStr msg)) outcome))
  end.
End emits.
