(* ===== verification/ExpectEmitTheorems.v ===== *)
(** What [vm.expectEmit] promises: the queue of expectations accepts exactly the
    logs in which the expected events appear in order, each as often as it is
    expected.  Where the code differs from its documentation, the last section
    shows how. *)
From stdpp Require Import strings gmap.
From S2P Require Import Prelude Radix Frames ExpectEmit.

(** ** Counts *)

Lemma count_unchecked_insert (m : gmap RawLog Z) l n c e :
  LogCountMap.count_unchecked (LogCountMap.mk c e (<[l := n]> m)) =
  (n - default 0%Z (m !! l) + LogCountMap.count_unchecked (LogCountMap.mk c e m))%Z.
Proof.
  unfold LogCountMap.count_unchecked; cbn.
  assert (∀ (m' : gmap RawLog Z) x, m' !! l = None →
    map_fold (λ _ c acc, (c + acc)%Z) 0%Z (<[l := x]> m') = (x + map_fold (λ _ c acc, (c + acc)%Z) 0%Z m')%Z) as Hi.
  { intros m' x Hm. apply map_fold_insert_L; [intros; lia|done]. }
  destruct (m !! l) as [v|] eqn:Hl; cbn.
  - rewrite <-(insert_delete_eq m l n), Hi by apply lookup_delete_eq.
    rewrite <-(insert_delete_id m l v Hl) at 2. rewrite Hi by apply lookup_delete_eq. lia.
  - rewrite Hi by done. lia.
Qed.

(** A log counts for an expectation with a template if it passes the checks and
    comes from the emitter. *)
Definition passes (e : ExpectedEmit.t) (t : RawLog) (l : Log.t) : bool :=
  checks_topics_and_data (ExpectedEmit.checks e) t (Log.data l).

Definition from_emitter (e : ExpectedEmit.t) (l : Log.t) : bool :=
  match ExpectedEmit.address e with Some a => (Log.address l =? a)%Z | None => true end.

Definition emit_matches (e : ExpectedEmit.t) (l : Log.t) : bool :=
  match ExpectedEmit.log e with Some t => passes e t l && from_emitter e l | None => false end.

Definition tally {A} (p : A → bool) (l : list A) : Z := Z.of_nat (length (List.filter p l)).

Lemma tally_snoc {A} (p : A → bool) l x : tally p (l ++ [x]) = (tally p l + if p x then 1 else 0)%Z.
Proof. unfold tally. rewrite List.filter_app, length_app. cbn. destruct (p x); cbn; lia. Qed.

Lemma tally_nonneg {A} (p : A → bool) l : (0 ≤ tally p l)%Z.
Proof. unfold tally. lia. Qed.

Lemma tally_le {A} (p q : A → bool) l : (∀ x, p x = true → q x = true) → (tally p l ≤ tally q l)%Z.
Proof.
  intros Hpq. unfold tally. induction l as [|x l IH]; cbn; [lia|]. specialize (Hpq x).
  destruct (p x), (q x); cbn; naive_solver lia.
Qed.

(** The count maps hold, per emitter, how many of the logs passed. *)
Record counted (e : ExpectedEmit.t) (t : RawLog) (seen : list Log.t) (a : Z) (c : LogCountMap.t) : Prop := {
  ct_checks : LogCountMap.checks c = ExpectedEmit.checks e;
  ct_log : LogCountMap.expected_log c = t;
  ct_keys : ∀ l n, LogCountMap.map c !! l = Some n →
    checks_topics_and_data (ExpectedEmit.checks e) t l = true;
  ct_count : LogCountMap.count_unchecked c = tally (λ l, passes e t l && (Log.address l =? a)%Z) seen;
  ct_some : (0 < LogCountMap.count_unchecked c)%Z }.

Definition counts_ok (e : ExpectedEmit.t) (t : RawLog) (seen : list Log.t) (m : CountMap) : Prop :=
  ∀ a, match m !! a with
       | Some c => counted e t seen a c
       | None => tally (λ l, passes e t l && (Log.address l =? a)%Z) seen = 0%Z
       end.

Lemma counts_ok_nil e t : counts_ok e t [] ∅.
Proof. intros a. by rewrite lookup_empty. Qed.

Lemma counts_ok_ext e e' t seen m :
  ExpectedEmit.checks e = ExpectedEmit.checks e' → counts_ok e t seen m → counts_ok e' t seen m.
Proof.
  intros He Hm a. specialize (Hm a). unfold passes in *. rewrite He in Hm. destruct (m !! a); [|done].
  destruct Hm as [H1 H2 H3 H4 H5]. split; unfold passes in *; rewrite <-?He; auto; by rewrite ?He.
Qed.

Lemma insert_counted e t seen l c :
  counted e t seen (Log.address l) c → counted e t (seen ++ [l]) (Log.address l) (LogCountMap.insert (Log.data l) c).1.
Proof.
  intros [H1 H2 H3 H4 H5]. unfold LogCountMap.insert, LogCountMap.satisfies_checks. rewrite H1, H2.
  assert (∀ n : Z, n = default 0%Z (LogCountMap.map c !! Log.data l) →
    passes e t l = true →
    counted e t (seen ++ [l]) (Log.address l)
      (LogCountMap.mk (ExpectedEmit.checks e) t (<[Log.data l := (n + 1)%Z]> (LogCountMap.map c)))) as Hins.
  { intros n Hn Hp. assert (LogCountMap.count_unchecked (LogCountMap.mk (ExpectedEmit.checks e) t
      (<[Log.data l := (n + 1)%Z]> (LogCountMap.map c))) = (LogCountMap.count_unchecked c + 1)%Z) as Hc.
    { rewrite count_unchecked_insert, <-Hn. unfold LogCountMap.count_unchecked; cbn. lia. }
    split; cbn; auto.
    - intros l' n'. destruct (decide (Log.data l = l')) as [<-|]; [done|].
      rewrite lookup_insert_ne by done. apply H3.
    - rewrite Hc, H4, tally_snoc, Hp, Z.eqb_refl. done.
    - lia. }
  destruct (LogCountMap.map c !! Log.data l) as [n|] eqn:Hl; cbn.
  - apply Hins; [done|]. unfold passes. by eapply H3.
  - destruct (checks_topics_and_data _ _ _) eqn:Hp; cbn.
    + apply (Hins 0%Z); done.
    + split; auto. rewrite tally_snoc. unfold passes at 2. rewrite Hp. cbn. lia.
Qed.

Lemma count_log_ok e t seen l m :
  counts_ok e t seen m → counts_ok e t (seen ++ [l]) (count_log e t l m).
Proof.
  intros Hm a. unfold count_log.
  assert (∀ a', a' ≠ Log.address l → match m !! a' with
     | Some c => counted e t (seen ++ [l]) a' c
     | None => tally (λ l, passes e t l && (Log.address l =? a')%Z) (seen ++ [l]) = 0%Z end) as Hother.
  { intros a' Ha. specialize (Hm a'). rewrite tally_snoc. rewrite (proj2 (Z.eqb_neq _ _)) by done.
    rewrite andb_false_r, Z.add_0_r. destruct (m !! a'); [|done].
    destruct Hm as [H1 H2 H3 H4 H5]. split; auto. rewrite tally_snoc, (proj2 (Z.eqb_neq _ _)) by done.
    rewrite andb_false_r. lia. }
  pose proof (Hm (Log.address l)) as Hl. destruct (m !! Log.address l) as [c|] eqn:Hc.
  - destruct (decide (a = Log.address l)) as [->|]; [|rewrite lookup_insert_ne by done; by apply Hother].
    rewrite lookup_insert_eq. by apply insert_counted.
  - unfold LogCountMap.satisfies_checks, LogCountMap.insert, LogCountMap.new, LogCountMap.satisfies_checks. cbn.
    rewrite lookup_empty. destruct (checks_topics_and_data _ t (Log.data l)) eqn:Hp.
    + destruct (decide (a = Log.address l)) as [->|]; [|rewrite lookup_insert_ne by done; by apply Hother].
      rewrite lookup_insert_eq. cbn. split; cbn; auto.
      * intros l' n'. destruct (decide (Log.data l = l')) as [<-|]; [done|].
        rewrite lookup_insert_ne by done. by rewrite lookup_empty.
      * rewrite tally_snoc, Hl. unfold passes. rewrite Hp, Z.eqb_refl.
        rewrite count_unchecked_insert, lookup_empty. done.
      * rewrite count_unchecked_insert, lookup_empty. cbv. done.
    + destruct (decide (a = Log.address l)) as [->|]; [|by apply Hother].
      rewrite Hc, tally_snoc, Hl. unfold passes. by rewrite Hp.
Qed.

(** ** Expectations whose count is exact *)

(** An emitter is named, or the event is expected once. *)
Definition simple (e : ExpectedEmit.t) : Prop :=
  (1 ≤ ExpectedEmit.count e)%Z ∧ (is_Some (ExpectedEmit.address e) ∨ ExpectedEmit.count e = 1%Z).

Lemma checks_refl c t : checks_topics_and_data c t t = true.
Proof.
  unfold checks_topics_and_data. rewrite Nat.eqb_refl. cbn [negb].
  rewrite (proj2 (forallb_forall _ _)).
  - cbn. rewrite bool_decide_eq_false_2 by naive_solver. by rewrite andb_false_r.
  - intros [i x] Hx%list_elem_of_In. apply list_elem_of_filter in Hx as [_ Hx].
    apply elem_of_lookup_imap in Hx as (j & y & [= -> ->] & Hj). by apply bool_decide_eq_true.
Qed.

Section emits.
Context `{IO : IterOrder} `{AL : Alloy}.

Lemma tally_emitter e t seen a :
  ExpectedEmit.log e = Some t → ExpectedEmit.address e = Some a →
  tally (emit_matches e) seen = tally (λ l, passes e t l && (Log.address l =? a)%Z) seen.
Proof.
  intros Ht Ha. unfold tally. do 2 f_equal. apply List.filter_ext. intros l.
  unfold emit_matches, from_emitter. by rewrite Ht, Ha.
Qed.

Lemma tally_some e seen l : emit_matches e l = true → (0 < tally (emit_matches e) (seen ++ [l]))%Z.
Proof. intros Hl. rewrite tally_snoc, Hl. pose proof (tally_nonneg (emit_matches e) seen). lia. Qed.

Lemma iter_elem {V} (m : gmap Z V) c : c ∈ (iter m).*2 ↔ ∃ a, m !! a = Some c.
Proof.
  rewrite iter_perm. rewrite list_elem_of_fmap. split.
  - intros ([a c'] & -> & Hc). exists a. by apply elem_of_map_to_list.
  - intros [a Ha]. exists (a, c). split; [done|]. by apply elem_of_map_to_list.
Qed.

Lemma counted_count e t seen a c l :
  counted e t seen a c → passes e t l = true →
  LogCountMap.satisfies_checks c (Log.data l) = true ∧
  LogCountMap.count c (Log.data l) = LogCountMap.count_unchecked c.
Proof.
  intros [H1 H2 _ _ _] Hp. unfold LogCountMap.count, LogCountMap.satisfies_checks, passes in *.
  by rewrite H1, H2, Hp.
Qed.

Lemma log_found_spec e t seen l m :
  ExpectedEmit.log e = Some t → simple e → counts_ok e t (seen ++ [l]) m →
  log_found e t l m =
    emit_matches e l && (ExpectedEmit.count e <=? tally (emit_matches e) (seen ++ [l]))%Z.
Proof.
  intros Ht [Hn Hs] Hm. unfold log_found.
  assert (emit_matches e l = passes e t l && from_emitter e l) as Hem by (unfold emit_matches; by rewrite Ht).
  fold (passes e t l). destruct (passes e t l) eqn:Hp; cbn [negb]; [|by rewrite Hem].
  destruct (ExpectedEmit.address e) as [a|] eqn:Ha.
  - destruct (decide (a = Log.address l)) as [->|Hne].
    + rewrite bool_decide_eq_false_2 by naive_solver.
      pose proof (tally_some e seen l) as Ht0. rewrite (tally_emitter _ _ _ _ Ht Ha) in *.
      assert (emit_matches e l = true) as Hl. { rewrite Hem. unfold from_emitter. rewrite Ha. cbn. lia. }
      specialize (Ht0 Hl). rewrite Hl. specialize (Hm (Log.address l)).
      destruct (m !! Log.address l) as [c|]; [|lia].
      destruct (counted_count _ _ _ _ _ _ Hm Hp) as [_ ->]. by rewrite (ct_count _ _ _ _ _ Hm).
    + rewrite bool_decide_eq_true_2 by naive_solver. rewrite Hem. unfold from_emitter. rewrite Ha.
      rewrite (proj2 (Z.eqb_neq _ _)) by done. done.
  - destruct Hs as [[? ?]|Hone]; [done|].
    rewrite bool_decide_eq_false_2 by (intros [[? ?] ?]; done).
    assert (emit_matches e l = true) as Hl. { rewrite Hem. unfold from_emitter. by rewrite Ha. }
    rewrite Hl, Hone. pose proof (tally_some e seen l Hl). rewrite (proj2 (Z.leb_le 1 _)) by lia.
    destruct (List.find _ (iter m).*2) as [c|] eqn:Hf.
    + apply List.find_some in Hf as [Hc%list_elem_of_In Hsat]. apply iter_elem in Hc as [a Hc].
      specialize (Hm a). rewrite Hc in Hm. destruct (counted_count _ _ _ _ _ _ Hm Hp) as [_ ->].
      pose proof (ct_some _ _ _ _ _ Hm). apply Z.leb_le. lia.
    + specialize (Hm (Log.address l)) as Hc. destruct (m !! Log.address l) as [c|] eqn:Hmc.
      * eapply List.find_none in Hf; [|apply list_elem_of_In, iter_elem; by eexists].
        destruct (counted_count _ _ _ _ _ _ Hc Hp) as [? _]. congruence.
      * rewrite tally_snoc, Hp, Z.eqb_refl in Hc. pose proof (tally_nonneg (λ l0, passes e t l0 && (Log.address l0 =? Log.address l)%Z) seen). cbn in Hc. lia.
Qed.

(** An expectation that is found was seen exactly as often as expected. *)
Lemma emit_count_spec e t seen l m :
  ExpectedEmit.log e = Some t → simple e → counts_ok e t seen m →
  emit_matches e l = true → (tally (emit_matches e) seen < ExpectedEmit.count e)%Z →
  (ExpectedEmit.count e ≤ tally (emit_matches e) (seen ++ [l]))%Z →
  emit_count (ExpectedEmit.set_found true e, count_log e t l m) = ExpectedEmit.count e.
Proof.
  intros Ht [Hn Hs] Hm Hl Hlt Hle. rewrite tally_snoc, Hl in Hle.
  pose proof (count_log_ok _ _ _ l _ Hm) as Hm'. unfold emit_count; cbn. rewrite Ht.
  assert (passes e t l = true) as Hp.
  { unfold emit_matches in Hl. rewrite Ht in Hl. by apply andb_true_iff in Hl as [? _]. }
  destruct (ExpectedEmit.address e) as [a|] eqn:Ha.
  - specialize (Hm' a). pose proof (tally_snoc (emit_matches e) seen l) as Hsn. rewrite Hl in Hsn.
    rewrite (tally_emitter _ _ (seen ++ [l]) _ Ht Ha) in Hsn. destruct (count_log e t l m !! a) as [c|]; [|lia].
    unfold LogCountMap.count, LogCountMap.satisfies_checks.
    rewrite (ct_checks _ _ _ _ _ Hm'), (ct_log _ _ _ _ _ Hm'), checks_refl, (ct_count _ _ _ _ _ Hm'). lia.
  - destruct Hs as [[? ?]|Hone]; [done|]. rewrite Hone in *.
    assert (∀ a, tally (λ l, passes e t l && (Log.address l =? a)%Z) seen ≤ tally (emit_matches e) seen)%Z as Hany.
    { intros a. apply tally_le. intros x [Hx _]%andb_true_iff. unfold emit_matches, from_emitter. by rewrite Ht, Ha, Hx. }
    assert (m = ∅) as ->.
    { apply map_empty. intros a. specialize (Hm a). destruct (m !! a) as [c|]; [|done]. exfalso.
      destruct Hm as [_ _ _ Hc Hc0].
      pose proof (Hany a). lia. }
    assert (count_log e t l ∅ = {[Log.address l := (LogCountMap.insert (Log.data l) (LogCountMap.new (ExpectedEmit.checks e) t)).1]}) as Hcl.
    { unfold count_log. rewrite lookup_empty. unfold LogCountMap.satisfies_checks; cbn.
      unfold passes in Hp. by rewrite Hp. }
    specialize (Hm' (Log.address l)). rewrite Hcl in *. rewrite lookup_singleton_eq in Hm'.
    assert (∀ c, (iter ({[Log.address l := c]} : CountMap)).*2 = [c]) as ->.
    { intros c. pose proof (iter_perm ({[Log.address l := c]} : CountMap)) as Hi.
      rewrite map_to_list_singleton in Hi. apply Permutation_singleton_r in Hi. by rewrite Hi. }
    unfold foldr, LogCountMap.count, LogCountMap.satisfies_checks.
    rewrite (ct_checks _ _ _ _ _ Hm'), (ct_log _ _ _ _ _ Hm'), checks_refl, (ct_count _ _ _ _ _ Hm').
    rewrite tally_snoc, Hp, Z.eqb_refl. cbn.
    pose proof (Hany (Log.address l)).
    pose proof (tally_nonneg (λ l0, passes e t l0 && (Log.address l0 =? Log.address l)%Z) seen). lia.
Qed.

(** ** The queue as a scanner *)

(** An expectation with its template that is not found yet. *)
Definition ready (e : ExpectedEmit.t) : Prop :=
  ExpectedEmit.found e = false ∧ is_Some (ExpectedEmit.log e) ∧ simple e.

Definition settled (x : ExpectedEmit.t * CountMap) : Prop :=
  is_found x = true ∧ is_Some (ExpectedEmit.log x.1) ∧ emit_count x = ExpectedEmit.count x.1.

(** The scanner: the expectations still to come, and how often the first was
    seen. *)
Definition scan (st : Z * list ExpectedEmit.t) (l : Log.t) : Z * list ExpectedEmit.t :=
  match st.2 with
  | [] => st
  | e :: es =>
      if emit_matches e l then
        if (ExpectedEmit.count e <=? st.1 + 1)%Z then (0%Z, es) else ((st.1 + 1)%Z, e :: es)
      else st
  end.

Definition sim (st : Z * list ExpectedEmit.t) (q : ExpectedEmitTracker) : Prop :=
  Forall ready st.2 ∧
  ∃ F, Forall settled F ∧
    match st.2 with
    | [] => q = F
    | e :: es => ∃ seen m t,
        q = (e, m) :: ((λ e, (e, ∅)) <$> es) ++ F ∧ ExpectedEmit.log e = Some t ∧
        counts_ok e t seen m ∧ tally (emit_matches e) seen = st.1 ∧ (st.1 < ExpectedEmit.count e)%Z
    end.

Lemma sim_start es F :
  Forall ready es → Forall settled F → sim (0%Z, es) (((λ e, (e, ∅)) <$> es) ++ F).
Proof.
  intros Hes HF. split; [done|]. exists F. split; [done|]. destruct es as [|e es]; [done|]. cbn [snd].
  apply Forall_cons in Hes as [(_ & [t Ht] & Hs & _) _]. exists [], ∅, t.
  split_and!; [done|done|apply counts_ok_nil|done|cbn; lia].
Qed.

Lemma sim_all_found st q : sim st q → forallb is_found q = bool_decide (st.2 = []).
Proof.
  intros (Hr & F & HF & Hq). destruct st.2 as [|e es].
  - subst q. rewrite bool_decide_eq_true_2 by done. apply forallb_forall. intros x Hx%list_elem_of_In.
    rewrite Forall_forall in HF. by destruct (HF _ Hx).
  - destruct Hq as (seen & m & t & -> & _). apply Forall_cons in Hr as [(Hf & _) _].
    cbn [forallb]. unfold is_found at 1. cbn [fst]. by rewrite Hf.
Qed.

Lemma sim_filled st q : sim st q → existsb (λ x, bool_decide (ExpectedEmit.log x.1 = None)) q = false.
Proof.
  intros (Hr & F & HF & Hq). apply not_true_iff_false. rewrite existsb_exists.
  intros (x & Hx%list_elem_of_In & Hl%bool_decide_eq_true). revert x Hx Hl.
  assert (Forall (λ x, is_Some (ExpectedEmit.log x.1)) q) as Hall.
  { assert (Forall (λ x : ExpectedEmit.t * CountMap, is_Some (ExpectedEmit.log x.1)) F) as HF'.
    { eapply Forall_impl; [exact HF|]. by intros ? (_ & ? & _). }
    destruct st.2 as [|e es]; [by subst|]. destruct Hq as (seen & m & t & -> & Ht & _).
    apply Forall_cons in Hr as [_ Hr]. apply Forall_cons. split; [by eexists|].
    apply Forall_app. split; [|done]. apply Forall_fmap. eapply Forall_impl; [exact Hr|]. by intros ? (_ & ? & _). }
  rewrite Forall_forall in Hall. intros x Hx Hl. destruct (Hall x Hx) as [? ?]. congruence.
Qed.

Lemma sim_step st q l :
  sim st q → ∃ q', handle_expect_emit l q = Some (q', false) ∧ sim (scan st l) q'.
Proof.
  intros Hsim. unfold handle_expect_emit. rewrite (sim_all_found _ _ Hsim), (sim_filled _ _ Hsim).
  destruct Hsim as (Hr & F & HF & Hq). unfold scan. destruct st as [n [|e es]]; cbn [fst snd] in *.
  { rewrite bool_decide_eq_true_2 by done. exists q. split; [done|]. split; [done|]. eauto. }
  rewrite bool_decide_eq_false_2 by done. destruct Hq as (seen & m & t & -> & Ht & Hm & Hn & Hlt).
  apply Forall_cons in Hr as [(Hf & Hl & Hs) Hr].
  change ((_ :: _) !! 0) with (Some (e, m)). cbn [mbind option_bind]. rewrite Ht.
  pose proof (count_log_ok _ _ _ l _ Hm) as Hm'.
  rewrite (log_found_spec _ _ _ _ _ Ht Hs Hm'), tally_snoc, Hn. cbn [delete list_delete].
  destruct (emit_matches e l) eqn:Hem; cbn [andb].
  - destruct (Z.leb_spec (ExpectedEmit.count e) (n + 1)) as [Hle|Hgt].
    + eexists. split; [done|]. rewrite <-app_assoc. apply sim_start; [done|].
      apply Forall_app. split; [done|]. apply Forall_singleton. split; [done|]. split; [by cbn|].
      apply (emit_count_spec e t seen l m); auto; [lia|]. rewrite tally_snoc, Hem. lia.
    + eexists. split; [done|]. split; [by constructor|]. exists F. split; [done|].
      assert (ExpectedEmit.set_found false e = e) as -> by (destruct e; cbn in *; by subst).
      exists (seen ++ [l]), (count_log e t l m), t. cbn [fst].
      split_and!; auto; rewrite ?tally_snoc, ?Hem; lia.
  - eexists. split; [done|]. split; [by constructor|]. exists F. split; [done|].
    assert (ExpectedEmit.set_found false e = e) as -> by (destruct e; cbn in *; by subst).
    exists (seen ++ [l]), (count_log e t l m), t. cbn [fst].
    split_and!; auto; rewrite ?tally_snoc, ?Hem; lia.
Qed.

(** The logs of a call, one after another. *)
Fixpoint handle_logs (logs : list Log.t) (q : ExpectedEmitTracker) : option (ExpectedEmitTracker * bool) :=
  match logs with
  | [] => Some (q, false)
  | l :: logs =>
      match handle_expect_emit l q with
      | Some (q, true) => Some (q, true)
      | Some (q, false) => handle_logs logs q
      | None => None
      end
  end.

Lemma sim_logs logs st q :
  sim st q → ∃ q', handle_logs logs q = Some (q', false) ∧ sim (foldl scan st logs) q'.
Proof.
  revert st q. induction logs as [|l logs IH]; intros st q Hsim; cbn; [by eexists|].
  destruct (sim_step _ _ l Hsim) as (q' & -> & Hq'). cbn. by apply IH.
Qed.

Lemma handle_logs_app l1 l2 q q1 :
  handle_logs l1 q = Some (q1, false) → handle_logs (l1 ++ l2) q = handle_logs l2 q1.
Proof.
  revert q. induction l1 as [|l l1 IH]; intros q; cbn; [by intros [= ->]|].
  destruct (handle_expect_emit l q) as [[q' []]|]; cbn; [done|apply IH|done].
Qed.

(** ** The specification *)

(** The expected events appear in order: the logs split into parts, one per
    expectation, that contain its event as often as expected. *)
Inductive emitted : list ExpectedEmit.t → list Log.t → Prop :=
  | emitted_nil logs : emitted [] logs
  | emitted_cons e es l1 l2 :
      tally (emit_matches e) l1 = ExpectedEmit.count e → emitted es l2 → emitted (e :: es) (l1 ++ l2).

Lemma emitted_more es l1 l2 : emitted es l2 → emitted es (l1 ++ l2).
Proof.
  intros H. revert l1. induction H as [logs|e es k1 k2 Hk H IH]; intros l1; [constructor|].
  rewrite app_assoc. (* the first part is cut where the event was seen often enough *)
  set (p := emit_matches e). assert (∃ u v, l1 ++ k1 = u ++ v ∧ tally p u = ExpectedEmit.count e) as (u & v & Huv & Hu).
  { assert (0 ≤ ExpectedEmit.count e ≤ tally p (l1 ++ k1))%Z as Hb.
    { rewrite <-Hk. split; [apply tally_nonneg|]. unfold tally. rewrite List.filter_app, length_app. unfold p. lia. }
    clear -Hb. induction (l1 ++ k1) as [|x l IHl] using rev_ind.
    - exists [], []. split; [done|]. unfold tally in *. cbn in *. lia.
    - destruct (decide (tally p (l ++ [x]) = ExpectedEmit.count e)) as [|Hne]; [by exists (l ++ [x]), []; rewrite app_nil_r|].
      destruct IHl as (u & v & -> & Hu); [rewrite tally_snoc in *; destruct (p x); lia|].
      exists u, (v ++ [x]). by rewrite app_assoc. }
  rewrite Huv, <-app_assoc. constructor; [done|]. by apply IH.
Qed.

Lemma scan_nil logs n : foldl scan (n, []) logs = (n, []).
Proof. induction logs as [|l logs IH]; [done|apply IH]. Qed.

Lemma scan_emitted logs n e es :
  Forall simple (e :: es) → (0 ≤ n < ExpectedEmit.count e)%Z →
  (foldl scan (n, e :: es) logs).2 = [] ↔
  ∃ l1 l2, logs = l1 ++ l2 ∧ (n + tally (emit_matches e) l1)%Z = ExpectedEmit.count e ∧ emitted es l2.
Proof.
  revert n e es. induction logs as [|l logs IH]; intros n e es Hs Hn; cbn [foldl].
  { split; [done|]. intros (l1 & l2 & Hl & Hc & _). symmetry in Hl. apply app_nil in Hl as [-> ->].
    unfold tally in Hc. cbn in Hc. lia. }
  pose proof (Forall_cons_1 _ _ _ Hs) as [_ Hs']. unfold scan at 2; cbn [fst snd].
  assert (∀ l1, tally (emit_matches e) (l :: l1) = ((if emit_matches e l then 1 else 0) + tally (emit_matches e) l1)%Z) as Hcons.
  { intros l1. unfold tally. cbn. destruct (emit_matches e l); cbn; lia. }
  destruct (emit_matches e l) eqn:Hem.
  - destruct (Z.leb_spec (ExpectedEmit.count e) (n + 1)) as [Hle|Hgt].
    + assert (((foldl scan (0%Z, es) logs).2 = [] ↔ emitted es logs)) as ->.
      { destruct es as [|e' es]; [rewrite scan_nil; split; [constructor|done]|].
        rewrite IH; [|done|]. 2:{ apply Forall_cons in Hs' as [[? _] _]. lia. }
        split.
        - intros (l1 & l2 & -> & Hc & He). by constructor.
        - intros He. inversion He; subst. eauto. }
      split.
      * intros He. exists [l], logs. rewrite Hcons. split; [done|]. split; [unfold tally; cbn; lia|done].
      * intros (l1 & l2 & Hl & Hc & He). destruct l1 as [|x l1]; cbn in Hl.
        -- unfold tally in Hc. cbn in Hc. lia.
        -- injection Hl as -> ->. rewrite Hcons in Hc. by apply emitted_more.
    + rewrite IH by (done || lia). split.
      * intros (l1 & l2 & -> & Hc & He). exists (l :: l1), l2. rewrite Hcons. split; [done|]. split; [lia|done].
      * intros ([|x l1] & l2 & Hl & Hc & He); [unfold tally in Hc; cbn in Hc; lia|].
        injection Hl as -> ->. rewrite Hcons in Hc. exists l1, l2. split; [done|]. split; [lia|done].
  - rewrite IH by done. split.
    + intros (l1 & l2 & -> & Hc & He). exists (l :: l1), l2. rewrite Hcons. split; [done|]. split; [lia|done].
    + intros ([|x l1] & l2 & Hl & Hc & He); [unfold tally in Hc; cbn in Hc; lia|].
      injection Hl as -> ->. rewrite Hcons in Hc. exists l1, l2. split; [done|]. split; [lia|done].
Qed.

Lemma scan_all es logs : Forall simple es → (foldl scan (0%Z, es) logs).2 = [] ↔ emitted es logs.
Proof.
  intros Hs. destruct es as [|e es]; [rewrite scan_nil; split; [constructor|done]|].
  rewrite scan_emitted; [|done|]. 2:{ apply Forall_cons in Hs as [[? _] _]. lia. } split.
  - intros (l1 & l2 & -> & Hc & He). by constructor.
  - intros He. inversion He; subst. eauto.
Qed.

(** The check at the end of the call. *)
Lemma sim_end d st q outcome :
  sim st q → (∃ x, x ∈ q ∧ ExpectedEmit.depth x.1 = d) →
  call_end_emits d false outcome q =
    if bool_decide (st.2 = []) then ([], None)
    else (q, Some (CallOutcome.answer Revert (abi_string (str "log != expected log")) outcome)).
Proof.
  intros Hsim (x & Hx & Hd). unfold call_end_emits.
  rewrite (proj2 (existsb_exists _ _)) by (exists x; split; [by apply list_elem_of_In|by apply Z.eqb_eq]). cbn [andb negb].
  assert (existsb (λ x, negb (is_found x)) q = negb (forallb is_found q)) as ->.
  { clear. induction q as [|y q IH]; [done|]. cbn. rewrite IH. by destruct (is_found y). }
  rewrite (sim_all_found _ _ Hsim). destruct Hsim as (_ & F & HF & Hq). case_bool_decide as Hst; [|done].
  rewrite Hst in Hq. subst q. cbn [negb].
  assert (filter (λ x, emit_count x ≠ ExpectedEmit.count x.1) F = []) as ->; [|done].
  clear -HF. induction HF as [|y F (_ & _ & Hy) HF IH]; [done|]. rewrite filter_cons_False; auto.
Qed.

(** ** Declarations *)

(** The expectation a cheatcode declares. *)
Definition new_emit (d : Z) (c : EmitCheat) : ExpectedEmit.t :=
  match apply_emit_cheat d c [] with
  | (e, _) :: _ => e
  | [] => ExpectedEmit.mk d None all_checks None false false 0
  end.

Lemma apply_emit_cheat_new d c q :
  apply_emit_cheat d c q =
    match position is_found q with
    | Some i => insert_at i (new_emit d c, ∅) q
    | None => q ++ [(new_emit d c, ∅)]
    end.
Proof. by destruct c. Qed.

Lemma new_emit_fields d c :
  ExpectedEmit.depth (new_emit d c) = d ∧ ExpectedEmit.log (new_emit d c) = None ∧
  ExpectedEmit.found (new_emit d c) = false.
Proof. by destruct c. Qed.

(** The expectation once the log that follows has become its template. *)
Definition declared (d : Z) (x : EmitCheat * Log.t) : ExpectedEmit.t :=
  ExpectedEmit.set_log (Log.data x.2) (new_emit d x.1).

(** [vm.expectEmit(..); emit Event(..);], several times. *)
Fixpoint declare (d : Z) (l : list (EmitCheat * Log.t)) (q : ExpectedEmitTracker) :
    option (ExpectedEmitTracker * bool) :=
  match l with
  | [] => Some (q, false)
  | (c, template) :: l =>
      match handle_expect_emit template (apply_emit_cheat d c q) with
      | Some (q, true) => Some (q, true)
      | Some (q, false) => declare d l q
      | None => None
      end
  end.

(** A template needs a topic unless the event is anonymous. *)
Definition good_template (x : EmitCheat * Log.t) : Prop :=
  ExpectedEmit.anonymous (new_emit 0 x.1) = true ∨ topics (Log.data x.2) ≠ [].

Lemma position_None {A} (p : A → bool) l : Forall (λ x, p x = false) l → position p l = None.
Proof. induction 1 as [|x l Hx _ IH]; [done|]. cbn. by rewrite Hx, IH. Qed.

Lemma declare_spec d decls es :
  Forall good_template decls → Forall (λ e, ExpectedEmit.found e = false ∧ is_Some (ExpectedEmit.log e)) es →
  declare d decls ((λ e, (e, ∅)) <$> es) = Some ((λ e, (e, ∅)) <$> (es ++ (declared d <$> decls)), false).
Proof.
  intros Hg. revert es. induction Hg as [|[c t] decls Ht Hg IH]; intros es Hes; cbn [declare fmap list_fmap].
  { by rewrite app_nil_r. }
  destruct (new_emit_fields d c) as (_ & Hlog & Hfound).
  assert (position is_found ((λ e, (e, ∅ : CountMap)) <$> es) = None) as Hpos.
  { apply position_None, Forall_fmap. eapply Forall_impl; [exact Hes|]. by intros e [He _]. }
  assert (position is_found (((λ e, (e, ∅ : CountMap)) <$> es) ++ [(new_emit d c, ∅)]) = None) as Hpos'.
  { apply position_None, Forall_app. split; [|by repeat constructor].
    apply Forall_fmap. eapply Forall_impl; [exact Hes|]. by intros e [He _]. }
  assert (handle_expect_emit t (((λ e, (e, ∅ : CountMap)) <$> es) ++ [(new_emit d c, ∅)]) =
    Some (((λ e, (e, ∅ : CountMap)) <$> es) ++ [(declared d (c, t), ∅)], false)) as Hh.
  { unfold handle_expect_emit. rewrite forallb_app. cbn [forallb].
    unfold is_found at 2. cbn [fst]. rewrite Hfound, andb_false_r.
    rewrite existsb_app. cbn [existsb]. rewrite (bool_decide_eq_true_2 (ExpectedEmit.log _ = None)) by done.
    rewrite orb_true_r, Hpos'. cbn [default]. rewrite length_app, length_fmap. cbn [length].
    replace (length es + 1 - 1) with (length ((λ e, (e, ∅ : CountMap)) <$> es)) by (rewrite length_fmap; lia).
    rewrite list_lookup_middle by done. cbn [mbind option_bind]. rewrite Hlog.
    assert (ExpectedEmit.anonymous (new_emit d c) || bool_decide (topics (Log.data t) ≠ []) = true) as ->.
    { apply orb_true_iff. destruct Ht as [Ht|Ht]; [left; by destruct c|right]. by apply bool_decide_eq_true_2. }
    rewrite delete_middle, app_nil_r. unfold insert_at. by rewrite firstn_all, drop_all. }
  rewrite apply_emit_cheat_new, Hpos, Hh. cbn [mbind option_bind snd fst].
  replace (((λ e, (e, ∅ : CountMap)) <$> es) ++ [(declared d (c, t), ∅)])
    with ((λ e, (e, ∅ : CountMap)) <$> (es ++ [declared d (c, t)])) by by rewrite fmap_app.
  rewrite IH; [|apply Forall_app; split; [done|]; repeat constructor; [by destruct c|by eexists]].
  by rewrite <-app_assoc.
Qed.

Lemma declared_ready d decls : Forall simple (declared d <$> decls) → Forall ready (declared d <$> decls).
Proof.
  rewrite !Forall_fmap. intros Hs. eapply Forall_impl; [exact Hs|]. intros [c t] Hx. split; [by destruct c|]. split; [by eexists|done].
Qed.

Lemma declared_depth d decls :
  Forall (λ x : ExpectedEmit.t * CountMap, ExpectedEmit.depth x.1 = d) ((λ e, (e, ∅)) <$> (declared d <$> decls)).
Proof. apply Forall_fmap, Forall_fmap, Forall_forall. intros [c t] _. cbn. by destruct c. Qed.

(** Logs neither add nor remove expectations. *)
Lemma handle_depth d l q q' :
  handle_expect_emit l q = Some (q', false) → Forall (λ x, ExpectedEmit.depth x.1 = d) q ∧ q ≠ [] →
  Forall (λ x, ExpectedEmit.depth x.1 = d) q' ∧ q' ≠ [].
Proof.
  unfold handle_expect_emit. intros Hh [Hq Hne]. destruct (forallb is_found q); [by simplify_eq|].
  destruct (q !! _) as [[e m]|] eqn:Hx; [|done]. cbn in Hh.
  pose proof (Forall_lookup_1 _ _ _ _ Hq Hx) as Hd. cbn in Hd.
  revert Hx Hh. generalize (if existsb (λ x, bool_decide (ExpectedEmit.log x.1 = None)) q then default (length q) (position is_found q) - 1 else 0).
  intros i Hx Hh. pose proof (Forall_delete _ _ i Hq) as Hq'. destruct (ExpectedEmit.log e).
  - destruct (log_found _ _ _ _) eqn:Hf; simplify_eq/=.
    + split; [by apply Forall_app; split; [|by constructor]|by destruct (delete i q)].
    + split; [by constructor|done].
  - destruct (_ || _); simplify_eq/=. unfold insert_at. split; [|by destruct (take i (delete i q))].
    apply Forall_app; split; [by apply Forall_take|]. constructor; [done|by apply Forall_drop].
Qed.

Lemma handle_logs_depth d logs q q' b :
  handle_logs logs q = Some (q', b) → b = false → Forall (λ x, ExpectedEmit.depth x.1 = d) q ∧ q ≠ [] →
  Forall (λ x, ExpectedEmit.depth x.1 = d) q' ∧ q' ≠ [].
Proof.
  revert q. induction logs as [|l logs IH]; intros q; cbn; [by intros; simplify_eq|].
  destruct (handle_expect_emit l q) as [[q1 []]|] eqn:Hh; cbn; intros; simplify_eq.
  eapply IH; [done|done|]. by eapply handle_depth.
Qed.

(** The promise of [vm.expectEmit].  A test declares some events, each
    followed by the event it expects, then makes a call that emits any logs.
    Where every expectation names its emitter or expects one event, the call
    ends well exactly when the logs contain the events in order, each as often
    as expected, and other logs may stand between them; otherwise the call
    reverts with the message of a mismatch. *)
Theorem expect_emit_in_order d (decls : list (EmitCheat * Log.t)) (logs : list Log.t) outcome :
  decls ≠ [] → Forall good_template decls → Forall simple (declared d <$> decls) →
  ∃ q q',
    declare d decls [] = Some (q, false) ∧ handle_logs logs q = Some (q', false) ∧
    ((emitted (declared d <$> decls) logs ∧ call_end_emits d false outcome q' = ([], None)) ∨
     (¬ emitted (declared d <$> decls) logs ∧
      call_end_emits d false outcome q' =
        (q', Some (CallOutcome.answer Revert (abi_string (str "log != expected log")) outcome)))).
Proof.
  intros Hne Hg Hs.
  pose proof (declared_ready _ _ Hs) as Hr. set (es := declared d <$> decls) in *.
  pose proof (declare_spec d decls [] Hg (Forall_nil_2 _)) as Hd. cbn [fmap list_fmap app] in Hd. fold es in Hd.
  pose proof (sim_start es [] Hr (Forall_nil_2 _)) as Hsim. rewrite app_nil_r in Hsim.
  destruct (sim_logs logs _ _ Hsim) as (q' & Hq' & Hsim').
  exists ((λ e, (e, ∅)) <$> es), q'. split; [exact Hd|]. split; [done|].
  rewrite <-(scan_all es logs) by done.
  assert (∃ x, x ∈ q' ∧ ExpectedEmit.depth x.1 = d) as Hx.
  { cut (Forall (λ x, ExpectedEmit.depth x.1 = d) q' ∧ q' ≠ []).
    { intros [Hall Hn]. destruct q' as [|x q']; [done|]. exists x. apply Forall_cons in Hall as [? _]. split; [left|done]. }
    apply (handle_logs_depth d logs ((λ e, (e, ∅)) <$> es) q' false Hq' eq_refl). split.
    - apply declared_depth.
    - by destruct decls. }
  rewrite (sim_end _ _ _ _ Hsim' Hx). case_bool_decide; [left|right]; done.
Qed.

(** ** Where the code departs from the documentation *)

(** An event that is expected zero times and is not emitted is still reported
    as missing, unless the call is a static one. *)
Lemma zero_emits_fail d (c : EmitCheat) template logs outcome :
  good_template (c, template) → ExpectedEmit.count (new_emit d c) = 0%Z →
  Forall (λ l, emit_matches (declared d (c, template)) l = false) logs →
  ∃ q q', declare d [(c, template)] [] = Some (q, false) ∧ handle_logs logs q = Some (q', false) ∧
    call_end_emits d false outcome q' =
      (q', Some (CallOutcome.answer Revert (abi_string (str "log != expected log")) outcome)).
Proof.
  intros Hg _ Hl. set (e := declared d (c, template)) in *.
  pose proof (declare_spec d [(c, template)] [] ltac:(by constructor) (Forall_nil_2 _)) as Hd.
  cbn [fmap list_fmap app] in Hd. fold e in Hd.
  assert (ExpectedEmit.found e = false) as Hf by by destruct c.
  assert (ExpectedEmit.log e = Some (Log.data template)) as Ht by done.
  assert (ExpectedEmit.depth e = d) as Hde by by destruct c.
  cut (∀ m, ∃ m', handle_logs logs [(e, m)] = Some ([(e, m')], false)).
  { intros Hm. destruct (Hm ∅) as (m' & Hm'). exists [(e, ∅)], [(e, m')]. split; [exact Hd|]. split; [done|].
    unfold call_end_emits. cbn [existsb fst]. rewrite Hde, Z.eqb_refl. cbn [orb andb negb].
    unfold is_found. cbn [fst]. by rewrite Hf. }
  clear Hd. induction Hl as [|l logs Hl _ IH]; intros m; cbn [handle_logs]; [by eexists|].
  assert (handle_expect_emit l [(e, m)] = Some ([(e, count_log e (Log.data template) l m)], false)) as ->; [|apply IH].
  unfold handle_expect_emit. cbn [forallb]. unfold is_found at 1. cbn [fst]. rewrite Hf. cbn [andb existsb fst].
  rewrite Ht, bool_decide_eq_false_2 by done. cbn [orb]. change ([(e, m)] !! 0) with (Some (e, m)). cbn [mbind option_bind].
  rewrite Ht. assert (log_found e (Log.data template) l (count_log e (Log.data template) l m) = false) as ->.
  { unfold log_found. unfold emit_matches, from_emitter in Hl. rewrite Ht in Hl. unfold passes in Hl.
    destruct (checks_topics_and_data _ _ (Log.data l)); [|done]. cbn [negb andb] in *.
    destruct (ExpectedEmit.address e) as [a|]; [|done]. rewrite bool_decide_eq_true_2; [done|].
    split; [by eexists|]. apply Z.eqb_neq in Hl. congruence. }
  by replace (ExpectedEmit.set_found false e) with e by (clear -Hf; destruct e; cbn in *; by subst).
Qed.
End emits.

(** ** Examples *)

Module EmitExample.
Definition order : IterOrder := default_iter_order.
Definition alloy : Alloy := {|
  abi_cheatcode_error s := 1%Z :: ((λ c, Z.of_N (N_of_ascii c)) <$> s); CHEATCODE_ERROR_SELECTOR := [1; 1; 1; 1]%Z;
  REVERT_SELECTOR := [2; 2; 2; 2]%Z; abi_string s := (λ c, Z.of_N (N_of_ascii c)) <$> s;
  abi_decode_string _ := None; abi_decode_bytes b := Some b; address_str a := to_radix 16 a |}.

Definition event (a : Z) (t : list Z) (d : Bytes) : Log.t := Log.mk a (t, d).
Definition outcome : CallOutcome.t := CallOutcome.mk (InterpreterResult.mk Return [] (Gas.new 0)) (0, 0)%Z.

Definition decls : list (EmitCheat * Log.t) :=
  [(ExpectEmit_7 7 2, event 1 [10] [1]); (ExpectEmit_0 false true true false, event 1 [11; 5] [2])]%Z.
Definition logs : list Log.t :=
  [event 7 [10] [1]; event 8 [10] [1]; event 7 [10] [2]; event 7 [10] [1]; event 9 [11; 6] []]%Z.
End EmitExample.

#[local] Existing Instances EmitExample.order EmitExample.alloy.

Lemma expect_emit_in_order_witness :
  ∃ q q',
    declare 1 EmitExample.decls [] = Some (q, false) ∧ handle_logs EmitExample.logs q = Some (q', false) ∧
    call_end_emits 1 false EmitExample.outcome q' = ([], None).
Proof.
  destruct (expect_emit_in_order 1 EmitExample.decls EmitExample.logs EmitExample.outcome) as (q & q' & H1 & H2 & H3).
  - done.
  - repeat (apply Forall_cons; split); [by right|by right|constructor].
  - repeat (apply Forall_cons; split); [split; [cbn; lia|left; by eexists]|split; [cbn; lia|by right]|constructor].
  - exists q, q'. split; [done|]. split; [done|]. destruct H3 as [[_ H]|[Hn _]]; [done|].
    exfalso. apply Hn. apply (emitted_cons _ _ (take 4 EmitExample.logs) (drop 4 EmitExample.logs)).
    { reflexivity. } rewrite <-(app_nil_r (drop 4 _)). apply emitted_cons; [reflexivity|constructor].
Defined.

(** Two logs from two emitters, expected twice from anyone: the queue looks at
    the count of one emitter, so the expectation is not found. *)
Example two_emitters_not_found :
  ∃ q q', declare 1 [(ExpectEmit_6 2, EmitExample.event 1 [10%Z] [])] [] = Some (q, false) ∧
    handle_logs [EmitExample.event 7 [10%Z] []; EmitExample.event 8 [10%Z] []] q = Some (q', false) ∧
    (call_end_emits 1 false EmitExample.outcome q').2 ≠ None.
Proof. eexists _, _. split; [reflexivity|]. split; [reflexivity|]. vm_compute. discriminate. Qed.

(** An event without topics declared by [vm.expectEmit] makes the frame revert,
    and the expectation is gone from the queue. *)
Example failed_template_drops :
  handle_expect_emit (EmitExample.event 1 [] []) (apply_emit_cheat 1 ExpectEmit_2 []) = Some ([], true).
Proof. reflexivity. Qed.
