(* ===== verification/ExpectRevert.v ===== *)
(** Expected and assumed reverts: the cheatcodes (cheatcodes/src/test/expect.rs
    and assume.rs), how a revert is compared with what was expected
    (cheatcodes/src/test/revert_handlers.rs), and the parts of the hooks that
    do so (cheatcodes/src/inspector.rs). *)
From stdpp Require Import strings gmap.
From S2P Require Import Prelude Radix Frames.

(** ** Data *)

Inductive ExpectedRevertKind := DefaultKind | CheatcodeKind (pending_processing : bool).

Module ExpectedRevert.
Record t := mk {
  reason : option Bytes; depth : Z; kind : ExpectedRevertKind; partial_match : bool;
  reverter : option Z; reverted_by : option Z; max_depth : Z; count : Z; actual_count : Z }.
Definition set_kind (k : ExpectedRevertKind) (e : t) : t :=
  mk (reason e) (depth e) k (partial_match e) (reverter e) (reverted_by e) (max_depth e) (count e) (actual_count e).
Definition set_reverted_by (a : option Z) (e : t) : t :=
  mk (reason e) (depth e) (kind e) (partial_match e) (reverter e) a (max_depth e) (count e) (actual_count e).
Definition set_max_depth (d : Z) (e : t) : t :=
  mk (reason e) (depth e) (kind e) (partial_match e) (reverter e) (reverted_by e) d (count e) (actual_count e).
Definition set_actual_count (n : Z) (e : t) : t :=
  mk (reason e) (depth e) (kind e) (partial_match e) (reverter e) (reverted_by e) (max_depth e) (count e) n.
End ExpectedRevert.

Module AcceptableRevert.
Record t := mk { reason : Bytes; partial_match : bool; reverter : option Z }.
End AcceptableRevert.

Module AssumeNoRevert.
Record t := mk { depth : Z; reasons : list AcceptableRevert.t; reverted_by : option Z }.
Definition set_reverted_by (a : option Z) (x : t) : t := mk (depth x) (reasons x) a.
End AssumeNoRevert.

(** The parameters expected and assumed reverts have in common. *)
Class RevertParameters (A : Type) := {
  rp_reverter : A → option Z;
  rp_reason : A → option Bytes;
  rp_partial_match : A → bool
}.

#[export] Instance expected_parameters : RevertParameters ExpectedRevert.t := {|
  rp_reverter := ExpectedRevert.reverter;
  rp_reason := ExpectedRevert.reason;
  rp_partial_match := ExpectedRevert.partial_match |}.

#[export] Instance acceptable_parameters : RevertParameters AcceptableRevert.t := {|
  rp_reverter := AcceptableRevert.reverter;
  rp_reason x := Some (AcceptableRevert.reason x);
  rp_partial_match := AcceptableRevert.partial_match |}.

(** ** Comparing reverts *)

(** [memchr::memmem::find(haystack, needle).is_some()] *)
Fixpoint contains_bytes (haystack needle : Bytes) : bool :=
  bool_decide (needle `prefix_of` haystack) ||
  match haystack with [] => false | _ :: haystack => contains_bytes haystack needle end.

Definition DUMMY_CALL_OUTPUT : Bytes := replicate (Z.to_nat 8192) 0%Z.
Definition DUMMY_CREATE_ADDRESS : Z := 1.

Section reverts.
Context `{Alloy}.
(** The known contracts, and the text of a revert decoded with their ABIs
    ([RevertDecoder]), which is only shown to the user. *)
Context {Contracts : Type} (decoder_decode : Contracts → Bytes → InstructionResult → Str).

Definition stringify (data : Bytes) : Str :=
  match abi_decode_string data with
  | Some s => s
  | None => if forallb (λ b, b <? 128)%Z data then (λ b, ascii_of_N (Z.to_N b)) <$> data
            else encode_prefixed data
  end.

Definition decode_revert (revert : Bytes) : Bytes :=
  if bool_decide (get_prefix 4 revert = Some CHEATCODE_ERROR_SELECTOR ∨ get_prefix 4 revert = Some REVERT_SELECTOR)
  then default revert (abi_decode_bytes (drop 4 revert))
  else revert.

(** How the two reverts are shown when they differ. *)
Definition show_reverts (status : InstructionResult) (known_contracts : option Contracts)
    (actual_revert expected_reason : Bytes) : Str * Str :=
  match known_contracts with
  | Some contracts => (decoder_decode contracts actual_revert status, decoder_decode contracts expected_reason status)
  | None => (stringify actual_revert, stringify expected_reason)
  end.

(** The address that reverted against the one expected to. *)
Definition reverter_mismatch (expected actual : option Z) : option Error :=
  match expected, actual with
  | Some expected_reverter, Some actual_reverter =>
      if negb (expected_reverter =? actual_reverter)%Z
      then Some (ErrStr (str "Reverter != expected reverter: " ++ address_str actual_reverter ++
                         str " != " ++ address_str expected_reverter))
      else None
  | _, _ => None
  end.

Definition handle_revert {A} `{RevertParameters A} (is_cheatcode : bool) (revert_params : A)
    (status : InstructionResult) (retdata : Bytes) (known_contracts : option Contracts)
    (reverter : option Z) : result unit Error :=
  match reverter_mismatch (rp_reverter revert_params) reverter with
  | Some e => Err e
  | None =>
      match rp_reason revert_params with
      | None => Ok tt
      | Some expected_reason =>
          if bool_decide (expected_reason ≠ []) && bool_decide (retdata = [])
          then Err (ErrStr (str "call reverted as expected, but without data"))
          else if rp_partial_match revert_params &&
                  bool_decide (get_prefix 4 retdata = get_prefix 4 expected_reason)
          then Ok tt
          else
            let actual_revert := decode_revert retdata in
            if bool_decide (actual_revert = expected_reason) ||
               (is_cheatcode && contains_bytes actual_revert expected_reason)
            then Ok tt
            else
              let '(actual, expected) := show_reverts status known_contracts actual_revert expected_reason in
              Err (ErrStr (str "Error != expected error: " ++ actual ++ str " != " ++ expected))
      end
  end.

Definition handle_assume_no_revert (assume_no_revert : AssumeNoRevert.t) (status : InstructionResult)
    (retdata : Bytes) (known_contracts : option Contracts) : result unit Error :=
  match AssumeNoRevert.reasons assume_no_revert with
  | [] => Ok tt
  | reasons =>
      if existsb (λ reason, is_ok (handle_revert false reason status retdata known_contracts
                                     (AssumeNoRevert.reverted_by assume_no_revert))) reasons
      then Ok tt
      else Err (ErrBytes retdata)
  end.

(** What a call or a creation gives in place of its revert. *)
Definition success_return (is_create : bool) : option Z * Bytes :=
  if is_create then (Some DUMMY_CREATE_ADDRESS, []) else (None, DUMMY_CALL_OUTPUT).

(** [handle_expect_revert] where no revert of this kind is expected. *)
Definition handle_no_revert (is_create : bool) (e : ExpectedRevert.t) (status : InstructionResult)
    (retdata : Bytes) : result (option Z * Bytes) Error :=
  match ExpectedRevert.reverter e, ExpectedRevert.reason e with
  | None, None =>
      if return_ok status then Ok (success_return is_create)
      else Err (ErrStr (str "call reverted when it was expected not to revert"))
  | reverter, reason =>
      let reason_match := (λ r, bool_decide (decode_revert retdata = r)) <$> reason in
      let reverter_match := (λ a, bool_decide (ExpectedRevert.reverted_by e = Some a)) <$> reverter in
      let shown := stringify (default [] reason) in
      match reason_match, reverter_match, reverter with
      | Some true, Some true, Some a =>
          Err (ErrStr (str "expected 0 reverts with reason: " ++ shown ++ str ", from address: " ++
                       address_str a ++ str ", but got one"))
      | Some true, None, _ =>
          Err (ErrStr (str "expected 0 reverts with reason: " ++ shown ++ str ", but got one"))
      | None, Some true, Some a =>
          Err (ErrStr (str "expected 0 reverts from address: " ++ address_str a ++ str ", but got one"))
      | _, _, _ => Ok (success_return is_create)
      end
  end.

Definition handle_expect_revert (is_cheatcode is_create internal_expect_revert : bool)
    (e : ExpectedRevert.t) (status : InstructionResult) (retdata : Bytes)
    (known_contracts : option Contracts) : result (option Z * Bytes) Error :=
  if negb is_cheatcode && negb internal_expect_revert &&
     negb (ExpectedRevert.depth e <? ExpectedRevert.max_depth e)%Z
  then Err (ErrStr (str "call didn't revert at a lower depth than cheatcode call depth"))
  else if (ExpectedRevert.count e =? 0)%Z then handle_no_revert is_create e status retdata
  else if return_ok status then Err (ErrStr (str "next call did not revert as expected"))
  else match handle_revert is_cheatcode e status retdata known_contracts (ExpectedRevert.reverted_by e) with
       | Err err => Err err
       | Ok _ => Ok (success_return is_create)
       end.

(** ** The cheatcodes *)

Definition expect_revert (reason : option Bytes) (depth : Z) (cheatcode partial_match : bool)
    (reverter : option Z) (count : Z) (s : option ExpectedRevert.t) :
    option ExpectedRevert.t * result Bytes Error :=
  match s with
  | Some _ => (s, Err (ErrStr (str "you must call another function prior to expecting a second revert")))
  | None =>
      (Some (ExpectedRevert.mk reason depth (if cheatcode then CheatcodeKind true else DefaultKind)
               partial_match reverter None depth count 0), Ok [])
  end.

Inductive RevertCheat :=
  | ExpectRevert_0
  | ExpectRevert_1 (revertData : Bytes)
  | ExpectRevert_2 (revertData : Bytes)
  | ExpectRevert_3 (reverter : Z)
  | ExpectRevert_4 (revertData : Bytes) (reverter : Z)
  | ExpectRevert_5 (revertData : Bytes) (reverter : Z)
  | ExpectRevert_6 (count : Z)
  | ExpectRevert_7 (revertData : Bytes) (count : Z)
  | ExpectRevert_8 (revertData : Bytes) (count : Z)
  | ExpectRevert_9 (reverter : Z) (count : Z)
  | ExpectRevert_10 (revertData : Bytes) (reverter : Z) (count : Z)
  | ExpectRevert_11 (revertData : Bytes) (reverter : Z) (count : Z)
  | ExpectPartialRevert_0 (revertData : Bytes)
  | ExpectPartialRevert_1 (revertData : Bytes) (reverter : Z)
  | ExpectCheatcodeRevert_0
  | ExpectCheatcodeRevert_1 (revertData : Bytes)
  | ExpectCheatcodeRevert_2 (revertData : Bytes).

Definition apply_revert_cheat (depth : Z) (c : RevertCheat) :
    option ExpectedRevert.t → option ExpectedRevert.t * result Bytes Error :=
  match c with
  | ExpectRevert_0 => expect_revert None depth false false None 1
  | ExpectRevert_1 r | ExpectRevert_2 r => expect_revert (Some r) depth false false None 1
  | ExpectRevert_3 a => expect_revert None depth false false (Some a) 1
  | ExpectRevert_4 r a | ExpectRevert_5 r a => expect_revert (Some r) depth false false (Some a) 1
  | ExpectRevert_6 n => expect_revert None depth false false None n
  | ExpectRevert_7 r n | ExpectRevert_8 r n => expect_revert (Some r) depth false false None n
  | ExpectRevert_9 a n => expect_revert None depth false false (Some a) n
  | ExpectRevert_10 r a n | ExpectRevert_11 r a n => expect_revert (Some r) depth false false (Some a) n
  | ExpectPartialRevert_0 r => expect_revert (Some r) depth false true None 1
  | ExpectPartialRevert_1 r a => expect_revert (Some r) depth false true (Some a) 1
  | ExpectCheatcodeRevert_0 => expect_revert None depth true false None 1
  | ExpectCheatcodeRevert_1 r | ExpectCheatcodeRevert_2 r => expect_revert (Some r) depth true false None 1
  end.

(** [PotentialRevert], where the zero address stands for any reverter. *)
Definition acceptable_from (revertData : Bytes) (partialMatch : bool) (reverter : Z) : AcceptableRevert.t :=
  AcceptableRevert.mk revertData partialMatch (if (reverter =? 0)%Z then None else Some reverter).

Inductive AssumeCheat :=
  | Assume (condition : bool)
  | AssumeNoRevert_0
  | AssumeNoRevert_1 (potentialRevert : Bytes * bool * Z)
  | AssumeNoRevert_2 (potentialReverts : list (Bytes * bool * Z)).

Definition assume_no_revert (depth : Z) (parameters : list AcceptableRevert.t)
    (s : option AssumeNoRevert.t) : option AssumeNoRevert.t * result Bytes Error :=
  match s with
  | Some _ => (s, Err (ErrStr (str "you must make another external call prior to calling assumeNoRevert again")))
  | None => (Some (AssumeNoRevert.mk depth parameters None), Ok [])
  end.

Definition MAGIC_ASSUME : Bytes := (λ c, Z.of_N (N_of_ascii c)) <$> str "FOUNDRY::ASSUME".

Definition apply_assume_cheat (depth : Z) (c : AssumeCheat) (s : option AssumeNoRevert.t) :
    option AssumeNoRevert.t * result Bytes Error :=
  match c with
  | Assume true => (s, Ok [])
  | Assume false => (s, Err (ErrBytes MAGIC_ASSUME))
  | AssumeNoRevert_0 => assume_no_revert depth [] s
  | AssumeNoRevert_1 (r, p, a) => assume_no_revert depth [acceptable_from r p a] s
  | AssumeNoRevert_2 l => assume_no_revert depth ((λ x : Bytes * bool * Z, acceptable_from x.1.1 x.1.2 x.2) <$> l) s
  end.

(** ** The hooks *)

(** [initialize_interp]: the deepest frame is remembered. *)
Definition track_depth (depth : Z) (s : option ExpectedRevert.t) : option ExpectedRevert.t :=
  (λ e, ExpectedRevert.set_max_depth (Z.max depth (ExpectedRevert.max_depth e)) e) <$> s.

(** [call_end], where it handles an assumed revert. *)
Definition call_end_assume (known_contracts : option Contracts) (depth : Z) (cheatcode_call : bool)
    (target_address : Z) (outcome : CallOutcome.t) (s : option AssumeNoRevert.t) :
    option AssumeNoRevert.t * option CallOutcome.t :=
  match s with
  | None => (None, None)
  | Some a =>
      let reverted := InterpreterResult.is_revert (CallOutcome.result outcome) in
      let a := if reverted && bool_decide (AssumeNoRevert.reverted_by a = None)
               then AssumeNoRevert.set_reverted_by (Some target_address) a else a in
      if (depth <=? AssumeNoRevert.depth a)%Z && negb cheatcode_call then
        if reverted then
          (None, Some match handle_assume_no_revert a (CallOutcome.status outcome)
                              (CallOutcome.output outcome) known_contracts with
                 | Ok _ => CallOutcome.answer (CallOutcome.status outcome) (abi_encode (ErrBytes MAGIC_ASSUME)) outcome
                 | Err error => CallOutcome.answer Revert (abi_encode error) outcome
                 end)
        else (None, Some outcome)
      else (Some a, None)
  end.

(** The expectation after a revert it accepted. *)
Definition next_expected (e : ExpectedRevert.t) : option ExpectedRevert.t :=
  let e := ExpectedRevert.set_actual_count (ExpectedRevert.actual_count e + 1) e in
  if (ExpectedRevert.actual_count e <? ExpectedRevert.count e)%Z then Some e else None.

(** The address that reverted, where the expectation asks for it. *)
Definition record_reverter (target_address : Z) (outcome : CallOutcome.t) (e : ExpectedRevert.t) : ExpectedRevert.t :=
  if InterpreterResult.is_revert (CallOutcome.result outcome) &&
     bool_decide (is_Some (ExpectedRevert.reverter e)) &&
     (bool_decide (ExpectedRevert.reverted_by e = None) || (1 <? ExpectedRevert.count e)%Z)
  then ExpectedRevert.set_reverted_by (Some target_address) e else e.

(** [call_end], where it handles an expected revert. *)
Definition call_end_revert (internal_expect_revert : bool) (known_contracts : option Contracts)
    (depth : Z) (cheatcode_call : bool) (target_address : Z) (outcome : CallOutcome.t)
    (s : option ExpectedRevert.t) : option ExpectedRevert.t * option CallOutcome.t :=
  match s with
  | None => (None, None)
  | Some e =>
      let e := record_reverter target_address outcome e in
      if (depth <=? ExpectedRevert.depth e)%Z then
        let needs_processing :=
          match ExpectedRevert.kind e with
          | DefaultKind => negb cheatcode_call
          | CheatcodeKind pending_processing => cheatcode_call && negb pending_processing
          end in
        if needs_processing then
          match handle_expect_revert cheatcode_call false internal_expect_revert e
                  (CallOutcome.status outcome) (CallOutcome.output outcome) known_contracts with
          | Err error => (None, Some (CallOutcome.answer Revert (abi_encode error) outcome))
          | Ok (_, retdata) => (next_expected e, Some (CallOutcome.answer Return retdata outcome))
          end
        else
          (Some match ExpectedRevert.kind e with
                | CheatcodeKind _ => ExpectedRevert.set_kind (CheatcodeKind false) e
                | DefaultKind => e
                end, None)
      else (Some e, None)
  end.

(** [create_end_common], where it handles an expected revert. *)
Definition create_end_revert (internal_expect_revert : bool) (known_contracts : option Contracts)
    (depth : Z) (outcome : CreateOutcome.t) (s : option ExpectedRevert.t) :
    option ExpectedRevert.t * option CreateOutcome.t :=
  match s with
  | None => (None, None)
  | Some e =>
      match (depth <=? ExpectedRevert.depth e)%Z, ExpectedRevert.kind e with
      | true, DefaultKind =>
          match handle_expect_revert false true internal_expect_revert e
                  (CreateOutcome.status outcome) (CreateOutcome.output outcome) known_contracts with
          | Err error =>
              (None, Some (CreateOutcome.answer Revert (abi_encode error) (CreateOutcome.address outcome) outcome))
          | Ok (address, retdata) => (next_expected e, Some (CreateOutcome.answer Return retdata address outcome))
          end
      | _, _ => (s, None)
      end
  end.
End reverts.
