(* ===== verification/ExpectCall.v ===== *)
(** Expected calls and creations (cheatcodes/src/test/expect.rs,
    cheatcodes/common/src/expect.rs): the cheatcodes, the counting of the calls
    that are made, and the check at the end of the root call
    (cheatcodes/src/inspector.rs). *)
From stdpp Require Import strings gmap.
From S2P Require Import Prelude Radix Pranks Frames.

(** ** Expected calls *)

Inductive ExpectedCallType := NonCount | Count.

Module ExpectedCallData.
Record t := mk {
  value : option Z; gas : option Z; min_gas : option Z; count : Z; call_type : ExpectedCallType }.
Definition set_count (n : Z) (e : t) : t := mk (value e) (gas e) (min_gas e) n (call_type e).
End ExpectedCallData.

(** Per address and calldata, what is expected and how often it was seen. *)
Abbreviation ExpectedCallTracker := (gmap Z (gmap Bytes (ExpectedCallData.t * Z))).

(** The gas of an expected call that sends value. *)
Definition with_stipend (value gas : option Z) : option Z :=
  match value with
  | Some v => if (0 <? v)%Z then (λ g, wrapping_add_u64 g 2300) <$> gas else gas
  | None => gas
  end.

Definition expect_call (target : Z) (calldata : Bytes) (value gas min_gas : option Z) (count : Z)
    (call_type : ExpectedCallType) (s : ExpectedCallTracker) : ExpectedCallTracker * result Bytes Error :=
  let expecteds := default ∅ (s !! target) in
  let fresh := ExpectedCallData.mk value (with_stipend value gas) (with_stipend value min_gas) count call_type in
  let put x := <[target := x]> s in
  match call_type, expecteds !! calldata with
  | Count, Some _ => (put expecteds, Err (ErrStr (str "counted expected calls can only bet set once")))
  | _, None => (put (<[calldata := (fresh, 0%Z)]> expecteds), Ok [])
  | NonCount, Some (expected, actual) =>
      match ExpectedCallData.call_type expected with
      | NonCount =>
          (put (<[calldata := (ExpectedCallData.set_count (ExpectedCallData.count expected + 1) expected, actual)]>
                  expecteds), Ok [])
      | Count => (put expecteds,
                  Err (ErrStr (str "cannot overwrite a counted expectCall with a non-counted expectCall")))
      end
  end.

Inductive CallCheat :=
  | ExpectCall_0 (callee : Z) (data : Bytes)
  | ExpectCall_1 (callee : Z) (data : Bytes) (count : Z)
  | ExpectCall_2 (callee msgValue : Z) (data : Bytes)
  | ExpectCall_3 (callee msgValue : Z) (data : Bytes) (count : Z)
  | ExpectCall_4 (callee msgValue gas : Z) (data : Bytes)
  | ExpectCall_5 (callee msgValue gas : Z) (data : Bytes) (count : Z)
  | ExpectCallMinGas_0 (callee msgValue minGas : Z) (data : Bytes)
  | ExpectCallMinGas_1 (callee msgValue minGas : Z) (data : Bytes) (count : Z).

Definition apply_call_cheat (c : CallCheat) : ExpectedCallTracker → ExpectedCallTracker * result Bytes Error :=
  match c with
  | ExpectCall_0 a d => expect_call a d None None None 1 NonCount
  | ExpectCall_1 a d n => expect_call a d None None None n Count
  | ExpectCall_2 a v d => expect_call a d (Some v) None None 1 NonCount
  | ExpectCall_3 a v d n => expect_call a d (Some v) None None n Count
  | ExpectCall_4 a v g d => expect_call a d (Some v) (Some g) None 1 NonCount
  | ExpectCall_5 a v g d n => expect_call a d (Some v) (Some g) None n Count
  | ExpectCallMinGas_0 a v g d => expect_call a d (Some v) None (Some g) 1 NonCount
  | ExpectCallMinGas_1 a v g d n => expect_call a d (Some v) None (Some g) n Count
  end.

(** Whether a call is one that is expected. *)
Definition call_matches (calldata : Bytes) (expected : ExpectedCallData.t) (call : Call.t) : bool :=
  (length calldata <=? length (Call.input call))%nat &&
  bool_decide (calldata = take (length calldata) (Call.input call)) &&
  match ExpectedCallData.value expected with
  | Some v => bool_decide (Some v = Call.transfer_value call) | None => true end &&
  match ExpectedCallData.gas expected with Some g => (g =? Call.gas_limit call)%Z | None => true end &&
  match ExpectedCallData.min_gas expected with Some g => (g <=? Call.gas_limit call)%Z | None => true end.

(** The [call] hook, where it counts expected calls. *)
Definition count_call (call : Call.t) (s : ExpectedCallTracker) : ExpectedCallTracker :=
  match s !! Call.bytecode_address call with
  | None => s
  | Some expected_calls_for_target =>
      <[Call.bytecode_address call :=
          map_imap (λ calldata x,
            Some (x.1, if call_matches calldata x.1 call then (x.2 + 1)%Z else x.2))
            expected_calls_for_target]> s
  end.

Definition call_failed (expected : ExpectedCallData.t) (actual_count : Z) : bool :=
  match ExpectedCallData.call_type expected with
  | Count => negb (ExpectedCallData.count expected =? actual_count)%Z
  | NonCount => (actual_count <? ExpectedCallData.count expected)%Z
  end.

Definition plural (n : Z) : Str := if (n =? 1)%Z then [] else str "s".

Section calls.
Context `{IterOrder} `{Alloy}.

(** The message about an expected call that is missing. *)
Definition call_message (outcome_ok : bool) (address : Z) (calldata : Bytes)
    (expected : ExpectedCallData.t) (actual_count : Z) : Str :=
  let expected_values := join (str ", ")
    ([str "data " ++ encode_prefixed calldata] ++
     option_list ((λ v, str "value " ++ to_radix 10 v) <$> ExpectedCallData.value expected) ++
     option_list ((λ g, str "gas " ++ to_radix 10 g) <$> ExpectedCallData.gas expected) ++
     option_list ((λ g, str "minimum gas " ++ to_radix 10 g) <$> ExpectedCallData.min_gas expected)) in
  let but := if outcome_ok then str "was called " ++ to_radix 10 actual_count ++ str " time" ++ plural actual_count
             else str "the call reverted instead; ensure you're testing the happy path when using `expectCall`" in
  let count := ExpectedCallData.count expected in
  str "expected call to " ++ address_str address ++ str " with " ++ expected_values ++
  str " to be called " ++ to_radix 10 count ++ str " time" ++ plural count ++ str ", but " ++ but.

(** The end of the root call: the first expectation that is not met. *)
Definition root_end_calls (outcome : CallOutcome.t) (s : ExpectedCallTracker) : option CallOutcome.t :=
  let all := iter s ≫= λ x, (λ y, (x.1, y)) <$> iter x.2 in
  match List.find (λ x, call_failed x.2.2.1 x.2.2.2) all with
  | Some (address, (calldata, (expected, actual_count))) =>
      let msg := call_message (InterpreterResult.is_ok (CallOutcome.result outcome)) address calldata expected actual_count in
      Some (CallOutcome.answer Revert (abi_encode (ErrStr msg)) outcome)
  | None => None
  end.
End calls.

(** ** Expected creations *)

Inductive CreateScheme := Create | Create2.

Definition scheme_eq (s : CreateScheme) (r : RevmCreateScheme) : bool :=
  match s, r with Create, RevmCreate | Create2, RevmCreate2 _ => true | _, _ => false end.

Definition scheme_str (s : CreateScheme) : Str :=
  match s with Create => str "CREATE" | Create2 => str "CREATE2" end.

Module ExpectedCreate.
Record t := mk { deployer : Z; bytecode : Bytes; create_scheme : CreateScheme }.
End ExpectedCreate.

Definition expect_create (bytecode : Bytes) (deployer : Z) (create_scheme : CreateScheme)
    (s : list ExpectedCreate.t) : list ExpectedCreate.t :=
  s ++ [ExpectedCreate.mk deployer bytecode create_scheme].

Inductive CreateCheat := ExpectCreate (bytecode : Bytes) (deployer : Z) | ExpectCreate2 (bytecode : Bytes) (deployer : Z).

Definition apply_create_cheat (c : CreateCheat) : list ExpectedCreate.t → list ExpectedCreate.t :=
  match c with
  | ExpectCreate b a => expect_create b a Create
  | ExpectCreate2 b a => expect_create b a Create2
  end.

Definition create_matches (caller : Z) (scheme : RevmCreateScheme) (bytecode : Bytes) (e : ExpectedCreate.t) : bool :=
  (ExpectedCreate.deployer e =? caller)%Z && scheme_eq (ExpectedCreate.create_scheme e) scheme &&
  bool_decide (ExpectedCreate.bytecode e = bytecode).

(** [create_end_common], where a creation meets an expectation. *)
Definition match_create (caller : Z) (scheme : RevmCreateScheme) (bytecode : Bytes)
    (s : list ExpectedCreate.t) : list ExpectedCreate.t :=
  match list_find (λ e, create_matches caller scheme bytecode e = true) s with
  | Some (index, _) => swap_remove index s
  | None => s
  end.

Definition address_bytes (a : Z) : Bytes := rev (to_le_bytes 20 a).

(** The end of the root call. *)
Definition root_end_creates `{Alloy} (outcome : CallOutcome.t) (s : list ExpectedCreate.t) : option CallOutcome.t :=
  match s with
  | [] => None
  | e :: _ =>
      let msg := str "expected " ++ scheme_str (ExpectedCreate.create_scheme e) ++ str " call by address " ++
                 encode_prefixed (address_bytes (ExpectedCreate.deployer e)) ++ str " for bytecode " ++
                 encode_prefixed (ExpectedCreate.bytecode e) ++ str " but not found" in
      Some (CallOutcome.answer Revert (abi_encode (ErrStr msg)) outcome)
  end.
