(* ===== verification/Mocks.v ===== *)
(** Mocked calls (cheatcodes/src/evm/mock.rs, cheatcodes/common/src/mock.rs) and
    how the [call] hook answers with them (cheatcodes/src/inspector.rs,
    evm/evm/src/inspectors/stack.rs); which mock answers a call, and with what. *)
From stdpp Require Import strings gmap.
From S2P Require Import Prelude Pranks Frames.

(** ** Data *)

(** [MockCallDataContext]: the calldata, and the value if it matters. *)
Abbreviation MockContext := (Bytes * option Z)%type.

Module MockReturn.
Record t := mk { ret_type : InstructionResult; data : Bytes }.
End MockReturn.

Abbreviation Mocks := (gmap MockContext (list MockReturn.t)).

(** [Ord] of bytes and of options. *)
Fixpoint bytes_cmp (x y : Bytes) : comparison :=
  match x, y with
  | [], [] => Eq
  | [], _ :: _ => Lt
  | _ :: _, [] => Gt
  | a :: x, b :: y => match Z.compare a b with Eq => bytes_cmp x y | c => c end
  end.

Definition option_cmp (x y : option Z) : comparison :=
  match x, y with
  | None, None => Eq | None, Some _ => Lt | Some _, None => Gt | Some a, Some b => Z.compare a b
  end.

Definition mock_cmp (x y : MockContext) : comparison :=
  match CompOpp (bytes_cmp x.1 y.1) with
  | Eq => CompOpp (option_cmp x.2 y.2)
  | c => c
  end.

(** A [BTreeMap] is iterated in the order of its keys. *)
Definition iter_mocks (m : Mocks) : list (MockContext * list MockReturn.t) :=
  sort_by (λ x y, mock_cmp x.1 y.1) (map_to_list m).

(** ** The cheatcodes *)

Definition mock_calls (callee : Z) (cdata : Bytes) (value : option Z) (rdata_vec : list Bytes)
    (ret_type : InstructionResult) (s : gmap Z Mocks) : gmap Z Mocks :=
  <[callee := <[(cdata, value) := MockReturn.mk ret_type <$> rdata_vec]> (default ∅ (s !! callee))]> s.

Definition mock_call (callee : Z) (cdata : Bytes) (value : option Z) (rdata : Bytes)
    (ret_type : InstructionResult) (s : gmap Z Mocks) : gmap Z Mocks :=
  mock_calls callee cdata value [rdata] ret_type s.

Inductive MockCheat :=
  | ClearMockedCalls
  | MockCall_0 (callee : Z) (data returnData : Bytes)
  | MockCall_1 (callee msgValue : Z) (data returnData : Bytes)
  | MockCall_2 (callee : Z) (data returnData : Bytes)
  | MockCall_3 (callee msgValue : Z) (data returnData : Bytes)
  | MockCalls_0 (callee : Z) (data : Bytes) (returnData : list Bytes)
  | MockCalls_1 (callee msgValue : Z) (data : Bytes) (returnData : list Bytes)
  | MockCallRevert_0 (callee : Z) (data revertData : Bytes)
  | MockCallRevert_1 (callee msgValue : Z) (data revertData : Bytes)
  | MockCallRevert_2 (callee : Z) (data revertData : Bytes)
  | MockCallRevert_3 (callee msgValue : Z) (data revertData : Bytes)
  | MockFunction (callee target : Z) (data : Bytes).

(** What a cheatcode does to the account of the callee first: it is given code
    if it has none, or it is only loaded. *)
Inductive TouchAccount := NoTouch | MakeNonEmpty (a : Z) | Load (a : Z).

Definition mock_touch (c : MockCheat) : TouchAccount :=
  match c with
  | ClearMockedCalls | MockFunction _ _ _ => NoTouch
  | MockCall_0 a _ _ | MockCall_2 a _ _ | MockCalls_0 a _ _ => MakeNonEmpty a
  | MockCall_1 a _ _ _ | MockCall_3 a _ _ _ | MockCalls_1 a _ _ _ => Load a
  | MockCallRevert_0 a _ _ | MockCallRevert_1 a _ _ _ | MockCallRevert_2 a _ _ | MockCallRevert_3 a _ _ _ =>
      MakeNonEmpty a
  end.

(** The mocked calls and the mocked functions once that has succeeded. *)
Definition apply_mock_cheat (c : MockCheat) (s : gmap Z Mocks * gmap Z (gmap Bytes Z)) :
    gmap Z Mocks * gmap Z (gmap Bytes Z) :=
  let '(calls, functions) := s in
  match c with
  | ClearMockedCalls => (∅, functions)
  | MockCall_0 a d r | MockCall_2 a d r => (mock_call a d None r Return calls, functions)
  | MockCall_1 a v d r | MockCall_3 a v d r => (mock_call a d (Some v) r Return calls, functions)
  | MockCalls_0 a d r => (mock_calls a d None r Return calls, functions)
  | MockCalls_1 a v d r => (mock_calls a d (Some v) r Return calls, functions)
  | MockCallRevert_0 a d r | MockCallRevert_2 a d r => (mock_call a d None r Revert calls, functions)
  | MockCallRevert_1 a v d r | MockCallRevert_3 a v d r => (mock_call a d (Some v) r Revert calls, functions)
  | MockFunction a t d => (calls, <[a := <[d := t]> (default ∅ (functions !! a))]> functions)
  end.

(** ** The [call] hook *)

(** A mock applies to a call whose input starts with its calldata. *)
Definition mock_applies (k : MockContext) (call : Call.t) : bool :=
  bool_decide (get_prefix (length k.1) (Call.input call) = Some k.1) &&
  match k.2 with Some v => bool_decide (Some v = Call.transfer_value call) | None => true end.

(** The exact context if it is mocked, else the first mock that applies. *)
Definition find_mock (call : Call.t) (m : Mocks) : option MockContext :=
  let ctx := (Call.input call, Call.transfer_value call) in
  match m !! ctx with
  | Some _ => Some ctx
  | None => fst <$> List.find (λ x, mock_applies x.1 call) (iter_mocks m)
  end.

(** The answer to a call and the mocks that remain: the last answer stays. *)
Definition mocked_call (call : Call.t) (s : gmap Z Mocks) : gmap Z Mocks * option MockReturn.t :=
  match m ← s !! Call.bytecode_address call; k ← find_mock call m; q ← m !! k; Some (m, k, q) with
  | Some (m, k, q) =>
      match q with
      | [] => (s, None)
      | [r] => (s, Some r)
      | r :: q => (<[Call.bytecode_address call := <[k := q]> m]> s, Some r)
      end
  | None => (s, None)
  end.

(** A mocked function: the code of another contract is run, for the exact
    calldata or else for its selector. *)
Definition mocked_function (call : Call.t) (s : gmap Z (gmap Bytes Z)) : Call.t :=
  match s !! Call.target_address call with
  | None => call
  | Some mocks =>
      match mocks !! Call.input call with
      | Some target => Call.set_bytecode_address target call
      | None =>
          match selector ← get_prefix 4 (Call.input call); mocks !! selector with
          | Some target => Call.set_bytecode_address target call
          | None => call
          end
      end
  end.

(** ** Which mock answers *)

(** ** The order of the mocks *)

Lemma bytes_cmp_refl x : bytes_cmp x x = Eq.
Proof. induction x as [|a x IH]; [done|]. cbn. by rewrite Z.compare_refl. Qed.

Lemma bytes_cmp_eq x y : bytes_cmp x y = Eq → x = y.
Proof.
  revert y. induction x as [|a x IH]; intros [|b y]; cbn; try done.
  destruct (Z.compare_spec a b); [|done|done]. subst. intros Hxy. f_equal. auto.
Qed.

Lemma bytes_cmp_sym x y : bytes_cmp y x = CompOpp (bytes_cmp x y).
Proof.
  revert y. induction x as [|a x IH]; intros [|b y]; cbn; try done.
  rewrite (Z.compare_antisym a b). destruct (Z.compare a b); cbn; auto.
Qed.

Lemma bytes_cmp_prefix x k : k ≠ [] → bytes_cmp x (x ++ k) = Lt.
Proof. intros Hk. induction x as [|a x IH]; cbn; [by destruct k|]. by rewrite Z.compare_refl. Qed.

(** Of two mocks that apply to a call, the one whose calldata is longer comes
    first, then the one that names a value. *)
Definition tighter (k k' : MockContext) : Prop :=
  length k'.1 < length k.1 ∨ (k.1 = k'.1 ∧ (k.2 = None → k'.2 = None)).

Lemma applies_prefix k call : mock_applies k call = true → k.1 `prefix_of` Call.input call.
Proof.
  unfold mock_applies. intros [Hp%bool_decide_eq_true _]%andb_true_iff. by apply get_prefix_Some in Hp as [_ Hp].
Qed.

Lemma applies_value k call v : mock_applies k call = true → k.2 = Some v → Call.transfer_value call = Some v.
Proof. unfold mock_applies. intros [_ Hv]%andb_true_iff Hk. rewrite Hk in Hv. by apply bool_decide_eq_true in Hv. Qed.

Lemma cmp_tighter k k' call :
  mock_applies k call = true → mock_applies k' call = true → mock_cmp k k' ≠ Gt → tighter k k'.
Proof.
  intros Hk Hk' Hc. pose proof (applies_prefix _ _ Hk) as P. pose proof (applies_prefix _ _ Hk') as P'.
  assert (k.1 `prefix_of` k'.1 ∨ k'.1 `prefix_of` k.1) as [[l Hl]|[l Hl]] by (eapply prefix_weak_total; eauto).
  - destruct l as [|a l].
    + rewrite app_nil_r in Hl. right. split; [done|]. intros Hn. unfold mock_cmp in Hc.
      rewrite Hl, bytes_cmp_refl, Hn in Hc. cbn in Hc. by destruct k'.2.
    + exfalso. apply Hc. unfold mock_cmp. rewrite Hl, bytes_cmp_prefix by done. done.
  - destruct l as [|a l].
    + rewrite app_nil_r in Hl. right. split; [done|]. intros Hn. unfold mock_cmp in Hc.
      rewrite Hl, bytes_cmp_refl, Hn in Hc. cbn in Hc. by destruct k'.2.
    + left. rewrite Hl, length_app. cbn. lia.
Qed.

Lemma bytes_cmp_gt_trans x y z : bytes_cmp x y = Gt → bytes_cmp y z = Gt → bytes_cmp x z = Gt.
Proof.
  revert y z. induction x as [|a x IH]; intros [|b y] [|c z]; cbn; try done.
  destruct (Z.compare_spec a b), (Z.compare_spec b c); subst; try done; intros; simplify_eq.
  - rewrite Z.compare_refl. eauto.
  - by rewrite (proj2 (Z.compare_gt_iff _ _)).
  - by rewrite (proj2 (Z.compare_gt_iff _ _)).
  - rewrite (proj2 (Z.compare_gt_iff _ _)); [done|lia].
Qed.

Lemma mock_cmp_flip x y : mock_cmp x y = Gt → mock_cmp y x ≠ Gt.
Proof.
  unfold mock_cmp. rewrite (bytes_cmp_sym x.1 y.1). destruct (bytes_cmp x.1 y.1); cbn; try done.
  destruct (x.2) as [a|], (y.2) as [b|]; cbn; try done. rewrite (Z.compare_antisym a b).
  by destruct (Z.compare a b).
Qed.

Lemma mock_cmp_trans x y z : mock_cmp x y ≠ Gt → mock_cmp y z ≠ Gt → mock_cmp x z ≠ Gt.
Proof.
  unfold mock_cmp. destruct (bytes_cmp x.1 y.1) eqn:Hxy; cbn; [| done |].
  - apply bytes_cmp_eq in Hxy. rewrite Hxy. destruct (bytes_cmp y.1 z.1); cbn; try done.
    destruct (x.2) as [a|], (y.2) as [b|], (z.2) as [c|]; cbn; try done.
    destruct (Z.compare_spec a b), (Z.compare_spec b c), (Z.compare_spec a c); subst; cbn; try done; lia.
  - intros _. destruct (bytes_cmp y.1 z.1) eqn:Hyz; cbn; [|done|].
    + apply bytes_cmp_eq in Hyz. by rewrite <-Hyz, Hxy.
    + by rewrite (bytes_cmp_gt_trans _ _ _ Hxy Hyz).
Qed.

Lemma iter_mocks_perm m : iter_mocks m ≡ₚ map_to_list m.
Proof. apply sort_by_perm. Qed.

Lemma iter_mocks_sorted m : StronglySorted (λ x y, mock_cmp x.1 y.1 ≠ Gt) (iter_mocks m).
Proof. apply sort_by_sorted; [intros x y; apply mock_cmp_flip|intros x y z; apply mock_cmp_trans]. Qed.

(** ** The mock that answers *)

Definition tightest (call : Call.t) (m : Mocks) (k : MockContext) : Prop :=
  is_Some (m !! k) ∧ mock_applies k call = true ∧
  ∀ k', is_Some (m !! k') → mock_applies k' call = true → tighter k k'.

Lemma find_sorted {A} (R : relation A) (p : A → bool) l x :
  Reflexive R → StronglySorted R l → List.find p l = Some x → x ∈ l ∧ p x = true ∧ ∀ y, y ∈ l → p y = true → R x y.
Proof.
  intros HR Hs. induction Hs as [|a l Hs IH Ha]; cbn; [done|]. destruct (p a) eqn:Hp.
  - intros [= ->]. split; [left|]. split; [done|]. intros y Hy _. apply elem_of_cons in Hy as [->|Hy]; [done|].
    rewrite Forall_forall in Ha. auto.
  - intros Hx. destruct (IH Hx) as (H1 & H2 & H3). split; [by right|]. split; [done|].
    intros y Hy Hpy. apply elem_of_cons in Hy as [->|Hy]; [congruence|auto].
Qed.

Lemma exact_applies call : mock_applies (Call.input call, Call.transfer_value call) call = true.
Proof.
  unfold mock_applies; cbn. unfold get_prefix. rewrite decide_True, take_ge by done.
  rewrite bool_decide_eq_true_2 by done. destruct (Call.transfer_value call); [|done].
  by rewrite bool_decide_eq_true_2.
Qed.

(** The hook finds the tightest mock, if any applies. *)
Lemma find_mock_spec call m :
  match find_mock call m with
  | Some k => tightest call m k
  | None => ∀ k, is_Some (m !! k) → mock_applies k call = false
  end.
Proof.
  unfold find_mock. destruct (m !! (Call.input call, Call.transfer_value call)) as [q|] eqn:Hq.
  - split; [by eexists|]. split; [apply exact_applies|]. intros k' _ Hk'.
    pose proof (applies_prefix _ _ Hk') as [l Hl]. cbn.
    destruct l as [|a l].
    + rewrite app_nil_r in Hl. right. cbn. split; [done|]. intros Hn.
      destruct k'.2 as [v|] eqn:Hv; [|done]. pose proof (applies_value _ _ _ Hk' Hv). congruence.
    + left. cbn. rewrite Hl, length_app. cbn. lia.
  - destruct (List.find _ (iter_mocks m)) as [[k q]|] eqn:Hf; cbn.
    + apply (find_sorted (λ x y, mock_cmp x.1 y.1 ≠ Gt)) in Hf as (Hin & Hk & Hall).
      * cbn in Hk. split; [exists q; apply elem_of_map_to_list; by rewrite <-iter_mocks_perm|]. split; [done|].
        intros k' [q' Hq'] Hk'. eapply cmp_tighter; [done|done|]. apply (Hall (k', q')); [|done].
        rewrite iter_mocks_perm. by apply elem_of_map_to_list.
      * intros x. unfold mock_cmp. rewrite bytes_cmp_refl. cbn. destruct x.1.2; cbn; [|done].
        by rewrite Z.compare_refl.
      * apply iter_mocks_sorted.
    + intros k [q' Hk]. apply (List.find_none _ _ Hf (k, q')). apply list_elem_of_In.
      rewrite iter_mocks_perm. by apply elem_of_map_to_list.
Qed.

Lemma tightest_unique call m k k' : tightest call m k → tightest call m k' → k = k'.
Proof.
  intros (Hk & Ha & Ht) (Hk' & Ha' & Ht'). destruct k as [c v], k' as [c' v'].
  destruct (Ht _ Hk' Ha') as [H1|[H1 H2]], (Ht' _ Hk Ha) as [H3|[H3 H4]]; cbn in *; try lia; try (subst; lia).
  subst. f_equal. destruct v as [v|], v' as [v'|]; [|by specialize (H4 eq_refl)|by specialize (H2 eq_refl)|done].
  pose proof (applies_value _ _ _ Ha eq_refl). pose proof (applies_value _ _ _ Ha' eq_refl). congruence.
Qed.

Lemma tightest_insert call m k q : tightest call m k → tightest call (<[k := q]> m) k.
Proof.
  intros (Hk & Ha & Ht). split; [rewrite lookup_insert_eq; by eexists|]. split; [done|].
  intros k' Hk' Hk''. destruct (decide (k' = k)) as [->|].
  - right. done.
  - rewrite lookup_insert_ne in Hk' by done. auto.
Qed.

(** The answers to the same call made [n] times. *)
Fixpoint answers (n : nat) (call : Call.t) (s : gmap Z Mocks) : list (option MockReturn.t) :=
  match n with
  | O => []
  | S n => let '(s, r) := mocked_call call s in r :: answers n call s
  end.

Lemma mocked_call_tightest call s m k q :
  s !! Call.bytecode_address call = Some m → tightest call m k → m !! k = Some q →
  mocked_call call s =
    match q with
    | [] => (s, None)
    | [r] => (s, Some r)
    | r :: q => (<[Call.bytecode_address call := <[k := q]> m]> s, Some r)
    end.
Proof.
  intros Hs Ht Hq. unfold mocked_call. rewrite Hs. cbn [mbind option_bind].
  pose proof (find_mock_spec call m) as Hf. destruct (find_mock call m) as [k'|].
  - rewrite (tightest_unique _ _ _ _ Hf Ht). cbn [mbind option_bind]. rewrite Hq. done.
  - destruct Ht as (Hk & Ha & _). rewrite (Hf _ Hk) in Ha. done.
Qed.

(** C32: which mock answers a call.  Among the mocks of the callee whose calldata
    is a prefix of the input and whose value, if given, is the one transferred,
    the hook takes the one with the longest calldata, and of two with the same
    calldata the one that gives the value; it is unique.  Its answers are given
    one after another and the last one is repeated; without a mock that applies
    the call goes through and the mocks are unchanged. *)
Theorem mocks_answer (call : Call.t) (s : gmap Z Mocks) (m : Mocks) :
  s !! Call.bytecode_address call = Some m →
  (∃ k q, tightest call m k ∧ m !! k = Some q ∧
     ∀ n, answers n call s =
       if decide (q = []) then replicate n None else (λ i, q !! Nat.min i (length q - 1)) <$> seq 0 n) ∨
  ((∀ k, is_Some (m !! k) → mock_applies k call = false) ∧ mocked_call call s = (s, None)).
Proof.
  intros Hs. pose proof (find_mock_spec call m) as Hf. destruct (find_mock call m) as [k|] eqn:Hk.
  - left. destruct (proj1 Hf) as [q Hq]. exists k, q. split; [done|]. split; [done|]. intros n.
    revert s m q Hs Hf Hk Hq. induction n as [|n IH]; intros s m q Hs Hf Hk Hq; cbn [answers]; [by case_decide|].
    rewrite (mocked_call_tightest _ _ _ _ _ Hs Hf Hq). destruct q as [|r [|r' q]].
    + by rewrite (IH s m [] Hs Hf Hk Hq).
    + rewrite (IH s m [r] Hs Hf Hk Hq). cbn [seq fmap list_fmap]. f_equal. rewrite !decide_False by done.
      rewrite <-fmap_S_seq, <-list_fmap_compose. apply list_fmap_ext. intros i x _. cbn. by rewrite !Nat.min_0_r.
    + set (s' := <[Call.bytecode_address call := _]> s). set (m' := <[k := r' :: q]> m).
      assert (s' !! Call.bytecode_address call = Some m') as Hs' by apply lookup_insert_eq.
      pose proof (tightest_insert _ _ _ (r' :: q) Hf) as Hf'.
      pose proof (find_mock_spec call m') as Hk'. destruct (find_mock call m') as [k'|] eqn:Hk0.
      * rewrite (tightest_unique _ _ _ _ Hk' Hf') in Hk0.
        rewrite (IH s' m' (r' :: q) Hs' Hf' Hk0 (lookup_insert_eq _ _ _)). rewrite !decide_False by done.
        cbn [seq fmap list_fmap]. f_equal. rewrite <-fmap_S_seq, <-list_fmap_compose. apply list_fmap_ext.
        intros i x _. cbn. rewrite Nat.sub_0_r. by destruct i.
      * destruct Hf' as (Hx & Hy & _). rewrite (Hk' _ Hx) in Hy. done.
  - right. split; [done|]. unfold mocked_call. rewrite Hs. cbn [mbind option_bind]. by rewrite Hk.
Qed.

(** ** An example *)

Module MockExample.
Definition call : Call.t :=
  Call.mk [1; 2; 3; 4; 9]%Z (0, 0)%Z 100 7 7 5 (Transfer 3) SchemeCall false.
Definition answer (d : Z) : MockReturn.t := MockReturn.mk Return [d].
Definition mocks : Mocks :=
  {[([1; 2; 3; 4], None) := [answer 1]; ([1; 2; 3; 4; 9], None) := [answer 2];
    ([1; 2; 3; 4; 9], Some 3) := [answer 3; answer 4]; ([1; 2; 3; 4; 9; 9], None) := [answer 5]]}%Z.
Definition state : gmap Z Mocks := {[7%Z := mocks]}.
Definition best : MockContext := ([1; 2; 3; 4; 9]%Z, Some 3%Z).
End MockExample.

Lemma example_best : tightest MockExample.call MockExample.mocks MockExample.best.
Proof.
  pose proof (find_mock_spec MockExample.call MockExample.mocks) as Hf.
  assert (find_mock MockExample.call MockExample.mocks = Some MockExample.best) as Hb by (vm_compute; reflexivity).
  by rewrite Hb in Hf.
Qed.

Lemma mocks_answer_witness :
  answers 3 MockExample.call MockExample.state =
    [Some (MockExample.answer 3); Some (MockExample.answer 4); Some (MockExample.answer 4)].
Proof.
  destruct (mocks_answer MockExample.call MockExample.state MockExample.mocks) as [(k & q & Ht & Hq & Ha)|[Hn _]].
  - apply lookup_singleton_eq.
  - rewrite (tightest_unique _ _ _ _ Ht example_best) in Hq. rewrite (Ha 3).
    assert (q = [MockExample.answer 3; MockExample.answer 4]) as ->; [|reflexivity].
    apply (f_equal (default [])) in Hq. vm_compute in Hq. by subst q.
  - destruct example_best as (Hk & Hb & _). rewrite (Hn _ Hk) in Hb. discriminate Hb.
Defined.
