(* ===== verification/StateDiffs.v ===== *)
(** Recorded account accesses ([vm.startStateDiffRecording]): the stack of
    accesses the hooks keep (cheatcodes/src/inspector.rs) and the differences
    computed from it (cheatcodes/src/evm.rs); recorded storage slots
    ([vm.record], cheatcodes/common/src/record.rs).

    The stack has one list per frame that was entered since the recording
    began; when a frame ends its list is joined to the one below. *)
From stdpp Require Import strings gmap.
From S2P Require Import Prelude Radix Frames.

(** ** Data *)

Inductive AccountAccessKind :=
  | KindCall | KindDelegateCall | KindCallCode | KindStaticCall | KindCreate | KindSelfDestruct
  | KindResume | KindBalance | KindExtcodesize | KindExtcodehash | KindExtcodecopy.

Module StorageAccess.
Record t := mk {
  account : Z; slot : Z; isWrite : bool; previousValue : Z; newValue : Z; reverted : bool }.
Definition set_reverted (s : t) : t := mk (account s) (slot s) (isWrite s) (previousValue s) (newValue s) true.
End StorageAccess.

Module AccountAccess.
Record t := mk {
  chainInfo : Z * Z; accessor : Z; account : Z; kind : AccountAccessKind; initialized : bool;
  oldBalance : Z; newBalance : Z; value : Z; data : Bytes; reverted : bool; deployedCode : Bytes;
  storageAccesses : list StorageAccess.t; depth : Z }.

Definition set_newBalance (b : Z) (a : t) : t :=
  mk (chainInfo a) (accessor a) (account a) (kind a) (initialized a) (oldBalance a) b (value a) (data a)
    (reverted a) (deployedCode a) (storageAccesses a) (depth a).
Definition set_deployedCode (c : Bytes) (a : t) : t :=
  mk (chainInfo a) (accessor a) (account a) (kind a) (initialized a) (oldBalance a) (newBalance a) (value a)
    (data a) (reverted a) c (storageAccesses a) (depth a).
Definition set_storageAccesses (l : list StorageAccess.t) (a : t) : t :=
  mk (chainInfo a) (accessor a) (account a) (kind a) (initialized a) (oldBalance a) (newBalance a) (value a)
    (data a) (reverted a) (deployedCode a) l (depth a).
(** The access and its storage accesses marked as reverted. *)
Definition mark_reverted (a : t) : t :=
  mk (chainInfo a) (accessor a) (account a) (kind a) (initialized a) (oldBalance a) (newBalance a) (value a)
    (data a) true (deployedCode a) (StorageAccess.set_reverted <$> storageAccesses a) (depth a).
End AccountAccess.

Abbreviation AccessStack := (list (list AccountAccess.t)).

Definition access_is_call (k : AccountAccessKind) : bool :=
  match k with KindCall | KindStaticCall | KindCallCode | KindDelegateCall => true | _ => false end.

(** ** The stack *)

(** The end of a frame, first part: its list is taken off the stack. *)
Definition pop_depth (reverted : bool) (stack : AccessStack) : option (list AccountAccess.t * AccessStack) :=
  match vec_pop stack with
  | Some (last_depth, stack) =>
      Some (if reverted then AccountAccess.mark_reverted <$> last_depth else last_depth, stack)
  | None => None
  end.

(** Second part: it is joined to the list below. *)
Definition merge_depth (last_depth : list AccountAccess.t) (stack : AccessStack) : AccessStack :=
  match last_depth with
  | [] => stack
  | _ => match vec_pop stack with
         | Some (last, stack) => stack ++ [last ++ last_depth]
         | None => [last_depth]
         end
  end.

(** The last element of a list changed. *)
Definition update_last {A} (f : A → A) (l : list A) : list A :=
  match vec_pop l with Some (x, l) => l ++ [f x] | None => l end.

Definition append_storage_access (storage_access : StorageAccess.t) (storage_depth : Z)
    (last : list AccountAccess.t) : list AccountAccess.t :=
  match last with
  | [] => last
  | entry :: rest =>
      if negb (AccountAccess.depth entry <? storage_depth)%Z then last
      else
        let push a := AccountAccess.set_storageAccesses (AccountAccess.storageAccesses a ++ [storage_access]) a in
        match rest with
        | [] => [push entry]
        | _ =>
            match AccountAccess.kind (List.last last entry) with
            | KindResume => update_last push last
            | _ =>
                last ++ [AccountAccess.mk (AccountAccess.chainInfo entry) (AccountAccess.accessor entry)
                           (AccountAccess.account entry) KindResume (AccountAccess.initialized entry)
                           0 0 0 [] (AccountAccess.reverted entry) [] [storage_access] (AccountAccess.depth entry)]
            end
        end
  end.

(** A storage access of the current frame. *)
Definition record_storage (storage_access : StorageAccess.t) (storage_depth : Z) : AccessStack → AccessStack :=
  update_last (append_storage_access storage_access storage_depth).

(** An access of the current frame to another account: the destruction of a
    contract needs a frame that is recorded, a look at an account does not. *)
Definition record_selfdestruct (a : AccountAccess.t) : AccessStack → AccessStack := update_last (λ l, l ++ [a]).

Definition record_ext (a : AccountAccess.t) (stack : AccessStack) : AccessStack :=
  match stack with [] => [[a]] | _ => update_last (λ l, l ++ [a]) stack end.

(** ** Reading the recording *)

Definition startStateDiffRecording (s : option AccessStack) : option AccessStack := Some [].

Definition get_state_diff (s : option AccessStack) : option AccessStack * list AccountAccess.t :=
  (Some [], concat (default [] s)).

Module SlotStateDiff.
Record t := mk { previous_value : Z; new_value : Z }.
End SlotStateDiff.

Module AccountStateDiffs.
Record t := mk { label : option Str; balance_diff : option (Z * Z); state_diff : gmap Z SlotStateDiff.t }.
End AccountStateDiffs.

Section diffs.
Context (labels : gmap Z Str).

(** The entry of an account, made with its label if it is not there. *)
Definition diff_entry (a : Z) (m : gmap Z AccountStateDiffs.t) : AccountStateDiffs.t :=
  default (AccountStateDiffs.mk (labels !! a) None ∅) (m !! a).

Definition add_balance_diff (x : AccountAccess.t) (m : gmap Z AccountStateDiffs.t) : gmap Z AccountStateDiffs.t :=
  if (AccountAccess.oldBalance x =? AccountAccess.newBalance x)%Z then m
  else
    let a := AccountAccess.account x in
    let e := diff_entry a m in
    let previous := match AccountStateDiffs.balance_diff e with Some (p, _) => p | None => AccountAccess.oldBalance x end in
    <[a := AccountStateDiffs.mk (AccountStateDiffs.label e) (Some (previous, AccountAccess.newBalance x))
             (AccountStateDiffs.state_diff e)]> m.

Definition add_slot_diff (m : gmap Z AccountStateDiffs.t) (s : StorageAccess.t) : gmap Z AccountStateDiffs.t :=
  if StorageAccess.isWrite s && negb (StorageAccess.reverted s) then
    let a := StorageAccess.account s in
    let e := diff_entry a m in
    let previous := match AccountStateDiffs.state_diff e !! StorageAccess.slot s with
                    | Some d => SlotStateDiff.previous_value d
                    | None => StorageAccess.previousValue s
                    end in
    <[a := AccountStateDiffs.mk (AccountStateDiffs.label e) (AccountStateDiffs.balance_diff e)
             (<[StorageAccess.slot s := SlotStateDiff.mk previous (StorageAccess.newValue s)]>
                (AccountStateDiffs.state_diff e))]> m
  else m.

Definition add_access_diff (m : gmap Z AccountStateDiffs.t) (x : AccountAccess.t) : gmap Z AccountStateDiffs.t :=
  foldl add_slot_diff (add_balance_diff x m) (AccountAccess.storageAccesses x).

(** The differences recorded for each account, which leave the recording as it
    is. *)
Definition get_recorded_state_diffs (s : option AccessStack) : gmap Z AccountStateDiffs.t :=
  match s with
  | Some records =>
      foldl add_access_diff ∅
        (filter (λ x, AccountAccess.storageAccesses x ≠ [] ∨
                      AccountAccess.oldBalance x ≠ AccountAccess.newBalance x) (concat records))
  | None => ∅
  end.
End diffs.

(** ** Recorded slots *)

Module RecordAccess.
Record t := mk { reads : gmap Z (list Z); writes : gmap Z (list Z) }.
Definition empty : t := mk ∅ ∅.
Definition push (target slot : Z) (m : gmap Z (list Z)) : gmap Z (list Z) :=
  <[target := default [] (m !! target) ++ [slot]]> m.
Definition record_read (target slot : Z) (r : t) : t := mk (push target slot (reads r)) (writes r).
Definition record_write (target slot : Z) (r : t) : t :=
  let r := record_read target slot r in mk (reads r) (push target slot (writes r)).
End RecordAccess.

(** [vm.accesses]: the entries are made if they are missing. *)
Definition accesses_of (target : Z) (s : option RecordAccess.t) : option RecordAccess.t * (list Z * list Z) :=
  match s with
  | Some r =>
      let rd := default [] (RecordAccess.reads r !! target) in
      let wr := default [] (RecordAccess.writes r !! target) in
      (Some (RecordAccess.mk (<[target := rd]> (RecordAccess.reads r)) (<[target := wr]> (RecordAccess.writes r))), (rd, wr))
  | None => (None, ([], []))
  end.
