(* ===== verification/Mapping.v ===== *)
(** Recorded slots of Solidity mappings ([vm.startMappingRecording],
    cheatcodes/src/evm/mapping.rs): every hash of a key and a slot that is
    computed is remembered, and a slot that is written to is traced back
    through them. *)
From stdpp Require Import gmap.
From S2P Require Import Prelude Frames.

Module MappingSlots.
Record t := mk {
  parent_slots : gmap Z Z; keys : gmap Z Z; children : gmap Z (list Z); seen_sha3 : gmap Z (Z * Z) }.
Definition default_ : t := mk ∅ ∅ ∅ ∅.

Definition see (result low high : Z) (m : t) : t :=
  mk (parent_slots m) (keys m) (children m) (<[result := (low, high)]> (seen_sha3 m)).

(** [insert] calls itself with the parent until a slot is known or was not
    hashed; [fuel] bounds the slots that can still be added. *)
Fixpoint insert_loop (fuel : nat) (slot : Z) (m : t) : option (t * bool) :=
  match seen_sha3 m !! slot with
  | None => Some (m, false)
  | Some (key, parent) =>
      match keys m !! slot with
      | Some _ => Some (m, false)
      | None =>
          match fuel with
          | O => None
          | S fuel =>
              let m := mk (<[slot := parent]> (parent_slots m)) (<[slot := key]> (keys m))
                         (<[parent := default [] (children m !! parent) ++ [slot]]> (children m)) (seen_sha3 m) in
              match insert_loop fuel parent m with
              | Some (m, _) => Some (m, true)
              | None => None
              end
          end
      end
  end.

Definition insert (slot : Z) (m : t) : option (t * bool) := insert_loop (size (seen_sha3 m)) slot m.
End MappingSlots.

(** ** The cheatcodes *)

Inductive MappingCheat :=
  | StartMappingRecording | StopMappingRecording
  | GetMappingLength (target mappingSlot : Z) | GetMappingSlotAt (target mappingSlot idx : Z)
  | GetMappingKeyAndParentOf (target elementSlot : Z).

Inductive MappingReturned := MapUnit | MapUint (n : Z) | MapKey (found : bool) (key parent : Z).

Definition mapping_slot (s : option (gmap Z MappingSlots.t)) (target : Z) : option MappingSlots.t :=
  m ← s; m !! target.

Definition slot_child (s : option (gmap Z MappingSlots.t)) (target slot : Z) : option (list Z) :=
  m ← mapping_slot s target; MappingSlots.children m !! slot.

(** A slot that has a key has a parent; the lookup of the parent panics
    otherwise. *)
Definition apply_mapping_cheat (c : MappingCheat) (s : option (gmap Z MappingSlots.t)) :
    option (option (gmap Z MappingSlots.t) * MappingReturned) :=
  match c with
  | StartMappingRecording => Some (match s with None => Some ∅ | Some _ => s end, MapUnit)
  | StopMappingRecording => Some (None, MapUnit)
  | GetMappingLength target slot => Some (s, MapUint (Z.of_nat (from_option length 0 (slot_child s target slot))))
  | GetMappingSlotAt target slot idx =>
      Some (s, MapUint (default 0%Z (l ← slot_child s target slot; l !! Z.to_nat (Z.min idx (2 ^ 64 - 1)))))
  | GetMappingKeyAndParentOf target slot =>
      match mapping_slot s target with
      | None => Some (s, MapKey false 0 0)
      | Some m =>
          match MappingSlots.keys m !! slot, MappingSlots.seen_sha3 m !! slot with
          | Some key, _ => parent ← MappingSlots.parent_slots m !! slot; Some (s, MapKey true key parent)
          | None, Some (key, parent) => Some (s, MapKey true key parent)
          | None, None => Some (s, MapKey false 0 0)
          end
      end
  end.

(** ** The [step] hook *)

(** A hash of 64 bytes, and a write to a slot. *)
Definition mapping_sha3 (address result low high : Z) (m : gmap Z MappingSlots.t) : gmap Z MappingSlots.t :=
  <[address := MappingSlots.see result low high (default MappingSlots.default_ (m !! address))]> m.

Definition mapping_sstore (address slot : Z) (m : gmap Z MappingSlots.t) : option (gmap Z MappingSlots.t) :=
  match m !! address with
  | None => Some m
  | Some x => match MappingSlots.insert slot x with Some (x, _) => Some (<[address := x]> m) | None => None end
  end.

(** ** What is recorded *)

Import MappingSlots.

(** Every slot with a key was hashed, and its parent, key and place among the
    children are those of the hash. *)
Record slots_wf (m : t) : Prop := {
  sw_parents : dom (parent_slots m) = dom (keys m);
  sw_seen : ∀ slot key, keys m !! slot = Some key → ∃ parent, seen_sha3 m !! slot = Some (key, parent) ∧
    parent_slots m !! slot = Some parent ∧ slot ∈ default [] (children m !! parent);
  sw_children : ∀ parent slot, slot ∈ default [] (children m !! parent) → parent_slots m !! slot = Some parent;
  sw_nodup : ∀ parent, NoDup (default [] (children m !! parent)) }.

Lemma default_wf : slots_wf default_.
Proof.
  split; [done|done| |]; intros p; cbn; rewrite lookup_empty; [|constructor].
  intros x Hx. by apply not_elem_of_nil in Hx.
Qed.

(** The hashes whose slots have no key yet. *)
Definition unknown (m : t) : gmap Z (Z * Z) := filter (λ x, keys m !! x.1 = None) (seen_sha3 m).

Lemma unknown_less slot key parent (m : t) ps ch :
  seen_sha3 m !! slot = Some (key, parent) → keys m !! slot = None →
  size (unknown (mk ps (<[slot := key]> (keys m)) ch (seen_sha3 m))) < size (unknown m).
Proof.
  intros Hs Hk. apply map_subset_size, map_subset_alt. split.
  - apply map_subseteq_spec. intros i x. unfold unknown; cbn. rewrite !map_lookup_filter_Some. cbn.
    intros [Hi Hn]. split; [done|]. destruct (decide (i = slot)) as [->|]; [done|]. by rewrite lookup_insert_ne in Hn.
  - exists slot. unfold unknown; cbn. split.
    + apply map_lookup_filter_None. right. intros x _. cbn. by rewrite lookup_insert_eq.
    + exists (key, parent). by apply map_lookup_filter_Some.
Qed.

(** One slot added. *)
Lemma add_wf slot key parent m :
  slots_wf m → seen_sha3 m !! slot = Some (key, parent) → keys m !! slot = None →
  slots_wf (mk (<[slot := parent]> (parent_slots m)) (<[slot := key]> (keys m))
              (<[parent := default [] (children m !! parent) ++ [slot]]> (children m)) (seen_sha3 m)).
Proof.
  intros [H1 H2 H3 H4] Hs Hk.
  assert (parent_slots m !! slot = None) as Hp by (apply not_elem_of_dom; rewrite H1; by apply not_elem_of_dom).
  assert (∀ p x, x ∈ default [] (<[parent := default [] (children m !! parent) ++ [slot]]> (children m) !! p) ↔
    x ∈ default [] (children m !! p) ∨ (p = parent ∧ x = slot)) as Hch.
  { intros p x. destruct (decide (p = parent)) as [->|]; [|rewrite lookup_insert_ne by done; naive_solver].
    rewrite lookup_insert_eq. cbn. set_solver. }
  split; cbn.
  - by rewrite !dom_insert_L, H1.
  - intros x k. setoid_rewrite Hch. destruct (decide (x = slot)) as [->|].
    + rewrite lookup_insert_eq. intros [= ->]. exists parent. rewrite lookup_insert_eq. naive_solver.
    + rewrite lookup_insert_ne by done. intros (p & ? & ? & ?)%H2. exists p. rewrite lookup_insert_ne by done. naive_solver.
  - intros p x [Hx|[-> ->]]%Hch; [|apply lookup_insert_eq]. pose proof (H3 _ _ Hx).
    destruct (decide (x = slot)) as [->|]; [congruence|]. by rewrite lookup_insert_ne.
  - intros p. destruct (decide (p = parent)) as [->|]; [|rewrite lookup_insert_ne by done; apply H4].
    rewrite lookup_insert_eq. cbn. apply NoDup_app. split; [apply H4|]. split; [|apply NoDup_singleton].
    intros x Hx Hx'%list_elem_of_singleton. subst x. pose proof (H3 _ _ Hx). congruence.
Qed.

(** The recursion ends, and records the slot if it was hashed. *)
Lemma insert_loop_total fuel slot m :
  size (unknown m) ≤ fuel → slots_wf m →
  ∃ m' b, insert_loop fuel slot m = Some (m', b) ∧ slots_wf m' ∧ seen_sha3 m' = seen_sha3 m ∧
    keys m ⊆ keys m' ∧ (is_Some (seen_sha3 m !! slot) → is_Some (keys m' !! slot)).
Proof.
  revert slot m. induction fuel as [|fuel IH]; intros slot m Hf Hwf; cbn [insert_loop];
    (destruct (seen_sha3 m !! slot) as [[key parent]|] eqn:Hs;
      [|exists m, false; split_and!; [done|done|done|done|by intros []]]);
    (destruct (keys m !! slot) as [k|] eqn:Hk; [exists m, false; rewrite Hk; split_and!; [done|done|done|done|by eexists]|]).
  - exfalso. assert (unknown m = ∅) as He by (apply map_size_empty_inv; lia).
    assert (unknown m !! slot = Some (key, parent)) as Hu by by apply map_lookup_filter_Some.
    by rewrite He in Hu.
  - pose proof (unknown_less slot key parent m (<[slot := parent]> (parent_slots m))
      (<[parent := default [] (children m !! parent) ++ [slot]]> (children m)) Hs Hk) as Hless.
    edestruct IH as (m' & b & Hm' & Hwf' & Hseen & Hkeys & _); [|by eapply add_wf|]. { lia. }
    rewrite Hm'. exists m', true. cbn in Hseen, Hkeys.
    assert (keys m' !! slot = Some key) as Hk'. { eapply lookup_weaken; [|exact Hkeys]. apply lookup_insert_eq. }
    split_and!; [done|done|done| |by rewrite Hk'; eexists].
    etrans; [|exact Hkeys]. by apply insert_subseteq.
Qed.

Lemma insert_total slot m :
  slots_wf m → ∃ m' b, insert slot m = Some (m', b) ∧ slots_wf m' ∧ seen_sha3 m' = seen_sha3 m ∧
    (is_Some (seen_sha3 m !! slot) → is_Some (keys m' !! slot)).
Proof.
  intros Hwf. destruct (insert_loop_total (size (seen_sha3 m)) slot m) as (m' & b & H1 & H2 & H3 & _ & H4); [|done|eauto 10].
  apply map_subseteq_size. apply map_filter_subseteq.
Qed.

Section recording.
(** The hash of a key and a slot; the hash function is taken to be injective. *)
Context (keccak : Z → Z → Z) (keccak_inj : ∀ a b c d, keccak a b = keccak c d → a = c ∧ b = d).

Inductive mapping_op := OpSha3 (address low high : Z) | OpSstore (address slot : Z).

Definition mapping_step (m : gmap Z t) (o : mapping_op) : option (gmap Z t) :=
  match o with
  | OpSha3 a low high => Some (mapping_sha3 a (keccak low high) low high m)
  | OpSstore a slot => mapping_sstore a slot m
  end.

Fixpoint mapping_run (l : list mapping_op) (m : gmap Z t) : option (gmap Z t) :=
  match l with [] => Some m | o :: l => m ← mapping_step m o; mapping_run l m end.

Definition mapping_ok (m : gmap Z t) : Prop :=
  ∀ a x, m !! a = Some x → slots_wf x ∧ ∀ slot k p, seen_sha3 x !! slot = Some (k, p) → slot = keccak k p.

Lemma see_wf low high x :
  slots_wf x → (∀ slot k p, seen_sha3 x !! slot = Some (k, p) → slot = keccak k p) →
  slots_wf (see (keccak low high) low high x) ∧
  ∀ slot k p, seen_sha3 (see (keccak low high) low high x) !! slot = Some (k, p) → slot = keccak k p.
Proof.
  intros [H1 H2 H3 H4] Hh. split.
  - split; cbn; auto. intros slot key Hk. destruct (H2 _ _ Hk) as (p & Hs & Hp). exists p.
    destruct (decide (slot = keccak low high)) as [->|]; [|by rewrite lookup_insert_ne].
    pose proof (Hh _ _ _ Hs) as [-> ->]%keccak_inj. by rewrite lookup_insert_eq.
  - intros slot k p. cbn. destruct (decide (slot = keccak low high)) as [->|]; [|rewrite lookup_insert_ne by done; apply Hh].
    rewrite lookup_insert_eq. by intros [= -> ->].
Qed.

Lemma mapping_step_ok m o : mapping_ok m → ∃ m', mapping_step m o = Some m' ∧ mapping_ok m'.
Proof.
  intros Hm. destruct o as [a low high|a slot]; cbn.
  - eexists. split; [done|]. intros b x. unfold mapping_sha3. destruct (decide (b = a)) as [->|].
    + rewrite lookup_insert_eq. intros [= <-]. destruct (m !! a) as [y|] eqn:Hy; cbn; [|apply see_wf; [apply default_wf|done]].
      destruct (Hm _ _ Hy). by apply see_wf.
    + rewrite lookup_insert_ne by done. apply Hm.
  - unfold mapping_sstore. destruct (m !! a) as [y|] eqn:Hy; [|by eexists].
    destruct (Hm _ _ Hy) as [Hwf Hh]. destruct (insert_total slot y Hwf) as (y' & b & -> & Hwf' & Hs & _).
    eexists. split; [done|]. intros c x. destruct (decide (c = a)) as [->|]; [|rewrite lookup_insert_ne by done; apply Hm].
    rewrite lookup_insert_eq. intros [= <-]. split; [done|]. by rewrite Hs.
Qed.

End recording.

(** An injective stand-in for the hash. *)
Definition pair_hash (a b : Z) : Z := Z.pos (encode (a, b)).

Definition example_ops : list mapping_op :=
  [OpSha3 9 3 5; OpSha3 9 4 (pair_hash 3 5); OpSstore 9 (pair_hash 4 (pair_hash 3 5)); OpSstore 9 7].

