(* ===== verification/Cheats.v ===== *)
(** The state of the cheatcode inspector ([Cheatcodes], cheatcodes/src/inspector.rs)
    and of the EVM it runs in, and the cheatcodes that act on it
    (cheatcodes/src/test/expect.rs, cheatcodes/src/evm.rs, cheatcodes/src/script.rs,
    cheatcodes/src/strategy.rs).

    revm, the database and the wallets are parameters.  What the remaining
    cheatcodes do is a parameter too: they act on the EVM and on the part of the
    state named in [OtherState]. *)
From stdpp Require Import strings gmap.
From S2P Require Import Prelude Radix Database MultiFork ForkBackend ForkTransact Pranks Frames ExpectEmit ExpectRevert ExpectCall Mocks StateDiffs Mapping.

(** ** Data *)

Module Broadcast.
Record t := mk {
  new_origin : Z; original_caller : Z; original_origin : Z; depth : Z; single_call : bool }.
End Broadcast.

Module DealRecord.
Record t := mk { address : Z; old_balance : Z; new_balance : Z }.
End DealRecord.

Module GasRecord.
Record t := mk { group : Str; name : Str; gas_used : Z; depth : Z }.
End GasRecord.

(** [Vm::Gas] *)
Record VmGas := mk_vm_gas {
  gasLimit : Z; gasTotalUsed : Z; gasMemoryUsed : Z; gasRefunded : Z; gasRemaining : Z }.

Module GasMetering.
Record t := mk {
  paused : bool; touched : bool; reset : bool; paused_frames : list Gas.t;
  active_gas_snapshot : option (Str * Str); last_call_gas : option VmGas; recording : bool;
  last_gas_used : Z; gas_records : list GasRecord.t }.

Definition default : t := mk false false false [] None None false 0 [].

Definition set_paused (b : bool) (g : t) : t :=
  mk b (touched g) (reset g) (paused_frames g) (active_gas_snapshot g) (last_call_gas g) (recording g)
    (last_gas_used g) (gas_records g).
Definition set_reset (b : bool) (g : t) : t :=
  mk (paused g) (touched g) b (paused_frames g) (active_gas_snapshot g) (last_call_gas g) (recording g)
    (last_gas_used g) (gas_records g).
Definition set_paused_frames (l : list Gas.t) (g : t) : t :=
  mk (paused g) (touched g) (reset g) l (active_gas_snapshot g) (last_call_gas g) (recording g)
    (last_gas_used g) (gas_records g).
Definition set_last_call_gas (x : VmGas) (g : t) : t :=
  mk (paused g) (touched g) (reset g) (paused_frames g) (active_gas_snapshot g) (Some x) (recording g)
    (last_gas_used g) (gas_records g).
Definition set_records (u : Z) (l : list GasRecord.t) (g : t) : t :=
  mk (paused g) (touched g) (reset g) (paused_frames g) (active_gas_snapshot g) (last_call_gas g) (recording g) u l.

Definition start (a : option (Str * Str)) (l : list GasRecord.t) (g : t) : t :=
  mk (paused g) (touched g) (reset g) (paused_frames g) a (last_call_gas g) true (last_gas_used g) l.
Definition stop (a : option (Str * Str)) (l : list GasRecord.t) (g : t) : t :=
  mk (paused g) (touched g) (reset g) (paused_frames g) a (last_call_gas g) false (last_gas_used g) l.

Definition resume (g : t) : t :=
  mk false (touched g || paused g) (reset g) [] (active_gas_snapshot g) (last_call_gas g) (recording g)
    (last_gas_used g) (gas_records g).
Definition reset_ (g : t) : t :=
  mk false true true [] (active_gas_snapshot g) (last_call_gas g) (recording g)
    (last_gas_used g) (gas_records g).
End GasMetering.

Module ArbitraryStorage.
Record t := mk { values : gmap Z (gmap Z Z); copies : gmap Z Z }.
Definition default : t := mk ∅ ∅.
Definition mark_arbitrary (a : Z) (s : t) : t := mk (<[a := ∅]> (values s)) (copies s).
Definition mark_copy (from to : Z) (s : t) : t :=
  match values s !! from with Some _ => mk (values s) (<[to := from]> (copies s)) | None => s end.
End ArbitraryStorage.

(** Types of alloy, of the wallets and of the state that is left out. *)
Class CheatTypes := {
  SignedAuthorization : Type;
  Wallets : Type;
  Contracts : Type;
  Rest : Type
}.

(** A transaction to broadcast; [None] as its target is a creation. *)
Module BroadcastableTransaction.
Record t `{CheatTypes} := mk {
  rpc : option Str; from : Z; to : option Z; value : option Z; input : Bytes; nonce : Z;
  chain_id : option Z; gas : option Z; authorization_list : option (list SignedAuthorization) }.
#[global] Arguments t {_}.
#[global] Arguments mk {_}.
End BroadcastableTransaction.

Module Cheatcodes.
Section cheatcodes.
Context {FT : ForkTypes} {CT : CheatTypes}.

Record t := mk {
  block : option (Z * Z * BlockRest); active_delegation : option SignedAuthorization; gas_price : option Z;
  labels : gmap Z Str; pranks : gmap Z Prank.t; expected_revert : option ExpectedRevert.t;
  assume_no_revert : option AssumeNoRevert.t; fork_revert_diagnostic : option RevertDiagnostic;
  accesses : option RecordAccess.t; recorded_account_diffs_stack : option AccessStack;
  recorded_logs : option (list Log.t); mocked_calls : gmap Z Mocks;
  mocked_functions : gmap Z (gmap Bytes Z); expected_calls : ExpectedCallTracker;
  expected_emits : ExpectedEmitTracker; expected_creates : list ExpectedCreate.t;
  allowed_mem_writes : gmap Z (list (Z * Z)); broadcast : option Broadcast.t;
  broadcastable_transactions : list BroadcastableTransaction.t; eth_deals : list DealRecord.t;
  gas_metering : GasMetering.t; gas_snapshots : gmap Str (gmap Str Str);
  mapping_slots : option (gmap Z MappingSlots.t); arbitrary_storage : option ArbitraryStorage.t;
  wallets : option Wallets; rest : Rest }.

Definition set_block x (s : t) : t :=
  mk x (active_delegation s) (gas_price s) (labels s) (pranks s) (expected_revert s) (assume_no_revert s)
    (fork_revert_diagnostic s) (accesses s) (recorded_account_diffs_stack s) (recorded_logs s) (mocked_calls s)
    (mocked_functions s) (expected_calls s) (expected_emits s) (expected_creates s) (allowed_mem_writes s)
    (broadcast s) (broadcastable_transactions s) (eth_deals s) (gas_metering s) (gas_snapshots s) (mapping_slots
    s) (arbitrary_storage s) (wallets s) (rest s).
Definition set_active_delegation x (s : t) : t :=
  mk (block s) x (gas_price s) (labels s) (pranks s) (expected_revert s) (assume_no_revert s)
    (fork_revert_diagnostic s) (accesses s) (recorded_account_diffs_stack s) (recorded_logs s) (mocked_calls s)
    (mocked_functions s) (expected_calls s) (expected_emits s) (expected_creates s) (allowed_mem_writes s)
    (broadcast s) (broadcastable_transactions s) (eth_deals s) (gas_metering s) (gas_snapshots s) (mapping_slots
    s) (arbitrary_storage s) (wallets s) (rest s).
Definition set_gas_price x (s : t) : t :=
  mk (block s) (active_delegation s) x (labels s) (pranks s) (expected_revert s) (assume_no_revert s)
    (fork_revert_diagnostic s) (accesses s) (recorded_account_diffs_stack s) (recorded_logs s) (mocked_calls s)
    (mocked_functions s) (expected_calls s) (expected_emits s) (expected_creates s) (allowed_mem_writes s)
    (broadcast s) (broadcastable_transactions s) (eth_deals s) (gas_metering s) (gas_snapshots s) (mapping_slots
    s) (arbitrary_storage s) (wallets s) (rest s).
Definition set_labels x (s : t) : t :=
  mk (block s) (active_delegation s) (gas_price s) x (pranks s) (expected_revert s) (assume_no_revert s)
    (fork_revert_diagnostic s) (accesses s) (recorded_account_diffs_stack s) (recorded_logs s) (mocked_calls s)
    (mocked_functions s) (expected_calls s) (expected_emits s) (expected_creates s) (allowed_mem_writes s)
    (broadcast s) (broadcastable_transactions s) (eth_deals s) (gas_metering s) (gas_snapshots s) (mapping_slots
    s) (arbitrary_storage s) (wallets s) (rest s).
Definition set_pranks x (s : t) : t :=
  mk (block s) (active_delegation s) (gas_price s) (labels s) x (expected_revert s) (assume_no_revert s)
    (fork_revert_diagnostic s) (accesses s) (recorded_account_diffs_stack s) (recorded_logs s) (mocked_calls s)
    (mocked_functions s) (expected_calls s) (expected_emits s) (expected_creates s) (allowed_mem_writes s)
    (broadcast s) (broadcastable_transactions s) (eth_deals s) (gas_metering s) (gas_snapshots s) (mapping_slots
    s) (arbitrary_storage s) (wallets s) (rest s).
Definition set_expected_revert x (s : t) : t :=
  mk (block s) (active_delegation s) (gas_price s) (labels s) (pranks s) x (assume_no_revert s)
    (fork_revert_diagnostic s) (accesses s) (recorded_account_diffs_stack s) (recorded_logs s) (mocked_calls s)
    (mocked_functions s) (expected_calls s) (expected_emits s) (expected_creates s) (allowed_mem_writes s)
    (broadcast s) (broadcastable_transactions s) (eth_deals s) (gas_metering s) (gas_snapshots s) (mapping_slots
    s) (arbitrary_storage s) (wallets s) (rest s).
Definition set_assume_no_revert x (s : t) : t :=
  mk (block s) (active_delegation s) (gas_price s) (labels s) (pranks s) (expected_revert s) x
    (fork_revert_diagnostic s) (accesses s) (recorded_account_diffs_stack s) (recorded_logs s) (mocked_calls s)
    (mocked_functions s) (expected_calls s) (expected_emits s) (expected_creates s) (allowed_mem_writes s)
    (broadcast s) (broadcastable_transactions s) (eth_deals s) (gas_metering s) (gas_snapshots s) (mapping_slots
    s) (arbitrary_storage s) (wallets s) (rest s).
Definition set_fork_revert_diagnostic x (s : t) : t :=
  mk (block s) (active_delegation s) (gas_price s) (labels s) (pranks s) (expected_revert s) (assume_no_revert
    s) x (accesses s) (recorded_account_diffs_stack s) (recorded_logs s) (mocked_calls s) (mocked_functions s)
    (expected_calls s) (expected_emits s) (expected_creates s) (allowed_mem_writes s) (broadcast s)
    (broadcastable_transactions s) (eth_deals s) (gas_metering s) (gas_snapshots s) (mapping_slots s)
    (arbitrary_storage s) (wallets s) (rest s).
Definition set_accesses x (s : t) : t :=
  mk (block s) (active_delegation s) (gas_price s) (labels s) (pranks s) (expected_revert s) (assume_no_revert
    s) (fork_revert_diagnostic s) x (recorded_account_diffs_stack s) (recorded_logs s) (mocked_calls s)
    (mocked_functions s) (expected_calls s) (expected_emits s) (expected_creates s) (allowed_mem_writes s)
    (broadcast s) (broadcastable_transactions s) (eth_deals s) (gas_metering s) (gas_snapshots s) (mapping_slots
    s) (arbitrary_storage s) (wallets s) (rest s).
Definition set_recorded_account_diffs_stack x (s : t) : t :=
  mk (block s) (active_delegation s) (gas_price s) (labels s) (pranks s) (expected_revert s) (assume_no_revert
    s) (fork_revert_diagnostic s) (accesses s) x (recorded_logs s) (mocked_calls s) (mocked_functions s)
    (expected_calls s) (expected_emits s) (expected_creates s) (allowed_mem_writes s) (broadcast s)
    (broadcastable_transactions s) (eth_deals s) (gas_metering s) (gas_snapshots s) (mapping_slots s)
    (arbitrary_storage s) (wallets s) (rest s).
Definition set_recorded_logs x (s : t) : t :=
  mk (block s) (active_delegation s) (gas_price s) (labels s) (pranks s) (expected_revert s) (assume_no_revert
    s) (fork_revert_diagnostic s) (accesses s) (recorded_account_diffs_stack s) x (mocked_calls s)
    (mocked_functions s) (expected_calls s) (expected_emits s) (expected_creates s) (allowed_mem_writes s)
    (broadcast s) (broadcastable_transactions s) (eth_deals s) (gas_metering s) (gas_snapshots s) (mapping_slots
    s) (arbitrary_storage s) (wallets s) (rest s).
Definition set_mocked_calls x (s : t) : t :=
  mk (block s) (active_delegation s) (gas_price s) (labels s) (pranks s) (expected_revert s) (assume_no_revert
    s) (fork_revert_diagnostic s) (accesses s) (recorded_account_diffs_stack s) (recorded_logs s) x
    (mocked_functions s) (expected_calls s) (expected_emits s) (expected_creates s) (allowed_mem_writes s)
    (broadcast s) (broadcastable_transactions s) (eth_deals s) (gas_metering s) (gas_snapshots s) (mapping_slots
    s) (arbitrary_storage s) (wallets s) (rest s).
Definition set_mocked_functions x (s : t) : t :=
  mk (block s) (active_delegation s) (gas_price s) (labels s) (pranks s) (expected_revert s) (assume_no_revert
    s) (fork_revert_diagnostic s) (accesses s) (recorded_account_diffs_stack s) (recorded_logs s) (mocked_calls s)
    x (expected_calls s) (expected_emits s) (expected_creates s) (allowed_mem_writes s) (broadcast s)
    (broadcastable_transactions s) (eth_deals s) (gas_metering s) (gas_snapshots s) (mapping_slots s)
    (arbitrary_storage s) (wallets s) (rest s).
Definition set_expected_calls x (s : t) : t :=
  mk (block s) (active_delegation s) (gas_price s) (labels s) (pranks s) (expected_revert s) (assume_no_revert
    s) (fork_revert_diagnostic s) (accesses s) (recorded_account_diffs_stack s) (recorded_logs s) (mocked_calls s)
    (mocked_functions s) x (expected_emits s) (expected_creates s) (allowed_mem_writes s) (broadcast s)
    (broadcastable_transactions s) (eth_deals s) (gas_metering s) (gas_snapshots s) (mapping_slots s)
    (arbitrary_storage s) (wallets s) (rest s).
Definition set_expected_emits x (s : t) : t :=
  mk (block s) (active_delegation s) (gas_price s) (labels s) (pranks s) (expected_revert s) (assume_no_revert
    s) (fork_revert_diagnostic s) (accesses s) (recorded_account_diffs_stack s) (recorded_logs s) (mocked_calls s)
    (mocked_functions s) (expected_calls s) x (expected_creates s) (allowed_mem_writes s) (broadcast s)
    (broadcastable_transactions s) (eth_deals s) (gas_metering s) (gas_snapshots s) (mapping_slots s)
    (arbitrary_storage s) (wallets s) (rest s).
Definition set_expected_creates x (s : t) : t :=
  mk (block s) (active_delegation s) (gas_price s) (labels s) (pranks s) (expected_revert s) (assume_no_revert
    s) (fork_revert_diagnostic s) (accesses s) (recorded_account_diffs_stack s) (recorded_logs s) (mocked_calls s)
    (mocked_functions s) (expected_calls s) (expected_emits s) x (allowed_mem_writes s) (broadcast s)
    (broadcastable_transactions s) (eth_deals s) (gas_metering s) (gas_snapshots s) (mapping_slots s)
    (arbitrary_storage s) (wallets s) (rest s).
Definition set_allowed_mem_writes x (s : t) : t :=
  mk (block s) (active_delegation s) (gas_price s) (labels s) (pranks s) (expected_revert s) (assume_no_revert
    s) (fork_revert_diagnostic s) (accesses s) (recorded_account_diffs_stack s) (recorded_logs s) (mocked_calls s)
    (mocked_functions s) (expected_calls s) (expected_emits s) (expected_creates s) x (broadcast s)
    (broadcastable_transactions s) (eth_deals s) (gas_metering s) (gas_snapshots s) (mapping_slots s)
    (arbitrary_storage s) (wallets s) (rest s).
Definition set_broadcast x (s : t) : t :=
  mk (block s) (active_delegation s) (gas_price s) (labels s) (pranks s) (expected_revert s) (assume_no_revert
    s) (fork_revert_diagnostic s) (accesses s) (recorded_account_diffs_stack s) (recorded_logs s) (mocked_calls s)
    (mocked_functions s) (expected_calls s) (expected_emits s) (expected_creates s) (allowed_mem_writes s) x
    (broadcastable_transactions s) (eth_deals s) (gas_metering s) (gas_snapshots s) (mapping_slots s)
    (arbitrary_storage s) (wallets s) (rest s).
Definition set_broadcastable_transactions x (s : t) : t :=
  mk (block s) (active_delegation s) (gas_price s) (labels s) (pranks s) (expected_revert s) (assume_no_revert
    s) (fork_revert_diagnostic s) (accesses s) (recorded_account_diffs_stack s) (recorded_logs s) (mocked_calls s)
    (mocked_functions s) (expected_calls s) (expected_emits s) (expected_creates s) (allowed_mem_writes s)
    (broadcast s) x (eth_deals s) (gas_metering s) (gas_snapshots s) (mapping_slots s) (arbitrary_storage s)
    (wallets s) (rest s).
Definition set_eth_deals x (s : t) : t :=
  mk (block s) (active_delegation s) (gas_price s) (labels s) (pranks s) (expected_revert s) (assume_no_revert
    s) (fork_revert_diagnostic s) (accesses s) (recorded_account_diffs_stack s) (recorded_logs s) (mocked_calls s)
    (mocked_functions s) (expected_calls s) (expected_emits s) (expected_creates s) (allowed_mem_writes s)
    (broadcast s) (broadcastable_transactions s) x (gas_metering s) (gas_snapshots s) (mapping_slots s)
    (arbitrary_storage s) (wallets s) (rest s).
Definition set_gas_metering x (s : t) : t :=
  mk (block s) (active_delegation s) (gas_price s) (labels s) (pranks s) (expected_revert s) (assume_no_revert
    s) (fork_revert_diagnostic s) (accesses s) (recorded_account_diffs_stack s) (recorded_logs s) (mocked_calls s)
    (mocked_functions s) (expected_calls s) (expected_emits s) (expected_creates s) (allowed_mem_writes s)
    (broadcast s) (broadcastable_transactions s) (eth_deals s) x (gas_snapshots s) (mapping_slots s)
    (arbitrary_storage s) (wallets s) (rest s).
Definition set_gas_snapshots x (s : t) : t :=
  mk (block s) (active_delegation s) (gas_price s) (labels s) (pranks s) (expected_revert s) (assume_no_revert
    s) (fork_revert_diagnostic s) (accesses s) (recorded_account_diffs_stack s) (recorded_logs s) (mocked_calls s)
    (mocked_functions s) (expected_calls s) (expected_emits s) (expected_creates s) (allowed_mem_writes s)
    (broadcast s) (broadcastable_transactions s) (eth_deals s) (gas_metering s) x (mapping_slots s)
    (arbitrary_storage s) (wallets s) (rest s).
Definition set_mapping_slots x (s : t) : t :=
  mk (block s) (active_delegation s) (gas_price s) (labels s) (pranks s) (expected_revert s) (assume_no_revert
    s) (fork_revert_diagnostic s) (accesses s) (recorded_account_diffs_stack s) (recorded_logs s) (mocked_calls s)
    (mocked_functions s) (expected_calls s) (expected_emits s) (expected_creates s) (allowed_mem_writes s)
    (broadcast s) (broadcastable_transactions s) (eth_deals s) (gas_metering s) (gas_snapshots s) x
    (arbitrary_storage s) (wallets s) (rest s).
Definition set_arbitrary_storage x (s : t) : t :=
  mk (block s) (active_delegation s) (gas_price s) (labels s) (pranks s) (expected_revert s) (assume_no_revert
    s) (fork_revert_diagnostic s) (accesses s) (recorded_account_diffs_stack s) (recorded_logs s) (mocked_calls s)
    (mocked_functions s) (expected_calls s) (expected_emits s) (expected_creates s) (allowed_mem_writes s)
    (broadcast s) (broadcastable_transactions s) (eth_deals s) (gas_metering s) (gas_snapshots s) (mapping_slots
    s) x (wallets s) (rest s).
Definition set_wallets x (s : t) : t :=
  mk (block s) (active_delegation s) (gas_price s) (labels s) (pranks s) (expected_revert s) (assume_no_revert
    s) (fork_revert_diagnostic s) (accesses s) (recorded_account_diffs_stack s) (recorded_logs s) (mocked_calls s)
    (mocked_functions s) (expected_calls s) (expected_emits s) (expected_creates s) (allowed_mem_writes s)
    (broadcast s) (broadcastable_transactions s) (eth_deals s) (gas_metering s) (gas_snapshots s) (mapping_slots
    s) (arbitrary_storage s) x (rest s).
Definition set_rest x (s : t) : t :=
  mk (block s) (active_delegation s) (gas_price s) (labels s) (pranks s) (expected_revert s) (assume_no_revert
    s) (fork_revert_diagnostic s) (accesses s) (recorded_account_diffs_stack s) (recorded_logs s) (mocked_calls s)
    (mocked_functions s) (expected_calls s) (expected_emits s) (expected_creates s) (allowed_mem_writes s)
    (broadcast s) (broadcastable_transactions s) (eth_deals s) (gas_metering s) (gas_snapshots s) (mapping_slots
    s) (arbitrary_storage s) (wallets s) x.

(** [Cheatcodes::new] *)
Definition new (labels : gmap Z Str) (rest : Rest) : t :=
  mk None None None labels ∅ None None None None None None ∅ ∅ ∅ [] [] ∅ None [] [] GasMetering.default ∅ None None None rest.
End cheatcodes.
#[global] Arguments t {_ _}.
End Cheatcodes.

(** ** The EVM *)

Section ecx.
Context {ET : EvmTypes} {FT : ForkTypes} {D : Type}.

(** [InnerEvmContext]: the journal, the environment and the database. *)
Record Ecx := mk_ecx { journaled_state : JournaledState; ecx_env : Env; ecx_db : D }.

Definition set_js (js : JournaledState) (e : Ecx) : Ecx := mk_ecx js (ecx_env e) (ecx_db e).
Definition set_env (v : Env) (e : Ecx) : Ecx := mk_ecx (journaled_state e) v (ecx_db e).
Definition set_db (d : D) (e : Ecx) : Ecx := mk_ecx (journaled_state e) (ecx_env e) d.

Definition set_tx_caller (a : Z) (v : Env) : Env :=
  mk_env (block_number v) (block_timestamp v) (block_rest v) (cfg v) a (tx_chain_id v) (tx_rest v).
End ecx.
#[global] Arguments Ecx {_ _} D.

(** Methods of revm on its context, the database behind it, and wallets. *)
Class EvmOps `{EvmTypes} `{ForkTypes} `{CheatTypes} (D : Type) := {
  (** [load_account], [sload] (the value and whether the slot is cold) and
      [code], which load what they need into the journal *)
  ev_load_account : Z → JournaledState → D → JournaledState * D * result Account Error;
  ev_sload : Z → Z → JournaledState → D → JournaledState * D * result (Z * bool) Error;
  ev_code : Z → JournaledState → D → JournaledState * D * result Bytes Error;
  ev_balance : Z → JournaledState → D → JournaledState * D * result Z Error;
  ev_touch : Z → JournaledState → JournaledState;
  ev_set_code : Z → Bytecode → JournaledState → JournaledState;
  ev_chain_id : CfgEnv → Z;
  (** [AccountInfo::exists], [Bytecode::is_empty], [new_raw] and [original_bytes] *)
  info_exists : AccountInfo Bytecode → bool;
  code_is_empty : Bytecode → bool;
  code_new_raw : Bytes → Bytecode;
  original_bytes : Bytecode → Bytes;
  (** [CreateInputs::created_address] *)
  created_address : CreateInput.t → Z → Z;
  (** [DatabaseExt] *)
  db_active_fork_id : D → option Z;
  db_active_fork_url : D → D * option Str;
  db_diagnose_revert : Z → JournaledState → D → option RevertDiagnostic;
  db_has_cheatcode_access : Z → D → bool;
  db_allow_cheatcode_access : Z → D → D;
  (** [Wallets]: the sender given by the user, the signers, and a new one *)
  wallets_default : Wallets;
  provided_sender : Wallets → option Z;
  signers : Wallets → Wallets * result (list Z) Error;
  parse_wallet : Z → result Z Error;
  add_local_signer : Z → Wallets → Wallets
}.

(** ** Cheatcodes *)

Inductive MemoryCheat :=
  | ExpectSafeMemory (min max : Z) | StopExpectSafeMemory | ExpectSafeMemoryCall (min max : Z).

Inductive ScriptCheat :=
  | Broadcast_0 | Broadcast_1 (signer : Z) | Broadcast_2 (privateKey : Z)
  | StartBroadcast_0 | StartBroadcast_1 (signer : Z) | StartBroadcast_2 (privateKey : Z)
  | StopBroadcast.

Inductive RecordCheat :=
  | Record_ | Accesses (target : Z) | RecordLogs | GetRecordedLogs
  | StartStateDiffRecording | StopAndReturnStateDiff.

Inductive GasCheat :=
  | PauseGasMetering | ResumeGasMetering | ResetGasMetering | LastCallGas
  | StartSnapshotGas (group name : option Str) | StopSnapshotGas (group name : option Str).

Inductive VmCall (Other : Type) :=
  | VmPrank (c : PrankCheat) | VmEmit (c : EmitCheat) | VmExpectCall (c : CallCheat)
  | VmExpectCreate (c : CreateCheat) | VmRevert (c : RevertCheat) | VmAssume (c : AssumeCheat)
  | VmMock (c : MockCheat) | VmMemory (c : MemoryCheat) | VmScript (c : ScriptCheat)
  | VmRecord (c : RecordCheat) | VmMapping (c : MappingCheat) | VmGasCheat (c : GasCheat) | VmDeal (account newBalance : Z)
  | VmOther (c : Other).
Arguments VmPrank {_}. Arguments VmEmit {_}. Arguments VmExpectCall {_}. Arguments VmExpectCreate {_}.
Arguments VmRevert {_}. Arguments VmAssume {_}. Arguments VmMock {_}. Arguments VmMemory {_}.
Arguments VmScript {_}. Arguments VmRecord {_}. Arguments VmGasCheat {_}. Arguments VmDeal {_}.
Arguments VmOther {_}. Arguments VmMapping {_}.

(** What a cheatcode returns to Solidity, before it is encoded. *)
Inductive Returned :=
  | RetAccesses (reads writes : list Z) | RetLogs (l : list Log.t)
  | RetAccountAccesses (l : list AccountAccess.t) | RetMapping (r : MappingReturned)
  | RetGas (g : VmGas) | RetUint (n : Z).

(** What the cheatcodes that are not modelled may change of the inspector. *)
Record OtherState `{CheatTypes} := mk_other {
  o_labels : gmap Z Str; o_arbitrary_storage : option ArbitraryStorage.t;
  o_gas_snapshots : gmap Str (gmap Str Str); o_active_delegation : option SignedAuthorization;
  o_broadcastable_transactions : list BroadcastableTransaction.t; o_rest : Rest }.
#[global] Arguments mk_other {_}.

(** The decoder of calls to the cheatcode address, the encoder of results, and
    the cheatcodes that are not modelled. *)
Class CheatOps `{EvmTypes} `{ForkTypes} `{CheatTypes} (D : Type) := {
  Other : Type;
  decode_call : Bytes → result (VmCall Other) Error;
  encode_returned : Returned → Bytes;
  other_name : Other → Str;
  apply_other : Other → Z → OtherState → Ecx D → OtherState * Ecx D * result Bytes Error
}.

(** The settings the inspector reads. *)
Record CheatsConfig `{CheatTypes} := mk_config {
  internal_expect_revert : bool; available_artifacts : option Contracts; isolate : bool;
  always_use_create_2_factory : bool; running_artifact : option Str }.
#[global] Arguments mk_config {_}.

Section cheats.
Context {ET : EvmTypes} {FT : ForkTypes} {CT : CheatTypes} {D : Type} {EO : EvmOps D} {CO : CheatOps D}.
Context {IO : IterOrder} {AL : Alloy} (config : CheatsConfig).

(** The inspector and the EVM; [None] is a panic. *)
Record St := mk_st { cheats : Cheatcodes.t; ecx : Ecx D }.

Definition H (A : Type) : Type := St → option (St * A).
Definition hret {A} (a : A) : H A := λ s, Some (s, a).
Definition hpanic {A} : H A := λ _, None.
Definition hbind {A B} (m : H A) (k : A → H B) : H B := λ s,
  match m s with Some (s, a) => k a s | None => None end.
Definition hget {A} (f : St → A) : H A := λ s, Some (s, f s).
Definition set_cheats (c : Cheatcodes.t) (s : St) : St := mk_st c (ecx s).
Definition set_ecx (e : Ecx D) (s : St) : St := mk_st (cheats s) e.
Definition hcheats (f : Cheatcodes.t → Cheatcodes.t) : H unit := λ s, Some (set_cheats (f (cheats s)) s, tt).
Definition hecx (f : Ecx D → Ecx D) : H unit := λ s, Some (set_ecx (f (ecx s)) s, tt).
(** A function of a part of the inspector's state. *)
Definition hpart {P A} (get : Cheatcodes.t → P) (put : P → Cheatcodes.t → Cheatcodes.t) (f : P → P * A) : H A := λ s,
  let '(p, a) := f (get (cheats s)) in Some (set_cheats (put p (cheats s)) s, a).
(** A method of revm. *)
Definition hevm {A} (f : JournaledState → D → JournaledState * D * A) : H A := λ s,
  let '(js, d, a) := f (journaled_state (ecx s)) (ecx_db (ecx s)) in
  Some (set_ecx (mk_ecx js (ecx_env (ecx s)) d) s, a).
Definition hunwrap {A} (o : option A) : H A := match o with Some a => hret a | None => hpanic end.
End cheats.

Notation "'let*' x := m 'in' k" := (hbind m (λ x, k))
  (at level 10, x name, m at level 100, k at level 200) : foundry_scope.
Notation "m ;;* k" := (hbind m (λ _, k)) (at level 199, right associativity) : foundry_scope.
(** Early return of a value. *)
Notation "m ;;? k" := (hbind m (λ r, match r with Some _ => hret r | None => k end))
  (at level 199, right associativity) : foundry_scope.

Section cheatcodes.
Context {ET : EvmTypes} {FT : ForkTypes} {CT : CheatTypes} {D : Type} {EO : EvmOps D} {CO : CheatOps D}.
Context {IO : IterOrder} {AL : Alloy} (config : CheatsConfig).

Definition hdepth : H (D := D) Z := hget (λ s, js_depth (journaled_state (ecx s))).

(** [Result] and [?] of a cheatcode. *)
Definition htry {A B} (m : H (D := D) (result A Error)) (k : A → H (D := D) (result B Error)) : H (D := D) (result B Error) :=
  hbind m (λ r, match r with Ok a => k a | Err e => hret (Err e) end).

(** [journaled_account]: the account once it is loaded and touched. *)
Definition journaled_account (a : Z) : H (D := D) (result Account Error) :=
  htry (hevm (ev_load_account a)) (λ _,
    hecx (λ e, set_js (ev_touch a (journaled_state e)) e) ;;*
    let* acc := hget (λ s, js_state (journaled_state (ecx s)) !! a) in
    let* acc := hunwrap acc in
    hret (Ok acc)).

(** The account of the journal replaced. *)
Definition put_account (a : Z) (acc : Account) : H (D := D) unit :=
  hecx (λ e, set_js (set_state (<[a := acc]> (js_state (journaled_state e))) (journaled_state e)) e).

Definition set_nonce (n : Z) (acc : Account) : Account :=
  let i := acc_info acc in set_acc_info (mk_info (balance i) n (code_hash i) (code i)) acc.
Definition set_balance (b : Z) (acc : Account) : Account :=
  let i := acc_info acc in set_acc_info (mk_info b (acc_nonce i) (code_hash i) (code i)) acc.

(** *** Pranks *)

Definition prank_state (s : St (D := D)) : PrankState.t :=
  PrankState.mk (Cheatcodes.pranks (cheats s)) (bool_decide (is_Some (Cheatcodes.broadcast (cheats s))))
    (tx_caller (ecx_env (ecx s))).

Definition put_prank_state (p : PrankState.t) (s : St (D := D)) : St :=
  mk_st (Cheatcodes.set_pranks (PrankState.pranks p) (cheats s))
        (set_env (set_tx_caller (PrankState.tx_caller p) (ecx_env (ecx s))) (ecx s)).

(** A step on the pranks and [tx.origin]. *)
Definition hprank {A} (f : PrankState.t → PrankState.t * A) : H (D := D) A := λ s,
  let '(p, a) := f (prank_state s) in Some (put_prank_state p s, a).

Definition prank_error (e : PrankErr) : Error :=
  match e with
  | CodeErr e => ErrStr (str e)
  | FromEoa => ErrStr (str "cannot `prank` delegate call from an EOA")
  | NotApplied => ErrStr (str "cannot overwrite a prank until it is applied at least once")
  | SingleOverOngoing =>
      ErrStr (str "cannot override an ongoing prank with a single vm.prank; use vm.startPrank to override the current prank")
  | Broadcasting =>
      ErrStr (str "cannot `prank` for a broadcasted transaction; pass the desired `tx.origin` into the `broadcast` cheatcode call")
  end.

(** The account whose code a cheatcode asks for. *)
Definition prank_delegate (c : PrankCheat) : option Z :=
  match c with
  | Prank_2 m true | StartPrank_2 m true | Prank_3 m _ true | StartPrank_3 m _ true => Some m
  | _ => None
  end.

Definition vm_prank (caller : Z) (c : PrankCheat) : H (D := D) (result Bytes Error) :=
  let* depth := hdepth in
  let* code :=
    match prank_delegate c with
    | Some a => hevm (ev_code a)
    | None => hret (Ok [])
    end in
  match code with
  | Err e => hret (Err e)
  | Ok code =>
      let* r := hprank (apply_prank_cheat (λ _, Ok code) depth caller c) in
      hret match r with Ok _ => Ok [] | Err e => Err (prank_error e) end
  end.

(** *** Mocks *)

Definition EMPTY_CODE : Bytes := replicate 32 0%Z.

Definition make_acc_non_empty (callee : Z) : H (D := D) (result unit Error) :=
  htry (hevm (ev_load_account callee)) (λ acc,
    let empty_bytecode := match code (acc_info acc) with Some c => code_is_empty c | None => true end in
    (if empty_bytecode
     then hecx (λ e, set_js (ev_set_code callee (code_new_raw EMPTY_CODE) (journaled_state e)) e)
     else hret tt) ;;*
    hret (Ok tt)).

Definition vm_mock (c : MockCheat) : H (D := D) (result Bytes Error) :=
  htry (match mock_touch c with
        | NoTouch => hret (Ok tt)
        | MakeNonEmpty a => make_acc_non_empty a
        | Load a => htry (hevm (ev_load_account a)) (λ _, hret (Ok tt))
        end) (λ _,
    hcheats (λ s, let '(calls, functions) := apply_mock_cheat c (Cheatcodes.mocked_calls s, Cheatcodes.mocked_functions s) in
                  Cheatcodes.set_mocked_functions functions (Cheatcodes.set_mocked_calls calls s)) ;;*
    hret (Ok [])).

(** *** Memory *)

Definition expect_safe_memory (start end_ depth : Z) : H (D := D) (result Bytes Error) :=
  if (start <? end_)%Z then
    hcheats (λ s, Cheatcodes.set_allowed_mem_writes
      (<[depth := default [(0, 96)%Z] (Cheatcodes.allowed_mem_writes s !! depth) ++ [(start, end_)]]>
         (Cheatcodes.allowed_mem_writes s)) s) ;;*
    hret (Ok [])
  else hret (Err (ErrStr (str "memory range start (" ++ to_radix 10 start ++ str ") is greater than end (" ++
                          to_radix 10 end_ ++ str ")"))).

Definition vm_memory (c : MemoryCheat) : H (D := D) (result Bytes Error) :=
  let* depth := hdepth in
  match c with
  | ExpectSafeMemory min max => expect_safe_memory min max depth
  | StopExpectSafeMemory =>
      hcheats (λ s, Cheatcodes.set_allowed_mem_writes (delete depth (Cheatcodes.allowed_mem_writes s)) s) ;;* hret (Ok [])
  | ExpectSafeMemoryCall min max => expect_safe_memory min max (depth + 1)
  end.

(** *** Scripts *)

Definition get_wallets : H (D := D) Wallets :=
  let* w := hget (λ s, default wallets_default (Cheatcodes.wallets (cheats s))) in
  hcheats (Cheatcodes.set_wallets (Some w)) ;;* hret w.

(** The signer that is taken when none is named. *)
Definition default_signer : H (D := D) (result (option Z) Error) :=
  let* w := get_wallets in
  match provided_sender w with
  | Some a => hret (Ok (Some a))
  | None =>
      let '(w, r) := signers w in
      hcheats (Cheatcodes.set_wallets (Some w)) ;;*
      hret match r with
           | Err e => Err e
           | Ok [a] => Ok (Some a)
           | Ok _ => Ok None
           end
  end.

Definition broadcast_ (caller : Z) (new_origin : option Z) (single_call : bool) : H (D := D) (result Bytes Error) :=
  let* depth := hdepth in
  let* s := hget (λ s, s) in
  match PrankState.get_prank (prank_state s) depth, Cheatcodes.broadcast (cheats s) with
  | Some _, _ => hret (Err (ErrStr (str "you have an active prank; broadcasting and pranks are not compatible")))
  | None, Some _ => hret (Err (ErrStr (str "a broadcast is active already")))
  | None, None =>
      htry (match new_origin with Some a => hret (Ok (Some a)) | None => default_signer end) (λ new_origin,
        hcheats (Cheatcodes.set_broadcast (Some (Broadcast.mk (default (tx_caller (ecx_env (ecx s))) new_origin) caller
                   (tx_caller (ecx_env (ecx s))) depth single_call))) ;;*
        hret (Ok []))
  end.

Definition broadcast_key (caller private_key : Z) (single_call : bool) : H (D := D) (result Bytes Error) :=
  match parse_wallet private_key with
  | Err e => hret (Err e)
  | Ok new_origin =>
      htry (broadcast_ caller (Some new_origin) single_call) (λ r,
        let* w := get_wallets in
        hcheats (Cheatcodes.set_wallets (Some (add_local_signer private_key w))) ;;* hret (Ok r))
  end.

Definition vm_script (caller : Z) (c : ScriptCheat) : H (D := D) (result Bytes Error) :=
  match c with
  | Broadcast_0 => broadcast_ caller None true
  | Broadcast_1 a => broadcast_ caller (Some a) true
  | Broadcast_2 k => broadcast_key caller k true
  | StartBroadcast_0 => broadcast_ caller None false
  | StartBroadcast_1 a => broadcast_ caller (Some a) false
  | StartBroadcast_2 k => broadcast_key caller k false
  | StopBroadcast =>
      let* b := hget (λ s, Cheatcodes.broadcast (cheats s)) in
      match b with
      | None => hret (Err (ErrStr (str "no broadcast in progress to stop")))
      | Some _ => hcheats (Cheatcodes.set_broadcast None) ;;* hret (Ok [])
      end
  end.

(** *** Recordings *)

Definition vm_record (c : RecordCheat) : H (D := D) (result Bytes Error) :=
  match c with
  | Record_ => hcheats (Cheatcodes.set_accesses (Some RecordAccess.empty)) ;;* hret (Ok [])
  | Accesses target =>
      let* x := hpart Cheatcodes.accesses Cheatcodes.set_accesses (accesses_of target) in
      hret (Ok (encode_returned (RetAccesses x.1 x.2)))
  | RecordLogs => hcheats (Cheatcodes.set_recorded_logs (Some [])) ;;* hret (Ok [])
  | GetRecordedLogs =>
      let* l := hpart Cheatcodes.recorded_logs Cheatcodes.set_recorded_logs (λ l, (Some [], default [] l)) in
      hret (Ok (encode_returned (RetLogs l)))
  | StartStateDiffRecording =>
      hcheats (λ s, Cheatcodes.set_recorded_account_diffs_stack
                      (startStateDiffRecording (Cheatcodes.recorded_account_diffs_stack s)) s) ;;* hret (Ok [])
  | StopAndReturnStateDiff =>
      let* l := hpart Cheatcodes.recorded_account_diffs_stack Cheatcodes.set_recorded_account_diffs_stack get_state_diff in
      hret (Ok (encode_returned (RetAccountAccesses l)))
  end.

Definition vm_mapping (c : MappingCheat) : H (D := D) (result Bytes Error) :=
  let* m := hget (λ s, Cheatcodes.mapping_slots (cheats s)) in
  let* x := hunwrap (apply_mapping_cheat c m) in
  hcheats (Cheatcodes.set_mapping_slots x.1) ;;*
  hret (Ok match x.2 with MapUnit => [] | r => encode_returned (RetMapping r) end).

(** *** Gas *)

Definition hgas (f : GasMetering.t → GasMetering.t) : H (D := D) unit :=
  hcheats (λ s, Cheatcodes.set_gas_metering (f (Cheatcodes.gas_metering s)) s).

Definition derive_snapshot_name (group name : option Str) : option (Str * Str) :=
  match group, running_artifact config with
  | Some g, _ | None, Some g => Some (g, default (str "default") name)
  | None, None => None
  end.

Definition inner_start_gas_snapshot (group name : option Str) : H (D := D) (result Bytes Error) :=
  let* g := hget (λ s, Cheatcodes.gas_metering (cheats s)) in
  match GasMetering.active_gas_snapshot g with
  | Some (group, name) =>
      hret (Err (ErrStr (str "gas snapshot was already started with group: " ++ group ++ str " and name: " ++ name)))
  | None =>
      let* n := hunwrap (derive_snapshot_name group name) in
      let* depth := hdepth in
      hgas (λ g, GasMetering.start (Some n) (GasMetering.gas_records g ++ [GasRecord.mk n.1 n.2 0 depth]) g) ;;*
      hret (Ok [])
  end.

Definition is_record (group name : Str) (r : GasRecord.t) : bool :=
  bool_decide (GasRecord.group r = group) && bool_decide (GasRecord.name r = name).

(** Without both names the active snapshot is taken, which must be there. *)
Definition inner_stop_gas_snapshot (group name : option Str) : H (D := D) (result Bytes Error) :=
  let* g := hget (λ s, Cheatcodes.gas_metering (cheats s)) in
  let* n :=
    match group, name with
    | Some group, Some name => hret (group, name)
    | _, _ => hunwrap (GasMetering.active_gas_snapshot g)
    end in
  let '(group, name) := n in
  match List.find (is_record group name) (GasMetering.gas_records g) with
  | Some record =>
      let value := saturating_sub (GasRecord.gas_used record) 171 in
      hcheats (λ s, Cheatcodes.set_gas_snapshots
        (<[group := <[name := to_radix 10 value]> (default ∅ (Cheatcodes.gas_snapshots s !! group))]>
           (Cheatcodes.gas_snapshots s)) s) ;;*
      hgas (λ g, GasMetering.stop
        (if decide (GasMetering.active_gas_snapshot g = Some (group, name)) then None
         else GasMetering.active_gas_snapshot g)
        (filter (λ r, GasRecord.group r ≠ group ∧ GasRecord.name r ≠ name) (GasMetering.gas_records g)) g) ;;*
      hret (Ok (encode_returned (RetUint value)))
  | None =>
      hret (Err (ErrStr (str "no gas snapshot was started with the name: " ++ name ++ str " in group: " ++ group)))
  end.

Definition vm_gas (c : GasCheat) : H (D := D) (result Bytes Error) :=
  match c with
  | PauseGasMetering => hgas (GasMetering.set_paused true) ;;* hret (Ok [])
  | ResumeGasMetering => hgas GasMetering.resume ;;* hret (Ok [])
  | ResetGasMetering => hgas GasMetering.reset_ ;;* hret (Ok [])
  | LastCallGas =>
      let* g := hget (λ s, GasMetering.last_call_gas (Cheatcodes.gas_metering (cheats s))) in
      hret match g with
           | Some g => Ok (encode_returned (RetGas g))
           | None => Err (ErrStr (str "no external call was made yet"))
           end
  | StartSnapshotGas group name => inner_start_gas_snapshot group name
  | StopSnapshotGas group name => inner_stop_gas_snapshot group name
  end.

(** *** Deals *)

Definition vm_deal (address new_balance : Z) : H (D := D) (result Bytes Error) :=
  htry (journaled_account address) (λ acc,
    put_account address (set_balance new_balance acc) ;;*
    hcheats (λ s, Cheatcodes.set_eth_deals
      (Cheatcodes.eth_deals s ++ [DealRecord.mk address (balance (acc_info acc)) new_balance]) s) ;;*
    hret (Ok [])).

(** *** Dispatch *)

(** The name of a cheatcode, as its errors show it. *)
Definition cheat_name (c : VmCall Other) : Str :=
  match c with
  | VmPrank (Prank_0 _ | Prank_1 _ _ | Prank_2 _ _ | Prank_3 _ _ _) => str "prank"
  | VmPrank (StartPrank_0 _ | StartPrank_1 _ _ | StartPrank_2 _ _ | StartPrank_3 _ _ _) => str "startPrank"
  | VmPrank StopPrank => str "stopPrank"
  | VmEmit (ExpectEmitAnonymous_0 _ _ _ _ _ | ExpectEmitAnonymous_1 _ _ _ _ _ _ | ExpectEmitAnonymous_2 | ExpectEmitAnonymous_3 _) =>
      str "expectEmitAnonymous"
  | VmEmit _ => str "expectEmit"
  | VmExpectCall (ExpectCallMinGas_0 _ _ _ _ | ExpectCallMinGas_1 _ _ _ _ _) => str "expectCallMinGas"
  | VmExpectCall _ => str "expectCall"
  | VmExpectCreate (ExpectCreate _ _) => str "expectCreate"
  | VmExpectCreate (ExpectCreate2 _ _) => str "expectCreate2"
  | VmRevert (ExpectPartialRevert_0 _ | ExpectPartialRevert_1 _ _) => str "expectPartialRevert"
  | VmRevert (ExpectCheatcodeRevert_0 | ExpectCheatcodeRevert_1 _ | ExpectCheatcodeRevert_2 _) =>
      str "_expectCheatcodeRevert"
  | VmRevert _ => str "expectRevert"
  | VmAssume (Assume _) => str "assume"
  | VmAssume _ => str "assumeNoRevert"
  | VmMock ClearMockedCalls => str "clearMockedCalls"
  | VmMock (MockCalls_0 _ _ _ | MockCalls_1 _ _ _ _) => str "mockCalls"
  | VmMock (MockCallRevert_0 _ _ _ | MockCallRevert_1 _ _ _ _ | MockCallRevert_2 _ _ _ | MockCallRevert_3 _ _ _ _) =>
      str "mockCallRevert"
  | VmMock (MockFunction _ _ _) => str "mockFunction"
  | VmMock _ => str "mockCall"
  | VmMemory (ExpectSafeMemory _ _) => str "expectSafeMemory"
  | VmMemory StopExpectSafeMemory => str "stopExpectSafeMemory"
  | VmMemory (ExpectSafeMemoryCall _ _) => str "expectSafeMemoryCall"
  | VmScript (Broadcast_0 | Broadcast_1 _ | Broadcast_2 _) => str "broadcast"
  | VmScript (StartBroadcast_0 | StartBroadcast_1 _ | StartBroadcast_2 _) => str "startBroadcast"
  | VmScript StopBroadcast => str "stopBroadcast"
  | VmRecord Record_ => str "record"
  | VmRecord (Accesses _) => str "accesses"
  | VmRecord RecordLogs => str "recordLogs"
  | VmRecord GetRecordedLogs => str "getRecordedLogs"
  | VmRecord StartStateDiffRecording => str "startStateDiffRecording"
  | VmRecord StopAndReturnStateDiff => str "stopAndReturnStateDiff"
  | VmMapping StartMappingRecording => str "startMappingRecording"
  | VmMapping StopMappingRecording => str "stopMappingRecording"
  | VmMapping (GetMappingLength _ _) => str "getMappingLength"
  | VmMapping (GetMappingSlotAt _ _ _) => str "getMappingSlotAt"
  | VmMapping (GetMappingKeyAndParentOf _ _) => str "getMappingKeyAndParentOf"
  | VmGasCheat PauseGasMetering => str "pauseGasMetering"
  | VmGasCheat ResumeGasMetering => str "resumeGasMetering"
  | VmGasCheat ResetGasMetering => str "resetGasMetering"
  | VmGasCheat LastCallGas => str "lastCallGas"
  | VmGasCheat (StartSnapshotGas _ _) => str "startSnapshotGas"
  | VmGasCheat (StopSnapshotGas _ _) => str "stopSnapshotGas"
  | VmDeal _ _ => str "deal"
  | VmOther c => other_name c
  end.

(** [str::contains] *)
Fixpoint str_contains (s t : Str) : bool :=
  bool_decide (t `prefix_of` s) || match s with [] => false | _ :: s => str_contains s t end.

Definition name_error (name : Str) (e : Error) : Error :=
  match e with
  | ErrStr s => if str_contains name (str "assert") || bool_decide (name = str "rpcUrl") then e
                else ErrStr (str "vm." ++ name ++ str ": " ++ s)
  | ErrBytes _ => e
  end.

Definition other_state (s : Cheatcodes.t) : OtherState :=
  mk_other (Cheatcodes.labels s) (Cheatcodes.arbitrary_storage s) (Cheatcodes.gas_snapshots s)
    (Cheatcodes.active_delegation s) (Cheatcodes.broadcastable_transactions s) (Cheatcodes.rest s).

Definition put_other (o : OtherState) (s : Cheatcodes.t) : Cheatcodes.t :=
  Cheatcodes.set_labels (o_labels o) (Cheatcodes.set_arbitrary_storage (o_arbitrary_storage o)
    (Cheatcodes.set_gas_snapshots (o_gas_snapshots o) (Cheatcodes.set_active_delegation (o_active_delegation o)
      (Cheatcodes.set_broadcastable_transactions (o_broadcastable_transactions o) (Cheatcodes.set_rest (o_rest o) s))))).

Definition vm_other (caller : Z) (c : Other) : H (D := D) (result Bytes Error) := λ s,
  let '(o, e, r) := apply_other c caller (other_state (cheats s)) (ecx s) in
  Some (mk_st (put_other o (cheats s)) e, r).

(** The cheatcode itself. *)
Definition apply_cheat (caller : Z) (c : VmCall Other) : H (D := D) (result Bytes Error) :=
  let* depth := hdepth in
  match c with
  | VmPrank c => vm_prank caller c
  | VmEmit c =>
      hcheats (λ s, Cheatcodes.set_expected_emits (apply_emit_cheat depth c (Cheatcodes.expected_emits s)) s) ;;* hret (Ok [])
  | VmExpectCall c => hpart Cheatcodes.expected_calls Cheatcodes.set_expected_calls (apply_call_cheat c)
  | VmExpectCreate c =>
      hcheats (λ s, Cheatcodes.set_expected_creates (apply_create_cheat c (Cheatcodes.expected_creates s)) s) ;;* hret (Ok [])
  | VmRevert c => hpart Cheatcodes.expected_revert Cheatcodes.set_expected_revert (apply_revert_cheat depth c)
  | VmAssume c => hpart Cheatcodes.assume_no_revert Cheatcodes.set_assume_no_revert (apply_assume_cheat depth c)
  | VmMock c => vm_mock c
  | VmMemory c => vm_memory c
  | VmScript c => vm_script caller c
  | VmRecord c => vm_record c
  | VmMapping c => vm_mapping c
  | VmGasCheat c => vm_gas c
  | VmDeal a b => vm_deal a b
  | VmOther c => vm_other caller c
  end.

Definition apply_dispatch (caller : Z) (c : VmCall Other) : H (D := D) (result Bytes Error) :=
  let* r := apply_cheat caller c in
  hret match r with Ok b => Ok b | Err e => Err (name_error (cheat_name c) e) end.

(** [ensure_cheatcode_access_forking_mode] *)
Definition ensure_access (caller : Z) (d : D) : bool :=
  match db_active_fork_id d with Some _ => db_has_cheatcode_access caller d | None => true end.

Definition NO_CHEATS (a : Z) : Str :=
  str "cheatcodes are not enabled for " ++ address_str a ++ str "; see `vm.allowCheatcodes(address)`".

(** [apply_cheatcode]: decode the call, check that the caller may use
    cheatcodes, and run it. *)
Definition apply_cheatcode (call : Call.t) : H (D := D) (result Bytes Error) :=
  match decode_call (Call.input call) with
  | Err e => hret (Err e)
  | Ok c =>
      let* ok := hget (λ s, ensure_access (Call.caller call) (ecx_db (ecx s))) in
      if ok then apply_dispatch (Call.caller call) c
      else hret (Err (ErrStr (NO_CHEATS (Call.caller call))))
  end.
End cheatcodes.
