(* ===== verification/Inspector.v ===== *)
(** The hooks of the cheatcode inspector around calls, creations and logs
    (cheatcodes/src/inspector.rs, cheatcodes/src/inspector/utils.rs,
    cheatcodes/src/strategy.rs), and the inspector stack that runs them
    (evm/evm/src/inspectors/stack.rs).

    The strategy is the one of the EVM, whose zkVM hooks do nothing.  The stack
    is taken without isolation and without the inspectors that only observe. *)
From stdpp Require Import strings gmap.
From S2P Require Import Prelude Radix Database MultiFork ForkBackend ForkTransact Pranks Frames ExpectEmit ExpectRevert ExpectCall Mocks StateDiffs Cheats.

Definition CHEATCODE_ADDRESS : Z := 0x7109709ECfa91a80626fF3989D68f67F5b1DD12D.
Definition HARDHAT_CONSOLE_ADDRESS : Z := 0x000000000000000000636F6e736F6c652e6c6f67.

Section hooks.
Context {ET : EvmTypes} {FT : ForkTypes} {CT : CheatTypes} {D : Type} {EO : EvmOps D} {CO : CheatOps D}.
Context {IO : IterOrder} {AL : Alloy} (config : CheatsConfig).
Context (decoder_decode : Contracts → Bytes → InstructionResult → Str).

(** ** The start of a frame *)

Definition set_block (b : Z * Z * BlockRest) (v : Env) : Env :=
  mk_env b.1.1 b.1.2 b.2 (cfg v) (tx_caller v) (tx_chain_id v) (tx_rest v).

Definition set_gas_price (p : Z) (v : Env) : Env :=
  let r := tx_rest v in
  mk_env (block_number v) (block_timestamp v) (block_rest v) (cfg v) (tx_caller v) (tx_chain_id v)
    (mk_tx_rest (transact_to r) (tx_gas_limit r) p (gas_priority_fee r) (tx_value r) (tx_data r) (tx_nonce r)
       (tx_access_list r) (blob_hashes r) (tx_max_fee_per_blob_gas r) (tx_authorization_list r)).

Definition initialize_interp (gas : Gas.t) : H (D := D) unit :=
  let* s := hget cheats in
  hecx (λ e, set_env (match Cheatcodes.block s with Some b => set_block b (ecx_env e) | None => ecx_env e end) e) ;;*
  hecx (λ e, set_env (match Cheatcodes.gas_price s with Some p => set_gas_price p (ecx_env e) | None => ecx_env e end) e) ;;*
  hcheats (λ s, Cheatcodes.set_block None (Cheatcodes.set_gas_price None s)) ;;*
  hgas (λ g, if GasMetering.paused g then GasMetering.set_paused_frames (GasMetering.paused_frames g ++ [gas]) g else g) ;;*
  let* depth := hdepth in
  hcheats (λ s, Cheatcodes.set_expected_revert (track_depth depth (Cheatcodes.expected_revert s)) s).

(** ** The [call] hook *)

(** The outcome of a call that is answered by the hook. *)
Definition answer_call (status : InstructionResult) (output : Bytes) (call : Call.t) : CallOutcome.t :=
  CallOutcome.mk (InterpreterResult.mk status output (Gas.new (Call.gas_limit call))) (Call.return_memory_offset call).

(** The root call takes back the increment of the sender's nonce. *)
Definition call_root (call : Call.t) : H (D := D) (option CallOutcome.t) :=
  let* depth := hdepth in
  if (depth =? 0)%Z then
    let* sender := hget (λ s, tx_caller (ecx_env (ecx s))) in
    let* r := journaled_account sender in
    match r with
    | Err e => hret (Some (answer_call Revert (abi_encode e) call))
    | Ok acc => put_account sender (set_nonce (saturating_sub (acc_nonce (acc_info acc)) 1) acc) ;;* hret None
    end
  else hret None.

Definition acc_balance (s : St (D := D)) (a : Z) : option Z :=
  (λ acc, balance (acc_info acc)) <$> js_state (journaled_state (ecx s)) !! a.

(** The prank of a call; the account a delegate call is pranked with must be
    loaded. *)
Definition call_pranks (call : Call.t) : H (D := D) Call.t :=
  let* depth := hdepth in
  let* s := hget (λ s, s) in
  let missing :=
    match PrankState.get_prank (prank_state s) depth with
    | Some p => is_delegate (Call.scheme call) && Prank.delegate_call p &&
                bool_decide (acc_balance s (Prank.new_caller p) = None)
    | None => false
    end in
  if missing then hpanic
  else
    let* c := hprank (λ p, let '(c, p) := call_prank (λ a, default 0%Z (acc_balance s a)) depth (Call.to_prank call) p in (p, c)) in
    hret (Call.of_prank c call).

Definition check_if_fixed_gas_limit (v : Env) (call_gas_limit : Z) : bool :=
  (block_gas_limit (block_rest v) <? tx_gas_limit (tx_rest v))%Z &&
  (call_gas_limit <=? block_gas_limit (block_rest v))%Z && (2300 <? call_gas_limit)%Z.

Definition active_fork_url : H (D := D) (option Str) := λ s,
  let '(d, u) := db_active_fork_url (ecx_db (ecx s)) in Some (set_ecx (set_db d (ecx s)) s, u).

Definition push_transaction (t : BroadcastableTransaction.t) : H (D := D) unit :=
  hcheats (λ s, Cheatcodes.set_broadcastable_transactions (Cheatcodes.broadcastable_transactions s ++ [t]) s).

(** [record_broadcastable_call_transactions] *)
Definition record_call_transaction (call : Call.t) (b : Broadcast.t) : H (D := D) unit :=
  let* s := hget (λ s, s) in
  let v := ecx_env (ecx s) in
  let* acc := hunwrap (js_state (journaled_state (ecx s)) !! Broadcast.new_origin b) in
  hcheats (Cheatcodes.set_active_delegation None) ;;*
  let* rpc := active_fork_url in
  push_transaction (BroadcastableTransaction.mk rpc (Broadcast.new_origin b) (Some (Call.target_address call))
    (Call.transfer_value call) (Call.input call) (acc_nonce (acc_info acc)) (Some (ev_chain_id (cfg v)))
    (if check_if_fixed_gas_limit v (Call.gas_limit call) then Some (Call.gas_limit call) else None)
    ((λ a, [a]) <$> Cheatcodes.active_delegation (cheats s))).

Definition call_broadcast (call : Call.t) : H (D := D) (Call.t * option CallOutcome.t) :=
  let* depth := hdepth in
  let* b := hget (λ s, Cheatcodes.broadcast (cheats s)) in
  match b with
  | None => hret (call, None)
  | Some b =>
      if (depth =? Broadcast.depth b)%Z && (Call.caller call =? Broadcast.original_caller b)%Z then
        hecx (λ e, set_env (set_tx_caller (Broadcast.new_origin b) (ecx_env e)) e) ;;*
        let call := Call.set_caller (Broadcast.new_origin b) call in
        if negb (Call.is_static call) then
          let* r := hevm (ev_load_account (Broadcast.new_origin b)) in
          match r with
          | Err e => hret (call, Some (answer_call Revert (abi_encode e) call))
          | Ok _ =>
              record_call_transaction call b ;;*
              let* acc := hget (λ s, js_state (journaled_state (ecx s)) !! Broadcast.new_origin b) in
              let* acc := hunwrap acc in
              (if isolate config then hret tt
               else put_account (Broadcast.new_origin b) (set_nonce (wrapping_add_u64 (acc_nonce (acc_info acc)) 1) acc)) ;;*
              hret (call, None)
          end
        else if Broadcast.single_call b then
          hret (call, Some (answer_call Revert (abi_encode (ErrStr
            (str "`staticcall`s are not allowed after `broadcast`; use `startBroadcast` instead"))) call))
        else hret (call, None)
      else hret (call, None)
  end.

Definition call_kind (s : CallScheme) : AccountAccessKind :=
  match s with
  | SchemeCall | SchemeExtCall => KindCall
  | SchemeCallCode => KindCallCode
  | SchemeDelegateCall | SchemeExtDelegateCall => KindDelegateCall
  | SchemeStaticCall | SchemeExtStaticCall => KindStaticCall
  end.

Definition push_access (a : AccountAccess.t) : H (D := D) unit :=
  hcheats (λ s, Cheatcodes.set_recorded_account_diffs_stack
                  ((λ st, st ++ [[a]]) <$> Cheatcodes.recorded_account_diffs_stack s) s).

Definition chain_info (e : Ecx D) : Z * Z := (default 0%Z (db_active_fork_id (ecx_db e)), ev_chain_id (cfg (ecx_env e))).

Definition call_record (call : Call.t) : H (D := D) unit :=
  let* stack := hget (λ s, Cheatcodes.recorded_account_diffs_stack (cheats s)) in
  match stack with
  | None => hret tt
  | Some _ =>
      let* r := hevm (ev_load_account (Call.target_address call)) in
      let '(initialized, old_balance) :=
        match r with Ok acc => (info_exists (acc_info acc), balance (acc_info acc)) | Err _ => (false, 0%Z) end in
      let* e := hget ecx in
      push_access (AccountAccess.mk (chain_info e) (Call.caller call) (Call.bytecode_address call)
        (call_kind (Call.scheme call)) initialized old_balance 0 (Call.call_value call) (Call.input call) false [] []
        (js_depth (journaled_state e)))
  end.

(** [call_with_executor] for a call that is not one to the cheatcodes. *)
Definition call_passed (call : Call.t) : H (D := D) (Call.t * option CallOutcome.t) :=
  if (Call.target_address call =? HARDHAT_CONSOLE_ADDRESS)%Z then hret (call, None)
  else
    hcheats (λ s, Cheatcodes.set_expected_calls (count_call call (Cheatcodes.expected_calls s)) s) ;;*
    let* m := hpart Cheatcodes.mocked_calls Cheatcodes.set_mocked_calls (mocked_call call) in
    match m with
    | Some r => hret (call, Some (answer_call (MockReturn.ret_type r) (MockReturn.data r) call))
    | None =>
        let* call := call_pranks call in
        let* x := call_broadcast call in
        match x.2 with
        | Some _ => hret x
        | None => call_record x.1 ;;* hret (x.1, None)
        end
    end.

(** [call_with_executor]: the call as it was changed, and the outcome if the
    hook answers it. *)
Definition call_with_executor (call : Call.t) : H (D := D) (Call.t * option CallOutcome.t) :=
  let* r := call_root call in
  match r with
  | Some o => hret (call, Some o)
  | None =>
      if (Call.target_address call =? CHEATCODE_ADDRESS)%Z then
        let* r := apply_cheatcode config call in
        hret (call, Some match r with
                         | Ok retdata => answer_call Return retdata call
                         | Err err => answer_call Revert (abi_encode err) call
                         end)
      else call_passed call
  end.

(** ** The [call_end] hook *)

Definition is_cheatcode_call (call : Call.t) : bool :=
  (Call.target_address call =? CHEATCODE_ADDRESS)%Z || (Call.target_address call =? HARDHAT_CONSOLE_ADDRESS)%Z.

(** A broadcast is over at its depth. *)
Definition clean_broadcast : H (D := D) unit :=
  let* depth := hdepth in
  let* b := hget (λ s, Cheatcodes.broadcast (cheats s)) in
  match b with
  | Some b =>
      if (depth =? Broadcast.depth b)%Z then
        hecx (λ e, set_env (set_tx_caller (Broadcast.original_origin b) (ecx_env e)) e) ;;*
        if Broadcast.single_call b then hcheats (Cheatcodes.set_broadcast None) else hret tt
      else hret tt
  | None => hret tt
  end.

Definition call_end_clean : H (D := D) unit :=
  let* depth := hdepth in
  hprank (λ p, (call_end_prank depth p, tt)) ;;*
  clean_broadcast.

(** The recorded accesses of the frame, whose first one [touch] completes. *)
Definition end_record (reverted : bool) (touch : AccountAccess.t → H (D := D) AccountAccess.t) : H (D := D) unit :=
  let* stack := hget (λ s, Cheatcodes.recorded_account_diffs_stack (cheats s)) in
  let* depth := hdepth in
  match stack ≫= pop_depth reverted with
  | Some (last_depth, stack) =>
      if (0 <? depth)%Z then
        let* last_depth :=
          match last_depth with
          | [] => hret []
          | a :: rest =>
              let* a := if (AccountAccess.depth a =? depth)%Z then touch a else hret a in
              hret (a :: rest)
          end in
        hcheats (Cheatcodes.set_recorded_account_diffs_stack (Some (merge_depth last_depth stack)))
      else hret tt
  | None => hret tt
  end.

Definition touch_call (target : Z) (a : AccountAccess.t) : H (D := D) AccountAccess.t :=
  let* r := hevm (ev_load_account target) in
  hret match r with Ok acc => AccountAccess.set_newBalance (balance (acc_info acc)) a | Err _ => a end.

(** [RevertDiagnostic::to_error_msg] *)
Definition to_error_msg (labels : gmap Z Str) (d : RevertDiagnostic) : Str :=
  let get_label a := default (address_str a) (labels !! a) in
  match d with
  | ContractExistsOnOtherForks contract active available_on =>
      str "Contract " ++ get_label contract ++ str " does not exist on active fork with id `" ++ to_radix 10 active ++
      str "`
        But exists on non active forks: `[" ++ join (str ", ") (to_radix 10 <$> available_on) ++ str "]`"
  | ContractDoesNotExist contract _ persistent =>
      if persistent then str "Contract " ++ get_label contract ++ str " does not exist"
      else str "Contract " ++ get_label contract ++
           str " does not exist and is not marked as persistent, see `vm.makePersistent()`"
  end.

(** The diagnosis of a revert on a fork. *)
Definition call_end_diagnose (call : Call.t) (outcome : CallOutcome.t) : H (D := D) (option CallOutcome.t) :=
  let* diag := hpart Cheatcodes.fork_revert_diagnostic Cheatcodes.set_fork_revert_diagnostic (λ d, (None, d)) in
  let* s := hget (λ s, s) in
  match InterpreterResult.is_revert (CallOutcome.result outcome), diag with
  | true, Some err =>
      hret (Some (CallOutcome.answer (CallOutcome.status outcome)
        (abi_encode (ErrStr (to_error_msg (Cheatcodes.labels (cheats s)) err))) outcome))
  | _, _ =>
      let e := ecx s in
      match transact_to (tx_rest (ecx_env e)) with
      | Some test_contract =>
          if bool_decide (is_Some (db_active_fork_id (ecx_db e))) && bool_decide (CallOutcome.status outcome = Stop) &&
             negb (Call.target_address call =? test_contract)%Z
          then hcheats (Cheatcodes.set_fork_revert_diagnostic
                 (db_diagnose_revert (Call.target_address call) (journaled_state e) (ecx_db e))) ;;* hret None
          else hret None
      | None => hret None
      end
  end.

(** The expectations at the end of the root call. *)
Definition call_end_root (outcome : CallOutcome.t) : H (D := D) (option CallOutcome.t) :=
  let* depth := hdepth in
  if (depth =? 0)%Z then
    if InterpreterResult.is_revert (CallOutcome.result outcome) then hret (Some outcome)
    else
      let* r := hget (λ s, root_end_calls outcome (Cheatcodes.expected_calls (cheats s))) in
      match r with
      | Some _ => hret r
      | None =>
          let* r := hpart Cheatcodes.expected_emits Cheatcodes.set_expected_emits (root_end_emits outcome) in
          match r with
          | Some _ => hret r
          | None => hget (λ s, root_end_creates outcome (Cheatcodes.expected_creates (cheats s)))
          end
      end
  else hret None.

Definition vm_gas_of (g : Gas.t) : VmGas :=
  mk_vm_gas (Gas.limit g) (Gas.spent g) 0 (Gas.refunded g) (Gas.remaining g).

(** After the reverts: what is only done for calls that are not to cheatcodes. *)
Definition call_end_rest (call : Call.t) (outcome : CallOutcome.t) : H (D := D) (option CallOutcome.t) :=
  hgas (GasMetering.set_last_call_gas (vm_gas_of (InterpreterResult.gas (CallOutcome.result outcome)))) ;;*
  end_record (InterpreterResult.is_revert (CallOutcome.result outcome)) (touch_call (Call.target_address call)) ;;*
  let* depth := hdepth in
  hpart Cheatcodes.expected_emits Cheatcodes.set_expected_emits (call_end_emits depth (Call.is_static call) outcome) ;;?
  call_end_diagnose call outcome ;;?
  call_end_root outcome.

(** The two kinds of reverts. *)
Definition call_end_reverts (call : Call.t) (outcome : CallOutcome.t) : H (D := D) (option CallOutcome.t) :=
  let* depth := hdepth in
  hpart Cheatcodes.assume_no_revert Cheatcodes.set_assume_no_revert
    (call_end_assume decoder_decode (available_artifacts config) depth (is_cheatcode_call call) (Call.target_address call) outcome) ;;?
  hpart Cheatcodes.expected_revert Cheatcodes.set_expected_revert
    (call_end_revert decoder_decode (internal_expect_revert config) (available_artifacts config) depth
       (is_cheatcode_call call) (Call.target_address call) outcome).

Definition call_end (call : Call.t) (outcome : CallOutcome.t) : H (D := D) CallOutcome.t :=
  (if is_cheatcode_call call then hret tt else call_end_clean) ;;*
  let* r := call_end_reverts call outcome in
  match r with
  | Some o => hret o
  | None =>
      if is_cheatcode_call call then hret outcome
      else
        let* r := call_end_rest call outcome in
        hret (default outcome r)
  end.

(** ** The hooks of a creation *)

(** [record_broadcastable_create_transactions] *)
Definition record_create_transaction (input : CreateInput.t) (b : Broadcast.t) : H (D := D) unit :=
  let* s := hget (λ s, s) in
  let* acc := hunwrap (js_state (journaled_state (ecx s)) !! Broadcast.new_origin b) in
  let* rpc := active_fork_url in
  push_transaction (BroadcastableTransaction.mk rpc (Broadcast.new_origin b) None (Some (CreateInput.value input))
    (CreateInput.init_code input) (acc_nonce (acc_info acc)) None
    (if check_if_fixed_gas_limit (ecx_env (ecx s)) (CreateInput.gas_limit input)
     then Some (CreateInput.gas_limit input) else None) None).

Definition answer_create (status : InstructionResult) (output : Bytes) (input : CreateInput.t) : CreateOutcome.t :=
  CreateOutcome.mk (InterpreterResult.mk status output (Gas.new (CreateInput.gas_limit input))) None.

Definition create_broadcast (input : CreateInput.t) : H (D := D) (CreateInput.t * option CreateOutcome.t) :=
  let* depth := hdepth in
  let* b := hget (λ s, Cheatcodes.broadcast (cheats s)) in
  match b with
  | None => hret (input, None)
  | Some b =>
      if (Broadcast.depth b <=? depth)%Z && (CreateInput.caller input =? Broadcast.original_caller b)%Z then
        let* r := hevm (ev_load_account (Broadcast.new_origin b)) in
        match r with
        | Err e => hret (input, Some (answer_create Revert (abi_encode e) input))
        | Ok _ =>
            hecx (λ e, set_env (set_tx_caller (Broadcast.new_origin b) (ecx_env e)) e) ;;*
            if (depth =? Broadcast.depth b)%Z then
              let input := CreateInput.set_caller (Broadcast.new_origin b) input in
              record_create_transaction input b ;;* hret (input, None)
            else hret (input, None)
        end
      else hret (input, None)
  end.

(** [allow_cheatcodes] and [allow_cheatcodes_on_create]: the address of the new
    contract, which may use cheatcodes if its creator may. *)
Definition allow_cheatcodes (input : CreateInput.t) : H (D := D) Z :=
  let* s := hget (λ s, s) in
  let js := journaled_state (ecx s) in
  let address :=
    match CreateInput.kind input with
    | Legacy _ => created_address input (from_option (λ acc, acc_nonce (acc_info acc)) 0%Z (js_state js !! CreateInput.caller input))
    | Eof a => default 0%Z a
    end in
  (if (js_depth js <=? 1)%Z || db_has_cheatcode_access (CreateInput.caller input) (ecx_db (ecx s))
   then hecx (λ e, set_db (db_allow_cheatcode_access address (ecx_db e)) e) else hret tt) ;;*
  hret address.

Definition create_record (input : CreateInput.t) (address : Z) : H (D := D) unit :=
  let* e := hget ecx in
  push_access (AccountAccess.mk (chain_info e) (CreateInput.caller input) address KindCreate true 0 0
    (CreateInput.value input) (CreateInput.init_code input) false [] [] (js_depth (journaled_state e))).

Definition create_common (input : CreateInput.t) : H (D := D) (CreateInput.t * option CreateOutcome.t) :=
  let* depth := hdepth in
  let* caller := hprank (λ p, let '(c, p) := create_prank depth (CreateInput.caller input) p in (p, c)) in
  let* x := create_broadcast (CreateInput.set_caller caller input) in
  match x.2 with
  | Some _ => hret x
  | None =>
      let* address := allow_cheatcodes x.1 in
      create_record x.1 address ;;* hret (x.1, None)
  end.

(** The code of an account. *)
Definition deployed_bytes (acc : Account) : Bytes := from_option original_bytes [] (code (acc_info acc)).

Definition touch_create (address : option Z) (a : AccountAccess.t) : H (D := D) AccountAccess.t :=
  match address with
  | None => hret a
  | Some address =>
      let* r := hevm (ev_load_account address) in
      hret match r with
           | Ok acc => AccountAccess.set_deployedCode (deployed_bytes acc) (AccountAccess.set_newBalance (balance (acc_info acc)) a)
           | Err _ => a
           end
  end.

Definition create_end_expected (input : CreateInput.t) (outcome : CreateOutcome.t) : H (D := D) unit :=
  let* l := hget (λ s, Cheatcodes.expected_creates (cheats s)) in
  match l, CreateOutcome.address outcome, CreateInput.scheme input with
  | _ :: _, Some address, Some scheme =>
      let* r := hevm (ev_load_account address) in
      match r with
      | Ok acc =>
          hcheats (λ s, Cheatcodes.set_expected_creates
            (match_create (CreateInput.caller input) scheme (deployed_bytes acc) (Cheatcodes.expected_creates s)) s)
      | Err _ => hret tt
      end
  | _, _, _ => hret tt
  end.

Definition create_end_common (input : CreateInput.t) (outcome : CreateOutcome.t) : H (D := D) CreateOutcome.t :=
  let* depth := hdepth in
  hprank (λ p, (create_end_prank depth p, tt)) ;;*
  clean_broadcast ;;*
  let* r := hpart Cheatcodes.expected_revert Cheatcodes.set_expected_revert
    (create_end_revert decoder_decode (internal_expect_revert config) (available_artifacts config) depth outcome) in
  match r with
  | Some o => hret o
  | None =>
      end_record (InterpreterResult.is_revert (CreateOutcome.result outcome)) (touch_create (CreateOutcome.address outcome)) ;;*
      create_end_expected input outcome ;;*
      hret outcome
  end.

(** ** The [log] hook *)

(** Whether the frame is made to revert. *)
Definition log_hook (log : Log.t) : H (D := D) bool :=
  let* q := hget (λ s, Cheatcodes.expected_emits (cheats s)) in
  let* reverts :=
    match q with
    | [] => hret false
    | _ =>
        let* x := hunwrap (handle_expect_emit log q) in
        hcheats (Cheatcodes.set_expected_emits x.1) ;;* hret x.2
    end in
  hcheats (λ s, Cheatcodes.set_recorded_logs ((λ l, l ++ [log]) <$> Cheatcodes.recorded_logs s) s) ;;*
  hret reverts.

(** ** The inspector stack *)

(** [on_revert]: the deals are rolled back, the last one first, once the root
    call has reverted. *)
Definition undo_deal (r : DealRecord.t) (js : JournaledState) : JournaledState :=
  match js_state js !! DealRecord.address r with
  | Some acc => set_state (<[DealRecord.address r := set_balance (DealRecord.old_balance r) acc]> (js_state js)) js
  | None => js
  end.

Definition on_revert : H (D := D) unit :=
  let* depth := hdepth in
  let* s := hget cheats in
  match Cheatcodes.expected_revert s with
  | Some _ => hret tt
  | None =>
      if (0 <? depth)%Z then hret tt
      else
        hecx (λ e, set_js (foldr undo_deal (journaled_state e) (Cheatcodes.eth_deals s)) e) ;;*
        hcheats (Cheatcodes.set_eth_deals [])
  end.

(** The call with the code of a mocked function. *)
Definition entered_call (call : Call.t) (s : St (D := D)) : Call.t :=
  mocked_function call (Cheatcodes.mocked_functions (cheats s)).

(** [InspectorStackRefMut::call] *)
Definition stack_call (call : Call.t) : H (D := D) (Call.t * option CallOutcome.t) :=
  let* call := hget (entered_call call) in
  let* x := call_with_executor call in
  hret (x.1, match x.2 with
             | Some o => if decide (CallOutcome.status o = Continue) then None else Some o
             | None => None
             end).

(** [do_call_end]: the inspector's outcome counts if its status differs, or if
    it reverts with another output. *)
Definition keep_different (new old : CallOutcome.t) : CallOutcome.t :=
  if decide (CallOutcome.status new ≠ CallOutcome.status old ∨
             (CallOutcome.status new = Revert ∧ CallOutcome.output new ≠ CallOutcome.output old))
  then new else old.

Definition top_level_frame_end (result : InstructionResult) : H (D := D) unit :=
  let* depth := hdepth in
  if (depth =? 0)%Z && return_revert result then on_revert else hret tt.

Definition stack_call_end (call : Call.t) (outcome : CallOutcome.t) : H (D := D) CallOutcome.t :=
  let* new := call_end call outcome in
  let outcome := keep_different new outcome in
  top_level_frame_end (CallOutcome.status outcome) ;;* hret outcome.

Definition stack_create (input : CreateInput.t) : H (D := D) (CreateInput.t * option CreateOutcome.t) :=
  let* x := create_common input in
  hret (x.1, match x.2 with
             | Some o => if decide (CreateOutcome.status o = Continue) then None else Some o
             | None => None
             end).

Definition keep_different_create (new old : CreateOutcome.t) : CreateOutcome.t :=
  if decide (CreateOutcome.status new ≠ CreateOutcome.status old ∨
             (CreateOutcome.status new = Revert ∧ CreateOutcome.output new ≠ CreateOutcome.output old))
  then new else old.

Definition stack_create_end (input : CreateInput.t) (outcome : CreateOutcome.t) : H (D := D) CreateOutcome.t :=
  let* new := create_end_common input outcome in
  let outcome := keep_different_create new outcome in
  top_level_frame_end (CreateOutcome.status outcome) ;;* hret outcome.
End hooks.
