(* ===== verification/InspectorStep.v ===== *)
(** The hooks of the cheatcode inspector around each instruction
    (cheatcodes/src/inspector.rs): gas metering, recorded accesses, arbitrary
    storage, and the ranges of memory a contract may write to. *)
From stdpp Require Import strings gmap.
From S2P Require Import Prelude Radix Database MultiFork ForkBackend ForkTransact Pranks Frames ExpectEmit ExpectRevert ExpectCall Mocks StateDiffs Mapping Cheats Inspector.

(** ** The interpreter *)

(** The opcodes the hooks look at. *)
Inductive Opcode :=
  | SLOAD | SSTORE | SELFDESTRUCT | EXTCODECOPY | EXTCODESIZE | EXTCODEHASH | BALANCE
  | MSTORE | MSTORE8 | MLOAD | CALL | CALLCODE | STATICCALL | DELEGATECALL | CREATE | CREATE2
  | CALLDATACOPY | CODECOPY | RETURNDATACOPY | KECCAK256 | LOG0 | LOG1 | LOG2 | LOG3 | LOG4
  | RETURN | REVERT | OtherOpcode (n : Z).

(** The stack has its top first; [next_return] is the output of the action that
    ends the frame with a revert. *)
Module Interp.
Record t := mk {
  current_opcode : Opcode; stack : list Z; memory : Bytes; gas : Gas.t; target_address : Z;
  instruction_result : InstructionResult; next_return : option Bytes }.
Definition set_gas (g : Gas.t) (i : t) : t :=
  mk (current_opcode i) (stack i) (memory i) g (target_address i) (instruction_result i) (next_return i).
Definition revert (output : Bytes) (i : t) : t :=
  mk (current_opcode i) (stack i) (memory i) (gas i) (target_address i) Revert (Some output).
Definition peek (n : nat) (i : t) : option Z := stack i !! n.
(** [SharedMemory::slice], which must lie within the memory. *)
Definition slice (offset size : Z) (i : t) : option Bytes :=
  if (offset + size <=? Z.of_nat (length (memory i)))%Z
  then Some (take (Z.to_nat size) (drop (Z.to_nat offset) (memory i))) else None.
End Interp.

Definition saturating_to_u64 (x : Z) : Z := Z.min x u64_max.

(** ** Memory *)

(** [Range::contains] *)
Definition range_contains (r : Z * Z) (x : Z) : bool := (r.1 <=? x)%Z && (x <? r.2)%Z.

(** Whether one of the ranges has both ends of a write. *)
Definition in_ranges (ranges : list (Z * Z)) (first last : Z) : bool :=
  existsb (λ r, range_contains r first && range_contains r last) ranges.

(** Where the offset and the size of what is written or read are, and whether
    it is written. *)
Definition mem_opcode (o : Opcode) : option (nat * nat * bool) :=
  match o with
  | CALLDATACOPY | CODECOPY | RETURNDATACOPY => Some (0, 2, true)
  | EXTCODECOPY => Some (1, 3, true)
  | CALLCODE => Some (5, 6, true)
  | STATICCALL | DELEGATECALL => Some (4, 5, true)
  | KECCAK256 | LOG0 | LOG1 | LOG2 | LOG3 | LOG4 | RETURN | REVERT => Some (0, 1, false)
  | CREATE | CREATE2 => Some (1, 2, false)
  | _ => None
  end.

(** What the check of an instruction says. *)
Inductive MemCheck := MemOk | MemDisallowed (offset size : Z) | MemPanic.

(** [{:02X}] *)
Definition hex_upper (n : Z) : Str :=
  let up c := if (97 <=? Z.of_N (N_of_ascii c))%Z then ascii_of_N (N_of_ascii c - 32) else c in
  let s := up <$> to_radix 16 n in
  match s with [c] => str "0" ++ [c] | _ => s end.

Definition disallowed_message (offset size : Z) (ranges : list (Z * Z)) : Str :=
  str "memory write at offset 0x" ++ hex_upper offset ++ str " of size 0x" ++ hex_upper size ++
  str " not allowed; safe range: " ++
  join (str " U ") ((λ r, str "(0x" ++ hex_upper r.1 ++ str ", 0x" ++ hex_upper r.2 ++ str "]") <$> ranges).

Section memory.
(** The selector of [stopExpectSafeMemory]. *)
Context (STOP_SELECTOR : Bytes).

(** The first four bytes of a word. *)
Definition word_selector (w : Z) : Bytes := take 4 (rev (to_le_bytes 32 w)).

Definition check_mem_opcodes (ranges : list (Z * Z)) (i : Interp.t) : MemCheck :=
  let mem_len := Z.of_nat (length (Interp.memory i)) in
  match Interp.current_opcode i with
  | MSTORE =>
      match Interp.peek 0 i with
      | None => MemOk
      | Some offset =>
          let offset := saturating_to_u64 offset in
          if in_ranges ranges offset (wrapping_add_u64 offset 31) then MemOk
          else match Interp.peek 1 i with
               | None => MemOk
               | Some value => if bool_decide (word_selector value = STOP_SELECTOR) then MemOk
                               else MemDisallowed offset 32
               end
      end
  | MSTORE8 =>
      match Interp.peek 0 i with
      | None => MemOk
      | Some offset =>
          let offset := saturating_to_u64 offset in
          if in_ranges ranges offset offset then MemOk else MemDisallowed offset 1
      end
  | MLOAD =>
      match Interp.peek 0 i with
      | None => MemOk
      | Some offset =>
          let offset := saturating_to_u64 offset in
          if (mem_len <=? offset)%Z && negb (in_ranges ranges offset (wrapping_add_u64 offset 31))
          then MemDisallowed offset 32 else MemOk
      end
  | CALL =>
      match Interp.peek 5 i, Interp.peek 6 i with
      | Some dest_offset, Some size =>
          let dest_offset := saturating_to_u64 dest_offset in
          let size := saturating_to_u64 size in
          if in_ranges ranges dest_offset (wrapping_add_u64 dest_offset (saturating_sub size 1)) then MemOk
          else
            match Interp.peek 1 i with
            | None => MemOk
            | Some to =>
                if (to mod 2 ^ 160 =? CHEATCODE_ADDRESS)%Z then
                  match Interp.peek 3 i, Interp.peek 4 i with
                  | Some args_offset, Some args_size =>
                      match Interp.slice (saturating_to_u64 args_offset) (saturating_to_u64 args_size) i ≫= get_prefix 4 with
                      | None => MemPanic
                      | Some selector => if bool_decide (selector = STOP_SELECTOR) then MemOk
                                         else MemDisallowed dest_offset size
                      end
                  | _, _ => MemOk
                  end
                else MemDisallowed dest_offset size
            end
      | _, _ => MemOk
      end
  | o =>
      match mem_opcode o with
      | None => MemOk
      | Some (offset_depth, size_depth, writes) =>
          match Interp.peek offset_depth i, Interp.peek size_depth i with
          | Some dest_offset, Some size =>
              let dest_offset := saturating_to_u64 dest_offset in
              let size := saturating_to_u64 size in
              if negb (in_ranges ranges dest_offset (wrapping_add_u64 dest_offset (saturating_sub size 1))) &&
                 (writes || (mem_len <=? dest_offset)%Z ||
                  (mem_len <=? saturating_sub (wrapping_add_u64 dest_offset size) 1)%Z)
              then MemDisallowed dest_offset size else MemOk
          | _, _ => MemOk
          end
      end
  end.
End memory.

(** ** Gas *)

Definition will_exit (r : InstructionResult) : bool :=
  match r with Continue | CallOrCreate => false | _ => true end.

(** Paused gas is kept constant within a frame. *)
Definition meter_gas (g : GasMetering.t) (i : Interp.t) : GasMetering.t * Interp.t :=
  match last (GasMetering.paused_frames g) with
  | Some paused_gas => (g, Interp.set_gas paused_gas i)
  | None => (GasMetering.set_paused_frames (GasMetering.paused_frames g ++ [Interp.gas i]) g, i)
  end.

Definition meter_gas_reset (g : GasMetering.t) (i : Interp.t) : GasMetering.t * Interp.t :=
  (GasMetering.set_reset false g, Interp.set_gas (Gas.new (Gas.limit (Interp.gas i))) i).

(** The records of the current depth, one after another. *)
Fixpoint record_gas (depth spent : Z) (l : list GasRecord.t) (last_gas_used : Z) : list GasRecord.t * Z :=
  match l with
  | [] => ([], last_gas_used)
  | r :: l =>
      if (depth =? GasRecord.depth r)%Z then
        let r := if (last_gas_used =? 0)%Z then r
                 else GasRecord.mk (GasRecord.group r) (GasRecord.name r)
                        (saturating_add_u64 (GasRecord.gas_used r) (saturating_sub spent last_gas_used))
                        (GasRecord.depth r) in
        let '(l, u) := record_gas depth spent l spent in (r :: l, u)
      else let '(l, u) := record_gas depth spent l last_gas_used in (r :: l, u)
  end.

Definition meter_gas_record (depth : Z) (g : GasMetering.t) (i : Interp.t) : GasMetering.t :=
  match Interp.instruction_result i with
  | Continue =>
      let '(l, u) := record_gas depth (Gas.spent (Interp.gas i)) (GasMetering.gas_records g) (GasMetering.last_gas_used g) in
      GasMetering.set_records u l g
  | _ => g
  end.

Definition meter_gas_end (g : GasMetering.t) (i : Interp.t) : GasMetering.t :=
  if will_exit (Interp.instruction_result i) then
    match vec_pop (GasMetering.paused_frames g) with
    | Some (_, l) => GasMetering.set_paused_frames l g
    | None => g
    end
  else g.

(** [u64::try_from(refunded).unwrap_or_default()] *)
Definition meter_gas_check (i : Interp.t) : Interp.t :=
  if will_exit (Interp.instruction_result i) && (Gas.spent (Interp.gas i) <? Z.max 0 (Gas.refunded (Interp.gas i)))%Z
  then Interp.set_gas (Gas.new (Gas.limit (Interp.gas i))) i else i.

Section step.
Context {ET : EvmTypes} {FT : ForkTypes} {CT : CheatTypes} {D : Type} {EO : EvmOps D} {CO : CheatOps D}.
Context {IO : IterOrder} {AL : Alloy}.
Context (STOP_SELECTOR : Bytes) (keccak256 : Bytes → Z).

(** ** Recordings *)

Definition record_accesses (i : Interp.t) (r : RecordAccess.t) : RecordAccess.t :=
  match Interp.current_opcode i, Interp.peek 0 i with
  | SLOAD, Some key => RecordAccess.record_read (Interp.target_address i) key r
  | SSTORE, Some key => RecordAccess.record_write (Interp.target_address i) key r
  | _, _ => r
  end.

Definition update_stack (f : AccessStack → AccessStack) : H (D := D) unit :=
  hcheats (λ s, Cheatcodes.set_recorded_account_diffs_stack (f <$> Cheatcodes.recorded_account_diffs_stack s) s).

(** The value of a slot, zero where it cannot be loaded. *)
Definition present_slot (address key : Z) : H (D := D) Z :=
  let* r := hevm (ev_load_account address) in
  match r with
  | Ok _ => let* r := hevm (ev_sload address key) in hret match r with Ok (v, _) => v | Err _ => 0%Z end
  | Err _ => hret 0%Z
  end.

Definition storage_access (i : Interp.t) (key : Z) (new : option Z) : H (D := D) unit :=
  let* v := present_slot (Interp.target_address i) key in
  let* depth := hdepth in
  update_stack (record_storage
    (StorageAccess.mk (Interp.target_address i) key (bool_decide (is_Some new)) v (default v new) false) depth).

Definition word_address (w : Z) : Z := (w mod 2 ^ 160)%Z.

(** The account access of an instruction that names an account. *)
Definition account_access (i : Interp.t) (address : Z) (kind : AccountAccessKind) (acc : result Account Error)
    (value : Z) (e : Ecx D) : AccountAccess.t :=
  let '(initialized, b) :=
    match acc with Ok acc => (info_exists (acc_info acc), balance (acc_info acc)) | Err _ => (false, 0%Z) end in
  AccountAccess.mk (chain_info e) (Interp.target_address i) address kind initialized b ((b + value) mod 2 ^ 256)%Z value []
    false [] [] (js_depth (journaled_state e)).

Definition ext_access (i : Interp.t) (kind : AccountAccessKind) : H (D := D) unit :=
  match Interp.peek 0 i with
  | None => hret tt
  | Some w =>
      let* r := hevm (ev_load_account (word_address w)) in
      let* e := hget ecx in
      update_stack (record_ext (account_access i (word_address w) kind r 0 e))
  end.

Definition record_state_diffs (i : Interp.t) : H (D := D) unit :=
  let* stack := hget (λ s, default [] (Cheatcodes.recorded_account_diffs_stack (cheats s))) in
  match Interp.current_opcode i with
  | SELFDESTRUCT =>
      match stack, Interp.peek 0 i with
      | _ :: _, Some w =>
          let* r := hevm (ev_load_account (word_address w)) in
          let* v := hevm (ev_balance (Interp.target_address i)) in
          let* e := hget ecx in
          let value := match v with Ok v => v | Err _ => 0%Z end in
          update_stack (record_selfdestruct (account_access i (word_address w) KindSelfDestruct r value e))
      | _, _ => hret tt
      end
  | SLOAD =>
      match stack, Interp.peek 0 i with
      | _ :: _, Some key => storage_access i key None
      | _, _ => hret tt
      end
  | SSTORE =>
      match stack, Interp.peek 0 i, Interp.peek 1 i with
      | _ :: _, Some key, Some value => storage_access i key (Some value)
      | _, _, _ => hret tt
      end
  | EXTCODECOPY => ext_access i KindExtcodecopy
  | EXTCODESIZE => ext_access i KindExtcodesize
  | EXTCODEHASH => ext_access i KindExtcodehash
  | BALANCE => ext_access i KindBalance
  | _ => hret tt
  end.

(** Big-endian words. *)
Definition be_word (b : Bytes) : Z := foldl (λ acc x, (acc * 256 + x)%Z) 0%Z b.

(** [mapping::step] *)
Definition mapping_hook (i : Interp.t) (m : gmap Z MappingSlots.t) : option (gmap Z MappingSlots.t) :=
  match Interp.current_opcode i with
  | KECCAK256 =>
      if bool_decide (Interp.peek 1 i = Some 64%Z) then
        offset ← Interp.peek 0 i;
        data ← Interp.slice (saturating_to_u64 offset) 64 i;
        Some (mapping_sha3 (Interp.target_address i) (keccak256 data) (be_word (take 32 data)) (be_word (drop 32 data)) m)
      else Some m
  | SSTORE =>
      match Interp.peek 0 i with
      | Some slot => mapping_sstore (Interp.target_address i) slot m
      | None => Some m
      end
  | _ => Some m
  end.

(** ** The [step] hook *)

(** The check of the memory, which may end the frame. *)
Definition step_memory (i : Interp.t) : H (D := D) Interp.t :=
  let* depth := hdepth in
  let* m := hget (λ s, Cheatcodes.allowed_mem_writes (cheats s)) in
  match m !! depth with
  | None => hret i
  | Some ranges =>
      match check_mem_opcodes STOP_SELECTOR ranges i with
      | MemOk => hret i
      | MemDisallowed offset size => hret (Interp.revert (abi_encode (ErrStr (disallowed_message offset size ranges))) i)
      | MemPanic => hpanic
      end
  end.

Definition step_mapping (i : Interp.t) : H (D := D) unit :=
  let* m := hget (λ s, Cheatcodes.mapping_slots (cheats s)) in
  match m with
  | None => hret tt
  | Some m => let* m := hunwrap (mapping_hook i m) in hcheats (Cheatcodes.set_mapping_slots (Some m))
  end.

(** A step on the gas metering that may change the gas. *)
Definition hmeter (f : GasMetering.t → Interp.t → GasMetering.t * Interp.t) (i : Interp.t) : H (D := D) Interp.t :=
  hpart Cheatcodes.gas_metering Cheatcodes.set_gas_metering (λ g, f g i).

Definition step (i : Interp.t) : H (D := D) Interp.t :=
  let* g := hget (λ s, Cheatcodes.gas_metering (cheats s)) in
  let* i := if GasMetering.paused g then hmeter meter_gas i else hret i in
  let* i := if GasMetering.reset g then hmeter meter_gas_reset i else hret i in
  hcheats (λ s, Cheatcodes.set_accesses (record_accesses i <$> Cheatcodes.accesses s) s) ;;*
  let* stack := hget (λ s, Cheatcodes.recorded_account_diffs_stack (cheats s)) in
  (match stack with Some _ => record_state_diffs i | None => hret tt end) ;;*
  let* i := step_memory i in
  step_mapping i ;;*
  let* depth := hdepth in
  hgas (λ g, if GasMetering.recording g then meter_gas_record depth g i else g) ;;*
  hret i.

(** ** The [step_end] hook *)

Definition set_slot (slot value : Z) (acc : Account) : Account :=
  set_acc_storage (<[slot := mk_slot value value false]> (acc_storage acc)) acc.

(** A slot of the journal set, if the account can be loaded. *)
Definition write_slot (address slot value : Z) : H (D := D) unit :=
  let* r := hevm (ev_load_account address) in
  match r with Ok acc => put_account address (set_slot slot value acc) | Err _ => hret tt end.

(** [ArbitraryStorage::save] *)
Definition arbitrary_save (s : ArbitraryStorage.t) (address slot data : Z) : H (D := D) unit :=
  let* m := hunwrap (ArbitraryStorage.values s !! address) in
  hcheats (Cheatcodes.set_arbitrary_storage
    (Some (ArbitraryStorage.mk (<[address := <[slot := data]> m]> (ArbitraryStorage.values s)) (ArbitraryStorage.copies s)))) ;;*
  write_slot address slot data.

(** [ArbitraryStorage::copy] *)
Definition arbitrary_copy (s : ArbitraryStorage.t) (target slot new_value : Z) : H (D := D) Z :=
  let* source := hunwrap (ArbitraryStorage.copies s !! target) in
  let* m := hunwrap (ArbitraryStorage.values s !! source) in
  let* value :=
    match m !! slot with
    | Some value => hret value
    | None =>
        hcheats (Cheatcodes.set_arbitrary_storage
          (Some (ArbitraryStorage.mk (<[source := <[slot := new_value]> m]> (ArbitraryStorage.values s)) (ArbitraryStorage.copies s)))) ;;*
        write_slot source slot new_value ;;*
        hret new_value
    end in
  write_slot target slot value ;;*
  hret value.

(** A cold slot that is zero gets the random value [random], or that of the
    account it is copied from. *)
Definition arbitrary_storage_end (random : Z) (i : Interp.t) : H (D := D) unit :=
  match Interp.current_opcode i, Interp.peek 0 i with
  | SLOAD, Some key =>
      let a := Interp.target_address i in
      let* r := hevm (ev_sload a key) in
      let* s := hget (λ s, default ArbitraryStorage.default (Cheatcodes.arbitrary_storage (cheats s))) in
      match r with
      | Ok (v, true) =>
          if (v =? 0)%Z then
            match ArbitraryStorage.values s !! a, ArbitraryStorage.copies s !! a with
            | Some _, _ => arbitrary_save s a key random
            | None, Some _ => arbitrary_copy s a key random ;;* hret tt
            | None, None => hret tt
            end
          else hret tt
      | _ => hret tt
      end
  | _, _ => hret tt
  end.

Definition step_end (random : Z) (i : Interp.t) : H (D := D) Interp.t :=
  hgas (λ g, if GasMetering.paused g then meter_gas_end g i else g) ;;*
  let* g := hget (λ s, Cheatcodes.gas_metering (cheats s)) in
  let i := if GasMetering.touched g then meter_gas_check i else i in
  let* a := hget (λ s, Cheatcodes.arbitrary_storage (cheats s)) in
  (match a with Some _ => arbitrary_storage_end random i | None => hret tt end) ;;*
  hret i.
End step.
