(* ===== verification/InspectorRun.v ===== *)
(** Executions under the cheatcode inspector.

    An execution is a tree of actions, as in Pranks.v: what a frame does is a
    list of instructions and logs, of calls and creations with the frames they
    run, and of other changes of the EVM.  The results of the frames are part of
    the tree, so a theorem about all trees is one about all contracts.  The
    order of the hooks is the one of revm: [call] before a frame, then
    [initialize_interp], the hooks of what the frame does, and [call_end].

    The second part is reasoning about the hooks: which parts of the state a hook
    leaves alone, and how what holds of every hook holds of every execution. *)
From stdpp Require Import strings gmap.
From S2P Require Import Prelude Radix Database MultiFork ForkBackend ForkTransact Pranks Frames ExpectEmit ExpectRevert ExpectCall Mocks StateDiffs Mapping Cheats Inspector InspectorStep.

(** What a frame sees: the calls and creations it makes, before and after, with
    the outcome the EVM gave and the one the inspector made of it, and its
    logs. *)
Inductive event :=
  | EvEnter (call : Call.t)
  | EvExit (call : Call.t) (raw outcome : CallOutcome.t)
  | EvCreate (input : CreateInput.t)
  | EvCreated (input : CreateInput.t) (raw outcome : CreateOutcome.t)
  | EvLog (log : Log.t).

(** Events with the depth of the frame that sees them. *)
Abbreviation trace := (list (Z * event)).

(** The logs of a trace. *)
Definition logs_of (t : trace) : list Log.t := t ≫= λ e, match e.2 with EvLog l => [l] | _ => [] end.

Section run.
Context {ET : EvmTypes} {FT : ForkTypes} {CT : CheatTypes} {D : Type} {EO : EvmOps D} {CO : CheatOps D}.
Context {IO : IterOrder} {AL : Alloy} (config : CheatsConfig).
Context (decoder_decode : Contracts → Bytes → InstructionResult → Str).
Context (STOP_SELECTOR : Bytes) (keccak256 : Bytes → Z).

Abbreviation change := (JournaledState → D → JournaledState * D)%type.

(** A call or creation that is entered has a frame: the gas it starts with and
    what it does.  One that is not (to an account without code, a precompile,
    or one that fails at once) has none.  The result is what the EVM gives at
    the end, with the change of the state then.  An instruction has the
    interpreter before and after it. *)
Inductive action :=
  | ALog (log : Log.t)
  | AStep (before : Interp.t) (f : change) (after : Interp.t) (random : Z)
  | ACall (call : Call.t) (frame : option (Gas.t * list action)) (result : InterpreterResult.t) (settle : change)
  | ACreate (input : CreateInput.t) (frame : option (Gas.t * list action)) (result : CreateOutcome.t) (settle : change).

(** The EVM keeps count of the depth. *)
Definition at_depth (d : Z) : H (D := D) unit := hecx (λ e, set_js (set_depth d (journaled_state e)) e).

Definition evm_change (f : change) : H (D := D) unit :=
  hecx (λ e, let '(js, x) := f (journaled_state e) (ecx_db e) in mk_ecx js (ecx_env e) x).

(** The actions of a frame in order, up to one that makes it revert with an
    output. *)
Definition run_actions {A} (step : A → H (D := D) (trace * option Bytes)) : list A → H (D := D) (trace * option Bytes) :=
  fix go l :=
    match l with
    | [] => hret ([], None)
    | a :: l =>
        let* x := step a in
        match x.2 with
        | Some _ => hret x
        | None => let* y := go l in hret (x.1 ++ y.1, y.2)
        end
    end.

(** The message about a template without topics. *)
Definition ANONYMOUS : Bytes := abi_encode (ErrStr (str "use vm.expectEmitAnonymous to match anonymous events")).

(** The result of a frame that is made to revert. *)
Definition frame_result (abort : option Bytes) (r : InterpreterResult.t) : InterpreterResult.t :=
  match abort with
  | Some output => InterpreterResult.mk Revert output (InterpreterResult.gas r)
  | None => r
  end.

Fixpoint run_action (d : Z) (a : action) {struct a} : H (D := D) (trace * option Bytes) :=
  let run_body (frame : option (Gas.t * list action)) : H (D := D) (trace * option Bytes) :=
    match frame with
    | None => hret ([], None)
    | Some (gas, body) =>
        at_depth (d + 1) ;;* initialize_interp gas ;;* run_actions (run_action (d + 1)) body
    end in
  at_depth d ;;*
  match a with
  | ALog log =>
      let* reverts := log_hook log in
      hret ([(d, EvLog log)], if reverts then Some ANONYMOUS else None)
  | AStep before f after random =>
      let* i := step STOP_SELECTOR keccak256 before in
      match Interp.next_return i with
      | Some output => hret ([], Some output)
      | None => evm_change f ;;* at_depth d ;;* step_end random after ;;* hret ([], None)
      end
  | ACall call frame result settle =>
      let* entered := hget (entered_call call) in
      let* x := stack_call config call in
      let* y :=
        match x.2 with
        | Some o => hret ([], o)
        | None =>
            let* z := run_body frame in
            evm_change settle ;;*
            hret (z.1, CallOutcome.mk (frame_result z.2 result) (Call.return_memory_offset x.1))
        end in
      at_depth d ;;*
      let* o := stack_call_end config decoder_decode x.1 y.2 in
      hret ((d, EvEnter entered) :: y.1 ++ [(d, EvExit x.1 y.2 o)], None)
  | ACreate input frame result settle =>
      let* x := stack_create input in
      let* y :=
        match x.2 with
        | Some o => hret ([], o)
        | None =>
            let* z := run_body frame in
            evm_change settle ;;*
            hret (z.1, CreateOutcome.mk (frame_result z.2 (CreateOutcome.result result))
                         (match z.2 with Some _ => None | None => CreateOutcome.address result end))
        end in
      at_depth d ;;*
      let* o := stack_create_end config decoder_decode x.1 y.2 in
      hret ((d, EvCreate input) :: y.1 ++ [(d, EvCreated x.1 y.2 o)], None)
  end.

(** A frame at depth [d]. *)
Definition run_frame (d : Z) : list action → H (D := D) (trace * option Bytes) := run_actions (run_action d).
End run.

(** ** Reasoning about the hooks *)

Section inspector.
Context {ET : EvmTypes} {FT : ForkTypes} {CT : CheatTypes} {D : Type} {EO : EvmOps D} {CO : CheatOps D}.
Context {IO : IterOrder} {AL : Alloy} (config : CheatsConfig).
Context (decoder_decode : Contracts → Bytes → InstructionResult → Str).
Context (STOP_SELECTOR : Bytes) (keccak256 : Bytes → Z).
Implicit Types (s : St (D := D)).

(** ** Steps that keep a part of the state *)

(** A step relates the states before and after it. *)
Definition steps {A} (R : relation (St (D := D))) (m : H (D := D) A) : Prop :=
  ∀ s s' a, m s = Some (s', a) → R s s'.

Definition keeps {X} (f : Cheatcodes.t → X) : relation (St (D := D)) := λ s s', f (cheats s') = f (cheats s).

Section steps.
Context {R : relation (St (D := D))} `{!Reflexive R} `{!Transitive R}.

Lemma steps_ret {A} (a : A) : steps R (hret a).
Proof. intros s s' b [= -> _]. done. Qed.

Lemma steps_panic {A} : steps R (@hpanic _ _ _ _ A).
Proof. intros s s' b. done. Qed.

Lemma steps_get {A} (f : St → A) : steps R (hget f).
Proof. intros s s' b [= -> _]. done. Qed.

Lemma steps_unwrap {A} (o : option A) : steps R (hunwrap o).
Proof. destruct o; [apply steps_ret|apply steps_panic]. Qed.

Lemma steps_bind {A B} (m : H A) (k : A → H B) : steps R m → (∀ a, steps R (k a)) → steps R (hbind m k).
Proof.
  intros Hm Hk s s' b. unfold hbind. destruct (m s) as [[s1 a]|] eqn:E; [|done]. intros Hs.
  etrans; [by eapply Hm|by eapply Hk].
Qed.

Lemma steps_mono {R1 R2 : relation (St (D := D))} {A} (m : H A) : (∀ s s', R1 s s' → R2 s s') → steps R1 m → steps R2 m.
Proof. intros HR Hm s s' a Hs. by eapply HR, Hm. Qed.

Lemma steps_depth : steps R hdepth.
Proof. apply steps_get. Qed.

Lemma steps_try {A B} (m : H (result A Error)) (k : A → H (result B Error)) :
  steps R m → (∀ a, steps R (k a)) → steps R (htry m k).
Proof. intros Hm Hk. apply steps_bind; [done|]. intros [a|e]; [done|apply steps_ret]. Qed.
End steps.

#[global] Instance keeps_refl {X} (f : Cheatcodes.t → X) : Reflexive (keeps f).
Proof. intros s. done. Qed.
#[global] Instance keeps_trans {X} (f : Cheatcodes.t → X) : Transitive (keeps f).
Proof. intros s1 s2 s3 H1 H2. unfold keeps in *. congruence. Qed.

Section keeps.
Context {X : Type} {f : Cheatcodes.t → X}.

Lemma keeps_cheats g : (∀ c, f (g c) = f c) → steps (keeps f) (hcheats g).
Proof. intros Hg s s' a [= <- _]. apply Hg. Qed.

Lemma keeps_ecx g : steps (keeps f) (hecx g).
Proof. intros s s' a [= <- _]. done. Qed.

Lemma keeps_evm {A} (g : JournaledState → D → JournaledState * D * A) : steps (keeps f) (hevm g).
Proof. intros s s' a. unfold hevm. destruct (g _ _) as [[js d] x]. by intros [= <- _]. Qed.

Lemma keeps_part {P A} (get : Cheatcodes.t → P) put (g : P → P * A) :
  (∀ p c, f (put p c) = f c) → steps (keeps f) (hpart get put g).
Proof. intros Hp s s' a. unfold hpart. destruct (g _) as [p x]. intros [= <- _]. apply Hp. Qed.

Lemma keeps_prank {A} (g : PrankState.t → PrankState.t * A) :
  (∀ p c, f (Cheatcodes.set_pranks p c) = f c) → steps (keeps f) (hprank g).
Proof. intros Hp s s' a. unfold hprank. destruct (g _) as [p x]. intros [= <- _]. apply Hp. Qed.

Lemma keeps_url : steps (keeps f) active_fork_url.
Proof. intros s s' a. unfold active_fork_url. destruct (db_active_fork_url _) as [d x]. by intros [= <- _]. Qed.

Lemma keeps_other caller c : (∀ o c, f (put_other o c) = f c) → steps (keeps f) (vm_other caller c).
Proof. intros Hp s s' a. unfold vm_other. destruct (apply_other _ _ _ _) as [[o e] r]. intros [= <- _]. apply Hp. Qed.
End keeps.

Lemma steps_use {R : relation (St (D := D))} {A} (m : H A) s s' a : m s = Some (s', a) → steps R m → R s s'.
Proof. intros Hs Hm. by eapply Hm. Qed.

(** ** Executions *)

Definition frame_all (P : action (D := D) → Prop) (frame : option (Gas.t * list action)) : Prop :=
  match frame with None => True | Some (_, body) => Forall P body end.

(** Induction on executions. *)
Lemma action_induction (P : action (D := D) → Prop) :
  (∀ log, P (ALog log)) → (∀ before f after r, P (AStep before f after r)) →
  (∀ call frame result settle, frame_all P frame → P (ACall call frame result settle)) →
  (∀ input frame result settle, frame_all P frame → P (ACreate input frame result settle)) → ∀ a, P a.
Proof.
  intros HL HS HC HR. fix IH 1. intros [log|before f after r|call frame result settle|input frame result settle].
  - apply HL.
  - apply HS.
  - apply HC. destruct frame as [[gas body]|]; [|exact I]. cbn. induction body as [|a l IHl]; constructor; [apply IH|exact IHl].
  - apply HR. destruct frame as [[gas body]|]; [|exact I]. cbn. induction body as [|a l IHl]; constructor; [apply IH|exact IHl].
Qed.

(** A property of all calls of an execution. *)
Fixpoint tree_ok (P : Call.t → Prop) (a : action (D := D)) : Prop :=
  let body_ok (frame : option (Gas.t * list action)) : Prop :=
    match frame with
    | None => True
    | Some (_, body) =>
        (fix go l := match l with [] => True | a :: l => tree_ok P a ∧ go l end) body
    end in
  match a with
  | ALog _ | AStep _ _ _ _ => True
  | ACall call frame _ _ => P call ∧ body_ok frame
  | ACreate _ frame _ _ => body_ok frame
  end.

Definition frame_ok (P : Call.t → Prop) (l : list (action (D := D))) : Prop := Forall (tree_ok P) l.

Lemma body_ok_frame P (l : list (action (D := D))) :
  (fix go l := match l with [] => True | a :: l => tree_ok P a ∧ go l end) l ↔ frame_ok P l.
Proof.
  induction l as [|a l IH]; [split; [constructor|done]|]. unfold frame_ok. rewrite Forall_cons, IH. done.
Qed.

Definition depth_of (s : St (D := D)) : Z := js_depth (journaled_state (ecx s)).

(** What every hook has to satisfy at depth [d0] or below for a relation between
    states and the trace between them to hold of every execution. *)
Record Hooks (T : St (D := D) → trace → St (D := D) → Prop) (ok : Call.t → Prop) (d0 : Z) : Prop := {
  hk_refl s : T s [] s;
  hk_app s1 s2 s3 t1 t2 : T s1 t1 s2 → T s2 t2 s3 → T s1 (t1 ++ t2) s3;
  hk_ecx g : steps (λ s s', T s [] s') (hecx g);
  hk_log d l s s' b : (d0 ≤ d)%Z → log_hook l s = Some (s', b) → T s [(d, EvLog l)] s';
  hk_step i : steps (λ s s', T s [] s') (step STOP_SELECTOR keccak256 i);
  hk_step_end r i : steps (λ s s', T s [] s') (step_end r i);
  hk_init g s s' : (d0 < depth_of s)%Z → initialize_interp g s = Some (s', tt) → T s [] s';
  hk_call call s s' x : (d0 ≤ depth_of s)%Z → ok call → stack_call config call s = Some (s', x) →
    T s [(depth_of s, EvEnter (entered_call call s))] s';
  hk_call_end call o s s' o' : (d0 ≤ depth_of s)%Z → stack_call_end config decoder_decode call o s = Some (s', o') →
    T s [(depth_of s, EvExit call o o')] s';
  hk_create input s s' x : (d0 ≤ depth_of s)%Z → stack_create input s = Some (s', x) →
    T s [(depth_of s, EvCreate input)] s';
  hk_create_end input o s s' o' : (d0 ≤ depth_of s)%Z → stack_create_end config decoder_decode input o s = Some (s', o') →
    T s [(depth_of s, EvCreated input o o')] s' }.

Lemma hbind_Some {A B} (m : H (D := D) A) (k : A → H B) s s' b :
  hbind m k s = Some (s', b) ↔ ∃ s1 a, m s = Some (s1, a) ∧ k a s1 = Some (s', b).
Proof.
  unfold hbind. destruct (m s) as [[s1 a]|]; split.
  - eauto.
  - by intros (? & ? & [= <- <-] & ?).
  - done.
  - by intros (? & ? & ? & _).
Qed.

Lemma at_depth_of d s s' u : at_depth d s = Some (s', u) → depth_of s' = d.
Proof. by intros [= <- _]. Qed.

Lemma at_depth_id d s : depth_of s = d → at_depth d s = Some (s, tt).
Proof. intros <-. by destruct s as [c [[] v db]]. Qed.

Section run.
Context {T : St (D := D) → trace → St (D := D) → Prop} {ok : Call.t → Prop} {d0 : Z} (HK : Hooks T ok d0).

Abbreviation run := (run_action config decoder_decode STOP_SELECTOR keccak256).

Lemma silent_app s1 s2 s3 t : T s1 [] s2 → T s2 t s3 → T s1 t s3.
Proof. intros H1 H2. exact (hk_app _ _ _ HK _ _ _ _ _ H1 H2). Qed.

Lemma app_silent s1 s2 s3 t : T s1 t s2 → T s2 [] s3 → T s1 t s3.
Proof. intros H1 H2. rewrite <-(app_nil_r t). exact (hk_app _ _ _ HK _ _ _ _ _ H1 H2). Qed.

Lemma run_actions_hooks d l :
  Forall (λ a, ∀ s s' x, run d a s = Some (s', x) → T s x.1 s') l →
  ∀ s s' x, run_actions (run d) l s = Some (s', x) → T s x.1 s'.
Proof.
  induction 1 as [|a l Ha _ IH]; intros s s' x; cbn [run_actions].
  { intros [= -> <-]. apply HK. }
  rewrite hbind_Some. intros (s1 & y & Hy & Hx). apply Ha in Hy. destruct y.2 as [o|].
  - by injection Hx as <- <-.
  - apply hbind_Some in Hx as (s2 & z & Hz & [= <- <-]). cbn. eapply HK; [exact Hy|]. by apply IH.
Qed.

(** The frame of a call or creation. *)
Lemma run_body_hooks d (frame : option (Gas.t * list action)) s s' (x : trace * option Bytes) :
  (d0 ≤ d)%Z →
  (∀ gas body, frame = Some (gas, body) → Forall (λ a, ∀ s s' x, run (d + 1) a s = Some (s', x) → T s x.1 s') body) →
  match frame with
  | None => hret ([], None)
  | Some (gas, body) => at_depth (d + 1) ;;* initialize_interp gas ;;* run_actions (run (d + 1)) body
  end s = Some (s', x) → T s x.1 s'.
Proof.
  intros Hd Hb. destruct frame as [[gas body]|]; [|intros [= -> <-]; apply HK].
  intros (s1 & [] & H1 & (s2 & [] & H2 & H3)%hbind_Some)%hbind_Some.
  eapply silent_app; [by eapply (hk_ecx _ _ _ HK)|]. eapply silent_app.
  - eapply (hk_init _ _ _ HK); [|exact H2]. rewrite (at_depth_of _ _ _ _ H1). lia.
  - by eapply run_actions_hooks; [eapply Hb|].
Qed.

Lemma run_hooks a d : (d0 ≤ d)%Z → tree_ok ok a → ∀ s s' x, run d a s = Some (s', x) → T s x.1 s'.
Proof.
  revert d. induction a as [log|before f after r|call frame result settle IH|input frame result settle IH] using action_induction;
    intros d Hd Hok s s' x; cbn [run_action];
    intros (s1 & [] & H1 & Hx)%hbind_Some; pose proof (at_depth_of _ _ _ _ H1) as Hd1;
    (eapply silent_app; [by eapply (hk_ecx _ _ _ HK)|]).
  - apply hbind_Some in Hx as (s2 & b & H2 & [= <- <-]). cbn. by eapply (hk_log _ _ _ HK).
  - apply hbind_Some in Hx as (s2 & i & H2 & Hx). eapply silent_app; [by eapply (hk_step _ _ _ HK)|].
    destruct (Interp.next_return i); [by injection Hx as <- <-; apply HK|].
    apply hbind_Some in Hx as (s3 & [] & H3 & (s4 & [] & H4 & (s5 & i' & H5 & [= <- <-])%hbind_Some)%hbind_Some).
    eapply silent_app; [by eapply (hk_ecx _ _ _ HK)|]. eapply silent_app; [by eapply (hk_ecx _ _ _ HK)|].
    by eapply (hk_step_end _ _ _ HK).
  - destruct Hok as [Hcall Hbody].
    apply hbind_Some in Hx as (s2 & entered & [= <- <-] & (s3 & y & H3 & (s4 & z & H4 & (s5 & [] & H5 & (s6 & o & H6 & [= <- <-])%hbind_Some)%hbind_Some)%hbind_Some)%hbind_Some).
    cbn [fst]. pose proof (at_depth_of _ _ _ _ H5) as Hd5.
    change ((d, EvEnter (entered_call call s1)) :: z.1 ++ [(d, EvExit y.1 z.2 o)])
      with ([(d, EvEnter (entered_call call s1))] ++ z.1 ++ [(d, EvExit y.1 z.2 o)]).
    eapply (hk_app _ _ _ HK). { rewrite <-Hd1. eapply (hk_call _ _ _ HK); [lia|done|exact H3]. }
    eapply (hk_app _ _ _ HK _ s4).
    + destruct y.2; [by injection H4 as <- <-; apply HK|].
      apply hbind_Some in H4 as (s7 & w & H7 & (s8 & [] & H8 & [= <- <-])%hbind_Some). cbn [fst].
      eapply app_silent; [|by eapply (hk_ecx _ _ _ HK)].
      eapply run_body_hooks; [exact Hd| |exact H7]. intros gas body ->.
      apply body_ok_frame in Hbody. cbn in IH. eapply Forall_impl; [apply Forall_and; split; [exact IH|exact Hbody]|].
      intros a [Ha Hok]. apply Ha; [lia|done].
    + eapply silent_app; [by eapply (hk_ecx _ _ _ HK)|]. rewrite <-Hd5. eapply (hk_call_end _ _ _ HK); [lia|exact H6].
  - apply hbind_Some in Hx as (s3 & y & H3 & (s4 & z & H4 & (s5 & [] & H5 & (s6 & o & H6 & [= <- <-])%hbind_Some)%hbind_Some)%hbind_Some).
    cbn [fst]. pose proof (at_depth_of _ _ _ _ H5) as Hd5.
    change ((d, EvCreate input) :: z.1 ++ [(d, EvCreated y.1 z.2 o)])
      with ([(d, EvCreate input)] ++ z.1 ++ [(d, EvCreated y.1 z.2 o)]).
    eapply (hk_app _ _ _ HK). { rewrite <-Hd1. eapply (hk_create _ _ _ HK); [lia|exact H3]. }
    eapply (hk_app _ _ _ HK _ s4).
    + destruct y.2; [by injection H4 as <- <-; apply HK|].
      apply hbind_Some in H4 as (s7 & w & H7 & (s8 & [] & H8 & [= <- <-])%hbind_Some). cbn [fst].
      eapply app_silent; [|by eapply (hk_ecx _ _ _ HK)].
      eapply run_body_hooks; [exact Hd| |exact H7]. intros gas body ->.
      apply body_ok_frame in Hok. cbn in IH. eapply Forall_impl; [apply Forall_and; split; [exact IH|exact Hok]|].
      intros a [Ha Hok']. apply Ha; [lia|done].
    + eapply silent_app; [by eapply (hk_ecx _ _ _ HK)|]. rewrite <-Hd5. eapply (hk_create_end _ _ _ HK); [lia|exact H6].
Qed.

Lemma run_frame_hooks d l s s' x :
  (d0 ≤ d)%Z → frame_ok ok l → run_frame config decoder_decode STOP_SELECTOR keccak256 d l s = Some (s', x) → T s x.1 s'.
Proof.
  intros Hd Hok. apply run_actions_hooks. eapply Forall_impl; [exact Hok|]. intros a Ha. by apply run_hooks.
Qed.
End run.
(** The parts of a call that is entered. *)
Lemma run_call_entered d call gas body result settle s s1 call1 s' x :
  depth_of s = d → stack_call config call s = Some (s1, (call1, None)) →
  run_action config decoder_decode STOP_SELECTOR keccak256 d (ACall call (Some (gas, body)) result settle) s = Some (s', x) →
  ∃ sa sb sc sd w o,
    cheats sa = cheats s1 ∧ depth_of sa = (d + 1)%Z ∧ initialize_interp gas sa = Some (sb, tt) ∧
    run_frame config decoder_decode STOP_SELECTOR keccak256 (d + 1) body sb = Some (sc, w) ∧
    cheats sd = cheats sc ∧ depth_of sd = d ∧
    let raw := CallOutcome.mk (frame_result w.2 result) (Call.return_memory_offset call1) in
    stack_call_end config decoder_decode call1 raw sd = Some (s', o) ∧
    x.1 = (d, EvEnter (entered_call call s)) :: w.1 ++ [(d, EvExit call1 raw o)].
Proof.
  intros Hd Hcall. cbn [run_action]. unfold hbind at 1. rewrite (at_depth_id _ s Hd).
  intros (s0 & en & [= <- <-] & (s0' & y & H3 & Hx)%hbind_Some)%hbind_Some. rewrite Hcall in H3. injection H3 as <- <-.
  apply hbind_Some in Hx as (s2 & z & H2 & (s5 & [] & H5 & (s6 & o & H6 & [= <- <-])%hbind_Some)%hbind_Some).
  apply hbind_Some in H2 as (sc & w & H2 & (s4 & [] & H4 & [= <- <-])%hbind_Some).
  apply hbind_Some in H2 as (sa & [] & Hsa & (sb & [] & Hsb & Hbody)%hbind_Some).
  exists sa, sb, sc, s5, w, o. split_and!; try done.
  - by injection Hsa as <-.
  - exact (at_depth_of _ _ _ _ Hsa).
  - injection H5 as <-. by injection H4 as <-.
  - exact (at_depth_of _ _ _ _ H5).
Qed.

(** ** The depth *)

Definition same_depth : relation (St (D := D)) := λ s s', depth_of s' = depth_of s.

#[global] Instance same_depth_refl : Reflexive same_depth.
Proof. intros s. done. Qed.
#[global] Instance same_depth_trans : Transitive same_depth.
Proof. intros s1 s2 s3 H1 H2. unfold same_depth in *. congruence. Qed.

Lemma clean_journal s s' u : call_end_clean s = Some (s', u) → journaled_state (ecx s') = journaled_state (ecx s).
Proof.
  intros (s1 & d & [= <- <-] & (s2 & [] & H2 & H3)%hbind_Some)%hbind_Some.
  trans (journaled_state (ecx s2)); [|revert H2; unfold hprank; by intros [= <-]].
  revert H3. unfold clean_broadcast, hbind, hdepth, hget, hecx, hcheats, hret.
  destruct (Cheatcodes.broadcast _); [|by intros [= <- _]]. destruct (_ =? _)%Z; [|by intros [= <- _]].
  by destruct (Broadcast.single_call _); intros [= <- _].
Qed.

Lemma depth_clean : steps same_depth call_end_clean.
Proof. intros s s' u Hs. unfold same_depth, depth_of. by rewrite (clean_journal _ _ _ Hs). Qed.

(** Loading an account does not change the depth of the journal. *)
Definition load_keeps_depth : Prop :=
  ∀ a js (d : D), js_depth (ev_load_account a js d).1.1 = js_depth js.

Lemma depth_load a : load_keeps_depth → steps same_depth (hevm (ev_load_account a)).
Proof.
  intros HL s s' r. unfold hevm. pose proof (HL a (journaled_state (ecx s)) (ecx_db (ecx s))) as Ha.
  destruct (ev_load_account _ _ _) as [[js d] x]. intros [= <- _]. exact Ha.
Qed.

Lemma depth_record reverted target : load_keeps_depth → steps same_depth (end_record reverted (touch_call target)).
Proof.
  intros HL. unfold end_record. apply steps_bind; [apply steps_get|]. intros stack. apply steps_bind; [apply steps_get|].
  intros depth. destruct (stack ≫= _) as [[last st]|]; [|apply steps_ret]. destruct (_ <? _)%Z; [|apply steps_ret].
  apply steps_bind; [|by intros l s s' u [= <- _]]. destruct last as [|a rest]; [apply steps_ret|].
  apply steps_bind; [|intros ?; apply steps_ret]. destruct (_ =? _)%Z; [|apply steps_ret].
  apply steps_bind; [by apply depth_load|intros ?; apply steps_ret].
Qed.

Lemma depth_reverts call o : steps same_depth (call_end_reverts config decoder_decode call o).
Proof.
  intros s s' r. unfold call_end_reverts, hbind, hpart, hdepth, hget, hret.
  destruct (call_end_assume _ _ _ _ _ _ _) as [a [oa|]]; [by intros [= <- _]|].
  destruct (call_end_revert _ _ _ _ _ _ _ _) as [e oe]. by intros [= <- _].
Qed.

(** ** The outcome the stack keeps *)

Lemma keep_different_new new old :
  CallOutcome.status new ≠ CallOutcome.status old ∨
    (CallOutcome.status new = Revert ∧ CallOutcome.output new ≠ CallOutcome.output old) → keep_different new old = new.
Proof. intros Hd. unfold keep_different. by rewrite decide_True. Qed.

Lemma keep_different_status new old : CallOutcome.status (keep_different new old) = CallOutcome.status new.
Proof.
  unfold keep_different. case_decide as Hd; [done|].
  destruct (decide (CallOutcome.status old = CallOutcome.status new)) as [|Hne]; [done|]. destruct Hd. by left.
Qed.

Lemma keep_different_answer st out o :
  st = Revert → keep_different (CallOutcome.answer st out o) o = CallOutcome.answer st out o.
Proof.
  intros ->. unfold keep_different. case_decide as Hd; [done|].
  destruct (decide (CallOutcome.status o = Revert)) as [Hs|Hs]; [|destruct Hd; left; cbn; congruence].
  destruct (decide (CallOutcome.output o = out)) as [Ho|Ho]; [|destruct Hd; right; cbn; split; congruence].
  destruct o as [[] ?]. cbn in *. by subst.
Qed.

(** ** Cheatcodes *)

(** What a call asks of the cheatcodes, if it is one to them. *)
Definition cheat_ok (P : VmCall Other → Prop) (call : Call.t) : Prop :=
  Call.target_address call = CHEATCODE_ADDRESS → ∀ c, decode_call (Call.input call) = Ok c → P c.

Lemma steps_cheatcode {R : relation (St (D := D))} `{!Reflexive R} `{!Transitive R} (P : VmCall Other → Prop) call :
  (∀ caller c, P c → steps R (apply_cheat config caller c)) →
  Call.target_address call = CHEATCODE_ADDRESS → cheat_ok P call → steps R (apply_cheatcode config call).
Proof.
  intros HP Ht Hok. unfold apply_cheatcode. destruct (decode_call _) as [c|e] eqn:Hc; [|apply steps_ret].
  apply steps_bind; [apply steps_get|]. intros []; [|apply steps_ret].
  apply steps_bind; [by apply HP, Hok|intros ?; apply steps_ret].
Qed.

(** The call hook sees the call with another code at most. *)
Lemma steps_stack_call {R : relation (St (D := D))} `{!Reflexive R} `{!Transitive R} call :
  (∀ b, steps R (call_with_executor config (Call.set_bytecode_address b call))) → steps R (stack_call config call).
Proof.
  intros Hc s s' x. unfold stack_call. intros (s1 & e & [= <- <-] & (s2 & y & H2 & [= <- _])%hbind_Some)%hbind_Some.
  revert H2. unfold entered_call, mocked_function.
  destruct (_ !! Call.target_address call); [|destruct call; apply (Hc (bytecode_address))].
  destruct (_ !! Call.input call); [apply Hc|].
  destruct (mbind _ _); [apply Hc|destruct call; apply (Hc (bytecode_address))].
Qed.

(** A call that the hook does not answer is not one to the cheatcodes. *)
Lemma entered_steps {R : relation (St (D := D))} `{!Transitive R} call s s' call' :
  (∀ c, steps R (call_root c)) → (∀ c, steps R (call_passed config c)) →
  stack_call config call s = Some (s', (call', None)) → R s s'.
Proof.
  intros Hroot Hpass. unfold stack_call.
  intros (s1 & c & [= <- <-] & (s2 & [c2 r] & H2 & [= <- <- Hr])%hbind_Some)%hbind_Some. cbn in Hr.
  revert H2. generalize (entered_call call s). intros c. unfold call_with_executor.
  intros (s3 & [o|] & H3 & H2)%hbind_Some; [injection H2 as <- <- <-; by eapply Hroot|].
  trans s3; [by eapply Hroot|]. destruct (_ =? CHEATCODE_ADDRESS)%Z; [|by eapply Hpass].
  apply hbind_Some in H2 as (s4 & [b|e] & _ & [= _ <- <-]); cbn in Hr; by case_decide.
Qed.
End inspector.

(** ** Hooks case by case *)

Ltac head_of t := lazymatch t with ?f _ => head_of f | _ => t end.

(** One case of a hook that leaves a part of the state alone; what is known of
    the hooks it runs is taken from the context. *)
Ltac keep_step :=
  first
    [ eassumption
    | lazymatch goal with
      | |- steps _ (match ?x with _ => _ end) => destruct x
      | |- steps _ (hbind _ _) => apply steps_bind; [|intros ?]
      | |- steps _ (htry _ _) => apply steps_try; [|intros ?]
      | |- steps _ (hret _) => apply steps_ret
      | |- steps _ hpanic => apply steps_panic
      | |- steps _ (hget _) => apply steps_get
      | |- steps _ hdepth => apply steps_depth
      | |- steps _ (hunwrap _) => apply steps_unwrap
      | |- steps _ active_fork_url => apply keeps_url
      | |- steps _ (hecx _) => apply keeps_ecx
      | |- steps _ (hevm _) => apply keeps_evm
      | |- steps _ (hcheats _) => apply keeps_cheats; first [by intros [] | intros []; by repeat case_match]
      | |- steps _ (hpart _ _ _) => apply keeps_part; by intros ? []
      | |- steps _ (hprank _) => apply keeps_prank; by intros ? []
      | |- steps _ (vm_other _ _) => apply keeps_other; by intros [] []
      | |- steps _ ?h => let f := head_of h in unfold f
      end ].
Ltac keep := repeat keep_step.

(** The call hook, where [H] is about the cheatcodes with the property [P]. *)
Ltac keep_call config P H :=
  apply (steps_stack_call config); intros ?; unfold call_with_executor;
  keep_step; [keep|]; keep_step; [keep|];
  let Ht := fresh in
  destruct (_ =? CHEATCODE_ADDRESS)%Z eqn:Ht;
  [keep_step; [apply (steps_cheatcode config P); [exact H|by apply Z.eqb_eq|done]|keep]|keep].

Section call_end.
Context {ET : EvmTypes} {FT : ForkTypes} {CT : CheatTypes} {D : Type} {EO : EvmOps D} {CO : CheatOps D}.
Context {IO : IterOrder} {AL : Alloy} (config : CheatsConfig).
Context (decoder_decode : Contracts → Bytes → InstructionResult → Str).
Implicit Types (s : St (D := D)).

(** ** The end of a call *)

(** Without an expectation about reverts the end of a call goes on. *)
Lemma no_reverts call o s :
  Cheatcodes.expected_revert (cheats s) = None → Cheatcodes.assume_no_revert (cheats s) = None →
  call_end_reverts config decoder_decode call o s = Some (s, None).
Proof.
  intros Hr Ha. unfold call_end_reverts, hbind, hpart, hdepth, hget, call_end_assume, call_end_revert.
  rewrite Ha. cbn. rewrite Hr. destruct s as [[] e]. cbn in *. by subst.
Qed.

Lemma call_end_split call o s s' o' :
  is_cheatcode_call call = false →
  Cheatcodes.expected_revert (cheats s) = None → Cheatcodes.assume_no_revert (cheats s) = None →
  stack_call_end config decoder_decode call o s = Some (s', o') →
  ∃ s1 s2 r, call_end_clean s = Some (s1, tt) ∧ call_end_rest call o s1 = Some (s2, r) ∧
    top_level_frame_end (CallOutcome.status o') s2 = Some (s', tt) ∧ o' = keep_different (default o r) o.
Proof.
  intros Hc Hr Ha (s2 & new & H2 & (s3 & [] & H3 & [= <- <-])%hbind_Some)%hbind_Some.
  revert H2. unfold call_end. rewrite Hc. intros (s1 & [] & H1 & H2)%hbind_Some.
  assert (keeps Cheatcodes.expected_revert s s1 ∧ keeps Cheatcodes.assume_no_revert s s1) as [Hr1 Ha1]
    by (split; (eapply steps_use; [exact H1|keep])).
  unfold keeps in *. unfold hbind at 1 in H2. rewrite no_reverts in H2 by congruence.
  apply hbind_Some in H2 as (s4 & r & H4 & [= <- <-]). eauto 10.
Qed.

(** The end of a call to the cheatcodes does nothing else. *)
Lemma call_end_cheatcode call o s :
  is_cheatcode_call call = true →
  Cheatcodes.expected_revert (cheats s) = None → Cheatcodes.assume_no_revert (cheats s) = None →
  call_end config decoder_decode call o s = Some (s, o).
Proof.
  intros Hc Hr Ha. unfold call_end. rewrite Hc. unfold hbind, hret. by rewrite no_reverts.
Qed.

Lemma depth_diagnose call o : steps (D := D) same_depth (call_end_diagnose call o).
Proof.
  intros s s' r. unfold call_end_diagnose, hbind, hpart, hget, hcheats, hret. repeat case_match; by intros [= <- _].
Qed.

Lemma call_end_emits_err d st o q q' o' :
  call_end_emits d st o q = (q', Some o') → CallOutcome.status o' = Revert.
Proof. unfold call_end_emits. repeat case_match; intros [= <- <-]; done. Qed.

(** A diagnosis replaces the output of a revert. *)
Lemma diagnose_spec call o s s' r :
  call_end_diagnose call o s = Some (s', r) →
  from_option (λ o', CallOutcome.status o' = CallOutcome.status o ∧
                     InterpreterResult.is_revert (CallOutcome.result o) = true) True r.
Proof.
  unfold call_end_diagnose, hbind, hpart, hget, hcheats, hret.
  destruct (InterpreterResult.is_revert (CallOutcome.result o)) eqn:Hr;
    destruct (Cheatcodes.fork_revert_diagnostic (cheats s)); repeat case_match; by intros [= <- <-].
Qed.

(** The parts of what follows the reverts. *)
Lemma call_end_rest_split call o s s' r :
  load_keeps_depth → call_end_rest call o s = Some (s', r) →
  ∃ s1 s2 re,
    (hgas (GasMetering.set_last_call_gas (vm_gas_of (InterpreterResult.gas (CallOutcome.result o)))) ;;*
     end_record (InterpreterResult.is_revert (CallOutcome.result o)) (touch_call (Call.target_address call))) s = Some (s1, tt) ∧
    depth_of s1 = depth_of s ∧
    hpart Cheatcodes.expected_emits Cheatcodes.set_expected_emits
      (call_end_emits (depth_of s) (Call.is_static call) o) s1 = Some (s2, re) ∧ depth_of s2 = depth_of s ∧
    match re with
    | Some _ => s' = s2 ∧ r = re
    | None => (call_end_diagnose call o ;;? call_end_root o) s2 = Some (s', r)
    end.
Proof.
  intros HL (s0 & [] & H0 & (s1 & [] & H1 & (s1' & dd & [= <- <-] & (s2 & re & H2 & Hr)%hbind_Some)%hbind_Some)%hbind_Some)%hbind_Some.
  pose proof (steps_use _ _ _ _ H1 (depth_record _ _ HL)) as Hd1.
  assert (depth_of s1 = depth_of s) as Hd by (rewrite Hd1; by injection H0 as <-).
  exists s1, s2, re. split_and!.
  - apply hbind_Some. eauto.
  - done.
  - rewrite <-Hd. exact H2.
  - rewrite <-Hd. revert H2. unfold hpart. destruct (call_end_emits _ _ _ _). by intros [= <- _].
  - destruct re; [by injection Hr as <- <-|exact Hr].
Qed.
End call_end.
