(* ===== verification/Linking.v ===== *)
(** The linker (linking/src/lib.rs): which libraries an artifact needs, their
    addresses, and the bytecode to deploy.

    A [BTreeMap] is the list of its entries in the order of the keys.  The
    compiler's bytecode objects and the address formulas are parameters.  An
    artifact's id is a parameter with the fields the code reads. *)
From S2P Require Import Prelude Transaction Paths.

(** ** Data *)

(** [Libraries.libs] *)
Abbreviation Libraries := (list (Path * list (string * string))).

Definition lib_get (libs : Libraries) (key : Path * string) : option string :=
  inner ← bm_get path_cmp (fst key) libs; bm_get String.compare (snd key) inner.

(** [libs.entry(file).or_default().insert(name, address)] *)
Definition lib_insert (key : Path * string) (address : string) (libs : Libraries) : Libraries :=
  let inner := default [] (bm_get path_cmp (fst key) libs) in
  bm_insert path_cmp (fst key) (bm_insert String.compare (snd key) address inner) libs.

Inductive LinkerError :=
  | MissingLibraryArtifact (file name : string)
  | MissingTargetArtifact
  | InvalidAddress
  | CyclicDependency.

(** [ArtifactId], with an order on ids. *)
Class ArtifactIds (Id Version : Type) := {
  id_eq_dec :: EqDecision Id;
  version_eq_dec' :: EqDecision Version;
  id_cmp : Id → Id → comparison;
  id_ord :: OrdCmp id_cmp;
  id_cmp_eq : ∀ x y, id_cmp x y = Eq → x = y;
  id_name : Id → string;
  id_source : Id → Path;
  id_version : Id → Version }.

(** The bytecode of the compiler, and addresses. *)
Class BytecodeLib (B : Type) := {
  link_references : B → list (string * list string);
  bc_link : B → string → string → Address → B;
  is_unlinked : B → bool;
  bc_bytes : B → option Bytes;
  address_from_str : string → option Address;
  to_checksum : Address → string;
  create : Address → Z → Address;
  create2_from_code : Address → Z → Bytes → Address }.

Record Contract (B : Type) := mk_contract { bytecode : option B;
  deployed_bytecode : option (option B) }.
Arguments mk_contract {_}. Arguments bytecode {_}. Arguments deployed_bytecode {_}.

Record LinkOutput := mk_link_output { libraries : Libraries; libs_to_deploy : list Bytes }.

Fixpoint path_pieces (p : Path) : list string :=
  match p with
  | [] => []
  | c :: p => match c with RootDir => EmptyString | CurDir => "." | ParentDir => ".."
              | Normal s => s end :: path_pieces p
  end.

(** [path.to_string_lossy()] *)
Definition to_string_lossy (p : Path) : string :=
  match p with [RootDir] => "/" | _ => String.concat "/" (path_pieces p) end.

(** [nonce += 1] *)
Definition next_nonce (overflow_checks : bool) (nonce : Z) : option Z :=
  if (nonce <? u64_max)%Z then Some (nonce + 1)%Z
  else if overflow_checks then None else Some 0%Z.

Module Linker.
Record t (Id B : Type) := mk { root : Path; contracts : list (Id * Contract B) }.
Arguments mk {_ _}. Arguments root {_ _}. Arguments contracts {_ _}.

Section linker.
Context {Id Version B : Type} `{ArtifactIds Id Version} `{BytecodeLib B}.
Implicit Types (l : t Id B) (id : Id).

Definition convert_artifact_id_to_lib_path l id : Path * string :=
  let path := default (id_source id) (strip_prefix (id_source id) (root l)) in
  (path, split_first "."%char (id_name id)).

Fixpoint find_in (keys : list Id) l (file name : string) (version : option Version) : option Id :=
  match keys with
  | [] => None
  | id :: keys =>
      if bool_decide (version ≠ None ∧ version ≠ Some (id_version id)) then find_in keys l file name version
      else
        let '(artifact_path, artifact_name) := convert_artifact_id_to_lib_path l id in
        if bool_decide (artifact_name = name ∧ artifact_path = path_new file) then Some id
        else find_in keys l file name version
  end.

Definition find_artifact_id_by_library_path l (file name : string) (version : option Version) :
    option Id :=
  find_in (contracts l).*1 l file name version.

Definition get_contract l id : option (Contract B) := bm_get id_cmp id (contracts l).

(** The references of the creation code and then of the deployed code; the
    entry of a file replaces an earlier one. *)
Definition references (c : Contract B) : list (string * list string) :=
  let refs := match bytecode c with
              | Some b => bm_extend String.compare [] (link_references b)
              | None => []
              end in
  match deployed_bytecode c with
  | Some (Some b) => bm_extend String.compare refs (link_references b)
  | _ => refs
  end.

(** The pairs the two nested loops visit. *)
Definition reference_pairs (c : Contract B) : list (string * string) :=
  '(file, libs) ← references c; contract ← libs; [(file, contract)].

Section visit.
Context (collect : Id → list Id → option (result (list Id) LinkerError)).

Fixpoint visit l (version : Version) (refs : list (string * string)) (deps : list Id) :
    option (result (list Id) LinkerError) :=
  match refs with
  | [] => Some (Ok deps)
  | (file, contract) :: refs =>
      match find_artifact_id_by_library_path l file contract (Some version) with
      | None => Some (Err (MissingLibraryArtifact file contract))
      | Some id =>
          if bool_decide (id ∈ deps) then visit l version refs deps
          else match collect id (bt_insert id_cmp id deps) with
               | Some (Ok deps') => visit l version refs deps'
               | r => r
               end
      end
  end.
End visit.

(** [fuel] bounds the depth of the recursion. *)
Fixpoint collect_dependencies (fuel : nat) l (target : Id) (deps : list Id) :
    option (result (list Id) LinkerError) :=
  match fuel with
  | O => None
  | S fuel =>
      match get_contract l target with
      | None => Some (Err MissingTargetArtifact)
      | Some contract =>
          visit (collect_dependencies fuel l) l (id_version target) (reference_pairs contract) deps
      end
  end.

Definition collect_fuel l : nat := S (length (contracts l)).

Fixpoint collect_all l (targets deps : list Id) : option (result (list Id) LinkerError) :=
  match targets with
  | [] => Some (Ok deps)
  | target :: targets =>
      match collect_dependencies (collect_fuel l) l target deps with
      | Some (Ok deps') => collect_all l targets deps'
      | r => r
      end
  end.

(** The entries the two nested loops of [link] visit. *)
Definition lib_entries (libs : Libraries) : list (Path * string * string) :=
  '(file, inner) ← libs; '(name, address) ← inner; [(file, name, address)].

Definition link_entry (c : Contract B) (file name : string) (address : Address) : Contract B :=
  mk_contract ((λ b, bc_link b file name address) <$> bytecode c)
    (fmap (M := option) (λ b, bc_link b file name address) <$> deployed_bytecode c).

Fixpoint link_loop (entries : list (Path * string * string)) (c : Contract B) :
    result (Contract B) LinkerError :=
  match entries with
  | [] => Ok c
  | (file, name, address) :: entries =>
      match address_from_str address with
      | None => Err InvalidAddress
      | Some a => link_loop entries (link_entry c (to_string_lossy file) name a)
      end
  end.

Definition link l (target : Id) (libs : Libraries) : result (Contract B) LinkerError :=
  match get_contract l target with
  | None => Err MissingTargetArtifact
  | Some c => link_loop (lib_entries libs) c
  end.

Definition get_bytecode_bytes (c : Contract B) : option Bytes := bytecode c ≫= bc_bytes.

(** *** Addresses from a nonce *)

Section nonce.
Context (overflow_checks : bool) (sender : Address).

(** The loop over the needed libraries; the entry of a library that has no
    address gets the next one. *)
Fixpoint assign l (needed : list Id) (libs : Libraries) (nonce : Z) :
    option (Libraries * list Id) :=
  match needed with
  | [] => Some (libs, [])
  | id :: needed =>
      let key := convert_artifact_id_to_lib_path l id in
      match lib_get libs key with
      | Some _ => assign l needed libs nonce
      | None =>
          let libs := lib_insert key (to_checksum (create sender nonce)) libs in
          nonce ← next_nonce overflow_checks nonce;
          '(libs, deploy) ← assign l needed libs nonce;
          Some (libs, id :: deploy)
      end
  end.

(** [self.link(id, &libraries)?.get_bytecode_bytes().unwrap()] for each. *)
Fixpoint link_codes l (ids : list Id) (libs : Libraries) : option (result (list Bytes) LinkerError) :=
  match ids with
  | [] => Some (Ok [])
  | id :: ids =>
      match link l id libs with
      | Err e => Some (Err e)
      | Ok c =>
          code ← get_bytecode_bytes c;
          r ← link_codes l ids libs;
          Some (match r with Ok codes => Ok (code :: codes) | Err e => Err e end)
      end
  end.

(** [libs] is [libraries.with_stripped_file_prefixes(root)]. *)
Definition link_with_nonce_or_address l (libs : Libraries) (nonce : Z) (targets : list Id) :
    option (result LinkOutput LinkerError) :=
  r ← collect_all l targets [];
  match r with
  | Err e => Some (Err e)
  | Ok needed_libraries =>
      '(libs, deploy) ← assign l needed_libraries libs nonce;
      codes ← link_codes l deploy libs;
      Some (match codes with Ok codes => Ok (mk_link_output libs codes) | Err e => Err e end)
  end.
End nonce.

(** *** Addresses from the code *)

Section create2.
Context (sender : Address) (salt : Z).

(** Link each needed library with the provided ones and take its bytecode. *)
Fixpoint prelink l (ids : list Id) (libs : Libraries) : option (list (Id * B)) :=
  match ids with
  | [] => Some []
  | id :: ids =>
      match link l id libs with
      | Err _ => None
      | Ok c => b ← bytecode c; rest ← prelink l ids libs; Some ((id, b) :: rest)
      end
  end.

Fixpoint find_deployable (needed : list (Id * B)) : option (nat * (Id * B)) :=
  match needed with
  | [] => None
  | x :: needed =>
      if negb (is_unlinked (snd x)) then Some (O, x)
      else '(i, y) ← find_deployable needed; Some (S i, y)
  end.

Fixpoint deploy_loop (fuel : nat) l (needed : list (Id * B)) (libs : Libraries)
    (codes : list Bytes) : option (result LinkOutput LinkerError) :=
  match needed with
  | [] => Some (Ok (mk_link_output libs codes))
  | _ =>
      match fuel with
      | O => None
      | S fuel =>
          match find_deployable needed with
          | None => Some (Err CyclicDependency)
          | Some (index, (id, b)) =>
              let needed := swap_remove index needed in
              code ← bc_bytes b;
              let address := create2_from_code sender salt code in
              let '(file, name) := convert_artifact_id_to_lib_path l id in
              let needed := (λ x, (fst x, bc_link (snd x) (to_string_lossy file) name address)) <$>
                              needed in
              deploy_loop fuel l needed (lib_insert (file, name) (to_checksum address) libs)
                (codes ++ [code])
          end
      end
  end.

Definition link_with_create2 l (libs : Libraries) (target : Id) :
    option (result LinkOutput LinkerError) :=
  r ← collect_dependencies (collect_fuel l) l target [];
  match r with
  | Err e => Some (Err e)
  | Ok needed_libraries =>
      let missing := filter (λ id, lib_get libs (convert_artifact_id_to_lib_path l id) = None)
                       needed_libraries in
      needed ← prelink l missing libs;
      deploy_loop (length needed) l needed libs []
  end.
End create2.

Fixpoint link_each l (ids : list Id) (libs : Libraries) :
    result (list (Id * Contract B)) LinkerError :=
  match ids with
  | [] => Ok []
  | id :: ids =>
      match link l id libs, link_each l ids libs with
      | Ok c, Ok cs => Ok ((id, c) :: cs)
      | Err e, _ => Err e
      | _, Err e => Err e
      end
  end.

Definition get_linked_artifacts l (libs : Libraries) : result (list (Id * Contract B)) LinkerError :=
  link_each l (contracts l).*1 libs.
End linker.
End Linker.
