(* ===== verification/LinkingTheorems.v ===== *)
(** What the linker collects, assigns and deploys. *)
From S2P Require Import Prelude Transaction Paths Linking.

(** ** Maps *)

Section btree_map.
Context {K V : Type} (cmp : K → K → comparison).
Implicit Types (m : list (K * V)).

Lemma bm_insert_in k v m x : x ∈ bm_insert cmp k v m → x = (k, v) ∨ x ∈ m.
Proof.
  induction m as [|[k1 v1] m IH]; cbn; [set_solver|]. destruct (cmp k k1); set_solver.
Qed.
Hypothesis cmp_eq : ∀ x y, cmp x y = Eq ↔ x = y.

Lemma bm_get_in k v m : bm_get cmp k m = Some v → (k, v) ∈ m.
Proof.
  induction m as [|[k' v'] m IH]; cbn; [done|].
  destruct (cmp k k') eqn:E; [apply cmp_eq in E as <-; intros [= ->]; set_solver|set_solver..].
Qed.

Lemma bm_get_dom k m : k ∈ m.*1 → is_Some (bm_get cmp k m).
Proof.
  induction m as [|[k' v'] m IH]; cbn; [by intros ?%elem_of_nil|].
  destruct (cmp k k') eqn:E; [by eauto|..].
  all: intros [-> |?]%elem_of_cons; [|by apply IH].
  all: by rewrite (proj2 (cmp_eq k' k') eq_refl) in E.
Qed.

Lemma bm_get_insert k k' v m :
  bm_get cmp k' (bm_insert cmp k v m) =
    match cmp k' k with Eq => Some v | _ => bm_get cmp k' m end.
Proof.
  assert (∀ x, cmp x x = Eq) as Hrefl by (intros x; by apply cmp_eq).
  induction m as [|[k1 v1] m IH]; cbn; [by destruct (cmp k' k)|].
  destruct (cmp k k1) eqn:E; cbn.
  - apply cmp_eq in E as <-. by destruct (cmp k' k).
  - by destruct (cmp k' k).
  - rewrite IH. destruct (cmp k' k1) eqn:E1, (cmp k' k) eqn:E2; try done.
    apply cmp_eq in E1, E2. subst. by rewrite Hrefl in E.
Qed.

End btree_map.

Lemma string_compare_eq x y : String.compare x y = Eq ↔ x = y.
Proof.
  split; [apply String.compare_eq_iff|]. intros ->.
  pose proof (String.compare_antisym y y) as H. by destruct (String.compare y y).
Qed.

Lemma lib_get_insert k k' a libs :
  lib_get (lib_insert k a libs) k' = if decide (k' = k) then Some a else lib_get libs k'.
Proof.
  destruct k as [p n], k' as [p' n']. unfold lib_get, lib_insert. cbn.
  rewrite bm_get_insert by apply path_cmp_eq.
  destruct (path_cmp p' p) eqn:E.
  - apply path_cmp_eq in E as ->. cbn. rewrite bm_get_insert by apply string_compare_eq.
    destruct (String.compare n' n) eqn:En.
    + apply string_compare_eq in En as ->. by rewrite decide_True.
    + rewrite decide_False by (intros [= ->]; by rewrite (proj2 (string_compare_eq n n) eq_refl) in En).
      by destruct (bm_get path_cmp p libs).
    + rewrite decide_False by (intros [= ->]; by rewrite (proj2 (string_compare_eq n n) eq_refl) in En).
      by destruct (bm_get path_cmp p libs).
  - rewrite decide_False by (intros [= -> ->]; by rewrite (proj2 (path_cmp_eq p p) eq_refl) in E). done.
  - rewrite decide_False by (intros [= -> ->]; by rewrite (proj2 (path_cmp_eq p p) eq_refl) in E). done.
Qed.

Lemma elem_of_lib_entries libs file name a :
  (file, name, a) ∈ Linker.lib_entries libs ↔ ∃ inner, (file, inner) ∈ libs ∧ (name, a) ∈ inner.
Proof.
  unfold Linker.lib_entries. rewrite list_elem_of_bind. split.
  - intros ([file' inner] & Hx & Hin). apply list_elem_of_bind in Hx as ([n' a'] & Hx & Hn).
    apply list_elem_of_singleton in Hx as [= -> -> ->]. by exists inner.
  - intros (inner & Hin & Hn). exists (file, inner). split; [|done].
    apply list_elem_of_bind. exists (name, a). split; [by apply list_elem_of_singleton|done].
Qed.

Lemma lib_get_entry libs file name a :
  lib_get libs (file, name) = Some a → (file, name, a) ∈ Linker.lib_entries libs.
Proof.
  unfold lib_get. cbn. intros (inner & Hi & Ha)%bind_Some. apply elem_of_lib_entries.
  exists inner. split; [eapply bm_get_in; [apply path_cmp_eq|done]|].
  eapply bm_get_in; [apply string_compare_eq|done].
Qed.

Lemma lib_insert_entry k a libs file name b :
  (file, name, b) ∈ Linker.lib_entries (lib_insert k a libs) →
  b = a ∨ (file, name, b) ∈ Linker.lib_entries libs.
Proof.
  rewrite !elem_of_lib_entries. intros (inner & Hi & Hn). unfold lib_insert in Hi.
  apply bm_insert_in in Hi as [[= -> ->]|Hi]; [|by eauto].
  apply bm_insert_in in Hn as [[= -> ->]|Hn]; [by left|]. right.
  destruct (bm_get path_cmp (fst k) libs) as [inner|] eqn:E; cbn in Hn; [|by apply elem_of_nil in Hn].
  exists inner. split; [|done]. eapply bm_get_in; [apply path_cmp_eq|done].
Qed.

(** ** Dependencies *)

Section collect.
Context {Id Version B : Type} `{ArtifactIds Id Version} `{BytecodeLib B}.
Context (l : Linker.t Id B).
Implicit Types (x y : Id) (deps : list Id).
Import Linker.

Abbreviation keys := ((contracts l).*1).

(** [x] refers to a library that is found as [y]. *)
Definition edge x y : Prop :=
  ∃ c file name, get_contract l x = Some c ∧ (file, name) ∈ reference_pairs c ∧
    find_artifact_id_by_library_path l file name (Some (id_version x)) = Some y.

(** [x] is missing, or a library it refers to is. *)
Definition unresolved x (e : LinkerError) : Prop :=
  (get_contract l x = None ∧ e = MissingTargetArtifact) ∨
  ∃ c file name, get_contract l x = Some c ∧ (file, name) ∈ reference_pairs c ∧
    find_artifact_id_by_library_path l file name (Some (id_version x)) = None ∧
    e = MissingLibraryArtifact file name.

Definition resolved x : Prop :=
  ∃ c, get_contract l x = Some c ∧ ∀ file name, (file, name) ∈ reference_pairs c →
    ∃ y, find_artifact_id_by_library_path l file name (Some (id_version x)) = Some y.

Lemma id_cmp_iff x y : id_cmp x y = Eq ↔ x = y.
Proof. split; [apply id_cmp_eq|]. intros ->. apply cmp_refl, id_ord. Qed.

(** What is found is an artifact of the version, under its library path. *)
Lemma find_in_Some ks file name v y :
  find_in ks l file name (Some v) = Some y →
  y ∈ ks ∧ id_version y = v ∧ convert_artifact_id_to_lib_path l y = (path_new file, name).
Proof.
  induction ks as [|k ks IH]; cbn; [done|].
  case_bool_decide as Hv; [intros (? & ? & ?)%IH; set_solver|].
  case_bool_decide as Hk; [|intros (? & ? & ?)%IH; set_solver].
  destruct Hk as [Hn Hp]. intros [= ->]. split_and!; [set_solver| |].
  - destruct (decide (id_version y = v)); [done|]. destruct Hv. naive_solver.
  - unfold convert_artifact_id_to_lib_path. by rewrite Hp, Hn.
Qed.

Lemma find_Some file name v y :
  find_artifact_id_by_library_path l file name (Some v) = Some y →
  y ∈ keys ∧ id_version y = v ∧ convert_artifact_id_to_lib_path l y = (path_new file, name).
Proof. apply find_in_Some. Qed.

Lemma elem_of_deps_insert x y deps : y ∈ bt_insert id_cmp x deps ↔ y = x ∨ y ∈ deps.
Proof.
  split; [apply elem_of_bt_insert|]. intros [-> |Hy]; [|by apply bt_insert_mono].
  destruct (decide (x ∈ deps)) as [Hin|Hin]; [by apply bt_insert_mono|].
  apply bt_insert_new. intros y Hy ->%id_cmp_iff. done.
Qed.

(** The artifacts that are not collected yet. *)
Definition uncollected deps : nat := length (filter (λ k, k ∉ deps) keys).

Lemma uncollected_sub deps deps' : deps ⊆ deps' → uncollected deps' ≤ uncollected deps.
Proof.
  intros Hs. unfold uncollected. induction keys as [|k ks IH]; [done|]. rewrite !filter_cons.
  destruct (decide (k ∉ deps')), (decide (k ∉ deps)); cbn; [lia|set_solver|lia|lia].
Qed.

Lemma uncollected_insert x deps :
  x ∈ keys → x ∉ deps → uncollected (bt_insert id_cmp x deps) < uncollected deps.
Proof.
  intros Hx Hn. unfold uncollected.
  assert (∀ ks, length (filter (λ k, k ∉ bt_insert id_cmp x deps) ks) ≤
    length (filter (λ k, k ∉ deps) ks)) as Hle.
  { induction ks as [|k ks IH]; [done|]. rewrite !filter_cons.
    destruct (decide (k ∉ bt_insert id_cmp x deps)) as [H1|H1], (decide (k ∉ deps)) as [H2|H2]; cbn; try lia.
    destruct H1. apply elem_of_deps_insert. right. by apply dec_stable. }
  induction keys as [|k ks IH]; [by apply elem_of_nil in Hx|]. rewrite !filter_cons.
  destruct (decide (k = x)) as [->|Hk].
  - rewrite decide_False by (intros Hc; apply Hc, elem_of_deps_insert; by left).
    rewrite decide_True by done. cbn. specialize (Hle ks). lia.
  - apply elem_of_cons in Hx as [->|Hx]; [done|]. specialize (IH Hx).
    destruct (decide (k ∉ bt_insert id_cmp x deps)) as [H1|H1].
    + rewrite decide_True by (intros Hc; apply H1, elem_of_deps_insert; by right). cbn. lia.
    + rewrite decide_False; [lia|]. intros Hc. apply H1. intros Hi.
      apply elem_of_deps_insert in Hi as [-> |]; done.
Qed.

(** From [deps] to [deps'] by a search that started at [x]. *)
Record collected x deps deps' : Prop := {
  co_sub : deps ⊆ deps';
  co_reach : ∀ y, y ∈ deps' → y ∈ deps ∨ tc edge x y;
  co_closed : ∀ y, y ∈ deps' → y ∉ deps → resolved y ∧ ∀ z, edge y z → z ∈ deps';
  co_keys : ∀ y, y ∈ deps' → y ∈ deps ∨ (y ∈ keys ∧ id_version y = id_version x);
  co_sorted : bt_sorted id_cmp deps → bt_sorted id_cmp deps' }.

Lemma collected_refl x deps : collected x deps deps.
Proof. split; set_solver. Qed.

Lemma collected_trans x d1 d2 d3 : collected x d1 d2 → collected x d2 d3 → collected x d1 d3.
Proof.
  intros [S1 R1 C1 K1 O1] [S2 R2 C2 K2 O2]. split; [set_solver|..|auto].
  - intros y [Hy|Hy]%R2; [by apply R1|by right].
  - intros y Hy Hn. destruct (decide (y ∈ d2)) as [Hd|Hd]; [|by apply C2].
    destruct (C1 y Hd Hn) as [Hr He]. split; [done|]. intros z Hz. by apply S2, He.
  - intros y [Hy|Hy]%K2; [by apply K1|by right].
Qed.

(** Collecting from a new library that [x] refers to. *)
Lemma collected_edge x y deps deps' :
  edge x y → y ∈ keys → id_version y = id_version x →
  collected y (bt_insert id_cmp y deps) deps' → resolved y → (∀ z, edge y z → z ∈ deps') →
  collected x deps deps'.
Proof.
  intros Hxy Hk Hv [S R C K O] Hr He. split.
  - intros z Hz. apply S, elem_of_deps_insert. by right.
  - intros z [Hz|Hz]%R; [|right; by eapply tc_l].
    apply elem_of_deps_insert in Hz as [-> |Hz]; [right; by apply tc_once|by left].
  - intros z Hz Hn. destruct (decide (z = y)) as [->|Hne]; [done|].
    apply C; [done|]. intros [|]%elem_of_deps_insert; done.
  - intros z [Hz|[Hz1 Hz2]]%K; [|right; split; [done|congruence]].
    apply elem_of_deps_insert in Hz as [-> |Hz]; [by right|by left].
  - intros Hs. apply O, bt_insert_sorted; [apply _|done].
Qed.

Definition collect_post x deps (r : option (result (list Id) LinkerError)) : Prop :=
  (∃ deps', r = Some (Ok deps') ∧ collected x deps deps' ∧ resolved x ∧
     ∀ y, edge x y → y ∈ deps') ∨
  (∃ e y, r = Some (Err e) ∧ rtc edge x y ∧ unresolved y e).

Lemma visit_post n x c refs deps :
  (∀ y deps, uncollected deps < n → collect_post y deps (collect_dependencies n l y deps)) →
  get_contract l x = Some c → (∀ r, r ∈ refs → r ∈ reference_pairs c) →
  uncollected deps < S n →
  let r := visit (collect_dependencies n l) l (id_version x) refs deps in
  (∃ deps', r = Some (Ok deps') ∧ collected x deps deps' ∧
     ∀ file name, (file, name) ∈ refs →
       ∃ y, find_artifact_id_by_library_path l file name (Some (id_version x)) = Some y ∧
         y ∈ deps') ∨
  (∃ e y, r = Some (Err e) ∧ rtc edge x y ∧ unresolved y e).
Proof.
  intros IHn Hc. revert deps. induction refs as [|[file name] refs IH]; intros deps Hrefs Hn r; subst r.
  { left. exists deps. split_and!; [done|apply collected_refl|]. by intros ? ? ?%elem_of_nil. }
  cbn. assert ((file, name) ∈ reference_pairs c) as Hin by (apply Hrefs; set_solver).
  assert (∀ r, r ∈ refs → r ∈ reference_pairs c) as Hrefs' by (intros; apply Hrefs; set_solver).
  destruct (find_artifact_id_by_library_path l file name (Some (id_version x))) as [y|] eqn:Hf.
  2:{ right. eexists _, x. split_and!; [done|done|]. right. by exists c, file, name. }
  assert (edge x y) as Hxy by (by exists c, file, name).
  destruct (find_Some _ _ _ _ Hf) as (Hk & Hv & _).
  case_bool_decide as Hy.
  - destruct (IH deps Hrefs' Hn) as [(deps' & E & Hco & Hall)|Herr]; [left|by right].
    exists deps'. split_and!; [done|done|].
    intros f m [[= -> ->]|Hin']%elem_of_cons; [|by apply Hall]. exists y. split; [done|].
    by apply (co_sub _ _ _ Hco).
  - assert (uncollected (bt_insert id_cmp y deps) < n) as Hlt.
    { pose proof (uncollected_insert y deps Hk Hy). lia. }
    destruct (IHn y _ Hlt) as [(deps1 & E & Hco & Hr & He)|(e & z & E & Hz & Hu)]; rewrite E.
    2:{ right. exists e, z. split_and!; [done|by eapply rtc_l|done]. }
    pose proof (collected_edge x y deps deps1 Hxy Hk Hv Hco Hr He) as Hco'.
    destruct (IH deps1 Hrefs') as [(deps2 & E2 & Hco2 & Hall)|Herr]; [|left|by right].
    { pose proof (uncollected_sub _ _ (co_sub _ _ _ Hco')). lia. }
    exists deps2. split_and!; [done|by eapply collected_trans|].
    intros f m [[= -> ->]|Hin']%elem_of_cons; [|by apply Hall]. exists y. split; [done|].
    apply (co_sub _ _ _ Hco2), (co_sub _ _ _ Hco), elem_of_deps_insert. by left.
Qed.

Lemma collect_dependencies_post n x deps :
  uncollected deps < n → collect_post x deps (collect_dependencies n l x deps).
Proof.
  revert x deps. induction n as [|n IH]; intros x deps Hn; [lia|]. cbn.
  destruct (get_contract l x) as [c|] eqn:Hc.
  2:{ right. exists MissingTargetArtifact, x. split_and!; [done|done|by left]. }
  destruct (visit_post n x c (reference_pairs c) deps IH Hc (λ r Hr, Hr) Hn)
    as [(deps' & E & Hco & Hall)|Herr]; [left|by right].
  exists deps'. split_and!; [done|done|..].
  - exists c. split; [done|]. intros f m Hin. destruct (Hall f m Hin) as (y & Hy & _). by exists y.
  - intros y (c' & f & m & Hc' & Hin & Hf). rewrite Hc in Hc'. injection Hc' as <-.
    destruct (Hall f m Hin) as (y' & Hy' & Hd). congruence.
Qed.

Lemma uncollected_fuel deps : uncollected deps < collect_fuel l.
Proof.
  unfold uncollected, collect_fuel. pose proof (length_filter (λ k, k ∉ deps) keys) as Hl.
  rewrite length_fmap in Hl. lia.
Qed.

Definition closed deps : Prop := ∀ y, y ∈ deps → resolved y ∧ ∀ z, edge y z → z ∈ deps.

Lemma closed_tc deps x y : closed deps → (∀ z, edge x z → z ∈ deps) → tc edge x y → y ∈ deps.
Proof.
  intros Hc Hx Ht. induction Ht as [x y Hxy|x y z Hxy Ht IH]; [by apply Hx|].
  apply IH. apply Hc, Hx, Hxy.
Qed.

Lemma collect_all_post targets deps :
  closed deps → bt_sorted id_cmp deps →
  (∃ deps', collect_all l targets deps = Some (Ok deps') ∧ bt_sorted id_cmp deps' ∧ closed deps' ∧
     (∀ t, t ∈ targets → resolved t) ∧
     ∀ y, y ∈ deps' ↔ y ∈ deps ∨ ∃ t, t ∈ targets ∧ tc edge t y) ∨
  (∃ e t y, collect_all l targets deps = Some (Err e) ∧ t ∈ targets ∧ rtc edge t y ∧
     unresolved y e).
Proof.
  revert deps. induction targets as [|t targets IH]; intros deps Hc Hs.
  { left. exists deps. split_and!; try done; [by intros ? ?%elem_of_nil|].
    intros y. split; [by left|]. intros [?|(t & ?%elem_of_nil & _)]; done. }
  cbn [collect_all]. destruct (collect_dependencies_post (collect_fuel l) t deps (uncollected_fuel deps))
    as [(deps1 & -> & Hco & Hr & He)|(e & y & -> & Hy & Hu)].
  2:{ right. exists e, t, y. split_and!; [done|set_solver|done|done]. }
  destruct Hco as [S R C K O].
  assert (closed deps1) as Hc1.
  { intros y Hy. destruct (decide (y ∈ deps)) as [Hd|Hd]; [|by apply C].
    destruct (Hc y Hd) as [Hry Hey]. split; [done|]. intros z Hz. by apply S, Hey. }
  destruct (IH deps1 Hc1 (O Hs)) as [(deps2 & -> & Hs2 & Hc2 & Ht2 & Hd2)|(e & t' & y & -> & Ht' & Hy)].
  - left. exists deps2. split_and!; try done.
    + intros t' [-> |Ht']%elem_of_cons; [done|by apply Ht2].
    + intros y. rewrite Hd2. split.
      * intros [[Hy|Hy]%R|(t' & Ht' & Hy)]; [by left|right; exists t; set_solver|].
        right. exists t'. set_solver.
      * intros [Hy|(t' & [-> |Ht']%elem_of_cons & Hy)]; [left; by apply S| |right; by exists t'].
        left. by eapply closed_tc.
  - right. exists e, t', y. split_and!; [done|set_solver|naive_solver..].
Qed.
End collect.

(** Collecting the libraries of some artifacts always ends, also when the
    references form cycles.  It fails exactly when an artifact or a library
    reachable from a target is missing, with the error that names it;
    otherwise it gives, sorted and without duplicates, exactly the libraries
    reachable from the targets. *)
Theorem collects_reachable {Id Version B : Type} `{ArtifactIds Id Version} `{BytecodeLib B}
    (l : Linker.t Id B) (targets : list Id) :
  (∃ deps, Linker.collect_all l targets [] = Some (Ok deps) ∧
     StronglySorted (λ x y, id_cmp x y = Lt) deps ∧
     (∀ y, y ∈ deps ↔ ∃ t, t ∈ targets ∧ tc (edge l) t y) ∧
     ∀ t y e, t ∈ targets → rtc (edge l) t y → ¬ unresolved l y e) ∨
  (∃ e t y, Linker.collect_all l targets [] = Some (Err e) ∧ t ∈ targets ∧ rtc (edge l) t y ∧
     unresolved l y e).
Proof.
  destruct (collect_all_post l targets []) as [(deps & E & Hs & Hc & Ht & Hd)|?]; [..|by right].
  - by intros y ?%elem_of_nil.
  - constructor.
  - left. exists deps. split_and!; [done|done|..].
    + intros y. rewrite Hd. split; [|by right]. by intros [?%elem_of_nil|?].
    + intros t y e Hin Hty Hu.
      assert (resolved l y) as (c & Hcy & Href).
      { apply rtc_tc in Hty as [<-|Htc]; [by apply Ht|].
        apply Hc, Hd. right. by exists t. }
      destruct Hu as [[Hn _]|(c' & f & n & Hc' & Hin' & Hf & _)]; [congruence|].
      rewrite Hcy in Hc'. injection Hc' as <-. destruct (Href f n Hin'). congruence.
Qed.
