(* ===== verification/LinkingDeploy.v ===== *)
(** The addresses and the code the linker gives to libraries. *)
From S2P Require Import Prelude Transaction Paths Linking LinkingTheorems.

Section deploy.
Context {Id Version B : Type} `{ArtifactIds Id Version} `{BytecodeLib B}.
Context (l : Linker.t Id B).
Implicit Types (x y id : Id) (b : B) (libs : Libraries).
Import Linker.

Definition has_ref b (file name : string) : Prop :=
  ∃ names, (file, names) ∈ link_references b ∧ name ∈ names.

(** What the compiler's bytecode documents: linking a library removes the
    references to it and no other, bytecode is unlinked while it has
    references, linked bytecode is a sequence of bytes; and that the printed
    address of a deployment can be read back. *)
Class LinkLaws : Prop := {
  link_refs : ∀ b f n a f' n', has_ref (bc_link b f n a) f' n' ↔ has_ref b f' n' ∧ (f', n') ≠ (f, n);
  unlinked_refs : ∀ b, is_unlinked b = true ↔ ∃ f n, has_ref b f n;
  linked_bytes : ∀ b, is_unlinked b = false → is_Some (bc_bytes b);
  create_parses : ∀ sender nonce,
    address_from_str (to_checksum (create sender nonce)) = Some (create sender nonce) }.
Context `{!LinkLaws}.

Abbreviation key := (convert_artifact_id_to_lib_path l).

(** The addresses of the libraries can be read. *)
Definition libs_parse libs : Prop :=
  ∀ file name a, (file, name, a) ∈ lib_entries libs → is_Some (address_from_str a).

Lemma libs_parse_insert k sender nonce libs :
  libs_parse libs → libs_parse (lib_insert k (to_checksum (create sender nonce)) libs).
Proof.
  intros Hp file name b [-> |Hb]%lib_insert_entry; [by rewrite create_parses|by eapply Hp].
Qed.

(** The entries name the reference. *)
Definition names_ref (entries : list (Path * string * string)) (f n : string) : Prop :=
  ∃ file a, (file, n, a) ∈ entries ∧ to_string_lossy file = f.

Lemma link_loop_ok entries (c : Contract B) b :
  (∀ file name a, (file, name, a) ∈ entries → is_Some (address_from_str a)) →
  bytecode c = Some b →
  ∃ c' b', link_loop entries c = Ok c' ∧ bytecode c' = Some b' ∧
    ∀ f n, has_ref b' f n ↔ has_ref b f n ∧ ¬ names_ref entries f n.
Proof.
  revert c b. induction entries as [|[[file name] a] entries IH]; intros c b Hp Hb.
  { exists c, b. split_and!; [done..|]. intros f n. split; [|by intros [? _]].
    intros Hr. split; [done|]. by intros (? & ? & ?%elem_of_nil & _). }
  cbn. destruct (Hp file name a) as [addr ->]; [set_solver|].
  destruct (IH (link_entry c (to_string_lossy file) name addr)
    (bc_link b (to_string_lossy file) name addr)) as (c' & b' & E & Hb' & Hr).
  { intros f n a' Hin. apply (Hp f n). set_solver. }
  { cbn. by rewrite Hb. }
  exists c', b'. split_and!; [done..|]. intros f n. rewrite Hr, link_refs. split.
  - intros [[Hb1 Hb2] Hb3]. split; [done|]. intros (file' & a' & [[= -> -> ->]|Hin]%elem_of_cons & Hf).
    + by subst f.
    + apply Hb3. by exists file', a'.
  - intros [Hb1 Hb2]. split_and!; [done|..].
    + intros [= -> ->]. apply Hb2. exists file, a. split; [set_solver|done].
    + intros (file' & a' & Hin & Hf). apply Hb2. exists file', a'. split; [set_solver|done].
Qed.

(** The creation code refers to everything the contract refers to, and files
    are written in the form paths are printed. *)
Definition plain x b : Prop :=
  ∃ c, get_contract l x = Some c ∧ bytecode c = Some b ∧
    (∀ f n, (f, n) ∈ reference_pairs c ↔ has_ref b f n) ∧
    (∀ f n, has_ref b f n → to_string_lossy (path_new f) = f).

Lemma plain_edge x b f n y :
  plain x b → has_ref b f n →
  find_artifact_id_by_library_path l f n (Some (id_version x)) = Some y → edge l x y.
Proof. intros (c & Hc & Hb & Hr & _) Href Hf. exists c, f, n. by rewrite Hr. Qed.

Lemma plain_resolved x b f n :
  plain x b → resolved l x → has_ref b f n →
  ∃ y, edge l x y ∧ key y = (path_new f, n).
Proof.
  intros Hp (c' & Hc' & Hres) Href. pose proof Hp as (c & Hc & Hb & Hr & _).
  rewrite Hc in Hc'. injection Hc' as <-. destruct (Hres f n) as [y Hy]; [by apply Hr|].
  exists y. split; [by eapply plain_edge|]. by apply find_Some in Hy as (_ & _ & ?).
Qed.

(** When every library [x] refers to has an address, its code is linked. *)
Lemma link_complete x b libs :
  plain x b → resolved l x → libs_parse libs →
  (∀ y, edge l x y → is_Some (lib_get libs (key y))) →
  ∃ c' b' code, link l x libs = Ok c' ∧ bytecode c' = Some b' ∧ is_unlinked b' = false ∧
    bc_bytes b' = Some code.
Proof.
  intros Hp Hres Hparse Hall. pose proof Hp as (c & Hc & Hb & Hr & Hn).
  destruct (link_loop_ok (lib_entries libs) c b Hparse Hb) as (c' & b' & E & Hb' & Hrefs).
  assert (is_unlinked b' = false) as Hu.
  { destruct (is_unlinked b') eqn:Eu; [|done].
    apply unlinked_refs in Eu as (f & n & [Href Hno]%Hrefs). destruct Hno.
    destruct (plain_resolved x b f n Hp Hres Href) as (y & Hxy & Hk).
    destruct (Hall y Hxy) as [a Ha]. rewrite Hk in Ha. exists (path_new f), a.
    split; [by apply lib_get_entry|by eapply Hn]. }
  destruct (linked_bytes b' Hu) as [code Hcode].
  exists c', b', code. split_and!; try done. unfold link. by rewrite Hc.
Qed.

(** ** Addresses from a nonce *)

Section nonce.
Context (chk : bool) (sender : Address).

Lemma next_nonce_small nonce : (nonce < u64_max)%Z → next_nonce chk nonce = Some (nonce + 1)%Z.
Proof. intros Hn. unfold next_nonce. by rewrite (proj2 (Z.ltb_lt _ _) Hn). Qed.

Lemma assign_spec needed libs nonce :
  (nonce + Z.of_nat (length needed) ≤ u64_max)%Z → libs_parse libs →
  ∃ libs' deploy, assign chk sender l needed libs nonce = Some (libs', deploy) ∧
    libs_parse libs' ∧ deploy `sublist_of` needed ∧ NoDup (key <$> deploy) ∧
    (∀ k a, lib_get libs k = Some a → lib_get libs' k = Some a) ∧
    (∀ id, id ∈ needed → is_Some (lib_get libs' (key id))) ∧
    (∀ i id, deploy !! i = Some id → lib_get libs (key id) = None ∧
       lib_get libs' (key id) = Some (to_checksum (create sender (nonce + Z.of_nat i)))).
Proof.
  revert libs nonce. induction needed as [|id needed IH]; intros libs nonce Hn Hp.
  { exists libs, []. split_and!; try done; [constructor|by intros ? ?%elem_of_nil]. }
  cbn [assign length] in *. destruct (lib_get libs (key id)) as [a|] eqn:Hk.
  - destruct (IH libs nonce ltac:(lia) Hp) as (libs' & deploy & E & P1 & P2 & P3 & P4 & P5 & P6).
    exists libs', deploy. split_and!; try done; [by constructor|].
    intros id' [-> |Hid]%elem_of_cons; [rewrite (P4 _ _ Hk); by eauto|by apply P5].
  - rewrite next_nonce_small by lia. cbn.
    set (libs1 := lib_insert _ _ libs).
    destruct (IH libs1 (nonce + 1)%Z ltac:(lia)) as (libs' & deploy & E & P1 & P2 & P3 & P4 & P5 & P6).
    { by apply libs_parse_insert. }
    rewrite E. cbn. assert (lib_get libs1 (key id) = Some (to_checksum (create sender nonce))) as Hk1.
    { unfold libs1. rewrite lib_get_insert. by rewrite decide_True. }
    exists libs', (id :: deploy). split_and!; try done.
    + by constructor.
    + cbn. constructor; [|done]. intros (id' & Hkey & Hid)%list_elem_of_fmap.
      apply list_elem_of_lookup in Hid as [i Hi]. destruct (P6 i id' Hi) as [Hno _].
      rewrite <- Hkey in Hno. congruence.
    + intros k a Ha. apply P4. unfold libs1. rewrite lib_get_insert.
      destruct (decide (k = key id)) as [->|]; [congruence|done].
    + intros id' [-> |Hid]%elem_of_cons; [rewrite (P4 _ _ Hk1); by eauto|by apply P5].
    + intros [|i] id' Hi; cbn in Hi.
      * injection Hi as <-. rewrite Z.add_0_r. split; [done|by apply P4].
      * destruct (P6 i id' Hi) as [Hno Hyes]. split.
        { unfold libs1 in Hno. rewrite lib_get_insert in Hno.
          destruct (decide (key id' = key id)); [congruence|done]. }
        { rewrite Hyes. do 3 f_equal. lia. }
Qed.

Lemma link_codes_spec ids libs :
  (∀ id, id ∈ ids → ∃ c b code, link l id libs = Ok c ∧ bytecode c = Some b ∧
     is_unlinked b = false ∧ bc_bytes b = Some code) →
  ∃ codes, link_codes l ids libs = Some (Ok codes) ∧ length codes = length ids ∧
    ∀ i id, ids !! i = Some id → ∃ c b, link l id libs = Ok c ∧ bytecode c = Some b ∧
      is_unlinked b = false ∧ bc_bytes b = codes !! i.
Proof.
  induction ids as [|id ids IH]; intros Hl.
  { exists []. split_and!; [done..|]. intros i id. by rewrite lookup_nil. }
  destruct (Hl id) as (c & b & code & E & Hb & Hu & Hc); [set_solver|].
  destruct IH as (codes & E' & Hlen & Hi); [intros; apply Hl; set_solver|].
  exists (code :: codes). cbn [link_codes]. rewrite E. unfold get_bytecode_bytes. rewrite Hb. cbn.
  rewrite Hc. cbn. rewrite E'. cbn. split_and!; [done|by rewrite Hlen|].
  intros [|i] id' Hi'; cbn in Hi'; [|by apply Hi]. injection Hi' as <-. by exists c, b.
Qed.
End nonce.

(** The collected libraries are artifacts, each once. *)
Lemma collected_length deps :
  closed l deps → bt_sorted id_cmp deps → length deps ≤ length (contracts l).
Proof.
  intros Hc Hs. rewrite <- (length_fmap fst (contracts l)).
  apply submseteq_length, NoDup_submseteq; [by apply bt_sorted_nodup in Hs; [|apply _]|].
  intros x Hx. destruct (Hc x Hx) as [(c & Hg & _) _].
  apply (bm_get_in id_cmp (id_cmp_iff (Id := Id))) in Hg.
  apply list_elem_of_fmap. by exists (x, c).
Qed.

(** ** Addresses from the code *)

Section create2.
Context (sender : Address) (salt : Z).

Lemma find_deployable_Some (needed : list (Id * B)) i p :
  find_deployable needed = Some (i, p) → needed !! i = Some p ∧ is_unlinked (snd p) = false.
Proof.
  revert i. induction needed as [|q needed IH]; intros i; cbn; [done|].
  destruct (is_unlinked (snd q)) eqn:E; cbn.
  - destruct (find_deployable needed) as [[j z]|]; cbn; [|done]. intros [= <- ->]. by apply IH.
  - by intros [= <- ->].
Qed.

Lemma find_deployable_None (needed : list (Id * B)) :
  find_deployable needed = None → ∀ p, p ∈ needed → is_unlinked (snd p) = true.
Proof.
  induction needed as [|q needed IH]; cbn; [by intros _ p ?%elem_of_nil|].
  destruct (is_unlinked (snd q)) eqn:E; cbn; [|done].
  destruct (find_deployable needed) as [[j z]|]; cbn; [done|].
  intros _ p [-> |Hp]%elem_of_cons; [done|by apply IH].
Qed.

(** The state of the loop: a library still to deploy has exactly the
    references of its creation code whose libraries have no address yet. *)
Record pending (needed : list (Id * B)) libs : Prop := {
  pe_refs : ∀ x b, (x, b) ∈ needed → ∃ b0, plain x b0 ∧ resolved l x ∧
    ∀ f n, has_ref b f n ↔ has_ref b0 f n ∧ lib_get libs (path_new f, n) = None;
  pe_keys : NoDup (key <$> needed.*1);
  pe_free : ∀ x, x ∈ needed.*1 → lib_get libs (key x) = None;
  pe_print : ∀ x, x ∈ needed.*1 → path_new (to_string_lossy (fst (key x))) = fst (key x);
  pe_all : ∀ x y, x ∈ needed.*1 → edge l x y → lib_get libs (key y) = None → y ∈ needed.*1 }.

Lemma pending_step needed libs i x b a :
  pending needed libs → needed !! i = Some (x, b) →
  pending ((λ p, (fst p, bc_link (snd p) (to_string_lossy (fst (key x))) (snd (key x)) a)) <$>
             swap_remove i needed)
    (lib_insert (key x) (to_checksum a) libs).
Proof.
  intros [R K F P A] Hi. pose proof (swap_remove_perm needed i (x, b) Hi) as Hperm. symmetry in Hperm.
  set (rest := swap_remove i needed) in *.
  assert (∀ g : B → B, ((λ p, (fst p, g (snd p))) <$> rest).*1 = rest.*1) as Hfst.
  { intros g. rewrite <- list_fmap_compose. by apply list_fmap_ext. }
  assert (x ∈ needed.*1) as Hx by (rewrite Hperm; set_solver).
  assert (∀ y, y ∈ rest.*1 → y ∈ needed.*1) as Hsub by (intros y; rewrite Hperm; set_solver).
  assert (NoDup (key <$> x :: rest.*1)) as HK by (by rewrite Hperm in K).
  assert (∀ y, y ∈ rest.*1 → key y ≠ key x) as Hne.
  { intros y Hy E. cbn in HK. apply NoDup_cons in HK as [HK _]. apply HK. rewrite <- E.
    by apply list_elem_of_fmap_2. }
  pose proof (P x Hx) as Px. cbn in HK. apply NoDup_cons in HK as [_ HK]. clear K.
  revert Px Hne. destruct (key x) as [kp kn] eqn:Hkx. intros Px Hne. cbn [fst snd] in *.
  split; rewrite ?(Hfst (λ b, bc_link b (to_string_lossy kp) kn a)).
  - intros y b' ([y' b1] & [= -> ->] & Hin)%list_elem_of_fmap. cbn [fst snd] in *.
    destruct (R y' b1) as (b0 & Hp & Hres & Hr); [rewrite Hperm; set_solver|].
    exists b0. split_and!; [done..|]. intros f n. rewrite link_refs, Hr, lib_get_insert.
    destruct Hp as (c & _ & _ & _ & Hn). destruct (decide ((path_new f, n) = (kp, kn))) as [[= <- <-]|E].
    + split; [|by intros []]. intros [[Hb Hl] Hc]. destruct Hc. by rewrite (Hn f n Hb).
    + split; [by intros [[? ?] ?]|]. intros [Hb Hl]. split_and!; [done..|].
      intros [= -> ->]. apply E. by rewrite Px.
  - done.
  - intros y Hy. rewrite lib_get_insert, decide_False by (by apply Hne). by apply F, Hsub.
  - intros y Hy. by apply P, Hsub.
  - intros y z Hy Hyz Hz. rewrite lib_get_insert in Hz.
    destruct (decide (key z = (kp, kn))) as [|Hk]; [done|].
    pose proof (A y z (Hsub y Hy) Hyz Hz) as Hin. rewrite Hperm in Hin. cbn in Hin.
    apply elem_of_cons in Hin as [-> |Hin]; done.
Qed.
Definition link_one b (r : string * string * Address) : B := bc_link b r.1.1 r.1.2 r.2.

(** The libraries in the order of deployment, with their codes: what later
    ones are linked with. *)
Definition links_of (order : list Id) (codes : list Bytes) : list (string * string * Address) :=
  zip_with (λ x code, (to_string_lossy (fst (key x)), snd (key x),
                       create2_from_code sender salt code)) order codes.

(** [libs'] and [codes] deploy the libraries [needed] in an order in which each
    refers only to libraries that have an address before it. *)
Definition deployed (needed : list (Id * B)) libs libs' (order : list Id) (codes : list Bytes) :
    Prop :=
  order ≡ₚ needed.*1 ∧ length codes = length order ∧
  (∀ k, k ∉ key <$> order → lib_get libs' k = lib_get libs k) ∧
  ∀ i x b, order !! i = Some x → (x, b) ∈ needed → ∃ code, codes !! i = Some code ∧
    bc_bytes (foldl link_one b (take i (links_of order codes))) = Some code ∧
    lib_get libs' (key x) = Some (to_checksum (create2_from_code sender salt code)) ∧
    ∀ y, edge l x y → lib_get libs (key y) = None → y ∈ take i order.

Definition cyclic (needed : list (Id * B)) : Prop :=
  ∃ xs, xs ≠ [] ∧ xs ⊆ needed.*1 ∧ ∀ x, x ∈ xs → ∃ y, y ∈ xs ∧ edge l x y.

(** A library whose code is linked refers to libraries with addresses only. *)
Lemma linked_edges needed libs x b y :
  pending needed libs → (x, b) ∈ needed → is_unlinked b = false → edge l x y →
  lib_get libs (key y) ≠ None.
Proof.
  intros Hp Hin Hu (c & f & n & Hc & Hr & Hf) Hnone.
  destruct (pe_refs _ _ Hp x b Hin) as (b0 & (c' & Hc' & _ & Hrefs & _) & _ & Hb).
  rewrite Hc in Hc'. injection Hc' as <-. apply find_Some in Hf as (_ & _ & Hk).
  assert (is_unlinked b = true) as E; [|congruence].
  apply unlinked_refs. exists f, n. apply Hb. rewrite <- Hk. split; [by apply Hrefs|done].
Qed.

Lemma unlinked_edge needed libs x b :
  pending needed libs → (x, b) ∈ needed → is_unlinked b = true →
  ∃ y, y ∈ needed.*1 ∧ edge l x y.
Proof.
  intros Hp Hin Hu. destruct (pe_refs _ _ Hp x b Hin) as (b0 & Hpl & Hres & Hb).
  apply unlinked_refs in Hu as (f & n & Hu). destruct (proj1 (Hb f n) Hu) as [Hr Hn].
  destruct (plain_resolved x b0 f n Hpl Hres Hr) as (y & Hxy & Hk).
  exists y. split; [|done]. eapply (pe_all _ _ Hp); [|done|by rewrite Hk].
  apply list_elem_of_fmap. by exists (x, b).
Qed.

(** One library deployed, then the rest. *)
Lemma deployed_cons needed libs libs' i x b code order codes :
  pending needed libs → needed !! i = Some (x, b) → is_unlinked b = false →
  bc_bytes b = Some code →
  let a := create2_from_code sender salt code in
  deployed ((λ p, (fst p, bc_link (snd p) (to_string_lossy (fst (key x))) (snd (key x)) a)) <$>
              swap_remove i needed)
    (lib_insert (key x) (to_checksum a) libs) libs' order codes →
  deployed needed libs libs' (x :: order) (code :: codes).
Proof.
  intros Hp Hi Hu Hc a (Hord & Hlen & Hkeep & Hall).
  pose proof (swap_remove_perm needed i (x, b) Hi) as Hperm. symmetry in Hperm.
  set (rest := swap_remove i needed) in *.
  assert (order ≡ₚ rest.*1) as Hord'.
  { rewrite Hord, <- list_fmap_compose. erewrite list_fmap_ext; [done|]. done. }
  pose proof (pe_keys _ _ Hp) as HK. rewrite Hperm in HK. cbn in HK. rewrite <- Hord' in HK.
  apply NoDup_cons in HK as [HxK HK].
  assert ((x, b) ∈ needed) as Hin by (by eapply list_elem_of_lookup_2).
  assert (∀ y z, y ∈ needed.*1 → z ∈ needed.*1 → key y = key z → y = z) as Hinj.
  { intros y z Hy Hz E. apply list_elem_of_lookup in Hy as [j Hj].
    apply list_elem_of_lookup in Hz as [k Hk].
    assert (j = k) as ->; [|congruence].
    apply (NoDup_lookup (key <$> needed.*1) j k (key y)); [apply Hp|..];
      rewrite list_lookup_fmap; [by rewrite Hj|by rewrite Hk, E]. }
  split_and!.
  - rewrite Hord', Hperm. done.
  - cbn. by rewrite Hlen.
  - intros k Hk. cbn in Hk. rewrite Hkeep by set_solver. rewrite lib_get_insert, decide_False; set_solver.
  - intros [|j] y b' Hy Hyb; cbn in Hy.
    + injection Hy as ->. exists code. assert (b' = b) as ->.
      { apply list_elem_of_lookup in Hyb as [k Hk].
        assert (k = i) as ->; [|congruence].
        apply (NoDup_lookup (key <$> needed.*1) k i (key y)); [apply Hp|..];
          rewrite !list_lookup_fmap; [by rewrite Hk|by rewrite Hi]. }
      split_and!; [done|done| |].
      * rewrite Hkeep by done. by rewrite lib_get_insert, decide_True.
      * intros z Hyz Hz. by destruct (linked_edges needed libs y b z).
    + assert (y ∈ order) as Hyo by (by eapply list_elem_of_lookup_2).
      assert (y ≠ x) as Hne by (intros ->; apply HxK; by apply list_elem_of_fmap_2).
      assert ((y, b') ∈ rest) as Hyr.
      { rewrite Hperm in Hyb. apply elem_of_cons in Hyb as [[= -> ->]|]; done. }
      destruct (Hall j y (bc_link b' (to_string_lossy (fst (key x))) (snd (key x)) a) Hy)
        as (code' & Hcode & Hbytes & Hlib & Hedges).
      { apply list_elem_of_fmap. by exists (y, b'). }
      exists code'. split_and!; [done|done|done|].
      intros z Hyz Hz. cbn [take]. destruct (decide (key z = key x)) as [E|E].
      * assert (z = x) as ->; [|set_solver]. apply Hinj; [|rewrite Hperm; set_solver|done].
        eapply (pe_all _ _ Hp); [|done|done]. apply list_elem_of_fmap. by exists (y, b').
      * apply elem_of_cons. right. apply Hedges; [done|].
        by rewrite lib_get_insert, decide_False.
Qed.

Lemma deploy_loop_spec fuel needed libs codes :
  pending needed libs → length needed ≤ fuel →
  (∃ libs' order new, deploy_loop sender salt fuel l needed libs codes =
       Some (Ok (mk_link_output libs' (codes ++ new))) ∧ deployed needed libs libs' order new) ∨
  (deploy_loop sender salt fuel l needed libs codes = Some (Err CyclicDependency) ∧ cyclic needed).
Proof.
  revert needed libs codes. induction fuel as [|fuel IH]; intros needed libs codes Hp Hf.
  { destruct needed; [|cbn in Hf; lia]. left. exists libs, [], []. rewrite app_nil_r.
    split; [done|]. split_and!; [done..|]. intros i x b. by rewrite lookup_nil. }
  destruct needed as [|p0 needed0]; [|set (needed := p0 :: needed0) in *].
  { left. exists libs, [], []. rewrite app_nil_r.
    split; [done|]. split_and!; [done..|]. intros i x b. by rewrite lookup_nil. }
  assert (deploy_loop sender salt (S fuel) l needed libs codes =
    match find_deployable needed with
    | None => Some (Err CyclicDependency)
    | Some (index, (id, b)) =>
        code ← bc_bytes b;
        let address := create2_from_code sender salt code in
        let '(file, name) := key id in
        deploy_loop sender salt fuel l
          ((λ p, (fst p, bc_link (snd p) (to_string_lossy file) name address)) <$>
             swap_remove index needed)
          (lib_insert (file, name) (to_checksum address) libs) (codes ++ [code])
    end) as -> by done.
  destruct (find_deployable needed) as [[i [x b]]|] eqn:Hd.
  - apply find_deployable_Some in Hd as [Hi Hu]. cbn in Hu.
    destruct (linked_bytes b Hu) as [code Hc]. rewrite Hc. cbn [mbind option_bind].
    set (a := create2_from_code sender salt code) in *.
    pose proof (pending_step needed libs i x b a Hp Hi) as Hp'.
    pose proof (λ libs' order new, deployed_cons needed libs libs' i x b code order new Hp Hi Hu Hc)
      as Hcons. cbv zeta in Hcons. fold a in Hcons.
    destruct (key x) as [file name] eqn:Hk. cbn [fst snd] in *.
    destruct (IH _ _ (codes ++ [code]) Hp') as [(libs' & order & new & E & Hdep)|[E Hcyc]].
    { rewrite length_fmap. pose proof (swap_remove_perm needed i (x, b) Hi) as Hl.
      apply Permutation_length in Hl. cbn in Hl, Hf. lia. }
    + left. exists libs', (x :: order), (code :: new). rewrite E, <- app_assoc. split; [done|].
      by apply Hcons.
    + right. rewrite E. split; [done|]. destruct Hcyc as (xs & Hne & Hsub & Hxs).
      exists xs. split_and!; [done| |done]. intros y Hy. apply Hsub in Hy.
      apply list_elem_of_fmap in Hy as ([? b'] & -> & Hy).
      apply list_elem_of_fmap in Hy as ([y1 b1] & [= -> ->] & Hy). cbn [fst].
      pose proof (swap_remove_perm needed i (x, b) Hi) as Hl.
      apply list_elem_of_fmap. exists (y1, b1). split; [done|]. rewrite <- Hl. set_solver.
  - right. split; [done|]. exists (needed.*1). split_and!; [done|done|].
    intros x ([x' b] & -> & Hin)%list_elem_of_fmap.
    pose proof (find_deployable_None needed Hd (x', b) Hin). by eapply unlinked_edge.
Qed.
(** An order of deployment excludes cycles. *)
Lemma deployed_acyclic needed libs libs' order codes :
  (∀ x, x ∈ needed.*1 → lib_get libs (key x) = None) →
  deployed needed libs libs' order codes → ¬ cyclic needed.
Proof.
  intros Hfree (Hord & _ & _ & Hall) (xs & Hne & Hsub & Hxs).
  assert (∀ n i x, i < n → order !! i = Some x → x ∉ xs) as Hno.
  { induction n as [|n IH]; intros i x Hi Hx Hin; [lia|].
    destruct (Hxs x Hin) as (y & Hy & Hxy).
    pose proof (Hsub x Hin) as Hx'. apply list_elem_of_fmap in Hx' as ([x' b] & -> & Hb).
    destruct (Hall i x' b Hx Hb) as (_ & _ & _ & _ & He).
    pose proof (He y Hxy (Hfree y (Hsub y Hy))) as Ht.
    apply list_elem_of_lookup in Ht as [j Hj]. apply lookup_take_Some in Hj as [Hj Hlt].
    apply (IH j y); [lia|done|done]. }
  destruct xs as [|x xs]; [done|].
  assert (x ∈ order) as Hx by (rewrite Hord; apply Hsub; set_solver).
  apply list_elem_of_lookup in Hx as [i Hi]. apply (Hno (S i) i x); [lia|done|set_solver].
Qed.
End create2.

(** *** From the collected libraries to the loop *)

Lemma edge_version x y : edge l x y → id_version y = id_version x.
Proof. intros (c & f & n & _ & _ & (_ & ? & _)%find_Some). done. Qed.

(** A library reached from [t] was found under a reference of an artifact. *)
Lemma reached_found t y :
  tc (edge l) t y → ∃ x f n c, (x = t ∨ tc (edge l) t x) ∧ get_contract l x = Some c ∧
    (f, n) ∈ reference_pairs c ∧
    find_artifact_id_by_library_path l f n (Some (id_version t)) = Some y.
Proof.
  intros Ht. induction Ht as [t y (c & f & n & Hc & Hin & Hf)|t z y Htz Hzy IH].
  { exists t, f, n, c. split_and!; try done. by left. }
  destruct IH as (x & f & n & c & Hx & Hc & Hin & Hf). exists x, f, n, c.
  split_and!; [|done|done|by rewrite <- (edge_version t z)].
  right. destruct Hx as [->|Hx]; [by apply tc_once|by eapply tc_l].
Qed.

Lemma reached_key_inj t y y' : tc (edge l) t y → tc (edge l) t y' → key y = key y' → y = y'.
Proof.
  intros (x & f & n & c & _ & _ & _ & Hf)%reached_found (x' & f' & n' & c' & _ & _ & _ & Hf')%reached_found Hk.
  pose proof (find_Some _ _ _ _ _ Hf) as (Hy & Hv & Hk1).
  pose proof (find_Some _ _ _ _ _ Hf') as (Hy' & Hv' & Hk2).
  rewrite Hk1, Hk2 in Hk. injection Hk as Hp <-.
  assert (find_artifact_id_by_library_path l f n (Some (id_version t)) =
    find_artifact_id_by_library_path l f' n (Some (id_version t))) as E; [|congruence].
  unfold find_artifact_id_by_library_path. generalize ((contracts l).*1). intros ks.
  induction ks as [|k ks IH]; [done|]. cbn. rewrite IH. by rewrite Hp.
Qed.

(** The map of libraries is one: each key once, and written in the form paths
    are printed. *)
Definition libs_proper libs : Prop :=
  ∀ file inner, (file, inner) ∈ libs →
    bm_get path_cmp file libs = Some inner ∧ path_new (to_string_lossy file) = file ∧
    ∀ n a, (n, a) ∈ inner → bm_get String.compare n inner = Some a.

Lemma names_ref_lib_get libs f n :
  libs_proper libs → to_string_lossy (path_new f) = f →
  names_ref (lib_entries libs) f n ↔ lib_get libs (path_new f, n) ≠ None.
Proof.
  intros Hp Hf. split.
  - intros (file & a & Hin & Hfile). apply elem_of_lib_entries in Hin as (inner & Hin & Hn).
    destruct (Hp file inner Hin) as (H1' & H2' & H3'). rewrite <- Hfile, H2'.
    unfold lib_get. cbn. rewrite H1'. cbn. by rewrite (H3' n a Hn).
  - intros Hn. destruct (lib_get libs (path_new f, n)) as [a|] eqn:E; [|done].
    exists (path_new f), a. split; [by apply lib_get_entry|done].
Qed.

Lemma prelink_spec ids libs :
  libs_parse libs → (∀ x, x ∈ ids → ∃ b, plain x b) →
  ∃ needed, prelink l ids libs = Some needed ∧ needed.*1 = ids ∧
    ∀ x b, (x, b) ∈ needed → ∃ b0, plain x b0 ∧
      ∀ f n, has_ref b f n ↔ has_ref b0 f n ∧ ¬ names_ref (lib_entries libs) f n.
Proof.
  intros Hparse. induction ids as [|x ids IH]; intros Hp.
  { exists []. split_and!; [done..|]. by intros ? ? ?%elem_of_nil. }
  destruct (Hp x) as [b0 Hb0]; [set_solver|]. pose proof Hb0 as (c & Hc & Hb & _ & _).
  destruct (link_loop_ok (lib_entries libs) c b0 Hparse Hb) as (c' & b' & E & Hb' & Hr).
  destruct IH as (needed & E' & Hfst & Hall); [intros; apply Hp; set_solver|].
  exists ((x, b') :: needed). cbn. unfold link. rewrite Hc, E, Hb'. cbn. rewrite E'. cbn.
  split_and!; [done|by rewrite Hfst|].
  intros y b [[= -> ->]|Hy]%elem_of_cons; [by exists b0|by apply Hall].
Qed.

Definition missing libs deps : list Id :=
  filter (λ id, lib_get libs (key id) = None) deps.

Lemma pending_start libs t deps needed :
  libs_parse libs → libs_proper libs → closed l deps → resolved l t →
  (∀ y, y ∈ deps ↔ tc (edge l) t y) → NoDup deps →
  (∀ x, x = t ∨ x ∈ deps → ∃ b, plain x b) →
  prelink l (missing libs deps) libs = Some needed → pending needed libs.
Proof.
  intros Hparse Hprop Hc Ht Hdeps Hnd Hplain Hpre.
  destruct (prelink_spec (missing libs deps) libs Hparse) as (needed' & E & Hfst & Hall).
  { intros x [_ Hx]%list_elem_of_filter. apply Hplain. by right. }
  rewrite Hpre in E. injection E as <-.
  assert (∀ x, x ∈ needed.*1 → x ∈ deps ∧ lib_get libs (key x) = None) as Hin.
  { intros x. rewrite Hfst. by intros [? ?]%list_elem_of_filter. }
  split.
  - intros x b Hx. destruct (Hall x b Hx) as (b0 & Hb0 & Hr). exists b0.
    assert (x ∈ deps) as Hd by (apply (Hin x), list_elem_of_fmap; by exists (x, b)).
    split_and!; [done|by apply Hc|]. intros f n. rewrite Hr.
    split; intros [Hf Hn]; (split; [done|]).
    + destruct Hb0 as (c & _ & _ & _ & Hprint). rewrite names_ref_lib_get in Hn by eauto.
      by apply dec_stable.
    + destruct Hb0 as (c & _ & _ & _ & Hprint). rewrite names_ref_lib_get by eauto. naive_solver.
  - rewrite Hfst. apply NoDup_fmap_2_strong.
    + intros y y' [_ Hy]%list_elem_of_filter [_ Hy']%list_elem_of_filter.
      by apply reached_key_inj with t; apply Hdeps.
    + by apply NoDup_filter.
  - intros x Hx. by apply Hin.
  - intros x Hx. destruct (Hin x Hx) as [Hd _]. apply Hdeps in Hd.
    apply reached_found in Hd as (z & f & n & c & Hz & Hcz & Hf & Hfind).
    apply find_Some in Hfind as (_ & _ & ->). cbn.
    destruct (Hplain z) as (bz & c' & Hc' & _ & Hrefs & Hprint).
    { destruct Hz as [->|Hz]; [by left|right; by apply Hdeps]. }
    rewrite Hcz in Hc'. injection Hc' as <-. by rewrite (Hprint f n) by (by apply Hrefs).
  - intros x y Hx Hxy Hy. destruct (Hin x Hx) as [Hd _]. rewrite Hfst.
    apply list_elem_of_filter. split; [done|]. by eapply Hc.
Qed.
End deploy.

(** Linking with addresses computed from a nonce succeeds when the
    libraries are found and the provided addresses can be read.  Every needed
    library has an address, provided ones keep theirs, and the [i]-th code to
    deploy is the fully linked code of a library whose address everything is
    linked with is the one a deployment at nonce [nonce + i] gets.  No library
    is deployed twice, and the targets are fully linked with the result. *)
Theorem nonce_linking {Id Version B : Type} `{ArtifactIds Id Version} `{BytecodeLib B} `{!LinkLaws}
    (l : Linker.t Id B) (chk : bool) (sender : Address) (nonce : Z) (libs : Libraries)
    (targets needed : list Id) :
  Linker.collect_all l targets [] = Some (Ok needed) →
  libs_parse libs → (nonce + Z.of_nat (length (Linker.contracts l)) ≤ u64_max)%Z →
  (∀ x, x ∈ targets ∨ x ∈ needed → ∃ b, plain l x b) →
  let key := Linker.convert_artifact_id_to_lib_path l in
  ∃ out deploy,
    Linker.link_with_nonce_or_address chk sender l libs nonce targets = Some (Ok out) ∧
    NoDup (key <$> deploy) ∧ length (libs_to_deploy out) = length deploy ∧
    (∀ x, x ∈ needed → is_Some (lib_get (libraries out) (key x))) ∧
    (∀ k a, lib_get libs k = Some a → lib_get (libraries out) k = Some a) ∧
    (∀ i x, deploy !! i = Some x → x ∈ needed ∧ lib_get libs (key x) = None ∧
       lib_get (libraries out) (key x) = Some (to_checksum (create sender (nonce + Z.of_nat i))) ∧
       ∃ c b, Linker.link l x (libraries out) = Ok c ∧ bytecode c = Some b ∧
         is_unlinked b = false ∧ bc_bytes b = libs_to_deploy out !! i) ∧
    (∀ t, t ∈ targets → ∃ c b, Linker.link l t (libraries out) = Ok c ∧ bytecode c = Some b ∧
       is_unlinked b = false).
Proof.
  intros Hcol Hparse Hnonce Hplain key.
  destruct (collect_all_post l targets []) as [(deps & E & Hs & Hc & Ht & Hd)|(e & ? & ? & E & _)];
    [by intros y ?%elem_of_nil|constructor| |congruence].
  rewrite Hcol in E. injection E as <-.
  pose proof (collected_length l needed Hc Hs) as Hlen.
  destruct (assign_spec l chk sender needed libs nonce ltac:(lia) Hparse)
    as (libs' & deploy & Ea & P1 & P2 & P3 & P4 & P5 & P6).
  assert (∀ x, x ∈ targets ∨ x ∈ needed → ∃ c' b' code, Linker.link l x libs' = Ok c' ∧
    bytecode c' = Some b' ∧ is_unlinked b' = false ∧ bc_bytes b' = Some code) as Hlink.
  { intros x Hx. destruct (Hplain x Hx) as [b Hb].
    assert (resolved l x) by (destruct Hx as [Hx|Hx]; [by apply Ht|by apply Hc]).
    eapply link_complete; [done..|]. intros y Hxy. apply P5.
    destruct Hx as [Hx|Hx]; [|by apply (Hc x Hx)]. apply Hd. right. exists x.
    split; [done|by apply tc_once]. }
  destruct (link_codes_spec l deploy libs') as (codes & Ec & Hl & Hi).
  { intros x Hx. apply Hlink. right. by eapply elem_of_sublist. }
  exists (mk_link_output libs' codes), deploy. unfold Linker.link_with_nonce_or_address.
  rewrite Hcol. cbn. rewrite Ea. cbn. rewrite Ec. cbn. split_and!; try done.
  - intros i x Hx. destruct (P6 i x Hx) as [Hno Hyes]. split_and!; [|done|done|by apply Hi].
    eapply elem_of_sublist; [by eapply list_elem_of_lookup_2|done].
  - intros t Hin. destruct (Hlink t (or_introl Hin)) as (c & b & code & ? & ? & ? & _). by exists c, b.
Qed.


(** ** Samples *)

(** An id is a number; its library is in the file named after it. *)
Definition sample_id_name (i : Z) : string :=
  match i with 0 => "Main" | 1 => "A" | 2 => "B.0.8.23" | _ => "C" end%Z.
Definition sample_id_file (i : Z) : string :=
  match i with 0 => "src/Main.sol" | 1 => "src/A.sol" | 2 => "src/B.sol" | _ => "src/C.sol" end%Z.

#[local] Instance sample_ids_ord : OrdCmp Z.compare.
Proof.
  split.
  - intros x y. apply Z.compare_antisym.
  - intros x y z. rewrite !Z.compare_lt_iff. lia.
  - by intros x y z ->%Z.compare_eq.
Qed.

#[local] Instance sample_ids : ArtifactIds Z unit := {|
  id_eq_dec := _;
  version_eq_dec' := _;
  id_cmp := Z.compare;
  id_ord := sample_ids_ord;
  id_cmp_eq := Z.compare_eq;
  id_name := sample_id_name;
  id_source i := path_new ("/work/" +:+ sample_id_file i);
  id_version _ := tt |}.

(** Bytecode: its references and its bytes so far. *)
Definition SampleCode : Type := list (string * list string) * Bytes.

Definition sample_link (b : SampleCode) (f n : string) (a : Address) : SampleCode :=
  ((λ p, (fst p, filter (λ m, (fst p, m) ≠ (f, n)) (snd p))) <$> fst b, snd b ++ a).

Definition sample_unlinked (b : SampleCode) : bool :=
  bool_decide (Exists (λ p, snd p ≠ []) (fst b)).

#[local] Instance sample_bytecode : BytecodeLib SampleCode := {|
  link_references b := fst b;
  bc_link := sample_link;
  is_unlinked := sample_unlinked;
  bc_bytes b := if sample_unlinked b then None else Some (snd b);
  address_from_str s := match s with String a EmptyString => Some [Z.of_N (Ascii.N_of_ascii a)]
                        | _ => None end;
  to_checksum a := match a with [z] => String (Ascii.ascii_of_N (Z.to_N z)) EmptyString | _ => "" end;
  create sender nonce := [nonce mod 256]%Z;
  create2_from_code sender salt code := [Z.of_nat (length code)] |}.

#[local] Instance sample_link_laws : LinkLaws.
Proof.
  split.
  - intros b f n a f' n'. unfold has_ref. cbn. split.
    + intros (names & ([g ms] & [= -> ->] & Hin)%list_elem_of_fmap & [Hne Hn]%list_elem_of_filter).
      cbn in *. split; [by exists ms|done].
    + intros [(names & Hin & Hn) Hne]. exists (filter (λ m, (f', m) ≠ (f, n)) names). split.
      * apply list_elem_of_fmap. by exists (f', names).
      * by apply list_elem_of_filter.
  - intros b. cbn. unfold sample_unlinked. rewrite bool_decide_eq_true, Exists_exists. split.
    + intros ([f [|n ns]] & Hin & Hne); [done|]. exists f, n, (n :: ns). split; [done|set_solver].
    + intros (f & n & names & Hin & Hn). exists (f, names). split; [done|]. cbn. intros ->. by apply elem_of_nil in Hn.
  - intros b. cbn. intros ->. by eauto.
  - intros sender nonce. cbn. do 3 f_equal.
    rewrite Ascii.N_ascii_embedding; pose proof (Z.mod_pos_bound nonce 256 ltac:(lia)); [|lia].
    rewrite Z2N.id; lia.
Qed.

Definition sample_contract (refs : list (string * list string)) : Contract SampleCode :=
  mk_contract (Some (refs, [])) (Some (Some (refs, []))).

Definition sample_linker (b_refs : list (string * list string)) : Linker.t Z SampleCode :=
  Linker.mk (path_new "/work")
    [(0, sample_contract [("src/A.sol", ["A"])]); (1, sample_contract [("src/B.sol", ["B"])]);
     (2, sample_contract b_refs)]%Z.

Lemma sample_plain l x refs :
  Linker.get_contract l x = Some (sample_contract refs) →
  (∀ f n, (f, n) ∈ Linker.reference_pairs (sample_contract refs) ↔
     ∃ names, (f, names) ∈ refs ∧ n ∈ names) →
  Forall (λ p, to_string_lossy (path_new (fst p)) = fst p) refs →
  ∃ b, plain l x b.
Proof.
  intros Hc Hr Hf. exists (refs, []), (sample_contract refs). split_and!; [done..|].
  intros f n (names & Hin & _). by eapply (proj1 (Forall_forall _ _) Hf (f, names)).
Qed.

Lemma sample_plain_one l x f n :
  Linker.get_contract l x = Some (sample_contract [(f, [n])]) →
  to_string_lossy (path_new f) = f → ∃ b, plain l x b.
Proof.
  intros Hc Hf. eapply sample_plain; [done| |by repeat constructor].
  intros f' n'. cbn. rewrite (proj2 (string_compare_eq f f) eq_refl). cbn.
  rewrite list_elem_of_singleton. split.
  - intros [= -> ->]. exists [n]. by rewrite !list_elem_of_singleton.
  - intros (names & Hin & Hn). apply list_elem_of_singleton in Hin as [= -> ->].
    by apply list_elem_of_singleton in Hn as ->.
Qed.

Lemma sample_plain_none l x :
  Linker.get_contract l x = Some (sample_contract []) → ∃ b, plain l x b.
Proof.
  intros Hc. eapply sample_plain; [done| |constructor].
  intros f n. cbn. split; [by intros ?%elem_of_nil|]. by intros (? & ?%elem_of_nil & _).
Qed.

Lemma sample_all_plain x : x = 0%Z ∨ x ∈ [1; 2]%Z → ∃ b, plain (sample_linker []) x b.
Proof.
  intros [-> |[-> |[-> |?%elem_of_nil]%elem_of_cons]%elem_of_cons]; [..|done].
  - by eapply sample_plain_one.
  - by eapply sample_plain_one.
  - by eapply sample_plain_none.
Qed.

(** The library [B] is deployed after [A] got its address, at the next nonce. *)
Lemma nonce_linking_witness :
  ∃ out, Linker.link_with_nonce_or_address true [] (sample_linker []) [] 7 [0%Z] = Some (Ok out) ∧
    lib_get (libraries out) (path_new "src/B.sol", "B") = Some (to_checksum [8%Z]).
Proof.
  destruct (nonce_linking (sample_linker []) true [] 7 [] [0%Z] [1; 2]%Z)
    as (out & deploy & E & _ & _ & _ & _ & _ & _).
  - by vm_compute.
  - intros file name a Ha. by apply elem_of_nil in Ha.
  - done.
  - intros x [Hx%list_elem_of_singleton|Hx]; apply sample_all_plain; auto.
  - exists out. split; [done|]. vm_compute in E. injection E as <-. by vm_compute.
Defined.


(** ** Observation

    When the creation code and the deployed code refer to libraries of the same
    file, only those of the deployed code are seen: a library that only the
    constructor uses is not collected, and its reference stays in the code. *)
Lemma constructor_library_missed :
  let c := mk_contract (Some ([("src/A.sol", ["A"; "B"])], []))
             (Some (Some ([("src/A.sol", ["A"])], []))) in
  Linker.reference_pairs (B := SampleCode) c = [("src/A.sol", "A")] ∧
  ∀ address, sample_unlinked (sample_link ([("src/A.sol", ["A"; "B"])], []) "src/A.sol" "A" address)
    = true.
Proof. split; [by vm_compute|]. intros address. by vm_compute. Qed.
