(* ===== verification/FoldedTrace.v ===== *)
(** Folded stack traces (evm/traces/src/folded_stack_trace.rs): from the arena
    of calls to the lines of a flame graph.

    The node and step types are those of the tracer, with the fields that are
    read.  An [i64] operation that overflows panics when overflow checks are on
    ([None]) and wraps otherwise. *)
From S2P Require Import Prelude Paths.
From stdpp Require Import pretty.

(** ** The builder *)

Module TraceEntry.
Record t := mk { names : list string; gas : Z }.
End TraceEntry.

Definition i64_op (overflow_checks : bool) (x : Z) : option Z :=
  if ((- 2 ^ 63 <=? x) && (x <? 2 ^ 63))%Z then Some x
  else if overflow_checks then None else Some (as_i64 x).

Module FoldedStackTraceBuilder.
Record t := mk { traces : list TraceEntry.t; exits : nat }.

Definition new : t := mk [] 0.

(** The loop of [enter]: [names.pop()] once per pending exit. *)
Fixpoint pop_names (exits : nat) (names : list string) : list string :=
  match exits with
  | O => names
  | S n => pop_names n (match vec_pop names with Some (_, rest) => rest | None => names end)
  end.

Definition enter (b : t) (label : string) (gas : Z) : t :=
  let names := match last (traces b) with Some entry => TraceEntry.names entry | None => [] end in
  mk (traces b ++ [TraceEntry.mk (pop_names (exits b) names ++ [label]) gas]) 0.

Definition exit (b : t) : t := mk (traces b) (S (exits b)).

Fixpoint exit_n (n : nat) (b : t) : t :=
  match n with O => b | S n => exit_n n (exit b) end.

(** Subtract [gas] from the last entry whose names are [parent]. *)
Fixpoint subtract_rev (chk : bool) (parent : list string) (gas : Z) (rev_done : list TraceEntry.t) :
    option (list TraceEntry.t) :=
  match rev_done with
  | [] => Some []
  | e :: rest =>
      if decide (TraceEntry.names e = parent) then
        gas' ← i64_op chk (TraceEntry.gas e - gas);
        Some (TraceEntry.mk (TraceEntry.names e) gas' :: rest)
      else rest ← subtract_rev chk parent gas rest; Some (e :: rest)
  end.

Definition subtract_entry (chk : bool) (done_ : list TraceEntry.t) (e : TraceEntry.t) :
    option (list TraceEntry.t) :=
  let names := TraceEntry.names e in
  if decide (1 < length names) then
    reverse <$> subtract_rev chk (take (length names - 1) names) (TraceEntry.gas e) (reverse done_)
  else Some done_.

(** The loop over [split_at_mut(i)]: [done_] is the left part. *)
Fixpoint subtract_loop (chk : bool) (done_ todo : list TraceEntry.t) : option (list TraceEntry.t) :=
  match todo with
  | [] => Some done_
  | e :: todo => done_ ← subtract_entry chk done_ e; subtract_loop chk (done_ ++ [e]) todo
  end.

Definition subtract_children (chk : bool) (b : t) : option t :=
  traces ← subtract_loop chk [] (traces b); Some (mk traces (exits b)).

Definition format_entry (e : TraceEntry.t) : string :=
  String.concat ";" (TraceEntry.names e) +:+ " " +:+ pretty (TraceEntry.gas e).

Definition build_without_subtraction (b : t) : list string := format_entry <$> traces b.

Definition build (chk : bool) (b : t) : option (list string) :=
  build_without_subtraction <$> subtract_children chk b.
End FoldedStackTraceBuilder.
Import FoldedStackTraceBuilder.

(** ** The call trace *)

Inductive DecodedTraceStep :=
  | InternalCall (func_name : string) (step_end_idx : nat)
  | Line (s : string).

Record CallTraceStep := mk_step { step_gas_used : Z; step_decoded : option DecodedTraceStep }.

Inductive TraceMemberOrder :=
  | OrderLog (idx : nat)
  | OrderCall (idx : nat)
  | OrderStep (idx : nat).

(** [selector] is [node.selector()] in hexadecimal, [signature] that of the
    decoded call data. *)
Module CallTraceNode.
Record t := mk { is_any_create : bool; label : option string;
  selector : option string; signature : option string; gas_used : Z;
  steps : list CallTraceStep; children : list nat; ordering : list TraceMemberOrder }.
End CallTraceNode.

Definition func_name (node : CallTraceNode.t) : string :=
  if CallTraceNode.is_any_create node then "new " +:+ default "Contract" (CallTraceNode.label node)
  else
    let signature := default (default "fallback" (CallTraceNode.selector node)) (CallTraceNode.signature node) in
    match CallTraceNode.label node with
    | Some label => label +:+ "." +:+ signature
    | None => signature
    end.

(** ** Processing it *)

Module EvmFoldedStackTraceBuilder.
(** Exits all internal calls that end before [step_idx]. *)
Definition exit_previous_steps (b : FoldedStackTraceBuilder.t) (step_exits : list nat)
    (step_idx : nat) : FoldedStackTraceBuilder.t * list nat :=
  let remaining := filter (λ number, step_idx < number) step_exits in
  (exit_n (length step_exits - length remaining) b, remaining).

(** [gas_used] are [u64]; an index out of range panics. *)
Definition process_step (b : FoldedStackTraceBuilder.t) (steps : list CallTraceStep)
    (step_idx : nat) (step_exits : list nat) : option (FoldedStackTraceBuilder.t * list nat) :=
  step ← steps !! step_idx;
  match step_decoded step with
  | Some (InternalCall name step_end_idx) =>
      last_step ← steps !! step_end_idx;
      let gas_used := saturating_sub (step_gas_used last_step) (step_gas_used step) in
      Some (enter b name (as_i64 gas_used), step_exits ++ [step_end_idx])
  | Some (Line _) | None => Some (b, step_exits)
  end.

Section orders.
Context (process : nat → FoldedStackTraceBuilder.t → option FoldedStackTraceBuilder.t).

Fixpoint process_orders (node : CallTraceNode.t) (orders : list TraceMemberOrder)
    (b : FoldedStackTraceBuilder.t) (step_exits : list nat) :
    option (FoldedStackTraceBuilder.t * list nat) :=
  match orders with
  | [] => Some (b, step_exits)
  | OrderCall child_idx :: orders =>
      child_node_idx ← CallTraceNode.children node !! child_idx;
      b ← process child_node_idx b;
      process_orders node orders b step_exits
  | OrderStep step_idx :: orders =>
      let '(b, step_exits) := exit_previous_steps b step_exits step_idx in
      '(b, step_exits) ← process_step b (CallTraceNode.steps node) step_idx step_exits;
      process_orders node orders b step_exits
  | OrderLog _ :: orders => process_orders node orders b step_exits
  end.
End orders.

(** [fuel] bounds the depth of the calls. *)
Fixpoint process_call_node (fuel : nat) (nodes : list CallTraceNode.t) (idx : nat)
    (b : FoldedStackTraceBuilder.t) : option FoldedStackTraceBuilder.t :=
  match fuel with
  | O => None
  | S fuel =>
      node ← nodes !! idx;
      let b := enter b (func_name node) (as_i64 (CallTraceNode.gas_used node)) in
      '(b, step_exits) ← process_orders (process_call_node fuel nodes) node (CallTraceNode.ordering node) b [];
      Some (exit (exit_n (length step_exits) b))
  end.

Definition build_arena (chk : bool) (nodes : list CallTraceNode.t) : option (list string) :=
  b ← process_call_node (length nodes) nodes 0 FoldedStackTraceBuilder.new;
  FoldedStackTraceBuilder.build chk b.
End EvmFoldedStackTraceBuilder.

(** ** Call trees *)

(** A sequence of calls: the first call with its children, and the rest. *)
Inductive calls :=
  | CNil
  | CCons (label : string) (gas : Z) (children rest : calls).

Fixpoint calls_app (c1 c2 : calls) : calls :=
  match c1 with CNil => c2 | CCons l g cs rest => CCons l g cs (calls_app rest c2) end.

(** What the calls make the builder do. *)
Fixpoint run_calls (c : calls) (b : FoldedStackTraceBuilder.t) : FoldedStackTraceBuilder.t :=
  match c with
  | CNil => b
  | CCons l g cs rest => run_calls rest (exit (run_calls cs (enter b l g)))
  end.

(** The gas of the calls of a sequence, children not counted again. *)
Fixpoint total (c : calls) : Z :=
  match c with CNil => 0 | CCons _ g _ rest => g + total rest end.

(** One entry per call below the path [p], in the order of the calls, with its
    gas; and with the gas it used by itself. *)
Fixpoint entries (p : list string) (c : calls) : list TraceEntry.t :=
  match c with
  | CNil => []
  | CCons l g cs rest => TraceEntry.mk (p ++ [l]) g :: entries (p ++ [l]) cs ++ entries p rest
  end.

Fixpoint self_entries (p : list string) (c : calls) : list TraceEntry.t :=
  match c with
  | CNil => []
  | CCons l g cs rest =>
      TraceEntry.mk (p ++ [l]) (g - total cs) :: self_entries (p ++ [l]) cs ++ self_entries p rest
  end.

(** No difference leaves 64 bits. *)
Fixpoint fits (c : calls) : Prop :=
  match c with
  | CNil => True
  | CCons _ g cs rest => (0 ≤ g < 2 ^ 63 ∧ total cs ≤ 2 ^ 63)%Z ∧ fits cs ∧ fits rest
  end.

Definition gas_sum (es : list TraceEntry.t) : Z := foldr (λ e acc, TraceEntry.gas e + acc)%Z 0%Z es.

Lemma run_calls_app c1 c2 b : run_calls (calls_app c1 c2) b = run_calls c2 (run_calls c1 b).
Proof. revert b. induction c1 as [|l g cs _ rest IH]; intros b; cbn; [done|apply IH]. Qed.

(** ** The entries the builder makes *)

Definition last_names (b : FoldedStackTraceBuilder.t) : list string :=
  match last (traces b) with Some e => TraceEntry.names e | None => [] end.

(** The builder is inside the calls of the path [p]. *)
Definition inside (b : FoldedStackTraceBuilder.t) (p : list string) : Prop :=
  ∃ q, last_names b = p ++ q ∧ length q = exits b.

Lemma pop_names_app p q : pop_names (length q) (p ++ q) = p.
Proof.
  induction q as [|x q IH] using rev_ind; [by rewrite app_nil_r|].
  rewrite length_app, Nat.add_1_r, app_assoc. cbn. by rewrite vec_pop_app.
Qed.

Lemma enter_inside b p l g :
  inside b p →
  enter b l g = FoldedStackTraceBuilder.mk (traces b ++ [TraceEntry.mk (p ++ [l]) g]) 0 ∧
  inside (enter b l g) (p ++ [l]).
Proof.
  intros (q & Hn & Hq). unfold enter. fold (last_names b). rewrite Hn, <- Hq, pop_names_app.
  split; [done|]. exists []. unfold last_names. cbn. rewrite last_snoc. by rewrite app_nil_r.
Qed.

Lemma exit_inside b p l : inside b (p ++ [l]) → inside (exit b) p.
Proof. intros (q & Hn & Hq). exists (l :: q). split; [by rewrite <- app_assoc in Hn|cbn; lia]. Qed.

Lemma run_calls_entries c p b :
  inside b p → inside (run_calls c b) p ∧ traces (run_calls c b) = traces b ++ entries p c.
Proof.
  revert p b. induction c as [|l g cs IHc rest IHr]; intros p b Hb; cbn [run_calls entries].
  { split; [done|by rewrite app_nil_r]. }
  destruct (enter_inside b p l g Hb) as [E Hi].
  destruct (IHc (p ++ [l]) (enter b l g) Hi) as [Hi2 Ht2].
  destruct (IHr p (exit (run_calls cs (enter b l g)))) as [Hi3 Ht3]; [by eapply exit_inside|].
  split; [done|]. rewrite Ht3. cbn [exit traces]. rewrite Ht2, E. cbn. by rewrite <- !app_assoc.
Qed.

(** ** Subtracting the children *)

Section subtract.
Context (chk : bool).

Definition minus (e : TraceEntry.t) (g : Z) : TraceEntry.t :=
  TraceEntry.mk (TraceEntry.names e) (TraceEntry.gas e - g).

Lemma i64_op_small x : (- 2 ^ 63 ≤ x < 2 ^ 63)%Z → i64_op chk x = Some x.
Proof.
  intros [H1 H2]. unfold i64_op. by rewrite (proj2 (Z.leb_le _ _) H1), (proj2 (Z.ltb_lt _ _) H2).
Qed.

(** The last entry with the parent's names is the parent when everything after
    it is below it. *)
Lemma subtract_entry_parent L (P : TraceEntry.t) D l g :
  (∀ d, d ∈ D → TraceEntry.names d ≠ TraceEntry.names P) → TraceEntry.names P ≠ [] →
  (- 2 ^ 63 ≤ TraceEntry.gas P - g < 2 ^ 63)%Z →
  subtract_entry chk (L ++ P :: D) (TraceEntry.mk (TraceEntry.names P ++ [l]) g) =
    Some (L ++ minus P g :: D).
Proof.
  intros HD HP Hg. unfold subtract_entry. cbn. rewrite length_app. cbn.
  rewrite decide_True by (destruct (TraceEntry.names P); [done|cbn; lia]).
  rewrite Nat.add_sub, take_app_length.
  assert (∀ R, (∀ d, d ∈ R → TraceEntry.names d ≠ TraceEntry.names P) →
    subtract_rev chk (TraceEntry.names P) g (R ++ P :: reverse L) =
      Some (R ++ minus P g :: reverse L)) as HR.
  { induction R as [|d R IH]; intros Hd; cbn.
    - rewrite decide_True by done. by rewrite i64_op_small.
    - rewrite decide_False by (apply Hd; set_solver). rewrite IH; [done|]. intros; apply Hd; set_solver. }
  rewrite reverse_app, reverse_cons, <- app_assoc. cbn.
  rewrite HR by (intros d Hd; apply HD; by rewrite elem_of_reverse in Hd). cbn.
  by rewrite reverse_app, reverse_cons, !reverse_involutive, <- app_assoc.
Qed.

Lemma self_entries_below p c d : d ∈ self_entries p c → length p < length (TraceEntry.names d).
Proof.
  revert p. induction c as [|l g cs IHc rest IHr]; intros p; cbn; [by intros ?%elem_of_nil|].
  intros [-> |[Hd|Hd]%elem_of_app]%elem_of_cons; [cbn; rewrite length_app; cbn; lia| |by apply IHr].
  apply IHc in Hd. rewrite length_app in Hd. lia.
Qed.

Lemma total_nonneg c : fits c → (0 ≤ total c)%Z.
Proof.
  induction c as [|l g cs _ rest IH]; cbn; [done|]. intros ([Hg _] & _ & Hr). specialize (IH Hr). lia.
Qed.

(** Below a parent [P]: it loses the gas of the calls, and each call keeps what
    it used by itself. *)
Lemma subtract_loop_calls c L P D R :
  fits c → (∀ d, d ∈ D → TraceEntry.names d ≠ TraceEntry.names P) → TraceEntry.names P ≠ [] →
  (- 2 ^ 63 ≤ TraceEntry.gas P - total c ∧ TraceEntry.gas P < 2 ^ 63)%Z →
  subtract_loop chk (L ++ P :: D) (entries (TraceEntry.names P) c ++ R) =
    subtract_loop chk (L ++ minus P (total c) :: D ++ self_entries (TraceEntry.names P) c) R.
Proof.
  revert L P D R. induction c as [|l g cs IHc rest IHr]; intros L P D R Hf HD HP Hg; cbn [entries total].
  { cbn. rewrite app_nil_r. unfold minus. rewrite Z.sub_0_r. by destruct P. }
  destruct Hf as ([Hg0 Hcs] & Hfc & Hfr). pose proof (total_nonneg rest Hfr). cbn [total] in Hg.
  pose proof (total_nonneg cs Hfc).
  cbn [app subtract_loop]. rewrite subtract_entry_parent by (done || lia). cbn [mbind option_bind].
  set (e := TraceEntry.mk (TraceEntry.names P ++ [l]) g).
  change (TraceEntry.names P ++ [l]) with (TraceEntry.names e).
  rewrite <- (app_assoc (entries (TraceEntry.names e) cs)).
  rewrite (IHc (L ++ minus P g :: D) e [] (entries (TraceEntry.names P) rest ++ R) Hfc).
  - rewrite app_nil_l, <- app_assoc. cbn [app].
    change (TraceEntry.names P) with (TraceEntry.names (minus P g)).
    rewrite (IHr L (minus P g)
      (D ++ minus e (total cs) :: self_entries (TraceEntry.names e) cs) R Hfr).
    + f_equal. f_equal. cbn [minus TraceEntry.names TraceEntry.gas e].
      f_equal; [unfold minus; cbn; f_equal; lia|]. by rewrite <- app_assoc.
    + intros d [Hd|[-> |Hd]%elem_of_cons]%elem_of_app; [by apply HD|..]; cbn.
      * intros E. apply (f_equal length) in E. rewrite length_app in E. cbn in E. lia.
      * intros E. apply self_entries_below in Hd. rewrite E in Hd. cbn in Hd.
        rewrite length_app in Hd. cbn in Hd. lia.
    + done.
    + cbn. lia.
  - by intros d ?%elem_of_nil.
  - cbn. by destruct (TraceEntry.names P).
  - cbn. lia.
Qed.

(** Calls without a parent. *)
Lemma subtract_loop_roots c L R :
  fits c → subtract_loop chk L (entries [] c ++ R) = subtract_loop chk (L ++ self_entries [] c) R.
Proof.
  revert L R. induction c as [|l g cs _ rest IHr]; intros L R Hf; cbn [entries self_entries].
  { by rewrite app_nil_r. }
  destruct Hf as ([Hg Hcs] & Hfc & Hfr). pose proof (total_nonneg cs Hfc).
  set (e := TraceEntry.mk ([] ++ [l]) g). cbn [app subtract_loop].
  assert (subtract_entry chk L e = Some L) as -> by done. cbn [mbind option_bind].
  change [l] with (TraceEntry.names e). rewrite <- (app_assoc (entries (TraceEntry.names e) cs)).
  rewrite (subtract_loop_calls cs L e [] (entries [] rest ++ R) Hfc); [|by intros d ?%elem_of_nil|done|cbn; lia].
  rewrite IHr by done. cbn [app]. by rewrite <- !app_assoc.
Qed.
End subtract.

Lemma build_calls chk c :
  fits c →
  build chk (run_calls c FoldedStackTraceBuilder.new) = Some (format_entry <$> self_entries [] c).
Proof.
  intros Hf. destruct (run_calls_entries c [] FoldedStackTraceBuilder.new) as [_ Ht].
  { by exists []. }
  unfold build, subtract_children. rewrite Ht. cbn [traces FoldedStackTraceBuilder.new app].
  rewrite <- (app_nil_r (entries [] c)), subtract_loop_roots by done. done.
Qed.

Lemma self_entries_total c p : gas_sum (self_entries p c) = total c.
Proof.
  assert (∀ es1 es2, gas_sum (es1 ++ es2) = gas_sum es1 + gas_sum es2)%Z as Happ.
  { intros es1 es2. induction es1 as [|e es1 IH]; cbn; [done|]. unfold gas_sum in *. rewrite IH. lia. }
  revert p. induction c as [|l g cs IHc rest IHr]; intros p; [done|].
  cbn [self_entries total]. change (gas_sum (?e :: ?es)) with (TraceEntry.gas e + gas_sum es)%Z.
  rewrite Happ, IHc, IHr. cbn. lia.
Qed.

(** ** The calls of an arena *)

(** Calls that are entered and not yet exited: what they called so far. *)
Abbreviation frames := (list (string * Z * calls)).

Definition run_frames (c : calls) (fs : frames) (b : FoldedStackTraceBuilder.t) :
    FoldedStackTraceBuilder.t :=
  foldl (λ b '(l, g, c), run_calls c (enter b l g)) (run_calls c b) fs.

(** From [b0] the builder made some calls and is inside [k] more. *)
Definition opened (b0 : FoldedStackTraceBuilder.t) (k : nat) (b : FoldedStackTraceBuilder.t) : Prop :=
  ∃ c fs, b = run_frames c fs b0 ∧ length fs = k.

Lemma opened_enter b0 k b l g : opened b0 k b → opened b0 (S k) (enter b l g).
Proof.
  intros (c & fs & -> & <-). exists c, (fs ++ [(l, g, CNil)]). unfold run_frames.
  rewrite foldl_app, length_app. cbn. split; [done|lia].
Qed.

Lemma opened_calls b0 k b c' : opened b0 k b → opened b0 k (run_calls c' b).
Proof.
  intros (c & fs & -> & <-). destruct fs as [|[[l g] c1] fs _] using rev_ind.
  - exists (calls_app c c'), []. split; [|done]. unfold run_frames. cbn. by rewrite run_calls_app.
  - exists c, (fs ++ [(l, g, calls_app c1 c')]). unfold run_frames.
    rewrite !foldl_app, !length_app. cbn. by rewrite run_calls_app.
Qed.

Lemma opened_exit b0 k b : opened b0 (S k) b → opened b0 k (exit b).
Proof.
  intros (c & fs & -> & Hk). destruct fs as [|[[l g] c1] fs _] using rev_ind; [done|].
  assert (exit (run_frames c (fs ++ [(l, g, c1)]) b0) =
    run_calls (CCons l g c1 CNil) (run_frames c fs b0)) as ->.
  { unfold run_frames. by rewrite foldl_app. }
  apply opened_calls. exists c, fs. split; [done|]. rewrite length_app in Hk. cbn in Hk. lia.
Qed.

Lemma opened_exit_n b0 n k b : opened b0 (n + k) b → opened b0 k (exit_n n b).
Proof. revert b. induction n as [|n IH]; intros b Hb; cbn; [done|]. by apply IH, opened_exit. Qed.

Section arena.
Import EvmFoldedStackTraceBuilder.
Context (nodes : list CallTraceNode.t).

(** The arena of a tracer: children come after their parent, and the indices
    of calls and steps exist. *)
Definition valid_arena : Prop :=
  ∀ i node, nodes !! i = Some node →
    (∀ j, OrderCall j ∈ CallTraceNode.ordering node →
       ∃ c, CallTraceNode.children node !! j = Some c ∧ i < c < length nodes) ∧
    (∀ j, OrderStep j ∈ CallTraceNode.ordering node →
       ∃ step, CallTraceNode.steps node !! j = Some step ∧
         ∀ name e, step_decoded step = Some (InternalCall name e) →
           is_Some (CallTraceNode.steps node !! e)).

Lemma process_step_opened b0 b node exits j :
  (∃ step, CallTraceNode.steps node !! j = Some step ∧
     ∀ name e, step_decoded step = Some (InternalCall name e) →
       is_Some (CallTraceNode.steps node !! e)) →
  opened b0 (length exits) b →
  ∃ b' exits', process_step b (CallTraceNode.steps node) j exits = Some (b', exits') ∧
    opened b0 (length exits') b'.
Proof.
  intros (step & Hs & He) Hb. unfold process_step. rewrite Hs. cbn.
  destruct (step_decoded step) as [[name e|]|]; [|by eauto..].
  destruct (He name e eq_refl) as [last_step ->]. cbn. eexists _, _. split; [done|].
  rewrite length_app, Nat.add_1_r. by apply opened_enter.
Qed.

Lemma process_orders_opened (process : nat → FoldedStackTraceBuilder.t → option FoldedStackTraceBuilder.t)
    node b0 orders b exits :
  (∀ j, OrderCall j ∈ orders → ∃ c, CallTraceNode.children node !! j = Some c ∧
     ∀ b, ∃ cs, process c b = Some (run_calls cs b)) →
  (∀ j, OrderStep j ∈ orders → ∃ step, CallTraceNode.steps node !! j = Some step ∧
     ∀ name e, step_decoded step = Some (InternalCall name e) →
       is_Some (CallTraceNode.steps node !! e)) →
  opened b0 (length exits) b →
  ∃ b' exits', process_orders process node orders b exits = Some (b', exits') ∧
    opened b0 (length exits') b'.
Proof.
  revert b exits. induction orders as [|o orders IH]; intros b exits Hc Hs Hb; [by eexists _, _|].
  assert (∀ b exits, opened b0 (length exits) b → ∃ b' exits',
    process_orders process node orders b exits = Some (b', exits') ∧ opened b0 (length exits') b') as IH'.
  { intros b1 ex1. apply IH; intros j Hj; [apply Hc|apply Hs]; set_solver. }
  destruct o as [j|j|j]; cbn [process_orders]; [by apply IH'| |].
  - destruct (Hc j) as (c & -> & Hp); [set_solver|]. cbn. destruct (Hp b) as [cs ->]. cbn.
    apply IH'. by apply opened_calls.
  - unfold exit_previous_steps. set (remaining := filter _ exits).
    assert (opened b0 (length remaining) (exit_n (length exits - length remaining) b)) as Hb'.
    { apply opened_exit_n. rewrite Nat.sub_add; [done|]. apply length_filter. }
    destruct (process_step_opened b0 _ node remaining j (Hs j ltac:(set_solver)) Hb')
      as (b2 & ex2 & -> & Hb2). cbn. by apply IH'.
Qed.

Lemma process_call_node_calls fuel idx b :
  valid_arena → idx < length nodes → length nodes ≤ fuel + idx →
  ∃ node cs, nodes !! idx = Some node ∧
    process_call_node fuel nodes idx b =
      Some (run_calls (CCons (func_name node) (as_i64 (CallTraceNode.gas_used node)) cs CNil) b).
Proof.
  intros Hv. revert idx b. induction fuel as [|fuel IH]; intros idx b Hi Hf; [lia|].
  destruct (lookup_lt_is_Some_2 nodes idx Hi) as [node Hn]. destruct (Hv idx node Hn) as [Hc Hs].
  cbn [process_call_node]. rewrite Hn. cbn [mbind option_bind].
  set (b1 := enter b _ _).
  destruct (process_orders_opened (process_call_node fuel nodes) node b1
    (CallTraceNode.ordering node) b1 []) as (b2 & ex & E & c & fs & -> & Hk); [..|exact Hs| |].
  - intros j Hj. destruct (Hc j Hj) as (c & Hcj & Hlt). exists c. split; [done|].
    intros b'. destruct (IH c b') as (n' & cs & _ & E); [lia|lia|]. eauto.
  - by exists CNil, [].
  - rewrite E. cbn [mbind option_bind].
    assert (opened b1 0 (exit_n (length ex) (run_frames c fs b1))) as (c' & fs' & Hb & Hfs).
    { apply opened_exit_n. rewrite Nat.add_0_r. by exists c, fs. }
    apply nil_length_inv in Hfs as ->. exists node, c'. split; [done|]. by rewrite Hb.
Qed.
End arena.


(** A call that enters an internal function, which makes a call. *)
Definition sample_arena : list CallTraceNode.t :=
  [CallTraceNode.mk false (Some "Token") (Some "0x01020304") (Some "mint()") 500
     [mk_step 0 (Some (InternalCall "_mint" 1)); mk_step 300 None] [1]
     [OrderStep 0; OrderCall 0; OrderStep 1];
   CallTraceNode.mk false None None None 100 [] [] []].

