(* ===== verification/Coverage.v ===== *)
(** Coverage (evm/coverage/src/lib.rs, inspector.rs and the tables of
    analysis.rs): hit counters of bytecode, the inspector that fills them, and
    the report on source items.

    Counters are [u32]; an overflow panics when overflow checks are on ([None])
    and wraps otherwise.  Hash maps are iterated in any order. *)
From S2P Require Import Prelude Transaction Database Paths.

Definition add_u32 (overflow_checks : bool) (x y : Z) : option Z :=
  if (x + y <? 2 ^ 32)%Z then Some (x + y)%Z
  else if overflow_checks then None else Some ((x + y) mod 2 ^ 32)%Z.

(** ** Hit maps *)

Module HitMap.
Record t := mk { bytecode : Bytes; counts : gmap Z Z }.

Definition new (bytecode : Bytes) : t := mk bytecode ∅.

(** [NonZeroU32::new] of the counter. *)
Definition get (m : t) (pc : Z) : option Z :=
  let n := default 0%Z (counts m !! pc) in if (n =? 0)%Z then None else Some n.

Section hits.
Context (chk : bool).

Definition hits (m : t) (pc n : Z) : option t :=
  n' ← add_u32 chk (default 0%Z (counts m !! pc)) n;
  Some (mk (bytecode m) (<[pc := n']> (counts m))).

Definition hit (m : t) (pc : Z) : option t := hits m pc 1.

Definition merge_step (acc : option t) (kv : Z * Z) : option t :=
  m ← acc; hits m (fst kv) (snd kv).

Definition merge `{MapOrder} (m other : t) : option t :=
  foldl merge_step (Some m) (map_iter (counts other)).
End hits.
End HitMap.

(** [HitMaps]: hit maps by code hash. *)
Module HitMaps.
Section maps.
Context (chk : bool) `{MapOrder}.

Definition merge_step (acc : option (gmap Z HitMap.t)) (kv : Z * HitMap.t) :
    option (gmap Z HitMap.t) :=
  ms ← acc;
  match ms !! fst kv with
  | Some e => e ← HitMap.merge chk e (snd kv); Some (<[fst kv := e]> ms)
  | None => Some (<[fst kv := snd kv]> ms)
  end.

Definition merge (a b : gmap Z HitMap.t) : option (gmap Z HitMap.t) :=
  foldl merge_step (Some a) (map_iter b).

Definition merge_opt (a b : option (gmap Z HitMap.t)) : option (option (gmap Z HitMap.t)) :=
  match a, b with
  | _, None => Some a
  | None, Some b => Some (Some b)
  | Some a, Some b => Some <$> merge a b
  end.
End maps.
End HitMaps.

(** ** The collector

    The collector keeps a raw pointer to the hit map of the current contract
    inside its hash map.  The hash maps of all collectors are in a heap; a
    table counts the insertions of new keys, which may move its entries.  A
    pointer is to an entry of a table as it was after some number of them. *)

Record Pointer := mk_pointer { ptr_table : nat; ptr_moves : nat; ptr_key : Z }.

Record Table := mk_table { moves : nat; maps : gmap Z HitMap.t }.

Abbreviation Heap := (gmap nat Table).

(** The part of the interpreter that is read. *)
Module Interpreter.
Record t := mk { hash : option Z; code : Bytes; pc : Z }.
End Interpreter.

Module CoverageCollector.
Record t := mk { current_map : option Pointer; current_hash : Z; table : nat }.

(** A dangling pointer and an empty table. *)
Definition new (h : Heap) : t * Heap :=
  let table := fresh (dom h) in
  (mk None 0 table, <[table := mk_table 0 ∅]> h).

(** The derived [clone]: the table is copied, the pointer is the same. *)
Definition clone (c : t) (h : Heap) : option (t * Heap) :=
  tab ← h !! table c;
  let table := fresh (dom h) in
  Some (mk (current_map c) (current_hash c) table, <[table := tab]> h).

Section collect.
Context (chk : bool) (hash_slow : Bytes → Z).

(** The hash the interpreter has afterwards; code without one panics. *)
Definition get_or_insert_contract_hash (i : Interpreter.t) : option Z :=
  hash ← Interpreter.hash i;
  Some (if (hash =? 0)%Z then hash_slow (Interpreter.code i) else hash).

Definition insert_map (c : t) (hash : Z) (code : Bytes) (h : Heap) : option (t * Heap) :=
  tab ← h !! table c;
  let tab' := match maps tab !! hash with
              | Some _ => tab
              | None => mk_table (S (moves tab)) (<[hash := HitMap.new code]> (maps tab))
              end in
  Some (mk (Some (mk_pointer (table c) (moves tab') hash)) hash (table c), <[table c := tab']> h).

Definition initialize_interp (c : t) (i : Interpreter.t) (h : Heap) : option (t * Heap) :=
  hash ← get_or_insert_contract_hash i;
  insert_map c hash (Interpreter.code i) h.

(** Reading through the pointer is undefined ([None]) unless it points into a
    table that has not moved since. *)
Definition deref (p : option Pointer) (h : Heap) : option (Pointer * Table * HitMap.t) :=
  p ← p;
  tab ← h !! ptr_table p;
  m ← maps tab !! ptr_key p;
  if decide (ptr_moves p = moves tab) then Some (p, tab, m) else None.

Definition get_or_insert_map (c : t) (i : Interpreter.t) (h : Heap) :
    option (t * Heap * (Pointer * Table * HitMap.t)) :=
  hash ← get_or_insert_contract_hash i;
  '(c, h) ← (if decide (current_hash c = hash) then Some (c, h)
             else insert_map c hash (Interpreter.code i) h);
  r ← deref (current_map c) h;
  Some (c, h, r).

Definition step (c : t) (i : Interpreter.t) (h : Heap) : option (t * Heap) :=
  '(c, h, (p, tab, m)) ← get_or_insert_map c i h;
  m ← HitMap.hit chk m (Interpreter.pc i);
  Some (c, <[ptr_table p := mk_table (moves tab) (<[ptr_key p := m]> (maps tab))]> h).

Definition finish (c : t) (h : Heap) : option (gmap Z HitMap.t) := maps <$> h !! table c.
End collect.
End CoverageCollector.

(** ** Items and reports *)

Module SourceLocation.
Record t := mk { source_id : Z; contract_name : string; bytes_start : Z; bytes_end : Z;
  lines_start : Z; lines_end : Z }.

(** [bytes.len()] of a range; an inverted one is empty. *)
Definition len (l : t) : Z := Z.max 0 (bytes_end l - bytes_start l).
End SourceLocation.

Inductive CoverageItemKind :=
  | KLine
  | KStatement
  | KBranch (branch_id path_id : Z) (is_first_opcode : bool)
  | KFunction (name : string).

Module CoverageItem.
Record t := mk { kind : CoverageItemKind; loc : SourceLocation.t; hits : Z }.
End CoverageItem.

Record ItemAnchor := mk_anchor { instruction : Z; item_id : Z }.

Module CoverageSummary.
Record t := mk { line_count : Z; line_hits : Z; statement_count : Z; statement_hits : Z;
  branch_count : Z; branch_hits : Z; function_count : Z; function_hits : Z }.

Definition new : t := mk 0 0 0 0 0 0 0 0.

Definition merge (s o : t) : t :=
  mk (line_count s + line_count o) (line_hits s + line_hits o)
    (statement_count s + statement_count o) (statement_hits s + statement_hits o)
    (branch_count s + branch_count o) (branch_hits s + branch_hits o)
    (function_count s + function_count o) (function_hits s + function_hits o).

Definition add_item (s : t) (item : CoverageItem.t) : t :=
  let '(mk lc lh sc sh bc bh fc fh) := s in
  let one := (if 0 <? CoverageItem.hits item then 1 else 0)%Z in
  match CoverageItem.kind item with
  | KLine => mk (lc + 1) (lh + one) sc sh bc bh fc fh
  | KStatement => mk lc lh (sc + 1) (sh + one) bc bh fc fh
  | KBranch _ _ _ => mk lc lh sc sh (bc + 1) (bh + one) fc fh
  | KFunction _ => mk lc lh sc sh bc bh (fc + 1) (fh + one)
  end.

Definition add_items (s : t) (items : list CoverageItem.t) : t := foldl add_item s items.

Definition from_items (items : list CoverageItem.t) : t := add_items new items.
End CoverageSummary.

Module ContractId.
Record t := mk { version : string; source_id : Z; contract_name : string }.

#[global] Instance t_eq_dec : EqDecision t.
Proof. solve_decision. Defined.
#[global] Instance t_countable : Countable t.
Proof.
  refine (inj_countable' (λ c, (version c, source_id c, contract_name c))
    (λ '(v, s, n), mk v s n) _).
  by intros [].
Defined.
End ContractId.

(** [SourceAnalysis]: all items, and for each source id the offset and the
    number of its items. *)
Module SourceAnalysis.
Record t := mk { all_items : list CoverageItem.t; map : list (Z * Z) }.

Definition empty : t := mk [] [].

Definition u32_max : Z := 2 ^ 32 - 1.

(** The order of [sort_by_key]: the source id, then where its items begin. *)
Definition first_start (items : list CoverageItem.t) : option Z :=
  (λ i, SourceLocation.bytes_start (CoverageItem.loc i)) <$> head items.

Definition option_cmp (x y : option Z) : comparison :=
  match x, y with
  | None, None => Eq
  | None, Some _ => Lt
  | Some _, None => Gt
  | Some a, Some b => Z.compare a b
  end.

Definition sourced_cmp (x y : Z * list CoverageItem.t) : comparison :=
  match Z.compare (fst x) (fst y) with
  | Eq => option_cmp (first_start (snd x)) (first_start (snd y))
  | c => c
  end.

(** One step of the loop that fills the map; [as u32] truncates. *)
Definition fill_step (chk : bool) (acc : list CoverageItem.t * list (Z * Z)) (x : Z * list CoverageItem.t) :
    option (list CoverageItem.t * list (Z * Z)) :=
  let '(all_items, map) := acc in
  let idx := Z.to_nat (fst x) in
  entry ← map !! idx;
  let offset := (if fst entry =? u32_max then Z.of_nat (length all_items) mod 2 ^ 32
                 else fst entry)%Z in
  len ← add_u32 chk (snd entry) (Z.of_nat (length (snd x)) mod 2 ^ 32);
  Some (all_items ++ snd x, <[idx := (offset, len)]> map).

Fixpoint fill (chk : bool) (sourced : list (Z * list CoverageItem.t))
    (acc : list CoverageItem.t * list (Z * Z)) : option (list CoverageItem.t * list (Z * Z)) :=
  match sourced with
  | [] => Some acc
  | x :: sourced => acc ← fill_step chk acc x; fill chk sourced acc
  end.

(** [new], from the items found in the contracts of each source. *)
Definition new (chk : bool) (sourced_items : list (Z * list CoverageItem.t)) : option t :=
  let sorted := sort_by sourced_cmp sourced_items in
  match last sorted with
  | None => Some empty
  | Some (max_idx, _) =>
      '(all_items, map) ← fill chk sorted ([], replicate (Z.to_nat max_idx + 1) (u32_max, 0%Z));
      Some (mk all_items map)
  end.

(** A slice out of range panics. *)
Definition items_for_source (a : t) (source_id : Z) : option (Z * list CoverageItem.t) :=
  let '(offset, len) := default (0, 0)%Z (map a !! Z.to_nat source_id) in
  let offset := if (offset =? u32_max)%Z then 0%Z else offset in
  if decide (Z.to_nat offset + Z.to_nat len ≤ length (all_items a))
  then Some (offset, take (Z.to_nat len) (drop (Z.to_nat offset) (all_items a)))
  else None.

Definition items_for_source_enumerated (a : t) (source_id : Z) :
    option (list (Z * CoverageItem.t)) :=
  '(base_id, items) ← items_for_source a source_id;
  Some (imap (λ idx item, ((base_id + Z.of_nat idx)%Z, item)) items).

Definition get (a : t) (item_id : Z) : option CoverageItem.t := all_items a !! Z.to_nat item_id.
End SourceAnalysis.

(** The order in which a map of versions is iterated. *)
Class VersionOrder := {
  version_iter : ∀ {V}, gmap string V → list (string * V);
  version_iter_perm : ∀ {V} (m : gmap string V), version_iter m ≡ₚ map_to_list m }.

Module CoverageReport.
Record t := mk {
  source_paths : gmap (string * Z) Path;
  source_paths_to_ids : gmap (string * Path) Z;
  analyses : gmap string SourceAnalysis.t;
  anchors : gmap ContractId.t (list ItemAnchor * list ItemAnchor);
  bytecode_hits : gmap ContractId.t HitMap.t }.

Definition empty : t := mk ∅ ∅ ∅ ∅ ∅.

Definition add_source (r : t) (version : string) (source_id : Z) (path : Path) : t :=
  mk (<[(version, source_id) := path]> (source_paths r))
    (<[(version, path) := source_id]> (source_paths_to_ids r))
    (analyses r) (anchors r) (bytecode_hits r).

Definition get_source_id (r : t) (version : string) (path : Path) : option Z :=
  source_paths_to_ids r !! (version, path).

Definition add_analysis (r : t) (version : string) (a : SourceAnalysis.t) : t :=
  mk (source_paths r) (source_paths_to_ids r) (<[version := a]> (analyses r)) (anchors r)
    (bytecode_hits r).

Definition add_anchors (r : t) (new : list (ContractId.t * (list ItemAnchor * list ItemAnchor))) : t :=
  mk (source_paths r) (source_paths_to_ids r) (analyses r)
    (foldl (λ m kv, <[fst kv := snd kv]> m) (anchors r) new) (bytecode_hits r).

Section hits.
Context (chk : bool) `{MapOrder}.

(** [items[id].hits += hits]; a missing item panics. *)
Definition hit_item (items : list CoverageItem.t) (id hits : Z) : option (list CoverageItem.t) :=
  item ← items !! Z.to_nat id;
  n ← add_u32 chk (CoverageItem.hits item) hits;
  Some (<[Z.to_nat id := CoverageItem.mk (CoverageItem.kind item) (CoverageItem.loc item) n]> items).

Fixpoint hit_anchors (anchors : list ItemAnchor) (hit_map : HitMap.t) (version : string)
    (analyses : gmap string SourceAnalysis.t) : option (gmap string SourceAnalysis.t) :=
  match anchors with
  | [] => Some analyses
  | anchor :: anchors =>
      match HitMap.get hit_map (instruction anchor) with
      | None => hit_anchors anchors hit_map version analyses
      | Some hits =>
          a ← analyses !! version;
          items ← hit_item (SourceAnalysis.all_items a) (item_id anchor) hits;
          hit_anchors anchors hit_map version
            (<[version := SourceAnalysis.mk items (SourceAnalysis.map a)]> analyses)
      end
  end.

Definition add_hit_map (r : t) (contract_id : ContractId.t) (hit_map : HitMap.t)
    (is_deployed_code : bool) : option t :=
  m ← match bytecode_hits r !! contract_id with
      | Some m => HitMap.merge chk m hit_map
      | None => Some hit_map
      end;
  analyses ← match anchors r !! contract_id with
             | Some anchors =>
                 hit_anchors (if is_deployed_code then snd anchors else fst anchors) hit_map
                   (ContractId.version contract_id) (analyses r)
             | None => Some (analyses r)
             end;
  Some (mk (source_paths r) (source_paths_to_ids r) analyses (anchors r)
          (<[contract_id := m]> (bytecode_hits r))).
End hits.

(** [by_file] folds [f] over the items of each file that has a path. *)
Definition by_file `{VersionOrder} {T} (init : T) (f : T → CoverageItem.t → T) (r : t) : gmap Path T :=
  foldl (λ m '(version, a),
    foldl (λ m item,
      match source_paths r !! (version, SourceLocation.source_id (CoverageItem.loc item)) with
      | Some path => <[path := f (default init (m !! path)) item]> m
      | None => m
      end) m (SourceAnalysis.all_items a)) ∅ (version_iter (analyses r)).

Definition summary_by_file `{VersionOrder} (r : t) : gmap Path CoverageSummary.t :=
  by_file CoverageSummary.new CoverageSummary.add_item r.

Definition items_by_file `{VersionOrder} (r : t) : gmap Path (list CoverageItem.t) :=
  by_file [] (λ l item, l ++ [item]) r.

Definition retain_sources (r : t) (predicate : Path → bool) : t :=
  let keep version item :=
    match source_paths r !! (version, SourceLocation.source_id (CoverageItem.loc item)) with
    | Some path => predicate path
    | None => false
    end in
  mk (source_paths r) (source_paths_to_ids r)
    (filter (λ kv, SourceAnalysis.all_items (snd kv) ≠ [])
       (map_imap (λ version a, Some (SourceAnalysis.mk
          (filter (λ item, keep version item = true) (SourceAnalysis.all_items a))
          (SourceAnalysis.map a))) (analyses r)))
    (anchors r) (bytecode_hits r).
End CoverageReport.
