(* ===== verification/CoverageTheorems.v ===== *)
(** What is counted, and what the report says of it. *)
From S2P Require Import Prelude Transaction Database Paths Coverage.

(** ** Hit maps *)

Definition count (m : HitMap.t) (pc : Z) : Z := default 0%Z (HitMap.counts m !! pc).

Definition nonneg_counts (m : HitMap.t) : Prop := ∀ pc, (0 ≤ count m pc)%Z.

Lemma add_u32_small chk x y : (x + y < 2 ^ 32)%Z → add_u32 chk x y = Some (x + y)%Z.
Proof. intros H. unfold add_u32. by rewrite (proj2 (Z.ltb_lt _ _) H). Qed.

Lemma hits_spec chk m pc n :
  (count m pc + n < 2 ^ 32)%Z →
  ∃ m', HitMap.hits chk m pc n = Some m' ∧ HitMap.bytecode m' = HitMap.bytecode m ∧
    ∀ q, count m' q = (count m q + if decide (q = pc) then n else 0)%Z.
Proof.
  intros Hn. unfold HitMap.hits. fold (count m pc). rewrite add_u32_small by done. cbn.
  eexists. split_and!; [done..|]. intros q. unfold count. cbn.
  destruct (decide (q = pc)) as [->|Hne]; [by rewrite lookup_insert_eq|].
  rewrite lookup_insert_ne by done. lia.
Qed.

Lemma get_count m pc : HitMap.get m pc = if (count m pc =? 0)%Z then None else Some (count m pc).
Proof. done. Qed.

(** The value of a key in a list of entries. *)
Definition entry_of (l : list (Z * Z)) (k : Z) : Z := default 0%Z ((list_to_map l : gmap Z Z) !! k).

Lemma entry_of_cons k v l q :
  k ∉ l.*1 → entry_of ((k, v) :: l) q = ((if decide (q = k) then v else 0) + entry_of l q)%Z.
Proof.
  intros Hk. unfold entry_of. cbn. destruct (decide (q = k)) as [->|Hne].
  - rewrite lookup_insert_eq, (not_elem_of_list_to_map_1 l k Hk). cbn. lia.
  - by rewrite lookup_insert_ne.
Qed.

Lemma merge_fold chk l m :
  NoDup l.*1 → (∀ k, (count m k + entry_of l k < 2 ^ 32)%Z) →
  ∃ m', foldl (HitMap.merge_step chk) (Some m) l = Some m' ∧
    HitMap.bytecode m' = HitMap.bytecode m ∧ ∀ k, count m' k = (count m k + entry_of l k)%Z.
Proof.
  revert m. induction l as [|[k v] l IH]; intros m Hnd Hb.
  { exists m. split_and!; [done..|]. intros k. unfold entry_of. rewrite list_to_map_nil, lookup_empty. cbn. lia. }
  apply NoDup_cons in Hnd as [Hk Hnd]. cbn in Hk.
  assert (entry_of l k = 0%Z) as Hk0 by (unfold entry_of; by rewrite (not_elem_of_list_to_map_1 l k Hk)).
  destruct (hits_spec chk m k v) as (m1 & E & Hc & H1).
  { specialize (Hb k). rewrite entry_of_cons, decide_True, Hk0 in Hb by done. lia. }
  destruct (IH m1 Hnd) as (m2 & E2 & Hc2 & H2).
  { intros q. rewrite H1. specialize (Hb q). rewrite entry_of_cons in Hb by done. lia. }
  exists m2. cbn [foldl]. change (HitMap.merge_step chk (Some m) (k, v)) with (HitMap.hits chk m k v).
  rewrite E. split_and!; [done|congruence|]. intros q. rewrite H2, H1, entry_of_cons by done. lia.
Qed.

Lemma entry_of_iter `{MapOrder} m k : entry_of (map_iter (HitMap.counts m)) k = count m k.
Proof.
  unfold entry_of, count. rewrite (list_to_map_proper (map_iter (HitMap.counts m))
    (map_to_list (HitMap.counts m)) (NoDup_map_iter _) (map_iter_perm _)).
  by rewrite list_to_map_to_list.
Qed.

(** Merging adds the counters, in whatever order they are visited. *)
Lemma hit_map_merge `{MapOrder} chk m o :
  (∀ pc, (count m pc + count o pc < 2 ^ 32)%Z) →
  ∃ m', HitMap.merge chk m o = Some m' ∧ HitMap.bytecode m' = HitMap.bytecode m ∧
    ∀ pc, count m' pc = (count m pc + count o pc)%Z.
Proof.
  intros Hb. destruct (merge_fold chk (map_iter (HitMap.counts o)) m) as (m' & E & Hc & H1).
  - apply NoDup_map_iter.
  - intros k. by rewrite entry_of_iter.
  - exists m'. split_and!; [done..|]. intros pc. by rewrite H1, entry_of_iter.
Qed.

(** ** The collector *)

Section collector.
Import CoverageCollector.
Context (chk : bool) (hash_slow : Bytes → Z).
Implicit Types (c : t) (h : Heap) (i : Interpreter.t).

Inductive event := Initialize (i : Interpreter.t) | Step (i : Interpreter.t).

Definition event_interpreter (e : event) : Interpreter.t :=
  match e with Initialize i | Step i => i end.

Definition run_event c h (e : event) : option (t * Heap) :=
  match e with
  | Initialize i => initialize_interp hash_slow c i h
  | Step i => step chk hash_slow c i h
  end.

Fixpoint run_events (es : list event) c h : option (t * Heap) :=
  match es with
  | [] => Some (c, h)
  | e :: es => '(c, h) ← run_event c h e; run_events es c h
  end.

(** The hash under which the code of the interpreter is recorded. *)
Definition code_hash i : option Z := get_or_insert_contract_hash hash_slow i.

(** How often the instruction of a code was executed. *)
Definition executes (hash pc : Z) (e : event) : Prop :=
  match e with
  | Step i => code_hash i = Some hash ∧ Interpreter.pc i = pc
  | Initialize _ => False
  end.

#[global] Instance executes_dec hash pc e : Decision (executes hash pc e).
Proof. destruct e; cbn; apply _. Defined.

Definition executed (es : list event) (hash pc : Z) : Z :=
  Z.of_nat (length (filter (executes hash pc) es)).

(** The pointer is to the current entry of the collector's own table. *)
Definition valid c h (tab : Table) : Prop :=
  h !! table c = Some tab ∧
  (current_hash c ≠ 0%Z →
   current_map c = Some (mk_pointer (table c) (moves tab) (current_hash c)) ∧
   is_Some (maps tab !! current_hash c)).

Definition table_count (tab : Table) (hash pc : Z) : Z :=
  default 0%Z ((λ m, count m pc) <$> maps tab !! hash).

Lemma insert_map_valid c h tab hash code :
  valid c h tab →
  ∃ c' tab', insert_map c hash code h = Some (c', <[table c := tab']> h) ∧
    table c' = table c ∧ current_hash c' = hash ∧ valid c' (<[table c := tab']> h) tab' ∧
    is_Some (maps tab' !! hash) ∧
    ∀ k pc, table_count tab' k pc = table_count tab k pc.
Proof.
  intros [Ht _]. unfold insert_map. rewrite Ht. cbn. destruct (maps tab !! hash) as [m|] eqn:Hm.
  - eexists _, tab. split_and!; [done|done|done| |by eauto|done].
    split; cbn; [apply lookup_insert_eq|]. intros _. split; [done|by eauto].
  - eexists _, (mk_table (S (moves tab)) (<[hash:=HitMap.new code]> (maps tab))).
    split_and!; [done|done|done| |cbn; rewrite lookup_insert_eq; by eauto|].
    + split; cbn; [apply lookup_insert_eq|]. intros _. split; [done|]. rewrite lookup_insert_eq. by eauto.
    + intros k pc. unfold table_count. cbn. destruct (decide (k = hash)) as [->|Hne].
      * by rewrite lookup_insert_eq, Hm.
      * by rewrite lookup_insert_ne.
Qed.

Lemma run_event_valid c h tab e hash :
  valid c h tab → code_hash (event_interpreter e) = Some hash → hash ≠ 0%Z →
  (∀ k pc, (table_count tab k pc + 1 < 2 ^ 32)%Z) →
  ∃ c' tab', run_event c h e = Some (c', <[table c := tab']> h) ∧ table c' = table c ∧
    valid c' (<[table c := tab']> h) tab' ∧
    ∀ k pc, table_count tab' k pc = (table_count tab k pc + executed [e] k pc)%Z.
Proof.
  intros Hv Hh Hn Hb. destruct e as [i|i]; cbn in Hh |- *.
  - unfold initialize_interp. fold (code_hash i). rewrite Hh. cbn.
    destruct (insert_map_valid c h tab hash (Interpreter.code i) Hv) as (c' & tab' & E & Ht & _ & Hv' & _ & Hc).
    exists c', tab'. split_and!; [done..|]. intros k pc. rewrite Hc. unfold executed.
    rewrite filter_cons, decide_False by (cbn; tauto). rewrite filter_nil. cbn. lia.
  - assert (∃ c1 tab1, (if decide (current_hash c = hash) then Some (c, h)
      else insert_map c hash (Interpreter.code i) h) = Some (c1, <[table c := tab1]> h) ∧
      table c1 = table c ∧ current_hash c1 = hash ∧ valid c1 (<[table c := tab1]> h) tab1 ∧
      is_Some (maps tab1 !! hash) ∧ ∀ k pc, table_count tab1 k pc = table_count tab k pc)
      as (c1 & tab1 & E & Ht1 & Hh1 & Hv1 & [m Hm] & Hc1).
    { destruct (decide (current_hash c = hash)) as [E|E]; [|by apply insert_map_valid].
      exists c, tab. destruct Hv as [Ht Hp]. rewrite insert_id by done.
      split_and!; [done..|by split| |done]. subst hash. by apply Hp. }
    unfold step, get_or_insert_map. fold (code_hash i). rewrite Hh. cbn [mbind option_bind].
    rewrite E. cbn [mbind option_bind]. destruct Hv1 as [Htab Hp].
    destruct Hp as [Hp _]; [by rewrite Hh1|]. unfold deref. rewrite Hp. cbn [mbind option_bind ptr_table ptr_key ptr_moves].
    rewrite Htab. cbn [mbind option_bind]. rewrite Hh1, Hm. cbn [mbind option_bind].
    rewrite decide_True by done. cbn [mbind option_bind].
    destruct (hits_spec chk m (Interpreter.pc i) 1) as (m' & Em & _ & Hcount).
    { specialize (Hb hash (Interpreter.pc i)). rewrite <- Hc1 in Hb. unfold table_count in Hb.
      by rewrite Hm in Hb. }
    unfold HitMap.hit. rewrite Em. cbn [mbind option_bind ptr_table ptr_key].
    rewrite Ht1, insert_insert_eq.
    eexists c1, (mk_table (moves tab1) (<[hash := m']> (maps tab1))). split_and!; [done|done|..].
    + split; [rewrite Ht1; apply lookup_insert_eq|]. intros _. cbn. rewrite Hh1.
      split; [by rewrite Hp, Hh1|]. rewrite lookup_insert_eq. by eauto.
    + intros k pc. rewrite <- Hc1. unfold table_count, executed. cbn [maps].
      rewrite filter_cons, filter_nil. destruct (decide (k = hash)) as [->|Hne].
      * rewrite lookup_insert_eq, Hm. cbn. rewrite Hcount.
        destruct (decide (pc = Interpreter.pc i)) as [->|Hpc].
        { rewrite decide_True by done. done. }
        { rewrite decide_False by (intros [_ <-]; done). done. }
      * rewrite lookup_insert_ne by done. rewrite decide_False by (intros [? _]; congruence). cbn. lia.
Qed.

Lemma executed_cons e es hash pc :
  executed (e :: es) hash pc = (executed [e] hash pc + executed es hash pc)%Z.
Proof.
  unfold executed. change (e :: es) with ([e] ++ es). rewrite filter_app, length_app. lia.
Qed.

Lemma executed_le_length es hash pc : (0 ≤ executed es hash pc ≤ Z.of_nat (length es))%Z.
Proof. unfold executed. pose proof (length_filter (executes hash pc) es). lia. Qed.

Lemma run_events_valid es c h tab :
  valid c h tab →
  (∀ e, e ∈ es → ∃ hash, code_hash (event_interpreter e) = Some hash ∧ hash ≠ 0%Z) →
  (∀ k pc, (table_count tab k pc + Z.of_nat (length es) < 2 ^ 32)%Z) →
  ∃ c' tab', run_events es c h = Some (c', <[table c := tab']> h) ∧ table c' = table c ∧
    valid c' (<[table c := tab']> h) tab' ∧
    ∀ k pc, table_count tab' k pc = (table_count tab k pc + executed es k pc)%Z.
Proof.
  revert c h tab. induction es as [|e es IH]; intros c h tab Hv Hh Hb.
  { exists c, tab. destruct Hv as [Ht Hp]. rewrite insert_id by done.
    split_and!; [done|done|done|]. intros k pc. unfold executed. cbn. lia. }
  destruct (Hh e) as (hash & He & Hn); [set_solver|].
  destruct (run_event_valid c h tab e hash Hv He Hn) as (c1 & tab1 & E1 & Ht1 & Hv1 & Hc1).
  { intros k pc. specialize (Hb k pc). cbn in Hb. lia. }
  destruct (IH c1 (<[table c := tab1]> h) tab1 Hv1) as (c2 & tab2 & E2 & Ht2 & Hv2 & Hc2).
  { intros e' He'. apply Hh. set_solver. }
  { intros k pc. specialize (Hb k pc). rewrite Hc1. pose proof (executed_le_length [e] k pc).
    cbn in *. lia. }
  exists c2, tab2. cbn [run_events]. rewrite E1. cbn [mbind option_bind].
  rewrite Ht1, insert_insert_eq in E2, Hv2. split_and!; [done|congruence|done|].
  intros k pc. rewrite Hc2, Hc1, (executed_cons e es). lia.
Qed.
End collector.

(** C7: Whatever contracts are executed and however they interleave, the
    collector never follows a stale pointer into its hash map, and the maps it
    returns count exactly how often each instruction of each code was
    executed.  Maps of other collectors are not touched. *)
Theorem collector_exact (chk : bool) (hash_slow : Bytes → Z) (h : Heap) (es : list event) :
  (∀ e, e ∈ es → ∃ hash, code_hash hash_slow (event_interpreter e) = Some hash ∧ hash ≠ 0%Z) →
  (Z.of_nat (length es) < 2 ^ 32)%Z →
  let '(c0, h0) := CoverageCollector.new h in
  ∃ c' h' ms, run_events chk hash_slow es c0 h0 = Some (c', h') ∧
    CoverageCollector.finish c' h' = Some ms ∧
    (∀ hash pc, default 0%Z ((λ m, count m pc) <$> ms !! hash) = executed hash_slow es hash pc) ∧
    ∀ t, t ∈ dom h → h' !! t = h !! t.
Proof.
  intros Hh Hb. unfold CoverageCollector.new. set (table := fresh (dom h)).
  assert (table ∉ dom h) as Hf by apply is_fresh.
  destruct (run_events_valid chk hash_slow es (CoverageCollector.mk None 0 table)
    (<[table := mk_table 0 ∅]> h) (mk_table 0 ∅)) as (c' & tab' & E & Ht & [Hv _] & Hc).
  - split; [apply lookup_insert_eq|done].
  - done.
  - intros k pc. unfold table_count. cbn. rewrite lookup_empty. cbn. lia.
  - eexists c', _, (maps tab'). split; [exact E|]. unfold CoverageCollector.finish.
    rewrite Hv. split_and!; [done|..].
    + intros hash pc. specialize (Hc hash pc). unfold table_count in Hc at 1. rewrite Hc.
      unfold table_count. cbn. rewrite lookup_empty. cbn. lia.
    + intros t Hin. cbn. rewrite insert_insert_eq, lookup_insert_ne; [done|].
      intros <-. done.
Qed.

(** Two codes that call each other. *)
Definition sample_events : list event :=
  let a pc := Interpreter.mk (Some 7%Z) [1%Z] pc in
  let b pc := Interpreter.mk (Some 0%Z) [2%Z] pc in
  [Initialize (a 0%Z); Step (a 0%Z); Initialize (b 0%Z); Step (b 0%Z); Step (a 1%Z); Step (a 0%Z)].

Lemma collector_exact_witness :
  let '(c0, h0) := CoverageCollector.new ∅ in
  ∃ c' h' ms, run_events true (λ _, 9%Z) sample_events c0 h0 = Some (c', h') ∧
    CoverageCollector.finish c' h' = Some ms ∧
    (λ m, count m 0%Z) <$> ms !! 7%Z = Some 2%Z ∧ (λ m, count m 0%Z) <$> ms !! 9%Z = Some 1%Z.
Proof.
  pose proof (collector_exact true (λ _, 9%Z) ∅ sample_events) as H.
  unfold CoverageCollector.new in *. destruct H as (c' & h' & ms & E & Hf & _).
  - intros e He. unfold sample_events in He.
    repeat (apply elem_of_cons in He as [-> |He]; [by eexists|]). by apply elem_of_nil in He.
  - done.
  - exists c', h', ms. split_and!; [done|done|..];
      (vm_compute in E; injection E as <- <-; vm_compute in Hf; injection Hf as <-; by vm_compute).
Defined.

(** ** The report *)

Definition gain (anchors : list ItemAnchor) (m : HitMap.t) (i : nat) : Z :=
  foldr (λ a acc, (if decide (Z.to_nat (item_id a) = i) then count m (instruction a) else 0) + acc)%Z
    0%Z anchors.

Definition add_gain (g : nat → Z) (items : list CoverageItem.t) : list CoverageItem.t :=
  imap (λ i item, CoverageItem.mk (CoverageItem.kind item) (CoverageItem.loc item)
                    (CoverageItem.hits item + g i)) items.

Lemma lookup_add_gain g items i :
  add_gain g items !! i = (λ item, CoverageItem.mk (CoverageItem.kind item) (CoverageItem.loc item)
                                     (CoverageItem.hits item + g i)) <$> items !! i.
Proof. apply list_lookup_imap. Qed.

Lemma add_gain_0 g items : (∀ i, g i = 0%Z) → add_gain g items = items.
Proof.
  intros Hg. apply list_eq. intros i. rewrite lookup_add_gain.
  destruct (items !! i) as [[k l n]|]; cbn; [|done]. by rewrite Hg, Z.add_0_r.
Qed.

Lemma add_gain_add g1 g2 items :
  add_gain g2 (add_gain g1 items) = add_gain (λ i, g1 i + g2 i)%Z items.
Proof.
  apply list_eq. intros i. rewrite !lookup_add_gain. destruct (items !! i); cbn; [|done].
  by rewrite Z.add_assoc.
Qed.

Lemma add_gain_ext g1 g2 items : (∀ i, g1 i = g2 i) → add_gain g1 items = add_gain g2 items.
Proof. intros Hg. apply list_eq. intros i. by rewrite !lookup_add_gain, Hg. Qed.

Lemma gain_nonneg anchors m i : nonneg_counts m → (0 ≤ gain anchors m i)%Z.
Proof.
  intros Hm. induction anchors as [|a anchors IH]; cbn; [done|].
  fold (gain anchors m i). specialize (Hm (instruction a)). destruct (decide _); lia.
Qed.

Lemma gain_merge anchors m1 m2 m12 i :
  (∀ pc, count m12 pc = count m1 pc + count m2 pc)%Z →
  gain anchors m12 i = (gain anchors m1 i + gain anchors m2 i)%Z.
Proof.
  intros Hc. induction anchors as [|a anchors IH]; [done|]. cbn.
  fold (gain anchors m12 i) (gain anchors m1 i) (gain anchors m2 i). rewrite IH, Hc.
  destruct (decide _); lia.
Qed.

(** Nothing overflows and every anchor has its item. *)
Definition countable (anchors : list ItemAnchor) (m : HitMap.t) (items : list CoverageItem.t) : Prop :=
  nonneg_counts m ∧
  (∀ a, a ∈ anchors → Z.to_nat (item_id a) < length items) ∧
  (∀ i item, items !! i = Some item → CoverageItem.hits item + gain anchors m i < 2 ^ 32)%Z.

Lemma hit_anchors_spec chk anchors m v analyses a :
  analyses !! v = Some a → countable anchors m (SourceAnalysis.all_items a) →
  CoverageReport.hit_anchors chk anchors m v analyses =
    Some (<[v := SourceAnalysis.mk (add_gain (gain anchors m) (SourceAnalysis.all_items a))
                   (SourceAnalysis.map a)]> analyses).
Proof.
  revert analyses a. induction anchors as [|an anchors IH]; intros analyses a Ha (Hm & Hi & Hb).
  { cbn. rewrite add_gain_0 by done. rewrite insert_id; [done|]. by destruct a. }
  cbn [CoverageReport.hit_anchors]. rewrite get_count.
  assert (∀ i, gain (an :: anchors) m i = (if decide (Z.to_nat (item_id an) = i)
    then count m (instruction an) else 0) + gain anchors m i)%Z as Hg by done.
  destruct (Z.eqb_spec (count m (instruction an)) 0) as [Hz|Hz].
  - rewrite (IH analyses a Ha).
    + do 3 f_equal. apply add_gain_ext. intros i. rewrite Hg, Hz. by destruct (decide _).
    + split_and!; [done|intros; apply Hi; set_solver|]. intros i item Hit. specialize (Hb i item Hit).
      rewrite Hg, Hz in Hb. by destruct (decide _).
  - rewrite Ha. cbn [mbind option_bind]. unfold CoverageReport.hit_item.
    destruct (lookup_lt_is_Some_2 (SourceAnalysis.all_items a) (Z.to_nat (item_id an)))
      as [item Hit]; [apply Hi; set_solver|].
    rewrite Hit. cbn [mbind option_bind]. pose proof (Hb _ _ Hit) as Hbi.
    rewrite Hg, decide_True in Hbi by done. pose proof (gain_nonneg anchors m (Z.to_nat (item_id an)) Hm).
    rewrite add_u32_small by lia. cbn [mbind option_bind].
    set (items' := <[Z.to_nat (item_id an) := _]> (SourceAnalysis.all_items a)).
    assert (∀ i x, items' !! i = Some x → ∃ y, SourceAnalysis.all_items a !! i = Some y ∧
      CoverageItem.hits x = (CoverageItem.hits y + if decide (Z.to_nat (item_id an) = i)
        then count m (instruction an) else 0)%Z ∧
      CoverageItem.kind x = CoverageItem.kind y ∧ CoverageItem.loc x = CoverageItem.loc y) as Hitems.
    { intros i x Hx. unfold items' in Hx. destruct (decide (Z.to_nat (item_id an) = i)) as [<-|Hne].
      - rewrite list_lookup_insert_eq in Hx by (by eapply lookup_lt_Some). injection Hx as <-.
        by exists item.
      - rewrite list_lookup_insert_ne in Hx by done. exists x. rewrite Z.add_0_r. done. }
    assert (length items' = length (SourceAnalysis.all_items a)) as Hlen by apply length_insert.
    erewrite IH; [|apply lookup_insert_eq|].
    + rewrite insert_insert_eq. do 3 f_equal. cbn [SourceAnalysis.all_items].
      apply list_eq. intros i. rewrite !lookup_add_gain.
      destruct (items' !! i) as [x0|] eqn:Ex.
      * destruct (Hitems i x0 Ex) as (y0 & Ey & Hh & Hk & Hl).
        rewrite Ey. cbn [fmap option_fmap option_map]. rewrite Hh, Hk, Hl, Hg. do 2 f_equal. lia.
      * apply lookup_ge_None in Ex. rewrite Hlen in Ex. apply lookup_ge_None in Ex. by rewrite Ex.
    + cbn. split_and!; [done|intros a' Ha'; rewrite Hlen; apply Hi; set_solver|].
      intros i x Hx. destruct (Hitems i x Hx) as (y & Ey & -> & _ & _).
      specialize (Hb i y Ey). rewrite Hg in Hb. lia.
Qed.

Section report.
Context `{MapOrder} (chk : bool).

(** The hits of a code, zero where the report has none. *)
Definition code_hits (r : CoverageReport.t) (id : ContractId.t) (pc : Z) : Z :=
  default 0%Z ((λ m, count m pc) <$> CoverageReport.bytecode_hits r !! id).

Definition anchors_of (an : list ItemAnchor * list ItemAnchor) (is_deployed_code : bool) :
  list ItemAnchor := if is_deployed_code then snd an else fst an.

(** The report of [r] with the hits [g] added to the items of one version. *)
Definition gained (r : CoverageReport.t) (v : string) (a : SourceAnalysis.t) (g : nat → Z) :
    gmap string SourceAnalysis.t :=
  <[v := SourceAnalysis.mk (add_gain g (SourceAnalysis.all_items a)) (SourceAnalysis.map a)]>
    (CoverageReport.analyses r).

Lemma add_hit_map_spec r id m d a an :
  CoverageReport.analyses r !! ContractId.version id = Some a →
  CoverageReport.anchors r !! id = Some an →
  countable (anchors_of an d) m (SourceAnalysis.all_items a) →
  (∀ pc, code_hits r id pc + count m pc < 2 ^ 32)%Z →
  ∃ r', CoverageReport.add_hit_map chk r id m d = Some r' ∧
    CoverageReport.analyses r' = gained r (ContractId.version id) a (gain (anchors_of an d) m) ∧
    CoverageReport.anchors r' = CoverageReport.anchors r ∧
    (∀ id' pc, code_hits r' id' pc = code_hits r id' pc + if decide (id' = id) then count m pc else 0)%Z.
Proof.
  intros Ha Han Hc Hb. unfold CoverageReport.add_hit_map.
  assert (∃ m', match CoverageReport.bytecode_hits r !! id with
      | Some m0 => HitMap.merge chk m0 m | None => Some m end = Some m' ∧
      ∀ pc, count m' pc = (code_hits r id pc + count m pc)%Z) as (m' & -> & Hm').
  { unfold code_hits in *. destruct (CoverageReport.bytecode_hits r !! id) as [m0|]; cbn in *.
    - destruct (hit_map_merge chk m0 m Hb) as (m' & E & _ & Hm'). eauto.
    - exists m. split; [done|]. intros pc. lia. }
  cbn [mbind option_bind]. rewrite Han. fold (anchors_of an d).
  rewrite (hit_anchors_spec chk _ m _ _ a Ha Hc). cbn [mbind option_bind].
  eexists. split_and!; [done..|]. intros id' pc. unfold code_hits at 1. cbn.
  destruct (decide (id' = id)) as [->|Hne].
  - rewrite lookup_insert_eq. apply Hm'.
  - rewrite lookup_insert_ne by done. fold (code_hits r id' pc). lia.
Qed.
End report.

(** Adding two hit maps of a code to the report one after the other gives the report that
    adding their merged hit map gives: the hits of an item grow by the counts of all its anchors'
    instructions in both maps, the items of every other version are untouched, and so are the hits
    of every other code.  So it does not matter how the tests that hit the code are grouped, nor
    in which order the hit maps are visited. *)
Theorem report_merge `{MapOrder} (chk : bool) r id m1 m2 d a an :
  CoverageReport.analyses r !! ContractId.version id = Some a →
  CoverageReport.anchors r !! id = Some an →
  (∀ x, x ∈ anchors_of an d → Z.to_nat (item_id x) < length (SourceAnalysis.all_items a)) →
  nonneg_counts m1 → nonneg_counts m2 →
  (∀ i item, SourceAnalysis.all_items a !! i = Some item →
     CoverageItem.hits item + gain (anchors_of an d) m1 i + gain (anchors_of an d) m2 i < 2 ^ 32)%Z →
  (∀ pc, 0 ≤ code_hits r id pc ∧ code_hits r id pc + count m1 pc + count m2 pc < 2 ^ 32)%Z →
  ∃ m12 r1 r2 r12,
    HitMap.merge chk m1 m2 = Some m12 ∧
    CoverageReport.add_hit_map chk r id m1 d = Some r1 ∧
    CoverageReport.add_hit_map chk r1 id m2 d = Some r2 ∧
    CoverageReport.add_hit_map chk r id m12 d = Some r12 ∧
    CoverageReport.analyses r2 = CoverageReport.analyses r12 ∧
    CoverageReport.analyses r12 = gained r (ContractId.version id) a
      (λ i, gain (anchors_of an d) m1 i + gain (anchors_of an d) m2 i)%Z ∧
    ∀ id' pc, code_hits r2 id' pc = code_hits r12 id' pc ∧
      code_hits r12 id' pc =
        (code_hits r id' pc + if decide (id' = id) then count m1 pc + count m2 pc else 0)%Z.
Proof.
  intros Ha Han Hix H1 H2 Hit Hb.
  pose proof (λ i, gain_nonneg (anchors_of an d) m1 i H1) as G1.
  pose proof (λ i, gain_nonneg (anchors_of an d) m2 i H2) as G2.
  destruct (hit_map_merge chk m1 m2) as (m12 & E12 & _ & H12).
  { intros pc. specialize (Hb pc). lia. }
  pose proof (λ i, gain_merge (anchors_of an d) m1 m2 m12 i H12) as G12.
  destruct (add_hit_map_spec chk r id m1 d a an Ha Han) as (r1 & E1 & A1 & N1 & C1).
  { split_and!; [done..|]. intros i item Hi. specialize (Hit i item Hi). specialize (G2 i). lia. }
  { intros pc. specialize (Hb pc). specialize (H2 pc). lia. }
  edestruct (add_hit_map_spec chk r1 id m2 d) as (r2 & E2 & A2 & _ & C2).
  { rewrite A1. apply lookup_insert_eq. }
  { by rewrite N1. }
  { split_and!; [done|..]; cbn [SourceAnalysis.all_items].
    - intros x Hx. unfold add_gain. rewrite length_imap. by apply Hix.
    - intros i item. rewrite lookup_add_gain. destruct (SourceAnalysis.all_items a !! i) eqn:Ei; [|done].
      cbn. intros [= <-]. cbn. by apply Hit. }
  { intros pc. rewrite C1, decide_True by done. specialize (Hb pc). lia. }
  destruct (add_hit_map_spec chk r id m12 d a an Ha Han) as (r12 & E3 & A3 & _ & C3).
  { split_and!; [|done|].
    - intros pc. rewrite H12. specialize (H1 pc). specialize (H2 pc). lia.
    - intros i item Hi. rewrite G12. specialize (Hit i item Hi). lia. }
  { intros pc. rewrite H12. specialize (Hb pc). lia. }
  assert (CoverageReport.analyses r12 = gained r (ContractId.version id) a
      (λ i, gain (anchors_of an d) m1 i + gain (anchors_of an d) m2 i)%Z) as Hg.
  { rewrite A3. unfold gained. do 2 f_equal. by apply add_gain_ext. }
  exists m12, r1, r2, r12. split_and!; [done..| |done|].
  - rewrite Hg, A2. unfold gained. rewrite A1. unfold gained. rewrite insert_insert_eq.
    do 2 f_equal. cbn [SourceAnalysis.all_items]. apply add_gain_add.
  - intros id' pc. rewrite C2, C1, C3, H12. destruct (decide _); lia.
Qed.

(** One statement of one source, hit from two program counters. *)
Definition sample_report : CoverageReport.t :=
  let r := CoverageReport.add_source CoverageReport.empty "0.8.20" 0 (path_new "src/C.sol") in
  let r := CoverageReport.add_analysis r "0.8.20" (SourceAnalysis.mk
    [CoverageItem.mk KStatement (SourceLocation.mk 0 "C" 10 20 1 1) 1] [(0, 1)%Z]) in
  CoverageReport.add_anchors r
    [(ContractId.mk "0.8.20" 0 "C", ([], [mk_anchor 2 0; mk_anchor 5 0]))].

Lemma report_merge_witness :
  let m1 := HitMap.mk [] {[2 := 3; 4 := 1]}%Z in
  let m2 := HitMap.mk [] {[5 := 4]}%Z in
  let _ := default_map_order in
  ∃ m12 r12, HitMap.merge true m1 m2 = Some m12 ∧
    CoverageReport.add_hit_map true sample_report (ContractId.mk "0.8.20" 0 "C") m12 true = Some r12 ∧
    (SourceAnalysis.all_items <$> CoverageReport.analyses r12 !! "0.8.20") =
      Some [CoverageItem.mk KStatement (SourceLocation.mk 0 "C" 10 20 1 1) 8].
Proof.
  intros m1 m2 O.
  destruct (report_merge true sample_report (ContractId.mk "0.8.20" 0 "C") m1 m2 true
    (SourceAnalysis.mk [CoverageItem.mk KStatement (SourceLocation.mk 0 "C" 10 20 1 1) 1] [(0, 1)%Z])
    ([], [mk_anchor 2 0; mk_anchor 5 0])) as (m12 & r1 & r2 & r12 & E12 & _ & _ & E & _ & A & _).
  - reflexivity.
  - reflexivity.
  - intros x Hx. unfold anchors_of in Hx. cbn [snd] in Hx.
    repeat (apply elem_of_cons in Hx as [-> |Hx]; [cbn; lia|]). by apply elem_of_nil in Hx.
  - intros pc. unfold count, m1. cbn [HitMap.counts].
    destruct (decide (pc = 2%Z)) as [->|]; [done|]. rewrite lookup_insert_ne by done.
    destruct (decide (pc = 4%Z)) as [->|]; [done|]. by rewrite lookup_singleton_ne.
  - intros pc. unfold count, m2. cbn [HitMap.counts].
    destruct (decide (pc = 5%Z)) as [->|]; [done|]. by rewrite lookup_singleton_ne.
  - intros [|i] item Hi; [|done]. cbn in Hi. injection Hi as <-. by vm_compute.
  - intros pc. unfold code_hits. replace (CoverageReport.bytecode_hits sample_report !! _)
      with (@None HitMap.t) by done. cbn [fmap option_fmap option_map default].
    unfold count, m1, m2. cbn [HitMap.counts].
    destruct (decide (pc = 2%Z)) as [->|]; [done|]. rewrite lookup_insert_ne by done.
    destruct (decide (pc = 4%Z)) as [->|]; [done|]. rewrite lookup_singleton_ne by done.
    destruct (decide (pc = 5%Z)) as [->|]; [done|]. by rewrite lookup_singleton_ne.
  - exists m12, r12. split_and!; [done..|]. rewrite A. by vm_compute.
Defined.
