(* ===== verification/CoverageItems.v ===== *)
(** The items of a source analysis, and the summaries of a coverage report. *)
From S2P Require Import Prelude Transaction Database Paths Coverage CoverageTheorems.

(** ** The items of a source *)

Section source_items.
Import SourceAnalysis.
Implicit Types (p : list (Z * list CoverageItem.t)) (x : Z * list CoverageItem.t).

(** The items of the entries that satisfy [P]. *)
Definition items_where (P : Z → bool) p : list CoverageItem.t :=
  concat (filter (λ x, P (fst x) = true) p).*2.

Lemma items_where_app P p1 p2 : items_where P (p1 ++ p2) = items_where P p1 ++ items_where P p2.
Proof. unfold items_where. by rewrite filter_app, fmap_app, concat_app. Qed.

Lemma items_where_one P x : items_where P [x] = if P (fst x) then snd x else [].
Proof.
  unfold items_where. rewrite filter_cons, filter_nil. destruct (P (fst x)).
  - rewrite decide_True by done. apply app_nil_r.
  - by rewrite decide_False.
Qed.

Lemma items_where_none P p : Forall (λ x, P (fst x) = false) p → items_where P p = [].
Proof.
  intros HF. unfold items_where. induction HF as [|x p Hx _ IH]; [done|].
  rewrite filter_cons, decide_False by congruence. done.
Qed.

Lemma items_where_all P p : Forall (λ x, P (fst x) = true) p → items_where P p = concat p.*2.
Proof.
  intros HF. unfold items_where. induction HF as [|x p Hx _ IH]; [done|].
  rewrite filter_cons, decide_True by done. cbn. by rewrite IH.
Qed.

Definition sorted p : Prop := StronglySorted (λ x y, fst x ≤ fst y)%Z p.

Lemma sourced_cmp_le x y : sourced_cmp x y ≠ Gt → (fst x ≤ fst y)%Z.
Proof. unfold sourced_cmp. destruct (Z.compare_spec (fst x) (fst y)); [lia|lia|done]. Qed.

Lemma option_cmp_flip a b : option_cmp a b = Gt → option_cmp b a ≠ Gt.
Proof.
  destruct a, b; cbn; try done. rewrite Z.compare_gt_iff. intros H. apply Z.compare_le_iff. lia.
Qed.

Lemma option_cmp_trans a b c : option_cmp a b ≠ Gt → option_cmp b c ≠ Gt → option_cmp a c ≠ Gt.
Proof. destruct a, b, c; cbn; try done. rewrite !Z.compare_le_iff. lia. Qed.

Lemma sort_sourced p : sorted (sort_by sourced_cmp p).
Proof.
  assert (StronglySorted (λ x y, sourced_cmp x y ≠ Gt) (sort_by sourced_cmp p)) as Hs.
  { apply sort_by_sorted; unfold sourced_cmp.
    - intros x y. rewrite (Z.compare_antisym (fst x) (fst y)).
      destruct (Z.compare (fst x) (fst y)); cbn; [apply option_cmp_flip|done|done].
    - intros x y z. destruct (Z.compare_spec (fst x) (fst y)) as [E1|E1|E1]; [| |done];
        destruct (Z.compare_spec (fst y) (fst z)) as [E2|E2|E2]; try done;
        destruct (Z.compare_spec (fst x) (fst z)); try done; try lia.
      apply option_cmp_trans. }
  unfold sorted. induction Hs as [|x l _ IH Hx]; constructor; [done|].
  eapply Forall_impl; [exact Hx|]. intros y. apply sourced_cmp_le.
Qed.

(** Where [new] has recorded the items of a source, after the entries [p]. *)
Definition entry p (i : nat) : Z * Z :=
  if existsb (λ x, fst x =? Z.of_nat i)%Z p
  then (Z.of_nat (length (items_where (λ k, k <? Z.of_nat i)%Z p)),
        Z.of_nat (length (items_where (λ k, k =? Z.of_nat i)%Z p)))
  else (u32_max, 0%Z).

Lemma entry_other p x i :
  Forall (λ y, fst y ≤ fst x)%Z p → fst x ≠ Z.of_nat i → entry (p ++ [x]) i = entry p i.
Proof.
  intros Hp Hne. unfold entry. rewrite existsb_app, !items_where_app, !items_where_one. cbn.
  rewrite (proj2 (Z.eqb_neq _ _) Hne), !orb_false_r, app_nil_r.
  destruct (existsb _ p) eqn:Ex; [|done]. apply existsb_exists in Ex as (y & Hy & E).
  apply list_elem_of_In in Hy. rewrite Forall_forall in Hp. specialize (Hp y Hy).
  destruct (Z.ltb_spec (fst x) (Z.of_nat i)); [lia|]. by rewrite app_nil_r.
Qed.

Lemma entry_same p x i :
  Forall (λ y, fst y ≤ fst x)%Z p → fst x = Z.of_nat i → (Z.of_nat (length (concat p.*2)) < u32_max)%Z →
  entry (p ++ [x]) i =
    (if (fst (entry p i) =? u32_max)%Z then Z.of_nat (length (concat p.*2)) else fst (entry p i),
     (snd (entry p i) + Z.of_nat (length (snd x)))%Z).
Proof.
  intros Hp He Hlen. unfold entry. rewrite existsb_app, !items_where_app, !items_where_one.
  assert (Z.of_nat (length (items_where (λ k, k <? Z.of_nat i)%Z p)) ≤ Z.of_nat (length (concat p.*2)))%Z as Hle.
  { clear. unfold items_where. induction p as [|y p IH]; [done|]. rewrite filter_cons.
    destruct (decide _); cbn; rewrite !length_app; lia. }
  cbn [existsb]. rewrite He, Z.eqb_refl, Z.ltb_irrefl, orb_true_r, app_nil_r, length_app, Nat2Z.inj_add.
  destruct (existsb _ p) eqn:Ex; cbn [fst snd].
  - rewrite (proj2 (Z.eqb_neq _ _)) by lia. done.
  - assert (Forall (λ y, (fst y <? Z.of_nat i)%Z = true ∧ (fst y =? Z.of_nat i)%Z = false) p) as Hlt.
    { apply Forall_forall. intros y Hy. rewrite Forall_forall in Hp. specialize (Hp y Hy).
      destruct (Z.eqb_spec (fst y) (Z.of_nat i)) as [E|E].
      - exfalso. rewrite <- not_true_iff_false in Ex. apply Ex. apply existsb_exists. exists y.
        rewrite <- list_elem_of_In. split; [done|]. by apply Z.eqb_eq.
      - split; [apply Z.ltb_lt; lia|done]. }
    rewrite items_where_all, (items_where_none (λ k, k =? Z.of_nat i)%Z)
      by (eapply Forall_impl; [exact Hlt|]; by intros ? []). rewrite Z.eqb_refl. done.
Qed.

(** [map] records every entry of [p]. *)
Definition records p (map : list (Z * Z)) : Prop :=
  ∀ i, i < length map → map !! i = Some (entry p i).

Lemma fill_spec chk todo p map :
  sorted (p ++ todo) → records p map →
  Forall (λ x, (0 ≤ fst x)%Z ∧ Z.to_nat (fst x) < length map) todo →
  (Z.of_nat (length (concat (p ++ todo).*2)) < u32_max)%Z →
  ∃ map', fill chk todo (concat p.*2, map) = Some (concat (p ++ todo).*2, map') ∧
    records (p ++ todo) map' ∧ length map' = length map.
Proof.
  revert p map. induction todo as [|x todo IH]; intros p map Hs Hr Hf Hlen.
  { exists map. rewrite app_nil_r in *. done. }
  apply Forall_cons in Hf as [[Hx0 Hx] Hf]. cbn [fill]. unfold fill_step at 1.
  set (i := Z.to_nat (fst x)) in *. assert (fst x = Z.of_nat i) as Hi by lia.
  rewrite (Hr i Hx). cbn [mbind option_bind].
  assert (Forall (λ y, fst y ≤ fst x)%Z p) as Hp.
  { apply Forall_forall. intros y Hy. exact (StronglySorted_app_1_elem_of _ p (x :: todo) y x Hs Hy ltac:(by left)). }
  rewrite fmap_app, concat_app, length_app in Hlen. cbn [fmap list_fmap concat] in Hlen.
  rewrite length_app in Hlen.
  assert (0 ≤ snd (entry p i) ∧ snd (entry p i) ≤ Z.of_nat (length (concat p.*2)))%Z as Hsnd.
  { unfold entry. destruct (existsb _ _); cbn [snd]; [|lia]. split; [lia|]. clear.
    unfold items_where. induction p as [|y p IH]; [done|]. rewrite filter_cons.
    destruct (decide _); cbn; rewrite !length_app; lia. }
  unfold u32_max in *. rewrite !Z.mod_small by lia. rewrite add_u32_small by lia. cbn [mbind option_bind].
  pose proof (entry_same p x i Hp Hi) as Hes. unfold u32_max in Hes. rewrite <- Hes by lia.
  replace (concat p.*2 ++ snd x) with (concat (p ++ [x]).*2)
    by (rewrite fmap_app, concat_app; cbn; by rewrite app_nil_r).
  destruct (IH (p ++ [x]) (<[i := entry (p ++ [x]) i]> map)) as (map' & E & Hr' & Hl).
  - by rewrite <- app_assoc.
  - intros j Hj. rewrite length_insert in Hj. destruct (decide (j = i)) as [->|Hne].
    + by rewrite list_lookup_insert_eq.
    + rewrite list_lookup_insert_ne by done. rewrite (Hr j Hj). f_equal. symmetry.
      apply entry_other; [done|lia].
  - by rewrite length_insert.
  - rewrite <- app_assoc, fmap_app, concat_app. cbn. rewrite !length_app. lia.
  - exists map'. rewrite <- app_assoc in E, Hr'. rewrite length_insert in Hl. done.
Qed.

Lemma sorted_split p i :
  sorted p → concat p.*2 = items_where (λ k, k <? i)%Z p ++ items_where (λ k, k =? i)%Z p ++
    items_where (λ k, i <? k)%Z p.
Proof.
  induction 1 as [|x p Hs IH Hx]; [done|].
  change (x :: p) with ([x] ++ p). rewrite !items_where_app, !items_where_one. cbn. rewrite IH.
  destruct (Z.ltb_spec (fst x) i), (Z.eqb_spec (fst x) i), (Z.ltb_spec i (fst x)); try lia.
  - by rewrite <- app_assoc.
  - rewrite (items_where_none (λ k, k <? i)%Z). { cbn. by rewrite <- app_assoc. }
    eapply Forall_impl; [exact Hx|]. intros y Hy. apply Z.ltb_ge. cbn in Hy. lia.
  - rewrite (items_where_none (λ k, k <? i)%Z), (items_where_none (λ k, k =? i)%Z). { done. }
    + eapply Forall_impl; [exact Hx|]. intros y Hy. apply Z.eqb_neq. cbn in Hy. lia.
    + eapply Forall_impl; [exact Hx|]. intros y Hy. apply Z.ltb_ge. cbn in Hy. lia.
Qed.

Lemma sorted_last_le p x y : sorted p → last p = Some x → y ∈ p → (fst y ≤ fst x)%Z.
Proof.
  intros Hs [l ->]%last_Some Hy. apply elem_of_app in Hy as [Hy| ->%list_elem_of_singleton]; [|lia].
  exact (StronglySorted_app_1_elem_of _ l [x] y x Hs Hy ltac:(by left)).
Qed.

Lemma new_spec chk sourced :
  Forall (λ x, 0 ≤ fst x)%Z sourced → (Z.of_nat (length (concat sourced.*2)) < u32_max)%Z →
  ∃ p a, p ≡ₚ sourced ∧ sorted p ∧ new chk sourced = Some a ∧ all_items a = concat p.*2 ∧
    ∀ i, map a !! i = Some (entry p i) ∨ map a !! i = None ∧ Forall (λ x, fst x ≠ Z.of_nat i) p.
Proof.
  intros Hpos Hlen. exists (sort_by sourced_cmp sourced). unfold new.
  pose proof (sort_by_perm sourced_cmp sourced) as Hperm. pose proof (sort_sourced sourced) as Hs.
  set (p := sort_by sourced_cmp sourced) in *. clearbody p.
  destruct (last p) as [[max_idx its]|] eqn:Hl.
  2:{ apply last_None in Hl as ->. exists empty. split_and!; [done..|]. intros i. right. done. }
  pose proof (λ y, sorted_last_le p (max_idx, its) y Hs Hl) as Hmax. cbn in Hmax.
  destruct (fill_spec chk p [] (replicate (Z.to_nat max_idx + 1) (u32_max, 0%Z))) as (map' & E & Hr & Hlm).
  - done.
  - intros i Hi. rewrite length_replicate in Hi. by rewrite lookup_replicate_2.
  - rewrite Forall_forall in Hpos |- *. intros x Hx. specialize (Hmax x Hx).
    rewrite Hperm in Hx. specialize (Hpos x Hx). rewrite length_replicate. lia.
  - cbn [app]. by rewrite Hperm.
  - cbn [fmap list_fmap concat app] in E, Hr. rewrite E. cbn [mbind option_bind].
    eexists. split_and!; [done..|]. intros i. cbn. destruct (decide (i < length map')) as [Hi|Hi].
    + left. by apply Hr.
    + right. split; [apply lookup_ge_None; lia|]. rewrite length_replicate in Hlm.
      apply Forall_forall. intros x Hx. specialize (Hmax x Hx). lia.
Qed.

Lemma items_for_source_spec p a (i : nat) :
  sorted p → all_items a = concat p.*2 → (Z.of_nat (length (concat p.*2)) < u32_max)%Z →
  (map a !! i = Some (entry p i) ∨ map a !! i = None ∧ Forall (λ x, fst x ≠ Z.of_nat i) p) →
  ∃ pre suf, all_items a = pre ++ items_where (λ k, k =? Z.of_nat i)%Z p ++ suf ∧
    items_for_source a (Z.of_nat i) =
      Some (Z.of_nat (length pre), items_where (λ k, k =? Z.of_nat i)%Z p) ∧
    (items_where (λ k, k =? Z.of_nat i)%Z p ≠ [] → pre = items_where (λ k, k <? Z.of_nat i)%Z p).
Proof.
  intros Hs Hall Hlen Hm. unfold items_for_source. rewrite Nat2Z.id.
  destruct (existsb (λ x, fst x =? Z.of_nat i)%Z p) eqn:Ex.
  - destruct Hm as [-> |[_ Hno]].
    2:{ apply existsb_exists in Ex as (x & Hx & E). rewrite <- list_elem_of_In in Hx.
        rewrite Forall_forall in Hno. apply Z.eqb_eq in E. by destruct (Hno x). }
    unfold entry. rewrite Ex. cbn [default from_option id].
    exists (items_where (λ k, k <? Z.of_nat i)%Z p), (items_where (λ k, Z.of_nat i <? k)%Z p).
    pose proof (sorted_split p (Z.of_nat i) Hs) as Hsp. split_and!; [congruence| |done].
    rewrite Hsp in Hlen. rewrite Hall, Hsp. rewrite !length_app in Hlen |- *.
    rewrite (proj2 (Z.eqb_neq _ _)) by lia. rewrite !Nat2Z.id, decide_True by lia.
    by rewrite drop_app_length, take_app_length.
  - assert (Forall (λ x, (fst x =? Z.of_nat i)%Z = false) p) as Hno.
    { apply Forall_forall. intros x Hx. apply not_true_iff_false. intros E.
      rewrite <- not_true_iff_false in Ex. apply Ex. apply existsb_exists. exists x.
      by rewrite <- list_elem_of_In. }
    rewrite items_where_none by done. exists [], (all_items a). split_and!; [done| |done].
    destruct Hm as [-> |[-> _]]; [unfold entry; rewrite Ex|]; done.
Qed.

Lemma items_where_lt p i j :
  (i < j)%Z → length (items_where (λ k, k <? i)%Z p) + length (items_where (λ k, k =? i)%Z p) ≤
    length (items_where (λ k, k <? j)%Z p).
Proof.
  intros Hij. induction p as [|x p IH]; [done|]. change (x :: p) with ([x] ++ p).
  rewrite !items_where_app, !items_where_one, !length_app.
  destruct (Z.ltb_spec (fst x) i), (Z.eqb_spec (fst x) i), (Z.ltb_spec (fst x) j); cbn; lia.
Qed.

Lemma imap_ids base (items : list CoverageItem.t) :
  (imap (λ idx item, ((base + Z.of_nat idx)%Z, item)) items).*1 = seqZ base (Z.of_nat (length items)).
Proof.
  rewrite fmap_imap. apply list_eq. intros k. rewrite list_lookup_imap.
  destruct (decide (k < length items)) as [Hk|Hk].
  - rewrite lookup_seqZ_lt by lia. destruct (lookup_lt_is_Some_2 items k Hk) as [x ->]. done.
  - rewrite lookup_seqZ_ge by lia. by rewrite lookup_ge_None_2 by lia.
Qed.

Lemma imap_items base (items : list CoverageItem.t) :
  (imap (λ idx item, ((base + Z.of_nat idx)%Z, item)) items).*2 = items.
Proof. rewrite fmap_imap. apply list_eq. intros k. rewrite list_lookup_imap. by destruct (items !! k). Qed.

(** The items of each source with their ids, which no two sources share. *)
Lemma enumerated_spec chk sourced :
  Forall (λ x, 0 ≤ fst x)%Z sourced → (Z.of_nat (length (concat sourced.*2)) < u32_max)%Z →
  ∃ a (ids : Z → list (Z * CoverageItem.t)), new chk sourced = Some a ∧
    all_items a ≡ₚ concat sourced.*2 ∧ ∀ i, (0 ≤ i)%Z →
    items_for_source_enumerated a i = Some (ids i) ∧ (ids i).*2 ≡ₚ items_where (λ k, k =? i)%Z sourced ∧
    (∃ base, (ids i).*1 = seqZ base (Z.of_nat (length (ids i)))) ∧
    (∀ n item, (n, item) ∈ ids i → (0 ≤ n)%Z ∧ get a n = Some item) ∧
    ∀ j n, (0 ≤ j)%Z → n ∈ (ids i).*1 → n ∈ (ids j).*1 → i = j.
Proof.
  intros Hpos Hlen. destruct (new_spec chk sourced Hpos Hlen) as (p & a & Hperm & Hs & E & Hall & Hm).
  assert (∀ i : nat, ∃ pre suf, all_items a = pre ++ items_where (λ k, k =? Z.of_nat i)%Z p ++ suf ∧
    items_for_source a (Z.of_nat i) = Some (Z.of_nat (length pre), items_where (λ k, k =? Z.of_nat i)%Z p) ∧
    (items_where (λ k, k =? Z.of_nat i)%Z p ≠ [] → pre = items_where (λ k, k <? Z.of_nat i)%Z p)) as Hsrc.
  { intros i. apply items_for_source_spec; [done|done|by rewrite Hperm|apply Hm]. }
  exists a, (λ i, default [] (items_for_source_enumerated a i)).
  split_and!; [done|by rewrite Hall, Hperm|]. intros i Hi.
  destruct (Hsrc (Z.to_nat i)) as (pre & suf & Happ & Hit & Hpre).
  rewrite Z2Nat.id in Happ, Hit, Hpre by done. set (items := items_where _ p) in *.
  assert (items_for_source_enumerated a i = Some (imap (λ idx item,
    ((Z.of_nat (length pre) + Z.of_nat idx)%Z, item)) items)) as He
    by (unfold items_for_source_enumerated; by rewrite Hit).
  rewrite He. cbn [default from_option id]. split_and!.
  - done.
  - rewrite imap_items. unfold items, items_where. by rewrite Hperm.
  - exists (Z.of_nat (length pre)). by rewrite imap_ids, length_imap.
  - intros n item [k Hk]%list_elem_of_lookup_1. rewrite list_lookup_imap in Hk.
    destruct (items !! k) as [x|] eqn:Ek; [|done]. injection Hk as <- <-. split; [lia|].
    unfold get. rewrite Happ, <- Nat2Z.inj_add, Nat2Z.id. rewrite lookup_app_r by lia. rewrite lookup_app_l.
    + by replace (length pre + k - length pre) with k by lia.
    + apply lookup_lt_Some in Ek. lia.
  - intros j n Hj. destruct (Hsrc (Z.to_nat j)) as (prej & sufj & _ & Hitj & Hprej).
    rewrite Z2Nat.id in Hitj, Hprej by done.
    unfold items_for_source_enumerated. rewrite Hitj. cbn [mbind option_bind default from_option id].
    rewrite !imap_ids, !elem_of_seqZ. intros H1 H2.
    rewrite Hpre in H1 by (intros E0; rewrite E0 in H1; cbn in H1; lia).
    rewrite Hprej in H2 by (intros E0; rewrite E0 in H2; cbn in H2; lia).
    destruct (Z.lt_trichotomy i j) as [Hlt|[?|Hlt]]; [|done|].
    + pose proof (items_where_lt p i j Hlt). unfold items in *. lia.
    + pose proof (items_where_lt p j i Hlt). lia.
Qed.
End source_items.

(** From the items found in the contracts of each source, in any order and with several
    contracts in one source, [SourceAnalysis::new] builds an analysis that loses and invents no
    item, and in which [items_for_source_enumerated] of a source returns exactly the items of that
    source, numbered consecutively, each number being the id that [get] and the hit counters use
    for that very item; no two sources share an id, and a source without items has none. *)
Theorem source_items_exact (chk : bool) (sourced : list (Z * list CoverageItem.t)) :
  Forall (λ x, 0 ≤ fst x)%Z sourced →
  (Z.of_nat (length (concat sourced.*2)) < SourceAnalysis.u32_max)%Z →
  ∃ a, SourceAnalysis.new chk sourced = Some a ∧
    SourceAnalysis.all_items a ≡ₚ concat sourced.*2 ∧
    ∀ id, (0 ≤ id)%Z → ∃ base l,
      SourceAnalysis.items_for_source_enumerated a id = Some l ∧
      l.*2 ≡ₚ items_where (λ k, k =? id)%Z sourced ∧
      l.*1 = seqZ base (Z.of_nat (length l)) ∧
      (∀ n item, (n, item) ∈ l → SourceAnalysis.get a n = Some item) ∧
      ∀ id' l' n, (0 ≤ id')%Z → SourceAnalysis.items_for_source_enumerated a id' = Some l' →
        n ∈ l.*1 → n ∈ l'.*1 → id = id'.
Proof.
  intros Hpos Hlen. destruct (enumerated_spec chk sourced Hpos Hlen) as (a & ids & E & Hall & Hids).
  exists a. split_and!; [done..|]. intros id Hid.
  destruct (Hids id Hid) as (He & Hit & [base Hb] & Hget & Hdisj). exists base, (ids id).
  split_and!; [done..|by intros n item [_ Hn]%Hget|]. intros id' l' n Hid' He' Hn Hn'.
  destruct (Hids id' Hid') as (He2 & _). rewrite He2 in He'. injection He' as <-. by eapply Hdisj.
Qed.

Lemma source_items_exact_witness :
  let item id n := CoverageItem.mk KStatement (SourceLocation.mk id "C" n (n + 5) 1 1) 0 in
  ∃ a l, SourceAnalysis.new true [(2, [item 2 9; item 2 30]); (0, [item 0 4]); (2, [item 2 1])]%Z = Some a ∧
    SourceAnalysis.items_for_source_enumerated a 2 = Some l ∧
    l.*2 ≡ₚ [item 2 9; item 2 30; item 2 1]%Z.
Proof.
  intros item.
  destruct (source_items_exact true
    [(2, [item 2 9; item 2 30]); (0, [item 0 4]); (2, [item 2 1])]%Z) as (a & E & _ & H).
  - repeat constructor; cbn; lia.
  - by vm_compute.
  - destruct (H 2%Z) as (base & l & El & Hp & _); [lia|]. exists a, l. split_and!; [done..|].
    rewrite Hp. by vm_compute.
Defined.

(** ** Summaries *)

Definition kind_tag (k : CoverageItemKind) : nat :=
  match k with KLine => 0 | KStatement => 1 | KBranch _ _ _ => 2 | KFunction _ => 3 end.

Definition total (tag : nat) (l : list CoverageItem.t) : Z :=
  Z.of_nat (length (filter (λ i, kind_tag (CoverageItem.kind i) = tag) l)).

Definition covered (tag : nat) (l : list CoverageItem.t) : Z :=
  total tag (filter (λ i, (0 < CoverageItem.hits i)%Z) l).

Definition summary_of (l : list CoverageItem.t) : CoverageSummary.t :=
  CoverageSummary.mk (total 0 l) (covered 0 l) (total 1 l) (covered 1 l)
    (total 2 l) (covered 2 l) (total 3 l) (covered 3 l).

Lemma total_app tag l1 l2 : total tag (l1 ++ l2) = (total tag l1 + total tag l2)%Z.
Proof. unfold total. rewrite filter_app, length_app. lia. Qed.

Lemma covered_app tag l1 l2 : covered tag (l1 ++ l2) = (covered tag l1 + covered tag l2)%Z.
Proof. unfold covered. by rewrite filter_app, total_app. Qed.

Lemma total_one tag x : total tag [x] = if kind_tag (CoverageItem.kind x) =? tag then 1%Z else 0%Z.
Proof.
  unfold total. rewrite filter_cons, filter_nil.
  destruct (Nat.eqb_spec (kind_tag (CoverageItem.kind x)) tag); by destruct (decide _).
Qed.

Lemma covered_one tag x : covered tag [x] = if (0 <? CoverageItem.hits x)%Z then total tag [x] else 0%Z.
Proof.
  unfold covered. rewrite filter_cons, filter_nil.
  destruct (Z.ltb_spec 0 (CoverageItem.hits x)); [by rewrite decide_True|by rewrite decide_False by lia].
Qed.

Lemma from_items_spec l : CoverageSummary.from_items l = summary_of l.
Proof.
  induction l as [|x l IH] using rev_ind; [done|].
  unfold CoverageSummary.from_items, CoverageSummary.add_items in *. rewrite foldl_app, IH.
  unfold summary_of. rewrite !total_app, !covered_app. cbn [foldl].
  unfold CoverageSummary.add_item. rewrite !covered_one, !total_one.
  destruct x as [[] loc n]; cbn [CoverageItem.kind CoverageItem.hits kind_tag Nat.eqb];
    destruct (0 <? n)%Z; f_equal; lia.
Qed.

Lemma summary_of_perm l1 l2 : l1 ≡ₚ l2 → summary_of l1 = summary_of l2.
Proof. intros Hp. unfold summary_of, covered, total. f_equal; by rewrite Hp. Qed.

Lemma covered_le tag l : (0 ≤ covered tag l ≤ total tag l)%Z.
Proof.
  unfold covered. induction l as [|x l IH]; [done|]. rewrite filter_cons.
  change (x :: l) with ([x] ++ l). rewrite (total_app tag [x] l).
  assert (0 ≤ total tag [x])%Z by (unfold total; lia).
  destruct (decide _); [|lia].
  match goal with |- context [total tag (x :: ?k)] => change (x :: k) with ([x] ++ k) end.
  rewrite total_app. lia.
Qed.

Section by_file.
Context `{VersionOrder} {T : Type} (init : T) (f : T → CoverageItem.t → T) (r : CoverageReport.t).
Import CoverageReport.

(** The items of a version that are in a file. *)
Definition version_items (path : Path) (va : string * SourceAnalysis.t) : list CoverageItem.t :=
  filter (λ item, source_paths r !! (fst va, SourceLocation.source_id (CoverageItem.loc item)) = Some path)
    (SourceAnalysis.all_items (snd va)).

Definition feed (o : option T) (l : list CoverageItem.t) : option T :=
  match l with [] => o | _ => Some (foldl f (default init o) l) end.

Lemma feed_app o l1 l2 : feed o (l1 ++ l2) = feed (feed o l1) l2.
Proof.
  destruct l1 as [|x l1]; [done|]. destruct l2 as [|y l2]; [by rewrite app_nil_r|].
  cbn. by rewrite foldl_app.
Qed.

Definition file_step (v : string) (m : gmap Path T) (item : CoverageItem.t) : gmap Path T :=
  match source_paths r !! (v, SourceLocation.source_id (CoverageItem.loc item)) with
  | Some path => <[path := f (default init (m !! path)) item]> m
  | None => m
  end.

Lemma items_step_spec v its m path :
  foldl (file_step v) m its !! path = feed (m !! path)
    (filter (λ item, source_paths r !! (v, SourceLocation.source_id (CoverageItem.loc item)) = Some path) its).
Proof.
  revert m. induction its as [|x its IH]; intros m; [done|]. cbn [foldl].
  rewrite IH, filter_cons. unfold file_step. destruct (source_paths r !! _) as [path'|].
  - destruct (decide (path' = path)) as [->|Hne].
    + rewrite lookup_insert_eq, decide_True by done.
      match goal with |- _ = feed _ (x :: ?l) => change (x :: l) with ([x] ++ l) end.
      by rewrite feed_app.
    + rewrite lookup_insert_ne, decide_False by congruence. done.
  - by rewrite decide_False.
Qed.

Lemma by_file_spec path :
  by_file init f r !! path = feed None (concat (version_items path <$> version_iter (analyses r))).
Proof.
  unfold by_file. change None with ((∅ : gmap Path T) !! path).
  generalize (∅ : gmap Path T). induction (version_iter (analyses r)) as [|[v a] l IH]; intros m; [done|].
  cbn [foldl fmap list_fmap concat]. rewrite IH, feed_app. f_equal. apply items_step_spec.
Qed.
End by_file.

(** The items of a file over all versions. *)
Definition file_items (r : CoverageReport.t) (path : Path) : list CoverageItem.t :=
  concat (version_items r path <$> map_to_list (CoverageReport.analyses r)).

(** Whatever the iteration order of the hash maps, the summary of a file counts, for each of
    the four kinds, the items of that file over all compiler versions and those of them that were
    hit, never more hit than there are; a file without items has no entry; and the summary is the
    one of the items [items_by_file] lists for it. *)
Theorem summary_exact `{VersionOrder} (r : CoverageReport.t) (path : Path) :
  CoverageReport.summary_by_file r !! path =
    (if decide (file_items r path = []) then None else Some (summary_of (file_items r path))) ∧
  CoverageReport.summary_by_file r !! path =
    CoverageSummary.from_items <$> CoverageReport.items_by_file r !! path ∧
  (∀ l1 l2, CoverageSummary.from_items (l1 ++ l2) =
     CoverageSummary.merge (CoverageSummary.from_items l1) (CoverageSummary.from_items l2)) ∧
  ∀ tag, (0 ≤ covered tag (file_items r path) ≤ total tag (file_items r path))%Z.
Proof.
  assert (concat (version_items r path <$> version_iter (CoverageReport.analyses r)) ≡ₚ file_items r path)
    as Hp by (unfold file_items; by rewrite version_iter_perm).
  unfold CoverageReport.summary_by_file, CoverageReport.items_by_file.
  rewrite !by_file_spec. set (l := concat _) in *. split_and!.
  - destruct (decide (file_items r path = [])) as [E|E].
    + rewrite E in Hp. by apply Permutation_nil_r in Hp as ->.
    + destruct l as [|x l]; [by apply Permutation_nil_l in Hp|].
      cbn [feed]. f_equal. rewrite <- (summary_of_perm _ _ Hp). apply from_items_spec.
  - destruct l as [|x l]; [done|]. cbn [feed fmap option_fmap option_map]. do 2 f_equal.
    generalize (x :: l). intros k. change (k = foldl (λ l item, l ++ [item]) [] k).
    induction k as [|y k IH] using rev_ind; [done|]. rewrite foldl_app. cbn. by rewrite <- IH.
  - intros l1 l2. rewrite !from_items_spec. unfold summary_of, CoverageSummary.merge. cbn.
    by rewrite !total_app, !covered_app.
  - intros tag. apply covered_le.
Qed.

(** [CoverageCollector] derives [Clone], which copies the pointer to the current map: a step of
    the clone counts in the map of the original, and is lost to the clone. *)
Lemma clone_shares_map :
  let i := Interpreter.mk (Some 7%Z) [1%Z] 0%Z in
  let '(c0, h0) := CoverageCollector.new ∅ in
  ('(c, h) ← run_events true (λ _, 9%Z) [Initialize i] c0 h0;
   '(c2, h2) ← CoverageCollector.clone c h;
   '(c2', h2') ← run_events true (λ _, 9%Z) [Step i] c2 h2;
   ms ← CoverageCollector.finish c h2';
   ms2 ← CoverageCollector.finish c2' h2';
   Some ((λ m, count m 0%Z) <$> ms !! 7%Z, (λ m, count m 0%Z) <$> ms2 !! 7%Z)) =
  Some (Some 1%Z, Some 0%Z).
Proof. by vm_compute. Qed.
