(* ===== verification/Anchors.v ===== *)
(** Instruction counters and coverage anchors.

    [evm/core/src/ic.rs]: the maps between program counters and instruction counters, and the
    decoder of instructions.  [evm/coverage/src/anchors.rs]: the anchors of coverage items, the
    program counters whose hits count for an item.  A byte is a [Z]; a program counter is a [nat]
    inside the loops, as a [usize] is, and a [Z] where the code casts it to [u32].  The source map
    comes from the compiler crate and the opcode table from revm: both are parameters. *)
From S2P Require Import Prelude Transaction Paths Coverage.

Definition PUSH0 : Z := 95.
Definition PUSH1 : Z := 96.
Definition PUSH32 : Z := 127.
Definition JUMPI : Z := 87.

Definition is_push (op : Z) : bool := (PUSH1 <=? op)%Z && (op <=? PUSH32)%Z.

(** [code.len() <= u32::MAX]. *)
Definition code_fits (code : Bytes) : bool := (Z.of_nat (length code) <=? 2 ^ 32 - 1)%Z.

(** ** The maps *)

(** The loop of [make_map]; each round moves [pc], so [length code] rounds are enough. *)
Fixpoint make_map_loop (PC_FIRST : bool) (code : Bytes) (fuel pc cumulative_push_size : nat)
    (map : gmap Z Z) : option (gmap Z Z) :=
  match code !! pc with
  | None => Some map
  | Some op =>
      match fuel with
      | 0 => None
      | S fuel =>
          let ic := pc - cumulative_push_size in
          let map := if PC_FIRST then <[Z.of_nat pc := Z.of_nat ic]> map
                     else <[Z.of_nat ic := Z.of_nat pc]> map in
          if is_push op then
            let push_size := Z.to_nat (op - PUSH0) in
            make_map_loop PC_FIRST code fuel (pc + push_size + 1) (cumulative_push_size + push_size) map
          else make_map_loop PC_FIRST code fuel (pc + 1) cumulative_push_size map
      end
  end.

Definition make_map (PC_FIRST : bool) (code : Bytes) : option (gmap Z Z) :=
  if code_fits code then make_map_loop PC_FIRST code (length code) 0 0 ∅ else None.

Module PcIcMap.
Record t := mk { inner : gmap Z Z }.
Definition new (code : Bytes) : option t := mk <$> make_map true code.
Definition len (m : t) : nat := size (inner m).
Definition get (m : t) (pc : Z) : option Z := inner m !! pc.
End PcIcMap.

Module IcPcMap.
Record t := mk { inner : gmap Z Z }.
Definition new (code : Bytes) : option t := mk <$> make_map false code.
Definition len (m : t) : nat := size (inner m).
Definition get (m : t) (ic : Z) : option Z := inner m !! ic.
End IcPcMap.

(** ** The decoder *)

(** The opcode table: [OpCode::new] and [immediate_size]. *)
Class Opcodes := {
  OpCode_new : Z → option Z;
  immediate_size : Z → Bytes → Z }.

Module Instruction.
Record t := mk { op : option Z; immediate : Bytes; pc : Z }.
End Instruction.

Section decode.
Context `{Opcodes}.

Fixpoint decode_loop (code : Bytes) (fuel pc : nat) (steps : list Instruction.t) :
    option (result (list Instruction.t) string) :=
  match code !! pc with
  | None => Some (Ok steps)
  | Some b =>
      match fuel with
      | 0 => None
      | S fuel =>
          let op := OpCode_new b in
          let pc := S pc in
          let immediate_size := Z.to_nat (default 0%Z ((λ op, immediate_size op (drop pc code)) <$> op)) in
          if decide (length code < pc + immediate_size)
          then Some (Err "incomplete sequence of bytecode")
          else decode_loop code fuel (pc + immediate_size)
                 (steps ++ [Instruction.mk op (take immediate_size (drop pc code)) (Z.of_nat pc)])
      end
  end.

Definition decode_instructions (code : Bytes) : option (result (list Instruction.t) string) :=
  if code_fits code then decode_loop code (length code) 0 [] else None.
End decode.

(** ** Anchors *)

(** The elements of a source map. *)
Class SourceElements := {
  SourceElement : Type;
  element_index : SourceElement → option Z;
  element_index_i32 : SourceElement → Z;
  element_offset : SourceElement → Z;
  element_length : SourceElement → Z }.

(** [as i32] of a [usize]. *)
Definition as_i32 (x : Z) : Z :=
  let y := (x mod 2 ^ 32)%Z in if (y <? 2 ^ 31)%Z then y else (y - 2 ^ 32)%Z.

(** Big-endian bytes. *)
Definition from_be (bs : Bytes) : Z := foldl (λ acc b, acc * 256 + b)%Z 0%Z bs.

Section anchors.
Context (chk : bool) `{SourceElements}.

(** [None] where an addition overflows and overflow is checked. *)
Definition is_in_source_range (element : SourceElement) (location : SourceLocation.t) : option bool :=
  if negb (element_index_i32 element =? as_i32 (SourceLocation.source_id location))%Z then Some false
  else if (element_offset element <? SourceLocation.bytes_start location)%Z then Some false
  else
    let start_of_ranges := Z.max (SourceLocation.bytes_start location) (element_offset element) in
    location_end ← add_u32 chk (SourceLocation.bytes_start location) (SourceLocation.len location);
    element_end ← add_u32 chk (element_offset element) (element_length element);
    Some (start_of_ranges <=? Z.min location_end element_end)%Z.

(** [iter().position(..)]. *)
Fixpoint position (elements : list SourceElement) (location : SourceLocation.t) (i : nat) :
    option (option nat) :=
  match elements with
  | [] => Some None
  | e :: elements =>
      within ← is_in_source_range e location;
      if within : bool then Some (Some i) else position elements location (S i)
  end.

Definition find_anchor_simple (source_map : list SourceElement) (ic_pc_map : IcPcMap.t) (item_id : Z)
    (loc : SourceLocation.t) : option (result ItemAnchor string) :=
  instruction ← position source_map loc 0;
  Some match instruction with
  | None => Err "Could not find anchor: No matching instruction in range"
  | Some instruction =>
      match IcPcMap.get ic_pc_map (Z.of_nat instruction mod 2 ^ 32) with
      | None => Err "We found an anchor, but we can't translate it to a program counter"
      | Some pc => Ok (mk_anchor pc item_id)
      end
  end.

(** The anchors of a push whose jump is the one looked for; [pc] is at its last byte. *)
Definition jump_anchors (bytecode : Bytes) (pc push_size : nat) (item_id : Z) :
    option (result (ItemAnchor * ItemAnchor) string) :=
  if decide (push_size ≤ 8) then
    let push_bytes_start := pc - push_size + 1 in
    let pc_jump := from_be (take push_size (drop push_bytes_start bytecode)) in
    if (pc_jump <? 2 ^ 32)%Z
    then Some (Ok (mk_anchor (Z.of_nat (pc + 2) mod 2 ^ 32) item_id, mk_anchor pc_jump item_id))
    else None
  else Some (Err "jump destination overflow").

Fixpoint branch_loop (bytecode : Bytes) (source_map : list SourceElement) (item_id : Z)
    (loc : SourceLocation.t) (fuel pc cumulative_push_size : nat) (anchors : option (ItemAnchor * ItemAnchor)) :
    option (result (option (ItemAnchor * ItemAnchor)) string) :=
  match bytecode !! pc with
  | None => Some (Ok anchors)
  | Some op =>
      match fuel with
      | 0 => None
      | S fuel =>
          if is_push op then
            match source_map !! (pc - cumulative_push_size) with
            | None => Some (Ok anchors)
            | Some element =>
                let push_size := Z.to_nat (op - PUSH1 + 1) in
                let pc := pc + push_size in
                let cumulative_push_size := cumulative_push_size + push_size in
                within ← is_in_source_range element loc;
                if within : bool then
                  next ← bytecode !! (pc + 1);
                  if (next =? JUMPI)%Z then
                    found ← jump_anchors bytecode pc push_size item_id;
                    match found with
                    | Err e => Some (Err e)
                    | Ok found =>
                        branch_loop bytecode source_map item_id loc fuel (pc + 1) cumulative_push_size (Some found)
                    end
                  else branch_loop bytecode source_map item_id loc fuel (pc + 1) cumulative_push_size anchors
                else branch_loop bytecode source_map item_id loc fuel (pc + 1) cumulative_push_size anchors
            end
          else branch_loop bytecode source_map item_id loc fuel (pc + 1) cumulative_push_size anchors
      end
  end.

Definition find_anchor_branch (bytecode : Bytes) (source_map : list SourceElement) (item_id : Z)
    (loc : SourceLocation.t) : option (result (ItemAnchor * ItemAnchor) string) :=
  r ← branch_loop bytecode source_map item_id loc (length bytecode) 0 0 None;
  Some match r with
  | Err e => Err e
  | Ok None => Err "Could not detect branches in source"
  | Ok (Some anchors) => Ok anchors
  end.

(** One item: its anchor, or nothing where there is none; [None] is a panic. *)
Definition find_anchor (bytecode : Bytes) (source_map : list SourceElement) (ic_pc_map : IcPcMap.t)
    (item_id : Z) (item : CoverageItem.t) : option (option ItemAnchor) :=
  match CoverageItem.kind item with
  | KBranch _ path_id false =>
      r ← find_anchor_branch bytecode source_map item_id (CoverageItem.loc item);
      match r with
      | Err _ => Some None
      | Ok anchors =>
          if (path_id =? 0)%Z then Some (Some (fst anchors))
          else if (path_id =? 1)%Z then Some (Some (snd anchors))
          else None
      end
  | _ =>
      r ← find_anchor_simple source_map ic_pc_map item_id (CoverageItem.loc item);
      Some match r with Ok anchor => Some anchor | Err _ => None end
  end.

(** The sources of the elements, each where it first appears. *)
Fixpoint seen_sources (elements : list SourceElement) (seen : gset Z) : list Z :=
  match elements with
  | [] => []
  | e :: elements =>
      match element_index e with
      | Some source =>
          if decide (source ∈ seen) then seen_sources elements seen
          else source :: seen_sources elements ({[source]} ∪ seen)
      | None => seen_sources elements seen
      end
  end.

Fixpoint anchor_items (bytecode : Bytes) (source_map : list SourceElement) (ic_pc_map : IcPcMap.t)
    (items : list (Z * CoverageItem.t)) : option (list ItemAnchor) :=
  match items with
  | [] => Some []
  | (item_id, item) :: items =>
      anchor ← find_anchor bytecode source_map ic_pc_map item_id item;
      anchors ← anchor_items bytecode source_map ic_pc_map items;
      Some (option_list anchor ++ anchors)
  end.

Definition find_anchors (bytecode : Bytes) (source_map : list SourceElement) (ic_pc_map : IcPcMap.t)
    (analysis : SourceAnalysis.t) : option (list ItemAnchor) :=
  items ← mapM (SourceAnalysis.items_for_source_enumerated analysis) (seen_sources source_map ∅);
  anchor_items bytecode source_map ic_pc_map (concat items).
End anchors.

(** [BytecodeData] of [forge coverage]: the map of the code it holds. *)
Module BytecodeData.
Record t `{SourceElements} := mk {
  source_map : list SourceElement; bytecode : Bytes; ic_pc_map : IcPcMap.t }.

Definition new `{SourceElements} (source_map : list SourceElement) (bytecode : Bytes) : option t :=
  ic_pc_map ← IcPcMap.new bytecode;
  Some (mk _ source_map bytecode ic_pc_map).

Definition find_anchors `{SourceElements} (chk : bool) (b : t) (source_analysis : SourceAnalysis.t) :
    option (list ItemAnchor) :=
  Anchors.find_anchors chk (bytecode b) (source_map b) (ic_pc_map b) source_analysis.
End BytecodeData.
