(* ===== verification/AnchorsTheorems.v ===== *)
(** Instruction boundaries, the counters that name them, and the anchors found among them.
    The last part is about the anchors that are found. *)
From S2P Require Import Prelude Transaction Database Paths Coverage CoverageTheorems CoverageItems Anchors.

(** ** Instruction boundaries *)

Definition push_size (op : Z) : nat := if is_push op then Z.to_nat (op - PUSH0) else 0.

(** The [ic]th instruction of the code begins at [pc]; the boundary after the last instruction
    is one too. *)
Inductive boundary (code : Bytes) : nat → nat → Prop :=
  | boundary_O : boundary code 0 0
  | boundary_S ic pc op :
      boundary code ic pc → code !! pc = Some op → boundary code (S ic) (pc + push_size op + 1).

Section boundaries.
Context (code : Bytes).
Implicit Types ic pc : nat.

Lemma boundary_fun ic pc pc' : boundary code ic pc → boundary code ic pc' → pc = pc'.
Proof.
  intros H. revert pc'. induction H as [|ic pc op H IH Hop]; intros pc' H'; inversion H'; subst; [done|].
  match goal with X : boundary code ic ?q |- _ => apply IH in X as <- end. congruence.
Qed.

Lemma boundary_lt ic pc ic' pc' :
  boundary code ic pc → boundary code ic' pc' → ic < ic' → pc < pc' ∧ pc < length code.
Proof.
  intros H H'. induction H' as [|ic' pc' op H' IH Hop]; intros Hlt; [lia|].
  destruct (decide (ic = ic')) as [->|].
  - rewrite (boundary_fun _ _ _ H H'). apply lookup_lt_Some in Hop. lia.
  - destruct IH; lia.
Qed.

Lemma boundary_inj ic ic' pc : boundary code ic pc → boundary code ic' pc → ic = ic'.
Proof.
  intros H H'. destruct (Nat.lt_trichotomy ic ic') as [Hl|[Hl|Hl]]; [|done|].
  - pose proof (boundary_lt _ _ _ _ H H' Hl). lia.
  - pose proof (boundary_lt _ _ _ _ H' H Hl). lia.
Qed.

Lemma boundary_le ic pc ic' pc' : boundary code ic pc → boundary code ic' pc' → pc < pc' → ic < ic'.
Proof.
  intros H H' Hlt. destruct (Nat.lt_trichotomy ic ic') as [Hl|[Hl|Hl]]; [done|..].
  - subst. pose proof (boundary_fun _ _ _ H H'). lia.
  - pose proof (boundary_lt _ _ _ _ H' H Hl). lia.
Qed.

(** The map of the first [n] instructions. *)
Definition maps_first (PC_FIRST : bool) (n : nat) (m : gmap Z Z) : Prop :=
  ∀ k v, m !! k = Some v ↔ ∃ ic pc, ic < n ∧ boundary code ic pc ∧
    (k, v) = if PC_FIRST then (Z.of_nat pc, Z.of_nat ic) else (Z.of_nat ic, Z.of_nat pc).

Lemma maps_first_step PC_FIRST n pc m :
  boundary code n pc → maps_first PC_FIRST n m →
  maps_first PC_FIRST (S n) (if PC_FIRST then <[Z.of_nat pc := Z.of_nat n]> m
                              else <[Z.of_nat n := Z.of_nat pc]> m).
Proof.
  intros Hb Hm k v.
  assert ((if PC_FIRST then <[Z.of_nat pc := Z.of_nat n]> m else <[Z.of_nat n := Z.of_nat pc]> m) =
    <[(if PC_FIRST then Z.of_nat pc else Z.of_nat n) := (if PC_FIRST then Z.of_nat n else Z.of_nat pc)]> m)
    as -> by (by destruct PC_FIRST).
  rewrite lookup_insert_Some, (Hm k v). split.
  - intros [[<- <-]|[_ (ic & pc' & Hic & Hb' & E)]].
    + exists n, pc. split_and!; [lia|done|]. by destruct PC_FIRST.
    + exists ic, pc'. split_and!; [lia|done|done].
  - intros (ic & pc' & Hic & Hb' & E). destruct (decide (ic = n)) as [->|Hne].
    + left. pose proof (boundary_fun _ _ _ Hb Hb') as <-. destruct PC_FIRST; by injection E.
    + right. split; [|by exists ic, pc'; split_and!; [lia|..]].
      pose proof (boundary_lt _ _ _ _ Hb' Hb ltac:(lia)). destruct PC_FIRST; injection E as -> ->; lia.
Qed.

Lemma make_map_loop_spec PC_FIRST fuel pc cum m :
  cum ≤ pc → boundary code (pc - cum) pc → maps_first PC_FIRST (pc - cum) m →
  length code - pc ≤ fuel →
  ∃ m' n pc', make_map_loop PC_FIRST code fuel pc cum m = Some m' ∧ maps_first PC_FIRST n m' ∧
    boundary code n pc' ∧ length code ≤ pc'.
Proof.
  revert pc cum m. induction fuel as [|fuel IH]; intros pc cum m Hc Hb Hm Hf;
    cbn [make_map_loop]; destruct (code !! pc) as [op|] eqn:Hop.
  - apply lookup_lt_Some in Hop. lia.
  - apply lookup_ge_None in Hop. by exists m, (pc - cum), pc.
  - pose proof (boundary_S _ _ _ _ Hb Hop) as Hb'. pose proof (maps_first_step _ _ _ _ Hb Hm) as Hm'.
    unfold push_size in Hb'. destruct (is_push op).
    + apply IH; [lia| | |lia].
      * by replace (pc + Z.to_nat (op - PUSH0) + 1 - (cum + Z.to_nat (op - PUSH0))) with (S (pc - cum)) by lia.
      * by replace (pc + Z.to_nat (op - PUSH0) + 1 - (cum + Z.to_nat (op - PUSH0))) with (S (pc - cum)) by lia.
    + rewrite Nat.add_0_r in Hb'. apply IH; [lia| | |lia];
        by replace (pc + 1 - cum) with (S (pc - cum)) by lia.
  - apply lookup_ge_None in Hop. by exists m, (pc - cum), pc.
Qed.

Lemma make_map_spec PC_FIRST :
  code_fits code = true → ∃ m, make_map PC_FIRST code = Some m ∧
    ∀ k v, m !! k = Some v ↔ ∃ ic pc, pc < length code ∧ boundary code ic pc ∧
      (k, v) = if PC_FIRST then (Z.of_nat pc, Z.of_nat ic) else (Z.of_nat ic, Z.of_nat pc).
Proof.
  intros Hfit. unfold make_map. rewrite Hfit.
  destruct (make_map_loop_spec PC_FIRST (length code) 0 0 ∅) as (m & n & pcn & E & Hm & Hn & Hlen).
  - done.
  - constructor.
  - intros k v. rewrite lookup_empty. split; [done|]. intros (ic & pc & Hic & _). lia.
  - lia.
  - exists m. split; [done|]. intros k v. rewrite (Hm k v). split; intros (ic & pc & Hic & Hb & E').
    + exists ic, pc. split_and!; [|done|done]. by apply (boundary_lt ic pc n pcn).
    + exists ic, pc. split_and!; [|done|done]. apply (boundary_le ic pc n pcn); [done|done|lia].
Qed.

Lemma make_map_lookup PC_FIRST m k v :
  make_map PC_FIRST code = Some m →
  m !! k = Some v ↔ ∃ ic pc, pc < length code ∧ boundary code ic pc ∧
    (k, v) = if PC_FIRST then (Z.of_nat pc, Z.of_nat ic) else (Z.of_nat ic, Z.of_nat pc).
Proof.
  intros E. destruct (code_fits code) eqn:Hfit; [|unfold make_map in E; by rewrite Hfit in E].
  destruct (make_map_spec PC_FIRST Hfit) as (m' & E' & Hm). rewrite E in E'. by injection E' as <-.
Qed.

Lemma pc_ic_map_get m pc ic :
  PcIcMap.new code = Some m → PcIcMap.get m (Z.of_nat pc) = Some (Z.of_nat ic) ↔
    boundary code ic pc ∧ pc < length code.
Proof.
  intros (m0 & E & ->)%fmap_Some. unfold PcIcMap.get. cbn. rewrite (make_map_lookup _ _ _ _ E). split.
  - intros (ic' & pc' & Hl & Hb & [= ->%Nat2Z.inj ->%Nat2Z.inj]). done.
  - intros [Hb Hl]. by exists ic, pc.
Qed.

Lemma ic_pc_map_get_Z m k v :
  IcPcMap.new code = Some m → IcPcMap.get m k = Some v ↔
  ∃ ic pc, k = Z.of_nat ic ∧ v = Z.of_nat pc ∧ boundary code ic pc ∧ pc < length code.
Proof.
  intros (m0 & E & ->)%fmap_Some. unfold IcPcMap.get. cbn. rewrite (make_map_lookup _ _ _ _ E). split.
  - intros (ic & pc & Hl & Hb & [= -> ->]). by exists ic, pc.
  - intros (ic & pc & -> & -> & Hb & Hl). by exists ic, pc.
Qed.

Lemma ic_pc_map_get m pc ic :
  IcPcMap.new code = Some m → IcPcMap.get m (Z.of_nat ic) = Some (Z.of_nat pc) ↔
    boundary code ic pc ∧ pc < length code.
Proof.
  intros Hm. rewrite (ic_pc_map_get_Z _ _ _ Hm). split.
  - intros (ic' & pc' & ->%Nat2Z.inj & ->%Nat2Z.inj & ?). done.
  - intros ?. by exists ic, pc.
Qed.

Lemma boundary_before ic pc ic' : boundary code ic pc → ic' ≤ ic → ∃ pc', boundary code ic' pc'.
Proof.
  intros Hb. revert ic'. induction Hb as [|ic pc op Hb IH Hop]; intros ic' Hle.
  - exists 0. replace ic' with 0 by lia. constructor.
  - destruct (decide (ic' = S ic)) as [->|]; [|apply IH; lia]. eexists. by eapply boundary_S.
Qed.
End boundaries.

(** ** The decoder *)

Section decode.
Context `{Opcodes} (code : Bytes).

(** What the opcode table says of the legacy opcodes: a push is followed by as many bytes as its
    name says, every other opcode by none. *)
Definition legacy_table : Prop := ∀ b rest, b ∈ code →
  if is_push b then OpCode_new b = Some b ∧ immediate_size b rest = (b - PUSH0)%Z
  else ∀ op, OpCode_new b = Some op → immediate_size op rest = 0%Z.

(** The instruction at a boundary. *)
Definition instruction_at (pc : nat) : option Instruction.t :=
  (λ b, Instruction.mk (OpCode_new b) (take (push_size b) (drop (S pc) code)) (Z.of_nat (S pc))) <$> code !! pc.

Lemma table_size b rest :
  legacy_table → b ∈ code →
  Z.to_nat (default 0%Z ((λ op, immediate_size op rest) <$> OpCode_new b)) = push_size b.
Proof.
  intros Ht Hb. specialize (Ht b rest Hb). unfold push_size. destruct (is_push b).
  - destruct Ht as [-> E]. cbn. by rewrite E.
  - destruct (OpCode_new b) as [op|]; [|done]. cbn. by rewrite (Ht op eq_refl).
Qed.

Lemma decode_loop_spec fuel n pc steps :
  legacy_table → boundary code n pc → pc ≤ length code → length steps = n →
  (∀ k q, k < n → boundary code k q → steps !! k = instruction_at q) → length code - pc ≤ fuel →
  (∃ steps', decode_loop code fuel pc steps = Some (Ok steps') ∧
     boundary code (length steps') (length code) ∧
     ∀ k q, k < length steps' → boundary code k q → steps' !! k = instruction_at q) ∨
  decode_loop code fuel pc steps = Some (Err "incomplete sequence of bytecode") ∧
    ∀ k, ¬ boundary code k (length code).
Proof.
  intros Ht. revert n pc steps. induction fuel as [|fuel IH]; intros n pc steps Hb Hpc Hn Hs Hf;
    cbn [decode_loop]; destruct (code !! pc) as [b|] eqn:Hop.
  1: { apply lookup_lt_Some in Hop. lia. }
  1, 3: left; exists steps; apply lookup_ge_None in Hop; replace pc with (length code) in Hb by lia;
    subst n; by split_and!.
  rewrite table_size by (done || by eapply list_elem_of_lookup_2).
  pose proof (boundary_S _ _ _ _ Hb Hop) as Hb'. pose proof (lookup_lt_Some _ _ _ Hop) as Hlt.
  destruct (decide (length code < S pc + push_size b)) as [Hinc|Hinc].
  - right. split; [done|]. intros k Hk. pose proof (boundary_le _ _ _ _ _ Hb Hk Hlt).
    destruct (decide (k = S n)) as [->|Hne].
    + pose proof (boundary_fun _ _ _ _ Hb' Hk). lia.
    + pose proof (boundary_lt _ _ _ _ _ Hb' Hk ltac:(lia)). lia.
  - apply (IH (S n)).
    + by replace (S pc + push_size b) with (pc + push_size b + 1) by lia.
    + lia.
    + rewrite length_app. cbn. lia.
    + intros k q Hk Hq. destruct (decide (k = n)) as [->|Hne].
      * pose proof (boundary_fun _ _ _ _ Hb Hq) as <-. rewrite lookup_app_r by lia.
        replace (n - length steps) with 0 by lia. unfold instruction_at. by rewrite Hop.
      * rewrite lookup_app_l by lia. apply Hs; [lia|done].
    + lia.
Qed.
End decode.

(** For every code of at most [u32::MAX] bytes the two counter maps exist, are inverse to each
    other, and relate exactly the program counters at which an instruction begins to the numbers
    of these instructions; and [decode_instructions] returns exactly these instructions in order,
    each with its opcode and its immediate bytes, or the error that the code is incomplete when
    and only when the last push has not all its bytes. *)
Theorem counters_exact `{Opcodes} (code : Bytes) :
  code_fits code = true → legacy_table code →
  ∃ pc_ic ic_pc r, PcIcMap.new code = Some pc_ic ∧ IcPcMap.new code = Some ic_pc ∧
    decode_instructions code = Some r ∧
    (∀ pc ic : nat, PcIcMap.get pc_ic (Z.of_nat pc) = Some (Z.of_nat ic) ↔
       boundary code ic pc ∧ pc < length code) ∧
    (∀ pc ic : nat, PcIcMap.get pc_ic (Z.of_nat pc) = Some (Z.of_nat ic) ↔
       IcPcMap.get ic_pc (Z.of_nat ic) = Some (Z.of_nat pc)) ∧
    match r with
    | Ok steps => boundary code (length steps) (length code) ∧
        ∀ k pc, k < length steps → boundary code k pc → steps !! k = instruction_at code pc
    | Err _ => ∀ k, ¬ boundary code k (length code)
    end.
Proof.
  intros Hfit Ht. destruct (make_map_spec code true Hfit) as (m1 & E1 & _).
  destruct (make_map_spec code false Hfit) as (m2 & E2 & _).
  assert (PcIcMap.new code = Some (PcIcMap.mk m1)) as H1 by (unfold PcIcMap.new; by rewrite E1).
  assert (IcPcMap.new code = Some (IcPcMap.mk m2)) as H2 by (unfold IcPcMap.new; by rewrite E2).
  pose proof (λ pc ic, pc_ic_map_get code _ pc ic H1) as G1.
  pose proof (λ pc ic, ic_pc_map_get code _ pc ic H2) as G2.
  assert (∀ pc ic : nat, PcIcMap.get (PcIcMap.mk m1) (Z.of_nat pc) = Some (Z.of_nat ic) ↔
    IcPcMap.get (IcPcMap.mk m2) (Z.of_nat ic) = Some (Z.of_nat pc)) as G by (intros; by rewrite G1, G2).
  exists (PcIcMap.mk m1), (IcPcMap.mk m2). unfold decode_instructions. rewrite Hfit.
  destruct (decode_loop_spec code (length code) 0 0 []) as [(steps & E & Hb & Hs)|[E Hn]];
    [done|constructor|lia|done|intros; lia|lia|..].
  - exists (Ok steps). split_and!; done.
  - exists (Err "incomplete sequence of bytecode"). split_and!; done.
Qed.

(** The table of the legacy opcodes. *)
Definition push_table : Opcodes :=
  {| OpCode_new b := if decide (b = 12%Z) then None else Some b;
     immediate_size op _ := Z.of_nat (push_size op) |}.

Lemma push_table_legacy code : @legacy_table push_table code.
Proof.
  intros b rest _. cbn. unfold push_size. destruct (is_push b) eqn:E.
  - unfold is_push, PUSH1, PUSH32, PUSH0 in *. apply andb_true_iff in E as [E1%Z.leb_le E2%Z.leb_le].
    rewrite decide_False by lia. split; [done|lia].
  - intros op. destruct (decide _); [done|]. intros [= <-]. by rewrite E.
Qed.

Lemma counters_exact_witness :
  let code := [96; 128; 96; 64; 82; 97; 0]%Z in
  ∃ pc_ic, PcIcMap.new code = Some pc_ic ∧
    (PcIcMap.get pc_ic 4 = Some 2%Z ↔ boundary code 2 4 ∧ 4 < length code) ∧
    @decode_instructions push_table code = Some (Err "incomplete sequence of bytecode").
Proof.
  intros code.
  destruct (@counters_exact push_table code) as (pc_ic & ic_pc & r & E1 & E2 & E3 & G & _ & _).
  - by vm_compute.
  - apply push_table_legacy.
  - exists pc_ic. split_and!; [done|apply (G 4 2)|by vm_compute].
Defined.

(** The [pc] of an instruction is documented as the program counter of its opcode; it is the one
    after it. *)
Lemma instruction_pc_after `{Opcodes} (code : Bytes) pc i :
  instruction_at code pc = Some i → Instruction.pc i = (Z.of_nat pc + 1)%Z.
Proof. unfold instruction_at. destruct (code !! pc); [|done]. intros [= <-]. cbn. lia. Qed.

(** A branch item at the end of a code that ends in a push makes the search read past the end. *)
Lemma trailing_push_panics `{SourceElements} chk (e : SourceElement) loc id :
  is_in_source_range chk e loc = Some true →
  find_anchor_branch chk [PUSH1; 0]%Z [e] id loc = None.
Proof. intros E. unfold find_anchor_branch. cbn. by rewrite E. Qed.

(** An element that begins where the location ends counts as within it. *)
Lemma range_end_included `{SourceElements} chk (e : SourceElement) loc :
  element_index_i32 e = as_i32 (SourceLocation.source_id loc) → (0 ≤ element_length e)%Z →
  element_offset e = SourceLocation.bytes_end loc →
  (SourceLocation.bytes_start loc ≤ SourceLocation.bytes_end loc)%Z →
  (element_offset e + element_length e < 2 ^ 32)%Z →
  is_in_source_range chk e loc = Some true.
Proof.
  intros Hi Hl He Hse Hb. unfold is_in_source_range, SourceLocation.len.
  rewrite Hi, Z.eqb_refl, (proj2 (Z.ltb_ge _ _)) by lia. cbn [negb].
  rewrite !add_u32_small by lia. cbn. f_equal. apply Z.leb_le. lia.
Qed.

(** ** The anchors that are found *)

Section found.
Context (chk : bool) `{SourceElements}.
Implicit Types (loc : SourceLocation.t) (e : SourceElement) (sm : list SourceElement).

(** The ranges of the source map and of a location fit in 32 bits. *)
Definition element_fits e : Prop := (element_offset e + element_length e < 2 ^ 32)%Z.
Definition location_fits loc : Prop := (SourceLocation.bytes_start loc + SourceLocation.len loc < 2 ^ 32)%Z.

Definition in_range e loc : bool :=
  (element_index_i32 e =? as_i32 (SourceLocation.source_id loc))%Z &&
  (SourceLocation.bytes_start loc <=? element_offset e)%Z &&
  (element_offset e <=? SourceLocation.bytes_start loc + SourceLocation.len loc)%Z &&
  (0 <=? element_length e)%Z.

Lemma is_in_source_range_total e loc :
  element_fits e → location_fits loc → is_in_source_range chk e loc = Some (in_range e loc).
Proof.
  unfold element_fits, location_fits, is_in_source_range, in_range. intros He Hl.
  destruct (Z.eqb_spec (element_index_i32 e) (as_i32 (SourceLocation.source_id loc))); cbn [negb andb]; [|done].
  destruct (Z.ltb_spec (element_offset e) (SourceLocation.bytes_start loc)).
  { by rewrite (proj2 (Z.leb_gt _ _)) by lia. }
  rewrite (proj2 (Z.leb_le _ (element_offset e))) by lia. rewrite !add_u32_small by done.
  cbn [mbind option_bind andb]. f_equal.
  destruct (Z.leb_spec (element_offset e) (SourceLocation.bytes_start loc + SourceLocation.len loc)),
    (Z.leb_spec 0 (element_length e)); cbn [andb]; first [apply Z.leb_le; lia|apply Z.leb_gt; lia].
Qed.

(** ** Simple anchors *)

(** The first instruction in range. *)
Definition first_in_range sm loc (i : nat) : Prop :=
  (∃ e, sm !! i = Some e ∧ in_range e loc = true) ∧
  ∀ j e, j < i → sm !! j = Some e → in_range e loc = false.

Lemma position_spec sm loc i0 :
  Forall element_fits sm → location_fits loc →
  (∃ i, position chk sm loc i0 = Some (Some (i0 + i)) ∧ first_in_range sm loc i) ∨
  position chk sm loc i0 = Some None ∧ Forall (λ e, in_range e loc = false) sm.
Proof.
  intros Hf Hl. revert i0. induction Hf as [|e sm He Hf IH]; intros i0; [by right|].
  cbn [position]. rewrite is_in_source_range_total by done. cbn [mbind option_bind].
  destruct (in_range e loc) eqn:E.
  - left. exists 0. rewrite Nat.add_0_r. split; [done|]. split; [by exists e|]. intros. lia.
  - destruct (IH (S i0)) as [(i & Ei & (He' & Hb))|[En Hn]].
    + left. exists (S i). split; [by rewrite Ei, Nat.add_succ_r|]. split; [done|].
      intros [|j] e' Hj Hj'; [by injection Hj' as <-|]. apply (Hb j); [lia|done].
    + right. split; [done|by constructor].
Qed.

Lemma find_anchor_simple_spec code sm m id loc :
  IcPcMap.new code = Some m → Forall element_fits sm → location_fits loc →
  (Z.of_nat (length sm) < 2 ^ 32)%Z →
  ∃ r, find_anchor_simple chk sm m id loc = Some r ∧
    match r with
    | Ok a => ∃ ic pc, a = mk_anchor (Z.of_nat pc) id ∧ first_in_range sm loc ic ∧
        boundary code ic pc ∧ pc < length code
    | Err _ => ∀ ic pc e, sm !! ic = Some e → in_range e loc = true → boundary code ic pc →
        length code ≤ pc
    end.
Proof.
  intros Hm Hf Hl Hsm. unfold find_anchor_simple.
  destruct (position_spec sm loc 0 Hf Hl) as [(i & -> & Hi)|[-> Hn]]; cbn [mbind option_bind].
  2:{ eexists. split; [done|]. intros ic pc e He Hin. rewrite Forall_lookup in Hn.
      specialize (Hn ic e He). congruence. }
  assert (i < length sm) by (destruct Hi as [(e & He & _) _]; by eapply lookup_lt_Some).
  rewrite Z.mod_small by lia. cbn [Nat.add].
  destruct (IcPcMap.get m (Z.of_nat i)) as [z|] eqn:E.
  - destruct (proj1 (ic_pc_map_get_Z code m _ z Hm) E) as (ic & pc & E1%Nat2Z.inj & -> & Hb). subst ic.
    eexists. split; [done|]. exists i, pc. tauto.
  - eexists. split; [done|]. intros ic pc e He Hin Hb. destruct (decide (pc < length code)) as [Hlt|]; [|lia].
    exfalso. assert (i ≤ ic) as Hle.
    { destruct (decide (i ≤ ic)); [done|]. destruct Hi as [_ Hi]. rewrite (Hi ic e) in Hin; [done|lia|done]. }
    assert (∃ pci, boundary code i pci ∧ pci < length code) as (pci & Hbi & Hli).
    { destruct (boundary_before code ic pc i Hb Hle) as [pci Hbi]. exists pci. split; [done|].
      destruct (decide (i = ic)) as [->|]; [by rewrite (boundary_fun _ _ _ _ Hbi Hb)|].
      apply (boundary_lt code i pci ic pc Hbi Hb). lia. }
    rewrite (proj2 (ic_pc_map_get code m pci i Hm)) in E; done.
Qed.

(** ** Branch anchors *)

(** A push in range whose value is the destination of the conditional jump after it. *)
Definition branch_at code sm loc (pc : nat) (op : Z) : Prop :=
  ∃ ic e, boundary code ic pc ∧ code !! pc = Some op ∧ is_push op = true ∧ sm !! ic = Some e ∧
    in_range e loc = true ∧ code !! (pc + push_size op + 1) = Some JUMPI.

(** The instruction after the jump, and the destination that was pushed. *)
Definition branch_anchors code (pc : nat) (op id : Z) : ItemAnchor * ItemAnchor :=
  (mk_anchor (Z.of_nat (pc + push_size op + 2)) id,
   mk_anchor (from_be (take (push_size op) (drop (pc + 1) code))) id).

(** A push that has a source element is followed by its bytes and by another instruction, and a
    destination of up to eight bytes fits in 32 bits. *)
Definition complete code sm : Prop := ∀ ic pc op,
  boundary code ic pc → code !! pc = Some op → is_push op = true → is_Some (sm !! ic) →
  pc + push_size op + 1 < length code ∧
  (push_size op ≤ 8 → (from_be (take (push_size op) (drop (pc + 1) code)) < 2 ^ 32)%Z).

Lemma jump_anchors_spec code pc op id :
  is_push op = true → code_fits code = true → pc + push_size op + 1 < length code →
  (push_size op ≤ 8 → (from_be (take (push_size op) (drop (pc + 1) code)) < 2 ^ 32)%Z) →
  jump_anchors code (pc + push_size op) (push_size op) id =
    Some (if decide (push_size op ≤ 8) then Ok (branch_anchors code pc op id)
          else Err "jump destination overflow").
Proof.
  intros Hp Hfit%Z.leb_le Hl Hj. unfold jump_anchors. destruct (decide (push_size op ≤ 8)) as [H8|]; [|done].
  replace (pc + push_size op - push_size op + 1) with (pc + 1) by lia.
  rewrite (proj2 (Z.ltb_lt _ _) (Hj H8)). unfold branch_anchors. by rewrite Z.mod_small by lia.
Qed.

(** What the search from [pc] on answers when it had found [anchors] before. *)
Definition branch_answer code sm id loc (pc : nat) (anchors : option (ItemAnchor * ItemAnchor))
    (r : result (option (ItemAnchor * ItemAnchor)) string) : Prop :=
  match r with
  | Err _ => ∃ q op, pc ≤ q ∧ branch_at code sm loc q op ∧ 8 < push_size op
  | Ok anchors' =>
      (∀ q op, pc ≤ q → branch_at code sm loc q op → push_size op ≤ 8) ∧
      (anchors' = anchors ∧ (∀ q op, pc ≤ q → ¬ branch_at code sm loc q op) ∨
       ∃ q op, pc ≤ q ∧ branch_at code sm loc q op ∧ anchors' = Some (branch_anchors code q op id) ∧
         ∀ q' op', q < q' → ¬ branch_at code sm loc q' op')
  end.

Lemma branch_answer_none code sm id loc pc anchors :
  (∀ q op, pc ≤ q → ¬ branch_at code sm loc q op) → branch_answer code sm id loc pc anchors (Ok anchors).
Proof. intros Hn. split; [intros q op Hq Hbr; by apply Hn in Hbr|by left]. Qed.

(** No branch begins inside an instruction. *)
Lemma branch_next code sm loc ic pc op q op' :
  boundary code ic pc → code !! pc = Some op → branch_at code sm loc q op' → pc < q →
  pc + push_size op + 1 ≤ q.
Proof.
  intros Hb Hop (ic' & e & Hb2 & _) Hq. pose proof (boundary_S _ _ _ _ Hb Hop) as Hb'.
  destruct (decide (pc + push_size op + 1 ≤ q)); [done|].
  pose proof (boundary_le _ _ _ _ _ Hb Hb2 Hq). pose proof (boundary_le _ _ _ _ _ Hb2 Hb' ltac:(lia)). lia.
Qed.

Lemma branch_answer_skip code sm id loc ic pc op anchors r :
  boundary code ic pc → code !! pc = Some op → ¬ branch_at code sm loc pc op →
  branch_answer code sm id loc (pc + push_size op + 1) anchors r →
  branch_answer code sm id loc pc anchors r.
Proof.
  intros Hb Hop Hno.
  assert (∀ q op', pc ≤ q → branch_at code sm loc q op' → pc + push_size op + 1 ≤ q) as Hskip.
  { intros q op' Hq Hbr. destruct (decide (q = pc)) as [->|Hne].
    - destruct Hbr as (ic' & e & ? & Hop' & ?). rewrite Hop in Hop'. injection Hop' as <-.
      destruct Hno. by exists ic', e.
    - eapply branch_next; [done..|lia]. }
  destruct r as [anchors'|e]; cbn.
  - intros [H8 Hr]. split; [by eauto|]. destruct Hr as [[-> Hn]|(q & op' & Hq & Hbr & -> & Hlast)].
    + left. split; [done|]. intros q op' Hq Hbr. by apply (Hn q op'); [by eapply Hskip|].
    + right. exists q, op'. split_and!; [lia|done..].
  - intros (q & op' & Hq & Hbr & H8). exists q, op'. split_and!; [lia|done..].
Qed.

Lemma branch_answer_hit code sm id loc ic pc op anchors r :
  boundary code ic pc → branch_at code sm loc pc op → push_size op ≤ 8 →
  branch_answer code sm id loc (pc + push_size op + 1) (Some (branch_anchors code pc op id)) r →
  branch_answer code sm id loc pc anchors r.
Proof.
  intros Hb Hbr H8. assert (code !! pc = Some op) as Hop by (by destruct Hbr as (? & ? & _ & ? & _)).
  destruct r as [anchors'|e]; cbn.
  - intros [H8' Hr]. split.
    { intros q op' Hq Hbr'. destruct (decide (q = pc)) as [->|Hne].
      - destruct Hbr' as (? & ? & _ & Hop' & _). congruence.
      - eapply H8'; [|done]. eapply branch_next; [done..|lia]. }
    right. destruct Hr as [[-> Hn]|(q & op' & Hq & Hbr' & -> & Hlast)].
    + exists pc, op. split_and!; [lia|done..|]. intros q' op' Hq' Hbr'. apply (Hn q' op'); [|done].
      by eapply branch_next.
    + exists q, op'. split_and!; [lia|done..].
  - intros (q & op' & Hq & Hbr' & H8'). exists q, op'. split_and!; [lia|done..].
Qed.

Lemma branch_loop_spec code sm id loc fuel pc cum anchors :
  code_fits code = true → Forall element_fits sm → location_fits loc → complete code sm →
  cum ≤ pc → boundary code (pc - cum) pc → length code - pc ≤ fuel →
  ∃ r, branch_loop chk code sm id loc fuel pc cum anchors = Some r ∧
    branch_answer code sm id loc pc anchors r.
Proof.
  intros Hfit Hf Hl Hcomp. revert pc cum anchors.
  induction fuel as [|fuel IH]; intros pc cum anchors Hc Hb Hfuel; cbn [branch_loop];
    destruct (code !! pc) as [op|] eqn:Hop.
  1: { apply lookup_lt_Some in Hop. lia. }
  1, 3: exists (Ok anchors); split; [done|]; apply branch_answer_none;
    intros q op Hq (? & ? & _ & Hq'%lookup_lt_Some & _); apply lookup_ge_None in Hop; lia.
  pose proof (boundary_S _ _ _ _ Hb Hop) as Hb'.
  assert (∀ anchors, ∃ r, branch_loop chk code sm id loc fuel (pc + push_size op + 1) (cum + push_size op) anchors
    = Some r ∧ branch_answer code sm id loc (pc + push_size op + 1) anchors r) as Hnext.
  { intros. apply IH; [lia| |lia].
    by replace (pc + push_size op + 1 - (cum + push_size op)) with (S (pc - cum)) by lia. }
  clear IH.
  assert (¬ branch_at code sm loc pc op → ∃ r, branch_loop chk code sm id loc fuel (pc + push_size op + 1)
    (cum + push_size op) anchors = Some r ∧ branch_answer code sm id loc pc anchors r) as Hmiss.
  { intros Hno. destruct (Hnext anchors) as (r & E & Hr). exists r. split; [done|].
    by eapply branch_answer_skip. }
  destruct (is_push op) eqn:Hpush.
  2:{ assert (push_size op = 0) as H0 by (unfold push_size; by rewrite Hpush).
      rewrite H0, !Nat.add_0_r in Hmiss. apply Hmiss. intros (? & ? & _ & ? & Hp & _). congruence. }
  destruct (sm !! (pc - cum)) as [e|] eqn:He.
  2:{ exists (Ok anchors). split; [done|]. apply branch_answer_none.
      intros q op' Hq (ic & e & Hb2 & _ & _ & He'%lookup_lt_Some & _). apply lookup_ge_None in He.
      destruct (decide (q = pc)) as [->|]; [pose proof (boundary_inj _ _ _ _ Hb Hb2)|
        pose proof (boundary_le _ _ _ _ _ Hb Hb2 ltac:(lia))]; lia. }
  cbn zeta. replace (Z.to_nat (op - PUSH1 + 1)) with (push_size op)
    by (unfold push_size; rewrite Hpush; f_equal; unfold PUSH1, PUSH0; lia).
  rewrite is_in_source_range_total by (done || (rewrite Forall_lookup in Hf; by eapply Hf)).
  cbn [mbind option_bind].
  destruct (Hcomp (pc - cum) pc op Hb Hop Hpush) as [Hlen Hj]; [by rewrite He|].
  destruct (in_range e loc) eqn:Hin.
  2:{ apply Hmiss. intros (ic & e' & Hb2 & _ & _ & He' & Hin' & _).
      pose proof (boundary_inj _ _ _ _ Hb Hb2) as <-. congruence. }
  destruct (lookup_lt_is_Some_2 code _ Hlen) as [next Hnx]. rewrite Hnx. cbn [mbind option_bind].
  destruct (Z.eqb_spec next JUMPI) as [->|Hnj].
  2:{ apply Hmiss. intros (ic & e' & _ & _ & _ & _ & _ & Hj'). congruence. }
  assert (branch_at code sm loc pc op) as Hbr by (by exists (pc - cum), e).
  rewrite jump_anchors_spec by done. cbn [mbind option_bind].
  destruct (decide (push_size op ≤ 8)) as [H8|H8].
  - destruct (Hnext (Some (branch_anchors code pc op id))) as (r & E & Hr). exists r. split; [done|].
    by eapply branch_answer_hit.
  - eexists. split; [done|]. exists pc, op. split_and!; [lia|done|lia].
Qed.

(** ** One item *)

(** What the anchor of an item is: the first instruction in its range; for a branch, the
    instruction after the last jump in its range or where that jumps to. *)
Definition anchored code sm (id : Z) (item : CoverageItem.t) (o : option ItemAnchor) : Prop :=
  let loc := CoverageItem.loc item in
  match CoverageItem.kind item with
  | KBranch _ path_id false =>
      match o with
      | Some x => ∃ q op, branch_at code sm loc q op ∧ push_size op ≤ 8 ∧
          (∀ q' op', q < q' → ¬ branch_at code sm loc q' op') ∧
          x = (if (path_id =? 0)%Z then fst else snd) (branch_anchors code q op id)
      | None => (∀ q op, ¬ branch_at code sm loc q op) ∨
          ∃ q op, branch_at code sm loc q op ∧ 8 < push_size op
      end
  | _ =>
      match o with
      | Some x => ∃ ic pc, first_in_range sm loc ic ∧ boundary code ic pc ∧ pc < length code ∧
          x = mk_anchor (Z.of_nat pc) id
      | None => ∀ ic pc e, sm !! ic = Some e → in_range e loc = true → boundary code ic pc →
          length code ≤ pc
      end
  end.

Definition item_ok (item : CoverageItem.t) : Prop :=
  location_fits (CoverageItem.loc item) ∧
  match CoverageItem.kind item with
  | KBranch _ path_id false => path_id = 0%Z ∨ path_id = 1%Z
  | _ => True
  end.

Lemma anchored_id code sm id item x : anchored code sm id item (Some x) → item_id x = id.
Proof.
  unfold anchored. destruct (CoverageItem.kind item) as [| |bid path [|]|];
    try (by intros (ic & pc & _ & _ & _ & ->)).
  intros (q & op & _ & _ & _ & ->). by destruct (path =? 0)%Z.
Qed.

Section code.
Context (code : Bytes) (sm : list SourceElement) (m : IcPcMap.t).
Context (Hfit : code_fits code = true) (Hm : IcPcMap.new code = Some m).
Context (Hf : Forall element_fits sm) (Hcomp : complete code sm) (Hsm : (Z.of_nat (length sm) < 2 ^ 32)%Z).

Lemma find_anchor_spec id item :
  item_ok item → ∃ o, find_anchor chk code sm m id item = Some o ∧ anchored code sm id item o.
Proof.
  intros [Hl Hk]. unfold find_anchor, anchored.
  assert (∃ o, (r ← find_anchor_simple chk sm m id (CoverageItem.loc item);
      Some match r with Ok anchor => Some anchor | Err _ => None end) = Some o ∧
      match o with
      | Some x => ∃ ic pc, first_in_range sm (CoverageItem.loc item) ic ∧ boundary code ic pc ∧
          pc < length code ∧ x = mk_anchor (Z.of_nat pc) id
      | None => ∀ ic pc e, sm !! ic = Some e → in_range e (CoverageItem.loc item) = true →
          boundary code ic pc → length code ≤ pc
      end) as Hsimple.
  { destruct (find_anchor_simple_spec code sm m id _ Hm Hf Hl Hsm) as (r & -> & Hr).
    cbn [mbind option_bind]. eexists. split; [done|]. destruct r as [x|e]; [|done].
    destruct Hr as (ic & pc & -> & ? & ? & ?). by exists ic, pc. }
  destruct (CoverageItem.kind item) as [| |bid path [|]|]; [done..| |done].
  unfold find_anchor_branch.
  destruct (branch_loop_spec code sm id (CoverageItem.loc item) (length code) 0 0 None) as (r & -> & Hr);
    [done..|constructor|lia|]. cbn [mbind option_bind].
  destruct r as [[anchors|]|err].
  - destruct Hr as [H8 [[? _]|(q & op & Hq & Hbr & [= ->] & Hlast)]]; [done|].
    exists (Some ((if (path =? 0)%Z then fst else snd) (branch_anchors code q op id))). split.
    + by destruct Hk as [-> | ->].
    + exists q, op. split_and!; [done|by eapply H8|done|done].
  - destruct Hr as [_ [[_ Hn]|(q & op & _ & _ & ? & _)]]; [|done]. exists None. split; [done|].
    left. intros q op. apply Hn. lia.
  - destruct Hr as (q & op & _ & Hbr & H8). exists None. split; [done|]. right. by exists q, op.
Qed.

Lemma anchor_items_spec items :
  Forall (λ x, item_ok (snd x)) items → NoDup items.*1 →
  ∃ anchors, anchor_items chk code sm m items = Some anchors ∧ NoDup (item_id <$> anchors) ∧
    (∀ x, x ∈ anchors → ∃ item, (item_id x, item) ∈ items ∧ anchored code sm (item_id x) item (Some x)) ∧
    ∀ n item, (n, item) ∈ items → ∃ o, anchored code sm n item o ∧ ∀ x, o = Some x → x ∈ anchors.
Proof.
  induction items as [|[n item] items IH]; cbn [anchor_items fmap list_fmap fst].
  { intros _ _. exists []. split_and!; [done|constructor|..]; intros; set_solver. }
  intros [Hok Hall]%Forall_cons [Hn Hnd]%NoDup_cons. destruct (IH Hall Hnd) as (anchors & E & Hnd' & Hin & Hc).
  destruct (find_anchor_spec n item Hok) as (o & Eo & Ho). rewrite Eo, E. cbn [mbind option_bind].
  assert (∀ x, o = Some x → item_id x = n) as Hid by (intros x ->; by eapply anchored_id).
  eexists. split_and!; [done|..].
  - destruct o as [x|]; cbn [option_list app]; [|done]. cbn. constructor; [|done].
    rewrite (Hid x eq_refl). intros (y & -> & Hy)%list_elem_of_fmap. apply Hin in Hy as (item' & Hy & _).
    apply Hn. apply list_elem_of_fmap. by exists (item_id y, item').
  - intros x [Hx|Hx]%elem_of_app.
    + destruct o as [y|]; [|by apply elem_of_nil in Hx]. apply list_elem_of_singleton in Hx as ->.
      exists item. rewrite (Hid y eq_refl). split; [by left|done].
    + destruct (Hin x Hx) as (item' & ? & ?). exists item'. split; [by right|done].
  - intros n' item' [[= -> ->]|Hx]%elem_of_cons.
    + exists o. split; [done|]. intros x ->. set_solver.
    + destruct (Hc _ _ Hx) as (o' & ? & Ho'). exists o'. split; [done|]. intros x ?. apply elem_of_app. right. auto.
Qed.
End code.

(** ** The sources of the elements *)

Lemma elem_of_seen_sources sm seen s :
  s ∈ seen_sources sm seen ↔ (s ∉ seen) ∧ (∃ e, e ∈ sm ∧ element_index e = Some s).
Proof.
  revert seen. induction sm as [|e sm IH]; intros seen; cbn [seen_sources].
  { set_solver. }
  destruct (element_index e) as [s'|] eqn:E.
  2:{ rewrite IH. split; [set_solver|]. intros (Hs & e' & [-> |He]%elem_of_cons & E'); [congruence|eauto]. }
  destruct (decide (s' ∈ seen)) as [Hin|Hin].
  - rewrite IH. split; [set_solver|]. intros (Hs & e' & [-> |He]%elem_of_cons & E'); [congruence|eauto].
  - rewrite elem_of_cons, IH. split.
    + intros [-> |(Hs & e' & He & E')]; [by split; [|exists e; split; [left|]]|].
      split; [set_solver|]. exists e'. split; [by right|done].
    + intros (Hs & e' & [-> |He]%elem_of_cons & E'); [left; congruence|].
      destruct (decide (s = s')) as [->|]; [by left|]. right. split; [set_solver|eauto].
Qed.

Lemma NoDup_seen_sources sm seen : NoDup (seen_sources sm seen).
Proof.
  revert seen. induction sm as [|e sm IH]; intros seen; cbn [seen_sources]; [constructor|].
  destruct (element_index e) as [s|]; [|done]. destruct (decide _); [done|].
  constructor; [|done]. rewrite elem_of_seen_sources. set_solver.
Qed.
End found.

Lemma elem_of_concat_map {A B} (f : A → list B) l x : x ∈ concat (f <$> l) ↔ ∃ y, y ∈ l ∧ x ∈ f y.
Proof.
  induction l as [|y l IH]; cbn; [set_solver|]. rewrite elem_of_app, IH. set_solver.
Qed.

Lemma NoDup_concat_ids (ids : Z → list (Z * CoverageItem.t)) sources :
  NoDup sources → (∀ i, i ∈ sources → NoDup (ids i).*1) →
  (∀ i j n, i ∈ sources → j ∈ sources → n ∈ (ids i).*1 → n ∈ (ids j).*1 → i = j) →
  NoDup (concat (ids <$> sources)).*1.
Proof.
  induction 1 as [|s sources Hs _ IH]; intros Hnd Hdisj; [constructor|].
  cbn. rewrite fmap_app. apply NoDup_app. split_and!.
  - apply Hnd. by left.
  - intros n Hn (x & -> & Hx)%list_elem_of_fmap. apply elem_of_concat_map in Hx as (j & Hj & Hx). apply Hs.
    rewrite (Hdisj s j (fst x)); [done|by left|by right|done|]. apply list_elem_of_fmap. eauto.
  - apply IH; [intros; apply Hnd; by right|]. intros i j n Hi Hj. apply Hdisj; by right.
Qed.

(** For a complete code and a source map whose ranges fit in 32 bits, the anchors of a contract
    are found without panicking; no item has two; the anchor of an item is the first instruction
    in its range, or for a branch the instruction after the last conditional jump in its range
    or the destination of that jump, according to the path; an item of a source the code refers
    to goes without an anchor only if there is no such instruction (or a jump destination of more
    than eight bytes); and every anchor names an item of the analysis, so that its hits can be
    added to the report. *)
Theorem anchors_found (chk : bool) `{SourceElements} sourced sm code :
  Forall (λ x, 0 ≤ fst x)%Z sourced →
  (Z.of_nat (length (concat sourced.*2)) < SourceAnalysis.u32_max)%Z →
  Forall item_ok (concat sourced.*2) →
  code_fits code = true → (Z.of_nat (length sm) < 2 ^ 32)%Z →
  Forall (λ e, element_fits e ∧ ∀ s, element_index e = Some s → (0 ≤ s)%Z) sm →
  complete code sm →
  ∃ a b anchors,
    SourceAnalysis.new chk sourced = Some a ∧ BytecodeData.new sm code = Some b ∧
    BytecodeData.find_anchors chk b a = Some anchors ∧
    NoDup (item_id <$> anchors) ∧
    (∀ x, x ∈ anchors → Z.to_nat (item_id x) < length (SourceAnalysis.all_items a) ∧
       ∃ item, SourceAnalysis.get a (item_id x) = Some item ∧ anchored code sm (item_id x) item (Some x)) ∧
    ∀ e source items n item, e ∈ sm → element_index e = Some source →
      SourceAnalysis.items_for_source_enumerated a source = Some items → (n, item) ∈ items →
      ∃ o, anchored code sm n item o ∧ ∀ x, o = Some x → x ∈ anchors.
Proof.
  intros Hpos Hlen Hok Hfit Hsm Hel Hcomp.
  destruct (enumerated_spec chk sourced Hpos Hlen) as (a & ids & E & Hall & Hids).
  destruct (make_map_spec code false Hfit) as (m & Em & _).
  assert (IcPcMap.new code = Some (IcPcMap.mk m)) as Hm by (unfold IcPcMap.new; by rewrite Em).
  set (sources := seen_sources sm ∅).
  assert (∀ s, s ∈ sources ↔ ∃ e, e ∈ sm ∧ element_index e = Some s) as Hsources.
  { intros s. unfold sources. rewrite elem_of_seen_sources. set_solver. }
  assert (∀ s, s ∈ sources → (0 ≤ s)%Z) as Hs0.
  { intros s (e & He & Es)%Hsources. rewrite Forall_forall in Hel. by eapply (Hel e He). }
  assert (∀ n item, (n, item) ∈ concat (ids <$> sources) → SourceAnalysis.get a n = Some item) as Hget.
  { intros n item (s & Hs & Hn)%elem_of_concat_map. destruct (Hids s (Hs0 s Hs)) as (_ & _ & _ & Hg & _).
    by apply Hg. }
  assert (Forall element_fits sm) as Hf by (eapply Forall_impl; [exact Hel|]; by intros ? []).
  destruct (anchor_items_spec chk code sm (IcPcMap.mk m) Hfit Hm Hf Hcomp Hsm (concat (ids <$> sources)))
    as (anchors & Ea & Hnd & Hsound & Hc).
  { apply Forall_forall. intros [n item] Hin%Hget. cbn. rewrite Forall_forall in Hok. apply Hok.
    rewrite <- Hall. by eapply list_elem_of_lookup_2. }
  { apply NoDup_concat_ids; [apply NoDup_seen_sources|..].
    - intros i Hi. destruct (Hids i (Hs0 i Hi)) as (_ & _ & [base ->] & _). apply NoDup_seqZ.
    - intros i j n Hi Hj. destruct (Hids i (Hs0 i Hi)) as (_ & _ & _ & _ & Hd). apply Hd. by apply Hs0. }
  exists a, (BytecodeData.mk _ sm code (IcPcMap.mk m)), anchors. split_and!; [done| | |done|..].
  - unfold BytecodeData.new. by rewrite Hm.
  - unfold BytecodeData.find_anchors, find_anchors. cbn [BytecodeData.source_map BytecodeData.bytecode
      BytecodeData.ic_pc_map]. fold sources.
    rewrite (mapM_Some_2 _ sources (ids <$> sources)); [done|].
    apply Forall2_fmap_r, Forall_Forall2_diag, Forall_forall. intros s Hs. by destruct (Hids s (Hs0 s Hs)).
  - intros x Hx. destruct (Hsound x Hx) as (item & Hin%Hget & Ha). split; [|by exists item].
    by eapply lookup_lt_Some.
  - intros e source items n item He Es Ei Hn. apply Hc. apply elem_of_concat_map.
    assert (source ∈ sources) as Hs by (apply Hsources; eauto). exists source. split; [done|].
    destruct (Hids source (Hs0 _ Hs)) as (Ei' & _). rewrite Ei in Ei'. by injection Ei' as <-.
Qed.

(** Elements as triples of source, offset and length. *)
Definition triples : SourceElements :=
  {| SourceElement := Z * Z * Z; element_index := λ e, Some e.1.1; element_index_i32 := λ e, e.1.1;
     element_offset := λ e, e.1.2; element_length := λ e, e.2 |}.

(** [PUSH1 0, PUSH1 7, JUMPI, STOP, STOP, JUMPDEST, STOP], of one if. *)
Definition sample_code : Bytes := [96; 0; 96; 7; 87; 0; 0; 91; 0]%Z.
Definition sample_map : list (Z * Z * Z) := [(0, 4, 2); (0, 10, 8); (0, 10, 8); (0, 30, 1)]%Z.
Definition sample_items : list CoverageItem.t :=
  let loc a b := SourceLocation.mk 0 "C" a b 1 1 in
  [CoverageItem.mk KStatement (loc 10 20)%Z 0; CoverageItem.mk (KBranch 0 0 false) (loc 10 20)%Z 0;
   CoverageItem.mk (KBranch 0 1 false) (loc 10 20)%Z 0; CoverageItem.mk KLine (loc 40 50)%Z 0].

Lemma sample_complete (sm : list (Z * Z * Z)) : length sm = 4 → @complete triples sample_code sm.
Proof.
  intros Hlen ic pc op Hb Hop Hp [e He]. apply lookup_lt_Some in He.
  assert (ic < 4) as Hic by (rewrite <- Hlen; exact He). clear He Hlen.
  inversion Hb as [|ic1 pc1 op1 Hb1 Hop1]; subst.
  { cbn in Hop. injection Hop as <-. split; [apply Nat.ltb_lt; by vm_compute|by vm_compute]. }
  inversion Hb1 as [|ic2 pc2 op2 Hb2 Hop2]; subst.
  { cbn in Hop1. injection Hop1 as <-. cbn in Hop. injection Hop as <-.
    split; [apply Nat.ltb_lt; by vm_compute|by vm_compute]. }
  inversion Hb2 as [|ic3 pc3 op3 Hb3 Hop3]; subst.
  { cbn in Hop2. injection Hop2 as <-. cbn in Hop1. injection Hop1 as <-. cbn in Hop.
    by injection Hop as <-. }
  inversion Hb3 as [|ic4 pc4 op4 Hb4 Hop4]; subst; [|lia].
  cbn in Hop3. injection Hop3 as <-. cbn in Hop2. injection Hop2 as <-. cbn in Hop1.
  injection Hop1 as <-. cbn in Hop. by injection Hop as <-.
Qed.

Lemma anchors_found_witness :
  ∃ a b, SourceAnalysis.new true [(0%Z, sample_items)] = Some a ∧
    @BytecodeData.new triples sample_map sample_code = Some b ∧
    @BytecodeData.find_anchors triples true b a = Some [mk_anchor 2 0; mk_anchor 5 1; mk_anchor 7 2].
Proof.
  destruct (@anchors_found true triples [(0%Z, sample_items)] sample_map sample_code)
    as (a & b & anchors & Ea & Eb & Ef & _).
  - repeat constructor. done.
  - by vm_compute.
  - cbn. rewrite !Forall_cons. split_and!; try (split; [by vm_compute|cbn; auto]). constructor.
  - by vm_compute.
  - by vm_compute.
  - repeat constructor; try done; intros s [= <-]; done.
  - by apply sample_complete.
  - exists a, b. split_and!; [done..|].
    vm_compute in Ea, Eb. injection Ea as <-. injection Eb as <-. by vm_compute.
Defined.
