(* ===== verification/Analysis.v ===== *)
(** The visitor that finds the coverage items of a contract ([evm/coverage/src/analysis.rs]).

    The AST is the compiler crate's: a node has a type, a source range, children, a body, and
    further attributes by name, of which the visitor reads strings, nodes and lists of nodes.  The
    source is its UTF-8 bytes.  The recursion follows the attributes, so it takes the height of
    the node as its bound. *)
From S2P Require Import Prelude Transaction Paths Coverage.

(** ** The AST *)

(** The node types the visitor names; every other one is [OtherNode]. *)
Inductive NodeType :=
  | ContractDefinition | FunctionDefinition | ModifierDefinition
  | Block | UncheckedBlock | YulBlock | InlineAssembly
  | Break | Continue | EmitStatement | RevertStatement | YulAssignment | YulBreak | YulContinue
  | YulLeave | YulVariableDeclaration | PlaceholderStatement | Return | VariableDeclarationStatement
  | DoWhileStatement | WhileStatement | ForStatement | ExpressionStatement | YulExpressionStatement
  | IfStatement | YulIf | TryStatement | YulSwitch | YulForLoop | YulFunctionDefinition
  | Assignment | UnaryOperation | Conditional | YulFunctionCall | FunctionCall | BinaryOperation
  | FunctionCallOptions | Identifier | IndexAccess | IndexRangeAccess | Literal | YulLiteralValue
  | YulIdentifier | OtherNode.

#[global] Instance NodeType_eq_dec : EqDecision NodeType.
Proof. solve_decision. Defined.

(** [LowFidelitySourceLocation]. *)
Record Src := mk_src { src_start : Z; src_length : option Z; src_index : option Z }.

Inductive Node :=
  | mk_node (node_type : NodeType) (src : Src) (nodes : list Node) (body : option Node)
      (other : list (string * Value))
with Value :=
  | VString (s : string)
  | VNode (n : Node)
  | VNodes (l : list Node)
  | VOther.

Definition node_type (n : Node) : NodeType := let '(mk_node t _ _ _ _) := n in t.
Definition src (n : Node) : Src := let '(mk_node _ s _ _ _) := n in s.
Definition nodes (n : Node) : list Node := let '(mk_node _ _ l _ _) := n in l.
Definition body (n : Node) : option Node := let '(mk_node _ _ _ b _) := n in b.
Definition other (n : Node) : list (string * Value) := let '(mk_node _ _ _ _ o) := n in o.

Fixpoint lookup_attr (key : string) (l : list (string * Value)) : option Value :=
  match l with
  | [] => None
  | (k, v) :: l => if String.eqb k key then Some v else lookup_attr key l
  end.

(** [attribute::<D>]: absent also when the value is not a [D]. *)
Definition attr_string (n : Node) (key : string) : option string :=
  match lookup_attr key (other n) with Some (VString s) => Some s | _ => None end.
Definition attr_node (n : Node) (key : string) : option Node :=
  match lookup_attr key (other n) with Some (VNode m) => Some m | _ => None end.
Definition attr_nodes (n : Node) (key : string) : option (list Node) :=
  match lookup_attr key (other n) with Some (VNodes l) => Some l | _ => None end.

Fixpoint height (n : Node) : nat :=
  match n with
  | mk_node _ _ nodes body other =>
      S (Nat.max (list_max (map height nodes))
        (Nat.max (match body with Some b => height b | None => 0 end)
          (list_max (map (λ kv, value_height (snd kv)) other))))
  end
with value_height (v : Value) : nat :=
  match v with
  | VNode n => height n
  | VNodes l => list_max (map height l)
  | _ => 0
  end.

Fixpoint node_size (n : Node) : nat :=
  match n with
  | mk_node _ _ nodes body other =>
      S (list_sum (map node_size nodes) + match body with Some b => node_size b | None => 0 end +
         list_sum (map (λ kv, value_size (snd kv)) other))
  end
with value_size (v : Value) : nat :=
  match v with
  | VNode n => node_size n
  | VNodes l => list_sum (map node_size l)
  | _ => 0
  end.

(** ** Source text *)

(** A byte index that does not split a character. *)
Definition is_char_boundary (s : Bytes) (i : nat) : bool :=
  match s !! i with
  | Some b => (i =? 0) || negb ((128 <=? b)%Z && (b <? 192)%Z)
  | None => i =? length s
  end.

(** [&s[a..b]]; a range that is out of bounds or splits a character panics. *)
Definition str_slice (s : Bytes) (a b : nat) : option Bytes :=
  if (a <=? b) && is_char_boundary s a && is_char_boundary s b then Some (take (b - a) (drop a s)) else None.

(** [s.lines().count()]: a final newline does not begin another line. *)
Definition lines_count (s : Bytes) : Z :=
  Z.of_nat (length (filter (λ b, b = 10%Z) s)) +
  match last s with Some b => if (b =? 10)%Z then 0 else 1 | None => 0 end.

(** ** The visitor *)

Definition has_statements (node : Node) : bool :=
  match node_type node with
  | DoWhileStatement | EmitStatement | ExpressionStatement | ForStatement | IfStatement
  | RevertStatement | TryStatement | VariableDeclarationStatement | WhileStatement => true
  | _ => match attr_nodes node "statements" with Some (_ :: _) => true | _ => false end
  end.

Module ContractVisitor.
Record t := mk { source_id : Z; source : Bytes; contract_name : string; branch_id : Z; last_line : Z;
  items : list CoverageItem.t }.

(** A visit: [None] is a panic; an error drops the visitor. *)
Definition Visit : Type := t → option (result t string).

Definition skip : Visit := λ v, Some (Ok v).
Definition bail (e : string) : Visit := λ _, Some (Err e).
Definition andThen (f g : Visit) : Visit := λ v,
  r ← f v; match r with Ok v => g v | Err e => Some (Err e) end.
Definition ok_or {A} (o : option A) (e : string) (k : A → Visit) : Visit :=
  match o with Some a => k a | None => bail e end.
Definition if_some {A} (o : option A) (k : A → Visit) : Visit :=
  match o with Some a => k a | None => skip end.
Fixpoint for_each {A} (l : list A) (k : A → Visit) : Visit :=
  match l with [] => skip | a :: l => andThen (k a) (for_each l k) end.

Declare Scope visit_scope.
Delimit Scope visit_scope with visit.
Notation "f >> g" := (andThen f g) (at level 60, right associativity) : visit_scope.

Definition new (source_id : Z) (source : Bytes) (contract_name : string) : option t :=
  if (source_id <? 2 ^ 32)%Z then Some (mk source_id source contract_name 0 0 []) else None.

Section visit.
Open Scope visit_scope.
(** [chk]: overflow checks and debug assertions are on. *)
Context (chk : bool).

Definition set_branch_id (v : t) (n : Z) : t :=
  mk (source_id v) (source v) (contract_name v) n (last_line v) (items v).

(** [usize] arithmetic. *)
Definition usize_op (x : Z) : option Z :=
  if (0 <=? x)%Z && (x <? 2 ^ 64)%Z then Some x else if chk then None else Some (x mod 2 ^ 64)%Z.

Definition source_location_for (v : t) (loc : Src) : option SourceLocation.t :=
  let bytes_start := (src_start loc mod 2 ^ 32)%Z in
  src_end ← usize_op (src_start loc + default 0%Z (src_length loc));
  let bytes_end := (src_end mod 2 ^ 32)%Z in
  before ← str_slice (source v) 0 (Z.to_nat bytes_start);
  let start_line := (lines_count before mod 2 ^ 32)%Z in
  within ← str_slice (source v) (Z.to_nat bytes_start) (Z.to_nat bytes_end);
  let n_lines := (lines_count within mod 2 ^ 32)%Z in
  lines_end ← add_u32 chk start_line n_lines;
  Some (SourceLocation.mk (source_id v) (contract_name v) bytes_start bytes_end start_line lines_end).

Definition is_line (kind : CoverageItemKind) : bool := match kind with KLine => true | _ => false end.

Definition push_item_kind (kind : CoverageItemKind) (src : Src) : Visit := λ v,
  loc ← source_location_for v src;
  if chk && is_line kind then None
  else
    let item := CoverageItem.mk kind loc 0 in
    let '(items, last_line) :=
      if (last_line v <? SourceLocation.lines_start loc)%Z
      then (items v ++ [CoverageItem.mk KLine loc 0], SourceLocation.lines_start loc)
      else (items v, last_line v) in
    Some (Ok (mk (source_id v) (source v) (contract_name v) (branch_id v) last_line (items ++ [item]))).

(** [let branch_id = self.branch_id; self.branch_id += 1;] *)
Definition next_branch (k : Z → Visit) : Visit := λ v,
  n ← add_u32 chk (branch_id v) 1;
  k (branch_id v) (set_branch_id v n).

Definition visit_block (visit_statement : Node → Visit) (node : Node) : Visit :=
  for_each (default [] (attr_nodes node "statements")) visit_statement.

Definition visit_modifier_or_yul_fn_definition (visit_statement : Node → Visit) (node : Node) : Visit :=
  ok_or (attr_string node "name") "Modifier has no name" (λ name,
  if_some (body node) (λ body,
    push_item_kind (KFunction name) (src node) >> visit_block visit_statement body)).

(** A call: [require] is a branch with two paths. *)
Definition visit_function_call (node : Node) : Visit :=
  if bool_decide (attr_string node "kind" = Some "functionCall") then
    push_item_kind KStatement (src node) >>
    match attr_node node "expression" with
    | Some expr =>
        if bool_decide (node_type expr = Identifier) && bool_decide (attr_string expr "name" = Some "require")
        then next_branch (λ branch_id,
               push_item_kind (KBranch branch_id 0 false) (src node) >>
               push_item_kind (KBranch branch_id 1 false) (src node))
        else skip
    | None => skip
    end
  else skip.

Fixpoint visit_expression (fuel : nat) (node : Node) : Visit :=
  match fuel with
  | 0 => λ _, None
  | S fuel =>
      match node_type node with
      | Assignment | UnaryOperation | Conditional | YulFunctionCall => push_item_kind KStatement (src node)
      | FunctionCall => visit_function_call node
      | BinaryOperation =>
          push_item_kind KStatement (src node) >>
          if_some (attr_node node "leftExpression") (visit_expression fuel) >>
          if_some (attr_node node "rightExpression") (visit_expression fuel)
      | _ => skip
      end
  end.

Definition visit_block_or_statement (visit_statement : Node → Visit) (node : Node) : Visit :=
  match node_type node with
  | Block => visit_block visit_statement node
  | Break | Continue | DoWhileStatement | EmitStatement | ExpressionStatement | ForStatement
  | IfStatement | InlineAssembly | Return | RevertStatement | TryStatement
  | VariableDeclarationStatement | YulVariableDeclaration | WhileStatement => visit_statement node
  | _ => skip
  end.

Section statement.
Context (visit_statement visit_expression : Node → Visit).

Definition visit_while (node : Node) : Visit :=
  ok_or (attr_node node "condition") "while statement had no condition" visit_expression >>
  ok_or (body node) "while statement had no body node" (visit_block_or_statement visit_statement).

Definition visit_for (node : Node) : Visit :=
  if_some (attr_node node "initializationExpression") visit_statement >>
  if_some (attr_node node "condition") visit_expression >>
  if_some (attr_node node "loopExpression") visit_statement >>
  ok_or (body node) "for statement had no body node" (visit_block_or_statement visit_statement).

(** The range of the false branch of an if. *)
Definition false_src (node true_body false_body : Node) : option Src :=
  length ← match src_length (src false_body) with
           | Some length =>
               d ← usize_op (src_start (src false_body) - src_start (src true_body));
               Some <$> usize_op (d + length)
           | None => Some None
           end;
  Some (mk_src (src_start (src node)) length (src_index (src node))).

Definition visit_if (node : Node) : Visit :=
  ok_or (attr_node node "condition") "if statement had no condition" visit_expression >>
  ok_or (attr_node node "trueBody") "if statement had no true body" (λ true_body,
  next_branch (λ branch_id,
  match attr_node node "falseBody" with
  | Some false_body =>
      if has_statements true_body || has_statements false_body then
        push_item_kind (KBranch branch_id 0 true) (src true_body) >>
        (λ v, s ← false_src node true_body false_body; push_item_kind (KBranch branch_id 1 false) s v) >>
        visit_block_or_statement visit_statement true_body >>
        visit_block_or_statement visit_statement false_body
      else skip
  | None =>
      if has_statements true_body then
        push_item_kind (KBranch branch_id 0 true) (src true_body) >>
        visit_block_or_statement visit_statement true_body
      else skip
  end)).

Definition visit_yul_if (node : Node) : Visit :=
  ok_or (attr_node node "condition") "yul if statement had no condition" visit_expression >>
  ok_or (body node) "yul if statement had no body" (λ body,
  next_branch (λ branch_id,
    push_item_kind (KBranch branch_id 0 false) (src node) >>
    visit_block visit_statement body)).

(** The catch clauses; the path id counts those with statements. *)
Fixpoint visit_clauses (branch_id path_id : Z) (clauses : list Node) : Visit :=
  match clauses with
  | [] => skip
  | clause :: clauses =>
      match attr_node clause "block" with
      | Some catch_block =>
          if has_statements catch_block then
            push_item_kind (KBranch branch_id path_id true) (src catch_block) >>
            visit_block visit_statement catch_block >>
            (λ v, n ← add_u32 chk path_id 1; visit_clauses branch_id n clauses v)
          else if bool_decide (is_Some (attr_node clause "parameters")) then
            push_item_kind KStatement (src clause) >> visit_statement clause >>
            visit_clauses branch_id path_id clauses
          else visit_clauses branch_id path_id clauses
      | None => visit_clauses branch_id path_id clauses
      end
  end.

(** The range from the try to the end of its block. *)
Definition try_src (node try_block : Node) : option Src :=
  length ← match src_length (src try_block) with
           | Some length =>
               e ← usize_op (src_start (src try_block) + length);
               Some <$> usize_op (e - src_start (src node))
           | None => Some None
           end;
  Some (mk_src (src_start (src node)) length (src_index (src node))).

Definition visit_try (node : Node) : Visit :=
  ok_or (attr_node node "externalCall") "try statement had no call" visit_expression >>
  next_branch (λ branch_id,
  ok_or (attr_nodes node "clauses") "try statement had no clauses" (λ clauses,
  match clauses with
  | [] => λ _, None
  | first :: clauses =>
      ok_or (attr_node first "block") "try statement had no block" (λ try_block,
      (λ v, s ← try_src node try_block; push_item_kind (KBranch branch_id 0 true) s v) >>
      visit_block visit_statement try_block >>
      visit_clauses branch_id 1 clauses)
  end)).

Definition visit_yul_switch (node : Node) : Visit :=
  ok_or (attr_nodes node "cases") "yul switch had no case" (λ cases,
  for_each cases (λ case,
    push_item_kind KStatement (src case) >> visit_statement case >>
    if_some (body case) (λ body,
      push_item_kind KStatement (src body) >> visit_block visit_statement body))).

Definition visit_yul_for (node : Node) : Visit :=
  if_some (attr_node node "condition") visit_expression >>
  if_some (attr_node node "pre") (visit_block visit_statement) >>
  if_some (attr_node node "post") (visit_block visit_statement) >>
  if_some (body node) (λ body,
    push_item_kind KStatement (src body) >> visit_block visit_statement body).
End statement.

Fixpoint visit_statement (fuel : nat) (node : Node) : Visit :=
  match fuel with
  | 0 => λ _, None
  | S fuel =>
      let statement := visit_statement fuel in
      let expression := visit_expression fuel in
      match node_type node with
      | Block | UncheckedBlock | YulBlock => visit_block statement node
      | InlineAssembly =>
          ok_or (attr_node node "AST") "inline assembly block with no AST attribute" (visit_block statement)
      | Break | Continue | EmitStatement | RevertStatement | YulAssignment | YulBreak | YulContinue
      | YulLeave | YulVariableDeclaration => push_item_kind KStatement (src node)
      | PlaceholderStatement => skip
      | Return =>
          push_item_kind KStatement (src node) >> if_some (attr_node node "expression") expression
      | VariableDeclarationStatement =>
          push_item_kind KStatement (src node) >> if_some (attr_node node "initialValue") expression
      | DoWhileStatement | WhileStatement => visit_while statement expression node
      | ForStatement => visit_for statement expression node
      | ExpressionStatement | YulExpressionStatement =>
          ok_or (attr_node node "expression") "expression statement had no expression" expression
      | IfStatement => visit_if statement expression node
      | YulIf => visit_yul_if statement expression node
      | TryStatement => visit_try statement expression node
      | YulSwitch => visit_yul_switch statement node
      | YulForLoop => visit_yul_for statement expression node
      | YulFunctionDefinition => visit_modifier_or_yul_fn_definition statement node
      | _ => skip
      end
  end.

Definition visit_function_definition (visit_statement : Node → Visit) (node : Node) : Visit :=
  if_some (body node) (λ body,
  ok_or (attr_string node "name") "Function has no name" (λ name,
  ok_or (attr_string node "kind") "Function has no kind" (λ kind,
  if negb (String.eqb kind "function") && negb (has_statements body) then skip
  else
    let name := if String.eqb name "" then kind else name in
    push_item_kind (KFunction name) (src node) >> visit_block visit_statement body))).

Definition visit_contract (node : Node) : Visit :=
  let statement := visit_statement (height node) in
  for_each (nodes node) (λ node,
    match node_type node with
    | FunctionDefinition => visit_function_definition statement node
    | ModifierDefinition => visit_modifier_or_yul_fn_definition statement node
    | _ => skip
    end).
End visit.
End ContractVisitor.

(** ** Test functions ([common/src/traits.rs]) *)

Inductive TestFunctionKind :=
  | Setup
  | UnitTest (should_fail : bool)
  | FuzzTest (should_fail : bool)
  | InvariantTest
  | AfterInvariant
  | Fixture
  | UnknownKind.

Definition ascii_lower (a : ascii) : ascii :=
  let n := Ascii.nat_of_ascii a in
  if (65 <=? n) && (n <=? 90) then Ascii.ascii_of_nat (n + 32) else a.

Fixpoint eq_ignore_ascii_case (s t : string) : bool :=
  match s, t with
  | EmptyString, EmptyString => true
  | String a s, String b t => Ascii.eqb (ascii_lower a) (ascii_lower b) && eq_ignore_ascii_case s t
  | _, _ => false
  end.

Definition classify (name : string) (has_inputs : bool) : TestFunctionKind :=
  if String.prefix "test" name then
    let should_fail := String.prefix "testFail" name in
    if has_inputs then FuzzTest should_fail else UnitTest should_fail
  else if String.prefix "invariant" name || String.prefix "statefulFuzz" name then InvariantTest
  else if eq_ignore_ascii_case name "setup" then Setup
  else if eq_ignore_ascii_case name "afterinvariant" then AfterInvariant
  else if String.prefix "fixture" name then Fixture
  else UnknownKind.

Definition is_any_test (k : TestFunctionKind) : bool :=
  match k with UnitTest _ | FuzzTest _ | InvariantTest => true | _ => false end.

(** ** The analysis of all sources *)

Definition is_test_item (item : CoverageItem.t) : bool :=
  match CoverageItem.kind item with
  | KFunction name => is_any_test (classify name false)
  | _ => false
  end.

(** The items of one top-level node of a source. *)
Definition contract_items (chk : bool) (source_id : Z) (source : Bytes) (node : Node) :
    option (result (list CoverageItem.t) string) :=
  if negb (bool_decide (node_type node = ContractDefinition)) then Some (Ok [])
  else
    match attr_string node "contractKind" with
    | None => Some (Err "Contract has no kind")
    | Some contract_kind =>
        if String.eqb contract_kind "interface" then Some (Ok [])
        else
          match attr_string node "name" with
          | None => Some (Err "Contract has no name")
          | Some name =>
              visitor ← ContractVisitor.new source_id source name;
              r ← ContractVisitor.visit_contract chk node visitor;
              Some match r with
              | Err e => Err e
              | Ok visitor =>
                  let items := ContractVisitor.items visitor in
                  Ok (if existsb is_test_item items then [] else items)
              end
          end
    end.

(** The sources of a compilation, in the order the hash map has them. *)
Record SourceFile := mk_source_file { file_source : Bytes; file_nodes : list Node }.

Fixpoint collect_items (chk : bool) (todo : list (Z * Bytes * Node)) :
    option (result (list (Z * list CoverageItem.t)) string) :=
  match todo with
  | [] => Some (Ok [])
  | (id, source, node) :: todo =>
      r ← contract_items chk id source node;
      rest ← collect_items chk todo;
      Some match r, rest with
      | Ok items, Ok rest => Ok ((id, items) :: rest)
      | Err e, _ => Err e
      | _, Err e => Err e
      end
  end.

Definition source_nodes (sources : list (Z * SourceFile)) : list (Z * Bytes * Node) :=
  sources ≫= λ '(id, f), (λ node, (id, file_source f, node)) <$> file_nodes f.

Definition analyze (chk : bool) (sources : list (Z * SourceFile)) :
    option (result SourceAnalysis.t string) :=
  r ← collect_items chk (source_nodes sources);
  match r with
  | Err e => Some (Err e)
  | Ok sourced_items => a ← SourceAnalysis.new chk sourced_items; Some (Ok a)
  end.
