(* ===== verification/AnalysisTheorems.v ===== *)
(** What the analysis of the sources finds, and that anchors can be found for it.
    The first part is about the visits: what each adds to the items, and that
    none panics on a well-formed AST. *)
From S2P Require Import Prelude Transaction Paths Coverage CoverageTheorems Analysis Database CoverageItems Anchors AnchorsTheorems.
Import ContractVisitor.

(** ** The AST *)

(** A node the visitor can go to from another one. *)
Inductive child (n m : Node) : Prop :=
  | child_nodes : m ∈ nodes n → child n m
  | child_body : body n = Some m → child n m
  | child_node k : attr_node n k = Some m → child n m
  | child_list k l : attr_nodes n k = Some l → m ∈ l → child n m.

Lemma list_max_elem (f : Node → nat) (m : Node) l : m ∈ l → f m ≤ list_max (map f l).
Proof.
  induction l as [|x l IH]; [set_solver|]. unfold list_max in *. cbn.
  intros [-> |H]%elem_of_cons; [lia|]. apply IH in H. lia.
Qed.

Lemma lookup_attr_height k l v :
  lookup_attr k l = Some v → value_height v ≤ list_max (map (λ kv, value_height (snd kv)) l).
Proof.
  induction l as [|[k' v'] l IH]; cbn [lookup_attr]; [done|]. unfold list_max in *. cbn.
  destruct (String.eqb k' k).
  - intros [= ->]. lia.
  - intros H%IH. lia.
Qed.

Lemma child_height n m : child n m → height m < height n.
Proof.
  destruct n as [t s nds b o]. intros [H|H|k H|k l H Hm]; cbn in *.
  - pose proof (list_max_elem height m nds H). lia.
  - subst b. lia.
  - unfold attr_node in H. cbn in H. destruct (lookup_attr k o) as [[]|] eqn:E; try done.
    injection H as ->. apply lookup_attr_height in E. cbn in E. lia.
  - unfold attr_nodes in H. cbn in H. destruct (lookup_attr k o) as [[]|] eqn:E; try done.
    injection H as ->. apply lookup_attr_height in E. cbn in E.
    pose proof (list_max_elem height m l Hm). lia.
Qed.

(** The size of what is under some attributes. *)
Definition attr_size (n : Node) (k : string) : nat :=
  match lookup_attr k (other n) with Some v => value_size v | None => 0 end.
Definition attrs_size (n : Node) (ks : list string) : nat := list_sum (map (attr_size n) ks).
Definition body_size (n : Node) : nat := match body n with Some b => node_size b | None => 0 end.
Definition nodes_size (l : list Node) : nat := list_sum (map node_size l).

Lemma attrs_size_le n ks : NoDup ks → attrs_size n ks + body_size n < node_size n.
Proof.
  destruct n as [t s nds b o]. intros Hnd.
  assert (attrs_size (mk_node t s nds b o) ks ≤ list_sum (map (λ kv, value_size (snd kv)) o)) as H.
  { unfold attrs_size, attr_size. cbn [other]. clear nds b t s. revert ks Hnd.
    induction o as [|[k v] o IH]; intros ks Hnd; cbn [lookup_attr map list_sum foldr snd].
    - induction ks; [done|]. cbn. apply NoDup_cons in Hnd as [_ Hnd]. auto.
    - destruct (decide (k ∈ ks)) as [Hk|Hk].
      + apply list_elem_of_split in Hk as (l1 & l2 & ->). apply NoDup_app in Hnd as (H1 & Hd & H2).
        apply NoDup_cons in H2 as [Hk2 H2]. specialize (IH (l1 ++ l2)).
        rewrite !map_app, !list_sum_app in *. cbn. rewrite String.eqb_refl.
        assert (∀ l, k ∉ l → map (λ k0, match (if String.eqb k k0 then Some v else lookup_attr k0 o)
          with Some v0 => value_size v0 | None => 0 end) l = map (λ k0, match lookup_attr k0 o
          with Some v0 => value_size v0 | None => 0 end) l) as Hmap.
        { intros l Hl. apply map_ext_in. intros k0 Hk0%list_elem_of_In.
          destruct (String.eqb_spec k k0) as [->|]; done. }
        rewrite !Hmap; [|done|intros Hk1; by apply (Hd k Hk1); left].
        assert (NoDup (l1 ++ l2)) as Hnd' by (apply NoDup_app; split_and!; [done|set_solver|done]).
        specialize (IH Hnd'). unfold list_sum in *. cbn in *. lia.
      + etrans; [|apply Nat.le_add_l]. etrans; [|apply (IH ks Hnd)]. apply Nat.eq_le_incl. f_equal.
        apply map_ext_in. intros k0 Hk0%list_elem_of_In.
        by destruct (String.eqb_spec k k0) as [->|]. }
  unfold body_size. cbn. destruct b; lia.
Qed.

Lemma attr_node_size n k m : attr_node n k = Some m → node_size m = attr_size n k.
Proof. unfold attr_node, attr_size. destruct (lookup_attr k (other n)) as [[]|]; try done. by intros [= ->]. Qed.

Lemma attr_nodes_size n k l : attr_nodes n k = Some l → nodes_size l = attr_size n k.
Proof. unfold attr_nodes, attr_size. destruct (lookup_attr k (other n)) as [[]|]; try done. by intros [= ->]. Qed.

Lemma attr_size_lt n k : attr_size n k < node_size n.
Proof. pose proof (attrs_size_le n [k] (NoDup_singleton k)). unfold attrs_size in *. cbn in *. lia. Qed.

(** ** What a visit does *)

Definition branch_key (item : CoverageItem.t) : option (Z * Z) :=
  match CoverageItem.kind item with KBranch b p _ => Some (b, p) | _ => None end.
Definition line_start (item : CoverageItem.t) : option Z :=
  match CoverageItem.kind item with
  | KLine => Some (SourceLocation.lines_start (CoverageItem.loc item))
  | _ => None
  end.

(** A range of the source. *)
Definition in_source (s : Bytes) (r : Src) : Prop :=
  (0 ≤ src_start r ∧ 0 ≤ default 0 (src_length r) ∧
   src_start r + default 0 (src_length r) ≤ Z.of_nat (length s))%Z.

(** An item as the visitor of a contract creates it. *)
Record fresh_item (id : Z) (s : Bytes) (name : string) (item : CoverageItem.t) : Prop := {
  fresh_hits : CoverageItem.hits item = 0%Z;
  fresh_source : SourceLocation.source_id (CoverageItem.loc item) = id;
  fresh_contract : SourceLocation.contract_name (CoverageItem.loc item) = name;
  fresh_range : (0 ≤ SourceLocation.bytes_start (CoverageItem.loc item)
                 ≤ SourceLocation.bytes_end (CoverageItem.loc item))%Z ∧
    (SourceLocation.bytes_end (CoverageItem.loc item) ≤ Z.of_nat (length s))%Z;
  fresh_path : match CoverageItem.kind item with
               | KBranch _ path_id false => path_id = 0%Z ∨ path_id = 1%Z
               | _ => True
               end }.

(** [v'] is [v] after a visit that took at most [n] branch ids and that could use the keys [own]
    of branches taken before. *)
Record extends (own : list (Z * Z)) (n : nat) (v v' : t) : Prop := {
  ext_id : source_id v' = source_id v;
  ext_source : source v' = source v;
  ext_name : contract_name v' = contract_name v;
  ext_ids : (branch_id v ≤ branch_id v' ≤ branch_id v + Z.of_nat n)%Z;
  ext_items : ∃ new, items v' = items v ++ new ∧
    Forall (fresh_item (source_id v) (source v) (contract_name v)) new ∧
    NoDup (omap branch_key new) ∧
    (∀ k, k ∈ omap branch_key new → k ∈ own ∨ (branch_id v ≤ fst k < branch_id v')%Z) ∧
    StronglySorted Z.lt (omap line_start new) ∧
    (∀ l, l ∈ omap line_start new → (last_line v < l ≤ last_line v')%Z) ∧
    (last_line v ≤ last_line v')%Z }.

(** A visitor over an ASCII source of less than 4 GiB. *)
Definition ready (v : t) : Prop :=
  Forall (λ b, 0 ≤ b < 128)%Z (source v) ∧ (Z.of_nat (length (source v)) < 2 ^ 32)%Z ∧ (0 ≤ branch_id v)%Z.

Definition spec (s : Bytes) (own : list (Z * Z)) (n : nat) (f : Visit) : Prop := ∀ v,
  ready v → source v = s → (branch_id v + Z.of_nat n < 2 ^ 32)%Z →
  Forall (λ k, fst k < branch_id v)%Z own →
  ∃ r, f v = Some r ∧ ∀ v', r = Ok v' → extends own n v v'.

Section spec.
Context (s : Bytes).

Lemma extends_refl own n v : extends own n v v.
Proof.
  split; [done..|lia|]. exists []. rewrite app_nil_r. cbn.
  split_and!; [done|constructor|constructor| |constructor| |lia];
    intros ? H; by apply elem_of_nil in H.
Qed.

Lemma extends_trans own1 own2 n1 n2 v1 v2 v3 :
  extends own1 n1 v1 v2 → extends own2 n2 v2 v3 → own1 ## own2 →
  Forall (λ k, fst k < branch_id v1)%Z (own1 ++ own2) →
  extends (own1 ++ own2) (n1 + n2) v1 v3.
Proof.
  intros [I1 S1 N1 B1 (new1 & E1 & F1 & D1 & K1 & L1 & M1 & T1)]
    [I2 S2 N2 B2 (new2 & E2 & F2 & D2 & K2 & L2 & M2 & T2)] Hdis Hown.
  rewrite I1, S1, N1 in F2. rewrite Forall_forall in Hown.
  split; [congruence..|lia|]. exists (new1 ++ new2). rewrite !omap_app. split_and!.
  - by rewrite E2, E1, app_assoc.
  - by apply Forall_app.
  - apply NoDup_app. split_and!; [done| |done]. intros k H1%K1 H2%K2.
    assert (∀ k, k ∈ own1 ∨ k ∈ own2 → (fst k < branch_id v1)%Z) as Hlt
      by (intros; apply Hown; by apply elem_of_app).
    destruct H1 as [H1|H1], H2 as [H2|H2]; [by apply (Hdis k)|..|lia].
    + specialize (Hlt k (or_introl H1)). lia.
    + specialize (Hlt k (or_intror H2)). lia.
  - intros k [H%K1|H%K2]%elem_of_app; destruct H as [H|H]; rewrite elem_of_app; [tauto| |tauto|]; right; lia.
  - apply StronglySorted_app. split_and!; [|done|done].
    intros x y Hx%M1 Hy%M2. lia.
  - intros l [H%M1|H%M2]%elem_of_app; lia.
  - lia.
Qed.

Lemma ready_extends own n v v' : ready v → extends own n v v' → ready v'.
Proof. intros (H1 & H2 & H3) [I S N B _]. unfold ready. rewrite S. split_and!; [done..|lia]. Qed.

Lemma spec_mono own own' n m f : spec s own n f → own ⊆ own' → n ≤ m → spec s own' m f.
Proof.
  intros Hf Hs Hn v Hr Hsrc Hb Ho. destruct (Hf v Hr Hsrc) as (r & E & Hx); [lia| |].
  { rewrite Forall_forall in Ho |- *. intros k Hk. apply Ho. by apply Hs. }
  exists r. split; [done|]. intros v' Hv. destruct (Hx v' Hv) as [I S N B (new & E' & F & D & K & R)].
  split; [done..|lia|]. exists new. split_and!; try (done || apply R).
  intros k [Hk|Hk]%K; [left; by apply Hs|by right].
Qed.

Lemma spec_skip own n : spec s own n skip.
Proof. intros v _ _ _ _. eexists. split; [done|]. intros v' [= <-]. apply extends_refl. Qed.

Lemma spec_bail own n e : spec s own n (bail e).
Proof. intros v _ _ _ _. eexists. split; [done|]. done. Qed.

Lemma spec_seq own1 own2 n1 n2 f g :
  spec s own1 n1 f → spec s own2 n2 g → own1 ## own2 → spec s (own1 ++ own2) (n1 + n2) (andThen f g).
Proof.
  intros Hf Hg Hd v Hr Hs Hb Ho. pose proof Ho as Ho'. apply Forall_app in Ho as [Ho1 Ho2].
  destruct (Hf v Hr Hs) as (r & E & Hx); [lia|done|]. unfold andThen. rewrite E. cbn [mbind option_bind].
  destruct r as [v1|e]; [|by eexists]. specialize (Hx v1 eq_refl).
  destruct (Hg v1) as (r2 & E2 & Hx2).
  - by eapply ready_extends.
  - by rewrite (ext_source _ _ _ _ Hx).
  - destruct (ext_ids _ _ _ _ Hx). lia.
  - destruct (ext_ids _ _ _ _ Hx). eapply Forall_impl; [exact Ho2|]. cbn. lia.
  - rewrite E2. eexists. split; [done|]. intros v' ->. eapply extends_trans; [done|by apply Hx2|done|done].
Qed.

Lemma spec_seq_nil n1 n2 f g : spec s [] n1 f → spec s [] n2 g → spec s [] (n1 + n2) (andThen f g).
Proof. intros Hf Hg. apply (spec_seq [] [] n1 n2 f g Hf Hg). intros ? H. by apply elem_of_nil in H. Qed.

Lemma spec_ok_or {A} own n (o : option A) e k :
  (∀ a, o = Some a → spec s own n (k a)) → spec s own n (ok_or o e k).
Proof. intros H. destruct o as [a|]; [by apply H|apply spec_bail]. Qed.

Lemma spec_if_some {A} own n (o : option A) k :
  (∀ a, o = Some a → spec s own n (k a)) → spec s own n (if_some o k).
Proof. intros H. destruct o as [a|]; [by apply H|apply spec_skip]. Qed.

Lemma spec_for_each {A} (cost : A → nat) l k :
  (∀ a, a ∈ l → spec s [] (cost a) (k a)) → spec s [] (list_sum (map cost l)) (for_each l k).
Proof.
  induction l as [|a l IH]; intros H; [apply spec_skip|]. cbn.
  apply spec_seq_nil; [apply H; by left|]. apply IH. intros b Hb. apply H. by right.
Qed.

Lemma spec_next_branch chk own n k :
  (∀ b, Forall (λ key, fst key = b) (own b) ∧ spec s (own b) n (k b)) → spec s [] (S n) (next_branch chk k).
Proof.
  intros Hk v Hr Hs Hb _. unfold next_branch. destruct Hr as (R1 & R2 & R3).
  rewrite add_u32_small by lia. cbn [mbind option_bind]. destruct (Hk (branch_id v)) as [Hown Hspec].
  destruct (Hspec (set_branch_id v (branch_id v + 1))) as (r & E & Hx).
  - split_and!; [done..|cbn; lia].
  - done.
  - cbn. lia.
  - eapply Forall_impl; [exact Hown|]. cbn. lia.
  - exists r. split; [done|]. intros v' Hv. destruct (Hx v' Hv) as [I S N B (new & E' & F & D & K & R)].
    cbn in *. split; [done..|lia|]. exists new. split_and!; try (done || apply R).
    intros k' Hk'%K. right. destruct Hk' as [Hk'|]; [|lia]. rewrite Forall_forall in Hown.
    rewrite (Hown k' Hk'). lia.
Qed.
End spec.

(** ** Pushing an item *)

Lemma ascii_boundary s i : Forall (λ b, 0 ≤ b < 128)%Z s → i ≤ length s → is_char_boundary s i = true.
Proof.
  intros Hs Hi. unfold is_char_boundary. destruct (s !! i) as [b|] eqn:E.
  - rewrite Forall_lookup in Hs. specialize (Hs i b E). cbn in Hs.
    rewrite (proj2 (Z.leb_gt 128 b)) by lia. cbn. by rewrite orb_true_r.
  - apply lookup_ge_None in E. apply Nat.eqb_eq. lia.
Qed.

Lemma str_slice_ascii s a b :
  Forall (λ b, 0 ≤ b < 128)%Z s → a ≤ b → b ≤ length s → str_slice s a b = Some (take (b - a) (drop a s)).
Proof.
  intros Hs Hab Hb. unfold str_slice. rewrite !ascii_boundary by (done || lia).
  by rewrite (proj2 (Nat.leb_le a b) Hab).
Qed.

Lemma lines_count_le s : (0 ≤ lines_count s ≤ Z.of_nat (length s))%Z.
Proof.
  unfold lines_count. destruct s as [|b l] using rev_ind; [done|]. clear IHl.
  rewrite last_snoc, filter_app, !length_app, filter_cons, filter_nil.
  pose proof (length_filter (λ b, b = 10%Z) l). destruct (Z.eqb_spec b 10) as [->|Hb].
  - rewrite decide_True by done. cbn [length]. lia.
  - rewrite decide_False by done. cbn [length]. lia.
Qed.

Section push.
Context (chk : bool).

Lemma source_location_spec v r :
  ready v → in_source (source v) r →
  ∃ l0 l1, (0 ≤ l0)%Z ∧ source_location_for chk v r = Some (SourceLocation.mk (source_id v) (contract_name v)
    (src_start r) (src_start r + default 0 (src_length r))%Z l0 l1).
Proof.
  intros (Hs & Hl & _) (H0 & H1 & H2). unfold source_location_for, usize_op.
  set (len := default 0%Z (src_length r)) in *.
  rewrite (proj2 (Z.leb_le 0 (src_start r + len))), (proj2 (Z.ltb_lt (src_start r + len) (2 ^ 64))) by lia.
  cbn [andb mbind option_bind]. rewrite !(Z.mod_small _ (2 ^ 32)) by lia.
  rewrite !str_slice_ascii by (done || lia). cbn [mbind option_bind].
  set (before := take _ (drop 0 _)). set (within := take _ (drop (Z.to_nat (src_start r)) _)).
  pose proof (lines_count_le before) as Hb. pose proof (lines_count_le within) as Hw.
  assert (Z.of_nat (length before) = src_start r) by (unfold before; rewrite length_take, length_drop; lia).
  assert (Z.of_nat (length within) = len) by (unfold within; rewrite length_take, length_drop; lia).
  rewrite !(Z.mod_small _ (2 ^ 32)) by lia. rewrite add_u32_small by lia. cbn [mbind option_bind].
  eexists _, _. split; [|done]. lia.
Qed.

(** The key of a branch. *)
Definition own_key (kind : CoverageItemKind) : list (Z * Z) :=
  match kind with KBranch b p _ => [(b, p)] | _ => [] end.

Definition path_ok (kind : CoverageItemKind) : Prop :=
  match kind with KBranch _ p false => p = 0%Z ∨ p = 1%Z | _ => True end.

Lemma spec_push s kind r :
  in_source s r → is_line kind = false → path_ok kind → spec s (own_key kind) 0 (push_item_kind chk kind r).
Proof.
  intros Hin Hk Hp v Hr <- _ Ho. unfold push_item_kind.
  destruct (source_location_spec v r Hr Hin) as (l0 & l1 & Hl0 & ->). cbn [mbind option_bind].
  rewrite Hk, andb_false_r. set (loc := SourceLocation.mk _ _ _ _ l0 l1). destruct Hin as (H0 & H1 & H2).
  assert (∀ kind, path_ok kind → fresh_item (source_id v) (source v) (contract_name v) (CoverageItem.mk kind loc 0))
    as Hfresh by (intros k ?; split; [done..|cbn; lia|done]).
  assert (∀ l, omap branch_key (l ++ [CoverageItem.mk kind loc 0]) = omap branch_key l ++ own_key kind) as Hkey.
  { intros l. rewrite omap_app. f_equal. destruct kind; cbn in *; done. }
  assert (∀ l, omap line_start (l ++ [CoverageItem.mk kind loc 0]) = omap line_start l) as Hline.
  { intros l. rewrite omap_app. destruct kind; cbn in *; by rewrite ?app_nil_r. }
  assert (NoDup (own_key kind)) as Hnd.
  { destruct kind; cbn; [constructor|constructor|apply NoDup_singleton|constructor]. }
  eexists. split.
  { cbn [SourceLocation.lines_start loc].
    instantiate (1 := Ok (mk (source_id v) (source v) (contract_name v) (branch_id v) (Z.max (last_line v) l0)
      (items v ++ (if (last_line v <? l0)%Z then [CoverageItem.mk KLine loc 0] else []) ++
       [CoverageItem.mk kind loc 0]))).
    destruct (Z.ltb_spec (last_line v) l0); cbn; do 3 f_equal; try lia; by rewrite <- ?app_assoc. }
  intros v' [= <-]. split; [done..|cbn; lia|]. cbn.
  eexists. split; [done|]. rewrite Hkey, Hline. destruct (Z.ltb_spec (last_line v) l0); cbn.
  - split_and!; [repeat constructor; by apply Hfresh|done|by left| | |lia].
    + repeat constructor.
    + intros l Hl%list_elem_of_singleton. subst l. lia.
  - split_and!; [repeat constructor; by apply Hfresh|done|by left|constructor| |lia].
    intros l Hl. by apply elem_of_nil in Hl.
Qed.
End push.

(** ** Well-formed ASTs *)

(** What the compiler guarantees of a node: its range is in the source; it has less than [2 ^ 32]
    nodes below it; the bodies of an if follow each other inside it; a try has a first clause, inside it; the cases of a Yul switch are
    cases. *)
Definition regular (s : Bytes) (n : Node) : Prop :=
  in_source s (src n) ∧ (Z.of_nat (node_size n) < 2 ^ 32)%Z ∧
  match node_type n with
  | IfStatement => ∀ t f, attr_node n "trueBody" = Some t → attr_node n "falseBody" = Some f →
      (src_start (src n) ≤ src_start (src t) ≤ src_start (src f))%Z
  | TryStatement => ∀ l, attr_nodes n "clauses" = Some l →
      match l with
      | [] => False
      | first :: _ => ∀ b, attr_node first "block" = Some b → (src_start (src n) ≤ src_start (src b))%Z
      end
  | YulSwitch => ∀ l, attr_nodes n "cases" = Some l → Forall (λ c, node_type c = OtherNode) l
  | _ => True
  end.

Definition well_formed (s : Bytes) (n : Node) : Prop := ∀ m, rtc child n m → regular s m.

Lemma well_formed_child s n m : well_formed s n → child n m → well_formed s m.
Proof. intros H Hc m' Hm. apply H. by eapply rtc_l. Qed.

Lemma well_formed_self s n : well_formed s n → regular s n.
Proof. intros H. by apply H. Qed.

Lemma well_formed_src s n : well_formed s n → in_source s (src n).
Proof. intros H. by apply H. Qed.

(** ** Visiting *)

Section visiting.
Context (chk : bool) (s : Bytes) (Hlen : (Z.of_nat (length s) < 2 ^ 32)%Z).

Lemma spec_push_statement n m : well_formed s n → spec s [] m (push_item_kind chk KStatement (src n)).
Proof.
  intros H. eapply spec_mono; [apply (spec_push chk s KStatement); [by apply well_formed_src|done..]|done|lia].
Qed.

Lemma spec_push_branch b p first r m own :
  in_source s r → (first = false → p = 0%Z ∨ p = 1%Z) → (b, p) ∈ own →
  spec s own m (push_item_kind chk (KBranch b p first) r).
Proof.
  intros H Hp Ho. eapply spec_mono; [apply (spec_push chk s (KBranch b p first)); [done|done|]| |lia].
  - destruct first; [done|]. by apply Hp.
  - intros k ->%list_elem_of_singleton. done.
Qed.

Lemma visit_function_call_spec n :
  well_formed s n → spec s [] (node_size n) (visit_function_call chk n).
Proof.
  intros H. unfold visit_function_call. destruct (bool_decide _); [|apply spec_skip].
  assert (1 ≤ node_size n) by (destruct n; cbn; lia).
  apply (spec_mono s [] [] (0 + 1)); [|done|lia]. apply spec_seq_nil; [by apply spec_push_statement|].
  destruct (attr_node n "expression") as [expr|]; [|apply spec_skip].
  destruct (_ && _); [|apply spec_skip].
  apply (spec_next_branch s chk (λ b, [(b, 0%Z)] ++ [(b, 1%Z)]) 0). intros b. split; [by repeat constructor|].
  apply (spec_seq s [(b, 0%Z)] [(b, 1%Z)] 0 0).
  - apply spec_push_branch; [by apply well_formed_src|by left|by left].
  - apply spec_push_branch; [by apply well_formed_src|by right|by left].
  - intros k ->%list_elem_of_singleton Hk. by apply list_elem_of_singleton in Hk.
Qed.

Lemma visit_expression_spec fuel n :
  height n ≤ fuel → well_formed s n → spec s [] (node_size n) (visit_expression chk fuel n).
Proof.
  revert n. induction fuel as [|fuel IH]; intros n Hh Hw; [destruct n; cbn in Hh; lia|].
  assert (∀ k m, attr_node n k = Some m → spec s [] (attr_size n k) (visit_expression chk fuel m)) as Hattr.
  { intros k m E. rewrite <- (attr_node_size _ _ _ E). assert (child n m) as Hc by (by eapply child_node).
    apply IH; [apply child_height in Hc; lia|by eapply well_formed_child]. }
  cbn [visit_expression]. destruct (node_type n); try apply spec_skip; try by apply spec_push_statement.
  - by apply visit_function_call_spec.
  - pose proof (attrs_size_le n ["leftExpression"; "rightExpression"]) as Hs.
    apply (spec_mono s [] [] (0 + (attr_size n "leftExpression" + attr_size n "rightExpression"))).
    + apply spec_seq_nil; [by apply spec_push_statement|].
      apply spec_seq_nil; apply spec_if_some; apply Hattr.
    + done.
    + unfold attrs_size in Hs. cbn in Hs.
      assert (NoDup ["leftExpression"; "rightExpression"]) as Hnd by (by apply (bool_decide_unpack _)).
      specialize (Hs Hnd). lia.
Qed.

Section statement.
Context (fuel : nat) (st ex : Node → Visit).
Context (Hst : ∀ c, height c ≤ fuel → well_formed s c → spec s [] (node_size c) (st c)).
Context (Hex : ∀ c, height c ≤ fuel → well_formed s c → spec s [] (node_size c) (ex c)).

Lemma visit_block_spec m :
  height m ≤ S fuel → well_formed s m → spec s [] (attr_size m "statements") (visit_block st m).
Proof.
  intros Hh Hw. unfold visit_block. destruct (attr_nodes m "statements") as [l|] eqn:E; [|apply spec_skip].
  rewrite <- (attr_nodes_size _ _ _ E). apply spec_for_each. intros c Hc.
  assert (child m c) as Hch by (by eapply child_list). apply Hst.
  - apply child_height in Hch. lia.
  - by eapply well_formed_child.
Qed.

Lemma visit_block_size m n :
  height m ≤ S fuel → well_formed s m → node_size m ≤ n → spec s [] n (visit_block st m).
Proof.
  intros Hh Hw Hn. eapply spec_mono; [by apply visit_block_spec|done|].
  pose proof (attr_size_lt m "statements"). lia.
Qed.

Lemma visit_block_or_statement_spec m :
  height m ≤ fuel → well_formed s m → spec s [] (node_size m) (visit_block_or_statement st m).
Proof.
  intros Hh Hw. unfold visit_block_or_statement.
  destruct (node_type m); try apply spec_skip; try by apply Hst.
  apply visit_block_size; [lia|done|lia].
Qed.

Context (n : Node) (Hh : height n ≤ S fuel) (Hw : well_formed s n).

Lemma below m : child n m → height m ≤ fuel ∧ well_formed s m.
Proof. intros Hc. split; [apply child_height in Hc; lia|by eapply well_formed_child]. Qed.

Lemma attr_below k m : attr_node n k = Some m → height m ≤ fuel ∧ well_formed s m.
Proof. intros E. apply below. by eapply child_node. Qed.

Lemma body_below m : body n = Some m → height m ≤ fuel ∧ well_formed s m.
Proof. intros E. apply below. by apply child_body. Qed.

(** Visiting what is under an attribute costs its size. *)
Lemma spec_attr k e f :
  (∀ m, height m ≤ fuel → well_formed s m → spec s [] (node_size m) (f m)) →
  spec s [] (attr_size n k) (ok_or (attr_node n k) e f) ∧ spec s [] (attr_size n k) (if_some (attr_node n k) f).
Proof.
  intros Hf.
  assert (∀ m, attr_node n k = Some m → spec s [] (attr_size n k) (f m)) as H.
  { intros m E. rewrite <- (attr_node_size _ _ _ E). destruct (attr_below _ _ E). by apply Hf. }
  split; [by apply spec_ok_or|by apply spec_if_some].
Qed.

Lemma spec_body e f :
  (∀ m, height m ≤ fuel → well_formed s m → spec s [] (node_size m) (f m)) →
  spec s [] (body_size n) (ok_or (body n) e f) ∧ spec s [] (body_size n) (if_some (body n) f).
Proof.
  intros Hf.
  assert (∀ m, body n = Some m → spec s [] (body_size n) (f m)) as H.
  { intros m E. unfold body_size. rewrite E. destruct (body_below _ E). by apply Hf. }
  split; [by apply spec_ok_or|by apply spec_if_some].
Qed.

Lemma block_ok m : height m ≤ fuel → well_formed s m → spec s [] (node_size m) (visit_block st m).
Proof. intros. apply visit_block_size; [lia|done|lia]. Qed.

Lemma attrs_fit ks cost : bool_decide (NoDup ks) = true → cost ≤ attrs_size n ks + body_size n → S cost ≤ node_size n.
Proof. intros H%bool_decide_eq_true Hc. pose proof (attrs_size_le n ks H). lia. Qed.

Lemma visit_while_spec : spec s [] (node_size n) (visit_while st ex n).
Proof.
  apply (spec_mono s [] [] (attr_size n "condition" + body_size n)); [|done|].
  - apply spec_seq_nil; [by apply spec_attr|]. apply spec_body, visit_block_or_statement_spec.
  - apply Nat.lt_le_incl, (attrs_fit ["condition"]); [done|]. unfold attrs_size. cbn. lia.
Qed.

Lemma visit_for_spec : spec s [] (node_size n) (visit_for st ex n).
Proof.
  apply (spec_mono s [] [] (attr_size n "initializationExpression" + (attr_size n "condition" +
    (attr_size n "loopExpression" + body_size n)))); [|done|].
  - repeat apply spec_seq_nil.
    + by apply (spec_attr _ "" st).
    + by apply (spec_attr _ "" ex).
    + by apply (spec_attr _ "" st).
    + apply spec_body, visit_block_or_statement_spec.
  - apply Nat.lt_le_incl, (attrs_fit ["initializationExpression"; "condition"; "loopExpression"]); [done|].
    unfold attrs_size. cbn. lia.
Qed.

Lemma false_src_spec t f :
  node_type n = IfStatement → attr_node n "trueBody" = Some t → attr_node n "falseBody" = Some f →
  ∃ r, false_src chk n t f = Some r ∧ in_source s r.
Proof.
  intros Ht Et Ef. destruct (well_formed_self _ _ Hw) as [(N1 & N2 & N3) [_ Hif]]. rewrite Ht in Hif.
  specialize (Hif t f Et Ef). destruct (attr_below _ _ Et) as [_ Hwt]. destruct (attr_below _ _ Ef) as [_ Hwf].
  destruct (well_formed_src _ _ Hwf) as (F1 & F2 & F3). unfold false_src, usize_op.
  destruct (src_length (src f)) as [len|]; cbn [default from_option id] in *.
  - assert (0 ≤ len)%Z by done.
    rewrite (proj2 (Z.leb_le 0 (src_start (src f) - src_start (src t)))) by lia.
    rewrite (proj2 (Z.ltb_lt (src_start (src f) - src_start (src t)) (2 ^ 64))) by lia. cbn [andb mbind option_bind].
    rewrite (proj2 (Z.leb_le 0 (src_start (src f) - src_start (src t) + len))) by lia.
    rewrite (proj2 (Z.ltb_lt (src_start (src f) - src_start (src t) + len) (2 ^ 64))) by lia. cbn.
    eexists. split; [done|]. unfold in_source. cbn. lia.
  - eexists. split; [done|]. unfold in_source. cbn. lia.
Qed.

Lemma visit_if_spec : node_type n = IfStatement → spec s [] (node_size n) (visit_if chk st ex n).
Proof.
  intros Ht.
  apply (spec_mono s [] [] (attr_size n "condition" + S (attr_size n "trueBody" + attr_size n "falseBody"))); [|done|].
  2:{ rewrite Nat.add_succ_r. apply (attrs_fit ["condition"; "trueBody"; "falseBody"]); [done|].
      unfold attrs_size. cbn. lia. }
  apply spec_seq_nil; [by apply spec_attr|]. apply spec_ok_or. intros t Et.
  destruct (attr_below _ _ Et) as [Hht Hwt]. rewrite <- (attr_node_size _ _ _ Et).
  apply (spec_next_branch s chk (λ b, [(b, 0%Z)] ++ [(b, 1%Z)])). intros b. split; [by repeat constructor|].
  assert (([(b, 0%Z)] : list (Z * Z)) ## [(b, 1%Z)]) as Hdis
    by (intros k ->%list_elem_of_singleton Hk; by apply list_elem_of_singleton in Hk).
  destruct (attr_node n "falseBody") as [f|] eqn:Ef.
  - destruct (has_statements t || has_statements f); [|apply spec_skip].
    destruct (attr_below _ _ Ef) as [Hhf Hwf]. rewrite <- (attr_node_size _ _ _ Ef).
    apply (spec_seq s [(b, 0%Z)] [(b, 1%Z)] 0 (node_size t + node_size f)); [| |done].
    + apply spec_push_branch; [by apply well_formed_src|done|by left].
    + apply (spec_mono s ([(b, 1%Z)] ++ []) _ (0 + (node_size t + node_size f))); [|by rewrite app_nil_r|lia].
      apply spec_seq; [| |intros ? _ H; by apply elem_of_nil in H].
      * destruct (false_src_spec t f Ht Et Ef) as (r & Er & Hr).
        intros v. rewrite Er. cbn [mbind option_bind]. apply spec_push_branch; [done|by right|by left].
      * apply spec_seq_nil; by apply visit_block_or_statement_spec.
  - destruct (has_statements t); [|apply spec_skip].
    apply (spec_mono s ([(b, 0%Z)] ++ []) _ (0 + node_size t)); [|set_solver|lia].
    apply spec_seq; [| |intros ? _ H; by apply elem_of_nil in H].
    + apply spec_push_branch; [by apply well_formed_src|done|by left].
    + by apply visit_block_or_statement_spec.
Qed.

Lemma visit_yul_if_spec : spec s [] (node_size n) (visit_yul_if chk st ex n).
Proof.
  apply (spec_mono s [] [] (attr_size n "condition" + S (body_size n))); [|done|].
  2:{ rewrite Nat.add_succ_r. apply (attrs_fit ["condition"]); [done|]. unfold attrs_size. cbn. lia. }
  apply spec_seq_nil; [by apply spec_attr|]. apply spec_ok_or. intros m E.
  destruct (body_below _ E) as [Hhm Hwm]. unfold body_size. rewrite E.
  apply (spec_next_branch s chk (λ b, [(b, 0%Z)] ++ [])). intros b. split; [by repeat constructor|].
  apply (spec_seq s [(b, 0%Z)] [] 0 (node_size m)); [| |intros ? _ H; by apply elem_of_nil in H].
  - apply spec_push_branch; [by apply well_formed_src|by left|by left].
  - by apply block_ok.
Qed.

(** The paths of a try: one for each clause. *)
Definition paths (b from : Z) (l : list Node) : list (Z * Z) :=
  (λ p, (b, p)) <$> seqZ from (Z.of_nat (length l)).

Lemma visit_clauses_spec b from l :
  (0 ≤ from)%Z → (from + Z.of_nat (length l) < 2 ^ 32)%Z →
  (∀ c, c ∈ l → height c ≤ fuel ∧ well_formed s c) →
  spec s (paths b from l) (nodes_size l) (visit_clauses chk st b from l).
Proof.
  revert from. induction l as [|c l IH]; intros from Hf Hmax Hl; [apply spec_skip|].
  destruct (Hl c) as [Hhc Hwc]; [by left|]. cbn [length] in Hmax.
  assert (∀ from', (from ≤ from' ≤ from + 1)%Z →
    spec s (paths b from' l) (nodes_size l) (visit_clauses chk st b from' l)) as Hrest.
  { intros from' Hf'. apply IH; [lia|lia|]. intros c' Hc'. apply Hl. by right. }
  assert (∀ from', (from ≤ from' ≤ from + 1)%Z → paths b from' l ⊆ paths b from (c :: l)) as Hsub.
  { intros from' Hf' k (q & -> & Hq%elem_of_seqZ)%list_elem_of_fmap. apply list_elem_of_fmap.
    exists q. split; [done|]. apply elem_of_seqZ. cbn [length]. lia. }
  assert (nodes_size (c :: l) = node_size c + nodes_size l) as Hsz by done.
  assert (spec s (paths b from (c :: l)) (nodes_size (c :: l)) (visit_clauses chk st b from l)) as Hskip
    by (eapply spec_mono; [apply Hrest; lia|apply Hsub; lia|lia]).
  cbn [visit_clauses]. destruct (attr_node c "block") as [cb|] eqn:Ecb; [|done].
  assert (child c cb) as Hcb by (by eapply child_node).
  assert (height cb ≤ fuel ∧ well_formed s cb ∧ node_size cb < node_size c) as (Hhcb & Hwcb & Hscb).
  { split_and!; [apply child_height in Hcb; lia|by eapply well_formed_child|].
    rewrite (attr_node_size _ _ _ Ecb). apply attr_size_lt. }
  destruct (has_statements cb).
  - apply (spec_mono s ([(b, from)] ++ ([] ++ paths b (from + 1) l)) _ (0 + (node_size cb + nodes_size l))); [| |lia].
    + apply spec_seq; [by apply spec_push_branch; [apply well_formed_src|done|left]| |].
      * apply spec_seq; [by apply block_ok| |intros ? H; by apply elem_of_nil in H].
        intros v. rewrite add_u32_small by lia. cbn [mbind option_bind]. apply Hrest. lia.
      * intros k ->%list_elem_of_singleton (q & [= ->] & Hq%elem_of_seqZ)%list_elem_of_fmap. lia.
    + intros k [->%list_elem_of_singleton|Hk]%elem_of_app; [|by apply (Hsub (from + 1)%Z); [lia|]].
      apply list_elem_of_fmap. exists from. split; [done|]. apply elem_of_seqZ. cbn [length]. lia.
  - destruct (bool_decide _); [|done].
    apply (spec_mono s ([] ++ ([] ++ paths b from l)) _ (0 + (node_size c + nodes_size l))); [|apply Hsub; lia|lia].
    apply spec_seq; [by apply spec_push_statement| |intros ? H; by apply elem_of_nil in H].
    apply spec_seq; [by apply Hst|apply Hrest; lia|intros ? H; by apply elem_of_nil in H].
Qed.

Lemma try_src_spec b :
  in_source s (src b) → (src_start (src n) ≤ src_start (src b))%Z →
  ∃ r, try_src chk n b = Some r ∧ in_source s r.
Proof.
  intros (B1 & B2 & B3) Hle. destruct (well_formed_src _ _ Hw) as (N1 & N2 & N3). unfold try_src, usize_op.
  destruct (src_length (src b)) as [len|]; cbn [default from_option id] in *.
  - assert (0 ≤ len)%Z by done.
    rewrite (proj2 (Z.leb_le 0 (src_start (src b) + len))) by lia.
    rewrite (proj2 (Z.ltb_lt (src_start (src b) + len) (2 ^ 64))) by lia. cbn [andb mbind option_bind].
    rewrite (proj2 (Z.leb_le 0 (src_start (src b) + len - src_start (src n)))) by lia.
    rewrite (proj2 (Z.ltb_lt (src_start (src b) + len - src_start (src n)) (2 ^ 64))) by lia. cbn.
    eexists. split; [done|]. unfold in_source. cbn. lia.
  - eexists. split; [done|]. unfold in_source. cbn. lia.
Qed.

Lemma nodes_size_length l : length l ≤ nodes_size l.
Proof.
  induction l as [|c l IH]; [done|]. assert (1 ≤ node_size c) by (destruct c; cbn; lia).
  change (nodes_size (c :: l)) with (node_size c + nodes_size l). cbn [length]. lia.
Qed.

Lemma visit_try_spec :
  node_type n = TryStatement → spec s [] (node_size n) (visit_try chk st ex n).
Proof.
  intros Ht. destruct (well_formed_self _ _ Hw) as (_ & Hsize & Htry). rewrite Ht in Htry.
  apply (spec_mono s [] [] (attr_size n "externalCall" + S (attr_size n "clauses"))); [|done|].
  2:{ rewrite Nat.add_succ_r. apply (attrs_fit ["externalCall"; "clauses"]); [done|]. unfold attrs_size. cbn. lia. }
  apply spec_seq_nil; [by apply spec_attr|].
  apply (spec_next_branch s chk (λ b, [(b, 0%Z)] ++ ([] ++ paths b 1 (default [] (attr_nodes n "clauses"))))).
  intros b. split.
  { constructor; [done|]. apply Forall_fmap, Forall_true. done. }
  apply spec_ok_or. intros l El. specialize (Htry l El). destruct l as [|first l]; [done|].
  pose proof (attr_size_lt n "clauses"). rewrite <- (attr_nodes_size _ _ _ El) in *.
  pose proof (nodes_size_length (first :: l)) as Hlen'.
  change (nodes_size (first :: l)) with (node_size first + nodes_size l) in *. cbn [length] in Hlen'.
  assert (∀ c, c ∈ first :: l → height c ≤ fuel ∧ well_formed s c) as Hl
    by (intros c Hc; apply below; by eapply child_list).
  destruct (Hl first) as [Hhf Hwf]; [by left|].
  rewrite El. cbn [default from_option id].
  apply spec_ok_or. intros tb Etb. specialize (Htry tb Etb).
  assert (child first tb) as Hc by (by eapply child_node).
  assert (height tb ≤ fuel) as Hhtb by (apply child_height in Hc; lia).
  assert (well_formed s tb) as Hwtb by (by eapply well_formed_child).
  pose proof (attr_size_lt first "block") as Hlt. rewrite <- (attr_node_size _ _ _ Etb) in Hlt.
  apply (spec_mono s ([(b, 0%Z)] ++ ([] ++ paths b 1 l)) _ (0 + (node_size tb + nodes_size l))); [| |lia].
  - apply spec_seq.
    + destruct (try_src_spec tb (well_formed_src _ _ Hwtb) Htry) as (r & Er & Hr).
      intros v. rewrite Er. cbn [mbind option_bind]. apply spec_push_branch; [done|done|by left].
    + apply spec_seq; [by apply block_ok| |intros ? H'; by apply elem_of_nil in H'].
      apply visit_clauses_spec; [lia|lia|]. intros c Hcl. apply Hl. by right.
    + intros k ->%list_elem_of_singleton (q & [= <-] & Hq%elem_of_seqZ)%list_elem_of_fmap. lia.
  - intros k [Hk|Hk]%elem_of_app; apply elem_of_app; [by left|right]. cbn [app] in *.
    apply list_elem_of_fmap in Hk as (q & -> & Hq%elem_of_seqZ). apply list_elem_of_fmap. exists q.
    split; [done|]. apply elem_of_seqZ. cbn [length]. lia.
Qed.

Lemma visit_yul_for_spec : spec s [] (node_size n) (visit_yul_for chk st ex n).
Proof.
  apply (spec_mono s [] [] (attr_size n "condition" + (attr_size n "pre" + (attr_size n "post" + body_size n)))); [|done|].
  - repeat apply spec_seq_nil.
    + by apply (spec_attr _ "" ex).
    + apply (spec_attr _ ""), block_ok.
    + apply (spec_attr _ ""), block_ok.
    + apply (spec_body ""). intros m Hhm Hwm. apply (spec_mono s [] [] (0 + node_size m)); [|done|lia].
      apply spec_seq_nil; [by apply spec_push_statement|by apply block_ok].
  - apply Nat.lt_le_incl, (attrs_fit ["condition"; "pre"; "post"]); [done|]. unfold attrs_size. cbn. lia.
Qed.

Lemma spec_push_function name : spec s [] 0 (push_item_kind chk (KFunction name) (src n)).
Proof. apply (spec_push chk s (KFunction name)); [by apply well_formed_src|done..]. Qed.

Lemma visit_modifier_spec : spec s [] (node_size n) (visit_modifier_or_yul_fn_definition chk st n).
Proof.
  apply spec_ok_or. intros name _. apply (spec_mono s [] [] (body_size n)); [|done|].
  - apply (spec_body ""). intros m Hhm Hwm. apply (spec_mono s [] [] (0 + node_size m)); [|done|lia].
    apply spec_seq_nil; [apply spec_push_function|by apply block_ok].
  - apply Nat.lt_le_incl, (attrs_fit []); [done|]. lia.
Qed.

Lemma visit_function_spec : spec s [] (node_size n) (visit_function_definition chk st n).
Proof.
  apply (spec_mono s [] [] (body_size n)); [|done|].
  - apply (spec_body ""). intros m Hhm Hwm. apply spec_ok_or. intros name _. apply spec_ok_or. intros kind _.
    destruct (_ && _); [apply spec_skip|]. apply (spec_mono s [] [] (0 + node_size m)); [|done|lia].
    apply spec_seq_nil; [apply spec_push_function|by apply block_ok].
  - apply Nat.lt_le_incl, (attrs_fit []); [done|]. lia.
Qed.

Lemma visit_yul_switch_spec :
  node_type n = YulSwitch → (∀ c, height c ≤ fuel → node_type c = OtherNode → spec s [] 0 (st c)) →
  spec s [] (node_size n) (visit_yul_switch chk st n).
Proof.
  intros Ht Hother. destruct (well_formed_self _ _ Hw) as (_ & _ & Hsw). rewrite Ht in Hsw.
  apply spec_ok_or. intros l El. specialize (Hsw l El). rewrite Forall_forall in Hsw.
  apply (spec_mono s [] [] (nodes_size l)); [|done|].
  2:{ rewrite (attr_nodes_size _ _ _ El). apply Nat.lt_le_incl, attr_size_lt. }
  apply spec_for_each. intros c Hc. assert (child n c) as Hch by (by eapply child_list).
  destruct (below c Hch) as [Hhc Hwc].
  apply (spec_mono s [] [] (0 + (0 + body_size c))); [|done|].
  2:{ pose proof (attrs_size_le c [] (NoDup_nil_2)). lia. }
  apply spec_seq_nil; [by apply spec_push_statement|].
  apply spec_seq_nil; [by apply Hother; [|apply Hsw]|].
  apply spec_if_some. intros m E. unfold body_size. rewrite E.
  assert (child c m) as Hcm by (by apply child_body).
  assert (height m ≤ fuel) by (apply child_height in Hcm; lia).
  assert (well_formed s m) by (by eapply well_formed_child).
  apply (spec_mono s [] [] (0 + node_size m)); [|done|lia].
  apply spec_seq_nil; [by apply spec_push_statement|by apply block_ok].
Qed.
End statement.

Lemma visit_statement_other fuel c :
  height c ≤ fuel → node_type c = OtherNode → spec s [] 0 (visit_statement chk fuel c).
Proof.
  intros Hh Ht. destruct fuel; [destruct c; cbn in Hh; lia|]. cbn. rewrite Ht. apply spec_skip.
Qed.

Lemma visit_statement_spec fuel n :
  height n ≤ fuel → well_formed s n → spec s [] (node_size n) (visit_statement chk fuel n).
Proof.
  revert n. induction fuel as [|fuel IH]; intros n Hh Hw; [destruct n; cbn in Hh; lia|].
  pose proof (visit_expression_spec fuel) as Hex. pose proof (attr_size_lt n) as Hlt.
  assert (∀ k e, spec s [] (node_size n) (ok_or (attr_node n k) e (visit_expression chk fuel)) ∧
    spec s [] (node_size n) (if_some (attr_node n k) (visit_expression chk fuel))) as Hexpr.
  { intros k e. destruct (spec_attr fuel n Hh Hw k e (visit_expression chk fuel) Hex).
    split; (eapply spec_mono; [done|done|apply Nat.lt_le_incl, Hlt]). }
  cbn [visit_statement]. destruct (node_type n) eqn:Ht; try apply spec_skip; try by apply spec_push_statement.
  - by apply (visit_block_size fuel).
  - by apply (visit_block_size fuel).
  - by apply (visit_block_size fuel).
  - apply spec_ok_or. intros m E. destruct (attr_below fuel n Hh Hw _ _ E).
    apply (visit_block_size fuel); [done|lia|done|]. rewrite (attr_node_size _ _ _ E). apply Nat.lt_le_incl, Hlt.
  - apply (spec_seq_nil s 0 (node_size n)); [by apply spec_push_statement|apply (Hexpr _ "")].
  - apply (spec_seq_nil s 0 (node_size n)); [by apply spec_push_statement|apply (Hexpr _ "")].
  - by apply (visit_while_spec fuel).
  - by apply (visit_while_spec fuel).
  - by apply (visit_for_spec fuel).
  - apply Hexpr.
  - apply Hexpr.
  - by apply (visit_if_spec fuel).
  - by apply (visit_yul_if_spec fuel).
  - by apply (visit_try_spec fuel).
  - apply (visit_yul_switch_spec fuel); try done. intros. by apply visit_statement_other.
  - by apply (visit_yul_for_spec fuel).
  - by apply (visit_modifier_spec fuel).
Qed.

Lemma visit_contract_spec n : well_formed s n → spec s [] (node_size n) (visit_contract chk n).
Proof.
  intros Hw. apply (spec_mono s [] [] (nodes_size (nodes n))); [|done|].
  2:{ destruct n as [nt sr nds bd ot]. unfold nodes_size. cbn [nodes node_size]. lia. }
  apply spec_for_each. intros c Hc. assert (child n c) as Hch by (by apply child_nodes).
  pose proof (child_height _ _ Hch). assert (well_formed s c) by (by eapply well_formed_child).
  pose proof (visit_statement_spec (height n)) as Hst.
  destruct (node_type c); try apply spec_skip.
  - apply (visit_function_spec (height n)); [done|lia|done].
  - apply (visit_modifier_spec (height n)); [done|lia|done].
Qed.
End visiting.

(** ** The results *)

Definition ascii_source (s : Bytes) : Prop :=
  Forall (λ b, 0 ≤ b < 128)%Z s ∧ (Z.of_nat (length s) < 2 ^ 32)%Z.

(** What holds of the items of a contract. *)
Definition items_of_contract (id : Z) (s : Bytes) (name : string) (items : list CoverageItem.t) : Prop :=
  Forall (fresh_item id s name) items ∧ NoDup (omap branch_key items) ∧
  StronglySorted Z.lt (omap line_start items).

Lemma visit_contract_items chk id s name n :
  (0 ≤ id < 2 ^ 32)%Z → ascii_source s → well_formed s n →
  ∃ v0 r, ContractVisitor.new id s name = Some v0 ∧ ContractVisitor.visit_contract chk n v0 = Some r ∧
    ∀ v, r = Ok v → items_of_contract id s name (ContractVisitor.items v).
Proof.
  intros Hid [Hs Hl] Hw. unfold ContractVisitor.new. rewrite (proj2 (Z.ltb_lt _ _)) by lia.
  set (v0 := ContractVisitor.mk id s name 0 0 []).
  destruct (visit_contract_spec chk s Hl n Hw v0) as (r & E & Hx).
  - by split_and!.
  - done.
  - destruct (well_formed_self _ _ Hw) as (_ & ? & _). cbn. lia.
  - constructor.
  - exists v0, r. split_and!; [done..|]. intros v Hv.
    destruct (Hx v Hv) as [_ _ _ _ (new & Ei & F & D & _ & L & _)]. cbn in Ei. by rewrite Ei.
Qed.

Lemma contract_items_spec chk id s n :
  (0 ≤ id < 2 ^ 32)%Z → ascii_source s → well_formed s n →
  ∃ r, contract_items chk id s n = Some r ∧
    ∀ items, r = Ok items → ∃ name, items_of_contract id s name items ∧
      (items ≠ [] → attr_string n "name" = Some name ∧ ¬ ∃ i, i ∈ items ∧ is_test_item i = true).
Proof.
  intros Hid Hs Hw. unfold contract_items.
  assert (items_of_contract id s "" []) as Hnil by (split_and!; constructor).
  destruct (bool_decide _); cbn [negb]; [|eexists; split; [done|]; intros items [= <-]; by eexists].
  destruct (attr_string n "contractKind") as [kind|]; [|by eexists].
  destruct (String.eqb kind "interface"); [eexists; split; [done|]; intros items [= <-]; by eexists|].
  destruct (attr_string n "name") as [name|]; [|by eexists].
  destruct (visit_contract_items chk id s name n Hid Hs Hw) as (v0 & r & -> & E & Hi).
  cbn [mbind option_bind]. rewrite E. cbn [mbind option_bind]. eexists. split; [done|].
  intros items Hitems. destruct r as [v|]; [|done]. injection Hitems as <-.
  destruct (existsb is_test_item (ContractVisitor.items v)) eqn:Ex; [by eexists|].
  exists name. split; [by apply Hi|]. intros _. split; [done|]. intros (i & Hin & Ht).
  rewrite <- not_true_iff_false in Ex. apply Ex, existsb_exists. exists i. by rewrite <- list_elem_of_In.
Qed.

Lemma fresh_item_ok id s name item :
  (Z.of_nat (length s) < 2 ^ 32)%Z → fresh_item id s name item → item_ok item.
Proof.
  intros Hs [_ _ _ [H1 H2] Hp]. split; [|done]. unfold location_fits, SourceLocation.len. lia.
Qed.

(** What [collect_items] relates. *)
Definition found_in (x : Z * Bytes * Node) (y : Z * list CoverageItem.t) : Prop :=
  fst y = fst (fst x) ∧ ∃ name, items_of_contract (fst y) (snd (fst x)) name (snd y) ∧
    (snd y ≠ [] → ¬ ∃ i, i ∈ snd y ∧ is_test_item i = true).

Definition node_ok (x : Z * Bytes * Node) : Prop :=
  (0 ≤ fst (fst x) < 2 ^ 32)%Z ∧ ascii_source (snd (fst x)) ∧ well_formed (snd (fst x)) (snd x).

Lemma collect_items_spec chk todo :
  Forall node_ok todo →
  ∃ r, collect_items chk todo = Some r ∧ ∀ sourced, r = Ok sourced → Forall2 found_in todo sourced.
Proof.
  induction 1 as [|[[id s] n] todo (Hid & Hs & Hw) _ IH]; cbn in *.
  { eexists. split; [done|]. intros sourced [= <-]. constructor. }
  destruct (contract_items_spec chk id s n Hid Hs Hw) as (r & -> & Hr). cbn.
  destruct IH as (rest & -> & Hrest). cbn. eexists. split; [done|].
  intros sourced Hsrc. destruct r as [items|], rest as [rest|]; try done. injection Hsrc as <-.
  constructor; [|by apply Hrest]. split; [done|]. destruct (Hr items eq_refl) as (name & Hi & Ht).
  exists name. split; [done|]. intros Hne. by apply Ht.
Qed.

Definition source_ok (x : Z * SourceFile) : Prop :=
  (0 ≤ fst x < 2 ^ 32)%Z ∧ ascii_source (file_source (snd x)) ∧
  Forall (well_formed (file_source (snd x))) (file_nodes (snd x)).

Lemma source_nodes_ok sources :
  Forall source_ok sources → Forall node_ok (source_nodes sources).
Proof.
  intros H. apply Forall_forall. intros x Hx. apply list_elem_of_bind in Hx as ([id f] & Hx & Hin).
  apply list_elem_of_fmap in Hx as (node & -> & Hn). rewrite Forall_forall in H.
  destruct (H _ Hin) as (Hid & Hs & Hw). rewrite Forall_forall in Hw. unfold node_ok. cbn in *. auto.
Qed.

Lemma sourced_nonneg todo sourced :
  Forall node_ok todo → Forall2 found_in todo sourced → Forall (λ x, 0 ≤ fst x)%Z sourced.
Proof.
  intros Hok Hf. eapply Forall2_Forall_r; [exact Hf|]. eapply Forall_impl; [exact Hok|].
  intros x [Hx _] y [-> _]. lia.
Qed.

Lemma sourced_items_ok todo sourced :
  Forall node_ok todo → Forall2 found_in todo sourced →
  Forall (λ i, item_ok i ∧ CoverageItem.hits i = 0%Z) (concat sourced.*2).
Proof.
  intros Hok Hf. apply Forall_concat, Forall_fmap. eapply Forall2_Forall_r; [exact Hf|].
  eapply Forall_impl; [exact Hok|]. intros x (_ & [_ Hl] & _) y (_ & name & (Hi & _) & _). cbn.
  eapply Forall_impl; [exact Hi|]. intros i Hf'. split; [by eapply fresh_item_ok|apply Hf'].
Qed.

(** For ASCII sources with well-formed ASTs the analysis does not panic, and what it finds in a
    contract that is not skipped is sound: every item lies in its source and starts without hits;
    a branch is identified by its ids, no two items having the same pair; the search for the
    destination of a jump is only asked for the paths 0 and 1; line items come in strictly
    ascending order, so that no line is counted twice; contracts with tests contribute nothing.
    The analysis then holds exactly these items. *)
Theorem analysis_items (chk : bool) (sources : list (Z * SourceFile)) :
  Forall source_ok sources →
  ∃ r, collect_items chk (source_nodes sources) = Some r ∧
    match r with
    | Err e => analyze chk sources = Some (Err e)
    | Ok sourced =>
        Forall2 found_in (source_nodes sources) sourced ∧
        ((Z.of_nat (length (concat sourced.*2)) < SourceAnalysis.u32_max)%Z →
         ∃ a, analyze chk sources = Some (Ok a) ∧ SourceAnalysis.all_items a ≡ₚ concat sourced.*2)
    end.
Proof.
  intros Hok. apply source_nodes_ok in Hok. destruct (collect_items_spec chk _ Hok) as (r & E & Hr).
  exists r. split; [done|]. unfold analyze. rewrite E. cbn [mbind option_bind].
  destruct r as [sourced|e]; [|done]. specialize (Hr sourced eq_refl). split; [done|]. intros Hlen.
  destruct (new_spec chk sourced (sourced_nonneg _ _ Hok Hr) Hlen) as (p & a & Hp & _ & -> & Hall & _).
  exists a. split; [done|]. by rewrite Hall, Hp.
Qed.


(** ** Examples *)

(** A node is well formed if it is regular and everything in it is well formed. *)
Lemma well_formed_intro s n :
  regular s n → Forall (well_formed s) (nodes n) → (∀ b, body n = Some b → well_formed s b) →
  Forall (λ kv, match snd kv with
                | VNode m => well_formed s m
                | VNodes l => Forall (well_formed s) l
                | _ => True
                end) (other n) → well_formed s n.
Proof.
  intros Hr Hn Hb Ho m Hm. inversion Hm as [|? c ? Hc Hcm]; subst; [done|].
  enough (well_formed s c) as Hw by (by apply Hw). clear Hm Hcm.
  assert (∀ k v, lookup_attr k (other n) = Some v → ∃ k', (k', v) ∈ other n) as Hl.
  { intros k v. induction (other n) as [|[k' v'] l IH]; cbn; [done|]. apply Forall_cons in Ho as [_ Ho].
    destruct (String.eqb k' k).
    - intros [= ->]. exists k'. by left.
    - intros [k'' Hk]%IH; [|done]. exists k''. by right. }
  rewrite Forall_forall in Ho. destruct Hc as [Hc|Hc|k Hc|k l Hc Hin].
  - rewrite Forall_forall in Hn. by apply Hn.
  - by apply Hb.
  - unfold attr_node in Hc. destruct (lookup_attr k (other n)) as [[]|] eqn:E; try done.
    injection Hc as ->. destruct (Hl _ _ E) as [k' Hk]. apply (Ho _ Hk).
  - unfold attr_nodes in Hc. destruct (lookup_attr k (other n)) as [[]|] eqn:E; try done.
    injection Hc as ->. destruct (Hl _ _ E) as [k' Hk]. specialize (Ho _ Hk). cbn in Ho.
    rewrite Forall_forall in Ho. by apply Ho.
Qed.

Definition leaf (t : NodeType) (start len : Z) (other : list (string * Value)) : Node :=
  mk_node t (mk_src start (Some len) (Some 0%Z)) [] None other.

(** [contract C { function f() { if (a == b) { require(c); } else { emit E(); } } }] *)
Definition sample_if : Node :=
  leaf IfStatement 10 40
    [("condition", VNode (leaf BinaryOperation 12 6 []));
     ("trueBody", VNode (leaf Block 20 12 [("statements", VNodes [leaf ExpressionStatement 22 8
        [("expression", VNode (leaf FunctionCall 22 7
          [("kind", VString "functionCall");
           ("expression", VNode (leaf Identifier 22 3 [("name", VString "require")]))]))]])]));
     ("falseBody", VNode (leaf Block 36 12 [("statements", VNodes [leaf EmitStatement 38 8 []])]))].

Definition sample_contract : Node :=
  mk_node ContractDefinition (mk_src 0 (Some 60%Z) (Some 0%Z))
    [mk_node FunctionDefinition (mk_src 5 (Some 50%Z) (Some 0%Z)) []
       (Some (leaf Block 8 45 [("statements", VNodes [sample_if])]))
       [("name", VString "f"); ("kind", VString "function")]]
    None [("contractKind", VString "contract"); ("name", VString "C")].

Definition sample_source : Bytes := replicate 9 32%Z ++ [10%Z] ++ replicate 50 32%Z.

Definition sample_sources : list (Z * SourceFile) := [(0%Z, mk_source_file sample_source [sample_contract])].

Lemma sample_sources_ok : Forall source_ok sample_sources.
Proof.
  apply Forall_singleton. split; [by split|]. split.
  { split; [apply (bool_decide_unpack _)|]; by vm_compute. }
  apply Forall_singleton.
  repeat first
    [ apply well_formed_intro
    | apply Forall_nil_2 | apply Forall_cons; split | exact I
    | intros b [= <-]
    | split; [split_and!; cbn; lia|split; [by vm_compute|]] ]; try done.
  intros t f [= <-] [= <-]. cbn. lia.
Qed.

Lemma analysis_items_witness :
  ∃ sourced a, collect_items true (source_nodes sample_sources) = Some (Ok sourced) ∧
    analyze true sample_sources = Some (Ok a) ∧ SourceAnalysis.all_items a ≡ₚ concat sourced.*2 ∧
    omap branch_key (SourceAnalysis.all_items a) = [(0, 0); (0, 1); (1, 0); (1, 1)]%Z.
Proof.
  destruct (analysis_items true sample_sources sample_sources_ok) as (r & E & Hr).
  pose proof E as E'. vm_compute in E'. injection E' as <-. destruct Hr as [_ Hr].
  destruct Hr as (a & Ea & Hp); [by vm_compute|]. eexists _, a. split_and!; [exact E|done|exact Hp|].
  vm_compute in Ea. injection Ea as <-. by vm_compute.
Defined.

(** The code of [AnchorsTheorems], with a source map for the contract above: its jump is in the range
    of the if. *)
Definition sample_elements : list (Z * Z * Z) := [(0, 5, 50); (0, 10, 40); (0, 22, 7); (0, 38, 8)]%Z.


(** The range of the false branch begins at the if but has its length counted from the true body,
    so it ends before the false body does; with a character of several bytes there, slicing the
    source panics. *)
Lemma false_branch_splits_char :
  let s := replicate 8 32%Z ++ [195; 169]%Z ++ replicate 2 32%Z in
  let n := leaf IfStatement 0 12 [("condition", VNode (leaf Identifier 0 1 []));
    ("trueBody", VNode (leaf EmitStatement 3 2 [])); ("falseBody", VNode (leaf EmitStatement 6 6 []))] in
  visit_statement true (height n) n (ContractVisitor.mk 0 s "C" 0 0 []) = None.
Proof. by vm_compute. Qed.

(** Lines are numbered from 1, but the first column of a line counts as the line before it. *)
Lemma line_start_off_by_one :
  let s := [97; 10; 98; 99]%Z in
  let v := ContractVisitor.mk 0 s "C" 0 0 [] in
  (SourceLocation.lines_start <$> source_location_for true v (mk_src 2 (Some 1%Z) None),
   SourceLocation.lines_start <$> source_location_for true v (mk_src 3 (Some 1%Z) None)) = (Some 1, Some 2)%Z.
Proof. by vm_compute. Qed.

(** The condition of a Yul loop is visited before the block in front of it, so the line of that
    block gets no line item. *)
Lemma yul_for_skips_line :
  let s := replicate 4 32%Z ++ [10%Z] ++ replicate 4 32%Z ++ [10%Z] ++ replicate 4 32%Z in
  let n := leaf YulForLoop 1 12 [("pre", VNode (leaf YulBlock 6 2 [("statements", VNodes [leaf YulAssignment 6 1 []])]));
    ("condition", VNode (leaf YulFunctionCall 11 1 []))] in
  match visit_statement true (height n) n (ContractVisitor.mk 0 s "C" 0 0 []) with
  | Some (Ok v) => omap line_start (ContractVisitor.items v) = [3]%Z ∧
      (λ i, SourceLocation.lines_start (CoverageItem.loc i)) <$> ContractVisitor.items v = [3; 3; 2]%Z
  | _ => False
  end.
Proof. by vm_compute. Qed.
