(* ===== verification/InspectorReverts.v ===== *)
(** Expected reverts over whole executions: what [vm.expectRevert] makes of the
    next call, whatever that call does. *)
From stdpp Require Import strings gmap.
From S2P Require Import Prelude Radix Database MultiFork ForkBackend ForkTransact Pranks Frames ExpectEmit ExpectRevert ExpectCall Mocks StateDiffs Mapping Cheats Inspector InspectorStep InspectorRun.

(** ** Which reverts are accepted *)

Section accepts.
Context `{Alloy}.

(** A revert by [by_] is the one that is expected: the address that reverted, if
    it is known, is the one asked for, and the data is the one asked for, or has
    its selector if only that matters. *)
Definition accepts (e : ExpectedRevert.t) (status : InstructionResult) (retdata : Bytes) (by_ : option Z) : Prop :=
  return_ok status = false ∧
  (∀ a b, ExpectedRevert.reverter e = Some a → by_ = Some b → a = b) ∧
  match ExpectedRevert.reason e with
  | None => True
  | Some r =>
      (r ≠ [] → retdata ≠ []) ∧
      ((ExpectedRevert.partial_match e = true ∧ get_prefix 4 retdata = get_prefix 4 r) ∨ decode_revert retdata = r)
  end.

#[export] Instance accepts_dec e status retdata by_ : Decision (accepts e status retdata by_).
Proof.
  unfold accepts. apply and_dec; [apply _|]. apply and_dec.
  - destruct (ExpectedRevert.reverter e) as [a|]; [|by left]. destruct by_ as [b|]; [|by left].
    destruct (decide (a = b)) as [->|Hne]; [left; congruence|]. right. intros Hab. by apply Hne, Hab.
  - destruct (ExpectedRevert.reason e); apply _.
Defined.

Context {Contracts : Type} (decoder_decode : Contracts → Bytes → InstructionResult → Str).

Lemma reverter_mismatch_None a b :
  reverter_mismatch a b = None ↔ ∀ x y, a = Some x → b = Some y → x = y.
Proof.
  unfold reverter_mismatch. destruct a as [x|], b as [y|]; try (split; congruence).
  destruct (Z.eqb_spec x y) as [->|Hne]; cbn; (split; [congruence|]); [done|].
  intros Hxy. by destruct Hne; apply Hxy.
Qed.

Lemma handle_revert_accepts e status retdata known by_ :
  return_ok status = false →
  handle_revert decoder_decode false e status retdata known by_ = Ok tt ↔ accepts e status retdata by_.
Proof.
  intros Hs. unfold handle_revert, accepts. cbn.
  destruct (reverter_mismatch _ _) eqn:Hm.
  { split; [done|]. intros (_ & Hr & _). apply reverter_mismatch_None in Hr. congruence. }
  rewrite reverter_mismatch_None in Hm. destruct (ExpectedRevert.reason e) as [r|]; [|by split_and!].
  destruct (decide (r ≠ [] ∧ retdata = [])) as [[Hr ->]|Hne].
  { rewrite bool_decide_eq_true_2, bool_decide_eq_true_2 by done. split; [done|]. intros (_ & _ & Hx & _). by destruct (Hx Hr). }
  replace (bool_decide (r ≠ []) && bool_decide (retdata = [])) with false; last first.
  { symmetry. apply not_true_iff_false. rewrite andb_true_iff, !bool_decide_eq_true. done. }
  assert (r ≠ [] → retdata ≠ []) as Hd by tauto.
  destruct (ExpectedRevert.partial_match e); cbn.
  - destruct (decide (get_prefix 4 retdata = get_prefix 4 r)) as [Hp|Hp].
    { rewrite bool_decide_eq_true_2 by done. split; [|done]. intros _. split_and!; auto. }
    rewrite bool_decide_eq_false_2, orb_false_r by done. case_bool_decide as Hr; [split; [|done]; intros _; split_and!; auto|].
    destruct (show_reverts _ _ _ _ _). split; [done|]. intros (_ & _ & _ & [[_ ?]|?]); done.
  - rewrite orb_false_r. case_bool_decide as Hr; [split; [|done]; intros _; split_and!; auto|].
    destruct (show_reverts _ _ _ _ _). split; [done|]. intros (_ & _ & _ & [[? _]|?]); done.
Qed.

(** The answer to the next call. *)
Lemma handle_expect_revert_next internal e status retdata known :
  ExpectedRevert.count e ≠ 0%Z → (internal = true ∨ ExpectedRevert.depth e < ExpectedRevert.max_depth e)%Z →
  if decide (accepts e status retdata (ExpectedRevert.reverted_by e))
  then handle_expect_revert decoder_decode false false internal e status retdata known = Ok (None, DUMMY_CALL_OUTPUT)
  else ∃ err, handle_expect_revert decoder_decode false false internal e status retdata known = Err err.
Proof.
  intros Hc Hd. unfold handle_expect_revert.
  replace (negb false && negb internal && negb _) with false; last first.
  { symmetry. destruct internal; [done|]. destruct Hd as [|Hd]; [done|]. apply Z.ltb_lt in Hd. by rewrite Hd. }
  rewrite (proj2 (Z.eqb_neq _ _) Hc). case_decide as Ha.
  - rewrite (proj1 Ha). pose proof (proj2 (handle_revert_accepts _ _ _ known _ (proj1 Ha)) Ha) as ->. done.
  - destruct (return_ok status) eqn:Hs; [by eexists|]. destruct (handle_revert _ _ _ _ _ _ _) as [[]|err] eqn:E; [|by eexists].
    by apply handle_revert_accepts in E.
Qed.
End accepts.

(** ** Executions *)

(** The calls of a trace that end in a revert, in the order in which they end. *)
Definition reverters (t : trace) : list Z :=
  omap (λ x, match x.2 with
             | EvExit call raw _ =>
                 if InterpreterResult.is_revert (CallOutcome.result raw) then Some (Call.target_address call) else None
             | _ => None
             end) t.

(** The address that is held responsible: the innermost one that reverted, or the
    outermost one if several reverts are expected. *)
Definition blamed (e : ExpectedRevert.t) (l : list Z) : option Z :=
  match ExpectedRevert.reverter e with
  | None => ExpectedRevert.reverted_by e
  | Some _ =>
      if decide (1 < ExpectedRevert.count e)%Z then last l ∪ ExpectedRevert.reverted_by e
      else ExpectedRevert.reverted_by e ∪ head l
  end.

(** What is left of an expectation after a revert that it accepted. *)
Definition counted_down (by_ : option Z) (e : ExpectedRevert.t) : option ExpectedRevert.t :=
  if decide (ExpectedRevert.actual_count e + 1 < ExpectedRevert.count e)%Z
  then Some (ExpectedRevert.set_reverted_by by_ (ExpectedRevert.set_actual_count (ExpectedRevert.actual_count e + 1) e))
  else None.

(** The expectation after the calls that end in a trace. *)
Definition after_exits (t : trace) (e : ExpectedRevert.t) : ExpectedRevert.t :=
  foldl (λ e x, match x.2 with EvExit call raw _ => record_reverter (Call.target_address call) raw e | _ => e end) e t.

Lemma record_reverter_depth a o m e :
  record_reverter a o (ExpectedRevert.set_max_depth m e) = ExpectedRevert.set_max_depth m (record_reverter a o e).
Proof. unfold record_reverter. destruct e. cbn. by case_match. Qed.

Lemma after_exits_depth t m e :
  after_exits t (ExpectedRevert.set_max_depth m e) = ExpectedRevert.set_max_depth m (after_exits t e).
Proof.
  revert e. induction t as [|[d []] t IH]; intros e; [done|..]; try apply IH.
  unfold after_exits. cbn. rewrite record_reverter_depth. apply IH.
Qed.

Lemma record_reverter_fields a o e :
  ∃ r, record_reverter a o e = ExpectedRevert.set_reverted_by r e.
Proof. unfold record_reverter. case_match; [by eexists|]. exists (ExpectedRevert.reverted_by e). by destruct e. Qed.

Lemma after_exits_fields t e : ∃ r, after_exits t e = ExpectedRevert.set_reverted_by r e.
Proof.
  revert e. induction t as [|[d ev] t IH]; intros e; [exists (ExpectedRevert.reverted_by e); by destruct e|].
  destruct ev; try apply IH. unfold after_exits. cbn. destruct (record_reverter_fields (Call.target_address call) raw e) as [r ->].
  destruct (IH (ExpectedRevert.set_reverted_by r e)) as [r' Hr']. exists r'. exact Hr'.
Qed.

Lemma record_reverter_blamed a o e l :
  ExpectedRevert.set_reverted_by (blamed (record_reverter a o e) l) (record_reverter a o e) =
  ExpectedRevert.set_reverted_by
    (blamed e (if InterpreterResult.is_revert (CallOutcome.result o) then a :: l else l)) e.
Proof.
  unfold record_reverter. destruct (InterpreterResult.is_revert _); [|done]. unfold blamed.
  destruct e as [? ? ? ? [r|] by_ ? n ?]; cbn -[last head]; [|done].
  destruct (Z.ltb_spec 1 n); destruct by_; cbn -[last head]; repeat case_decide; try lia;
    rewrite ?last_cons; by destruct (last l), (head l).
Qed.

Lemma after_exits_blamed t e :
  after_exits t e = ExpectedRevert.set_reverted_by (blamed e (reverters t)) e.
Proof.
  revert e. induction t as [|[d ev] t IH]; intros e.
  - unfold blamed. destruct e as [? ? ? ? [r|] [b|] ? n ?]; cbn; by try case_decide.
  - destruct ev; try apply IH. unfold after_exits. cbn [foldl snd]. fold (after_exits t (record_reverter (Call.target_address call) raw e)).
    rewrite IH, record_reverter_blamed. cbn. by destruct (InterpreterResult.is_revert _).
Qed.

Lemma next_expected_after by_ e :
  next_expected (ExpectedRevert.set_reverted_by by_ e) = counted_down by_ e.
Proof. unfold next_expected, counted_down. cbn. destruct (Z.ltb_spec (ExpectedRevert.actual_count e + 1) (ExpectedRevert.count e)); case_decide; try lia; done. Qed.

Section reverts.
Context {ET : EvmTypes} {FT : ForkTypes} {CT : CheatTypes} {D : Type} {EO : EvmOps D} {CO : CheatOps D}.
Context {IO : IterOrder} {AL : Alloy} (config : CheatsConfig).
Context (decoder_decode : Contracts → Bytes → InstructionResult → Str).
Context (STOP_SELECTOR : Bytes) (keccak256 : Bytes → Z).
Implicit Types (s : St (D := D)).

(** No [vm.assumeNoRevert]. *)
Definition no_assume (c : VmCall Other) : Prop :=
  match c with VmAssume (AssumeNoRevert_0 | AssumeNoRevert_1 _ | AssumeNoRevert_2 _) => False | _ => True end.

Abbreviation expected s := (Cheatcodes.expected_revert (cheats s)).
Abbreviation assumed s := (Cheatcodes.assume_no_revert (cheats s)).
Abbreviation keep_reverts := (keeps (D := D) (λ c, (Cheatcodes.expected_revert c, Cheatcodes.assume_no_revert c))).

(** Below the depth [d] of an expectation it stays, and remembers who reverted
    and how deep the execution went. *)
Definition stays_expected (d : Z) (s : St (D := D)) (t : trace) (s' : St (D := D)) : Prop :=
  ∀ e, expected s = Some e → ExpectedRevert.depth e = d → assumed s = None →
    assumed s' = None ∧
    ∃ m, (ExpectedRevert.max_depth e ≤ m)%Z ∧ expected s' = Some (ExpectedRevert.set_max_depth m (after_exits t e)).

Lemma stays_silent d s t s' :
  (∀ e, after_exits t e = e) → keep_reverts s s' → stays_expected d s t s'.
Proof.
  intros Ht [= H1 H2] e He _ Ha. rewrite H1, H2, He, Ht. split; [done|]. exists (ExpectedRevert.max_depth e).
  split; [lia|]. by destruct e.
Qed.

Section below.
Context (d : Z).

Abbreviation silent := (λ s s', stays_expected d s [] s').

#[local] Instance silent_refl : Reflexive silent.
Proof. intros s. by apply stays_silent. Qed.

Lemma stays_app s1 s2 s3 t1 t2 : stays_expected d s1 t1 s2 → stays_expected d s2 t2 s3 → stays_expected d s1 (t1 ++ t2) s3.
Proof.
  intros H1 H2 e He Hd Ha. destruct (H1 e He Hd Ha) as (Ha2 & m & Hm & He2).
  destruct (after_exits_fields t1 e) as [r Hr].
  destruct (H2 _ He2) as (Ha3 & m' & Hm' & He3); [by rewrite Hr|done|]. split; [done|]. exists m'.
  split; [cbn in Hm'; lia|]. rewrite He3, after_exits_depth. unfold after_exits. by rewrite foldl_app.
Qed.

Lemma stays_then s1 s2 s3 t : stays_expected d s1 t s2 → stays_expected d s2 [] s3 → stays_expected d s1 t s3.
Proof. intros H1 H2. rewrite <-(app_nil_r t). by eapply stays_app. Qed.

#[local] Instance silent_trans : Transitive silent.
Proof. intros s1 s2 s3 H1 H2. exact (stays_app _ _ _ [] [] H1 H2). Qed.

Lemma stays_keep {A} (m : H (D := D) A) : steps keep_reverts m → steps silent m.
Proof. apply steps_mono. intros s s'. by apply stays_silent. Qed.

Lemma stays_use {A} (m : H (D := D) A) s s' a : m s = Some (s', a) → steps keep_reverts m → stays_expected d s [] s'.
Proof. intros Hs Hm. apply stays_silent; [done|]. by eapply Hm. Qed.

(** Cheatcodes below an expectation cannot replace it. *)
Lemma stays_cheat caller c : no_assume c → steps silent (apply_cheat config caller c).
Proof.
  destruct c as [| | | |c|[]| | | | | | | |]; try done; intros _; try (apply stays_keep; keep; fail).
  - intros s s' r. unfold apply_cheat, hbind, hdepth, hget, hpart. intros Hs e He Hd Ha. rewrite He in Hs.
    assert (∀ d c, apply_revert_cheat d c (Some e) =
      (Some e, Err (ErrStr (str "you must call another function prior to expecting a second revert")))) as Hc by (by intros ? []).
    rewrite Hc in Hs. injection Hs as <- _. cbn. split; [done|]. exists (ExpectedRevert.max_depth e). split; [lia|]. by destruct e.
  - intros s s' r. unfold apply_cheat, hbind, hdepth, hget, hpart. intros Hs. apply stays_silent; [done|].
    revert Hs. by destruct condition; intros [= <- _].
Qed.

Lemma stays_call call : cheat_ok no_assume call → steps silent (stack_call config call).
Proof.
  intros Hok. apply (steps_stack_call config). intros b. unfold call_with_executor.
  apply steps_bind; [apply stays_keep; keep|]. intros [o|]; [apply steps_ret|].
  destruct (_ =? CHEATCODE_ADDRESS)%Z eqn:Ht; [|apply stays_keep; keep].
  apply steps_bind; [|intros ?; apply steps_ret].
  apply (steps_cheatcode config no_assume); [apply stays_cheat|by apply Z.eqb_eq|done].
Qed.

Lemma stays_init g : steps silent (initialize_interp g).
Proof.
  unfold initialize_interp. do 5 (apply steps_bind; [apply stays_keep; keep|intros ?]).
  apply steps_bind; [apply steps_depth|]. intros dd s s' u [= <- _] e He Hd Ha. cbn. rewrite He. cbn.
  split; [done|]. eexists. split; [|done]. lia.
Qed.

(** The reverts at the end of a call that is not at the depth of the
    expectation. *)
Lemma stays_call_end call o s s' o' :
  (d < depth_of s)%Z → stack_call_end config decoder_decode call o s = Some (s', o') →
  stays_expected d s [(depth_of s, EvExit call o o')] s'.
Proof.
  intros Hd (s1 & new & H1 & (s2 & [] & H2 & [= <- _])%hbind_Some)%hbind_Some.
  eapply (stays_then _ s1); [|by eapply stays_use; [exact H2|keep]].
  revert H1. unfold call_end. intros (s3 & [] & H3 & (s4 & r & H4 & H1)%hbind_Some)%hbind_Some.
  assert (depth_of s3 = depth_of s) as Hd3.
  { destruct (is_cheatcode_call call); [by injection H3 as <-|]. exact (steps_use _ _ _ _ H3 depth_clean). }
  eapply (stays_app s s3 _ []); [by eapply stays_use; [exact H3|keep]|].
  eapply (stays_then s3 s4); [|by eapply stays_use; [exact H1|keep]].
  rewrite <-Hd3. rewrite <-Hd3 in Hd. clear - Hd H4. intros e He Hde Ha.
  revert H4. unfold call_end_reverts, hbind, hpart, hdepth, hget, call_end_assume, call_end_revert.
  rewrite Ha. cbn. rewrite He. destruct (record_reverter_fields (Call.target_address call) o e) as [by_ Hby].
  rewrite (proj2 (Z.leb_gt _ _)) by (rewrite Hby; cbn; unfold depth_of in Hd; lia).
  intros [= <- _]. cbn. split; [done|]. exists (ExpectedRevert.max_depth e). split; [lia|]. rewrite Hby. by destruct e.
Qed.

Lemma stays_create_end input o s s' o' :
  (d < depth_of s)%Z → stack_create_end config decoder_decode input o s = Some (s', o') →
  stays_expected d s [(depth_of s, EvCreated input o o')] s'.
Proof.
  intros Hd (s1 & new & H1 & (s2 & [] & H2 & [= <- _])%hbind_Some)%hbind_Some.
  eapply (stays_then _ s1); [|by eapply stays_use; [exact H2|keep]].
  revert H1. unfold create_end_common.
  intros (s3 & d3 & [= <- <-] & (s4 & [] & H4 & (s5 & [] & H5 & (s6 & r & H6 & H1)%hbind_Some)%hbind_Some)%hbind_Some)%hbind_Some.
  eapply (stays_app s s5 _ []).
  { eapply (silent_trans s s4); (eapply stays_use; [eassumption|keep]). }
  eapply (stays_then s5 s6); [|by eapply stays_use; [exact H1|keep]].
  clear - Hd H6. intros e He Hde Ha. revert H6. unfold hpart, create_end_revert. rewrite He, (proj2 (Z.leb_gt _ _)) by (unfold depth_of in Hd; lia).
  intros [= <- _]. cbn. split; [done|]. exists (ExpectedRevert.max_depth e). split; [lia|]. by destruct e.
Qed.

Lemma stays_hooks : Hooks config decoder_decode STOP_SELECTOR keccak256 (stays_expected d) (cheat_ok no_assume) (d + 1).
Proof.
  split.
  - intros s. by apply stays_silent.
  - apply stays_app.
  - intros g. apply stays_keep. keep.
  - intros d' l s s' b _ Hs. apply stays_silent; [done|]. eapply steps_use; [exact Hs|keep].
  - intros i. apply stays_keep. keep.
  - intros r i. apply stays_keep. keep.
  - intros g s s' _ Hs. by eapply stays_init.
  - intros call s s' x _ Hok Hs. exact (stays_call call Hok _ _ _ Hs).
  - intros call o s s' x Hd Hs. by eapply stays_call_end; [lia|].
  - intros input s s' x _ Hs. eapply stays_silent; [done|]. eapply steps_use; [exact Hs|keep].
  - intros input o s s' x Hd Hs. by eapply stays_create_end; [lia|].
Qed.

(** ** The call that is expected to revert *)

(** The end of the call. *)
Lemma call_end_expected call o s s' o' e :
  depth_of s = d → is_cheatcode_call call = false → assumed s = None →
  expected s = Some e → ExpectedRevert.depth e = d → ExpectedRevert.kind e = DefaultKind →
  ExpectedRevert.count e ≠ 0%Z → (d < ExpectedRevert.max_depth e)%Z →
  stack_call_end config decoder_decode call o s = Some (s', o') →
  let e' := record_reverter (Call.target_address call) o e in
  if decide (accepts e (CallOutcome.status o) (CallOutcome.output o) (ExpectedRevert.reverted_by e'))
  then o' = CallOutcome.answer Return DUMMY_CALL_OUTPUT o ∧ expected s' = next_expected e'
  else CallOutcome.status o' = Revert ∧ expected s' = None.
Proof.
  intros Hd Hc Ha He Hde Hk Hn Hm (s1 & new & H1 & (s2 & [] & H2 & [= <- <-])%hbind_Some)%hbind_Some e'.
  assert (keep_reverts s1 s2) as [= Hs2 _] by (eapply steps_use; [exact H2|keep]). rewrite Hs2. clear H2 Hs2 s2.
  revert H1. unfold call_end. rewrite Hc. intros (s3 & [] & H3 & (s4 & r & H4 & H1)%hbind_Some)%hbind_Some.
  assert (depth_of s3 = d) as Hd3 by (rewrite <-Hd; exact (steps_use _ _ _ _ H3 depth_clean)).
  assert (keep_reverts s s3) as [= He3 Ha3] by (eapply steps_use; [exact H3|keep]).
  rewrite He in He3. rewrite Ha in Ha3. revert H4.
  unfold call_end_reverts, hbind, hpart, hdepth, hget, call_end_assume, call_end_revert.
  rewrite Ha3. cbn. rewrite He3, Hc. fold e'.
  destruct (record_reverter_fields (Call.target_address call) o e) as [by_ Hby]. fold e' in Hby.
  rewrite (proj2 (Z.leb_le _ _)) by (rewrite Hby; cbn; unfold depth_of in Hd3; lia).
  assert (ExpectedRevert.kind e' = DefaultKind) as -> by by rewrite Hby. cbn.
  pose proof (handle_expect_revert_next decoder_decode (internal_expect_revert config) e' (CallOutcome.status o)
    (CallOutcome.output o) (available_artifacts config)) as Hh.
  assert (∀ st out b, accepts e' st out b ↔ accepts e st out b) as Hacc by (intros; rewrite Hby; done).
  assert (ExpectedRevert.count e' ≠ 0%Z ∧ (ExpectedRevert.depth e' < ExpectedRevert.max_depth e')%Z) as [Hn' Hm'].
  { rewrite Hby. cbn. split; [done|]. lia. }
  specialize (Hh Hn' (or_intror Hm')). clear -Hh Hacc H1.
  destruct (decide (accepts e' _ _ _)) as [Hx|Hx]; rewrite Hacc in Hx.
  - rewrite decide_True, Hh by done. intros [= <- <-]. injection H1 as <- <-. cbn. split; [|done].
    apply keep_different_new. left. cbn. intros Heq. destruct Hx as [Hx _]. by rewrite <-Heq in Hx.
  - rewrite decide_False by done. destruct Hh as [err Herr]. rewrite Herr. intros [= <- <-]. injection H1 as <- <-. cbn.
    split; [|done]. by apply keep_different_status.
Qed.

Lemma init_expected g s s' u :
  initialize_interp g s = Some (s', u) → expected s' = track_depth (depth_of s) (expected s) ∧ assumed s' = assumed s.
Proof.
  unfold initialize_interp, hbind, hget, hecx, hcheats, hgas, hdepth. by intros [= <- _].
Qed.

Lemma next_expected_depth m e :
  next_expected (ExpectedRevert.set_max_depth m e) = ExpectedRevert.set_max_depth m <$> next_expected e.
Proof. unfold next_expected. cbn. by destruct (_ <? _)%Z. Qed.

End below.
End reverts.
