(* ===== verification/InspectorExpects.v ===== *)
(** Expectations over whole executions.

    Expected calls: from [vm.expectCall] to the end of the root call, the
    inspector counts the calls that match, and the test only passes if there were
    as many as expected.  Expected events: after [vm.expectEmit], the next call
    ends well only if the execution below it emitted the events in order.  And
    [vm.expectSafeMemory]: with ranges set for the depth of a frame, an
    instruction of the frame goes ahead exactly if what it writes to memory lies
    in one of them. *)
From stdpp Require Import strings gmap.
From S2P Require Import Prelude Radix Database MultiFork ForkBackend ForkTransact Pranks Frames ExpectEmit ExpectRevert ExpectCall Mocks StateDiffs Mapping Cheats Inspector InspectorStep InspectorRun ExpectEmitTheorems.

(** ** Expected calls *)

(** ** The cheatcode *)

(** What a cheatcode expects: the calls it is about, and their number. *)
Definition expected_key (c : CallCheat) : Z * Bytes :=
  match c with
  | ExpectCall_0 a d | ExpectCall_1 a d _ | ExpectCall_2 a _ d | ExpectCall_3 a _ d _
  | ExpectCall_4 a _ _ d | ExpectCall_5 a _ _ d _ | ExpectCallMinGas_0 a _ _ d | ExpectCallMinGas_1 a _ _ d _ => (a, d)
  end.

(** The expectation of a key and how often it was met. *)
Definition tracked (k : Z * Bytes) (m : ExpectedCallTracker) : option (ExpectedCallData.t * Z) := m !! k.1 ≫= lookup k.2.

Lemma expect_call_other k target calldata value gas min_gas count ty m :
  (target, calldata) ≠ k →
  tracked k (expect_call target calldata value gas min_gas count ty m).1 = tracked k m.
Proof.
  intros Hk. unfold tracked.
  assert (∀ x, x !! k.2 = default ∅ (m !! target) !! k.2 ∨ target ≠ k.1 →
               (<[target := x]> m !! k.1 ≫= lookup k.2) = m !! k.1 ≫= lookup k.2) as Hput.
  { intros x [Hx|Hx]; [|by rewrite lookup_insert_ne].
    destruct (decide (target = k.1)) as [->|]; [|by rewrite lookup_insert_ne].
    rewrite lookup_insert_eq. cbn. rewrite Hx. by destruct (m !! k.1). }
  assert (∀ y, <[calldata := y]> (default ∅ (m !! target)) !! k.2 = default ∅ (m !! target) !! k.2 ∨ target ≠ k.1) as Hin.
  { intros y. destruct (decide (target = k.1)) as [->|]; [left|by right].
    apply lookup_insert_ne. intros ->. destruct k. by apply Hk. }
  unfold expect_call. repeat case_match; cbn; apply Hput; auto.
Qed.

Lemma call_cheat_other k c m : expected_key c ≠ k → tracked k (apply_call_cheat c m).1 = tracked k m.
Proof. destruct c; apply expect_call_other. Qed.

(** The first expectation for a key starts its count. *)
Lemma call_cheat_first c m :
  tracked (expected_key c) m = None →
  ∃ e, apply_call_cheat c m = (<[(expected_key c).1 := <[(expected_key c).2 := (e, 0%Z)]> (default ∅ (m !! (expected_key c).1))]> m, Ok []) ∧
       tracked (expected_key c) (apply_call_cheat c m).1 = Some (e, 0%Z).
Proof.
  intros Hc.
  assert (∀ d, default ∅ (m !! (expected_key c).1) !! d = m !! (expected_key c).1 ≫= lookup d) as Hd.
  { intros d. by destruct (m !! (expected_key c).1). }
  destruct c; cbn in *; unfold expect_call, tracked in *; rewrite Hd; cbn in *; rewrite Hc; cbn;
    eexists; (split; [done|]); rewrite lookup_insert_eq; cbn; by rewrite lookup_insert_eq.
Qed.

Lemma count_call_tracked k call m :
  tracked k (count_call call m) =
    (λ x, (x.1, if bool_decide (Call.bytecode_address call = k.1) && call_matches k.2 x.1 call then (x.2 + 1)%Z else x.2)) <$>
      tracked k m.
Proof.
  unfold tracked, count_call. destruct (m !! Call.bytecode_address call) as [x|] eqn:Hx.
  - destruct (decide (Call.bytecode_address call = k.1)) as [Hk|Hk].
    + rewrite <-Hk, lookup_insert_eq, Hx, bool_decide_eq_true_2 by done. cbn.
      rewrite map_lookup_imap. by destruct (x !! k.2) as [[]|].
    + rewrite lookup_insert_ne, bool_decide_eq_false_2 by done. cbn. by destruct (m !! k.1 ≫= lookup k.2) as [[]|].
  - destruct (decide (Call.bytecode_address call = k.1)) as [Hk|Hk].
    + by rewrite <-Hk, Hx.
    + rewrite bool_decide_eq_false_2 by done. cbn. by destruct (m !! k.1 ≫= lookup k.2) as [[]|].
Qed.

(** What the end of the root call finds: an expectation that was not met. *)
Definition expectation_met (e : ExpectedCallData.t) (n : Z) : Prop :=
  match ExpectedCallData.call_type e with
  | Count => n = ExpectedCallData.count e
  | NonCount => (ExpectedCallData.count e ≤ n)%Z
  end.

Lemma call_failed_spec e n : call_failed e n = false ↔ expectation_met e n.
Proof.
  unfold call_failed, expectation_met. destruct (ExpectedCallData.call_type e).
  - rewrite Z.ltb_ge. done.
  - rewrite negb_false_iff, Z.eqb_eq. done.
Qed.

Lemma root_end_calls_met `{IterOrder} `{Alloy} outcome m :
  root_end_calls outcome m = None ↔ ∀ k e n, tracked k m = Some (e, n) → expectation_met e n.
Proof.
  unfold root_end_calls. set (all := _ ≫= _).
  assert (∀ k e n, (k.1, (k.2, (e, n))) ∈ all ↔ tracked k m = Some (e, n)) as Hall.
  { intros [a d] e n. unfold all, tracked. rewrite list_elem_of_bind. setoid_rewrite list_elem_of_fmap. cbn. split.
    - intros ([a' x] & (y & [= -> <-] & Hy) & Hx). cbn in Hy. apply elem_of_iter in Hx, Hy. by rewrite Hx.
    - intros (x & Hx & Hd)%bind_Some. exists (a, x). rewrite elem_of_iter. split; [|done].
      exists (d, (e, n)). by rewrite elem_of_iter. }
  split.
  - destruct (List.find _ all) as [[? [? []]]|] eqn:E; [done|]. intros _ k e n Hk. apply Hall in Hk.
    apply call_failed_spec. apply list_elem_of_In in Hk. by apply (List.find_none _ _ E) in Hk.
  - intros Hm. destruct (List.find _ all) as [[a [d [e n]]]|] eqn:E; [|done].
    apply List.find_some in E as [Hin Hf%not_false_iff_true]. destruct Hf. apply call_failed_spec.
    apply (Hm (a, d)), Hall, list_elem_of_In, Hin.
Qed.

(** ** Executions *)

Section calls.
Context {ET : EvmTypes} {FT : ForkTypes} {CT : CheatTypes} {D : Type} {EO : EvmOps D} {CO : CheatOps D}.
Context {IO : IterOrder} {AL : Alloy} (config : CheatsConfig).
Context (decoder_decode : Contracts → Bytes → InstructionResult → Str).
Context (STOP_SELECTOR : Bytes) (keccak256 : Bytes → Z).
Implicit Types (s : St (D := D)).

Section key.
Context (k : Z * Bytes).

(** The calls of a trace that meet an expectation: those to its address, but not
    to the cheatcodes or the console, with its calldata, value and gas. *)
Definition meets (e : ExpectedCallData.t) (call : Call.t) : bool :=
  negb (is_cheatcode_call call) && (bool_decide (Call.bytecode_address call = k.1) && call_matches k.2 e call).

Definition calls_meeting (e : ExpectedCallData.t) (t : trace) : Z :=
  Z.of_nat (length (filter (λ x, match x.2 with EvEnter call => meets e call | _ => false end = true) t)).

(** The cheatcodes that leave the expectation alone. *)
Definition keeps_expectation (c : VmCall Other) : Prop :=
  match c with VmExpectCall c => expected_key c ≠ k | _ => True end.

Abbreviation expectation s := (tracked k (Cheatcodes.expected_calls (cheats s))).
Abbreviation keep_calls := (keeps (D := D) (λ c, tracked k (Cheatcodes.expected_calls c))).

Definition calls_counted (s : St (D := D)) (t : trace) (s' : St (D := D)) : Prop :=
  expectation s' = (λ x, (x.1, x.2 + calls_meeting x.1 t)%Z) <$> expectation s.

Lemma calls_silent s t s' : (∀ e, calls_meeting e t = 0%Z) → keep_calls s s' → calls_counted s t s'.
Proof.
  unfold keeps, calls_counted. intros Ht ->. destruct (expectation s) as [[e n]|]; [|done]. cbn. by rewrite Ht, Z.add_0_r.
Qed.

Lemma calls_cheat caller c : keeps_expectation c → steps keep_calls (apply_cheat config caller c).
Proof.
  destruct c as [| |c| | | | | | | | | | |]; try (intros _; keep; fail). intros Hc.
  apply steps_bind; [apply steps_depth|]. intros _ s s' a. unfold hpart.
  destruct (apply_call_cheat c _) as [m r] eqn:E. intros [= <- _]. unfold keeps. cbn.
  change m with (m, r).1. rewrite <-E. by apply call_cheat_other.
Qed.

Lemma call_root_deeper call s : depth_of s ≠ 0%Z → call_root call s = Some (s, None).
Proof.
  intros Hd. unfold call_root, hbind, hdepth, hget. unfold depth_of in Hd.
  by destruct (Z.eqb_spec (js_depth (journaled_state (ecx s))) 0).
Qed.
Lemma entered_fields call s :
  Call.target_address (entered_call call s) = Call.target_address call ∧ Call.input (entered_call call s) = Call.input call.
Proof. unfold entered_call, mocked_function. by repeat case_match. Qed.

(** The call hook counts the call before anything else. *)
Lemma calls_call call s s' x :
  depth_of s ≠ 0%Z → cheat_ok keeps_expectation call → stack_call config call s = Some (s', x) →
  calls_counted s [(depth_of s, EvEnter (entered_call call s))] s'.
Proof.
  intros Hd Hok. unfold stack_call.
  intros (s1 & c & [= <- <-] & (s2 & y & H2 & [= <- _])%hbind_Some)%hbind_Some.
  destruct (entered_fields call s) as [Ht Hi]. revert H2. set (c := entered_call call s) in *.
  unfold call_with_executor. intros (s3 & r & H3 & H2)%hbind_Some. rewrite call_root_deeper in H3 by done. injection H3 as <- <-.
  assert (is_cheatcode_call c = true → keep_calls s s2 → calls_counted s [(depth_of s, EvEnter c)] s2) as Hskip.
  { intros Hc. apply calls_silent. intros e. unfold calls_meeting, meets. rewrite filter_cons, decide_False; [done|].
    cbn. by rewrite Hc. }
  destruct (Z.eqb_spec (Call.target_address c) CHEATCODE_ADDRESS) as [Ec|Ec].
  { apply Hskip; [unfold is_cheatcode_call; by rewrite Ec|]. eapply steps_use; [exact H2|]. keep_step; [|keep].
    apply (steps_cheatcode config keeps_expectation); [apply calls_cheat|done|]. unfold cheat_ok. by rewrite Ht, Hi. }
  unfold call_passed in H2. destruct (Z.eqb_spec (Call.target_address c) HARDHAT_CONSOLE_ADDRESS) as [Eh|Eh].
  { apply Hskip; [unfold is_cheatcode_call; by rewrite Eh|]. eapply steps_use; [exact H2|keep]. }
  apply hbind_Some in H2 as (s4 & [] & [= <-] & H2).
  apply (steps_use (R := keep_calls)) in H2; [|keep]. unfold keeps in H2. cbn in H2.
  unfold calls_counted. rewrite H2, count_call_tracked. destruct (expectation s) as [[e n]|]; [|done]. cbn. do 2 f_equal.
  assert (is_cheatcode_call c = false) as Hn.
  { unfold is_cheatcode_call. by rewrite (proj2 (Z.eqb_neq _ _) Ec), (proj2 (Z.eqb_neq _ _) Eh). }
  unfold calls_meeting, meets. rewrite filter_cons. case_decide as Hm; cbn in Hm |- *; rewrite Hn in Hm; cbn in Hm.
  - by rewrite Hm.
  - destruct (_ && _); [done|]. lia.
Qed.

Lemma calls_hooks : Hooks config decoder_decode STOP_SELECTOR keccak256 calls_counted (cheat_ok keeps_expectation) 1.
Proof.
  split.
  - intros s. by apply calls_silent.
  - unfold calls_counted. intros s1 s2 s3 t1 t2 -> ->. destruct (expectation s1) as [[e n]|]; [|done]. cbn. do 2 f_equal.
    unfold calls_meeting. rewrite filter_app, length_app. lia.
  - intros g. apply (steps_mono (R1 := keep_calls)); [intros s s'; by apply calls_silent|keep].
  - intros d l s s' b _ Hs. apply calls_silent; [done|]. eapply steps_use; [exact Hs|keep].
  - intros i. apply (steps_mono (R1 := keep_calls)); [intros s s'; by apply calls_silent|keep].
  - intros r i. apply (steps_mono (R1 := keep_calls)); [intros s s'; by apply calls_silent|keep].
  - intros g s s' _ Hs. apply calls_silent; [done|]. eapply steps_use; [exact Hs|keep].
  - intros call s s' x Hd Hok Hs. eapply calls_call; [lia|done|exact Hs].
  - intros call o s s' x _ Hs. apply calls_silent; [done|]. eapply steps_use; [exact Hs|keep].
  - intros input s s' x _ Hs. apply calls_silent; [done|]. eapply steps_use; [exact Hs|keep].
  - intros input o s s' x _ Hs. apply calls_silent; [done|]. eapply steps_use; [exact Hs|keep].
Qed.
End key.

(** ** The end of the root call *)

Lemma revert_not_ok r : return_revert r = true → return_ok r = false.
Proof. by destruct r. Qed.

Lemma call_end_root_spec o s s' r :
  depth_of s = 0%Z → call_end_root o s = Some (s', r) → return_ok (CallOutcome.status (default o r)) = true →
  root_end_calls o (Cheatcodes.expected_calls (cheats s)) = None.
Proof.
  intros Hd. unfold call_end_root, hbind, hdepth, hget. unfold depth_of in Hd. rewrite Hd. cbn.
  destruct (InterpreterResult.is_revert (CallOutcome.result o)) eqn:Hr.
  { intros [= <- <-]. cbn. intros Hok. by apply revert_not_ok in Hr; unfold CallOutcome.status in Hok; rewrite Hr in Hok. }
  destruct (root_end_calls _ _) as [o'|] eqn:E; [|done]. intros [= <- <-]. unfold root_end_calls in E.
  destruct (List.find _ _) as [[? [? []]]|]; [|done]. by injection E as <-.
Qed.

(** A root call with no pending revert that ends well has met all the expected
    calls. *)
Lemma root_end_ok call o s s' o' :
  load_keeps_depth → depth_of s = 0%Z → is_cheatcode_call call = false →
  Cheatcodes.expected_revert (cheats s) = None → Cheatcodes.assume_no_revert (cheats s) = None →
  stack_call_end config decoder_decode call o s = Some (s', o') → return_ok (CallOutcome.status o') = true →
  root_end_calls o (Cheatcodes.expected_calls (cheats s)) = None.
Proof.
  intros HL Hd Hc Hr Ha Hend Hok. destruct (call_end_split _ _ _ _ _ _ _ Hc Hr Ha Hend) as (s1 & s2 & r & H1 & H2 & _ & ->).
  rewrite keep_different_status in Hok. pose proof (steps_use _ _ _ _ H1 depth_clean) as Hd1.
  pose proof (steps_use (R := keeps Cheatcodes.expected_calls) _ _ _ _ H1 ltac:(keep)) as Hk1.
  destruct (call_end_rest_split _ _ _ _ _ HL H2) as (s4 & s5 & re & H4 & Hd4 & H5 & Hd5 & H6).
  pose proof (steps_use (R := keeps Cheatcodes.expected_calls) _ _ _ _ H4 ltac:(keep)) as Hk4.
  assert (keeps Cheatcodes.expected_calls s4 s5 ∧ from_option (λ o', CallOutcome.status o' = Revert) True re) as [Hk5 He].
  { revert H5. unfold hpart. destruct (call_end_emits _ _ _ _) as [q [oe|]] eqn:E; intros [= <- <-]; (split; [done|]); [|done].
    by apply call_end_emits_err in E. }
  destruct re as [oe|]. { destruct H6 as [_ ->]. cbn in He, Hok. by rewrite He in Hok. }
  apply hbind_Some in H6 as (s6 & rd & H6 & H7). pose proof (diagnose_spec _ _ _ _ _ H6) as Hrd.
  pose proof (steps_use _ _ _ _ H6 (depth_diagnose _ _)) as Hd6.
  pose proof (steps_use (R := keeps Cheatcodes.expected_calls) _ _ _ _ H6 ltac:(keep)) as Hk6.
  destruct rd as [od|].
  { injection H7 as <- <-. destruct Hrd as [Hrd Hre]. cbn in Hok. rewrite Hrd in Hok. apply revert_not_ok in Hre. unfold CallOutcome.status in Hok. congruence. }
  unfold keeps, same_depth in *. rewrite <-Hk1, <-Hk4, <-Hk5, <-Hk6.
  eapply call_end_root_spec; [congruence|exact H7|exact Hok].
Qed.

End calls.

(** ** Expected events *)

Section emits.
Context {ET : EvmTypes} {FT : ForkTypes} {CT : CheatTypes} {D : Type} {EO : EvmOps D} {CO : CheatOps D}.
Context {IO : IterOrder} {AL : Alloy} (config : CheatsConfig).
Context (decoder_decode : Contracts → Bytes → InstructionResult → Str).
Context (STOP_SELECTOR : Bytes) (keccak256 : Bytes → Z).
Implicit Types (s : St (D := D)).

(** No cheatcodes that expect events or reverts. *)
Definition no_expectations (c : VmCall Other) : Prop :=
  match c with VmEmit _ | VmRevert _ | VmAssume _ => False | _ => True end.

Abbreviation emits s := (Cheatcodes.expected_emits (cheats s)).
Abbreviation reverts s := (Cheatcodes.expected_revert (cheats s), Cheatcodes.assume_no_revert (cheats s)).
Abbreviation keep_emits := (keeps (D := D)
  (λ c, (Cheatcodes.expected_emits c, (Cheatcodes.expected_revert c, Cheatcodes.assume_no_revert c)))).

Section below.
Context (d : Z) (Hpos : (0 < d)%Z) (HL : load_keeps_depth (D := D)).

(** The queue holds expectations of depth [d], and no revert is expected. *)
Definition waiting (s : St (D := D)) : Prop :=
  Forall (λ x, ExpectedEmit.depth x.1 = d) (emits s) ∧ emits s ≠ [] ∧ reverts s = (None, None).

(** The logs of an execution below are scanned for the events. *)
Definition scanned (s : St (D := D)) (t : trace) (s' : St (D := D)) : Prop :=
  ∀ st, waiting s → sim st (emits s) → waiting s' ∧ sim (foldl scan st (logs_of t)) (emits s').

Abbreviation silent := (λ s s', scanned s [] s').

Lemma scanned_silent s t s' : logs_of t = [] → keep_emits s s' → scanned s t s'.
Proof. intros Ht [= H1 H2 H3] st. unfold waiting. by rewrite Ht, H1, H2, H3. Qed.

Lemma scanned_app s1 s2 s3 t1 t2 : scanned s1 t1 s2 → scanned s2 t2 s3 → scanned s1 (t1 ++ t2) s3.
Proof.
  intros H1 H2 st Hw Hsim. destruct (H1 st Hw Hsim) as [Hw2 Hsim2]. unfold logs_of. rewrite bind_app, foldl_app. by apply H2.
Qed.

#[local] Instance scanned_refl : Reflexive silent.
Proof. intros s. by apply scanned_silent. Qed.
#[local] Instance scanned_trans : Transitive silent.
Proof. intros s1 s2 s3. apply (scanned_app _ _ _ [] []). Qed.

Lemma scanned_keep {A} (m : H (D := D) A) : steps keep_emits m → steps silent m.
Proof. apply steps_mono. intros s s'. by apply scanned_silent. Qed.

Lemma scanned_use {A} (m : H (D := D) A) s s' a : m s = Some (s', a) → steps keep_emits m → scanned s [] s'.
Proof. intros Hs Hm. apply scanned_silent; [done|]. by eapply Hm. Qed.

Lemma scanned_cheat caller c : no_expectations c → steps silent (apply_cheat config caller c).
Proof. destruct c; try done; intros _; apply scanned_keep; keep. Qed.

Lemma scanned_call call : cheat_ok no_expectations call → steps silent (stack_call config call).
Proof.
  intros Hok. apply (steps_stack_call config). intros b. unfold call_with_executor.
  apply steps_bind; [apply scanned_keep; keep|]. intros [o|]; [apply steps_ret|].
  destruct (_ =? CHEATCODE_ADDRESS)%Z eqn:Ht; [|apply scanned_keep; keep].
  apply steps_bind; [|intros ?; apply steps_ret].
  apply (steps_cheatcode config no_expectations); [apply scanned_cheat|by apply Z.eqb_eq|done].
Qed.

Lemma scanned_log dl l s s' b : log_hook l s = Some (s', b) → scanned s [(dl, EvLog l)] s'.
Proof.
  intros Hs st (Hdep & Hne & Hrev) Hsim. destruct (sim_step _ _ l Hsim) as (q' & Hq' & Hsim').
  revert Hs. unfold log_hook, hbind, hget, hcheats, hunwrap, hret. rewrite Hq'.
  destruct (emits s) as [|y q] eqn:E; [done|]. intros [= <- _]. cbn. split; [|done].
  pose proof (handle_depth d l _ _ Hq' (conj Hdep Hne)) as [Hd' Hne']. split_and!; [done|done|]. exact Hrev.
Qed.

(** Below the expectations the end of a call does not look at them. *)
Lemma emits_deeper dd st o q :
  Forall (λ x, ExpectedEmit.depth x.1 = d) q → dd ≠ d → call_end_emits dd st o q = (q, None).
Proof.
  intros Hq Hd. unfold call_end_emits. replace (existsb _ q) with false; [done|].
  symmetry. apply not_true_iff_false. rewrite existsb_exists. intros (x & Hx%list_elem_of_In & He%Z.eqb_eq).
  rewrite Forall_forall in Hq. apply Hq in Hx. congruence.
Qed.

Lemma call_end_root_deeper o s : depth_of s ≠ 0%Z → call_end_root o s = Some (s, None).
Proof.
  intros Hd. unfold call_end_root, hbind, hdepth, hget. unfold depth_of in Hd.
  by destruct (Z.eqb_spec (js_depth (journaled_state (ecx s))) 0).
Qed.

Lemma scanned_init g : steps silent (initialize_interp g).
Proof.
  unfold initialize_interp. do 5 (apply steps_bind; [apply scanned_keep; keep|intros ?]).
  apply steps_bind; [apply steps_depth|]. intros dd s s' u [= <- _] st (H1 & H2 & [= Hr Ha]) Hsim. cbn.
  split; [|done]. split_and!; [done|done|]. cbn. by rewrite Hr, Ha.
Qed.

Lemma scanned_create_end input o s s' o' :
  stack_create_end config decoder_decode input o s = Some (s', o') → scanned s [] s'.
Proof.
  intros (s1 & new & H1 & (s2 & [] & H2 & [= <- _])%hbind_Some)%hbind_Some.
  apply (scanned_trans s s1); [|by eapply scanned_use; [exact H2|keep]].
  revert H1. unfold create_end_common.
  intros (s3 & d3 & [= <- <-] & (s4 & [] & H4 & (s5 & [] & H5 & (s6 & r & H6 & H1)%hbind_Some)%hbind_Some)%hbind_Some)%hbind_Some.
  apply (scanned_trans s s5). { apply (scanned_trans s s4); (eapply scanned_use; [eassumption|keep]). }
  apply (scanned_trans s5 s6); [|by eapply scanned_use; [exact H1|keep]].
  intros st (Hdep & Hne & [= Hr Ha]) Hsim. revert H6. unfold hpart, create_end_revert. rewrite Hr. intros [= <- _].
  split; [|done]. split_and!; [done|done|]. cbn. by rewrite Ha.
Qed.

Lemma scanned_call_end call o s s' o' :
  (d < depth_of s)%Z → stack_call_end config decoder_decode call o s = Some (s', o') → scanned s [] s'.
Proof.
  intros Hd Hend st Hw. pose proof Hw as (_ & _ & [= Hr Ha]). revert st Hw. change (silent s s').
  destruct (is_cheatcode_call call) eqn:Hc.
  { revert Hend. unfold stack_call_end. unfold hbind at 1. rewrite call_end_cheatcode by done.
    intros Hend. eapply scanned_use; [exact Hend|keep]. }
  destruct (call_end_split _ _ _ _ _ _ _ Hc Hr Ha Hend) as (s1 & s2 & r & H1 & H2 & H3 & ->).
  pose proof (steps_use _ _ _ _ H1 depth_clean) as Hd1. unfold same_depth in Hd1.
  destruct (call_end_rest_split _ _ _ _ _ HL H2) as (s4 & s5 & re & H4 & Hd4 & H5 & Hd5 & H6).
  apply (scanned_trans s s4).
  { apply (scanned_trans s s1); (eapply scanned_use; [eassumption|keep]). }
  apply (scanned_trans s4 s5).
  { intros st Hw Hsim. revert H5. unfold hpart. rewrite emits_deeper by (try apply Hw; lia). intros [= <- _]. done. }
  apply (scanned_trans s5 s2); [|by eapply scanned_use; [exact H3|keep]].
  destruct re as [oe|]; [by destruct H6 as [-> _]|].
  apply hbind_Some in H6 as (s6 & rd & H6 & H7). pose proof (steps_use _ _ _ _ H6 (depth_diagnose _ _)) as Hd6.
  apply (scanned_trans s5 s6); [by eapply scanned_use; [exact H6|keep]|]. destruct rd; [by injection H7 as <- _|].
  revert H7. rewrite call_end_root_deeper; [by intros [= <- _]|]. unfold same_depth in Hd6. lia.
Qed.

Lemma scanned_hooks : Hooks config decoder_decode STOP_SELECTOR keccak256 scanned (cheat_ok no_expectations) (d + 1).
Proof.
  split.
  - intros s. by apply scanned_silent.
  - apply scanned_app.
  - intros g. apply scanned_keep. keep.
  - intros dl l s s' b _ Hs. by eapply scanned_log.
  - intros i. apply scanned_keep. keep.
  - intros r i. apply scanned_keep. keep.
  - intros g s s' _ Hs. by eapply scanned_init.
  - intros call s s' x _ Hok Hs. exact (scanned_call call Hok _ _ _ Hs).
  - intros call o s s' x Hd Hs. eapply scanned_call_end; [|exact Hs]. lia.
  - intros input s s' x _ Hs. eapply scanned_silent; [done|]. eapply steps_use; [exact Hs|keep].
  - intros input o s s' x Hd Hs. by eapply scanned_create_end.
Qed.

(** The end of the call the expectations wait for. *)
Lemma call_end_scanned call o s s' o' st :
  depth_of s = d → is_cheatcode_call call = false → Call.is_static call = false →
  waiting s → sim st (emits s) → stack_call_end config decoder_decode call o s = Some (s', o') →
  if bool_decide (st.2 = []) then CallOutcome.status o' = CallOutcome.status o ∧ emits s' = []
  else o' = CallOutcome.answer Revert (abi_string (str "log != expected log")) o.
Proof.
  intros Hd Hc Hst Hw Hsim Hend. pose proof Hw as (Hdep & Hne & [= Hr Ha]).
  destruct (call_end_split _ _ _ _ _ _ _ Hc Hr Ha Hend) as (s1 & s2 & r & H1 & H2 & H3 & ->).
  pose proof (steps_use _ _ _ _ H1 depth_clean) as Hd1. unfold same_depth in Hd1.
  destruct (call_end_rest_split _ _ _ _ _ HL H2) as (s4 & s5 & re & H4 & Hd4 & H5 & Hd5 & H6).
  pose proof (steps_use (R := keeps Cheatcodes.expected_emits) _ _ _ _ H1 ltac:(keep)) as Hk1.
  pose proof (steps_use (R := keeps Cheatcodes.expected_emits) _ _ _ _ H4 ltac:(keep)) as Hk4.
  pose proof (steps_use (R := keeps Cheatcodes.expected_emits) _ _ _ _ H3 ltac:(keep)) as Hk3.
  unfold keeps in *. revert H5. unfold hpart. rewrite Hk4, Hk1, Hst, Hd1, Hd.
  rewrite (sim_end d st (emits s) o Hsim).
  2:{ destruct (emits s) as [|x q]; [done|]. exists x. apply Forall_cons in Hdep as [? _]. split; [left|done]. }
  case_bool_decide as Hq; intros [= <- <-].
  - apply hbind_Some in H6 as (s6 & rd & H6 & H7). pose proof (diagnose_spec _ _ _ _ _ H6) as Hrd.
    pose proof (steps_use (R := keeps Cheatcodes.expected_emits) _ _ _ _ H6 ltac:(keep)) as Hk6.
    pose proof (steps_use _ _ _ _ H6 (depth_diagnose _ _)) as Hd6. unfold same_depth in Hd6. rewrite Hd5 in Hd6.
    rewrite Hk3, keep_different_status. destruct rd as [od|].
    + injection H7 as <- <-. by destruct Hrd as [Hrd _].
    + rewrite call_end_root_deeper in H7 by lia. by injection H7 as <- <-.
  - destruct H6 as [_ ->]. by apply keep_different_answer.
Qed.

End below.
End emits.
Open Scope Z_scope.

(** ** Safe memory *)

(** ** Ranges *)

Definition ranges_ok (ranges : list (Z * Z)) : Prop := Forall (λ r, 0 ≤ r.1 < r.2 ∧ r.2 ≤ u64_max) ranges.

(** A write lies in one of the ranges. *)
Definition inside (ranges : list (Z * Z)) (offset size : Z) : Prop :=
  ∃ r, r ∈ ranges ∧ r.1 ≤ offset ∧ offset + size ≤ r.2.

Lemma in_ranges_inside ranges offset size :
  ranges_ok ranges → 0 ≤ offset → 0 < size → offset + size < 2 ^ 64 →
  in_ranges ranges (saturating_to_u64 offset) (wrapping_add_u64 (saturating_to_u64 offset) (saturating_sub (saturating_to_u64 size) 1)) = true ↔
  inside ranges offset size.
Proof.
  intros Hr Ho Hs Hb. assert (u64_max = 2 ^ 64 - 1) as Hmax by done.
  assert (saturating_to_u64 offset = offset) as -> by (unfold saturating_to_u64; lia).
  assert (saturating_to_u64 size = size) as -> by (unfold saturating_to_u64; lia).
  assert (saturating_sub size 1 = size - 1) as -> by (unfold saturating_sub; lia).
  assert (wrapping_add_u64 offset (size - 1) = offset + size - 1) as ->.
  { unfold wrapping_add_u64. rewrite Z.mod_small; lia. }
  unfold in_ranges, inside, range_contains. rewrite existsb_exists. split.
  - intros (r & Hin%list_elem_of_In & Hc). exists r. split; [done|].
    rewrite !andb_true_iff, !Z.leb_le, !Z.ltb_lt in Hc. lia.
  - intros (r & Hin & H1 & H2). exists r. split; [by apply list_elem_of_In|].
    rewrite !andb_true_iff, !Z.leb_le, !Z.ltb_lt. lia.
Qed.

(** ** Instructions *)

(** What an instruction writes to memory: where, and how much.  Its operands are
    on the stack, the top first. *)
Definition mem_write (i : Interp.t) : option (Z * Z) :=
  match Interp.current_opcode i, Interp.stack i with
  | MSTORE, offset :: _ :: _ => Some (offset, 32)
  | MSTORE8, offset :: _ :: _ => Some (offset, 1)
  | (CALLDATACOPY | CODECOPY | RETURNDATACOPY), offset :: _ :: size :: _ => Some (offset, size)
  | EXTCODECOPY, _ :: offset :: _ :: size :: _ => Some (offset, size)
  | (CALL | CALLCODE), _ :: _ :: _ :: _ :: _ :: offset :: size :: _ => Some (offset, size)
  | (STATICCALL | DELEGATECALL), _ :: _ :: _ :: _ :: offset :: size :: _ => Some (offset, size)
  | _, _ => None
  end.

Section check.
Context (STOP_SELECTOR : Bytes).

(** The instructions by which a contract calls [vm.stopExpectSafeMemory]: the
    store of its selector, and the call. *)
Definition calls_stop (i : Interp.t) : Prop :=
  match Interp.current_opcode i, Interp.stack i with
  | MSTORE, _ :: value :: _ => word_selector value = STOP_SELECTOR
  | CALL, _ :: to :: _ :: args_offset :: args_size :: _ =>
      to mod 2 ^ 160 = CHEATCODE_ADDRESS ∧
      Interp.slice (saturating_to_u64 args_offset) (saturating_to_u64 args_size) i ≫= get_prefix 4 = Some STOP_SELECTOR
  | _, _ => False
  end.

Lemma check_mem_write ranges i offset size :
  ranges_ok ranges → mem_write i = Some (offset, size) → 0 ≤ offset → 0 < size → offset + size < 2 ^ 64 →
  match check_mem_opcodes STOP_SELECTOR ranges i with
  | MemOk => inside ranges offset size ∨ calls_stop i
  | MemDisallowed _ _ => ¬ inside ranges offset size ∧ ¬ calls_stop i
  | MemPanic => True
  end.
Proof.
  intros Hr Hw Ho Hs Hb. pose proof (in_ranges_inside _ _ _ Hr Ho Hs Hb) as Hin.
  assert (saturating_to_u64 offset = offset) as Hsat by (unfold saturating_to_u64, u64_max; lia).
  revert Hw. unfold mem_write, check_mem_opcodes, calls_stop, Interp.peek.
  destruct i as [op st mem gas target res ret]; cbn [Interp.current_opcode Interp.stack Interp.memory].
  destruct op; try done; destruct st as [|x0 [|x1 st]]; try done; cbn [lookup list_lookup mem_opcode].
  all: try (destruct st as [|x2 [|x3 [|x4 [|x5 [|x6 st]]]]]; try done; intros [= <- <-]; cbn [lookup list_lookup];
    (destruct (in_ranges _ _ _) eqn:E; [left; by apply Hin|split; [intros ?%Hin; congruence|tauto]]); fail).
  - intros [= -> <-]. change (saturating_sub (saturating_to_u64 32) 1) with 31 in Hin.
    destruct (in_ranges _ _ _); [left; by apply Hin|]. case_bool_decide; [by right|]. split; [intros ?%Hin; congruence|done].
  - intros [= -> <-]. change (saturating_sub (saturating_to_u64 1) 1) with 0 in Hin.
    rewrite Hsat in *. assert (wrapping_add_u64 offset 0 = offset) as Hz.
    { unfold wrapping_add_u64. rewrite Z.add_0_r, Z.mod_small; lia. }
    rewrite Hz in Hin. destruct (in_ranges _ _ _); [left; by apply Hin|]. split; [intros ?%Hin; congruence|tauto].
  - destruct st as [|x2 [|x3 [|x4 [|x5 [|x6 st]]]]]; try done. intros [= -> ->]. cbn [lookup list_lookup].
    destruct (in_ranges _ _ _); [left; by apply Hin|]. destruct (Z.eqb_spec (x1 mod 2 ^ 160) CHEATCODE_ADDRESS) as [Hc|Hc].
    + destruct (Interp.slice _ _ _ ≫= _) as [sel|]; [|done]. case_bool_decide as Hsel; [right; by subst|].
      split; [intros ?%Hin; congruence|]. intros [_ [= ->]]. done.
    + split; [intros ?%Hin; congruence|tauto].
Qed.
End check.

(** ** The hook *)

Section step.
Context {ET : EvmTypes} {FT : ForkTypes} {CT : CheatTypes} {D : Type} {EO : EvmOps D} {CO : CheatOps D}.
Context {IO : IterOrder} {AL : Alloy} (STOP_SELECTOR : Bytes) (keccak256 : Bytes → Z).
Implicit Types (s : St (D := D)).

(** Reading the state does not change the depth of the journal. *)
Definition reads_keep_depth : Prop :=
  load_keeps_depth (D := D) ∧
  (∀ a k js (d : D), js_depth (ev_sload a k js d).1.1 = js_depth js) ∧
  (∀ a js (d : D), js_depth (ev_balance a js d).1.1 = js_depth js).

Lemma depth_evm {A} (f : JournaledState → D → JournaledState * D * A) :
  (∀ js d, js_depth (f js d).1.1 = js_depth js) → steps same_depth (hevm f).
Proof.
  intros Hf s s' r. unfold hevm. specialize (Hf (journaled_state (ecx s)) (ecx_db (ecx s))).
  destruct (f _ _) as [[js d] x]. intros [= <- _]. exact Hf.
Qed.

Lemma depth_cheats f : steps (D := D) same_depth (hcheats f).
Proof. by intros s s' u [= <- _]. Qed.

Lemma depth_state_diffs i : reads_keep_depth → steps (D := D) same_depth (record_state_diffs i).
Proof.
  intros (HL & HS & HB).
  assert (∀ a k, steps (D := D) same_depth (present_slot a k)) as Hp.
  { intros a k. apply steps_bind; [by apply depth_load|]. intros [acc|e]; [|apply steps_ret].
    apply steps_bind; [by apply depth_evm|intros ?; apply steps_ret]. }
  assert (∀ k v, steps (D := D) same_depth (storage_access i k v)) as Hst.
  { intros k v. apply steps_bind; [apply Hp|]. intros x. apply steps_bind; [apply steps_get|intros ?; apply depth_cheats]. }
  assert (∀ k, steps (D := D) same_depth (ext_access i k)) as He.
  { intros k. unfold ext_access. destruct (Interp.peek 0 i); [|apply steps_ret].
    apply steps_bind; [by apply depth_load|]. intros r. apply steps_bind; [apply steps_get|intros ?; apply depth_cheats]. }
  apply steps_bind; [apply steps_get|]. intros stack. destruct (Interp.current_opcode i); try apply steps_ret; try apply He.
  - destruct stack; [apply steps_ret|]. destruct (Interp.peek 0 i); [apply Hst|apply steps_ret].
  - destruct stack; [apply steps_ret|]. destruct (Interp.peek 0 i), (Interp.peek 1 i); try apply steps_ret. apply Hst.
  - destruct stack; [apply steps_ret|]. destruct (Interp.peek 0 i); [|apply steps_ret].
    apply steps_bind; [by apply depth_load|]. intros r. apply steps_bind; [by apply depth_evm|]. intros v.
    apply steps_bind; [apply steps_get|intros ?; apply depth_cheats].
Qed.

(** Metering only changes the gas of the interpreter. *)
Definition same_code (i j : Interp.t) : Prop := ∃ g, j = Interp.set_gas g i.

Lemma meter_code f i s s' j :
  (∀ g, same_code i (f g i).2) → hmeter (D := D) f i s = Some (s', j) → same_code i j ∧ same_depth s s'.
Proof.
  intros Hf. unfold hmeter, hpart. specialize (Hf (Cheatcodes.gas_metering (cheats s))).
  destruct (f _ i) as [g i']. by intros [= <- <-].
Qed.

Lemma meter_gas_code g i : same_code i (meter_gas g i).2.
Proof. unfold meter_gas. destruct (last _) as [p|]; [by exists p|]. exists (Interp.gas i). by destruct i. Qed.

Lemma same_code_trans i j k : same_code i j → same_code j k → same_code i k.
Proof. intros [g ->] [g' ->]. by exists g'. Qed.

Lemma meter_if (b : bool) f i s s' j :
  (∀ g, same_code i (f g i).2) → (if b then hmeter (D := D) f i else hret i) s = Some (s', j) →
  same_code i j ∧ same_depth s s'.
Proof.
  intros Hf. destruct b; [by apply meter_code|]. intros [= <- <-]. split; [|done]. exists (Interp.gas i). by destruct i.
Qed.

(** The step hook looks at the memory of the instruction, with the ranges of the
    depth. *)
Lemma step_checks i s s' i' :
  reads_keep_depth → step STOP_SELECTOR keccak256 i s = Some (s', i') →
  ∃ j s1 s2, same_code i j ∧ depth_of s1 = depth_of s ∧
    keeps Cheatcodes.allowed_mem_writes s s1 ∧ step_memory STOP_SELECTOR j s1 = Some (s2, i').
Proof.
  intros HD. unfold step.
  intros (s0 & g & [= <- <-] & (sa & i1 & Ha & (sb & i2 & Hb & (sc & [] & Hc & (sc' & st & [= <- <-] & (sd & [] & Hd & (se & i3 & He & Hf)%hbind_Some)%hbind_Some)%hbind_Some)%hbind_Some)%hbind_Some)%hbind_Some)%hbind_Some.
  exists i2, sd, se.
  assert (i3 = i') as ->.
  { apply hbind_Some in Hf as (s6 & [] & _ & (s7 & d & _ & (s8 & [] & _ & [= _ <-])%hbind_Some)%hbind_Some). done. }
  assert (keeps Cheatcodes.allowed_mem_writes s sa ∧ keeps Cheatcodes.allowed_mem_writes sa sb ∧
          keeps Cheatcodes.allowed_mem_writes sb sc ∧ keeps Cheatcodes.allowed_mem_writes sc sd) as (Hka & Hkb & Hkc & Hkd).
  { split_and!; (eapply steps_use; [eassumption|keep]). }
  apply meter_if in Ha as [Hi1 Hda]; [|intros ?; apply meter_gas_code].
  apply meter_if in Hb as [Hi2 Hdb]; [|intros ?; by eexists].
  pose proof (steps_use _ _ _ _ Hc (depth_cheats _)) as Hdc.
  assert (same_depth sc sd) as Hdd.
  { destruct (Cheatcodes.recorded_account_diffs_stack (cheats sc)); [|by injection Hd as <-].
    exact (steps_use _ _ _ _ Hd (depth_state_diffs _ HD)). }
  unfold same_depth, keeps in *. split_and!; [by eapply same_code_trans|congruence|congruence|done].
Qed.

Context (config : CheatsConfig) (decoder_decode : Contracts → Bytes → InstructionResult → Str).

End step.
