(* ===== verification/InspectorTheorems.v ===== *)
(** Recorded logs and dealt balances over whole executions, and what the
    inspector does against its documentation. *)
From stdpp Require Import strings gmap.
From S2P Require Import Prelude Radix Database MultiFork ForkBackend ForkTransact Pranks Frames ExpectEmit ExpectRevert ExpectCall Mocks StateDiffs Mapping Cheats Inspector InspectorStep InspectorRun InspectorExpects.

(** ** Recorded logs *)

Section logs.
Context {ET : EvmTypes} {FT : ForkTypes} {CT : CheatTypes} {D : Type} {EO : EvmOps D} {CO : CheatOps D}.
Context {IO : IterOrder} {AL : Alloy} (config : CheatsConfig).
Context (decoder_decode : Contracts → Bytes → InstructionResult → Str).
Context (STOP_SELECTOR : Bytes) (keccak256 : Bytes → Z).
Implicit Types (s : St (D := D)).

(** The cheatcodes that start a recording or take what was recorded. *)
Definition keeps_recording (c : VmCall Other) : Prop :=
  match c with VmRecord (RecordLogs | GetRecordedLogs) => False | _ => True end.

Abbreviation recorded s := (Cheatcodes.recorded_logs (cheats s)).
Abbreviation keep_logs := (keeps (D := D) Cheatcodes.recorded_logs).

Definition logs_recorded (s : St (D := D)) (t : trace) (s' : St (D := D)) : Prop :=
  recorded s' = (λ l, l ++ logs_of t) <$> recorded s.

Lemma logs_silent s t s' : logs_of t = [] → keep_logs s s' → logs_recorded s t s'.
Proof. unfold keeps, logs_recorded. intros -> ->. destruct (recorded s); [|done]. cbn. by rewrite app_nil_r. Qed.

Lemma logs_cheat caller c : keeps_recording c → steps keep_logs (apply_cheat config caller c).
Proof. destruct c as [| | | | | | | | |[]| | | |]; try done; intros _; keep. Qed.

Lemma logs_call call : cheat_ok keeps_recording call → steps keep_logs (stack_call config call).
Proof. intros Hok. keep_call config keeps_recording logs_cheat. Qed.

Lemma logs_hook l s s' b : log_hook l s = Some (s', b) → recorded s' = (λ x, x ++ [l]) <$> recorded s.
Proof.
  unfold log_hook. intros (s1 & q & [= <- <-] & (s2 & r & H2 & (s3 & [] & [= <-] & [= <- _])%hbind_Some)%hbind_Some)%hbind_Some.
  cbn. f_equal. revert H2. destruct (Cheatcodes.expected_emits _); [by intros [= <- _]|].
  intros (s4 & x & H4 & (s5 & [] & [= <-] & [= <- _])%hbind_Some)%hbind_Some. cbn.
  destruct (handle_expect_emit _ _); [|done]. by injection H4 as <- _.
Qed.

Lemma logs_hooks d0 :
  Hooks config decoder_decode STOP_SELECTOR keccak256 logs_recorded (cheat_ok keeps_recording) d0.
Proof.
  split.
  - intros s. by apply logs_silent.
  - unfold logs_recorded, logs_of. intros s1 s2 s3 t1 t2 -> ->. rewrite bind_app.
    destruct (recorded s1); [|done]. cbn. by rewrite <-app_assoc.
  - intros g. apply (steps_mono (R1 := keep_logs)); [intros s s'; by apply logs_silent|keep].
  - intros d l s s' b _ Hs. unfold logs_recorded. by rewrite (logs_hook _ _ _ _ Hs).
  - intros i. apply (steps_mono (R1 := keep_logs)); [intros s s'; by apply logs_silent|keep].
  - intros r i. apply (steps_mono (R1 := keep_logs)); [intros s s'; by apply logs_silent|keep].
  - intros g s s' _ Hs. apply logs_silent; [done|]. eapply steps_use; [exact Hs|keep].
  - intros call s s' x _ Hok Hs. apply logs_silent; [done|]. by eapply logs_call.
  - intros call o s s' x _ Hs. apply logs_silent; [done|]. eapply steps_use; [exact Hs|keep].
  - intros input s s' x _ Hs. apply logs_silent; [done|]. eapply steps_use; [exact Hs|keep].
  - intros input o s s' x _ Hs. apply logs_silent; [done|]. eapply steps_use; [exact Hs|keep].
Qed.

(** C34: [vm.recordLogs] and [vm.getRecordedLogs]: the logs that are returned are
    those of the execution in between, in their order, whatever the depth of the
    frame that emitted them and whether or not that frame reverted later, and the
    recording then starts anew.  This holds for every execution that does not
    itself start a recording or take the recorded logs. *)
Theorem recorded_logs_returned s0 s s' d l x :
  vm_record RecordLogs s0 = Some (s, Ok []) →
  frame_ok (cheat_ok keeps_recording) l →
  run_frame config decoder_decode STOP_SELECTOR keccak256 d l s = Some (s', x) →
  vm_record GetRecordedLogs s' =
    Some (set_cheats (Cheatcodes.set_recorded_logs (Some []) (cheats s')) s', Ok (encode_returned (RetLogs (logs_of x.1)))).
Proof.
  intros [= <-] Hok Hrun. apply (run_frame_hooks _ _ _ _ (logs_hooks d)) in Hrun; [|lia|done].
  unfold logs_recorded in Hrun. cbn in Hrun. unfold vm_record, hbind, hpart. rewrite Hrun. done.
Qed.
End logs.

(** ** Deals taken back *)

Section deals.
Context {ET : EvmTypes} {FT : ForkTypes} {CT : CheatTypes} {D : Type} {EO : EvmOps D} {CO : CheatOps D}.
Context {IO : IterOrder} {AL : Alloy} (config : CheatsConfig).
Context (decoder_decode : Contracts → Bytes → InstructionResult → Str).
Implicit Types (s : St (D := D)).

Abbreviation deals s := (Cheatcodes.eth_deals (cheats s)).

(** The first deal of an account. *)
Definition first_deal (a : Z) (l : list DealRecord.t) : option DealRecord.t :=
  List.find (λ r, (DealRecord.address r =? a)%Z) l.

Definition js_balance (js : JournaledState) (a : Z) : option Z := (λ acc, balance (acc_info acc)) <$> js_state js !! a.

(** A deal gives the account its balance and remembers the one it had. *)
Lemma deal_recorded address new_balance s s' :
  vm_deal address new_balance s = Some (s', Ok []) →
  acc_balance s' address = Some new_balance ∧
  ∃ old, deals s' = deals s ++ [DealRecord.mk address old new_balance].
Proof.
  unfold vm_deal, htry. intros (s1 & r & H1 & Hs)%hbind_Some. destruct r as [acc|e]; [|done].
  assert (keeps Cheatcodes.eth_deals s s1) as Hk by (eapply steps_use; [exact H1|keep]).
  apply hbind_Some in Hs as (s2 & [] & [= <-] & (s3 & [] & [= <-] & [= <-])%hbind_Some). cbn.
  unfold acc_balance. cbn. rewrite lookup_insert_eq. split; [done|]. eexists. unfold keeps in Hk. by rewrite Hk.
Qed.

Lemma undo_deal_balance r js a :
  js_balance (undo_deal r js) a =
    if (DealRecord.address r =? a)%Z then (λ _, DealRecord.old_balance r) <$> js_balance js a else js_balance js a.
Proof.
  unfold undo_deal, js_balance. destruct (Z.eqb_spec (DealRecord.address r) a) as [<-|Hne].
  - destruct (js_state js !! DealRecord.address r) as [acc|] eqn:E; cbn; [by rewrite lookup_insert_eq|by rewrite E].
  - destruct (js_state js !! DealRecord.address r); [|done]. cbn. by rewrite lookup_insert_ne.
Qed.

(** Undone from the last to the first, what counts is the first. *)
Lemma undo_deals_balance l js a :
  js_balance (foldr undo_deal js l) a =
    match first_deal a l with
    | Some r => (λ _, DealRecord.old_balance r) <$> js_balance js a
    | None => js_balance js a
    end.
Proof.
  induction l as [|r l IH]; [done|]. cbn. rewrite undo_deal_balance, IH. unfold first_deal.
  destruct (_ =? _)%Z; [|done]. destruct (List.find _ l); [|done]. by destruct (js_balance js a).
Qed.

Lemma end_record_root reverted touch s : depth_of s = 0%Z → end_record reverted touch s = Some (s, tt).
Proof.
  intros Hd. unfold end_record, hbind, hget, hdepth. unfold depth_of in Hd. cbn. rewrite Hd.
  by destruct (_ ≫= pop_depth reverted) as [[]|].
Qed.

Lemma diagnose_journal call o s s' r :
  call_end_diagnose call o s = Some (s', r) → journaled_state (ecx s') = journaled_state (ecx s).
Proof. unfold call_end_diagnose, hbind, hpart, hget, hcheats, hret. repeat case_match; by intros [= <- _]. Qed.

(** The hook of a root call that reverted leaves the journal alone. *)
Lemma root_revert_journal call o s s' r :
  depth_of s = 0%Z → return_revert (CallOutcome.status o) = true → call_end_rest call o s = Some (s', r) →
  journaled_state (ecx s') = journaled_state (ecx s) ∧ return_revert (CallOutcome.status (default o r)) = true.
Proof.
  intros Hd Hr (s1 & [] & [= <-] & Hs)%hbind_Some. unfold hbind at 1 in Hs. rewrite end_record_root in Hs by done.
  apply hbind_Some in Hs as (s2 & d & [= <- <-] & (s3 & re & H3 & Hs)%hbind_Some).
  assert (journaled_state (ecx s3) = journaled_state (ecx s) ∧ from_option (λ o', CallOutcome.status o' = Revert) True re) as [Hj He].
  { revert H3. unfold hpart. destruct (call_end_emits _ _ _ _) as [q [oe|]] eqn:E; intros [= <- <-]; (split; [done|]); [|done].
    by apply call_end_emits_err in E. }
  destruct re as [oe|]; [injection Hs as <- <-; cbn in He |- *; by rewrite He|].
  apply hbind_Some in Hs as (s4 & rd & H4 & Hs). pose proof (diagnose_journal _ _ _ _ _ H4) as Hj4.
  apply diagnose_spec in H4. destruct rd as [od|].
  { injection Hs as <- <-. destruct H4 as [H4 _]. cbn. rewrite H4. split; [congruence|done]. }
  revert Hs. unfold call_end_root, hbind, hdepth, hget, hret. rewrite Hj4, Hj. unfold depth_of in Hd. rewrite Hd. cbn.
  unfold InterpreterResult.is_revert. unfold CallOutcome.status in Hr. rewrite Hr. intros [= <- <-]. cbn. split; [congruence|done].
Qed.

End deals.
Open Scope Z_scope.

(** ** Departures from the documentation *)

(** A second [vm.expectCall] for the same calldata only raises the count: the
    value and the gas it asks for are dropped. *)
Lemma second_expectation_dropped target calldata value gas min_gas e n m :
  tracked (target, calldata) m = Some (e, n) → ExpectedCallData.call_type e = NonCount →
  tracked (target, calldata) (expect_call target calldata value gas min_gas 1 NonCount m).1 =
    Some (ExpectedCallData.set_count (ExpectedCallData.count e + 1) e, n).
Proof.
  unfold tracked, expect_call. cbn. intros (x & Hx & He)%bind_Some Ht. rewrite Hx. cbn. rewrite He, Ht. cbn.
  rewrite lookup_insert_eq. cbn. by rewrite lookup_insert_eq.
Qed.

Section gaps.
Context {ET : EvmTypes} {FT : ForkTypes} {CT : CheatTypes} {D : Type} {EO : EvmOps D} {CO : CheatOps D}.
Context {IO : IterOrder} {AL : Alloy} (config : CheatsConfig).
Context (decoder_decode : Contracts → Bytes → InstructionResult → Str).
Implicit Types (s : St (D := D)).

(** A [vm.assumeNoRevert] that no call follows makes the root call end before
    the expected calls, events and creations are looked at, whatever they are. *)
Lemma assume_skips_expectations call o s a :
  depth_of s = 0 → is_cheatcode_call call = false → return_ok (CallOutcome.status o) = true →
  Cheatcodes.assume_no_revert (cheats s) = Some a → 0 ≤ AssumeNoRevert.depth a →
  ∃ s', stack_call_end config decoder_decode call o s = Some (s', o).
Proof.
  intros Hd Hc Ho Ha Hda. unfold stack_call_end, call_end. rewrite Hc.
  destruct (call_end_clean s) as [[s1 []]|] eqn:E; [|exfalso].
  2:{ revert E. unfold call_end_clean, clean_broadcast, hbind, hdepth, hget, hprank, hecx, hcheats, hret. by repeat case_match. }
  pose proof (steps_use _ _ _ _ E depth_clean) as Hd1. unfold same_depth in Hd1.
  assert (keeps Cheatcodes.assume_no_revert s s1) as Ha1 by (eapply steps_use; [exact E|keep]).
  unfold keeps in Ha1. rewrite Ha in Ha1.
  assert (InterpreterResult.is_revert (CallOutcome.result o) = false) as Hr.
  { unfold InterpreterResult.is_revert. unfold CallOutcome.status in Ho. by destruct (InterpreterResult.result _). }
  assert (call_end_reverts config decoder_decode call o s1 =
          Some (set_cheats (Cheatcodes.set_assume_no_revert None (cheats s1)) s1, Some o)) as Hrev.
  { unfold call_end_reverts, hbind, hdepth, hget, hpart, call_end_assume. rewrite Ha1, Hr. cbn.
    rewrite Hc. unfold depth_of in *. rewrite (proj2 (Z.leb_le _ _)) by lia. done. }
  unfold hbind. rewrite E, Hrev. cbn.
  assert (keep_different o o = o) as ->. { unfold keep_different. by case_decide. }
  unfold top_level_frame_end, hbind, hdepth, hget. cbn.
  assert (return_revert (CallOutcome.status o) = false) as -> by exact Hr.
  rewrite andb_false_r. by eexists.
Qed.

(** Stopping a snapshot removes the records of all snapshots with its group or
    its name, so these cannot be stopped any more. *)
Lemma stop_drops_records group name s s' b :
  inner_stop_gas_snapshot (Some group) (Some name) s = Some (s', Ok b) →
  Forall (λ r, GasRecord.group r ≠ group ∧ GasRecord.name r ≠ name) (GasMetering.gas_records (Cheatcodes.gas_metering (cheats s'))).
Proof.
  unfold inner_stop_gas_snapshot. intros (s1 & g & [= <- <-] & (s2 & n & [= <- <-] & Hs)%hbind_Some)%hbind_Some.
  destruct (List.find _ _); [|done]. apply hbind_Some in Hs as (s3 & [] & [= <-] & (s4 & [] & [= <-] & [= <- _])%hbind_Some).
  cbn. apply Forall_forall. intros r Hr. by apply list_elem_of_filter in Hr as [? _].
Qed.

(** [vm.stopAndReturnStateDiff] goes on recording. *)
Lemma state_diff_goes_on s s' r :
  vm_record StopAndReturnStateDiff s = Some (s', r) → Cheatcodes.recorded_account_diffs_stack (cheats s') = Some [].
Proof. intros (s1 & l & [= <- <-] & [= <- _])%hbind_Some. done. Qed.
End gaps.
