(* ===== verification/InspectorExample.v ===== *)
(** A small instance of the parameters of the inspector, and executions under
    it that the theorems apply to. *)
From stdpp Require Import strings gmap.
From S2P Require Import Prelude Radix Database MultiFork ForkBackend ForkTransact Pranks Frames ExpectEmit ExpectEmitTheorems ExpectRevert ExpectCall Mocks StateDiffs Mapping Cheats Inspector InspectorStep InspectorRun InspectorTheorems InspectorExpects InspectorReverts.
Open Scope Z_scope.

Module Example.
Definition evm : EvmTypes := {| Bytecode := Bytes; ForkBackend.Log := unit; JournalEntry := unit; JsRest := unit; MemExt := unit; SpecId := unit |}.
Definition fork : ForkTypes :=
  {| SharedBackend := unit; CfgEnv := unit; OptsRest := unit; BlobExcessGasAndPrice := unit; AccessListItem := unit; AuthorizationList := unit |}.
Definition types : CheatTypes := {| SignedAuthorization := unit; Wallets := unit; Contracts := unit; Rest := unit |}.
#[local] Existing Instances evm fork types.

(** A database that has nothing beyond the journal. *)
Definition load (a : Z) (js : JournaledState) : result Account Error :=
  match js_state js !! a with Some acc => Ok acc | None => Err (ErrStr []) end.

Definition ops : EvmOps unit := {|
  ev_load_account a js d := (js, d, load a js);
  ev_sload a k js d := (js, d, match load a js with
                               | Ok acc => Ok (from_option present_value 0 (acc_storage acc !! k), true)
                               | Err e => Err e end);
  ev_code a js d := (js, d, match load a js with Ok acc => Ok (default [] (code (acc_info acc))) | Err e => Err e end);
  ev_balance a js d := (js, d, match load a js with Ok acc => Ok (balance (acc_info acc)) | Err e => Err e end);
  ev_touch _ js := js;
  ev_set_code _ _ js := js;
  ev_chain_id _ := 31337;
  info_exists _ := true;
  code_is_empty c := bool_decide (c = []);
  code_new_raw b := b;
  original_bytes b := b;
  created_address i n := CreateInput.caller i + n + 1;
  db_active_fork_id _ := None;
  db_active_fork_url d := (d, None);
  db_diagnose_revert _ _ _ := None;
  db_has_cheatcode_access _ _ := true;
  db_allow_cheatcode_access _ d := d;
  wallets_default := tt;
  provided_sender _ := None;
  signers w := (w, Ok []);
  parse_wallet k := Ok k;
  add_local_signer _ w := w |}.

(** The cheatcodes that are used below, each with an encoding of one byte. *)
Definition cheats_ops : CheatOps unit := {|
  Other := unit;
  decode_call b := match b with
                   | [1] => Ok (VmRecord RecordLogs)
                   | [2] => Ok (VmRecord GetRecordedLogs)
                   | [3] => Ok (VmExpectCall (ExpectCall_1 5 [9] 1))
                   | [4] => Ok (VmRevert (ExpectRevert_1 [7; 7]))
                   | [5] => Ok (VmMemory (ExpectSafeMemory 128 256))
                   | _ => Err (ErrStr (str "unknown cheatcode"))
                   end;
  encode_returned _ := [];
  other_name _ := [];
  apply_other _ _ o e := (o, e, Ok []) |}.
Definition order : IterOrder := default_iter_order.
Definition alloy : Alloy := EmitExample.alloy.
#[local] Existing Instances ops cheats_ops order alloy.

Definition config : CheatsConfig := mk_config false None false false None.
Definition decode (_ : Contracts) (_ : Bytes) (_ : InstructionResult) : Str := [].
Definition keccak (b : Bytes) : Z := be_word b.
Definition STOP : Bytes := [1; 2; 3; 4].

(** Two accounts, a test contract and the one it calls. *)
Definition account (b : Z) : Account := mk_account (mk_info b 0 0 None) ∅ false false 0.
Definition env : Env := mk_env 1 1 (mk_block_rest 0 30000000 0 0 None None) tt 1 None
  (mk_tx_rest (Some 4) 30000000 0 None 0 [] None [] [] None None).
Definition start : St := mk_st (Cheatcodes.new ∅ tt)
  (mk_ecx (mk_js {[4 := account 10; 5 := account 20]} [] 1 [] tt) env tt).

Definition call (to : Z) (input : Bytes) : Call.t := Call.mk input (0, 0) 1000000 to to 4 (Transfer 0) SchemeCall false.
Definition result (s : InstructionResult) (o : Bytes) : InterpreterResult.t := InterpreterResult.mk s o (Gas.new 1000).
Definition keep (js : JournaledState) (d : unit) : JournaledState * unit := (js, d).
Definition log (a : Z) (t : list Z) : Log.t := Log.mk a (t, []).

(** Contract 5 logs and is called again from its own frame, which reverts. *)
Definition callee : list action :=
  [ALog (log 5 [1]); ACall (call 5 [9; 8]) (Some (Gas.new 500, [ALog (log 5 [2])])) (result Revert [7; 7]) keep; ALog (log 5 [3])].
Definition test : list action :=
  [ALog (log 4 [0]); ACall (call 5 [8]) (Some (Gas.new 1000, callee)) (result Return []) keep; ALog (log 4 [4])].
End Example.

#[local] Existing Instances Example.evm Example.fork Example.types Example.ops Example.cheats_ops Example.order Example.alloy.
Import Example.

Lemma no_cheats P : frame_ok (cheat_ok (D := unit) P) test.
Proof. repeat constructor; intros [=]. Qed.

(** ** Recorded logs *)

Lemma recorded_logs_returned_witness :
  ∃ s s' x,
    vm_record RecordLogs start = Some (s, Ok []) ∧ run_frame config decode STOP keccak 1 test s = Some (s', x) ∧
    logs_of x.1 = [log 4 [0]; log 5 [1]; log 5 [2]; log 5 [3]; log 4 [4]] ∧
    vm_record GetRecordedLogs s' =
      Some (set_cheats (Cheatcodes.set_recorded_logs (Some []) (cheats s')) s', Ok (encode_returned (RetLogs (logs_of x.1)))).
Proof.
  destruct (vm_record RecordLogs start) as [[s r]|] eqn:E0; [|exfalso; by vm_compute in E0].
  assert (r = Ok []) as -> by (by injection E0 as _ <-). assert (s = mk_st (Cheatcodes.set_recorded_logs (Some []) (cheats start)) (ecx start)) as Hs by (by injection E0 as <-).
  destruct (run_frame config decode STOP keccak 1 test s) as [[s' x]|] eqn:E; [|exfalso; subst s; by vm_compute in E].
  exists s, s', x. split; [done|]. split; [done|]. split.
  - subst s. vm_compute in E. injection E as _ <-. reflexivity.
  - exact (recorded_logs_returned config decode STOP keccak start s s' 1 test x E0 (no_cheats _) E).
Defined.

(** ** Expected calls *)

Lemma loads : load_keeps_depth (D := unit).
Proof. done. Qed.

Definition at_root (s : St (D := unit)) : St := set_ecx (set_js (set_depth 0 (journaled_state (ecx s))) (ecx s)) s.
Definition outcome (s : InstructionResult) : CallOutcome.t := CallOutcome.mk (result s []) (0, 0).


(** ** Expected reverts *)

Definition expected_state : St := mk_st
  (Cheatcodes.set_expected_revert (Some (ExpectedRevert.mk (Some [7; 7]) 1 DefaultKind false None None 1 1 0)) (cheats start)) (ecx start).
Definition reverting : Call.t := call 5 [9].


(** ** Expected events *)

Definition decls : list (EmitCheat * Log.t) := [(ExpectEmit_0 true true true true, log 4 [2]); (ExpectEmit_0 true true true true, log 4 [3])].
Definition emits_state : St := mk_st
  (Cheatcodes.set_expected_emits ((λ e, (e, ∅)) <$> (declared 1 <$> decls)) (cheats start)) (ecx start).


(** ** Memory *)

Definition memory_state : St := mk_st (Cheatcodes.set_allowed_mem_writes {[1 := [(0, 96); (128, 256)]]} (cheats start)) (ecx start).
Definition store (offset : Z) : Interp.t := Interp.mk MSTORE [offset; 5] [] (Gas.new 1000) 4 Continue None.


(** ** Deals *)

Definition dealt_state : St := at_root (mk_st
  (Cheatcodes.set_eth_deals [DealRecord.mk 5 20 100; DealRecord.mk 5 100 7] (cheats start))
  (set_js (set_state {[4 := account 10; 5 := account 7]} (journaled_state (ecx start))) (ecx start))).

