(* ===== verification/Contracts.v ===== *)
(** The contracts of a project (common/src/contracts.rs): finding the artifact
    that some code belongs to, by similarity, exactly, or by name; and
    [get_function] (evm/core/src/utils.rs).

    A [BTreeMap] is the list of its entries in the order of the keys.  The ABI
    types and the ids of artifacts belong to alloy and to the compiler. *)
From S2P Require Import Prelude Radix Pranks Frames.

(** ** Data *)

(** [Function], [Event] and [ArtifactId]. *)
Class AbiTypes := {
  Function : Type;
  function_eq :: EqDecision Function;
  fn_name : Function → Str;
  (** the selector, four bytes computed from the signature *)
  selector : Function → Bytes;
  is_view_or_pure : Function → bool;
  no_outputs : Function → bool;
  no_inputs : Function → bool;
  Event : Type;
  event_selector : Event → Z;
  AbiError : Type;
  error_name : AbiError → Str;
  ArtifactId : Type;
  artifact_name : ArtifactId → Str;
  (** [artifact.source == PathBuf::from(path)] *)
  source_is : ArtifactId → Str → bool;
  identifier : ArtifactId → Str;
  (** [Bytes::from_str] *)
  bytes_from_str : Str → option Bytes
}.

Section contracts.
Context `{AbiTypes}.

Record JsonAbi := mk_abi {
  abi_functions : list (Str * list Function);
  abi_events : list (Str * list Event);
  abi_errors : list (Str * list AbiError) }.

(** [abi.functions()], [abi.events()] and [abi.errors()] *)
Definition functions (abi : JsonAbi) : list Function := abi_functions abi ≫= snd.
Definition events (abi : JsonAbi) : list Event := abi_events abi ≫= snd.
Definition errors (abi : JsonAbi) : list AbiError := abi_errors abi ≫= snd.

Record Offsets := mk_offsets { start : nat; off_length : nat }.

Inductive BytecodeObject := Linked (bytes : Bytes) | Unlinked (hex : Str).

Definition as_bytes (o : BytecodeObject) : option Bytes :=
  match o with Linked b => Some b | Unlinked _ => None end.

Record BytecodeData := mk_bytecode {
  object : option BytecodeObject;
  data_link_references : list (Str * list (Str * list Offsets));
  immutable_references : list (Str * list Offsets) }.

Definition data_bytes (b : BytecodeData) : option Bytes := object b ≫= as_bytes.

Record ContractData := mk_data {
  data_name : Str; abi : JsonAbi;
  bytecode : option BytecodeData; deployed_bytecode : option BytecodeData }.

Definition non_empty (b : option Bytes) : option Bytes := b ≫= λ b, if decide (b = []) then None else Some b.

Definition contract_bytecode (c : ContractData) : option Bytes := non_empty (bytecode c ≫= data_bytes).
Definition contract_deployed_bytecode (c : ContractData) : option Bytes :=
  non_empty (deployed_bytecode c ≫= data_bytes).

Abbreviation ContractsByArtifact := (list (ArtifactId * ContractData)).
(** [ContractsByAddress] *)
Abbreviation ContractsByAddress := (list (Z * (Str * JsonAbi))).

(** ** Similar code *)

(** A quotient of lengths, as numerator and denominator: for lengths below
    [2^26] the quotients are ordered like the [f64] they are rounded to. *)
Definition Score : Type := nat * nat.
Definition score_cmp (x y : Score) : comparison := Nat.compare (x.1 * y.2) (y.1 * x.2).
Definition score_le (x y : Score) : bool := (x.1 * y.2 <=? y.1 * x.2)%nat.

Fixpoint count_different_bytes (a b : Bytes) : nat :=
  match a, b with
  | x :: a, y :: b => (if (x =? y)%Z then 0 else 1) + count_different_bytes a b
  | _, _ => 0
  end.

Definition bytecode_diff_score (a b : Bytes) : Score :=
  let '(a, b) := if (length a <? length b)%nat then (b, a) else (a, b) in
  let n_different_bytes := length a - length b in
  if (32 <? n_different_bytes)%nat && (length a <? n_different_bytes * 10)%nat then (1, 1)
  else (n_different_bytes + count_different_bytes a b, length a).

(** [min_by]: the first of the least elements. *)
Definition min_by {A} (cmp : A → A → comparison) (l : list A) : option A :=
  foldl (λ m x, match m with
                | None => Some x
                | Some y => match cmp y x with Gt => Some x | _ => Some y end
                end) None l.

Definition find_by_code (cs : ContractsByArtifact) (code : Bytes) (accepted_score : Score)
    (get : ContractData → option Bytes) : option (ArtifactId * ContractData) :=
  snd <$> min_by (λ x y, score_cmp x.1 y.1)
    (omap (λ c, deployed_bytecode ← get c.2;
                let score := bytecode_diff_score deployed_bytecode code in
                if score_le score accepted_score then Some (score, c) else None) cs).

Definition find_by_creation_code (cs : ContractsByArtifact) (code : Bytes) : option (ArtifactId * ContractData) :=
  find_by_code cs code (1, 10) contract_bytecode.
Definition find_by_deployed_code (cs : ContractsByArtifact) (code : Bytes) : option (ArtifactId * ContractData) :=
  find_by_code cs code (15, 100) contract_deployed_bytecode.

(** ** Exact code *)

Definition CALL_PROTECTION_BYTECODE_PREFIX : Bytes := 0x73%Z :: replicate 20 0%Z.

(** [l[a..b]], which panics out of range. *)
Definition slice {A} (l : list A) (a b : nat) : option (list A) :=
  if decide (a ≤ b ≤ length l) then Some (take (b - a) (drop a l)) else None.

Definition starts_with (l p : Bytes) : bool := bool_decide (take (length p) l = p).

Definition object_len (o : BytecodeObject) : nat :=
  match o with Linked b => length b | Unlinked s => length s / 2 end.

(** The bytes from [left] to [right], if they can be decoded, against the code. *)
Definition part_matches (o : BytecodeObject) (code : Bytes) (left right : nat) : option bool :=
  match o with
  | Linked bytes =>
      x ← slice bytes left right; y ← slice code left right; Some (bool_decide (x = y))
  | Unlinked s =>
      x ← slice s (left * 2) (right * 2);
      match bytes_from_str x with
      | Some b => y ← slice code left right; Some (bool_decide (b = y))
      | None => Some false
      end
  end.

(** [deployed_code[left..] == code[left..]] *)
Definition tail_matches (o : BytecodeObject) (code : Bytes) (left : nat) : option bool :=
  match o with
  | Linked bytes =>
      x ← slice bytes left (length bytes); y ← slice code left (length code); Some (bool_decide (x = y))
  | Unlinked s =>
      x ← slice s (left * 2) (length s);
      match bytes_from_str x with
      | Some b => y ← slice code left (length code); Some (bool_decide (b = y))
      | None => Some false
      end
  end.

Definition has_call_protection (o : BytecodeObject) : option bool :=
  match o with
  | Linked bytes => Some (starts_with bytes CALL_PROTECTION_BYTECODE_PREFIX)
  | Unlinked s =>
      x ← slice s 0 (length CALL_PROTECTION_BYTECODE_PREFIX * 2);
      Some (from_option (λ b, starts_with b CALL_PROTECTION_BYTECODE_PREFIX) false (bytes_from_str x))
  end.

(** The offsets that are not compared, by where they start. *)
Definition ignored_offsets (d : BytecodeData) (protected : bool) : list Offsets :=
  sort_by (λ x y, Nat.compare (start x) (start y))
    ((immutable_references d ≫= snd) ++ ((data_link_references d ≫= snd) ≫= snd) ++
     (if protected then [mk_offsets 1 20] else [])).

(** The loop over the offsets, and what follows it. *)
Fixpoint matches_between (o : BytecodeObject) (code : Bytes) (left : nat) (ignored : list Offsets) : option bool :=
  match ignored with
  | [] => if (left <? length code)%nat then tail_matches o code left else Some true
  | offset :: ignored =>
      matched ← part_matches o code left (start offset);
      if matched : bool then matches_between o code (start offset + off_length offset) ignored else Some false
  end.

Definition deployed_code_matches (code : Bytes) (c : ContractData) : option bool :=
  match deployed_bytecode c with
  | None => Some false
  | Some d =>
      match object d with
      | None => Some false
      | Some o =>
          if negb (object_len o =? length code)%nat then Some false
          else
            protected ← has_call_protection o;
            matches_between o code 0 (ignored_offsets d protected)
      end
  end.

Fixpoint find_exact (code : Bytes) (cs : ContractsByArtifact) : option (option (ArtifactId * ContractData)) :=
  match cs with
  | [] => Some None
  | c :: cs =>
      matched ← deployed_code_matches code c.2;
      if matched : bool then Some (Some c) else find_exact code cs
  end.

Definition find_by_deployed_code_exact (cs : ContractsByArtifact) (code : Bytes) :
    option (option (ArtifactId * ContractData)) :=
  if decide (code = []) then Some None else find_exact code cs.

(** ** Names *)

Definition find_by_name_or_identifier (cs : ContractsByArtifact) (id : Str) :
    result (option (ArtifactId * ContractData)) Str :=
  let contracts := filter (λ c, artifact_name c.1 = id ∨ identifier c.1 = id) cs in
  if (1 <? length contracts)%nat then Err (id ++ str " has more than one implementation.")
  else Ok (head contracts).

(** [s.split(sep).next().unwrap()] *)
Fixpoint until (sep : ascii) (s : Str) : Str :=
  match s with [] => [] | c :: s => if decide (c = sep) then [] else c :: until sep s end.

Definition find_abi_by_name_or_identifier (cs : ContractsByArtifact) (id : Str) : option JsonAbi :=
  (λ c, abi c.2) <$>
    List.find (λ c, bool_decide (until "."%char (artifact_name c.1) = id) || bool_decide (identifier c.1 = id)) cs.

Definition find_abi_by_name_or_src_path (cs : ContractsByArtifact) (name_or_path : Str) : option (JsonAbi * Str) :=
  (λ c, (abi c.2, data_name c.2)) <$>
    List.find (λ c, bool_decide (artifact_name c.1 = name_or_path) || source_is c.1 name_or_path) cs.

(** [abi.functions().find(|func| func.selector() == selector)] *)
Definition find_function (abi : JsonAbi) (sel : Bytes) : option Function :=
  List.find (λ f, bool_decide (selector f = sel)) (functions abi).

Definition get_function (contract_name : Str) (sel : Bytes) (abi : JsonAbi) : result Function Str :=
  match find_function abi sel with
  | Some f => Ok f
  | None => Err (contract_name ++ str " does not have the selector " ++ encode_prefixed sel)
  end.

(** ** What an exact match means *)

(** The offsets that are ignored do not overlap and lie in the code. *)
Definition separate (x y : Offsets) : Prop :=
  start x + off_length x ≤ start y ∨ start y + off_length y ≤ start x.
Definition offsets_ok (len : nat) (l : list Offsets) : Prop :=
  ForallOrdPairs separate l ∧ Forall (λ o, 0 < off_length o ∧ start o + off_length o ≤ len) l.

Definition covered (l : list Offsets) (i : nat) : Prop :=
  Exists (λ o, start o ≤ i < start o + off_length o) l.

(** One code is the other up to what is ignored. *)
Definition same_code (l : list Offsets) (x y : Bytes) : Prop :=
  length x = length y ∧ ∀ i, ¬ covered l i → x !! i = y !! i.

Lemma slice_eq {A} (x y : list A) a b :
  a ≤ b → b ≤ length x → b ≤ length y →
  take (b - a) (drop a x) = take (b - a) (drop a y) ↔ ∀ i, a ≤ i < b → x !! i = y !! i.
Proof.
  intros Hab Hx Hy. split.
  - intros He i Hi. pose proof (f_equal (λ l, l !! (i - a)) He) as Hl. cbn in Hl.
    rewrite !lookup_take_lt, !lookup_drop in Hl by lia. by replace (a + (i - a)) with i in Hl by lia.
  - intros He. apply list_eq. intros i. destruct (decide (i < b - a)).
    + rewrite !lookup_take_lt, !lookup_drop by lia. apply He. lia.
    + by rewrite !lookup_take_ge by lia.
Qed.

(** Offsets one after another from [left] on. *)
Fixpoint chain (left len : nat) (l : list Offsets) : Prop :=
  match l with
  | [] => left ≤ len
  | o :: l => left ≤ start o ∧ start o + off_length o ≤ len ∧ chain (start o + off_length o) len l
  end.

Lemma chain_covered left len l i : chain left len l → covered l i → left ≤ i.
Proof.
  unfold covered. revert left. induction l as [|o l IH]; intros left; [intros _ H0; by inversion H0|].
  intros (Hl & _ & Hc) Hi%Exists_cons. destruct Hi as [Hi|Hi]; [lia|]. specialize (IH _ Hc Hi). lia.
Qed.

Lemma matches_between_linked bytes code left l :
  length bytes = length code → chain left (length code) l →
  ∃ b, matches_between (Linked bytes) code left l = Some b ∧
       (b = true ↔ ∀ i, left ≤ i → ¬ covered l i → bytes !! i = code !! i).
Proof.
  intros Hlen. revert left. induction l as [|o l IH]; intros left; cbn [chain matches_between].
  - intros Hl. destruct (Nat.ltb_spec left (length code)) as [Hlt|Hge].
    + unfold tail_matches, slice. rewrite !decide_True by lia. cbn. eexists. split; [done|].
      rewrite bool_decide_eq_true, Hlen, slice_eq by lia. split.
      * intros He i Hi _. destruct (decide (i < length code)); [apply He; lia|].
        rewrite !lookup_ge_None_2 by lia. done.
      * intros He i Hi. apply He; [lia|]. intros Hc. by inversion Hc.
    + exists true. split; [done|]. split; [|done]. intros _ i Hi _. rewrite !lookup_ge_None_2 by lia. done.
  - intros (Hl & Hb & Hc). unfold part_matches, slice. rewrite !decide_True by lia. cbn.
    case_bool_decide as He.
    + rewrite slice_eq in He by lia. destruct (IH _ Hc) as (b & -> & Hb'). exists b. split; [done|]. rewrite Hb'. split.
      * intros Ha i Hi Hn. destruct (decide (i < start o)) as [Hs|Hs]; [apply He; lia|]. apply Ha.
        -- destruct (decide (i < start o + off_length o)) as [Hi2|Hi2]; [|lia]. destruct Hn. constructor. lia.
        -- intros Hcov. apply Hn. by constructor 2.
      * intros Ha i Hi Hn. apply Ha; [lia|]. intros [Hi2|Hi2]%Exists_cons; [lia|done].
    + exists false. split; [done|]. split; [done|]. intros Ha. destruct He. apply slice_eq; [lia..|].
      intros i Hi. apply Ha; [lia|]. intros [Hi2|Hi2]%Exists_cons; [lia|]. apply (chain_covered _ _ _ _ Hc) in Hi2. lia.
Qed.

#[local] Instance separate_sym : Symmetric separate.
Proof. intros x y [?|?]; [by right|by left]. Qed.

Lemma pairs_perm {A} (R : relation A) `{!Symmetric R} l k : l ≡ₚ k → ForallOrdPairs R l → ForallOrdPairs R k.
Proof.
  induction 1 as [|x l k Hp IH|x y l|l k m _ IH1 _ IH2]; [done|..].
  - inversion_clear 1 as [|?? Hx Hl]. constructor; [|auto]. by rewrite <-Hp.
  - inversion_clear 1 as [|?? Hx Hl]. inversion_clear Hl as [|?? Hy Hl2]. apply Forall_cons in Hx as [Hxy Hx].
    constructor; [constructor; [by symmetry|done]|]. by constructor.
  - auto.
Qed.

Lemma offsets_chain len left l :
  StronglySorted (λ x y, Nat.compare (start x) (start y) ≠ Gt) l → offsets_ok len l →
  Forall (λ o, left ≤ start o) l → left ≤ len → chain left len l.
Proof.
  revert left. induction l as [|o l IH]; intros left Hs [Hp Hf] Hl Hlen; [done|].
  inversion_clear Hs as [|?? Hs1 Hs2]. inversion_clear Hp as [|?? Hp1 Hp2].
  apply Forall_cons in Hf as [[Ho1 Ho2] Hf]. apply Forall_cons in Hl as [Hl1 Hl2].
  cbn. split_and!; [done..|]. apply IH; [done|by split| |done].
  rewrite Forall_forall in *. intros y Hy. specialize (Hs2 y Hy). specialize (Hp1 y Hy). specialize (Hf y Hy).
  rewrite Nat.compare_gt_iff in Hs2. destruct Hp1; lia.
Qed.

Lemma by_start_sorted l :
  StronglySorted (λ x y, Nat.compare (start x) (start y) ≠ Gt) (sort_by (λ x y, Nat.compare (start x) (start y)) l).
Proof. apply sort_by_sorted; intros *; rewrite !Nat.compare_gt_iff; lia. Qed.

(** What is ignored in the code of a contract, unsorted. *)
Definition ignored_parts (d : BytecodeData) (bytes : Bytes) : list Offsets :=
  (immutable_references d ≫= snd) ++ ((data_link_references d ≫= snd) ≫= snd) ++
  (if starts_with bytes CALL_PROTECTION_BYTECODE_PREFIX then [mk_offsets 1 20] else []).

(** A contract whose deployed code is linked, with its references in order. *)
Definition contract_ok (c : ContractData) : Prop :=
  ∀ d o, deployed_bytecode c = Some d → object d = Some o →
    ∃ bytes, o = Linked bytes ∧ offsets_ok (length bytes) (ignored_parts d bytes).

(** The contract has that code up to its references. *)
Definition has_code (code : Bytes) (c : ContractData) : Prop :=
  ∃ d bytes, deployed_bytecode c = Some d ∧ object d = Some (Linked bytes) ∧
    same_code (ignored_parts d bytes) bytes code.

Lemma deployed_code_matches_spec code c :
  contract_ok c → ∃ b, deployed_code_matches code c = Some b ∧ (b = true ↔ has_code code c).
Proof.
  intros Hok. unfold deployed_code_matches, has_code. destruct (deployed_bytecode c) as [d|] eqn:Ed; [|naive_solver].
  destruct (object d) as [o|] eqn:Eo; [|naive_solver]. destruct (Hok _ _ Ed Eo) as (bytes & -> & Hoff). cbn.
  destruct (Nat.eqb_spec (length bytes) (length code)) as [Hlen|Hlen]; cbn; last first.
  { exists false. split; [done|]. split; [done|]. intros (d' & b' & [= <-] & Hb & Hs & _). congruence. }
  set (l := ignored_offsets d _).
  assert (l ≡ₚ ignored_parts d bytes) as Hperm by apply sort_by_perm.
  destruct (matches_between_linked bytes code 0 l Hlen) as (b & -> & Hb).
  { rewrite <-Hlen. apply offsets_chain; [apply by_start_sorted| |by apply Forall_forall; intros; lia|lia].
    destruct Hoff as [H1 H2]. split; [by eapply (pairs_perm separate); [symmetry; exact Hperm|]|by rewrite Hperm]. }
  exists b. split; [done|]. rewrite Hb.
  assert (∀ i, covered l i ↔ covered (ignored_parts d bytes) i) as Hcov.
  { intros i. unfold covered. rewrite !Exists_exists. by setoid_rewrite Hperm. }
  split.
  - intros Ha. exists d, bytes. split_and!; [done..|]. split; [done|]. intros i Hi. apply Ha; [lia|]. by rewrite Hcov.
  - intros (d' & b' & [= <-] & Hb' & _ & Hs) i _ Hi. rewrite Hb' in Eo. injection Eo as ->. apply Hs. by rewrite <-Hcov.
Qed.

End contracts.

(** ** An example *)

Module ContractExample.
(** Functions by name, selector and whether they are views. *)
Definition types : AbiTypes := {|
  Function := Str * Bytes * bool; fn_name f := f.1.1; selector f := f.1.2; is_view_or_pure f := f.2;
  no_outputs _ := true; no_inputs _ := true; Event := Z; event_selector e := e; AbiError := Str; error_name e := e;
  ArtifactId := Str; artifact_name i := i; source_is _ _ := false; identifier i := str "src:" ++ i;
  bytes_from_str _ := None |}.
#[local] Existing Instance types.

(** A contract with two bytes of an immutable. *)
Definition contract : ContractData :=
  mk_data (str "A") (mk_abi [] [] []) None
    (Some (mk_bytecode (Some (Linked [96; 0; 0; 91]%Z)) [] [(str "1", [mk_offsets 1 2])])).
Definition contracts : list (ArtifactId * ContractData) := [(str "A", contract)].
End ContractExample.

