(* ===== verification/FuzzTargets.v ===== *)
(** What an invariant test calls: the targeted contracts and their functions,
    the filters on artifacts and senders (evm/fuzz/src/invariant/mod.rs and
    filters.rs), and how they are chosen from what the test contract declares
    (evm/evm/src/executors/invariant/mod.rs).

    The targets are shared by the fuzzer and the test behind a lock; they are
    passed along as a value. *)
From S2P Require Import Prelude Radix Database MultiFork ForkBackend Pranks Frames Contracts.

(** [?] on a [Result]. *)
Notation "'let?' x := r 'in' k" := (match r with Ok x => k | Err e => Err e end)
  (at level 10, x pattern, r at level 100, k at level 200).

Module BasicTxDetails.
Record t := mk { sender : Z; target : Z; calldata : Bytes }.
End BasicTxDetails.

(** A [BTreeMap] is iterated in the order of its keys. *)
Definition btree_iter {V} (m : gmap Z V) : list (Z * V) :=
  sort_by (λ x y, Z.compare x.1 y.1) (map_to_list m).

(** ** Targeted contracts *)

Module TargetedContract.
Section targeted.
Context `{AbiTypes}.

Record t := mk {
  identifier : Str; abi : JsonAbi; targeted_functions : list Function; excluded_functions : list Function }.

Definition new (identifier : Str) (abi : JsonAbi) : t := mk identifier abi [] [].

Definition abi_fuzzed_functions (c : t) : list Function :=
  match targeted_functions c with
  | [] => filter (λ f, is_view_or_pure f = false ∧ f ∉ excluded_functions c) (functions (abi c))
  | fs => fs
  end.

Definition get_function (c : t) (sel : Bytes) : result Function Str :=
  Contracts.get_function (identifier c) sel (abi c).

(** The functions that were added before an error stay. *)
Fixpoint add_selectors (selectors : list Bytes) (should_exclude : bool) (c : t) : t * result unit Str :=
  match selectors with
  | [] => (c, Ok tt)
  | sel :: selectors =>
      match get_function c sel with
      | Err e => (c, Err e)
      | Ok f =>
          add_selectors selectors should_exclude
            (if should_exclude
             then mk (identifier c) (abi c) (targeted_functions c) (excluded_functions c ++ [f])
             else mk (identifier c) (abi c) (targeted_functions c ++ [f]) (excluded_functions c))
      end
  end.
End targeted.
#[global] Arguments t {_}.
#[global] Arguments mk {_}.
End TargetedContract.

Section targets.
Context `{AbiTypes}.

Abbreviation TargetedContracts := (gmap Z TargetedContract.t).

(** [f.selector() == calldata[..4]], which panics on less than four bytes. *)
Definition called_function (abi : JsonAbi) (calldata : Bytes) : option (option Function) :=
  match functions abi with
  | [] => Some None
  | _ => sel ← get_prefix 4 calldata; Some (find_function abi sel)
  end.

Definition fuzzed_artifacts (ts : TargetedContracts) (tx : BasicTxDetails.t) :
    option (option JsonAbi * option Function) :=
  match ts !! BasicTxDetails.target tx with
  | Some c =>
      f ← called_function (TargetedContract.abi c) (BasicTxDetails.calldata tx);
      Some (Some (TargetedContract.abi c), f)
  | None => Some (None, None)
  end.

Definition fuzzed_functions (ts : TargetedContracts) : list (Z * Function) :=
  filter (λ x, abi_functions (TargetedContract.abi x.2) ≠ []) (btree_iter ts) ≫= λ x,
    (x.1,.) <$> TargetedContract.abi_fuzzed_functions x.2.

Definition fuzzed_metric_key (ts : TargetedContracts) (tx : BasicTxDetails.t) : option (option Str) :=
  match ts !! BasicTxDetails.target tx with
  | Some c =>
      option_map (option_map (λ f, TargetedContract.identifier c ++ str "." ++ fn_name f))
        (called_function (TargetedContract.abi c) (BasicTxDetails.calldata tx))
  | None => Some None
  end.

(** ** Filters *)

Record ArtifactFilters := mk_filters { targeted : gmap Str (list Bytes); excluded : list Str }.

Definition filter_matches (f : ArtifactFilters) (identifier : Str) : bool :=
  (bool_decide (targeted f = ∅) || bool_decide (is_Some (targeted f !! identifier))) &&
  (bool_decide (excluded f = []) || negb (existsb (λ id, bool_decide (id = identifier)) (excluded f))).

(** [collect::<Result<Vec<_>>>] *)
Fixpoint get_functions (name : Str) (abi : JsonAbi) (selectors : list Bytes) : result (list Function) Str :=
  match selectors with
  | [] => Ok []
  | sel :: selectors =>
      let? f := get_function name sel abi in
      let? fs := get_functions name abi selectors in Ok (f :: fs)
  end.

Definition get_targeted_functions (f : ArtifactFilters) (artifact : ArtifactId) (abi : JsonAbi) :
    result (option (list Function)) Str :=
  match targeted f !! identifier artifact with
  | Some selectors =>
      let? fs := get_functions (artifact_name artifact) abi selectors in
      if bool_decide (fs = []) && bool_decide (identifier artifact ∈ excluded f) then Ok None else Ok (Some fs)
  | None =>
      if bool_decide (targeted f = ∅) && negb (bool_decide (identifier artifact ∈ excluded f))
      then Ok (Some []) else Ok None
  end.

Record SenderFilters := mk_senders { senders_targeted : list Z; senders_excluded : list Z }.

Definition sender_filters (targeted excluded : list Z) : SenderFilters :=
  let excluded := if decide (0%Z ∈ excluded) then excluded else excluded ++ [0%Z] in
  mk_senders (filter (λ a, a ∉ excluded) targeted) excluded.

(** ** Contracts created in a run *)

Context {ET : EvmTypes} {IO : IterOrder} {AL : Alloy}.
(** [Bytecode::original_byte_slice] *)
Context (original_bytes : Bytecode → Bytes).

(** What the loop over the accounts finds for one of them. *)
Definition created_contract (project : list (ArtifactId * ContractData)) (setup : gmap Z (Str * JsonAbi))
    (filters : ArtifactFilters) (address : Z) (account : Account) : result (option TargetedContract.t) Str :=
  if bool_decide (is_Some (setup !! address)) || negb (is_touched account) then Ok None
  else
    match code (acc_info account) with
    | None => Ok None
    | Some c =>
        if decide (original_bytes c = []) then Ok None
        else
          match find_by_deployed_code project (original_bytes c) with
          | None => Ok None
          | Some (artifact, contract) =>
              let? fs := get_targeted_functions filters artifact (abi contract) in
              Ok ((λ fs, TargetedContract.mk (artifact_name artifact) (abi contract) fs []) <$> fs)
          end
    end.

Fixpoint collect_loop (project : list (ArtifactId * ContractData)) (setup : gmap Z (Str * JsonAbi))
    (filters : ArtifactFilters) (accounts : list (Z * Account)) (ts : TargetedContracts) (created : list Z) :
    TargetedContracts * list Z * result unit Str :=
  match accounts with
  | [] => (ts, created, Ok tt)
  | (address, account) :: accounts =>
      match created_contract project setup filters address account with
      | Err e => (ts, created, Err e)
      | Ok None => collect_loop project setup filters accounts ts created
      | Ok (Some c) => collect_loop project setup filters accounts (<[address := c]> ts) (created ++ [address])
      end
  end.

Definition collect_created_contracts (is_updatable : bool) (state_changeset : gmap Z Account)
    (project : list (ArtifactId * ContractData)) (setup : gmap Z (Str * JsonAbi)) (filters : ArtifactFilters)
    (ts : TargetedContracts) (created : list Z) : TargetedContracts * list Z * result unit Str :=
  if negb is_updatable then (ts, created, Ok tt)
  else collect_loop project setup filters (iter state_changeset) ts created.

Definition clear_created_contracts (created : list Z) (ts : TargetedContracts) : TargetedContracts :=
  foldl (λ ts a, delete a ts) ts created.

(** ** The choice of targets *)

Definition CHEATCODE_ADDRESS : Z := 0x7109709ECfa91a80626fF3989D68f67F5b1DD12D.
Definition HARDHAT_CONSOLE_ADDRESS : Z := 0x000000000000000000636F6e736F6c652e6c6f67.
Definition DEFAULT_CREATE2_DEPLOYER : Z := 0x4e59b44847b379578588920ca78fbf26c0b4956c.
Definition PRECOMPILES : list Z := [1; 2; 3; 4; 5; 6; 7; 8; 9; 10; 0x14]%Z.

(** What the functions of the test contract return, nothing where a call fails. *)
Record Declared := mk_declared {
  targetArtifactSelectors : list (Str * list Bytes); targetArtifacts : list Str; excludeArtifacts : list Str;
  targetSenders : list Z; excludeSenders : list Z; targetContracts : list Z; excludeContracts : list Z;
  targetInterfaces : list (Z * list Str); targetSelectors : list (Z * list Bytes);
  excludeSelectors : list (Z * list Bytes) }.

(** A loop whose body may fail. *)
Fixpoint rfold {S A E} (f : S → A → result S E) (l : list A) (s : S) : result S E :=
  match l with [] => Ok s | x :: l => let? s := f s x in rfold f l s end.

Context (project : list (ArtifactId * ContractData)) (setup : gmap Z (Str * JsonAbi)).

Definition validate_selected_contract (contract : Str) (selectors : list Bytes) : result Str Str :=
  let? found := find_by_name_or_identifier project contract in
  match found with
  | Some (artifact, data) =>
      let? _ := rfold (λ _ sel,
        match find_function (abi data) sel with
        | Some _ => Ok tt
        | None => Err (contract ++ str " does not have the selector " ++ encode_prefixed sel)
        end) selectors tt in
      Ok (identifier artifact)
  | None =>
      Err (contract ++ str " not found in the project. Allowed format: `contract_name` or `contract_path:contract_name`.")
  end.

Definition push_new (x : Str) (l : list Str) : list Str := if decide (x ∈ l) then l else l ++ [x].

Definition select_contract_artifacts (d : Declared) (f : ArtifactFilters) : result ArtifactFilters Str :=
  let? f := rfold (λ f x,
    let? id := validate_selected_contract x.1 x.2 in
    Ok (mk_filters (<[id := default [] (targeted f !! id) ++ x.2]> (targeted f)) (excluded f)))
    (targetArtifactSelectors d) f in
  let? f := rfold (λ f c,
    let? id := validate_selected_contract c [] in
    Ok (mk_filters (targeted f) (push_new id (excluded f)))) (excludeArtifacts d) f in
  let f := foldl (λ f x,
    if decide (Forall (λ fn, is_view_or_pure fn = true) (functions (abi x.2)))
    then mk_filters (targeted f) (push_new (identifier x.1) (excluded f)) else f) f project in
  rfold (λ f c,
    let? id := validate_selected_contract c [] in
    if bool_decide (is_Some (targeted f !! id)) || bool_decide (id ∈ excluded f) then Ok f
    else Ok (mk_filters (<[id := []]> (targeted f)) (excluded f))) (targetArtifacts d) f.

(** The order of strings is that of their bytes. *)
Definition str_cmp (x y : Str) : comparison :=
  String.compare (String.string_of_list_ascii x) (String.string_of_list_ascii y).

Definition combine_abi (c : TargetedContract.t) (other : JsonAbi) : TargetedContract.t :=
  let a := TargetedContract.abi c in
  TargetedContract.mk (TargetedContract.identifier c)
    (mk_abi (bm_extend str_cmp (abi_functions a) (abi_functions other)) (abi_events a) (abi_errors a))
    (TargetedContract.targeted_functions c) (TargetedContract.excluded_functions c).

Definition target_interfaces (d : Declared) (ts : TargetedContracts) : TargetedContracts :=
  let combined := foldl (λ m x, foldl (λ m id,
    match find_abi_by_name_or_identifier project id with
    | Some abi =>
        <[x.1 := match m !! x.1 with Some c => combine_abi c abi | None => TargetedContract.new id abi end]> m
    | None => m
    end) m x.2) ∅ (targetInterfaces d) in
  combined ∪ ts.

Definition add_address_with_functions (address : Z) (selectors : list Bytes) (should_exclude : bool)
    (ts : TargetedContracts) : result TargetedContracts Str :=
  if decide (selectors = []) then Ok ts
  else
    let? contract :=
      match ts !! address with
      | Some c => Ok c
      | None =>
          match setup !! address with
          | Some (id, abi) => Ok (TargetedContract.new id abi)
          | None =>
              Err (str "[" ++ (if should_exclude then str "excludeSelectors" else str "targetSelectors") ++
                   str "] address does not have an associated contract: " ++ address_str address)
          end
      end in
    match TargetedContract.add_selectors selectors should_exclude contract with
    | (c, Ok _) => Ok (<[address := c]> ts)
    | (_, Err e) => Err e
    end.

Definition select_selectors (d : Declared) (f : ArtifactFilters) (ts : TargetedContracts) :
    result TargetedContracts Str :=
  let? ts := rfold (λ ts x,
    match targeted f !! x.2.1 with
    | Some selectors => add_address_with_functions x.1 selectors false ts
    | None => Ok ts
    end) (btree_iter setup) ts in
  let? ts := rfold (λ ts x, add_address_with_functions x.1 x.2 false ts) (targetSelectors d) ts in
  rfold (λ ts x, add_address_with_functions x.1 x.2 true ts) (excludeSelectors d) ts.

(** The contracts of the setup that pass the filters. *)
Definition is_target (d : Declared) (f : ArtifactFilters) (to addr : Z) (id : Str) : bool :=
  negb (addr =? to)%Z && negb (addr =? CHEATCODE_ADDRESS)%Z && negb (addr =? HARDHAT_CONSOLE_ADDRESS)%Z &&
  (bool_decide (targetContracts d = []) || bool_decide (addr ∈ targetContracts d)) &&
  (bool_decide (excludeContracts d = []) || negb (bool_decide (addr ∈ excludeContracts d))) &&
  filter_matches f id.

Definition setup_targets (d : Declared) (f : ArtifactFilters) (to : Z) : TargetedContracts :=
  map_imap (λ addr x, if is_target d f to addr x.1 then Some (TargetedContract.new x.1 x.2) else None) setup.

(** The targets, and whether they may be extended. *)
Definition select_contracts_and_senders (d : Declared) (f : ArtifactFilters) (to : Z) :
    result (SenderFilters * (TargetedContracts * bool)) Str :=
  let senders := sender_filters (targetSenders d)
    (excludeSenders d ++ [CHEATCODE_ADDRESS; HARDHAT_CONSOLE_ADDRESS; DEFAULT_CREATE2_DEPLOYER] ++ PRECOMPILES) in
  let contracts := target_interfaces d (setup_targets d f to) in
  let? contracts := select_selectors d f contracts in
  if decide (contracts = ∅) then Err (str "No contracts to fuzz.")
  else Ok (senders, (contracts, bool_decide (targetContracts d = []))).

(** ** Targets over a run *)

(** The changesets of the calls of a run, one after another; an error of one
    call is only logged. *)
Fixpoint collect_run (is_updatable : bool) (filters : ArtifactFilters) (changesets : list (gmap Z Account))
    (ts : TargetedContracts) (created : list Z) : TargetedContracts * list Z :=
  match changesets with
  | [] => (ts, created)
  | c :: changesets =>
      let '(ts, created, _) := collect_created_contracts is_updatable c project setup filters ts created in
      collect_run is_updatable filters changesets ts created
  end.

(** Every target is one from before, unless it was created since. *)
Definition extends (ts : TargetedContracts) (created : list Z) (ts' : TargetedContracts) (created' : list Z) : Prop :=
  ∃ l, created' = created ++ l ∧ Forall (λ a, setup !! a = None) l ∧ ∀ a, a ∉ l → ts' !! a = ts !! a.

Lemma targets_extend_trans ts1 c1 ts2 c2 ts3 c3 : extends ts1 c1 ts2 c2 → extends ts2 c2 ts3 c3 → extends ts1 c1 ts3 c3.
Proof.
  intros (l & -> & Hl & H1) (k & -> & Hk & H2). exists (l ++ k). split; [by rewrite app_assoc|].
  split; [by apply Forall_app|]. intros a [? ?]%not_elem_of_app. rewrite H2, H1; done.
Qed.

Lemma collect_loop_extends filters accounts ts created :
  extends ts created (collect_loop project setup filters accounts ts created).1.1
    (collect_loop project setup filters accounts ts created).1.2.
Proof.
  revert ts created. induction accounts as [|[a acc] accounts IH]; intros ts created; cbn.
  { exists []. by rewrite app_nil_r. }
  destruct (created_contract _ _ _ _ _) as [[c|]|e] eqn:E; [|apply IH|exists []; by rewrite app_nil_r].
  eapply targets_extend_trans; [|apply IH]. exists [a]. split; [done|]. split.
  - constructor; [|done]. unfold created_contract in E.
    destruct (setup !! a); [|done]. by rewrite bool_decide_eq_true_2 in E by done.
  - intros b Hb. apply lookup_insert_ne. intros ->. apply Hb. by constructor.
Qed.

Lemma clear_created_lookup created ts a :
  clear_created_contracts created ts !! a = if decide (a ∈ created) then None else ts !! a.
Proof.
  unfold clear_created_contracts. revert ts. induction created as [|b created IH]; intros ts; cbn; [done|].
  rewrite IH. destruct (decide (a ∈ created)) as [Ha|Ha].
  - by rewrite decide_True by by constructor.
  - destruct (decide (a = b)) as [->|Hne].
    + rewrite decide_True by constructor. apply lookup_delete_eq.
    + rewrite decide_False by (by intros [?|?]%elem_of_cons). by apply lookup_delete_ne.
Qed.

(** Whatever the calls of a run create, the end of the run takes it out of the
    targets again: no contract of the setup is among what it takes out, and the
    other targets are those from before the run.  An address that was a target
    before and is found again as created is lost, however. *)
Theorem run_restores_targets (is_updatable : bool) (filters : ArtifactFilters) (changesets : list (gmap Z Account))
    (ts : TargetedContracts) :
  let '(ts', created) := collect_run is_updatable filters changesets ts [] in
  Forall (λ a, setup !! a = None) created ∧
  ∀ a, clear_created_contracts created ts' !! a = if decide (a ∈ created) then None else ts !! a.
Proof.
  assert (∀ ts created, extends ts created (collect_run is_updatable filters changesets ts created).1
    (collect_run is_updatable filters changesets ts created).2) as Hrun.
  { clear ts. induction changesets as [|c changesets IH]; intros ts created; cbn.
    { exists []. by rewrite app_nil_r. }
    assert (extends ts created (collect_created_contracts is_updatable c project setup filters ts created).1.1
      (collect_created_contracts is_updatable c project setup filters ts created).1.2) as Hc.
    { unfold collect_created_contracts. destruct is_updatable; cbn; [apply collect_loop_extends|].
      exists []. by rewrite app_nil_r. }
    destruct (collect_created_contracts _ _ _ _ _ _ _) as [[ts1 c1] r]. cbn in Hc.
    by eapply targets_extend_trans; [exact Hc|]. }
  specialize (Hrun ts []). destruct (collect_run _ _ _ _ _) as [ts' created]. cbn in Hrun.
  destruct Hrun as (l & -> & Hl & Hts). change ([] ++ l) with l. split; [done|]. intros a. rewrite clear_created_lookup.
  case_decide; [done|]. by apply Hts.
Qed.

(** ** What the choice means *)

(** The selectors a list has for an address. *)
Definition selectors_for (l : list (Z * list Bytes)) (a : Z) : list Bytes := filter (λ x, x.1 = a) l ≫= snd.
(** Those its artifact is targeted with. *)
Definition artifact_selectors (f : ArtifactFilters) (a : Z) : list Bytes :=
  match setup !! a with Some (id, _) => default [] (targeted f !! id) | None => [] end.
Definition declared_selectors (d : Declared) (f : ArtifactFilters) (a : Z) : list Bytes :=
  artifact_selectors f a ++ selectors_for (targetSelectors d) a.

Definition finds (c : TargetedContract.t) (sel : Bytes) (f : Function) : Prop :=
  find_function (TargetedContract.abi c) sel = Some f.

(** The targets have the functions of the selectors [D], and exclude those of
    [X]; they are the ones of [base] and those that have such selectors. *)
Definition explained (base : TargetedContracts) (D X : Z → list Bytes) (ts : TargetedContracts) : Prop :=
  ∀ a, match ts !! a with
       | None => base !! a = None ∧ D a = [] ∧ X a = []
       | Some c =>
           match base !! a with
           | Some b => TargetedContract.identifier c = TargetedContract.identifier b ∧
                       TargetedContract.abi c = TargetedContract.abi b
           | None => setup !! a = Some (TargetedContract.identifier c, TargetedContract.abi c) ∧ (D a ≠ [] ∨ X a ≠ [])
           end ∧
           Forall2 (finds c) (D a) (TargetedContract.targeted_functions c) ∧
           Forall2 (finds c) (X a) (TargetedContract.excluded_functions c)
       end.

Definition add_for (l : list (Z * list Bytes)) (D : Z → list Bytes) (a : Z) : list Bytes := D a ++ selectors_for l a.

Lemma NoDup_btree {V} (m : gmap Z V) : NoDup (btree_iter m).*1.
Proof. unfold btree_iter. rewrite sort_by_perm. apply NoDup_fst_map_to_list. Qed.

#[local] Arguments selectors_for : simpl never.

Lemma selectors_for_cons b sels l a :
  selectors_for ((b, sels) :: l) a = (if decide (b = a) then sels else []) ++ selectors_for l a.
Proof. unfold selectors_for. rewrite filter_cons. cbn. by case_decide. Qed.

Lemma add_selectors_spec sels ex c c' :
  TargetedContract.add_selectors sels ex c = (c', Ok tt) →
  ∃ fs, Forall2 (finds c) sels fs ∧
    c' = TargetedContract.mk (TargetedContract.identifier c) (TargetedContract.abi c)
           (TargetedContract.targeted_functions c ++ if ex then [] else fs)
           (TargetedContract.excluded_functions c ++ if ex then fs else []).
Proof.
  revert c. induction sels as [|sel sels IH]; intros c; cbn.
  { intros [= <-]. exists []. split; [done|]. destruct c, ex; cbn; by rewrite !app_nil_r. }
  unfold TargetedContract.get_function, get_function. destruct (find_function _ sel) as [fn|] eqn:E; [|done].
  intros (fs & Hfs & ->)%IH. exists (fn :: fs). split; [constructor; [done|]|].
  - by destruct ex.
  - destruct ex; cbn; rewrite <-?app_assoc, ?app_nil_r; done.
Qed.

Lemma explained_ext base D D' X X' ts :
  (∀ a, D a = D' a) → (∀ a, X a = X' a) → explained base D X ts → explained base D' X' ts.
Proof. intros HD HX H1 a. specialize (H1 a). by rewrite HD, HX in H1. Qed.

Lemma explained_add base D X ts a sels ex ts' :
  explained base D X ts → add_address_with_functions a sels ex ts = Ok ts' →
  explained base (add_for (if ex then [] else [(a, sels)]) D) (add_for (if ex then [(a, sels)] else []) X) ts'.
Proof.
  intros Hts. unfold add_address_with_functions. destruct (decide (sels = [])) as [->|Hne].
  { intros [= <-]. eapply explained_ext; [..|exact Hts]; intros b; unfold add_for; destruct ex;
      rewrite ?selectors_for_cons; try case_decide; by rewrite ?app_nil_r. }
  intros Hadd b. unfold add_for. specialize (Hts b).
  destruct (decide (a = b)) as [->|Hab]; last first.
  { assert (ts' !! b = ts !! b) as ->.
    { destruct (match ts !! a with Some _ => _ | None => _ end); [|done].
      destruct (TargetedContract.add_selectors _ _ _) as [c [[]|]]; [|done]. injection Hadd as <-. by apply lookup_insert_ne. }
    destruct ex; rewrite ?selectors_for_cons, ?(decide_False _ _ Hab) by done; by rewrite !app_nil_r. }
  assert (∃ c, (match ts !! b with
                | Some c' => c = c'
                | None => setup !! b = Some (TargetedContract.identifier c, TargetedContract.abi c) ∧
                          TargetedContract.targeted_functions c = [] ∧ TargetedContract.excluded_functions c = []
                end) ∧
           ∃ fs, Forall2 (finds c) sels fs ∧
             ts' !! b = Some (TargetedContract.mk (TargetedContract.identifier c) (TargetedContract.abi c)
               (TargetedContract.targeted_functions c ++ if ex then [] else fs)
               (TargetedContract.excluded_functions c ++ if ex then fs else []))) as (c & Hc & fs & Hfs & Hb).
  { destruct (ts !! b) as [c|] eqn:Eb.
    - exists c. split; [done|]. destruct (TargetedContract.add_selectors _ _ _) as [c' [[]|]] eqn:Ec; [|done].
      injection Hadd as <-. apply add_selectors_spec in Ec as (fs & Hfs & ->). exists fs. split; [done|]. apply lookup_insert_eq.
    - destruct (setup !! b) as [[id ab]|] eqn:Es; [|done]. exists (TargetedContract.new id ab). split; [done|].
      destruct (TargetedContract.add_selectors _ _ _) as [c' [[]|]] eqn:Ec; [|done].
      injection Hadd as <-. apply add_selectors_spec in Ec as (fs & Hfs & ->). exists fs. split; [done|]. apply lookup_insert_eq. }
  assert (selectors_for [(b, sels)] b = sels) as Hself.
  { rewrite selectors_for_cons, decide_True by done. apply app_nil_r. }
  rewrite Hb. unfold finds in *. cbn. destruct (ts !! b) as [c'|].
  - subst c'. destruct Hts as (Hbase & HD & HX). split.
    + destruct (base !! b); [done|]. destruct Hbase as [Hs Hdx]. split; [done|].
      destruct ex; rewrite ?Hself; destruct (D b), (X b); cbn; destruct Hdx; auto.
    + destruct ex; rewrite Hself, ?app_nil_r; (split; [try done; by apply Forall2_app|try done; by apply Forall2_app]).
  - destruct Hts as (-> & -> & ->). destruct Hc as (Hs & -> & ->). cbn. split.
    + split; [done|]. destruct ex; rewrite Hself; auto.
    + destruct ex; rewrite Hself; by split.
Qed.

Lemma explained_loop base D X l ex ts ts' :
  explained base D X ts → rfold (λ ts x, add_address_with_functions x.1 x.2 ex ts) l ts = Ok ts' →
  explained base (add_for (if ex then [] else l) D) (add_for (if ex then l else []) X) ts'.
Proof.
  revert D X ts. induction l as [|[a sels] l IH]; intros D X ts Hts; cbn.
  { intros [= <-]. eapply explained_ext; [..|exact Hts]; intros a; unfold add_for; destruct ex; by rewrite app_nil_r. }
  destruct (add_address_with_functions a sels ex ts) as [ts1|] eqn:E; [|done]. intros Hl.
  pose proof (explained_add _ _ _ _ _ _ _ _ Hts E) as H1. eapply explained_ext; [..|exact (IH _ _ _ H1 Hl)];
    intros b; unfold add_for; destruct ex; rewrite ?selectors_for_cons; cbn; by rewrite ?app_nil_r, <-?app_assoc.
Qed.

(** The loop over the setup adds the selectors of the artifacts. *)
Lemma artifact_selectors_loop (f : ArtifactFilters) (l : list (Z * (Str * JsonAbi))) a :
  NoDup l.*1 →
  selectors_for (omap (λ x, (x.1,.) <$> targeted f !! x.2.1) l) a =
    match (list_to_map l : gmap Z (Str * JsonAbi)) !! a with
    | Some (id, _) => default [] (targeted f !! id) | None => [] end.
Proof.
  induction l as [|[b [id ab]] l IH]; cbn; [done|]. intros [Hb Hnd]%NoDup_cons. specialize (IH Hnd).
  destruct (decide (b = a)) as [->|Hne].
  - rewrite lookup_insert_eq. rewrite (not_elem_of_list_to_map_1 _ _ Hb) in IH.
    destruct (targeted f !! id); cbn; [|done]. by rewrite selectors_for_cons, decide_True, IH, app_nil_r by done.
  - rewrite lookup_insert_ne by done. destruct (targeted f !! id); cbn; [|done].
    by rewrite selectors_for_cons, decide_False by done.
Qed.

Lemma rfold_omap {A B S E} (g : A → option B) (h : S → B → result S E) l s :
  rfold (λ s x, match g x with Some y => h s y | None => Ok s end) l s = rfold h (omap g l) s.
Proof.
  revert s. induction l as [|x l IH]; intros s; cbn; [done|]. destruct (g x); cbn; [|apply IH].
  destruct (h s b); [apply IH|done].
Qed.

Lemma select_selectors_explained (d : Declared) (f : ArtifactFilters) base ts :
  (∀ a c, base !! a = Some c → TargetedContract.targeted_functions c = [] ∧ TargetedContract.excluded_functions c = []) →
  select_selectors d f base = Ok ts →
  explained base (declared_selectors d f) (selectors_for (excludeSelectors d)) ts.
Proof.
  intros Hfresh. unfold select_selectors.
  destruct (rfold _ (btree_iter setup) base) as [ts1|] eqn:E1; [|done].
  destruct (rfold _ (targetSelectors d) ts1) as [ts2|] eqn:E2; [|done]. intros E3.
  assert (explained base (λ _, []) (λ _, []) base) as H0.
  { intros a. destruct (base !! a) as [c|] eqn:Ec; [|done]. destruct (Hfresh _ _ Ec) as [-> ->]. split; [done|by split]. }
  replace (rfold _ (btree_iter setup) base) with
    (rfold (λ ts x, add_address_with_functions x.1 x.2 false ts)
       (omap (λ x, (x.1,.) <$> targeted f !! x.2.1) (btree_iter setup)) base) in E1; last first.
  { rewrite <-rfold_omap. clear. generalize (btree_iter setup) base. intros l. induction l as [|[a [id ab]] l IH]; intros b; [done|].
    cbn. destruct (targeted f !! id) as [sels|]; cbn; [|apply IH]. by destruct (add_address_with_functions _ _ _ _). }
  pose proof (explained_loop _ _ _ _ _ _ _ H0 E1) as H1. pose proof (explained_loop _ _ _ _ _ _ _ H1 E2) as H2.
  pose proof (explained_loop _ _ _ _ _ _ _ H2 E3) as H3. eapply explained_ext; [..|exact H3]; intros a; unfold add_for, declared_selectors; cbn.
  - rewrite app_nil_r. f_equal. rewrite artifact_selectors_loop.
    + unfold artifact_selectors. by rewrite (list_to_map_proper (btree_iter setup) (map_to_list setup)), list_to_map_to_list
        by (apply sort_by_perm || apply NoDup_btree).
    + apply NoDup_btree.
  - done.
Qed.

Definition fresh_targets (ts : TargetedContracts) : Prop :=
  ∀ a c, ts !! a = Some c → TargetedContract.targeted_functions c = [] ∧ TargetedContract.excluded_functions c = [].

Lemma foldl_keeps {S A} (P : S → Prop) (f : S → A → S) l s : (∀ s x, P s → P (f s x)) → P s → P (foldl f s l).
Proof. intros Hf. revert s. induction l; cbn; auto. Qed.

Lemma fresh_insert a c ts :
  fresh_targets ts → TargetedContract.targeted_functions c = [] ∧ TargetedContract.excluded_functions c = [] →
  fresh_targets (<[a := c]> ts).
Proof.
  intros Hts Hc b c'. destruct (decide (a = b)) as [->|]; [rewrite lookup_insert_eq; by intros [= <-]|].
  rewrite lookup_insert_ne by done. apply Hts.
Qed.

Lemma target_interfaces_fresh d ts : fresh_targets ts → fresh_targets (target_interfaces d ts).
Proof.
  intros Hts a c. unfold target_interfaces. set (m := foldl _ _ _).
  assert (fresh_targets m) as Hm.
  { apply foldl_keeps; [|by intros ??; rewrite lookup_empty]. intros m0 x Hm0. apply foldl_keeps; [|done].
    intros m1 id Hm1. destruct (find_abi_by_name_or_identifier project id); [|done]. apply fresh_insert; [done|].
    destruct (m1 !! x.1) eqn:E; [|done]. exact (Hm1 _ _ E). }
  rewrite lookup_union_Some_raw. intros [Hc|[_ Hc]]; eauto.
Qed.

Lemma setup_targets_fresh d f to : fresh_targets (setup_targets d f to).
Proof.
  intros a c. unfold setup_targets. rewrite map_lookup_imap. destruct (setup !! a); [|done]. cbn. case_match; [|done]. by intros [= <-].
Qed.

Lemma elem_of_fuzzed_functions ts a fn :
  (a, fn) ∈ fuzzed_functions ts ↔
    ∃ c, ts !! a = Some c ∧ abi_functions (TargetedContract.abi c) ≠ [] ∧ fn ∈ TargetedContract.abi_fuzzed_functions c.
Proof.
  unfold fuzzed_functions. rewrite list_elem_of_bind. split.
  - intros ([b c] & Hfn & [Hc Hb]%list_elem_of_filter). apply list_elem_of_fmap in Hfn as (f & [= -> ->] & Hf). cbn in *.
    unfold btree_iter in Hb. rewrite sort_by_perm in Hb. apply elem_of_map_to_list in Hb. eauto.
  - intros (c & Hc & Ha & Hf). exists (a, c). split; [by apply list_elem_of_fmap_2|].
    apply list_elem_of_filter. split; [done|]. unfold btree_iter. rewrite sort_by_perm. by apply elem_of_map_to_list.
Qed.

Lemma elem_of_found c l k fn : Forall2 (finds c) l k → fn ∈ k ↔ ∃ sel, sel ∈ l ∧ finds c sel fn.
Proof.
  induction 1 as [|sel f l k Hf _ IH]; [split; [by intros ?%elem_of_nil|by intros (? & ?%elem_of_nil & _)]|].
  rewrite elem_of_cons, IH. unfold finds in *. split.
  - intros [->|(s' & Hs & Hs')]; [exists sel; by split; [constructor|]|exists s'; by split; [constructor|]].
  - intros (s' & [->|Hs]%elem_of_cons & Hs'); [left; congruence|right; eauto].
Qed.

Lemma functions_nonempty abi fn : fn ∈ functions abi → abi_functions abi ≠ [].
Proof. unfold functions. intros Hf Ha. rewrite Ha in Hf. by apply elem_of_nil in Hf. Qed.

Lemma find_function_elem abi sel fn : find_function abi sel = Some fn → fn ∈ functions abi.
Proof. intros Hf. apply find_some in Hf as [Hf _]. by apply list_elem_of_In. Qed.

Lemma Forall2_nil_iff {A B} (R : A → B → Prop) l k : Forall2 R l k → l = [] ↔ k = [].
Proof. by destruct 1. Qed.

End targets.

(** ** An example *)

Module TargetExample.
#[local] Existing Instance ContractExample.types.
Definition alloy : Alloy := {|
  abi_cheatcode_error _ := []; CHEATCODE_ERROR_SELECTOR := []; REVERT_SELECTOR := []; abi_string _ := [];
  abi_decode_string _ := None; abi_decode_bytes _ := None; address_str _ := [] |}.

Definition deposit : Function := (str "deposit", [1; 2; 3; 4]%Z, false).
Definition withdraw : Function := (str "withdraw", [5; 6; 7; 8]%Z, false).
Definition abi : JsonAbi := mk_abi [(str "deposit", [deposit]); (str "withdraw", [withdraw])] [] [].
Definition setup : gmap Z (Str * JsonAbi) := {[ 5%Z := (str "src:Bank", abi) ]}.
Definition declared : Declared :=
  mk_declared [] [] [] [70%Z; 1%Z] [] [] [] [] [(5%Z, [[1; 2; 3; 4]%Z])] [].
Definition targets : gmap Z TargetedContract.t := {[ 5%Z := TargetedContract.mk (str "src:Bank") abi [deposit] [] ]}.
End TargetExample.

