(* ===== verification/FuzzDict.v ===== *)
(** The dictionary of values the fuzzer draws from (evm/fuzz/src/strategies/state.rs):
    collected from the state at the beginning and from the calls of a run, and
    truncated to the former at the end of the run.

    An [IndexSet] is the list of its elements in the order of insertion.  The
    dictionary is shared behind a lock and passed along as a value.  Decoding
    by the ABI belongs to alloy. *)
From S2P Require Import Prelude Radix Database MultiFork ForkBackend Pranks Frames Contracts FuzzTargets.

(** [IndexSet::insert]: whether the element is new. *)
Definition set_insert (x : Z) (l : list Z) : list Z * bool := if decide (x ∈ l) then (l, false) else (l ++ [x], true).

(** [U256::try_from_be_slice] of at most 32 bytes. *)
Definition word_of (b : Bytes) : Z := foldl (λ acc x, (acc * 256 + x)%Z) 0%Z b.

(** [chunks_exact(32)] and its remainder. *)
Fixpoint chunks_exact (fuel : nat) (b : Bytes) : list Bytes * Bytes :=
  match fuel with
  | O => ([], b)
  | S fuel =>
      if (32 <=? length b)%nat then
        let '(cs, rem) := chunks_exact fuel (drop 32 b) in (take 32 b :: cs, rem)
      else ([], b)
  end.

(** The words of some data, the last one padded with zeros on the right. *)
Definition data_words (b : Bytes) : list Z :=
  let '(cs, rem) := chunks_exact (length b) b in
  (word_of <$> cs) ++ (if decide (rem = []) then [] else [word_of (rem ++ replicate (32 - length rem) 0%Z)]).

Definition PUSH1 : Z := 0x60.
Definition PUSH32 : Z := 0x7f.
Definition PUSH_BYTE_ANALYSIS_LIMIT : nat := N.to_nat (24 * 1024).
Definition U256_MAX : Z := 2 ^ 256 - 1.

(** The types of the values of the ABI, and their decoding. *)
Class DynSol `{AbiTypes} `{EvmTypes} := {
  DynSolType : Type;
  dyn_eq :: EqDecision DynSolType;
  dyn_countable :: Countable DynSolType;
  DynSolValue : Type;
  as_type : DynSolValue → option DynSolType;
  as_word : DynSolValue → option Z;
  (** [event.decode_log(log, false)]: the indexed values and those of the body *)
  decode_log : Event → Log.t → option (list DynSolValue * list DynSolValue);
  (** [function.abi_decode_output(result, false)] *)
  abi_decode_output : Function → Bytes → option (list DynSolValue);
  (** [Bytecode::bytes_slice] *)
  bytes_slice : Bytecode → Bytes
}.

Record FuzzDictionaryConfig := mk_dict_config {
  include_storage : bool; include_push_bytes : bool;
  max_fuzz_dictionary_addresses : nat; max_fuzz_dictionary_values : nat }.

Module FuzzDictionary.
Section dictionary.
Context {AT : AbiTypes} {ET : EvmTypes} {DS : DynSol} {IO : IterOrder}.

Record t := mk {
  state_values : list Z; addresses : list Z; config : FuzzDictionaryConfig; db_state_values : nat;
  db_addresses : nat; sample_values : gmap DynSolType (list Z); no_zksync_reserved_addresses : bool;
  misses : Z; hits : Z }.

Definition set_values (l : list Z) (new : bool) (d : t) : t :=
  mk l (addresses d) (config d) (db_state_values d) (db_addresses d) (sample_values d)
    (no_zksync_reserved_addresses d) (if new then misses d + 1 else misses d)%Z (if new then hits d else hits d + 1)%Z.
Definition set_addresses (l : list Z) (d : t) : t :=
  mk (state_values d) l (config d) (db_state_values d) (db_addresses d) (sample_values d)
    (no_zksync_reserved_addresses d) (misses d) (hits d).
Definition set_samples (m : gmap DynSolType (list Z)) (d : t) : t :=
  mk (state_values d) (addresses d) (config d) (db_state_values d) (db_addresses d) m
    (no_zksync_reserved_addresses d) (misses d) (hits d).
Definition set_db (v a : nat) (d : t) : t :=
  mk (state_values d) (addresses d) (config d) v a (sample_values d)
    (no_zksync_reserved_addresses d) (misses d) (hits d).

Definition insert_value (value : Z) (d : t) : t :=
  if (length (state_values d) <? max_fuzz_dictionary_values (config d))%nat then
    let '(l, new_value) := set_insert value (state_values d) in set_values l new_value d
  else d.

Definition insert_values (l : list Z) (d : t) : t := foldl (λ d v, insert_value v d) d l.

Definition insert_address (address : Z) (d : t) : t :=
  if (length (addresses d) <? max_fuzz_dictionary_addresses (config d))%nat
  then set_addresses (set_insert address (addresses d)).1 d else d.

(** The values of a storage slot. *)
Definition insert_storage_value (slot value : Z) (d : t) : t :=
  let d := insert_value value (insert_value slot d) in
  let d := if (value =? 0)%Z then d else insert_value (value - 1) d in
  if (value =? U256_MAX)%Z then d else insert_value (value + 1) d.

(** [collect_push_bytes]; an operand that is cut off ends the loop. *)
Fixpoint push_loop (fuel : nat) (code : Bytes) (len i : nat) (d : t) : option t :=
  if (len <=? i)%nat then Some d
  else match fuel with
  | O => None
  | S fuel =>
      op ← code !! i;
      if (PUSH1 <=? op)%Z && (op <=? PUSH32)%Z then
        let push_size := Z.to_nat (op - PUSH1 + 1) in
        let push_start := i + 1 in
        let push_end := push_start + push_size in
        if (length code <? push_start)%nat || (length code <? push_end)%nat then Some d
        else
          let push_value := word_of (take push_size (drop push_start code)) in
          let d :=
            if (push_value =? 0)%Z then d
            else
              let d := insert_value (push_value - 1) (insert_value push_value d) in
              if (push_value =? U256_MAX)%Z then d else insert_value (push_value + 1) d in
          push_loop fuel code len (i + push_size + 1) d
      else push_loop fuel code len (i + 1) d
  end.

Definition collect_push_bytes (code : Bytes) (d : t) : option t :=
  let len := Nat.min (length code) PUSH_BYTE_ANALYSIS_LIMIT in push_loop len code len 0 d.

Definition insert_push_bytes_values (address : Z) (account_info : AccountInfo Bytecode) (d : t) : option t :=
  if include_push_bytes (config d) && negb (bool_decide (address ∈ addresses d)) then
    match code account_info with
    | Some c => collect_push_bytes (bytes_slice c) (insert_address address d)
    | None => Some d
    end
  else Some d.

(** One account: its address, its code and its storage. *)
Definition insert_account (address : Z) (account_info : AccountInfo Bytecode) (slots : list (Z * Z)) (d : t) : option t :=
  d ← insert_push_bytes_values address account_info (insert_value address d);
  Some (if include_storage (config d) then foldl (λ d x, insert_storage_value x.1 x.2 d) d slots else d).

Fixpoint insert_accounts (l : list (Z * (AccountInfo Bytecode * list (Z * Z)))) (d : t) : option t :=
  match l with
  | [] => Some d
  | (address, (account_info, slots)) :: l => d ← insert_account address account_info slots d; insert_accounts l d
  end.

(** The accounts of the database, with their storage sorted. *)
Definition insert_db_values (db_state : list (Z * DbAccount Bytecode)) (random : Z) (d : t) : option t :=
  d ← insert_accounts ((λ x, (x.1, (info x.2, btree_iter (storage x.2)))) <$> db_state) d;
  let d := if decide (state_values d = []) then insert_value random d else d in
  Some (set_db (length (state_values d)) (length (addresses d)) d).

Definition insert_new_state_values (state_changeset : gmap Z Account) (d : t) : option t :=
  insert_accounts ((λ x, (x.1, (acc_info x.2, (λ s, (s.1, present_value s.2)) <$> iter (acc_storage x.2)))) <$>
                   iter state_changeset) d.

Definition insert_sample (limit : nat) (sample : DynSolValue) (d : t) : t :=
  match as_type sample, as_word sample with
  | Some sample_type, Some sample_value =>
      match sample_values d !! sample_type with
      | Some values =>
          if (length values <? limit)%nat
          then set_samples (<[sample_type := (set_insert sample_value values).1]> (sample_values d)) d
          else insert_value sample_value d
      | None => set_samples (<[sample_type := [sample_value]]> (sample_values d)) d
      end
  | _, _ => d
  end.

Definition insert_sample_values (samples : list DynSolValue) (limit : nat) (d : t) : t :=
  foldl (λ d s, insert_sample limit s d) d samples.

(** The first event that decodes a log. *)
Definition decode_with (abi : JsonAbi) (log : Log.t) : option (list DynSolValue) :=
  head (omap (λ e, (λ x, x.1 ++ x.2) <$> decode_log e log) (events abi)).

Definition insert_logs_values (abi : option JsonAbi) (logs : list Log.t) (run_depth : nat) (d : t) : t :=
  let '(d, samples) := foldl (λ acc log,
    let '(d, samples) := acc in
    match abi ≫= λ abi, decode_with abi log with
    | Some values => (d, samples ++ values)
    | None => (insert_values (topics (Log.data log) ++ data_words (log_data (Log.data log))) d, samples)
    end) (d, []) logs in
  insert_sample_values samples run_depth d.

Definition insert_result_values (function : option Function) (result : Bytes) (run_depth : nat) (d : t) : t :=
  match function with
  | Some f =>
      if no_outputs f then d
      else from_option (λ vs, insert_sample_values vs run_depth d) d (abi_decode_output f result)
  | None => d
  end.

Definition revert (d : t) : t :=
  set_addresses (take (db_addresses d) (addresses d))
    (mk (take (db_state_values d) (state_values d)) (addresses d) (config d) (db_state_values d) (db_addresses d)
      (sample_values d) (no_zksync_reserved_addresses d) (misses d) (hits d)).

Definition new (config : FuzzDictionaryConfig) (no_zksync_reserved_addresses : bool) : t :=
  insert_value 0 (mk [] [] config 0 0 ∅ no_zksync_reserved_addresses 0 0).
End dictionary.
#[global] Arguments t {_ _ _}.
End FuzzDictionary.

(** ** [EvmFuzzState] *)

Section fuzz_state.
Context {AT : AbiTypes} {ET : EvmTypes} {DS : DynSol} {IO : IterOrder}.

Definition fuzz_state_new (accounts : gmap Z (DbAccount Bytecode)) (config : FuzzDictionaryConfig)
    (no_zksync_reserved_addresses : bool) (random : Z) : option FuzzDictionary.t :=
  FuzzDictionary.insert_db_values (btree_iter accounts) random (FuzzDictionary.new config no_zksync_reserved_addresses).

Definition collect_values_from_call (ts : gmap Z TargetedContract.t) (tx : BasicTxDetails.t) (result : Bytes)
    (logs : list Log.t) (state_changeset : gmap Z Account) (run_depth : nat) (d : FuzzDictionary.t) :
    option FuzzDictionary.t :=
  fa ← fuzzed_artifacts ts tx;
  let d := FuzzDictionary.insert_logs_values fa.1 logs run_depth d in
  let d := FuzzDictionary.insert_result_values fa.2 result run_depth d in
  FuzzDictionary.insert_new_state_values state_changeset d.
End fuzz_state.

(** ** What the operations keep *)

Section laws.
Context {AT : AbiTypes} {ET : EvmTypes} {DS : DynSol} {IO : IterOrder}.
Import FuzzDictionary.
Implicit Types d : FuzzDictionary.t.

(** The values and the addresses are different and within their limits. *)
Definition within_limits d : Prop :=
  NoDup (state_values d) ∧ length (state_values d) ≤ max_fuzz_dictionary_values (config d) ∧
  NoDup (addresses d) ∧ length (addresses d) ≤ max_fuzz_dictionary_addresses (config d).

(** The samples of each type are different and no more than the limit. *)
Definition samples_within (limit : nat) d : Prop :=
  ∀ ty l, sample_values d !! ty = Some l → NoDup l ∧ length l ≤ Nat.max 1 limit.

(** An operation adds values and addresses after those that are there. *)
Definition grows (limit : nat) d d' : Prop :=
  config d' = config d ∧ db_state_values d' = db_state_values d ∧ db_addresses d' = db_addresses d ∧
  state_values d `prefix_of` state_values d' ∧ addresses d `prefix_of` addresses d' ∧
  (within_limits d → within_limits d') ∧ (samples_within limit d → samples_within limit d').

#[local] Instance grows_preorder limit : PreOrder (grows limit).
Proof.
  split.
  - intros d. unfold grows. by split_and!.
  - intros d1 d2 d3 (A1 & B1 & C1 & D1 & E1 & F1 & G1) (A2 & B2 & C2 & D2 & E2 & F2 & G2).
    split_and!; try congruence; try (by etrans); auto.
Qed.

Lemma set_insert_spec x l :
  NoDup l → NoDup (set_insert x l).1 ∧ length (set_insert x l).1 ≤ S (length l) ∧ l `prefix_of` (set_insert x l).1 ∧
  x ∈ (set_insert x l).1.
Proof.
  intros Hl. unfold set_insert. case_decide as Hx; cbn; [by split_and!; [|lia|..]|]. rewrite length_app. cbn. split_and!; [|lia| |].
  - apply NoDup_app. split; [done|]. split; [|apply NoDup_singleton]. by intros y Hy ->%list_elem_of_singleton.
  - by exists [x].
  - apply elem_of_app. right. constructor.
Qed.

Lemma set_insert_prefix x l : l `prefix_of` (set_insert x l).1.
Proof. unfold set_insert. case_decide; cbn; [done|]. by exists [x]. Qed.

Lemma grows_insert_value limit v d : grows limit d (insert_value v d).
Proof.
  unfold insert_value. destruct (Nat.ltb_spec (length (state_values d)) (max_fuzz_dictionary_values (config d))) as [Hlt|]; [|done].
  pose proof (set_insert_prefix v (state_values d)) as Hp. pose proof (set_insert_spec v (state_values d)) as Hs.
  destruct (set_insert v (state_values d)) as [l new] eqn:E. cbn in Hp, Hs. split_and!; try done.
  intros (H1 & H2 & H3 & H4). destruct (Hs H1) as (Hn & Hl & _). split_and!; cbn; [done|lia|done..].
Qed.

Lemma grows_foldl {A} limit (f : FuzzDictionary.t → A → FuzzDictionary.t) l d :
  (∀ d x, grows limit d (f d x)) → grows limit d (foldl f d l).
Proof. intros Hf. revert d. induction l as [|x l IH]; intros d; cbn; [done|]. etrans; [apply Hf|apply IH]. Qed.

Lemma grows_insert_address limit a d : grows limit d (insert_address a d).
Proof.
  unfold insert_address. destruct (Nat.ltb_spec (length (addresses d)) (max_fuzz_dictionary_addresses (config d))) as [Hlt|]; [|done].
  split_and!; try done; [apply set_insert_prefix|]. intros (H1 & H2 & H3 & H4).
  destruct (set_insert_spec a _ H3) as (Hn & Hl & _). split_and!; cbn; [done..|lia].
Qed.

Lemma grows_storage limit slot v d : grows limit d (insert_storage_value slot v d).
Proof.
  unfold insert_storage_value. repeat case_match; repeat (etrans; [|apply grows_insert_value]); done.
Qed.

Lemma grows_push_loop limit fuel code len i d :
  len ≤ length code → len - i ≤ fuel → ∃ d', push_loop fuel code len i d = Some d' ∧ grows limit d d'.
Proof.
  intros Hlen. revert i d. induction fuel as [|fuel IH]; intros i d Hf; cbn [push_loop];
    (destruct (Nat.leb_spec len i); [by exists d|]); [lia|].
  destruct (lookup_lt_is_Some_2 code i) as [op Hop]; [lia|]. rewrite Hop. cbn [mbind option_bind].
  destruct (_ && _); [|apply IH; lia]. destruct (_ || _); [by exists d|].
  set (d1 := if (word_of _ =? 0)%Z then d else _).
  destruct (IH (i + Z.to_nat (op - PUSH1 + 1) + 1) d1) as (d' & Hd' & Hg); [lia|]. exists d'. split; [exact Hd'|].
  etrans; [|exact Hg]. subst d1. repeat case_match; repeat (etrans; [|apply grows_insert_value]); done.
Qed.

Lemma grows_accounts limit l d : ∃ d', insert_accounts l d = Some d' ∧ grows limit d d'.
Proof.
  revert d. induction l as [|[a [i slots]] l IH]; intros d; cbn; [by exists d|].
  assert (∃ d1, insert_push_bytes_values a i (insert_value a d) = Some d1 ∧ grows limit d d1) as (d1 & Hd1 & Hg1).
  { unfold insert_push_bytes_values. destruct (_ && _); [|eexists; split; [done|apply grows_insert_value]].
    destruct (code i) as [c|]; [|eexists; split; [done|apply grows_insert_value]].
    destruct (grows_push_loop limit (Nat.min (length (bytes_slice c)) PUSH_BYTE_ANALYSIS_LIMIT) (bytes_slice c)
      (Nat.min (length (bytes_slice c)) PUSH_BYTE_ANALYSIS_LIMIT) 0 (insert_address a (insert_value a d))) as (d' & Hd' & Hg); [lia..|].
    exists d'. split; [exact Hd'|]. etrans; [apply grows_insert_value|]. etrans; [apply grows_insert_address|done]. }
  unfold insert_account. rewrite Hd1. cbn.
  destruct (IH (if include_storage (config d1) then foldl (λ d x, insert_storage_value x.1 x.2 d) d1 slots else d1)) as (d2 & Hd2 & Hg2).
  exists d2. split; [exact Hd2|]. etrans; [exact Hg1|]. etrans; [|exact Hg2]. destruct (include_storage _); [|done].
  apply grows_foldl. intros. apply grows_storage.
Qed.

Lemma grows_sample limit v d : grows limit d (insert_sample limit v d).
Proof.
  unfold insert_sample. destruct (as_type v) as [ty|]; [|done]. destruct (as_word v) as [w|]; [|done].
  destruct (sample_values d !! ty) as [l|] eqn:E.
  - destruct (Nat.ltb_spec (length l) limit); [|apply grows_insert_value]. split_and!; try done. intros Hs ty' l'. cbn.
    destruct (decide (ty = ty')) as [<-|]; [|rewrite lookup_insert_ne by done; apply Hs].
    rewrite lookup_insert_eq. intros [= <-]. destruct (Hs _ _ E) as [Hn Hl].
    destruct (set_insert_spec w l Hn) as (Hn' & Hl' & _). split; [done|lia].
  - split_and!; try done. intros Hs ty' l'. cbn.
    destruct (decide (ty = ty')) as [<-|]; [|rewrite lookup_insert_ne by done; apply Hs].
    rewrite lookup_insert_eq. intros [= <-]. split; [apply NoDup_singleton|cbn; lia].
Qed.

Lemma grows_samples limit l d : grows limit d (insert_sample_values l limit d).
Proof. apply grows_foldl. intros. apply grows_sample. Qed.

Lemma grows_logs limit abi logs d : grows limit d (insert_logs_values abi logs limit d).
Proof.
  unfold insert_logs_values.
  assert (∀ acc, grows limit acc.1 (foldl (λ acc log, let '(d, samples) := acc in
    match abi ≫= λ abi, decode_with abi log with
    | Some values => (d, samples ++ values)
    | None => (insert_values (topics (Log.data log) ++ data_words (log_data (Log.data log))) d, samples)
    end) acc logs).1) as Hl.
  { induction logs as [|log logs IH]; intros [d0 ss]; cbn [foldl]; [done|]. destruct (abi ≫= _) as [vs|]; [exact (IH (d0, ss ++ vs))|].
    etrans; [|apply (IH (_, ss))]. cbn. apply grows_foldl. intros. apply grows_insert_value. }
  specialize (Hl (d, [])). destruct (foldl _ _ logs) as [d1 ss]. etrans; [exact Hl|apply grows_samples].
Qed.

Lemma grows_result limit f b d : grows limit d (insert_result_values f b limit d).
Proof.
  unfold insert_result_values. destruct f as [f|]; [|done]. destruct (no_outputs f); [done|].
  destruct (abi_decode_output f b); cbn; [apply grows_samples|done].
Qed.

(** ** Constants in code *)

Definition operand_size (op : Z) : nat :=
  if (PUSH1 <=? op)%Z && (op <=? PUSH32)%Z then Z.to_nat (op - PUSH1 + 1) else 0.

(** Where instructions begin, from [i] on. *)
Inductive reaches (code : Bytes) (i : nat) : nat → Prop :=
  | reaches_here : reaches code i i
  | reaches_next op j : code !! i = Some op → reaches code (i + operand_size op + 1) j → reaches code i j.

Definition full d : Prop := max_fuzz_dictionary_values (config d) ≤ length (state_values d).

(** A value is in the dictionary unless there is no more room. *)
Definition has_value d (v : Z) : Prop := full d ∨ v ∈ state_values d.

Lemma has_value_grows limit d d' v : grows limit d d' → has_value d v → has_value d' v.
Proof.
  intros (Hc & _ & _ & Hp & _) [Hf|Hv]; [left|right; by eapply elem_of_prefix].
  unfold full in *. rewrite Hc. apply prefix_length in Hp. lia.
Qed.

Lemma insert_value_has v d : has_value (insert_value v d) v.
Proof.
  unfold insert_value, has_value, full.
  destruct (Nat.ltb_spec (length (state_values d)) (max_fuzz_dictionary_values (config d))); [right|by left].
  unfold set_insert. case_decide; cbn; [done|]. apply elem_of_app. right. constructor.
Qed.

Lemma reaches_le code i j : reaches code i j → i ≤ j.
Proof. induction 1; lia. Qed.

(** Every constant that an instruction pushes, with its neighbours, is collected
    as long as there is room, if it is not zero and not cut off. *)
Theorem push_values_collected (code : Bytes) d j op :
  let len := Nat.min (length code) PUSH_BYTE_ANALYSIS_LIMIT in
  reaches code 0 j → j < len → code !! j = Some op → 0 < operand_size op → j + 1 + operand_size op ≤ length code →
  let v := word_of (take (operand_size op) (drop (j + 1) code)) in v ≠ 0%Z →
  ∃ d', collect_push_bytes code d = Some d' ∧ has_value d' v ∧ has_value d' (v - 1) ∧ (v ≠ U256_MAX → has_value d' (v + 1)).
Proof.
  intros len Hr Hj Hop Hs He v Hv. unfold collect_push_bytes. fold len.
  assert (len ≤ length code) as Hlen by (subst len; lia). clearbody len.
  assert (∀ fuel i d, reaches code i j → len - i ≤ fuel → ∃ d', push_loop fuel code len i d = Some d' ∧
    has_value d' v ∧ has_value d' (v - 1) ∧ (v ≠ U256_MAX → has_value d' (v + 1))) as Hloop; [|by apply Hloop; [|lia]].
  clear d Hr. induction fuel as [|fuel IH]; intros i d Hr Hf; pose proof (reaches_le _ _ _ Hr); [lia|].
  cbn [push_loop]. destruct (Nat.leb_spec len i); [lia|]. unfold operand_size in *. destruct Hr as [|op' j Hi Hr].
  - rewrite Hop. cbn [mbind option_bind]. destruct (_ && _); [|lia].
    destruct (Nat.ltb_spec (length code) (i + 1)); [lia|]. destruct (Nat.ltb_spec (length code) (i + 1 + Z.to_nat (op - PUSH1 + 1))); [lia|].
    cbn [orb]. fold v. destruct (Z.eqb_spec v 0); [done|].
    set (d1 := if (v =? U256_MAX)%Z then _ else _).
    destruct (grows_push_loop 0 fuel code len (i + Z.to_nat (op - PUSH1 + 1) + 1) d1) as (d' & -> & Hg); [lia..|]. exists d'. split; [done|].
    assert (grows 0 (insert_value (v - 1) (insert_value v d)) d1) as Hg1 by (subst d1; case_match; [done|apply grows_insert_value]).
    split_and!.
    + eapply has_value_grows; [exact Hg|]. eapply has_value_grows; [exact Hg1|].
      eapply has_value_grows; [apply (grows_insert_value 0)|]. apply insert_value_has.
    + eapply has_value_grows; [exact Hg|]. eapply has_value_grows; [exact Hg1|]. apply insert_value_has.
    + intros Hm. eapply has_value_grows; [exact Hg|]. subst d1. destruct (Z.eqb_spec v U256_MAX); [done|]. apply insert_value_has.
  - rewrite Hi. cbn [mbind option_bind]. apply reaches_le in Hr as Hle. unfold operand_size in Hr, Hle. revert Hr Hle. destruct ((PUSH1 <=? op')%Z && (op' <=? PUSH32)%Z); intros Hr Hle.
    + destruct (Nat.ltb_spec (length code) (i + 1)); [lia|].
      destruct (Nat.ltb_spec (length code) (i + 1 + Z.to_nat (op' - PUSH1 + 1))); [lia|]. apply IH; [done|lia].
    + rewrite Nat.add_0_r in Hr. apply IH; [done|lia].
Qed.

(** ** Runs *)

Inductive dict_op :=
  | DCollect (values : list Z)
  | DCall (ts : gmap Z TargetedContract.t) (tx : BasicTxDetails.t) (result : Bytes) (logs : list Log.t)
      (changeset : gmap Z Account)
  | DRevert.

Definition dict_step (depth : nat) (o : dict_op) d : option FuzzDictionary.t :=
  match o with
  | DCollect values => Some (insert_values values d)
  | DCall ts tx result logs changeset => collect_values_from_call ts tx result logs changeset depth d
  | DRevert => Some (revert d)
  end.

Fixpoint dict_run (depth : nat) (l : list dict_op) d : option FuzzDictionary.t :=
  match l with [] => Some d | o :: l => d ← dict_step depth o d; dict_run depth l d end.

(** Calldata has a selector. *)
Definition op_ok (o : dict_op) : Prop :=
  match o with DCall _ tx _ _ _ => 4 ≤ length (BasicTxDetails.calldata tx) | _ => True end.

(** The state is that of the beginning, with more values behind. *)
Definition based_on (limit : nat) d0 d : Prop :=
  within_limits d ∧ samples_within limit d ∧ db_state_values d = length (state_values d0) ∧
  db_addresses d = length (addresses d0) ∧
  state_values d0 `prefix_of` state_values d ∧ addresses d0 `prefix_of` addresses d.

Lemma based_grows limit d0 d d' : based_on limit d0 d → grows limit d d' → based_on limit d0 d'.
Proof.
  intros (A1 & B1 & C1 & D1 & E1 & F1) (A2 & B2 & C2 & D2 & E2 & F2 & G2). split_and!; auto; try congruence; by etrans.
Qed.

Lemma take_prefix {A} (l k : list A) : l `prefix_of` k → take (length l) k = l.
Proof. intros [m ->]. by rewrite take_app_length. Qed.

Lemma revert_based limit d0 d :
  based_on limit d0 d →
  state_values (revert d) = state_values d0 ∧ addresses (revert d) = addresses d0 ∧ based_on limit d0 (revert d).
Proof.
  intros ((H1 & H2 & H3 & H4) & Hs & Hv & Ha & Pv & Pa).
  assert (state_values (revert d) = state_values d0) as Hvr by (cbn; rewrite Hv; by apply take_prefix).
  assert (addresses (revert d) = addresses d0) as Har by (cbn; rewrite Ha; by apply take_prefix).
  split_and!; [done..|]. unfold based_on, within_limits. rewrite Hvr, Har. split_and!; try done.
  - destruct Pv as [k Hk]. rewrite Hk in H1. by apply NoDup_app in H1 as [? _].
  - cbn. apply prefix_length in Pv. lia.
  - destruct Pa as [k Hk]. rewrite Hk in H3. by apply NoDup_app in H3 as [? _].
  - cbn. apply prefix_length in Pa. lia.
Qed.

Lemma fuzz_state_new_based accounts config z random limit :
  ∃ d0, fuzz_state_new accounts config z random = Some d0 ∧ based_on limit d0 d0.
Proof.
  unfold fuzz_state_new, insert_db_values.
  destruct (grows_accounts limit ((λ x, (x.1, (info x.2, btree_iter (storage x.2)))) <$> btree_iter accounts) (new config z))
    as (d & -> & Hg). cbn. eexists. split; [done|].
  set (d1 := if decide (state_values d = []) then insert_value random d else d).
  assert (grows limit (mk [] [] config 0 0 ∅ z 0 0) d1) as (_ & _ & _ & _ & _ & Hw & Hs).
  { etrans; [apply (grows_insert_value _ 0)|]. etrans; [exact Hg|]. subst d1. case_decide; [apply grows_insert_value|done]. }
  split_and!; try done; [apply Hw|apply Hs].
  - split_and!; cbn; [constructor|lia|constructor|lia].
  - intros ty l Hl. cbn in Hl. by rewrite lookup_empty in Hl.
Qed.

Lemma called_function_total abi calldata : 4 ≤ length calldata → is_Some (called_function abi calldata).
Proof.
  intros Hl. unfold called_function, get_prefix. destruct (functions abi); [by eexists|].
  rewrite decide_True by done. by eexists.
Qed.

Lemma collect_values_grows limit ts tx result logs changeset d :
  4 ≤ length (BasicTxDetails.calldata tx) →
  ∃ d', collect_values_from_call ts tx result logs changeset limit d = Some d' ∧ grows limit d d'.
Proof.
  intros Hl. unfold collect_values_from_call.
  assert (is_Some (fuzzed_artifacts ts tx)) as [fa ->].
  { unfold fuzzed_artifacts. destruct (ts !! _) as [c|]; [|by eexists].
    destruct (called_function_total (TargetedContract.abi c) _ Hl) as [f ->]. by eexists. }
  cbn. destruct (grows_accounts limit ((λ x, (x.1, (acc_info x.2, (λ s, (s.1, present_value s.2)) <$> iter (acc_storage x.2)))) <$>
    iter changeset) (insert_result_values fa.2 result limit (insert_logs_values fa.1 logs limit d))) as (d' & Hd' & Hg).
  exists d'. split; [exact Hd'|]. etrans; [apply grows_logs|]. by etrans; [apply grows_result|].
Qed.

Lemma dict_step_based limit d0 d o : op_ok o → based_on limit d0 d → ∃ d', dict_step limit o d = Some d' ∧ based_on limit d0 d'.
Proof.
  intros Ho Hd. destruct o as [values|ts tx result logs changeset|]; cbn.
  - eexists. split; [done|]. eapply based_grows; [done|]. apply grows_foldl. intros. apply grows_insert_value.
  - destruct (collect_values_grows limit ts tx result logs changeset d Ho) as (d' & Hd' & Hg).
    exists d'. split; [exact Hd'|]. by eapply based_grows.
  - eexists. split; [done|]. by apply revert_based.
Qed.

(** C23: the fuzz dictionary over a campaign.  Building it from the accounts of the
    state and any sequence of collecting values, of calls and of ends of runs
    neither panics nor loops; its values and addresses are different and within
    the configured limits, and so are the samples of each type within the depth
    of a run; and the end of a run brings back exactly the values and addresses
    that were collected from the state at the beginning. *)
Theorem dictionary_restored (accounts : gmap Z (DbAccount Bytecode)) (config : FuzzDictionaryConfig) (z : bool)
    (random : Z) :
  ∃ d0, fuzz_state_new accounts config z random = Some d0 ∧
    ∀ (depth : nat) (ops : list dict_op), Forall op_ok ops →
      ∃ d, dict_run depth ops d0 = Some d ∧ within_limits d ∧ samples_within depth d ∧
        state_values (revert d) = state_values d0 ∧ addresses (revert d) = addresses d0.
Proof.
  destruct (fuzz_state_new_based accounts config z random 0) as (d0 & Hd0 & _). exists d0. split; [done|].
  intros depth ops Hops.
  destruct (fuzz_state_new_based accounts config z random depth) as (d1 & Hd1 & Hb). rewrite Hd0 in Hd1. injection Hd1 as <-.
  assert (∀ d, based_on depth d0 d → ∃ d', dict_run depth ops d = Some d' ∧ based_on depth d0 d') as Hrun.
  { clear Hd0 Hb. induction Hops as [|o ops Ho _ IH]; intros d Hd; cbn; [by exists d|].
    destruct (dict_step_based depth d0 d o Ho Hd) as (d' & -> & Hd'). cbn. by apply IH. }
  destruct (Hrun d0 Hb) as (d & Hd & Hbd). exists d. destruct (revert_based _ _ _ Hbd) as (? & ? & _).
  destruct Hbd as (? & ? & _). by split_and!.
Qed.
End laws.
