(* ===== verification/TestExecutor.v ===== *)
(** The executor of tests (evm/evm/src/executors/mod.rs and strategy.rs): calls,
    transactions and their results, when a test counts as successful, and what
    the inspector stack hands over (evm/evm/src/inspectors/stack.rs); and the
    fuzzing inspector (evm/fuzz/src/inspector.rs, invariant/call_override.rs).

    The dictionary, the targets and the recorded overrides are shared by all
    clones of an inspector; they are the record [Shared], which every call of the
    EVM may change, together with random numbers and time.  The EVM itself is
    the parameter [inspect]; the backend is an interface. *)
From stdpp Require Import strings.
From S2P Require Import Prelude Radix Database MultiFork ForkBackend ForkTransact Pranks Frames ExpectEmit ExpectRevert ExpectCall Mocks StateDiffs Mapping Cheats Coverage Contracts FuzzTargets FuzzDict.

Definition CALLER : Z := 0x1804c8AB1F12E6bbf3894d4083f33e07309d1f38.
Definition GLOBAL_FAIL_SLOT : Z := 0x6661696c65640000000000000000000000000000000000000000000000000000.
Definition MAGIC_SKIP : Bytes := (λ c, Z.of_N (N_of_ascii c)) <$> str "FOUNDRY::SKIP".

(** ** Shared state *)

(** Types of revm, of the tracer and of what is left out. *)
Class ExecTypes := {
  SuccessReason : Type;
  HaltReason : Type;
  success_result : SuccessReason → InstructionResult;
  halt_result : HaltReason → InstructionResult;
  success_result_ok : ∀ r, return_ok (success_result r) = true;
  halt_result_not_ok : ∀ r, return_ok (halt_result r) = false;
  Arena : Type;
  arena_nodes : Arena → Z;
  ChiselState : Type;
  StackRest : Type;
  (** random numbers and time *)
  Outside : Type
}.

Section shared.
Context {AT : AbiTypes} {ET : EvmTypes} {DS : DynSol} {XT : ExecTypes}.

(** [last_sequences] are the vectors behind the [Arc]s of call generators. *)
Record Shared := mk_shared {
  dictionary : FuzzDictionary.t; targets : gmap Z TargetedContract.t;
  last_sequences : gmap nat (list (option BasicTxDetails.t)); outside : Outside }.

Definition set_dictionary (d : FuzzDictionary.t) (s : Shared) : Shared :=
  mk_shared d (targets s) (last_sequences s) (outside s).
Definition set_targets (m : gmap Z TargetedContract.t) (s : Shared) : Shared :=
  mk_shared (dictionary s) m (last_sequences s) (outside s).
Definition set_sequences (m : gmap nat (list (option BasicTxDetails.t))) (s : Shared) : Shared :=
  mk_shared (dictionary s) (targets s) m (outside s).
Definition set_outside (o : Outside) (s : Shared) : Shared :=
  mk_shared (dictionary s) (targets s) (last_sequences s) o.
End shared.

(** ** The fuzzing inspector *)

Module RandomCallGenerator.
Record t := mk { test_address : Z; used : bool; replay : bool; last_sequence : nat }.
Definition set_used (b : bool) (g : t) : t := mk (test_address g) b (replay g) (last_sequence g).
End RandomCallGenerator.

Module Fuzzer.
Record t := mk { call_generator : option RandomCallGenerator.t; collect : bool }.
Definition set_collect (b : bool) (f : t) : t := mk (call_generator f) b.
Definition set_generator (g : RandomCallGenerator.t) (f : t) : t := mk (Some g) (collect f).
End Fuzzer.

Section fuzzer.
Context {AT : AbiTypes} {ET : EvmTypes} {DS : DynSol} {XT : ExecTypes}.
(** The strategy of [override_call_strat], nine times of ten, on the contract
    that is preferred: the call it gives, if any. *)
Context (override_strategy : Shared → Z → Outside * option (Z * Bytes)).

Definition sequence_of (g : RandomCallGenerator.t) (s : Shared) : list (option BasicTxDetails.t) :=
  default [] (last_sequences s !! RandomCallGenerator.last_sequence g).
Definition put_sequence (g : RandomCallGenerator.t) (l : list (option BasicTxDetails.t)) (s : Shared) : Shared :=
  set_sequences (<[RandomCallGenerator.last_sequence g := l]> (last_sequences s)) s.

Definition set_replay (status : bool) (g : RandomCallGenerator.t) (s : Shared) : RandomCallGenerator.t * Shared :=
  (RandomCallGenerator.mk (RandomCallGenerator.test_address g) (RandomCallGenerator.used g) status
     (RandomCallGenerator.last_sequence g),
   if status then put_sequence g (reverse (sequence_of g s)) s else s).

(** The next override; a replay that has no more of them panics. *)
Definition next (original_caller original_target : Z) (g : RandomCallGenerator.t) (s : Shared) :
    option (Shared * option BasicTxDetails.t) :=
  if RandomCallGenerator.replay g then
    '(x, l) ← vec_pop (sequence_of g s); Some (put_sequence g l s, x)
  else
    let '(o, call) := override_strategy s original_caller in
    let choice := (λ c, BasicTxDetails.mk original_target c.1 c.2) <$> call in
    let s := set_outside o s in
    Some (put_sequence g (sequence_of g s ++ [choice]) s, choice).

Definition fuzzer_step (stack : list Z) (f : Fuzzer.t) (s : Shared) : Fuzzer.t * Shared :=
  if Fuzzer.collect f
  then (Fuzzer.set_collect false f, set_dictionary (FuzzDictionary.insert_values stack (dictionary s)) s)
  else (f, s).

(** The call with the input, the caller and the target replaced. *)
Definition overridden (tx : BasicTxDetails.t) (c : Call.t) : Call.t :=
  Call.mk (BasicTxDetails.calldata tx) (Call.return_memory_offset c) (Call.gas_limit c) (BasicTxDetails.target tx)
    (BasicTxDetails.target tx) (BasicTxDetails.sender tx) (Call.value c) (Call.scheme c) (Call.is_static c).

Definition override_call (call : Call.t) (f : Fuzzer.t) (s : Shared) : option (Fuzzer.t * Shared * Call.t) :=
  match Fuzzer.call_generator f with
  | None => Some (f, s, call)
  | Some g =>
      if negb (Call.caller call =? RandomCallGenerator.test_address g)%Z &&
         match Call.scheme call with SchemeCall => true | _ => false end && negb (RandomCallGenerator.used g)
      then
        '(s, tx) ← next (Call.caller call) (Call.target_address call) g s;
        match tx with
        | Some tx => Some (Fuzzer.set_generator (RandomCallGenerator.set_used true g) f, s, overridden tx call)
        | None => Some (f, s, call)
        end
      else Some (f, s, call)
  end.

Definition fuzzer_call (tx_caller : Z) (call : Call.t) (f : Fuzzer.t) (s : Shared) : option (Fuzzer.t * Shared * Call.t) :=
  '(f, s, call) ← (if bool_decide (is_Some (Fuzzer.call_generator f)) && negb (tx_caller =? Call.caller call)%Z
                   then override_call call f s else Some (f, s, call));
  Some (Fuzzer.set_collect true f, s, call).

Definition fuzzer_call_end (f : Fuzzer.t) : Fuzzer.t :=
  Fuzzer.mk (RandomCallGenerator.set_used false <$> Fuzzer.call_generator f) true.

(** Several overrides, for the callers and targets of as many calls. *)
Fixpoint nexts (l : list (Z * Z)) (g : RandomCallGenerator.t) (s : Shared) :
    option (Shared * list (option BasicTxDetails.t)) :=
  match l with
  | [] => Some (s, [])
  | x :: l => '(s, o) ← next x.1 x.2 g s; '(s, os) ← nexts l g s; Some (s, o :: os)
  end.

Lemma sequence_put g l s : sequence_of g (put_sequence g l s) = l.
Proof. unfold sequence_of, put_sequence, set_sequences. cbn. by rewrite lookup_insert_eq. Qed.

Lemma nexts_recorded l g s :
  RandomCallGenerator.replay g = false →
  ∃ s' os, nexts l g s = Some (s', os) ∧ sequence_of g s' = sequence_of g s ++ os ∧ length os = length l.
Proof.
  intros Hg. revert s. induction l as [|[from to] l IH]; intros s; cbn [nexts].
  { exists s, []. by rewrite app_nil_r. }
  unfold next at 1. rewrite Hg. destruct (override_strategy s _) as [o call]. cbn [mbind option_bind].
  match goal with |- context [nexts l g ?s1] => destruct (IH s1) as (s' & os & -> & Hs & Hl) end.
  eexists _, _. split; [done|]. rewrite Hs, sequence_put, <-app_assoc. cbn. by rewrite Hl.
Qed.

Lemma nexts_replayed os l g s :
  RandomCallGenerator.replay g = true → sequence_of g s = reverse os → length l = length os →
  ∃ s', nexts l g s = Some (s', os) ∧ sequence_of g s' = [].
Proof.
  intros Hg. revert l s. induction os as [|o os IH]; intros [|[from to] l] s Hs Hl; try done.
  { by exists s. }
  cbn [nexts]. unfold next at 1. rewrite Hg, Hs, reverse_cons. rewrite vec_pop_app.
  cbn. destruct (IH l (put_sequence g (reverse os) s)) as (s' & -> & Hs'); [apply sequence_put|by injection Hl|].
  by exists s'.
Qed.

(** C40: Overriding calls are replayed as they were recorded, after those that the generator had recorded before: with the replay switched on, as many calls as were recorded in all are given all the overrides in their order, and one more call panics. *)
Theorem overrides_replayed (test_address : Z) (used : bool) (loc : nat) (s : Shared) (l : list (Z * Z)) :
  let g := RandomCallGenerator.mk test_address used false loc in
  ∃ s1 os, nexts l g s = Some (s1, os) ∧
    ∀ l', length l' = length (sequence_of g s) + length l →
      let '(g', s2) := set_replay true g s1 in
      ∃ s3, nexts l' g' s2 = Some (s3, sequence_of g s ++ os) ∧ ∀ from to, next from to g' s3 = None.
Proof.
  intros g. destruct (nexts_recorded l g s) as (s1 & os & H1 & Hs1 & Hl); [done|]. exists s1, os. split; [done|].
  intros l' Hl'. unfold set_replay. set (g' := RandomCallGenerator.mk _ _ true _).
  destruct (nexts_replayed (sequence_of g s ++ os) l' g' (put_sequence g (reverse (sequence_of g s1)) s1)) as (s3 & H3 & Hs3);
    [done|rewrite <-Hs1; exact (sequence_put g _ s1)|rewrite length_app; lia|].
  exists s3. split; [done|]. intros from to. unfold next. cbn [RandomCallGenerator.replay g']. by rewrite Hs3.
Qed.
End fuzzer.

(** ** The inspector stack *)

Module IgnoredTraces.
Record t := mk { ignored : gmap (Z * Z) (Z * Z); last_pause_call : option (Z * Z) }.
End IgnoredTraces.

Section stack.
Context {FT : ForkTypes} {CT : CheatTypes} {XT : ExecTypes}.

(** The cheatcodes inspector, with the traces it ignores. *)
Record CheatState := mk_cheat_state { cheatcodes_ : Cheatcodes.t; ignored_traces : IgnoredTraces.t }.

Record InspectorStack := mk_stack {
  cheatcodes : option CheatState; chisel_state : option (option ChiselState);
  coverage : option (gmap Z HitMap.t); fuzzer : option Fuzzer.t; log_collector : option (list Log.t);
  tracer : option Arena; stack_rest : StackRest }.

Definition set_cheatcodes (c : option CheatState) (i : InspectorStack) : InspectorStack :=
  mk_stack c (chisel_state i) (coverage i) (fuzzer i) (log_collector i) (tracer i) (stack_rest i).
Definition set_fuzzer (f : option Fuzzer.t) (i : InspectorStack) : InspectorStack :=
  mk_stack (cheatcodes i) (chisel_state i) (coverage i) f (log_collector i) (tracer i) (stack_rest i).

(** [set_block] and [set_gas_price] *)
Definition set_env (e : Env) (i : InspectorStack) : InspectorStack :=
  set_cheatcodes ((λ c, mk_cheat_state
    (Cheatcodes.set_gas_price (Some (tx_gas_price (tx_rest e)))
      (Cheatcodes.set_block (Some (block_number e, block_timestamp e, block_rest e)) (cheatcodes_ c)))
    (ignored_traces c)) <$> cheatcodes i) i.

(** [SparsedTraceArena] *)
Record Sparsed := mk_sparsed { arena : Arena; ignored_ : gmap (Z * Z) (Z * Z) }.

Record InspectorData := mk_insp_data {
  i_logs : list Log.t; i_labels : gmap Z Str; i_traces : option Sparsed; i_coverage : option (gmap Z HitMap.t);
  i_cheatcodes : option CheatState; i_chisel : option ChiselState }.

Definition collect (i : InspectorStack) : InspectorData :=
  let traces := (λ arena,
    mk_sparsed arena (from_option (λ c,
      let t := ignored_traces c in
      match IgnoredTraces.last_pause_call t with
      | Some p => <[p := (arena_nodes arena, 0%Z)]> (IgnoredTraces.ignored t)
      | None => IgnoredTraces.ignored t
      end) ∅ (cheatcodes i))) <$> tracer i in
  (* the ignored traces are taken out if there is a tracer *)
  let cheats :=
    match tracer i with
    | Some _ => (λ c, mk_cheat_state (cheatcodes_ c) (IgnoredTraces.mk ∅ (IgnoredTraces.last_pause_call (ignored_traces c))))
                  <$> cheatcodes i
    | None => cheatcodes i
    end in
  mk_insp_data (default [] (log_collector i)) (from_option (λ c, Cheatcodes.labels (cheatcodes_ c)) ∅ cheats)
    traces (coverage i) cheats (mjoin (chisel_state i)).
End stack.

(** ** Results *)

Section results.
Context {ET : EvmTypes} {FT : ForkTypes} {CT : CheatTypes} {XT : ExecTypes}.

Inductive Output := OutputCall (data : Bytes) | OutputCreate (code : Bytes) (address : option Z).

Inductive ExecutionResult :=
  | ExecSuccess (reason : SuccessReason) (gas_used gas_refunded : Z) (output : Output)
  | ExecRevert (gas_used : Z) (output : Bytes)
  | ExecHalt (reason : HaltReason) (gas_used : Z).

Record RawCallResult := mk_raw {
  exit_reason : InstructionResult; reverted : bool; has_state_snapshot_failure : bool; result_ : Bytes;
  raw_gas_used : Z; raw_gas_refunded : Z; stipend : Z; raw_logs : list Log.t; raw_labels : gmap Z Str;
  traces : option Sparsed; raw_coverage : option (gmap Z HitMap.t);
  transactions : option (list BroadcastableTransaction.t); state_changeset : gmap Z Account; raw_env : Env;
  raw_cheatcodes : option CheatState; out : option Output; raw_chisel : option ChiselState }.

Definition set_changeset (m : gmap Z Account) (r : RawCallResult) : RawCallResult :=
  mk_raw (exit_reason r) (reverted r) (has_state_snapshot_failure r) (result_ r) (raw_gas_used r) (raw_gas_refunded r)
    (stipend r) (raw_logs r) (raw_labels r) (traces r) (raw_coverage r) (transactions r) m (raw_env r)
    (raw_cheatcodes r) (out r) (raw_chisel r).
Definition take_cheatcodes (r : RawCallResult) : RawCallResult :=
  mk_raw (exit_reason r) (reverted r) (has_state_snapshot_failure r) (result_ r) (raw_gas_used r) (raw_gas_refunded r)
    (stipend r) (raw_logs r) (raw_labels r) (traces r) (raw_coverage r) (transactions r) (state_changeset r) (raw_env r)
    None (out r) (raw_chisel r).

(** [calculate_initial_tx_gas] *)
Context (initial_gas : Env → SpecId → Z).

Definition convert_executed_result (e : Env) (spec : SpecId) (i : InspectorStack)
    (r : ExecutionResult * gmap Z Account) (snapshot_failure : bool) : RawCallResult :=
  let '(exit_reason, gas_refunded, gas_used, out) :=
    match r.1 with
    | ExecSuccess reason gas_used gas_refunded output => (success_result reason, gas_refunded, gas_used, Some output)
    | ExecRevert gas_used output => (Revert, 0%Z, gas_used, Some (OutputCall output))
    | ExecHalt reason gas_used => (halt_result reason, 0%Z, gas_used, None)
    end in
  let result := match out with Some (OutputCall data) => data | _ => [] end in
  let d := collect i in
  let transactions := i_cheatcodes d ≫= λ c,
    let txs := Cheatcodes.broadcastable_transactions (cheatcodes_ c) in
    if decide (length txs = 0) then None else Some txs in
  mk_raw exit_reason (negb (return_ok exit_reason)) snapshot_failure result gas_used gas_refunded
    (initial_gas e spec) (i_logs d) (i_labels d) (i_traces d) (i_coverage d) transactions r.2 e (i_cheatcodes d) out
    (i_chisel d).

(** [SkipReason::decode]; the text is not looked at. *)
Definition skip_decode (raw_result : Bytes) : option Bytes :=
  if decide (take (length MAGIC_SKIP) raw_result = MAGIC_SKIP) then Some (drop (length MAGIC_SKIP) raw_result) else None.

Inductive EvmError :=
  | Execution (raw : RawCallResult) (reason : Str)
  | Abi
  | Skip (reason : Bytes)
  | Eyre (e : Str).

(** [RevertDecoder::decode] *)
Context (revert_decode : Bytes → InstructionResult → Str).

Definition into_evm_error (r : RawCallResult) : EvmError :=
  match skip_decode (result_ r) with
  | Some reason => Skip reason
  | None => Execution r (revert_decode (result_ r) (exit_reason r))
  end.

Definition into_result (r : RawCallResult) : result RawCallResult EvmError :=
  if return_ok (exit_reason r) then Ok r else Err (into_evm_error r).
End results.

(** ** The executor *)

(** What the executor needs of the backend. *)
Class TestBackend (B : Type) {ET : EvmTypes} := {
  tb_commit : gmap Z Account → B → B;
  tb_storage_ref : B → Z → Z → result Z Str;
  tb_basic_ref : B → Z → result (option (AccountInfo Bytecode)) Str;
  (** [clone_empty]: a backend without state *)
  tb_clone_empty : B → B;
  tb_insert_account_info : Z → AccountInfo Bytecode → B → B;
  tb_snapshot_failure : B → bool;
  tb_add_persistent_account : Z → B → B;
  tb_set_caller : Z → B → B;
  (** [AccountInfo::default()] *)
  default_info : AccountInfo Bytecode;
  (** the account that stands for the cheatcodes *)
  cheatcode_info : AccountInfo Bytecode
}.

Section executor.
Context {AT : AbiTypes} {ET : EvmTypes} {FT : ForkTypes} {CT : CheatTypes} {DS : DynSol} {XT : ExecTypes}.
Context {B : Type} {TB : TestBackend B}.
Context (initial_gas : Env → SpecId → Z) (revert_decode : Bytes → InstructionResult → Str).

(** The EVM, on a backend that it may change, under an inspector. *)
Context (inspect : B → Env → SpecId → InspectorStack → Shared →
  Shared * (B * result (Env * InspectorStack * (ExecutionResult * gmap Z Account)) Str)).

Record Executor := mk_executor {
  backend : B; ex_env : Env; spec_id : SpecId; inspector : InspectorStack; gas_limit : Z; legacy_assertions : bool }.

Definition set_backend (b : B) (x : Executor) : Executor :=
  mk_executor b (ex_env x) (spec_id x) (inspector x) (gas_limit x) (legacy_assertions x).
Definition set_inspector (i : InspectorStack) (x : Executor) : Executor :=
  mk_executor (backend x) (ex_env x) (spec_id x) i (gas_limit x) (legacy_assertions x).
Definition set_ex_env (e : Env) (x : Executor) : Executor :=
  mk_executor (backend x) e (spec_id x) (inspector x) (gas_limit x) (legacy_assertions x).

Definition executor_new (b : B) (e : Env) (spec : SpecId) (i : InspectorStack) (gas_limit : Z) (legacy : bool) : Executor :=
  mk_executor (tb_insert_account_info CHEATCODE_ADDRESS cheatcode_info b) e spec i gas_limit legacy.

Definition clone_with_backend (b : B) (x : Executor) : Executor :=
  executor_new b (ex_env x) (spec_id x) (inspector x) (gas_limit x) (legacy_assertions x).

(** [None] as the target is a creation. *)
Definition build_test_env (x : Executor) (caller : Z) (to : option Z) (data : Bytes) (value : Z) : Env :=
  let e := ex_env x in let b := block_rest e in let t := tx_rest e in
  mk_env (block_number e) (block_timestamp e)
    (mk_block_rest (coinbase b) (gas_limit x) 0 (difficulty b) (prevrandao b) (blob_excess_gas_and_price b))
    (cfg e) caller (tx_chain_id e)
    (mk_tx_rest to (gas_limit x) 0 None value data (tx_nonce t) (tx_access_list t) (blob_hashes t)
      (tx_max_fee_per_blob_gas t) (tx_authorization_list t)).

(** The changes of the backend are dropped with the clone they are made on. *)
Definition call_with_env (x : Executor) (e : Env) (s : Shared) : Shared * result RawCallResult Str :=
  let '(s, (b, r)) := inspect (backend x) e (spec_id x) (inspector x) s in
  (s, match r with
      | Err err => Err err
      | Ok (e, i, r) => Ok (convert_executed_result initial_gas e (spec_id x) i r (tb_snapshot_failure b))
      end).

Definition commit (x : Executor) (r : RawCallResult) : Executor * RawCallResult :=
  let x := set_backend (tb_commit (state_changeset r) (backend x)) x in
  let cheats := (λ c, mk_cheat_state (Cheatcodes.set_broadcastable_transactions [] (cheatcodes_ c))
    (IgnoredTraces.mk ∅ ((λ _, (0, 0)%Z) <$> IgnoredTraces.last_pause_call (ignored_traces c)))) <$> raw_cheatcodes r in
  (set_inspector (set_env (raw_env r) (set_cheatcodes cheats (inspector x))) x, take_cheatcodes r).

Definition transact_with_env (x : Executor) (e : Env) (s : Shared) : Shared * (Executor * result RawCallResult Str) :=
  let '(s, (b, r)) := inspect (backend x) e (spec_id x) (inspector x) s in
  let x := set_backend b x in
  match r with
  | Err err => (s, (x, Err err))
  | Ok (e, i, r) =>
      let '(x, r) := commit x (convert_executed_result initial_gas e (spec_id x) i r (tb_snapshot_failure b)) in
      (s, (x, Ok r))
  end.

Definition call_raw (x : Executor) (from to : Z) (calldata : Bytes) (value : Z) (s : Shared) :
    Shared * result RawCallResult Str :=
  call_with_env x (build_test_env x from (Some to) calldata value) s.

Definition transact_raw (x : Executor) (from to : Z) (calldata : Bytes) (value : Z) (s : Shared) :
    Shared * (Executor * result RawCallResult Str) :=
  transact_with_env x (build_test_env x from (Some to) calldata value) s.

(** [call_sol], with the decoding of what the function returns. *)
Definition call_sol {R} (decode : Bytes → option R) (x : Executor) (from to : Z) (calldata : Bytes) (value : Z)
    (s : Shared) : Shared * result R EvmError :=
  let '(s, r) := call_raw x from to calldata value s in
  (s, match r with
      | Err e => Err (Eyre e)
      | Ok r =>
          match into_result revert_decode r with
          | Err e => Err e
          | Ok r => match decode (result_ r) with Some v => Ok v | None => Err Abi end
          end
      end).

Definition call_sol_default {R} (decode : Bytes → option R) (dflt : R) (x : Executor) (to : Z) (calldata : Bytes)
    (s : Shared) : Shared * R :=
  let '(s, r) := call_sol decode x CALLER to calldata 0 s in
  (s, match r with Ok v => v | Err _ => dflt end).

(** ** Success *)

(** [ITest::failedCall], and the decoding of its result. *)
Context (failed_calldata : Bytes) (decode_bool : Bytes → option bool).

Definition global_failure (m : gmap Z Account) : bool :=
  match m !! CHEATCODE_ADDRESS with
  | Some acc =>
      match acc_storage acc !! GLOBAL_FAIL_SLOT with Some slot => negb (present_value slot =? 0)%Z | None => false end
  | None => false
  end.

(** The accounts of the test contract and of the cheatcodes, alone. *)
Fixpoint clone_accounts (l : list Z) (from to : B) : option B :=
  match l with
  | [] => Some to
  | a :: l =>
      match tb_basic_ref from a with
      | Err _ => None
      | Ok acc => clone_accounts l from (tb_insert_account_info a (default default_info acc) to)
      end
  end.

Definition is_success_raw (x : Executor) (address : Z) (reverted : bool) (changes : gmap Z Account) (s : Shared) :
    Shared * bool :=
  if reverted then (s, false)
  else if tb_snapshot_failure (backend x) then (s, false)
  else if global_failure changes then (s, false)
  else if match tb_storage_ref (backend x) CHEATCODE_ADDRESS GLOBAL_FAIL_SLOT with
          | Ok v => negb (v =? 0)%Z | Err _ => false end then (s, false)
  else if negb (legacy_assertions x) then (s, true)
  else
    match clone_accounts [address; CHEATCODE_ADDRESS] (backend x) (tb_clone_empty (backend x)) with
    | None => (s, false)
    | Some b =>
        let y := clone_with_backend (tb_commit changes b) x in
        let '(s, r) := call_sol decode_bool y CALLER address failed_calldata 0 s in
        (s, match r with Ok failed => negb failed | Err _ => true end)
    end.

Definition is_success (x : Executor) (address : Z) (reverted : bool) (changes : gmap Z Account) (should_fail : bool)
    (s : Shared) : Shared * bool :=
  let '(s, success) := is_success_raw x address reverted changes s in (s, xorb should_fail success).

Definition is_raw_call_success (x : Executor) (address : Z) (changes : gmap Z Account) (r : RawCallResult)
    (should_fail : bool) (s : Shared) : Shared * bool :=
  if has_state_snapshot_failure r then (s, should_fail)
  else is_success x address (reverted r) changes should_fail s.

(** The changeset is moved out of the result. *)
Definition is_raw_call_mut_success (x : Executor) (address : Z) (r : RawCallResult) (should_fail : bool) (s : Shared) :
    Shared * (bool * RawCallResult) :=
  let '(s, success) := is_raw_call_success x address (state_changeset r) (set_changeset ∅ r) should_fail s in
  (s, (success, set_changeset ∅ r)).

(** ** Setup and deployment *)

Context (setUp_calldata : Bytes).

Definition set_balance (x : Executor) (address amount : Z) : result Executor Str :=
  let? acc := tb_basic_ref (backend x) address in
  let a := default default_info acc in
  Ok (set_backend (tb_insert_account_info address (mk_info amount (acc_nonce a) (code_hash a) (code a)) (backend x)) x).

Definition set_nonce (x : Executor) (address nonce : Z) : result Executor Str :=
  let? acc := tb_basic_ref (backend x) address in
  let a := default default_info acc in
  Ok (set_backend (tb_insert_account_info address (mk_info (balance a) nonce (code_hash a) (code a)) (backend x)) x).

Definition get_balance (x : Executor) (address : Z) : result Z Str :=
  let? acc := tb_basic_ref (backend x) address in Ok (from_option balance 0%Z acc).
Definition get_nonce (x : Executor) (address : Z) : result Z Str :=
  let? acc := tb_basic_ref (backend x) address in Ok (from_option acc_nonce 0%Z acc).

(** [deploy]; a creation that succeeds without an address panics. *)
Definition deploy (x : Executor) (from : Z) (code : Bytes) (value : Z) (s : Shared) :
    option (Shared * (Executor * result (RawCallResult * Z) EvmError)) :=
  let '(s, (x, r)) := transact_with_env x (build_test_env x from None code value) s in
  match r with
  | Err e => Some (s, (x, Err (Eyre e)))
  | Ok r =>
      match into_result revert_decode r with
      | Err e => Some (s, (x, Err e))
      | Ok r =>
          match out r with
          | Some (OutputCreate _ (Some address)) =>
              Some (s, (set_backend (tb_add_persistent_account address (backend x)) x, Ok (r, address)))
          | _ => None
          end
      end
  end.

(** The environment of the test afterwards: the block, and the chain id of [e]. *)
Context (set_chain_id : Env → Env → Env).

Definition setup (x : Executor) (from : option Z) (to : Z) (s : Shared) :
    Shared * (Executor * result RawCallResult EvmError) :=
  let from := default CALLER from in
  let x := set_backend (tb_set_caller from (backend x)) x in
  let '(s, (x, r)) := transact_raw x from to setUp_calldata 0 s in
  match r with
  | Err e => (s, (x, Err (Eyre e)))
  | Ok r =>
      match into_result revert_decode r with
      | Err e => (s, (x, Err e))
      | Ok r =>
          let e := ex_env x in let e' := raw_env r in
          let x := set_ex_env (set_chain_id e' (mk_env (block_number e') (block_timestamp e') (block_rest e') (cfg e)
            (tx_caller e) (tx_chain_id e) (tx_rest e))) x in
          let '(s, success) := is_raw_call_success x to (state_changeset r) r false s in
          (s, (x, if success then Ok r else Err (Execution r (str "execution error"))))
      end
  end.
End executor.
