(* ===== verification/Invariant.v ===== *)
(** Invariant tests (evm/evm/src/executors/invariant/): the campaign of random
    calls with the invariant checked after each of them (mod.rs, result.rs), what
    is recorded of a failure (error.rs), its shrinking (shrink.rs) and its replay
    (replay.rs).

    The runner of proptest gives the first call of each run and stops at the
    first run that fails; the strategies, the timer and the EVM are parameters. *)
From stdpp Require Import strings.
From S2P Require Import Prelude Radix Database MultiFork ForkBackend ForkTransact Pranks Frames ExpectEmit ExpectRevert ExpectCall Mocks StateDiffs Mapping Cheats Coverage Contracts FuzzTargets FuzzDict TestExecutor.

(** ** Data *)

(** proptest's [VarBitSet] *)
Class BitSetLike (T : Type) := {
  saturated : nat → T;
  bit_test : T → nat → bool;
  bit_clear : nat → T → T;
  bit_set : nat → T → T
}.

Class BitSetLaws (T : Type) {BS : BitSetLike T} := {
  saturated_test : ∀ n i, bit_test (saturated n) i = (i <? n)%nat;
  clear_test : ∀ s i j, bit_test (bit_clear i s) j = if decide (i = j) then false else bit_test s j;
  set_test : ∀ s i j, bit_test (bit_set i s) j = if decide (i = j) then true else bit_test s j
}.

Record InvariantConfig := mk_inv_config {
  runs : nat; depth : nat; fail_on_revert : bool; call_override : bool; dictionary_config : FuzzDictionaryConfig;
  shrink_run_limit : nat; max_assume_rejects : nat; gas_report_samples : nat; show_metrics : bool;
  inv_no_zksync_reserved : bool }.

Record InvariantMetrics := mk_metrics { m_calls : Z; m_reverts : Z; m_discards : Z }.

Record FuzzCase := mk_fuzz_case { case_calldata : Bytes; case_gas : Z; case_stipend : Z }.

(** [FuzzedCases::new] *)
Definition fuzzed_cases (cases : list FuzzCase) : list FuzzCase :=
  sort_by (λ x y, Z.compare (case_gas x) (case_gas y)) cases.

(** proptest's [TestError] *)
Inductive TestError :=
  | TestAbort (reason : Str)
  | TestFail (reason : Str) (calls : list BasicTxDetails.t).

Record FailedInvariantCaseData := mk_case {
  test_error : TestError; return_reason : Str; case_revert_reason : Str; addr : Z; inv_calldata : Bytes;
  inner_sequence : list (option BasicTxDetails.t); case_shrink_run_limit : nat; case_fail_on_revert : bool }.

Inductive InvariantFuzzError :=
  | InvRevert (case : FailedInvariantCaseData)
  | BrokenInvariant (case : FailedInvariantCaseData)
  | MaxAssumeRejects (allowed : nat).

Definition error_revert_reason (e : InvariantFuzzError) : option Str :=
  match e with
  | BrokenInvariant c | InvRevert c => if decide (case_revert_reason c = []) then None else Some (case_revert_reason c)
  | MaxAssumeRejects allowed =>
      Some (str "`vm.assume` rejected too many inputs (" ++ to_radix 10 (Z.of_nat allowed) ++ str " allowed)")
  end.

Record InvariantFailures := mk_failures {
  reverts : Z; inv_revert_reason : option Str; error : option InvariantFuzzError }.

Definition failures_new : InvariantFailures := mk_failures 0 None None.

(** The two runners of a test. *)
Inductive Runner := MainRunner | BranchRunner.

Section data.
Context {AT : AbiTypes} {ET : EvmTypes} {FT : ForkTypes} {CT : CheatTypes} {DS : DynSol} {XT : ExecTypes}.
Context {B : Type}.

Record InvariantContract := mk_contract {
  inv_address : Z; invariant_function : Function; call_after_invariant : bool; inv_abi : JsonAbi }.

Record InvariantTestData := mk_data {
  fuzz_cases : list (list FuzzCase); failures : InvariantFailures; last_run_inputs : list BasicTxDetails.t;
  gas_report_traces : list (list Arena); last_call_results : option RawCallResult;
  data_coverage : option (gmap Z HitMap.t); metrics : gmap Str InvariantMetrics }.

Record InvariantTestRun := mk_run {
  inputs : list BasicTxDetails.t; executor : Executor (B := B); fuzz_runs : list FuzzCase;
  created_contracts : list Z; run_traces : list Sparsed; run_depth : nat; assume_rejects_counter : nat }.

Definition set_failures (f : InvariantFailures) (d : InvariantTestData) : InvariantTestData :=
  mk_data (fuzz_cases d) f (last_run_inputs d) (gas_report_traces d) (last_call_results d) (data_coverage d) (metrics d).
Definition set_error (e : InvariantFuzzError) (d : InvariantTestData) : InvariantTestData :=
  set_failures (mk_failures (reverts (failures d)) (inv_revert_reason (failures d)) (Some e)) d.
Definition set_last_run_inputs (l : list BasicTxDetails.t) (d : InvariantTestData) : InvariantTestData :=
  mk_data (fuzz_cases d) (failures d) l (gas_report_traces d) (last_call_results d) (data_coverage d) (metrics d).
Definition set_last_call_results (r : option RawCallResult) (d : InvariantTestData) : InvariantTestData :=
  mk_data (fuzz_cases d) (failures d) (last_run_inputs d) (gas_report_traces d) r (data_coverage d) (metrics d).
Definition set_coverage (c : option (gmap Z HitMap.t)) (d : InvariantTestData) : InvariantTestData :=
  mk_data (fuzz_cases d) (failures d) (last_run_inputs d) (gas_report_traces d) (last_call_results d) c (metrics d).
Definition set_metrics (m : gmap Str InvariantMetrics) (d : InvariantTestData) : InvariantTestData :=
  mk_data (fuzz_cases d) (failures d) (last_run_inputs d) (gas_report_traces d) (last_call_results d) (data_coverage d) m.
Definition has_errors (d : InvariantTestData) : bool := bool_decide (is_Some (error (failures d))).

Definition set_inputs (l : list BasicTxDetails.t) (r : InvariantTestRun) : InvariantTestRun :=
  mk_run l (executor r) (fuzz_runs r) (created_contracts r) (run_traces r) (run_depth r) (assume_rejects_counter r).
Definition set_executor (x : Executor) (r : InvariantTestRun) : InvariantTestRun :=
  mk_run (inputs r) x (fuzz_runs r) (created_contracts r) (run_traces r) (run_depth r) (assume_rejects_counter r).
Definition push_case (c : FuzzCase) (r : InvariantTestRun) : InvariantTestRun :=
  mk_run (inputs r) (executor r) (fuzz_runs r ++ [c]) (created_contracts r) (run_traces r) (run_depth r)
    (assume_rejects_counter r).
Definition set_created (l : list Z) (r : InvariantTestRun) : InvariantTestRun :=
  mk_run (inputs r) (executor r) (fuzz_runs r) l (run_traces r) (run_depth r) (assume_rejects_counter r).
Definition push_traces (t : option Sparsed) (r : InvariantTestRun) : InvariantTestRun :=
  mk_run (inputs r) (executor r) (fuzz_runs r) (created_contracts r) (run_traces r ++ from_option (λ t, [t]) [] t)
    (run_depth r) (assume_rejects_counter r).
Definition next_depth (r : InvariantTestRun) : InvariantTestRun :=
  mk_run (inputs r) (executor r) (fuzz_runs r) (created_contracts r) (run_traces r) (S (run_depth r))
    (assume_rejects_counter r).
Definition next_reject (r : InvariantTestRun) : InvariantTestRun :=
  mk_run (inputs r) (executor r) (fuzz_runs r) (created_contracts r) (run_traces r) (run_depth r)
    (S (assume_rejects_counter r)).

Definition pop_input (r : InvariantTestRun) : InvariantTestRun := set_inputs (removelast (inputs r)) r.

Definition run_new (first_input : BasicTxDetails.t) (x : Executor) : InvariantTestRun := mk_run [first_input] x [] [] [] 0 0.

Definition data_new (f : InvariantFailures) (last_call_results : option RawCallResult) : InvariantTestData :=
  mk_data (match last_call_results with None => [fuzzed_cases []] | Some _ => [] end) f [] [] last_call_results None ∅.

Definition record_metrics (tx : BasicTxDetails.t) (reverted discarded : bool) (ts : gmap Z TargetedContract.t)
    (d : InvariantTestData) : option InvariantTestData :=
  key ← fuzzed_metric_key ts tx;
  Some match key with
  | Some key =>
      let m := default (mk_metrics 0 0 0) (metrics d !! key) in
      let m := mk_metrics (m_calls m + 1) (m_reverts m) (m_discards m) in
      let m := if discarded then mk_metrics (m_calls m) (m_reverts m) (m_discards m + 1)
               else if reverted then mk_metrics (m_calls m) (m_reverts m + 1) (m_discards m) else m in
      set_metrics (<[key := m]> (metrics d)) d
  | None => d
  end.

Definition end_run (run : InvariantTestRun) (gas_samples : nat) (d : InvariantTestData) (s : Shared) :
    InvariantTestData * Shared :=
  let s := set_targets (clear_created_contracts (created_contracts run) (targets s)) s in
  let traces := if (length (gas_report_traces d) <? gas_samples)%nat
                then gas_report_traces d ++ [arena <$> run_traces run] else gas_report_traces d in
  (mk_data (fuzz_cases d ++ [fuzzed_cases (fuzz_runs run)]) (failures d) (last_run_inputs d) traces
     (last_call_results d) (data_coverage d) (metrics d),
   set_dictionary (FuzzDictionary.revert (dictionary s)) s).
End data.

(** ** The shrinker *)

Module CallSequenceShrinker.
Section shrinker.
Context {T : Type} {BS : BitSetLike T}.

Record t := mk { call_sequence_len : nat; included_calls : T; shrink : nat; prev_shrink : option nat }.

Definition new (call_sequence_len : nat) : t := mk call_sequence_len (saturated call_sequence_len) 0 None.

Definition current (k : t) : list nat := filter (λ i, bit_test (included_calls k) i = true) (seq 0 (call_sequence_len k)).

Definition simplify (k : t) : t * bool :=
  if (call_sequence_len k <=? shrink k)%nat then (k, false)
  else (mk (call_sequence_len k) (bit_clear (shrink k) (included_calls k)) (S (shrink k)) (Some (shrink k)), true).

Definition complicate (k : t) : t * bool :=
  match prev_shrink k with
  | Some i => simplify (mk (call_sequence_len k) (bit_set i (included_calls k)) (shrink k) None)
  | None => (k, false)
  end.
End shrinker.
#[global] Arguments t _ : clear implicits.
End CallSequenceShrinker.

(** ** Strategies *)

(** What the strategies of proptest draw, by one of the runners. *)
Class Proptest {AT : AbiTypes} {ET : EvmTypes} {DS : DynSol} {XT : ExecTypes} := {
  (** an index below a bound: [Selector::select] and [Index::get] *)
  sample : Runner → nat → Shared → Outside * nat;
  sample_below : ∀ r n s, 0 < n → (sample r n s).2 < n;
  (** an address that passes a filter, from the dictionary or at random;
      nothing after too many rejections *)
  draw_address : Runner → (Z → bool) → Shared → Outside * option Z;
  draw_address_filtered : ∀ r p s a, (draw_address r p s).2 = Some a → p a = true;
  (** [fuzz_calldata] and [fuzz_calldata_from_state]: the selector and encoded arguments *)
  draw_calldata : Runner → Function → Shared → Outside * Bytes;
  draw_calldata_selector : ∀ r f s, length (selector f) = 4 → take 4 (draw_calldata r f s).2 = selector f;
  draw_calldata_length : ∀ r f s, 4 ≤ length (draw_calldata r f s).2;
  (** the timer *)
  is_timed_out : Shared → Outside * bool;
  (** an address at random *)
  random_address : Shared → Outside * Z
}.

Section strategy.
Context {AT : AbiTypes} {ET : EvmTypes} {DS : DynSol} {XT : ExecTypes} {PT : Proptest}.

Definition select_random_sender (r : Runner) (senders : SenderFilters) (s : Shared) : Shared * option Z :=
  match senders_targeted senders with
  | [] => let '(o, a) := draw_address r (λ a, negb (bool_decide (a ∈ senders_excluded senders))) s in (set_outside o s, a)
  | l => let '(o, i) := sample r (length l) s in (set_outside o s, l !! i)
  end.

(** The choice of a function panics if there is none. *)
Definition invariant_strat (r : Runner) (senders : SenderFilters) (s : Shared) : option (Shared * option BasicTxDetails.t) :=
  let functions := fuzzed_functions (targets s) in
  let '(o, i) := sample r (length functions) s in
  '(target, f) ← functions !! i;
  let '(s, sender) := select_random_sender r senders (set_outside o s) in
  match sender with
  | None => Some (s, None)
  | Some sender =>
      let '(o, calldata) := draw_calldata r f s in
      Some (set_outside o s, Some (BasicTxDetails.mk sender target calldata))
  end.
End strategy.

(** ** Checks *)

Section invariant.
Context {AT : AbiTypes} {ET : EvmTypes} {FT : ForkTypes} {CT : CheatTypes} {DS : DynSol} {XT : ExecTypes} {PT : Proptest}.
Context {B : Type} {TB : TestBackend B} {IO : IterOrder} {MO : MapOrder} {AL : Alloy}.
Context (initial_gas : Env → SpecId → Z) (revert_decode : Bytes → InstructionResult → Str).
Context (inspect : B → Env → SpecId → InspectorStack → Shared →
  Shared * (B * result (Env * InspectorStack * (ExecutionResult * gmap Z Account)) Str)).
Context (failed_calldata : Bytes) (decode_bool : Bytes → option bool) (afterInvariant_selector : Bytes).
(** [abi_encode_input(&[])] *)
Context (abi_encode_empty : Function → result Bytes Str).
(** [RevertDecoder::decode], with the ABIs of the targets and of the test *)
Context (decode_revert : list JsonAbi → Bytes → InstructionResult → Str).

Abbreviation Executor := (Executor (B := B)).
Abbreviation InvariantTestRun := (InvariantTestRun (B := B)).
Abbreviation call_raw := (call_raw initial_gas inspect).
Abbreviation transact_raw := (transact_raw initial_gas inspect).

Definition call_function (x : Executor) (address : Z) (calldata : Bytes) (s : Shared) :
    Shared * result (RawCallResult * bool) Str :=
  let '(s, r) := call_raw x CALLER address calldata 0 s in
  match r with
  | Err e => (s, Err e)
  | Ok r =>
      let '(s, (success, r)) :=
        is_raw_call_mut_success initial_gas revert_decode inspect failed_calldata decode_bool x address r false s in
      (s, Ok (r, success))
  end.

Definition call_invariant_function (x : Executor) (address : Z) (calldata : Bytes) (s : Shared) :
    Shared * result (RawCallResult * bool) Str := call_function x address calldata s.

Definition call_after_invariant_function (x : Executor) (to : Z) (s : Shared) :
    Shared * result (RawCallResult * bool) Str := call_function x to afterInvariant_selector s.

Definition case_new (ic : InvariantContract) (cfg : InvariantConfig) (ts : gmap Z TargetedContract.t)
    (calls : list BasicTxDetails.t) (r : RawCallResult) (inner : list (option BasicTxDetails.t)) : FailedInvariantCaseData :=
  let reason := decode_revert ((TargetedContract.abi <$> (btree_iter ts).*2) ++ [inv_abi ic]) (result_ r) (exit_reason r) in
  mk_case (TestFail (fn_name (invariant_function ic) ++ str ", reason: " ++ reason) calls) [] reason (inv_address ic)
    (selector (invariant_function ic)) inner (shrink_run_limit cfg) (fail_on_revert cfg).

Definition generator_sequence (x : Executor) (s : Shared) : list (option BasicTxDetails.t) :=
  match fuzzer (inspector x) ≫= Fuzzer.call_generator with Some g => sequence_of g s | None => [] end.

Definition assert_invariants (ic : InvariantContract) (cfg : InvariantConfig) (x : Executor)
    (calls : list BasicTxDetails.t) (f : InvariantFailures) (s : Shared) :
    Shared * (InvariantFailures * result (option RawCallResult) Str) :=
  let inner := generator_sequence x s in
  match abi_encode_empty (invariant_function ic) with
  | Err e => (s, (f, Err e))
  | Ok calldata =>
      let '(s, r) := call_invariant_function x (inv_address ic) calldata s in
      match r with
      | Err e => (s, (f, Err e))
      | Ok (r, success) =>
          if negb success && negb (bool_decide (is_Some (error f))) then
            (s, (mk_failures (reverts f) (inv_revert_reason f)
                   (Some (BrokenInvariant (case_new ic cfg (targets s) calls r inner))), Ok None))
          else (s, (f, Ok (Some r)))
      end
  end.

(** [keys().all(..)], up to the first that fails. *)
Fixpoint handlers_succeeded (x : Executor) (keys : list Z) (changes : gmap Z Account) (s : Shared) : Shared * bool :=
  match keys with
  | [] => (s, true)
  | a :: keys =>
      let '(s, ok) := is_success initial_gas revert_decode inspect failed_calldata decode_bool x a false changes false s in
      if ok then handlers_succeeded x keys changes s else (s, false)
  end.

(** Whether the test can continue, with the result of the invariant. *)
Definition can_continue (ic : InvariantContract) (cfg : InvariantConfig) (d : InvariantTestData) (run : InvariantTestRun)
    (r : RawCallResult) (changes : gmap Z Account) (s : Shared) :
    Shared * (InvariantTestData * InvariantTestRun * result (bool * option RawCallResult) Str) :=
  let '(s, ok) := if reverted r then (s, false)
                  else handlers_succeeded (executor run) (btree_iter (targets s)).*1 changes s in
  if ok then
    let run := push_traces (traces r) run in
    let '(s, (f, res)) := assert_invariants ic cfg (executor run) (inputs run) (failures d) s in
    (s, (set_failures f d, run,
         let? res := res in Ok (bool_decide (is_Some res), res)))
  else
    let f := failures d in
    let n := (reverts f + 1)%Z in
    if fail_on_revert cfg then
      let case := case_new ic cfg (targets s) (inputs run) r [] in
      (s, (set_failures (mk_failures n (Some (case_revert_reason case)) (Some (InvRevert case))) d, run, Ok (false, None)))
    else
      (s, (set_failures (mk_failures n (inv_revert_reason f) (error f)) d,
           if reverted r then pop_input run else run, Ok (true, None))).

Definition assert_after_invariant (ic : InvariantContract) (cfg : InvariantConfig) (d : InvariantTestData)
    (run : InvariantTestRun) (s : Shared) : Shared * (InvariantTestData * result bool Str) :=
  let '(s, r) := call_after_invariant_function (executor run) (inv_address ic) s in
  match r with
  | Err e => (s, (d, Err e))
  | Ok (r, success) =>
      (s, (if success then d else set_error (BrokenInvariant (case_new ic cfg (targets s) (inputs run) r [])) d, Ok success))
  end.

(** ** Runs *)

(** [Bytecode::original_byte_slice] and [Bytecode::is_empty] *)
Context (original_bytes : Bytecode → Bytes) (code_is_empty : Bytecode → bool).
Context (project : list (ArtifactId * ContractData)) (setup_contracts : gmap Z (Str * JsonAbi)).
(** overflow checks *)
Context (chk : bool).

(** The changes of a sender without code are not collected. *)
Definition collect_data (tx : BasicTxDetails.t) (r : RawCallResult) (depth : nat) (s : Shared) : option Shared :=
  let sender := BasicTxDetails.sender tx in
  let has_code := match state_changeset r !! sender ≫= λ a, code (acc_info a) with
                  | Some c => negb (code_is_empty c) | None => false end in
  let changes := if has_code then state_changeset r else delete sender (state_changeset r) in
  d ← collect_values_from_call (targets s) tx (result_ r) (raw_logs r) changes depth (dictionary s);
  Some (set_dictionary d s).

Definition TEST_TIMEOUT : Str := str "FOUNDRY::TEST_TIMEOUT".

(** A call that was rejected by [vm.assume]; the last component is the error
    that ends the run. *)
Definition discard_call (cfg : InvariantConfig) (d : InvariantTestData) (run : InvariantTestRun) :
    InvariantTestData * InvariantTestRun * option Str :=
  let run := next_reject (pop_input run) in
  if (max_assume_rejects cfg <? assume_rejects_counter run)%nat
  then (set_error (MaxAssumeRejects (max_assume_rejects cfg)) d, run,
        Some (str "reached maximum number of `vm.assume` rejects"))
  else (d, run, None).

Definition commit_call (ic : InvariantContract) (cfg : InvariantConfig) (filters : ArtifactFilters) (updatable : bool)
    (tx : BasicTxDetails.t) (r : RawCallResult) (d : InvariantTestData) (run : InvariantTestRun) (s : Shared) :
    option (Shared * (InvariantTestData * InvariantTestRun * option Str)) :=
  let '(x, r) := commit (executor run) r in
  let run := set_executor x run in
  s ← (if reverted r then Some s else collect_data tx r (depth cfg) s);
  let '(ts, created, _) :=
    collect_created_contracts original_bytes updatable (state_changeset r) project setup_contracts filters
      (targets s) (created_contracts run) in
  let s := set_targets ts s in
  let run := push_case (mk_fuzz_case (BasicTxDetails.calldata tx) (raw_gas_used r) (stipend r)) (set_created created run) in
  let '(s, (d, run, res)) := can_continue ic cfg d run r (state_changeset r) s in
  match res with
  | Err e => Some (s, (d, run, Some e))
  | Ok (continue, result) =>
      let d := if negb continue || (run_depth run =? depth cfg - 1)%nat then set_last_run_inputs (inputs run) d else d in
      if continue then Some (s, (set_last_call_results result d, next_depth run, None))
      else Some (s, (d, run, Some (str "test cannot continue")))
  end.

(** The body of the loop over the calls of a run. *)
Definition run_step (ic : InvariantContract) (cfg : InvariantConfig) (senders : SenderFilters) (filters : ArtifactFilters)
    (updatable : bool) (d : InvariantTestData) (run : InvariantTestRun) (s : Shared) :
    option (Shared * (InvariantTestData * InvariantTestRun * option Str)) :=
  let '(o, timed_out) := is_timed_out s in
  let s := set_outside o s in
  if timed_out then Some (s, (d, run, Some TEST_TIMEOUT))
  else
    match last (inputs run) with
    | None => Some (s, (d, run, Some (str "no input generated to called fuzz target")))
    | Some tx =>
        let '(s, r) := call_raw (executor run) (BasicTxDetails.sender tx) (BasicTxDetails.target tx)
                         (BasicTxDetails.calldata tx) 0 s in
        match r with
        | Err e => Some (s, (d, run, Some e))
        | Ok r =>
            let discarded := bool_decide (result_ r = MAGIC_ASSUME) in
            d ← (if show_metrics cfg then record_metrics tx (reverted r) discarded (targets s) d else Some d);
            c ← HitMaps.merge_opt chk (data_coverage d) (raw_coverage r);
            let d := set_coverage c d in
            '(s, (d, run, stop)) ←
              (if discarded then Some (s, discard_call cfg d run)
               else commit_call ic cfg filters updatable tx r d run s);
            match stop with
            | Some _ => Some (s, (d, run, stop))
            | None =>
                '(s, next) ← invariant_strat BranchRunner senders s;
                match next with
                | None => Some (s, (d, run, Some (str "Could not generate case")))
                | Some tx => Some (s, (d, set_inputs (inputs run ++ [tx]) run, None))
                end
            end
        end
    end.

Fixpoint run_loop (fuel : nat) (ic : InvariantContract) (cfg : InvariantConfig) (senders : SenderFilters)
    (filters : ArtifactFilters) (updatable : bool) (d : InvariantTestData) (run : InvariantTestRun) (s : Shared) :
    option (Shared * (InvariantTestData * InvariantTestRun * option Str)) :=
  if (run_depth run <? depth cfg)%nat then
    match fuel with
    | O => None
    | S fuel =>
        '(s, (d, run, stop)) ← run_step ic cfg senders filters updatable d run s;
        match stop with
        | Some _ => Some (s, (d, run, stop))
        | None => run_loop fuel ic cfg senders filters updatable d run s
        end
    end
  else Some (s, (d, run, None)).

(** Enough for every call and every rejection of a run. *)
Definition run_fuel (cfg : InvariantConfig) : nat := depth cfg + max_assume_rejects cfg + 1.

(** The closure that the runner calls with the first input. *)
Definition run_once (ic : InvariantContract) (cfg : InvariantConfig) (senders : SenderFilters) (filters : ArtifactFilters)
    (updatable : bool) (x : Executor) (first_input : BasicTxDetails.t) (d : InvariantTestData) (s : Shared) :
    option (Shared * (InvariantTestData * option Str)) :=
  let run := run_new first_input x in
  if fail_on_revert cfg && (0 <? reverts (failures d))%Z then Some (s, (d, Some (str "call reverted")))
  else
    '(s, (d, run, stop)) ← run_loop (run_fuel cfg) ic cfg senders filters updatable d run s;
    match stop with
    | Some e => Some (s, (d, Some e))
    | None =>
        let '(s, (d, r)) :=
          if call_after_invariant ic && negb (has_errors d) then assert_after_invariant ic cfg d run s
          else (s, (d, Ok true)) in
        match r with
        | Err _ => Some (s, (d, Some (str "Failed to call afterInvariant")))
        | Ok _ => let '(d, s) := end_run run (gas_report_samples cfg) d s in Some (s, (d, None))
        end
    end.

(** [TestRunner::run]: the runs, up to the first that fails. *)
Fixpoint runner_run (n : nat) (ic : InvariantContract) (cfg : InvariantConfig) (senders : SenderFilters)
    (filters : ArtifactFilters) (updatable : bool) (x : Executor) (d : InvariantTestData) (s : Shared) :
    option (Shared * InvariantTestData) :=
  match n with
  | O => Some (s, d)
  | S n =>
      '(s, first) ← invariant_strat MainRunner senders s;
      match first with
      | None => Some (s, d)
      | Some tx =>
          '(s, (d, stop)) ← run_once ic cfg senders filters updatable x tx d s;
          match stop with
          | Some _ => Some (s, d)
          | None => runner_run n ic cfg senders filters updatable x d s
          end
      end
  end.

(** ** Preparation *)

(** The calldata and the decoding of a function that declares targets. *)
Record Declares (R : Type) := mk_declares { declares_calldata : Bytes; declares_decode : Bytes → option (list R) }.
#[local] Arguments declares_calldata {_} _.
#[local] Arguments declares_decode {_} _.

Record DeclaringFunctions := mk_declaring {
  f_targetArtifactSelectors : Declares (Str * list Bytes); f_targetArtifacts : Declares Str;
  f_excludeArtifacts : Declares Str; f_targetSenders : Declares Z; f_excludeSenders : Declares Z;
  f_targetContracts : Declares Z; f_excludeContracts : Declares Z; f_targetInterfaces : Declares (Z * list Str);
  f_targetSelectors : Declares (Z * list Bytes); f_excludeSelectors : Declares (Z * list Bytes) }.
Context (declaring : DeclaringFunctions).

Definition declared_list {R} (f : Declares R) (x : Executor) (to : Z) (s : Shared) : Shared * list R :=
  call_sol_default initial_gas revert_decode inspect (declares_decode f) [] x to (declares_calldata f) s.

(** What the test contract declares; the calls are made before their results are
    looked at. *)
Definition get_declared (x : Executor) (to : Z) (s : Shared) : Shared * Declared :=
  let '(s, tas) := declared_list (f_targetArtifactSelectors declaring) x to s in
  let '(s, ta) := declared_list (f_targetArtifacts declaring) x to s in
  let '(s, ea) := declared_list (f_excludeArtifacts declaring) x to s in
  let '(s, tse) := declared_list (f_targetSenders declaring) x to s in
  let '(s, ese) := declared_list (f_excludeSenders declaring) x to s in
  let '(s, tc) := declared_list (f_targetContracts declaring) x to s in
  let '(s, ec) := declared_list (f_excludeContracts declaring) x to s in
  let '(s, ti) := declared_list (f_targetInterfaces declaring) x to s in
  let '(s, ts) := declared_list (f_targetSelectors declaring) x to s in
  let '(s, es) := declared_list (f_excludeSelectors declaring) x to s in
  (s, mk_declared tas ta ea tse ese tc ec ti ts es).

(** The accounts of the in-memory database. *)
Context (mem_accounts : B → gmap Z (DbAccount Bytecode)).

(** What a test starts with: the senders, the filters, whether the targets may be
    extended, the executor and the data. *)
Record Prepared := mk_prepared {
  p_senders : SenderFilters; p_filters : ArtifactFilters; p_updatable : bool; p_executor : Executor;
  p_data : InvariantTestData }.

(** The sequence of a new call generator. *)
Definition new_sequence (s : Shared) : nat := fresh (dom (last_sequences s)).

Definition prepare_test (ic : InvariantContract) (cfg : InvariantConfig) (x : Executor) (filters : ArtifactFilters)
    (s : Shared) : option (Shared * result Prepared Str) :=
  let '(s, d) := get_declared x (inv_address ic) s in
  match (let? filters := select_contract_artifacts project d filters in
         let? chosen := select_contracts_and_senders project setup_contracts d filters (inv_address ic) in
         Ok (filters, chosen)) with
  | Err e => Some (s, Err e)
  | Ok (filters, (senders, (ts, updatable))) =>
      let '(o, random) := random_address s in
      dict ← fuzz_state_new (mem_accounts (backend x)) (dictionary_config cfg) (inv_no_zksync_reserved cfg) random;
      let s := set_targets ts (set_dictionary dict (set_outside o s)) in
      let '(s, generator) :=
        if call_override cfg then
          let g := RandomCallGenerator.mk (inv_address ic) false false (new_sequence s) in (put_sequence g [] s, Some g)
        else (s, None) in
      let x := set_inspector (set_fuzzer (Some (Fuzzer.mk generator true)) (inspector x)) x in
      let '(s, (f, r)) := assert_invariants ic cfg x [] failures_new s in
      Some (s,
        let? last := r in
        match error f with
        | Some e => Err (default [] (error_revert_reason e))
        | None => Ok (mk_prepared senders filters updatable x (data_new f last))
        end)
  end.

Record InvariantFuzzTestResult := mk_fuzz_result {
  res_error : option InvariantFuzzError; res_cases : list (list FuzzCase); res_reverts : Z;
  res_last_run_inputs : list BasicTxDetails.t; res_gas_report_traces : list (list Arena);
  res_coverage : option (gmap Z HitMap.t); res_metrics : gmap Str InvariantMetrics }.

Definition result_of (d : InvariantTestData) : InvariantFuzzTestResult :=
  mk_fuzz_result (error (failures d)) (fuzz_cases d) (reverts (failures d)) (last_run_inputs d) (gas_report_traces d)
    (data_coverage d) (metrics d).

Definition invariant_fuzz (ic : InvariantContract) (cfg : InvariantConfig) (x : Executor) (s : Shared) :
    option (Shared * result InvariantFuzzTestResult Str) :=
  if negb (no_inputs (invariant_function ic)) then Some (s, Err (str "Invariant test function should have no inputs"))
  else
    '(s, p) ← prepare_test ic cfg x (mk_filters ∅ []) s;
    match p with
    | Err e => Some (s, Err e)
    | Ok p =>
        '(s, d) ← runner_run (runs cfg) ic cfg (p_senders p) (p_filters p) (p_updatable p) (p_executor p) (p_data p) s;
        Some (s, Ok (result_of d))
    end.

(** ** Shrinking *)

(** The calls of a sequence, by their indices; an index out of range panics. *)
Fixpoint apply_calls (x : Executor) (calls : list BasicTxDetails.t) (sequence : list nat) (fail_on_revert : bool)
    (s : Shared) : option (Shared * (Executor * result bool Str)) :=
  match sequence with
  | [] => Some (s, (x, Ok true))
  | i :: sequence =>
      tx ← calls !! i;
      let '(s, (x, r)) := transact_raw x (BasicTxDetails.sender tx) (BasicTxDetails.target tx)
                            (BasicTxDetails.calldata tx) 0 s in
      match r with
      | Err e => Some (s, (x, Err e))
      | Ok r =>
          if reverted r && fail_on_revert && negb (bool_decide (result_ r = MAGIC_ASSUME)) then Some (s, (x, Ok false))
          else apply_calls x calls sequence fail_on_revert s
      end
  end.

Definition check_sequence (x : Executor) (calls : list BasicTxDetails.t) (sequence : list nat) (test_address : Z)
    (calldata : Bytes) (fail_on_revert call_after_invariant : bool) (s : Shared) :
    option (Shared * result (bool * bool) Str) :=
  '(s, (x, applied)) ← apply_calls x calls sequence fail_on_revert s;
  match applied with
  | Err e => Some (s, Err e)
  | Ok false => Some (s, Ok (false, false))
  | Ok true =>
      let '(s, r) := call_invariant_function x test_address calldata s in
      match r with
      | Err e => Some (s, Err e)
      | Ok (_, success) =>
          if success && call_after_invariant then
            let '(s, r) := call_after_invariant_function x test_address s in
            Some (s, match r with Err e => Err e | Ok (_, success) => Ok (success, true) end)
          else Some (s, Ok (success, true))
      end
  end.

Context {T : Type} {BS : BitSetLike T}.

Fixpoint shrink_loop (n : nat) (case : FailedInvariantCaseData) (calls : list BasicTxDetails.t) (x : Executor)
    (call_after_invariant : bool) (k : CallSequenceShrinker.t T) (s : Shared) : option (Shared * CallSequenceShrinker.t T) :=
  match n with
  | O => Some (s, k)
  | S n =>
      '(s, r) ← check_sequence x calls (CallSequenceShrinker.current k) (addr case) (inv_calldata case)
                  (case_fail_on_revert case) call_after_invariant s;
      let '(k, continue) :=
        match r with
        | Ok (false, _) => CallSequenceShrinker.simplify k
        | Ok (true, _) => CallSequenceShrinker.complicate k
        | Err _ => (k, true)
        end in
      if continue then shrink_loop n case calls x call_after_invariant k s else Some (s, k)
  end.

Definition shrink_sequence (case : FailedInvariantCaseData) (calls : list BasicTxDetails.t) (x : Executor)
    (call_after_invariant : bool) (s : Shared) : option (Shared * result (list BasicTxDetails.t) Str) :=
  let '(s, r) := call_invariant_function x (addr case) (inv_calldata case) s in
  match r with
  | Err e => Some (s, Err e)
  | Ok (_, false) => Some (s, Ok [])
  | Ok (_, true) =>
      '(s, k) ← shrink_loop (case_shrink_run_limit case) case calls x call_after_invariant
                  (CallSequenceShrinker.new (length calls)) s;
      shrunk ← mapM (λ i, calls !! i) (CallSequenceShrinker.current k);
      Some (s, Ok shrunk)
  end.

(** ** Replay *)

(** [set_tracing], and the counterexample of a call. *)
Context (set_tracing : InspectorStack → InspectorStack).
Context {BaseCounterExample : Type} (from_invariant_call : BasicTxDetails.t → option Sparsed → BaseCounterExample).
(** the deprecated cheatcodes of a result *)
Context (deprecated : CheatState → list Str).

(** What a replay adds to. *)
Record Replay := mk_replay {
  rep_logs : list Log.t; rep_traces : list Sparsed; rep_coverage : option (gmap Z HitMap.t); rep_deprecated : list Str }.

(** The calls of the counterexample; a call without traces panics. *)
Fixpoint replay_calls (x : Executor) (calls : list BasicTxDetails.t) (rep : Replay) (s : Shared) :
    option (Shared * (Executor * Replay * result (list BaseCounterExample) Str)) :=
  match calls with
  | [] => Some (s, (x, rep, Ok []))
  | tx :: calls =>
      let '(s, (x, r)) := transact_raw x (BasicTxDetails.sender tx) (BasicTxDetails.target tx)
                            (BasicTxDetails.calldata tx) 0 s in
      match r with
      | Err e => Some (s, (x, rep, Err e))
      | Ok r =>
          t ← traces r;
          c ← HitMaps.merge_opt chk (rep_coverage rep) (raw_coverage r);
          let rep := mk_replay (rep_logs rep ++ raw_logs r) (rep_traces rep ++ [t]) c (rep_deprecated rep) in
          '(s, (x, rep, res)) ← replay_calls x calls rep s;
          Some (s, (x, rep, let? l := res in Ok (from_invariant_call tx (traces r) :: l)))
      end
  end.

Definition replay_run (ic : InvariantContract) (x : Executor) (rep : Replay) (calls : list BasicTxDetails.t) (s : Shared) :
    option (Shared * (Replay * result (list BaseCounterExample) Str)) :=
  let x := match tracer (inspector x) with Some _ => x | None => set_inspector (set_tracing (inspector x)) x end in
  '(s, (x, rep, res)) ← replay_calls x calls rep s;
  match res, abi_encode_empty (invariant_function ic) with
  | Err e, _ | Ok _, Err e => Some (s, (rep, Err e))
  | Ok examples, Ok calldata =>
      let '(s, r) := call_invariant_function x (inv_address ic) calldata s in
      match r with
      | Err e => Some (s, (rep, Err e))
      | Ok (r, success) =>
          t ← traces r;
          let rep := mk_replay (rep_logs rep ++ raw_logs r) (rep_traces rep ++ [t]) (rep_coverage rep)
            (rep_deprecated rep ++ from_option deprecated [] (raw_cheatcodes r)) in
          if call_after_invariant ic && success then
            let '(s, r) := call_after_invariant_function x (inv_address ic) s in
            match r with
            | Err e => Some (s, (rep, Err e))
            | Ok (r, _) =>
                t ← traces r;
                Some (s, (mk_replay (rep_logs rep ++ raw_logs r) (rep_traces rep ++ [t]) (rep_coverage rep)
                            (rep_deprecated rep), Ok examples))
            end
          else Some (s, (rep, Ok examples))
      end
  end.

(** The overrides that were recorded are given again, from a sequence of their own. *)
Definition set_up_inner_replay (inner : list (option BasicTxDetails.t)) (x : Executor) (s : Shared) : Executor * Shared :=
  match fuzzer (inspector x) with
  | Some f =>
      match Fuzzer.call_generator f with
      | Some g =>
          let g := RandomCallGenerator.mk (RandomCallGenerator.test_address g) (RandomCallGenerator.used g)
            (RandomCallGenerator.replay g) (new_sequence s) in
          let '(g, s) := set_replay true g (put_sequence g inner s) in
          (set_inspector (set_fuzzer (Some (Fuzzer.set_generator g f)) (inspector x)) x, s)
      | None => (x, s)
      end
  | None => (x, s)
  end.

Definition replay_error (case : FailedInvariantCaseData) (ic : InvariantContract) (x : Executor) (rep : Replay) (s : Shared) :
    option (Shared * (Replay * result (list BaseCounterExample) Str)) :=
  match test_error case with
  | TestAbort _ => Some (s, (rep, Ok []))
  | TestFail _ calls =>
      '(s, r) ← shrink_sequence case calls x (call_after_invariant ic) s;
      match r with
      | Err e => Some (s, (rep, Err e))
      | Ok calls =>
          let '(x, s) := set_up_inner_replay (inner_sequence case) x s in
          replay_run ic x rep calls s
      end
  end.
End invariant.
