(* ===== verification/InvariantTheorems.v ===== *)
(** Invariant tests: the shrinking of a failing sequence, the campaign always
    ends, and what it records of a broken invariant breaks it again. *)
From stdpp Require Import strings.
From S2P Require Import Prelude Radix Database MultiFork ForkBackend ForkTransact Pranks Frames ExpectEmit ExpectRevert ExpectCall Mocks StateDiffs Mapping Cheats Coverage Contracts FuzzTargets FuzzDict TestExecutor Invariant.

(** ** Sequences by their indices *)

Definition pick {A} (l : list A) (ids : list nat) : list A := omap (λ i, l !! i) ids.

Lemma pick_cons {A} (l : list A) i ids x : l !! i = Some x → pick l (i :: ids) = x :: pick l ids.
Proof. intros Hx. unfold pick. cbn. by rewrite Hx. Qed.

Lemma pick_app {A} (l : list A) ids js : pick l (ids ++ js) = pick l ids ++ pick l js.
Proof. apply omap_app. Qed.

Lemma pick_seq {A} (l : list A) : pick l (seq 0 (length l)) = l.
Proof.
  enough (∀ l k : list A, pick (k ++ l) (seq (length k) (length l)) = l) as H by exact (H l []). clear l.
  induction l as [|x l IH]; intros k; [done|]. cbn [length seq].
  rewrite (pick_cons _ _ _ x) by by apply list_lookup_middle. f_equal.
  specialize (IH (k ++ [x])). rewrite length_app, <-app_assoc in IH. cbn in IH.
  replace (length k + 1) with (S (length k)) in IH by lia. exact IH.
Qed.

Lemma pick_sublist {A} (l : list A) ids js : ids `sublist_of` js → pick l ids `sublist_of` pick l js.
Proof.
  induction 1 as [|i ids js _ IH|i ids js _ IH]; cbn; [done|..]; destruct (l !! i); [by constructor|done|by constructor|done].
Qed.

Lemma picked_sublist {A} (l : list A) ids : ids `sublist_of` seq 0 (length l) → pick l ids `sublist_of` l.
Proof. intros H%(pick_sublist l). by rewrite pick_seq in H. Qed.

Lemma pick_mapM {A} (l : list A) ids : Forall (λ i, i < length l) ids → mapM (λ i, l !! i) ids = Some (pick l ids).
Proof.
  induction 1 as [|i ids Hi _ IH]; [done|]. destruct (lookup_lt_is_Some_2 l i Hi) as [x Hx].
  rewrite (pick_cons _ _ _ x) by done. cbn [mapM]. by rewrite Hx, IH.
Qed.

Lemma length_pick {A} (l : list A) ids : Forall (λ i, i < length l) ids → length (pick l ids) = length ids.
Proof. intros Hm%pick_mapM. symmetry. by eapply Forall2_length, mapM_Some. Qed.

(** The first indices give the first elements, the others the rest. *)
Lemma pick_take_drop {A} (l : list A) m :
  m ≤ length l → pick l (seq 0 m) = take m l ∧ pick l (seq m (length l - m)) = drop m l.
Proof.
  intros Hm. apply (app_inj_1 _ _ (pick l (seq m (length l - m))) (drop m l)).
  - rewrite length_pick, length_seq, length_take by (apply Forall_forall; intros i Hi%elem_of_seq; lia). lia.
  - rewrite take_drop, <-pick_app, <-seq_app. replace (m + (length l - m)) with (length l) by lia. apply pick_seq.
Qed.

Lemma filter_seq_below p n : Forall (λ i, i < n) (filter (λ i, p i = true) (seq 0 n)).
Proof. apply Forall_forall. intros i [_ Hi]%list_elem_of_filter. apply elem_of_seq in Hi. lia. Qed.

(** A proper part of a list leaves out one of its elements. *)
Lemma proper_sublist {A} (l k : list A) :
  l `sublist_of` k → l ≠ k → ∃ a x b, k = a ++ x :: b ∧ l `sublist_of` a ++ b.
Proof.
  induction 1 as [|x l k Hlk IH|x l k Hlk IH]; intros Hne; [done|..].
  - destruct IH as (a & y & b & -> & Hs); [by intros ->|]. exists (x :: a), y, b. split; [done|]. by constructor.
  - by exists [], x, k.
Qed.

(** ** Shrinking *)

Section shrinking.
Context {AT : AbiTypes} {ET : EvmTypes} {FT : ForkTypes} {CT : CheatTypes} {DS : DynSol} {XT : ExecTypes}.
Context {B : Type} {TB : TestBackend B}.
Context (initial_gas : Env → SpecId → Z) (revert_decode : Bytes → InstructionResult → Str).
Context (inspect : B → Env → SpecId → InspectorStack → Shared →
  Shared * (B * result (Env * InspectorStack * (ExecutionResult * gmap Z Account)) Str)).
Context (failed_calldata : Bytes) (decode_bool : Bytes → option bool) (afterInvariant_selector : Bytes).
Context {T : Type} {BS : BitSetLike T} {BL : BitSetLaws T}.
Context (x : Executor (B := B)) (case : FailedInvariantCaseData) (after : bool).

Abbreviation check := (check_sequence initial_gas revert_decode inspect failed_calldata decode_bool afterInvariant_selector).
Abbreviation check_case calls ids :=
  (check x calls ids (addr case) (inv_calldata case) (case_fail_on_revert case) after).
Abbreviation shrink_loop :=
  (shrink_loop initial_gas revert_decode inspect failed_calldata decode_bool afterInvariant_selector).
Abbreviation shrink_sequence :=
  (shrink_sequence initial_gas revert_decode inspect failed_calldata decode_bool afterInvariant_selector).
Abbreviation invariant_call :=
  (call_invariant_function initial_gas revert_decode inspect failed_calldata decode_bool).

(** Only the calls matter, not how they are indexed. *)
Lemma apply_pick y calls ids fr s :
  Forall (λ i, i < length calls) ids →
  apply_calls initial_gas inspect y calls ids fr s =
  apply_calls initial_gas inspect y (pick calls ids) (seq 0 (length ids)) fr s.
Proof.
  intros His. enough (∀ k, apply_calls initial_gas inspect y calls ids fr s =
    apply_calls initial_gas inspect y (k ++ pick calls ids) (seq (length k) (length ids)) fr s) as H by exact (H []).
  revert y s. induction His as [|i ids Hi _ IH]; intros y s k; [done|].
  destruct (lookup_lt_is_Some_2 calls i Hi) as [tx Htx]. rewrite (pick_cons _ _ _ tx) by done.
  cbn [apply_calls seq length]. rewrite Htx, list_lookup_middle by done. cbn [mbind option_bind].
  destruct (transact_raw _ _ _ _ _ _ _ _) as [s1 [y1 [r|e]]]; [|done]. destruct (_ && _); [done|].
  specialize (IH y1 s1 (k ++ [tx])). rewrite length_app, <-app_assoc in IH. cbn in IH.
  replace (length k + 1) with (S (length k)) in IH by lia. exact IH.
Qed.

(** The check gives an answer, always the same for the same calls. *)
Definition reproducible (calls : list BasicTxDetails.t) (v : list BasicTxDetails.t → bool) : Prop :=
  ∀ txs s, txs `sublist_of` calls → ∃ s' b, check_case txs (seq 0 (length txs)) s = Some (s', Ok (v txs, b)).

Lemma check_picked calls v ids s :
  reproducible calls v → ids `sublist_of` seq 0 (length calls) →
  ∃ s' b, check_case calls ids s = Some (s', Ok (v (pick calls ids), b)).
Proof.
  intros Hv His.
  assert (Forall (λ i, i < length calls) ids) as Hb.
  { apply Forall_forall. intros i Hi. eapply elem_of_sublist in Hi; [|exact His]. apply elem_of_seq in Hi. lia. }
  pose proof (length_pick _ _ Hb) as Hl.
  destruct (Hv (pick calls ids) s) as (s' & b & H).
  { by apply picked_sublist. }
  exists s', b. rewrite <-H. unfold check_sequence. by rewrite (apply_pick x calls ids), Hl.
Qed.

(** The calls kept of the first [j], then the others. *)
Definition kept (p : nat → bool) (j : nat) : list nat := filter (λ i, p i = true) (seq 0 j).

Lemma kept_S p j : kept p (S j) = kept p j ++ (if p j then [j] else []).
Proof. unfold kept. rewrite seq_S, filter_app. cbn. by destruct (p j). Qed.

Lemma kept_ext p q j : (∀ i, i < j → p i = q i) → kept p j = kept q j.
Proof.
  intros H. induction j as [|j IH]; [done|]. rewrite !kept_S, IH, H by (intros; try apply H; lia). done.
Qed.

Lemma kept_rest_sublist p j k n : j ≤ k → k ≤ n → kept p j ++ seq k (n - k) `sublist_of` seq 0 n.
Proof.
  intros Hj Hk. replace n with (k + (n - k)) at 2 by lia. rewrite seq_app. apply sublist_app; [|done].
  replace k with (j + (k - j)) by lia. rewrite seq_app. apply sublist_inserts_r. apply sublist_filter.
Qed.

Import CallSequenceShrinker.

(** The state while call [j] is left out. *)
Record trying (n j : nat) (p : nat → bool) (k : CallSequenceShrinker.t T) : Prop := {
  try_len : call_sequence_len k = n;
  try_below : j < n;
  try_shrink : shrink k = S j;
  try_prev : prev_shrink k = Some j;
  try_bits : ∀ i, bit_test (included_calls k) i =
    if decide (i < j) then p i else if decide (i = j) then false else (i <? n)%nat }.

Lemma current_split p (b : nat → bool) j n :
  j ≤ n → (∀ i, i < j → b i = p i) → (∀ i, j ≤ i → i < n → b i = true) →
  filter (λ i, b i = true) (seq 0 n) = kept p j ++ seq j (n - j).
Proof.
  intros Hj Hb1 Hb2. replace n with (j + (n - j)) at 1 by lia. rewrite seq_app, filter_app. f_equal.
  - change (kept b j = kept p j). by apply kept_ext.
  - cbn. apply filter_all. intros i [??]%elem_of_seq. apply Hb2; lia.
Qed.

Lemma current_trying n j p k : trying n j p k → current k = kept p j ++ seq (S j) (n - S j).
Proof.
  intros [Hn Hj _ _ Hb]. unfold current. rewrite Hn.
  rewrite (current_split (λ i, bit_test (included_calls k) i) _ (S j)); [|lia|done|].
  - rewrite kept_S, Hb, decide_False, decide_True by lia. rewrite app_nil_r. f_equal. apply kept_ext.
    intros i Hi. rewrite Hb, decide_True by lia. done.
  - intros i Hi1 Hi2. rewrite Hb, !decide_False by lia. by apply Nat.ltb_lt.
Qed.

(** The state before call [j] is left out. *)
Record decided (n j : nat) (p : nat → bool) (k : CallSequenceShrinker.t T) : Prop := {
  dec_len : call_sequence_len k = n;
  dec_shrink : shrink k = j;
  dec_bits : ∀ i, bit_test (included_calls k) i = if decide (i < j) then p i else (i <? n)%nat }.

Lemma current_decided n j p k : j ≤ n → decided n j p k → current k = kept p j ++ seq j (n - j).
Proof.
  intros Hj [Hn _ Hb]. unfold current. rewrite Hn. apply current_split; [done|..]; intros i Hi; [|intros Hi2];
    rewrite Hb; [by rewrite decide_True|]. rewrite decide_False by lia. by apply Nat.ltb_lt.
Qed.

Lemma simplify_decided n j p k :
  j ≤ n → decided n j p k →
  if decide (j = n) then simplify k = (k, false) else ∃ k', simplify k = (k', true) ∧ trying n j p k'.
Proof.
  intros Hj [Hn Hs Hb]. unfold simplify. rewrite Hn, Hs. destruct (Nat.leb_spec n j), (decide (j = n)); [done|lia..|].
  eexists. split; [done|]. split; cbn; [done|lia|done..|]. intros i. rewrite clear_test, Hb.
  repeat case_decide; try lia; done.
Qed.

Definition put (p : nat → bool) (j : nat) (b : bool) (i : nat) : bool := if decide (i = j) then b else p i.

Lemma kept_put p j b : kept (put p j b) j = kept p j.
Proof. apply kept_ext. intros i Hi. unfold put. by rewrite decide_False by lia. Qed.

Lemma put_eq p j b : put p j b j = b.
Proof. unfold put. by rewrite decide_True. Qed.

Lemma trying_fails n j p k : trying n j p k → decided n (S j) (put p j false) k.
Proof.
  intros [Hn Hj Hs _ Hb]. split; [done..|]. intros i. rewrite Hb. unfold put. repeat case_decide; try lia; done.
Qed.

Lemma trying_passes n j p k :
  trying n j p k →
  complicate k = simplify (mk n (bit_set j (included_calls k)) (S j) None) ∧
  decided n (S j) (put p j true) (mk n (bit_set j (included_calls k)) (S j) None).
Proof.
  intros [Hn Hj Hs Hp Hb]. split; [unfold complicate; by rewrite Hp, Hn, Hs|]. split; [done..|]. cbn. intros i.
  rewrite set_test, Hb. unfold put. repeat case_decide; try lia; done.
Qed.

(** What is known of the calls that are kept: each was needed, together with
    those kept before it and all the later ones. *)
Definition needed (calls : list BasicTxDetails.t) (v : list BasicTxDetails.t → bool) (p : nat → bool) (i : nat) : Prop :=
  p i = true → v (pick calls (kept p i ++ seq (S i) (length calls - S i))) = true.

Lemma needed_ext calls v p q i : (∀ a, a ≤ i → p a = q a) → needed calls v q i → needed calls v p i.
Proof. intros H Hn. unfold needed. rewrite H, (kept_ext p q) by (intros; try apply H; lia). exact Hn. Qed.

Lemma seq_cons j n : j < n → seq j (n - j) = j :: seq (S j) (n - S j).
Proof. intros H. by replace (n - j) with (S (n - S j)) by lia. Qed.

Lemma shrink_loop_spec calls v m j p k s :
  reproducible calls v → trying (length calls) j p k → length calls - j ≤ m →
  v (pick calls (kept p j ++ seq j (length calls - j))) = false →
  ∃ s' k' q, shrink_loop m case calls x after k s = Some (s', k') ∧ current k' = kept q (length calls) ∧
    (∀ i, i < j → q i = p i) ∧ v (pick calls (kept q (length calls))) = false ∧
    ∀ i, j ≤ i < length calls → needed calls v q i.
Proof.
  intros Hv. revert j p k s. induction m as [|m IH]; intros j p k s Hk Hm Hfail; pose proof (try_below _ _ _ _ Hk) as Hj; [lia|].
  cbn [Invariant.shrink_loop]. rewrite (current_trying _ _ _ _ Hk).
  destruct (check_picked calls v (kept p j ++ seq (S j) (length calls - S j)) s Hv) as (s1 & b & Hc).
  { apply kept_rest_sublist; lia. }
  rewrite Hc. cbn [mbind option_bind].
  set (ok := v (pick calls (kept p j ++ seq (S j) (length calls - S j)))) in *.
  assert (∃ k1, decided (length calls) (S j) (put p j ok) k1 ∧
    (if ok then complicate k else simplify k) = simplify k1) as (k1 & Hk1 & Hstep).
  { destruct ok; [destruct (trying_passes _ _ _ _ Hk) as [-> ?]; eauto|]. exists k. eauto using trying_fails. }
  assert (v (pick calls (kept (put p j ok) (S j) ++ seq (S j) (length calls - S j))) = false) as Hfail'.
  { rewrite kept_S, kept_put, put_eq. destruct ok eqn:Eok; [|by rewrite app_nil_r].
    rewrite <-app_assoc. cbn [app]. by rewrite <-seq_cons by lia. }
  assert (∀ q, (∀ i, i < S j → q i = put p j ok i) → needed calls v q j) as Hneed.
  { intros q Hq. apply (needed_ext _ _ _ (put p j ok)); [intros; apply Hq; lia|]. unfold needed. rewrite kept_put, put_eq. done. }
  pose proof (simplify_decided (length calls) (S j) (put p j ok) k1 Hj Hk1) as Hs. cbn match. rewrite Hstep. case_decide as Hend.
  - rewrite Hs. exists s1, k1, (put p j ok). split; [done|]. rewrite (current_decided _ _ _ _ Hj Hk1).
    rewrite <-Hend, Nat.sub_diag in *. cbn [seq] in *. rewrite app_nil_r in *. split; [done|]. split.
    + intros i Hi. unfold put. by rewrite decide_False by lia.
    + split; [done|]. intros i Hi. replace i with j by lia. by apply Hneed.
  - destruct Hs as (k2 & -> & Hk2).
    destruct (IH _ _ k2 s1 Hk2) as (s' & k' & q & Hr & Hcur & Hq & Hvq & Hn); [lia|done|].
    exists s', k', q. split; [done|]. split; [done|]. split.
    + intros i Hi. rewrite Hq by lia. unfold put. by rewrite decide_False by lia.
    + split; [done|]. intros i Hi. destruct (decide (i = j)) as [->|]; [by apply Hneed|]. apply Hn. lia.
Qed.

Lemma kept_middle q n a i b :
  kept q n = a ++ i :: b → i < n ∧ q i = true ∧ a = kept q i ∧ b `sublist_of` seq (S i) (n - S i).
Proof.
  revert b. induction n as [|n IH]; intros b; [by destruct a|]. rewrite kept_S.
  destruct (q n) eqn:En; [|rewrite app_nil_r; intros (? & ? & ? & Hb)%IH].
  - destruct b as [|b0 b'] using rev_ind; [intros [<- [= <-]]%app_inj_tail; split_and!; [lia|done|done|apply sublist_nil_l]|].
    rewrite app_comm_cons, app_assoc. intros [(? & ? & ? & Hb)%IH <-]%app_inj_tail. split_and!; [lia|done..|].
    replace (S n - S i) with (S (n - S i)) by lia. rewrite seq_S. apply sublist_app; [done|].
    by replace (S i + (n - S i)) with n by lia.
  - split_and!; [lia|done..|]. replace (S n - S i) with (S (n - S i)) by lia. rewrite seq_S. by apply sublist_inserts_r.
Qed.

Lemma pick_middle {A} (l : list A) ids a y b :
  Forall (λ i, i < length l) ids → pick l ids = a ++ y :: b →
  ∃ ia i ib, ids = ia ++ i :: ib ∧ a = pick l ia ∧ b = pick l ib.
Proof.
  revert a. induction ids as [|i ids IH]; intros a Hf Hp; [by destruct a|]. apply Forall_cons in Hf as [Hi Hf].
  destruct (lookup_lt_is_Some_2 l i Hi) as [z Hz]. rewrite (pick_cons _ _ _ z) in Hp by done.
  destruct a as [|a0 a]; injection Hp as <- Hp; [by exists [], i, ids|].
  destruct (IH a Hf Hp) as (ia & i' & ib & -> & -> & ->). exists (i :: ia), i', ib.
  by rewrite (pick_cons _ _ _ z) by done.
Qed.

(** Parts of a sequence that fails make longer ones fail. *)
Definition monotone (calls : list BasicTxDetails.t) (v : list BasicTxDetails.t → bool) : Prop :=
  ∀ l k, l `sublist_of` k → k `sublist_of` calls → v l = false → v k = false.

(** Every call of the sequence is needed, with some of the calls after it. *)
Definition each_needed (calls shrunk : list BasicTxDetails.t) (v : list BasicTxDetails.t → bool) : Prop :=
  ∀ a tx b, shrunk = a ++ tx :: b → ∃ c, b `sublist_of` c ∧ a ++ c `sublist_of` calls ∧ v (a ++ c) = true.

Lemma kept_each_needed calls v q :
  (∀ i, i < length calls → needed calls v q i) → each_needed calls (pick calls (kept q (length calls))) v.
Proof.
  intros Hn a tx b (ia & i & ib & Hk & -> & ->)%pick_middle; [|apply filter_seq_below].
  apply kept_middle in Hk as (Hi & Hq & -> & Hb). exists (pick calls (seq (S i) (length calls - S i))).
  split; [by apply pick_sublist|]. rewrite <-pick_app. split; [|by apply Hn].
  apply picked_sublist, kept_rest_sublist; lia.
Qed.

Lemma each_needed_minimal calls shrunk v :
  each_needed calls shrunk v → monotone calls v → ∀ l, l `sublist_of` shrunk → l ≠ shrunk → v l = true.
Proof.
  intros Hn Hm l Hl Hne. destruct (proper_sublist l shrunk Hl Hne) as (a & tx & b & -> & Hab).
  destruct (Hn a tx b eq_refl) as (c & Hbc & Hac & Hv). destruct (v l) eqn:El; [done|]. rewrite <-Hv. symmetry.
  eapply (Hm l); [|done|done]. etrans; [done|]. by apply sublist_app.
Qed.

Lemma decided_new n p : decided n 0 p (new n).
Proof. split; [done..|]. intros i. cbn. apply saturated_test. Qed.

(** C6: Shrinking a failing sequence, with a limit above its length and a check that always gives the same answer for the same calls: the result is a part of the sequence that still fails; each of its calls is needed, since the calls before it together with some of the later ones pass without it; and if failing is monotone, no proper part of the result fails. *)
Theorem shrunk_sequence_fails (calls : list BasicTxDetails.t) (v : list BasicTxDetails.t → bool) (s s0 : Shared)
    (r : RawCallResult) :
  reproducible calls v → v calls = false → length calls < case_shrink_run_limit case →
  invariant_call x (addr case) (inv_calldata case) s = (s0, Ok (r, true)) →
  ∃ s' shrunk, shrink_sequence case calls x after s = Some (s', Ok shrunk) ∧ shrunk `sublist_of` calls ∧
    v shrunk = false ∧ each_needed calls shrunk v ∧
    (monotone calls v → ∀ l, l `sublist_of` shrunk → l ≠ shrunk → v l = true).
Proof.
  intros Hv Hfail Hlim H0.
  enough (∃ s' k q, shrink_loop (case_shrink_run_limit case) case calls x after (new (length calls)) s0 = Some (s', k) ∧
    current k = kept q (length calls) ∧ v (pick calls (kept q (length calls))) = false ∧
    ∀ i, i < length calls → needed calls v q i) as (s' & k & q & Hr & Hc & Hvq & Hn).
  { exists s', (pick calls (kept q (length calls))). pose proof (kept_each_needed _ _ _ Hn) as He.
    split; [|split; [|eauto using each_needed_minimal]].
    - unfold Invariant.shrink_sequence. rewrite H0, Hr. cbn [mbind option_bind]. rewrite Hc, pick_mapM by apply filter_seq_below. done.
    - apply picked_sublist, sublist_filter. }
  destruct (case_shrink_run_limit case) as [|m]; [lia|]. cbn [Invariant.shrink_loop].
  pose proof (decided_new (length calls) (λ _, false)) as Hd.
  rewrite (current_decided _ _ _ _ (Nat.le_0_l _) Hd). rewrite Nat.sub_0_r. cbn [app kept filter].
  destruct (check_picked calls v (seq 0 (length calls)) s0 Hv) as (s1 & b & Hc); [done|].
  change (kept _ 0 ++ ?l) with l. rewrite Hc, pick_seq, Hfail. cbn [mbind option_bind]. cbn match.
  pose proof (simplify_decided _ _ _ _ (Nat.le_0_l _) Hd) as Hs. case_decide as He.
  - rewrite Hs. exists s1, (new (length calls)), (λ _, false). split; [done|].
    rewrite (current_decided _ _ _ _ (Nat.le_0_l _) Hd). rewrite <-He. split; [done|]. split; [|lia].
    symmetry in He. apply nil_length_inv in He as ->. done.
  - destruct Hs as (k & -> & Hk). destruct (shrink_loop_spec calls v m 0 _ k s1 Hv Hk) as (s' & k' & q & Hr & Hcur & _ & Hvq & Hn).
    + lia.
    + rewrite Nat.sub_0_r. change (kept _ 0 ++ ?l) with l. by rewrite pick_seq.
    + exists s', k', q. split_and!; [done..|]. intros i Hi. apply Hn. lia.
Qed.

Lemma shrink_loop_limit calls v m j p k s :
  reproducible calls v → trying (length calls) j p k → j + m < length calls →
  ∃ s' k' q, shrink_loop m case calls x after k s = Some (s', k') ∧ trying (length calls) (j + m) q k'.
Proof.
  intros Hv. revert j p k s. induction m as [|m IH]; intros j p k s Hk Hm.
  { exists s, k, p. by rewrite Nat.add_0_r. }
  cbn [Invariant.shrink_loop]. rewrite (current_trying _ _ _ _ Hk).
  destruct (check_picked calls v (kept p j ++ seq (S j) (length calls - S j)) s Hv) as (s1 & b & Hc).
  { apply kept_rest_sublist; lia. }
  rewrite Hc. cbn [mbind option_bind]. cbn match. set (ok := v _).
  assert (∃ k1, decided (length calls) (S j) (put p j ok) k1 ∧
    (if ok then complicate k else simplify k) = simplify k1) as (k1 & Hk1 & ->).
  { destruct ok; [destruct (trying_passes _ _ _ _ Hk) as [-> ?]; eauto|]. exists k. eauto using trying_fails. }
  pose proof (simplify_decided (length calls) (S j) _ _ ltac:(lia) Hk1) as Hs. rewrite decide_False in Hs by lia.
  destruct Hs as (k2 & -> & Hk2). rewrite Nat.add_succ_r. apply (IH (S j) _ k2 s1 Hk2). lia.
Qed.

(** C27: A limit on the shrinking that is not above the length of the sequence leaves out a call that was not checked: with a limit of [m] the result is some of the first [m - 1] calls followed by the calls after the [m]-th, whatever the checks say.  With a limit equal to the length the last call is always left out, although the failure was found by it. *)
Theorem shrink_limit_untested (calls : list BasicTxDetails.t) (v : list BasicTxDetails.t → bool) (m : nat)
    (s s0 : Shared) (r : RawCallResult) :
  reproducible calls v → v calls = false → case_shrink_run_limit case = S m → m < length calls →
  invariant_call x (addr case) (inv_calldata case) s = (s0, Ok (r, true)) →
  ∃ s' some, shrink_sequence case calls x after s = Some (s', Ok (some ++ drop (S m) calls)) ∧
    some `sublist_of` take m calls.
Proof.
  intros Hv Hfail Hlim Hm H0. unfold Invariant.shrink_sequence. rewrite H0, Hlim. cbn [Invariant.shrink_loop].
  pose proof (decided_new (length calls) (λ _, false)) as Hd.
  rewrite (current_decided _ _ _ _ (Nat.le_0_l _) Hd). rewrite Nat.sub_0_r. change (kept _ 0 ++ ?l) with l.
  destruct (check_picked calls v (seq 0 (length calls)) s0 Hv) as (s1 & b & Hc); [done|].
  rewrite Hc, pick_seq, Hfail. cbn [mbind option_bind]. cbn match.
  pose proof (simplify_decided _ _ _ _ (Nat.le_0_l _) Hd) as Hs. rewrite decide_False in Hs by lia.
  destruct Hs as (k & -> & Hk). destruct (shrink_loop_limit calls v m 0 _ k s1 Hv Hk) as (s' & k' & q & -> & Hk'); [done|].
  cbn [mbind option_bind]. rewrite (current_trying _ _ _ _ Hk'), pick_mapM.
  - destruct (pick_take_drop calls m) as [Ht _]; [lia|]. destruct (pick_take_drop calls (S m)) as [_ Hr]; [lia|].
    exists s', (pick calls (kept q m)). rewrite pick_app. split; [by rewrite <-Hr|].
    rewrite <-Ht. apply pick_sublist, sublist_filter.
  - apply Forall_app. split; apply Forall_forall; intros i Hi;
      [apply list_elem_of_filter in Hi as [_ Hi]|]; apply elem_of_seq in Hi; lia.
Qed.
End shrinking.

(** ** Campaigns *)

Section campaign.
Context {AT : AbiTypes} {ET : EvmTypes} {FT : ForkTypes} {CT : CheatTypes} {DS : DynSol} {XT : ExecTypes} {PT : Proptest}.
Context {B : Type} {TB : TestBackend B} {IO : IterOrder} {MO : MapOrder} {AL : Alloy}.
Context (initial_gas : Env → SpecId → Z) (revert_decode : Bytes → InstructionResult → Str).
Context (inspect : B → Env → SpecId → InspectorStack → Shared →
  Shared * (B * result (Env * InspectorStack * (ExecutionResult * gmap Z Account)) Str)).
Context (failed_calldata : Bytes) (decode_bool : Bytes → option bool) (afterInvariant_selector : Bytes).
Context (abi_encode_empty : Function → result Bytes Str).
Context (decode_revert : list JsonAbi → Bytes → InstructionResult → Str).
Context (original_bytes : Bytecode → Bytes) (code_is_empty : Bytecode → bool).
Context (project : list (ArtifactId * ContractData)) (setup_contracts : gmap Z (Str * JsonAbi)) (chk : bool).

Abbreviation Executor := (Executor (B := B)).
Abbreviation InvariantTestRun := (InvariantTestRun (B := B)).
Abbreviation call_raw := (call_raw initial_gas inspect).
Abbreviation transact_raw := (transact_raw initial_gas inspect).
Abbreviation apply_calls := (apply_calls initial_gas inspect).
Abbreviation call_function := (call_function initial_gas revert_decode inspect failed_calldata decode_bool).
Abbreviation handlers_succeeded := (handlers_succeeded initial_gas revert_decode inspect failed_calldata decode_bool).
Abbreviation assert_invariants :=
  (assert_invariants initial_gas revert_decode inspect failed_calldata decode_bool abi_encode_empty decode_revert).
Abbreviation can_continue :=
  (can_continue initial_gas revert_decode inspect failed_calldata decode_bool abi_encode_empty decode_revert).
Abbreviation collect_data := (collect_data code_is_empty).
Abbreviation commit_call :=
  (commit_call initial_gas revert_decode inspect failed_calldata decode_bool abi_encode_empty decode_revert original_bytes
     code_is_empty project setup_contracts).
Abbreviation run_step :=
  (run_step initial_gas revert_decode inspect failed_calldata decode_bool abi_encode_empty decode_revert original_bytes
     code_is_empty project setup_contracts chk).
Abbreviation run_loop :=
  (run_loop initial_gas revert_decode inspect failed_calldata decode_bool abi_encode_empty decode_revert original_bytes
     code_is_empty project setup_contracts chk).
Abbreviation run_once :=
  (run_once initial_gas revert_decode inspect failed_calldata decode_bool afterInvariant_selector abi_encode_empty
     decode_revert original_bytes code_is_empty project setup_contracts chk).
Abbreviation runner_run :=
  (runner_run initial_gas revert_decode inspect failed_calldata decode_bool afterInvariant_selector abi_encode_empty
     decode_revert original_bytes code_is_empty project setup_contracts chk).
Abbreviation check := (check_sequence initial_gas revert_decode inspect failed_calldata decode_bool afterInvariant_selector).

Context (ic : InvariantContract) (cfg : InvariantConfig).

Abbreviation all_calls calls := (seq 0 (length calls)).

(** ** Replay *)

(** An executor that has also committed reverted calls behaves like one that has
    not: [R x y] relates the former to the latter.  The EVM is deterministic
    up to the relation, whether a call is made and committed or transacted. *)
Record replayable (R : Executor → Executor → Prop) : Prop := {
  rp_call : ∀ x y from to data s s', R x y →
    match (call_raw x from to data 0 s).2, (transact_raw y from to data 0 s').2 with
    | Ok r, (y', Ok r') => reverted r' = reverted r ∧ result_ r' = result_ r ∧ R (commit x r).1 y'
    | Err _, (_, Err _) => True
    | _, _ => False
    end;
  rp_check : ∀ x y address data s s', R x y →
    match (call_function x address data s).2, (call_function y address data s').2 with
    | Ok (_, success), Ok (_, success') => success' = success
    | Err _, Err _ => True
    | _, _ => False
    end;
  rp_revert : ∀ x y from to data s r, R x y →
    (call_raw x from to data 0 s).2 = Ok r → reverted r = true → R (commit x r).1 y }.

Section replay.
Context (R : Executor → Executor → Prop) (HR : replayable R).

(** Executors related to [x0] come by the calls to one related to [x]. *)
Definition tracks (x0 : Executor) (calls : list BasicTxDetails.t) (x : Executor) : Prop :=
  ∀ y s, R x0 y → ∃ s' y', apply_calls y calls (all_calls calls) (fail_on_revert cfg) s = Some (s', (y', Ok true)) ∧ R x y'.

(** The check of the calls, from an executor related to [x0]. *)
Definition checks (x0 : Executor) (calls : list BasicTxDetails.t) (after : bool) (res : bool * bool) : Prop :=
  ∀ y s, R x0 y → ∃ s', check y calls (all_calls calls) (inv_address ic) (selector (invariant_function ic))
    (fail_on_revert cfg) after s = Some (s', Ok res).

Lemma apply_app y calls i1 i2 fr s s1 y1 :
  apply_calls y calls i1 fr s = Some (s1, (y1, Ok true)) →
  apply_calls y calls (i1 ++ i2) fr s = apply_calls y1 calls i2 fr s1.
Proof.
  revert y s. induction i1 as [|i i1 IH]; intros y s; cbn [Invariant.apply_calls app]; [by intros [= -> ->]|].
  destruct (calls !! i); [|done]. cbn [mbind option_bind].
  destruct (TestExecutor.transact_raw _ _ _ _ _ _ _ _) as [s2 [y2 [r|e]]]; [|done]. destruct (_ && _); [done|]. apply IH.
Qed.

Lemma apply_snoc y calls tx fr s s1 y1 :
  apply_calls y calls (all_calls calls) fr s = Some (s1, (y1, Ok true)) →
  apply_calls y (calls ++ [tx]) (all_calls (calls ++ [tx])) fr s = apply_calls y1 [tx] [0] fr s1.
Proof.
  intros H. rewrite length_app. cbn [length]. rewrite seq_app, (apply_app _ _ _ _ _ _ s1 y1).
  - rewrite Nat.add_0_l. cbn [seq Invariant.apply_calls]. by rewrite list_lookup_middle.
  - rewrite <-H, (apply_pick initial_gas inspect y (calls ++ [tx]) (all_calls calls)).
    + rewrite length_seq. f_equal. destruct (pick_take_drop (calls ++ [tx]) (length calls)) as [-> _].
      * rewrite length_app. lia.
      * apply take_app_length.
    + apply Forall_forall. intros i Hi%elem_of_seq. rewrite length_app. cbn. lia.
Qed.

Lemma tracks_nil x : tracks x [] x.
Proof. intros y s Hy. by exists s, y. Qed.

(** A call that is committed and did not revert. *)
Lemma tracks_snoc x0 calls x tx s r :
  tracks x0 calls x →
  (call_raw x (BasicTxDetails.sender tx) (BasicTxDetails.target tx) (BasicTxDetails.calldata tx) 0 s).2 = Ok r →
  reverted r = false → tracks x0 (calls ++ [tx]) (commit x r).1.
Proof.
  intros Ht Hr Hrev y s1 Hy. destruct (Ht y s1 Hy) as (s2 & y2 & H2 & Hy2).
  rewrite (apply_snoc _ _ _ _ _ _ _ H2). cbn [Invariant.apply_calls lookup list_lookup mbind option_bind].
  pose proof (rp_call R HR _ _ (BasicTxDetails.sender tx) (BasicTxDetails.target tx) (BasicTxDetails.calldata tx) s s2 Hy2) as Hc.
  rewrite Hr in Hc. destruct (TestExecutor.transact_raw _ _ _ _ _ _ _ _) as [s3 [y3 [r3|e]]]; [|done].
  destruct Hc as (-> & _ & Hy3). rewrite Hrev. by exists s3, y3.
Qed.

Lemma tracks_revert x0 calls x from to data s r :
  tracks x0 calls x → (call_raw x from to data 0 s).2 = Ok r → reverted r = true → tracks x0 calls (commit x r).1.
Proof.
  intros Ht Hr Hrev y s1 Hy. destruct (Ht y s1 Hy) as (s2 & y2 & H2 & Hy2). exists s2, y2.
  split; [done|]. by eapply rp_revert.
Qed.

(** A call that reverts fails the check. *)
Lemma revert_checks x0 calls x tx s r after :
  tracks x0 calls x →
  (call_raw x (BasicTxDetails.sender tx) (BasicTxDetails.target tx) (BasicTxDetails.calldata tx) 0 s).2 = Ok r →
  reverted r = true → result_ r ≠ MAGIC_ASSUME → fail_on_revert cfg = true → checks x0 (calls ++ [tx]) after (false, false).
Proof.
  intros Ht Hr Hrev Hm Hf y s1 Hy. destruct (Ht y s1 Hy) as (s2 & y2 & H2 & Hy2). unfold check_sequence.
  rewrite (apply_snoc _ _ _ _ _ _ _ H2). cbn [Invariant.apply_calls lookup list_lookup mbind option_bind].
  pose proof (rp_call R HR _ _ (BasicTxDetails.sender tx) (BasicTxDetails.target tx) (BasicTxDetails.calldata tx) s s2 Hy2) as Hc.
  rewrite Hr in Hc. destruct (TestExecutor.transact_raw _ _ _ _ _ _ _ _) as [s3 [y3 [r3|e]]]; [|done].
  destruct Hc as (-> & -> & _). rewrite Hrev, Hf, bool_decide_eq_false_2 by done. by exists s3.
Qed.

(** The invariant answers as in the campaign. *)
Lemma invariant_checks x0 calls x s r success after :
  tracks x0 calls x →
  (call_function x (inv_address ic) (selector (invariant_function ic)) s).2 = Ok (r, success) →
  success && after = false → checks x0 calls after (success, true).
Proof.
  intros Ht Hr Hs y s1 Hy. destruct (Ht y s1 Hy) as (s2 & y2 & H2 & Hy2). unfold check_sequence. rewrite H2.
  cbn [mbind option_bind]. unfold call_invariant_function.
  pose proof (rp_check R HR _ _ (inv_address ic) (selector (invariant_function ic)) s s2 Hy2) as Hc. rewrite Hr in Hc.
  destruct (Invariant.call_function _ _ _ _ _ y2 _ _ _) as [s3 [[r3 success']|e]]; [|done]. cbn in Hc. subst success'.
  rewrite Hs. by exists s3.
Qed.

(** Every part of the calls from the beginning leaves the invariant intact. *)
Definition passes (x0 : Executor) (calls : list BasicTxDetails.t) : Prop :=
  ∀ k, 0 < k ≤ length calls → checks x0 (take k calls) false (true, true).

Lemma passes_snoc x0 calls tx : passes x0 calls → checks x0 (calls ++ [tx]) false (true, true) → passes x0 (calls ++ [tx]).
Proof.
  intros Hp Hc k. rewrite length_app. cbn. intros Hk. destruct (decide (k = length calls + 1)) as [->|].
  - rewrite take_ge; [done|]. rewrite length_app. cbn. lia.
  - rewrite take_app_le by lia. apply Hp. lia.
Qed.

(** What is known while a run goes on: no error, and a run of [n] calls without
    failures has kept the invariant, if there were no failures since [n0]. *)
Record following (x0 : Executor) (n0 : Z) (f : InvariantFailures) (n : nat) (x : Executor)
    (calls : list BasicTxDetails.t) : Prop := {
  fo_tracks : tracks x0 calls x;
  fo_error : error f = None;
  fo_reverts : (n0 ≤ reverts f)%Z;
  fo_passes : reverts f = n0 → length calls = n ∧ passes x0 calls }.

(** The calls of a run led to a handler contract that failed without a revert. *)
Definition handler_failed (x0 : Executor) (calls : list BasicTxDetails.t) : Prop :=
  ∃ before tx x s r s', calls = before ++ [tx] ∧ tracks x0 before x ∧
    (call_raw x (BasicTxDetails.sender tx) (BasicTxDetails.target tx) (BasicTxDetails.calldata tx) 0 s).2 = Ok r ∧
    reverted r = false ∧
    (handlers_succeeded (commit x r).1 (btree_iter (targets s')).*1 (state_changeset r) s').2 = false.

(** An error is one that the recorded calls show again, or a handler that failed. *)
Definition explained_error (x0 : Executor) (e : InvariantFuzzError) : Prop :=
  match e with
  | BrokenInvariant case =>
      ∃ reason calls, test_error case = TestFail reason calls ∧ addr case = inv_address ic ∧
        inv_calldata case = selector (invariant_function ic) ∧ case_fail_on_revert case = fail_on_revert cfg ∧
        ∀ after, checks x0 calls after (false, true)
  | InvRevert case =>
      ∃ reason calls, test_error case = TestFail reason calls ∧ addr case = inv_address ic ∧
        inv_calldata case = selector (invariant_function ic) ∧ case_fail_on_revert case = fail_on_revert cfg ∧
        ((∀ after, checks x0 calls after (false, false)) ∨ handler_failed x0 calls)
  | MaxAssumeRejects n => n = max_assume_rejects cfg
  end.

Context (Hencode : abi_encode_empty (invariant_function ic) = Ok (selector (invariant_function ic))).

Lemma can_continue_spec x0 n0 n x calls tx s0 r d run s s' d' run' res :
  following x0 n0 (failures d) n x calls →
  (call_raw x (BasicTxDetails.sender tx) (BasicTxDetails.target tx) (BasicTxDetails.calldata tx) 0 s0).2 = Ok r →
  result_ r ≠ MAGIC_ASSUME → inputs run = calls ++ [tx] → executor run = (commit x r).1 →
  can_continue ic cfg d run (commit x r).2 (state_changeset r) s = (s', (d', run', res)) →
  (∀ e, error (failures d') = Some e → explained_error x0 e) ∧
  run_depth run' = run_depth run ∧ assume_rejects_counter run' = assume_rejects_counter run ∧
  (∀ last, res = Ok (true, last) → following x0 n0 (failures d') (S n) (executor run') (inputs run')).
Proof.
  intros [Ht He Hn Hp] Hr Hm Hi Hx. unfold Invariant.can_continue. change (reverted (commit x r).2) with (reverted r).
  destruct (if reverted r then _ else _) as [s1 ok] eqn:Eh. destruct ok.
  - assert (reverted r = false) as Hrev by (by destruct (reverted r)). clear Eh.
    pose proof (tracks_snoc _ _ _ _ _ _ Ht Hr Hrev) as Ht'. rewrite <-Hx in Ht'.
    unfold Invariant.assert_invariants. cbn [executor inputs push_traces]. rewrite Hencode. unfold call_invariant_function.
    destruct (Invariant.call_function _ _ _ _ _ _ _ _ _) as [s2 [[r2 success]|e]] eqn:Ec.
    2:{ cbn. intros [= <- <- <- <-]. cbn. rewrite He. by split_and!. }
    assert (∀ after, success && after = false → checks x0 (calls ++ [tx]) after (success, true)) as Hck.
    { intros after. apply (invariant_checks x0 (calls ++ [tx]) (executor run) s1 r2); [done|]. by rewrite Ec. }
    rewrite He, bool_decide_eq_false_2 by (by intros [? ?]). rewrite andb_true_r. destruct success; cbn.
    + intros [= <- <- <- <-]. cbn. rewrite He. split_and!; [done..|]. intros last [= <-]. rewrite Hi. split; [done..|].
      intros [Hl Hps]%Hp. rewrite length_app. cbn. split; [lia|]. apply passes_snoc; [done|]. by apply Hck.
    + intros [= <- <- <- <-]. cbn. split; [|by split_and!]. intros e [= <-]. cbn. eexists _, _. split_and!; try done.
      intros after. rewrite Hi. by apply Hck.
  - destruct (fail_on_revert cfg) eqn:Ef; intros [= <- <- <- <-].
    + cbn. split; [|by split_and!]. intros e [= <-]. cbn. eexists _, _. split_and!; try done.
      rewrite Hi. destruct (reverted r) eqn:Erev.
      * left. intros after. by eapply revert_checks.
      * right. eexists calls, tx, x, s0, r, _. split_and!; [done..|]. rewrite <-Hx. by rewrite Eh.
    + cbn. split; [by rewrite He|]. split_and!; [by destruct (reverted r)..|]. intros last _.
      split; cbn; [|done|lia..]. destruct (reverted r) eqn:Erev; cbn; rewrite Hi, Hx.
      * rewrite removelast_last. by eapply tracks_revert.
      * by eapply tracks_snoc.
Qed.

Lemma record_metrics_failures tx rev disc ts d d' : record_metrics tx rev disc ts d = Some d' → failures d' = failures d.
Proof. unfold record_metrics. destruct (fuzzed_metric_key ts tx) as [[key|]|]; [|by intros [= <-]|done]. by intros [= <-]. Qed.

Section chosen.
Context (senders : SenderFilters) (filters : ArtifactFilters) (updatable : bool).

(** The state of a run between two calls. *)
Definition going (x0 : Executor) (n0 : Z) (f : InvariantFailures) (run : InvariantTestRun) : Prop :=
  ∃ calls tx, inputs run = calls ++ [tx] ∧ following x0 n0 f (run_depth run) (executor run) calls.

Lemma run_step_spec x0 n0 d run s s' d' run' stop :
  going x0 n0 (failures d) run →
  run_step ic cfg senders filters updatable d run s = Some (s', (d', run', stop)) →
  (∀ e, error (failures d') = Some e → explained_error x0 e) ∧ (stop = None → going x0 n0 (failures d') run').
Proof.
  intros (calls & tx & Hi & Hf). pose proof (fo_error _ _ _ _ _ _ Hf) as He. unfold Invariant.run_step.
  destruct (is_timed_out s) as [o timed_out]. destruct timed_out; [intros [= <- <- <- <-]; by rewrite He|].
  rewrite Hi, last_snoc. destruct (TestExecutor.call_raw _ _ _ _ _ _ _ _) as [s1 [r|e]] eqn:Ec.
  2:{ intros [= <- <- <- <-]. by rewrite He. }
  intros (d1 & Hd1 & H)%bind_Some. apply bind_Some in H as (c & _ & H). apply bind_Some in H as ([s2 [[d2 run2] stop2]] & H2 & H).
  assert (failures d1 = failures d) as Hd1'.
  { destruct (show_metrics cfg); [by eapply record_metrics_failures|by injection Hd1 as ->]. }
  assert ((∀ e, error (failures d2) = Some e → explained_error x0 e) ∧
    (stop2 = None → following x0 n0 (failures d2) (run_depth run2) (executor run2) (inputs run2))) as [Herr Hgo].
  { case_bool_decide as Hm.
    - injection H2 as <- H2. unfold discard_call in H2. destruct (_ <? _)%nat; injection H2 as <- <- <-; cbn.
      + split; [|done]. intros e [= <-]. done.
      + rewrite Hd1', He. split; [done|]. intros _. rewrite Hi, removelast_last. done.
    - unfold Invariant.commit_call in H2. destruct (commit (executor run) r) as [x' r'] eqn:Ex.
      apply bind_Some in H2 as (s3 & _ & H2). destruct (collect_created_contracts _ _ _ _ _ _ _ _) as [[ts created] ?].
      destruct (Invariant.can_continue _ _ _ _ _ _ _ _ _ _ _ _ _ _) as [s4 [[d4 run4] res]] eqn:Ecc.
      assert (state_changeset r' = state_changeset r) as Hcs by (by injection Ex as _ <-).
      rewrite Hcs in Ecc. replace r' with (commit (executor run) r).2 in Ecc by by rewrite Ex.
      edestruct (can_continue_spec x0 n0 (run_depth run) (executor run) calls tx (set_outside o s) r)
        as (Herr & Hdep & _ & Hgo); [| | | | |exact Ecc|]; [cbn; by rewrite Hd1'|by rewrite Ec|done|done|by rewrite Ex|].
      destruct res as [[[] last]|e]; injection H2 as <- <- <- <-; cbn in *.
      + split; [by destruct (_ =? _)%nat|]. intros _. rewrite Hdep. specialize (Hgo last eq_refl). by destruct (run_depth run =? depth cfg - 1)%nat.
      + by split.
      + by split. }
  destruct stop2 as [e|]; [by injection H as <- <- <- <-|].
  apply bind_Some in H as ([s3 [tx3|]] & _ & H); injection H as <- <- <- <-; (split; [done|]); [|done].
  intros _. exists (inputs run2), tx3. split; [done|]. by apply Hgo.
Qed.

Lemma run_loop_spec fuel x0 n0 d run s s' d' run' stop :
  going x0 n0 (failures d) run →
  run_loop fuel ic cfg senders filters updatable d run s = Some (s', (d', run', stop)) →
  (∀ e, error (failures d') = Some e → explained_error x0 e) ∧
  (stop = None → going x0 n0 (failures d') run' ∧ depth cfg ≤ run_depth run').
Proof.
  revert d run s. induction fuel as [|fuel IH]; intros d run s Hg; cbn [Invariant.run_loop];
    (destruct (Nat.ltb_spec (run_depth run) (depth cfg)) as [|Hd];
     [|intros [= <- <- <- <-]; destruct Hg as (calls & tx & Hi & Hf);
       rewrite (fo_error _ _ _ _ _ _ Hf); split; [done|]; intros _; split; [by exists calls, tx|done]]); [done|].
  intros ([s1 [[d1 run1] stop1]] & Hs & Hl)%bind_Some. destruct (run_step_spec _ _ _ _ _ _ _ _ _ Hg Hs) as [He Hn].
  destruct stop1; [by injection Hl as <- <- <- <-|]. eapply IH; [by apply Hn|done].
Qed.

Lemma going_new x0 d tx : error (failures d) = None → going x0 (reverts (failures d)) (failures d) (run_new tx x0).
Proof.
  intros He. exists [], tx. split; [done|]. split; [apply tracks_nil|done|lia|]. intros _. split; [done|]. intros k Hk. cbn in Hk. lia.
Qed.


Context (Hafter : call_after_invariant ic = false).

Lemma run_once_spec x0 tx d s s' d' stop :
  error (failures d) = None →
  run_once ic cfg senders filters updatable x0 tx d s = Some (s', (d', stop)) →
  (∀ e, error (failures d') = Some e → explained_error x0 e) ∧ (stop = None → error (failures d') = None).
Proof.
  intros He. unfold Invariant.run_once. destruct (_ && _); [intros [= <- <- <-]; by rewrite He|].
  intros ([s1 [[d1 run1] stop1]] & Hl & Hr)%bind_Some.
  destruct (run_loop_spec _ _ _ _ _ _ _ _ _ _ (going_new x0 d tx He) Hl) as [Herr Hg].
  destruct stop1; [by injection Hr as <- <- <-|]. destruct (Hg eq_refl) as [(calls & next & _ & Hf) _].
  pose proof (fo_error _ _ _ _ _ _ Hf) as He1. rewrite Hafter in Hr. cbn in Hr. injection Hr as <- <- <-. cbn. by rewrite He1.
Qed.

Lemma runner_run_spec n x0 d s s' d' :
  error (failures d) = None →
  runner_run n ic cfg senders filters updatable x0 d s = Some (s', d') →
  ∀ e, error (failures d') = Some e → explained_error x0 e.
Proof.
  revert d s. induction n as [|n IH]; intros d s He; cbn [Invariant.runner_run]; [intros [= <- <-]; by rewrite He|].
  intros ([s1 [tx|]] & _ & Hr)%bind_Some; [|injection Hr as <- <-; by rewrite He].
  apply bind_Some in Hr as ([s2 [d2 stop]] & Ho & Hr). destruct (run_once_spec _ _ _ _ _ _ _ He Ho) as [Herr Hn].
  destruct stop; [by injection Hr as <- <-|]. eapply IH; [by apply Hn|done].
Qed.
End chosen.

(** The calls of a failure give the result when they are checked from [x]. *)
Definition reproduces (x : Executor) (case : FailedInvariantCaseData) (res : bool * bool) : Prop :=
  ∃ reason calls, test_error case = TestFail reason calls ∧
    ∀ after s, ∃ s', check x calls (all_calls calls) (addr case) (inv_calldata case) (case_fail_on_revert case) after s =
      Some (s', Ok res).

Lemma explained_reproduces x0 x case res err :
  R x0 x → addr case = inv_address ic → inv_calldata case = selector (invariant_function ic) →
  case_fail_on_revert case = fail_on_revert cfg → test_error case = err →
  match err with TestFail _ calls => ∀ after, checks x0 calls after res | _ => False end → reproduces x case res.
Proof.
  intros Hx Ha Hd Hf He Hc. destruct err as [|reason calls]; [done|]. exists reason, calls. split; [done|].
  intros after s. rewrite Ha, Hd, Hf. by apply Hc.
Qed.

Context (mem_accounts : B → gmap Z (DbAccount Bytecode)) (declaring : DeclaringFunctions).

End replay.

(** ** Termination *)

Lemma hit_merge_total m o : is_Some (HitMap.merge false m o).
Proof.
  unfold HitMap.merge. generalize (map_iter (HitMap.counts o)). intros l. revert m.
  induction l as [|kv l IH]; intros m; cbn; [by eexists|]. unfold HitMap.hits, add_u32.
  destruct (_ <? _)%Z; cbn; apply IH.
Qed.

Lemma merge_opt_total a b : is_Some (HitMaps.merge_opt false a b).
Proof.
  destruct b as [b|]; [|by destruct a; eexists]. destruct a as [a|]; [|by eexists]. cbn. apply fmap_is_Some.
  unfold HitMaps.merge. generalize (map_iter b). intros l. revert a. induction l as [|[k m] l IH]; intros a; cbn; [by eexists|].
  destruct (a !! k) as [e|]; [|apply IH]. destruct (hit_merge_total e m) as [e' ->]. apply IH.
Qed.

Section termination.
(** The EVM reads the targets and does not change them. *)
Context (Hkeep : ∀ b e spec i s, targets (inspect b e spec i s).1 = targets s).

Lemma call_raw_targets x from to data v s : targets (call_raw x from to data v s).1 = targets s.
Proof.
  unfold TestExecutor.call_raw, call_with_env. rewrite <-(Hkeep (backend x) (build_test_env x from (Some to) data v) (spec_id x) (inspector x) s).
  by destruct (inspect _ _ _ _ _) as [s1 [b r]].
Qed.

Lemma call_sol_targets {A} (decode : Bytes → option A) x from to data v s :
  targets (call_sol initial_gas revert_decode inspect decode x from to data v s).1 = targets s.
Proof.
  unfold call_sol. rewrite <-(call_raw_targets x from to data v s). by destruct (TestExecutor.call_raw _ _ _ _ _ _ _ _).
Qed.

Lemma is_success_targets x a rev changes sf s :
  targets (is_success initial_gas revert_decode inspect failed_calldata decode_bool x a rev changes sf s).1 = targets s.
Proof.
  unfold is_success, is_success_raw.
  destruct rev; [done|]. destruct (tb_snapshot_failure _); [done|]. destruct (global_failure _); [done|].
  destruct (match tb_storage_ref _ _ _ with Ok _ => _ | _ => _ end); [done|]. destruct (negb _); [done|].
  destruct (clone_accounts _ _ _) as [b|]; [|done].
  rewrite <-(call_sol_targets decode_bool (clone_with_backend (tb_commit changes b) x) CALLER a failed_calldata 0 s).
  by destruct (call_sol _ _ _ _ _ _ _ _ _ _).
Qed.

Lemma call_function_targets x a data s : targets (call_function x a data s).1 = targets s.
Proof.
  unfold Invariant.call_function. rewrite <-(call_raw_targets x CALLER a data 0 s).
  destruct (TestExecutor.call_raw _ _ _ _ _ _ _ _) as [s1 [r|e]]; [|done]. cbn.
  unfold is_raw_call_mut_success, is_raw_call_success. destruct (has_state_snapshot_failure _); [done|].
  pose proof (is_success_targets x a (reverted (set_changeset ∅ r)) (state_changeset r) false s1) as Ht.
  by destruct (is_success _ _ _ _ _ _ _ _ _ _ _).
Qed.

Lemma handlers_targets x keys changes s : targets (handlers_succeeded x keys changes s).1 = targets s.
Proof.
  revert s. induction keys as [|a keys IH]; intros s; cbn [Invariant.handlers_succeeded]; [done|].
  rewrite <-(is_success_targets x a false changes false s).
  destruct (is_success _ _ _ _ _ _ _ _ _ _ _) as [s1 []]; [apply IH|done].
Qed.

Lemma assert_invariants_targets x calls f s : targets (assert_invariants ic cfg x calls f s).1 = targets s.
Proof.
  unfold Invariant.assert_invariants. destruct (abi_encode_empty _) as [data|]; [|done]. unfold call_invariant_function.
  rewrite <-(call_function_targets x (inv_address ic) data s).
  destruct (Invariant.call_function _ _ _ _ _ _ _ _ _) as [s1 [[r success]|]]; [|done]. by destruct (_ && _).
Qed.

(** What the check after a call leaves of the run. *)
Lemma can_continue_keeps d run r changes s :
  let '(s', (_, run', _)) := can_continue ic cfg d run r changes s in
  targets s' = targets s ∧ created_contracts run' = created_contracts run ∧ inputs run' `prefix_of` inputs run ∧
  run_depth run' = run_depth run ∧ assume_rejects_counter run' = assume_rejects_counter run.
Proof.
  unfold Invariant.can_continue.
  assert (∃ s1 ok, (if reverted r then (s, false) else handlers_succeeded (executor run) (btree_iter (targets s)).*1 changes s) =
    (s1, ok) ∧ targets s1 = targets s) as (s1 & ok & -> & Ht).
  { destruct (reverted r); [by exists s, false|]. pose proof (handlers_targets (executor run) (btree_iter (targets s)).*1 changes s) as Hh.
    destruct (Invariant.handlers_succeeded _ _ _ _ _ _ _ _ _) as [s1 ok]. by exists s1, ok. }
  destruct ok.
  - pose proof (assert_invariants_targets (executor (push_traces (traces r) run)) (inputs (push_traces (traces r) run)) (failures d) s1) as Ha.
    destruct (Invariant.assert_invariants _ _ _ _ _ _ _ _ _ _ _ _ _) as [s2 [f res]]. cbn in *. split_and!; try done. congruence.
  - destruct (fail_on_revert cfg); [by split_and!|]. destruct (reverted r); split_and!; try done. cbn.
    destruct (inputs run) as [|t l] using rev_ind; [done|]. rewrite removelast_last. by eexists.
Qed.

(** A contract of the setup that is targeted, with functions to call. *)
Context (a : Z) (c : TargetedContract.t).
Context (Hsetup : is_Some (setup_contracts !! a)).
Context (Habi : abi_functions (TargetedContract.abi c) ≠ []) (Hfuns : TargetedContract.abi_fuzzed_functions c ≠ []).
Context (Hchk : chk = false).

Lemma fuzzed_functions_some s : targets s !! a = Some c → fuzzed_functions (targets s) ≠ [].
Proof.
  intros Ha. destruct (TargetedContract.abi_fuzzed_functions c) as [|f fs] eqn:Ef; [done|].
  intros He. apply (not_elem_of_nil (a, f)). rewrite <-He. unfold fuzzed_functions. apply list_elem_of_bind.
  exists (a, c). split.
  - cbn. rewrite Ef. by constructor.
  - apply list_elem_of_filter. split; [done|]. unfold btree_iter. rewrite sort_by_perm. by apply elem_of_map_to_list.
Qed.

Definition has_selector (tx : BasicTxDetails.t) : Prop := 4 ≤ length (BasicTxDetails.calldata tx).

Lemma strat_total r senders s :
  targets s !! a = Some c →
  ∃ s' o, invariant_strat r senders s = Some (s', o) ∧ targets s' = targets s ∧ ∀ tx, o = Some tx → has_selector tx.
Proof.
  intros Ha%fuzzed_functions_some. unfold invariant_strat.
  pose proof (sample_below r (length (fuzzed_functions (targets s))) s) as Hs.
  destruct (sample _ _ _) as [o i]. cbn in Hs.
  destruct (lookup_lt_is_Some_2 (fuzzed_functions (targets s)) i) as [[target f] ->]; [destruct (fuzzed_functions _); [done|cbn in *; lia]|].
  cbn. assert (∃ s1 sender, select_random_sender r senders (set_outside o s) = (s1, sender) ∧ targets s1 = targets s) as (s1 & sender & -> & Ht).
  { unfold select_random_sender. destruct (senders_targeted senders);
      [destruct (draw_address _ _ _)|destruct (sample _ _ _)]; by eexists _, _. }
  destruct sender as [sender|]; [|by exists s1, None].
  pose proof (draw_calldata_length r f s1) as Hl. destruct (draw_calldata r f s1) as [o1 data].
  eexists _, _. split; [done|]. split; [done|]. by intros tx [= <-].
Qed.

(** The state of a run, as far as panics depend on it. *)
Record sound (run : InvariantTestRun) (s : Shared) : Prop := {
  so_inputs : Forall has_selector (inputs run);
  so_created : Forall (λ b, setup_contracts !! b = None) (created_contracts run);
  so_target : targets s !! a = Some c }.

Lemma created_keeps filters updatable changes created s :
  Forall (λ b, setup_contracts !! b = None) created → targets s !! a = Some c →
  let '(ts, created', _) := collect_created_contracts original_bytes updatable changes project setup_contracts filters (targets s) created in
  Forall (λ b, setup_contracts !! b = None) created' ∧ ts !! a = Some c.
Proof.
  intros Hc Ha. unfold collect_created_contracts. destruct updatable; [|done]. cbn [negb].
  pose proof (collect_loop_extends original_bytes project setup_contracts filters (iter changes) (targets s) created) as He.
  destruct (collect_loop _ _ _ _ _ _ _) as [[ts created'] res]. cbn in He. destruct He as (l & -> & Hl & Ht).
  split; [by apply Forall_app|]. rewrite Ht; [done|]. intros Hin. rewrite Forall_forall in Hl.
  destruct Hsetup as [? Hs]. by rewrite (Hl a Hin) in Hs.
Qed.

(** One step further: another call or another rejection. *)
Definition advances (run run' : InvariantTestRun) : Prop :=
  (run_depth run' = S (run_depth run) ∧ assume_rejects_counter run' = assume_rejects_counter run) ∨
  (run_depth run' = run_depth run ∧ assume_rejects_counter run' = S (assume_rejects_counter run) ∧
   assume_rejects_counter run' ≤ max_assume_rejects cfg).

Lemma prefix_Forall {A} (P : A → Prop) l k : l `prefix_of` k → Forall P k → Forall P l.
Proof. intros [m ->]. by intros [? _]%Forall_app. Qed.

Lemma commit_call_total filters updatable tx r d run s :
  sound run s → has_selector tx →
  ∃ s' d' run' stop, commit_call ic cfg filters updatable tx r d run s = Some (s', (d', run', stop)) ∧
    (stop = None → sound run' s' ∧ advances run run').
Proof.
  intros [Hi Hc Ha] Htx. unfold Invariant.commit_call. destruct (commit (executor run) r) as [x1 r1].
  assert (∃ s1, (if reverted r1 then Some s else collect_data tx r1 (depth cfg) s) = Some s1 ∧ targets s1 = targets s)
    as (s1 & -> & Ht1).
  { destruct (reverted r1); [by exists s|]. unfold Invariant.collect_data.
    edestruct collect_values_grows as (d1 & -> & _); [exact Htx|]. by eexists. }
  cbn [mbind option_bind created_contracts set_executor]. rewrite <-Ht1 in Ha.
  pose proof (created_keeps filters updatable (state_changeset r1) _ s1 Hc Ha) as Hk.
  destruct (collect_created_contracts _ _ _ _ _ _ _ _) as [[ts created] ?]. destruct Hk as [Hc1 Ha1].
  set (run1 := push_case _ _). pose proof (can_continue_keeps d run1 r1 (state_changeset r1) (set_targets ts s1)) as Hcc.
  destruct (Invariant.can_continue _ _ _ _ _ _ _ _ _ _ _ _ _ _) as [s2 [[d2 run2] res]].
  destruct Hcc as (Ht2 & Hcr & Hin & Hdep & Hrej).
  destruct res as [[[] last]|e]; eexists _, _, _, _; (split; [done|]); [|done..]. intros _. split.
  - split; cbn; [by eapply prefix_Forall|by rewrite Hcr|]. by rewrite Ht2.
  - left. cbn. by rewrite Hdep, Hrej.
Qed.

Lemma run_step_total senders filters updatable d run s :
  sound run s →
  ∃ s' d' run' stop, run_step ic cfg senders filters updatable d run s = Some (s', (d', run', stop)) ∧
    (stop = None → sound run' s' ∧ advances run run').
Proof.
  intros [Hi Hc Ha]. unfold Invariant.run_step. destruct (is_timed_out s) as [o timed_out].
  destruct timed_out; [by eexists _, _, _, _|]. destruct (last (inputs run)) as [tx|] eqn:El; [|by eexists _, _, _, _].
  assert (has_selector tx) as Htx by (rewrite Forall_forall in Hi; by apply Hi, last_Some_elem_of).
  pose proof (call_raw_targets (executor run) (BasicTxDetails.sender tx) (BasicTxDetails.target tx)
    (BasicTxDetails.calldata tx) 0 (set_outside o s)) as Ht.
  destruct (TestExecutor.call_raw _ _ _ _ _ _ _ _) as [s1 [r|e]]; [|by eexists _, _, _, _]. cbn in Ht.
  set (discarded := bool_decide _).
  assert (∃ d1, (if show_metrics cfg then record_metrics tx (reverted r) discarded (targets s1) d else Some d) = Some d1) as [d1 ->].
  { destruct (show_metrics cfg); [|by eexists]. unfold record_metrics, fuzzed_metric_key.
    destruct (targets s1 !! _) as [c1|]; [|by eexists].
    destruct (called_function_total (TargetedContract.abi c1) _ Htx) as [f ->]. by eexists. }
  cbn [mbind option_bind]. rewrite Hchk. destruct (merge_opt_total (data_coverage d1) (raw_coverage r)) as [cov ->].
  cbn [mbind option_bind]. rewrite <-Ht in Ha.
  assert (∃ s2 d2 run2 stop2, (if discarded then Some (s1, discard_call cfg (set_coverage cov d1) run)
    else commit_call ic cfg filters updatable tx r (set_coverage cov d1) run s1) = Some (s2, (d2, run2, stop2)) ∧
    (stop2 = None → sound run2 s2 ∧ advances run run2)) as (s2 & d2 & run2 & stop2 & -> & Hgo).
  { destruct discarded; [|by apply commit_call_total]. unfold discard_call.
    destruct (Nat.ltb_spec (max_assume_rejects cfg) (assume_rejects_counter (next_reject (pop_input run)))) as [|Hle];
      eexists _, _, _, _; (split; [done|]); [done|]. intros _. split; [|right; by split_and!].
    split; cbn; [|done|done]. eapply prefix_Forall; [|exact Hi].
    destruct (inputs run) as [|t l] using rev_ind; [done|]. rewrite removelast_last. by eexists. }
  cbn [mbind option_bind]. destruct stop2; [by eexists _, _, _, _|]. destruct (Hgo eq_refl) as [[Hi2 Hc2 Ha2] Hadv].
  destruct (strat_total BranchRunner senders s2 Ha2) as (s3 & next & -> & Ht3 & Hn). cbn [mbind option_bind].
  destruct next as [tx2|]; eexists _, _, _, _; (split; [done|]); [|done]. intros _. split; [|done].
  split; cbn; [|done|by rewrite Ht3]. apply Forall_app. split; [done|]. constructor; [by apply Hn|done].
Qed.

Lemma run_loop_total fuel senders filters updatable d run s :
  sound run s → assume_rejects_counter run ≤ max_assume_rejects cfg →
  (depth cfg - run_depth run) + (max_assume_rejects cfg - assume_rejects_counter run) ≤ fuel →
  ∃ s' d' run' stop, run_loop fuel ic cfg senders filters updatable d run s = Some (s', (d', run', stop)) ∧
    (stop = None → sound run' s').
Proof.
  revert d run s. induction fuel as [|fuel IH]; intros d run s Hs Hr Hf; cbn [Invariant.run_loop];
    (destruct (Nat.ltb_spec (run_depth run) (depth cfg)) as [Hd|]; [|by eexists _, _, _, _]); [lia|].
  destruct (run_step_total senders filters updatable d run s Hs) as (s1 & d1 & run1 & stop & -> & Hgo).
  cbn [mbind option_bind]. destruct stop; [by eexists _, _, _, _|]. destruct (Hgo eq_refl) as [Hs1 Hadv].
  apply IH; [done|destruct Hadv as [[? ?]|(? & ? & ?)]; lia..].
Qed.

(** C14: A campaign always ends, and never panics, if some contract of the setup is a target and has functions to call: with overflow checks off, the EVM leaving the targets alone and the strategy generating calldata with a selector, every run ends within as many steps as its depth and the rejections it allows, and the runner comes to a result. *)
Theorem campaign_terminates (senders : SenderFilters) (filters : ArtifactFilters) (updatable : bool) (x : Executor)
    (n : nat) (d : InvariantTestData) (s : Shared) :
  targets s !! a = Some c →
  ∃ s' d', runner_run n ic cfg senders filters updatable x d s = Some (s', d').
Proof.
  revert d s. induction n as [|n IH]; intros d s Ha; cbn [Invariant.runner_run]; [by eexists _, _|].
  destruct (strat_total MainRunner senders s Ha) as (s1 & first & -> & Ht1 & Hn). cbn [mbind option_bind].
  destruct first as [tx|]; [|by eexists _, _].
  assert (∃ s2 d2 stop, run_once ic cfg senders filters updatable x tx d s1 = Some (s2, (d2, stop)) ∧
    (stop = None → targets s2 !! a = Some c)) as (s2 & d2 & stop & -> & Hgo).
  { unfold Invariant.run_once. destruct (_ && _); [by eexists _, _, _|].
    destruct (run_loop_total (run_fuel cfg) senders filters updatable d (run_new tx x) s1) as (s2 & d2 & run2 & stop & -> & Hs2).
    - split; cbn; [constructor; [by apply Hn|done]|done|by rewrite Ht1].
    - cbn. lia.
    - unfold run_fuel. cbn. lia.
    - cbn [mbind option_bind]. destruct stop; [by eexists _, _, _|].
      assert (∃ s3 d3 r, (if call_after_invariant ic && negb (has_errors d2)
        then assert_after_invariant initial_gas revert_decode inspect failed_calldata decode_bool afterInvariant_selector
          decode_revert ic cfg d2 run2 s2 else (s2, (d2, Ok true))) = (s3, (d3, r)) ∧ targets s3 = targets s2)
        as (s3 & d3 & r & -> & Ht3).
      { destruct (_ && _); [|by eexists _, _, _]. unfold assert_after_invariant, call_after_invariant_function.
        rewrite <-(call_function_targets (executor run2) (inv_address ic) afterInvariant_selector s2).
        destruct (Invariant.call_function _ _ _ _ _ _ _ _ _) as [s3 [[r ?]|]]; by eexists _, _, _. }
      destruct r; [|by eexists _, _, _]. eexists _, _, _. split; [done|]. intros _. cbn.
      destruct (Hs2 eq_refl) as [_ Hc2 Ha2]. rewrite clear_created_lookup, decide_False; [by rewrite Ht3|].
      intros Hin. rewrite Forall_forall in Hc2. destruct Hsetup as [? Hs]. by rewrite (Hc2 a Hin) in Hs. }
  cbn [mbind option_bind]. destruct stop; [by eexists _, _|]. apply IH. by apply Hgo.
Qed.
End termination.
End campaign.

(** ** A bank

    A contract that counts deposits, and the invariant that they are less than
    two; the state of the EVM is the count. *)
Module InvariantExample.
Definition evm : EvmTypes := {| Bytecode := Bytes; ForkBackend.Log := unit; JournalEntry := unit; JsRest := unit; MemExt := unit; SpecId := unit |}.
Definition fork : ForkTypes :=
  {| SharedBackend := unit; CfgEnv := unit; OptsRest := unit; BlobExcessGasAndPrice := unit; AccessListItem := unit; AuthorizationList := unit |}.
Definition cheats : CheatTypes := {| SignedAuthorization := unit; Wallets := unit; Cheats.Contracts := unit; Rest := unit |}.
#[local] Existing Instances ContractExample.types evm fork cheats.
Definition dyn : DynSol := {|
  DynSolType := unit; DynSolValue := unit; as_type _ := None; as_word _ := None; decode_log _ _ := None;
  abi_decode_output _ _ := None; bytes_slice b := b |}.
Definition exec : ExecTypes := {|
  SuccessReason := unit; HaltReason := unit; success_result _ := Stop; halt_result _ := OutOfFunds;
  success_result_ok _ := eq_refl; halt_result_not_ok _ := eq_refl; Arena := unit; arena_nodes _ := 0%Z;
  ChiselState := unit; StackRest := unit; Outside := unit |}.
#[local] Existing Instances dyn exec.

(** The first function, and the sender 70. *)
Definition choices : Proptest.
Proof.
  refine {| sample _ _ _ := (tt, 0); draw_address _ p _ := (tt, if p 70%Z then Some 70%Z else None);
    draw_calldata _ f _ := (tt, selector f ++ replicate (4 - length (selector f)) 0%Z);
    is_timed_out _ := (tt, false); random_address _ := (tt, 7%Z) |}.
  - intros ? ? ? H. exact H.
  - intros ? p ? a. cbn. destruct (p 70%Z) eqn:E; [by intros [= <-]|done].
  - intros ? f ? H. cbn [snd]. rewrite take_app_le by lia. by rewrite <-H, firstn_all.
  - intros ? f ?. cbn [snd]. rewrite length_app, length_replicate. lia.
Defined.

Definition backend : TestBackend Z := {|
  tb_commit changes b := match changes !! 5%Z with
                         | Some acc => from_option present_value b (acc_storage acc !! 0%Z) | None => b end;
  tb_storage_ref _ _ _ := Ok 0%Z; tb_basic_ref _ _ := Ok None; tb_clone_empty b := b; tb_insert_account_info _ _ b := b;
  tb_snapshot_failure _ := false; tb_add_persistent_account _ b := b; tb_set_caller _ b := b;
  default_info := mk_info 0 0 0 None; cheatcode_info := mk_info 0 0 0 None |}.
#[local] Existing Instances choices backend.

Definition deposit : BasicTxDetails.t := BasicTxDetails.mk 70 5 [1; 2; 3; 4]%Z.
Definition withdraw : BasicTxDetails.t := BasicTxDetails.mk 70 5 [5; 6; 7; 8]%Z.
Definition invariant_fn : Function := (str "invariant_count", [9; 9; 9; 9]%Z, true).

(** The result of a call and the count after it; a withdrawal always reverts. *)
Definition run_call (data : Bytes) (b : Z) : ExecutionResult * gmap Z Account :=
  if decide (data = [1; 2; 3; 4]%Z) then
    (ExecSuccess (tt : SuccessReason) 0 0 (OutputCall []),
     {[ 5%Z := mk_account (mk_info 0 0 0 None) {[ 0%Z := mk_slot b (b + 1) false ]} false true 0 ]})
  else if decide (data = [9; 9; 9; 9]%Z) then
    (if (b <? 2)%Z then ExecSuccess (tt : SuccessReason) 0 0 (OutputCall []) else ExecRevert 0 [], ∅)
  else (ExecRevert 0 [], ∅).

Definition inspect (b : Z) (e : Env) (_ : SpecId) (i : InspectorStack) (s : Shared) :
    Shared * (Z * result (Env * InspectorStack * (ExecutionResult * gmap Z Account)) Str) :=
  (s, (b, Ok (e, i, run_call (tx_data (tx_rest e)) b))).

Definition env : Env := mk_env 1 1 (mk_block_rest 0 30000000 0 0 None None) (tt : CfgEnv) 1 None
  (mk_tx_rest None 0 0 None 0 [] None [] [] None None).
Definition stack : InspectorStack := mk_stack None None None None None None (tt : StackRest).
Definition executor : Executor (B := Z) := mk_executor 0%Z env (tt : SpecId) stack 1000 false.
Definition shared : Shared :=
  mk_shared (FuzzDictionary.new (mk_dict_config false false 10 10) false)
    {[ 5%Z := TargetedContract.new (str "src:Bank") TargetExample.abi ]} ∅ (tt : Outside).
Definition config : InvariantConfig := mk_inv_config 2 3 false false (mk_dict_config false false 10 10) 10 3 0 true false.
Definition contract : InvariantContract := mk_contract 1 invariant_fn false (mk_abi [] [] []).
Definition failed (limit : nat) : FailedInvariantCaseData :=
  mk_case (TestAbort []) [] [] 1 [9; 9; 9; 9]%Z [] limit false.
Definition bits : BitSetLike (nat → bool) := {|
  saturated n i := (i <? n)%nat; bit_test s i := s i; bit_clear i s j := if decide (i = j) then false else s j;
  bit_set i s j := if decide (i = j) then true else s j |}.
Definition bits_laws : BitSetLaws (nat → bool) (BS := bits).
Proof. by split. Defined.

(** Executors with the same count. *)
Definition same (x y : Executor (B := Z)) : Prop :=
  TestExecutor.backend x = TestExecutor.backend y ∧ legacy_assertions x = false ∧ legacy_assertions y = false.

Definition gas (_ : Env) (_ : SpecId) : Z := 0.
Definition reason (_ : Bytes) (_ : InstructionResult) : Str := [].
Definition no_bool (_ : Bytes) : option bool := None.
Definition encode (f : Function) : result Bytes Str := Ok (selector f).
Definition decode (_ : list JsonAbi) (_ : Bytes) (_ : InstructionResult) : Str := [].
Definition no_code (b : Bytecode) : bool := bool_decide (b = []).
Definition original (b : Bytecode) : Bytes := b.
Definition no_accounts (_ : Z) : gmap Z (DbAccount Bytecode) := ∅.
Definition nothing {R} : Declares R := mk_declares R [0%Z] (λ _, None).
Definition declaring : DeclaringFunctions :=
  mk_declaring nothing nothing nothing nothing nothing nothing nothing nothing nothing nothing.
Definition one_call : InvariantConfig := mk_inv_config 2 1 false false (mk_dict_config false false 10 10) 10 3 0 true false.
Definition test_data : InvariantTestData := data_new failures_new None.
Definition bank : TargetedContract.t := TargetedContract.new (str "src:Bank") TargetExample.abi.
End InvariantExample.

Section example.
Import InvariantExample.
#[local] Existing Instances ContractExample.types evm fork cheats dyn exec choices backend bits bits_laws.

Lemma same_replayable : replayable gas reason inspect [] no_bool same.
Proof.
  split.
  - intros x y from to data s s' (Hb & Hx & Hy). unfold TestExecutor.call_raw, transact_raw, call_with_env, transact_with_env.
    cbn -[run_call commit]. rewrite Hb. destruct (run_call data (TestExecutor.backend y)) as [[] changes]; cbn;
      (split; [done|]); (split; [done|]); by split_and!; rewrite ?Hb.
  - intros x y address data s s' (Hb & Hx & Hy). unfold call_function, TestExecutor.call_raw, call_with_env.
    cbn -[run_call is_raw_call_mut_success]. rewrite Hb.
    unfold is_raw_call_mut_success, is_raw_call_success, is_success, is_success_raw. cbn -[run_call global_failure].
    rewrite Hx, Hy. destruct (run_call data (TestExecutor.backend y)) as [[] changes]; cbn -[global_failure];
      by destruct (global_failure changes).
  - intros x y from to data s r (Hb & Hx & Hy). unfold TestExecutor.call_raw, call_with_env. cbn -[run_call commit].
    unfold run_call. repeat case_decide; try case_match; intros [= <-] Hr; done.
Qed.

(** Fewer than two deposits. *)
Definition below_two (txs : list BasicTxDetails.t) : bool :=
  (length (filter (λ tx, BasicTxDetails.calldata tx = [1; 2; 3; 4]%Z) txs) <? 2)%nat.
Definition three_calls : list BasicTxDetails.t := [deposit; withdraw; deposit].

Lemma three_reproducible limit :
  reproducible gas reason inspect [] no_bool [] executor (failed limit) false three_calls below_two.
Proof.
  intros txs s Hs. unfold three_calls in Hs.
  repeat match goal with Hl : _ `sublist_of` _ |- _ => inversion Hl; subst; clear Hl end;
    exists s, true; vm_compute; reflexivity.
Qed.

Lemma shrunk_sequence_fails_witness :
  ∃ s' shrunk, shrink_sequence gas reason inspect [] no_bool [] (failed 4) three_calls executor false shared =
      Some (s', Ok shrunk) ∧ shrunk `sublist_of` three_calls ∧ below_two shrunk = false ∧
    each_needed three_calls shrunk below_two ∧
    (monotone three_calls below_two → ∀ l, l `sublist_of` shrunk → l ≠ shrunk → below_two l = true).
Proof.
  eapply (shrunk_sequence_fails gas reason inspect [] no_bool [] executor (failed 4) false three_calls below_two shared).
  - apply three_reproducible.
  - vm_compute. reflexivity.
  - vm_compute. lia.
  - vm_compute. reflexivity.
Defined.

Lemma shrink_limit_untested_witness :
  ∃ s' some, shrink_sequence gas reason inspect [] no_bool [] (failed 3) three_calls executor false shared =
      Some (s', Ok (some ++ drop 3 three_calls)) ∧ some `sublist_of` take 2 three_calls.
Proof.
  eapply (shrink_limit_untested gas reason inspect [] no_bool [] executor (failed 3) false three_calls below_two 2 shared).
  - apply three_reproducible.
  - vm_compute. reflexivity.
  - reflexivity.
  - vm_compute. lia.
  - vm_compute. reflexivity.
Defined.

#[local] Existing Instances default_iter_order default_map_order TargetExample.alloy.



Lemma campaign_terminates_witness :
  ∃ s' d', runner_run gas reason inspect [] no_bool [] encode decode original no_code [] TargetExample.setup false 2 contract
    config (mk_senders [] []) (mk_filters ∅ []) true executor test_data shared = Some (s', d').
Proof.
  apply (campaign_terminates gas reason inspect [] no_bool [] encode decode original no_code [] TargetExample.setup false
    contract config (λ _ _ _ _ _, eq_refl) 5 bank); [by eexists|done|done|done|]. vm_compute. reflexivity.
Defined.
End example.
