(* ===== verification/Asserts.v ===== *)
(** The assertions of the cheatcodes (cheatcodes/src/test/assert.rs), what they
    tell of a failure, and how a failure ends or marks the test; and the
    formatting with decimals (evm/abi/src/console/mod.rs).

    [U256] and [I256] are integers with their bounds as hypotheses; arithmetic
    that may leave them wraps around. *)
From S2P Require Import Prelude Radix Database MultiFork ForkBackend ForkTransact Pranks Frames ExpectEmit ExpectRevert ExpectCall Mocks StateDiffs Mapping Cheats Coverage Contracts FuzzTargets FuzzDict TestExecutor Invariant InvariantTheorems.

Definition U256_SIZE : Z := 2 ^ 256.
Definition is_u256 (z : Z) : Prop := (0 ≤ z < U256_SIZE)%Z.
Definition is_i256 (z : Z) : Prop := (- 2 ^ 255 ≤ z < 2 ^ 255)%Z.
Definition EQ_REL_DELTA_RESOLUTION : Z := 18.

(** ** Values and their text *)

(** The values of the types that can be compared. *)
Inductive Value :=
  | VBool (b : bool) | VUint (n : Z) | VInt (n : Z) | VAddress (a : Z) | VBytes32 (word : Bytes) | VString (s : Str).

#[export] Instance Value_eq : EqDecision Value.
Proof. solve_decision. Defined.

Definition dec_int (n : Z) : Str := if (n <? 0)%Z then str "-" ++ to_radix 10 (- n) else to_radix 10 n.

Section format.
Context {AL : Alloy}.
(** [ParseUnits::U256(x).format_units(units)] *)
Context (format_units : Z → Z → Str).

Definition display (v : Value) : Str :=
  match v with
  | VBool b => if b then str "true" else str "false"
  | VUint n => to_radix 10 n
  | VInt n => dec_int n
  | VAddress a => address_str a
  | VBytes32 w => encode_prefixed w
  | VString s => s
  end.

(** [v.iter().format(", ")] *)
Fixpoint comma_separated (l : list Str) : Str :=
  match l with
  | [] => []
  | [s] => s
  | s :: l => s ++ str ", " ++ comma_separated l
  end.
Definition display_array (l : list Str) : Str := str "[" ++ comma_separated l ++ str "]".

(** A unit has at most 77 decimals; more of them saturate at 255. *)
Definition format_units_uint (x decimals : Z) : Str :=
  let units := Z.min decimals 255 in
  if (units <=? 77)%Z then format_units x units else to_radix 10 x.

Definition into_sign_and_abs (z : Z) : bool * Z := ((z <? 0)%Z, Z.abs z).

Definition format_units_int (x decimals : Z) : Str :=
  let '(negative, abs) := into_sign_and_abs x in
  (if negative then str "-" else []) ++ format_units_uint abs decimals.

(** ** Errors *)

Inductive ComparisonAssertionError (T : Type) :=
  | CmpNe (left right : T) | CmpEq (left right : T) | CmpGe (left right : T) | CmpGt (left right : T)
  | CmpLe (left right : T) | CmpLt (left right : T).

Definition format_values {T} (f : T → Str) (e : ComparisonAssertionError T) : Str :=
  match e with
  | CmpNe _ l r => f l ++ str " == " ++ f r
  | CmpEq _ l r => f l ++ str " != " ++ f r
  | CmpGe _ l r => f l ++ str " < " ++ f r
  | CmpGt _ l r => f l ++ str " <= " ++ f r
  | CmpLe _ l r => f l ++ str " > " ++ f r
  | CmpLt _ l r => f l ++ str " >= " ++ f r
  end.

Record EqAbsAssertionError := mk_abs_error { abs_left : Z; abs_right : Z; abs_max_delta : Z; abs_real_delta : Z }.

(** The text of an approximate comparison, from those of its parts. *)
Definition approx_text (left right max_delta real_delta : Str) : Str :=
  left ++ str " !~= " ++ right ++ str " (max delta: " ++ max_delta ++ str ", real delta: " ++ real_delta ++ str ")".

(** [Display], and [format_with_decimals]; [number] and [units] are those of
    unsigned or of signed integers. *)
Definition abs_to_string (number : Z → Str) (e : EqAbsAssertionError) : Str :=
  approx_text (number (abs_left e)) (number (abs_right e)) (to_radix 10 (abs_max_delta e)) (to_radix 10 (abs_real_delta e)).
Definition abs_with_decimals (units : Z → Z → Str) (decimals : Z) (e : EqAbsAssertionError) : Str :=
  approx_text (units (abs_left e) decimals) (units (abs_right e) decimals)
    (format_units_uint (abs_max_delta e) decimals) (format_units_uint (abs_real_delta e) decimals).

Definition format_delta_percent (delta : Z) : Str :=
  format_units_uint delta (EQ_REL_DELTA_RESOLUTION - 2) ++ str "%".

Inductive EqRelDelta := DeltaDefined (delta : Z) | DeltaUndefined.

Definition delta_to_string (d : EqRelDelta) : Str :=
  match d with DeltaDefined delta => format_delta_percent delta | DeltaUndefined => str "undefined" end.

Inductive EqRelAssertionError :=
  | RelFailure (left right max_delta : Z) (real_delta : EqRelDelta)
  | RelOverflow.

Definition rel_to_string (number : Z → Str) (e : EqRelAssertionError) : Str :=
  match e with
  | RelFailure l r max_delta real_delta =>
      approx_text (number l) (number r) (format_delta_percent max_delta) (delta_to_string real_delta)
  | RelOverflow => str "overflow in delta calculation"
  end.
Definition rel_with_decimals (units : Z → Z → Str) (decimals : Z) (e : EqRelAssertionError) : Str :=
  rel_to_string (λ z, units z decimals) e.

(** ** Assertions *)

Definition assert_true (condition : bool) : result Bytes unit := if condition then Ok [] else Err tt.
Definition assert_false (condition : bool) : result Bytes unit := if negb condition then Ok [] else Err tt.

Definition assert_eq {T} `{EqDecision T} (left right : T) : result Bytes (ComparisonAssertionError T) :=
  if decide (left = right) then Ok [] else Err (CmpEq _ left right).
Definition assert_not_eq {T} `{EqDecision T} (left right : T) : result Bytes (ComparisonAssertionError T) :=
  if decide (left ≠ right) then Ok [] else Err (CmpNe _ left right).
Definition assert_gt (left right : Z) : result Bytes (ComparisonAssertionError Z) :=
  if (right <? left)%Z then Ok [] else Err (CmpGt _ left right).
Definition assert_ge (left right : Z) : result Bytes (ComparisonAssertionError Z) :=
  if (right <=? left)%Z then Ok [] else Err (CmpGe _ left right).
Definition assert_lt (left right : Z) : result Bytes (ComparisonAssertionError Z) :=
  if (left <? right)%Z then Ok [] else Err (CmpLt _ left right).
Definition assert_le (left right : Z) : result Bytes (ComparisonAssertionError Z) :=
  if (left <=? right)%Z then Ok [] else Err (CmpLe _ left right).

(** The arithmetic of [U256] wraps around. *)
Definition u256_sub (x y : Z) : Z := (x - y) mod U256_SIZE.
Definition u256_add (x y : Z) : Z := (x + y) mod U256_SIZE.
Definition u256_checked_mul (x y : Z) : option Z := if (x * y <? U256_SIZE)%Z then Some (x * y)%Z else None.

Definition get_delta_uint (left right : Z) : Z :=
  if (right <? left)%Z then u256_sub left right else u256_sub right left.

Definition get_delta_int (left right : Z) : Z :=
  let '(left_sign, left_abs) := into_sign_and_abs left in
  let '(right_sign, right_abs) := into_sign_and_abs right in
  if eqb left_sign right_sign then
    if (right_abs <? left_abs)%Z then u256_sub left_abs right_abs else u256_sub right_abs left_abs
  else u256_add left_abs right_abs.

Definition uint_assert_approx_eq_abs (left right max_delta : Z) : result Bytes EqAbsAssertionError :=
  let delta := get_delta_uint left right in
  if (delta <=? max_delta)%Z then Ok [] else Err (mk_abs_error left right max_delta delta).

Definition int_assert_approx_eq_abs (left right max_delta : Z) : result Bytes EqAbsAssertionError :=
  let delta := get_delta_int left right in
  if (delta <=? max_delta)%Z then Ok [] else Err (mk_abs_error left right max_delta delta).

Definition uint_assert_approx_eq_rel (left right max_delta : Z) : result Bytes EqRelAssertionError :=
  if (right =? 0)%Z then
    if (left =? 0)%Z then Ok [] else Err (RelFailure left right max_delta DeltaUndefined)
  else
    match u256_checked_mul (get_delta_uint left right) (10 ^ EQ_REL_DELTA_RESOLUTION) with
    | None => Err RelOverflow
    | Some scaled =>
        let delta := (scaled / right)%Z in
        if (delta <=? max_delta)%Z then Ok [] else Err (RelFailure left right max_delta (DeltaDefined delta))
    end.

Definition int_assert_approx_eq_rel (left right max_delta : Z) : result Bytes EqRelAssertionError :=
  if (right =? 0)%Z then
    if (left =? 0)%Z then Ok [] else Err (RelFailure left right max_delta DeltaUndefined)
  else
    let '(_, abs_right) := into_sign_and_abs right in
    match u256_checked_mul (get_delta_int left right) (10 ^ EQ_REL_DELTA_RESOLUTION) with
    | None => Err RelOverflow
    | Some scaled =>
        let delta := (scaled / abs_right)%Z in
        if (delta <=? max_delta)%Z then Ok [] else Err (RelFailure left right max_delta (DeltaDefined delta))
    end.

(** ** The cheatcodes *)

(** Both sides are of the same type: [uint256] or [int256]. *)
Inductive Kind := KUint | KInt.

Definition number (k : Kind) (z : Z) : Str := match k with KUint => to_radix 10 z | KInt => dec_int z end.
Definition units (k : Kind) (z decimals : Z) : Str :=
  match k with KUint => format_units_uint z decimals | KInt => format_units_int z decimals end.

Inductive Order := OGt | OGe | OLt | OLe.

(** The pairs of cheatcodes, without and with a message; the variants of an
    assertion for the types of its arguments are one constructor. *)
Inductive Assertion :=
  | AssertTrue (condition : bool)
  | AssertFalse (condition : bool)
  | AssertEq (left right : Value)
  | AssertEqBytes (left right : Bytes)
  | AssertEqArray (left right : list Value)
  | AssertEqBytesArray (left right : list Bytes)
  | AssertEqDecimal (k : Kind) (left right decimals : Z)
  | AssertNotEq (left right : Value)
  | AssertNotEqBytes (left right : Bytes)
  | AssertNotEqArray (left right : list Value)
  | AssertNotEqBytesArray (left right : list Bytes)
  | AssertNotEqDecimal (k : Kind) (left right decimals : Z)
  | AssertOrder (o : Order) (k : Kind) (left right : Z)
  | AssertOrderDecimal (o : Order) (k : Kind) (left right decimals : Z)
  | AssertApproxEqAbs (k : Kind) (left right max_delta : Z)
  | AssertApproxEqAbsDecimal (k : Kind) (left right decimals max_delta : Z)
  | AssertApproxEqRel (k : Kind) (left right max_percent_delta : Z)
  | AssertApproxEqRelDecimal (k : Kind) (left right decimals max_percent_delta : Z).

Definition assert_order (o : Order) : Z → Z → result Bytes (ComparisonAssertionError Z) :=
  match o with OGt => assert_gt | OGe => assert_ge | OLt => assert_lt | OLe => assert_le end.
Definition approx_eq_abs (k : Kind) : Z → Z → Z → result Bytes EqAbsAssertionError :=
  match k with KUint => uint_assert_approx_eq_abs | KInt => int_assert_approx_eq_abs end.
Definition approx_eq_rel (k : Kind) : Z → Z → Z → result Bytes EqRelAssertionError :=
  match k with KUint => uint_assert_approx_eq_rel | KInt => int_assert_approx_eq_rel end.

Section cheatcodes.
(** The state of the EVM with its console, and [sstore]. *)
Context {St : Type} (console_log : Str → St → St) (sstore : Z → Z → Z → St → result St Str).
Context (assertions_revert : bool).

Definition handle_assertion_result {E} (r : result Bytes E) (error_formatter : E → Str) (error_msg : option Str)
    (format_error : bool) (s : St) : St * result Bytes Str :=
  match r with
  | Ok _ => (s, Ok [])
  | Err err =>
      let error_msg := default (str "assertion failed") error_msg in
      let msg := if format_error then error_msg ++ str ": " ++ error_formatter err else error_msg in
      if assertions_revert then (s, Err msg)
      else
        let s := console_log msg s in
        match sstore CHEATCODE_ADDRESS GLOBAL_FAIL_SLOT 1 s with
        | Ok s => (s, Ok [])
        | Err e => (s, Err e)
        end
  end.

Definition array_text (l : list Value) : Str := display_array (display <$> l).

Definition apply_assertion (a : Assertion) (error : option Str) (s : St) : St * result Bytes Str :=
  match a with
  | AssertTrue c => handle_assertion_result (assert_true c) (λ _, str "assertion failed") error false s
  | AssertFalse c => handle_assertion_result (assert_false c) (λ _, str "assertion failed") error false s
  | AssertEq l r => handle_assertion_result (assert_eq l r) (format_values display) error true s
  | AssertEqBytes l r =>
      handle_assertion_result (assert_eq (encode_prefixed l) (encode_prefixed r)) (format_values id) error true s
  | AssertEqArray l r => handle_assertion_result (assert_eq l r) (format_values array_text) error true s
  | AssertEqBytesArray l r =>
      handle_assertion_result (assert_eq (encode_prefixed <$> l) (encode_prefixed <$> r)) (format_values display_array) error true s
  | AssertEqDecimal k l r d => handle_assertion_result (assert_eq l r) (format_values (λ z, units k z d)) error true s
  | AssertNotEq l r => handle_assertion_result (assert_not_eq l r) (format_values display) error true s
  | AssertNotEqBytes l r =>
      handle_assertion_result (assert_not_eq (encode_prefixed l) (encode_prefixed r)) (format_values id) error true s
  | AssertNotEqArray l r => handle_assertion_result (assert_not_eq l r) (format_values array_text) error true s
  | AssertNotEqBytesArray l r =>
      handle_assertion_result (assert_not_eq (encode_prefixed <$> l) (encode_prefixed <$> r)) (format_values display_array)
        error true s
  | AssertNotEqDecimal k l r d =>
      handle_assertion_result (assert_not_eq l r) (format_values (λ z, units k z d)) error true s
  | AssertOrder o k l r => handle_assertion_result (assert_order o l r) (format_values (number k)) error true s
  | AssertOrderDecimal o k l r d =>
      handle_assertion_result (assert_order o l r) (format_values (λ z, units k z d)) error true s
  | AssertApproxEqAbs k l r m => handle_assertion_result (approx_eq_abs k l r m) (abs_to_string (number k)) error true s
  | AssertApproxEqAbsDecimal k l r d m =>
      handle_assertion_result (approx_eq_abs k l r m) (abs_with_decimals (units k) d) error true s
  | AssertApproxEqRel k l r m => handle_assertion_result (approx_eq_rel k l r m) (rel_to_string (number k)) error true s
  | AssertApproxEqRelDecimal k l r d m =>
      handle_assertion_result (approx_eq_rel k l r m) (rel_with_decimals (units k) d) error true s
  end.
End cheatcodes.
End format.

(** ** What the assertions assert *)

(** The values of the arguments are within their types. *)
Definition of_kind (k : Kind) (z : Z) : Prop := match k with KUint => is_u256 z | KInt => is_i256 z end.
Definition is_byte (b : Z) : Prop := (0 ≤ b < 256)%Z.

Definition well_typed (a : Assertion) : Prop :=
  match a with
  | AssertEqBytes l r | AssertNotEqBytes l r => Forall is_byte l ∧ Forall is_byte r
  | AssertEqBytesArray l r | AssertNotEqBytesArray l r => Forall (Forall is_byte) l ∧ Forall (Forall is_byte) r
  | AssertApproxEqAbs k l r m | AssertApproxEqAbsDecimal k l r _ m
  | AssertApproxEqRel k l r m | AssertApproxEqRelDecimal k l r _ m => of_kind k l ∧ of_kind k r ∧ is_u256 m
  | _ => True
  end.

(** The difference, in units of the eighteenth decimal of the right side, is at
    most [m]; it must not overflow before the division. *)
Definition close_rel (l r m : Z) : Prop :=
  if (r =? 0)%Z then l = 0%Z
  else (Z.abs (l - r) * 10 ^ 18 < 2 ^ 256)%Z ∧ (Z.abs (l - r) * 10 ^ 18 < (m + 1) * Z.abs r)%Z.

Definition holds (a : Assertion) : Prop :=
  match a with
  | AssertTrue c => c = true
  | AssertFalse c => c = false
  | AssertEq l r => l = r
  | AssertEqBytes l r => l = r
  | AssertEqArray l r => l = r
  | AssertEqBytesArray l r => l = r
  | AssertEqDecimal _ l r _ => l = r
  | AssertNotEq l r => l ≠ r
  | AssertNotEqBytes l r => l ≠ r
  | AssertNotEqArray l r => l ≠ r
  | AssertNotEqBytesArray l r => l ≠ r
  | AssertNotEqDecimal _ l r _ => l ≠ r
  | AssertOrder o _ l r | AssertOrderDecimal o _ l r _ =>
      match o with OGt => l > r | OGe => l >= r | OLt => l < r | OLe => l <= r end%Z
  | AssertApproxEqAbs _ l r m | AssertApproxEqAbsDecimal _ l r _ m => (Z.abs (l - r) ≤ m)%Z
  | AssertApproxEqRel _ l r m | AssertApproxEqRelDecimal _ l r _ m => close_rel l r m
  end.

Lemma hex_byte_inj b c : is_byte b → is_byte c → hex_byte b = hex_byte c → b = c.
Proof.
  assert (∀ x, is_byte x → (0 ≤ x / 16 < 36 ∧ 0 ≤ x mod 16 < 36 ∧ x = 16 * (x / 16) + x mod 16)%Z) as Hd.
  { intros x Hx. unfold is_byte in Hx. pose proof (Z.div_mod x 16). pose proof (Z.mod_pos_bound x 16). lia. }
  intros (Hb1 & Hb2 & Hb)%Hd (Hc1 & Hc2 & Hc)%Hd H. injection H as H1 H2.
  apply (f_equal char_digit) in H1, H2. rewrite !char_digit_char in H1, H2 by done.
  injection H1 as H1. injection H2 as H2. congruence.
Qed.

Lemma encode_prefixed_inj l r : Forall is_byte l → Forall is_byte r → encode_prefixed l = encode_prefixed r → l = r.
Proof.
  intros Hl Hr H. unfold encode_prefixed in H. apply app_inv_head in H. revert r Hr H.
  induction Hl as [|b l Hb _ IH]; intros [|c r] Hr H; try done. apply Forall_cons in Hr as [Hc Hr].
  cbn in H. injection H as H1 H2 H. f_equal; [|by apply IH]. apply hex_byte_inj; [done..|]. unfold hex_byte. congruence.
Qed.

Lemma encode_array_inj l r :
  Forall (Forall is_byte) l → Forall (Forall is_byte) r → encode_prefixed <$> l = encode_prefixed <$> r → l = r.
Proof.
  intros Hl. revert r. induction Hl as [|b l Hb _ IH]; intros [|c r] Hr H; try done. apply Forall_cons in Hr as [Hc Hr].
  rewrite !fmap_cons in H. apply (inj2 cons) in H as [H1 H]. f_equal; [by apply encode_prefixed_inj|by apply IH].
Qed.

(** The differences are exact. *)
Lemma delta_uint_abs l r : is_u256 l → is_u256 r → get_delta_uint l r = Z.abs (l - r).
Proof.
  unfold is_u256, get_delta_uint, u256_sub. intros Hl Hr. destruct (Z.ltb_spec r l); rewrite Z.mod_small; lia.
Qed.

Lemma delta_int_abs l r : is_i256 l → is_i256 r → get_delta_int l r = Z.abs (l - r).
Proof.
  unfold is_i256, get_delta_int, u256_sub, u256_add, into_sign_and_abs, U256_SIZE. intros Hl Hr.
  assert (2 ^ 256 = 2 * 2 ^ 255)%Z as E by reflexivity. rewrite E. clear E. generalize dependent (2 ^ 255)%Z. intros M Hl Hr.
  destruct (Z.ltb_spec l 0), (Z.ltb_spec r 0); cbn [eqb];
    try (destruct (Z.ltb_spec (Z.abs r) (Z.abs l))); rewrite Z.mod_small; lia.
Qed.

(** A check that succeeds exactly if [P]. *)
Definition decides {E} (P : Prop) (r : result Bytes E) : Prop := (P → r = Ok []) ∧ (¬ P → ∃ e, r = Err e).

Lemma approx_abs_holds k l r m : of_kind k l → of_kind k r → decides (Z.abs (l - r) ≤ m)%Z (approx_eq_abs k l r m).
Proof.
  destruct k; cbn; intros Hl Hr; unfold uint_assert_approx_eq_abs, int_assert_approx_eq_abs;
    rewrite ?delta_uint_abs, ?delta_int_abs by done;
    destruct (Z.leb_spec (Z.abs (l - r)) m); (split; [try done; lia|try lia; eauto]).
Qed.

Lemma scaled_close x r m : (0 < r)%Z → (x / r <=? m)%Z = bool_decide (x < (m + 1) * r)%Z.
Proof.
  intros Hr. apply eq_bool_prop_intro. rewrite Is_true_true, Z.leb_le, bool_decide_spec. split; intros H.
  - pose proof (Z.mul_succ_div_gt x r Hr). nia.
  - enough (x / r < m + 1)%Z by lia. apply Z.div_lt_upper_bound; lia.
Qed.

Lemma approx_rel_holds k l r m : of_kind k l → of_kind k r → decides (close_rel l r m) (approx_eq_rel k l r m).
Proof.
  intros Hl Hr.
  assert (approx_eq_rel k l r m = if (r =? 0)%Z then
      if (l =? 0)%Z then Ok [] else Err (RelFailure l r m DeltaUndefined)
    else match u256_checked_mul (Z.abs (l - r)) (10 ^ 18) with
         | None => Err RelOverflow
         | Some scaled => if (scaled / Z.abs r <=? m)%Z then Ok []
                          else Err (RelFailure l r m (DeltaDefined (scaled / Z.abs r)))
         end) as ->.
  { destruct k; cbn [of_kind approx_eq_rel] in *.
    - unfold uint_assert_approx_eq_rel. rewrite delta_uint_abs by done. unfold is_u256 in Hr. by rewrite (Z.abs_eq r) by lia.
    - unfold int_assert_approx_eq_rel, into_sign_and_abs. by rewrite delta_int_abs by done. }
  split; intros Hc; unfold close_rel in Hc; destruct (Z.eqb_spec r 0) as [Hr0|Hr0].
  - by rewrite Hc.
  - unfold u256_checked_mul, U256_SIZE. rewrite (proj2 (Z.ltb_lt _ _)) by lia. rewrite scaled_close by lia.
    by rewrite bool_decide_eq_true_2 by lia.
  - destruct (Z.eqb_spec l 0); [done|eauto].
  - unfold u256_checked_mul, U256_SIZE. destruct (Z.ltb_spec (Z.abs (l - r) * 10 ^ 18) (2 ^ 256)); [|eauto].
    rewrite scaled_close by lia. rewrite bool_decide_eq_false_2 by lia. eauto.
Qed.

(** ** Outcomes *)

Section outcome.
Context {AL : Alloy} (format_units : Z → Z → Str).
Context {St : Type} (console_log : Str → St → St) (sstore : Z → Z → Z → St → result St Str) (assertions_revert : bool).

Abbreviation apply_assertion := (apply_assertion format_units console_log sstore assertions_revert).

(** What a failure with a message comes to. *)
Definition failure (msg : Str) (s : St) : St * result Bytes Str :=
  if assertions_revert then (s, Err msg)
  else
    match sstore CHEATCODE_ADDRESS GLOBAL_FAIL_SLOT 1 (console_log msg s) with
    | Ok s' => (s', Ok [])
    | Err e => (console_log msg s, Err e)
    end.

Definition fails (error : option Str) (s : St) (r : St * result Bytes Str) : Prop :=
  ∃ msg, default (str "assertion failed") error `prefix_of` msg ∧ r = failure msg s.

Lemma handle_fails {E} (err : E) fmt error b s :
  fails error s (handle_assertion_result console_log sstore assertions_revert (Err err) fmt error b s).
Proof. unfold fails, handle_assertion_result. destruct b; eexists; (split; [|done]); [by eexists|done]. Qed.

Lemma handle_decides {E} (P : Prop) (r : result Bytes E) fmt error b s :
  decides P r →
  let res := handle_assertion_result console_log sstore assertions_revert r fmt error b s in
  (P → res = (s, Ok [])) ∧ (¬ P → fails error s res).
Proof. intros [Hy Hn]. split; [by intros ->%Hy|]. intros [e ->]%Hn. apply handle_fails. Qed.

Lemma decides_eq {T} `{EqDecision T} (l r : T) : decides (l = r) (assert_eq l r).
Proof. unfold assert_eq. split; intros; case_decide; try done; eauto. Qed.

Lemma decides_ne {T} `{EqDecision T} (l r : T) : decides (l ≠ r) (assert_not_eq l r).
Proof. unfold assert_not_eq. split; intros; case_decide; try done; eauto. Qed.

Lemma decides_iff {E} (P Q : Prop) (r : result Bytes E) : (P ↔ Q) → decides P r → decides Q r.
Proof. unfold decides. intros HPQ [Hy Hn]. split; intros; [apply Hy|apply Hn]; tauto. Qed.

Lemma decides_order o (l r : Z) :
  decides (match o with OGt => l > r | OGe => l >= r | OLt => l < r | OLe => l <= r end%Z) (assert_order o l r).
Proof.
  destruct o; cbn; unfold assert_gt, assert_ge, assert_lt, assert_le;
    [destruct (Z.ltb_spec r l)|destruct (Z.leb_spec r l)|destruct (Z.ltb_spec l r)|destruct (Z.leb_spec l r)];
    split; intros; try done; try lia; eauto.
Qed.

Lemma apply_decides (a : Assertion) (error : option Str) (s : St) :
  well_typed a →
  (holds a → apply_assertion a error s = (s, Ok [])) ∧ (¬ holds a → fails error s (apply_assertion a error s)).
Proof.
  intros Ht. destruct a; cbn [holds Asserts.apply_assertion well_typed] in *; apply handle_decides;
    try apply decides_eq; try apply decides_ne; try apply decides_order.
  - destruct condition; split; try done; cbn; eauto.
  - destruct condition; split; try done; cbn; eauto.
  - destruct Ht. eapply decides_iff; [|apply decides_eq]. split; [by apply encode_prefixed_inj|by intros ->].
  - destruct Ht. eapply decides_iff; [|apply decides_eq]. split; [by apply encode_array_inj|by intros ->].
  - destruct Ht. eapply decides_iff; [|apply decides_ne]. split; intros Hne Heq; apply Hne; [by rewrite Heq|by apply encode_prefixed_inj].
  - destruct Ht. eapply decides_iff; [|apply decides_ne]. split; intros Hne Heq; apply Hne; [by rewrite Heq|by apply encode_array_inj].
  - destruct Ht as (? & ? & _). by apply approx_abs_holds.
  - destruct Ht as (? & ? & _). by apply approx_abs_holds.
  - destruct Ht as (? & ? & _). by apply approx_rel_holds.
  - destruct Ht as (? & ? & _). by apply approx_rel_holds.
Qed.
End outcome.

(** ** Failed tests *)

Section failed_tests.
Context {AT : AbiTypes} {ET : EvmTypes} {FT : ForkTypes} {CT : CheatTypes} {DS : DynSol} {XT : ExecTypes} {AL : Alloy}.
Context {B : Type} {TB : TestBackend B}.
Context (initial_gas : Env → SpecId → Z) (revert_decode : Bytes → InstructionResult → Str).
Context (inspect : B → Env → SpecId → InspectorStack → Shared →
  Shared * (B * result (Env * InspectorStack * (ExecutionResult * gmap Z Account)) Str)).
Context (failed_calldata : Bytes) (decode_bool : Bytes → option bool) (format_units : Z → Z → Str).
Context {St : Type} (console_log : Str → St → St) (sstore : Z → Z → Z → St → result St Str).
(** The changes of a state, which [sstore] adds to. *)
Context (changes : St → gmap Z Account).
Context (Hsstore : ∀ a k v s s', sstore a k v s = Ok s' →
  ∃ acc slot, changes s' !! a = Some acc ∧ acc_storage acc !! k = Some slot ∧ present_value slot = v).

(** C15: An assertion does what it says, for arguments within their types.  It succeeds and changes nothing exactly if its condition holds: of equality and order; of a difference of at most the given one; or of a relative difference of at most the given one, as long as the difference times ten to the eighteenth fits in 256 bits.  Otherwise it fails with a message that begins with the given one: by reverting with it, or by logging it and setting the slot that marks the test as failed, after which the executor does not count the test as a success. *)
Theorem assertion_outcome (assertions_revert : bool) (a : Assertion) (error : option Str) (s : St) :
  well_typed a →
  let r := apply_assertion format_units console_log sstore assertions_revert a error s in
  (holds a → r = (s, Ok [])) ∧
  (¬ holds a → fails console_log sstore assertions_revert error s r ∧
     (assertions_revert = false → r.2 = Ok [] → ∀ (x : Executor (B := B)) address sh,
        is_success initial_gas revert_decode inspect failed_calldata decode_bool x address false (changes r.1) false sh =
        (sh, false))).
Proof.
  intros Ht r. destruct (apply_decides format_units console_log sstore assertions_revert a error s Ht) as [Hy Hn].
  split; [exact Hy|]. intros Hh. split; [by apply Hn|]. intros -> Hok x address sh.
  destruct (Hn Hh) as (msg & _ & Hm). unfold failure in Hm. fold r in Hm. rewrite Hm in Hok |- *.
  destruct (sstore _ _ _ _) as [s1|e] eqn:E; [|done].
  destruct (Hsstore _ _ _ _ _ E) as (acc & slot & Hc & Hslot & Hv).
  unfold is_success, is_success_raw, global_failure. cbn [fst]. rewrite Hc, Hslot, Hv. by destruct (tb_snapshot_failure _).
Qed.
End failed_tests.

Module AssertExample.
#[local] Existing Instance InvariantExample.evm.
(** The console and the changes. *)
Definition state : Type := list Str * gmap Z Account.
Definition log (m : Str) (s : state) : state := (m :: s.1, s.2).
Definition store (a k v : Z) (s : state) : result state Str :=
  Ok (s.1, <[a := mk_account (mk_info 0 0 0 None) {[ k := mk_slot 0 v false ]} false true 0]> s.2).
End AssertExample.

Lemma assertion_outcome_witness :
  let r := apply_assertion (AL := TargetExample.alloy) (λ _ _, []) AssertExample.log AssertExample.store false
    (AssertApproxEqAbs KInt (-3) 4 6) (Some (str "off")) ([], ∅) in
  fails AssertExample.log AssertExample.store false (Some (str "off")) ([], ∅) r.
Proof.
  refine (proj1 (proj2 (assertion_outcome (AT := ContractExample.types) (ET := InvariantExample.evm)
    (FT := InvariantExample.fork) (CT := InvariantExample.cheats) (DS := InvariantExample.dyn) (XT := InvariantExample.exec)
    (AL := TargetExample.alloy) (TB := InvariantExample.backend) InvariantExample.gas InvariantExample.reason
    InvariantExample.inspect [] InvariantExample.no_bool (λ _ _, []) AssertExample.log AssertExample.store snd _ false
    (AssertApproxEqAbs KInt (-3) 4 6) (Some (str "off")) ([], ∅) _) _)).
  - intros a k v s s' [= <-]. eexists _, _. cbn. rewrite lookup_insert_eq. split; [done|]. cbn. by rewrite lookup_singleton_eq.
  - vm_compute. intuition discriminate.
  - cbn. lia.
Defined.
